(* ===== verification/_CoqProject ===== *)
-Q . S2P
Prelude.v
Json.v
Schema.v
SchemaFacts.v
EventKind.v
EventSchemas.v
Contracts.v
Records.v
Session.v
Store.v
Journal.v
Branches.v
StoreOps.v
StoreInv.v
StoreProps.v
EventLog.v
Control.v
ControlFacts.v
ControlExamples.v
Lease.v
LeaseFacts.v
LeaseProps.v
LeaseExamples.v
Retry.v
Ingress.v
Queue.v
Endpoint.v
Propagator.v
Text.v
Http.v
HttpFacts.v
Sync.v
SyncLive.v
SyncExamples.v
Mandates.v
MandateFacts.v
Clock.v
ClockFacts.v
ClockBridge.v
ClockExamples.v
Bindings.v
Patch.v
PatchFacts.v
PatchFormat.v
Context.v
ContextFacts.v
Coupling.v
CouplingFacts.v
CouplingQuota.v
ReadPlan.v
ReadPlanFacts.v
Stdlib.v
StdlibFacts.v
StdlibExamples.v
LoopContinuation.v
LoopFacts.v
Canonical.v
Admission.v
AdmissionFacts.v
AdmissionProps.v
Vfs.v
VfsProps.v
ObjectFs.v
ObjectFacts.v
ObjectOps.v
ObjectExamples.v
Join.v
Spawn.v
SpawnTasks.v
SpawnFacts.v
SpawnProps.v
Recovery.v
SpawnExamples.v
RecoveryFacts.v
