(* ===== verification/Prelude.v ===== *)
(** * Verlet kernel: a verification development

    Verlet runs agent threads whose whole history is an append-only journal of
    events.  This library models the parts of its kernel that decide what the
    journal may hold, who may extend it, how it is carried to a parent, what may
    happen because of it or of the clock, and what becomes of it after a crash,
    and proves what those parts promise.  Paths are relative to [src/crates/].

    ** The parts and how they interact

    Every thread has a control stream of events.  A store appends to streams and
    keeps, per thread, a tree of session entries that mirrors some of the events.
    Decision functions read a control stream and allow, deny or defer an action.
    Couplings react to events with events of their own, under quotas.  Turns are
    admitted before they run, and may ask for another.  Mandates are events of a
    control stream, and a clock turns the active ones into timer events.  A
    thread spawns children and joins them.  A child propagates its streams to a
    parent, where a lease authority lets one remote writer per stream push events
    and a queue holds what the parent sends back.  Projections such as the
    attached bindings are folds of a stream.

    - Values.  [Json] is the value type of serde_json, [Text] bytes and [str].
      [Schema] is the JSON schema subset of
      [verlet-runtime-contracts/src/schema.rs]: a first pass
      ([validate_schema_interpretable]) accepts schemas, a second
      ([validate_schema_value]) checks values, and a registry maps ids to
      schemas.  [Contracts] holds thread identity and topology
      ([verlet-runtime-contracts/src/lib.rs]).  [Canonical] is the JSON text that
      configuration hashes are taken of ([verlet-kernel/src/agent/manifest_bind.rs]).
    - Records, all of [verlet-history/src/lib.rs].  [EventKind] is the closed
      vocabulary of events with its routing; [EventSchemas] the frozen schema
      documents and the v1 registry; [Records] events, envelopes, cursors, acks
      and routing decisions with the checks made of each; [Session] messages,
      session entries and the context a model sees.
    - The in-memory store, [InMemorySessionStore] of the same file.  [Store] has
      one function per trait method on the state [Inner] (the mutex's contents:
      entries, active leaves, bases, events, event ids, observations, lease
      minimums).  [EventLog] is the interface [EventStore], with its fenced and
      unfenced appends and their laws; [Handle] (the state seen through a lease
      epoch) discharges them.
    - Control, [verlet-kernel/src/kernel/control_decision.rs].  [Control] has
      [decide_tool_call], [decide_turn_continuation], [decide_placement] and
      [list_pending_tool_call_suspensions], each loop body a named step.
    - Turns.  [Admission] reserves a turn of a thread with its pending-input
      permit, records the admission, submits the turn and times it out
      ([verlet-kernel/src/kernel/admission.rs], [runtime_host.rs], [turn.rs]);
      [LoopContinuation] decides whether a finished turn is followed by another
      ([kernel/runtime_host/loop_continuation.rs]).
    - What a model is given.  [Context] compiles a session into the messages of a
      request and plans compaction ([kernel/context_compiler.rs],
      [compaction.rs]); [ReadPlan] reduces read plans to texts and records
      checkpoints ([kernel/runtime_host/context_read_plan.rs],
      [runtime_services.rs]).
    - Couplings.  [Coupling] is the scheduler's cycle
      ([kernel/coupling_scheduler.rs]) over an executor; [Stdlib] the sixteen
      standard functions ([stdlib_couplings.rs]) and the catalog of templates
      ([agent/coupling_templates.rs]).
    - Children.  [Spawn] has the folds of spawn requests, task names and handle
      bindings and [SpawnTasks] the dispatchers and projectors that start
      children ([kernel/thread_spawn_projector.rs],
      [runtime_host/kernel_control.rs]); [Join] the append of the one
      [thread.joined] of a child ([runtime_services.rs]); [Recovery] the sweep
      that joins and settles what died with a daemon
      ([verlet-kernel/src/daemon/recovery_sweep.rs]).
    - Mandates and the clock.  [Mandates] starts, lists and revokes mandates
      ([verlet-kernel/src/kernel/mandate_lifecycle.rs]); [Clock] computes the
      next occurrence of each and submits the due ones
      ([verlet-kernel/src/daemon/clock_route.rs]); [ClockBridge] admits what was
      submitted ([submit_clock_tick_envelope] of
      [verlet-kernel/src/daemon/daemon_io.rs]).  All three work on any
      [EventStore]; the route's two SQL queries are written over the rows of the
      event table ([EventTable]).
    - Leases, [verlet-kernel/src/daemon/remote_store/lease.rs].  [Lease] keeps
      the two SQL tables as lists of rows next to an [EventStore]; a transaction
      is a state-passing function, a query the rows it selects.
    - Synchronisation, the other files of [verlet-kernel/src/daemon/remote_store].
      [Ingress] is the envelope type of [verlet-io-core/src/lib.rs] with its
      checks; [Queue] the parent's ingress queue ([queue.rs]); [Endpoint] the
      push, pull, renewal and acknowledgement of the parent ([endpoint.rs]), over
      the lease authority, the queue and a table of durable rejections;
      [Propagator] the child's loop and the tail of the queue ([propagator.rs],
      [tail.rs]).  [Http] is the transport ([endpoint_http.rs]): the status and
      body of each answer, and the framing of requests and responses.
      [Sync] puts a child and a parent together over a network that may lose a
      request or its answer.
    - Files.  [Vfs] has mounts, path resolution, the journal of mutations and the
      read-only view, [ObjectFs] the mount of an object store with its
      write-back queue and cache ([verlet-vfs/src/lib.rs]); [Patch] parses
      patches and applies them ([verlet-vbash/src/apply_patch.rs]).
    - [Bindings] has the fold of a control stream into bindings and the delta to
      a desired list ([verlet-kernel/src/kernel/binding_projector.rs]); [Retry]
      the state machine that spaces the polls of a failing component
      ([verlet-kernel/src/daemon/retry.rs]).

    ** How code becomes definitions

    [Result] is [result]; a function that threads the store or the tables is in
    the monad [st] ([<-!] and [;;!]), a pure fallible one in [result] ([<-?] and
    [;;?]).  A lock or a transaction makes each trait method one step, so a
    method is a function of the state and interleavings are sequences of steps
    ([step] in [StoreProps], [authority_step] in [LeaseProps], [control_step] in
    [ClockBridge], the turns of [Sync]); a transaction that fails leaves the
    tables as they were.  Where what runs between two calls matters, a caller is
    a phase and a step of it one call: the joiners of [Join], the tasks of
    [SpawnTasks] (what the host answers is an input of the step) and the callers
    and watchdogs of [Admission].  Ids, times and secrets that the code draws are
    arguments.  An [i64] or [u64] is a [Z] and its checked, wrapping and
    saturating operations are written out; a [Duration] or an instant is a number
    of nanoseconds.  Maps and sets are [gmap] and [gset], the rows of a table a
    list, a [BTreeMap] the list of its entries in key order, a [BinaryHeap] the
    list of what was pushed, sorted when it is popped.  The text of an error is
    the constructor it is formatted from, with the values it quotes.

    Third-party behaviour is a parameter: the text of a uuid ([UuidText], whose
    law is that distinct uuids have distinct texts, and [UuidParse], which reads
    them back), the decoders serde derives ([ControlCodec], [BindingCodec],
    [EntryCodec], [BodyCodec], [TimerCodec], [StdlibCodec], [SpawnCodec],
    [JoinCodec], [HandleCodec]; where a proof needs it, their law is that they
    read back what was written) and the texts it formats ([JsonTexts],
    [SpawnTexts]), chrono, the cron engine and the timezones ([Calendar]), SHA-256
    ([Sha256]), the digest of a token and the fingerprint of a request, tokio's
    semaphores and channels ([Semaphore], [CommandChannel]), bashkit's file system
    and path normalization ([FileSystem], [PathNormalizer]), the object store
    ([ObjectStore], [ObjectPaths]).  The event store under a decision, a mandate, a
    spawn or a lease authority is any instance of [EventStore]; the parent a
    propagator talks to is any [SyncWorld], the sink of the clock any
    [IngressSink], the executor of a coupling any [CouplingExecutor], the host a
    continuation is submitted to any [TurnHost]; the recovery's list of streams and
    its dispatcher of processes are [ControlStreams] and [ProcessDispatcher].

    ** What is proved

    - [SchemaFacts]: the validator accepts exactly the interpretable schemas and
      the conforming values, where conforming is defined without depth, fuel or
      paths; every error names the path it is about.  [Canonical]: two values
      have the same canonical text exactly when they are the same up to the order
      of members.
    - [Records]: exactly which envelopes, acks and cursors are accepted, and
      where a record is routed.
    - [Journal], [Branches], [StoreOps], [StoreInv], [StoreProps]: the invariant
      of every reachable store (dense sequences, unique ids, validated records,
      journaled entries, acyclic branches and bases); errors change nothing and
      nothing committed is lost; fences and lease epochs exclude stale writers;
      every call returns; a context holds only entries its thread may see; what
      append, fork, clone, turn replay and cursor reads do.
    - [ControlFacts]: a tool call is allowed, a turn continued or a placement
      chosen only by a fresh fact of the control stream, for every lawful store;
      the loops equal their declarative readings.
    - [AdmissionFacts], [AdmissionProps]: no turn runs before its admission is
      recorded, turn ids are reserved once, the inputs pending stay within the
      limit, what is not sent is released, and a queued turn is not timed out.
      [LoopFacts]: a continuation is recorded as it is decided, and decided once.
    - [ContextFacts], [ReadPlanFacts]: the compiled context keeps its budgets and
      cuts the oldest first; plans are reduced to the texts they name.
    - [CouplingFacts], [CouplingQuota]: a cycle ends, what it writes is what its
      receipts report, quotas hold across cycles.  [StdlibFacts]: discharges
      conform to the frozen schemas and to their sinks; gates and memories do
      what the loop and the next model call rely on.
    - [SpawnFacts], [SpawnProps]: however dispatchers and projectors interleave,
      a request is claimed once, one child is asked for and recorded, every
      dispatcher is answered with it, and a task name stands for one child.
      [Join]: one join is written per spawn and every joiner returns it.
      [RecoveryFacts]: a sweep joins exactly what died unjoined, each with the
      state its child recorded, a second sweep adds nothing to what the first
      could write, and the processes it settles are those without an outcome.
    - [MandateFacts]: a listing is the started mandates minus the revoked ones; a
      start makes exactly its mandate active and only for a schedule that was
      validated; a revocation is recorded once and is final.
    - [ClockFacts]: an occurrence is never scheduled again after it fired; what
      becomes of missed occurrences; what one poll submits; and that a fired [at]
      mandate without a maximum ends every later poll.  [ClockBridge]: no
      occurrence fires twice in any history, and a due tick becomes the event it
      describes and moves its mandate on.
    - [LeaseFacts], [LeaseProps]: at most one lease writes a stream in every
      reachable authority; grants hand over, renewals only extend, releases are
      final; tokens stand for their lease; a push commits exactly its batch or
      nothing.
    - [Queue]: a dispatch has one entry, and a tail resumes where its page
      ended.  [Endpoint]: a push settles one way and a retry gets the same
      answer; a batch of local records passes its validation.  [Propagator]
      proves the child's loop against the interface [SyncWorldLaws], and
      [Sync] discharges that interface for a real parent behind a lossy
      network: the claimed position never exceeds what the parent holds, in
      whole runs too.  [SyncLive] shows that a child whose requests get through
      drains its stream, and where a lost answer strands it.
    - [Text], [HttpFacts]: a request is read the same however its bytes
      arrive, an accepted one has an unambiguous length, and a response written
      by the server is the one the Unix client reads.
    - [Vfs], [VfsProps]: a path resolves to its nearest mount, the journal is
      that of the edits, a read-only mount is not changed.  [ObjectFacts],
      [ObjectOps]: an object-store mount behaves as a map from paths to contents
      through flushes and evictions, and what was flushed survives a restart.
    - [PatchFacts], [PatchFormat]: an update splices its chunks, the parser reads
      back every patch in its format, and a patch changes the files it names.
    - [Bindings]: which bindings are active after any history, and that
      committing a delta reaches the desired bindings.
    - [Retry]: the delays and logs of an outage and what ends it.
    - The example modules apply the theorems at concrete inputs and compute the
      runs that show a defect.

    ** Fuel

    The schema passes recurse with [SCHEMA_FUEL], two more than the depth at
    which the code stops; [validate_schema_fuel_irrelevant] shows any such fuel
    gives the same answer.  [branch_path] takes one more step than its thread
    has entries and [build_context] two more than there are bases; on a
    reachable store neither runs out ([store_calls_return]), and outside one,
    where the code would loop, the model answers [None].  [read_head] and
    [read_body] take the bytes still to come as fuel, which
    [read_request_chunks] shows is enough; [push_loop] recurses on the renewals
    the code allows one push; the polls of [drain_converges] are a number the
    theorem gives.  A scheduler cycle takes [cycle_fuel], which [cycle_returns]
    shows is enough.  The loops of the patch parser take the lines that are left
    and answer [Looping] without, which [PatchFormat] shows they never do.
    [move_directories] answers [None] when its fuel is used up, as on a directory
    moved into itself, where the code goes on.  A joiner that runs alone takes two
    steps of fuel ([join_run_alone]).  The other loops are structural; an iterator
    of the cron engine is the finite list it yields before its search limit.

    ** What is not modelled

    Process, network, file and terminal I/O, among them the sockets and accept
    loops of the transport and its reqwest client, the daemon's I/O bridge but
    for clock ticks, the mounted host directory, and operating-system processes;
    the HTTP providers, the protocol adapters, the user interfaces and the
    engines of third parties: what they do is not a function of the kernel's
    state.  The SQLite stores, whose behaviour is the database's, apart from the
    clock's two queries.  The resolution of a manifest against packages,
    providers and secrets, which assembles external configuration, with the
    schemas of manifests and the reading of a manifest receipt for the active
    tool controller.  The agent loop and the runtime host, which run the parts
    above in asynchronous tasks around a provider.  Guest tools and the guest
    ABI, the egress half of [verlet-io-core], the pgqrs and Telegram adapters, and
    the endpoint's listen settings. *)

From stdpp Require Import base gmap sets list strings pretty sorting.
From Stdlib Require Import ZArith Lia.

(** ** Results *)

(** Rust's [Result<A, E>]. *)
Inductive result (A E : Type) : Type :=
  | Ok (a : A)
  | Err (e : E).
Arguments Ok {A E} _.
Arguments Err {A E} _.

Declare Scope verlet_scope.
Delimit Scope verlet_scope with verlet.

Section Result.
Context {A B E F : Type}.

(** The [?] operator. *)
Definition result_bind (r : result A E) (k : A -> result B E) : result B E :=
  match r with Ok a => k a | Err e => Err e end.

Definition map_err (f : E -> F) (r : result A E) : result A F :=
  match r with Ok a => Ok a | Err e => Err (f e) end.

Definition result_map (f : A -> B) (r : result A E) : result B E :=
  match r with Ok a => Ok (f a) | Err e => Err e end.

(** [Option::ok_or]. *)
Definition ok_or (o : option A) (e : E) : result A E :=
  match o with Some a => Ok a | None => Err e end.

Definition is_ok (r : result A E) : bool :=
  match r with Ok _ => true | Err _ => false end.
End Result.

Notation "x '<-?' e ;; k" := (result_bind e (fun x => k))
  (at level 100, e at next level, right associativity) : verlet_scope.
Notation "e ';;?' k" := (result_bind e (fun _ => k))
  (at level 100, right associativity) : verlet_scope.

(** A [for] loop whose body may return early with an error. *)
Fixpoint for_each {A E} (f : A -> result unit E) (l : list A) : result unit E :=
  match l with
  | [] => Ok tt
  | a :: l' => match f a with Ok _ => for_each f l' | Err e => Err e end
  end.

(** [iter().map(f).collect::<Result<Vec<_>, _>>()]. *)
Fixpoint collect {A B E} (f : A -> result B E) (l : list A) : result (list B) E :=
  match l with
  | [] => Ok []
  | a :: l' =>
      match f a with
      | Ok b => match collect f l' with Ok bs => Ok (b :: bs) | Err e => Err e end
      | Err e => Err e
      end
  end.

(** A loop that threads an accumulator and may return early with an error. *)
Fixpoint try_fold {A S E} (f : S -> A -> result S E) (s : S) (l : list A) : result S E :=
  match l with
  | [] => Ok s
  | a :: l' => match f s a with Ok s' => try_fold f s' l' | Err e => Err e end
  end.

(** ** State and errors *)

(** A call that may change the state [S] it runs on, whether it succeeds or fails. *)
Definition st (S E A : Type) : Type := S -> S * result A E.

Section State.
Context {S E A B : Type}.

Definition st_ret (a : A) : st S E A := fun s => (s, Ok a).
Definition st_bind (m : st S E A) (k : A -> st S E B) : st S E B :=
  fun s => match m s with
           | (s', Ok a) => k a s'
           | (s', Err e) => (s', Err e)
           end.
Definition st_get : st S E S := fun s => (s, Ok s).
Definition st_modify (f : S -> S) : st S E unit := fun s => (f s, Ok tt).
Definition st_lift (r : result A E) : st S E A := fun s => (s, r).
End State.

Notation "x '<-!' e ;; k" := (st_bind e (fun x => k))
  (at level 100, e at next level, right associativity) : verlet_scope.
Notation "e ';;!' k" := (st_bind e (fun _ => k))
  (at level 100, right associativity) : verlet_scope.

Create HintDb verlet.

(** ** Tactics *)

(** Splits every [match] on a result or option in the goal or in a hypothesis
    and discharges the contradictory branches. *)
Ltac simplify_result :=
  repeat match goal with
  | H : Ok _ = Ok _ |- _ => injection H as H; subst
  | H : Err _ = Err _ |- _ => injection H as H; subst
  | H : Ok _ = Err _ |- _ => discriminate H
  | H : Err _ = Ok _ |- _ => discriminate H
  | H : result_bind ?e _ = _ |- _ =>
      let Heq := fresh "Heq" in destruct e eqn:Heq; cbn [result_bind] in H
  | H : map_err _ ?e = _ |- _ =>
      let Heq := fresh "Heq" in destruct e eqn:Heq; cbn [map_err] in H
  | H : ok_or ?e _ = _ |- _ =>
      let Heq := fresh "Heq" in destruct e eqn:Heq; cbn [ok_or] in H
  end.

(** Case analysis on the scrutinee of an [if] or [match] in a hypothesis. *)
Ltac case_hyp H :=
  match type of H with
  | context [match ?x with _ => _ end] =>
      lazymatch x with
      | context [match _ with _ => _ end] => fail
      | _ => let Heq := fresh "Hcase" in destruct x eqn:Heq
      end
  end.

(** Turns boolean tests in the context into propositions. *)
Ltac to_prop :=
  repeat match goal with
  | H : (_ && _)%bool = true |- _ => apply andb_true_iff in H as [? ?]
  | H : (_ || _)%bool = false |- _ => apply orb_false_iff in H as [? ?]
  | H : negb _ = true |- _ => apply negb_true_iff in H
  | H : negb _ = false |- _ => apply negb_false_iff in H
  | H : String.eqb _ _ = true |- _ => apply String.eqb_eq in H
  | H : String.eqb _ _ = false |- _ => apply String.eqb_neq in H
  | H : bool_decide _ = true |- _ => apply bool_decide_eq_true_1 in H
  | H : bool_decide _ = false |- _ => apply bool_decide_eq_false_1 in H
  | H : Z.leb _ _ = true |- _ => apply Z.leb_le in H
  | H : Z.leb _ _ = false |- _ => apply Z.leb_gt in H
  | H : Z.ltb _ _ = true |- _ => apply Z.ltb_lt in H
  | H : Z.ltb _ _ = false |- _ => apply Z.ltb_ge in H
  | H : Z.eqb _ _ = true |- _ => apply Z.eqb_eq in H
  | H : Z.eqb _ _ = false |- _ => apply Z.eqb_neq in H
  | H : N.eqb _ _ = true |- _ => apply N.eqb_eq in H
  | H : N.eqb _ _ = false |- _ => apply N.eqb_neq in H
  | H : Nat.ltb _ _ = true |- _ => apply Nat.ltb_lt in H
  | H : Nat.ltb _ _ = false |- _ => apply Nat.ltb_ge in H
  | H : Nat.leb _ _ = true |- _ => apply Nat.leb_le in H
  | H : Nat.leb _ _ = false |- _ => apply Nat.leb_gt in H
  | H : Nat.eqb _ _ = true |- _ => apply Nat.eqb_eq in H
  | H : Nat.eqb _ _ = false |- _ => apply Nat.eqb_neq in H
  end.

(** ** Reasoning about state and errors *)

Section StateFacts.
Context {S E A B : Type}.
Implicit Types (s : S) (e : E) (a : A) (b : B).

Lemma st_bind_ok (m : st S E A) (k : A -> st S E B) s s' b :
  st_bind m k s = (s', Ok b) <-> exists s1 a, m s = (s1, Ok a) /\ k a s1 = (s', Ok b).
Proof.
  unfold st_bind. destruct (m s) as [s1 [a|e]]; [naive_solver|].
  split; [done|]. by intros (? & ? & ? & _).
Qed.

Lemma st_bind_err (m : st S E A) (k : A -> st S E B) s s' e :
  st_bind m k s = (s', Err e) <->
  m s = (s', Err e) \/ exists s1 a, m s = (s1, Ok a) /\ k a s1 = (s', Err e).
Proof. unfold st_bind. destruct (m s) as [s1 [a|e']]; naive_solver. Qed.

Lemma st_lift_ok (r : result A E) s s' a : st_lift r s = (s', Ok a) <-> s' = s /\ r = Ok a.
Proof. unfold st_lift. naive_solver. Qed.

Lemma st_lift_err (r : result A E) s s' e : st_lift r s = (s', Err e) <-> s' = s /\ r = Err e.
Proof. unfold st_lift. naive_solver. Qed.

Lemma st_ret_ok a a' s s' : @st_ret S E A a s = (s', Ok a') <-> s' = s /\ a' = a.
Proof. unfold st_ret. naive_solver. Qed.

Lemma st_modify_ok (f : S -> S) s s' u : @st_modify S E f s = (s', Ok u) <-> s' = f s.
Proof. unfold st_modify. destruct u. naive_solver. Qed.

Lemma st_get_ok s s' s0 : @st_get S E s = (s', Ok s0) <-> s' = s /\ s0 = s.
Proof. unfold st_get. naive_solver. Qed.
End StateFacts.

(** Takes a run of the state monad in the hypotheses apart, one call at a time. *)
Ltac st_inv :=
  repeat match goal with
  | H : st_bind _ _ _ = (_, Ok _) |- _ =>
      let s1 := fresh "s" in let a := fresh "a" in let H1 := fresh "Hrun" in
      apply st_bind_ok in H as (s1 & a & H1 & H)
  | H : st_bind _ _ _ = (_, Err _) |- _ =>
      let s1 := fresh "s" in let a := fresh "a" in let H1 := fresh "Hrun" in
      apply st_bind_err in H as [H|(s1 & a & H1 & H)]
  | H : st_get _ = (_, Ok _) |- _ => apply st_get_ok in H as [-> ->]
  | H : st_get _ = (_, Err _) |- _ => discriminate H
  | H : st_ret _ _ = (_, Ok _) |- _ =>
      apply st_ret_ok in H as [-> H]; try match type of H with ?x = _ => subst x end
  | H : st_ret _ _ = (_, Err _) |- _ => discriminate H
  | H : st_modify _ _ = (_, Ok _) |- _ => apply st_modify_ok in H as ->
  | H : st_modify _ _ = (_, Err _) |- _ => discriminate H
  | H : st_lift _ _ = (_, Ok _) |- _ =>
      let H1 := fresh "Hlift" in apply st_lift_ok in H as [-> H1]
  | H : st_lift _ _ = (_, Err _) |- _ =>
      let H1 := fresh "Hlift" in apply st_lift_err in H as [-> H1]
  end.

(** ** Machine integers *)

Definition i64_min : Z := - 2 ^ 63.
Definition i64_max : Z := 2 ^ 63 - 1.
Definition u64_max : Z := 2 ^ 64 - 1.
Definition in_i64 (z : Z) : bool := (i64_min <=? z)%Z && (z <=? i64_max)%Z.
Definition in_u64 (z : Z) : bool := (0 <=? z)%Z && (z <=? u64_max)%Z.

(** [i64::checked_add]. *)
Definition i64_checked_add (a b : Z) : option Z :=
  if in_i64 (a + b) then Some (a + b)%Z else None.

(** [i64::saturating_add] and [i64::saturating_sub]. *)
Definition i64_saturate (z : Z) : Z := Z.max i64_min (Z.min z i64_max).
Definition i64_saturating_add (a b : Z) : Z := i64_saturate (a + b).
Definition i64_saturating_sub (a b : Z) : Z := i64_saturate (a - b).

(** [u64::saturating_add]. *)
Definition u64_saturating_add (a b : Z) : Z := Z.min (a + b) u64_max.

(** ** Strings *)

(** [str::strip_prefix]. *)
Fixpoint strip_prefix (p s : string) : option string :=
  match p, s with
  | EmptyString, _ => Some s
  | String a p', String b s' => if Ascii.eqb a b then strip_prefix p' s' else None
  | String _ _, EmptyString => None
  end.

(** [str::starts_with]. *)
Definition starts_with (p s : string) : bool :=
  match strip_prefix p s with Some _ => true | None => false end.

(** Byte order on strings, the order of [BTreeMap<String, _>] keys. *)
Fixpoint str_cmp (a b : string) : comparison :=
  match a, b with
  | EmptyString, EmptyString => Eq
  | EmptyString, String _ _ => Lt
  | String _ _, EmptyString => Gt
  | String x a', String y b' =>
      match N.compare (Ascii.N_of_ascii x) (Ascii.N_of_ascii y) with
      | Eq => str_cmp a' b'
      | c => c
      end
  end.

Lemma str_cmp_refl s : str_cmp s s = Eq.
Proof. induction s as [|a s IH]; simpl; [done|]. by rewrite N.compare_refl. Qed.

Lemma str_cmp_eq a b : str_cmp a b = Eq <-> a = b.
Proof.
  split; [|intros ->; apply str_cmp_refl].
  revert b. induction a as [|x a IH]; intros [|y b]; simpl; try done.
  destruct (N.compare_spec (Ascii.N_of_ascii x) (Ascii.N_of_ascii y)) as [Heq| |]; try done.
  intros H. rewrite <- (Ascii.ascii_N_embedding x), <- (Ascii.ascii_N_embedding y), Heq.
  f_equal. by apply IH.
Qed.

Lemma strip_prefix_spec p s r : strip_prefix p s = Some r <-> s = (p +:+ r).
Proof.
  revert s. induction p as [|a p IH]; intros s; simpl.
  - split; [by intros [= ->] | by intros ->].
  - destruct s as [|b s]; [split; intros; discriminate|].
    destruct (Ascii.eqb_spec a b) as [->|Hne].
    + rewrite IH. split; [by intros -> | by intros [= ->]].
    + split; [done | by intros [= -> _]].
Qed.

Lemma starts_with_iff p s : starts_with p s = true <-> exists r, s = (p +:+ r).
Proof.
  unfold starts_with. destruct (strip_prefix p s) as [r|] eqn:Hr.
  - apply strip_prefix_spec in Hr. naive_solver.
  - split; [done|]. intros (r & ->). by rewrite (proj2 (strip_prefix_spec p (p +:+ r) r)) in Hr.
Qed.

Lemma string_app_inj_l p a b : (p +:+ a) = (p +:+ b) -> a = b.
Proof. apply (inj (String.append p)). Qed.

Lemma string_app_assoc (a b c : string) : ((a +:+ b) +:+ c) = (a +:+ (b +:+ c)).
Proof. induction a as [|x a IH]; [reflexivity | exact (f_equal (String x) IH)]. Qed.

Lemma string_app_nil_r (s : string) : (s +:+ "") = s.
Proof. induction s as [|x s IH]; [reflexivity | exact (f_equal (String x) IH)]. Qed.

Lemma string_app_inj_r p a b : (a +:+ p) = (b +:+ p) -> a = b.
Proof.
  intros H. apply (f_equal String.length) in H as Hl.
  assert (forall s t, String.length (s +:+ t) = (String.length s + String.length t)%nat) as Happ.
  { intros s t. induction s as [|x s IH]; [reflexivity | exact (f_equal S IH)]. }
  rewrite !Happ in Hl. revert b H Hl.
  induction a as [|x a IH]; intros [|y b] H Hl; simpl in Hl; try done; try lia.
  injection H as -> H. f_equal. apply IH; [exact H | lia].
Qed.

(** The UTF-8 encodings of the characters [char::is_whitespace] accepts. *)
Definition bytes_str (l : list nat) : string :=
  fold_right (fun b s => String (Ascii.ascii_of_nat b) s) EmptyString l.

Definition WHITESPACE : list string :=
  map (fun b => bytes_str [b]) [9; 10; 11; 12; 13; 32] ++
  map (fun b => bytes_str [194; b]) [133; 160] ++
  [bytes_str [225; 154; 128]] ++
  map (fun b => bytes_str [226; 128; b])
    [128; 129; 130; 131; 132; 133; 134; 135; 136; 137; 138; 168; 169; 175] ++
  [bytes_str [226; 129; 159]; bytes_str [227; 128; 128]].

(** Drops leading occurrences of the given characters; the string's length bounds the loop. *)
Fixpoint trim_chars (fuel : nat) (chars : list string) (s : string) : string :=
  match fuel with
  | O => s
  | S fuel =>
      match list_find (fun c => is_Some (strip_prefix c s)) chars with
      | Some (_, c) => match strip_prefix c s with Some r => trim_chars fuel chars r | None => s end
      | None => s
      end
  end.

(** [str::trim]. *)
Definition str_trim (s : string) : string :=
  let s := trim_chars (String.length s) WHITESPACE s in
  String.rev (trim_chars (String.length s) (map String.rev WHITESPACE) (String.rev s)).

(** ** Ordering *)

(** [sort_by_key]: a stable insertion sort by the byte order of a string key. *)
Fixpoint insert_by_key {A} (key : A -> string) (x : A) (l : list A) : list A :=
  match l with
  | [] => [x]
  | y :: l' => match str_cmp (key x) (key y) with
               | Gt => y :: insert_by_key key x l'
               | _ => x :: l
               end
  end.

Definition sort_by_key {A} (key : A -> string) (l : list A) : list A :=
  fold_right (insert_by_key key) [] l.

(** The same sort by an integer key, the [ORDER BY] of a query on an integer column. *)
Fixpoint insert_by_z {A} (key : A -> Z) (x : A) (l : list A) : list A :=
  match l with
  | [] => [x]
  | y :: l' => if (key x <=? key y)%Z then x :: l else y :: insert_by_z key x l'
  end.

Definition sort_by_z {A} (key : A -> Z) (l : list A) : list A :=
  fold_right (insert_by_z key) [] l.

(** [Iterator::max_by_key] on an integer key: the last of the greatest elements. *)
Definition max_by_key {A} (key : A -> Z) (l : list A) : option A :=
  fold_left (fun best x => match best with
                           | Some b => if (key x <? key b)%Z then Some b else Some x
                           | None => Some x
                           end) l None.

(** ** Loops *)

Lemma for_each_ok {A E} (f : A -> result unit E) l :
  for_each f l = Ok tt <-> Forall (fun a => f a = Ok tt) l.
Proof.
  induction l as [|a l IH]; simpl; [by split|].
  rewrite Forall_cons, <- IH. destruct (f a) as [[]|e]; naive_solver.
Qed.

Lemma for_each_err {A E} (f : A -> result unit E) l e :
  for_each f l = Err e -> exists a, a ∈ l /\ f a = Err e.
Proof.
  induction l as [|a l IH]; simpl; [done|].
  destruct (f a) as [[]|e'] eqn:Hf; intros H.
  - destruct (IH H) as (b & ? & ?). exists b. set_solver.
  - exists a. injection H as <-. set_solver.
Qed.

Lemma for_each_ext {A E} (f g : A -> result unit E) l :
  (forall a, a ∈ l -> f a = g a) -> for_each f l = for_each g l.
Proof.
  induction l as [|a l IH]; simpl; intros H; [done|].
  rewrite H by set_solver. destruct (g a); [|done]. apply IH. set_solver.
Qed.

(** Two binds agree when their steps do. *)
Lemma result_bind_ext {A B E} (r1 r2 : result A E) (k1 k2 : A -> result B E) :
  r1 = r2 -> (forall a, k1 a = k2 a) -> result_bind r1 k1 = result_bind r2 k2.
Proof. intros -> Hk. destruct r2; simpl; auto. Qed.

Lemma collect_ok {A B E} (f : A -> result B E) l bs :
  collect f l = Ok bs <-> Forall2 (fun a b => f a = Ok b) l bs.
Proof.
  revert bs. induction l as [|a l IH]; intros bs; simpl.
  - split; [intros [= <-]; constructor | by inversion 1].
  - split.
    + destruct (f a) as [b|] eqn:Hf; [|done].
      destruct (collect f l) as [bs'|]; [|done]. intros [= <-].
      constructor; [done|]. by apply IH.
    + inversion 1 as [|? b ? bs' Hb Hbs]; subst. rewrite Hb.
      by rewrite (proj2 (IH bs') Hbs).
Qed.

Lemma collect_err {A B E} (f : A -> result B E) l e :
  collect f l = Err e -> exists a, a ∈ l /\ f a = Err e.
Proof.
  induction l as [|a l IH]; simpl; [done|].
  destruct (f a) as [b|e'] eqn:Hf.
  - destruct (collect f l); [done|]. intros [= <-].
    destruct (IH eq_refl) as (x & ? & ?). exists x. set_solver.
  - intros [= <-]. exists a. set_solver.
Qed.

(** A loop over [iter().enumerate()] that collects. *)
Lemma collect_imap_ok {A B E} (f : nat * A -> result B E) l bs :
  collect f (imap pair l) = Ok bs <->
  length bs = length l /\
  forall i a b, l !! i = Some a -> bs !! i = Some b -> f (i, a) = Ok b.
Proof.
  rewrite collect_ok, Forall2_same_length_lookup, length_imap. split.
  - intros [Hl Hf]. split; [done|]. intros i a b Ha Hb.
    apply (Hf i); [by rewrite list_lookup_imap, Ha|done].
  - intros [Hl Hf]. split; [done|]. intros i [j a] b Ha Hb. rewrite list_lookup_imap in Ha.
    destruct (l !! i) eqn:Hi; simplify_eq/=. by apply Hf.
Qed.

Lemma try_fold_app {A S E} (f : S -> A -> result S E) s l1 l2 :
  try_fold f s (l1 ++ l2) =
  match try_fold f s l1 with Ok s' => try_fold f s' l2 | Err e => Err e end.
Proof.
  revert s. induction l1 as [|a l1 IH]; intros s; simpl; [done|].
  destruct (f s a); [apply IH | done].
Qed.

Lemma list_filter_all {A} (P : A -> Prop) `{!forall x, Decision (P x)} l :
  Forall P l -> filter P l = l.
Proof.
  induction 1 as [|x l Hx Hl IH]; [done|]. rewrite filter_cons_True by done. by rewrite IH.
Qed.

Lemma insert_by_key_perm {A} (key : A -> string) x l : insert_by_key key x l ≡ₚ x :: l.
Proof.
  induction l as [|y l IH]; simpl; [done|].
  destruct (str_cmp (key x) (key y)); try done. rewrite IH. constructor.
Qed.

Lemma sort_by_key_perm {A} (key : A -> string) l : sort_by_key key l ≡ₚ l.
Proof.
  induction l as [|x l IH]; simpl; [done|]. by rewrite insert_by_key_perm, IH.
Qed.

Lemma str_cmp_antisym a b : str_cmp b a = CompOpp (str_cmp a b).
Proof.
  revert b. induction a as [|x a IH]; intros [|y b]; simpl; try done.
  rewrite (N.compare_antisym (Ascii.N_of_ascii x)). destruct (_ ?= _)%N; simpl; auto.
Qed.

Lemma sort_by_key_sorted {A} (key : A -> string) l :
  Sorted (fun a b => str_cmp (key a) (key b) <> Gt) (sort_by_key key l).
Proof.
  induction l as [|x l IH]; simpl; [constructor|].
  induction IH as [|y l' Hs IH' Hhd]; simpl; [by repeat constructor|].
  destruct (str_cmp (key x) (key y)) eqn:Hc.
  - constructor; [by constructor|constructor; congruence].
  - constructor; [by constructor|constructor; congruence].
  - constructor; [done|]. pose proof (str_cmp_antisym (key x) (key y)) as Ha. rewrite Hc in Ha.
    destruct Hhd as [|z l'' Hyz]; simpl; [constructor; simpl in Ha; congruence|].
    destruct (str_cmp (key x) (key z)); constructor; simpl in Ha; congruence.
Qed.

Lemma insert_by_z_perm {A} (key : A -> Z) x l : insert_by_z key x l ≡ₚ x :: l.
Proof.
  induction l as [|y l IH]; simpl; [done|]. destruct (_ <=? _)%Z; [done|]. rewrite IH. constructor.
Qed.

Lemma sort_by_z_perm {A} (key : A -> Z) l : sort_by_z key l ≡ₚ l.
Proof. induction l as [|x l IH]; simpl; [done|]. by rewrite insert_by_z_perm, IH. Qed.

Lemma sort_by_z_ordered {A} (key : A -> Z) l :
  StronglySorted (fun a b => (key a <= key b)%Z) (sort_by_z key l).
Proof.
  induction l as [|x l IH]; simpl; [constructor|]. revert IH. generalize (sort_by_z key l).
  induction 1 as [|y k Hk IH Hy]; simpl; [by repeat constructor|].
  destruct (Z.leb_spec (key x) (key y)) as [Hle|Hlt].
  - constructor; [by constructor|]. constructor; [done|]. eapply Forall_impl; [done|]. simpl. lia.
  - constructor; [done|]. rewrite insert_by_z_perm. constructor; [lia|done].
Qed.

(** Rows that already come in the order of a query are left as they are. *)
Lemma sort_by_z_sorted {A} (key : A -> Z) l :
  StronglySorted (fun a b => (key a <= key b)%Z) l -> sort_by_z key l = l.
Proof.
  induction 1 as [|x l _ IH Hle]; simpl; [done|]. rewrite IH.
  destruct Hle as [|y l' Hxy _]; simpl; [done|]. by rewrite (proj2 (Z.leb_le _ _) Hxy).
Qed.

Lemma max_by_key_spec {A} (key : A -> Z) l x :
  max_by_key key l = Some x -> x ∈ l /\ forall y, y ∈ l -> (key y <= key x)%Z.
Proof.
  unfold max_by_key.
  assert (forall best, fold_left (fun best x =>
    match best with Some b => if (key x <? key b)%Z then Some b else Some x | None => Some x end)
    l best = Some x -> (x ∈ l \/ best = Some x) /\ (forall y, y ∈ l \/ best = Some y ->
      (key y <= key x)%Z)) as Hgen.
  { induction l as [|z l IH]; simpl; intros best H.
    - subst. split; [by right|]. intros y [Hy|[= ->]]; [set_solver|lia].
    - apply IH in H as [Hin Hle]. destruct best as [b|].
      + destruct (Z.ltb_spec (key z) (key b)) as [Hlt|Hge].
        * split; [set_solver|]. intros y [[->|Hy]%elem_of_cons|[= ->]]; [|by auto..].
          specialize (Hle b). assert (key b <= key x)%Z by (apply Hle; by right). lia.
        * split; [destruct Hin as [?|[= ->]]; set_solver|].
          intros y [[->|Hy]%elem_of_cons|[= ->]]; [by auto..|].
          assert (key z <= key x)%Z by (apply Hle; by right). lia.
      + split; [destruct Hin as [?|[= ->]]; set_solver|].
        intros y [[->|Hy]%elem_of_cons|[=]]; by auto. }
  intros H. apply Hgen in H as [[?|[=]] Hle]. split; [done|]. auto.
Qed.

Lemma max_by_key_none {A} (key : A -> Z) l : max_by_key key l = None <-> l = [].
Proof.
  split; [|by intros ->]. destruct l as [|x l]; [done|]. unfold max_by_key. simpl.
  assert (forall b, fold_left (fun best x => match best with
    | Some b => if (key x <? key b)%Z then Some b else Some x | None => Some x end) l (Some b)
    <> None) as Hn.
  { induction l as [|y l IH]; intros b; simpl; [done|]. by destruct (key y <? key b)%Z. }
  by intros ?%Hn.
Qed.

#[export] Hint Resolve str_cmp_refl : verlet.
