(* ===== verification/Json.v ===== *)
(** * JSON values

    The value type of [serde_json] as the runtime contracts use it: objects are
    ordered by key (the [BTreeMap] representation, the crate's default), and a
    number is an unsigned integer, a negative integer or a double.  Doubles are
    the axiom-free [spec_float]s. *)

From stdpp Require Import base gmap sets list strings sorting.
From Stdlib Require Import ZArith SpecFloat.
From S2P Require Import Prelude.

Inductive number : Type :=
  | PosInt (n : Z)
  | NegInt (n : Z)
  | Float (f : spec_float).

Inductive json : Type :=
  | JNull
  | JBool (b : bool)
  | JNumber (n : number)
  | JString (s : string)
  | JArray (l : list json)
  | JObject (m : list (string * json)).

Declare Scope json_scope.
Delimit Scope json_scope with json.
Bind Scope json_scope with json.

(** ** Objects *)

(** [Map::get]. *)
Fixpoint obj_get {A} (k : string) (m : list (string * A)) : option A :=
  match m with
  | [] => None
  | (k', v) :: m' => if String.eqb k k' then Some v else obj_get k m'
  end.

(** [Map::insert]: replaces the value of a present key, keeps keys ordered. *)
Fixpoint obj_insert {A} (k : string) (v : A) (m : list (string * A)) : list (string * A) :=
  match m with
  | [] => [(k, v)]
  | (k', v') :: m' =>
      match str_cmp k k' with
      | Eq => (k, v) :: m'
      | Lt => (k, v) :: (k', v') :: m'
      | Gt => (k', v') :: obj_insert k v m'
      end
  end.

(** The object the [json!] macro builds: its entries are inserted in order. *)
Definition obj_of (l : list (string * json)) : list (string * json) :=
  fold_left (fun m kv => obj_insert kv.1 kv.2 m) l [].

Definition jobj (l : list (string * json)) : json := JObject (obj_of l).

(** An array of string literals. *)
Definition jstrs (l : list string) : json := JArray (map JString l).

(** A numeric literal or an [i64]/[u64] field: negative integers are [NegInt]. *)
Definition jint (z : Z) : json := JNumber (if (z <? 0)%Z then NegInt z else PosInt z).

(** [Option<T>] without [skip_serializing_if]: absent is [null]. *)
Definition jopt {A} (f : A -> json) (o : option A) : json :=
  match o with Some a => f a | None => JNull end.

(** A field with [skip_serializing_if = "Option::is_none"]. *)
Definition opt_field {A} (k : string) (f : A -> json) (o : option A) : list (string * json) :=
  match o with Some a => [(k, f a)] | None => [] end.

(** A field with [skip_serializing_if = "Vec::is_empty"]. *)
Definition vec_field {A} (k : string) (f : A -> json) (l : list A) : list (string * json) :=
  match l with [] => [] | _ => [(k, JArray (map f l))] end.

(** ** Accessors *)

Definition as_object (v : json) : option (list (string * json)) :=
  match v with JObject m => Some m | _ => None end.
Definition as_array (v : json) : option (list json) :=
  match v with JArray l => Some l | _ => None end.
Definition as_str (v : json) : option string :=
  match v with JString s => Some s | _ => None end.

(** [Value::get] with a string index: [None] unless the value is an object. *)
Definition value_get (k : string) (v : json) : option json :=
  match v with JObject m => obj_get k m | _ => None end.

(** ** Equality ([PartialEq for Value]) *)

Definition number_eqb (a b : number) : bool :=
  match a, b with
  | PosInt x, PosInt y => Z.eqb x y
  | NegInt x, NegInt y => Z.eqb x y
  | Float x, Float y => SFeqb x y
  | _, _ => false
  end.

Fixpoint json_eqb (a b : json) : bool :=
  match a, b with
  | JNull, JNull => true
  | JBool x, JBool y => Bool.eqb x y
  | JNumber x, JNumber y => number_eqb x y
  | JString x, JString y => String.eqb x y
  | JArray l, JArray l' =>
      (fix go (l l' : list json) : bool :=
         match l, l' with
         | [], [] => true
         | x :: l, y :: l' => json_eqb x y && go l l'
         | _, _ => false
         end) l l'
  | JObject m, JObject m' =>
      (fix go (m m' : list (string * json)) : bool :=
         match m, m' with
         | [], [] => true
         | (k, x) :: m, (k', y) :: m' => String.eqb k k' && json_eqb x y && go m m'
         | _, _ => false
         end) m m'
  | _, _ => false
  end.

(** ** Lemmas *)

Lemma obj_get_elem {A} k (m : list (string * A)) v : obj_get k m = Some v -> (k, v) ∈ m.
Proof.
  induction m as [|[k' v'] m IH]; simpl; [done|].
  destruct (String.eqb_spec k k') as [->|]; intros H.
  - injection H as ->. left.
  - right. auto.
Qed.

Lemma obj_get_none {A} k (m : list (string * A)) : obj_get k m = None <-> k ∉ m.*1.
Proof.
  induction m as [|[k' v'] m IH]; simpl; [set_solver|].
  rewrite not_elem_of_cons. destruct (String.eqb_spec k k') as [->|]; [naive_solver|].
  rewrite IH. naive_solver.
Qed.

Lemma obj_get_insert {A} k v k' (m : list (string * A)) :
  obj_get k' (obj_insert k v m) = if String.eqb k' k then Some v else obj_get k' m.
Proof.
  induction m as [|[j w] m IH]; simpl; [done|].
  destruct (str_cmp k j) eqn:Hc; simpl; try done.
  - apply str_cmp_eq in Hc as ->. by destruct (String.eqb k' j).
  - rewrite IH. destruct (String.eqb_spec k' j) as [->|]; [|done].
    destruct (String.eqb_spec j k) as [->|]; [|done]. by rewrite str_cmp_refl in Hc.
Qed.

Lemma obj_get_snoc k v (l : list (string * json)) k' :
  obj_get k' (obj_of (l ++ [(k, v)])) =
  if String.eqb k' k then Some v else obj_get k' (obj_of l).
Proof. unfold obj_of. rewrite fold_left_app. simpl. apply obj_get_insert. Qed.

(** Looking a key up in a built object finds the last entry given for it. *)
Lemma obj_get_of k (l : list (string * json)) : obj_get k (obj_of l) = obj_get k (rev l).
Proof.
  induction l as [|[k' v] l IH] using rev_ind; [done|].
  rewrite obj_get_snoc, rev_app_distr. simpl. by rewrite IH.
Qed.

Lemma value_get_jobj k l : value_get k (jobj l) = obj_get k (rev l).
Proof. apply obj_get_of. Qed.

Lemma obj_get_app {A} k (l l' : list (string * A)) :
  obj_get k (l ++ l') = match obj_get k l with Some v => Some v | None => obj_get k l' end.
Proof. induction l as [|[k' v] l IH]; [done|]. cbn [obj_get app]. by destruct (String.eqb k k'). Qed.

Lemma obj_get_opt_field {A} k k' (f : A -> json) o :
  obj_get k (rev (opt_field k' f o)) = if String.eqb k k' then f <$> o else None.
Proof. destruct o; simpl; by destruct (String.eqb k k'). Qed.

Lemma json_eqb_string_l s v : json_eqb (JString s) v = true <-> v = JString s.
Proof.
  destruct v as [|b|n|s'|l|m]; simpl; try done. rewrite String.eqb_eq. naive_solver.
Qed.

Lemma json_eqb_string_r s v : json_eqb v (JString s) = true <-> v = JString s.
Proof.
  destruct v as [|b|n|s'|l|m]; simpl; try done. rewrite String.eqb_eq. naive_solver.
Qed.

(** ** Ordered keys *)

Definition keys_sorted {A} (m : list (string * A)) : Prop :=
  Sorted (fun a b => str_cmp a.1 b.1 = Lt) m.

Lemma obj_insert_sorted {A} k v (m : list (string * A)) :
  keys_sorted m -> keys_sorted (obj_insert k v m).
Proof.
  unfold keys_sorted. induction 1 as [|[k' v'] m Hs IH Hhd]; simpl; [repeat constructor|].
  destruct (str_cmp k k') eqn:Hc.
  - apply str_cmp_eq in Hc as ->. constructor; [done|]. destruct Hhd; constructor; done.
  - constructor; [by constructor|]. by constructor.
  - constructor; [done|]. destruct m as [|[j w] m]; simpl.
    + constructor. simpl. by rewrite str_cmp_antisym, Hc.
    + inversion Hhd; subst. destruct (str_cmp k j); constructor; simpl in *; try done.
      * by rewrite str_cmp_antisym, Hc.
      * by rewrite str_cmp_antisym, Hc.
Qed.

Lemma obj_of_sorted l : keys_sorted (obj_of l).
Proof.
  induction l as [|[k v] l IH] using rev_ind; [constructor|].
  unfold obj_of in *. rewrite fold_left_app. simpl. by apply obj_insert_sorted.
Qed.

Lemma str_cmp_lt_trans a b c : str_cmp a b = Lt -> str_cmp b c = Lt -> str_cmp a c = Lt.
Proof.
  revert b c. induction a as [|x a IH]; intros [|y b] [|z c]; try done. cbn [str_cmp].
  destruct (N.compare_spec (Ascii.N_of_ascii x) (Ascii.N_of_ascii y)),
    (N.compare_spec (Ascii.N_of_ascii y) (Ascii.N_of_ascii z)),
    (N.compare_spec (Ascii.N_of_ascii x) (Ascii.N_of_ascii z)); intros; first [done|lia|by eapply IH].
Qed.

(** In an ordered map an entry is found under its key. *)
Lemma obj_get_sorted {A} k (v : A) m : keys_sorted m -> (k, v) ∈ m -> obj_get k m = Some v.
Proof.
  unfold keys_sorted. intros Hs%Sorted_StronglySorted.
  2: { intros [? ?] [? ?] [? ?]. apply str_cmp_lt_trans. }
  induction Hs as [|[k' v'] m Hs IH Hhd]; intros Hin; [by apply elem_of_nil in Hin|].
  cbn [obj_get]. apply elem_of_cons in Hin as [[= -> ->]|Hin]; [by rewrite String.eqb_refl|].
  destruct (String.eqb_spec k k') as [->|]; [|by apply IH].
  rewrite Forall_forall in Hhd. specialize (Hhd _ Hin). cbn in Hhd. by rewrite str_cmp_refl in Hhd.
Qed.

Lemma keys_sorted_nodup {A} (m : list (string * A)) : keys_sorted m -> NoDup (map fst m).
Proof.
  unfold keys_sorted. intros Hs%Sorted_StronglySorted.
  2: { intros [? ?] [? ?] [? ?]. apply str_cmp_lt_trans. }
  induction Hs as [|[k v] m Hs IH Hhd]; cbn; [constructor|]. constructor; [|done].
  rewrite list_elem_of_In, in_map_iff. intros ([k' v'] & Hk & Hin). cbn in Hk. subst k'.
  rewrite Forall_forall in Hhd. specialize (Hhd _ (proj2 (list_elem_of_In _ _) Hin)). cbn in Hhd. by rewrite str_cmp_refl in Hhd.
Qed.

#[export] Hint Rewrite @obj_get_insert obj_get_of : verlet.
#[export] Hint Resolve obj_get_elem obj_of_sorted : verlet.
