(* ===== verification/Schema.v ===== *)
(** * The JSON-schema subset of the runtime contracts

    Models [crates/verlet-runtime-contracts/src/schema.rs]: the two recursive
    passes (the schema is interpretable; a value matches it), the error each
    reports with its label and path, and the registry.  The recursion of both
    passes is bounded by the depth check, so a fuel above the depth limit is
    enough ([validate_schema_fuel_irrelevant]).  An error's message is the constructor
    of the text it is formatted from, with the values it quotes. *)

From stdpp Require Import base gmap sets list strings pretty.
From Stdlib Require Import ZArith SpecFloat Lia.
From S2P Require Import Prelude Json.

Local Open Scope verlet_scope.
Local Open Scope string_scope.
Local Open Scope list_scope.

Definition MAX_JSON_SCHEMA_SUBSET_DEPTH : nat := 64.

Inductive SchemaMessage : Type :=
  | SchemaMustBeObject
  | UnsupportedSchemaKeyword (key : string)
  | EnumMustBeArray
  | NotAllowedEnumValue (value : json)
  | MustDeclareType
  | UnsupportedSchemaType (other : string)
  | ExpectedType (expected actual : string)
  | ExpectedOneOf (expected : list string) (actual : string)
  | MissingRequiredProperty (property : string)
  | UnexpectedProperty (name : string)
  | AdditionalPropertiesMustBeBoolOrObject
  | ArrayMustDeclareItems
  | ArrayDisallowsItems
  | ItemsMustBeBoolOrObject
  | TypeUnionMustNotBeEmpty
  | TypeUnionEntriesMustBeStrings
  | TypeMustBeStringOrArray
  | SchemaNestingExceedsLimit
  | RequiredMustBeArray
  | RequiredEntriesMustBeStrings
  | PropertiesMustBeObject
  | UnknownSchemaId (schema_id : string).

Record JsonSchemaValidationError : Type := mk_schema_error {
  err_label : string;
  err_path : string;
  err_message : SchemaMessage;
}.

Notation JsonSchemaResult T := (result T JsonSchemaValidationError).

Definition schema_error (label path : string) (message : SchemaMessage) :
    JsonSchemaValidationError :=
  mk_schema_error label path message.

(** ** Helpers *)

Definition is_supported_schema_key (key : string) : bool :=
  existsb (String.eqb key)
    ["type"; "required"; "properties"; "enum"; "items"; "additionalProperties"; "$schema";
     "$id"; "title"; "description"; "default"; "examples"; "deprecated"; "readOnly";
     "writeOnly"].

(** [f.is_finite() && f.fract() == 0.0] *)
Definition f64_is_integral (f : spec_float) : bool :=
  match f with
  | S754_zero _ => true
  | S754_finite _ m e => if (0 <=? e)%Z then true else (Z.pos m mod 2 ^ (- e) =? 0)%Z
  | S754_infinity _ | S754_nan => false
  end.

Definition as_i64 (n : number) : option Z :=
  match n with
  | PosInt z => if (z <=? i64_max)%Z then Some z else None
  | NegInt z => Some z
  | Float _ => None
  end.

Definition as_u64 (n : number) : option Z :=
  match n with PosInt z => Some z | NegInt _ | Float _ => None end.

Definition is_json_integer (value : json) : bool :=
  match value with
  | JNumber n =>
      match as_i64 n, as_u64 n, n with
      | Some _, _, _ => true
      | None, Some _, _ => true
      | None, None, Float f => f64_is_integral f
      | None, None, _ => true
      end
  | _ => false
  end.

Definition json_type_name (value : json) : string :=
  match value with
  | JNull => "null"
  | JBool _ => "boolean"
  | JNumber (PosInt _) | JNumber (NegInt _) => "integer"
  | JNumber (Float _) => "number"
  | JString _ => "string"
  | JArray _ => "array"
  | JObject _ => "object"
  end.

Definition schema_value_type_matches (schema_type : string) (value : json) : bool :=
  match value with
  | JObject _ => String.eqb schema_type "object"
  | JArray _ => String.eqb schema_type "array"
  | JString _ => String.eqb schema_type "string"
  | JNumber _ =>
      String.eqb schema_type "number" ||
      (String.eqb schema_type "integer" && is_json_integer value)
  | JBool _ => String.eqb schema_type "boolean"
  | JNull => String.eqb schema_type "null"
  end.

Definition check_schema_depth (label path : string) (depth : nat) : JsonSchemaResult unit :=
  if Nat.ltb MAX_JSON_SCHEMA_SUBSET_DEPTH depth
  then Err (schema_error label path SchemaNestingExceedsLimit)
  else Ok tt.

Definition required_properties (value : json) (label path : string) :
    JsonSchemaResult (list string) :=
  match as_array value with
  | None => Err (schema_error label path RequiredMustBeArray)
  | Some values =>
      collect (fun v => ok_or (as_str v) (schema_error label path RequiredEntriesMustBeStrings))
        values
  end.

Definition schema_properties (value : json) (label path : string) :
    JsonSchemaResult (list (string * json)) :=
  ok_or (as_object value) (schema_error label path PropertiesMustBeObject).

Definition SCHEMA_TYPE_NAMES : list string :=
  ["object"; "array"; "string"; "number"; "integer"; "boolean"; "null"].

Definition validate_schema_type_name (name label path : string) : JsonSchemaResult string :=
  if existsb (String.eqb name) SCHEMA_TYPE_NAMES
  then Ok name
  else Err (schema_error label path (UnsupportedSchemaType name)).

Definition schema_type_names (value : json) (label path : string) :
    JsonSchemaResult (list string) :=
  match value with
  | JString name => name <-? validate_schema_type_name name label path ;; Ok [name]
  | JArray [] => Err (schema_error label path TypeUnionMustNotBeEmpty)
  | JArray values =>
      try_fold (fun names value =>
        name <-? ok_or (as_str value) (schema_error label path TypeUnionEntriesMustBeStrings) ;;
        name <-? validate_schema_type_name name label path ;;
        Ok (if existsb (String.eqb name) names then names else names ++ [name]))
        [] values
  | _ => Err (schema_error label path TypeMustBeStringOrArray)
  end.

(** The loop both passes start with: every keyword of the schema is known. *)
Definition check_schema_keys (object : list (string * json)) (label path : string) :
    JsonSchemaResult unit :=
  for_each (fun kv =>
    if is_supported_schema_key kv.1 then Ok tt
    else Err (schema_error label path (UnsupportedSchemaKeyword kv.1))) object.

(** ** Pass one: the schema is interpretable *)

Definition validate_nested_schema_keywords
    (rec : json -> string -> string -> nat -> JsonSchemaResult unit)
    (schema : list (string * json)) (path label : string) (depth : nat) :
    JsonSchemaResult unit :=
  match obj_get "required" schema with
  | Some required => _ <-? required_properties required label path ;; Ok tt
  | None => Ok tt
  end ;;?
  match obj_get "properties" schema with
  | Some properties =>
      props <-? schema_properties properties label path ;;
      for_each (fun np => rec np.2 (path +:+ "." +:+ np.1) label (depth + 1)) props
  | None => Ok tt
  end ;;?
  match obj_get "additionalProperties" schema with
  | Some (JBool _) | None => Ok tt
  | Some (JObject m) => rec (JObject m) (path +:+ ".*") label (depth + 1)
  | Some _ => Err (schema_error label path AdditionalPropertiesMustBeBoolOrObject)
  end ;;?
  match obj_get "items" schema with
  | Some (JBool _) | None => Ok tt
  | Some (JObject m) => rec (JObject m) (path +:+ "[]") label (depth + 1)
  | Some _ => Err (schema_error label path ItemsMustBeBoolOrObject)
  end.

(** The loop over the declared types: an array type needs [items]. *)
Definition check_declared_type (object : list (string * json)) (path label schema_type : string) :
    JsonSchemaResult unit :=
  if String.eqb schema_type "array" then
    match obj_get "items" object with
    | None => Err (schema_error label path ArrayMustDeclareItems)
    | Some _ => Ok tt
    end
  else if existsb (String.eqb schema_type) SCHEMA_TYPE_NAMES then Ok tt
  else Err (schema_error label path (UnsupportedSchemaType schema_type)).

Fixpoint validate_schema_interpretable (fuel : nat) (schema : json) (path label : string)
    (depth : nat) : JsonSchemaResult unit :=
  check_schema_depth label path depth ;;?
  match fuel with
  | O => Err (schema_error label path SchemaNestingExceedsLimit)
  | S fuel =>
      object <-? ok_or (as_object schema) (schema_error label path SchemaMustBeObject) ;;
      check_schema_keys object label path ;;?
      match obj_get "enum" object with
      | Some (JArray _) | None => Ok tt
      | Some _ => Err (schema_error label path EnumMustBeArray)
      end ;;?
      validate_nested_schema_keywords (validate_schema_interpretable fuel) object path label
        depth ;;?
      match obj_get "type" object with
      | None =>
          match obj_get "enum" object with
          | Some _ => Ok tt
          | None => Err (schema_error label path MustDeclareType)
          end
      | Some schema_type_value =>
          schema_types <-? schema_type_names schema_type_value label path ;;
          for_each (check_declared_type object path label) schema_types
      end
  end.

(** ** Pass two: the value matches the schema *)

Definition validate_object_schema
    (rec : json -> json -> string -> string -> nat -> JsonSchemaResult unit)
    (schema : list (string * json)) (value : json) (path label : string) (depth : nat) :
    JsonSchemaResult unit :=
  let actual := json_type_name value in
  value <-? ok_or (as_object value) (schema_error label path (ExpectedType "object" actual)) ;;
  required <-? match obj_get "required" schema with
               | Some r => required_properties r label path
               | None => Ok []
               end ;;
  for_each (fun property =>
    match obj_get property value with
    | Some _ => Ok tt
    | None => Err (schema_error label path (MissingRequiredProperty property))
    end) required ;;?
  properties <-? match obj_get "properties" schema with
                 | Some p => schema_properties p label path
                 | None => Ok []
                 end ;;
  for_each (fun np =>
    match obj_get np.1 value with
    | Some property_value =>
        rec np.2 property_value (path +:+ "." +:+ np.1) label (depth + 1)
    | None => Ok tt
    end) properties ;;?
  for_each (fun nv =>
    match obj_get nv.1 properties with
    | Some _ => Ok tt
    | None =>
        match obj_get "additionalProperties" schema with
        | Some (JBool true) => Ok tt
        | Some (JBool false) | None => Err (schema_error label path (UnexpectedProperty nv.1))
        | Some (JObject m) =>
            rec (JObject m) nv.2 (path +:+ "." +:+ nv.1) label (depth + 1)
        | Some _ => Err (schema_error label path AdditionalPropertiesMustBeBoolOrObject)
        end
    end) value.

Definition validate_array_schema
    (rec : json -> json -> string -> string -> nat -> JsonSchemaResult unit)
    (schema : list (string * json)) (value : json) (path label : string) (depth : nat) :
    JsonSchemaResult unit :=
  let actual := json_type_name value in
  value <-? ok_or (as_array value) (schema_error label path (ExpectedType "array" actual)) ;;
  items <-? ok_or (obj_get "items" schema) (schema_error label path ArrayMustDeclareItems) ;;
  match items with
  | JBool true => Ok tt
  | JBool false =>
      match value with
      | [] => Ok tt
      | _ => Err (schema_error label path ArrayDisallowsItems)
      end
  | JObject _ =>
      for_each (fun ii =>
        rec items ii.2 (path +:+ "[" +:+ pretty ii.1 +:+ "]") label (depth + 1))
        (imap pair value)
  | _ => Err (schema_error label path ItemsMustBeBoolOrObject)
  end.

(** The loop over the declared types: the first one the value has decides. *)
Definition dispatch_schema_type
    (rec : json -> json -> string -> string -> nat -> JsonSchemaResult unit)
    (object : list (string * json)) (schema_types : list string) (value : json)
    (path label : string) (depth : nat) : JsonSchemaResult unit :=
  match find (fun schema_type => schema_value_type_matches schema_type value) schema_types with
  | Some schema_type =>
      if String.eqb schema_type "object" then
        validate_object_schema rec object value path label depth
      else if String.eqb schema_type "array" then
        validate_array_schema rec object value path label depth
      else if existsb (String.eqb schema_type) SCHEMA_TYPE_NAMES then Ok tt
      else Err (schema_error label path (UnsupportedSchemaType schema_type))
  | None =>
      match schema_types with
      | [schema_type] =>
          Err (schema_error label path (ExpectedType schema_type (json_type_name value)))
      | _ => Err (schema_error label path (ExpectedOneOf schema_types (json_type_name value)))
      end
  end.

Fixpoint validate_schema_value (fuel : nat) (schema value : json) (path label : string)
    (depth : nat) : JsonSchemaResult unit :=
  check_schema_depth label path depth ;;?
  match fuel with
  | O => Err (schema_error label path SchemaNestingExceedsLimit)
  | S fuel =>
      object <-? ok_or (as_object schema) (schema_error label path SchemaMustBeObject) ;;
      check_schema_keys object label path ;;?
      match obj_get "enum" object with
      | Some enumeration =>
          values <-? ok_or (as_array enumeration) (schema_error label path EnumMustBeArray) ;;
          if existsb (fun candidate => json_eqb candidate value) values then Ok tt
          else Err (schema_error label path (NotAllowedEnumValue value))
      | None => Ok tt
      end ;;?
      match obj_get "type" object with
      | None =>
          match obj_get "enum" object with
          | Some _ => Ok tt
          | None => Err (schema_error label path MustDeclareType)
          end
      | Some schema_type_value =>
          schema_types <-? schema_type_names schema_type_value label path ;;
          dispatch_schema_type (validate_schema_value fuel) object schema_types value path label
            depth
      end
  end.

(** One more level than the depth check admits. *)
Definition SCHEMA_FUEL : nat := S (S MAX_JSON_SCHEMA_SUBSET_DEPTH).

Definition validate_json_schema_subset (schema : json) (label : string) :
    JsonSchemaResult unit :=
  validate_schema_interpretable SCHEMA_FUEL schema "$" label 0.

Definition validate_json_value_against_schema (schema value : json) (label : string) :
    JsonSchemaResult unit :=
  validate_schema_interpretable SCHEMA_FUEL schema "$" label 0 ;;?
  validate_schema_value SCHEMA_FUEL schema value "$" label 0.

(** ** The registry *)

Record SchemaRegistry : Type := mk_registry { schemas : list (string * json) }.

Definition registry_new : SchemaRegistry := mk_registry [].

Definition register (registry : SchemaRegistry) (schema_id : string) (schema : json) :
    JsonSchemaResult SchemaRegistry :=
  validate_json_schema_subset schema schema_id ;;?
  Ok (mk_registry (obj_insert schema_id schema (schemas registry))).

Definition validate (registry : SchemaRegistry) (schema_id : string) (value : json) :
    JsonSchemaResult unit :=
  schema <-? ok_or (obj_get schema_id (schemas registry))
               (schema_error schema_id "$" (UnknownSchemaId schema_id)) ;;
  validate_json_value_against_schema schema value schema_id.

(** The checks of the test module, evaluated. *)
Example accepts_nullable_union :
  validate_json_value_against_schema
    (jobj [("type", JString "object"); ("additionalProperties", JBool false);
           ("properties", jobj [("note", jobj [("type", JArray [JString "string"; JString "null"])])])])
    (jobj [("note", JNull)]) "tool" = Ok tt.
Proof. vm_compute. reflexivity. Qed.

Example rejects_bad_union_path :
  validate_json_value_against_schema
    (jobj [("type", JString "object"); ("additionalProperties", JBool false);
           ("properties", jobj [("note", jobj [("type", JArray [JString "string"; JString "null"])])])])
    (jobj [("note", JBool false)]) "tool" =
  Err (mk_schema_error "tool" "$.note" (ExpectedOneOf ["string"; "null"] "boolean")).
Proof. vm_compute. reflexivity. Qed.
