(* ===== verification/SchemaFacts.v ===== *)
(** * What the schema validator decides

    [conforms] states, without depth, fuel, labels or paths, when a value
    matches a schema.  The validator accepts exactly the interpretable schemas
    and the conforming values, its depth check never fires in the second pass,
    and any fuel above the depth limit gives the same answer. *)

From stdpp Require Import base gmap sets list strings pretty.
From Stdlib Require Import ZArith Lia.
From S2P Require Import Prelude Json Schema.

Local Open Scope string_scope.
Local Open Scope list_scope.

(** ** The specification *)

Definition props_of (schema : list (string * json)) : list (string * json) :=
  match obj_get "properties" schema with Some (JObject m) => m | _ => [] end.

Definition required_of (schema : list (string * json)) : list json :=
  match obj_get "required" schema with Some (JArray l) => l | _ => [] end.

Definition types_of (schema : list (string * json)) : list json :=
  match obj_get "type" schema with
  | Some (JArray l) => l
  | Some v => [v]
  | None => []
  end.

(** The value is listed, when the schema lists values. *)
Definition enum_admits (schema : list (string * json)) (value : json) : Prop :=
  match obj_get "enum" schema with
  | Some (JArray l) => exists c, c ∈ l /\ json_eqb c value = true
  | Some _ => False
  | None => True
  end.

Definition type_admits (schema : list (string * json)) (value : json) : Prop :=
  exists t, JString t ∈ types_of schema /\ schema_value_type_matches t value = true.

Inductive conforms : json -> json -> Prop :=
  | conforms_untyped schema value :
      obj_get "type" schema = None ->
      obj_get "enum" schema <> None ->
      enum_admits schema value ->
      conforms (JObject schema) value
  | conforms_scalar schema value :
      enum_admits schema value ->
      type_admits schema value ->
      as_object value = None ->
      as_array value = None ->
      conforms (JObject schema) value
  | conforms_object schema value :
      enum_admits schema (JObject value) ->
      type_admits schema (JObject value) ->
      (forall p, JString p ∈ required_of schema -> obj_get p value <> None) ->
      (forall name s v, (name, s) ∈ props_of schema -> obj_get name value = Some v ->
        conforms s v) ->
      (forall name v, (name, v) ∈ value -> obj_get name (props_of schema) = None ->
        obj_get "additionalProperties" schema = Some (JBool true) \/
        exists s, obj_get "additionalProperties" schema = Some (JObject s) /\
                  conforms (JObject s) v) ->
      conforms (JObject schema) (JObject value)
  | conforms_array schema value :
      enum_admits schema (JArray value) ->
      type_admits schema (JArray value) ->
      (forall v, v ∈ value ->
        obj_get "items" schema = Some (JBool true) \/
        exists s, obj_get "items" schema = Some (JObject s) /\ conforms (JObject s) v) ->
      conforms (JObject schema) (JArray value).

(** A schema some run of the first pass accepts at [depth]. *)
Definition interpretable (depth : nat) (schema : json) : Prop :=
  exists fuel path label,
    validate_schema_interpretable fuel schema path label depth = Ok tt.

(** ** Small facts *)

Lemma type_name_in name :
  existsb (String.eqb name) SCHEMA_TYPE_NAMES = true <-> name ∈ SCHEMA_TYPE_NAMES.
Proof.
  rewrite existsb_exists. setoid_rewrite String.eqb_eq. setoid_rewrite <- list_elem_of_In.
  naive_solver.
Qed.

Lemma type_matches_known t v :
  schema_value_type_matches t v = true -> t ∈ SCHEMA_TYPE_NAMES.
Proof.
  destruct v; simpl; rewrite ?orb_true_iff, ?andb_true_iff, ?String.eqb_eq;
    unfold SCHEMA_TYPE_NAMES; set_solver.
Qed.

Lemma type_matches_object v : schema_value_type_matches "object" v = true <-> exists m, v = JObject m.
Proof. destruct v; simpl; naive_solver. Qed.

Lemma type_matches_array v : schema_value_type_matches "array" v = true <-> exists l, v = JArray l.
Proof. destruct v; simpl; naive_solver. Qed.

Lemma type_matches_scalar t v :
  schema_value_type_matches t v = true -> t <> "object" -> t <> "array" ->
  as_object v = None /\ as_array v = None.
Proof. destruct v; simpl; rewrite ?String.eqb_eq; naive_solver. Qed.

(** The names of a type union, with the duplicates dropped, are its entries. *)
Lemma type_union_elems label path values : forall names0 names,
  try_fold (fun names value =>
    result_bind (ok_or (as_str value) (schema_error label path TypeUnionEntriesMustBeStrings))
      (fun name => result_bind (validate_schema_type_name name label path)
        (fun name => Ok (if existsb (String.eqb name) names then names else names ++ [name]))))
    names0 values = Ok names ->
  (forall t, t ∈ names <-> t ∈ names0 \/ JString t ∈ values).
Proof.
  induction values as [|v values IH]; intros names0 names; simpl.
  { intros [= ->] t. set_solver. }
  destruct v as [| | |s| |]; simpl; try done.
  unfold validate_schema_type_name. destruct (existsb _ _) eqn:Hk; simpl; [|done].
  intros H t. rewrite (IH _ _ H t).
  destruct (existsb (String.eqb s) names0) eqn:Hin.
  - apply existsb_exists in Hin as (x & Hx & ->%String.eqb_eq). apply list_elem_of_In in Hx.
    rewrite elem_of_cons. naive_solver.
  - rewrite elem_of_app, list_elem_of_singleton, elem_of_cons. naive_solver.
Qed.

Lemma schema_type_names_spec tv label path names :
  schema_type_names tv label path = Ok names ->
  forall t, t ∈ names <->
    JString t ∈ match tv with JArray l => l | v => [v] end.
Proof.
  destruct tv as [| | |s|l|]; simpl; try done.
  - unfold validate_schema_type_name. destruct (existsb _ _); simpl; [|done].
    intros [= <-] t. rewrite !list_elem_of_singleton. naive_solver.
  - destruct l as [|v l]; [done|]. intros H t.
    rewrite (type_union_elems label path (v :: l) [] names H t). set_solver.
Qed.

(** Whether a type list is accepted does not depend on the label or path. *)
Lemma schema_type_names_ok tv label path label' path' names :
  schema_type_names tv label path = Ok names -> schema_type_names tv label' path' = Ok names.
Proof.
  destruct tv as [| | |s|l|]; simpl; try done.
  - unfold validate_schema_type_name. by destruct (existsb _ _).
  - destruct l as [|v l]; [done|]. generalize (v :: l) as values. intros values.
    assert (forall names0,
      try_fold (fun names value =>
        result_bind (ok_or (as_str value) (schema_error label path TypeUnionEntriesMustBeStrings))
          (fun name => result_bind (validate_schema_type_name name label path)
            (fun name => Ok (if existsb (String.eqb name) names then names else names ++ [name]))))
        names0 values = Ok names ->
      try_fold (fun names value =>
        result_bind (ok_or (as_str value) (schema_error label' path' TypeUnionEntriesMustBeStrings))
          (fun name => result_bind (validate_schema_type_name name label' path')
            (fun name => Ok (if existsb (String.eqb name) names then names else names ++ [name]))))
        names0 values = Ok names) as Hgen; [|apply Hgen].
    induction values as [|w values IH]; intros names0; simpl; [done|].
    destruct w as [| | |s| |]; simpl; try done.
    unfold validate_schema_type_name. destruct (existsb _ _); simpl; [apply IH | done].
Qed.

Lemma required_properties_ok v label path rs :
  required_properties v label path = Ok rs <-> v = JArray (map JString rs).
Proof.
  unfold required_properties. destruct v as [| | | |l|]; simpl; try (split; discriminate).
  rewrite collect_ok. split.
  - induction 1 as [|x r l rs Hx _ IH]; [done|].
    destruct x; simpl in Hx; try done. injection Hx as ->. simpl. by injection IH as ->.
  - intros [= ->]. induction rs; simpl; constructor; auto.
Qed.

Lemma collect_strings_spec rs p : JString p ∈ map JString rs <-> p ∈ rs.
Proof. rewrite (list_elem_of_fmap JString). naive_solver. Qed.

(** ** Inverting the first pass *)

Lemma schema_depth_ok label path depth :
  check_schema_depth label path depth = Ok tt <-> depth <= MAX_JSON_SCHEMA_SUBSET_DEPTH.
Proof.
  unfold check_schema_depth. destruct (Nat.ltb_spec MAX_JSON_SCHEMA_SUBSET_DEPTH depth);
    split; intros; try done; lia.
Qed.

Lemma bind_ok {A B E} (r : result A E) (k : A -> result B E) b :
  result_bind r k = Ok b <-> exists a, r = Ok a /\ k a = Ok b.
Proof. destruct r; simpl; naive_solver. Qed.

(** The same for a step that only checks. *)
Lemma check_ok {B E} (r : result unit E) (k : unit -> result B E) b :
  result_bind r k = Ok b <-> r = Ok tt /\ k tt = Ok b.
Proof. destruct r as [[]|]; simpl; naive_solver. Qed.

(** Keywords that hold a sub-schema, [additionalProperties] and [items]. *)
Definition subschema_ok (depth : nat) (o : option json) : Prop :=
  match o with
  | None | Some (JBool _) => True
  | Some (JObject m) => interpretable (S depth) (JObject m)
  | Some _ => False
  end.

Record interpretable_object (depth : nat) (m : list (string * json)) : Prop := {
  io_depth : depth <= MAX_JSON_SCHEMA_SUBSET_DEPTH;
  io_keys : Forall (fun kv => is_supported_schema_key kv.1 = true) m;
  io_enum : forall e, obj_get "enum" m = Some e -> exists l, e = JArray l;
  io_required : forall r, obj_get "required" m = Some r -> exists rs, r = JArray (map JString rs);
  io_properties : forall p, obj_get "properties" m = Some p ->
    exists ps, p = JObject ps /\ forall name s, (name, s) ∈ ps -> interpretable (S depth) s;
  io_additional : subschema_ok depth (obj_get "additionalProperties" m);
  io_items : subschema_ok depth (obj_get "items" m);
  io_type : match obj_get "type" m with
            | None => obj_get "enum" m <> None
            | Some t => exists names, (forall label path, schema_type_names t label path = Ok names)
                /\ ("array" ∈ names -> obj_get "items" m <> None)
            end;
}.

Lemma check_keys_ok m label path :
  check_schema_keys m label path = Ok tt <->
  Forall (fun kv => is_supported_schema_key kv.1 = true) m.
Proof.
  unfold check_schema_keys. rewrite for_each_ok. apply Forall_iff. intros kv.
  by destruct (is_supported_schema_key kv.1).
Qed.

Lemma subschema_rec_ok fuel depth o path label e :
  match o with
  | Some (JBool _) | None => Ok tt
  | Some (JObject m) => validate_schema_interpretable fuel (JObject m) path label (depth + 1)
  | Some _ => Err e
  end = Ok tt -> subschema_ok depth o.
Proof.
  destruct o as [[]|]; simpl; try done. rewrite Nat.add_1_r. intros H. by exists fuel, path, label.
Qed.

Lemma nested_keywords_inv fuel m path label depth :
  validate_nested_schema_keywords (validate_schema_interpretable fuel) m path label depth = Ok tt ->
  (forall r, obj_get "required" m = Some r -> exists rs, r = JArray (map JString rs)) /\
  (forall p, obj_get "properties" m = Some p ->
    exists ps, p = JObject ps /\ forall name s, (name, s) ∈ ps -> interpretable (S depth) s) /\
  subschema_ok depth (obj_get "additionalProperties" m) /\
  subschema_ok depth (obj_get "items" m).
Proof.
  unfold validate_nested_schema_keywords.
  rewrite bind_ok. intros ([] & Hreq & H). rewrite bind_ok in H. destruct H as ([] & Hprops & H).
  rewrite bind_ok in H. destruct H as ([] & Hadd & Hitems).
  repeat split.
  - intros r Hr. rewrite Hr, bind_ok in Hreq. destruct Hreq as (rs & Hrs%required_properties_ok & _).
    eauto.
  - intros p Hp. rewrite Hp, bind_ok in Hprops. destruct Hprops as (ps & Hps & Hall).
    unfold schema_properties in Hps. destruct p; simpl in Hps; simplify_eq.
    exists ps. split; [done|]. intros name s Hin.
    apply for_each_ok in Hall. rewrite Forall_forall in Hall. specialize (Hall _ Hin).
    simpl in Hall. rewrite Nat.add_1_r in Hall. by eexists _, _, _.
  - by eapply subschema_rec_ok.
  - by eapply subschema_rec_ok.
Qed.

Lemma interpretable_inv depth schema :
  interpretable depth schema -> exists m, schema = JObject m /\ interpretable_object depth m.
Proof.
  intros (fuel & path & label & H).
  destruct fuel as [|fuel]; simpl in H.
  { apply bind_ok in H as ([] & _ & H). done. }
  apply bind_ok in H as ([] & Hd%schema_depth_ok & H).
  destruct schema as [| | | | |m]; simpl in H; try done. exists m. split; [done|].
  apply bind_ok in H as ([] & Hk%check_keys_ok & H).
  apply bind_ok in H as ([] & He & H).
  apply bind_ok in H as ([] & Hn%nested_keywords_inv & H).
  destruct Hn as (? & ? & ? & ?). split; try done.
  - intros e Hm. rewrite Hm in He. destruct e; naive_solver.
  - destruct (obj_get "type" m) as [t|] eqn:Ht; [|by destruct (obj_get "enum" m)].
    apply bind_ok in H as (names & Hnames & Hall). exists names. split.
    + intros label' path'. by eapply schema_type_names_ok.
    + intros Harr Hitems. apply for_each_ok in Hall. rewrite Forall_forall in Hall.
      specialize (Hall _ Harr). unfold check_declared_type in Hall. by rewrite Hitems in Hall.
Qed.

(** ** The second pass decides conformance *)

Section SecondPass.
Context (rec : json -> json -> string -> string -> nat -> JsonSchemaResult unit).
Context (depth : nat).
Hypothesis rec_conforms : forall s v path label,
  interpretable (S depth) s -> rec s v path label (depth + 1) = Ok tt <-> conforms s v.

Lemma props_interpretable m name s :
  interpretable_object depth m -> (name, s) ∈ props_of m -> interpretable (S depth) s.
Proof.
  intros Hio Hin. unfold props_of in Hin. destruct (obj_get "properties" m) as [p|] eqn:Hp.
  - destruct (io_properties _ _ Hio _ Hp) as (ps & -> & Hps). eauto.
  - by apply not_elem_of_nil in Hin.
Qed.

Lemma required_names m :
  interpretable_object depth m -> exists rs, required_of m = map JString rs /\
    forall path label, match obj_get "required" m with
                       | Some r => required_properties r label path
                       | None => Ok []
                       end = Ok rs.
Proof.
  intros Hio. unfold required_of. destruct (obj_get "required" m) as [r|] eqn:Hr.
  - destruct (io_required _ _ Hio _ Hr) as (rs & ->). exists rs. split; [done|].
    intros. by apply required_properties_ok.
  - by exists [].
Qed.

Lemma properties_entries m path label :
  interpretable_object depth m ->
  match obj_get "properties" m with
  | Some p => schema_properties p label path
  | None => Ok []
  end = Ok (props_of m).
Proof.
  intros Hio. unfold props_of. destruct (obj_get "properties" m) as [p|] eqn:Hp; [|done].
  by destruct (io_properties _ _ Hio _ Hp) as (ps & -> & _).
Qed.

(** The additional-property and item steps share their shape. *)
Lemma extra_step m name v path label e1 e2 :
  interpretable_object depth m ->
  match obj_get "additionalProperties" m with
  | Some (JBool true) => Ok tt
  | Some (JBool false) | None => Err e1
  | Some (JObject s) => rec (JObject s) v (path +:+ "." +:+ name) label (depth + 1)
  | Some _ => Err e2
  end = Ok tt <->
  (obj_get "additionalProperties" m = Some (JBool true) \/
   exists s, obj_get "additionalProperties" m = Some (JObject s) /\ conforms (JObject s) v).
Proof.
  intros Hio. pose proof (io_additional _ _ Hio) as Hadd.
  destruct (obj_get "additionalProperties" m) as [[|[]| | | |s]|]; simpl in *;
    try (split; [done|]; intros [?|(? & ? & ?)]; done).
  - split; auto.
  - rewrite rec_conforms by done. split; [eauto|]. intros [?|(? & ? & ?)]; naive_solver.
Qed.

Lemma object_schema_ok m value path label :
  interpretable_object depth m ->
  validate_object_schema rec m (JObject value) path label depth = Ok tt <->
  (forall p, JString p ∈ required_of m -> obj_get p value <> None) /\
  (forall name s v, (name, s) ∈ props_of m -> obj_get name value = Some v -> conforms s v) /\
  (forall name v, (name, v) ∈ value -> obj_get name (props_of m) = None ->
     obj_get "additionalProperties" m = Some (JBool true) \/
     exists s, obj_get "additionalProperties" m = Some (JObject s) /\ conforms (JObject s) v).
Proof.
  intros Hio. unfold validate_object_schema. cbn [as_object ok_or result_bind].
  destruct (required_names m Hio) as (rs & Hrs & ->). cbn [result_bind].
  rewrite properties_entries by done. cbn [result_bind].
  rewrite !check_ok, !for_each_ok, !Forall_forall.
  assert (Hreq : (forall p, p ∈ rs -> match obj_get p value with
                    | Some _ => Ok tt
                    | None => Err (schema_error label path (MissingRequiredProperty p))
                    end = Ok tt) <->
            (forall p, JString p ∈ required_of m -> obj_get p value <> None)).
  { rewrite Hrs. split.
    - intros H p Hp%collect_strings_spec. specialize (H p Hp). by destruct (obj_get p value).
    - intros H p Hp%collect_strings_spec. specialize (H p Hp). by destruct (obj_get p value). }
  assert (Hprops : (forall x, x ∈ props_of m -> match obj_get x.1 value with
                    | Some pv => rec x.2 pv (path +:+ "." +:+ x.1) label (depth + 1)
                    | None => Ok tt
                    end = Ok tt) <->
            (forall name s v, (name, s) ∈ props_of m -> obj_get name value = Some v ->
               conforms s v)).
  { split.
    - intros H name s v Hin Hv. specialize (H _ Hin). simpl in H. rewrite Hv in H.
      apply rec_conforms in H; [done|]. by eapply props_interpretable.
    - intros H [name s] Hin. simpl. destruct (obj_get name value) as [v|] eqn:Hv; [|done].
      apply rec_conforms; [by eapply props_interpretable | by eapply H]. }
  split.
  - intros (H1 & H2 & H3). split; [by apply Hreq|]. split; [by apply Hprops|].
    intros name v Hin Hnone. specialize (H3 _ Hin). simpl in H3. rewrite Hnone in H3.
    by apply extra_step in H3.
  - intros (H1 & H2 & H3). split; [by apply Hreq|].
    split; [by apply Hprops|]. intros [name v] Hin. simpl.
    destruct (obj_get name (props_of m)) eqn:Hnone; [done|].
    apply extra_step; [done|]. by apply (H3 name v).
Qed.

Lemma elem_of_imap_pair {A} (l : list A) x : (exists i, (i, x) ∈ imap pair l) <-> x ∈ l.
Proof.
  rewrite list_elem_of_lookup. setoid_rewrite list_elem_of_lookup.
  setoid_rewrite list_lookup_imap. split.
  - intros (i & j & H). exists j. destruct (l !! j); simplify_eq/=. done.
  - intros (i & H). exists i, i. by rewrite H.
Qed.

Lemma array_schema_ok m value path label :
  interpretable_object depth m -> obj_get "items" m <> None ->
  validate_array_schema rec m (JArray value) path label depth = Ok tt <->
  (forall v, v ∈ value -> obj_get "items" m = Some (JBool true) \/
     exists s, obj_get "items" m = Some (JObject s) /\ conforms (JObject s) v).
Proof.
  intros Hio Hitems. unfold validate_array_schema. cbn [as_array ok_or result_bind].
  pose proof (io_items _ _ Hio) as Hs. destruct (obj_get "items" m) as [items|] eqn:Hi; [|done].
  cbn [ok_or result_bind]. destruct items as [|[]| | | |s]; simpl in Hs; try done.
  - split; auto.
  - destruct value as [|v value]; split; try done.
    + intros _ v Hv. by apply not_elem_of_nil in Hv.
    + intros H. destruct (H v) as [?|(? & ? & ?)]; [left|..]; done.
  - rewrite for_each_ok, Forall_forall. split.
    + intros H v Hv. right. exists s. split; [done|].
      apply elem_of_imap_pair in Hv as (i & Hv). specialize (H _ Hv). simpl in H.
      by apply rec_conforms in H.
    + intros H [i v] Hv. simpl. apply rec_conforms; [done|].
      destruct (H v) as [?|(s' & [= <-] & ?)]; try done.
      apply elem_of_imap_pair. eauto.
Qed.

Lemma dispatch_ok m names value path label :
  interpretable_object depth m ->
  (forall t, t ∈ names <-> JString t ∈ types_of m) ->
  ("array" ∈ names -> obj_get "items" m <> None) ->
  enum_admits m value ->
  dispatch_schema_type rec m names value path label depth = Ok tt <->
  conforms (JObject m) value /\ obj_get "type" m <> None.
Proof.
  intros Hio Hnames Hitems Henum. unfold dispatch_schema_type.
  destruct (find _ names) as [t|] eqn:Hf.
  - apply find_some in Hf as [Hin%list_elem_of_In Hm]. apply Hnames in Hin as Hin'.
    assert (type_admits m value) as Hta by by exists t.
    assert (obj_get "type" m <> None) as Htype.
    { unfold types_of in Hin'. destruct (obj_get "type" m); [done|]. set_solver. }
    destruct (String.eqb_spec t "object") as [->|Hno].
    { apply type_matches_object in Hm as (vm & ->). rewrite object_schema_ok by done. split.
      - intros (? & ? & ?). split; [|done]. by constructor.
      - intros [Hc _]. inversion Hc; subst; simplify_eq/=; done. }
    destruct (String.eqb_spec t "array") as [->|Hna].
    { apply type_matches_array in Hm as (vl & ->). rewrite array_schema_ok by auto. split.
      - intros ?. split; [|done]. by constructor.
      - intros [Hc _]. inversion Hc; subst; simplify_eq/=; done. }
    pose proof (type_matches_known _ _ Hm) as Hk. apply type_name_in in Hk as ->.
    split; [|done]. intros _. split; [|done].
    destruct (type_matches_scalar t value) as [? ?]; [done..|]. by constructor.
  - split.
    + destruct names as [|? [|]]; done.
    + intros [Hc Htype]. exfalso.
      assert (type_admits m value) as (t & Hin & Hm) by (inversion Hc; subst; done).
      apply Hnames, list_elem_of_In in Hin. apply (find_none _ _ Hf) in Hin. congruence.
Qed.
End SecondPass.

Lemma enum_step_ok m depth value label path :
  interpretable_object depth m ->
  match obj_get "enum" m with
  | Some enumeration =>
      result_bind (ok_or (as_array enumeration) (schema_error label path EnumMustBeArray))
        (fun values =>
          if existsb (fun candidate => json_eqb candidate value) values then Ok tt
          else Err (schema_error label path (NotAllowedEnumValue value)))
  | None => Ok tt
  end = Ok tt <-> enum_admits m value.
Proof.
  intros Hio. unfold enum_admits. destruct (obj_get "enum" m) as [e|] eqn:He; [|done].
  destruct (io_enum _ _ Hio _ He) as (l & ->). simpl.
  destruct (existsb _ l) eqn:Hex.
  - split; [|done]. intros _. apply existsb_exists in Hex as (c & Hc & Hv).
    exists c. by rewrite list_elem_of_In.
  - split; [done|]. intros (c & Hc%list_elem_of_In & Hv).
    assert (existsb (fun candidate => json_eqb candidate value) l = true) as Ht.
    { apply existsb_exists. eauto. }
    congruence.
Qed.

Lemma schema_value_conforms fuel : forall depth schema value path label,
  SCHEMA_FUEL <= fuel + depth ->
  interpretable depth schema ->
  validate_schema_value fuel schema value path label depth = Ok tt <-> conforms schema value.
Proof.
  induction fuel as [|fuel IH]; intros depth schema value path label Hfuel Hi;
    destruct (interpretable_inv _ _ Hi) as (m & -> & Hio); pose proof (io_depth _ _ Hio) as Hd.
  { unfold SCHEMA_FUEL in Hfuel. lia. }
  cbn [validate_schema_value]. rewrite (proj2 (schema_depth_ok label path depth) Hd).
  cbn [result_bind as_object ok_or].
  rewrite (proj2 (check_keys_ok m label path) (io_keys _ _ Hio)). cbn [result_bind].
  rewrite check_ok, (enum_step_ok m depth value label path Hio).
  pose proof (io_type _ _ Hio) as Htype. destruct (obj_get "type" m) as [t|] eqn:Ht.
  - destruct Htype as (names & Hnames & Hitems). rewrite Hnames. cbn [result_bind].
    assert (forall t', t' ∈ names <-> JString t' ∈ types_of m) as Hspec.
    { intros t'. rewrite (schema_type_names_spec _ _ _ _ (Hnames label path) t').
      unfold types_of. rewrite Ht. by destruct t. }
    assert (forall s v p l, interpretable (S depth) s ->
      validate_schema_value fuel s v p l (depth + 1) = Ok tt <-> conforms s v) as Hrec.
    { intros. rewrite Nat.add_1_r. apply IH; [lia | done]. }
    split.
    + intros (He & Hdisp). by eapply dispatch_ok in Hdisp as [? _].
    + intros Hc. assert (enum_admits m value) as He.
      { inversion Hc; subst; done. }
      split; [done|]. eapply dispatch_ok; try done. split; [done|]. by rewrite Ht.
  - split.
    + intros (He & _). by constructor.
    + intros Hc. split; [by inversion Hc|]. by destruct (obj_get "enum" m).
Qed.

(** ** Fuel *)

Lemma nested_keywords_ext rec1 rec2 m path label depth :
  (forall s p, rec1 s p label (depth + 1) = rec2 s p label (depth + 1)) ->
  validate_nested_schema_keywords rec1 m path label depth =
  validate_nested_schema_keywords rec2 m path label depth.
Proof.
  intros Hrec. unfold validate_nested_schema_keywords.
  apply result_bind_ext; [done | intros _].
  apply result_bind_ext; [|intros _; apply result_bind_ext; [|intros _]].
  - destruct (obj_get "properties" m); [|done]. apply result_bind_ext; [done | intros props].
    apply for_each_ext. auto.
  - destruct (obj_get "additionalProperties" m) as [[]|]; auto.
  - destruct (obj_get "items" m) as [[]|]; auto.
Qed.

Lemma dispatch_ext rec1 rec2 m names value path label depth :
  (forall s v p, rec1 s v p label (depth + 1) = rec2 s v p label (depth + 1)) ->
  dispatch_schema_type rec1 m names value path label depth =
  dispatch_schema_type rec2 m names value path label depth.
Proof.
  intros Hrec. unfold dispatch_schema_type. destruct (find _ names) as [t|]; [|done].
  destruct (String.eqb t "object"); [|destruct (String.eqb t "array"); [|done]].
  - unfold validate_object_schema. apply result_bind_ext; [done | intros vm].
    apply result_bind_ext; [done | intros rs]. apply result_bind_ext; [done | intros _].
    apply result_bind_ext; [done | intros ps]. apply result_bind_ext; [|intros _].
    + apply for_each_ext. intros np _. destruct (obj_get np.1 vm); auto.
    + apply for_each_ext. intros nv _. destruct (obj_get nv.1 ps); [done|].
      destruct (obj_get "additionalProperties" m) as [[]|]; auto.
  - unfold validate_array_schema. apply result_bind_ext; [done | intros vl].
    apply result_bind_ext; [done | intros items].
    destruct items; try done. apply for_each_ext. auto.
Qed.

Lemma interpretable_fuel f1 : forall f2 schema path label depth,
  SCHEMA_FUEL <= f1 + depth -> SCHEMA_FUEL <= f2 + depth ->
  validate_schema_interpretable f1 schema path label depth =
  validate_schema_interpretable f2 schema path label depth.
Proof.
  unfold SCHEMA_FUEL. induction f1 as [|f1 IH]; intros f2 schema path label depth H1 H2.
  - assert (check_schema_depth label path depth =
      Err (schema_error label path SchemaNestingExceedsLimit)) as Hd.
    { unfold check_schema_depth. destruct (Nat.ltb_spec MAX_JSON_SCHEMA_SUBSET_DEPTH depth);
        [done|lia]. }
    destruct f2; simpl; by rewrite Hd.
  - destruct f2 as [|f2].
    { cbn [validate_schema_interpretable]. unfold check_schema_depth.
      destruct (Nat.ltb_spec MAX_JSON_SCHEMA_SUBSET_DEPTH depth); [done|lia]. }
    cbn [validate_schema_interpretable].
    do 4 (apply result_bind_ext; [done | intros ?]).
    apply result_bind_ext; [|done]. apply nested_keywords_ext. intros s p. apply IH; lia.
Qed.

Lemma schema_value_fuel f1 : forall f2 schema value path label depth,
  SCHEMA_FUEL <= f1 + depth -> SCHEMA_FUEL <= f2 + depth ->
  validate_schema_value f1 schema value path label depth =
  validate_schema_value f2 schema value path label depth.
Proof.
  unfold SCHEMA_FUEL. induction f1 as [|f1 IH]; intros f2 schema value path label depth H1 H2.
  - assert (check_schema_depth label path depth =
      Err (schema_error label path SchemaNestingExceedsLimit)) as Hd.
    { unfold check_schema_depth. destruct (Nat.ltb_spec MAX_JSON_SCHEMA_SUBSET_DEPTH depth);
        [done|lia]. }
    destruct f2; simpl; by rewrite Hd.
  - destruct f2 as [|f2].
    { cbn [validate_schema_value]. unfold check_schema_depth.
      destruct (Nat.ltb_spec MAX_JSON_SCHEMA_SUBSET_DEPTH depth); [done|lia]. }
    cbn [validate_schema_value].
    do 2 (apply result_bind_ext; [done | intros ?]). rename a0 into m.
    do 2 (apply result_bind_ext; [done | intros ?]).
    destruct (obj_get "type" m); [|done]. apply result_bind_ext; [done | intros names].
    apply dispatch_ext. intros s v p. apply IH; lia.
Qed.

(** ** Where an error points *)

(** Every error of [r] carries [label] and a path that extends [path]. *)
Definition errs_at {A} (label path : string) (r : JsonSchemaResult A) : Prop :=
  forall e, r = Err e -> err_label e = label /\ exists suffix, err_path e = (path +:+ suffix).

Section ErrsAt.
Context (label path : string).

Lemma errs_at_err {A} message : @errs_at A label path (Err (schema_error label path message)).
Proof. intros e [= <-]. split; [done|]. exists "". simpl. by rewrite string_app_nil_r. Qed.

Lemma errs_at_ok {A} (a : A) : errs_at label path (Ok a).
Proof. intros e [=]. Qed.

Lemma errs_at_bind {A B} (r : JsonSchemaResult A) (k : A -> JsonSchemaResult B) :
  errs_at label path r -> (forall a, errs_at label path (k a)) ->
  errs_at label path (result_bind r k).
Proof. intros Hr Hk e H. destruct r; simpl in H; [by eapply Hk | apply Hr; by simplify_eq]. Qed.

Lemma errs_at_ok_or {A} (o : option A) message :
  errs_at label path (ok_or o (schema_error label path message)).
Proof. destruct o; [apply errs_at_ok | apply errs_at_err]. Qed.

Lemma errs_at_for_each {A} (f : A -> JsonSchemaResult unit) l :
  (forall a, errs_at label path (f a)) -> errs_at label path (for_each f l).
Proof. intros Hf e (a & _ & He)%for_each_err. by eapply Hf. Qed.

Lemma errs_at_collect {A B} (f : A -> JsonSchemaResult B) l :
  (forall a, errs_at label path (f a)) -> errs_at label path (collect f l).
Proof. intros Hf e (a & _ & He)%collect_err. by eapply Hf. Qed.

Lemma errs_at_try_fold {A S} (f : S -> A -> JsonSchemaResult S) l :
  (forall s a, errs_at label path (f s a)) -> forall s, errs_at label path (try_fold f s l).
Proof.
  intros Hf. induction l as [|a l IH]; intros s e; simpl; [done|].
  destruct (f s a) eqn:Hs; [apply IH|]. intros [= <-]. by eapply Hf.
Qed.

Lemma errs_at_extend {A} suffix (r : JsonSchemaResult A) :
  errs_at label (path +:+ suffix) r -> errs_at label path r.
Proof.
  intros H e He. destruct (H e He) as (? & s & Hs). split; [done|].
  exists (suffix +:+ s). by rewrite Hs, string_app_assoc.
Qed.
End ErrsAt.

#[export] Hint Resolve errs_at_err errs_at_ok errs_at_bind errs_at_ok_or errs_at_for_each
  errs_at_collect errs_at_try_fold : verlet.

Lemma errs_at_type_names v label path : errs_at label path (schema_type_names v label path).
Proof.
  unfold schema_type_names, validate_schema_type_name.
  destruct v as [| | | |[|v l]|]; eauto with verlet;
    [apply errs_at_bind | apply errs_at_try_fold]; intros; repeat case_match; eauto with verlet.
  apply errs_at_bind; eauto with verlet. intros. apply errs_at_bind; [|eauto with verlet].
  case_match; eauto with verlet.
Qed.

Lemma errs_at_required v label path : errs_at label path (required_properties v label path).
Proof. unfold required_properties. destruct (as_array v); eauto with verlet. Qed.

#[export] Hint Resolve errs_at_type_names errs_at_required : verlet.

(** Splits the binds and matches of a pass. *)
Ltac errs_at_step :=
  first
    [ apply errs_at_err | apply errs_at_ok | apply errs_at_ok_or | apply errs_at_type_names
    | apply errs_at_required
    | apply errs_at_bind; intros | apply errs_at_for_each; intros | case_match ].

Lemma interpretable_errs_at fuel : forall schema path label depth,
  errs_at label path (validate_schema_interpretable fuel schema path label depth).
Proof.
  induction fuel as [|fuel IH]; intros; cbn [validate_schema_interpretable];
    unfold check_schema_depth, check_schema_keys, validate_nested_schema_keywords,
      check_declared_type, schema_properties;
    repeat (errs_at_step || (eapply errs_at_extend; apply IH)).
Qed.

Lemma schema_value_errs_at fuel : forall schema value path label depth,
  errs_at label path (validate_schema_value fuel schema value path label depth).
Proof.
  induction fuel as [|fuel IH]; intros; cbn [validate_schema_value];
    unfold check_schema_depth, check_schema_keys, dispatch_schema_type, validate_object_schema,
      validate_array_schema, schema_properties;
    repeat (errs_at_step || (eapply errs_at_extend; apply IH)).
Qed.

(** ** Properties *)

Lemma validator_decides schema value label :
  validate_json_value_against_schema schema value label = Ok tt <->
  validate_json_schema_subset schema label = Ok tt /\ conforms schema value.
Proof.
  unfold validate_json_value_against_schema, validate_json_schema_subset. rewrite check_ok.
  split; intros [Hi Hv]; (split; [done|]); eapply schema_value_conforms; eauto;
    try (by eexists _, _, _); unfold SCHEMA_FUEL; lia.
Qed.

(** C40 - The validator is exactly its specification: a value is accepted under a schema if and
    only if the schema passes the interpretability pass and the value conforms to it in the
    sense of [conforms], which knows no depth limit, no fuel, no paths and no check order. *)
Theorem validate_json_value_spec schema value label :
  validate_json_value_against_schema schema value label = Ok tt <->
  validate_json_schema_subset schema label = Ok tt /\ conforms schema value.
Proof. apply validator_decides. Qed.

(** Both passes terminate within the depth limit: any larger fuel gives the same result,
    errors included, so the fuel of the model is not observable. *)
Theorem validate_schema_fuel_irrelevant fuel schema value path label :
  validate_schema_interpretable (SCHEMA_FUEL + fuel) schema path label 0 =
  validate_schema_interpretable SCHEMA_FUEL schema path label 0 /\
  validate_schema_value (SCHEMA_FUEL + fuel) schema value path label 0 =
  validate_schema_value SCHEMA_FUEL schema value path label 0.
Proof. split; [apply interpretable_fuel | apply schema_value_fuel]; lia. Qed.

(** A validation error always names the schema id it was asked about and points at a path
    under the document root. *)
Theorem validate_error_location schema value label e :
  validate_json_value_against_schema schema value label = Err e ->
  err_label e = label /\ starts_with "$" (err_path e) = true.
Proof.
  intros H. assert (errs_at label "$" (validate_json_value_against_schema schema value label))
    as Hat.
  { apply errs_at_bind; intros; [apply interpretable_errs_at | apply schema_value_errs_at]. }
  destruct (Hat e H) as (? & suffix & Hs). split; [done|].
  unfold starts_with. by rewrite (proj2 (strip_prefix_spec "$" (err_path e) suffix) Hs).
Qed.

Lemma validate_error_location_witness :
  let e := mk_schema_error "tool" "$.note" (ExpectedOneOf ["string"; "null"] "boolean") in
  err_label e = "tool" /\ starts_with "$" (err_path e) = true.
Proof.
  apply (validate_error_location
    (jobj [("type", JString "object");
           ("properties", jobj [("note", jobj [("type", JArray [JString "string"; JString "null"])])])])
    (jobj [("note", JBool false)]) "tool"). vm_compute. reflexivity.
Defined.
