(* ===== verification/EventKind.v ===== *)
(** * The frozen event vocabulary

    Models [EventKind] of [crates/verlet-history/src/lib.rs]: the closed list of
    kinds, the string each is serialized as, the fail-closed parser, the payload
    schema id and the routing predicates. *)

From stdpp Require Import base gmap sets list strings.
From S2P Require Import Prelude.

Local Open Scope string_scope.
Local Open Scope list_scope.

Inductive EventKind : Type :=
  | SessionEntryAppended
  | ContextCompileCompleted
  | ContextSummaryCompleted
  | ContextReadPlanSet
  | ManifestCompileCompleted
  | ManifestBindCompleted
  | BindingAttached
  | BindingDetached
  | ToolUniverseDiscoveryCompleted
  | ToolUniverseCallCompleted
  | ToolCallRequested
  | ToolCallSuspended
  | ToolCallDecision
  | ToolCallCompleted
  | TurnSubmitted
  | TurnWaiting
  | TurnResumed
  | TurnCompleted
  | TurnFailed
  | ApprovalRequested
  | ApprovalResolved
  | MandateStarted
  | MandateRevoked
  | TurnContinueRequested
  | TurnContinuationAccepted
  | TurnContinuationRejected
  | LoopCompleted
  | LoopBlocked
  | LoopBudgetExhausted
  | LoopDenied
  | CouplingRunCompleted
  | CouplingRunFailed
  | PlacementDecision
  | ThreadSpawnRequested
  | ThreadSpawned
  | ThreadJoined
  | ThreadBranchSelected
  | ThreadReloadDegraded
  | PolicyBound
  | GrantPetitioned
  | TimerFired
  | ClientRecordAppended
  | IoIngressReceived
  | IoIngressClaimed
  | IoIngressSettled
  | IoEgressRequested
  | IoEgressDelivered
  | IoEgressFailed
  | AdmissionDecided.

(** [strum::Display] / [AsRefStr], from the [serialize] attributes. *)
Definition kind_str (kind : EventKind) : string :=
  match kind with
  | SessionEntryAppended => "session.entry.appended"
  | ContextCompileCompleted => "context.compile.completed"
  | ContextSummaryCompleted => "context.summary.completed"
  | ContextReadPlanSet => "context.read_plan.set"
  | ManifestCompileCompleted => "manifest.compile.completed"
  | ManifestBindCompleted => "manifest.bind.completed"
  | BindingAttached => "binding.attached"
  | BindingDetached => "binding.detached"
  | ToolUniverseDiscoveryCompleted => "tool.universe.discovery.completed"
  | ToolUniverseCallCompleted => "tool.universe.call.completed"
  | ToolCallRequested => "tool.call.requested"
  | ToolCallSuspended => "tool.call.suspended"
  | ToolCallDecision => "tool.call.decision"
  | ToolCallCompleted => "tool.call.completed"
  | TurnSubmitted => "turn.submitted"
  | TurnWaiting => "turn.waiting"
  | TurnResumed => "turn.resumed"
  | TurnCompleted => "turn.completed"
  | TurnFailed => "turn.failed"
  | ApprovalRequested => "approval.requested"
  | ApprovalResolved => "approval.resolved"
  | MandateStarted => "mandate.started"
  | MandateRevoked => "mandate.revoked"
  | TurnContinueRequested => "turn.continue.requested"
  | TurnContinuationAccepted => "turn.continuation.accepted"
  | TurnContinuationRejected => "turn.continuation.rejected"
  | LoopCompleted => "loop.completed"
  | LoopBlocked => "loop.blocked"
  | LoopBudgetExhausted => "loop.budget_exhausted"
  | LoopDenied => "loop.denied"
  | CouplingRunCompleted => "coupling.run.completed"
  | CouplingRunFailed => "coupling.run.failed"
  | PlacementDecision => "placement.decision"
  | ThreadSpawnRequested => "thread.spawn.requested"
  | ThreadSpawned => "thread.spawned"
  | ThreadJoined => "thread.joined"
  | ThreadBranchSelected => "thread.branch.selected"
  | ThreadReloadDegraded => "thread.reload.degraded"
  | PolicyBound => "policy.bound"
  | GrantPetitioned => "grant.petitioned"
  | TimerFired => "timer.fired"
  | ClientRecordAppended => "client.record.appended"
  | IoIngressReceived => "io.ingress.received"
  | IoIngressClaimed => "io.ingress.claimed"
  | IoIngressSettled => "io.ingress.settled"
  | IoEgressRequested => "io.egress.requested"
  | IoEgressDelivered => "io.egress.delivered"
  | IoEgressFailed => "io.egress.failed"
  | AdmissionDecided => "admission.decided"
  end.

(** [strum::VariantArray]. *)
Definition ALL_KINDS : list EventKind :=
  [SessionEntryAppended; ContextCompileCompleted; ContextSummaryCompleted;
   ContextReadPlanSet; ManifestCompileCompleted; ManifestBindCompleted; BindingAttached;
   BindingDetached; ToolUniverseDiscoveryCompleted; ToolUniverseCallCompleted;
   ToolCallRequested; ToolCallSuspended; ToolCallDecision; ToolCallCompleted;
   TurnSubmitted; TurnWaiting; TurnResumed; TurnCompleted; TurnFailed; ApprovalRequested;
   ApprovalResolved; MandateStarted; MandateRevoked; TurnContinueRequested;
   TurnContinuationAccepted; TurnContinuationRejected; LoopCompleted; LoopBlocked;
   LoopBudgetExhausted; LoopDenied; CouplingRunCompleted; CouplingRunFailed;
   PlacementDecision; ThreadSpawnRequested; ThreadSpawned; ThreadJoined;
   ThreadBranchSelected; ThreadReloadDegraded; PolicyBound; GrantPetitioned; TimerFired;
   ClientRecordAppended; IoIngressReceived; IoIngressClaimed; IoIngressSettled;
   IoEgressRequested; IoEgressDelivered; IoEgressFailed; AdmissionDecided].

#[global] Instance EventKind_eq_dec : EqDecision EventKind.
Proof. solve_decision. Defined.

(** [EnumString::from_str]: the kind whose serialization the string is. *)
Definition parse_kind (value : string) : option EventKind :=
  find (fun kind => String.eqb (kind_str kind) value) ALL_KINDS.

(** [EventKind::payload_schema_id]. *)
Definition payload_schema_id (kind : EventKind) : string :=
  "cooldis.event." +:+ kind_str kind +:+ "/1".

(** ** Routing predicates *)

Definition event_kind_routes_to_model_trace (kind : EventKind) : bool :=
  match kind with
  | ContextCompileCompleted | ToolUniverseDiscoveryCompleted | ToolUniverseCallCompleted |
  ToolCallRequested | ToolCallSuspended | ToolCallDecision | ToolCallCompleted |
  TurnSubmitted | TurnCompleted | TurnFailed => true
  | _ => false
  end.

Definition event_kind_routes_to_runtime_trace (kind : EventKind) : bool :=
  match kind with
  | ContextSummaryCompleted | ContextReadPlanSet | ManifestCompileCompleted |
  ManifestBindCompleted | TurnWaiting | TurnResumed | ApprovalRequested | ApprovalResolved
  | MandateStarted | MandateRevoked | TurnContinueRequested | TurnContinuationAccepted |
  TurnContinuationRejected | LoopCompleted | LoopBlocked | LoopBudgetExhausted |
  LoopDenied | CouplingRunCompleted | CouplingRunFailed | PlacementDecision |
  ThreadSpawned | ThreadJoined | ThreadBranchSelected | ThreadReloadDegraded | PolicyBound
  | GrantPetitioned | TimerFired | IoIngressReceived | IoIngressClaimed | IoIngressSettled
  | IoEgressRequested | IoEgressDelivered | IoEgressFailed | AdmissionDecided => true
  | _ => false
  end.

Definition event_kind_routes_to_analytics (kind : EventKind) : bool :=
  match kind with
  | ToolUniverseCallCompleted | ToolCallCompleted | TurnCompleted | LoopCompleted |
  LoopBlocked | LoopBudgetExhausted | LoopDenied | CouplingRunCompleted |
  CouplingRunFailed => true
  | _ => false
  end.

(** ** Facts *)

Lemma all_kinds_complete kind : kind ∈ ALL_KINDS.
Proof. destruct kind; unfold ALL_KINDS; repeat (left || right). Qed.

Lemma kind_str_inj k1 k2 : kind_str k1 = kind_str k2 -> k1 = k2.
Proof. destruct k1, k2; intros H; first [reflexivity | discriminate H]. Qed.

Lemma parse_kind_str kind : parse_kind (kind_str kind) = Some kind.
Proof. destruct kind; reflexivity. Qed.

Lemma parse_kind_sound value kind : parse_kind value = Some kind -> value = kind_str kind.
Proof.
  intros H. apply find_some in H as [_ H]. by apply String.eqb_eq in H.
Qed.

(** The vocabulary is closed and printing is a faithful name: parsing a string yields a
    kind exactly when the string is that kind's name (so every other string is an error), and
    two kinds never share a payload schema id. *)
Theorem event_kind_roundtrip :
  (forall value kind, parse_kind value = Some kind <-> value = kind_str kind) /\
  (forall k1 k2, payload_schema_id k1 = payload_schema_id k2 -> k1 = k2).
Proof.
  split.
  - intros value kind. split; [apply parse_kind_sound | intros ->; apply parse_kind_str].
  - intros k1 k2 H. unfold payload_schema_id in H. apply string_app_inj_l in H.
    apply kind_str_inj. revert H. generalize (kind_str k1) (kind_str k2).
    apply string_app_inj_r.
Qed.
