(* ===== verification/EventSchemas.v ===== *)
(** * The frozen stream schemas and their registry

    The [json!] constants of [crates/verlet-history/src/lib.rs] and
    [stream_schema_registry_v1], which registers each under its id when it is
    first used and panics on a malformed one. *)

From stdpp Require Import base gmap sets list strings.
From S2P Require Import Prelude Json Schema EventKind.

Local Open Scope string_scope.
Local Open Scope list_scope.

Definition STREAM_RECORD_SCHEMA_V1 : string := "cooldis.stream.record/1".
Definition STREAM_CURSOR_SCHEMA_V1 : string := "cooldis.stream.cursor/1".
Definition STREAM_BACKEND_CAPABILITIES_SCHEMA_V1 : string := "cooldis.stream.backend_capabilities/1".
Definition STREAM_APPEND_ACK_SCHEMA_V1 : string := "cooldis.stream.append_ack/1".
Definition STREAM_ROUTING_DECISION_SCHEMA_V1 : string := "cooldis.stream.routing_decision/1".
Definition CONTEXT_READ_PLAN_SCHEMA_V1 : string := "cooldis.context.read_plan/1".
Definition DEBUG_THREAD_EXPORT_SCHEMA_V1 : string := "cooldis.debug.thread_export/1".

Definition stream_record_schema_v1 : json :=
  jobj
    [("type", JString "object");
    ("required", jstrs ["schema"; "event_id"; "stream_id"; "sequence"; "coordinates";
         "created_at_ms"; "kind"; "origin"; "payload_schema";
         "provenance"; "payload"]);
    ("additionalProperties", JBool true);
    ("properties", jobj
      [("schema", jobj [("enum", JArray [JString STREAM_RECORD_SCHEMA_V1])]);
      ("event_id", jobj [("type", JString "string")]);
      ("stream_id", jobj [("type", JString "string")]);
      ("sequence", jobj [("type", JString "integer")]);
      ("coordinates", jobj
        [("type", JString "object");
        ("required", jstrs ["tenant_id"; "user_id"; "session_id"; "thread_id"]);
        ("additionalProperties", JBool false);
        ("properties", jobj
          [("tenant_id", jobj [("type", JString "string")]);
          ("user_id", jobj [("type", JString "string")]);
          ("session_id", jobj [("type", JString "string")]);
          ("thread_id", jobj [("type", JString "string")])])]);
      ("created_at_ms", jobj [("type", JString "integer")]);
      ("kind", jobj [("type", JString "string")]);
      ("origin", jobj [("enum", jstrs ["witnessed"; "discharged"])]);
      ("payload_schema", jobj [("type", JString "string")]);
      ("trace_context", jobj
        [("type", JString "object");
        ("additionalProperties", JBool true)]);
      ("provenance", jobj
        [("type", JString "object");
        ("additionalProperties", JBool true)]);
      ("payload", jobj
        [("type", JString "object");
        ("additionalProperties", JBool true)])])].

Definition stream_cursor_schema_v1 : json :=
  jobj
    [("type", JString "object");
    ("required", jstrs ["schema"; "stream_id"; "sequence"; "event_id"]);
    ("additionalProperties", JBool false);
    ("properties", jobj
      [("schema", jobj [("enum", JArray [JString STREAM_CURSOR_SCHEMA_V1])]);
      ("stream_id", jobj [("type", JString "string")]);
      ("sequence", jobj [("type", JString "integer")]);
      ("event_id", jobj [("type", JString "string")])])].

Definition stream_ack_classes_schema_v1 : json :=
  jobj
    [("type", JString "array");
    ("items", jobj [("enum", jstrs ["local_committed"; "query_projected"; "stream_committed";
           "broadcast_visible"; "archived"])])].

Definition stream_backend_capabilities_schema_v1 : json :=
  jobj
    [("type", JString "object");
    ("required", jstrs ["schema"; "backend_kind"; "storage_scope"; "ack_classes";
         "supports_atomic_batch_append";
         "supports_verified_cursor_replay"; "supports_query_projection";
         "supports_expected_tail"; "supports_fencing_tokens";
         "supports_live_follow"; "supports_broadcast";
         "supports_cold_archive"]);
    ("additionalProperties", JBool false);
    ("properties", jobj
      [("schema", jobj [("enum", JArray [JString STREAM_BACKEND_CAPABILITIES_SCHEMA_V1])]);
      ("backend_kind", jobj [("enum", jstrs ["sqlite"])]);
      ("storage_scope", jobj [("enum", jstrs ["local_embedded"; "remote_durable"; "hybrid"])]);
      ("ack_classes", stream_ack_classes_schema_v1);
      ("supports_atomic_batch_append", jobj [("type", JString "boolean")]);
      ("supports_verified_cursor_replay", jobj [("type", JString "boolean")]);
      ("supports_query_projection", jobj [("type", JString "boolean")]);
      ("supports_expected_tail", jobj [("type", JString "boolean")]);
      ("supports_fencing_tokens", jobj [("type", JString "boolean")]);
      ("supports_live_follow", jobj [("type", JString "boolean")]);
      ("supports_broadcast", jobj [("type", JString "boolean")]);
      ("supports_cold_archive", jobj [("type", JString "boolean")]);
      ("local_path", jobj [("type", JString "string")])])].

Definition stream_append_ack_schema_v1 : json :=
  jobj
    [("type", JString "object");
    ("required", jstrs ["schema"; "stream_id"; "start_sequence"; "end_sequence";
         "tail_sequence"; "tail_event_id"; "acks"]);
    ("additionalProperties", JBool false);
    ("properties", jobj
      [("schema", jobj [("enum", JArray [JString STREAM_APPEND_ACK_SCHEMA_V1])]);
      ("stream_id", jobj [("type", JString "string")]);
      ("start_sequence", jobj [("type", JString "integer")]);
      ("end_sequence", jobj [("type", JString "integer")]);
      ("tail_sequence", jobj [("type", JString "integer")]);
      ("tail_event_id", jobj [("type", JString "string")]);
      ("acks", stream_ack_classes_schema_v1)])].

Definition stream_routing_decision_schema_v1 : json :=
  jobj
    [("type", JString "object");
    ("required", jstrs ["schema"; "event_id"; "stream_id"; "sequence"; "kind"; "routes";
         "keys"]);
    ("additionalProperties", JBool false);
    ("properties", jobj
      [("schema", jobj [("enum", JArray [JString STREAM_ROUTING_DECISION_SCHEMA_V1])]);
      ("event_id", jobj [("type", JString "string")]);
      ("stream_id", jobj [("type", JString "string")]);
      ("sequence", jobj [("type", JString "integer")]);
      ("kind", jobj [("type", JString "string")]);
      ("routes", jobj
        [("type", JString "array");
        ("items", jobj [("enum", jstrs ["authority_store"; "export_bundle"; "model_trace";
               "runtime_trace"; "browser_safe_projection";
               "analytics_aggregate"])])]);
      ("keys", jobj
        [("type", JString "object");
        ("required", jstrs ["schema"; "stream_id"; "tenant_id"; "user_id"; "session_id";
             "thread_id"; "kind"; "origin"; "payload_schema"]);
        ("additionalProperties", JBool false);
        ("properties", jobj
          [("schema", jobj [("type", JString "string")]);
          ("stream_id", jobj [("type", JString "string")]);
          ("tenant_id", jobj [("type", JString "string")]);
          ("user_id", jobj [("type", JString "string")]);
          ("session_id", jobj [("type", JString "string")]);
          ("thread_id", jobj [("type", JString "string")]);
          ("kind", jobj [("type", JString "string")]);
          ("origin", jobj [("enum", jstrs ["witnessed"; "discharged"])]);
          ("payload_schema", jobj [("type", JString "string")]);
          ("trace_id", jobj [("type", JString "string")]);
          ("discharged_by", jobj [("type", JString "string")])])])])].

Definition context_read_plan_schema_v1 : json :=
  jobj
    [("type", JString "object");
    ("required", jstrs ["schema"; "name"; "source_stream"; "frontier"; "entries"]);
    ("additionalProperties", JBool false);
    ("properties", jobj
      [("schema", jobj [("enum", JArray [JString CONTEXT_READ_PLAN_SCHEMA_V1])]);
      ("name", jobj [("type", JString "string")]);
      ("source_stream", jobj [("type", JString "string")]);
      ("frontier", jobj [("enum", jstrs ["compile_frontier"])]);
      ("entries", jobj
        [("type", JString "array");
        ("items", jobj
          [("type", JString "object");
          ("required", jstrs ["kind"]);
          ("additionalProperties", JBool false);
          ("properties", jobj
            [("kind", jobj [("enum", jstrs ["raw_range"; "event_ref"; "drop_range"])]);
            ("stream_id", jobj [("type", JString "string")]);
            ("event_id", jobj [("type", JString "string")]);
            ("event_role", jobj [("type", JString "string")]);
            ("reason", jobj [("type", JString "string")]);
            ("range", jobj
              [("type", JString "object");
              ("additionalProperties", JBool true)]);
            ("covers", jobj
              [("type", JString "object");
              ("additionalProperties", JBool true)])])])])])].

Definition context_compile_completed_payload_schema_v1 : json :=
  jobj
    [("type", JString "object");
    ("required", jstrs ["schema"; "read_plan"]);
    ("additionalProperties", JBool true);
    ("properties", jobj
      [("schema", jobj [("enum", JArray [JString (payload_schema_id ContextCompileCompleted)])]);
      ("strategy", jobj [("type", JString "string")]);
      ("output_hash", jobj [("type", JString "string")]);
      ("read_plan", context_read_plan_schema_v1)])].

Definition context_summary_completed_payload_schema_v1 : json :=
  jobj
    [("type", JString "object");
    ("required", jstrs ["schema"; "role"; "text"; "covered_ranges"; "content"]);
    ("additionalProperties", JBool true);
    ("properties", jobj
      [("schema", jobj [("enum", JArray [JString (payload_schema_id ContextSummaryCompleted)])]);
      ("role", jobj [("enum", jstrs ["summary_checkpoint"])]);
      ("text", jobj [("type", JString "string")]);
      ("covered_ranges", jobj
        [("type", JString "array");
        ("items", jobj
          [("type", JString "object");
          ("required", jstrs ["stream_id"; "from_sequence"; "to_sequence"]);
          ("additionalProperties", JBool false);
          ("properties", jobj
            [("stream_id", jobj [("type", JString "string")]);
            ("from_sequence", jobj [("type", JString "integer")]);
            ("to_sequence", jobj [("type", JString "integer")])])])]);
      ("content", jobj
        [("type", JString "object");
        ("required", jstrs ["sha256"]);
        ("additionalProperties", JBool false);
        ("properties", jobj [("sha256", jobj [("type", JString "string")])])])])].

Definition context_read_plan_set_payload_schema_v1 : json :=
  jobj
    [("type", JString "object");
    ("required", jstrs ["schema"; "scope"; "name"; "read_plan"]);
    ("additionalProperties", JBool true);
    ("properties", jobj
      [("schema", jobj [("enum", JArray [JString (payload_schema_id ContextReadPlanSet)])]);
      ("scope", jobj [("enum", jstrs ["thread"])]);
      ("name", jobj [("type", JString "string")]);
      ("pipeline_id", jobj [("type", JString "string")]);
      ("source_id", jobj [("type", JString "string")]);
      ("summary_event_id", jobj [("type", JString "string")]);
      ("read_plan", context_read_plan_schema_v1)])].

Definition string_array_schema_v1 : json :=
  jobj
    [("type", JString "array");
    ("items", jobj [("type", JString "string")])].

Definition binding_attachment_config_schema_v1 : json :=
  jobj
    [("type", JString "object");
    ("additionalProperties", JBool false);
    ("properties", jobj
      [("allowed_secrets", string_array_schema_v1);
      ("allowed_private_network", jobj
        [("type", JString "object");
        ("additionalProperties", string_array_schema_v1)]);
      ("bound_parameters", jobj
        [("type", JString "object");
        ("additionalProperties", JBool true)])])].

Definition binding_effect_class_schema_v1 : json :=
  jobj [("enum", jstrs ["pure"; "idempotent"; "at-most-once"])].

Definition binding_attached_payload_schema_v1 : json :=
  jobj
    [("type", JString "object");
    ("required", jstrs ["name"; "artifact_hash"; "requested_by"; "decided_by"]);
    ("additionalProperties", JBool false);
    ("properties", jobj
      [("name", jobj [("type", JString "string")]);
      ("artifact_hash", jobj [("type", JString "string")]);
      ("operations", string_array_schema_v1);
      ("direct_tools", jobj
        [("type", JString "array");
        ("items", jobj
          [("type", JString "object");
          ("required", jstrs ["tool_name"; "operation"]);
          ("additionalProperties", JBool false);
          ("properties", jobj
            [("tool_name", jobj [("type", JString "string")]);
            ("operation", jobj [("type", JString "string")]);
            ("effect_class", binding_effect_class_schema_v1)])])]);
      ("attachment_config", binding_attachment_config_schema_v1);
      ("effect_class", binding_effect_class_schema_v1);
      ("requested_by", jobj [("type", JString "string")]);
      ("decided_by", jobj [("type", JString "string")]);
      ("decision_event_id", jobj [("type", JString "string")])])].

Definition binding_detached_payload_schema_v1 : json :=
  jobj
    [("type", JString "object");
    ("required", jstrs ["attach_event_id"; "requested_by"; "decided_by"]);
    ("additionalProperties", JBool false);
    ("properties", jobj
      [("attach_event_id", jobj [("type", JString "string")]);
      ("requested_by", jobj [("type", JString "string")]);
      ("decided_by", jobj [("type", JString "string")]);
      ("decision_event_id", jobj [("type", JString "string")])])].

Definition turn_failed_payload_schema_v1 : json :=
  jobj
    [("type", JString "object");
    ("required", jstrs ["turn_id"; "error_class"; "message"; "retries_attempted"]);
    ("additionalProperties", JBool false);
    ("properties", jobj
      [("turn_id", jobj [("type", JString "string")]);
      ("error_class", jobj [("enum", jstrs ["provider_http"; "provider_transport"; "runner"; "internal"])]);
      ("provider_id", jobj [("type", JString "string")]);
      ("http_status", jobj [("type", JString "integer")]);
      ("message", jobj [("type", JString "string")]);
      ("retries_attempted", jobj [("type", JString "integer")])])].

Definition grant_set_schema_v1 : json :=
  jobj
    [("type", JString "array");
    ("items", jobj [("type", JString "string")])].

Definition thread_spawned_payload_schema_v1 : json :=
  jobj
    [("type", JString "object");
    ("required", jstrs ["parent_thread_id"; "child_thread_id"; "child_manifest_hash";
         "granted"; "inputs_hash"]);
    ("additionalProperties", JBool true);
    ("properties", jobj
      [("parent_thread_id", jobj [("type", JString "string")]);
      ("parent_turn_id", jobj [("type", JString "string")]);
      ("child_thread_id", jobj [("type", JString "string")]);
      ("child_manifest_hash", jobj [("type", JString "string")]);
      ("child_policy_hash", jobj [("type", JString "string")]);
      ("granted", grant_set_schema_v1);
      ("inputs_hash", jobj [("type", JString "string")]);
      ("fork", jobj
        [("type", JString "object");
        ("required", jstrs ["mode"; "sourceCut"]);
        ("additionalProperties", JBool true);
        ("properties", jobj
          [("mode", jobj [("type", JString "string")]);
          ("claim_event_id", jobj [("type", JString "string")]);
          ("sourceCut", jobj
            [("type", JString "object");
            ("required", jstrs ["threadId"; "checkpointId"; "leafEntryId"; "streamId";
                 "streamToSequence"]);
            ("additionalProperties", JBool true);
            ("properties", jobj
              [("threadId", jobj [("type", JString "string")]);
              ("checkpointId", jobj [("type", JString "string")]);
              ("leafEntryId", jobj [("type", jstrs ["string"; "null"])]);
              ("streamId", jobj [("type", JString "string")]);
              ("streamToSequence", jobj [("type", jstrs ["integer"; "null"])])])])])])])].

Definition thread_spawn_requested_payload_schema_v1 : json :=
  jobj
    [("type", JString "object");
    ("required", jstrs ["parent_thread_id"; "child_agent_ref"; "initial_submission";
         "correlation_id"]);
    ("additionalProperties", JBool true);
    ("properties", jobj
      [("parent_thread_id", jobj [("type", JString "string")]);
      ("parent_turn_id", jobj [("type", JString "string")]);
      ("task_name", jobj [("type", JString "string")]);
      ("submitted_turn_id", jobj [("type", JString "string")]);
      ("child_agent_ref", jobj [("type", JString "string")]);
      ("initial_submission", jobj [("type", JString "string")]);
      ("correlation_id", jobj [("type", JString "string")]);
      ("block_parent", jobj [("type", JString "boolean")])])].

Definition thread_joined_payload_schema_v1 : json :=
  jobj
    [("type", JString "object");
    ("required", jstrs ["child_thread_id"; "spawned_event_id"; "terminal_state"]);
    ("additionalProperties", JBool true);
    ("properties", jobj
      [("child_thread_id", jobj [("type", JString "string")]);
      ("spawned_event_id", jobj [("type", JString "string")]);
      ("terminal_state", jobj [("enum", jstrs ["completed"; "failed"; "cancelled"; "budget_exhausted"])]);
      ("result_digest", jobj [("type", JString "string")])])].

Definition thread_branch_selected_payload_schema_v1 : json :=
  jobj
    [("type", JString "object");
    ("required", jstrs ["thread_id"]);
    ("additionalProperties", JBool true);
    ("properties", jobj
      [("thread_id", jobj [("type", JString "string")]);
      ("selected_entry_id", jobj [("type", jstrs ["string"; "null"])]);
      ("prior_entry_id", jobj [("type", jstrs ["string"; "null"])])])].

Definition policy_bound_payload_schema_v1 : json :=
  jobj
    [("type", JString "object");
    ("required", jstrs ["policy_kind"; "policy_id"; "content_hash"; "valid_from_note"]);
    ("additionalProperties", JBool true);
    ("properties", jobj
      [("policy_kind", jobj
        [("type", jstrs ["string"; "object"]);
        ("additionalProperties", JBool true)]);
      ("policy_id", jobj [("type", JString "string")]);
      ("content_hash", jobj [("type", JString "string")]);
      ("valid_from_note", jobj [("type", JString "string")])])].

Definition event_id_array_schema_v1 : json :=
  jobj
    [("type", JString "array");
    ("items", jobj [("type", JString "string")])].

Definition grant_petitioned_payload_schema_v1 : json :=
  jobj
    [("type", JString "object");
    ("required", jstrs ["thread_id"; "requested"; "reason"]);
    ("additionalProperties", JBool true);
    ("properties", jobj
      [("thread_id", jobj [("type", JString "string")]);
      ("requested", grant_set_schema_v1);
      ("reason", jobj [("type", JString "string")]);
      ("evidence_event_ids", event_id_array_schema_v1)])].

Definition timer_fired_payload_schema_v1 : json :=
  jobj
    [("type", JString "object");
    ("required", jstrs ["mandate_event_id"; "scheduled_for"; "occurrence_index";
         "catch_up"]);
    ("additionalProperties", JBool true);
    ("properties", jobj
      [("mandate_event_id", jobj [("type", JString "string")]);
      ("scheduled_for", jobj [("type", JString "string")]);
      ("occurrence_index", jobj [("type", JString "integer")]);
      ("catch_up", jobj [("type", JString "boolean")])])].

Definition client_record_appended_payload_schema_v1 : json :=
  jobj
    [("type", JString "object");
    ("required", jstrs ["client_kind"; "client_schema"; "principal_id"; "body"]);
    ("additionalProperties", JBool false);
    ("properties", jobj
      [("client_kind", jobj [("type", JString "string")]);
      ("client_schema", jobj [("type", JString "string")]);
      ("principal_id", jobj [("type", JString "string")]);
      ("body", jobj
        [("type", jstrs ["object"; "array"; "string"; "number"; "boolean"; "null"]);
        ("additionalProperties", JBool true);
        ("items", JBool true)])])].

Definition io_ingress_received_payload_schema_v1 : json :=
  jobj
    [("type", JString "object");
    ("required", jstrs ["envelope_digest"]);
    ("additionalProperties", JBool true);
    ("properties", jobj
      [("route_id", jobj [("type", JString "string")]);
      ("dedupe_key", jobj [("type", JString "string")]);
      ("external_conversation_id", jobj [("type", JString "string")]);
      ("external_actor_id", jobj [("type", JString "string")]);
      ("external_message_id", jobj [("type", JString "string")]);
      ("envelope_digest", jobj [("type", JString "string")])])].

Definition thread_reload_degraded_payload_schema_v1 : json :=
  jobj
    [("type", JString "object");
    ("required", jstrs ["thread_id"; "missing"; "fallback"]);
    ("additionalProperties", JBool false);
    ("properties", jobj
      [("thread_id", jobj [("type", JString "string")]);
      ("missing", jobj
        [("type", JString "array");
        ("items", jobj [("type", JString "string")])]);
      ("fallback", jobj [("enum", jstrs ["fabricated_root"])])])].

Definition io_ingress_claimed_payload_schema_v1 : json :=
  jobj
    [("type", JString "object");
    ("required", jstrs ["ingress_envelope_ids"; "ingress_witness_event_ids";
         "admission_event_id"; "intent"]);
    ("additionalProperties", JBool false);
    ("properties", jobj
      [("ingress_envelope_ids", string_array_schema_v1);
      ("ingress_witness_event_ids", string_array_schema_v1);
      ("admission_event_id", jobj [("type", JString "string")]);
      ("intent", jobj
        [("type", JString "object");
        ("required", jstrs ["outcome"]);
        ("additionalProperties", JBool true);
        ("properties", jobj [("outcome", jobj [("enum", jstrs ["turn"; "fork"; "interrupt"; "observe"; "reject"])])])])])].

Definition io_ingress_settled_payload_schema_v1 : json :=
  jobj
    [("type", JString "object");
    ("required", jstrs ["claim_event_id"; "ingress_envelope_ids"; "settled_by"]);
    ("additionalProperties", JBool false);
    ("properties", jobj
      [("claim_event_id", jobj [("type", JString "string")]);
      ("ingress_envelope_ids", string_array_schema_v1);
      ("evidence_event_id", jobj [("type", JString "string")]);
      ("settled_by", jobj [("enum", jstrs ["execution"; "recovery"])])])].

Definition io_egress_requested_payload_schema_v1 : json :=
  jobj
    [("type", JString "object");
    ("required", jstrs ["egress_kind"; "requested_by_tool_call_id"]);
    ("additionalProperties", JBool true);
    ("properties", jobj
      [("egress_kind", jobj
        [("type", JString "object");
        ("additionalProperties", JBool true)]);
      ("resolved_target", jobj
        [("type", JString "object");
        ("additionalProperties", JBool true)]);
      ("requested_by_tool_call_id", jobj [("type", JString "string")]);
      ("quote", jobj [("type", JString "string")]);
      ("match_event_id", jobj [("type", JString "string")])])].

Definition io_egress_delivered_payload_schema_v1 : json :=
  jobj
    [("type", JString "object");
    ("required", jstrs ["route_id"; "egress_kind"; "attempts"]);
    ("additionalProperties", JBool true);
    ("properties", jobj
      [("route_id", jobj [("type", JString "string")]);
      ("egress_kind", jobj [("type", JString "string")]);
      ("external_message_id", jobj [("type", JString "string")]);
      ("attempts", jobj [("type", JString "integer")])])].

Definition io_egress_failed_payload_schema_v1 : json :=
  jobj
    [("type", JString "object");
    ("required", jstrs ["route_id"; "egress_kind"; "attempts"; "error_class";
         "dead_lettered"]);
    ("additionalProperties", JBool true);
    ("properties", jobj
      [("route_id", jobj [("type", JString "string")]);
      ("egress_kind", jobj [("type", JString "string")]);
      ("attempts", jobj [("type", JString "integer")]);
      ("error_class", jobj [("type", JString "string")]);
      ("dead_lettered", jobj [("type", JString "boolean")])])].

Definition admission_decision_schema_v1 : json :=
  jobj [("enum", jstrs ["queue"; "steer"; "interrupt"; "fork"; "observe"; "reject";
         "coalesce"])].

Definition admission_decided_payload_schema_v1 : json :=
  jobj
    [("type", JString "object");
    ("required", jstrs ["route_id"; "policy_hash"; "decision"; "source_ingress_event_ids"]);
    ("additionalProperties", JBool true);
    ("properties", jobj
      [("route_id", jobj [("type", JString "string")]);
      ("policy_hash", jobj [("type", JString "string")]);
      ("decision", admission_decision_schema_v1);
      ("admissible", jobj
        [("type", JString "array");
        ("items", admission_decision_schema_v1)]);
      ("source_ingress_event_ids", event_id_array_schema_v1)])].

Definition debug_export_ack_classes_schema_v1 : json :=
  jobj
    [("type", JString "array");
    ("items", jobj [("enum", jstrs ["local_committed"; "query_projected"])])].

Definition debug_export_backend_schema_v1 : json :=
  jobj
    [("type", JString "object");
    ("required", jstrs ["kind"; "sessionStorePath"]);
    ("additionalProperties", JBool false);
    ("properties", jobj
      [("kind", jobj [("enum", jstrs ["sqlite"])]);
      ("sessionStorePath", jobj [("type", JString "string")]);
      ("ackClasses", debug_export_ack_classes_schema_v1)])].

Definition nullable_stream_cursor_schema_v1 : json :=
  match stream_cursor_schema_v1 with
  | JObject m => JObject (obj_insert "type" (JArray [JString "object"; JString "null"]) m)
  | v => v
  end.

Definition debug_export_range_schema_v1 : json :=
  jobj
    [("type", JString "object");
    ("required", jstrs ["fromSequence"; "fromCursor"; "lastExportedSequence";
         "lastExportedStreamCursor"; "toCursor"; "tailSequence";
         "tailStreamCursor"; "tailCursor"]);
    ("additionalProperties", JBool false);
    ("properties", jobj
      [("fromSequence", jobj [("type", JString "integer")]);
      ("fromCursor", jobj [("type", JString "string")]);
      ("lastExportedSequence", jobj [("type", jstrs ["integer"; "null"])]);
      ("lastExportedStreamCursor", nullable_stream_cursor_schema_v1);
      ("toCursor", jobj [("type", jstrs ["string"; "null"])]);
      ("tailSequence", jobj [("type", jstrs ["integer"; "null"])]);
      ("tailStreamCursor", nullable_stream_cursor_schema_v1);
      ("tailCursor", jobj [("type", JString "string")])])].

Definition debug_export_receipt_schema_v1 : json :=
  jobj
    [("type", JString "object");
    ("required", jstrs ["eventId"; "streamId"; "sequence"; "kind"; "origin";
         "payloadSchema"; "createdAtMs"]);
    ("additionalProperties", JBool false);
    ("properties", jobj
      [("eventId", jobj [("type", JString "string")]);
      ("streamId", jobj [("type", JString "string")]);
      ("sequence", jobj [("type", JString "integer")]);
      ("kind", jobj [("type", JString "string")]);
      ("origin", jobj [("enum", jstrs ["discharged"])]);
      ("payloadSchema", jobj [("type", JString "string")]);
      ("createdAtMs", jobj [("type", JString "integer")])])].

Definition debug_export_stream_record_schema_v1 : json :=
  jobj
    [("type", JString "object");
    ("required", jstrs ["schema"; "event_id"; "stream_id"; "sequence"; "kind"; "origin";
         "payload_schema"; "payload"; "eventId"; "atMs"]);
    ("additionalProperties", JBool true);
    ("properties", jobj
      [("schema", jobj [("enum", JArray [JString STREAM_RECORD_SCHEMA_V1])]);
      ("event_id", jobj [("type", JString "string")]);
      ("stream_id", jobj [("type", JString "string")]);
      ("sequence", jobj [("type", JString "integer")]);
      ("kind", jobj [("type", JString "string")]);
      ("origin", jobj [("enum", jstrs ["witnessed"; "discharged"])]);
      ("payload_schema", jobj [("type", JString "string")]);
      ("payload", jobj
        [("type", JString "object");
        ("additionalProperties", JBool true)]);
      ("eventId", jobj [("type", JString "string")]);
      ("atMs", jobj [("type", JString "integer")])])].

Definition debug_thread_export_schema_v1 : json :=
  jobj
    [("type", JString "object");
    ("required", jstrs ["schema"; "threadId"; "generatedAtMs"; "backend"; "ackClasses";
         "redaction"; "thread"; "streams"; "receipts"]);
    ("additionalProperties", JBool false);
    ("properties", jobj
      [("schema", jobj [("enum", JArray [JString DEBUG_THREAD_EXPORT_SCHEMA_V1])]);
      ("threadId", jobj [("type", JString "string")]);
      ("generatedAtMs", jobj [("type", JString "integer")]);
      ("backend", debug_export_backend_schema_v1);
      ("ackClasses", debug_export_ack_classes_schema_v1);
      ("thread", jobj
        [("type", jstrs ["object"; "null"]);
        ("additionalProperties", JBool true)]);
      ("redaction", jobj
        [("type", JString "object");
        ("required", jstrs ["enabled"; "mode"; "replacement"; "redactedKeys"]);
        ("additionalProperties", JBool false);
        ("properties", jobj
          [("enabled", jobj [("type", JString "boolean")]);
          ("mode", jobj [("enum", jstrs ["secret-shaped-json-keys"; "none"])]);
          ("replacement", jobj [("type", JString "string")]);
          ("redactedKeys", jobj
            [("type", JString "array");
            ("items", jobj [("type", JString "string")])])])]);
      ("streams", jobj
        [("type", JString "array");
        ("items", jobj
          [("type", JString "object");
          ("required", jstrs ["selector"; "streamId"; "backend"; "ackClasses"; "range";
               "data"; "eventCount"; "truncated"; "cursor";
               "streamCursor"]);
          ("additionalProperties", JBool false);
          ("properties", jobj
            [("selector", jobj [("type", JString "string")]);
            ("streamId", jobj [("type", JString "string")]);
            ("backend", debug_export_backend_schema_v1);
            ("ackClasses", debug_export_ack_classes_schema_v1);
            ("range", debug_export_range_schema_v1);
            ("data", jobj
              [("type", JString "array");
              ("items", debug_export_stream_record_schema_v1)]);
            ("eventCount", jobj [("type", JString "integer")]);
            ("truncated", jobj [("type", JString "boolean")]);
            ("cursor", jobj [("type", jstrs ["string"; "null"])]);
            ("streamCursor", nullable_stream_cursor_schema_v1)])])]);
      ("receipts", jobj
        [("type", JString "array");
        ("items", debug_export_receipt_schema_v1)])])].

(** ** The registry *)

(** The registrations in source order. *)
Definition frozen_schemas : list (string * json) :=
  [(STREAM_RECORD_SCHEMA_V1, stream_record_schema_v1);
   (STREAM_CURSOR_SCHEMA_V1, stream_cursor_schema_v1);
   (STREAM_BACKEND_CAPABILITIES_SCHEMA_V1, stream_backend_capabilities_schema_v1);
   (STREAM_APPEND_ACK_SCHEMA_V1, stream_append_ack_schema_v1);
   (STREAM_ROUTING_DECISION_SCHEMA_V1, stream_routing_decision_schema_v1);
   (CONTEXT_READ_PLAN_SCHEMA_V1, context_read_plan_schema_v1);
   (DEBUG_THREAD_EXPORT_SCHEMA_V1, debug_thread_export_schema_v1);
   (payload_schema_id ContextCompileCompleted, context_compile_completed_payload_schema_v1);
   (payload_schema_id ContextSummaryCompleted, context_summary_completed_payload_schema_v1);
   (payload_schema_id ContextReadPlanSet, context_read_plan_set_payload_schema_v1);
   (payload_schema_id BindingAttached, binding_attached_payload_schema_v1);
   (payload_schema_id BindingDetached, binding_detached_payload_schema_v1);
   (payload_schema_id TurnFailed, turn_failed_payload_schema_v1);
   (payload_schema_id ThreadSpawnRequested, thread_spawn_requested_payload_schema_v1);
   (payload_schema_id ThreadSpawned, thread_spawned_payload_schema_v1);
   (payload_schema_id ThreadJoined, thread_joined_payload_schema_v1);
   (payload_schema_id ThreadBranchSelected, thread_branch_selected_payload_schema_v1);
   (payload_schema_id ThreadReloadDegraded, thread_reload_degraded_payload_schema_v1);
   (payload_schema_id PolicyBound, policy_bound_payload_schema_v1);
   (payload_schema_id GrantPetitioned, grant_petitioned_payload_schema_v1);
   (payload_schema_id TimerFired, timer_fired_payload_schema_v1);
   (payload_schema_id ClientRecordAppended, client_record_appended_payload_schema_v1);
   (payload_schema_id IoIngressReceived, io_ingress_received_payload_schema_v1);
   (payload_schema_id IoIngressClaimed, io_ingress_claimed_payload_schema_v1);
   (payload_schema_id IoIngressSettled, io_ingress_settled_payload_schema_v1);
   (payload_schema_id IoEgressRequested, io_egress_requested_payload_schema_v1);
   (payload_schema_id IoEgressDelivered, io_egress_delivered_payload_schema_v1);
   (payload_schema_id IoEgressFailed, io_egress_failed_payload_schema_v1);
   (payload_schema_id AdmissionDecided, admission_decided_payload_schema_v1)].

(** [stream_schema_registry_v1]; an [Err] is the panic of its [expect]. *)
Definition stream_schema_registry_v1 : JsonSchemaResult SchemaRegistry :=
  try_fold (fun registry entry => register registry entry.1 entry.2) registry_new frozen_schemas.

(** The registry value the process works with. *)
Definition REGISTRY : SchemaRegistry :=
  Eval vm_compute in
    match stream_schema_registry_v1 with Ok registry => registry | Err _ => registry_new end.

(** [validate_context_payload_schema_v1]. *)
Definition validate_context_payload_schema_v1 (kind : EventKind) (payload : json) :
    JsonSchemaResult unit :=
  validate REGISTRY (payload_schema_id kind) payload.

(** ** Facts *)

Lemma registry_built : stream_schema_registry_v1 = Ok REGISTRY.
Proof. vm_compute. reflexivity. Qed.

(** The first use of the registry never panics: every frozen schema passes the
    interpretability pass, no two registrations share an id, and each id resolves to the schema
    it was registered with. *)
Theorem frozen_registry_total :
  stream_schema_registry_v1 = Ok REGISTRY /\
  NoDup (frozen_schemas.*1) /\
  Forall (fun entry => obj_get entry.1 (schemas REGISTRY) = Some entry.2) frozen_schemas.
Proof.
  split; [apply registry_built|]. split.
  - apply (bool_decide_unpack _). vm_compute. exact I.
  - repeat (constructor; [vm_compute; reflexivity|]). constructor.
Qed.
