(* ===== verification/Contracts.v ===== *)
(** * Thread identity and topology

    Models the identity types of [crates/verlet-runtime-contracts/src/lib.rs].
    A [Uuid] is its 128-bit value; its text form belongs to the uuid crate and
    is the class [UuidText], of which the kernel relies on distinct values
    having distinct texts. *)

From stdpp Require Import base gmap sets list strings pretty.
From S2P Require Import Prelude.

Local Open Scope string_scope.
Local Open Scope list_scope.

Notation Uuid := N (only parsing).
Notation ThreadId := N (only parsing).
Notation ThreadCheckpointId := N (only parsing).
Notation RuntimeEventId := N (only parsing).

(** [Display for Uuid]: the canonical text of a uuid, one per value. *)
Class UuidText := {
  uuid_text : Uuid -> string;
  uuid_text_inj : Inj (=) (=) uuid_text;
}.
#[export] Existing Instance uuid_text_inj.

Record ThreadCoordinates : Type := mk_coordinates {
  tenant_id : string;
  user_id : string;
  session_id : string;
  thread_id : ThreadId;
}.

Record ThreadScope : Type := mk_scope {
  scope_tenant_id : string;
  scope_user_id : string;
  scope_session_id : string;
}.

#[global] Instance ThreadCoordinates_eq_dec : EqDecision ThreadCoordinates.
Proof. solve_decision. Defined.
#[global] Instance ThreadScope_eq_dec : EqDecision ThreadScope.
Proof. solve_decision. Defined.

(** [ThreadCoordinates::scope]. *)
Definition scope (coordinates : ThreadCoordinates) : ThreadScope :=
  mk_scope (tenant_id coordinates) (user_id coordinates) (session_id coordinates).

(** ** Topology *)

Inductive ThreadInitiationSource : Type :=
  | InitiationRoot
  | InitiationThread (thread : ThreadId) (turn_id : option string)
      (event_id : option RuntimeEventId).

Inductive ThreadLineage : Type :=
  | LineageRoot
  | LineageBranch (parent_thread_id : ThreadId) (checkpoint_id : option ThreadCheckpointId).

Record ThreadSpawnAttribution : Type := mk_attribution {
  source_thread_id : ThreadId;
  source_turn_id : option string;
  source_event_id : option RuntimeEventId;
  prompt_ref : option string;
}.

Record ThreadTopology : Type := mk_topology {
  initiation : ThreadInitiationSource;
  lineage : ThreadLineage;
  spawn_attribution : option ThreadSpawnAttribution;
  controller_thread_id : option ThreadId;
}.

Definition topology_root : ThreadTopology := mk_topology InitiationRoot LineageRoot None None.

Definition spawned_from (source : ThreadId) : ThreadTopology :=
  mk_topology (InitiationThread source None None) LineageRoot
    (Some (mk_attribution source None None None)) (Some source).

Definition branch_from (parent : ThreadId) (checkpoint_id : option ThreadCheckpointId) :
    ThreadTopology :=
  mk_topology InitiationRoot (LineageBranch parent checkpoint_id) None None.

Definition compatibility_parent_thread_id (t : ThreadTopology) : option ThreadId :=
  match lineage t with
  | LineageBranch parent _ => Some parent
  | LineageRoot => source_thread_id <$> spawn_attribution t
  end.

Definition spawn_source_thread_id (t : ThreadTopology) : option ThreadId :=
  source_thread_id <$> spawn_attribution t.

Definition branch_parent_thread_id (t : ThreadTopology) : option ThreadId :=
  match lineage t with LineageBranch parent _ => Some parent | LineageRoot => None end.

Definition related_thread_ids (t : ThreadTopology) : list ThreadId :=
  match initiation t with InitiationThread thread _ _ => [thread] | InitiationRoot => [] end ++
  match lineage t with LineageBranch parent _ => [parent] | LineageRoot => [] end ++
  match spawn_attribution t with Some a => [source_thread_id a] | None => [] end ++
  match controller_thread_id t with Some c => [c] | None => [] end.

Record ThreadContext : Type := mk_context {
  ctx_coordinates : ThreadCoordinates;
  ctx_parent_thread_id : option ThreadId;
  ctx_topology : ThreadTopology;
  ctx_metadata : list (string * string);
}.

Definition with_topology_and_metadata (coordinates : ThreadCoordinates) (t : ThreadTopology)
    (metadata : list (string * string)) : ThreadContext :=
  mk_context coordinates (compatibility_parent_thread_id t) t metadata.

(** ** Facts *)

(** Coordinates are a scope and a thread id. *)
Lemma coordinates_eq a b :
  scope a = scope b -> thread_id a = thread_id b -> a = b.
Proof. destruct a, b; simpl. intros [= -> -> ->] ->. done. Qed.

(** The parent a context reports is always one of the threads its topology relates it to, so
    scope validation of the related threads covers it. *)
Lemma compatibility_parent_related t p :
  compatibility_parent_thread_id t = Some p -> p ∈ related_thread_ids t.
Proof.
  unfold compatibility_parent_thread_id, related_thread_ids.
  destruct (lineage t); [destruct (spawn_attribution t) as [a|]; simpl; [|done]|];
    intros [= <-]; rewrite !elem_of_app; set_solver.
Qed.

(** ** A concrete instance for the examples *)

(** An injective text, standing in for the uuid crate's in evaluated examples. *)
#[local] Instance decimal_uuid_text : UuidText := {| uuid_text := pretty |}.

Definition sample_coordinates (thread : ThreadId) : ThreadCoordinates :=
  mk_coordinates "tenant" "user" "session" thread.
