(* ===== verification/Records.v ===== *)
(** * Journal records

    Models the event records of [crates/verlet-history/src/lib.rs]: provenance,
    new and stored events, the stream record envelope with its serialized form,
    cursors, append acks and routing decisions, and the checks each performs.

    A serialized form is the object the [Serialize] derive builds under the
    attributes of the struct; the text of an error message is the constructor
    it is formatted from. *)

From stdpp Require Import base gmap sets list strings pretty.
From Stdlib Require Import ZArith Lia.
From S2P Require Import Prelude Json Schema SchemaFacts EventKind EventSchemas Contracts.

Local Open Scope verlet_scope.
Local Open Scope string_scope.
Local Open Scope list_scope.

Notation EventStreamId := string (only parsing).
Notation EventSequence := Z (only parsing).
Notation EventRecordId := N (only parsing).
Notation SessionEntryId := N (only parsing).

(** ** Errors *)

Inductive StorageMessage : Type :=
  | TurnInputMismatch (turn_id : string)
  | BaseChildIdMismatch (base_child requested : ThreadId)
  | BaseParentSourceMismatch (base_parent source : ThreadId)
  | BaseChildTargetMismatch (base_child target : ThreadId)
  | BaseParentStreamMismatch (base_stream source_stream : EventStreamId).

Inductive CodecMessage : Type :=
  | SchemaValidationFailed (e : JsonSchemaValidationError)
  | AckRequiresEvent
  | AckRequiresClass
  | AckStreamMismatch (event : EventRecordId) (actual requested : EventStreamId)
  | AckNotContiguous (expected actual : EventSequence)
  | UnsupportedCursorSchema (schema : string)
  | CursorSequenceNotPositive (sequence : EventSequence).

Inductive HistoryError : Type :=
  | EntryNotFound (id : SessionEntryId)
  | EntryThreadMismatch (entry_id : SessionEntryId)
      (requested_thread_id actual_thread_id : ThreadId)
  | ThreadScopeMismatch (requested actual : ThreadCoordinates)
  | ThreadBaseCycle (child_thread_id ancestor_thread_id : ThreadId)
  | Storage (message : StorageMessage)
  | Codec (message : CodecMessage)
  | DischargedWithoutProvenance (id : EventRecordId)
  | DuplicateEventId (id : EventRecordId)
  | StreamCursorStreamMismatch (cursor_stream_id requested_stream_id : EventStreamId)
  | StreamCursorMismatch (stream_id : EventStreamId) (sequence : Z)
      (expected_event_id : EventRecordId) (actual_sequence : option Z)
      (actual_event_id : option EventRecordId)
  | AppendFenceConflict (stream_id : EventStreamId)
      (expected_next_sequence actual_next_sequence : Z)
  | FencedAppendUnsupported
  | StaleLeaseEpoch (stream_id : EventStreamId) (presented_epoch minimum_epoch : Z).

Notation HistoryResult T := (result T HistoryError).

(** [VerletError::History], by what its text is formatted from: an error of the history, a text
    of the kernel's own, or a constraint the database reports for a table. *)
Inductive VerletError : Type :=
  | HistoryFailed (e : HistoryError)
  | HistoryText (text : string)
  | ConstraintFailed (table : string).

Notation VerletResult T := (result T VerletError).

Definition schema_codec {A} (r : JsonSchemaResult A) : HistoryResult A :=
  map_err (fun e => Codec (SchemaValidationFailed e)) r.

(** ** Events *)

Inductive EventOrigin : Type := Witnessed | Discharged.

#[global] Instance EventOrigin_eq_dec : EqDecision EventOrigin.
Proof. solve_decision. Defined.

Record ObservationSourceRange : Type := mk_range {
  range_stream_id : EventStreamId;
  from_sequence : EventSequence;
  to_sequence : EventSequence;
}.

Record EventProvenance : Type := mk_provenance {
  source_streams : list EventStreamId;
  source_event_ids : list EventRecordId;
  source_range : option ObservationSourceRange;
  source_ranges : list ObservationSourceRange;
  discharged_by : option string;
  function : option string;
  config_hash : option string;
}.

Definition provenance_default : EventProvenance := mk_provenance [] [] None [] None None None.

Definition is_nil {A} (l : list A) : bool := match l with [] => true | _ => false end.
Definition is_none {A} (o : option A) : bool := match o with None => true | Some _ => false end.

(** [EventProvenance::is_empty]. *)
Definition provenance_is_empty (p : EventProvenance) : bool :=
  is_nil (source_streams p) && is_nil (source_event_ids p) && is_none (source_range p) &&
  is_nil (source_ranges p) && is_none (discharged_by p) && is_none (function p) &&
  is_none (config_hash p).

Record NewEventRecord : Type := mk_new_event {
  new_id : EventRecordId;
  new_coordinates : ThreadCoordinates;
  new_created_at_ms : Z;
  new_kind : EventKind;
  new_origin : EventOrigin;
  new_provenance : EventProvenance;
  new_payload : json;
}.

(** [NewEventRecord::witnessed] and [discharged]; the id and the time are the ones the
    constructor draws. *)
Definition witnessed (id : EventRecordId) (now : Z) (coordinates : ThreadCoordinates)
    (kind : EventKind) (payload : json) : NewEventRecord :=
  mk_new_event id coordinates now kind Witnessed provenance_default payload.

Definition discharged (id : EventRecordId) (now : Z) (coordinates : ThreadCoordinates)
    (kind : EventKind) (payload : json) (provenance : EventProvenance) : NewEventRecord :=
  mk_new_event id coordinates now kind Discharged provenance payload.

Record EventRecord : Type := mk_event {
  event_id : EventRecordId;
  stream_id : EventStreamId;
  sequence : EventSequence;
  coordinates : ThreadCoordinates;
  created_at_ms : Z;
  kind : EventKind;
  origin : EventOrigin;
  provenance : EventProvenance;
  payload : json;
}.

(** [EventRecord::from_new]. *)
Definition from_new (stream : EventStreamId) (seq : EventSequence) (record : NewEventRecord) :
    EventRecord :=
  mk_event (new_id record) stream seq (new_coordinates record) (new_created_at_ms record)
    (new_kind record) (new_origin record) (new_provenance record) (new_payload record).

(** [validate_new_event]. *)
Definition validate_new_event (record : NewEventRecord) : HistoryResult unit :=
  if bool_decide (new_origin record = Discharged) && provenance_is_empty (new_provenance record)
  then Err (DischargedWithoutProvenance (new_id record))
  else Ok tt.

(** ** The envelope *)

Record StreamRecordEnvelopeV1 : Type := mk_envelope {
  env_schema : string;
  env_event_id : EventRecordId;
  env_stream_id : EventStreamId;
  env_sequence : EventSequence;
  env_coordinates : ThreadCoordinates;
  env_created_at_ms : Z;
  env_kind : string;
  env_origin : EventOrigin;
  env_payload_schema : string;
  env_trace_context : option json;
  env_provenance : EventProvenance;
  env_payload : json;
}.

(** [EventRecord::to_stream_record_v1]. *)
Definition to_stream_record_v1 (e : EventRecord) : StreamRecordEnvelopeV1 :=
  mk_envelope STREAM_RECORD_SCHEMA_V1 (event_id e) (stream_id e) (sequence e) (coordinates e)
    (created_at_ms e) (kind_str (kind e)) (origin e) (payload_schema_id (kind e)) None
    (provenance e) (payload e).

Section Serialize.
Context `{UuidText}.

Definition origin_json (o : EventOrigin) : json :=
  JString match o with Witnessed => "witnessed" | Discharged => "discharged" end.

Definition coordinates_json (c : ThreadCoordinates) : json :=
  jobj [("tenant_id", JString (tenant_id c)); ("user_id", JString (user_id c));
        ("session_id", JString (session_id c)); ("thread_id", JString (uuid_text (thread_id c)))].

Definition range_json (r : ObservationSourceRange) : json :=
  jobj [("stream_id", JString (range_stream_id r)); ("from_sequence", jint (from_sequence r));
        ("to_sequence", jint (to_sequence r))].

Definition provenance_json (p : EventProvenance) : json :=
  jobj (vec_field "source_streams" JString (source_streams p) ++
        vec_field "source_event_ids" (fun id => JString (uuid_text id)) (source_event_ids p) ++
        opt_field "source_range" range_json (source_range p) ++
        vec_field "source_ranges" range_json (source_ranges p) ++
        opt_field "discharged_by" JString (discharged_by p) ++
        opt_field "function" JString (function p) ++
        opt_field "config_hash" JString (config_hash p)).

Definition envelope_json (v : StreamRecordEnvelopeV1) : json :=
  jobj ([("schema", JString (env_schema v)); ("event_id", JString (uuid_text (env_event_id v)));
         ("stream_id", JString (env_stream_id v)); ("sequence", jint (env_sequence v));
         ("coordinates", coordinates_json (env_coordinates v));
         ("created_at_ms", jint (env_created_at_ms v)); ("kind", JString (env_kind v));
         ("origin", origin_json (env_origin v));
         ("payload_schema", JString (env_payload_schema v))] ++
        opt_field "trace_context" id (env_trace_context v) ++
        [("provenance", provenance_json (env_provenance v)); ("payload", env_payload v)]).

(** [EventRecord::validate_stream_record_v1]. *)
Definition validate_stream_record_v1 (e : EventRecord) : HistoryResult unit :=
  schema_codec (validate REGISTRY STREAM_RECORD_SCHEMA_V1
                  (envelope_json (to_stream_record_v1 e))) ;;?
  if bool_decide (kind e = IoEgressRequested)
  then schema_codec (validate REGISTRY (payload_schema_id (kind e)) (payload e))
  else Ok tt.

(** [EventStreamId::for_thread]. *)
Definition for_thread (c : ThreadCoordinates) : EventStreamId :=
  "thread:" +:+ uuid_text (thread_id c).
End Serialize.

(** ** Cursors *)

Record StreamCursorV1 : Type := mk_cursor {
  cursor_schema : string;
  cursor_stream_id : EventStreamId;
  cursor_sequence : EventSequence;
  cursor_event_id : EventRecordId;
}.

Definition cursor_new (s : EventStreamId) (seq : EventSequence) (id : EventRecordId) :
    StreamCursorV1 :=
  mk_cursor STREAM_CURSOR_SCHEMA_V1 s seq id.

Definition cursor_v1 (e : EventRecord) : StreamCursorV1 :=
  cursor_new (stream_id e) (sequence e) (event_id e).

Section Cursor.
Context `{UuidText}.

Definition cursor_json (c : StreamCursorV1) : json :=
  jobj [("schema", JString (cursor_schema c)); ("stream_id", JString (cursor_stream_id c));
        ("sequence", jint (cursor_sequence c));
        ("event_id", JString (uuid_text (cursor_event_id c)))].

(** [StreamCursorV1::validate_stream_cursor_v1]. *)
Definition validate_stream_cursor_v1 (c : StreamCursorV1) : HistoryResult unit :=
  if negb (String.eqb (cursor_schema c) STREAM_CURSOR_SCHEMA_V1)
  then Err (Codec (UnsupportedCursorSchema (cursor_schema c)))
  else if (cursor_sequence c <? 1)%Z
  then Err (Codec (CursorSequenceNotPositive (cursor_sequence c)))
  else schema_codec (validate REGISTRY STREAM_CURSOR_SCHEMA_V1 (cursor_json c)).
End Cursor.

(** ** Append acks *)

Inductive StreamAckClass : Type :=
  | LocalCommitted | QueryProjected | StreamCommitted | BroadcastVisible | Archived.

Record StreamAppendAckV1 : Type := mk_ack {
  ack_schema : string;
  ack_stream_id : EventStreamId;
  start_sequence : EventSequence;
  end_sequence : EventSequence;
  tail_sequence : EventSequence;
  tail_event_id : EventRecordId;
  acks : list StreamAckClass;
}.

(** Two's-complement [i64] addition. *)
Definition i64_wrapping_add (a b : Z) : Z := ((a + b + 2 ^ 63) mod 2 ^ 64 - 2 ^ 63)%Z.

(** The body of the loop of [from_appended]. *)
Definition ack_event_check (stream : EventStreamId) (first : EventSequence)
    (entry : nat * EventRecord) : HistoryResult unit :=
  let (index, event) := entry in
  if negb (String.eqb (stream_id event) stream)
  then Err (Codec (AckStreamMismatch (event_id event) (stream_id event) stream))
  else
    let expected := i64_wrapping_add first (Z.of_nat index) in
    if (sequence event =? expected)%Z then Ok tt
    else Err (Codec (AckNotContiguous expected (sequence event))).

(** [StreamAppendAckV1::from_appended]. *)
Definition from_appended (stream : EventStreamId) (appended : list EventRecord)
    (classes : list StreamAckClass) : HistoryResult StreamAppendAckV1 :=
  match head appended, last appended with
  | Some first, Some final =>
      if is_nil classes then Err (Codec AckRequiresClass)
      else
        for_each (ack_event_check stream (sequence first)) (imap pair appended) ;;?
        Ok (mk_ack STREAM_APPEND_ACK_SCHEMA_V1 stream (sequence first) (sequence final)
              (sequence final) (event_id final) classes)
  | _, _ => Err (Codec AckRequiresEvent)
  end.

(** ** Routing *)

Inductive StreamRouteProfile : Type :=
  | AuthorityStore | ExportBundle | ModelTrace | RuntimeTrace | BrowserSafeProjection
  | AnalyticsAggregate.

#[global] Instance StreamRouteProfile_eq_dec : EqDecision StreamRouteProfile.
Proof. solve_decision. Defined.

Record StreamRoutingKeysV1 : Type := mk_keys {
  keys_schema : string;
  keys_stream_id : EventStreamId;
  keys_tenant_id : string;
  keys_user_id : string;
  keys_session_id : string;
  keys_thread_id : ThreadId;
  keys_kind : string;
  keys_origin : EventOrigin;
  keys_payload_schema : string;
  keys_trace_id : option string;
  keys_discharged_by : option string;
}.

Record StreamRoutingDecisionV1 : Type := mk_routing {
  routing_schema : string;
  routing_event_id : EventRecordId;
  routing_stream_id : EventStreamId;
  routing_sequence : EventSequence;
  routing_kind : string;
  routes : list StreamRouteProfile;
  routing_keys : StreamRoutingKeysV1;
}.

Definition stream_id_routes_to_browser_projection (stream : EventStreamId) : bool :=
  starts_with "thread:" stream || starts_with "control:" stream || starts_with "derived:" stream.

Definition trace_id_from_context (trace_context : option json) : option string :=
  context ← trace_context; trace ← value_get "trace_id" context; as_str trace.

Definition is_some_and {A} (o : option A) (f : A -> bool) : bool :=
  match o with Some a => f a | None => false end.

(** [StreamRecordEnvelopeV1::route_decision_v1]. *)
Definition route_decision_v1 (v : StreamRecordEnvelopeV1) : StreamRoutingDecisionV1 :=
  let kind := parse_kind (env_kind v) in
  let routes :=
    [AuthorityStore; ExportBundle] ++
    (if is_some_and kind event_kind_routes_to_model_trace then [ModelTrace] else []) ++
    (if is_some_and kind event_kind_routes_to_runtime_trace then [RuntimeTrace] else []) ++
    (if stream_id_routes_to_browser_projection (env_stream_id v)
     then [BrowserSafeProjection] else []) ++
    (if is_some_and kind event_kind_routes_to_analytics then [AnalyticsAggregate] else []) in
  mk_routing STREAM_ROUTING_DECISION_SCHEMA_V1 (env_event_id v) (env_stream_id v)
    (env_sequence v) (env_kind v) routes
    (mk_keys (env_schema v) (env_stream_id v) (tenant_id (env_coordinates v))
       (user_id (env_coordinates v)) (session_id (env_coordinates v))
       (thread_id (env_coordinates v)) (env_kind v) (env_origin v) (env_payload_schema v)
       (trace_id_from_context (env_trace_context v)) (discharged_by (env_provenance v))).

(** * What the record checks accept

    Exact characterizations of the envelope check, the cursor check, the append
    ack and the routing decision of [Records]. *)

Local Close Scope verlet_scope.
Local Open Scope string_scope.
Local Open Scope list_scope.

(** ** Leaf schemas *)

Definition typed (t : string) : json := JObject [("type", JString t)].
Definition open_object : json :=
  JObject [("additionalProperties", JBool true); ("type", JString "object")].

Lemma conforms_string_leaf s : conforms (typed "string") (JString s).
Proof. apply conforms_scalar; try done. exists "string". split; [left | done]. Qed.

Lemma conforms_integer_leaf z : conforms (typed "integer") (jint z).
Proof.
  apply conforms_scalar; try done. exists "integer". split; [left|].
  unfold jint, schema_value_type_matches, is_json_integer, as_i64, as_u64.
  by destruct (z <? 0)%Z; [|destruct (z <=? i64_max)%Z].
Qed.

Lemma conforms_enum_leaf names s :
  s ∈ names -> conforms (JObject [("enum", JArray (map JString names))]) (JString s).
Proof.
  intros Hs. apply conforms_untyped; try done. exists (JString s). split.
  - by apply collect_strings_spec.
  - simpl. apply String.eqb_refl.
Qed.

Lemma conforms_open_object v : conforms open_object v <-> exists m, v = JObject m.
Proof.
  split.
  - intros Hc. inversion Hc as [| ? ? ? (t & Hin & Hm) Ho |? m|? ? ? (t & Hin & Hm)]; subst;
      try done; [| by exists m |];
      apply list_elem_of_singleton in Hin; injection Hin as ->.
    + by apply type_matches_object in Hm.
    + by apply type_matches_object in Hm.
  - intros (m & ->). apply conforms_object; try done.
    + exists "object". split; [left | done].
    + intros p Hp. by apply not_elem_of_nil in Hp.
    + intros name s' v' Hin. by apply not_elem_of_nil in Hin.
    + intros name v' Hin Hnone. by left.
Qed.

#[export] Hint Resolve conforms_string_leaf conforms_integer_leaf : verlet.

(** A closed object: every property of the value is declared, and every declared property that
    is present conforms. *)
Lemma conforms_closed_object schema value :
  enum_admits schema (JObject value) ->
  types_of schema = [JString "object"] ->
  (forall p, JString p ∈ required_of schema -> obj_get p value <> None) ->
  Forall (fun ns => match obj_get ns.1 value with Some v => conforms ns.2 v | None => True end)
    (props_of schema) ->
  Forall (fun nv => obj_get nv.1 (props_of schema) <> None) value ->
  conforms (JObject schema) (JObject value).
Proof.
  intros He Ht Hr Hp Hc. rewrite !Forall_forall in Hp, Hc. apply conforms_object; try done.
  - exists "object". rewrite Ht. split; [left | done].
  - intros name s v Hin Hv. specialize (Hp _ Hin). simpl in Hp. by rewrite Hv in Hp.
  - intros name v Hin Hnone. by destruct (Hc _ Hin).
Qed.

(** Decides the finitely many requirements of a concrete schema. *)
Ltac concrete_required :=
  let p := fresh in let Hp := fresh in
  intros p Hp; apply list_elem_of_In in Hp; vm_compute in Hp;
  repeat (destruct Hp as [Hp|Hp]; [injection Hp as <-; vm_compute; discriminate|]); destruct Hp.

(** ** The envelope *)

(** The keys of a concrete schema's object. *)
Definition schema_object (schema : json) : list (string * json) :=
  match schema with JObject m => m | _ => [] end.

Section Envelope.
Context `{UuidText}.

Lemma conforms_coordinates c s :
  obj_get "coordinates" (props_of (schema_object stream_record_schema_v1)) = Some s ->
  conforms s (coordinates_json c).
Proof.
  intros Hs. vm_compute in Hs. injection Hs as <-. destruct c as [t u ss th].
  apply conforms_closed_object; [exact I | reflexivity | concrete_required | |].
  - repeat (constructor; [apply conforms_string_leaf|]). constructor.
  - repeat (constructor; [discriminate|]). constructor.
Qed.

Lemma envelope_conforms e :
  conforms stream_record_schema_v1 (envelope_json (to_stream_record_v1 e)) <->
  exists m, payload e = JObject m.
Proof.
  destruct e as [id st seq c ms k o p pl]. split.
  - intros Hc. apply conforms_open_object.
    assert (forall name s v, (name, s) ∈ props_of (schema_object stream_record_schema_v1) ->
      value_get name (envelope_json (to_stream_record_v1 (mk_event id st seq c ms k o p pl)))
        = Some v -> conforms s v) as Hprops.
    { inversion Hc; subst; try done; try by simplify_eq/=. }
    apply (Hprops "payload"); [|reflexivity].
    apply obj_get_elem. vm_compute. reflexivity.
  - intros (m & Hm). simpl in Hm. subst pl.
    apply conforms_object; [exact I | by exists "object"; split; [left|] | concrete_required | |].
    + intros name s v Hin. revert v. revert Hin.
      assert (Forall (fun ns => forall v, value_get ns.1
        (envelope_json (to_stream_record_v1 (mk_event id st seq c ms k o p (JObject m))))
        = Some v -> conforms ns.2 v) (props_of (schema_object stream_record_schema_v1))) as Hall.
      { unfold to_stream_record_v1, envelope_json. cbn [event_id stream_id sequence coordinates
          created_at_ms kind origin provenance payload env_schema env_event_id env_stream_id
          env_sequence env_coordinates env_created_at_ms env_kind env_origin env_payload_schema
          env_trace_context env_provenance env_payload opt_field].
        assert (exists ps, provenance_json p = JObject ps) as (ps & ->) by by eexists.
        pose proof (conforms_coordinates c) as Hcoord.
        remember (coordinates_json c) as cj eqn:Hcj.
        let ps := eval vm_compute in (props_of (schema_object stream_record_schema_v1)) in
        change (props_of (schema_object stream_record_schema_v1)) with ps in Hcoord |- *.
        repeat apply Forall_cons_2; try apply Forall_nil_2; intros v Hv; cbn -[jint uuid_text payload_schema_id] in Hv;
          try injection Hv as <-; try done.
        - by apply Hcoord.
        - apply conforms_integer_leaf.
        - apply conforms_string_leaf.
        - apply conforms_string_leaf.
        - apply (conforms_enum_leaf ["witnessed"; "discharged"]). destruct o; set_solver.
        - apply conforms_open_object. eauto.
        - apply conforms_string_leaf.
        - apply conforms_open_object. eauto.
        - apply (conforms_enum_leaf [STREAM_RECORD_SCHEMA_V1]). set_solver.
        - apply conforms_integer_leaf.
        - apply conforms_string_leaf. }
      rewrite Forall_forall in Hall. intros Hin. apply (Hall _ Hin).
    + intros name v Hin Hnone. by left.
Qed.

Lemma record_schema_registered :
  obj_get STREAM_RECORD_SCHEMA_V1 (schemas REGISTRY) = Some stream_record_schema_v1.
Proof. vm_compute. reflexivity. Qed.
End Envelope.

(** The registry's answer for a registered schema. *)
Lemma registry_validate id schema value :
  obj_get id (schemas REGISTRY) = Some schema ->
  validate_json_schema_subset schema id = Ok tt ->
  validate REGISTRY id value = Ok tt <-> conforms schema value.
Proof.
  intros Hget Hsub. unfold validate. rewrite Hget. cbn [ok_or result_bind].
  unfold validate_json_value_against_schema. unfold validate_json_schema_subset in Hsub.
  rewrite check_ok. split.
  - intros [Hi Hv]. eapply schema_value_conforms in Hv; [done | unfold SCHEMA_FUEL; lia |].
    by eexists _, _, _.
  - intros Hc. split; [done|]. eapply schema_value_conforms;
      [unfold SCHEMA_FUEL; lia | by eexists _, _, _ | done].
Qed.

Lemma schema_codec_ok {A} (r : JsonSchemaResult A) a : schema_codec r = Ok a <-> r = Ok a.
Proof. unfold schema_codec. destruct r; simpl; naive_solver. Qed.

(** An event passes the envelope check of every append path if and only if its payload is
    a JSON object and, for an egress request, the payload also validates against the registered
    egress schema.  Ids, streams, sequences, coordinates, kinds, origins and provenance never
    make it fail. *)
Theorem validate_stream_record_spec `{UuidText} e :
  validate_stream_record_v1 e = Ok tt <->
  (exists m, payload e = JObject m) /\
  (kind e = IoEgressRequested ->
   validate REGISTRY (payload_schema_id IoEgressRequested) (payload e) = Ok tt).
Proof.
  unfold validate_stream_record_v1. rewrite check_ok, schema_codec_ok.
  rewrite (registry_validate _ _ _ record_schema_registered) by (vm_compute; reflexivity).
  rewrite envelope_conforms. case_bool_decide as Hk.
  - rewrite schema_codec_ok, Hk. naive_solver.
  - naive_solver.
Qed.

(** ** Cursors *)

Lemma cursor_conforms `{UuidText} c :
  cursor_schema c = STREAM_CURSOR_SCHEMA_V1 ->
  conforms stream_cursor_schema_v1 (cursor_json c).
Proof.
  intros Hs. destruct c as [sc st seq id]. simpl in Hs. subst sc.
  apply conforms_closed_object; [exact I | reflexivity | concrete_required | |].
  - let ps := eval vm_compute in (props_of (schema_object stream_cursor_schema_v1)) in
    change (Forall (fun ns => match obj_get ns.1 (obj_of [("schema", JString STREAM_CURSOR_SCHEMA_V1);
      ("stream_id", JString st); ("sequence", jint seq); ("event_id", JString (uuid_text id))]) with
      | Some v => conforms ns.2 v | None => True end) ps).
    repeat apply Forall_cons_2; try apply Forall_nil_2; cbn -[jint uuid_text].
    + apply conforms_string_leaf.
    + apply (conforms_enum_leaf [STREAM_CURSOR_SCHEMA_V1]). set_solver.
    + apply conforms_integer_leaf.
    + apply conforms_string_leaf.
  - repeat (apply Forall_cons_2; [vm_compute; discriminate|]). apply Forall_nil_2.
Qed.

(** The cursor check accepts exactly the cursors of the frozen schema with a positive
    sequence; the schema-registry pass behind the two explicit guards never rejects one the
    guards let through. *)
Theorem validate_stream_cursor_spec `{UuidText} c :
  validate_stream_cursor_v1 c = Ok tt <->
  cursor_schema c = STREAM_CURSOR_SCHEMA_V1 /\ (1 <= cursor_sequence c)%Z.
Proof.
  unfold validate_stream_cursor_v1.
  destruct (String.eqb_spec (cursor_schema c) STREAM_CURSOR_SCHEMA_V1) as [Hs|Hs]; simpl;
    [|naive_solver].
  destruct (Z.ltb_spec (cursor_sequence c) 1).
  - split; [done | lia].
  - rewrite schema_codec_ok.
    rewrite (registry_validate _ stream_cursor_schema_v1) by (vm_compute; reflexivity).
    split; [done | intros _; by apply cursor_conforms].
Qed.

(** ** Append acks *)

Lemma ack_check_ok stream first i e :
  ack_event_check stream first (i, e) = Ok tt <->
  stream_id e = stream /\ sequence e = i64_wrapping_add first (Z.of_nat i).
Proof.
  unfold ack_event_check. destruct (String.eqb_spec (stream_id e) stream); simpl; [|naive_solver].
  destruct (Z.eqb_spec (sequence e) (i64_wrapping_add first (Z.of_nat i))); naive_solver.
Qed.

Lemma ack_checks_ok stream first l :
  for_each (ack_event_check stream first) (imap pair l) = Ok tt <->
  forall i e, l !! i = Some e ->
    stream_id e = stream /\ sequence e = i64_wrapping_add first (Z.of_nat i).
Proof.
  rewrite for_each_ok, Forall_lookup. split.
  - intros H i e Hi. apply (ack_check_ok stream first i e). apply (H i).
    rewrite list_lookup_imap, Hi. done.
  - intros H i [j e] Hi. rewrite list_lookup_imap in Hi.
    destruct (l !! i) eqn:Hl; simplify_eq/=. apply ack_check_ok. by apply H.
Qed.

Lemma i64_wrapping_add_exact a b : in_i64 (a + b) = true -> i64_wrapping_add a b = (a + b)%Z.
Proof.
  unfold in_i64, i64_wrapping_add, i64_min, i64_max. intros H. apply andb_true_iff in H as [? ?].
  to_prop. rewrite Z.mod_small by lia. lia.
Qed.

(** An append ack is issued exactly for a non-empty batch of contiguously numbered events
    of the named stream with at least one ack class, and then it reports the first and last
    event of that batch. *)
Theorem from_appended_spec stream appended classes ack :
  from_appended stream appended classes = Ok ack <->
  exists first final,
    head appended = Some first /\ last appended = Some final /\ classes <> [] /\
    (forall i e, appended !! i = Some e ->
       stream_id e = stream /\ sequence e = i64_wrapping_add (sequence first) (Z.of_nat i)) /\
    ack = mk_ack STREAM_APPEND_ACK_SCHEMA_V1 stream (sequence first) (sequence final)
            (sequence final) (event_id final) classes.
Proof.
  unfold from_appended. destruct (head appended) as [first|] eqn:Hh; [|naive_solver].
  destruct (last appended) as [final|] eqn:Hl; [|naive_solver].
  destruct classes as [|cl classes]; simpl; [naive_solver|].
  rewrite check_ok, ack_checks_ok. naive_solver.
Qed.

(** ** Routing *)

(** Every record is routed to the authority store and the export bundle, no record is
    routed twice to a profile, and a record reaches the browser-safe projection exactly when its
    stream is a thread, control or derived stream - whatever its kind string is. *)
Theorem route_decision_spec v :
  let r := routes (route_decision_v1 v) in
  (exists rest, r = AuthorityStore :: ExportBundle :: rest) /\ NoDup r /\
  (BrowserSafeProjection ∈ r <->
   starts_with "thread:" (env_stream_id v) || starts_with "control:" (env_stream_id v) ||
   starts_with "derived:" (env_stream_id v) = true) /\
  (parse_kind (env_kind v) = None ->
   ModelTrace ∉ r /\ RuntimeTrace ∉ r /\ AnalyticsAggregate ∉ r).
Proof.
  cbn [routes route_decision_v1]. unfold stream_id_routes_to_browser_projection.
  destruct (_ || _) eqn:Hb.
  all: destruct (parse_kind (env_kind v)) as [k|]; simpl.
  all: try destruct (event_kind_routes_to_model_trace k);
       try destruct (event_kind_routes_to_runtime_trace k);
       try destruct (event_kind_routes_to_analytics k); simpl.
  all: split; [eauto|]; split; [apply (bool_decide_unpack _); reflexivity|].
  all: split; [|intros ?; try done; set_solver].
  all: split; [intros ?; first [done | exfalso; set_solver] | intros ?; first [done | set_solver]].
Qed.

(** The kind an event is stored with survives the envelope, so an event's own routes depend on
    its kind and not on the text. *)
Lemma route_decision_kind e :
  parse_kind (env_kind (to_stream_record_v1 e)) = Some (kind e).
Proof. apply parse_kind_str. Qed.
