(* ===== verification/Session.v ===== *)
(** * Session entries and model-visible context

    Models the canonical messages, session entries and the pure context
    functions of [crates/verlet-history/src/lib.rs]. *)

From stdpp Require Import base gmap sets list strings pretty.
From Stdlib Require Import ZArith Lia.
From S2P Require Import Prelude Json EventKind Contracts Records.

Local Open Scope string_scope.
Local Open Scope list_scope.

(** ** Messages *)

Inductive ProviderApi : Type :=
  | OpenAIResponses | OpenAIChatCompletions | AnthropicMessages | ApiOther (name : string).

Inductive ThinkingProvider : Type :=
  | ThinkAnthropic | ThinkOpenAIResponses | ThinkOpenAICompatible | ThinkOther (name : string).

Inductive ThinkingMetadata : Type :=
  | MetaNone
  | MetaAnthropic (signature : option string)
  | MetaAnthropicRedacted (data : string)
  | MetaOpenAIResponses (item_id : option string) (output_index : option nat)
      (summary_index : nat) (encrypted_content : option string)
  | MetaOpaque (provider : string) (value : json).

Inductive CacheTtl : Type := FiveMinutes | OneHour.
Inductive CacheControl : Type := Ephemeral (ttl : option CacheTtl).

Inductive CanonicalContent : Type :=
  | Text (text : string) (cache_control : option CacheControl)
  | Image (data mime_type : string)
  | Thinking (text : string) (provider : ThinkingProvider) (metadata : ThinkingMetadata)
  | ToolCall (id name : string) (arguments : json).

Record CanonicalUsage : Type := mk_usage {
  input_tokens : Z;
  output_tokens : Z;
  cache_creation_input_tokens : Z;
  cache_read_input_tokens : Z;
}.

Inductive CanonicalStopReason : Type :=
  | EndTurn | ToolUse | MaxTokens | StopSequence | PauseTurn | Cancelled | StopError.

Inductive CanonicalMessage : Type :=
  | User (content : list CanonicalContent) (timestamp_ms : Z)
  | Assistant (content : list CanonicalContent) (api : ProviderApi) (provider model : string)
      (usage : CanonicalUsage) (stop_reason : CanonicalStopReason)
      (error_message : option string) (timestamp_ms : Z)
  | ToolResult (tool_call_id tool_name : string) (content : list CanonicalContent)
      (is_error : bool) (cache_control : option CacheControl) (timestamp_ms : Z).

(** [CanonicalMessage::user_text_at]. *)
Definition user_text_at (text : string) (timestamp_ms : Z) : CanonicalMessage :=
  User [Text text None] timestamp_ms.

#[global] Instance ProviderApi_eq_dec : EqDecision ProviderApi.
Proof. solve_decision. Defined.
#[global] Instance ThinkingProvider_eq_dec : EqDecision ThinkingProvider.
Proof. solve_decision. Defined.
#[global] Instance CacheTtl_eq_dec : EqDecision CacheTtl.
Proof. solve_decision. Defined.
#[global] Instance CacheControl_eq_dec : EqDecision CacheControl.
Proof. solve_decision. Defined.
#[global] Instance CanonicalUsage_eq_dec : EqDecision CanonicalUsage.
Proof. solve_decision. Defined.
#[global] Instance CanonicalStopReason_eq_dec : EqDecision CanonicalStopReason.
Proof. solve_decision. Defined.

(** ** Derived equality *)

Definition list_eqb {A} (eqb : A -> A -> bool) : list A -> list A -> bool :=
  fix go l l' :=
    match l, l' with
    | [], [] => true
    | x :: l, y :: l' => eqb x y && go l l'
    | _, _ => false
    end.

Definition metadata_eqb (a b : ThinkingMetadata) : bool :=
  match a, b with
  | MetaNone, MetaNone => true
  | MetaAnthropic s, MetaAnthropic s' => bool_decide (s = s')
  | MetaAnthropicRedacted d, MetaAnthropicRedacted d' => String.eqb d d'
  | MetaOpenAIResponses i o s e, MetaOpenAIResponses i' o' s' e' =>
      bool_decide (i = i') && bool_decide (o = o') && Nat.eqb s s' && bool_decide (e = e')
  | MetaOpaque p v, MetaOpaque p' v' => String.eqb p p' && json_eqb v v'
  | _, _ => false
  end.

Definition content_eqb (a b : CanonicalContent) : bool :=
  match a, b with
  | Text t c, Text t' c' => String.eqb t t' && bool_decide (c = c')
  | Image d m, Image d' m' => String.eqb d d' && String.eqb m m'
  | Thinking t p m, Thinking t' p' m' =>
      String.eqb t t' && bool_decide (p = p') && metadata_eqb m m'
  | ToolCall i n a, ToolCall i' n' a' => String.eqb i i' && String.eqb n n' && json_eqb a a'
  | _, _ => false
  end.

Definition message_eqb (a b : CanonicalMessage) : bool :=
  match a, b with
  | User c t, User c' t' => list_eqb content_eqb c c' && Z.eqb t t'
  | Assistant c a p m u s e t, Assistant c' a' p' m' u' s' e' t' =>
      list_eqb content_eqb c c' && bool_decide (a = a') && String.eqb p p' && String.eqb m m' &&
      bool_decide (u = u') && bool_decide (s = s') && bool_decide (e = e') && Z.eqb t t'
  | ToolResult i n c r k t, ToolResult i' n' c' r' k' t' =>
      String.eqb i i' && String.eqb n n' && list_eqb content_eqb c c' && Bool.eqb r r' &&
      bool_decide (k = k') && Z.eqb t t'
  | _, _ => false
  end.

(** ** Entries *)

Inductive SessionEntryKind : Type :=
  | Message (message : CanonicalMessage)
  | ModelChange (provider : string) (api : ProviderApi) (model : string)
  | Compaction (summary : string)
  | BranchSummary (summary : string)
  | Runtime (kind : string) (payload : json)
  | CustomContextMessage (message : CanonicalMessage).

(** [PartialEq for SessionEntryKind]. *)
Definition entry_kind_eqb (a b : SessionEntryKind) : bool :=
  match a, b with
  | Message m, Message m' => message_eqb m m'
  | ModelChange p a m, ModelChange p' a' m' =>
      String.eqb p p' && bool_decide (a = a') && String.eqb m m'
  | Compaction s, Compaction s' => String.eqb s s'
  | BranchSummary s, BranchSummary s' => String.eqb s s'
  | Runtime k p, Runtime k' p' => String.eqb k k' && json_eqb p p'
  | CustomContextMessage m, CustomContextMessage m' => message_eqb m m'
  | _, _ => false
  end.

(** [AsRefStr for SessionEntryKind]. *)
Definition entry_kind_str (kind : SessionEntryKind) : string :=
  match kind with
  | Message _ => "message"
  | ModelChange _ _ _ => "model_change"
  | Compaction _ => "compaction"
  | BranchSummary _ => "branch_summary"
  | Runtime _ _ => "runtime"
  | CustomContextMessage _ => "custom_context_message"
  end.

Record SessionEntry : Type := mk_entry {
  entry_id : SessionEntryId;
  parent_entry_id : option SessionEntryId;
  turn_id : option string;
  entry_coordinates : ThreadCoordinates;
  entry_created_at_ms : Z;
  entry_kind : SessionEntryKind;
}.

(** [SessionEntry::new] and [for_turn]; the id and the time are the ones drawn. *)
Definition entry_new (id : SessionEntryId) (now : Z) (c : ThreadCoordinates)
    (parent : option SessionEntryId) (kind : SessionEntryKind) : SessionEntry :=
  mk_entry id parent None c now kind.

Definition entry_for_turn (id : SessionEntryId) (now : Z) (c : ThreadCoordinates)
    (parent : option SessionEntryId) (turn : string) (kind : SessionEntryKind) : SessionEntry :=
  mk_entry id parent (Some turn) c now kind.

(** [session_entry_is_user_authored]. *)
Definition session_entry_is_user_authored (kind : SessionEntryKind) : bool :=
  match kind with
  | Message (User _ _) | CustomContextMessage (User _ _) => true
  | _ => false
  end.

(** [turn_input_kinds_match]: two user messages match by content, whatever their timestamps. *)
Definition turn_input_kinds_match (left right : SessionEntryKind) : bool :=
  match left, right with
  | Message (User l _), Message (User r _) => list_eqb content_eqb l r
  | _, _ => entry_kind_eqb left right
  end.

(** [session_entry_is_thread_start_identity]. *)
Definition session_entry_is_thread_start_identity (entry : SessionEntry) : bool :=
  match entry_kind entry with
  | Runtime kind _ => String.eqb kind "thread_started"
  | _ => false
  end.

(** ** The journal event of an entry *)

Section EntryEvent.
Context `{UuidText}.

Definition usage_json (u : CanonicalUsage) : json :=
  jobj [("input_tokens", jint (input_tokens u)); ("output_tokens", jint (output_tokens u));
        ("cache_creation_input_tokens", jint (cache_creation_input_tokens u));
        ("cache_read_input_tokens", jint (cache_read_input_tokens u))].

(** The payload [session_entry_event_with_optional_provenance] assembles. *)
Definition session_entry_payload (entry : SessionEntry) : json :=
  let base := obj_of
    [("entry_id", JString (uuid_text (entry_id entry)));
     ("parent_entry_id", jopt (fun id => JString (uuid_text id)) (parent_entry_id entry));
     ("entry_kind", JString (entry_kind_str (entry_kind entry)))] in
  let base := match turn_id entry with
              | Some turn => obj_insert "turn_id" (JString turn) base
              | None => base
              end in
  let base := match entry_kind entry with
              | Runtime kind runtime_payload =>
                  obj_insert "runtime_payload" runtime_payload
                    (obj_insert "runtime_kind" (JString kind) base)
              | _ => base
              end in
  JObject match entry_kind entry with
          | Message (Assistant _ _ _ _ usage _ _ _)
          | CustomContextMessage (Assistant _ _ _ _ usage _ _ _) =>
              obj_insert "usage" (usage_json usage) base
          | _ => base
          end.

Definition session_store_provenance : EventProvenance :=
  mk_provenance [] [] None [] (Some "session-store:append") None None.

(** [session_entry_event_with_optional_provenance]. *)
Definition session_entry_event_with_optional_provenance (id : EventRecordId) (now : Z)
    (entry : SessionEntry) (provenance : option EventProvenance) : NewEventRecord :=
  if session_entry_is_user_authored (entry_kind entry) then
    witnessed id now (entry_coordinates entry) SessionEntryAppended
      (session_entry_payload entry)
  else
    discharged id now (entry_coordinates entry) SessionEntryAppended
      (session_entry_payload entry)
      (default session_store_provenance provenance).

Definition session_entry_event (id : EventRecordId) (now : Z) (entry : SessionEntry) :
    NewEventRecord :=
  session_entry_event_with_optional_provenance id now entry None.
End EntryEvent.

(** ** Model-visible context *)

Definition COMPACTION_SUMMARY_PREFIX : string := "Compacted conversation summary:".

Definition newline : string := String (Ascii.ascii_of_nat 10) EmptyString.

(** [render_compaction_summary]. *)
Definition render_compaction_summary (summary : string) : string :=
  let summary := str_trim summary in
  if String.eqb summary "" then
    COMPACTION_SUMMARY_PREFIX +:+ newline +:+ "(no summary available)"
  else if starts_with COMPACTION_SUMMARY_PREFIX summary then summary
  else COMPACTION_SUMMARY_PREFIX +:+ newline +:+ summary.

(** [compaction_summary_message]. *)
Definition compaction_summary_message (summary : string) (timestamp_ms : Z) : CanonicalMessage :=
  user_text_at (render_compaction_summary summary) timestamp_ms.

(** The body of the loop of [append_model_visible_messages]. *)
Definition append_visible (messages : list CanonicalMessage) (entry : SessionEntry) :
    list CanonicalMessage :=
  match entry_kind entry with
  | Message message | CustomContextMessage message => messages ++ [message]
  | Compaction summary => [compaction_summary_message summary (entry_created_at_ms entry)]
  | ModelChange _ _ _ | BranchSummary _ | Runtime _ _ => messages
  end.

Definition append_model_visible_messages (entries : list SessionEntry)
    (messages : list CanonicalMessage) : list CanonicalMessage :=
  fold_left append_visible entries messages.

Record SessionContextSourceCut : Type := mk_cut {
  cut_coordinates : ThreadCoordinates;
  cut_stream_id : EventStreamId;
  inherited : bool;
  entry_ids : list SessionEntryId;
}.

Record SessionContext : Type := mk_session_context {
  context_entries : list SessionEntry;
  context_messages : list CanonicalMessage;
  context_source_cuts : list SessionContextSourceCut;
}.

(** [strip_thread_start_identity_entries]. *)
Definition strip_thread_start_identity_entries (entries : list SessionEntry)
    (source_cuts : list SessionContextSourceCut) :
    list SessionEntry * list SessionContextSourceCut :=
  let identity_entry_ids : gset SessionEntryId :=
    list_to_set (entry_id <$> filter (fun e => session_entry_is_thread_start_identity e = true)
                                entries) in
  if bool_decide (identity_entry_ids = ∅) then (entries, source_cuts)
  else
    (filter (fun e => entry_id e ∉ identity_entry_ids) entries,
     filter (fun cut => entry_ids cut <> [])
       ((fun cut => mk_cut (cut_coordinates cut) (cut_stream_id cut) (inherited cut)
                      (filter (fun id => id ∉ identity_entry_ids) (entry_ids cut)))
          <$> source_cuts)).

(** [validate_entry_coordinates]. *)
Definition validate_entry_coordinates (requested : ThreadCoordinates) (entry : SessionEntry) :
    HistoryResult unit :=
  if bool_decide (entry_coordinates entry = requested) then Ok tt
  else if negb (bool_decide (thread_id (entry_coordinates entry) = thread_id requested))
  then Err (EntryThreadMismatch (entry_id entry) (thread_id requested)
              (thread_id (entry_coordinates entry)))
  else Err (ThreadScopeMismatch requested (entry_coordinates entry)).

(** ** Facts *)

(** The messages after a compaction do not depend on what preceded it. *)
Lemma visible_after_compaction before c summary after messages :
  entry_kind c = Compaction summary ->
  append_model_visible_messages (before ++ c :: after) messages =
  append_model_visible_messages after [compaction_summary_message summary (entry_created_at_ms c)].
Proof.
  intros Hc. unfold append_model_visible_messages. rewrite fold_left_app. simpl.
  f_equal. unfold append_visible at 1. by rewrite Hc.
Qed.

Definition is_compaction (e : SessionEntry) : bool :=
  match entry_kind e with Compaction _ => true | _ => false end.

(** The message an entry contributes on its own. *)
Definition entry_message (e : SessionEntry) : option CanonicalMessage :=
  match entry_kind e with
  | Message m | CustomContextMessage m => Some m
  | _ => None
  end.

Lemma visible_without_compaction entries messages :
  Forall (fun e => is_compaction e = false) entries ->
  append_model_visible_messages entries messages = messages ++ omap entry_message entries.
Proof.
  unfold append_model_visible_messages, is_compaction, entry_message. revert messages.
  induction entries as [|e entries IH]; intros messages; simpl; [by rewrite app_nil_r|].
  intros [He Hall]%Forall_cons. rewrite IH by done. unfold append_visible.
  destruct (entry_kind e); try done; simpl; by rewrite <- ?app_assoc.
Qed.

Lemma entry_coordinates_ok requested entry :
  validate_entry_coordinates requested entry = Ok tt <-> entry_coordinates entry = requested.
Proof.
  unfold validate_entry_coordinates. case_bool_decide; [done|].
  case_bool_decide; simpl; naive_solver.
Qed.

Definition identity_entry_ids (entries : list SessionEntry) : gset SessionEntryId :=
  list_to_set (entry_id <$> filter (fun e => session_entry_is_thread_start_identity e = true)
                              entries).

Lemma strip_entries entries cuts :
  (strip_thread_start_identity_entries entries cuts).1 =
  filter (fun e => entry_id e ∉ identity_entry_ids entries) entries.
Proof.
  unfold strip_thread_start_identity_entries. case_bool_decide as He; simpl; [|done].
  symmetry. apply list_filter_all, Forall_forall. intros e _. unfold identity_entry_ids.
  rewrite He. set_solver.
Qed.

Lemma identity_ids_elem entries e :
  e ∈ entries -> session_entry_is_thread_start_identity e = true ->
  entry_id e ∈ identity_entry_ids entries.
Proof.
  intros He Hi. apply elem_of_list_to_set, list_elem_of_fmap. exists e. split; [done|].
  by apply list_elem_of_filter.
Qed.

(** Stripping twice is stripping once. *)
Lemma strip_no_identity entries cuts e :
  e ∈ (strip_thread_start_identity_entries entries cuts).1 ->
  e ∈ entries /\ session_entry_is_thread_start_identity e = false.
Proof.
  rewrite strip_entries. intros [Hn He]%list_elem_of_filter. split; [done|].
  apply not_true_iff_false. intros Hi. by apply Hn, identity_ids_elem.
Qed.

(** Two turn inputs match whatever time each was built at. *)
Lemma turn_input_match_timestamp l t t' r :
  turn_input_kinds_match (Message (User l t)) r = turn_input_kinds_match (Message (User l t')) r.
Proof. by destruct r as [[]| | | | |]. Qed.

(** ** Properties *)

(** What the model sees of a path is the summary of the last compaction followed by the
    messages of the entries after it, in path order; nothing before the compaction survives,
    and entries that carry no message contribute nothing. *)
Theorem model_visible_since_compaction before c summary after earlier :
  entry_kind c = Compaction summary ->
  Forall (fun e => is_compaction e = false) after ->
  append_model_visible_messages (before ++ c :: after) earlier =
  compaction_summary_message summary (entry_created_at_ms c) :: omap entry_message after.
Proof.
  intros Hc Hafter. rewrite (visible_after_compaction _ _ _ _ _ Hc).
  by rewrite visible_without_compaction.
Qed.

Lemma model_visible_since_compaction_witness :
  let c := sample_coordinates 7 in
  let old := entry_new 1 10 c None (Message (user_text_at "hello" 10)) in
  let cut := entry_new 2 20 c (Some 1%N) (Compaction " greeted ") in
  let fresh := entry_new 3 30 c (Some 2%N) (Message (user_text_at "again" 30)) in
  append_model_visible_messages [old; cut; fresh] [] =
    [compaction_summary_message " greeted " 20; user_text_at "again" 30] /\
  render_compaction_summary " greeted " =
    "Compacted conversation summary:" +:+ newline +:+ "greeted".
Proof.
  intros c old cut fresh. split; [|vm_compute; reflexivity].
  apply (model_visible_since_compaction [old] cut " greeted " [fresh] []);
    [reflexivity | repeat constructor].
Defined.

(** The context handed out carries no thread-start identity entry: exactly the entries
    that share no id with one are kept, in order, no source cut names one, and when any was
    stripped no empty cut is left behind. *)
Theorem strip_identity_spec entries cuts :
  let ids := identity_entry_ids entries in
  let '(kept, kept_cuts) := strip_thread_start_identity_entries entries cuts in
  kept = filter (fun e => entry_id e ∉ ids) entries /\
  (forall e, e ∈ kept -> session_entry_is_thread_start_identity e = false) /\
  (forall cut id, cut ∈ kept_cuts -> id ∈ entry_ids cut -> id ∉ ids) /\
  (ids <> ∅ -> forall cut, cut ∈ kept_cuts -> entry_ids cut <> []).
Proof.
  pose proof (strip_entries entries cuts) as Hkept.
  pose proof (strip_no_identity entries cuts) as Hno.
  destruct (strip_thread_start_identity_entries entries cuts) as [kept kept_cuts] eqn:Hs.
  simpl in Hkept, Hno. cbv zeta. split; [done|]. split; [intros e He; by apply Hno|].
  unfold strip_thread_start_identity_entries in Hs. fold (identity_entry_ids entries) in Hs.
  case_bool_decide as He; injection Hs as <- <-.
  - rewrite He. split; [set_solver | done].
  - split.
    + intros cut id [_ (c & -> & Hc)%list_elem_of_fmap]%list_elem_of_filter.
      by intros [? _]%list_elem_of_filter.
    + by intros _ cut [? _]%list_elem_of_filter.
Qed.
