(* ===== verification/Store.v ===== *)
(** * The in-memory runtime store

    Models [InMemorySessionStore] of [crates/verlet-history/src/lib.rs]: the
    session entries of each thread with its active leaf and base, the event
    streams, and the lease fences.  A trait method is a state-passing function
    on [Inner]; the handle's lease epoch, the ids and the times it draws are
    arguments.  A read whose [while] loop can only be bounded by the shape of
    the stored data returns an [option]: [None] is a call that never returns. *)

From stdpp Require Import base gmap sets list strings pretty.
From Stdlib Require Import ZArith Lia.
From S2P Require Import Prelude Json Schema EventKind EventSchemas Contracts Records Session.

Local Open Scope verlet_scope.
Local Open Scope string_scope.
Local Open Scope list_scope.

(** ** State *)

Inductive ThreadForkReason : Type := ManifestUpdate | ToolAdded | ModelChanged | Manual.

Record ThreadBaseRef : Type := mk_base {
  child_thread_id : ThreadId;
  parent_thread_id : ThreadId;
  parent_checkpoint_id : option ThreadCheckpointId;
  parent_leaf_entry_id : option SessionEntryId;
  parent_stream_id : EventStreamId;
  parent_stream_to_sequence : option EventSequence;
  parent_binding_snapshot_id : option string;
  reason : ThreadForkReason;
  base_created_at_ms : Z;
}.

Record ObservationProvenance : Type := mk_observation_provenance {
  observation_source_streams : list EventStreamId;
  observation_source_event_ids : list EventRecordId;
  observation_source_range : option ObservationSourceRange;
  observation_source_ranges : list ObservationSourceRange;
  derivation_strategy : string;
  derivation_version : string;
}.

(** [NewObservationRecord] and [ObservationRecord] have the same fields. *)
Record ObservationRecord : Type := mk_observation {
  observation_id : N;
  observation_kind : string;
  observation_scope : ThreadCoordinates;
  observation_payload : json;
  observation_created_at_ms : Z;
  observation_provenance : ObservationProvenance;
  observation_supersedes : option N;
  observation_confidence : option SpecFloat.spec_float;
}.

(** [InMemorySessionStoreInner]. *)
Record Inner : Type := mk_inner {
  entries : gmap ThreadId (gmap SessionEntryId SessionEntry);
  active_leaves : gmap ThreadId SessionEntryId;
  bases : gmap ThreadId ThreadBaseRef;
  events : gmap EventStreamId (list EventRecord);
  event_ids : gset EventRecordId;
  observations : gmap ThreadId (list ObservationRecord);
  lease_epoch_minimums : gmap EventStreamId Z;
}.

Definition inner_empty : Inner := mk_inner ∅ ∅ ∅ ∅ ∅ ∅ ∅.

Definition set_entries (f : gmap ThreadId (gmap SessionEntryId SessionEntry) ->
    gmap ThreadId (gmap SessionEntryId SessionEntry)) (s : Inner) : Inner :=
  mk_inner (f (entries s)) (active_leaves s) (bases s) (events s) (event_ids s) (observations s)
    (lease_epoch_minimums s).
Definition set_active_leaves (f : gmap ThreadId SessionEntryId -> gmap ThreadId SessionEntryId)
    (s : Inner) : Inner :=
  mk_inner (entries s) (f (active_leaves s)) (bases s) (events s) (event_ids s) (observations s)
    (lease_epoch_minimums s).
Definition set_bases (f : gmap ThreadId ThreadBaseRef -> gmap ThreadId ThreadBaseRef)
    (s : Inner) : Inner :=
  mk_inner (entries s) (active_leaves s) (f (bases s)) (events s) (event_ids s) (observations s)
    (lease_epoch_minimums s).
Definition set_events (f : gmap EventStreamId (list EventRecord) ->
    gmap EventStreamId (list EventRecord)) (s : Inner) : Inner :=
  mk_inner (entries s) (active_leaves s) (bases s) (f (events s)) (event_ids s) (observations s)
    (lease_epoch_minimums s).
Definition set_event_ids (f : gset EventRecordId -> gset EventRecordId) (s : Inner) : Inner :=
  mk_inner (entries s) (active_leaves s) (bases s) (events s) (f (event_ids s)) (observations s)
    (lease_epoch_minimums s).
Definition set_observations (f : gmap ThreadId (list ObservationRecord) ->
    gmap ThreadId (list ObservationRecord)) (s : Inner) : Inner :=
  mk_inner (entries s) (active_leaves s) (bases s) (events s) (event_ids s) (f (observations s))
    (lease_epoch_minimums s).
Definition set_minimums (f : gmap EventStreamId Z -> gmap EventStreamId Z) (s : Inner) : Inner :=
  mk_inner (entries s) (active_leaves s) (bases s) (events s) (event_ids s) (observations s)
    (f (lease_epoch_minimums s)).

Notation Store A := (st Inner HistoryError A).

(** The ids and times one [SessionEntry::new] and the event of it draw. *)
Record Draw : Type := mk_draw {
  draw_entry_id : SessionEntryId;
  draw_entry_ms : Z;
  draw_event_id : EventRecordId;
  draw_event_ms : Z;
}.

(** The events of a stream; an absent stream reads as an empty one. *)
Definition stream_events (s : Inner) (stream : EventStreamId) : list EventRecord :=
  default [] (events s !! stream).

Definition thread_entries (s : Inner) (thread : ThreadId) : gmap SessionEntryId SessionEntry :=
  default ∅ (entries s !! thread).

(** ** Lease fences *)

(** [check_in_memory_lease_epoch]. *)
Definition check_in_memory_lease_epoch (s : Inner) (stream : EventStreamId)
    (presented_epoch : Z) : HistoryResult unit :=
  match lease_epoch_minimums s !! stream with
  | Some minimum_epoch =>
      if (presented_epoch <? minimum_epoch)%Z
      then Err (StaleLeaseEpoch stream presented_epoch minimum_epoch)
      else Ok tt
  | None => Ok tt
  end.

(** [raise_in_memory_lease_epoch]. *)
Definition raise_in_memory_lease_epoch (stream : EventStreamId) (presented_epoch : Z) (s : Inner) :
    Inner :=
  if (0 <? presented_epoch)%Z then
    set_minimums (<[stream := match lease_epoch_minimums s !! stream with
                              | Some minimum_epoch => Z.max minimum_epoch presented_epoch
                              | None => presented_epoch
                              end]>) s
  else s.

(** ** The journal *)

(** The body of the first loop of [append_in_memory_events]. *)
Definition admit_new_event (s : Inner) (batch_ids : gset EventRecordId)
    (record : NewEventRecord) : HistoryResult (gset EventRecordId) :=
  validate_new_event record ;;?
  if bool_decide (new_id record ∈ event_ids s) || bool_decide (new_id record ∈ batch_ids)
  then Err (DuplicateEventId (new_id record))
  else Ok ({[new_id record]} ∪ batch_ids).

Section Store.
Context `{UuidText}.

(** The body of the second loop of [append_in_memory_events]. *)
Definition number_event (stream : EventStreamId) (current_len : Z)
    (item : nat * NewEventRecord) : HistoryResult EventRecord :=
  let event := from_new stream (current_len + Z.of_nat item.1 + 1)%Z item.2 in
  validate_stream_record_v1 event ;;? Ok event.

(** [append_in_memory_events]. *)
Definition append_in_memory_events (stream : EventStreamId) (records : list NewEventRecord)
    (lease_epoch : Z) : Store (list EventRecord) :=
  s <-! st_get ;;
  batch_ids <-! st_lift (try_fold (admit_new_event s) ∅ records) ;;
  let current_len := Z.of_nat (length (stream_events s stream)) in
  appended <-! st_lift (collect (number_event stream current_len) (imap pair records)) ;;
  st_modify (raise_in_memory_lease_epoch stream lease_epoch) ;;!
  st_modify (set_events (fun m => <[stream := default [] (m !! stream) ++ appended]> m)) ;;!
  st_modify (set_event_ids (fun ids => ids ∪ batch_ids)) ;;!
  st_ret appended.

(** [EventStore::append_events]. *)
Definition append_events (lease_epoch : Z) (stream : EventStreamId)
    (records : list NewEventRecord) : Store (list EventRecord) :=
  s <-! st_get ;;
  st_lift (check_in_memory_lease_epoch s stream lease_epoch) ;;!
  append_in_memory_events stream records lease_epoch.

(** [EventStore::append_events_fenced]. *)
Definition append_events_fenced (lease_epoch : Z) (stream : EventStreamId)
    (expected_next_sequence : EventSequence) (records : list NewEventRecord) :
    Store (list EventRecord) :=
  s <-! st_get ;;
  st_lift (check_in_memory_lease_epoch s stream lease_epoch) ;;!
  let actual_next_sequence := (Z.of_nat (length (stream_events s stream)) + 1)%Z in
  if negb (actual_next_sequence =? expected_next_sequence)%Z
  then st_lift (Err (AppendFenceConflict stream expected_next_sequence actual_next_sequence))
  else append_in_memory_events stream records lease_epoch.

(** [EventStore::append_events_fenced], the default body. *)
Definition append_events_fenced_default (stream : EventStreamId)
    (expected_next_sequence : EventSequence) (records : list NewEventRecord) :
    Store (list EventRecord) :=
  st_lift (Err FencedAppendUnsupported).

(** [EventStore::read_events]. *)
Definition read_events (s : Inner) (stream : EventStreamId)
    (from_sequence : option EventSequence) : HistoryResult (list EventRecord) :=
  Ok (filter (fun e => match from_sequence with
                       | Some seq => (seq <=? sequence e)%Z
                       | None => true
                       end = true) (stream_events s stream)).

(** [EventStore::read_events_after_cursor]. *)
Definition read_events_after_cursor (s : Inner) (stream : EventStreamId)
    (cursor : StreamCursorV1) : HistoryResult (list EventRecord) :=
  validate_stream_cursor_v1 cursor ;;?
  if negb (String.eqb (cursor_stream_id cursor) stream)
  then Err (StreamCursorStreamMismatch (cursor_stream_id cursor) stream)
  else
    read <-? read_events s stream (Some (cursor_sequence cursor)) ;;
    let current := head read in
    let matches_cursor :=
      is_some_and current (fun e =>
        (sequence e =? cursor_sequence cursor)%Z && (event_id e =? cursor_event_id cursor)%N) in
    if negb matches_cursor
    then Err (StreamCursorMismatch stream (cursor_sequence cursor) (cursor_event_id cursor)
                (sequence <$> current) (event_id <$> current))
    else Ok (tail read).

(** ** Session entries *)

Definition insert_entry (thread : ThreadId) (entry : SessionEntry) : Inner -> Inner :=
  set_entries (fun m => <[thread := <[entry_id entry := entry]> (default ∅ (m !! thread))]> m).

Definition set_active_leaf (thread : ThreadId) (leaf : option SessionEntryId) : Inner -> Inner :=
  set_active_leaves (fun m => match leaf with
                              | Some id => <[thread := id]> m
                              | None => delete thread m
                              end).

(** The parent [append_inner] attaches an entry to. *)
Definition resolve_parent (s : Inner) (c : ThreadCoordinates)
    (parent_entry_id : option SessionEntryId) : HistoryResult (option SessionEntryId) :=
  match parent_entry_id with
  | Some parent =>
      thread <-? ok_or (entries s !! thread_id c) (EntryNotFound parent) ;;
      parent_entry <-? ok_or (thread !! parent) (EntryNotFound parent) ;;
      validate_entry_coordinates c parent_entry ;;?
      Ok (Some parent)
  | None => Ok (active_leaves s !! thread_id c)
  end.

(** [append_inner]. *)
Definition append_inner (lease_epoch : Z) (d : Draw) (c : ThreadCoordinates)
    (parent_entry_id : option SessionEntryId) (kind : SessionEntryKind)
    (provenance : option EventProvenance) : Store SessionEntry :=
  s <-! st_get ;;
  parent <-! st_lift (resolve_parent s c parent_entry_id) ;;
  st_lift (check_in_memory_lease_epoch s (for_thread c) lease_epoch) ;;!
  let entry := entry_new (draw_entry_id d) (draw_entry_ms d) c parent kind in
  append_in_memory_events (for_thread c)
    [session_entry_event_with_optional_provenance (draw_event_id d) (draw_event_ms d) entry
       provenance] lease_epoch ;;!
  st_modify (insert_entry (thread_id c) entry) ;;!
  st_modify (set_active_leaf (thread_id c) (Some (entry_id entry))) ;;!
  st_ret entry.

(** [SessionStore::append] and [append_with_provenance]. *)
Definition append (lease_epoch : Z) (d : Draw) (c : ThreadCoordinates)
    (parent_entry_id : option SessionEntryId) (kind : SessionEntryKind) : Store SessionEntry :=
  append_inner lease_epoch d c parent_entry_id kind None.

Definition append_with_provenance (lease_epoch : Z) (d : Draw) (c : ThreadCoordinates)
    (parent_entry_id : option SessionEntryId) (kind : SessionEntryKind)
    (provenance : EventProvenance) : Store SessionEntry :=
  append_inner lease_epoch d c parent_entry_id kind (Some provenance).

(** The entry of a turn, in the iteration order of the map. *)
Definition find_turn (s : Inner) (thread : ThreadId) (turn : string) : option SessionEntry :=
  m ← entries s !! thread;
  snd <$> list_find (fun e => turn_id e = Some turn) (snd <$> map_to_list m) .

(** [SessionStore::append_turn_input]. *)
Definition append_turn_input (lease_epoch : Z) (d : Draw) (c : ThreadCoordinates)
    (turn : string) (kind : SessionEntryKind) : Store SessionEntry :=
  s <-! st_get ;;
  match find_turn s (thread_id c) turn with
  | Some existing =>
      st_lift (validate_entry_coordinates c existing) ;;!
      if negb (turn_input_kinds_match (entry_kind existing) kind)
      then st_lift (Err (Storage (TurnInputMismatch turn)))
      else st_ret existing
  | None =>
      let parent := active_leaves s !! thread_id c in
      st_lift (check_in_memory_lease_epoch s (for_thread c) lease_epoch) ;;!
      let entry := entry_for_turn (draw_entry_id d) (draw_entry_ms d) c parent turn kind in
      append_in_memory_events (for_thread c)
        [session_entry_event (draw_event_id d) (draw_event_ms d) entry] lease_epoch ;;!
      st_modify (insert_entry (thread_id c) entry) ;;!
      st_modify (set_active_leaf (thread_id c) (Some (entry_id entry))) ;;!
      st_ret entry
  end.

(** [SessionStore::active_leaf]. *)
Definition active_leaf (s : Inner) (c : ThreadCoordinates) :
    HistoryResult (option SessionEntryId) :=
  match active_leaves s !! thread_id c with
  | None => Ok None
  | Some leaf =>
      entry <-? ok_or (m ← entries s !! thread_id c; m !! leaf) (EntryNotFound leaf) ;;
      validate_entry_coordinates c entry ;;?
      Ok (Some leaf)
  end.

(** ** Branches *)

(** The loop of [branch_path]; [None] when the fuel runs out. *)
Fixpoint branch_path_loop (fuel : nat) (m : gmap SessionEntryId SessionEntry)
    (c : ThreadCoordinates) (cursor : option SessionEntryId) (path : list SessionEntry) :
    option (HistoryResult (list SessionEntry)) :=
  match cursor with
  | None => Some (Ok (reverse path))
  | Some id =>
      match fuel with
      | O => None
      | S fuel =>
          match m !! id with
          | None => Some (Err (EntryNotFound id))
          | Some entry =>
              match validate_entry_coordinates c entry with
              | Err e => Some (Err e)
              | Ok _ => branch_path_loop fuel m c (parent_entry_id entry) (path ++ [entry])
              end
          end
      end
  end.

(** [branch_path]. *)
Definition branch_path (m : gmap SessionEntryId SessionEntry) (leaf : SessionEntryId)
    (c : ThreadCoordinates) : option (HistoryResult (list SessionEntry)) :=
  branch_path_loop (S (size m)) m c (Some leaf) [].

(** [ThreadBranchSelectedPayload], serialized. *)
Definition branch_selected_json (thread : ThreadId) (selected prior : option SessionEntryId) :
    json :=
  jobj ([("thread_id", JString (uuid_text thread))] ++
        opt_field "selected_entry_id" (fun id => JString (uuid_text id)) selected ++
        opt_field "prior_entry_id" (fun id => JString (uuid_text id)) prior).

(** [SessionStore::select_branch]. *)
Definition select_branch (lease_epoch : Z) (d : Draw) (c : ThreadCoordinates)
    (leaf : option SessionEntryId) (s : Inner) : option (Inner * HistoryResult unit) :=
  let prior := active_leaves s !! thread_id c in
  checked ← match leaf with
            | None => Some (Ok tt)
            | Some leaf =>
                match entries s !! thread_id c with
                | None => Some (Err (EntryNotFound leaf))
                | Some m => result_map (fun _ => tt) <$> branch_path m leaf c
                end
            end;
  Some ((st_lift checked ;;!
         st_lift (check_in_memory_lease_epoch s (for_thread c) lease_epoch) ;;!
         append_in_memory_events (for_thread c)
           [witnessed (draw_event_id d) (draw_event_ms d) c ThreadBranchSelected
              (branch_selected_json (thread_id c) leaf prior)] lease_epoch ;;!
         st_modify (set_active_leaf (thread_id c) leaf)) s).

(** The clones of a path in [clone_branch], each the child of the one before. *)
Fixpoint clone_entries (draws : nat -> Draw) (i : nat) (target : ThreadCoordinates)
    (parent : option SessionEntryId) (path : list SessionEntry) : list SessionEntry :=
  match path with
  | [] => []
  | source :: path =>
      let d := draws i in
      entry_new (draw_entry_id d) (draw_entry_ms d) target parent (entry_kind source) ::
      clone_entries draws (S i) target (Some (draw_entry_id d)) path
  end.

Definition clone_events (draws : nat -> Draw) (cloned : list SessionEntry) :
    list NewEventRecord :=
  imap (fun i e => session_entry_event (draw_event_id (draws i)) (draw_event_ms (draws i)) e)
    cloned.

(** [SessionStore::clone_branch]. *)
Definition clone_branch (lease_epoch : Z) (draws : nat -> Draw) (source : ThreadCoordinates)
    (source_leaf : option SessionEntryId) (target : ThreadCoordinates) (s : Inner) :
    option (Inner * HistoryResult (option SessionEntryId)) :=
  match source_leaf with
  | None =>
      Some ((st_modify (set_bases (delete (thread_id target))) ;;!
             st_modify (set_active_leaf (thread_id target) None) ;;!
             st_ret None) s)
  | Some leaf =>
      checked ← match entries s !! thread_id source with
                | None => Some (Err (EntryNotFound leaf))
                | Some m => branch_path m leaf source
                end;
      Some ((path <-! st_lift checked ;;
             st_lift (check_in_memory_lease_epoch s (for_thread target) lease_epoch) ;;!
             let cloned := clone_entries draws 0 target None path in
             append_in_memory_events (for_thread target) (clone_events draws cloned)
               lease_epoch ;;!
             st_modify (set_bases (delete (thread_id target))) ;;!
             st_modify (fun s => fold_left (fun s e => insert_entry (thread_id target) e s)
                                   cloned s) ;;!
             let latest := entry_id <$> last cloned in
             st_modify (match latest with
                        | Some id => set_active_leaf (thread_id target) (Some id)
                        | None => fun s => s
                        end) ;;!
             st_ret latest) s)
  end.

(** ** Context *)

(** [coordinates_with_thread_id]. *)
Definition coordinates_with_thread_id (c : ThreadCoordinates) (thread : ThreadId) :
    ThreadCoordinates :=
  mk_coordinates (tenant_id c) (user_id c) (session_id c) thread.

(** The part of [build_in_memory_context] that reads the thread's own path. *)
Definition local_context (s : Inner) (c : ThreadCoordinates)
    (leaf_override : option SessionEntryId) (inherited : bool) :
    option (HistoryResult (list SessionEntry * list SessionContextSourceCut)) :=
  match (match leaf_override with
         | Some leaf => Some leaf
         | None => active_leaves s !! thread_id c
         end) with
  | None => Some (Ok ([], []))
  | Some leaf =>
      match entries s !! thread_id c with
      | None => Some (Err (EntryNotFound leaf))
      | Some m =>
          result_map (fun path =>
            (path, if is_nil path then []
                   else [mk_cut c (for_thread c) inherited (entry_id <$> path)]))
            <$> branch_path m leaf c
      end
  end.

(** The end of [build_in_memory_context]. *)
Definition assemble_context (entries : list SessionEntry)
    (cuts : list SessionContextSourceCut) : SessionContext :=
  let '(entries, cuts) := strip_thread_start_identity_entries entries cuts in
  mk_session_context entries (append_model_visible_messages entries []) cuts.

(** [build_in_memory_context]. *)
Fixpoint build_in_memory_context (fuel : nat) (s : Inner) (c : ThreadCoordinates)
    (leaf_override : option SessionEntryId) (inherited : bool) (visiting : gset ThreadId) :
    option (HistoryResult SessionContext) :=
  match fuel with
  | O => None
  | S fuel =>
      if bool_decide (thread_id c ∈ visiting)
      then Some (Err (ThreadBaseCycle (thread_id c) (thread_id c)))
      else
        base_context ←
          match bases s !! thread_id c with
          | None => Some (Ok ([], []))
          | Some base =>
              if negb (child_thread_id base =? thread_id c)%N
              then Some (Err (Storage (BaseChildIdMismatch (child_thread_id base)
                                         (thread_id c))))
              else
                result_map (fun context =>
                  (context_entries context, context_source_cuts context))
                  <$> build_in_memory_context fuel s
                        (coordinates_with_thread_id c (parent_thread_id base))
                        (parent_leaf_entry_id base) true ({[thread_id c]} ∪ visiting)
          end;
        match base_context with
        | Err e => Some (Err e)
        | Ok (base_entries, base_cuts) =>
            result_map (fun '(path, cuts) =>
              assemble_context (base_entries ++ path) (base_cuts ++ cuts))
              <$> local_context s c leaf_override inherited
        end
  end.

(** One level per thread with a base, and the level that finds none or finds a cycle. *)
Definition context_fuel (s : Inner) : nat := S (S (size (bases s))).

(** [SessionStore::build_context]. *)
Definition build_context (s : Inner) (c : ThreadCoordinates) :
    option (HistoryResult SessionContext) :=
  build_in_memory_context (context_fuel s) s c None false ∅.

(** ** Forks *)

(** The loop of [validate_in_memory_base_cycle]. *)
Fixpoint base_cycle_loop (fuel : nat) (s : Inner) (child : ThreadId)
    (cursor : option ThreadId) (visited : gset ThreadId) : option (HistoryResult unit) :=
  match cursor with
  | None => Some (Ok tt)
  | Some thread =>
      match fuel with
      | O => None
      | S fuel =>
          if bool_decide (thread = child) || bool_decide (thread ∈ visited)
          then Some (Err (ThreadBaseCycle child thread))
          else base_cycle_loop fuel s child (parent_thread_id <$> bases s !! thread)
                 ({[thread]} ∪ visited)
      end
  end.

(** [validate_in_memory_base_cycle]. *)
Definition validate_in_memory_base_cycle (s : Inner) (child parent : ThreadId) :
    option (HistoryResult unit) :=
  base_cycle_loop (context_fuel s) s child (Some parent) ∅.

(** [validate_thread_base_ref]. *)
Definition validate_thread_base_ref (source target : ThreadCoordinates) (base : ThreadBaseRef) :
    HistoryResult unit :=
  if negb (bool_decide (scope source = scope target))
  then Err (ThreadScopeMismatch target source)
  else if negb (parent_thread_id base =? thread_id source)%N
  then Err (Storage (BaseParentSourceMismatch (parent_thread_id base) (thread_id source)))
  else if negb (child_thread_id base =? thread_id target)%N
  then Err (Storage (BaseChildTargetMismatch (child_thread_id base) (thread_id target)))
  else if negb (String.eqb (parent_stream_id base) (for_thread source))
  then Err (Storage (BaseParentStreamMismatch (parent_stream_id base) (for_thread source)))
  else Ok tt.

(** [SessionStore::fork_by_reference]. *)
Definition fork_by_reference (source target : ThreadCoordinates) (base : ThreadBaseRef)
    (s : Inner) : option (Inner * HistoryResult unit) :=
  match validate_thread_base_ref source target base with
  | Err e => Some (s, Err e)
  | Ok _ =>
      cycle ← validate_in_memory_base_cycle s (thread_id target) (thread_id source);
      match cycle with
      | Err e => Some (s, Err e)
      | Ok _ =>
          leaf_check ← match parent_leaf_entry_id base with
                       | None => Some (Ok tt)
                       | Some leaf =>
                           result_map (fun _ => tt) <$>
                             build_in_memory_context (context_fuel s) s source (Some leaf)
                               false ∅
                       end;
          Some ((st_lift leaf_check ;;!
                 st_modify (set_active_leaf (thread_id target) None) ;;!
                 st_modify (set_bases (<[thread_id target := base]>))) s)
      end
  end.

(** ** Observations *)

(** [ObservationStore::append_observation]. *)
Definition append_observation (record : ObservationRecord) : Store ObservationRecord :=
  st_modify (set_observations (fun m =>
    <[thread_id (observation_scope record) :=
        default [] (m !! thread_id (observation_scope record)) ++ [record]]> m)) ;;!
  st_ret record.

(** [ObservationStore::list_observations]. *)
Definition list_observations (s : Inner) (c : ThreadCoordinates) (kind : option string) :
    HistoryResult (list ObservationRecord) :=
  Ok (filter (fun o => match kind with
                       | Some kind => String.eqb (observation_kind o) kind
                       | None => true
                       end = true)
        (filter (fun o => observation_scope o = c)
           (default [] (observations s !! thread_id c)))).
End Store.
