(* ===== verification/Journal.v ===== *)
(** * The journal of the store

    What an append does, on every branch, and the invariant of the event
    streams: dense 1-based sequences, globally unique event ids, and only
    records that passed the envelope and the provenance check. *)

From stdpp Require Import base gmap sets list strings pretty.
From Stdlib Require Import ZArith Lia.
From S2P Require Import Prelude Json Schema SchemaFacts EventKind EventSchemas Contracts Records Session Store.

Local Open Scope string_scope.
Local Open Scope list_scope.

(** ** What an append commits *)

(** A record every append path lets through. *)
Definition admissible (r : NewEventRecord) : Prop :=
  (new_origin r = Discharged -> provenance_is_empty (new_provenance r) = false) /\
  (exists m, new_payload r = JObject m) /\
  (new_kind r = IoEgressRequested ->
   validate REGISTRY (payload_schema_id IoEgressRequested) (new_payload r) = Ok tt).

Record accepts (s : Inner) (records : list NewEventRecord) : Prop := {
  accepts_admissible : Forall admissible records;
  accepts_nodup : NoDup (new_id <$> records);
  accepts_fresh : forall r, r ∈ records -> new_id r ∉ event_ids s;
}.

Definition numbered (stream : EventStreamId) (start : Z) (records : list NewEventRecord) :
    list EventRecord :=
  imap (fun i r => from_new stream (start + Z.of_nat i + 1)%Z r) records.

(** The state after a successful append. *)
Definition committed (stream : EventStreamId) (records : list NewEventRecord) (epoch : Z)
    (s : Inner) : Inner :=
  let s := raise_in_memory_lease_epoch stream epoch s in
  set_event_ids (fun ids => ids ∪ list_to_set (new_id <$> records))
    (set_events (<[stream := stream_events s stream ++
       numbered stream (Z.of_nat (length (stream_events s stream))) records]>) s).

Definition appended (s : Inner) (stream : EventStreamId) (records : list NewEventRecord) :
    list EventRecord :=
  numbered stream (Z.of_nat (length (stream_events s stream))) records.

Lemma admit_batch_ok s batch records ids :
  try_fold (admit_new_event s) batch records = Ok ids <->
  Forall (fun r => validate_new_event r = Ok tt) records /\
  NoDup (new_id <$> records) /\
  (forall r, r ∈ records -> new_id r ∉ event_ids s /\ new_id r ∉ batch) /\
  ids = list_to_set (new_id <$> records) ∪ batch.
Proof.
  revert batch. induction records as [|r records IH]; intros batch; simpl.
  - split; [intros [= <-]; repeat split; try constructor; set_solver|].
    intros (_ & _ & _ & ->). f_equal. set_solver.
  - unfold admit_new_event at 1. rewrite Forall_cons, NoDup_cons.
    destruct (validate_new_event r) as [[]|e]; simpl; [|naive_solver].
    destruct (_ || _) eqn:Hdup.
    + split; [done|]. intros (_ & _ & Hfresh & _). exfalso.
      apply orb_true_iff in Hdup.
      destruct (Hfresh r) as [H1 H2]; [left|]. destruct Hdup as [Hd|Hd]; to_prop; done.
    + to_prop. rewrite IH. split.
      * intros (Hv & Hnd & Hfresh & ->). split; [done|]. split.
        { split; [|done]. intros (r' & Heq & Hr')%list_elem_of_fmap.
          apply Hfresh in Hr' as [_ Hr']. rewrite <- Heq in Hr'. set_solver. }
        split; [|set_solver]. intros r' [->|Hr']%elem_of_cons; [done|].
        apply Hfresh in Hr'. set_solver.
      * intros ((_ & Hv) & (Hn & Hnd) & Hfresh & ->). split; [done|]. split; [done|].
        split; [|set_solver]. intros r' Hr'. destruct (Hfresh r') as [? ?]; [by right|].
        split; [done|]. apply not_elem_of_union. split; [|done].
        rewrite not_elem_of_singleton. intros Heq. apply Hn. rewrite <- Heq.
        by apply list_elem_of_fmap_2.
Qed.

Section Journal.
Context `{UuidText}.

Lemma validate_new_ok r :
  validate_new_event r = Ok tt <->
  (new_origin r = Discharged -> provenance_is_empty (new_provenance r) = false).
Proof.
  unfold validate_new_event. case_bool_decide as Ho; simpl; [|naive_solver].
  destruct (provenance_is_empty _); naive_solver.
Qed.

Lemma number_event_ok stream len i r e :
  number_event stream len (i, r) = Ok e <->
  (exists m, new_payload r = JObject m) /\
  (new_kind r = IoEgressRequested ->
   validate REGISTRY (payload_schema_id IoEgressRequested) (new_payload r) = Ok tt) /\
  e = from_new stream (len + Z.of_nat i + 1)%Z r.
Proof.
  unfold number_event. cbn [fst snd]. rewrite check_ok, validate_stream_record_spec.
  cbn [from_new payload kind]. naive_solver.
Qed.

Lemma number_events_ok stream len records es :
  collect (number_event stream len) (imap pair records) = Ok es <->
  Forall (fun r => (exists m, new_payload r = JObject m) /\
    (new_kind r = IoEgressRequested ->
     validate REGISTRY (payload_schema_id IoEgressRequested) (new_payload r) = Ok tt)) records /\
  es = numbered stream len records.
Proof.
  rewrite collect_ok, Forall2_lookup, Forall_lookup. unfold numbered. split.
  - intros Hall. split.
    + intros i r Hi. specialize (Hall i). rewrite list_lookup_imap, Hi in Hall. simpl in Hall.
      inversion Hall as [? e He|]; subst. apply number_event_ok in He. naive_solver.
    + apply list_eq. intros i. specialize (Hall i).
      rewrite list_lookup_imap in Hall. rewrite list_lookup_imap. destruct (records !! i) as [r|]; simpl in *.
      * inversion Hall as [? e He|]; subst. apply number_event_ok in He as (_ & _ & ->). done.
      * by inversion Hall.
  - intros [Hall ->] i. rewrite !list_lookup_imap.
    destruct (records !! i) as [r|] eqn:Hi; simpl; constructor.
    apply number_event_ok. specialize (Hall i r Hi). naive_solver.
Qed.

Lemma accepts_iff s records :
  accepts s records <->
  (Forall (fun r => validate_new_event r = Ok tt) records /\
   NoDup (new_id <$> records) /\
   (forall r, r ∈ records -> new_id r ∉ event_ids s /\ new_id r ∉ (∅ : gset EventRecordId))) /\
  Forall (fun r => (exists m, new_payload r = JObject m) /\
    (new_kind r = IoEgressRequested ->
     validate REGISTRY (payload_schema_id IoEgressRequested) (new_payload r) = Ok tt)) records.
Proof.
  split.
  - intros [Ha Hn Hf]. unfold admissible in Ha. rewrite !Forall_forall in *.
    setoid_rewrite validate_new_ok. set_solver.
  - intros ((Hv & Hn & Hf) & Hp). split; [|done|set_solver]. unfold admissible.
    rewrite !Forall_forall in *. setoid_rewrite validate_new_ok in Hv. set_solver.
Qed.

(** An append succeeds exactly on an acceptable batch, and then commits it. *)
Lemma append_in_memory_ok stream records epoch s s' es :
  append_in_memory_events stream records epoch s = (s', Ok es) <->
  accepts s records /\ es = appended s stream records /\
  s' = committed stream records epoch s.
Proof.
  rewrite accepts_iff. unfold append_in_memory_events, st_bind, st_get, st_lift, st_modify, st_ret.
  destruct (try_fold (admit_new_event s) ∅ records) as [ids|err] eqn:Hids.
  - apply admit_batch_ok in Hids as (Hv & Hn & Hf & ->).
    destruct (collect _ _) as [es'|err] eqn:Hes.
    + apply number_events_ok in Hes as [Hp ->]. unfold committed, appended.
      rewrite union_empty_r_L.
      assert (events (raise_in_memory_lease_epoch stream epoch s) = events s) as Hev.
      { unfold raise_in_memory_lease_epoch. by destruct (0 <? epoch)%Z. }
      unfold set_events, stream_events. rewrite Hev. split.
      * intros [= <- <-]. split; [done|]. by split.
      * intros (_ & -> & ->). done.
    + split; [done|]. intros [[_ Hp] _].
      assert (collect (number_event stream (Z.of_nat (length (stream_events s stream))))
        (imap pair records) = Ok (numbered stream (Z.of_nat (length (stream_events s stream)))
          records)) as Hok by by apply number_events_ok.
      by rewrite Hes in Hok.
  - split; [done|]. intros [[Hv _] _].
    assert (try_fold (admit_new_event s) ∅ records = Ok (list_to_set (new_id <$> records) ∪ ∅))
      as Hok by (apply admit_batch_ok; naive_solver).
    by rewrite Hids in Hok.
Qed.

Lemma append_in_memory_err stream records epoch s s' e :
  append_in_memory_events stream records epoch s = (s', Err e) -> s' = s.
Proof.
  unfold append_in_memory_events, st_bind, st_get, st_lift, st_modify, st_ret.
  destruct (try_fold _ _ _); [|by intros [= <- _]].
  destruct (collect _ _); [done | by intros [= <- _]].
Qed.

(** ** The invariant of the streams *)

Record journal_wf (s : Inner) : Prop := {
  journal_numbered stream i e :
    stream_events s stream !! i = Some e ->
    sequence e = Z.of_nat (S i) /\ stream_id e = stream;
  journal_checked stream e :
    e ∈ stream_events s stream ->
    validate_stream_record_v1 e = Ok tt /\
    (origin e = Discharged -> provenance_is_empty (provenance e) = false);
  journal_ids id :
    id ∈ event_ids s <-> exists stream e, e ∈ stream_events s stream /\ event_id e = id;
  journal_unique stream1 i1 e1 stream2 i2 e2 :
    stream_events s stream1 !! i1 = Some e1 -> stream_events s stream2 !! i2 = Some e2 ->
    event_id e1 = event_id e2 -> stream1 = stream2 /\ i1 = i2;
}.

Lemma journal_wf_empty : journal_wf inner_empty.
Proof.
  assert (forall stream, stream_events inner_empty stream = []) as He by done.
  split; intros *; rewrite ?He; try done; try set_solver.
Qed.

(** The invariant reads the streams and the ids only. *)
Lemma journal_wf_frame s s' :
  events s' = events s -> event_ids s' = event_ids s -> journal_wf s -> journal_wf s'.
Proof.
  intros He Hi [H1 H2 H3 H4].
  assert (forall stream, stream_events s' stream = stream_events s stream) as Hs.
  { intros stream. unfold stream_events. by rewrite He. }
  split; intros *; rewrite ?Hi, ?Hs; eauto.
  rewrite H3. by setoid_rewrite Hs.
Qed.

Lemma numbered_lookup stream start records i e :
  numbered stream start records !! i = Some e ->
  exists r, records !! i = Some r /\ e = from_new stream (start + Z.of_nat i + 1)%Z r.
Proof.
  unfold numbered. rewrite list_lookup_imap. intros (r & ? & ->)%fmap_Some. eauto.
Qed.

Lemma stream_events_committed stream records epoch s stream' :
  stream_events (committed stream records epoch s) stream' =
  stream_events s stream' ++ (if decide (stream' = stream) then appended s stream records else []).
Proof.
  unfold committed, stream_events, appended, raise_in_memory_lease_epoch, set_event_ids, set_events.
  assert (events (if (0 <? epoch)%Z then set_minimums (<[stream := match lease_epoch_minimums s !! stream with
    | Some m => Z.max m epoch | None => epoch end]>) s else s) = events s) as Hev
    by by destruct (0 <? epoch)%Z.
  cbn [events]. rewrite Hev. destruct (decide (stream' = stream)) as [->|Hne].
  - by rewrite lookup_insert_eq.
  - by rewrite lookup_insert_ne, app_nil_r by done.
Qed.

Lemma event_ids_committed stream records epoch s :
  event_ids (committed stream records epoch s) = event_ids s ∪ list_to_set (new_id <$> records).
Proof. unfold committed, raise_in_memory_lease_epoch. by destruct (0 <? epoch)%Z. Qed.

Lemma appended_id s stream records i e :
  appended s stream records !! i = Some e ->
  exists r, records !! i = Some r /\ event_id e = new_id r.
Proof. intros (r & ? & ->)%numbered_lookup. eauto. Qed.

(** Where an event of the committed stream comes from. *)
Lemma committed_lookup stream records epoch s stream' i e :
  stream_events (committed stream records epoch s) stream' !! i = Some e ->
  stream_events s stream' !! i = Some e \/
  stream' = stream /\ (length (stream_events s stream) <= i)%nat /\
  appended s stream records !! (i - length (stream_events s stream))%nat = Some e.
Proof.
  rewrite stream_events_committed. intros [?|[? Hi]]%lookup_app_Some; [by left|].
  destruct (decide (stream' = stream)) as [->|]; [|done]. by right.
Qed.

Lemma admissible_event stream seq r :
  admissible r ->
  validate_stream_record_v1 (from_new stream seq r) = Ok tt /\
  (origin (from_new stream seq r) = Discharged ->
   provenance_is_empty (provenance (from_new stream seq r)) = false).
Proof. intros (Hp & Hj & He). split; [|done]. by apply validate_stream_record_spec. Qed.

Lemma committed_ids_elem stream records epoch s id :
  (exists stream' e, e ∈ stream_events (committed stream records epoch s) stream' /\ event_id e = id)
  <-> (exists stream' e, e ∈ stream_events s stream' /\ event_id e = id) \/ id ∈ new_id <$> records.
Proof.
  setoid_rewrite stream_events_committed. setoid_rewrite elem_of_app. split.
  - intros (st & e & [Hin|Hin] & Hid); [left; eauto|].
    destruct (decide (st = stream)); [|by apply not_elem_of_nil in Hin].
    apply list_elem_of_lookup in Hin as (i & Hi). apply appended_id in Hi as (r & Hr & He).
    right. rewrite <- Hid, He. apply list_elem_of_fmap_2. by apply list_elem_of_lookup_2 in Hr.
  - intros [(st & e & ? & ?)|(r & -> & Hr)%list_elem_of_fmap]; [exists st, e; eauto|].
    apply list_elem_of_lookup in Hr as (i & Hi).
    exists stream, (from_new stream (Z.of_nat (length (stream_events s stream)) + Z.of_nat i + 1)%Z r).
    split; [right|done]. rewrite decide_True by done. apply list_elem_of_lookup. exists i.
    unfold appended, numbered. by rewrite list_lookup_imap, Hi.
Qed.

Lemma committed_fresh stream records s i e i' stream' e' :
  journal_wf s -> accepts s records ->
  appended s stream records !! i = Some e -> stream_events s stream' !! i' = Some e' ->
  event_id e <> event_id e'.
Proof.
  intros Hwf Ha (r & Hr & Hid)%appended_id He' Heq.
  apply (accepts_fresh _ _ Ha r); [by apply list_elem_of_lookup_2 in Hr|].
  apply (journal_ids _ Hwf). exists stream', e'. rewrite <- Hid, Heq. split; [|done].
  by apply list_elem_of_lookup_2 in He'.
Qed.

Lemma committed_journal_wf stream records epoch s :
  journal_wf s -> accepts s records -> journal_wf (committed stream records epoch s).
Proof.
  intros Hwf Ha. split.
  - intros st i e [Hi|(-> & Hle & Hi)]%committed_lookup; [by apply (journal_numbered s)|].
    apply numbered_lookup in Hi as (r & _ & ->). cbn. split; [lia | done].
  - intros st e (i & Hi)%list_elem_of_lookup.
    apply committed_lookup in Hi as [Hi|(-> & Hle & Hi)].
    + apply list_elem_of_lookup_2 in Hi. by apply (journal_checked s Hwf st).
    + apply numbered_lookup in Hi as (r & Hr & ->). apply admissible_event.
      eapply (Forall_lookup_1 _ _ _ _ (accepts_admissible _ _ Ha)), Hr.
  - intros id. rewrite event_ids_committed, elem_of_union, elem_of_list_to_set,
      committed_ids_elem. by rewrite (journal_ids s Hwf).
  - intros st1 i1 e1 st2 i2 e2 [H1|(-> & Hl1 & H1)]%committed_lookup
      [H2|(-> & Hl2 & H2)]%committed_lookup Heq.
    + by apply (journal_unique s Hwf st1 i1 e1 st2 i2 e2).
    + by destruct (committed_fresh _ _ _ _ _ _ _ _ Hwf Ha H2 H1).
    + by destruct (committed_fresh _ _ _ _ _ _ _ _ Hwf Ha H1 H2).
    + split; [done|]. apply appended_id in H1 as (r1 & Hr1 & He1).
      apply appended_id in H2 as (r2 & Hr2 & He2).
      pose proof (NoDup_lookup _ (i1 - length (stream_events s stream))
        (i2 - length (stream_events s stream)) (new_id r1) (accepts_nodup _ _ Ha)) as Hnd.
      rewrite !list_lookup_fmap, Hr1, Hr2 in Hnd. simpl in Hnd.
      assert (Some (new_id r2) = Some (new_id r1)) as Hsame by congruence.
      specialize (Hnd eq_refl Hsame). lia.
Qed.
End Journal.
