(* ===== verification/Branches.v ===== *)
(** * Branches, bases and context of the store

    The shape of the stored entries and bases that makes the unbounded loops of
    the store return: every entry's chain of parents ends at a root, and every
    thread's chain of bases ends at a thread without one. *)

From stdpp Require Import base gmap sets list strings pretty.
From Stdlib Require Import ZArith Lia.
From S2P Require Import Prelude Json Schema EventKind EventSchemas Contracts Records Session Store.

Local Open Scope string_scope.
Local Open Scope list_scope.

(** ** Chains of parents *)

Notation EntryMap := (gmap SessionEntryId SessionEntry) (only parsing).

(** [rooted m id path]: following parents from [id] reaches a root, and [path] lists the
    entries met, root first. *)
Inductive rooted (m : EntryMap) : SessionEntryId -> list SessionEntry -> Prop :=
  | rooted_root id e :
      m !! id = Some e -> parent_entry_id e = None -> rooted m id [e]
  | rooted_child id e parent path :
      m !! id = Some e -> parent_entry_id e = Some parent -> rooted m parent path ->
      rooted m id (path ++ [e]).

#[export] Hint Constructors rooted : verlet.

Lemma rooted_fun m id p1 p2 : rooted m id p1 -> rooted m id p2 -> p1 = p2.
Proof.
  intros H1. revert p2. induction H1 as [id e Hm Hp|id e par path Hm Hp Hr IH]; intros p2 H2;
    inversion H2; subst; simplify_eq; try done. f_equal. by apply IH.
Qed.

Lemma rooted_last m id path : rooted m id path -> exists e, last path = Some e /\ m !! id = Some e.
Proof. intros []; exists e; by rewrite ?last_snoc. Qed.

Lemma rooted_not_nil m id path : rooted m id path -> path <> [].
Proof. by intros [] ?%(f_equal length); rewrite ?length_app in *; simpl in *; try lia. Qed.

(** The ids of a chain. *)
Inductive chain (m : EntryMap) : list SessionEntryId -> Prop :=
  | chain_nil : chain m []
  | chain_cons id l path : rooted m id path -> length path = S (length l) -> chain m l ->
      chain m (id :: l).

Lemma rooted_chain m id path :
  rooted m id path -> exists l, chain m (id :: l) /\ length path = S (length l).
Proof.
  induction 1 as [id e Hm Hp|id e par path Hm Hp Hr (l & Hc & Hl)].
  - exists []. split; [|done]. econstructor; [by apply rooted_root | done | constructor].
  - exists (par :: l). rewrite length_app, Hl. simpl. split; [|lia].
    econstructor; [by eapply rooted_child | rewrite length_app, Hl; simpl; lia | done].
Qed.

Lemma chain_nodup m l : chain m l -> NoDup l /\ (forall id, id ∈ l -> id ∈ dom m).
Proof.
  assert (forall l, chain m l -> forall id, id ∈ l ->
    exists path, rooted m id path /\ (length path <= length l)%nat) as Hin.
  { induction 1 as [|id l' path Hr Hl Hc IH]; intros i Hi; [set_solver|].
    apply elem_of_cons in Hi as [->|Hi]; [exists path; simpl; split; [done|lia]|].
    destruct (IH i Hi) as (p & ? & ?). exists p. simpl. split; [done|lia]. }
  induction 1 as [|id l path Hr Hl Hc [IHn IHd]]; [split; [constructor|set_solver]|].
  split.
  - constructor; [|done]. intros Hi. destruct (Hin l Hc id Hi) as (p & Hp & Hle).
    rewrite (rooted_fun _ _ _ _ Hp Hr) in Hle. lia.
  - intros i [->|Hi]%elem_of_cons; [|by apply IHd].
    destruct (rooted_last _ _ _ Hr) as (e & _ & He). by eapply elem_of_dom_2.
Qed.

Lemma nodup_in_size `{Countable K} {A} (m : gmap K A) (l : list K) :
  NoDup l -> (forall k, k ∈ l -> k ∈ dom m) -> (length l <= size m)%nat.
Proof.
  intros Hn Hd. rewrite <- size_dom. rewrite <- (size_list_to_set (C := gset K) l Hn).
  apply subseteq_size. intros k Hk%elem_of_list_to_set. by apply Hd.
Qed.

(** No chain is longer than the map: the fuel of [branch_path]. *)
Lemma rooted_length m id path : rooted m id path -> (length path <= size m)%nat.
Proof.
  intros Hr. apply rooted_chain in Hr as (l & Hc & ->).
  apply chain_nodup in Hc as [Hn Hd]. by apply (nodup_in_size m (id :: l)).
Qed.

Lemma rooted_insert m id path fresh entry :
  rooted m id path -> m !! fresh = None -> rooted (<[fresh := entry]> m) id path.
Proof.
  intros Hr Hf. induction Hr as [id e Hm Hp|id e par path Hm Hp Hr IH].
  - apply rooted_root; [|done]. rewrite lookup_insert_ne; [done | congruence].
  - eapply rooted_child; [|done|done]. rewrite lookup_insert_ne; [done | congruence].
Qed.

(** ** The branch of an entry *)

Lemma branch_path_loop_end fuel m c acc :
  branch_path_loop fuel m c None acc = Some (Ok (reverse acc)).
Proof. by destruct fuel. Qed.

(** Walking a rooted chain finds it, or the first entry from the leaf with other coordinates. *)
Lemma branch_path_loop_rooted m c id path fuel acc :
  rooted m id path -> (length path < fuel)%nat ->
  branch_path_loop fuel m c (Some id) acc =
  Some (match for_each (validate_entry_coordinates c) (reverse path) with
        | Ok _ => Ok (path ++ reverse acc)
        | Err e => Err e
        end).
Proof.
  intros Hr. revert fuel acc.
  induction Hr as [id e Hm Hp|id e par path Hm Hp Hr IH]; intros fuel acc Hf;
    (destruct fuel as [|fuel]; [lia|]); simpl; rewrite Hm.
  - destruct (validate_entry_coordinates c e); [|done]. rewrite Hp.
    by rewrite branch_path_loop_end, reverse_snoc.
  - rewrite reverse_app. simpl. destruct (validate_entry_coordinates c e) as [[]|]; [|done].
    rewrite Hp. rewrite length_app in Hf. simpl in Hf. rewrite IH by lia.
    destruct (for_each _ _); [|done]. by rewrite reverse_snoc, <- app_assoc.
Qed.

Lemma branch_path_rooted m c id path :
  rooted m id path ->
  branch_path m id c =
  Some (match for_each (validate_entry_coordinates c) (reverse path) with
        | Ok _ => Ok path
        | Err e => Err e
        end).
Proof.
  intros Hr. unfold branch_path.
  rewrite (branch_path_loop_rooted _ _ _ path) by (try done; pose proof (rooted_length _ _ _ Hr); lia).
  change (reverse []) with (@nil SessionEntry). by rewrite app_nil_r.
Qed.

(** The loop itself only returns rooted chains of entries with the coordinates asked for. *)
Lemma branch_path_loop_ok fuel m c id acc out :
  branch_path_loop fuel m c (Some id) acc = Some (Ok out) ->
  exists path, rooted m id path /\ Forall (fun e => entry_coordinates e = c) path /\
    out = path ++ reverse acc.
Proof.
  revert id acc. induction fuel as [|fuel IH]; intros id acc; [done|]. simpl.
  destruct (m !! id) as [e|] eqn:Hm; [|done].
  destruct (validate_entry_coordinates c e) as [[]|] eqn:Hv; [|done].
  apply entry_coordinates_ok in Hv. destruct (parent_entry_id e) as [par|] eqn:Hp.
  - intros (path & Hr & Hc & ->)%IH. exists (path ++ [e]). split; [by eapply rooted_child|].
    split; [by apply Forall_app_2; [|constructor]|]. by rewrite reverse_snoc, <- app_assoc.
  - rewrite branch_path_loop_end. intros [= <-]. exists [e]. rewrite reverse_snoc.
    split; [by apply rooted_root|split; [by constructor|done]].
Qed.

Lemma branch_path_ok m c id path :
  branch_path m id c = Some (Ok path) <->
  rooted m id path /\ Forall (fun e => entry_coordinates e = c) path.
Proof.
  split.
  - intros (p & Hr & Hc & ->)%branch_path_loop_ok. rewrite reverse_nil, app_nil_r. done.
  - intros [Hr Hc]. rewrite (branch_path_rooted _ _ _ path Hr).
    assert (for_each (validate_entry_coordinates c) (reverse path) = Ok tt) as ->; [|done].
    apply for_each_ok, Forall_reverse. eapply Forall_impl; [done|].
    intros e He. by apply entry_coordinates_ok.
Qed.

(** ** Chains of bases *)

Notation BaseMap := (gmap ThreadId ThreadBaseRef) (only parsing).

(** [base_chain b t l]: following bases from [t] visits [l] and ends at a thread without one. *)
Inductive base_chain (b : BaseMap) : ThreadId -> list ThreadId -> Prop :=
  | base_chain_end t : b !! t = None -> base_chain b t [t]
  | base_chain_step t base l :
      b !! t = Some base -> base_chain b (parent_thread_id base) l -> base_chain b t (t :: l).

Lemma base_chain_fun b t l1 l2 : base_chain b t l1 -> base_chain b t l2 -> l1 = l2.
Proof.
  intros H1. revert l2. induction H1 as [t Hb|t base l Hb Hc IH]; intros l2 H2;
    inversion H2; subst; simplify_eq; try done. f_equal. by apply IH.
Qed.

Lemma base_chain_head b t l : base_chain b t l -> exists l', l = t :: l'.
Proof. intros []; eauto. Qed.

(** Every thread on a chain has the rest of the chain as its own. *)
Lemma base_chain_suffix b t l t' :
  base_chain b t l -> t' ∈ l -> exists l', base_chain b t' l' /\ (length l' <= length l)%nat.
Proof.
  induction 1 as [t Hb|t base l Hb Hc IH]; intros Ht.
  - apply list_elem_of_singleton in Ht as ->. exists [t]. split; [by constructor|done].
  - apply elem_of_cons in Ht as [->|Ht].
    + exists (t :: l). split; [by econstructor|done].
    + destruct (IH Ht) as (l' & ? & ?). exists l'. simpl. split; [done|lia].
Qed.

Lemma base_chain_nodup b t l : base_chain b t l -> NoDup l.
Proof.
  induction 1 as [t Hb|t base l Hb Hc IH]; [apply NoDup_singleton|].
  constructor; [|done]. intros Ht. destruct (base_chain_suffix _ _ _ _ Hc Ht) as (l' & Hl' & Hle).
  assert (base_chain b t (t :: l)) as Hself by by econstructor.
  rewrite (base_chain_fun _ _ _ _ Hl' Hself) in Hle. simpl in Hle. lia.
Qed.

Lemma base_chain_length b t l : base_chain b t l -> (length l <= S (size b))%nat.
Proof.
  intros Hc. pose proof (base_chain_nodup _ _ _ Hc) as Hn.
  assert (exists l' t', l = l' ++ [t'] /\ forall x, x ∈ l' -> x ∈ dom b) as (l' & t' & -> & Hd).
  { clear Hn. induction Hc as [t Hb|t base l Hb Hc (l' & t' & -> & Hd)].
    - exists [], t. split; [done|set_solver].
    - exists (t :: l'), t'. split; [done|]. intros x [->|Hx]%elem_of_cons; [|by apply Hd].
      by eapply elem_of_dom_2. }
  apply NoDup_app in Hn as [Hn _]. rewrite length_app. simpl.
  pose proof (nodup_in_size b l' Hn Hd). lia.
Qed.

Lemma base_chain_delete b t l removed :
  base_chain b t l -> exists l', base_chain (delete removed b) t l'.
Proof.
  induction 1 as [t Hb|t base l Hb Hc (l' & IH)].
  - exists [t]. constructor. destruct (decide (t = removed)) as [->|];
      [apply lookup_delete_eq | by rewrite lookup_delete_ne].
  - destruct (decide (t = removed)) as [->|].
    + exists [removed]. constructor. apply lookup_delete_eq.
    + exists (t :: l'). econstructor; [|done]. by rewrite lookup_delete_ne.
Qed.

Lemma base_chain_insert_other b t l child base :
  base_chain b t l -> child ∉ l -> base_chain (<[child := base]> b) t l.
Proof.
  induction 1 as [t Hb|t base' l Hb Hc IH]; intros Hn.
  - constructor. rewrite lookup_insert_ne; [done | set_solver].
  - econstructor; [rewrite lookup_insert_ne; [done | set_solver] | apply IH; set_solver].
Qed.

(** Giving a thread a base whose chain avoids it keeps every chain finite. *)
Lemma base_chain_insert b t l child base lp :
  base_chain b (parent_thread_id base) lp -> child ∉ lp ->
  base_chain b t l -> exists l', base_chain (<[child := base]> b) t l'.
Proof.
  intros Hp Hn. assert (base_chain (<[child := base]> b) child (child :: lp)) as Hchild.
  { econstructor; [apply lookup_insert_eq | by apply base_chain_insert_other]. }
  induction 1 as [t Hb|t base' l Hb Hc (l' & IH)].
  - destruct (decide (t = child)) as [->|]; [by eexists|]. exists [t]. constructor.
    by rewrite lookup_insert_ne.
  - destruct (decide (t = child)) as [->|]; [by eexists|]. exists (t :: l').
    econstructor; [by rewrite lookup_insert_ne | done].
Qed.

(** ** The cycle check of a fork *)

(** The check always returns: a thread is followed once, and only threads with a base lead on. *)
Lemma base_cycle_loop_returns fuel s child cursor visited :
  visited ⊆ dom (bases s) ->
  (S (S (size (bases s))) <= fuel + size visited)%nat ->
  is_Some (base_cycle_loop fuel s child cursor visited).
Proof.
  revert cursor visited. induction fuel as [|fuel IH]; intros cursor visited Hsub Hf.
  - apply subseteq_size in Hsub. rewrite size_dom in Hsub. lia.
  - simpl. destruct cursor as [t|]; [|by eexists].
    case_bool_decide as Ht; [by eexists|]. case_bool_decide as Hv; [by eexists|]. simpl.
    destruct (bases s !! t) as [base|] eqn:Hb; simpl.
    + apply IH; [apply elem_of_dom_2 in Hb; set_solver|].
      rewrite size_union by set_solver. rewrite size_singleton. lia.
    + destruct fuel; simpl; by eexists.
Qed.

Lemma base_cycle_loop_chain fuel s child t visited :
  base_cycle_loop fuel s child (Some t) visited = Some (Ok tt) ->
  exists l, base_chain (bases s) t l /\ child ∉ l.
Proof.
  revert t visited. induction fuel as [|fuel IH]; intros t visited; [done|]. simpl.
  case_bool_decide as Ht; [done|]. case_bool_decide as Hv; [done|]. simpl.
  destruct (bases s !! t) as [base|] eqn:Hb; simpl.
  - intros (l & Hc & Hn)%IH. exists (t :: l). split; [by econstructor|set_solver].
  - intros _. exists [t]. split; [by constructor|set_solver].
Qed.

Lemma base_cycle_loop_accepts fuel s child t l visited :
  base_chain (bases s) t l -> child ∉ l -> (forall x, x ∈ l -> x ∉ visited) ->
  (length l < fuel)%nat -> base_cycle_loop fuel s child (Some t) visited = Some (Ok tt).
Proof.
  intros Hc. revert fuel visited.
  induction Hc as [t Hb|t base l Hb Hc IH]; intros fuel visited Hn Hv Hf;
    (destruct fuel as [|fuel]; [simpl in Hf; lia|]); simpl.
  - rewrite bool_decide_false by set_solver. rewrite bool_decide_false by (apply Hv; left).
    rewrite Hb. by destruct fuel.
  - rewrite bool_decide_false by set_solver. rewrite bool_decide_false by (apply Hv; left).
    rewrite Hb. simpl. apply IH; [set_solver| |simpl in Hf; lia].
    assert (t ∉ l) as Hnt.
    { pose proof (base_chain_nodup (bases s) t (t :: l)) as Hnd.
      by eapply NoDup_cons_1_1, Hnd; econstructor. }
    intros x Hx. apply not_elem_of_union. split; [set_solver|]. apply Hv. by right.
Qed.

(** The check accepts exactly the parents from which the child is unreachable. *)
Lemma base_cycle_ok s child parent :
  validate_in_memory_base_cycle s child parent = Some (Ok tt) <->
  exists l, base_chain (bases s) parent l /\ child ∉ l.
Proof.
  unfold validate_in_memory_base_cycle, context_fuel. split.
  - apply base_cycle_loop_chain.
  - intros (l & Hc & Hn). eapply base_cycle_loop_accepts; [done|done|set_solver|].
    pose proof (base_chain_length _ _ _ Hc). lia.
Qed.

Lemma base_cycle_returns s child parent :
  is_Some (validate_in_memory_base_cycle s child parent).
Proof. apply base_cycle_loop_returns; [set_solver | unfold context_fuel; lia]. Qed.

(** ** Well-formed trees *)

Record trees_wf (s : Inner) : Prop := {
  tree_entry thread m id e :
    entries s !! thread = Some m -> m !! id = Some e ->
    entry_id e = id /\ thread_id (entry_coordinates e) = thread /\ exists path, rooted m id path;
  tree_leaf thread id :
    active_leaves s !! thread = Some id ->
    exists m e, entries s !! thread = Some m /\ m !! id = Some e;
  tree_base thread : exists l, base_chain (bases s) thread l;
  tree_child thread base : bases s !! thread = Some base -> child_thread_id base = thread;
}.

Lemma trees_wf_empty : trees_wf inner_empty.
Proof.
  split; try by intros *; rewrite ?lookup_empty.
  intros t. exists [t]. by constructor.
Qed.

Lemma trees_wf_frame s s' :
  entries s' = entries s -> active_leaves s' = active_leaves s -> bases s' = bases s ->
  trees_wf s -> trees_wf s'.
Proof. intros He Ha Hb [H1 H2 H3 H4]. split; rewrite ?He, ?Ha, ?Hb; done. Qed.

Section Context.
Context `{UuidText}.

(** [branch_path] returns on every entry map whose entries are rooted. *)
Lemma branch_path_returns s thread m leaf c :
  trees_wf s -> entries s !! thread = Some m -> is_Some (branch_path m leaf c).
Proof.
  intros Hwf Hm. destruct (m !! leaf) as [e|] eqn:He.
  - destruct (tree_entry _ Hwf _ _ _ _ Hm He) as (_ & _ & path & Hr).
    rewrite (branch_path_rooted _ _ _ _ Hr). by eexists.
  - unfold branch_path. simpl. rewrite He. by eexists.
Qed.

Lemma local_context_returns s c leaf inherited :
  trees_wf s -> is_Some (local_context s c leaf inherited).
Proof.
  intros Hwf. unfold local_context.
  destruct (match leaf with Some l => Some l | None => _ end) as [l|]; [|by eexists].
  destruct (entries s !! thread_id c) as [m|] eqn:Hm; [|by eexists].
  destruct (branch_path_returns s _ m l c Hwf Hm) as [r ->]. by eexists.
Qed.

Lemma branch_path_no_cycle m leaf c r x y :
  branch_path m leaf c = Some r -> r <> Err (ThreadBaseCycle x y).
Proof.
  unfold branch_path. generalize (S (size m)) (@nil SessionEntry) (Some leaf).
  induction n as [|n IH]; intros acc cursor; simpl.
  - destruct cursor; [done|by intros [= <-]].
  - destruct cursor as [id|]; [|by intros [= <-]]. destruct (m !! id) as [e|]; [|by intros [= <-]].
    unfold validate_entry_coordinates. case_bool_decide; [apply IH|].
    case_bool_decide; simpl; by intros [= <-].
Qed.

Lemma local_context_no_cycle s c leaf inherited r x y :
  local_context s c leaf inherited = Some r -> r <> Err (ThreadBaseCycle x y).
Proof.
  unfold local_context. destruct (match leaf with Some l => Some l | None => _ end) as [l|];
    [|by intros [= <-]].
  destruct (entries s !! thread_id c) as [m|]; [|by intros [= <-]].
  intros (p & Hp & ->)%fmap_Some. apply (branch_path_no_cycle _ _ _ _ x y) in Hp.
  destruct p; simpl; [done|congruence].
Qed.

Lemma build_context_level s fuel c leaf inherited visiting :
  thread_id c ∉ visiting ->
  build_in_memory_context (S fuel) s c leaf inherited visiting =
  base_context ←
    match bases s !! thread_id c with
    | None => Some (Ok ([], []))
    | Some base =>
        if negb (child_thread_id base =? thread_id c)%N
        then Some (Err (Storage (BaseChildIdMismatch (child_thread_id base) (thread_id c))))
        else
          result_map (fun context => (context_entries context, context_source_cuts context))
            <$> build_in_memory_context fuel s
                  (coordinates_with_thread_id c (parent_thread_id base))
                  (parent_leaf_entry_id base) true ({[thread_id c]} ∪ visiting)
    end;
  match base_context with
  | Err e => Some (Err e)
  | Ok (base_entries, base_cuts) =>
      result_map (fun '(path, cuts) => assemble_context (base_entries ++ path) (base_cuts ++ cuts))
        <$> local_context s c leaf inherited
  end.
Proof. intros Hv. cbn [build_in_memory_context]. by rewrite bool_decide_false. Qed.

(** On well-formed trees the recursion ends without meeting a thread twice. *)
Lemma build_context_chain s c l leaf inherited visiting fuel :
  trees_wf s -> base_chain (bases s) (thread_id c) l ->
  (forall t, t ∈ l -> t ∉ visiting) -> (length l <= fuel)%nat ->
  exists r, build_in_memory_context fuel s c leaf inherited visiting = Some r /\
    forall x y, r <> Err (ThreadBaseCycle x y).
Proof.
  intros Hwf Hc. remember (thread_id c) as t eqn:Ht. revert c Ht leaf inherited visiting fuel.
  induction Hc as [t Hb|t base l Hb Hc IH]; intros c -> leaf inherited visiting fuel Hv Hf;
    (destruct fuel as [|fuel]; [simpl in Hf; lia|]);
    rewrite build_context_level by (apply Hv; left); rewrite Hb.
  - destruct (local_context_returns s c leaf inherited Hwf) as [r Hr].
    cbn [mbind option_bind]. rewrite Hr. eexists. split; [done|]. intros x y.
    apply (local_context_no_cycle _ _ _ _ _ x y) in Hr. destruct r as [[]|]; simpl; congruence.
  - rewrite (tree_child _ Hwf _ _ Hb), N.eqb_refl. cbn [negb].
    edestruct (IH (coordinates_with_thread_id c (parent_thread_id base)) eq_refl
      (parent_leaf_entry_id base) true ({[thread_id c]} ∪ visiting) fuel) as (r & Hr & Hn).
    { intros x Hx. apply not_elem_of_union. split; [|apply Hv; by right].
      apply not_elem_of_singleton. intros ->. assert (NoDup (thread_id c :: l)) as Hnd.
      { eapply base_chain_nodup. by econstructor. }
      by apply NoDup_cons in Hnd as [? _]. }
    { simpl in Hf. lia. }
    rewrite Hr. cbn [mbind option_bind fmap option_fmap option_map].
    destruct r as [context|e]; cbn [result_map]; [|exists (Err e); split; [done|congruence]].
    destruct (local_context_returns s c leaf inherited Hwf) as [r Hl]. rewrite Hl.
    eexists. split; [done|]. intros x y.
    apply (local_context_no_cycle _ _ _ _ _ x y) in Hl. destruct r as [[]|]; simpl; congruence.
Qed.

Lemma build_context_returns s c leaf :
  trees_wf s ->
  exists r, build_in_memory_context (context_fuel s) s c leaf false ∅ = Some r /\
    forall x y, r <> Err (ThreadBaseCycle x y).
Proof.
  intros Hwf. destruct (tree_base _ Hwf (thread_id c)) as (l & Hl).
  apply (build_context_chain _ _ l); try done. 
  unfold context_fuel. pose proof (base_chain_length _ _ _ Hl). lia.
Qed.

(** ** Scope isolation *)

Definition in_scope (c : ThreadCoordinates) (e : SessionEntry) : Prop :=
  scope (entry_coordinates e) = scope c.

Lemma local_context_scope s c leaf inherited path cuts :
  local_context s c leaf inherited = Some (Ok (path, cuts)) ->
  Forall (in_scope c) path /\ Forall (fun cut => scope (cut_coordinates cut) = scope c) cuts.
Proof.
  unfold local_context. destruct (match leaf with Some l => Some l | None => _ end) as [l|];
    [|intros [= <- <-]; by split].
  destruct (entries s !! thread_id c) as [m|]; [|done].
  intros ([p|] & Hp & Hr)%fmap_Some; simpl in Hr; simplify_eq.
  apply branch_path_ok in Hp as [_ Hp]. split.
  - eapply Forall_impl; [done|]. unfold in_scope. by intros e ->.
  - destruct (is_nil p); by constructor.
Qed.

Lemma assemble_context_scope (P : SessionEntry -> Prop) (Q : ThreadCoordinates -> Prop) es cuts :
  Forall P es -> Forall (fun cut => Q (cut_coordinates cut)) cuts ->
  let context := assemble_context es cuts in
  Forall P (context_entries context) /\
  Forall (fun cut => Q (cut_coordinates cut)) (context_source_cuts context) /\
  Forall (fun e => session_entry_is_thread_start_identity e = false) (context_entries context) /\
  context_messages context = append_model_visible_messages (context_entries context) [].
Proof.
  intros Hes Hcuts. unfold assemble_context.
  pose proof (strip_no_identity es cuts) as Hno.
  assert (Forall (fun cut => Q (cut_coordinates cut))
    (strip_thread_start_identity_entries es cuts).2) as Hc.
  { unfold strip_thread_start_identity_entries. case_bool_decide; [done|]. simpl.
    apply Forall_forall. intros cut [_ (c & -> & Hin)%list_elem_of_fmap]%list_elem_of_filter.
    rewrite Forall_forall in Hcuts. by apply (Hcuts c). }
  destruct (strip_thread_start_identity_entries es cuts) as [kept kept_cuts]; simpl in *.
  rewrite Forall_forall in Hes. split_and!; try done; apply Forall_forall; intros e He;
    apply Hno in He as [? ?]; eauto.
Qed.

Lemma build_context_ok fuel s c leaf inherited visiting context :
  build_in_memory_context fuel s c leaf inherited visiting = Some (Ok context) ->
  Forall (in_scope c) (context_entries context) /\
  Forall (fun cut => scope (cut_coordinates cut) = scope c) (context_source_cuts context) /\
  Forall (fun e => session_entry_is_thread_start_identity e = false) (context_entries context) /\
  context_messages context = append_model_visible_messages (context_entries context) [].
Proof.
  revert c leaf inherited visiting context.
  induction fuel as [|fuel IH]; intros c leaf inherited visiting context; [done|].
  destruct (decide (thread_id c ∈ visiting)) as [Hv|Hv];
    [simpl; by rewrite bool_decide_true by done|].
  rewrite build_context_level by done.
  intros ([[base_entries base_cuts]|e] & Hbase & Hr)%bind_Some; [|done].
  apply fmap_Some in Hr as ([[path cuts]|] & Hlocal & [= ->]).
  apply local_context_scope in Hlocal as [Hp Hcuts].
  enough (Forall (in_scope c) base_entries /\
    Forall (fun cut => scope (cut_coordinates cut) = scope c) base_cuts) as [Hb Hbc].
  { apply (assemble_context_scope _ (fun c' => scope c' = scope c)); by apply Forall_app_2. }
  destruct (bases s !! thread_id c) as [base|]; [|by injection Hbase as <- <-].
  destruct (negb _); [done|].
  apply fmap_Some in Hbase as ([ctx|] & Hctx & Heq); simpl in Heq; simplify_eq.
  apply IH in Hctx as (? & ? & _). split; eapply Forall_impl; try done; intros ?; cbn; done.
Qed.
End Context.
