(* ===== verification/StoreOps.v ===== *)
(** * The operations of the store, as one transition system

    Each operation is reduced to the state it commits; every outcome is then an
    unchanged state or one of five forms of commit. *)

From stdpp Require Import base gmap sets list strings pretty.
From Stdlib Require Import ZArith Lia.
From S2P Require Import Prelude Json Schema EventKind EventSchemas Contracts Records Session Store Journal Branches.

Local Open Scope string_scope.
Local Open Scope list_scope.

(** ** Operations *)

Inductive op : Type :=
  | OpAppend (d : Draw) (c : ThreadCoordinates) (parent : option SessionEntryId)
      (kind : SessionEntryKind) (provenance : option EventProvenance)
  | OpTurnInput (d : Draw) (c : ThreadCoordinates) (turn : string) (kind : SessionEntryKind)
  | OpSelect (d : Draw) (c : ThreadCoordinates) (leaf : option SessionEntryId)
  | OpClone (draws : nat -> Draw) (source : ThreadCoordinates) (leaf : option SessionEntryId)
      (target : ThreadCoordinates)
  | OpFork (source target : ThreadCoordinates) (base : ThreadBaseRef)
  | OpAppendEvents (stream : EventStreamId) (records : list NewEventRecord)
  | OpFenced (stream : EventStreamId) (expected : EventSequence) (records : list NewEventRecord)
  | OpObserve (record : ObservationRecord).

Definition forget {A} (out : Inner * HistoryResult A) : Inner * HistoryResult unit :=
  (out.1, result_map (fun _ => tt) out.2).

Lemma forget_ok {A} (out : Inner * HistoryResult A) s' :
  Some (forget out) = Some (s', Ok tt) -> exists a, out = (s', Ok a).
Proof. destruct out as [s1 [a|e]]; unfold forget; simpl; intros [= <-]. by exists a. Qed.

Lemma forget_err {A} (out : Inner * HistoryResult A) s' e :
  Some (forget out) = Some (s', Err e) -> out = (s', Err e).
Proof. destruct out as [s1 [a|e']]; unfold forget; simpl; by intros [= <- <-]. Qed.

(** What a successful [append_in_memory_events] in the hypotheses did. *)
Ltac invert_append :=
  match goal with
  | H : append_in_memory_events _ _ _ _ = _ |- _ =>
      let Ha := fresh "Ha" in apply append_in_memory_ok in H as (Ha & -> & ->)
  end.

Section Ops.
Context `{UuidText}.

(** A call through a handle that presents [epoch]. *)
Definition run (epoch : Z) (o : op) (s : Inner) : option (Inner * HistoryResult unit) :=
  match o with
  | OpAppend d c parent kind None => Some (forget (append epoch d c parent kind s))
  | OpAppend d c parent kind (Some prov) =>
      Some (forget (append_with_provenance epoch d c parent kind prov s))
  | OpTurnInput d c turn kind => Some (forget (append_turn_input epoch d c turn kind s))
  | OpSelect d c leaf => select_branch epoch d c leaf s
  | OpClone draws source leaf target => forget <$> clone_branch epoch draws source leaf target s
  | OpFork source target base => fork_by_reference source target base s
  | OpAppendEvents stream records => Some (forget (append_events epoch stream records s))
  | OpFenced stream n records => Some (forget (append_events_fenced epoch stream n records s))
  | OpObserve record => Some (forget (append_observation record s))
  end.

(** The entry ids an operation draws are new to the thread they are stored under. *)
Definition op_fresh (s : Inner) (o : op) : Prop :=
  match o with
  | OpAppend d c _ _ _ | OpTurnInput d c _ _ =>
      thread_entries s (thread_id c) !! draw_entry_id d = None
  | OpClone draws _ _ target =>
      (forall i, thread_entries s (thread_id target) !! draw_entry_id (draws i) = None) /\
      Inj (=) (=) (fun i => draw_entry_id (draws i))
  | _ => True
  end.

(** The stream whose journal an operation writes. *)
Definition op_stream (o : op) : option EventStreamId :=
  match o with
  | OpAppend _ c _ _ _ | OpTurnInput _ c _ _ | OpSelect _ c _ => Some (for_thread c)
  | OpClone _ _ (Some _) target => Some (for_thread target)
  | OpAppendEvents stream _ | OpFenced stream _ _ => Some stream
  | OpClone _ _ None _ | OpFork _ _ _ | OpObserve _ => None
  end.

(** ** What each operation commits *)

(** Storing a list of entries in order. *)
Definition store_all (thread : ThreadId) (es : list SessionEntry) (s : Inner) : Inner :=
  fold_left (fun s e => insert_entry thread e s) es s.

Definition attach (thread : ThreadId) (es : list SessionEntry) (s : Inner) : Inner :=
  set_active_leaf thread (entry_id <$> last es) (store_all thread es s).

Definition leased (s : Inner) (stream : EventStreamId) (epoch : Z) : Prop :=
  check_in_memory_lease_epoch s stream epoch = Ok tt.

Lemma leased_ok s stream epoch u :
  check_in_memory_lease_epoch s stream epoch = Ok u -> leased s stream epoch.
Proof. by destruct u. Qed.

(** The entries of a list, each the parent of the next. *)
Fixpoint chained (parent : option SessionEntryId) (es : list SessionEntry) : Prop :=
  match es with
  | [] => True
  | e :: es => parent_entry_id e = parent /\ chained (Some (entry_id e)) es
  end.

Definition parent_in (s : Inner) (thread : ThreadId) (parent : option SessionEntryId) : Prop :=
  forall p, parent = Some p -> is_Some (thread_entries s thread !! p).

(** Entries and the events that journal them, new to thread [thread]. *)
Record new_entries (s : Inner) (c : ThreadCoordinates) (parent : option SessionEntryId)
    (es : list SessionEntry) (records : list NewEventRecord) : Prop := {
  new_nonempty : es <> [];
  new_chained : chained parent es;
  new_at : Forall (fun e => entry_coordinates e = c) es;
  new_ids : NoDup (entry_id <$> es);
  new_fresh : Forall (fun e => thread_entries s (thread_id c) !! entry_id e = None) es;
  new_journal : Forall2 (fun e r => new_kind r = SessionEntryAppended /\
    new_coordinates r = c /\ new_payload r = session_entry_payload e) es records;
  new_turns : Forall (fun e => turn_id e = None) es \/
    exists e turn, es = [e] /\ turn_id e = Some turn /\ find_turn s (thread_id c) turn = None;
}.

(** The forms a successful operation's new state takes. *)
Inductive commit (epoch : Z) (s : Inner) : option EventStreamId -> Inner -> Prop :=
  | commit_events stream records :
      leased s stream epoch -> accepts s records ->
      commit epoch s (Some stream) (committed stream records epoch s)
  | commit_entries c parent es records removed :
      leased s (for_thread c) epoch -> accepts s records ->
      new_entries s c parent es records ->
      parent = active_leaves s !! thread_id c \/
        parent_in s (thread_id c) parent ->
      commit epoch s (Some (for_thread c))
        (attach (thread_id c) es
           (set_bases (if removed : bool then delete (thread_id c) else id)
              (committed (for_thread c) records epoch s)))
  | commit_select c leaf records m path :
      leased s (for_thread c) epoch -> accepts s records ->
      (forall l, leaf = Some l -> entries s !! thread_id c = Some m /\ rooted m l path) ->
      commit epoch s (Some (for_thread c))
        (set_active_leaf (thread_id c) leaf (committed (for_thread c) records epoch s))
  | commit_clear thread :
      commit epoch s None (set_active_leaf thread None (set_bases (delete thread) s))
  | commit_fork base l :
      base_chain (bases s) (parent_thread_id base) l -> child_thread_id base ∉ l ->
      commit epoch s None
        (set_bases (<[child_thread_id base := base]>)
           (set_active_leaf (child_thread_id base) None s))
  | commit_observation f : commit epoch s None (set_observations f s).

Lemma attach_one epoch c e records s :
  set_active_leaf (thread_id c) (Some (entry_id e))
    (insert_entry (thread_id c) e (committed (for_thread c) records epoch s)) =
  attach (thread_id c) [e] (set_bases id (committed (for_thread c) records epoch s)).
Proof. done. Qed.

Lemma entry_event_facts id now entry prov :
  let r := session_entry_event_with_optional_provenance id now entry prov in
  new_kind r = SessionEntryAppended /\ new_coordinates r = entry_coordinates entry /\
  new_payload r = session_entry_payload entry /\ new_id r = id.
Proof.
  unfold session_entry_event_with_optional_provenance.
  by destruct (session_entry_is_user_authored _).
Qed.

Lemma resolve_parent_ok s c parent p :
  resolve_parent s c parent = Ok p ->
  p = active_leaves s !! thread_id c \/ parent_in s (thread_id c) p.
Proof.
  unfold resolve_parent. destruct parent as [x|]; [|intros [= <-]; by left].
  destruct (entries s !! thread_id c) as [m|] eqn:Hm; [|done]. simpl.
  destruct (m !! x) as [pe|] eqn:Hpe; [|done]. simpl.
  destruct (validate_entry_coordinates c pe); [|done]. intros [= <-].
  right. intros y [= <-]. unfold thread_entries. rewrite Hm. simpl. by rewrite Hpe.
Qed.

Lemma new_single s id e r :
  thread_entries s (thread_id (entry_coordinates e)) !! entry_id e = None ->
  new_kind r = SessionEntryAppended /\ new_coordinates r = entry_coordinates e /\
    new_payload r = session_entry_payload e /\ new_id r = id ->
  turn_id e = None \/ (exists turn, turn_id e = Some turn /\
    find_turn s (thread_id (entry_coordinates e)) turn = None) ->
  new_entries s (entry_coordinates e) (parent_entry_id e) [e] [r].
Proof.
  intros Hf (Hk & Hc & Hp & _) Ht. split; rewrite ?Forall_singleton; try done.
  - apply NoDup_singleton.
  - by constructor.
  - destruct Ht as [?|(turn & ? & ?)]; [by left|right; by exists e, turn].
Qed.

Lemma new_entry_facts s c d parent kind prov :
  thread_entries s (thread_id c) !! draw_entry_id d = None ->
  let e := entry_new (draw_entry_id d) (draw_entry_ms d) c parent kind in
  new_entries s c parent [e]
    [session_entry_event_with_optional_provenance (draw_event_id d) (draw_event_ms d) e prov].
Proof.
  intros Hf e.
  apply (new_single s (draw_event_id d) e); [done | by apply entry_event_facts | by left].
Qed.

Lemma append_inner_commit epoch d c parent kind prov s s' e :
  thread_entries s (thread_id c) !! draw_entry_id d = None ->
  append_inner epoch d c parent kind prov s = (s', Ok e) ->
  commit epoch s (Some (for_thread c)) s'.
Proof.
  intros Hf Hrun. unfold append_inner in Hrun. st_inv.
  invert_append.
  rewrite attach_one. apply (commit_entries _ _ c a0 _ _ false); try done.
  - by eapply leased_ok.
  - by apply new_entry_facts.
  - by eapply resolve_parent_ok.
Qed.

Lemma find_turn_some s thread turn e :
  find_turn s thread turn = Some e ->
  exists m id, entries s !! thread = Some m /\ m !! id = Some e /\ turn_id e = Some turn.
Proof.
  unfold find_turn. intros (m & Hm & Hf)%bind_Some. apply fmap_Some in Hf as ([i e'] & Hf & ->).
  apply list_find_Some in Hf as (Hi & Ht & _). apply list_elem_of_lookup_2 in Hi.
  apply list_elem_of_fmap in Hi as ([id e''] & -> & Hi). apply elem_of_map_to_list in Hi. eauto.
Qed.

Lemma find_turn_none s thread turn m id e :
  find_turn s thread turn = None -> entries s !! thread = Some m -> m !! id = Some e ->
  turn_id e <> Some turn.
Proof.
  unfold find_turn. intros Hf Hm He. rewrite Hm in Hf. simpl in Hf.
  apply fmap_None, list_find_None in Hf. rewrite Forall_forall in Hf. apply Hf.
  apply list_elem_of_fmap. exists (id, e). split; [done|]. by apply elem_of_map_to_list.
Qed.

Lemma append_turn_input_commit epoch d c turn kind s s' e :
  thread_entries s (thread_id c) !! draw_entry_id d = None ->
  append_turn_input epoch d c turn kind s = (s', Ok e) ->
  s' = s /\ find_turn s (thread_id c) turn = Some e \/
  commit epoch s (Some (for_thread c)) s'.
Proof.
  intros Hf Hrun. unfold append_turn_input in Hrun. st_inv.
  destruct (find_turn s (thread_id c) turn) as [existing|] eqn:Hturn; st_inv.
  - destruct (negb _); st_inv; [done|]. by left.
  - right. invert_append.
    rewrite attach_one.
    apply (commit_entries _ _ c (active_leaves s !! thread_id c) _ _ false);
      [by eapply leased_ok | done | | by left].
    set (e' := entry_for_turn _ _ _ _ _ _).
    apply (new_single s (draw_event_id d) e'); [done | by apply entry_event_facts | right; by exists turn].
Qed.

Lemma select_branch_commit epoch d c leaf s s' u :
  select_branch epoch d c leaf s = Some (s', Ok u) -> commit epoch s (Some (for_thread c)) s'.
Proof.
  unfold select_branch. intros (checked & Hc & Hrun)%bind_Some. injection Hrun as Hrun. st_inv.
  invert_append.
  destruct leaf as [leaf|].
  - destruct (entries s !! thread_id c) as [m|] eqn:Hm; [|by simplify_eq].
    apply fmap_Some in Hc as ([path|] & Hp & ->); [|done].
    apply branch_path_ok in Hp as [Hp _].
    apply (commit_select _ _ c (Some leaf) _ m path); [by eapply leased_ok | done |].
    by intros l [= <-].
  - by apply (commit_select _ _ c None _ ∅ []); [eapply leased_ok | |].
Qed.

Lemma clone_entries_ids draws i target parent path :
  entry_id <$> clone_entries draws i target parent path =
  (fun j => draw_entry_id (draws j)) <$> seq i (length path).
Proof.
  revert i parent. induction path as [|e path IH]; intros i parent; simpl; [done|].
  f_equal. apply IH.
Qed.

Lemma clone_entries_facts draws i target parent path :
  let es := clone_entries draws i target parent path in
  chained parent es /\ Forall (fun e => entry_coordinates e = target /\ turn_id e = None) es.
Proof.
  revert i parent. induction path as [|e path IH]; intros i parent; simpl; [done|].
  destruct (IH (S i) (Some (draw_entry_id (draws i)))) as [Hc Hf].
  split; [done|]. by constructor.
Qed.

Lemma clone_new_entries s draws target path :
  op_fresh s (OpClone draws target None target) -> path <> [] ->
  let es := clone_entries draws 0 target None path in
  new_entries s target None es (clone_events draws es).
Proof.
  intros [Hf Hinj] Hne es. destruct (clone_entries_facts draws 0 target None path) as [Hc Hfa].
  fold es in Hc, Hfa. apply Forall_and in Hfa as [Hat Hturn].
  assert (entry_id <$> es = (fun j => draw_entry_id (draws j)) <$> seq 0 (length path)) as Hids
    by apply clone_entries_ids.
  split; try done.
  - by destruct path.
  - rewrite Hids. apply NoDup_fmap_2; [done|]. apply NoDup_seq.
  - apply Forall_forall. intros e He%(list_elem_of_fmap_2 entry_id). rewrite Hids in He.
    apply list_elem_of_fmap in He as (j & -> & _). apply Hf.
  - apply Forall2_lookup. intros i. unfold clone_events. rewrite list_lookup_imap.
    destruct (es !! i) as [e|] eqn:He; simpl; constructor.
    rewrite Forall_forall in Hat. apply list_elem_of_lookup_2, Hat in He as <-.
    by destruct (entry_event_facts (draw_event_id (draws i)) (draw_event_ms (draws i)) e None)
      as (? & ? & ? & _).
  - by left.
Qed.

Lemma clone_branch_commit epoch draws source leaf target s s' out :
  op_fresh s (OpClone draws source leaf target) ->
  clone_branch epoch draws source leaf target s = Some (s', Ok out) ->
  commit epoch s (op_stream (OpClone draws source leaf target)) s'.
Proof.
  intros Hf. unfold clone_branch. destruct leaf as [leaf|].
  - intros (checked & Hc & Hrun)%bind_Some. injection Hrun as Hrun. st_inv. subst checked.
    invert_append.
    destruct (entries s !! thread_id source) as [m|] eqn:Hm; [|by simplify_eq].
    apply branch_path_ok in Hc as [Hp _]. apply rooted_not_nil in Hp.
    set (es := clone_entries draws 0 target None a) in *.
    assert (new_entries s target None es (clone_events draws es)) as Hnew
      by by apply clone_new_entries.
    assert (exists id, entry_id <$> last es = Some id) as [id Hid].
    { pose proof (new_nonempty _ _ _ _ _ Hnew) as Hne. destruct (last es) eqn:Hl; [by eexists|].
      by apply last_None in Hl. }
    rewrite Hid. simpl.
    replace (set_active_leaf (thread_id target) (Some id) _) with
      (attach (thread_id target) es (set_bases (delete (thread_id target))
        (committed (for_thread target) (clone_events draws es) epoch s)))
      by (unfold attach; by rewrite Hid).
    apply (commit_entries _ _ target None es _ true); try done; [by eapply leased_ok | by right].
  - intros [= <- _]. apply commit_clear.
Qed.

Lemma validate_base_ok source target base :
  validate_thread_base_ref source target base = Ok tt <->
  scope source = scope target /\ parent_thread_id base = thread_id source /\
  child_thread_id base = thread_id target /\ parent_stream_id base = for_thread source.
Proof.
  unfold validate_thread_base_ref.
  case_bool_decide; simpl; [|by split; [done|intros (? & _)]].
  destruct (N.eqb_spec (parent_thread_id base) (thread_id source)); simpl;
    [|by split; [done|intros (_ & ? & _)]].
  destruct (N.eqb_spec (child_thread_id base) (thread_id target)); simpl;
    [|by split; [done|intros (_ & _ & ? & _)]].
  destruct (String.eqb_spec (parent_stream_id base) (for_thread source)); simpl;
    [done|by split; [done|intros (_ & _ & _ & ?)]].
Qed.

Lemma fork_by_reference_commit epoch source target base s s' u :
  fork_by_reference source target base s = Some (s', Ok u) -> commit epoch s None s'.
Proof.
  unfold fork_by_reference.
  destruct (validate_thread_base_ref source target base) as [[]|] eqn:Hv; [|done].
  apply validate_base_ok in Hv as (_ & Hp & Hc & _).
  intros ([[]|] & Hcycle & Hrun)%bind_Some; [|done].
  apply bind_Some in Hrun as (leaf_check & _ & [= Hrun]). st_inv.
  apply base_cycle_ok in Hcycle as (l & Hl & Hn). rewrite <- Hc.
  apply (commit_fork _ _ _ l); by rewrite ?Hp, ?Hc.
Qed.

(** Every successful operation either changes nothing or commits to the stream it names. *)
Lemma run_commit epoch o s s' :
  op_fresh s o -> run epoch o s = Some (s', Ok tt) ->
  s' = s \/ commit epoch s (op_stream o) s'.
Proof.
  intros Hf. destruct o as [d c parent kind prov|d c turn kind|d c leaf|draws source leaf target
    |source target base|stream records|stream n records|record]; simpl in *.
  - intros Hrun. right.
    destruct prov; apply forget_ok in Hrun as [entry Hrun]; by eapply append_inner_commit.
  - intros [entry Hrun]%forget_ok.
    apply append_turn_input_commit in Hrun as [[-> _]|?]; [by left|by right|done].
  - intros Hrun. right. by eapply select_branch_commit.
  - intros ([s1 [out|]] & Hrun & Heq)%fmap_Some; unfold forget in Heq; simplify_eq/=.
    right. by eapply clone_branch_commit.
  - intros Hrun. right. by eapply fork_by_reference_commit.
  - intros [es Hrun]%forget_ok. unfold append_events in Hrun. st_inv. invert_append.
    right. constructor; [by eapply leased_ok|done].
  - intros [es Hrun]%forget_ok. unfold append_events_fenced in Hrun. st_inv.
    destruct (negb _); st_inv; [done|]. invert_append.
    right. constructor; [by eapply leased_ok|done].
  - intros [= <-]. right. constructor.
Qed.
End Ops.
