(* ===== verification/StoreInv.v ===== *)
(** * What every reachable store satisfies

    The invariant of the store, its preservation by every operation, and the
    promises that follow: errors change nothing, nothing committed is ever lost,
    every call returns, lease fences only rise. *)

From stdpp Require Import base gmap sets list strings pretty relations.
From Stdlib Require Import ZArith Lia.
From S2P Require Import Prelude Json Schema EventKind EventSchemas Contracts Records Session Store Journal Branches StoreOps.

Local Open Scope string_scope.
Local Open Scope list_scope.

Section Inv.
Context `{UuidText}.

(** ** Errors change nothing *)

Ltac err_step :=
  repeat first
    [ progress st_inv
    | match goal with
      | H : append_in_memory_events _ _ _ _ = (_, Err _) |- _ =>
          apply append_in_memory_err in H
      | H : append_in_memory_events _ _ _ _ = (_, Ok _) |- _ => clear H
      | H : (if ?b then _ else _) _ = (_, Err _) |- _ => destruct b
      end
    | done ].

Lemma append_inner_err epoch d c parent kind prov s s' e :
  append_inner epoch d c parent kind prov s = (s', Err e) -> s' = s.
Proof. unfold append_inner. intros. err_step. Qed.

Lemma append_turn_input_err epoch d c turn kind s s' e :
  append_turn_input epoch d c turn kind s = (s', Err e) -> s' = s.
Proof.
  unfold append_turn_input. intros. st_inv. destruct (find_turn _ _ _); err_step.
Qed.

Lemma select_branch_err epoch d c leaf s s' e :
  select_branch epoch d c leaf s = Some (s', Err e) -> s' = s.
Proof.
  unfold select_branch. intros (checked & _ & Hrun)%bind_Some. apply (inj Some) in Hrun. err_step.
Qed.

Lemma clone_branch_err epoch draws source leaf target s s' e :
  clone_branch epoch draws source leaf target s = Some (s', Err e) -> s' = s.
Proof.
  unfold clone_branch. destruct leaf as [leaf|]; [|done].
  intros (checked & _ & Hrun)%bind_Some. apply (inj Some) in Hrun. err_step.
Qed.

Lemma fork_by_reference_err source target base s s' e :
  fork_by_reference source target base s = Some (s', Err e) -> s' = s.
Proof.
  unfold fork_by_reference. destruct (validate_thread_base_ref _ _ _); [|by intros [= <- _]].
  intros ([|] & _ & Hrun)%bind_Some; [|by simplify_eq].
  apply bind_Some in Hrun as (? & _ & Hrun). apply (inj Some) in Hrun. err_step.
Qed.

Lemma append_events_err epoch stream records s s' e :
  append_events epoch stream records s = (s', Err e) -> s' = s.
Proof. unfold append_events. intros. err_step. Qed.

Lemma append_events_fenced_err epoch stream n records s s' e :
  append_events_fenced epoch stream n records s = (s', Err e) -> s' = s.
Proof. unfold append_events_fenced. intros. err_step. Qed.

Lemma run_err epoch o s s' e : run epoch o s = Some (s', Err e) -> s' = s.
Proof.
  destruct o as [d c parent kind [prov|]|d c turn kind|d c leaf|draws source leaf target
    |source target base|stream records|stream n records|record]; simpl.
  - intros Hrun%forget_err. by eapply append_inner_err.
  - intros Hrun%forget_err. by eapply append_inner_err.
  - intros Hrun%forget_err. by eapply append_turn_input_err.
  - apply select_branch_err.
  - intros ([s1 out] & Hrun & Heq)%fmap_Some. unfold forget in Heq. destruct out; simplify_eq/=.
    by eapply clone_branch_err.
  - apply fork_by_reference_err.
  - intros Hrun%forget_err. by eapply append_events_err.
  - intros Hrun%forget_err. by eapply append_events_fenced_err.
  - by intros Hrun%forget_err.
Qed.

(** ** Growth *)

(** Everything the first state holds, the second still holds. *)
Record extends (s s' : Inner) : Prop := {
  extends_stream stream : stream_events s stream `prefix_of` stream_events s' stream;
  extends_entries thread : thread_entries s thread ⊆ thread_entries s' thread;
  extends_minimum stream m : lease_epoch_minimums s !! stream = Some m ->
    exists m', lease_epoch_minimums s' !! stream = Some m' /\ (m <= m')%Z;
}.

#[global] Instance extends_preorder : PreOrder extends.
Proof.
  split.
  - intros s. split; [done|done|]. intros stream m Hm. exists m. split; [done|lia].
  - intros s1 s2 s3 [A1 A2 A3] [B1 B2 B3]. split.
    + intros stream. by trans (stream_events s2 stream).
    + intros thread. by trans (thread_entries s2 thread).
    + intros stream m (m' & Hm' & ?)%A3. apply B3 in Hm' as (m'' & ? & ?).
      exists m''. split; [done|lia].
Qed.

Lemma raise_minimum stream epoch s stream' :
  lease_epoch_minimums (raise_in_memory_lease_epoch stream epoch s) !! stream' =
  if decide (stream' = stream /\ (0 < epoch)%Z)
  then Some (match lease_epoch_minimums s !! stream with
             | Some m => Z.max m epoch | None => epoch end)
  else lease_epoch_minimums s !! stream'.
Proof.
  unfold raise_in_memory_lease_epoch. destruct (Z.ltb_spec 0 epoch).
  - simpl. destruct (decide (stream' = stream)) as [->|Hne].
    + rewrite lookup_insert_eq. by rewrite decide_True.
    + rewrite lookup_insert_ne by done. rewrite decide_False; [done|naive_solver].
  - rewrite decide_False; [done|lia].
Qed.

Lemma committed_minimums stream records epoch s :
  lease_epoch_minimums (committed stream records epoch s) =
  lease_epoch_minimums (raise_in_memory_lease_epoch stream epoch s).
Proof. done. Qed.

Lemma committed_frame stream records epoch s :
  entries (committed stream records epoch s) = entries s /\
  active_leaves (committed stream records epoch s) = active_leaves s /\
  bases (committed stream records epoch s) = bases s.
Proof. unfold committed, raise_in_memory_lease_epoch. by destruct (0 <? epoch)%Z. Qed.

Lemma committed_extends stream records epoch s : extends s (committed stream records epoch s).
Proof.
  split.
  - intros stream'. rewrite stream_events_committed. by apply prefix_app_r.
  - intros thread. unfold thread_entries. by rewrite (proj1 (committed_frame _ _ _ _)).
  - intros stream' m Hm. rewrite committed_minimums, raise_minimum.
    destruct (decide _) as [[-> Hp]|]; [|exists m; split; [done|lia]].
    rewrite Hm. eexists. split; [done|lia].
Qed.

Lemma thread_entries_insert thread e s thread' :
  thread_entries (insert_entry thread e s) thread' =
  if decide (thread' = thread) then <[entry_id e := e]> (thread_entries s thread)
  else thread_entries s thread'.
Proof.
  unfold thread_entries, insert_entry, set_entries. simpl. destruct (decide _) as [->|].
  - by rewrite lookup_insert_eq.
  - by rewrite lookup_insert_ne.
Qed.

Lemma insert_entry_extends thread e s :
  thread_entries s thread !! entry_id e = None -> extends s (insert_entry thread e s).
Proof.
  intros Hf. split; [done| |intros stream m Hm; exists m; split; [done|lia]].
  intros thread'. rewrite thread_entries_insert. destruct (decide _) as [->|]; [|done].
  by apply insert_subseteq.
Qed.

Lemma fresh_after_insert thread e es s :
  entry_id e ∉ entry_id <$> es ->
  Forall (fun e => thread_entries s thread !! entry_id e = None) es ->
  Forall (fun e' => thread_entries (insert_entry thread e s) thread !! entry_id e' = None) es.
Proof.
  intros He Hfs. rewrite Forall_forall in Hfs |- *. intros e' He'.
  rewrite thread_entries_insert, decide_True by done.
  rewrite lookup_insert_ne; [by apply Hfs|]. intros Heq. apply He. rewrite Heq.
  by apply list_elem_of_fmap_2.
Qed.

(** An induction over the insertions: each entry is new when it is stored, and its parent is
    there. *)
Lemma store_all_ind thread (P : Inner -> Prop) parent es s :
  chained parent es -> parent_in s thread parent -> NoDup (entry_id <$> es) ->
  Forall (fun e => thread_entries s thread !! entry_id e = None) es ->
  (forall s e, e ∈ es -> thread_entries s thread !! entry_id e = None ->
     parent_in s thread (parent_entry_id e) -> P s -> P (insert_entry thread e s)) ->
  P s -> P (store_all thread es s).
Proof.
  revert parent s. induction es as [|e es IH]; intros parent s; [done|].
  intros [Hp Hc] Hin [He Hn]%NoDup_cons [Hf Hfs]%Forall_cons Hstep Hs.
  apply (IH (Some (entry_id e))); try done.
  - intros x [= <-]. rewrite thread_entries_insert, decide_True, lookup_insert_eq by done. done.
  - by apply fresh_after_insert.
  - intros s0 e' He'. apply Hstep. by right.
  - apply Hstep; [left|done| by rewrite Hp|done].
Qed.

(** ** Trees *)

Lemma thread_entries_lookup s thread m : entries s !! thread = Some m -> thread_entries s thread = m.
Proof. unfold thread_entries. by intros ->. Qed.

Lemma thread_entries_some s thread id e :
  thread_entries s thread !! id = Some e -> entries s !! thread = Some (thread_entries s thread).
Proof. unfold thread_entries. by destruct (entries s !! thread). Qed.

Lemma insert_entry_lookup thread e s thread' m :
  entries (insert_entry thread e s) !! thread' = Some m ->
  thread' = thread /\ m = <[entry_id e := e]> (thread_entries s thread) \/
  thread' <> thread /\ entries s !! thread' = Some m.
Proof.
  unfold insert_entry, thread_entries, set_entries. simpl.
  destruct (decide (thread' = thread)) as [->|Hne].
  - rewrite lookup_insert_eq. intros [= <-]. by left.
  - rewrite lookup_insert_ne by done. by right.
Qed.

Lemma insert_entry_trees thread e s :
  thread_entries s thread !! entry_id e = None -> parent_in s thread (parent_entry_id e) ->
  thread_id (entry_coordinates e) = thread -> trees_wf s -> trees_wf (insert_entry thread e s).
Proof.
  intros Hf Hp Ht Hwf. split.
  - intros thread' m id e' [(-> & ->)|[Hne Hm]]%insert_entry_lookup He'; [|by eapply tree_entry].
    assert (forall id x, thread_entries s thread !! id = Some x -> entry_id x = id /\
      thread_id (entry_coordinates x) = thread /\
      exists path, rooted (<[entry_id e := e]> (thread_entries s thread)) id path) as Hold.
    { intros i x Hx. pose proof (thread_entries_some _ _ _ _ Hx) as Hm.
      destruct (tree_entry _ Hwf _ _ _ _ Hm Hx) as (? & ? & path & ?).
      split_and!; [done|done|]. exists path. by apply rooted_insert. }
    apply lookup_insert_Some in He' as [[<- <-]|[Hne He']]; [|by apply Hold].
    split_and!; [done|done|]. destruct (parent_entry_id e) as [p|] eqn:Hpe.
    + destruct (Hp p eq_refl) as [pe Hpe']. destruct (Hold _ _ Hpe') as (_ & _ & path & Hr).
      exists (path ++ [e]). eapply rooted_child; [apply lookup_insert_eq|done|done].
    + exists [e]. apply rooted_root; [apply lookup_insert_eq|done].
  - intros thread' id Hl. destruct (tree_leaf _ Hwf thread' id Hl) as (m & x & Hm & Hx).
    destruct (decide (thread' = thread)) as [->|Hne].
    + exists (<[entry_id e := e]> (thread_entries s thread)).
      rewrite (thread_entries_lookup _ _ _ Hm). exists x. split.
      * unfold insert_entry. simpl. rewrite lookup_insert_eq, Hm. done.
      * rewrite lookup_insert_ne; [done|].
        rewrite (thread_entries_lookup _ _ _ Hm) in Hf. congruence.
    + exists m, x. split; [|done]. unfold insert_entry. simpl. by rewrite lookup_insert_ne.
  - apply (tree_base s Hwf).
  - apply (tree_child s Hwf).
Qed.

Lemma set_active_leaf_trees thread leaf s :
  (forall id, leaf = Some id -> is_Some (thread_entries s thread !! id)) ->
  trees_wf s -> trees_wf (set_active_leaf thread leaf s).
Proof.
  intros Hl Hwf. split; [apply (tree_entry s Hwf)| |apply (tree_base s Hwf)|apply (tree_child s Hwf)].
  intros thread' id Hid. unfold set_active_leaf in Hid |- *. simpl in *.
  destruct leaf as [l|].
  - apply lookup_insert_Some in Hid as [[<- <-]|[_ Hid]]; [|by apply (tree_leaf s Hwf)].
    destruct (Hl l eq_refl) as [e He]. exists (thread_entries s thread), e. split; [|done].
    by eapply thread_entries_some.
  - apply lookup_delete_Some in Hid as [_ Hid]. by apply (tree_leaf s Hwf).
Qed.

Lemma set_bases_delete_trees thread s :
  trees_wf s -> trees_wf (set_bases (delete thread) s).
Proof.
  intros Hwf. split; [apply (tree_entry s Hwf)|apply (tree_leaf s Hwf)| |]; simpl.
  - intros t. destruct (tree_base s Hwf t) as [l Hl]. by eapply base_chain_delete.
  - intros t base [_ Hb]%lookup_delete_Some. by apply (tree_child s Hwf).
Qed.

Lemma fork_trees base l s :
  base_chain (bases s) (parent_thread_id base) l -> child_thread_id base ∉ l ->
  trees_wf s ->
  trees_wf (set_bases (<[child_thread_id base := base]>)
    (set_active_leaf (child_thread_id base) None s)).
Proof.
  intros Hl Hn Hwf. assert (trees_wf (set_active_leaf (child_thread_id base) None s)) as Hwf'
    by by apply set_active_leaf_trees.
  split; [apply (tree_entry _ Hwf')|apply (tree_leaf _ Hwf')| |]; simpl.
  - intros t. destruct (tree_base s Hwf t) as [lt Hlt]. by eapply base_chain_insert.
  - intros t base' [[<- <-]|[_ Hb]]%lookup_insert_Some; [done|by apply (tree_child s Hwf)].
Qed.

(** ** Turns and their journal *)

Definition turns_wf (s : Inner) : Prop :=
  forall thread id1 e1 id2 e2 turn,
    thread_entries s thread !! id1 = Some e1 -> thread_entries s thread !! id2 = Some e2 ->
    turn_id e1 = Some turn -> turn_id e2 = Some turn -> id1 = id2.

Lemma insert_entry_turns thread e s :
  (forall id e' turn, thread_entries s thread !! id = Some e' -> turn_id e = Some turn ->
     turn_id e' <> Some turn) ->
  turns_wf s -> turns_wf (insert_entry thread e s).
Proof.
  intros Hn Hwf thread' id1 e1 id2 e2 turn. rewrite thread_entries_insert.
  destruct (decide (thread' = thread)) as [->|]; [|apply Hwf].
  intros [[<- <-]|[? H1]]%lookup_insert_Some [[<- <-]|[? H2]]%lookup_insert_Some T1 T2.
  - done.
  - by destruct (Hn _ _ _ H2 T1).
  - by destruct (Hn _ _ _ H1 T2).
  - by apply (Hwf thread id1 e1 id2 e2 turn).
Qed.

(** The event that journals an entry is on the stream of the entry's thread. *)
Definition journaled (s : Inner) (e : SessionEntry) : Prop :=
  exists ev, ev ∈ stream_events s (for_thread (entry_coordinates e)) /\
    kind ev = SessionEntryAppended /\ coordinates ev = entry_coordinates e /\
    payload ev = session_entry_payload e.

Definition entries_journaled (s : Inner) : Prop :=
  forall thread id e, thread_entries s thread !! id = Some e -> journaled s e.

Lemma journaled_mono s s' e :
  (forall stream, stream_events s stream `prefix_of` stream_events s' stream) ->
  journaled s e -> journaled s' e.
Proof.
  intros Hp (ev & Hev & ?). exists ev. split; [|done].
  destruct (Hp (for_thread (entry_coordinates e))) as [k ->]. set_solver.
Qed.

Lemma insert_entry_journaled thread e s :
  journaled s e -> entries_journaled s -> entries_journaled (insert_entry thread e s).
Proof.
  intros He Hs thread' id e'. rewrite thread_entries_insert.
  destruct (decide (thread' = thread)) as [->|]; [|apply Hs].
  intros [[_ <-]|[_ H']]%lookup_insert_Some; [done|by apply (Hs _ _ _ H')].
Qed.

(** ** The invariant *)

Record store_wf (s : Inner) : Prop := {
  wf_journal : journal_wf s;
  wf_trees : trees_wf s;
  wf_turns : turns_wf s;
  wf_journaled : entries_journaled s;
  wf_minimums stream m : lease_epoch_minimums s !! stream = Some m -> (0 < m)%Z;
}.

Lemma store_wf_empty : store_wf inner_empty.
Proof. split; [apply journal_wf_empty | apply trees_wf_empty | done | done | done]. Qed.

(** A change that touches neither the entries nor the journal keeps the rest. *)
Lemma store_wf_trees s s' :
  entries s' = entries s -> events s' = events s -> event_ids s' = event_ids s ->
  lease_epoch_minimums s' = lease_epoch_minimums s -> trees_wf s' -> store_wf s -> store_wf s'.
Proof.
  intros He Hev Hids Hmin Ht [H1 H2 H3 H4 H5].
  assert (forall t, thread_entries s' t = thread_entries s t) as Hte
    by (intros t; unfold thread_entries; by rewrite He).
  split; [by eapply journal_wf_frame|done| | |by rewrite Hmin].
  - intros t id1 e1 id2 e2 turn. rewrite Hte. apply H3.
  - intros t id e. rewrite Hte. intros Hin. unfold journaled, stream_events. rewrite Hev.
    by apply (H4 t id).
Qed.

Lemma committed_wf stream records epoch s :
  accepts s records -> store_wf s -> store_wf (committed stream records epoch s).
Proof.
  intros Ha [H1 H2 H3 H4 H5]. destruct (committed_frame stream records epoch s) as (He & Hl & Hb).
  assert (forall t, thread_entries (committed stream records epoch s) t = thread_entries s t)
    as Hte by (intros t; unfold thread_entries; by rewrite He).
  split; [by apply committed_journal_wf|by eapply trees_wf_frame| | |].
  - intros t id1 e1 id2 e2 turn. rewrite Hte. apply H3.
  - intros t id e. rewrite Hte. intros Hin. eapply journaled_mono; [|by apply (H4 t id)].
    apply committed_extends.
  - intros stream' m. rewrite committed_minimums, raise_minimum.
    destruct (decide _) as [[-> Hp]|]; [|apply H5]. intros [= <-].
    destruct (lease_epoch_minimums s !! stream); lia.
Qed.

Lemma insert_entry_wf thread e s :
  thread_entries s thread !! entry_id e = None -> parent_in s thread (parent_entry_id e) ->
  thread_id (entry_coordinates e) = thread -> journaled s e ->
  (forall id e' turn, thread_entries s thread !! id = Some e' -> turn_id e = Some turn ->
     turn_id e' <> Some turn) ->
  store_wf s -> store_wf (insert_entry thread e s).
Proof.
  intros Hf Hp Ht Hj Hturn [H1 H2 H3 H4 H5]. split; [|by apply insert_entry_trees|
    by apply insert_entry_turns|by apply insert_entry_journaled|done].
  by apply (journal_wf_frame s).
Qed.

Lemma new_entries_journaled c parent es records s epoch :
  new_entries s c parent es records ->
  Forall (journaled (committed (for_thread c) records epoch s)) es.
Proof.
  intros Hnew. apply Forall_lookup. intros i e He.
  destruct (Forall2_lookup_l _ _ _ _ _ (new_journal _ _ _ _ _ Hnew) He) as (r & Hr & Hk & Hc & Hp).
  pose proof (Forall_lookup_1 _ _ _ _ (new_at _ _ _ _ _ Hnew) He) as Hat. simpl in Hat.
  exists (from_new (for_thread c) (Z.of_nat (length (stream_events s (for_thread c))) +
    Z.of_nat i + 1) r). split_and!; [|done|by rewrite Hat|done].
  rewrite Hat, stream_events_committed, decide_True by done. apply elem_of_app. right.
  apply list_elem_of_lookup. exists i. unfold appended, numbered. by rewrite list_lookup_imap, Hr.
Qed.

Lemma thread_entries_committed stream records epoch s t :
  thread_entries (committed stream records epoch s) t = thread_entries s t.
Proof. unfold thread_entries. by rewrite (proj1 (committed_frame _ _ _ _)). Qed.

(** Storing the entries a batch of events was just committed for. *)
Lemma store_all_wf c parent es records s epoch :
  new_entries s c parent es records -> parent_in s (thread_id c) parent ->
  accepts s records -> store_wf s ->
  store_wf (store_all (thread_id c) es (committed (for_thread c) records epoch s)).
Proof.
  intros Hnew Hparent Ha Hwf. set (s1 := committed (for_thread c) records epoch s).
  assert (store_wf s1) as Hwf1 by by apply committed_wf.
  assert (parent_in s1 (thread_id c) parent) as Hp1.
  { intros p Hp. unfold s1. rewrite thread_entries_committed. by apply Hparent. }
  assert (Forall (fun e => thread_entries s1 (thread_id c) !! entry_id e = None) es) as Hf1.
  { eapply Forall_impl; [apply (new_fresh _ _ _ _ _ Hnew)|]. intros e. simpl. unfold s1.
    by rewrite thread_entries_committed. }
  pose proof (new_entries_journaled _ _ _ _ _ epoch Hnew) as Hj. fold s1 in Hj.
  pose proof (new_at _ _ _ _ _ Hnew) as Hat.
  destruct (new_turns _ _ _ _ _ Hnew) as [Hnone|(e & turn & -> & Hturn & Hfind)].
  - rewrite Forall_forall in Hj, Hat, Hnone.
    apply (store_all_ind (thread_id c) (fun s' => store_wf s' /\
      forall st, stream_events s' st = stream_events s1 st) parent es s1); try done.
    + apply (new_chained _ _ _ _ _ Hnew).
    + apply (new_ids _ _ _ _ _ Hnew).
    + intros s0 e He Hf Hp [Hw Hst]. split; [|done].
      apply insert_entry_wf; try done; [by rewrite (Hat e)| |].
      * eapply journaled_mono; [|by apply (Hj e)]. intros st. by rewrite Hst.
      * intros id e' turn _. by rewrite (Hnone e He).
  - rewrite Forall_singleton in Hj, Hat, Hf1.
    pose proof (new_chained _ _ _ _ _ Hnew) as [Hpar _].
    apply insert_entry_wf; try done; [by rewrite Hpar|by rewrite Hat|].
    intros id e' turn' He' [= <-]%(eq_trans (eq_sym Hturn)). unfold s1 in He'.
    rewrite thread_entries_committed in He'. pose proof (thread_entries_some _ _ _ _ He') as Hm.
    by eapply find_turn_none.
Qed.

Lemma last_stored c parent es records s epoch :
  new_entries s c parent es records ->
  forall id, entry_id <$> last es = Some id ->
  is_Some (thread_entries (store_all (thread_id c) es (committed (for_thread c) records epoch s))
    (thread_id c) !! id).
Proof.
  intros Hnew id Hl. apply fmap_Some in Hl as (e & He & ->).
  apply last_Some in He as [es' ->]. unfold store_all. rewrite fold_left_app. simpl.
  rewrite thread_entries_insert, decide_True by done. rewrite lookup_insert_eq. done.
Qed.

Lemma store_all_frame thread es s :
  bases (store_all thread es s) = bases s /\ active_leaves (store_all thread es s) = active_leaves s
  /\ events (store_all thread es s) = events s /\ event_ids (store_all thread es s) = event_ids s
  /\ lease_epoch_minimums (store_all thread es s) = lease_epoch_minimums s.
Proof. unfold store_all. revert s. induction es as [|e es IH]; intros s; simpl; [done|].
  apply (IH (insert_entry thread e s)).
Qed.

Lemma store_all_bases thread es f s :
  store_all thread es (set_bases f s) = set_bases f (store_all thread es s).
Proof. unfold store_all. revert s. induction es as [|e es IH]; intros s; simpl; [done|]. by rewrite <- IH. Qed.

Lemma commit_wf epoch s stream s' : commit epoch s stream s' -> store_wf s -> store_wf s'.
Proof.
  intros Hc Hwf. pose proof (wf_trees _ Hwf) as Ht.
  destruct Hc as [stream records Hl Ha|c parent es records removed Hl Ha Hnew Hpar
    |c leaf records m path Hl Ha Hleaf|thread|base l Hl Hn|f].
  - by apply committed_wf.
  - assert (parent_in s (thread_id c) parent) as Hp.
    { destruct Hpar as [->|]; [|done]. intros p Hp. destruct (tree_leaf _ Ht _ _ Hp) as (m & e & Hm & He).
      rewrite (thread_entries_lookup _ _ _ Hm). by eexists. }
    pose proof (store_all_wf c parent es records s epoch Hnew Hp Ha Hwf) as Hall.
    unfold attach. rewrite store_all_bases.
    eapply store_wf_trees; [..|apply Hall]; try done. apply set_active_leaf_trees.
    + intros id Hid. by eapply last_stored.
    + destruct removed; [by apply set_bases_delete_trees, wf_trees|].
      eapply trees_wf_frame; [..|apply wf_trees, Hall]; done.
  - assert (store_wf (committed (for_thread c) records epoch s)) as Hc by by apply committed_wf.
    eapply store_wf_trees; [..|apply Hc]; try done. apply set_active_leaf_trees; [|apply Hc].
    intros id Hid. destruct (Hleaf id Hid) as [Hm Hr].
    rewrite thread_entries_committed, (thread_entries_lookup _ _ _ Hm).
    destruct (rooted_last _ _ _ Hr) as (e & _ & ->). by eexists.
  - eapply store_wf_trees; [..|apply Hwf]; try done.
    apply set_active_leaf_trees; [done|]. by apply set_bases_delete_trees.
  - eapply store_wf_trees; [..|apply Hwf]; try done. by eapply fork_trees.
  - eapply store_wf_trees; [..|apply Hwf]; try done. by apply (trees_wf_frame s).
Qed.

Lemma store_all_extends thread es s :
  NoDup (entry_id <$> es) ->
  Forall (fun e => thread_entries s thread !! entry_id e = None) es ->
  extends s (store_all thread es s).
Proof.
  revert s. induction es as [|e es IH]; intros s; [done|].
  intros [He Hn]%NoDup_cons [Hf Hfs]%Forall_cons.
  trans (insert_entry thread e s); [by apply insert_entry_extends|].
  apply IH; [done|]. by apply fresh_after_insert.
Qed.

(** States that agree on what [extends] reads. *)
Lemma extends_frame s s1 s2 :
  entries s2 = entries s1 -> events s2 = events s1 ->
  lease_epoch_minimums s2 = lease_epoch_minimums s1 -> extends s s1 -> extends s s2.
Proof.
  intros He Hev Hm [H1 H2 H3]. unfold stream_events, thread_entries in *.
  split; unfold stream_events, thread_entries; [by rewrite Hev|by rewrite He|by rewrite Hm].
Qed.

Lemma commit_extends epoch s stream s' : commit epoch s stream s' -> extends s s'.
Proof.
  intros Hc. destruct Hc as [stream records Hl Ha|c parent es records removed Hl Ha Hnew Hpar
    |c leaf records m path Hl Ha Hleaf|thread|base l Hl Hn|f].
  - apply committed_extends.
  - set (s1 := committed (for_thread c) records epoch s).
    apply (extends_frame _ (store_all (thread_id c) es s1));
      [unfold attach; by rewrite store_all_bases ..|].
    trans s1; [apply committed_extends|]. apply store_all_extends.
    + apply (new_ids _ _ _ _ _ Hnew).
    + eapply Forall_impl; [apply (new_fresh _ _ _ _ _ Hnew)|]. intros e. simpl.
      unfold s1. by rewrite thread_entries_committed.
  - eapply extends_frame; [..|apply committed_extends]; done.
  - eapply (extends_frame s s); done.
  - eapply (extends_frame s s); done.
  - eapply (extends_frame s s); done.
Qed.
End Inv.
