(* ===== verification/StoreProps.v ===== *)
(** * Properties of the in-memory store

    The theorems about [InMemorySessionStore], over every state its operations
    can reach, with examples that evaluate them. *)

From stdpp Require Import base gmap sets list strings pretty relations.
From Stdlib Require Import ZArith Lia.
From S2P Require Import Prelude Json Schema SchemaFacts EventKind EventSchemas Contracts Records Session Store Journal Branches StoreOps.
From S2P Require Import StoreInv.

Local Open Scope string_scope.
Local Open Scope list_scope.

(** ** Reachable stores *)

Section Reach.
Context `{UuidText}.

Inductive step (s s' : Inner) : Prop :=
  | step_run epoch o r : op_fresh s o -> run epoch o s = Some (s', r) -> step s s'.

Definition reachable (s : Inner) : Prop := rtc step inner_empty s.

Lemma step_cases s s' : step s s' -> s' = s \/ exists epoch stream, commit epoch s stream s'.
Proof.
  intros [epoch o [[]|e] Hf Hrun].
  - apply run_commit in Hrun as [?|?]; [by left|right; eauto|done].
  - left. by eapply run_err.
Qed.

Lemma step_wf s s' : step s s' -> store_wf s -> store_wf s'.
Proof. intros [->|(? & ? & Hc)]%step_cases; [done|]. by eapply commit_wf. Qed.

Lemma step_extends s s' : step s s' -> extends s s'.
Proof. intros [->|(? & ? & Hc)]%step_cases; [done|]. by eapply commit_extends. Qed.

Lemma steps_wf s s' : rtc step s s' -> store_wf s -> store_wf s'.
Proof. induction 1; [done|]. eauto using step_wf. Qed.

Lemma steps_extends s s' : rtc step s s' -> extends s s'.
Proof.
  induction 1 as [s|s1 s2 s3 Hstep _ IH]; [done|]. trans s2; [|done]. by apply step_extends.
Qed.

Lemma reachable_wf s : reachable s -> store_wf s.
Proof. intros Hr. eapply steps_wf; [exact Hr|]. apply store_wf_empty. Qed.

Lemma reachable_step s s' : reachable s -> rtc step s s' -> reachable s'.
Proof. intros H1 H2. unfold reachable. by trans s. Qed.

(** ** Every call returns *)

Lemma select_branch_returns epoch d c leaf s :
  trees_wf s -> is_Some (select_branch epoch d c leaf s).
Proof.
  intros Hwf. unfold select_branch. destruct leaf as [leaf|]; [|by eexists].
  destruct (entries s !! thread_id c) as [m|] eqn:Hm; [|by eexists].
  destruct (branch_path_returns s _ m leaf c Hwf Hm) as [r ->]. by eexists.
Qed.

Lemma clone_branch_returns epoch draws source leaf target s :
  trees_wf s -> is_Some (clone_branch epoch draws source leaf target s).
Proof.
  intros Hwf. unfold clone_branch. destruct leaf as [leaf|]; [|by eexists].
  destruct (entries s !! thread_id source) as [m|] eqn:Hm; [|by eexists].
  destruct (branch_path_returns s _ m leaf source Hwf Hm) as [r ->]. by eexists.
Qed.

Lemma fork_returns source target base s :
  trees_wf s -> is_Some (fork_by_reference source target base s).
Proof.
  intros Hwf. unfold fork_by_reference. destruct (validate_thread_base_ref _ _ _); [|by eexists].
  destruct (base_cycle_returns s (thread_id target) (thread_id source)) as [r ->].
  cbn [mbind option_bind]. destruct r; [|by eexists]. destruct (parent_leaf_entry_id base) as [leaf|]; [|by eexists].
  destruct (build_context_returns s source (Some leaf) Hwf) as (r & -> & _). by eexists.
Qed.

Lemma run_returns epoch o s : trees_wf s -> is_Some (run epoch o s).
Proof.
  intros Hwf. destruct o as [d c parent kind [prov|]| |d c leaf|draws source leaf target
    |source target base| | | ]; simpl; try by eexists.
  - by apply select_branch_returns.
  - rewrite fmap_is_Some. by apply clone_branch_returns.
  - by apply fork_returns.
Qed.

(** ** Reading a dense stream *)

Lemma tail_of_drop {A} n (l : list A) : tail (drop n l) = drop (S n) l.
Proof. revert l. induction n as [|n IH]; intros [|x l]; simpl; try done. Qed.

Lemma dense_filter (l : list EventRecord) (start from : Z) :
  (forall i e, l !! i = Some e -> sequence e = (start + Z.of_nat i)%Z) ->
  filter (fun e => (from <=? sequence e)%Z = true) l = drop (Z.to_nat (from - start)) l.
Proof.
  revert start. induction l as [|e l IH]; intros start Hl; [by rewrite drop_nil|].
  assert (sequence e = start) as He by (rewrite (Hl 0%nat e) by done; lia).
  assert (forall i e', l !! i = Some e' -> sequence e' = (start + 1 + Z.of_nat i)%Z) as Hl'.
  { intros i e' Hi. rewrite (Hl (S i) e') by done. lia. }
  rewrite filter_cons. case_decide as Hc; to_prop.
  - rewrite (IH (start + 1)%Z) by done.
    replace (Z.to_nat (from - (start + 1))) with 0%nat by lia.
    by replace (Z.to_nat (from - start)) with 0%nat by lia.
  - assert (start < from)%Z by (rewrite <- He; apply not_true_iff_false in Hc; to_prop; lia).
    rewrite (IH (start + 1)%Z) by done.
    by replace (Z.to_nat (from - start)) with (S (Z.to_nat (from - (start + 1)))) by lia.
Qed.

Lemma read_from s stream from :
  journal_wf s -> read_events s stream (Some from) =
  Ok (drop (Z.to_nat (from - 1)) (stream_events s stream)).
Proof.
  intros Hwf. unfold read_events. f_equal. apply dense_filter.
  intros i e Hi. destruct (journal_numbered _ Hwf _ _ _ Hi) as [-> _]. lia.
Qed.

Lemma read_all s stream : read_events s stream None = Ok (stream_events s stream).
Proof. unfold read_events. f_equal. apply list_filter_all. by apply Forall_forall. Qed.

(** ** The context of a fork *)

(** Results that show the same entries and messages. *)
Definition same_context (o o' : option (HistoryResult SessionContext)) : Prop :=
  match o, o' with
  | None, None => True
  | Some (Err e), Some (Err e') => e = e'
  | Some (Ok a), Some (Ok b) =>
      context_entries a = context_entries b /\ context_messages a = context_messages b
  | _, _ => False
  end.

Lemma assemble_entries es cuts :
  context_entries (assemble_context es cuts) =
    filter (fun e => entry_id e ∉ identity_entry_ids es) es /\
  context_messages (assemble_context es cuts) =
    append_model_visible_messages (filter (fun e => entry_id e ∉ identity_entry_ids es) es) [].
Proof.
  unfold assemble_context. rewrite <- (strip_entries es cuts).
  by destruct (strip_thread_start_identity_entries es cuts).
Qed.

(** [local_context] reads the same path under both stores, whatever it marks as inherited. *)
Lemma local_context_agree s s' c leaf i i' :
  entries s' = entries s -> active_leaves s' !! thread_id c = active_leaves s !! thread_id c ->
  result_map fst <$> local_context s' c leaf i' = result_map fst <$> local_context s c leaf i.
Proof.
  intros He Ha. unfold local_context. rewrite He, Ha.
  destruct (match leaf with Some l => Some l | None => _ end) as [l|]; [|done].
  destruct (entries s !! thread_id c) as [m|]; [|done].
  by destruct (branch_path m l c) as [[p|e]|].
Qed.

Lemma build_context_agree s s' c l leaf i i' visiting visiting' fuel fuel' :
  base_chain (bases s) (thread_id c) l ->
  (forall t, t ∈ l -> t ∉ visiting /\ t ∉ visiting') ->
  (length l <= fuel)%nat -> (length l <= fuel')%nat ->
  entries s' = entries s ->
  (forall t, t ∈ l -> active_leaves s' !! t = active_leaves s !! t /\
     bases s' !! t = bases s !! t) ->
  same_context (build_in_memory_context fuel s c leaf i visiting)
    (build_in_memory_context fuel' s' c leaf i' visiting').
Proof.
  intros Hc. remember (thread_id c) as t eqn:Ht.
  revert c Ht leaf i i' visiting visiting' fuel fuel'.
  induction Hc as [t Hb|t base l Hb Hc IH];
    intros c -> leaf i i' visiting visiting' fuel fuel' Hv Hf Hf' He Hag;
    destruct fuel as [|fuel], fuel' as [|fuel']; simpl in Hf, Hf'; try lia.
  all: rewrite !build_context_level by (apply Hv; left).
  all: destruct (Hag (thread_id c)) as [Ha ->]; [left|]; rewrite Hb.
  all: pose proof (local_context_agree s s' c leaf i i' He Ha) as Hlocal.
  - cbn [mbind option_bind].
    destruct (local_context s c leaf i) as [[[p cu]|e]|],
      (local_context s' c leaf i') as [[[p' cu']|e']|]; simpl in *; simplify_eq; try done.
    rewrite !(proj1 (assemble_entries _ _)), !(proj2 (assemble_entries _ _)). done.
  - destruct (negb _); [done|].
    assert (NoDup (thread_id c :: l)) as [Hnt _]%NoDup_cons.
    { eapply base_chain_nodup. by econstructor. }
    assert (same_context
      (build_in_memory_context fuel s (coordinates_with_thread_id c (parent_thread_id base))
        (parent_leaf_entry_id base) true ({[thread_id c]} ∪ visiting))
      (build_in_memory_context fuel' s' (coordinates_with_thread_id c (parent_thread_id base))
        (parent_leaf_entry_id base) true ({[thread_id c]} ∪ visiting'))) as Hsame.
    { apply IH; try done; try lia; [|intros t Ht; apply Hag; by right].
      intros t Ht. destruct (Hv t) as [? ?]; [by right|].
      assert (t <> thread_id c) by (intros ->; done). set_solver. }
    destruct (build_in_memory_context fuel _ _ _ _ _) as [[a|e]|],
      (build_in_memory_context fuel' _ _ _ _ _) as [[b|e']|]; simpl in Hsame; try done.
    destruct Hsame as [Hab _]. cbn [mbind option_bind fmap option_fmap option_map result_map].
    destruct (local_context s c leaf i) as [[[p cu]|e]|],
      (local_context s' c leaf i') as [[[p' cu']|e']|]; simpl in *; simplify_eq; try done.
    rewrite !(proj1 (assemble_entries _ _)), !(proj2 (assemble_entries _ _)). by rewrite Hab.
Qed.

(** The context of a thread with a base and no entry of its own is its base's. *)
Lemma no_identity_filter es :
  Forall (fun e => session_entry_is_thread_start_identity e = false) es ->
  filter (fun e => entry_id e ∉ identity_entry_ids es) es = es.
Proof.
  intros Hall. apply list_filter_all. apply Forall_forall. intros e _.
  unfold identity_entry_ids. rewrite elem_of_list_to_set.
  intros (x & _ & [Hx Hin]%list_elem_of_filter)%list_elem_of_fmap.
  rewrite Forall_forall in Hall. by rewrite (Hall x Hin) in Hx.
Qed.
End Reach.

(** ** Theorems *)

Section Theorems.
Context `{UuidText}.


(** C39 - A call that fails leaves the store as it was, whichever operation, branch and epoch. *)
Theorem store_errors_are_atomic epoch o s s' e : run epoch o s = Some (s', Err e) -> s' = s.
Proof. apply run_err. Qed.

(** The store is append-only: whatever operations follow, every stream keeps its events
    as a prefix, every stored entry stays as it was, and no lease minimum is lowered. *)
Theorem store_append_only s s' : rtc step s s' -> extends s s'.
Proof. apply steps_extends. Qed.

(** No call ever hangs: on every reachable store each operation returns, and so does a
    context build, which moreover never meets a base cycle. *)
Theorem store_calls_return s :
  reachable s ->
  (forall epoch o, is_Some (run epoch o s)) /\
  (forall c, exists r, build_context s c = Some r /\ forall x y, r <> Err (ThreadBaseCycle x y)).
Proof.
  intros Hr%reachable_wf. pose proof (wf_trees _ Hr) as Ht.
  split; [intros; by apply run_returns|]. intros c. by apply build_context_returns.
Qed.

Lemma later_length s1 s2 stream :
  rtc step s1 s2 -> (length (stream_events s1 stream) <= length (stream_events s2 stream))%nat.
Proof. intros Hs. by apply prefix_length, extends_stream, steps_extends. Qed.

(** A fenced append commits the whole batch, and only when the fence names the next
    sequence, the lease is current and every record is acceptable; it then extends this stream
    with the batch and nothing else. *)
Theorem fenced_append_spec epoch stream n records s s' es :
  append_events_fenced epoch stream n records s = (s', Ok es) <->
  leased s stream epoch /\ n = (Z.of_nat (length (stream_events s stream)) + 1)%Z /\
  accepts s records /\ es = appended s stream records /\ s' = committed stream records epoch s.
Proof.
  split.
  - unfold append_events_fenced. intros Hrun. st_inv.
    destruct (Z.eqb_spec (Z.of_nat (length (stream_events s stream)) + 1) n) as [<-|Hne];
      simpl in *; st_inv; [|done].
    invert_append. split_and!; try done. by eapply leased_ok.
  - intros (Hl & -> & Ha & -> & ->). unfold append_events_fenced, st_bind, st_get, st_lift.
    unfold leased in Hl. rewrite Hl, Z.eqb_refl. simpl. by apply append_in_memory_ok.
Qed.

(** Two writers that fence on the same sequence cannot both commit: once one has
    appended, the other is refused in every later state, without any effect. *)
Theorem fenced_append_exclusive epoch stream n records s s1 es s2 epoch' records' :
  append_events_fenced epoch stream n records s = (s1, Ok es) -> records <> [] ->
  rtc step s1 s2 ->
  exists e, append_events_fenced epoch' stream n records' s2 = (s2, Err e) /\
    ((exists m, e = StaleLeaseEpoch stream epoch' m) \/
     exists next, e = AppendFenceConflict stream n next /\ (n < next)%Z).
Proof.
  intros (_ & Hn & _ & _ & Hs1)%fenced_append_spec Hne Hsteps.
  apply (later_length _ _ stream) in Hsteps.
  rewrite Hs1, stream_events_committed, decide_True, length_app in Hsteps by done.
  assert (length (appended s stream records) = length records) as Hlen
    by (unfold appended, numbered; apply length_imap).
  assert (0 < length records)%nat by (destruct records; [done|simpl; lia]).
  unfold append_events_fenced, st_bind, st_get, st_lift. unfold check_in_memory_lease_epoch.
  destruct (lease_epoch_minimums s2 !! stream) as [m|]; [destruct (epoch' <? m)%Z; [by eauto|]|].
  all: destruct (Z.eqb_spec (Z.of_nat (length (stream_events s2 stream)) + 1) n);
    [lia|simpl; eexists; split; [done|right; eexists; split; [done|lia]]].
Qed.

(** Once a lease epoch has committed to a stream, no call through a handle with a lower
    epoch ever writes that stream or the thread behind it again, and a plain append through
    such a handle reports the stale epoch. *)
Theorem stale_lease_is_fenced epoch stream records s s1 es s2 epoch' :
  append_events epoch stream records s = (s1, Ok es) -> (0 <= epoch' < epoch)%Z ->
  rtc step s1 s2 ->
  (forall o r s3, op_fresh s2 o -> op_stream o = Some stream ->
     run epoch' o s2 = Some (s3, r) -> s3 = s2) /\
  exists m, (epoch <= m)%Z /\
    append_events epoch' stream records s2 = (s2, Err (StaleLeaseEpoch stream epoch' m)).
Proof.
  unfold append_events at 1. intros Hrun Hlt Hsteps. st_inv. invert_append.
  assert (exists m, lease_epoch_minimums s2 !! stream = Some m /\ (epoch <= m)%Z) as (m & Hm & Hle).
  { apply steps_extends in Hsteps as [_ _ Hmin].
    assert (exists m0, lease_epoch_minimums (committed stream records epoch s) !! stream = Some m0
      /\ (epoch <= m0)%Z) as (m0 & Hm0 & ?).
    { rewrite committed_minimums, raise_minimum, decide_True by (split; [done|lia]).
      eexists. split; [done|]. destruct (lease_epoch_minimums s !! stream); lia. }
    apply Hmin in Hm0 as (m1 & ? & ?). exists m1. split; [done|lia]. }
  assert (check_in_memory_lease_epoch s2 stream epoch' = Err (StaleLeaseEpoch stream epoch' m))
    as Hstale.
  { unfold check_in_memory_lease_epoch. rewrite Hm. destruct (Z.ltb_spec epoch' m); [done|lia]. }
  split.
  - intros o [[]|e] s3 Hf Ho Hr; [|by eapply run_err].
    apply run_commit in Hr as [?|Hc]; [done| |done]. rewrite Ho in Hc.
    inversion Hc; subst; unfold leased in *; congruence.
  - exists m. split; [done|]. unfold append_events, st_bind, st_get, st_lift. by rewrite Hstale.
Qed.

(** Resuming from a cursor returns exactly the events after it: on a reachable store the
    read succeeds just when the cursor names an event of that stream by both sequence and id,
    and then yields the rest of the stream, none skipped and none repeated. *)
Theorem read_after_cursor_spec s stream cursor es :
  reachable s ->
  read_events_after_cursor s stream cursor = Ok es <->
  cursor_schema cursor = STREAM_CURSOR_SCHEMA_V1 /\ cursor_stream_id cursor = stream /\
  exists i e, cursor_sequence cursor = Z.of_nat (S i) /\
    stream_events s stream !! i = Some e /\ event_id e = cursor_event_id cursor /\
    es = drop (S i) (stream_events s stream).
Proof.
  intros Hwf%reachable_wf%wf_journal. unfold read_events_after_cursor.
  rewrite check_ok, validate_stream_cursor_spec, (read_from s stream _ Hwf).
  destruct (String.eqb_spec (cursor_stream_id cursor) stream) as [Hs|Hs]; simpl; [|naive_solver].
  set (l := stream_events s stream). set (from := cursor_sequence cursor).
  assert (forall i e, l !! i = Some e -> sequence e = Z.of_nat (S i)) as Hseq.
  { intros i e Hi. by destruct (journal_numbered _ Hwf _ _ _ Hi). }
  destruct (decide (1 <= from)%Z) as [Hpos|Hpos].
  - rewrite head_lookup, lookup_drop, Nat.add_0_r.
    assert (from = Z.of_nat (S (Z.to_nat (from - 1)))) as Hfrom by lia.
    destruct (l !! Z.to_nat (from - 1)) as [e|] eqn:He; simpl.
    + rewrite (Hseq _ _ He), <- Hfrom, Z.eqb_refl. simpl.
      destruct (N.eqb_spec (event_id e) (cursor_event_id cursor)) as [Hid|Hid]; simpl.
      * split.
        -- intros [[Hsc _] [= <-]]. split_and!; [done|done|]. exists (Z.to_nat (from - 1)), e.
           split_and!; try done. by rewrite tail_of_drop.
        -- intros (Hsc & _ & i & e' & Hi & He' & _ & ->). split; [done|]. f_equal.
           rewrite tail_of_drop. f_equal. lia.
      * split; [naive_solver|]. intros (_ & _ & i & e' & Hi & He' & Hid' & _).
        replace (Z.to_nat (from - 1)) with i in He by lia. simplify_eq.
    + split; [naive_solver|]. intros (_ & _ & i & e' & Hi & He' & _).
      replace (Z.to_nat (from - 1)) with i in He by lia. simplify_eq.
  - split; [intros [[_ ?] _]; lia|]. intros (_ & _ & i & e & Hi & _). lia.
Qed.

(** A context never shows another owner's history: whatever is stored and whatever bases
    connect the threads, every entry and every source cut of a context belongs to the tenant,
    user and session that asked, no entry is a thread-start identity, and the messages are
    exactly what those entries make visible. *)
Theorem build_context_isolated s c context :
  build_context s c = Some (Ok context) ->
  Forall (fun e => scope (entry_coordinates e) = scope c) (context_entries context) /\
  Forall (fun cut => scope (cut_coordinates cut) = scope c) (context_source_cuts context) /\
  Forall (fun e => session_entry_is_thread_start_identity e = false) (context_entries context) /\
  context_messages context = append_model_visible_messages (context_entries context) [].
Proof. apply build_context_ok. Qed.

Lemma find_turn_unique s c turn id e :
  store_wf s -> thread_entries s (thread_id c) !! id = Some e -> turn_id e = Some turn ->
  find_turn s (thread_id c) turn = Some e.
Proof.
  intros Hwf He Ht. destruct (find_turn s (thread_id c) turn) as [e'|] eqn:Hf.
  - apply find_turn_some in Hf as (m & id' & Hm & He' & Ht').
    rewrite <- (thread_entries_lookup _ _ _ Hm) in He'.
    rewrite (wf_turns _ Hwf _ _ _ _ _ _ He He' Ht Ht') in He. by simplify_eq.
  - exfalso. eapply find_turn_none; [done| |exact He|done]. by eapply thread_entries_some.
Qed.

Lemma thread_entries_active thread leaf s t :
  thread_entries (set_active_leaf thread leaf s) t = thread_entries s t.
Proof. done. Qed.

(** What [append_turn_input] returned is stored, for those coordinates and that turn. *)
Lemma append_turn_input_stored epoch d c turn kind s s1 e :
  store_wf s -> append_turn_input epoch d c turn kind s = (s1, Ok e) ->
  exists id, thread_entries s1 (thread_id c) !! id = Some e /\ turn_id e = Some turn /\
    entry_coordinates e = c.
Proof.
  intros Hwf Hrun. unfold append_turn_input in Hrun. st_inv.
  destruct (find_turn s (thread_id c) turn) as [existing|] eqn:Hturn; st_inv.
  - destruct (negb _); st_inv; [done|].
    apply find_turn_some in Hturn as (m & id & Hm & He & Ht). exists id.
    rewrite (thread_entries_lookup _ _ _ Hm). split_and!; [done|done|].
    by match goal with H : validate_entry_coordinates _ _ = Ok ?u |- _ =>
      destruct u; apply entry_coordinates_ok in H end.
  - invert_append. eexists. split_and!; [|done|done].
    rewrite thread_entries_active, thread_entries_insert, decide_True by done.
    apply lookup_insert_eq.
Qed.

(** A turn's input is persisted exactly once: after a turn's input was accepted, replaying
    the turn id in any later state, through any handle, writes nothing and returns the original
    entry when the input matches and fails closed when it does not. *)
Theorem append_turn_input_replay epoch d c turn kind s s1 e s2 epoch' d' kind' :
  reachable s -> op_fresh s (OpTurnInput d c turn kind) ->
  append_turn_input epoch d c turn kind s = (s1, Ok e) -> rtc step s1 s2 ->
  append_turn_input epoch' d' c turn kind' s2 =
    (s2, if turn_input_kinds_match (entry_kind e) kind' then Ok e
         else Err (Storage (TurnInputMismatch turn))).
Proof.
  intros Hr Hf Hrun Hsteps. assert (rtc step s s1) as Hs1.
  { apply rtc_once. apply (step_run _ _ epoch (OpTurnInput d c turn kind) (Ok tt)); [done|].
    simpl. by rewrite Hrun. }
  pose proof (reachable_wf _ Hr) as Hwf.
  assert (store_wf s2) as Hwf2 by (eapply reachable_wf, reachable_step; [|done]; by eapply reachable_step).
  destruct (append_turn_input_stored _ _ _ _ _ _ _ _ Hwf Hrun) as (id & He & Ht & Hc).
  assert (thread_entries s2 (thread_id c) !! id = Some e) as He2.
  { eapply lookup_weaken; [done|]. by apply extends_entries, steps_extends. }
  unfold append_turn_input, st_bind, st_get, st_lift.
  rewrite (find_turn_unique _ _ _ _ _ Hwf2 He2 Ht).
  rewrite (proj2 (entry_coordinates_ok c e) Hc).
  by destruct (turn_input_kinds_match (entry_kind e) kind').
Qed.

(** A fork by reference is exactly its base: right after forking from a leaf, the new
    thread's context shows the same entries and messages as the source read at that leaf. *)
Theorem fork_shows_base source target base leaf s s' :
  reachable s -> parent_leaf_entry_id base = Some leaf ->
  fork_by_reference source target base s = Some (s', Ok tt) ->
  exists a b,
    build_in_memory_context (context_fuel s) s source (Some leaf) false ∅ = Some (Ok a) /\
    build_context s' target = Some (Ok b) /\
    context_entries b = context_entries a /\ context_messages b = context_messages a.
Proof.
  intros Hwf%reachable_wf%wf_trees Hleaf. unfold fork_by_reference.
  destruct (validate_thread_base_ref source target base) as [[]|] eqn:Hv; [|done].
  apply validate_base_ok in Hv as (Hscope & Hp & Hc & _).
  intros ([[]|] & Hcycle & Hrun)%bind_Some; [|done].
  apply bind_Some in Hrun as (leaf_check & Hcheck & [= Hrun]). rewrite Hleaf in Hcheck. st_inv.
  subst leaf_check. apply fmap_Some in Hcheck as ([ctx|] & Ha & Heq); [clear Heq|done].
  apply base_cycle_ok in Hcycle as (l & Hl & Hn). exists ctx.
  set (s' := set_bases _ _).
  assert (bases s' !! thread_id target = Some base) as Hbase by (simpl; apply lookup_insert_eq).
  assert (coordinates_with_thread_id target (parent_thread_id base) = source) as Hsrc.
  { unfold coordinates_with_thread_id. apply coordinates_eq; [|done]. rewrite Hscope. done. }
  assert (same_context (build_in_memory_context (context_fuel s) s source (Some leaf) false ∅)
    (build_in_memory_context (S (size (bases s'))) s' source (Some leaf) true
      ({[thread_id target]} ∪ ∅))) as Hsame.
  { apply (build_context_agree _ _ _ l); try done.
    - intros t Ht. assert (t <> thread_id target) by (intros ->; done). set_solver.
    - pose proof (base_chain_length _ _ _ Hl). unfold context_fuel. lia.
    - pose proof (base_chain_length _ _ _ Hl). simpl.
      assert (size (bases s) <= size (<[thread_id target:=base]> (bases s)))%nat; [|lia].
      rewrite map_size_insert. destruct (bases s !! thread_id target); simpl; lia.
    - intros t Ht. assert (t <> thread_id target) by (intros ->; done).
      split; simpl; [by rewrite lookup_delete_ne | by rewrite lookup_insert_ne]. }
  enough (exists b, build_context s' target = Some (Ok b) /\
    context_entries b = context_entries ctx /\ context_messages b = context_messages ctx)
    as (b & Hb) by by exists b.
  rewrite Ha in Hsame. unfold build_context, context_fuel. rewrite build_context_level by set_solver.
  rewrite Hbase, Hc, N.eqb_refl, Hsrc, Hleaf. cbn [negb].
  destruct (build_in_memory_context _ s' source _ _ _) as [[b'|e]|]; simpl in Hsame; try done.
  destruct Hsame as [Hes Hmsgs]. cbn [fmap option_fmap option_map result_map mbind option_bind].
  assert (local_context s' target None false = Some (Ok ([], []))) as ->.
  { unfold local_context. simpl. by rewrite lookup_delete_eq. }
  eexists. split; [done|].
  destruct (build_context_ok _ _ _ _ _ _ _ Ha) as (_ & _ & Hid & Hvis).
  rewrite (proj1 (assemble_entries _ _)), (proj2 (assemble_entries _ _)), app_nil_r, <- Hes.
  by rewrite no_identity_filter.
Qed.

(** Entries stored as a chain on top of a path make the path that continues it. *)
Lemma store_all_rooted thread parent prior es e s :
  match parent with
  | None => prior = []
  | Some p => rooted (thread_entries s thread) p prior
  end ->
  chained parent es -> NoDup (entry_id <$> es) ->
  Forall (fun e => thread_entries s thread !! entry_id e = None) es -> last es = Some e ->
  rooted (thread_entries (store_all thread es s) thread) (entry_id e) (prior ++ es).
Proof.
  revert parent prior s. induction es as [|x es IH]; intros parent prior s Hprior; [done|].
  intros [Hp Hc] [Hx Hn]%NoDup_cons [Hf Hfs]%Forall_cons Hlast.
  assert (rooted (thread_entries (insert_entry thread x s) thread) (entry_id x) (prior ++ [x]))
    as Hr.
  { rewrite thread_entries_insert, decide_True by done. destruct parent as [p|].
    - eapply rooted_child; [apply lookup_insert_eq|done|]. by apply rooted_insert.
    - rewrite Hprior. by apply rooted_root; [apply lookup_insert_eq|]. }
  destruct es as [|y es]; [by injection Hlast as <-|].
  rewrite (cons_middle x prior). rewrite app_assoc.
  apply (IH (Some (entry_id x)) (prior ++ [x]) (insert_entry thread x s)); try done.
  by apply fresh_after_insert.
Qed.

(** An appended entry continues the branch it names: the new leaf's path is the parent's
    path (the active branch's when none is named) followed by the entry, the entry becomes the
    active leaf, and the thread's stream grows by exactly the event that journals it. *)
Theorem append_extends_branch epoch d c parent kind prov s s1 e :
  reachable s -> op_fresh s (OpAppend d c parent kind prov) ->
  append_inner epoch d c parent kind prov s = (s1, Ok e) ->
  entry_coordinates e = c /\ entry_kind e = kind /\
  active_leaves s1 !! thread_id c = Some (entry_id e) /\
  (exists prior, rooted (thread_entries s1 (thread_id c)) (entry_id e) (prior ++ [e]) /\
     match parent_entry_id e with
     | None => prior = []
     | Some p => rooted (thread_entries s (thread_id c)) p prior
     end /\
     parent_entry_id e = match parent with Some p => Some p | None => active_leaves s !! thread_id c
                         end) /\
  exists ev, stream_events s1 (for_thread c) = stream_events s (for_thread c) ++ [ev] /\
    Records.kind ev = SessionEntryAppended /\
    payload ev = session_entry_payload e.
Proof.
  intros Hwf%reachable_wf%wf_trees Hf Hrun. unfold append_inner in Hrun. st_inv.
  rename a0 into p. invert_append.
  assert (p = match parent with Some p => Some p | None => active_leaves s !! thread_id c end)
    as Hpar.
  { unfold resolve_parent in *. destruct parent; [|congruence].
    by simplify_result. }
  assert (forall x, p = Some x -> exists prior, rooted (thread_entries s (thread_id c)) x prior)
    as Hrooted.
  { intros x ->. match goal with H : resolve_parent _ _ _ = _ |- _ =>
      apply resolve_parent_ok in H as [Hx|Hx] end.
    - symmetry in Hx. destruct (tree_leaf _ Hwf _ _ Hx) as (m & y & Hm & Hy).
      destruct (tree_entry _ Hwf _ _ _ _ Hm Hy) as (_ & _ & Hp).
      by rewrite (thread_entries_lookup _ _ _ Hm).
    - destruct (Hx x eq_refl) as [y Hy]. pose proof (thread_entries_some _ _ _ _ Hy) as Hm.
      by destruct (tree_entry _ Hwf _ _ _ _ Hm Hy) as (_ & _ & Hp). }
  set (e := entry_new (draw_entry_id d) (draw_entry_ms d) c p kind) in *.
  set (r := session_entry_event_with_optional_provenance _ _ e prov) in *.
  split_and!; [done|done|apply lookup_insert_eq| |].
  - assert (exists prior, match p with None => prior = []
      | Some x => rooted (thread_entries s (thread_id c)) x prior end) as [prior Hprior].
    { destruct p as [x|]; [by apply Hrooted|by eexists]. }
    exists prior. split_and!; [|done|done].
    apply (store_all_rooted (thread_id c) p prior [e] e); try done.
    + destruct p; [by rewrite thread_entries_committed|done].
    + apply NoDup_singleton.
    + apply Forall_singleton. by rewrite thread_entries_committed.
  - exists (from_new (for_thread c) (Z.of_nat (length (stream_events s (for_thread c))) + 0 + 1)%Z r).
    destruct (entry_event_facts (draw_event_id d) (draw_event_ms d) e prov) as (Hk & _ & Hpl & _).
    split_and!; [|exact Hk|exact Hpl].
    transitivity (stream_events (committed (for_thread c) [r] epoch s) (for_thread c)); [done|].
    by rewrite stream_events_committed, decide_True by done.
Qed.

Lemma clone_entries_kinds draws i target parent path :
  entry_kind <$> clone_entries draws i target parent path = entry_kind <$> path.
Proof.
  revert i parent. induction path as [|x path IH]; intros i parent; simpl; [done|].
  f_equal. apply IH.
Qed.

(** A cloned branch is a full copy: its path holds the source path's contents in order
    under the target's coordinates, it is the target's active branch, and the target no longer
    has a base. *)
Theorem clone_branch_copies epoch draws source leaf target s s1 id :
  op_fresh s (OpClone draws source (Some leaf) target) ->
  clone_branch epoch draws source (Some leaf) target s = Some (s1, Ok (Some id)) ->
  exists path copy,
    rooted (thread_entries s (thread_id source)) leaf path /\
    Forall (fun e => entry_coordinates e = source) path /\
    rooted (thread_entries s1 (thread_id target)) id copy /\
    entry_kind <$> copy = entry_kind <$> path /\
    Forall (fun e => entry_coordinates e = target) copy /\
    active_leaves s1 !! thread_id target = Some id /\ bases s1 !! thread_id target = None.
Proof.
  intros Hf. unfold clone_branch. intros (checked & Hc & Hrun)%bind_Some.
  apply (inj Some) in Hrun. st_inv. subst checked. invert_append. rename a into path.
  destruct (entries s !! thread_id source) as [m|] eqn:Hm; [|by simplify_eq].
  apply branch_path_ok in Hc as [Hp Hat]. pose proof (rooted_not_nil _ _ _ Hp) as Hne.
  set (es := clone_entries draws 0 target None path) in *.
  assert (new_entries s target None es (clone_events draws es)) as Hnew
    by by apply clone_new_entries.
  destruct (last es) as [e|] eqn:Hlast; [|done].
  match goal with H : Some id = _ |- _ => injection H as -> end.
  exists path, es. rewrite (thread_entries_lookup _ _ _ Hm).
  split_and!; [done|done| |apply clone_entries_kinds|apply (new_at _ _ _ _ _ Hnew)| |].
  - cbn [fmap option_fmap option_map]. rewrite thread_entries_active.
    fold (store_all (thread_id target) es (set_bases (delete (thread_id target))
      (committed (for_thread target) (clone_events draws es) epoch s))).
    apply (store_all_rooted (thread_id target) None [] es e _); [done|
      apply (new_chained _ _ _ _ _ Hnew)|apply (new_ids _ _ _ _ _ Hnew)| |done].
    eapply Forall_impl; [apply (new_fresh _ _ _ _ _ Hnew)|]. intros x Hx.
    by rewrite <- (thread_entries_committed (for_thread target) (clone_events draws es) epoch s) in Hx.
  - apply lookup_insert_eq.
  - cbn [fmap option_fmap option_map]. unfold set_active_leaf, set_active_leaves. cbn [bases].
    change (bases (store_all (thread_id target) es (set_bases (delete (thread_id target))
      (committed (for_thread target) (clone_events draws es) epoch s))) !! thread_id target = None).
    rewrite store_all_bases. apply lookup_delete_eq.
Qed.
End Theorems.

(** ** Examples *)

Module Sample.
#[local] Existing Instance decimal_uuid_text.

Definition me : ThreadCoordinates := sample_coordinates 7.
Definition other : ThreadCoordinates := sample_coordinates 9.
Definition event (id : EventRecordId) : NewEventRecord :=
  witnessed id 5 me ThreadBranchSelected (JObject []).
Definition draw (n : N) : Draw := mk_draw n 5 (100 + n) 5.
Definition hello : SessionEntryKind := Message (user_text_at "hello" 1).
Definition hello_later : SessionEntryKind := Message (user_text_at "hello" 2).

(** A stream with two events, appended at lease epoch 3. *)
Definition two : Inner := (append_events 3 "control:7" [event 1; event 2] inner_empty).1.

(** A thread with one turn input. *)
Definition spoken : Inner := (append_turn_input 0 (draw 1) me "t1" hello inner_empty).1.

Definition base_ref : ThreadBaseRef :=
  mk_base 9 7 None (Some 1%N) "thread:7" None None Manual 6.

Lemma two_reachable : reachable two.
Proof.
  apply rtc_once. apply (step_run _ _ 3 (OpAppendEvents "control:7" [event 1; event 2]) (Ok tt));
    [exact I | vm_compute; reflexivity].
Defined.

Lemma spoken_reachable : reachable spoken.
Proof.
  apply rtc_once. apply (step_run _ _ 0 (OpTurnInput (draw 1) me "t1" hello) (Ok tt));
    [reflexivity | vm_compute; reflexivity].
Defined.


Lemma store_errors_are_atomic_witness :
  exists s', run 3 (OpAppendEvents "control:7" [event 1]) two = Some (s', Err (DuplicateEventId 1))
    /\ s' = two.
Proof.
  assert (exists s', run 3 (OpAppendEvents "control:7" [event 1]) two =
    Some (s', Err (DuplicateEventId 1))) as [s' Hrun] by (eexists; vm_compute; reflexivity).
  exists s'. split; [exact Hrun | apply (store_errors_are_atomic _ _ _ _ _ Hrun)].
Defined.

Lemma store_append_only_witness : extends inner_empty two.
Proof. apply store_append_only. apply two_reachable. Defined.

Lemma store_calls_return_witness : is_Some (run 0 (OpSelect (draw 4) me (Some 1%N)) spoken).
Proof. apply (proj1 (store_calls_return spoken spoken_reachable)). Defined.

Lemma fenced_append_exclusive_witness :
  let first := append_events_fenced 0 "control:7" 1 [event 1] inner_empty in
  exists e, append_events_fenced 0 "control:7" 1 [event 2] first.1 = (first.1, Err e) /\
    ((exists m, e = StaleLeaseEpoch "control:7" 0 m) \/
     exists next, e = AppendFenceConflict "control:7" 1 next /\ (1 < next)%Z).
Proof.
  intros first.
  apply (fenced_append_exclusive 0 "control:7" 1 [event 1] inner_empty first.1
    (appended inner_empty "control:7" [event 1])); [vm_compute; reflexivity | discriminate
    | apply rtc_refl].
Defined.

Lemma stale_lease_is_fenced_witness :
  exists m, (3 <= m)%Z /\
    append_events 2 "control:7" [event 9] two = (two, Err (StaleLeaseEpoch "control:7" 2 m)).
Proof.
  refine (proj2 (stale_lease_is_fenced 3 "control:7" [event 1; event 2] inner_empty two
    (appended inner_empty "control:7" [event 1; event 2]) two 2 _ _ _)).
  - vm_compute. reflexivity.
  - lia.
  - apply rtc_refl.
Defined.

Lemma read_after_cursor_spec_witness :
  read_events_after_cursor two "control:7" (cursor_new "control:7" 1 1) =
    Ok [from_new "control:7" 2 (event 2)].
Proof.
  apply (read_after_cursor_spec two "control:7"); [apply two_reachable|].
  split; [reflexivity|]. split; [reflexivity|].
  exists 0%nat, (from_new "control:7" 1 (event 1)). repeat split.
Defined.

Lemma build_context_isolated_witness :
  exists context, build_context spoken me = Some (Ok context) /\
    Forall (fun e => scope (entry_coordinates e) = scope me) (context_entries context) /\
    length (context_messages context) = 1%nat.
Proof.
  assert (exists context, build_context spoken me = Some (Ok context) /\
    length (context_messages context) = 1%nat) as (context & Hc & Hl).
  { eexists. split; [vm_compute; reflexivity | reflexivity]. }
  exists context. split; [exact Hc|]. split; [apply (build_context_isolated _ _ _ Hc) | exact Hl].
Defined.

Lemma append_turn_input_replay_witness :
  append_turn_input 0 (draw 2) me "t1" hello_later spoken =
    (spoken, Ok (entry_for_turn 1 5 me None "t1" hello)).
Proof.
  apply (append_turn_input_replay 0 (draw 1) me "t1" hello inner_empty spoken
    (entry_for_turn 1 5 me None "t1" hello) spoken 0 (draw 2) hello_later).
  - apply rtc_refl.
  - reflexivity.
  - vm_compute. reflexivity.
  - apply rtc_refl.
Defined.

Lemma fork_shows_base_witness :
  exists s' a b, fork_by_reference me other base_ref spoken = Some (s', Ok tt) /\
    build_in_memory_context (context_fuel spoken) spoken me (Some 1%N) false ∅ = Some (Ok a) /\
    build_context s' other = Some (Ok b) /\
    context_entries b = context_entries a /\ context_messages b = context_messages a.
Proof.
  assert (exists s', fork_by_reference me other base_ref spoken = Some (s', Ok tt)) as [s' Hs'].
  { eexists. vm_compute. reflexivity. }
  destruct (fork_shows_base me other base_ref 1 spoken s' spoken_reachable eq_refl Hs')
    as (a & b & Hab).
  exists s', a, b. split; [exact Hs' | exact Hab].
Defined.

Lemma append_extends_branch_witness :
  exists s1 e, append_inner 0 (draw 2) me None hello None spoken = (s1, Ok e) /\
    active_leaves s1 !! thread_id me = Some (entry_id e).
Proof.
  assert (exists s1 e, append_inner 0 (draw 2) me None hello None spoken = (s1, Ok e))
    as (s1 & e & Hrun).
  { eexists _, _. vm_compute. reflexivity. }
  exists s1, e. split; [exact Hrun|].
  apply (append_extends_branch 0 (draw 2) me None hello None spoken s1 e spoken_reachable eq_refl
    Hrun).
Defined.

Lemma clone_branch_copies_witness :
  exists s1 id, clone_branch 0 (fun i => draw (10 + N.of_nat i)) me (Some 1%N) other spoken =
      Some (s1, Ok (Some id)) /\
    bases s1 !! thread_id other = None.
Proof.
  assert (exists s1 id, clone_branch 0 (fun i => draw (10 + N.of_nat i)) me (Some 1%N) other spoken
    = Some (s1, Ok (Some id))) as (s1 & id & Hrun).
  { eexists _, _. vm_compute. reflexivity. }
  exists s1, id. split; [exact Hrun|].
  edestruct (clone_branch_copies 0 (fun i => draw (10 + N.of_nat i)) me 1 other spoken s1 id)
    as (path & copy & H); [|exact Hrun|apply H].
  split; [reflexivity|]. intros i j Hij. simpl in Hij. lia.
Defined.
End Sample.
