(* ===== verification/EventLog.v ===== *)
(** * The event store interface

    What the kernel relies on in an [EventStore]: reading a stream, and
    appending under a fence.  The laws are stated over the events a store holds
    and discharged for the in-memory store.  The unfenced append, [EventAppend], and
    its laws follow. *)

From stdpp Require Import base gmap sets list strings pretty relations.
From Stdlib Require Import ZArith Lia.
From S2P Require Import Prelude Json Schema SchemaFacts EventKind EventSchemas Contracts Records Store Journal Branches StoreOps StoreInv.
From S2P Require Import StoreProps.

Local Open Scope verlet_scope.
Local Open Scope list_scope.

(** [trait EventStore], as far as the decisions of the kernel use it. *)
Class EventStore (S : Type) := {
  log_append_fenced : EventStreamId -> EventSequence -> list NewEventRecord -> S ->
    S * HistoryResult (list EventRecord);
  log_read : S -> EventStreamId -> option EventSequence -> HistoryResult (list EventRecord);
}.

(** What an implementation promises about the events [log_events] it holds in a [log_valid]
    state. *)
Class EventStoreLaws (S : Type) `{EventStore S} := {
  log_valid : S -> Prop;
  log_events : S -> EventStreamId -> list EventRecord;
  log_numbered s stream i e : log_valid s -> log_events s stream !! i = Some e ->
    sequence e = Z.of_nat (Datatypes.S i) /\ stream_id e = stream;
  log_ids_unique s stream e1 e2 : log_valid s -> e1 ∈ log_events s stream ->
    e2 ∈ log_events s stream -> event_id e1 = event_id e2 -> e1 = e2;
  log_read_all s stream : log_valid s -> log_read s stream None = Ok (log_events s stream);
  log_read_from s stream from : log_valid s ->
    log_read s stream (Some from) = Ok (drop (Z.to_nat (from - 1)) (log_events s stream));
  log_append_ok s s' stream n records es : log_valid s ->
    log_append_fenced stream n records s = (s', Ok es) ->
    log_valid s' /\ n = Z.of_nat (Datatypes.S (length (log_events s stream))) /\
    es = numbered stream (Z.of_nat (length (log_events s stream))) records /\
    log_events s' stream = log_events s stream ++ es /\
    (forall other, other <> stream -> log_events s' other = log_events s other);
  log_append_err s s' stream n records e : log_valid s ->
    log_append_fenced stream n records s = (s', Err e) ->
    log_valid s' /\ forall other, log_events s' other = log_events s other;
  log_append_conflict s s' stream n records conflicted expected actual : log_valid s ->
    log_append_fenced stream n records s =
      (s', Err (AppendFenceConflict conflicted expected actual)) ->
    actual = Z.of_nat (Datatypes.S (length (log_events s stream))) /\ n <> actual;
}.

(** The record an event was appended as. *)
Definition as_new (e : EventRecord) : NewEventRecord :=
  mk_new_event (event_id e) (coordinates e) (created_at_ms e) (kind e) (origin e) (provenance e)
    (payload e).

(** What an implementation promises to accept, as long as the epoch the handle presents is not
    stale for the stream. *)
Class EventStoreProgress (S : Type) `{EventStoreLaws S} := {
  log_open : S -> EventStreamId -> Prop;
  log_admissible s stream e : log_valid s -> e ∈ log_events s stream -> admissible (as_new e);
  log_append_accepts s stream records : log_valid s -> log_open s stream ->
    Forall admissible records -> NoDup (new_id <$> records) ->
    (forall r, r ∈ records -> forall other e, e ∈ log_events s other -> event_id e <> new_id r) ->
    exists s' es, log_open s' stream /\
      log_append_fenced stream (Z.of_nat (Datatypes.S (length (log_events s stream)))) records s =
        (s', Ok es);
  log_append_refuses s stream n records :
    let next := Z.of_nat (Datatypes.S (length (log_events s stream))) in
    log_valid s -> log_open s stream -> n <> next ->
    log_append_fenced stream n records s = (s, Err (AppendFenceConflict stream n next));
}.

(** [EventStore::read_events_after_cursor], the default body of the trait. *)
Definition log_read_after_cursor `{UuidText} {S} `{EventStore S} (s : S) (stream : EventStreamId)
    (cursor : StreamCursorV1) : HistoryResult (list EventRecord) :=
  validate_stream_cursor_v1 cursor ;;?
  if negb (String.eqb (cursor_stream_id cursor) stream)
  then Err (StreamCursorStreamMismatch (cursor_stream_id cursor) stream)
  else
    read <-? log_read s stream (Some (cursor_sequence cursor)) ;;
    let current := head read in
    let matches_cursor :=
      is_some_and current (fun e =>
        (sequence e =? cursor_sequence cursor)%Z && (event_id e =? cursor_event_id cursor)%N) in
    if negb matches_cursor
    then Err (StreamCursorMismatch stream (cursor_sequence cursor) (cursor_event_id cursor)
                (sequence <$> current) (event_id <$> current))
    else Ok (tail read).

(** A cursor reads exactly what follows the event it names, for every lawful store. *)
Lemma log_read_after_cursor_ok `{UuidText} {S} `{EventStoreLaws S} (s : S) stream cursor es :
  log_valid s ->
  log_read_after_cursor s stream cursor = Ok es <->
  cursor_schema cursor = STREAM_CURSOR_SCHEMA_V1 /\ cursor_stream_id cursor = stream /\
  exists i e, cursor_sequence cursor = Z.of_nat (Datatypes.S i) /\
    log_events s stream !! i = Some e /\ event_id e = cursor_event_id cursor /\
    es = drop (Datatypes.S i) (log_events s stream).
Proof.
  intros Hv. unfold log_read_after_cursor. rewrite check_ok, validate_stream_cursor_spec.
  destruct (String.eqb_spec (cursor_stream_id cursor) stream) as [Hs|Hs]; simpl; [|naive_solver].
  rewrite (log_read_from s stream _ Hv). simpl.
  set (l := log_events s stream). set (from := cursor_sequence cursor).
  assert (forall i e, l !! i = Some e -> sequence e = Z.of_nat (Datatypes.S i)) as Hseq
    by (intros i e Hi; by destruct (log_numbered _ _ _ _ Hv Hi)).
  rewrite head_lookup, lookup_drop, Nat.add_0_r. split.
  - intros [[Hsc Hpos] Hm]. destruct (l !! Z.to_nat (from - 1)) as [e|] eqn:He; simpl in Hm; [|done].
    destruct (negb _) eqn:Hn; [done|]. to_prop. injection Hm as <-.
    split_and!; try done. exists (Z.to_nat (from - 1)), e.
    rewrite tail_of_drop. split_and!; try done. lia.
  - intros (Hsc & _ & i & e & Hi & He & Hid & ->). fold from in Hi.
    replace (Z.to_nat (from - 1)) with i by lia. split; [split; [done|lia]|].
    rewrite He. simpl. rewrite (Hseq _ _ He), Hid, N.eqb_refl. fold from. rewrite Hi, Z.eqb_refl.
    simpl. by rewrite tail_of_drop.
Qed.

(** ** The in-memory store *)

Section InMemory.
Context `{UuidText}.

Lemma append_in_memory_not_fence stream records epoch s s' e :
  append_in_memory_events stream records epoch s = (s', Err e) ->
  forall st n a, e <> AppendFenceConflict st n a.
Proof.
  unfold append_in_memory_events. intros Hrun. st_inv; intros st n a ->.
  - clear -Hlift. revert Hlift. generalize (∅ : gset EventRecordId).
    induction records as [|r records IH]; intros ids; simpl; [done|].
    unfold admit_new_event at 1, validate_new_event.
    destruct (_ && _); simpl; [done|]. destruct (_ || _); [done|]. apply IH.
  - apply collect_err in Hlift0 as ((i & r) & _ & Hn). unfold number_event in Hn. simpl in Hn.
    unfold validate_stream_record_v1, schema_codec in Hn.
    destruct (validate _ _ _); simpl in Hn; [|done].
    case_bool_decide; simpl in Hn; [|done]. by destruct (validate _ _ _).
Qed.

(** An append leaves the stream open to the handle that made it. *)
Lemma committed_open stream records epoch s :
  check_in_memory_lease_epoch s stream epoch = Ok tt ->
  check_in_memory_lease_epoch (committed stream records epoch s) stream epoch = Ok tt.
Proof.
  unfold check_in_memory_lease_epoch, committed, raise_in_memory_lease_epoch. cbn.
  destruct (Z.ltb_spec 0 epoch) as [Hp|Hp]; simpl; [|done]. rewrite lookup_insert_eq.
  destruct (lease_epoch_minimums s !! stream) as [m|]; simpl.
  - destruct (Z.ltb_spec epoch m); [done|]. intros _.
    by rewrite (proj2 (Z.ltb_ge _ _)) by lia.
  - intros _. by rewrite Z.ltb_irrefl.
Qed.

(** A handle: the shared state, seen through the epoch the handle presents. *)
Record Handle : Type := mk_handle { handle_inner : Inner; handle_epoch : Z }.

#[export] Instance in_memory_store : EventStore Handle := {|
  log_append_fenced stream n records h :=
    let (s, r) := append_events_fenced (handle_epoch h) stream n records (handle_inner h) in
    (mk_handle s (handle_epoch h), r);
  log_read h := read_events (handle_inner h);
|}.

#[export, program] Instance in_memory_laws : EventStoreLaws Handle := {|
  log_valid h := journal_wf (handle_inner h);
  log_events h := stream_events (handle_inner h);
|}.
Next Obligation. intros h stream i e Hv Hi. by apply (journal_numbered _ Hv). Qed.
Next Obligation.
  intros h stream e1 e2 Hv (i & Hi)%list_elem_of_lookup (j & Hj)%list_elem_of_lookup Heq.
  destruct (journal_unique _ Hv _ _ _ _ _ _ Hi Hj Heq) as [_ <-]. congruence.
Qed.
Next Obligation. intros h stream _. apply read_all. Qed.
Next Obligation. intros h stream from Hv. by apply read_from. Qed.
Next Obligation.
  intros [s epoch] h' stream n records es Hv. cbn -[append_events_fenced].
  destruct (append_events_fenced epoch stream n records s) as [s1 [es1|e]] eqn:Hrun;
    cbn -[append_events_fenced]; intros Heq; [injection Heq as <- <-|done].
  unfold append_events_fenced in Hrun. st_inv.
  destruct (Z.eqb_spec (Z.of_nat (length (stream_events s stream)) + 1) n) as [<-|Hne];
    simpl in *; st_inv; [|done]. invert_append.
split_and!; [by apply committed_journal_wf|lia|done| |].
  - by rewrite stream_events_committed, decide_True.
  - intros other Hne. by rewrite stream_events_committed, decide_False, app_nil_r.
Qed.
Next Obligation.
  intros [s epoch] h' stream n records e Hv. cbn -[append_events_fenced].
  destruct (append_events_fenced epoch stream n records s) as [s1 [es1|e1]] eqn:Hrun;
    cbn -[append_events_fenced]; intros Heq; [done|injection Heq as <- <-].
  apply append_events_fenced_err in Hrun as ->. done.
Qed.
Next Obligation.
  intros [s epoch] h' stream n records conflicted expected actual Hv.
  cbn -[append_events_fenced].
  destruct (append_events_fenced epoch stream n records s) as [s1 [es1|e1]] eqn:Hrun;
    cbn -[append_events_fenced]; intros Heq; [done|injection Heq as <- ->].
  unfold append_events_fenced in Hrun. st_inv.
  - unfold check_in_memory_lease_epoch in *. repeat case_match; simplify_eq.
  - destruct (Z.eqb_spec (Z.of_nat (length (stream_events s stream)) + 1) n) as [<-|Hne];
      simpl in *; st_inv; [|simplify_eq; lia].
    by destruct (append_in_memory_not_fence _ _ _ _ _ _ Hrun conflicted expected actual).
Qed.

#[export, program] Instance in_memory_progress : EventStoreProgress Handle := {|
  log_open h stream :=
    check_in_memory_lease_epoch (handle_inner h) stream (handle_epoch h) = Ok tt;
|}.
Next Obligation.
  intros h stream e Hv He. destruct (journal_checked _ Hv stream e He) as [Hc Hp].
  apply validate_stream_record_spec in Hc as [? ?]. by split_and!.
Qed.
Next Obligation.
  intros [s epoch] stream records Hv Hopen Ha Hnd Hf. cbn in Hopen.
  assert (accepts s records) as Hacc.
  { split; [done|done|]. intros r Hr (st & e & He & Hid)%(journal_ids _ Hv). by apply (Hf r Hr st e). }
  exists (mk_handle (committed stream records epoch s) epoch), (appended s stream records).
  split; [by apply committed_open|]. cbn -[append_events_fenced].
  assert (append_events_fenced epoch stream (Z.of_nat (Datatypes.S (length (stream_events s stream))))
    records s = (committed stream records epoch s, Ok (appended s stream records))) as Hrun;
    [|by rewrite Hrun].
  unfold append_events_fenced, st_bind at 1 2, st_get, st_lift. rewrite Hopen.
  rewrite (proj2 (Z.eqb_eq _ _)) by lia. simpl. by apply append_in_memory_ok.
Qed.
Next Obligation.
  intros [s epoch] stream n records next Hv Hopen Hne. cbn in Hopen. cbn -[append_events_fenced].
  assert (append_events_fenced epoch stream n records s =
    (s, Err (AppendFenceConflict stream n next))) as Hrun; [|by rewrite Hrun].
  unfold append_events_fenced, st_bind at 1 2, st_get, st_lift. rewrite Hopen. simpl in next.
  rewrite (proj2 (Z.eqb_neq _ _)) by lia. simpl. unfold next. do 3 f_equal. lia.
Qed.
End InMemory.

(** * Appending without a fence

    [EventStore::append_events] of [crates/verlet-history/src/lib.rs], the
    append of the kernel's own writers: it extends a stream at whatever its tail
    is.  The class and its laws extend the interface of [EventLog]; the
    in-memory store discharges them. *)

Class EventAppend (S : Type) := {
  log_append : EventStreamId -> list NewEventRecord -> S -> S * HistoryResult (list EventRecord);
}.

(** What an append of the store does to the events it holds. *)
Class EventAppendLaws (S : Type) `{EventStoreLaws S} `{EventAppend S} := {
  log_extended s s' stream records es : log_valid s ->
    log_append stream records s = (s', Ok es) ->
    log_valid s' /\
    es = numbered stream (Z.of_nat (length (log_events s stream))) records /\
    log_events s' stream = log_events s stream ++ es /\
    (forall other, other <> stream -> log_events s' other = log_events s other);
  log_unextended s s' stream records e : log_valid s ->
    log_append stream records s = (s', Err e) ->
    log_valid s' /\ forall other, log_events s' other = log_events s other;
}.

(** A batch of admissible records with fresh ids is accepted by a store the handle may write. *)
Class EventAppendProgress (S : Type) `{EventStoreProgress S} `{EventAppend S} := {
  log_extends s stream records : log_valid s -> log_open s stream ->
    Forall admissible records -> NoDup (new_id <$> records) ->
    (forall r, r ∈ records -> forall other e, e ∈ log_events s other -> event_id e <> new_id r) ->
    exists s' es, log_open s' stream /\ log_append stream records s = (s', Ok es);
}.

Section Single.
Context {S : Type} `{EventAppendLaws S}.

(** The append of one record, the only use the kernel's control writers make of it. *)
Lemma log_extended_one (s s' : S) stream r es :
  log_valid s -> log_append stream [r] s = (s', Ok es) ->
  let e := from_new stream (Z.of_nat (Datatypes.S (length (log_events s stream)))) r in
  log_valid s' /\ es = [e] /\ log_events s' stream = log_events s stream ++ [e] /\
  (forall other, other <> stream -> log_events s' other = log_events s other).
Proof.
  intros Hv Hrun. destruct (log_extended _ _ _ _ _ Hv Hrun) as (Hv' & -> & He & Ho).
  assert (numbered stream (Z.of_nat (length (log_events s stream))) [r] =
    [from_new stream (Z.of_nat (Datatypes.S (length (log_events s stream)))) r]) as Hn.
  { unfold numbered. simpl. do 2 f_equal. lia. }
  rewrite Hn in *. by split_and!.
Qed.
End Single.

(** ** The journal between two states *)

Section Journal.
Context {S : Type} `{EventAppendLaws S}.

(** The events [es] were added to the journal, each at the end of its stream, and nothing else. *)
Definition journal_plus (s : S) (es : list EventRecord) (s' : S) : Prop :=
  log_valid s' /\
  forall stream, log_events s' stream =
    log_events s stream ++ List.filter (fun e => String.eqb (stream_id e) stream) es.

Lemma journal_plus_nil s : log_valid s -> journal_plus s [] s.
Proof. intros Hv. split; [done|]. intros stream. by rewrite app_nil_r. Qed.

Lemma journal_plus_app s s1 s2 es1 es2 :
  journal_plus s es1 s1 -> journal_plus s1 es2 s2 -> journal_plus s (es1 ++ es2) s2.
Proof.
  intros [_ Hone] [Hv Htwo]. split; [done|]. intros stream.
  by rewrite Htwo, Hone, List.filter_app, <- app_assoc.
Qed.

Lemma filter_same_stream stream (es : list EventRecord) :
  Forall (fun e => stream_id e = stream) es ->
  List.filter (fun e => String.eqb (stream_id e) stream) es = es.
Proof. induction 1 as [|e es He _ IH]; [done|]. simpl. rewrite He, String.eqb_refl. by f_equal. Qed.

Lemma filter_other_stream stream other (es : list EventRecord) :
  Forall (fun e => stream_id e = stream) es -> other <> stream ->
  List.filter (fun e => String.eqb (stream_id e) other) es = [].
Proof.
  induction 1 as [|e es He _ IH]; intros Hne; [done|]. simpl. rewrite He.
  rewrite (proj2 (String.eqb_neq _ _)) by done. by apply IH.
Qed.

(** The events a record is appended as. *)
Definition appended_as (stream : EventStreamId) (r : NewEventRecord) (e : EventRecord) : Prop :=
  exists n, e = from_new stream n r.

Lemma numbered_as stream start records :
  Forall2 (appended_as stream) records (numbered stream start records).
Proof.
  apply Forall2_same_length_lookup. unfold numbered. split; [by rewrite length_imap|].
  intros i r e Hr He. rewrite list_lookup_imap, Hr in He. injection He as <-. by eexists.
Qed.

Lemma appended_as_stream stream records es :
  Forall2 (appended_as stream) records es -> Forall (fun e => stream_id e = stream) es.
Proof. induction 1 as [|r e records es (n & ->) _ IH]; by constructor. Qed.

Lemma log_append_plus (s s' : S) stream records es :
  log_valid s -> log_append stream records s = (s', Ok es) ->
  journal_plus s es s' /\ Forall2 (appended_as stream) records es.
Proof.
  intros Hv Hrun. destruct (log_extended _ _ _ _ _ Hv Hrun) as (Hv' & -> & He & Ho).
  pose proof (numbered_as stream (Z.of_nat (length (log_events s stream))) records) as Hnum.
  split; [|done]. split; [done|]. intros other. destruct (String.eqb_spec other stream) as [->|Hne].
  - by rewrite filter_same_stream by (by eapply appended_as_stream).
  - by rewrite (filter_other_stream stream) by (done || by eapply appended_as_stream); rewrite app_nil_r; apply Ho.
Qed.
End Journal.

(** ** The in-memory store *)

Section InMemory.
Context `{UuidText}.

#[export] Instance in_memory_append : EventAppend Handle := {|
  log_append stream records h :=
    let (s, r) := append_events (handle_epoch h) stream records (handle_inner h) in
    (mk_handle s (handle_epoch h), r);
|}.

#[export, program] Instance in_memory_append_laws : EventAppendLaws Handle.
Next Obligation.
  intros [s epoch] h' stream records es Hv. cbn -[append_events].
  destruct (append_events epoch stream records s) as [s1 [es1|e]] eqn:Hrun;
    cbn -[append_events]; intros Heq; [injection Heq as <- <-|done].
  unfold append_events in Hrun. st_inv. invert_append.
  cbn [handle_inner]. split_and!.
  - by apply committed_journal_wf.
  - done.
  - by rewrite stream_events_committed, decide_True.
  - intros other Hne. by rewrite stream_events_committed, decide_False, app_nil_r.
Qed.
Next Obligation.
  intros [s epoch] h' stream records e Hv. cbn -[append_events].
  destruct (append_events epoch stream records s) as [s1 [es1|e1]] eqn:Hrun;
    cbn -[append_events]; intros Heq; [done|injection Heq as <- <-].
  apply append_events_err in Hrun as ->. done.
Qed.

#[export, program] Instance in_memory_append_progress : EventAppendProgress Handle.
Next Obligation.
  intros [s epoch] stream records Hv Hopen Ha Hnd Hf. cbn in Hopen.
  assert (accepts s records) as Hacc.
  { split; [done|done|]. intros r Hr (st & e & He & Hid)%(journal_ids _ Hv). by apply (Hf r Hr st e). }
  exists (mk_handle (committed stream records epoch s) epoch), (appended s stream records).
  split; [by apply committed_open|]. cbn -[append_events].
  assert (append_events epoch stream records s =
    (committed stream records epoch s, Ok (appended s stream records))) as Hrun; [|by rewrite Hrun].
  unfold append_events, st_bind at 1 2, st_get, st_lift. rewrite Hopen. simpl.
  by apply append_in_memory_ok.
Qed.
End InMemory.
