(* ===== verification/Control.v ===== *)
(** * Control decisions

    Models [crates/verlet-kernel/src/kernel/control_decision.rs]: how the kernel
    reads the control stream of a thread to decide a tool call, a continuation
    of the turn and a placement, and which suspensions are pending.  The store
    is any [EventStore].  The payload decoders are the ones serde derives, and
    the text of an instant is chrono's; both are parameters. *)

From stdpp Require Import base gmap sets list strings pretty.
From Stdlib Require Import ZArith Lia.
From S2P Require Import Prelude Json EventKind Contracts Records Store EventLog.

Local Open Scope verlet_scope.
Local Open Scope string_scope.
Local Open Scope list_scope.

(** ** Payloads *)

Record ToolCallSubject : Type := mk_tool_subject {
  subject_turn_id : string;
  subject_call_id : string;
}.

#[global] Instance ToolCallSubject_eq_dec : EqDecision ToolCallSubject.
Proof. solve_decision. Defined.

Record ToolCallRequestedPayload : Type := mk_tool_requested {
  requested_subject : ToolCallSubject;
  requested_snapshot_id : string;
  requested_tool_name : string;
  requested_arguments : json;
  attach_event_id : option EventRecordId;
  requested_args_fingerprint : option string;
  holds : list json;
}.

Inductive ToolCallDecisionOutcomePayload : Type :=
  | OutcomeAllow
  | OutcomeRewrite (arguments : json)
  | OutcomeDeny (reason : string).

Record ToolCallDecisionPayload : Type := mk_tool_decision {
  decision_subject : ToolCallSubject;
  decision_snapshot_id : string;
  outcome : ToolCallDecisionOutcomePayload;
  decision_admissible : option (list string);
}.

Record ToolCallSuspendedPayload : Type := mk_tool_suspended {
  suspended_subject : ToolCallSubject;
  suspended_snapshot_id : string;
  suspended_approval_id : option string;
  suspended_reason : option string;
}.

Inductive ToolCallCancellation : Type := CancelledAcknowledged | CancelledExceededGrace.

Record ToolCallCompletedPayload : Type := mk_tool_completed {
  completed_subject : ToolCallSubject;
  completed_snapshot_id : string;
  completed_tool_name : string;
  success : bool;
  completed_args_fingerprint : option string;
  duration_ms : option Z;
  finish_order : option Z;
  cancellation : option ToolCallCancellation;
}.

(** [tool_invocation_fingerprint_matches]. *)
Definition tool_invocation_fingerprint_matches (recorded_snapshot_id : string)
    (recorded_fingerprint : option string) (current_snapshot_id : string)
    (current_fingerprint : option string) : bool :=
  String.eqb recorded_snapshot_id current_snapshot_id &&
  bool_decide (recorded_fingerprint = current_fingerprint).

Record MandateSubject : Type := mk_mandate_subject {
  mandate_subject_thread_id : option string;
  mandate_loop_id : option string;
}.

Inductive MandateSchedulePayload : Type :=
  | Cron (expr tz : string)
  | Interval (every_ms : Z)
  | At (when : string).

Inductive MandateCatchUpPolicy : Type := CoalesceMissed | SkipMissed.

Record MandateStartedPayload : Type := mk_mandate_started {
  started_subject : MandateSubject;
  started_mandate_id : string;
  started_snapshot_id : string;
  started_thread_id : option string;
  max_continuations : option Z;
  expires_at_ms : option Z;
  schedule : option MandateSchedulePayload;
  max_occurrences : option Z;
  catch_up : option MandateCatchUpPolicy;
  input_template : option string;
}.

Record MandateRevokedPayload : Type := mk_mandate_revoked {
  revoked_subject : MandateSubject;
  revoked_mandate_id : string;
  mandate_event_id : option string;
  revoked_snapshot_id : string;
  revoked_reason : option string;
}.

Record TurnContinuationSubject : Type := mk_continuation_subject {
  loop_id : string;
  parent_turn_id : string;
}.

#[global] Instance TurnContinuationSubject_eq_dec : EqDecision TurnContinuationSubject.
Proof. solve_decision. Defined.

Record TurnContinueRequestedPayload : Type := mk_continue_requested {
  continue_subject : TurnContinuationSubject;
  continue_snapshot_id : string;
  continue_next_turn_input : string;
}.

Record PlacementSubject : Type := mk_placement_subject { invocation_id : string }.

#[global] Instance PlacementSubject_eq_dec : EqDecision PlacementSubject.
Proof. solve_decision. Defined.

Inductive PlacementTarget : Type := Local | Remote | Sandbox.

#[global] Instance PlacementTarget_eq_dec : EqDecision PlacementTarget.
Proof. solve_decision. Defined.

(** The derived [Debug] of a target. *)
Definition placement_debug (target : PlacementTarget) : string :=
  match target with Local => "Local" | Remote => "Remote" | Sandbox => "Sandbox" end.

Record PlacementDecisionPayload : Type := mk_placement_decision {
  placement_subject : PlacementSubject;
  placement_snapshot_id : string;
  placement : PlacementTarget;
}.

(** [serde_json::from_value] for each payload; the error is its text. *)
Class ControlCodec := {
  decode_tool_decision : json -> result ToolCallDecisionPayload string;
  decode_tool_suspended : json -> result ToolCallSuspendedPayload string;
  decode_tool_requested : json -> result ToolCallRequestedPayload string;
  decode_tool_completed : json -> result ToolCallCompletedPayload string;
  decode_continue_requested : json -> result TurnContinueRequestedPayload string;
  decode_mandate_started : json -> result MandateStartedPayload string;
  decode_mandate_revoked : json -> result MandateRevokedPayload string;
  decode_placement : json -> result PlacementDecisionPayload string;
  (** [Utc.timestamp_millis_opt(ms).single()] as RFC 3339 text. *)
  rfc3339_millis : Z -> option string;
}.

(** ** Requests and decisions *)

Record ToolDecisionRequest : Type := mk_tool_request {
  tool_coordinates : ThreadCoordinates;
  tool_subject : ToolCallSubject;
  tool_snapshot_id : string;
  tool_request_event_id : EventRecordId;
}.

Record PendingToolCallSuspension : Type := mk_pending {
  suspended_event_id : EventRecordId;
  pending_subject : ToolCallSubject;
  pending_snapshot_id : string;
  request_event_id : option EventRecordId;
  pending_approval_id : option string;
  pending_reason : option string;
}.

Inductive ToolCallDecision : Type :=
  | NoDecision
  | Allow (consumed_fact_id : EventRecordId)
  | Rewrite (consumed_fact_id : EventRecordId) (arguments : json)
  | Deny (consumed_fact_id : option EventRecordId) (reason : string) (fail_closed : bool)
  | Wait (consumed_fact_id : EventRecordId) (approval_id reason : option string).

(** [ToolCallDecision::consumed_fact_id]. *)
Definition consumed_fact_id (d : ToolCallDecision) : option EventRecordId :=
  match d with
  | NoDecision => None
  | Allow id | Rewrite id _ | Wait id _ _ => Some id
  | Deny id _ _ => id
  end.

Record TurnContinuationDecisionRequest : Type := mk_continuation_request {
  continuation_coordinates : ThreadCoordinates;
  continuation_subject : TurnContinuationSubject;
  continuation_snapshot_id : string;
  continuation_request_event_id : EventRecordId;
  now_ms : Z;
  completed_continuations : Z;
}.

Inductive TurnContinuationDecision : Type :=
  | NoRequest
  | Accept (consumed_request_id : EventRecordId) (mandate_id next_turn_input : string)
  | Reject (consumed_request_id : option EventRecordId) (reason : string) (fail_closed : bool).

Record PlacementDecisionRequest : Type := mk_placement_request {
  placement_coordinates : ThreadCoordinates;
  request_placement_subject : PlacementSubject;
  request_placement_snapshot_id : string;
  placement_request_event_id : EventRecordId;
  default_target : PlacementTarget;
  allowed_targets : list PlacementTarget;
}.

Inductive PlacementDecision : Type :=
  | PlacementDefault (target : PlacementTarget)
  | PlacementSelected (consumed_fact_id : EventRecordId) (target : PlacementTarget)
  | PlacementDeny (consumed_fact_id : option EventRecordId) (reason : string) (fail_closed : bool).

(** ** Freshness *)

Definition provenance_reaches_event (event : EventRecord) (request : EventRecordId) : bool :=
  bool_decide (request ∈ source_event_ids (provenance event)).

Definition fresh_control_event (event : EventRecord) (request : EventRecordId) : bool :=
  match origin event with
  | Witnessed => true
  | Discharged => provenance_reaches_event event request
  end.

Definition tool_decision_from_payload (id : EventRecordId) (p : ToolCallDecisionPayload) :
    ToolCallDecision :=
  match outcome p with
  | OutcomeAllow => Allow id
  | OutcomeRewrite arguments => Rewrite id arguments
  | OutcomeDeny reason => Deny (Some id) reason false
  end.

Section Decide.
Context `{UuidText} `{ControlCodec} {S : Type} `{EventStore S}.

(** [control_stream_id]. *)
Definition control_stream_id (c : ThreadCoordinates) : EventStreamId :=
  "control:" +:+ uuid_text (thread_id c).

Definition read_log (store : S) (stream : EventStreamId) : VerletResult (list EventRecord) :=
  map_err HistoryFailed (log_read store stream None).

(** ** Tool calls *)

(** The body of the loop of [decide_tool_call], over the terminal and the wait candidates;
    an error is an early return. *)
Definition tool_fact_step (request : ToolDecisionRequest)
    (acc : list ToolCallDecision * list ToolCallDecision) (event : EventRecord) :
    result (list ToolCallDecision * list ToolCallDecision) ToolCallDecision :=
  let '(terminal, wait) := acc in
  match kind event with
  | EventKind.ToolCallDecision =>
      match decode_tool_decision (payload event) with
      | Err err =>
          if provenance_reaches_event event (tool_request_event_id request)
          then Err (Deny (Some (event_id event))
                      ("malformed tool.call.decision fact: " +:+ err) true)
          else Ok acc
      | Ok p =>
          if negb (bool_decide (decision_subject p = tool_subject request)) ||
             negb (String.eqb (decision_snapshot_id p) (tool_snapshot_id request))
          then Ok acc
          else if negb (fresh_control_event event (tool_request_event_id request)) then Ok acc
          else Ok (terminal ++ [tool_decision_from_payload (event_id event) p], wait)
      end
  | EventKind.ToolCallSuspended =>
      match decode_tool_suspended (payload event) with
      | Err err =>
          if provenance_reaches_event event (tool_request_event_id request)
          then Err (Deny (Some (event_id event))
                      ("malformed tool.call.suspended fact: " +:+ err) true)
          else Ok acc
      | Ok p =>
          if negb (bool_decide (suspended_subject p = tool_subject request)) ||
             negb (String.eqb (suspended_snapshot_id p) (tool_snapshot_id request))
          then Ok acc
          else if negb (fresh_control_event event (tool_request_event_id request)) then Ok acc
          else Ok (terminal,
                   wait ++ [Wait (event_id event) (suspended_approval_id p) (suspended_reason p)])
      end
  | _ => Ok acc
  end.

(** [decide_tool_call]. *)
Definition decide_tool_call (store : S) (request : ToolDecisionRequest) :
    VerletResult ToolCallDecision :=
  control_events <-? read_log store (control_stream_id (tool_coordinates request)) ;;
  match try_fold (tool_fact_step request) ([], []) control_events with
  | Err decision => Ok decision
  | Ok (terminal, wait) =>
      match terminal with
      | [decision] => Ok decision
      | _ :: _ :: _ => Ok (Deny None "conflicting terminal tool control facts" true)
      | [] =>
          match wait with
          | [] => Ok NoDecision
          | [decision] => Ok decision
          | _ => Ok (Deny None "conflicting tool suspension facts" true)
          end
      end
  end.

(** ** Pending suspensions *)

(** The set of decided subjects. *)
Definition terminal_subject_step (acc : list (ToolCallSubject * string)) (event : EventRecord) :
    VerletResult (list (ToolCallSubject * string)) :=
  match decode_tool_decision (payload event) with
  | Ok p => Ok ((decision_subject p, decision_snapshot_id p) :: acc)
  | Err err => Err (HistoryText ("tool.call.decision payload is invalid: " +:+ err))
  end.

Definition decode_completion (event : EventRecord) : VerletResult ToolCallCompletedPayload :=
  map_err (fun err => HistoryText ("tool.call.completed payload is invalid: " +:+ err))
    (decode_tool_completed (payload event)).

(** The request a suspension was raised for, if its receipt is on the thread's stream. *)
Definition suspension_request (thread_events : list EventRecord) (event : EventRecord) :
    VerletResult (option ToolCallRequestedPayload) :=
  match head (source_event_ids (provenance event)) with
  | None => Ok None
  | Some id =>
      match snd <$> list_find (fun e => event_id e = id /\ kind e = EventKind.ToolCallRequested)
                     thread_events with
      | None => Ok None
      | Some request_event =>
          match decode_tool_requested (payload request_event) with
          | Ok p => Ok (Some p)
          | Err err =>
              Err (HistoryText ("tool.call.requested receipt " +:+
                     uuid_text (event_id request_event) +:+ " for thread " +:+
                     uuid_text (thread_id (coordinates request_event)) +:+ " is invalid: " +:+ err))
          end
      end
  end.

(** Whether a completion settles a suspension: under an exact fingerprint match when the
    request is known, by subject and snapshot otherwise. *)
Definition completion_settles (request : option ToolCallRequestedPayload)
    (p : ToolCallSuspendedPayload) (completion : ToolCallCompletedPayload) : bool :=
  match request with
  | Some request =>
      bool_decide (completed_subject completion = requested_subject request) &&
      String.eqb (completed_snapshot_id completion) (requested_snapshot_id request) &&
      bool_decide (completed_args_fingerprint completion = requested_args_fingerprint request)
  | None =>
      bool_decide (completed_subject completion = suspended_subject p) &&
      String.eqb (completed_snapshot_id completion) (suspended_snapshot_id p)
  end.

(** The body of the last loop of [list_pending_tool_call_suspensions]. *)
Definition pending_step (thread_events : list EventRecord)
    (terminal_subjects : list (ToolCallSubject * string))
    (completions : list ToolCallCompletedPayload) (pending : list PendingToolCallSuspension)
    (event : EventRecord) : VerletResult (list PendingToolCallSuspension) :=
  match decode_tool_suspended (payload event) with
  | Err err => Err (HistoryText ("tool.call.suspended payload is invalid: " +:+ err))
  | Ok p =>
      request <-? suspension_request thread_events event ;;
      if existsb (completion_settles request p) completions ||
         bool_decide ((suspended_subject p, suspended_snapshot_id p) ∈ terminal_subjects)
      then Ok pending
      else Ok (pending ++
        [mk_pending (event_id event) (suspended_subject p) (suspended_snapshot_id p)
           (head (source_event_ids (provenance event))) (suspended_approval_id p)
           (suspended_reason p)])
  end.

(** [list_pending_tool_call_suspensions]. *)
Definition list_pending_tool_call_suspensions (store : S) (c : ThreadCoordinates) :
    VerletResult (list PendingToolCallSuspension) :=
  control_events <-? read_log store (control_stream_id c) ;;
  thread_events <-? read_log store (for_thread c) ;;
  terminal_subjects <-? try_fold terminal_subject_step []
    (filter (fun e => kind e = EventKind.ToolCallDecision) control_events) ;;
  completions <-? collect decode_completion
    (filter (fun e => kind e = EventKind.ToolCallCompleted) thread_events) ;;
  pending <-? try_fold (pending_step thread_events terminal_subjects completions) []
    (filter (fun e => kind e = EventKind.ToolCallSuspended) control_events) ;;
  Ok (sort_by_key (fun p => uuid_text (suspended_event_id p)) pending).

(** ** Continuations *)

(** The body of the loop of [latest_matching_mandate]. *)
Definition mandate_step (request : TurnContinuationDecisionRequest)
    (matching : list (Z * MandateStartedPayload)) (event : EventRecord) :
    VerletResult (list (Z * MandateStartedPayload)) :=
  if negb (bool_decide (kind event = EventKind.MandateStarted)) ||
     negb (bool_decide (origin event = Witnessed))
  then Ok matching
  else
    match decode_mandate_started (payload event) with
    | Err err => Err (HistoryText ("mandate.started payload is invalid: " +:+ err))
    | Ok p =>
        if negb (bool_decide (mandate_loop_id (started_subject p) =
                   Some (loop_id (continuation_subject request)))) ||
           negb (String.eqb (started_snapshot_id p) (continuation_snapshot_id request))
        then Ok matching
        else
          let thread := match mandate_subject_thread_id (started_subject p) with
                        | Some t => Some t
                        | None => started_thread_id p
                        end in
          if match thread with
             | Some t => String.eqb t (uuid_text (thread_id (continuation_coordinates request)))
             | None => true
             end
          then Ok (matching ++ [(sequence event, p)])
          else Ok matching
    end.

Definition latest_matching_mandate (events : list EventRecord)
    (request : TurnContinuationDecisionRequest) : VerletResult (option MandateStartedPayload) :=
  matching <-? try_fold (mandate_step request) [] events ;;
  Ok (snd <$> max_by_key fst matching).

(** [mandate_rejection_reason]: the reason of the first matching revocation. *)
Fixpoint mandate_rejection_reason (events : list EventRecord)
    (request : TurnContinuationDecisionRequest) (mandate : MandateStartedPayload) :
    VerletResult (option string) :=
  match events with
  | [] => Ok None
  | event :: events =>
      if negb (bool_decide (kind event = EventKind.MandateRevoked)) ||
         negb (bool_decide (origin event = Witnessed))
      then mandate_rejection_reason events request mandate
      else
        match decode_mandate_revoked (payload event) with
        | Err err => Err (HistoryText ("mandate.revoked payload is invalid: " +:+ err))
        | Ok p =>
            if bool_decide (mandate_loop_id (revoked_subject p) =
                 Some (loop_id (continuation_subject request))) &&
               String.eqb (revoked_snapshot_id p) (continuation_snapshot_id request) &&
               String.eqb (revoked_mandate_id p) (started_mandate_id mandate)
            then Ok (Some (default "continuation mandate revoked" (revoked_reason p)))
            else mandate_rejection_reason events request mandate
        end
  end.

(** The body of the first loop of [decide_turn_continuation]. *)
Definition continuation_step (request : TurnContinuationDecisionRequest)
    (candidates : list (EventRecordId * TurnContinueRequestedPayload)) (event : EventRecord) :
    result (list (EventRecordId * TurnContinueRequestedPayload)) TurnContinuationDecision :=
  if negb (bool_decide (kind event = EventKind.TurnContinueRequested)) then Ok candidates
  else
    match decode_continue_requested (payload event) with
    | Err err =>
        if provenance_reaches_event event (continuation_request_event_id request)
        then Err (Reject (Some (event_id event))
                    ("malformed turn.continue.requested fact: " +:+ err) true)
        else Ok candidates
    | Ok p =>
        if negb (bool_decide (continue_subject p = continuation_subject request)) ||
           negb (String.eqb (continue_snapshot_id p) (continuation_snapshot_id request))
        then Ok candidates
        else if negb (fresh_control_event event (continuation_request_event_id request))
        then Ok candidates
        else Ok (candidates ++ [(event_id event, p)])
    end.

Definition expiry_reason (expires : Z) : string :=
  match rfc3339_millis expires with
  | Some text => "continuation mandate expired at " +:+ pretty expires +:+ " (" +:+ text +:+ ")"
  | None => "continuation mandate expired at " +:+ pretty expires
  end.

(** [decide_turn_continuation]. *)
Definition decide_turn_continuation (store : S) (request : TurnContinuationDecisionRequest) :
    VerletResult TurnContinuationDecision :=
  control_events <-? read_log store (control_stream_id (continuation_coordinates request)) ;;
  match try_fold (continuation_step request) [] control_events with
  | Err decision => Ok decision
  | Ok [] => Ok NoRequest
  | Ok [(consumed, continuation)] =>
      mandate <-? latest_matching_mandate control_events request ;;
      match mandate with
      | None => Ok (Reject (Some consumed) "continuation has no active mandate" false)
      | Some mandate =>
          rejection <-? mandate_rejection_reason control_events request mandate ;;
          match rejection with
          | Some reason => Ok (Reject (Some consumed) reason false)
          | None =>
              if match max_continuations mandate with
                 | Some max => (max <=? completed_continuations request)%Z
                 | None => false
                 end
              then Ok (Reject (Some consumed) "continuation mandate budget exhausted" false)
              else
                match expires_at_ms mandate with
                | Some expires =>
                    if (expires <? now_ms request)%Z
                    then Ok (Reject (Some consumed) (expiry_reason expires) false)
                    else Ok (Accept consumed (started_mandate_id mandate)
                               (continue_next_turn_input continuation))
                | None => Ok (Accept consumed (started_mandate_id mandate)
                                (continue_next_turn_input continuation))
                end
          end
      end
  | Ok _ => Ok (Reject None "conflicting turn.continue.requested facts" true)
  end.

(** ** Placement *)

(** The body of the loop of [decide_placement]. *)
Definition placement_step (request : PlacementDecisionRequest)
    (candidates : list (EventRecordId * PlacementDecisionPayload)) (event : EventRecord) :
    result (list (EventRecordId * PlacementDecisionPayload)) PlacementDecision :=
  if negb (bool_decide (kind event = EventKind.PlacementDecision)) then Ok candidates
  else
    match decode_placement (payload event) with
    | Err err =>
        if provenance_reaches_event event (placement_request_event_id request)
        then Err (PlacementDeny (Some (event_id event))
                    ("malformed placement.decision fact: " +:+ err) true)
        else Ok candidates
    | Ok p =>
        if negb (bool_decide (placement_subject p = request_placement_subject request)) ||
           negb (String.eqb (placement_snapshot_id p) (request_placement_snapshot_id request))
        then Ok candidates
        else if negb (fresh_control_event event (placement_request_event_id request))
        then Ok candidates
        else Ok (candidates ++ [(event_id event, p)])
    end.

(** [decide_placement]. *)
Definition decide_placement (store : S) (request : PlacementDecisionRequest) :
    VerletResult PlacementDecision :=
  control_events <-? read_log store (control_stream_id (placement_coordinates request)) ;;
  match try_fold (placement_step request) [] control_events with
  | Err decision => Ok decision
  | Ok [] => Ok (PlacementDefault (default_target request))
  | Ok [(consumed, p)] =>
      if negb (bool_decide (placement p ∈ allowed_targets request))
      then Ok (PlacementDeny (Some consumed)
                 ("placement " +:+ placement_debug (placement p) +:+
                  " is not allowed for this invocation") true)
      else Ok (PlacementSelected consumed (placement p))
  | Ok _ => Ok (PlacementDeny None "conflicting placement.decision facts" true)
  end.
End Decide.
