(* ===== verification/ControlFacts.v ===== *)
(** * What the control decisions mean

    The decision loops against declarative readings of the control stream, and
    the safety of what they let through, for every [EventStore] that keeps the
    interface's laws. *)

From stdpp Require Import base gmap sets list strings pretty sorting.
From Stdlib Require Import ZArith Lia.
From S2P Require Import Prelude Json SchemaFacts EventKind EventSchemas Contracts Records Store StoreProps EventLog Control.

Local Open Scope string_scope.
Local Open Scope list_scope.

(** ** Collecting loops *)

(** What a loop body does with one event. *)
Inductive verdict (D X : Type) : Type :=
  | Skip
  | Stop (d : D)
  | Add (x : X).
Arguments Skip {D X}.
Arguments Stop {D X} _.
Arguments Add {D X} _.

Definition is_some {X} (o : option X) : bool := match o with Some _ => true | None => false end.

Definition stopped {D X} (v : verdict D X) : option D :=
  match v with Stop d => Some d | _ => None end.
Definition added {D X} (v : verdict D X) : option X :=
  match v with Add x => Some x | _ => None end.

(** A loop that skips, returns early or collects is the first early return of its events, or
    else all that was collected. *)
Lemma try_fold_verdict {A D X Acc} (step : Acc -> A -> result Acc D) (c : A -> verdict D X)
    (put : Acc -> X -> Acc) acc l :
  (forall acc a, step acc a = match c a with
                              | Skip => Ok acc
                              | Stop d => Err d
                              | Add x => Ok (put acc x)
                              end) ->
  try_fold step acc l =
  match head (omap (fun a => stopped (c a)) l) with
  | Some d => Err d
  | None => Ok (fold_left put (omap (fun a => added (c a)) l) acc)
  end.
Proof.
  intros Hstep. revert acc. induction l as [|a l IH]; intros acc; simpl; [done|].
  rewrite Hstep. destruct (c a) as [|d|x]; simpl; [apply IH|done|apply IH].
Qed.

Lemma fold_left_snoc {X} (l acc : list X) : fold_left (fun acc x => acc ++ [x]) l acc = acc ++ l.
Proof.
  revert acc. induction l as [|x l IH]; intros acc; simpl; [by rewrite app_nil_r|].
  by rewrite IH, <- app_assoc.
Qed.

(** The two-list variant. *)
Definition put_either {X} (acc : list X * list X) (x : X + X) : list X * list X :=
  match x with
  | inl x => (acc.1 ++ [x], acc.2)
  | inr x => (acc.1, acc.2 ++ [x])
  end.

Definition left_of {X} (x : X + X) : option X := match x with inl x => Some x | inr _ => None end.
Definition right_of {X} (x : X + X) : option X := match x with inr x => Some x | inl _ => None end.

Lemma fold_left_either {X} (l : list (X + X)) acc :
  fold_left put_either l acc = (acc.1 ++ omap left_of l, acc.2 ++ omap right_of l).
Proof.
  revert acc. induction l as [|[x|x] l IH]; intros [a b]; simpl; rewrite ?IH; simpl;
    by rewrite ?app_nil_r, <- ?app_assoc.
Qed.

Lemma omap_omap {A B C} (f : A -> option B) (g : B -> option C) (l : list A) :
  omap g (omap f l) = omap (fun a => f a ≫= g) l.
Proof.
  induction l as [|a l IH]; csimpl; [done|]. destruct (f a) as [b|]; csimpl; [|apply IH].
  by rewrite IH.
Qed.

Lemma omap_single {A B} (f : A -> option B) l b :
  omap f l = [b] ->
  exists before a after, l = before ++ a :: after /\ f a = Some b /\
    (forall a', a' ∈ before ++ after -> f a' = None).
Proof.
  induction l as [|x l IH]; csimpl; [done|]. destruct (f x) as [y|] eqn:Hx.
  - intros [= -> Hl]. exists [], x, l. split_and!; [done|done|]. intros a' Ha.
    destruct (f a') as [b0|] eqn:Ha'; [|done]. simpl in Ha.
    assert (b0 ∈ omap f l) as Hin by (apply list_elem_of_omap; eauto).
    rewrite Hl in Hin. set_solver.
  - intros (before & a & after & -> & Ha & Hn)%IH. exists (x :: before), a, after.
    split_and!; [done|done|]. intros a'. csimpl. rewrite elem_of_cons. intros [->|?]; auto.
Qed.

Lemma head_omap_none {A B} (f : A -> option B) l :
  head (omap f l) = None <-> forall a, a ∈ l -> f a = None.
Proof.
  induction l as [|a l IH]; csimpl; [split; [set_solver|done]|].
  destruct (f a) as [b|] eqn:Ha; csimpl.
  - split; [done|]. intros Hn. specialize (Hn a). rewrite Ha in Hn. set_solver.
  - rewrite IH. setoid_rewrite elem_of_cons. naive_solver.
Qed.

Section ControlFacts.
Context `{UuidText} `{ControlCodec} {S : Type} `{EventStoreLaws S}.

Lemma read_log_valid store stream :
  log_valid store -> read_log store stream = Ok (log_events store stream).
Proof. intros Hv. unfold read_log. by rewrite log_read_all. Qed.

(** ** Tool calls *)

(** A decision fact about the request: well-formed, for its subject and snapshot, and
    witnessed or discharged for this very request. *)
Definition terminal_fact (request : ToolDecisionRequest) (event : EventRecord) :
    option ToolCallDecision :=
  match kind event, decode_tool_decision (payload event) with
  | EventKind.ToolCallDecision, Ok p =>
      if bool_decide (decision_subject p = tool_subject request) &&
         String.eqb (decision_snapshot_id p) (tool_snapshot_id request) &&
         fresh_control_event event (tool_request_event_id request)
      then Some (tool_decision_from_payload (event_id event) p) else None
  | _, _ => None
  end.

(** A suspension of the request. *)
Definition wait_fact (request : ToolDecisionRequest) (event : EventRecord) :
    option ToolCallDecision :=
  match kind event, decode_tool_suspended (payload event) with
  | EventKind.ToolCallSuspended, Ok p =>
      if bool_decide (suspended_subject p = tool_subject request) &&
         String.eqb (suspended_snapshot_id p) (tool_snapshot_id request) &&
         fresh_control_event event (tool_request_event_id request)
      then Some (Wait (event_id event) (suspended_approval_id p) (suspended_reason p)) else None
  | _, _ => None
  end.

(** A malformed fact that claims to answer the request. *)
Definition malformed_fact (request : ToolDecisionRequest) (event : EventRecord) :
    option ToolCallDecision :=
  if provenance_reaches_event event (tool_request_event_id request) then
    match kind event with
    | EventKind.ToolCallDecision =>
        match decode_tool_decision (payload event) with
        | Err err => Some (Deny (Some (event_id event))
                             ("malformed tool.call.decision fact: " +:+ err) true)
        | Ok _ => None
        end
    | EventKind.ToolCallSuspended =>
        match decode_tool_suspended (payload event) with
        | Err err => Some (Deny (Some (event_id event))
                             ("malformed tool.call.suspended fact: " +:+ err) true)
        | Ok _ => None
        end
    | _ => None
    end
  else None.

(** One decision, from the facts on the stream. *)
Definition decide_from_facts (malformed terminal wait : list ToolCallDecision) :
    ToolCallDecision :=
  match malformed, terminal, wait with
  | d :: _, _, _ => d
  | [], [d], _ => d
  | [], _ :: _ :: _, _ => Deny None "conflicting terminal tool control facts" true
  | [], [], [] => NoDecision
  | [], [], [d] => d
  | [], [], _ => Deny None "conflicting tool suspension facts" true
  end.

Definition tool_verdict (request : ToolDecisionRequest) (event : EventRecord) :
    verdict ToolCallDecision (ToolCallDecision + ToolCallDecision) :=
  match malformed_fact request event, terminal_fact request event, wait_fact request event with
  | Some d, _, _ => Stop d
  | None, Some d, _ => Add (inl d)
  | None, None, Some d => Add (inr d)
  | None, None, None => Skip
  end.

Lemma tool_fact_step_verdict request acc event :
  tool_fact_step request acc event =
  match tool_verdict request event with
  | Skip => Ok acc
  | Stop d => Err d
  | Add x => Ok (put_either acc x)
  end.
Proof.
  destruct acc as [terminal wait]. unfold tool_fact_step, tool_verdict, malformed_fact,
    terminal_fact, wait_fact.
  destruct (provenance_reaches_event event (tool_request_event_id request));
    destruct (kind event); try done.
  all: first [destruct (decode_tool_decision (payload event)) as [p|err]; [|done];
                destruct (bool_decide (decision_subject p = tool_subject request));
                destruct (String.eqb (decision_snapshot_id p) (tool_snapshot_id request))
             |destruct (decode_tool_suspended (payload event)) as [p|err]; [|done];
                destruct (bool_decide (suspended_subject p = tool_subject request));
                destruct (String.eqb (suspended_snapshot_id p) (tool_snapshot_id request))];
    destruct (fresh_control_event event (tool_request_event_id request)); done.
Qed.

(** At most one of the three readings applies to an event. *)
Lemma tool_verdict_parts request event :
  stopped (tool_verdict request event) = malformed_fact request event /\
  (added (tool_verdict request event) ≫= left_of) = terminal_fact request event /\
  (added (tool_verdict request event) ≫= right_of) = wait_fact request event.
Proof.
  unfold tool_verdict, malformed_fact, terminal_fact, wait_fact.
  destruct (provenance_reaches_event event (tool_request_event_id request));
    destruct (kind event); try done.
  all: first [destruct (decode_tool_decision (payload event)) as [p|err]
             |destruct (decode_tool_suspended (payload event)) as [p|err]]; try done.
  all: by repeat case_match; simplify_eq/=.
Qed.

Lemma omap_ext_all {A B} (f g : A -> option B) (l : list A) : (forall a, f a = g a) -> omap f l = omap g l.
Proof. intros Hfg. induction l as [|a l IH]; csimpl; [done|]. by rewrite Hfg, IH. Qed.

Lemma decide_tool_call_facts store request :
  log_valid store ->
  let facts f := omap (f request) (log_events store (control_stream_id (tool_coordinates request)))
  in
  decide_tool_call store request =
  Ok (decide_from_facts (facts malformed_fact) (facts terminal_fact) (facts wait_fact)).
Proof.
  intros Hv facts. unfold decide_tool_call. rewrite read_log_valid by done. cbn [result_bind].
  rewrite (try_fold_verdict _ (tool_verdict request) put_either)
    by apply tool_fact_step_verdict.
  rewrite fold_left_either. cbn [fst snd app]. rewrite !omap_omap.
  rewrite (omap_ext_all (fun e => stopped (tool_verdict request e)) (malformed_fact request))
    by apply tool_verdict_parts.
  rewrite (omap_ext_all (fun e => added (tool_verdict request e) ≫= left_of)
    (terminal_fact request)) by apply tool_verdict_parts.
  rewrite (omap_ext_all (fun e => added (tool_verdict request e) ≫= right_of)
    (wait_fact request)) by apply tool_verdict_parts.
  fold (facts malformed_fact) (facts terminal_fact) (facts wait_fact).
  unfold decide_from_facts. destruct (facts malformed_fact); simpl; [|done].
  destruct (facts terminal_fact) as [|? [|]]; try done.
  by destruct (facts wait_fact) as [|? [|]].
Qed.

(** A tool call is decided by the facts on the thread's control stream alone, in any
    order of the rest: a malformed fact that claims to answer the request denies it, else a
    single fresh decision for the request's subject and snapshot is the answer, two conflict
    and deny, and with none a single suspension makes it wait, two deny, and none leaves it
    open. *)
Theorem decide_tool_call_spec store request :
  log_valid store ->
  let facts f := omap (f request) (log_events store (control_stream_id (tool_coordinates request)))
  in
  decide_tool_call store request =
  Ok (decide_from_facts (facts malformed_fact) (facts terminal_fact) (facts wait_fact)).
Proof. apply decide_tool_call_facts. Qed.

Lemma fresh_iff event id :
  fresh_control_event event id = true <->
  origin event = Witnessed \/ id ∈ source_event_ids (provenance event).
Proof.
  unfold fresh_control_event, provenance_reaches_event. destruct (origin event).
  - naive_solver.
  - rewrite bool_decide_eq_true. naive_solver.
Qed.

Lemma terminal_fact_some request event d :
  terminal_fact request event = Some d <->
  exists p, kind event = EventKind.ToolCallDecision /\
    decode_tool_decision (payload event) = Ok p /\
    decision_subject p = tool_subject request /\
    decision_snapshot_id p = tool_snapshot_id request /\
    (origin event = Witnessed \/
     tool_request_event_id request ∈ source_event_ids (provenance event)) /\
    d = tool_decision_from_payload (event_id event) p.
Proof.
  unfold terminal_fact. split.
  - destruct (kind event); try done. destruct (decode_tool_decision (payload event)) as [p|]; [|done].
    destruct (_ && _) eqn:Hc; [|done]. to_prop. intros [= <-]. exists p.
    split_and!; try done. by apply fresh_iff.
  - intros (p & -> & -> & Hs & Hn & Hf%fresh_iff & ->).
    rewrite Hs, Hn, bool_decide_true, String.eqb_refl, Hf by done. done.
Qed.

Lemma decide_from_allow malformed terminal wait id :
  (forall d, d ∈ malformed -> exists i r, d = Deny i r true) ->
  (forall d, d ∈ wait -> exists i a r, d = Wait i a r) ->
  decide_from_facts malformed terminal wait = Allow id -> malformed = [] /\ terminal = [Allow id].
Proof.
  intros Hm Hw. destruct malformed as [|d malformed]; simpl.
  - destruct terminal as [|d [|]]; [|by intros ->|done].
    destruct wait as [|d [|]]; [done| |done]. destruct (Hw d) as (? & ? & ? & ->); [left|done].
  - intros ->. by destruct (Hm (Allow id)) as (? & ? & ?); [left|].
Qed.

(** C36 - A tool call is never allowed by accident: an allow always comes from one event of
    the thread's control stream that decodes to an allow for exactly this subject and
    snapshot and is witnessed or was discharged for this very request; it is the only such
    decision, and no malformed fact claims to answer the request. *)
Theorem tool_call_allowed_only_by_fact store request id :
  log_valid store -> decide_tool_call store request = Ok (Allow id) ->
  exists event p,
    event ∈ log_events store (control_stream_id (tool_coordinates request)) /\
    event_id event = id /\ kind event = EventKind.ToolCallDecision /\
    decode_tool_decision (payload event) = Ok p /\ outcome p = OutcomeAllow /\
    decision_subject p = tool_subject request /\
    decision_snapshot_id p = tool_snapshot_id request /\
    (origin event = Witnessed \/
     tool_request_event_id request ∈ source_event_ids (provenance event)) /\
    forall other,
      other ∈ log_events store (control_stream_id (tool_coordinates request)) ->
      malformed_fact request other = None /\
      (terminal_fact request other <> None -> other = event).
Proof.
  intros Hv. rewrite (decide_tool_call_facts _ _ Hv).
  set (evs := log_events store (control_stream_id (tool_coordinates request))).
  intros [= Hd]. apply decide_from_allow in Hd as [Hm Ht].
  - destruct (omap_single _ _ _ Ht) as (before & event & after & Hevs & Hf & Hother).
    apply terminal_fact_some in Hf as (p & Hk & Hp & Hs & Hn & Hfresh & Hallow).
    exists event, p. unfold tool_decision_from_payload in Hallow.
    destruct (outcome p) eqn:Ho; try done. injection Hallow as ->.
    split_and!; try done; [rewrite Hevs; set_solver|].
    intros other Hin. split.
    + apply (proj1 (head_omap_none (malformed_fact request) evs)); [by rewrite Hm|done].
    + intros Hsome. rewrite Hevs in Hin. apply elem_of_app in Hin as [Hin|Hin].
      * by rewrite Hother in Hsome by set_solver.
      * apply elem_of_cons in Hin as [->|Hin]; [done|].
        by rewrite Hother in Hsome by set_solver.
  - intros d (e & _ & He)%list_elem_of_omap. unfold malformed_fact in He.
    repeat case_match; simplify_eq; eauto.
  - intros d (e & _ & He)%list_elem_of_omap. unfold wait_fact in He.
    repeat case_match; simplify_eq; eauto.
Qed.

(** Decisions fail closed on conflict: when a request is allowed and a further decision
    for the same subject and snapshot is committed to its control stream, whatever it says,
    the request is denied from then on; and committing anything that is no fact about the
    request leaves the decision as it was. *)
Theorem tool_decision_after_append store store' request n records added id :
  log_valid store -> decide_tool_call store request = Ok (Allow id) ->
  log_append_fenced (control_stream_id (tool_coordinates request)) n records store
    = (store', Ok added) ->
  (forall event, event ∈ added -> malformed_fact request event = None) ->
  decide_tool_call store' request =
  Ok (if existsb (fun event => is_some (terminal_fact request event)) added
      then Deny None "conflicting terminal tool control facts" true
      else Allow id).
Proof.
  intros Hv Hd Happ Hmal.
  destruct (log_append_ok _ _ _ _ _ _ Hv Happ) as (Hv' & _ & _ & Hevs & _).
  rewrite (decide_tool_call_facts _ _ Hv) in Hd. rewrite (decide_tool_call_facts _ _ Hv'), Hevs.
  set (evs := log_events store (control_stream_id (tool_coordinates request))) in *.
  injection Hd as Hd. apply decide_from_allow in Hd as [Hm Ht].
  - rewrite !omap_app, Hm, Ht. simpl.
    assert (omap (malformed_fact request) added = []) as ->.
    { apply head_None. by apply head_omap_none. }
    simpl. clear Happ Hevs Hmal.
    induction added as [|event added IH]; [done|]. csimpl.
    by destruct (terminal_fact request event).
  - intros d (e & _ & He)%list_elem_of_omap. unfold malformed_fact in He.
    repeat case_match; simplify_eq; eauto.
  - intros d (e & _ & He)%list_elem_of_omap. unfold wait_fact in He.
    repeat case_match; simplify_eq; eauto.
Qed.

(** ** Continuations *)

(** A continuation request about the subject. *)
Definition continuation_fact (request : TurnContinuationDecisionRequest) (event : EventRecord) :
    option (EventRecordId * TurnContinueRequestedPayload) :=
  match decode_continue_requested (payload event) with
  | Ok p =>
      if bool_decide (kind event = EventKind.TurnContinueRequested) &&
         bool_decide (continue_subject p = continuation_subject request) &&
         String.eqb (continue_snapshot_id p) (continuation_snapshot_id request) &&
         fresh_control_event event (continuation_request_event_id request)
      then Some (event_id event, p) else None
  | Err _ => None
  end.

Definition malformed_continuation (request : TurnContinuationDecisionRequest)
    (event : EventRecord) : option TurnContinuationDecision :=
  match decode_continue_requested (payload event) with
  | Err err =>
      if bool_decide (kind event = EventKind.TurnContinueRequested) &&
         provenance_reaches_event event (continuation_request_event_id request)
      then Some (Reject (Some (event_id event))
                   ("malformed turn.continue.requested fact: " +:+ err) true) else None
  | Ok _ => None
  end.

Definition continuation_verdict request event :
    verdict TurnContinuationDecision (EventRecordId * TurnContinueRequestedPayload) :=
  match malformed_continuation request event, continuation_fact request event with
  | Some d, _ => Stop d
  | None, Some x => Add x
  | None, None => Skip
  end.

Lemma continuation_step_verdict request acc event :
  continuation_step request acc event =
  match continuation_verdict request event with
  | Skip => Ok acc
  | Stop d => Err d
  | Add x => Ok (acc ++ [x])
  end.
Proof.
  unfold continuation_step, continuation_verdict, malformed_continuation, continuation_fact.
  destruct (bool_decide (kind event = _)); simpl;
    [|by destruct (decode_continue_requested (payload event))].
  destruct (decode_continue_requested (payload event)) as [p|err].
  - destruct (bool_decide (continue_subject p = _)), (String.eqb (continue_snapshot_id p) _);
      simpl; try done; by destruct (fresh_control_event _ _).
  - by destruct (provenance_reaches_event _ _).
Qed.

Lemma continuation_loop request events :
  try_fold (continuation_step request) [] events =
  match head (omap (malformed_continuation request) events) with
  | Some d => Err d
  | None => Ok (omap (continuation_fact request) events)
  end.
Proof.
  rewrite (try_fold_verdict _ (continuation_verdict request) (fun acc x => acc ++ [x]))
    by apply continuation_step_verdict.
  rewrite fold_left_snoc. simpl.
  assert (forall e, stopped (continuation_verdict request e) = malformed_continuation request e /\
    added (continuation_verdict request e) = continuation_fact request e) as Hparts.
  { intros e. unfold continuation_verdict, malformed_continuation, continuation_fact.
    destruct (decode_continue_requested (payload e)); simpl; by destruct (_ && _). }
  rewrite (omap_ext_all _ (malformed_continuation request)) by apply Hparts.
  rewrite (omap_ext_all (fun e => added (continuation_verdict request e))
    (continuation_fact request)) by apply Hparts.
  done.
Qed.

(** A witnessed mandate for the request's loop and snapshot that is not for another thread. *)
Definition mandate_fact (request : TurnContinuationDecisionRequest) (event : EventRecord)
    (m : MandateStartedPayload) : Prop :=
  kind event = EventKind.MandateStarted /\ origin event = Witnessed /\
  decode_mandate_started (payload event) = Ok m /\
  mandate_loop_id (started_subject m) = Some (loop_id (continuation_subject request)) /\
  started_snapshot_id m = continuation_snapshot_id request /\
  (forall t, match mandate_subject_thread_id (started_subject m) with
             | Some t => Some t | None => started_thread_id m end = Some t ->
     t = uuid_text (thread_id (continuation_coordinates request))).

Lemma mandate_step_ok request acc event acc' :
  mandate_step request acc event = Ok acc' ->
  (exists m, mandate_fact request event m /\ acc' = acc ++ [(sequence event, m)]) \/
  acc' = acc /\ forall m, ~ mandate_fact request event m.
Proof.
  unfold mandate_step, mandate_fact. case_bool_decide as Hk; simpl; [|intros [= ->]; right; naive_solver].
  case_bool_decide as Ho; simpl; [|intros [= ->]; right; naive_solver].
  destruct (decode_mandate_started (payload event)) as [m|]; [|done].
  case_bool_decide as Hl; simpl; [|intros [= ->]; right; naive_solver].
  destruct (String.eqb_spec (started_snapshot_id m) (continuation_snapshot_id request)); simpl;
    [|intros [= ->]; right; naive_solver].
  destruct (match mandate_subject_thread_id (started_subject m) with
            | Some t => Some t | None => _ end) as [t|] eqn:Ht.
  - destruct (String.eqb_spec t (uuid_text (thread_id (continuation_coordinates request)))).
    + intros [= <-]. left. exists m. naive_solver.
    + intros [= ->]. right. split; [done|]. intros m' (_ & _ & [= <-] & _ & _ & Hall).
      rewrite Ht in Hall. by specialize (Hall t eq_refl).
  - intros [= <-]. left. exists m. naive_solver.
Qed.

Lemma mandate_loop request events acc found :
  try_fold (mandate_step request) acc events = Ok found ->
  (forall seq m, (seq, m) ∈ found <-> (seq, m) ∈ acc \/
     exists event, event ∈ events /\ sequence event = seq /\ mandate_fact request event m).
Proof.
  revert acc. induction events as [|event events IH]; intros acc; simpl.
  - intros [= <-] seq m. split; [by left|]. intros [?|(? & ?%elem_of_nil & _)]; done.
  - destruct (mandate_step request acc event) as [acc'|] eqn:Hs; [|done].
    intros Hrest seq m. rewrite (IH _ Hrest). apply mandate_step_ok in Hs as [(m' & Hm' & ->)|[-> Hno]].
    + rewrite elem_of_app, list_elem_of_singleton. split.
      * intros [[?|[= -> ->]]|(e & ? & ? & ?)]; [by left|right; exists event; set_solver|
          right; exists e; set_solver].
      * intros [?|(e & [->|He]%elem_of_cons & Hseq & Hm)]; [by left; left| |right; by exists e].
        left. right. f_equal; [done|]. destruct Hm' as (_ & _ & Hd & _), Hm as (_ & _ & Hd' & _).
        congruence.
    + split; [intros [?|(e & ? & ? & ?)]; [by left|right; exists e; set_solver]|].
      intros [?|(e & [->|He]%elem_of_cons & Hseq & Hm)]; [by left| |right; by exists e].
      by destruct (Hno m).
Qed.

Lemma rejection_none request mandate events :
  mandate_rejection_reason events request mandate = Ok None ->
  forall event p, event ∈ events -> kind event = EventKind.MandateRevoked ->
    origin event = Witnessed -> decode_mandate_revoked (payload event) = Ok p ->
    mandate_loop_id (revoked_subject p) = Some (loop_id (continuation_subject request)) ->
    revoked_snapshot_id p = continuation_snapshot_id request ->
    revoked_mandate_id p <> started_mandate_id mandate.
Proof.
  induction events as [|e events IH]; simpl; [set_solver|].
  intros Hr event p Hin Hk Ho Hd Hl Hs Hm. apply elem_of_cons in Hin as [->|Hin].
  - rewrite !bool_decide_true, Hd in Hr by done. simpl in Hr.
    by rewrite bool_decide_true, Hs, Hm, !String.eqb_refl in Hr.
  - destruct (_ || _); [by apply (IH Hr event p)|].
    destruct (decode_mandate_revoked (payload e)) as [q|]; [|done].
    destruct (_ && _); [done|]. by apply (IH Hr event p).
Qed.

(** C37 - A turn continues only under a live mandate: an acceptance comes from the single
    fresh continuation request of the loop, and from the latest witnessed mandate for that
    loop, snapshot and thread, which no witnessed revocation names, whose budget is not used
    up and which has not expired. *)
Theorem continuation_accepted_only_under_mandate store request id mandate_id input :
  log_valid store ->
  decide_turn_continuation store request = Ok (Accept id mandate_id input) ->
  let events := log_events store (control_stream_id (continuation_coordinates request)) in
  (exists event p, event ∈ events /\ event_id event = id /\
     continuation_fact request event = Some (id, p) /\ input = continue_next_turn_input p /\
     forall other, other ∈ events -> continuation_fact request other <> None -> other = event) /\
  exists event mandate, event ∈ events /\ mandate_fact request event mandate /\
    mandate_id = started_mandate_id mandate /\
    (forall other m, other ∈ events -> mandate_fact request other m ->
       (sequence other <= sequence event)%Z) /\
    (forall other p, other ∈ events -> kind other = EventKind.MandateRevoked ->
       origin other = Witnessed -> decode_mandate_revoked (payload other) = Ok p ->
       mandate_loop_id (revoked_subject p) = Some (loop_id (continuation_subject request)) ->
       revoked_snapshot_id p = continuation_snapshot_id request ->
       revoked_mandate_id p <> mandate_id) /\
    (forall max, max_continuations mandate = Some max ->
       (completed_continuations request < max)%Z) /\
    (forall expires, expires_at_ms mandate = Some expires -> (now_ms request <= expires)%Z).
Proof.
  intros Hv. unfold decide_turn_continuation. rewrite read_log_valid by done. cbn [result_bind].
  set (events := log_events store (control_stream_id (continuation_coordinates request))).
  rewrite continuation_loop. destruct (head _) as [d|] eqn:Hmal.
  { intros [= ->]. destruct (omap (malformed_continuation request) events) as [|d l] eqn:Hl; [done|].
    injection Hmal as ->. assert (Accept id mandate_id input ∈
      omap (malformed_continuation request) events) as Hin by (rewrite Hl; left).
    apply list_elem_of_omap in Hin as (e & _ & He). unfold malformed_continuation in He.
    repeat case_match; simplify_eq. }
  destruct (omap (continuation_fact request) events) as [|[consumed p] [|]] eqn:Hf; try done.
  unfold latest_matching_mandate.
  destruct (try_fold (mandate_step request) [] events) as [found|] eqn:Hfound; [|done]. simpl.
  pose proof (mandate_loop _ _ _ _ Hfound) as Hin.
  destruct (max_by_key fst found) as [[seq mandate]|] eqn:Hmax; [|done]. simpl.
  apply max_by_key_spec in Hmax as [Hm Hle].
  destruct (mandate_rejection_reason events request mandate) as [[r|]|] eqn:Hrej; try done. simpl.
  destruct (match max_continuations mandate with Some _ => _ | None => _ end) eqn:Hbudget; [done|].
  intros Hacc. assert (id = consumed /\ mandate_id = started_mandate_id mandate /\
    input = continue_next_turn_input p /\ (forall expires, expires_at_ms mandate = Some expires ->
    (now_ms request <= expires)%Z)) as (-> & -> & -> & Hexp).
  { destruct (expires_at_ms mandate) as [x|]; [|by injection Hacc as <- <- <-].
    destruct (Z.ltb_spec x (now_ms request)); [done|]. injection Hacc as <- <- <-.
    split_and!; try done. by intros ? [= <-]. }
  split.
  - destruct (omap_single _ _ _ Hf) as (before & event & after & Hevs & He & Hother).
    exists event, p. split_and!; try done; [rewrite Hevs; set_solver| |].
    + unfold continuation_fact in He. repeat case_match; by simplify_eq.
    + intros other Ho Hsome. rewrite Hevs in Ho. apply elem_of_app in Ho as [Ho|Ho].
      * by rewrite Hother in Hsome by set_solver.
      * apply elem_of_cons in Ho as [->|Ho]; [done|]. by rewrite Hother in Hsome by set_solver.
  - apply Hin in Hm as [?%elem_of_nil|(event & He & Hseq & Hm)]; [done|].
    exists event, mandate. split_and!; try done.
    + intros other m Ho Hm'. rewrite Hseq. apply (Hle (sequence other, m)). apply Hin.
      right. by exists other.
    + intros other q ????. by eapply rejection_none.
    + intros max Hmx. rewrite Hmx in Hbudget. to_prop. lia.
Qed.

(** ** Placement *)

Definition placement_fact (request : PlacementDecisionRequest) (event : EventRecord) :
    option (EventRecordId * PlacementDecisionPayload) :=
  match decode_placement (payload event) with
  | Ok p =>
      if bool_decide (kind event = EventKind.PlacementDecision) &&
         bool_decide (placement_subject p = request_placement_subject request) &&
         String.eqb (placement_snapshot_id p) (request_placement_snapshot_id request) &&
         fresh_control_event event (placement_request_event_id request)
      then Some (event_id event, p) else None
  | Err _ => None
  end.

Definition malformed_placement (request : PlacementDecisionRequest) (event : EventRecord) :
    option PlacementDecision :=
  match decode_placement (payload event) with
  | Err err =>
      if bool_decide (kind event = EventKind.PlacementDecision) &&
         provenance_reaches_event event (placement_request_event_id request)
      then Some (PlacementDeny (Some (event_id event))
                   ("malformed placement.decision fact: " +:+ err) true) else None
  | Ok _ => None
  end.

Lemma placement_loop request events :
  try_fold (placement_step request) [] events =
  match head (omap (malformed_placement request) events) with
  | Some d => Err d
  | None => Ok (omap (placement_fact request) events)
  end.
Proof.
  set (v e := match malformed_placement request e, placement_fact request e with
              | Some d, _ => Stop d | None, Some x => Add x | None, None => Skip end).
  rewrite (try_fold_verdict _ v (fun acc x => acc ++ [x])).
  - rewrite fold_left_snoc. simpl.
    assert (forall e, stopped (v e) = malformed_placement request e /\
      added (v e) = placement_fact request e) as Hparts.
    { intros e. unfold v, malformed_placement, placement_fact.
      destruct (decode_placement (payload e)); simpl; by destruct (_ && _). }
    rewrite (omap_ext_all _ (malformed_placement request)) by apply Hparts.
    by rewrite (omap_ext_all (fun e => added (v e)) (placement_fact request)) by apply Hparts.
  - intros acc e. unfold placement_step, v, malformed_placement, placement_fact.
    destruct (bool_decide (kind e = _)); simpl; [|by destruct (decode_placement (payload e))].
    destruct (decode_placement (payload e)) as [p|err]; [|by destruct (provenance_reaches_event _ _)].
    destruct (bool_decide (placement_subject p = _)), (String.eqb (placement_snapshot_id p) _);
      simpl; try done; by destruct (fresh_control_event _ _).
Qed.

(** Placement is decided by the facts on the control stream: a malformed answer and
    conflicting answers deny, no answer keeps the default, and a single answer is followed
    only to a target the invocation allows - every other outcome fails closed. *)
Theorem decide_placement_spec store request :
  log_valid store ->
  let events := log_events store (control_stream_id (placement_coordinates request)) in
  decide_placement store request = Ok
    match head (omap (malformed_placement request) events),
          omap (placement_fact request) events with
    | Some denied, _ => denied
    | None, [] => PlacementDefault (default_target request)
    | None, [(id, p)] =>
        if decide (placement p ∈ allowed_targets request) then PlacementSelected id (placement p)
        else PlacementDeny (Some id) ("placement " +:+ placement_debug (placement p) +:+
               " is not allowed for this invocation") true
    | None, _ => PlacementDeny None "conflicting placement.decision facts" true
    end.
Proof.
  intros Hv events. unfold decide_placement. rewrite read_log_valid by done. cbn [result_bind].
  fold events. rewrite placement_loop. destruct (head _); [done|].
  destruct (omap _ events) as [|[id p] [|]]; try done.
  destruct (decide _) as [Ha|Ha]; [by rewrite bool_decide_true|by rewrite bool_decide_false].
Qed.

(** ** Pending suspensions *)

(** A suspension that neither a decision nor a completion has settled. *)
Definition unsettled (control_events thread_events : list EventRecord) (event : EventRecord)
    (p : ToolCallSuspendedPayload) : Prop :=
  (forall e d, e ∈ control_events -> kind e = EventKind.ToolCallDecision ->
     decode_tool_decision (payload e) = Ok d ->
     (decision_subject d, decision_snapshot_id d) <>
     (suspended_subject p, suspended_snapshot_id p)) /\
  (forall e d request, e ∈ thread_events -> kind e = EventKind.ToolCallCompleted ->
     decode_tool_completed (payload e) = Ok d ->
     suspension_request thread_events event = Ok request ->
     completion_settles request p d = false).

Definition pending_of (event : EventRecord) (p : ToolCallSuspendedPayload) :
    PendingToolCallSuspension :=
  mk_pending (event_id event) (suspended_subject p) (suspended_snapshot_id p)
    (head (source_event_ids (provenance event))) (suspended_approval_id p) (suspended_reason p).

Lemma terminal_subjects_loop events acc found :
  try_fold terminal_subject_step acc events = Ok found ->
  forall key, key ∈ found <-> key ∈ acc \/ exists e d, e ∈ events /\
    decode_tool_decision (payload e) = Ok d /\ key = (decision_subject d, decision_snapshot_id d).
Proof.
  revert acc. induction events as [|e events IH]; intros acc; simpl.
  - intros [= <-] key. split; [by left|]. intros [?|(? & ? & ?%elem_of_nil & _)]; done.
  - unfold terminal_subject_step at 1.
    destruct (decode_tool_decision (payload e)) as [d|] eqn:Hd; [|done].
    intros Hr key. rewrite (IH _ Hr), elem_of_cons. split.
    + intros [[->|?]|(e' & d' & ? & ? & ?)]; [right; exists e, d|by left|right; exists e', d'];
        set_solver.
    + intros [?|(e' & d' & [->|?]%elem_of_cons & Hd' & ->)]; [by left; right| |].
      * left. left. congruence.
      * right. by exists e', d'.
Qed.

Lemma pending_loop thread_events terminal completions events acc found :
  try_fold (pending_step thread_events terminal completions) acc events = Ok found ->
  forall x, x ∈ found <-> x ∈ acc \/ exists e p request, e ∈ events /\
    decode_tool_suspended (payload e) = Ok p /\ suspension_request thread_events e = Ok request /\
    existsb (completion_settles request p) completions = false /\
    (suspended_subject p, suspended_snapshot_id p) ∉ terminal /\ x = pending_of e p.
Proof.
  revert acc. induction events as [|e events IH]; intros acc; simpl.
  - intros [= <-] x. split; [by left|]. intros [?|(? & ? & ? & ?%elem_of_nil & _)]; done.
  - unfold pending_step at 1. fold (pending_step thread_events terminal completions).
    destruct (decode_tool_suspended (payload e)) as [p|] eqn:Hp; [|done].
    destruct (suspension_request thread_events e) as [request|] eqn:Hreq; [|done]. simpl.
    destruct (existsb _ completions) eqn:Hc; simpl.
    + intros Hr x. rewrite (IH _ Hr). setoid_rewrite elem_of_cons. naive_solver congruence.
    + case_bool_decide as Ht.
      * intros Hr x. rewrite (IH _ Hr). setoid_rewrite elem_of_cons. naive_solver congruence.
      * intros Hr x. rewrite (IH _ Hr), elem_of_app, list_elem_of_singleton.
        setoid_rewrite elem_of_cons. fold (pending_of e p). naive_solver congruence.
Qed.

Lemma pending_loop_requests thread_events terminal completions events acc found :
  try_fold (pending_step thread_events terminal completions) acc events = Ok found ->
  forall e, e ∈ events -> exists request, suspension_request thread_events e = Ok request.
Proof.
  revert acc. induction events as [|e events IH]; intros acc; simpl; [set_solver|].
  unfold pending_step at 1. fold (pending_step thread_events terminal completions).
  destruct (decode_tool_suspended (payload e)) as [p|]; [|done].
  destruct (suspension_request thread_events e) as [request|] eqn:Hreq; [|done]. simpl.
  intros Hr e' [->|He']%elem_of_cons; [by exists request|].
  destruct (_ || _); by eapply IH.
Qed.

Lemma completions_loop events found :
  collect decode_completion events = Ok found ->
  forall c, c ∈ found <-> exists e, e ∈ events /\ decode_tool_completed (payload e) = Ok c.
Proof.
  intros Hf%collect_ok c. unfold decode_completion in Hf. split.
  - intros (i & Hi)%list_elem_of_lookup.
    destruct (Forall2_lookup_r _ _ _ _ _ Hf Hi) as (e & He & Hd). exists e.
    split; [by eapply list_elem_of_lookup_2|]. by destruct (decode_tool_completed (payload e)); simplify_eq/=.
  - intros (e & (i & Hi)%list_elem_of_lookup & Hd).
    destruct (Forall2_lookup_l _ _ _ _ _ Hf Hi) as (c' & Hc & Hd').
    rewrite Hd in Hd'. simplify_eq/=. by eapply list_elem_of_lookup_2.
Qed.

(** The pending list is exactly the unsettled suspensions of the thread's control stream,
    each reported with the request it was raised for, ordered by the text of the event id. *)
Theorem pending_suspensions_spec store c pending :
  log_valid store -> list_pending_tool_call_suspensions store c = Ok pending ->
  let control_events := log_events store (control_stream_id c) in
  let thread_events := log_events store (for_thread c) in
  Sorted (fun a b => str_cmp (uuid_text (suspended_event_id a))
                       (uuid_text (suspended_event_id b)) <> Gt) pending /\
  forall x, x ∈ pending <->
    exists event p, event ∈ control_events /\ kind event = EventKind.ToolCallSuspended /\
      decode_tool_suspended (payload event) = Ok p /\ x = pending_of event p /\
      unsettled control_events thread_events event p.
Proof.
  intros Hv Hl control_events thread_events.
  unfold list_pending_tool_call_suspensions in Hl. rewrite !read_log_valid in Hl by done.
  cbn [result_bind] in Hl. fold control_events thread_events in Hl.
  apply bind_ok in Hl as (terminal & Ht & Hl). apply bind_ok in Hl as (completions & Hcs & Hl).
  apply bind_ok in Hl as (found & Hf & [= <-]). split; [apply sort_by_key_sorted|].
  intros x. rewrite (sort_by_key_perm _ found), (pending_loop _ _ _ _ _ _ Hf x).
  pose proof (terminal_subjects_loop _ _ _ Ht) as Hterm. pose proof (completions_loop _ _ Hcs) as Hcomp.
  setoid_rewrite list_elem_of_filter in Hterm. setoid_rewrite list_elem_of_filter in Hcomp.
  setoid_rewrite list_elem_of_filter. unfold unsettled. split.
  - intros [?%elem_of_nil|(e & p & request & [Hk He] & Hp & Hreq & Hno & Hnt & ->)]; [done|].
    exists e, p. split_and!; try done.
    + intros e' d He' Hk' Hd Heq. apply Hnt, Hterm. right. exists e', d.
      by rewrite Heq.
    + intros e' d request' He' Hk' Hd Hreq'.
      assert (request' = request) as -> by congruence.
      apply not_true_iff_false. intros Hset. apply not_true_iff_false in Hno. apply Hno.
      apply existsb_exists. exists d. split; [|done]. apply list_elem_of_In, Hcomp.
      by exists e'.
  - intros (e & p & He & Hk & Hp & -> & Hdec & Hset). right.
    assert (exists request, suspension_request thread_events e = Ok request) as [request Hreq].
    { eapply pending_loop_requests; [done|]. by apply list_elem_of_filter. }
    exists e, p, request. split_and!; try done.
    + apply not_true_iff_false. intros (d & Hd%list_elem_of_In & Hs)%existsb_exists.
      apply Hcomp in Hd as (e' & [Hk' He'] & Hd). by rewrite (Hset e' d request) in Hs.
    + intros [?%elem_of_nil|(e' & d & [Hk' He'] & Hd & Heq)]%Hterm; [done|].
      by apply (Hdec e' d).
Qed.
End ControlFacts.
