(* ===== verification/ControlExamples.v ===== *)
(** * Control decisions on concrete streams

    The theorems of [ControlFacts] on an in-memory store holding real events,
    with decoders for the payloads they use. *)

From stdpp Require Import base gmap sets list strings pretty sorting relations.
From Stdlib Require Import ZArith Lia.
From S2P Require Import Prelude Json EventKind Contracts Records Store Journal StoreOps StoreInv StoreProps EventLog Control ControlFacts.

Local Open Scope string_scope.
Local Open Scope list_scope.

Module ControlExamples.
#[local] Existing Instance decimal_uuid_text.

(** ** Decoders *)

Definition text (key : string) (v : json) : option string := value_get key v ≫= as_str.

Definition required {A} (o : option A) : result A string := ok_or o "missing field".

Definition tool_subject_of (v : json) : option ToolCallSubject :=
  s ← value_get "subject" v; turn ← text "turn_id" s; call ← text "call_id" s;
  Some (mk_tool_subject turn call).

Definition decode_decision (v : json) : result ToolCallDecisionPayload string :=
  required (s ← tool_subject_of v; snapshot ← text "snapshot_id" v;
    o ← value_get "outcome" v; decision ← text "decision" o;
    if String.eqb decision "allow" then Some (mk_tool_decision s snapshot OutcomeAllow None)
    else Some (mk_tool_decision s snapshot (OutcomeDeny decision) None)).

Definition decode_suspended (v : json) : result ToolCallSuspendedPayload string :=
  required (s ← tool_subject_of v; snapshot ← text "snapshot_id" v;
    Some (mk_tool_suspended s snapshot (text "approval_id" v) (text "reason" v))).

Definition decode_continue (v : json) : result TurnContinueRequestedPayload string :=
  required (s ← value_get "subject" v; loop ← text "loop_id" s; turn ← text "parent_turn_id" s;
    snapshot ← text "snapshot_id" v; next ← text "next_turn_input" v;
    Some (mk_continue_requested (mk_continuation_subject loop turn) snapshot next)).

Definition decode_mandate (v : json) : result MandateStartedPayload string :=
  required (s ← value_get "subject" v; mandate ← text "mandate_id" v; snapshot ← text "snapshot_id" v;
    Some (mk_mandate_started (mk_mandate_subject (text "thread_id" s) (text "loop_id" s)) mandate
            snapshot None (Some 3%Z) None None None None None)).

Definition decode_place (v : json) : result PlacementDecisionPayload string :=
  required (s ← value_get "subject" v; invocation ← text "invocation_id" s;
    snapshot ← text "snapshot_id" v; target ← text "placement" v;
    Some (mk_placement_decision (mk_placement_subject invocation) snapshot
            (if String.eqb target "remote" then Remote else Local))).

#[local] Instance codec : ControlCodec := {|
  decode_tool_decision := decode_decision;
  decode_tool_suspended := decode_suspended;
  decode_tool_requested := fun _ => Err "missing field";
  decode_tool_completed := fun _ => Err "missing field";
  decode_continue_requested := decode_continue;
  decode_mandate_started := decode_mandate;
  decode_mandate_revoked := fun _ => Err "missing field";
  decode_placement := decode_place;
  rfc3339_millis := fun _ => None;
|}.

(** ** A control stream *)

Definition me : ThreadCoordinates := sample_coordinates 7.

Definition call_payload (rest : list (string * json)) : json :=
  jobj ([("subject", jobj [("turn_id", JString "t1"); ("call_id", JString "c1")]);
         ("snapshot_id", JString "s1")] ++ rest).

Definition allow_event (id : EventRecordId) : NewEventRecord :=
  witnessed id 5 me EventKind.ToolCallDecision
    (call_payload [("outcome", jobj [("decision", JString "allow")])]).

Definition suspend_event (id : EventRecordId) : NewEventRecord :=
  witnessed id 5 me EventKind.ToolCallSuspended (call_payload [("approval_id", JString "a1")]).

Definition mandate_event (id : EventRecordId) : NewEventRecord :=
  witnessed id 5 me EventKind.MandateStarted
    (jobj [("subject", jobj [("loop_id", JString "l1")]); ("mandate_id", JString "m1");
           ("snapshot_id", JString "s1")]).

Definition continue_event (id : EventRecordId) : NewEventRecord :=
  witnessed id 5 me EventKind.TurnContinueRequested
    (jobj [("subject", jobj [("loop_id", JString "l1"); ("parent_turn_id", JString "t1")]);
           ("snapshot_id", JString "s1"); ("next_turn_input", JString "go on")]).

Definition place_event (id : EventRecordId) : NewEventRecord :=
  witnessed id 5 me EventKind.PlacementDecision
    (jobj [("subject", jobj [("invocation_id", JString "i1")]); ("snapshot_id", JString "s1");
           ("placement", JString "remote")]).

Definition holding (records : list NewEventRecord) : Handle :=
  mk_handle (append_events 0 "control:7" records inner_empty).1 0.

Lemma holding_valid records es :
  (append_events 0 "control:7" records inner_empty).2 = Ok es -> log_valid (holding records).
Proof.
  intros Hr. apply wf_journal, reachable_wf, rtc_once.
  apply (step_run _ _ 0 (OpAppendEvents "control:7" records) (Ok tt)); [exact I|].
  unfold run, forget. by rewrite Hr.
Qed.

Definition tool_request : ToolDecisionRequest :=
  mk_tool_request me (mk_tool_subject "t1" "c1") "s1" 50.

Lemma decide_tool_call_spec_witness :
  log_valid (holding [suspend_event 2]) /\
  decide_tool_call (holding [suspend_event 2]) tool_request = Ok (Wait 2 (Some "a1") None).
Proof.
  assert (log_valid (holding [suspend_event 2])) as Hv
    by (eapply holding_valid; vm_compute; reflexivity).
  split; [exact Hv|]. rewrite (decide_tool_call_spec _ tool_request Hv). vm_compute. reflexivity.
Defined.

Lemma tool_call_allowed_only_by_fact_witness :
  exists event, event ∈ log_events (holding [suspend_event 2; allow_event 3]) "control:7" /\
    event_id event = 3%N.
Proof.
  destruct (tool_call_allowed_only_by_fact (holding [suspend_event 2; allow_event 3]) tool_request 3)
    as (event & p & Hin & Hid & _).
  - eapply holding_valid. vm_compute. reflexivity.
  - vm_compute. reflexivity.
  - exists event. split; [exact Hin | exact Hid].
Defined.

Lemma tool_decision_after_append_witness :
  let before := holding [allow_event 3] in
  let out := log_append_fenced "control:7" 2 [allow_event 4] before in
  decide_tool_call before tool_request = Ok (Allow 3) /\
  decide_tool_call out.1 tool_request =
    Ok (Deny None "conflicting terminal tool control facts" true).
Proof.
  intros before out. assert (decide_tool_call before tool_request = Ok (Allow 3)) as Hd
    by (vm_compute; reflexivity).
  split; [exact Hd|].
  rewrite (tool_decision_after_append before out.1 tool_request 2 [allow_event 4]
    [from_new "control:7" 2 (allow_event 4)] 3).
  - vm_compute. reflexivity.
  - eapply holding_valid. vm_compute. reflexivity.
  - exact Hd.
  - vm_compute. reflexivity.
  - intros event ->%list_elem_of_singleton. vm_compute. reflexivity.
Defined.

Definition continuation_request : TurnContinuationDecisionRequest :=
  mk_continuation_request me (mk_continuation_subject "l1" "t1") "s1" 60 100 2.

Lemma continuation_accepted_only_under_mandate_witness :
  let store := holding [mandate_event 1; continue_event 2] in
  decide_turn_continuation store continuation_request = Ok (Accept 2 "m1" "go on") /\
  exists event mandate, event ∈ log_events store "control:7" /\
    mandate_fact continuation_request event mandate.
Proof.
  intros store. assert (decide_turn_continuation store continuation_request =
    Ok (Accept 2 "m1" "go on")) as Hd by (vm_compute; reflexivity).
  split; [exact Hd|].
  destruct (continuation_accepted_only_under_mandate store continuation_request 2 "m1" "go on")
    as (_ & event & mandate & Hin & Hm & _).
  - eapply holding_valid. vm_compute. reflexivity.
  - exact Hd.
  - exists event, mandate. split; [exact Hin | exact Hm].
Defined.

Definition placement_request (allowed : list PlacementTarget) : PlacementDecisionRequest :=
  mk_placement_request me (mk_placement_subject "i1") "s1" 70 Local allowed.

Lemma decide_placement_spec_witness :
  decide_placement (holding [place_event 4]) (placement_request [Local; Remote]) =
    Ok (PlacementSelected 4 Remote) /\
  decide_placement (holding [place_event 4]) (placement_request [Local]) =
    Ok (PlacementDeny (Some 4%N) "placement Remote is not allowed for this invocation" true).
Proof.
  assert (log_valid (holding [place_event 4])) as Hv
    by (eapply holding_valid; vm_compute; reflexivity).
  split.
  - rewrite (decide_placement_spec _ (placement_request [Local; Remote]) Hv). vm_compute. reflexivity.
  - vm_compute. reflexivity.
Defined.

Lemma pending_suspensions_spec_witness :
  list_pending_tool_call_suspensions (holding [suspend_event 2]) me =
    Ok [mk_pending 2 (mk_tool_subject "t1" "c1") "s1" None (Some "a1") None] /\
  exists event p, event ∈ log_events (holding [suspend_event 2]) "control:7" /\
    decode_tool_suspended (payload event) = Ok p.
Proof.
  assert (list_pending_tool_call_suspensions (holding [suspend_event 2]) me =
    Ok [mk_pending 2 (mk_tool_subject "t1" "c1") "s1" None (Some "a1") None]) as Hl
    by (vm_compute; reflexivity).
  split; [exact Hl|].
  destruct (pending_suspensions_spec (holding [suspend_event 2]) me
    [mk_pending 2 (mk_tool_subject "t1" "c1") "s1" None (Some "a1") None]) as [_ Hp].
  - eapply holding_valid. vm_compute. reflexivity.
  - exact Hl.
  - destruct (proj1 (Hp _) (proj2 (list_elem_of_singleton _ _) eq_refl))
      as (event & p & Hin & _ & Hd & _).
    exists event, p. split; [exact Hin | exact Hd].
Defined.
End ControlExamples.
