(* ===== verification/Lease.v ===== *)
(** * Stream leases and write credentials

    Models the durable authority of
    [crates/verlet-kernel/src/daemon/remote_store/lease.rs]: its two tables as
    lists of rows, each transaction as a state-passing function that leaves the
    tables alone when it fails, and each query as the rows it selects.  The
    event store whose transaction an append shares is any [EventStore]; the
    digest of a token is a parameter.  The clock, the ids and the tokens drawn
    are arguments. *)

From stdpp Require Import base gmap sets list strings pretty.
From Stdlib Require Import ZArith Lia.
From S2P Require Import Prelude Json EventKind Contracts Records Store EventLog.

Local Open Scope verlet_scope.
Local Open Scope string_scope.
Local Open Scope list_scope.

Definition SYNC_STREAM_LEASE_SCHEMA_V1 : string := "cooldis.stream.sync_lease/1".
Definition SYNC_STREAM_WRITE_CREDENTIAL_SCHEMA_V1 : string :=
  "cooldis.stream.sync_write_credential/1".

Notation StreamLeaseId := string (only parsing).
Notation StreamPrefixScope := string (only parsing).
Notation DispatchId := string (only parsing).

(** ** Scopes *)

(** The end of [prefix_contains] and of [authorizes]: nothing is left, or a colon comes next. *)
Definition scope_boundary (suffix : string) : bool :=
  String.eqb suffix "" || starts_with ":" suffix.

Definition prefix_contains (prefix candidate : string) : bool :=
  if String.eqb prefix "" then false
  else match strip_prefix prefix candidate with
       | Some suffix => scope_boundary suffix
       | None => false
       end.

(** [StreamPrefixScope::authorizes]. *)
Definition authorizes (scope : StreamPrefixScope) (stream : EventStreamId) : bool :=
  if String.eqb scope "" then false
  else match strip_prefix scope stream with
       | Some suffix => scope_boundary suffix
       | None => false
       end.

Definition scopes_overlap (left right : StreamPrefixScope) : bool :=
  prefix_contains left right || prefix_contains right left.

(** ** Rows *)

Record StreamLeaseGrantV1 : Type := mk_grant {
  grant_schema : string;
  grant_lease_id : StreamLeaseId;
  grant_scope : StreamPrefixScope;
  grant_holder_dispatch_id : DispatchId;
  grant_superseded_lease_id : option StreamLeaseId;
  grant_granted_at_ms : Z;
  grant_expires_at_ms : Z;
}.

Record DurableLease : Type := mk_lease {
  lease_id : StreamLeaseId;
  lease_scope : StreamPrefixScope;
  scope_generation : Z;
  holder_dispatch_id : DispatchId;
  predecessor_lease_id : option StreamLeaseId;
  granted_at_ms : Z;
  expires_at_ms : Z;
  released_at_ms : option Z;
}.

(** [DurableLease::grant]. *)
Definition lease_grant (l : DurableLease) : StreamLeaseGrantV1 :=
  mk_grant SYNC_STREAM_LEASE_SCHEMA_V1 (lease_id l) (lease_scope l) (holder_dispatch_id l)
    (predecessor_lease_id l) (granted_at_ms l) (expires_at_ms l).

(** A row of [cooldis_stream_write_credentials]. *)
Record CredentialRow : Type := mk_credential_row {
  row_credential_id : string;
  row_token_digest : string;
  row_scope : StreamPrefixScope;
  row_lease_id : StreamLeaseId;
  row_minted_at_ms : Z;
  row_revoked_at_ms : option Z;
}.

Record StreamWriteCredentialV1 : Type := mk_credential {
  credential_schema : string;
  credential_id : string;
  credential_scope : StreamPrefixScope;
  credential_lease_id : StreamLeaseId;
  minted_at_ms : Z;
}.

Record VerifiedPushIdentity : Type := mk_identity {
  identity_credential_id : string;
  identity_scope : StreamPrefixScope;
  identity_lease_id : StreamLeaseId;
}.

Inductive LeaseFenceDecision : Type := Current | Superseded | Expired | Unknown.

#[global] Instance LeaseFenceDecision_eq_dec : EqDecision LeaseFenceDecision.
Proof. solve_decision. Defined.

(** [LeaseFenceDecision::permits_push]. *)
Definition permits_push (d : LeaseFenceDecision) : bool :=
  match d with Current => true | _ => false end.

Inductive LeaseFencedAppendOutcome : Type :=
  | Appended (ack : StreamAppendAckV1)
  | LeaseRejected (fence : LeaseFenceDecision)
  | SequenceFenceConflict (actual_next_sequence : EventSequence).

(** The tables, and the event store they share a database with. *)
Record Authority (S : Type) : Type := mk_authority {
  leases : list DurableLease;
  credentials : list CredentialRow;
  event_store : S;
}.
Arguments mk_authority {S} _ _ _.
Arguments leases {S} _.
Arguments credentials {S} _.
Arguments event_store {S} _.

(** ** Queries *)

Definition lease_by_id (rows : list DurableLease) (id : StreamLeaseId) : option DurableLease :=
  snd <$> list_find (fun l => lease_id l = id) rows.

Definition latest_lease_for_scope (rows : list DurableLease) (scope : StreamPrefixScope) :
    option DurableLease :=
  max_by_key scope_generation (filter (fun l => lease_scope l = scope) rows).

(** [lease.scope_generation = (SELECT MAX ... WHERE latest.scope = lease.scope)]. *)
Definition is_latest (rows : list DurableLease) (l : DurableLease) : bool :=
  bool_decide (scope_generation <$> latest_lease_for_scope rows (lease_scope l) =
               Some (scope_generation l)).

Definition is_live_row (rows : list DurableLease) (l : DurableLease) : bool :=
  is_none (released_at_ms l) && is_latest rows l.

Definition latest_unreleased_leases (rows : list DurableLease) : list DurableLease :=
  sort_by_key lease_scope (filter (fun l => is_live_row rows l = true) rows).

(** [fence_decision]. *)
Definition fence_decision (rows : list DurableLease) (stream : EventStreamId)
    (presented : StreamLeaseId) (now_ms : Z) : LeaseFenceDecision :=
  match lease_by_id rows presented with
  | None => Unknown
  | Some lease =>
      if negb (authorizes (lease_scope lease) stream) then Unknown
      else if negb (is_none (released_at_ms lease)) ||
              negb (bool_decide (lease_id <$> latest_lease_for_scope rows (lease_scope lease) =
                                 Some presented))
      then Superseded
      else
        let covering := filter (fun l => authorizes (lease_scope l) stream = true)
                          (latest_unreleased_leases rows) in
        if negb (bool_decide (lease_id <$> covering = [presented])) then Superseded
        else if (expires_at_ms lease <=? now_ms)%Z then Expired
        else Current
  end.

Definition lease_expiry (now_ms lease_ttl_ms : Z) : VerletResult Z :=
  ok_or (i64_checked_add now_ms lease_ttl_ms) (HistoryText "lease expiry timestamp overflow").

(** ** Transactions *)

Section Authority.
Context {S : Type} `{EventStore S} (token_digest : string -> string) (lease_ttl_ms : Z).

Notation Tx A := (st (Authority S) VerletError A).

Definition fail {A} (message : string) : Tx A := st_lift (Err (HistoryText message)).

Definition set_leases (f : list DurableLease -> list DurableLease) (a : Authority S) :
    Authority S :=
  mk_authority (f (leases a)) (credentials a) (event_store a).
Definition set_credentials (f : list CredentialRow -> list CredentialRow) (a : Authority S) :
    Authority S :=
  mk_authority (leases a) (f (credentials a)) (event_store a).
Definition set_event_store (s : S) (a : Authority S) : Authority S :=
  mk_authority (leases a) (credentials a) s.

(** [INSERT INTO cooldis_stream_leases], under the table's key and its unique constraint. *)
Definition insert_lease (l : DurableLease) : Tx unit :=
  a <-! st_get ;;
  if existsb (fun r => String.eqb (lease_id r) (lease_id l)) (leases a) ||
     existsb (fun r => String.eqb (lease_scope r) (lease_scope l) &&
                       (scope_generation r =? scope_generation l)%Z) (leases a)
  then st_lift (Err (ConstraintFailed "cooldis_stream_leases"))
  else st_modify (set_leases (fun rows => rows ++ [l])).

(** [INSERT INTO cooldis_stream_write_credentials]. *)
Definition insert_credential (c : CredentialRow) : Tx unit :=
  a <-! st_get ;;
  if existsb (fun r => String.eqb (row_credential_id r) (row_credential_id c)) (credentials a) ||
     existsb (fun r => String.eqb (row_token_digest r) (row_token_digest c)) (credentials a)
  then st_lift (Err (ConstraintFailed "cooldis_stream_write_credentials"))
  else st_modify (set_credentials (fun rows => rows ++ [c])).

(** [SET revoked_at_ms = COALESCE(revoked_at_ms, ?2)]. *)
Definition revoke_row (now_ms : Z) (c : CredentialRow) : CredentialRow :=
  mk_credential_row (row_credential_id c) (row_token_digest c) (row_scope c) (row_lease_id c)
    (row_minted_at_ms c) (Some (default now_ms (row_revoked_at_ms c))).

(** [revoke_lease_credentials]. *)
Definition revoke_lease_credentials (id : StreamLeaseId) (now_ms : Z) :
    Authority S -> Authority S :=
  set_credentials (map (fun c => if String.eqb (row_lease_id c) id then revoke_row now_ms c else c)).

(** [StreamLeaseAuthority::grant_lease]; [fresh] is the uuid text drawn for the id. *)
Definition grant_lease (now_ms : Z) (fresh : string) (scope : StreamPrefixScope)
    (holder : DispatchId) (superseded_lease_id : option StreamLeaseId) : Tx StreamLeaseGrantV1 :=
  if String.eqb scope "" then fail "cannot grant an empty stream scope"
  else
    a <-! st_get ;;
    expires <-! st_lift (lease_expiry now_ms lease_ttl_ms) ;;
    let predecessor := latest_lease_for_scope (leases a) scope in
    if negb (bool_decide (lease_id <$> predecessor = superseded_lease_id))
    then fail "lease lineage does not name the immediately preceding grant"
    else if existsb (fun live => negb (String.eqb (lease_scope live) scope) &&
                                 scopes_overlap (lease_scope live) scope)
              (latest_unreleased_leases (leases a))
    then fail "stream lease scope overlaps a different live scope"
    else
      generation <-! st_lift
        match predecessor with
        | None => Ok 1%Z
        | Some previous => ok_or (i64_checked_add (scope_generation previous) 1)
                             (HistoryText "lease scope generation overflow")
        end ;;
      let lease := mk_lease ("lease_" +:+ fresh) scope generation holder superseded_lease_id now_ms
                     expires None in
      insert_lease lease ;;!
      st_modify match predecessor with
                | Some previous => revoke_lease_credentials (lease_id previous) now_ms
                | None => fun a => a
                end ;;!
      st_ret (lease_grant lease).

Definition set_expiry (id : StreamLeaseId) (expires : Z) (l : DurableLease) : DurableLease :=
  if String.eqb (lease_id l) id
  then mk_lease (lease_id l) (lease_scope l) (scope_generation l) (holder_dispatch_id l)
         (predecessor_lease_id l) (granted_at_ms l) expires (released_at_ms l)
  else l.

(** [StreamLeaseAuthority::renew_lease]. *)
Definition renew_lease (now_ms : Z) (id : StreamLeaseId) : Tx StreamLeaseGrantV1 :=
  a <-! st_get ;;
  match lease_by_id (leases a) id with
  | None => fail "cannot renew an unknown stream lease"
  | Some lease =>
      let latest := latest_lease_for_scope (leases a) (lease_scope lease) in
      if negb (is_none (released_at_ms lease)) || negb (bool_decide (lease_id <$> latest = Some id))
      then fail "cannot renew a superseded or released stream lease"
      else
        expires <-! st_lift (lease_expiry now_ms lease_ttl_ms) ;;
        let expires := Z.max expires (expires_at_ms lease) in
        st_modify (set_leases (map (set_expiry id expires))) ;;!
        st_ret (lease_grant (set_expiry id expires lease))
  end.

Definition set_released (id : StreamLeaseId) (now_ms : Z) (l : DurableLease) : DurableLease :=
  if String.eqb (lease_id l) id
  then mk_lease (lease_id l) (lease_scope l) (scope_generation l) (holder_dispatch_id l)
         (predecessor_lease_id l) (granted_at_ms l) (expires_at_ms l) (Some now_ms)
  else l.

(** [StreamLeaseAuthority::release_lease]. *)
Definition release_lease (now_ms : Z) (id : StreamLeaseId) : Tx unit :=
  a <-! st_get ;;
  match lease_by_id (leases a) id with
  | None => st_ret tt
  | Some lease =>
      let latest := latest_lease_for_scope (leases a) (lease_scope lease) in
      if is_none (released_at_ms lease) && bool_decide (lease_id <$> latest = Some id)
      then
        st_modify (set_leases (map (set_released id now_ms))) ;;!
        st_modify (revoke_lease_credentials id now_ms)
      else st_ret tt
  end.

(** [StreamLeaseAuthority::check_fence]. *)
Definition check_fence (a : Authority S) (now_ms : Z) (stream : EventStreamId)
    (presented : StreamLeaseId) : LeaseFenceDecision :=
  fence_decision (leases a) stream presented now_ms.

(** [StreamLeaseAuthority::append_if_current]. *)
Definition append_if_current (now_ms : Z) (stream : EventStreamId) (presented : StreamLeaseId)
    (expected_next_sequence : EventSequence) (records : list NewEventRecord) :
    Tx LeaseFencedAppendOutcome :=
  a <-! st_get ;;
  let decision := fence_decision (leases a) stream presented now_ms in
  if negb (bool_decide (decision = Current)) then st_ret (LeaseRejected decision)
  else
    match log_append_fenced stream expected_next_sequence records (event_store a) with
    | (store, Ok es) =>
        ack <-! st_lift (map_err HistoryFailed
          (from_appended stream es [StreamCommitted; QueryProjected])) ;;
        st_modify (set_event_store store) ;;!
        st_ret (Appended ack)
    | (_, Err (AppendFenceConflict _ _ actual)) => st_ret (SequenceFenceConflict actual)
    | (_, Err e) => st_lift (Err (HistoryFailed e))
    end.

(** [SyncCredentialAuthority::mint_credential]; [fresh] and [secret] are the uuid texts drawn
    for the id and the token. *)
Definition mint_credential (now_ms : Z) (fresh secret : string) (grant : StreamLeaseGrantV1) :
    Tx (StreamWriteCredentialV1 * string) :=
  a <-! st_get ;;
  let durable := lease_by_id (leases a) (grant_lease_id grant) in
  let latest := latest_lease_for_scope (leases a) (grant_scope grant) in
  if negb (String.eqb (grant_schema grant) SYNC_STREAM_LEASE_SCHEMA_V1) ||
     match durable with
     | None => true
     | Some lease => negb (is_none (released_at_ms lease)) ||
                     negb (String.eqb (lease_scope lease) (grant_scope grant))
     end ||
     negb (bool_decide (lease_id <$> latest = Some (grant_lease_id grant)))
  then fail "cannot mint a credential for a non-current stream lease grant"
  else
    let id := "credential_" +:+ fresh in
    let token := "cooldis_sync_" +:+ secret in
    insert_credential (mk_credential_row id (token_digest token) (grant_scope grant)
                         (grant_lease_id grant) now_ms None) ;;!
    st_ret (mk_credential SYNC_STREAM_WRITE_CREDENTIAL_SCHEMA_V1 id (grant_scope grant)
              (grant_lease_id grant) now_ms, token).

(** [SyncCredentialAuthority::verify_token]. *)
Definition verify_token (a : Authority S) (token : string) : option VerifiedPushIdentity :=
  let digest := token_digest token in
  (fun found : nat * CredentialRow => mk_identity (row_credential_id found.2) (row_scope found.2)
                                        (row_lease_id found.2))
    <$> list_find (fun c =>
          String.eqb (row_token_digest c) digest && is_none (row_revoked_at_ms c) &&
          existsb (fun l => String.eqb (lease_id l) (row_lease_id c) &&
                            String.eqb (lease_scope l) (row_scope c) && is_live_row (leases a) l)
            (leases a) = true) (credentials a).

(** [SyncCredentialAuthority::revoke_credential]. *)
Definition revoke_credential (now_ms : Z) (id : string) : Tx unit :=
  st_modify (set_credentials
    (map (fun c => if String.eqb (row_credential_id c) id then revoke_row now_ms c else c))).
End Authority.
