(* ===== verification/LeaseFacts.v ===== *)
(** * Single-writer leases

    When scopes overlap, which rows are live, the invariant of the lease table
    and the changes of rows that keep it, and what the fence answers for a table
    that satisfies it. *)

From stdpp Require Import base gmap sets list strings pretty sorting relations.
From Stdlib Require Import ZArith Lia.
From S2P Require Import Prelude Json EventKind Contracts Records Store EventLog Lease.

Local Open Scope string_scope.
Local Open Scope list_scope.

(** ** Scopes *)

Lemma authorizes_iff scope stream :
  authorizes scope stream = true <->
  scope <> "" /\ (stream = scope \/ exists rest, stream = (scope +:+ ":" +:+ rest)).
Proof.
  unfold authorizes, scope_boundary. destruct (String.eqb_spec scope "") as [->|Hne].
  { naive_solver. }
  destruct (strip_prefix scope stream) as [r|] eqn:Hr.
  - apply strip_prefix_spec in Hr as ->. rewrite orb_true_iff, String.eqb_eq, starts_with_iff. split.
    + intros [->|(r' & ->)]; split; try done; [left; apply string_app_nil_r|right; by exists r'].
    + intros [_ [Heq|(r' & Heq)]].
      * left. apply (string_app_inj_l scope). by rewrite string_app_nil_r.
      * right. exists r'. by apply string_app_inj_l in Heq.
  - split; [done|]. intros [_ [->|(r & ->)]].
    + by rewrite (proj2 (strip_prefix_spec scope scope "")) in Hr by by rewrite string_app_nil_r.
    + by rewrite (proj2 (strip_prefix_spec scope (scope +:+ ":" +:+ r) (":" +:+ r))) in Hr.
Qed.

Lemma prefix_contains_authorizes p c : prefix_contains p c = authorizes p c.
Proof. done. Qed.

(** Two prefixes of one string are prefixes of each other. *)
Lemma prefixes_comparable p q a b :
  (p +:+ a) = (q +:+ b) -> (exists r, q = (p +:+ r) /\ a = (r +:+ b)) \/
                           (exists r, p = (q +:+ r) /\ b = (r +:+ a)).
Proof.
  revert q. induction p as [|x p IH]; intros [|y q] Heq.
  - left. exists "". by split.
  - left. exists (String y q). by split.
  - right. exists (String x p). by split.
  - injection Heq as -> Heq. destruct (IH q Heq) as [(r & -> & ->)|(r & -> & ->)];
      [left|right]; by exists r.
Qed.

(** Scopes that authorize a common stream overlap. *)
Lemma authorized_overlap p q stream :
  authorizes p stream = true -> authorizes q stream = true -> scopes_overlap p q = true.
Proof.
  intros [Hp Ha]%authorizes_iff [Hq Hb]%authorizes_iff.
  assert (exists a, stream = (p +:+ a) /\ (a = "" \/ exists r, a = (":" +:+ r))) as (a & -> & Ha').
  { destruct Ha as [->|(r & ->)]; [exists ""; rewrite string_app_nil_r; by split; [|left]|].
    exists (":" +:+ r). split; [done|right; by exists r]. }
  assert (exists b, (p +:+ a) = (q +:+ b) /\ (b = "" \/ exists r, b = (":" +:+ r))) as (b & Heq & Hb').
  { destruct Hb as [->|(r & ->)]; [exists ""; rewrite string_app_nil_r; by split; [|left]|].
    exists (":" +:+ r). split; [done|right; by exists r]. }
  assert (forall p q r tail, p <> "" -> q = (p +:+ r) ->
    ((r +:+ tail) = "" \/ exists t, (r +:+ tail) = (":" +:+ t)) -> prefix_contains p q = true) as Hgen.
  { intros p' q' r tail Hne -> Hr. rewrite prefix_contains_authorizes. apply authorizes_iff.
    split; [done|]. destruct r as [|x r]; [left; by rewrite string_app_nil_r|right].
    destruct Hr as [Hr|(t & Hr)]; [done|]. injection Hr as -> _. by exists r. }
  unfold scopes_overlap. apply orb_true_iff.
  destruct (prefixes_comparable _ _ _ _ Heq) as [(r & -> & ->)|(r & -> & ->)].
  - left. by apply (Hgen p (p +:+ r) r b).
  - right. by apply (Hgen q (q +:+ r) r a).
Qed.

(** ** Live rows *)

(** The row may write: not released, and no later grant for its scope. *)
Definition live (rows : list DurableLease) (l : DurableLease) : Prop :=
  l ∈ rows /\ released_at_ms l = None /\
  forall r, r ∈ rows -> lease_scope r = lease_scope l -> (scope_generation r <= scope_generation l)%Z.

Record leases_wf (rows : list DurableLease) : Prop := {
  wf_ids : NoDup (lease_id <$> rows);
  wf_generations l r : l ∈ rows -> r ∈ rows -> lease_scope l = lease_scope r ->
    scope_generation l = scope_generation r -> l = r;
  wf_scopes l : l ∈ rows -> lease_scope l <> "";
  wf_disjoint l r : live rows l -> live rows r -> lease_scope l <> lease_scope r ->
    scopes_overlap (lease_scope l) (lease_scope r) = false;
  wf_lineage l : l ∈ rows ->
    match predecessor_lease_id l with
    | None => scope_generation l = 1%Z
    | Some p => exists r, r ∈ rows /\ lease_id r = p /\ lease_scope r = lease_scope l /\
        scope_generation l = (scope_generation r + 1)%Z
    end;
}.

Lemma latest_some rows scope p :
  latest_lease_for_scope rows scope = Some p ->
  p ∈ rows /\ lease_scope p = scope /\
  forall r, r ∈ rows -> lease_scope r = scope -> (scope_generation r <= scope_generation p)%Z.
Proof.
  intros [Hin Hmax]%max_by_key_spec. apply list_elem_of_filter in Hin as [Hs Hin].
  split_and!; try done. intros r Hr Hrs. apply Hmax. by apply list_elem_of_filter.
Qed.

Lemma latest_none rows scope :
  latest_lease_for_scope rows scope = None -> forall r, r ∈ rows -> lease_scope r <> scope.
Proof.
  intros Hnone%max_by_key_none r Hr Hs.
  assert (r ∈ filter (fun l => lease_scope l = scope) rows) as Hin by by apply list_elem_of_filter.
  rewrite Hnone in Hin. by apply elem_of_nil in Hin.
Qed.

Lemma is_none_iff {A} (o : option A) : is_none o = true <-> o = None.
Proof. by destruct o. Qed.

Lemma live_row_iff rows l : l ∈ rows -> is_live_row rows l = true <-> live rows l.
Proof.
  intros Hl. unfold is_live_row, is_latest, live. rewrite andb_true_iff, is_none_iff, bool_decide_eq_true.
  destruct (latest_lease_for_scope rows (lease_scope l)) as [p|] eqn:Hp; simpl.
  - apply latest_some in Hp as (Hin & Hs & Hmax). split.
    + intros [Hn [= Hg]]. split_and!; try done. intros r Hr Hrs. rewrite <- Hg. by apply Hmax.
    + intros (_ & Hn & Hlive). split; [done|]. f_equal.
      pose proof (Hmax l Hl eq_refl). pose proof (Hlive p Hin Hs). lia.
  - by destruct (latest_none _ _ Hp l Hl).
Qed.

Lemma latest_unreleased_iff rows l : l ∈ latest_unreleased_leases rows <-> live rows l.
Proof.
  unfold latest_unreleased_leases. rewrite (sort_by_key_perm _ _), list_elem_of_filter. split.
  - intros [Hl Hin]. by apply live_row_iff.
  - intros Hl. split; [|apply Hl]. apply live_row_iff; [apply Hl|done].
Qed.

Section Rows.
Context (rows : list DurableLease) (Hwf : leases_wf rows).

Lemma same_id l r : l ∈ rows -> r ∈ rows -> lease_id l = lease_id r -> l = r.
Proof.
  intros (i & Hi)%list_elem_of_lookup (j & Hj)%list_elem_of_lookup Heq.
  pose proof (NoDup_lookup _ i j (lease_id l) (wf_ids _ Hwf)) as Hij.
  rewrite !list_lookup_fmap, Hi, Hj in Hij. simpl in Hij. rewrite Heq in Hij.
  specialize (Hij eq_refl eq_refl) as <-. congruence.
Qed.

Lemma lease_by_id_some id l : lease_by_id rows id = Some l <-> l ∈ rows /\ lease_id l = id.
Proof.
  unfold lease_by_id. split.
  - intros ([i l'] & Hf & ->)%fmap_Some. apply list_find_Some in Hf as (Hi & Hid & _).
    split; [by eapply list_elem_of_lookup_2|done].
  - intros [Hl Hid]. destruct (list_find (fun l => lease_id l = id) rows) as [[i l']|] eqn:Hf; simpl.
    + apply list_find_Some in Hf as (Hi & Hid' & _). f_equal. apply list_elem_of_lookup_2 in Hi.
      apply same_id; try done. by rewrite Hid, Hid'.
    + apply list_find_None in Hf. rewrite Forall_forall in Hf. by destruct (Hf l Hl).
Qed.

Lemma latest_iff scope p :
  latest_lease_for_scope rows scope = Some p <->
  p ∈ rows /\ lease_scope p = scope /\
  forall r, r ∈ rows -> lease_scope r = scope -> (scope_generation r <= scope_generation p)%Z.
Proof.
  split; [apply latest_some|]. intros (Hp & Hs & Hmax).
  destruct (latest_lease_for_scope rows scope) as [q|] eqn:Hq.
  - apply latest_some in Hq as (Hin & Hqs & Hqmax). f_equal. apply (wf_generations _ Hwf); try done.
    + by rewrite Hs, Hqs.
    + pose proof (Hmax q Hin Hqs). pose proof (Hqmax p Hp Hs). lia.
  - by destruct (latest_none _ _ Hq p Hp).
Qed.

(** The test of [renew], [release], [mint] and the fence. *)
Lemma live_by_id id l :
  lease_by_id rows id = Some l ->
  released_at_ms l = None /\ lease_id <$> latest_lease_for_scope rows (lease_scope l) = Some id <->
  live rows l.
Proof.
  intros [Hl Hid]%lease_by_id_some. split.
  - intros [Hn (p & Hp & Hpid)%fmap_Some]. apply latest_iff in Hp as (Hin & Hs & Hmax).
    rewrite (same_id p l) in Hmax by (try done; congruence). by split_and!.
  - intros (_ & Hn & Hmax). split; [done|].
    rewrite (proj2 (latest_iff (lease_scope l) l)) by by split_and!. simpl. congruence.
Qed.

Lemma live_same_stream l r stream :
  live rows l -> live rows r -> authorizes (lease_scope l) stream = true ->
  authorizes (lease_scope r) stream = true -> l = r.
Proof.
  intros Hl Hr Ha Hb. destruct (decide (lease_scope l = lease_scope r)) as [Hs|Hs].
  - apply (wf_generations _ Hwf); [apply Hl|apply Hr|done|].
    destruct Hl as (Hl & _ & Hlm), Hr as (Hr & _ & Hrm).
    pose proof (Hlm r Hr (eq_sym Hs)). pose proof (Hrm l Hl Hs). lia.
  - pose proof (wf_disjoint _ Hwf l r Hl Hr Hs) as Hno.
    by rewrite (authorized_overlap _ _ stream Ha Hb) in Hno.
Qed.

Lemma covering_live l stream :
  live rows l -> authorizes (lease_scope l) stream = true ->
  filter (fun r => authorizes (lease_scope r) stream = true) (latest_unreleased_leases rows) = [l].
Proof.
  intros Hl Ha. set (c := filter _ _).
  assert (NoDup c) as Hn.
  { apply NoDup_filter. unfold latest_unreleased_leases. rewrite (sort_by_key_perm _ _).
    apply NoDup_filter, (NoDup_fmap_1 lease_id), (wf_ids _ Hwf). }
  assert (forall r, r ∈ c <-> r = l) as Hc.
  { intros r. unfold c. rewrite list_elem_of_filter, latest_unreleased_iff. split.
    - intros [Hb Hr]. by apply (live_same_stream r l stream).
    - by intros ->. }
  clearbody c. destruct c as [|x [|y c]].
  - by destruct (proj1 (elem_of_nil l) (proj2 (Hc l) eq_refl)).
  - f_equal. apply Hc. left.
  - apply NoDup_cons in Hn as [Hx _]. destruct Hx. rewrite (proj1 (Hc x)) by left.
    rewrite (proj1 (Hc y)) by (right; left). left.
Qed.

(** The fence without its last query: no other live lease ever covers the stream. *)
Lemma fence_decision_eq stream id now_ms :
  fence_decision rows stream id now_ms =
  match lease_by_id rows id with
  | None => Unknown
  | Some l =>
      if negb (authorizes (lease_scope l) stream) then Unknown
      else if negb (is_live_row rows l) then Superseded
      else if (expires_at_ms l <=? now_ms)%Z then Expired
      else Current
  end.
Proof.
  unfold fence_decision. destruct (lease_by_id rows id) as [l|] eqn:Hid; [|done].
  pose proof (live_by_id _ _ Hid) as Hlive. apply lease_by_id_some in Hid as [Hl Hid].
  rewrite <- (live_row_iff rows l Hl) in Hlive.
  destruct (authorizes (lease_scope l) stream) eqn:Ha; [|done]. simpl.
  destruct (is_live_row rows l) eqn:Hrow.
  - destruct (proj2 Hlive eq_refl) as [Hn Hlat]. apply live_row_iff in Hrow; [|done].
    rewrite Hn, Hlat, bool_decide_true, (covering_live l stream Hrow Ha) by done. simpl.
    by rewrite bool_decide_true by by rewrite Hid.
  - rewrite (proj2 (orb_true_iff _ _)); [done|].
    destruct (released_at_ms l) as [t|]; [by left|right]. apply negb_true_iff, bool_decide_eq_false.
    intros Hlat. discriminate (proj1 Hlive (conj eq_refl Hlat)).
Qed.

(** What each answer of the fence means. *)
Definition fence_means (stream : EventStreamId) (id : StreamLeaseId) (now_ms : Z)
    (d : LeaseFenceDecision) : Prop :=
  match d with
  | Unknown => forall l, l ∈ rows -> lease_id l = id -> authorizes (lease_scope l) stream = false
  | Superseded => exists l, l ∈ rows /\ lease_id l = id /\ ~ live rows l /\
      authorizes (lease_scope l) stream = true
  | Expired => exists l, live rows l /\ lease_id l = id /\ authorizes (lease_scope l) stream = true /\
      (expires_at_ms l <= now_ms)%Z
  | Current => exists l, live rows l /\ lease_id l = id /\ authorizes (lease_scope l) stream = true /\
      (now_ms < expires_at_ms l)%Z
  end.

Lemma fence_decision_means stream id now_ms :
  fence_means stream id now_ms (fence_decision rows stream id now_ms).
Proof.
  rewrite fence_decision_eq. destruct (lease_by_id rows id) as [l|] eqn:Hid.
  - apply lease_by_id_some in Hid as [Hl Hid].
    destruct (authorizes (lease_scope l) stream) eqn:Ha; simpl.
    + destruct (is_live_row rows l) eqn:Hrow; simpl.
      * apply live_row_iff in Hrow; [|done].
        destruct (Z.leb_spec (expires_at_ms l) now_ms); by exists l.
      * exists l. split_and!; try done. rewrite <- live_row_iff by done. by rewrite Hrow.
    + intros r Hr Hrid. rewrite (same_id r l) by (done || congruence). done.
  - intros r Hr Hrid. by rewrite (proj2 (lease_by_id_some id r)) in Hid.
Qed.

Lemma fence_current_iff stream id now_ms :
  fence_decision rows stream id now_ms = Current <-> fence_means stream id now_ms Current.
Proof.
  split; [intros Hc; rewrite <- Hc; apply fence_decision_means|].
  intros (l & Hl & Hid & Ha & Hlt). rewrite fence_decision_eq.
  rewrite (proj2 (lease_by_id_some id l)) by (split; [apply Hl|done]).
  rewrite Ha, (proj2 (live_row_iff rows l (proj1 Hl)) Hl). simpl.
  by rewrite (proj2 (Z.leb_gt _ _) Hlt).
Qed.
End Rows.

(** ** Changes of the rows *)

(** An update in place: keys stay, and nothing released becomes unreleased. *)
Record in_place (f : DurableLease -> DurableLease) : Prop := {
  keeps_id l : lease_id (f l) = lease_id l;
  keeps_scope l : lease_scope (f l) = lease_scope l;
  keeps_generation l : scope_generation (f l) = scope_generation l;
  keeps_predecessor l : predecessor_lease_id (f l) = predecessor_lease_id l;
  keeps_released l : released_at_ms (f l) = None -> released_at_ms l = None;
}.

Lemma set_expiry_in_place id expires : in_place (set_expiry id expires).
Proof. split; intros l; unfold set_expiry; by destruct (String.eqb _ _). Qed.

Lemma set_released_in_place id now_ms : in_place (set_released id now_ms).
Proof. split; intros l; unfold set_released; by destruct (String.eqb _ _). Qed.

Lemma map_live f rows l :
  in_place f -> live (map f rows) l -> exists l', l = f l' /\ live rows l'.
Proof.
  intros Hf (Hin & Hn & Hmax). apply list_elem_of_fmap in Hin as (l' & -> & Hl'). exists l'.
  split; [done|]. split_and!; [done|by apply (keeps_released _ Hf)|]. intros r Hr Hs.
  pose proof (Hmax (f r)) as Hle. rewrite !(keeps_scope _ Hf), !(keeps_generation _ Hf) in Hle.
  apply Hle; [by apply list_elem_of_fmap_2|done].
Qed.

Lemma map_wf f rows : in_place f -> leases_wf rows -> leases_wf (map f rows).
Proof.
  intros Hf Hwf. split.
  - replace (lease_id <$> map f rows) with (lease_id <$> rows); [apply (wf_ids _ Hwf)|].
    change (map f rows) with (f <$> rows). rewrite <- list_fmap_compose. apply list_fmap_ext.
    intros i l _. symmetry. apply (keeps_id _ Hf).
  - intros l r (l' & -> & Hl)%list_elem_of_fmap (r' & -> & Hr)%list_elem_of_fmap.
    rewrite !(keeps_scope _ Hf), !(keeps_generation _ Hf). intros Hs Hg. f_equal.
    by apply (wf_generations _ Hwf).
  - intros l (l' & -> & Hl)%list_elem_of_fmap. rewrite (keeps_scope _ Hf). by apply (wf_scopes _ Hwf).
  - intros l r (l' & -> & Hl)%(map_live _ _ _ Hf) (r' & -> & Hr)%(map_live _ _ _ Hf).
    rewrite !(keeps_scope _ Hf). by apply (wf_disjoint _ Hwf).
  - intros l (l' & -> & Hl)%list_elem_of_fmap. pose proof (wf_lineage _ Hwf l' Hl) as Hlin.
    rewrite (keeps_predecessor _ Hf), (keeps_generation _ Hf).
    destruct (predecessor_lease_id l'); [|done]. destruct Hlin as (r & Hr & Hid & Hs & Hg).
    exists (f r). rewrite (keeps_id _ Hf), !(keeps_scope _ Hf), (keeps_generation _ Hf).
    split_and!; try done. by apply list_elem_of_fmap_2.
Qed.

(** The predecessor of a new grant. *)
Definition succeeds (rows : list DurableLease) (l : DurableLease) : Prop :=
  match latest_lease_for_scope rows (lease_scope l) with
  | None => scope_generation l = 1%Z /\ predecessor_lease_id l = None
  | Some p => scope_generation l = (scope_generation p + 1)%Z /\
      predecessor_lease_id l = Some (lease_id p)
  end.

Lemma succeeds_later rows l r :
  succeeds rows l -> r ∈ rows -> lease_scope r = lease_scope l ->
  (scope_generation r < scope_generation l)%Z.
Proof.
  unfold succeeds. destruct (latest_lease_for_scope rows (lease_scope l)) as [p|] eqn:Hp.
  - intros [-> _] Hr Hs. apply latest_some in Hp as (_ & _ & Hmax). specialize (Hmax r Hr Hs). lia.
  - intros _ Hr Hs. by destruct (latest_none _ _ Hp r Hr).
Qed.

Lemma snoc_live rows l r :
  succeeds rows l -> live (rows ++ [l]) r -> r = l \/ live rows r /\ lease_scope r <> lease_scope l.
Proof.
  intros Hs ([Hr|Heq%list_elem_of_singleton]%elem_of_app & Hn & Hmax); [right|by left].
  assert (lease_scope r <> lease_scope l) as Hne.
  { intros Heq. pose proof (succeeds_later _ _ _ Hs Hr Heq).
    assert (l ∈ rows ++ [l]) as Hl by set_solver. specialize (Hmax l Hl (eq_sym Heq)). lia. }
  split; [|done]. split_and!; try done. intros x Hx. apply Hmax. set_solver.
Qed.

Lemma snoc_wf rows l :
  leases_wf rows -> succeeds rows l -> lease_scope l <> "" ->
  (forall r, r ∈ rows -> lease_id r <> lease_id l) ->
  (forall r, live rows r -> lease_scope r <> lease_scope l ->
     scopes_overlap (lease_scope r) (lease_scope l) = false) ->
  leases_wf (rows ++ [l]).
Proof.
  intros Hwf Hs Hne Hid Hover.
  assert (forall r, live (rows ++ [l]) r -> r = l \/ live rows r /\ lease_scope r <> lease_scope l)
    as Hlive by (intros r; by apply snoc_live).
  split.
  - rewrite fmap_app. apply NoDup_app. split_and!; [apply (wf_ids _ Hwf)| |apply NoDup_singleton].
    intros x (r & -> & Hr)%list_elem_of_fmap Hx%list_elem_of_singleton. by apply (Hid r).
  - intros x y [Hx|Heqx%list_elem_of_singleton]%elem_of_app
      [Hy|Heqy%list_elem_of_singleton]%elem_of_app Hsc Hg; subst;
      [by apply (wf_generations _ Hwf)| | |done].
    + pose proof (succeeds_later _ _ _ Hs Hx Hsc). lia.
    + pose proof (succeeds_later _ _ _ Hs Hy (eq_sym Hsc)). lia.
  - intros x [Hx|Heqx%list_elem_of_singleton]%elem_of_app; subst;
      [by apply (wf_scopes _ Hwf)|done].
  - intros x y [->|[Hx Hxs]]%Hlive [->|[Hy Hys]]%Hlive Hneq; [done| | |by apply (wf_disjoint _ Hwf)].
    + unfold scopes_overlap. rewrite orb_comm. by apply Hover.
    + by apply Hover.
  - intros x [Hx|Heqx%list_elem_of_singleton]%elem_of_app; subst.
    + pose proof (wf_lineage _ Hwf x Hx) as Hlin. destruct (predecessor_lease_id x); [|done].
      destruct Hlin as (r & Hr & ?). exists r. split; [set_solver|done].
    + unfold succeeds in Hs. destruct (latest_lease_for_scope rows (lease_scope l)) as [p|] eqn:Hp.
      * destruct Hs as [Hg ->]. apply latest_some in Hp as (Hin & Hps & _). exists p.
        split_and!; try done. set_solver.
      * by destruct Hs as [Hg ->].
Qed.

(** ** Dead leases *)

(** The lease was released, or a later grant exists for its scope. *)
Definition dead (rows : list DurableLease) (id : StreamLeaseId) : Prop :=
  exists l, l ∈ rows /\ lease_id l = id /\
    (released_at_ms l <> None \/
     exists r, r ∈ rows /\ lease_scope r = lease_scope l /\
       (scope_generation l < scope_generation r)%Z).

Lemma dead_not_live rows id l : leases_wf rows -> dead rows id -> live rows l -> lease_id l <> id.
Proof.
  intros Hwf (x & Hx & Hxid & Hdead) (Hl & Hn & Hmax) Hid.
  rewrite <- (same_id rows Hwf x l) in Hn, Hmax by (try done; congruence).
  destruct Hdead as [?|(r & Hr & Hs & Hlt)]; [done|]. specialize (Hmax r Hr Hs). lia.
Qed.

Lemma not_live_dead rows id l :
  leases_wf rows -> l ∈ rows -> lease_id l = id -> ~ live rows l -> dead rows id.
Proof.
  intros Hwf Hl Hid Hno. exists l. split_and!; try done.
  destruct (released_at_ms l) as [t|] eqn:Hn; [by left|right].
  destruct (latest_lease_for_scope rows (lease_scope l)) as [p|] eqn:Hp.
  - apply latest_some in Hp as (Hin & Hs & Hmax). exists p. split_and!; try done.
    destruct (Z.lt_ge_cases (scope_generation l) (scope_generation p)) as [|Hge]; [done|].
    destruct Hno. split_and!; try done. intros r Hr Hrs. specialize (Hmax r Hr Hrs). lia.
  - by destruct (latest_none _ _ Hp l Hl).
Qed.

Lemma dead_map f rows id : in_place f -> dead rows id -> dead (map f rows) id.
Proof.
  intros Hf (l & Hl & Hid & Hdead). exists (f l).
  split; [by apply list_elem_of_fmap_2|]. rewrite (keeps_id _ Hf). split; [done|].
  destruct Hdead as [Hr|(r & Hr & Hs & Hlt)].
  - left. intros Hn. by apply Hr, (keeps_released _ Hf).
  - right. exists (f r). rewrite !(keeps_scope _ Hf), !(keeps_generation _ Hf).
    split_and!; try done. by apply list_elem_of_fmap_2.
Qed.

Lemma dead_snoc rows x id : dead rows id -> dead (rows ++ [x]) id.
Proof.
  intros (l & Hl & Hid & Hdead). exists l. split_and!; [set_solver|done|].
  destruct Hdead as [?|(r & Hr & ?)]; [by left|right]. exists r. split; [set_solver|done].
Qed.
