(* ===== verification/LeaseProps.v ===== *)
(** * The lease authority as a transition system

    The transactions of [Lease] over the invariant of [LeaseFacts]: what every
    reachable authority guarantees to the writers of its streams. *)

From stdpp Require Import sorting base gmap sets list strings pretty relations.
From Stdlib Require Import ZArith Lia.
From S2P Require Import Prelude Json EventKind EventSchemas Contracts Records Store Journal EventLog Lease LeaseFacts.

Local Open Scope string_scope.
Local Open Scope list_scope.

Section Authority.
Context {S : Type} `{EventStore S} (token_digest : string -> string) (lease_ttl_ms : Z).

Notation Authority := (Authority S).

Inductive lease_op : Type :=
  | OpGrant (now_ms : Z) (fresh : string) (scope : StreamPrefixScope) (holder : DispatchId)
      (superseded : option StreamLeaseId)
  | OpRenew (now_ms : Z) (id : StreamLeaseId)
  | OpRelease (now_ms : Z) (id : StreamLeaseId)
  | OpAppend (now_ms : Z) (stream : EventStreamId) (presented : StreamLeaseId)
      (expected : EventSequence) (records : list NewEventRecord)
  | OpMint (now_ms : Z) (fresh secret : string) (grant : StreamLeaseGrantV1)
  | OpRevoke (now_ms : Z) (id : string).

Definition drop_result {A} (out : Authority * VerletResult A) : Authority * VerletResult unit :=
  (out.1, result_map (fun _ => tt) out.2).

Definition run_lease (o : lease_op) (a : Authority) : Authority * VerletResult unit :=
  match o with
  | OpGrant now fresh scope holder superseded =>
      drop_result (grant_lease lease_ttl_ms now fresh scope holder superseded a)
  | OpRenew now id => drop_result (renew_lease lease_ttl_ms now id a)
  | OpRelease now id => drop_result (release_lease now id a)
  | OpAppend now stream presented n records =>
      drop_result (append_if_current now stream presented n records a)
  | OpMint now fresh secret grant =>
      drop_result (mint_credential token_digest now fresh secret grant a)
  | OpRevoke now id => drop_result (revoke_credential now id a)
  end.

Definition authority_step (a a' : Authority) : Prop := exists o r, run_lease o a = (a', r).

Definition authority_empty (s : S) : Authority := mk_authority [] [] s.

Definition authority_reachable (a : Authority) : Prop :=
  exists s, rtc authority_step (authority_empty s) a.

(** Every unrevoked credential belongs to the live lease of its scope. *)
Definition credentials_wf (rows : list DurableLease) (creds : list CredentialRow) : Prop :=
  forall c, c ∈ creds -> row_revoked_at_ms c = None ->
    exists l, live rows l /\ lease_id l = row_lease_id c /\ lease_scope l = row_scope c.

Definition authority_wf (a : Authority) : Prop :=
  leases_wf (leases a) /\ credentials_wf (leases a) (credentials a).

(** ** Effects *)

Lemma insert_lease_ok l (a a' : Authority) u :
  insert_lease l a = (a', Ok u) ->
  a' = set_leases (fun rows => rows ++ [l]) a /\ forall r, r ∈ leases a -> lease_id r <> lease_id l.
Proof.
  unfold insert_lease. intros Hrun. st_inv. destruct (existsb _ _ || _) eqn:Hdup; st_inv; [done|].
  split; [done|]. intros r Hr Heq. apply orb_false_iff in Hdup as [Hdup _].
  apply not_true_iff_false in Hdup. apply Hdup, existsb_exists. exists r.
  split; [by apply list_elem_of_In|]. by apply String.eqb_eq.
Qed.

Lemma insert_credential_ok c (a a' : Authority) u :
  insert_credential c a = (a', Ok u) ->
  a' = set_credentials (fun rows => rows ++ [c]) a /\
  forall r, r ∈ credentials a -> row_credential_id r <> row_credential_id c /\
    row_token_digest r <> row_token_digest c.
Proof.
  unfold insert_credential. intros Hrun. st_inv. destruct (existsb _ _ || _) eqn:Hdup; st_inv; [done|].
  split; [done|]. apply orb_false_iff in Hdup as [Hid Hdig].
  intros r Hr. split; intros Heq; apply not_true_iff_false in Hid, Hdig; [apply Hid|apply Hdig];
    apply existsb_exists; exists r; (split; [by apply list_elem_of_In|by apply String.eqb_eq]).
Qed.

Lemma fail_ok {A} m (a a' : Authority) (x : A) : fail m a <> (a', Ok x).
Proof. done. Qed.

(** What a successful grant did. *)
Lemma grant_effect now fresh scope holder superseded (a a' : Authority) g :
  grant_lease lease_ttl_ms now fresh scope holder superseded a = (a', Ok g) ->
  exists l,
    g = lease_grant l /\ lease_scope l = scope /\ scope <> "" /\ released_at_ms l = None /\
    predecessor_lease_id l = superseded /\ expires_at_ms l = (now + lease_ttl_ms)%Z /\
    succeeds (leases a) l /\ leases a' = leases a ++ [l] /\ event_store a' = event_store a /\
    (forall r, r ∈ leases a -> lease_id r <> lease_id l) /\
    (forall r, live (leases a) r -> lease_scope r <> scope ->
       scopes_overlap (lease_scope r) scope = false) /\
    (forall c, c ∈ credentials a' -> row_revoked_at_ms c = None ->
       c ∈ credentials a /\ superseded <> Some (row_lease_id c)).
Proof.
  unfold grant_lease. destruct (String.eqb_spec scope "") as [|Hne]; [done|]. intros Hrun. st_inv.
  rename a1 into expires.
  case_bool_decide as Hlin; simpl in Hrun; [|done].
  destruct (existsb _ _) eqn:Hover; [done|]. st_inv. rename a0 into generation.
  match goal with Hi : insert_lease _ _ = _ |- _ => apply insert_lease_ok in Hi as [-> Hid] end.
  unfold lease_expiry, i64_checked_add in *. destruct (in_i64 (now + lease_ttl_ms)); [|done].
  simplify_eq/=. set (l := mk_lease _ _ _ _ _ _ _ _) in *. exists l.
  split_and!; try done.
  - unfold succeeds. simpl. destruct (latest_lease_for_scope (leases a) scope) as [p|]; simpl in *.
    + destruct (in_i64 (scope_generation p + 1)); by simplify_eq/=.
    + by simplify_eq/=.
  - by destruct (latest_lease_for_scope (leases a) scope).
  - by destruct (latest_lease_for_scope (leases a) scope).
  - intros r Hr Hs. apply not_true_iff_false. intros Ho. apply not_true_iff_false in Hover.
    apply Hover, existsb_exists. exists r. rewrite Ho.
    split; [by apply list_elem_of_In, latest_unreleased_iff|].
    destruct (String.eqb_spec (lease_scope r) scope); done.
  - intros c Hc Hn. destruct (latest_lease_for_scope (leases a) scope) as [p|]; simpl in Hc; [|done].
    apply list_elem_of_fmap in Hc as (c' & -> & Hc').
    destruct (String.eqb_spec (row_lease_id c') (lease_id p)) as [Heq|Hneq]; [done|].
    split; [done|]. simpl. congruence.
Qed.

Lemma renew_effect now id (a a' : Authority) g :
  renew_lease lease_ttl_ms now id a = (a', Ok g) ->
  exists l, lease_by_id (leases a) id = Some l /\ released_at_ms l = None /\
    lease_id <$> latest_lease_for_scope (leases a) (lease_scope l) = Some id /\
    let expires := Z.max (now + lease_ttl_ms) (expires_at_ms l) in
    g = lease_grant (set_expiry id expires l) /\ a' = set_leases (map (set_expiry id expires)) a.
Proof.
  unfold renew_lease. intros Hrun. st_inv.
  destruct (lease_by_id (leases a) id) as [l|]; [|done].
  destruct (negb (is_none (released_at_ms l)) || _) eqn:Hlive; [done|]. st_inv.
  apply orb_false_iff in Hlive as [Hn Hl]. to_prop. apply is_none_iff in Hn.
  unfold lease_expiry, i64_checked_add in *. destruct (in_i64 (now + lease_ttl_ms)); [|done].
  simplify_eq/=. by exists l.
Qed.

Lemma release_effect now id (a a' : Authority) u :
  release_lease now id a = (a', Ok u) ->
  a' = a /\ (forall l, lease_by_id (leases a) id = Some l -> ~ (released_at_ms l = None /\
    lease_id <$> latest_lease_for_scope (leases a) (lease_scope l) = Some id)) \/
  (exists l, lease_by_id (leases a) id = Some l /\
    a' = revoke_lease_credentials id now (set_leases (map (set_released id now)) a)).
Proof.
  unfold release_lease. intros Hrun. st_inv.
  destruct (lease_by_id (leases a) id) as [l|].
  - destruct (is_none (released_at_ms l) && _) eqn:Hlive; st_inv; [right; by exists l|].
    left. split; [done|]. intros l' [= <-] [Hn Hl]. rewrite Hn in Hlive. simpl in Hlive.
    by rewrite bool_decide_true in Hlive.
  - st_inv. by left.
Qed.

Lemma append_effect now stream id n records (a a' : Authority) out :
  append_if_current now stream id n records a = (a', Ok out) ->
  a' = a /\ (forall ack, out <> Appended ack) \/
  exists store es ack, fence_decision (leases a) stream id now = Current /\
    log_append_fenced stream n records (event_store a) = (store, Ok es) /\
    from_appended stream es [StreamCommitted; QueryProjected] = Ok ack /\
    out = Appended ack /\ a' = set_event_store store a.
Proof.
  unfold append_if_current. intros Hrun. st_inv.
  case_bool_decide as Hc; simpl in Hrun; [|st_inv; subst; by left].
  destruct (log_append_fenced stream n records (event_store a)) as [store [es|e]] eqn:Hlog.
  - st_inv. destruct (from_appended stream es _) as [ack'|e] eqn:Hack; simplify_eq/=. right.
    by eexists store, es, _.
  - destruct e; st_inv; try done; subst; by left.
Qed.

Lemma mint_effect now fresh secret grant (a a' : Authority) c token :
  mint_credential token_digest now fresh secret grant a = (a', Ok (c, token)) ->
  exists l, lease_by_id (leases a) (grant_lease_id grant) = Some l /\ released_at_ms l = None /\
    lease_scope l = grant_scope grant /\
    lease_id <$> latest_lease_for_scope (leases a) (lease_scope l) = Some (grant_lease_id grant) /\
    a' = set_credentials (fun rows => rows ++ [mk_credential_row (credential_id c)
           (token_digest token) (grant_scope grant) (grant_lease_id grant) now None]) a /\
    forall r, r ∈ credentials a ->
      row_credential_id r <> credential_id c /\ row_token_digest r <> token_digest token.
Proof.
  unfold mint_credential. intros Hrun. st_inv.
  destruct (negb (String.eqb _ _) || _ || _) eqn:Hbad; [done|]. st_inv.
  match goal with Hi : insert_credential _ _ = _ |- _ =>
    apply insert_credential_ok in Hi as [-> Hfresh] end.
  apply orb_false_iff in Hbad as [[_ Hl]%orb_false_iff Hlat].
  destruct (lease_by_id (leases a) (grant_lease_id grant)) as [l|]; [|done].
  apply orb_false_iff in Hl as [Hn Hs]. to_prop. apply is_none_iff in Hn. exists l.
  simplify_eq/=. by rewrite Hs.
Qed.

(** ** The invariant *)

Lemma authority_wf_empty s : authority_wf (authority_empty s).
Proof.
  split; [|by intros c ?%elem_of_nil].
  split; simpl; try by intros *; rewrite ?elem_of_nil.
  - constructor.
  - by intros l r [?%elem_of_nil _].
Qed.

(** Credentials survive a change of the rows that keeps the live leases they name. *)
Lemma credentials_wf_mono rows rows' creds creds' :
  credentials_wf rows creds ->
  (forall c, c ∈ creds' -> row_revoked_at_ms c = None -> c ∈ creds /\
     forall l, live rows l -> lease_id l = row_lease_id c ->
       exists l', live rows' l' /\ lease_id l' = lease_id l /\ lease_scope l' = lease_scope l) ->
  credentials_wf rows' creds'.
Proof.
  intros Hwf Hkeep c Hc Hn. destruct (Hkeep c Hc Hn) as [Hold Hlive].
  destruct (Hwf c Hold Hn) as (l & Hl & Hid & Hs). destruct (Hlive l Hl Hid) as (l' & Hl' & Hid' & Hs').
  exists l'. by rewrite Hid', Hs'.
Qed.

Lemma map_live_intro f rows l :
  in_place f -> live rows l -> released_at_ms (f l) = None -> live (map f rows) (f l).
Proof.
  intros Hf (Hl & Hn & Hmax) Hr. split_and!; [by apply list_elem_of_fmap_2|done|].
  intros r (x & -> & Hx)%list_elem_of_fmap. rewrite !(keeps_scope _ Hf), !(keeps_generation _ Hf).
  by apply Hmax.
Qed.

Lemma snoc_live_intro rows l r :
  live rows r -> lease_scope r <> lease_scope l -> live (rows ++ [l]) r.
Proof.
  intros (Hr & Hn & Hmax) Hne. split_and!; [set_solver|done|].
  intros x [Hx|Heq%list_elem_of_singleton]%elem_of_app; [by apply Hmax|]. subst. congruence.
Qed.

Lemma revoked_credentials id now (a : Authority) c :
  c ∈ credentials (revoke_lease_credentials id now a) -> row_revoked_at_ms c = None ->
  c ∈ credentials a /\ row_lease_id c <> id.
Proof.
  intros (c' & -> & Hc')%list_elem_of_fmap. destruct (String.eqb_spec (row_lease_id c') id); [done|].
  by split.
Qed.

Lemma grant_wf now fresh scope holder superseded (a a' : Authority) g :
  grant_lease lease_ttl_ms now fresh scope holder superseded a = (a', Ok g) ->
  authority_wf a -> authority_wf a'.
Proof.
  intros (l & _ & Hs & Hne & _ & Hp & _ & Hsucc & Hrows & _ & Hid & Hover & Hcreds)%grant_effect
    [Hwf Hcwf].
  split; [rewrite Hrows; apply snoc_wf; try done; by rewrite Hs|]. rewrite Hrows.
  apply (credentials_wf_mono _ _ _ _ Hcwf). intros c Hc Hn.
  destruct (Hcreds c Hc Hn) as [Hold Hnot]. split; [done|]. intros r Hr Hrid.
  exists r. split_and!; try done. apply snoc_live_intro; [done|]. intros Hsame. apply Hnot.
  unfold succeeds in Hsucc. rewrite <- Hsame in Hsucc.
  rewrite (proj2 (latest_iff _ Hwf (lease_scope r) r)) in Hsucc by (destruct Hr as (? & ? & ?); done).
  destruct Hsucc as [_ Hpred]. congruence.
Qed.

Lemma renew_wf now id (a a' : Authority) g :
  renew_lease lease_ttl_ms now id a = (a', Ok g) -> authority_wf a -> authority_wf a'.
Proof.
  intros (l & _ & _ & _ & _ & ->)%renew_effect [Hwf Hcwf].
  set (f := set_expiry _ _). assert (in_place f) as Hf by apply set_expiry_in_place.
  split; [by apply map_wf|]. apply (credentials_wf_mono _ _ _ _ Hcwf). intros c Hc _.
  split; [done|]. intros r Hr _. exists (f r). rewrite (keeps_id _ Hf), (keeps_scope _ Hf).
  split_and!; try done. apply map_live_intro; [done|done|]. destruct Hr as (_ & Hn & _).
  unfold f, set_expiry. by destruct (String.eqb _ _).
Qed.

Lemma release_wf now id (a a' : Authority) u :
  release_lease now id a = (a', Ok u) -> authority_wf a -> authority_wf a'.
Proof.
  intros [[-> _]|(l & _ & ->)]%release_effect [Hwf Hcwf]; [done|].
  set (f := set_released _ _). assert (in_place f) as Hf by apply set_released_in_place.
  split; [by apply map_wf|]. apply (credentials_wf_mono _ _ _ _ Hcwf). intros c Hc Hn.
  destruct (revoked_credentials _ _ _ _ Hc Hn) as [Hold Hid]. split; [done|]. intros r Hr Hrid.
  exists (f r). rewrite (keeps_id _ Hf), (keeps_scope _ Hf). split_and!; try done.
  apply map_live_intro; [done|done|]. destruct Hr as (_ & Hn' & _).
  unfold f, set_released. destruct (String.eqb_spec (lease_id r) id); [congruence|done].
Qed.

Lemma mint_wf now fresh secret grant (a a' : Authority) out :
  mint_credential token_digest now fresh secret grant a = (a', Ok out) ->
  authority_wf a -> authority_wf a'.
Proof.
  destruct out as [c token].
  intros (l & Hl & Hn & Hs & Hlat & -> & _)%mint_effect [Hwf Hcwf]. split; [done|].
  intros x [Hx|Heq%list_elem_of_singleton]%elem_of_app Hrev; [by apply Hcwf|]. subst. simpl.
  pose proof (proj1 (live_by_id _ Hwf _ _ Hl) (conj Hn Hlat)) as Hlive. exists l.
  apply lease_by_id_some in Hl as [_ Hid]; [|done]. by split_and!.
Qed.

Lemma revoke_wf now id (a a' : Authority) u :
  revoke_credential now id a = (a', Ok u) -> authority_wf a -> authority_wf a'.
Proof.
  unfold revoke_credential. intros Hrun [Hwf Hcwf]. st_inv. split; [done|].
  intros c (c' & -> & Hc')%list_elem_of_fmap. destruct (String.eqb _ _); [done|].
  by apply Hcwf.
Qed.

(** ** Failures change nothing *)

Lemma insert_lease_err l (a a' : Authority) e : insert_lease l a = (a', Err e) -> a' = a.
Proof. unfold insert_lease. intros Hrun. st_inv. destruct (_ || _); by st_inv. Qed.

Lemma insert_credential_err c (a a' : Authority) e : insert_credential c a = (a', Err e) -> a' = a.
Proof. unfold insert_credential. intros Hrun. st_inv. destruct (_ || _); by st_inv. Qed.

Lemma run_lease_err o (a a' : Authority) e : run_lease o a = (a', Err e) -> a' = a.
Proof.
  assert (forall A (out : Authority * VerletResult A), drop_result out = (a', Err e) ->
    out = (a', Err e)) as Hdrop.
  { intros A [x [y|y]]; unfold drop_result; simpl; by intros [= <- <-]. }
  destruct o; simpl; intros Hrun%Hdrop.
  - unfold grant_lease, fail in Hrun. destruct (String.eqb _ _); st_inv; [done|done|].
    destruct (negb _); [by st_inv|]. destruct (existsb _ _); st_inv; [done|done|].
    by eapply insert_lease_err.
  - unfold renew_lease, fail in Hrun. st_inv. destruct (lease_by_id _ _); [|by st_inv].
    destruct (_ || _); by st_inv.
  - unfold release_lease in Hrun. st_inv. destruct (lease_by_id _ _); [|by st_inv].
    destruct (_ && _); by st_inv.
  - unfold append_if_current in Hrun. st_inv. destruct (negb _); [by st_inv|].
    destruct (log_append_fenced _ _ _ _) as [store [es|err]]; [by st_inv|].
    destruct err; by st_inv.
  - unfold mint_credential, fail in Hrun. st_inv. destruct (_ || _); st_inv; [done|].
    by eapply insert_credential_err.
  - unfold revoke_credential in Hrun. by st_inv.
Qed.

(** ** Steps *)

Lemma drop_result_ok {A} (out : Authority * VerletResult A) a' :
  drop_result out = (a', Ok tt) -> exists x, out = (a', Ok x).
Proof. destruct out as [a1 [x|e]]; unfold drop_result; simpl; intros [= ->]. by exists x. Qed.

Lemma authority_step_wf a a' : authority_step a a' -> authority_wf a -> authority_wf a'.
Proof.
  intros (o & [[]|e] & Hrun) Hwf; [|by rewrite (run_lease_err _ _ _ _ Hrun)].
  destruct o; simpl in Hrun; apply drop_result_ok in Hrun as [x Hrun].
  - by eapply grant_wf.
  - by eapply renew_wf.
  - by eapply release_wf.
  - apply append_effect in Hrun as [[-> _]|(? & ? & ? & _ & _ & _ & _ & ->)]; done.
  - by eapply mint_wf.
  - by eapply revoke_wf.
Qed.

Lemma authority_steps_wf a a' : rtc authority_step a a' -> authority_wf a -> authority_wf a'.
Proof. induction 1; [done|]. eauto using authority_step_wf. Qed.

Lemma authority_reachable_wf a : authority_reachable a -> authority_wf a.
Proof. intros [s Hs]. eapply authority_steps_wf; [exact Hs|apply authority_wf_empty]. Qed.

Lemma dead_step a a' id : authority_step a a' -> dead (leases a) id -> dead (leases a') id.
Proof.
  intros (o & [[]|e] & Hrun) Hd; [|by rewrite (run_lease_err _ _ _ _ Hrun)].
  destruct o; simpl in Hrun; apply drop_result_ok in Hrun as [x Hrun].
  - apply grant_effect in Hrun as (l & _ & _ & _ & _ & _ & _ & _ & -> & _). by apply dead_snoc.
  - apply renew_effect in Hrun as (l & _ & _ & _ & _ & ->). apply dead_map; [|done].
    apply set_expiry_in_place.
  - apply release_effect in Hrun as [[-> _]|(l & _ & ->)]; [done|].
    apply dead_map; [|done]. apply set_released_in_place.
  - by apply append_effect in Hrun as [[-> _]|(? & ? & ? & _ & _ & _ & _ & ->)].
  - destruct x as [c token]. by apply mint_effect in Hrun as (l & _ & _ & _ & _ & -> & _).
  - unfold revoke_credential in Hrun. by st_inv.
Qed.

Lemma dead_steps a a' id : rtc authority_step a a' -> dead (leases a) id -> dead (leases a') id.
Proof. induction 1; [done|]. eauto using dead_step. Qed.

Lemma dead_fence rows stream id now :
  leases_wf rows -> dead rows id -> fence_decision rows stream id now <> Current.
Proof.
  intros Hwf Hd (l & Hl & Hid & _)%fence_current_iff; [|done]. by apply (dead_not_live _ _ _ Hwf Hd Hl).
Qed.

Lemma verify_token_some (a : Authority) token i :
  verify_token token_digest a token = Some i ->
  exists c, c ∈ credentials a /\ row_token_digest c = token_digest token /\
    row_revoked_at_ms c = None /\
    i = mk_identity (row_credential_id c) (row_scope c) (row_lease_id c) /\
    exists l, live (leases a) l /\ lease_id l = row_lease_id c /\ lease_scope l = row_scope c.
Proof.
  unfold verify_token. intros ([n c] & Hf & ->)%fmap_Some.
  apply list_find_Some in Hf as (Hc & Hok & _). apply list_elem_of_lookup_2 in Hc.
  to_prop. match goal with He : existsb _ _ = true |- _ =>
    apply existsb_exists in He as (l & Hl%list_elem_of_In & Hlive) end.
  to_prop. match goal with Hn : is_none _ = true |- _ => apply is_none_iff in Hn end.
  exists c. split_and!; try done. exists l. split_and!; try done. by apply live_row_iff.
Qed.

(** ** Theorems *)

(** The tables always prove who may write: lease ids are unique, grants of a scope are
    numbered without ties and each names the grant right before it as its predecessor (the first
    of a scope names none), scopes of different live leases never overlap, and every unrevoked
    credential belongs to the live lease of its scope. *)
Theorem authority_invariant a : authority_reachable a -> authority_wf a.
Proof. apply authority_reachable_wf. Qed.


(** Authority moves, it never multiplies: from the moment a grant names a lease as its
    predecessor, that lease appends nothing in any later state - every push is rejected without
    effect - it cannot be renewed, and no token resolves to it. *)
Theorem superseded_lease_is_fenced now fresh scope holder old a a1 g a2 :
  authority_reachable a ->
  grant_lease lease_ttl_ms now fresh scope holder (Some old) a = (a1, Ok g) ->
  rtc authority_step a1 a2 ->
  (forall t stream n records, exists d, d <> Current /\
     append_if_current t stream old n records a2 = (a2, Ok (LeaseRejected d))) /\
  (forall t, exists e, renew_lease lease_ttl_ms t old a2 = (a2, Err e)) /\
  (forall token i, verify_token token_digest a2 token = Some i -> identity_lease_id i <> old).
Proof.
  intros Hreach Hgrant Hsteps. pose proof (authority_reachable_wf _ Hreach) as Hwf.
  assert (authority_wf a2) as [Hwf2 _].
  { eapply authority_steps_wf; [done|]. by eapply grant_wf. }
  assert (dead (leases a2) old) as Hdead.
  { apply (dead_steps a1 a2); [done|].
    apply grant_effect in Hgrant as (l & _ & _ & _ & _ & Hp & _ & Hsucc & Hrows & _).
    rewrite Hrows. unfold succeeds in Hsucc. rewrite Hp in Hsucc.
    destruct (latest_lease_for_scope (leases a) (lease_scope l)) as [p|] eqn:Hlat; [|by destruct Hsucc].
    destruct Hsucc as [Hg [= Hid]]. apply latest_some in Hlat as (Hin & Hs & _).
    exists p. split_and!; [set_solver|done|]. right. exists l. split_and!; [set_solver|done|lia]. }
  split_and!.
  - intros t stream n records. exists (fence_decision (leases a2) stream old t).
    pose proof (dead_fence _ stream old t Hwf2 Hdead) as Hf. split; [done|].
    unfold append_if_current, st_bind, st_get, st_ret. by rewrite bool_decide_false.
  - intros t. destruct (renew_lease lease_ttl_ms t old a2) as [a3 [r|e]] eqn:Hr.
    + apply renew_effect in Hr as (l & Hl & Hn & Hlat & _).
      pose proof (proj1 (live_by_id _ Hwf2 _ _ Hl) (conj Hn Hlat)) as Hlive.
      apply lease_by_id_some in Hl as [_ Hid]; [|done].
      by destruct (dead_not_live _ _ _ Hwf2 Hdead Hlive).
    + assert (run_lease (OpRenew t old) a2 = (a3, Err e)) as Hrun by (simpl; by rewrite Hr).
      rewrite (run_lease_err _ _ _ _ Hrun). by exists e.
  - intros token i (c & _ & _ & _ & -> & l & Hl & Hid & _)%verify_token_some. simpl.
    rewrite <- Hid. by apply (dead_not_live _ _ l Hwf2 Hdead).
Qed.

(** A release is final: after the holder of a known lease releases it, no later state lets
    the lease append or resolves a token to it; releasing it again changes nothing. *)
Theorem released_lease_is_fenced now id a a1 u a2 :
  authority_reachable a -> lease_by_id (leases a) id <> None ->
  release_lease now id a = (a1, Ok u) -> rtc authority_step a1 a2 ->
  (forall t stream n records, exists d, d <> Current /\
     append_if_current t stream id n records a2 = (a2, Ok (LeaseRejected d))) /\
  (forall token i, verify_token token_digest a2 token = Some i -> identity_lease_id i <> id) /\
  (forall t, release_lease t id a2 = (a2, Ok tt)).
Proof.
  intros Hreach%authority_reachable_wf Hknown Hrel Hsteps.
  assert (authority_wf a1) as Hwf1 by by eapply release_wf.
  assert (authority_wf a2) as [Hwf2 _] by by eapply authority_steps_wf.
  destruct Hreach as [Hwf _].
  assert (dead (leases a2) id) as Hdead.
  { apply (dead_steps a1 a2); [done|]. apply release_effect in Hrel as [[-> Hno]|(l & Hl & ->)].
    - destruct (lease_by_id (leases a) id) as [l|] eqn:Hl; [|done].
      specialize (Hno l eq_refl). rewrite (live_by_id _ Hwf _ _ Hl) in Hno.
      apply lease_by_id_some in Hl as [Hl Hid]; [|done]. by apply (not_live_dead _ _ l).
    - apply lease_by_id_some in Hl as [Hl Hid]; [|done]. exists (set_released id now l).
      split; [by apply list_elem_of_fmap_2|]. unfold set_released. rewrite Hid, String.eqb_refl.
      split; [done|by left]. }
  split_and!.
  - intros t stream n records. exists (fence_decision (leases a2) stream id t).
    pose proof (dead_fence _ stream id t Hwf2 Hdead) as Hf. split; [done|].
    unfold append_if_current, st_bind, st_get, st_ret. by rewrite bool_decide_false.
  - intros token i (c & _ & _ & _ & -> & l & Hl & Hid & _)%verify_token_some. simpl.
    rewrite <- Hid. by apply (dead_not_live _ _ l Hwf2 Hdead).
  - intros t. unfold release_lease, st_bind, st_get.
    destruct (lease_by_id (leases a2) id) as [l|] eqn:Hl; [|done].
    destruct (is_none (released_at_ms l) && _) eqn:Hlive; [|done]. to_prop.
    match goal with Hn : is_none _ = true |- _ => apply is_none_iff in Hn;
      match goal with Hlat : fmap _ _ = Some id |- _ =>
        pose proof (proj1 (live_by_id _ Hwf2 _ _ Hl) (conj Hn Hlat)) as Hlv end end.
    apply lease_by_id_some in Hl as [_ Hid]; [|done].
    by destruct (dead_not_live _ _ _ Hwf2 Hdead Hlv).
Qed.
End Authority.

(** * What the lease transactions promise

    The effect of each transaction of [Lease] on the writers of a stream:
    a grant hands a scope over, a renewal moves one deadline, an append goes
    through the fence into the event store, and a token stands for its lease. *)

Section Transactions.
Context {S : Type} `{EventStore S} (token_digest : string -> string) (lease_ttl_ms : Z).

Notation Authority := (Authority S).
Notation authority_reachable := (authority_reachable token_digest lease_ttl_ms).

Lemma reachable_fence (a : Authority) now stream id :
  authority_reachable a ->
  check_fence a now stream id = Current <->
  exists l, live (leases a) l /\ lease_id l = id /\ authorizes (lease_scope l) stream = true /\
    (now < expires_at_ms l)%Z.
Proof. intros [Hwf _]%authority_reachable_wf. by apply fence_current_iff. Qed.

Lemma authority_reachable_step (a a' : Authority) o r :
  authority_reachable a -> run_lease token_digest lease_ttl_ms o a = (a', r) ->
  authority_reachable a'.
Proof. intros [s Hs] Hrun. exists s. eapply rtc_r; [exact Hs|]. by exists o, r. Qed.

Lemma reachable_ok (a a' : Authority) o {A} (m : Authority -> Authority * VerletResult A) x :
  run_lease token_digest lease_ttl_ms o a = drop_result (m a) ->
  authority_reachable a -> m a = (a', Ok x) -> authority_reachable a'.
Proof. intros Ho Ha Hm. apply (authority_reachable_step a a' o (Ok tt)); [done|]. by rewrite Ho, Hm. Qed.

Lemma live_snoc_iff rows l r :
  leases_wf rows -> succeeds rows l -> released_at_ms l = None ->
  live (rows ++ [l]) r <-> r = l \/ live rows r /\ lease_scope r <> lease_scope l.
Proof.
  intros Hwf Hs Hn. split; [by apply snoc_live|]. intros [->|[Hr Hne]]; [|by apply snoc_live_intro].
  split_and!; [set_solver|done|]. intros x [Hx|Heq%list_elem_of_singleton]%elem_of_app Hxs.
  - pose proof (succeeds_later _ _ _ Hs Hx Hxs). lia.
  - subst. lia.
Qed.

(** A grant hands its scope over in one step: afterwards the granted lease passes the fence
    for the streams of its scope until its deadline, the lease it names as predecessor never
    passes, and every other lease passes exactly where it did. *)
Theorem grant_hands_over now fresh scope holder superseded (a a' : Authority) g :
  authority_reachable a ->
  grant_lease lease_ttl_ms now fresh scope holder superseded a = (a', Ok g) ->
  grant_scope g = scope /\ grant_expires_at_ms g = (now + lease_ttl_ms)%Z /\
  grant_superseded_lease_id g = superseded /\
  forall t stream id, check_fence a' t stream id = Current <->
    (id = grant_lease_id g /\ authorizes scope stream = true /\ (t < now + lease_ttl_ms)%Z) \/
    (id <> grant_lease_id g /\ superseded <> Some id /\ check_fence a t stream id = Current).
Proof.
  intros Hreach Hgrant. pose proof (authority_reachable_wf _ _ _ Hreach) as [Hwf _].
  assert (authority_reachable a') as Hreach'.
  { by apply (reachable_ok a a' (OpGrant now fresh scope holder superseded)
      (grant_lease lease_ttl_ms now fresh scope holder superseded) g). }
  apply grant_effect in Hgrant as (l & -> & Hs & _ & Hn & Hp & He & Hsucc & Hrows & _ & Hid & _).
  split_and!; try done. intros t stream id. rewrite !reachable_fence, Hrows by done. split.
  - intros (r & [->|[Hr Hne]]%live_snoc_iff & <- & Ha & Hlt); try done.
    + left. by rewrite <- Hs, <- He.
    + right. split_and!; [apply Hid, Hr| |by exists r]. rewrite <- Hp. intros Heq.
      unfold succeeds in Hsucc. destruct (latest_lease_for_scope (leases a) _) as [p|] eqn:Hlat.
      * destruct Hsucc as [_ Hsp]. apply latest_some in Hlat as (Hin & Hps & _).
        rewrite Hsp in Heq. injection Heq as Heq. apply Hne. rewrite <- Hps. f_equal.
        by apply (same_id _ Hwf); [apply Hr| |].
      * destruct Hsucc as [_ Hsp]. congruence.
  - intros [(-> & Ha & Hlt)|(Hne & Hsup & r & Hr & <- & Ha & Hlt)].
    + exists l. rewrite Hs, He. split_and!; try done. apply live_snoc_iff; [done..|by left].
    + exists r. split_and!; try done. apply live_snoc_iff; try done. right. split; [done|].
      intros Hsame. apply Hsup. rewrite <- Hp. unfold succeeds in Hsucc. rewrite <- Hsame in Hsucc.
      rewrite (proj2 (latest_iff _ Hwf (lease_scope r) r)) in Hsucc
        by (destruct Hr as (? & ? & ?); done).
      by destruct Hsucc as [_ ->].
Qed.

(** A live lease can always be renewed before the end of time, even when it has expired:
    its deadline never moves back, and no other lease is affected. *)
Theorem renewal_extends_live_lease now l (a : Authority) :
  authority_reachable a -> live (leases a) l -> in_i64 (now + lease_ttl_ms) = true ->
  let deadline := Z.max (now + lease_ttl_ms) (expires_at_ms l) in
  exists a' g, renew_lease lease_ttl_ms now (lease_id l) a = (a', Ok g) /\
    grant_lease_id g = lease_id l /\ grant_scope g = lease_scope l /\
    grant_expires_at_ms g = deadline /\
    forall t stream id, check_fence a' t stream id = Current <->
      (id = lease_id l /\ authorizes (lease_scope l) stream = true /\ (t < deadline)%Z) \/
      (id <> lease_id l /\ check_fence a t stream id = Current).
Proof.
  intros Hreach Hl Hrange deadline. pose proof (authority_reachable_wf _ _ _ Hreach) as [Hwf _].
  assert (lease_by_id (leases a) (lease_id l) = Some l) as Hid
    by (apply lease_by_id_some; [done|split; [apply Hl|done]]).
  destruct (proj2 (live_by_id _ Hwf _ _ Hid) Hl) as [Hn Hlat].
  set (f := set_expiry (lease_id l) deadline).
  assert (renew_lease lease_ttl_ms now (lease_id l) a =
    (set_leases (map f) a, Ok (lease_grant (f l)))) as Hrun.
  { unfold renew_lease, st_bind, st_get. rewrite Hid, Hn. simpl. rewrite bool_decide_true by done.
    simpl. unfold lease_expiry, i64_checked_add. by rewrite Hrange. }
  exists (set_leases (map f) a), (lease_grant (f l)). split; [done|].
  assert (in_place f) as Hf by apply set_expiry_in_place.
  assert (expires_at_ms (f l) = deadline) as Hdl
    by (unfold f, set_expiry; by rewrite String.eqb_refl).
  split_and!; [apply (keeps_id _ Hf)|apply (keeps_scope _ Hf)|done|].
  assert (authority_reachable (set_leases (map f) a)) as Hreach'.
  { by apply (reachable_ok a _ (OpRenew now (lease_id l))
      (renew_lease lease_ttl_ms now (lease_id l)) (lease_grant (f l))). }
  assert (forall r, lease_id r <> lease_id l -> f r = r) as Hother.
  { intros r Hne. unfold f, set_expiry. by destruct (String.eqb_spec (lease_id r) (lease_id l)). }
  assert (forall r, live (leases a) r -> live (map f (leases a)) (f r)) as Hkeep.
  { intros r Hr. apply map_live_intro; [done|done|]. destruct Hr as (_ & Hrn & _).
    unfold f, set_expiry. by destruct (String.eqb _ _). }
  intros t stream id. rewrite !reachable_fence by done. simpl. split.
  - intros (x & (r & -> & Hr)%(map_live _ _ _ Hf) & <- & Ha & Hlt).
    rewrite (keeps_scope _ Hf) in Ha. rewrite (keeps_id _ Hf).
    destruct (decide (lease_id r = lease_id l)) as [Heq|Hne].
    + left. rewrite (same_id _ Hwf r l) in Ha, Hlt by (done || apply Hr || apply Hl).
      by rewrite <- Hdl.
    + right. rewrite Hother in Hlt by done. split; [done|]. by exists r.
  - intros [(-> & Ha & Hlt)|(Hne & r & Hr & <- & Ha & Hlt)].
    + exists (f l). rewrite (keeps_id _ Hf), (keeps_scope _ Hf), Hdl. split_and!; try done.
      by apply Hkeep.
    + exists r. split_and!; try done. rewrite <- (Hother r Hne). by apply Hkeep.
Qed.

(** What a token that verifies stands for, whatever happened before. *)
Lemma verified_lease (a : Authority) token i :
  verify_token token_digest a token = Some i ->
  exists l, live (leases a) l /\ lease_id l = identity_lease_id i /\
    lease_scope l = identity_scope i.
Proof.
  intros (c & _ & _ & _ & -> & l & Hl & Hid & Hs)%verify_token_some. by exists l.
Qed.

(** A token that verifies carries a working lease: the streams it may push to are those of
    the verified scope, under the verified lease, up to one deadline. *)
Theorem verified_token_may_push (a : Authority) token i :
  authority_reachable a -> verify_token token_digest a token = Some i ->
  exists deadline, forall t stream,
    check_fence a t stream (identity_lease_id i) = Current <->
    authorizes (identity_scope i) stream = true /\ (t < deadline)%Z.
Proof.
  intros Hreach (l & Hl & Hid & Hs)%verified_lease. exists (expires_at_ms l).
  intros t stream. rewrite reachable_fence by done. split.
  - intros (r & Hr & Hrid & Ha & Hlt). pose proof (authority_reachable_wf _ _ _ Hreach) as [Hwf _].
    rewrite (same_id _ Hwf r l) in Ha, Hlt by (apply Hr || apply Hl || congruence).
    by rewrite <- Hs.
  - intros [Ha Hlt]. exists l. by rewrite Hs.
Qed.

(** The test of [verify_token] on one row. *)
Definition row_verifies (a : Authority) (token : string) (c : CredentialRow) : Prop :=
  String.eqb (row_token_digest c) (token_digest token) && is_none (row_revoked_at_ms c) &&
  existsb (fun l => String.eqb (lease_id l) (row_lease_id c) &&
                    String.eqb (lease_scope l) (row_scope c) && is_live_row (leases a) l)
    (leases a) = true.

Lemma verify_snoc (a : Authority) c token :
  (forall r, r ∈ credentials a -> row_token_digest r = token_digest token -> False) ->
  row_verifies a token c ->
  verify_token token_digest (set_credentials (fun rows => rows ++ [c]) a) token =
    Some (mk_identity (row_credential_id c) (row_scope c) (row_lease_id c)).
Proof.
  intros Hnone Hc. unfold verify_token. simpl. rewrite list_find_app_r.
  - simpl. rewrite decide_True by done. done.
  - apply list_find_None, Forall_forall. intros r Hr Hok. apply (Hnone r Hr). by to_prop.
Qed.

Lemma verify_snoc_other (a : Authority) c token :
  row_token_digest c <> token_digest token ->
  verify_token token_digest (set_credentials (fun rows => rows ++ [c]) a) token =
    verify_token token_digest a token.
Proof.
  intros Hne. unfold verify_token. simpl.
  set (P := fun c : CredentialRow => _ = true).
  destruct (list_find P (credentials a)) as [[i r]|] eqn:Hf.
  - by rewrite (list_find_app_l _ _ _ _ _ Hf).
  - rewrite list_find_app_r by done. simpl. rewrite decide_False; [done|].
    intros Hc. apply Hne. unfold P in Hc. by to_prop.
Qed.

(** A minted token verifies as the credential and the grant it was minted for until the
    credential is revoked; no other token is affected by either. *)
Theorem token_lifecycle now now' fresh secret grant c token (a a' : Authority) :
  authority_reachable a ->
  mint_credential token_digest now fresh secret grant a = (a', Ok (c, token)) ->
  verify_token token_digest a' token =
    Some (mk_identity (credential_id c) (grant_scope grant) (grant_lease_id grant)) /\
  exists a2, revoke_credential now' (credential_id c) a' = (a2, Ok tt) /\
    verify_token token_digest a2 token = None /\
    forall other, token_digest other <> token_digest token ->
      verify_token token_digest a' other = verify_token token_digest a other /\
      verify_token token_digest a2 other = verify_token token_digest a other.
Proof.
  intros Hreach Hmint. pose proof (authority_reachable_wf _ _ _ Hreach) as [Hwf _].
  apply mint_effect in Hmint as (l & Hl & Hn & Hs & Hlat & -> & Hfresh).
  set (row := mk_credential_row _ _ _ _ _ _).
  assert (row_verifies a token row) as Hrow.
  { unfold row_verifies. simpl. rewrite String.eqb_refl. simpl. apply existsb_exists. exists l.
    pose proof (proj1 (live_by_id _ Hwf _ _ Hl) (conj Hn Hlat)) as Hlive.
    apply lease_by_id_some in Hl as [Hin Hid]; [|done].
    split; [by apply list_elem_of_In|]. rewrite Hid, Hs, !String.eqb_refl. simpl.
    by apply live_row_iff. }
  split; [rewrite (verify_snoc a row token); try done; intros r Hr; by apply Hfresh|].
  eexists. split; [reflexivity|].
  set (revoke := fun x => if String.eqb (row_credential_id x) (credential_id c)
                          then revoke_row now' x else x).
  assert (map revoke (credentials a) = credentials a) as Hmap.
  { rewrite <- (map_id (credentials a)) at 2. apply map_ext_in. intros r Hr%list_elem_of_In.
    unfold revoke. by destruct (String.eqb_spec (row_credential_id r) (credential_id c)) as [?%Hfresh|]. }
  assert (set_credentials (map revoke) (set_credentials (fun rows => rows ++ [row]) a) =
    set_credentials (fun rows => rows ++ [revoke row]) a) as Hrev.
  { unfold set_credentials. simpl. by rewrite map_app, Hmap. }
  rewrite Hrev. split.
  - unfold verify_token. simpl. apply fmap_None, list_find_None, Forall_forall.
    intros r [Hx|Hx%list_elem_of_singleton]%elem_of_app Hok; to_prop; [by apply (Hfresh r Hx)|].
    subst r. unfold revoke in *. simpl in *. rewrite String.eqb_refl in *. done.
  - intros other Hne. rewrite !verify_snoc_other; try done.
    unfold revoke. by destruct (String.eqb _ _).
Qed.
End Transactions.

Section Appends.
Context {S : Type} `{EventStoreLaws S}.

(** A push is one transaction: what it commits is exactly the batch, at the sequence the
    pusher named, under a lease that passes the fence, and the ack reports that range; every
    other outcome leaves leases, credentials and the event store as they were. *)
Theorem leased_push_spec now stream id n records (a a' : Authority S) out :
  log_valid (event_store a) ->
  append_if_current now stream id n records a = (a', Ok out) ->
  leases a' = leases a /\ credentials a' = credentials a /\
  match out with
  | Appended ack =>
      check_fence a now stream id = Current /\ log_valid (event_store a') /\
      n = Z.of_nat (Datatypes.S (length (log_events (event_store a) stream))) /\
      log_events (event_store a') stream =
        log_events (event_store a) stream ++ numbered stream (n - 1) records /\
      (let last_sequence := (n + Z.of_nat (length records) - 1)%Z in
       exists final, last records = Some final /\
         ack = mk_ack STREAM_APPEND_ACK_SCHEMA_V1 stream n last_sequence last_sequence
                 (new_id final) [StreamCommitted; QueryProjected]) /\
      forall other, other <> stream ->
        log_events (event_store a') other = log_events (event_store a) other
  | LeaseRejected d => d = check_fence a now stream id /\ d <> Current /\ a' = a
  | SequenceFenceConflict actual =>
      check_fence a now stream id = Current /\ a' = a /\
      actual = Z.of_nat (Datatypes.S (length (log_events (event_store a) stream))) /\ n <> actual
  end.
Proof.
  intros Hv Hrun. unfold append_if_current in Hrun. st_inv.
  case_bool_decide as Hc; simpl in Hrun; [|by st_inv; simplify_eq/=].
  destruct (log_append_fenced stream n records (event_store a)) as [store [es|e]] eqn:Hlog.
  - st_inv. destruct (from_appended stream es _) as [ack'|e] eqn:Hack; simplify_eq/=.
    apply from_appended_spec in Hack as (first & final & Hh & Hl & _ & Hes & ->).
    apply log_append_ok in Hlog as (Hv' & Hn & -> & Happ & Hoth); [|done].
    set (len := Z.of_nat (length (log_events (event_store a) stream))) in *.
    assert (n - 1 = len)%Z as Hlen by (unfold len; lia). rewrite Hlen.
    split_and!; try done. unfold numbered in Hh, Hl. rewrite last_lookup, list_lookup_imap, length_imap in Hl.
    rewrite last_lookup. destruct records as [|r0 records]; [done|]. simpl pred in *.
    destruct ((r0 :: records) !! length records) as [r|] eqn:Hr; [|done]. exists r. split; [done|].
    simpl in Hh. injection Hh as <-. injection Hl as <-. simpl. f_equal; lia.
  - destruct e; st_inv; try done; simplify_eq/=. split_and!; try done;
      by destruct (log_append_conflict _ _ _ _ _ _ _ _ Hv Hlog).
Qed.
End Appends.
