(* ===== verification/LeaseExamples.v ===== *)
(** * Examples of the lease authority

    A small authority over the in-memory event store, on which the theorems of
    [LeaseProps] are applied. *)

From stdpp Require Import base gmap sets list strings pretty relations.
From Stdlib Require Import ZArith Lia.
From S2P Require Import Prelude Json EventKind EventSchemas Contracts Records Store Journal Branches StoreOps StoreInv StoreProps EventLog.
From S2P Require Import Lease LeaseFacts LeaseProps.

Local Open Scope string_scope.
Local Open Scope list_scope.

Module LeaseExamples.
#[local] Existing Instance decimal_uuid_text.

(** The digest of a token is the token itself, and a lease lasts a second. *)
Definition digest (token : string) : string := token.
Definition ttl : Z := 1000.

Definition nobody : Authority Handle := authority_empty (mk_handle inner_empty 0).
Definition granted := grant_lease ttl 0 "1" "thread:7" "worker-a" None nobody.
Definition regranted := grant_lease ttl 500 "2" "thread:7" "worker-b" (Some "lease_1") granted.1.
Definition grant_1 : StreamLeaseGrantV1 :=
  mk_grant SYNC_STREAM_LEASE_SCHEMA_V1 "lease_1" "thread:7" "worker-a" None 0 1000.
Definition minted := mint_credential digest 10 "c" "t" grant_1 granted.1.
Definition batch : list NewEventRecord := [Sample.event 1; Sample.event 2].

Lemma granted_ok : granted = (granted.1, Ok grant_1).
Proof. vm_compute. reflexivity. Defined.

Lemma nobody_reachable : authority_reachable digest ttl nobody.
Proof. exists (mk_handle inner_empty 0). apply rtc_refl. Defined.

Lemma granted_reachable : authority_reachable digest ttl granted.1.
Proof.
  apply (authority_reachable_step digest ttl nobody _ (OpGrant 0 "1" "thread:7" "worker-a" None) (Ok tt)).
  - apply nobody_reachable.
  - vm_compute. reflexivity.
Defined.

Lemma minted_reachable : authority_reachable digest ttl minted.1.
Proof.
  apply (authority_reachable_step digest ttl granted.1 _ (OpMint 10 "c" "t" grant_1) (Ok tt)).
  - apply granted_reachable.
  - vm_compute. reflexivity.
Defined.

Lemma authority_invariant_witness :
  authority_wf minted.1 /\ length (credentials minted.1) = 1%nat.
Proof.
  split; [apply (authority_invariant digest ttl), minted_reachable | vm_compute; reflexivity].
Defined.


Lemma superseded_lease_is_fenced_witness :
  exists d, d <> Current /\
  append_if_current 600 "thread:7" "lease_1" 1 batch regranted.1 =
      (regranted.1, Ok (LeaseRejected d)).
Proof.
  assert (exists g, regranted = (regranted.1, Ok g)) as [g Hg]
    by (eexists; vm_compute; reflexivity).
  apply (proj1 (superseded_lease_is_fenced digest ttl 500 "2" "thread:7" "worker-b" "lease_1"
    granted.1 regranted.1 g regranted.1 granted_reachable Hg (rtc_refl _ _))).
Defined.

Lemma released_lease_is_fenced_witness :
  let released := release_lease 20 "lease_1" minted.1 in
  verify_token digest minted.1 "cooldis_sync_t" <> None /\
  forall i, verify_token digest released.1 "cooldis_sync_t" = Some i ->
  identity_lease_id i <> "lease_1".
Proof.
  intros released. split; [vm_compute; discriminate|].
  assert (released = (released.1, Ok tt)) as Hr by (vm_compute; reflexivity).
  refine (fun i => proj1 (proj2 (released_lease_is_fenced digest ttl 20 "lease_1" minted.1
    released.1 tt released.1 minted_reachable _ Hr (rtc_refl _ _))) _ i).
  vm_compute. discriminate.
Defined.

Lemma grant_hands_over_witness :
  check_fence regranted.1 600 "thread:7" "lease_2" = Current /\
  check_fence regranted.1 600 "thread:7" "lease_1" <> Current.
Proof.
  assert (exists g, regranted = (regranted.1, Ok g) /\ grant_lease_id g = "lease_2")
    as (g & Hg & Hid) by (eexists; split; vm_compute; reflexivity).
  destruct (grant_hands_over digest ttl 500 "2" "thread:7" "worker-b" (Some "lease_1")
    granted.1 regranted.1 g granted_reachable Hg) as (_ & _ & _ & Hfence).
  split.
  - apply Hfence. left. rewrite Hid. split; [reflexivity|]. split; [reflexivity|].
    unfold ttl. lia.
  - intros [(Hl & _)|(_ & Hs & _)]%Hfence; [rewrite Hid in Hl; discriminate|by apply Hs].
Defined.

Lemma renewal_extends_live_lease_witness :
  exists a' g, renew_lease ttl 3000 "lease_1" granted.1 = (a', Ok g) /\
  grant_expires_at_ms g = 4000%Z /\ check_fence granted.1 3500 "thread:7" "lease_1" = Expired /\
  check_fence a' 3500 "thread:7" "lease_1" = Current.
Proof.
  assert (exists l, live (leases granted.1) l /\ lease_id l = "lease_1" /\
    lease_scope l = "thread:7" /\ expires_at_ms l = 1000%Z) as (l & Hl & Hid & Hs & He).
  { eexists (mk_lease "lease_1" "thread:7" 1 "worker-a" None 0 1000 None).
    split; [|by split]. apply latest_unreleased_iff. vm_compute. apply list_elem_of_here. }
  destruct (renewal_extends_live_lease digest ttl 3000 l granted.1 granted_reachable Hl
    eq_refl) as (a' & g & Hr & _ & _ & Hd & Hfence).
  rewrite Hid in Hr. exists a', g. split; [exact Hr|]. split; [by rewrite Hd, He|].
  split; [vm_compute; reflexivity|]. apply Hfence. left. rewrite Hid, Hs, He.
  split; [reflexivity|]. split; [reflexivity|]. unfold ttl. lia.
Defined.

Lemma verified_token_may_push_witness :
  exists i deadline, verify_token digest minted.1 "cooldis_sync_t" = Some i /\
  forall t stream, check_fence minted.1 t stream (identity_lease_id i) = Current <->
      authorizes (identity_scope i) stream = true /\ (t < deadline)%Z.
Proof.
  assert (exists i, verify_token digest minted.1 "cooldis_sync_t" = Some i) as [i Hi]
    by (eexists; vm_compute; reflexivity).
  destruct (verified_token_may_push digest ttl minted.1 "cooldis_sync_t" i minted_reachable Hi)
    as [deadline Hd].
  exists i, deadline. split; [exact Hi|exact Hd].
Defined.

Lemma token_lifecycle_witness :
  verify_token digest minted.1 "cooldis_sync_t" =
    Some (mk_identity "credential_c" "thread:7" "lease_1").
Proof.
  assert (minted = (minted.1, Ok (mk_credential SYNC_STREAM_WRITE_CREDENTIAL_SCHEMA_V1
    "credential_c" "thread:7" "lease_1" 10, "cooldis_sync_t"))) as Hm
    by (vm_compute; reflexivity).
  apply (proj1 (token_lifecycle digest ttl 10 20 "c" "t" grant_1 _ _ _ _ granted_reachable Hm)).
Defined.

Lemma leased_push_spec_witness :
  exists a' ack,
  append_if_current 10 "thread:7" "lease_1" 1 batch granted.1 = (a', Ok (Appended ack)) /\
  log_events (event_store a') "thread:7" = numbered "thread:7" 0 batch /\
  end_sequence ack = 2%Z.
Proof.
  assert (exists a' ack,
    append_if_current 10 "thread:7" "lease_1" 1 batch granted.1 = (a', Ok (Appended ack)))
    as (a' & ack & Hrun) by (do 2 eexists; vm_compute; reflexivity).
  assert (log_valid (event_store granted.1)) as Hv by (apply journal_wf_empty).
  destruct (leased_push_spec 10 "thread:7" "lease_1" 1 batch granted.1 a' (Appended ack) Hv Hrun)
    as (_ & _ & _ & _ & _ & Hev & (final & _ & ->) & _).
  exists a'. eexists. split; [exact Hrun|]. split; [exact Hev|reflexivity].
Defined.
End LeaseExamples.
