(* ===== verification/Retry.v ===== *)
(** * Retry and health of a polling component

    Models [crates/verlet-kernel/src/daemon/retry.rs].  A [Duration] is a number
    of nanoseconds; a poll counter is a [u64]. *)

From stdpp Require Import base list strings pretty.
From Stdlib Require Import ZArith Lia.
From S2P Require Import Prelude.

Local Open Scope string_scope.
Local Open Scope Z_scope.

(** ** Durations *)

Notation Duration := Z (only parsing).

Definition from_millis (ms : Z) : Duration := ms * 10 ^ 6.
Definition from_secs (s : Z) : Duration := s * 10 ^ 9.

(** [Duration::MAX]: [u64::MAX] seconds and 999,999,999 nanoseconds. *)
Definition duration_max : Duration := (u64_max + 1) * 10 ^ 9 - 1.
Definition duration_saturating_mul (d : Duration) (n : Z) : Duration := Z.min (d * n) duration_max.

Fixpoint strip_zeros (fuel : nat) (digits : Z) (width : nat) : Z * nat :=
  match fuel with
  | O => (digits, width)
  | S fuel => if (digits mod 10 =? 0) then strip_zeros fuel (digits / 10) (pred width)
              else (digits, width)
  end.

Fixpoint zeros (n : nat) : string := match n with O => "" | S n => "0" +:+ zeros n end.

(** A number with a fraction of [width] digits, without trailing zeros. *)
Definition fmt_decimal (integer fraction : Z) (width : nat) (suffix : string) : string :=
  if fraction =? 0 then pretty integer +:+ suffix
  else
    let (digits, width) := strip_zeros width fraction width in
    let text := pretty digits in
    pretty integer +:+ "." +:+ zeros (width - String.length text) +:+ text +:+ suffix.

(** [Duration as Debug]. *)
Definition duration_debug (d : Duration) : string :=
  if 10 ^ 9 <=? d then fmt_decimal (d / 10 ^ 9) (d mod 10 ^ 9) 9 "s"
  else if 10 ^ 6 <=? d then fmt_decimal (d / 10 ^ 6) (d mod 10 ^ 6) 6 "ms"
  else if 10 ^ 3 <=? d then fmt_decimal (d / 10 ^ 3) (d mod 10 ^ 3) 3 (bytes_str [194; 181]%nat +:+ "s")
  else fmt_decimal d 0 0 "ns".

Definition RETRY_CAP : Duration := from_secs 60.
Definition RETRY_MIN : Duration := from_millis 1.
Definition DEGRADED_THRESHOLD : Z := 5.
Definition RECOVERY_THRESHOLD : Z := 2.

(** ** Decisions *)

Inductive RetryLog : Type :=
  | Failed (error : string)
  | BackoffIncreased (failed_polls : Z) (delay : Duration)
  | ErrorChanged (failed_polls : Z) (delay : Duration) (error : string)
  | Degraded (failed_polls : Z) (delay : Duration) (error : string)
  | Recovered (failed_polls : Z).

Record RetryDecision : Type := mk_decision {
  delay : Duration;
  log : option RetryLog;
}.

(** [RetryLog::message]. *)
Definition message (l : RetryLog) (component : string) (retry_delay : Duration) : string :=
  match l with
  | Failed error =>
      component +:+ " failed: " +:+ error +:+ "; retrying in " +:+ duration_debug retry_delay
  | BackoffIncreased failed_polls delay =>
      component +:+ " still failing after " +:+ pretty failed_polls +:+
      " failed polls; retrying in " +:+ duration_debug delay
  | ErrorChanged failed_polls delay error =>
      component +:+ " failure changed after " +:+ pretty failed_polls +:+ " failed polls: " +:+
      error +:+ "; retrying in " +:+ duration_debug delay
  | Degraded failed_polls delay error =>
      component +:+ " degraded after " +:+ pretty failed_polls +:+ " failed polls: " +:+ error +:+
      "; will keep retrying at capped interval " +:+ duration_debug delay
  | Recovered failed_polls =>
      component +:+ " recovered after " +:+ pretty failed_polls +:+ " failed polls"
  end.

Definition poll_delay (poll_interval : Duration) : Duration := Z.max poll_interval RETRY_MIN.
Definition retry_base (poll_interval : Duration) : Duration :=
  Z.min (poll_delay poll_interval) RETRY_CAP.

(** ** Keys *)

(** [str::find] and the two slices around it: what comes before the first occurrence of
    [needle], and the rest from there. *)
Fixpoint split_at_first (needle s : string) : option (string * string) :=
  if starts_with needle s then Some ("", s)
  else match s with
       | EmptyString => None
       | String c rest =>
           match split_at_first needle rest with
           | Some (before, from) => Some (String c before, from)
           | None => None
           end
       end.

Definition WAL_FRAME : string := "short read on WAL frame".
Definition WAL_FRAME_VALIDATION : string := "short read on WAL frame validation".

Definition stable_error_key (error : string) : string :=
  match split_at_first WAL_FRAME error with
  | None => error
  | Some (before, from) =>
      before +:+ (if starts_with WAL_FRAME_VALIDATION from then WAL_FRAME_VALIDATION else WAL_FRAME)
  end.

(** ** State *)

Record RetryState : Type := mk_state {
  failed_polls : Z;
  successful_polls : Z;
  current_delay : Duration;
  last_error_key : option string;
}.

Definition new (poll_interval : Duration) : RetryState :=
  mk_state 0 0 (poll_delay poll_interval) None.

Definition on_failure_with_key (error_key error : string) (poll_interval : Duration)
    (s : RetryState) : RetryState * RetryDecision :=
  let same_error := bool_decide (last_error_key s = Some error_key) in
  let previous_delay := current_delay s in
  let failed := u64_saturating_add (failed_polls s) 1 in
  let next_delay :=
    if DEGRADED_THRESHOLD <=? failed then RETRY_CAP
    else if failed =? 1 then retry_base poll_interval
    else Z.min (duration_saturating_mul (current_delay s) 2) RETRY_CAP in
  let log :=
    if failed =? 1 then Some (Failed error)
    else if failed =? DEGRADED_THRESHOLD then Some (Degraded failed next_delay error)
    else if negb same_error then Some (ErrorChanged failed next_delay error)
    else if previous_delay <? next_delay then Some (BackoffIncreased failed next_delay)
    else None in
  (mk_state failed 0 next_delay (Some error_key), mk_decision next_delay log).

Definition on_failure (error : string) (poll_interval : Duration) (s : RetryState) :
    RetryState * RetryDecision :=
  on_failure_with_key (stable_error_key error) error poll_interval s.

Definition on_success (poll_interval : Duration) (s : RetryState) : RetryState * RetryDecision :=
  let ready := poll_delay poll_interval in
  if failed_polls s =? 0
  then (mk_state (failed_polls s) (successful_polls s) ready (last_error_key s),
        mk_decision ready None)
  else
    let successful := u64_saturating_add (successful_polls s) 1 in
    if successful <? RECOVERY_THRESHOLD
    then (mk_state (failed_polls s) successful (current_delay s) (last_error_key s),
          mk_decision (current_delay s) None)
    else (mk_state 0 0 ready None, mk_decision ready (Some (Recovered (failed_polls s)))).

(** ** Keys are stable *)

Lemma starts_with_app p r : starts_with p (p +:+ r) = true.
Proof. apply starts_with_iff. by exists r. Qed.

(** A prefix that fits in [x] does not look past it. *)
Lemma starts_with_within p x y y' :
  (String.length p <= String.length x)%nat ->
  starts_with p (x +:+ y) = starts_with p (x +:+ y').
Proof.
  revert x. induction p as [|c p IH]; intros [|d x] Hlen; simpl in Hlen; try done; [lia|].
  unfold starts_with in *. simpl. destruct (Ascii.eqb c d); [|done]. apply IH. lia.
Qed.

Lemma string_length_app (a b : string) :
  String.length (a +:+ b) = (String.length a + String.length b)%nat.
Proof. induction a as [|c a IH]; [done|]. simpl. by f_equal. Qed.

Lemma split_at_first_some needle s before from :
  split_at_first needle s = Some (before, from) ->
  s = (before +:+ from) /\ starts_with needle from = true.
Proof.
  revert before. induction s as [|c s IH]; intros before; simpl.
  - destruct (starts_with needle "") eqn:Hs; [|done]. by intros [= <- <-].
  - destruct (starts_with needle (String c s)) eqn:Hs; [by intros [= <- <-]|].
    destruct (split_at_first needle s) as [[b f]|]; [|done].
    intros [= <- <-]. destruct (IH b eq_refl) as [-> ?]. done.
Qed.

(** The first occurrence does not depend on what follows it. *)
Lemma split_at_first_tail needle before shown tail tail' :
  starts_with needle (shown +:+ tail') = true ->
  (String.length needle <= String.length shown)%nat ->
  split_at_first needle (before +:+ shown +:+ tail) = Some (before, (shown +:+ tail)) ->
  split_at_first needle (before +:+ shown +:+ tail') = Some (before, (shown +:+ tail')).
Proof.
  intros Hs Hlen. induction before as [|c before IH]; intros Hsplit.
  - change (split_at_first needle (shown +:+ tail') = Some ("", shown +:+ tail')).
    clear Hsplit. revert Hs. destruct (shown +:+ tail'); intros Hs; simpl; by rewrite Hs.
  - change (String c before +:+ shown +:+ tail) with (String c (before +:+ shown +:+ tail)) in Hsplit.
    change (String c before +:+ shown +:+ tail') with (String c (before +:+ shown +:+ tail')).
    simpl in *.
    assert (starts_with needle (String c (before +:+ shown +:+ tail)) =
      starts_with needle (String c (before +:+ shown +:+ tail'))) as Hsame.
    { rewrite <- !string_app_assoc.
      apply (starts_with_within needle (String c (before +:+ shown)) tail tail').
      simpl. rewrite string_length_app. lia. }
    rewrite <- Hsame. revert Hsplit.
    destruct (starts_with needle (String c (before +:+ shown +:+ tail))); [done|]. intros Hsplit.
    destruct (split_at_first needle (before +:+ shown +:+ tail)) as [[b f]|]; [|done].
    injection Hsplit as -> ->. by rewrite IH.
Qed.

Lemma stable_key_cut before kind tail tail' :
  kind = WAL_FRAME_VALIDATION \/
    kind = WAL_FRAME /\ starts_with WAL_FRAME_VALIDATION (kind +:+ tail') = false ->
  split_at_first WAL_FRAME (before +:+ kind +:+ tail) = Some (before, (kind +:+ tail)) ->
  stable_error_key (before +:+ kind +:+ tail') = (before +:+ kind).
Proof.
  intros Hkind Hsplit. unfold stable_error_key.
  assert (starts_with WAL_FRAME (kind +:+ tail') = true) as Hs by by destruct Hkind as [->|[-> _]].
  rewrite (split_at_first_tail _ before kind tail tail' Hs); [| |done].
  - by destruct Hkind as [->|[-> ->]]; rewrite ?starts_with_app.
  - destruct Hkind as [->|[-> _]]; vm_compute; lia.
Qed.

(** Errors that differ only in what follows a short read of the write-ahead log count as
    the same error: the key ends at the recognised text, whatever comes after it, any other
    error is its own key, and taking the key twice changes nothing. *)
Theorem stable_error_key_spec error :
  stable_error_key (stable_error_key error) = stable_error_key error /\
  match split_at_first WAL_FRAME error with
  | None => stable_error_key error = error
  | Some (before, from) =>
      error = (before +:+ from) /\
      (forall tail, starts_with WAL_FRAME_VALIDATION from = true ->
         stable_error_key (before +:+ WAL_FRAME_VALIDATION +:+ tail) = stable_error_key error) /\
      (forall tail, starts_with WAL_FRAME_VALIDATION from = false ->
         starts_with WAL_FRAME_VALIDATION (WAL_FRAME +:+ tail) = false ->
         stable_error_key (before +:+ WAL_FRAME +:+ tail) = stable_error_key error)
  end.
Proof.
  destruct (split_at_first WAL_FRAME error) as [[before from]|] eqn:Hsplit.
  2: { assert (stable_error_key error = error) as Hkey by (unfold stable_error_key; by rewrite Hsplit).
       by rewrite !Hkey. }
  pose proof (split_at_first_some _ _ _ _ Hsplit) as [-> Hfrom].
  assert (stable_error_key (before +:+ from) = (before +:+ (if starts_with WAL_FRAME_VALIDATION from
    then WAL_FRAME_VALIDATION else WAL_FRAME))) as Hkey by (unfold stable_error_key; by rewrite Hsplit).
  rewrite Hkey. destruct (starts_with WAL_FRAME_VALIDATION from) eqn:Hv.
  - apply starts_with_iff in Hv as (r & ->).
    assert (forall tail, stable_error_key (before +:+ WAL_FRAME_VALIDATION +:+ tail) =
      (before +:+ WAL_FRAME_VALIDATION)) as Hcut
      by (intros tail; eapply stable_key_cut; [by left|exact Hsplit]).
    split_and!; try done.
    rewrite <- (string_app_nil_r WAL_FRAME_VALIDATION) at 1. apply Hcut.
  - apply starts_with_iff in Hfrom as (r & ->).
    assert (forall tail, starts_with WAL_FRAME_VALIDATION (WAL_FRAME +:+ tail) = false ->
      stable_error_key (before +:+ WAL_FRAME +:+ tail) = (before +:+ WAL_FRAME)) as Hcut
      by (intros tail Ht; eapply stable_key_cut; [by right|exact Hsplit]).
    split_and!; try done; [|by intros tail _ Ht; apply Hcut].
    rewrite <- (string_app_nil_r WAL_FRAME) at 1. by apply Hcut.
Qed.

(** ** Outages *)

(** The polls that fail, as keys and errors, one after the other. *)
Fixpoint outage (poll_interval : Duration) (polls : list (string * string)) (s : RetryState) :
    RetryState * list RetryDecision :=
  match polls with
  | [] => (s, [])
  | (key, error) :: polls =>
      let (s1, d) := on_failure_with_key key error poll_interval s in
      let (s2, ds) := outage poll_interval polls s1 in
      (s2, d :: ds)
  end.

(** The delay after [n] failed polls in a row. *)
Definition schedule (poll_interval : Duration) (n : Z) : Duration :=
  if DEGRADED_THRESHOLD <=? n then RETRY_CAP
  else Z.min (retry_base poll_interval * 2 ^ (n - 1)) RETRY_CAP.

Definition outage_log (poll_interval : Duration) (previous_key : option string) (n : Z)
    (key error : string) : option RetryLog :=
  if n =? 1 then Some (Failed error)
  else if n =? DEGRADED_THRESHOLD then Some (Degraded n RETRY_CAP error)
  else if negb (bool_decide (previous_key = Some key))
  then Some (ErrorChanged n (schedule poll_interval n) error)
  else if schedule poll_interval (n - 1) <? schedule poll_interval n
  then Some (BackoffIncreased n (schedule poll_interval n))
  else None.

Lemma retry_base_bounds p : RETRY_MIN <= retry_base p <= RETRY_CAP.
Proof. unfold retry_base, poll_delay, RETRY_CAP, RETRY_MIN, from_secs, from_millis. lia. Qed.

Lemma schedule_bounds p n : 1 <= n -> retry_base p <= schedule p n <= RETRY_CAP.
Proof.
  intros Hn. pose proof (retry_base_bounds p) as Hb. unfold schedule.
  destruct (Z.leb_spec DEGRADED_THRESHOLD n); [lia|].
  assert (1 <= 2 ^ (n - 1)) by (apply (Z.pow_le_mono_r 2 0); lia).
  assert (0 < RETRY_MIN) by done. nia.
Qed.

(** A state reached after [n] failures in a row. *)
Definition in_outage (p : Duration) (n : Z) (s : RetryState) : Prop :=
  failed_polls s = n /\ (0 < n -> current_delay s = schedule p n).

Lemma failure_step p n s key error :
  in_outage p n s -> 0 <= n < u64_max ->
  on_failure_with_key key error p s =
    (mk_state (n + 1) 0 (schedule p (n + 1)) (Some key),
     mk_decision (schedule p (n + 1)) (outage_log p (last_error_key s) (n + 1) key error)).
Proof.
  intros [Hn Hd] Hrange. unfold on_failure_with_key, u64_saturating_add.
  replace (Z.min (failed_polls s + 1) u64_max) with (n + 1) by lia.
  assert ((if DEGRADED_THRESHOLD <=? n + 1 then RETRY_CAP
    else if n + 1 =? 1 then retry_base p
    else Z.min (duration_saturating_mul (current_delay s) 2) RETRY_CAP) = schedule p (n + 1)) as Hdelay.
  { unfold schedule at 1. destruct (Z.leb_spec DEGRADED_THRESHOLD (n + 1)); [done|].
    pose proof (retry_base_bounds p) as Hb. destruct (Z.eqb_spec (n + 1) 1) as [H1|H1].
    - rewrite H1. simpl. lia.
    - rewrite Hd by lia. unfold schedule. destruct (Z.leb_spec DEGRADED_THRESHOLD n); [lia|].
      replace (n + 1 - 1) with (Z.succ (n - 1)) by lia. rewrite Z.pow_succ_r by lia.
      unfold duration_saturating_mul.
      replace (retry_base p * (2 * 2 ^ (n - 1))) with (2 * (retry_base p * 2 ^ (n - 1))) by ring.
      assert (RETRY_CAP * 2 <= duration_max) by (vm_compute; discriminate).
      assert (0 <= RETRY_CAP) by (vm_compute; discriminate). lia. }
  rewrite Hdelay. f_equal. f_equal. unfold outage_log.
  destruct (Z.eqb_spec (n + 1) 1); [done|].
  destruct (Z.eqb_spec (n + 1) DEGRADED_THRESHOLD) as [H5|H5].
  { unfold schedule. by rewrite H5. }
  rewrite Hd by lia. by replace (n + 1 - 1) with n by lia.
Qed.

#[local] Opaque on_failure_with_key.

Lemma outage_app p polls1 polls2 s :
  outage p (polls1 ++ polls2) s =
    let (s1, ds1) := outage p polls1 s in
    let (s2, ds2) := outage p polls2 s1 in (s2, (ds1 ++ ds2)%list).
Proof.
  revert s. induction polls1 as [|[k e] polls1 IH]; intros s; simpl.
  - by destruct (outage p polls2 s).
  - destruct (on_failure_with_key k e p s) as [s1 d]. rewrite IH.
    destruct (outage p polls1 s1) as [s2 ds1]. destruct (outage p polls2 s2) as [s3 ds2]. done.
Qed.

Lemma outage_length p polls s : length (outage p polls s).2 = length polls.
Proof.
  revert s. induction polls as [|[k e] polls IH]; intros s; [done|]. simpl.
  destruct (on_failure_with_key k e p s) as [s1 d]. specialize (IH s1).
  destruct (outage p polls s1). simpl in *. by rewrite IH.
Qed.

Lemma outage_state p polls s :
  failed_polls s = 0 -> Z.of_nat (length polls) <= u64_max ->
  let s' := (outage p polls s).1 in
  in_outage p (Z.of_nat (length polls)) s' /\
  last_error_key s' = match last polls with Some x => Some x.1 | None => last_error_key s end.
Proof.
  intros Hs. induction polls as [|[k e] polls IH] using rev_ind; intros Hlen.
  - split; [|done]. split; [done|]. simpl. lia.
  - rewrite length_app in *. simpl in Hlen. destruct IH as [IH _]; [lia|].
    rewrite outage_app, last_snoc. destruct (outage p polls s) as [s1 ds]. simpl.
    rewrite (failure_step p (Z.of_nat (length polls))) by (done || lia). simpl.
    split; [|done]. unfold in_outage. simpl.
    by replace (Z.of_nat (length polls + 1)) with (Z.of_nat (length polls) + 1) by lia.
Qed.

(** During an outage the delay starts at the poll interval (at least a millisecond, at most
    a minute), doubles with every failed poll, is the cap from the fifth on, and never leaves
    that range; each poll logs exactly what is new - the first failure, the fifth as degraded, a
    changed error, a longer delay - and stays silent otherwise. *)
Theorem outage_schedule p polls s i key error :
  failed_polls s = 0 -> Z.of_nat (length polls) <= u64_max ->
  polls !! i = Some (key, error) ->
  let n := Z.of_nat i + 1 in
  (outage p polls s).2 !! i =
    Some (mk_decision (schedule p n) (outage_log p (fst <$> last (take i polls)) n key error)) /\
  retry_base p <= schedule p n <= RETRY_CAP.
Proof.
  intros Hs Hlen Hi n. split; [|apply schedule_bounds; lia].
  assert (length (take i polls) = i) as Htake.
  { apply length_take_le. apply lookup_lt_Some in Hi. lia. }
  pose proof (outage_length p (take i polls) s) as Hds.
  destruct (outage_state p (take i polls) s Hs) as [Hst Hkey].
  { rewrite length_take. lia. }
  rewrite <- (take_drop_middle _ _ _ Hi), outage_app at 1.
  destruct (outage p (take i polls) s) as [s1 ds]. simpl in *.
  rewrite (failure_step p (Z.of_nat i)).
  2: { by rewrite Htake in Hst. }
  2: { apply lookup_lt_Some in Hi. lia. }
  destruct (outage p (drop (S i) polls) _) as [s2 ds2]. simpl.
  rewrite lookup_app_r, Hds, Htake, Nat.sub_diag by lia. simpl.
  f_equal. f_equal. unfold outage_log. fold n. destruct (Z.eqb_spec n 1); [done|].
  rewrite Hkey. destruct (last (take i polls)) as [x|] eqn:Hl; [done|].
  apply last_None in Hl. rewrite Hl in Htake. simpl in Htake. unfold n in *. lia.
Qed.

#[local] Transparent on_failure_with_key.

(** One successful poll does not end an outage: it is silent, keeps the delay, and the next
    failure continues as if it had not happened; a second one in a row restores the fresh state
    and reports how many polls had failed.  Outside an outage success is silent. *)
Theorem recovery_takes_two p p' p'' s :
  successful_polls s = 0 -> failed_polls s <> 0 ->
  let s1 := (on_success p s).1 in
  (on_success p s).2 = mk_decision (current_delay s) None /\
  (forall key error, on_failure_with_key key error p' s1 = on_failure_with_key key error p' s) /\
  on_success p' s1 = (new p', mk_decision (poll_delay p') (Some (Recovered (failed_polls s)))) /\
  (on_success p'' (new p')).2 = mk_decision (poll_delay p'') None /\
  (on_success p'' (new p')).1 = new p''.
Proof.
  intros Hsucc Hfail. unfold on_success. rewrite Hsucc.
  destruct (Z.eqb_spec (failed_polls s) 0); [done|]. simpl.
  destruct (Z.eqb_spec (failed_polls s) 0); [done|]. by split_and!.
Qed.

Lemma recovery_takes_two_witness :
  let s := (on_failure "disk" (from_secs 2) (new (from_secs 2))).1 in
  on_success (from_secs 2) (on_success (from_secs 2) s).1 =
    (new (from_secs 2), mk_decision (from_secs 2) (Some (Recovered 1))).
Proof.
  intros s.
  assert (successful_polls s = 0) as Hs by reflexivity.
  assert (failed_polls s <> 0) as Hf by discriminate.
  destruct (recovery_takes_two (from_secs 2) (from_secs 2) 0 s Hs Hf) as (_ & _ & Hr & _).
  exact Hr.
Defined.

Lemma outage_schedule_witness :
  let polls := [("disk", "disk 1"); ("disk", "disk 2"); ("net", "net")] in
  (outage (from_secs 20) polls (new (from_secs 20))).2 !! 2%nat =
    Some (mk_decision RETRY_CAP (Some (ErrorChanged 3 RETRY_CAP "net"))).
Proof.
  intros polls.
  assert (Z.of_nat (length polls) <= u64_max) as Hlen by (vm_compute; discriminate).
  destruct (outage_schedule (from_secs 20) polls (new (from_secs 20)) 2 "net" "net" eq_refl Hlen
    eq_refl) as [Hd _].
  exact Hd.
Defined.
