(* ===== verification/Ingress.v ===== *)
(** * The protocol-neutral I/O boundary

    Models the envelopes of [crates/verlet-io-core/src/lib.rs]: what an external
    event becomes before a queue, a resolver and an admission policy see it, the
    two boundary checks of ADR 0007, the identity redelivery is judged by, and
    the serialized form a queue stores.

    A [BTreeMap<String, String>] is its list of entries in key order.  The
    display text of a JSON value is a parameter, and so are the envelope ids the
    constructors draw. *)

From stdpp Require Import base gmap sets list strings.
From Stdlib Require Import ZArith Lia.
From S2P Require Import Prelude Json.

Local Open Scope verlet_scope.
Local Open Scope string_scope.
Local Open Scope list_scope.

Notation Metadata := (list (string * string)) (only parsing).

(** ** Errors *)

(** What [IoError::InvalidEnvelope] is formatted from. *)
Inductive EnvelopeMessage : Type :=
  | EnvelopeText (text : string)
  | PrincipalTenantMismatch (principal_tenant target_tenant : string).

Inductive IoError : Type :=
  | InvalidEnvelope (message : EnvelopeMessage)
  | UnknownProtocol (kind : string)
  | PolicyRejected (message : string)
  | IoQueue (message : string)
  | Delivery (message : string)
  | PermanentDelivery (message : string)
  | RateLimited (retry_after_ms : option Z) (message : string)
  | Bridge (message : string).

Notation IoResult T := (result T IoError).

(** ** Envelopes *)

Record IoSource : Type := mk_source {
  protocol : string;
  instance_id : string;
  source_metadata : Metadata;
}.

Inductive ConversationKind : Type := Direct | Group | Channel | ThreadConversation | System.

Record IoConversation : Type := mk_conversation {
  external_conversation_id : string;
  conversation_kind : ConversationKind;
  title : option string;
  external_thread_id : option string;
  conversation_metadata : Metadata;
}.

Record IoActor : Type := mk_actor {
  external_actor_id : string;
  display_name : option string;
  is_bot : bool;
  actor_metadata : Metadata;
}.

Record IoDedupeKey : Type := mk_dedupe { dedupe_scope : string; dedupe_key_text : string }.

Record IoDelivery : Type := mk_delivery {
  delivery_id : string;
  attempt : option Z;
  delivery_metadata : Metadata;
}.

Record IoPrincipal : Type := mk_principal {
  principal_tenant_id : string;
  principal_id : string;
  via : string;
}.

Inductive IngressContent : Type :=
  | ContentText (text : string)
  | ContentCommand (name : string) (args : option string)
  | ContentEvent (kind : string) (payload : json).

Record IoAttachment : Type := mk_attachment {
  attachment_id : string;
  media_type : string;
  attachment_name : option string;
  attachment_uri : option string;
  size_bytes : option Z;
  attachment_metadata : Metadata;
}.

Record IngressEnvelope : Type := mk_ingress {
  ingress_id : string;
  ingress_source : IoSource;
  conversation : IoConversation;
  actor : option IoActor;
  content : IngressContent;
  attachments : list IoAttachment;
  dedupe_key : option IoDedupeKey;
  delivery : option IoDelivery;
  principal : option IoPrincipal;
  received_at_ms : Z;
  ingress_metadata : Metadata;
}.

Record ThreadAddress : Type := mk_address {
  address_tenant_id : string;
  address_user_id : string;
  address_session_id : string;
  address_thread_id : option string;
}.

Record ProviderPolicy : Type := mk_provider_policy {
  provider : string;
  model : string;
  provider_metadata : Metadata;
}.

Record ResolvedIoTarget : Type := mk_target {
  address : ThreadAddress;
  create_thread_if_missing : bool;
  parent_thread_id : option string;
  provider_policy : option ProviderPolicy;
  target_metadata : Metadata;
}.

Record IoTurnInput : Type := mk_turn_input {
  input_text : string;
  input_attachments : list IoAttachment;
  input_provider_policy : option ProviderPolicy;
  input_metadata : Metadata;
}.

#[global] Instance IoSource_eq_dec : EqDecision IoSource.
Proof. solve_decision. Defined.
#[global] Instance ConversationKind_eq_dec : EqDecision ConversationKind.
Proof. solve_decision. Defined.
#[global] Instance IoConversation_eq_dec : EqDecision IoConversation.
Proof. solve_decision. Defined.
#[global] Instance IoActor_eq_dec : EqDecision IoActor.
Proof. solve_decision. Defined.
#[global] Instance IoDedupeKey_eq_dec : EqDecision IoDedupeKey.
Proof. solve_decision. Defined.
#[global] Instance IoDelivery_eq_dec : EqDecision IoDelivery.
Proof. solve_decision. Defined.
#[global] Instance IoPrincipal_eq_dec : EqDecision IoPrincipal.
Proof. solve_decision. Defined.
#[global] Instance IoAttachment_eq_dec : EqDecision IoAttachment.
Proof. solve_decision. Defined.

(** [PartialEq for IngressContent]: JSON payloads are compared as [serde_json] compares them. *)
Definition content_eqb (a b : IngressContent) : bool :=
  match a, b with
  | ContentText x, ContentText y => String.eqb x y
  | ContentCommand n x, ContentCommand m y => String.eqb n m && bool_decide (x = y)
  | ContentEvent k x, ContentEvent l y => String.eqb k l && json_eqb x y
  | _, _ => false
  end.

(** [PartialEq for IngressEnvelope]. *)
Definition ingress_eqb (a b : IngressEnvelope) : bool :=
  String.eqb (ingress_id a) (ingress_id b) &&
  bool_decide (ingress_source a = ingress_source b) &&
  bool_decide (conversation a = conversation b) && bool_decide (actor a = actor b) &&
  content_eqb (content a) (content b) && bool_decide (attachments a = attachments b) &&
  bool_decide (dedupe_key a = dedupe_key b) && bool_decide (delivery a = delivery b) &&
  bool_decide (principal a = principal b) && (received_at_ms a =? received_at_ms b)%Z &&
  bool_decide (ingress_metadata a = ingress_metadata b).

(** ** Constructors and keys *)

Definition source_new (protocol instance_id : string) : IoSource := mk_source protocol instance_id [].

(** [IoSource::stable_scope]. *)
Definition stable_scope (s : IoSource) : string := protocol s +:+ ":" +:+ instance_id s.

Definition conversation_new (id : string) (kind : ConversationKind) : IoConversation :=
  mk_conversation id kind None None [].

(** [IoConversation::stable_key]. *)
Definition conversation_stable_key (c : IoConversation) : string :=
  match external_thread_id c with
  | Some thread => external_conversation_id c +:+ "#" +:+ thread
  | None => external_conversation_id c
  end.

(** [IoDedupeKey::for_source]. *)
Definition for_source (s : IoSource) (key : string) : IoDedupeKey := mk_dedupe (stable_scope s) key.

(** [IoDedupeKey::stable_key]. *)
Definition dedupe_stable_key (k : IoDedupeKey) : string :=
  dedupe_scope k +:+ ":" +:+ dedupe_key_text k.

Definition delivery_new (id : string) : IoDelivery := mk_delivery id None [].

(** [IngressEnvelope::new]; [id] is the one drawn. *)
Definition ingress_new (id : string) (s : IoSource) (c : IoConversation) (body : IngressContent)
    (received : Z) : IngressEnvelope :=
  mk_ingress id s c None body [] None None None received [].

Definition with_dedupe_key (k : IoDedupeKey) (e : IngressEnvelope) : IngressEnvelope :=
  mk_ingress (ingress_id e) (ingress_source e) (conversation e) (actor e) (content e)
    (attachments e) (Some k) (delivery e) (principal e) (received_at_ms e) (ingress_metadata e).

Definition with_delivery (d : IoDelivery) (e : IngressEnvelope) : IngressEnvelope :=
  mk_ingress (ingress_id e) (ingress_source e) (conversation e) (actor e) (content e)
    (attachments e) (dedupe_key e) (Some d) (principal e) (received_at_ms e) (ingress_metadata e).

Definition with_principal (p : IoPrincipal) (e : IngressEnvelope) : IngressEnvelope :=
  mk_ingress (ingress_id e) (ingress_source e) (conversation e) (actor e) (content e)
    (attachments e) (dedupe_key e) (delivery e) (Some p) (received_at_ms e) (ingress_metadata e).

(** [IngressEnvelope::with_metadata], an insertion into the map. *)
Definition with_metadata (key value : string) (e : IngressEnvelope) : IngressEnvelope :=
  mk_ingress (ingress_id e) (ingress_source e) (conversation e) (actor e) (content e)
    (attachments e) (dedupe_key e) (delivery e) (principal e) (received_at_ms e)
    (obj_insert key value (ingress_metadata e)).

(** The assignment [envelope.id = id]. *)
Definition set_ingress_id (id : string) (e : IngressEnvelope) : IngressEnvelope :=
  mk_ingress id (ingress_source e) (conversation e) (actor e) (content e)
    (attachments e) (dedupe_key e) (delivery e) (principal e) (received_at_ms e)
    (ingress_metadata e).

(** [ThreadAddress::scope_key]. *)
Definition scope_key (a : ThreadAddress) : string :=
  address_tenant_id a +:+ ":" +:+ address_user_id a +:+ ":" +:+ address_session_id a.

(** [ResolvedIoTarget::new]. *)
Definition target_new (a : ThreadAddress) : ResolvedIoTarget := mk_target a true None None [].

(** ** Boundary checks *)

(** [IngressEnvelope::effective_dedupe_key]. *)
Definition effective_dedupe_key (e : IngressEnvelope) : option IoDedupeKey :=
  match dedupe_key e with
  | Some key => Some key
  | None => (fun d => for_source (ingress_source e) (delivery_id d)) <$> delivery e
  end.

(** [IngressEnvelope::require_witnessed]. *)
Definition require_witnessed (e : IngressEnvelope) : IoResult unit :=
  d <-? ok_or (delivery e) (InvalidEnvelope (EnvelopeText "delivery is required")) ;;
  if String.eqb (delivery_id d) ""
  then Err (InvalidEnvelope (EnvelopeText "delivery.delivery_id cannot be empty"))
  else
    match effective_dedupe_key e with
    | None => Err (InvalidEnvelope (EnvelopeText "effective dedupe key is required"))
    | Some _ => Ok tt
    end.

(** [IngressEnvelope::require_attributed]. *)
Definition require_attributed (e : IngressEnvelope) (target : ResolvedIoTarget) : IoResult unit :=
  require_witnessed e ;;?
  p <-? ok_or (principal e) (InvalidEnvelope (EnvelopeText "principal is required")) ;;
  if String.eqb (principal_tenant_id p) (address_tenant_id (address target)) then Ok tt
  else Err (InvalidEnvelope (PrincipalTenantMismatch (principal_tenant_id p)
                               (address_tenant_id (address target)))).

(** ** Decisions *)

Inductive AdmissionMode : Type :=
  | ModeQueue | ModeSteer | ModeInterrupt | ModeFork | ModeObserveOnly | ModeReject.

Inductive IoAdmissionDecision : Type :=
  | AdmitQueue (turn_id : string) (input : IoTurnInput)
  | AdmitSteer (turn_id : string) (expected_active_turn_id : option string) (input : IoTurnInput)
  | AdmitInterrupt (reason : string) (replacement_turn_id : option string)
      (replacement : option IoTurnInput)
  | AdmitFork (child_key : string) (input : IoTurnInput)
  | AdmitObserveOnly (reason : string)
  | AdmitReject (reason : string).

(** [AdmissionDecision::mode]. *)
Definition decision_mode (d : IoAdmissionDecision) : AdmissionMode :=
  match d with
  | AdmitQueue _ _ => ModeQueue
  | AdmitSteer _ _ _ => ModeSteer
  | AdmitInterrupt _ _ _ => ModeInterrupt
  | AdmitFork _ _ => ModeFork
  | AdmitObserveOnly _ => ModeObserveOnly
  | AdmitReject _ => ModeReject
  end.

Record KernelIoReceipt : Type := mk_receipt {
  receipt_envelope_id : string;
  receipt_target : ResolvedIoTarget;
  receipt_mode : AdmissionMode;
  receipt_thread_id : option string;
  receipt_turn_id : option string;
  receipt_principal : option IoPrincipal;
}.

(** [KernelIoReceipt::new]. *)
Definition kernel_io_receipt (e : IngressEnvelope) (target : ResolvedIoTarget)
    (d : IoAdmissionDecision) : KernelIoReceipt :=
  let turn_id := match d with
                 | AdmitQueue turn _ | AdmitSteer turn _ _ => Some turn
                 | AdmitInterrupt _ replacement _ => replacement
                 | AdmitFork child _ => Some child
                 | AdmitObserveOnly _ | AdmitReject _ => None
                 end in
  mk_receipt (ingress_id e) target (decision_mode d) (address_thread_id (address target)) turn_id
    (principal e).

Record IngressAck : Type := mk_ingress_ack {
  ack_envelope_id : string;
  ack_dedupe_key : option IoDedupeKey;
  ack_accepted : bool;
  ack_reason : option string;
}.

(** [IngressAck::accepted] and [IngressAck::rejected]. *)
Definition ingress_accepted (e : IngressEnvelope) : IngressAck :=
  mk_ingress_ack (ingress_id e) (effective_dedupe_key e) true None.

Definition ingress_rejected (e : IngressEnvelope) (reason : string) : IngressAck :=
  mk_ingress_ack (ingress_id e) (effective_dedupe_key e) false (Some reason).

Section Projection.
Context (json_text : json -> string).

(** [IngressContent::text_projection]. *)
Definition text_projection (c : IngressContent) : string :=
  match c with
  | ContentText text => text
  | ContentCommand name args =>
      match args with
      | Some args => if String.eqb args "" then "/" +:+ name else "/" +:+ name +:+ " " +:+ args
      | None => "/" +:+ name
      end
  | ContentEvent kind payload =>
      match payload with
      | JNull => kind
      | _ => kind +:+ ": " +:+ json_text payload
      end
  end.

(** [IoTurnInput::from_envelope]. *)
Definition turn_input_from_envelope (e : IngressEnvelope) (target : ResolvedIoTarget) :
    IoTurnInput :=
  mk_turn_input (text_projection (content e)) (attachments e) (provider_policy target)
    (ingress_metadata e).
End Projection.

(** ** Serialized form *)

(** A [BTreeMap<String, String>] with [skip_serializing_if = "BTreeMap::is_empty"]. *)
Definition map_field (k : string) (m : Metadata) : list (string * json) :=
  match m with [] => [] | _ => [(k, JObject (map (fun kv => (kv.1, JString kv.2)) m))] end.

Definition source_json (s : IoSource) : json :=
  jobj ([("protocol", JString (protocol s)); ("instance_id", JString (instance_id s))] ++
        map_field "metadata" (source_metadata s)).

Definition conversation_kind_str (k : ConversationKind) : string :=
  match k with
  | Direct => "direct" | Group => "group" | Channel => "channel"
  | ThreadConversation => "thread" | System => "system"
  end.

Definition conversation_json (c : IoConversation) : json :=
  jobj ([("external_conversation_id", JString (external_conversation_id c));
         ("kind", JString (conversation_kind_str (conversation_kind c)))] ++
        opt_field "title" JString (title c) ++
        opt_field "external_thread_id" JString (external_thread_id c) ++
        map_field "metadata" (conversation_metadata c)).

Definition actor_json (a : IoActor) : json :=
  jobj ([("external_actor_id", JString (external_actor_id a))] ++
        opt_field "display_name" JString (display_name a) ++
        [("is_bot", JBool (is_bot a))] ++ map_field "metadata" (actor_metadata a)).

Definition dedupe_json (k : IoDedupeKey) : json :=
  jobj [("scope", JString (dedupe_scope k)); ("key", JString (dedupe_key_text k))].

Definition delivery_json (d : IoDelivery) : json :=
  jobj ([("delivery_id", JString (delivery_id d))] ++ opt_field "attempt" jint (attempt d) ++
        map_field "metadata" (delivery_metadata d)).

Definition principal_json (p : IoPrincipal) : json :=
  jobj [("tenant_id", JString (principal_tenant_id p)); ("principal_id", JString (principal_id p));
        ("via", JString (via p))].

Definition content_json (c : IngressContent) : json :=
  match c with
  | ContentText text => jobj [("type", JString "text"); ("text", JString text)]
  | ContentCommand name args =>
      jobj ([("type", JString "command"); ("name", JString name)] ++ opt_field "args" JString args)
  | ContentEvent kind payload =>
      jobj [("type", JString "event"); ("kind", JString kind); ("payload", payload)]
  end.

Definition attachment_json (a : IoAttachment) : json :=
  jobj ([("id", JString (attachment_id a)); ("media_type", JString (media_type a))] ++
        opt_field "name" JString (attachment_name a) ++
        opt_field "uri" JString (attachment_uri a) ++
        opt_field "size_bytes" jint (size_bytes a) ++
        map_field "metadata" (attachment_metadata a)).

(** [Serialize for IngressEnvelope]. *)
Definition ingress_json (e : IngressEnvelope) : json :=
  jobj ([("id", JString (ingress_id e)); ("source", source_json (ingress_source e));
         ("conversation", conversation_json (conversation e))] ++
        opt_field "actor" actor_json (actor e) ++
        [("content", content_json (content e))] ++
        vec_field "attachments" attachment_json (attachments e) ++
        opt_field "dedupe_key" dedupe_json (dedupe_key e) ++
        opt_field "delivery" delivery_json (delivery e) ++
        opt_field "principal" principal_json (principal e) ++
        [("received_at_ms", jint (received_at_ms e))] ++
        map_field "metadata" (ingress_metadata e)).

(** ** What the checks admit *)

Lemma witnessed_iff e :
  require_witnessed e = Ok tt <-> exists d, delivery e = Some d /\ delivery_id d <> "".
Proof.
  unfold require_witnessed, effective_dedupe_key.
  destruct (delivery e) as [d|]; simpl; [|naive_solver].
  destruct (String.eqb_spec (delivery_id d) "") as [He|He]; [naive_solver|].
  destruct (dedupe_key e); naive_solver.
Qed.

Lemma attributed_iff e target :
  require_attributed e target = Ok tt <->
  require_witnessed e = Ok tt /\
  exists p, principal e = Some p /\ principal_tenant_id p = address_tenant_id (address target).
Proof.
  unfold require_attributed. destruct (require_witnessed e) as [[]|]; simpl; [|naive_solver].
  destruct (principal e) as [p|]; simpl; [|naive_solver].
  destruct (String.eqb_spec (principal_tenant_id p) (address_tenant_id (address target)));
    naive_solver.
Qed.

(** An envelope that passes the submit boundary always has an identity to dedupe on: the third
    check of [require_witnessed] never fails. *)
Lemma witnessed_has_key e : require_witnessed e = Ok tt -> effective_dedupe_key e <> None.
Proof.
  intros (d & Hd & _)%witnessed_iff. unfold effective_dedupe_key. rewrite Hd.
  by destruct (dedupe_key e).
Qed.
