(* ===== verification/Queue.v ===== *)
(** * The store-hosted ingress queue

    Models [crates/verlet-kernel/src/daemon/remote_store/queue.rs]: the table
    [verlet_remote_ingress_queue] as a list of rows in insertion order, each
    transaction as a state-passing function, each query as the rows it selects.

    The text column [entry_json] holds what serde encodes: the encoder and the
    decoder are a parameter whose law is that decoding undoes encoding.  The
    parser of uuid texts is a parameter with its round trip.  Event ids drawn and
    the clock are arguments. *)

From stdpp Require Import base gmap sets list strings sorting relations.
From Stdlib Require Import ZArith Lia.
From S2P Require Import Prelude Json EventSchemas Contracts Records Lease Ingress.

Local Open Scope verlet_scope.
Local Open Scope string_scope.
Local Open Scope list_scope.

Definition SYNC_INGRESS_QUEUE_ENTRY_SCHEMA_V1 : string :=
  "cooldis.stream.sync_ingress_queue_entry/1".
Definition SYNC_INGRESS_QUEUE_STREAM_PREFIX : string := "sync-ingress:".

(** [Uuid::parse_str] on the texts the kernel stores: it reads back what [Display] wrote, and a
    uuid text is a non-empty word of hexadecimal digits and hyphens. *)
Class UuidParse `{UuidText} := {
  uuid_parse : string -> option Uuid;
  uuid_parse_text id : uuid_parse (uuid_text id) = Some id;
  uuid_text_plain id : uuid_text id <> "" /\ String.index 0 ":" (uuid_text id) = None;
}.

Record RemoteIngressQueueEntryV1 : Type := mk_entry {
  entry_schema : string;
  entry_dispatch_id : DispatchId;
  entry_target_thread_id : ThreadId;
  entry_envelope : IngressEnvelope;
  enqueued_at_ms : Z;
}.

(** [PartialEq for RemoteIngressQueueEntryV1]. *)
Definition entry_eqb (a b : RemoteIngressQueueEntryV1) : bool :=
  String.eqb (entry_schema a) (entry_schema b) &&
  String.eqb (entry_dispatch_id a) (entry_dispatch_id b) &&
  (entry_target_thread_id a =? entry_target_thread_id b)%N &&
  ingress_eqb (entry_envelope a) (entry_envelope b) &&
  (enqueued_at_ms a =? enqueued_at_ms b)%Z.

(** [serde_json::to_string] and [serde_json::from_str] on entries, through a type of texts. *)
Class EntryCodec := {
  EntryText : Type;
  encode_entry : RemoteIngressQueueEntryV1 -> EntryText;
  decode_entry_text : EntryText -> result RemoteIngressQueueEntryV1 string;
  decode_encode e : decode_entry_text (encode_entry e) = Ok e;
}.

Inductive RemoteEnqueueDisposition : Type := Enqueued | FoldedToExisting.

Record RemoteEnqueueReceipt : Type := mk_enqueue_receipt {
  receipt_entry : RemoteIngressQueueEntryV1;
  disposition : RemoteEnqueueDisposition;
}.

Record RemoteIngressQueuePage : Type := mk_page {
  page_entries : list RemoteIngressQueueEntryV1;
  page_next : option EventSequence;
}.

(** [validate_entry]. *)
Definition validate_entry (entry : RemoteIngressQueueEntryV1) : VerletResult unit :=
  if negb (String.eqb (entry_schema entry) SYNC_INGRESS_QUEUE_ENTRY_SCHEMA_V1)
  then Err (HistoryText "unsupported remote ingress queue entry schema")
  else
    key <-? ok_or (dedupe_key (entry_envelope entry))
              (HistoryText "remote ingress queue entry requires a dispatch dedupe key") ;;
    if negb (String.eqb (dedupe_key_text key) (entry_dispatch_id entry))
    then Err (HistoryText "remote ingress queue dedupe key does not match dispatch id")
    else if negb (enqueued_at_ms entry =? 0)%Z
    then Err (HistoryText
                "remote ingress queue enqueued_at_ms must be zero for stable retry identity")
    else Ok tt.

Section Queue.
Context `{UuidParse} `{EntryCodec}.

(** [remote_ingress_queue_stream_id]. *)
Definition remote_ingress_queue_stream_id (target : ThreadId) : EventStreamId :=
  SYNC_INGRESS_QUEUE_STREAM_PREFIX +:+ uuid_text target.

(** [remote_ingress_queue_target]. *)
Definition remote_ingress_queue_target (stream : EventStreamId) : option ThreadId :=
  match strip_prefix SYNC_INGRESS_QUEUE_STREAM_PREFIX stream with
  | None => None
  | Some value =>
      if String.eqb value "" || negb (is_none (String.index 0 ":" value)) then None
      else uuid_parse value
  end.

(** A row of [verlet_remote_ingress_queue]. *)
Record QueueRow : Type := mk_row {
  row_target : string;
  row_sequence : Z;
  row_event_id : string;
  row_dispatch_id : DispatchId;
  row_entry : EntryText;
  row_acknowledged_at_ms : option Z;
}.

Record StoredQueueRow : Type := mk_stored {
  stored_sequence : EventSequence;
  stored_event_id : EventRecordId;
  stored_entry : RemoteIngressQueueEntryV1;
}.

Notation Tx A := (st (list QueueRow) VerletError A).

(** [decode_entry]. *)
Definition decode_entry (encoded : EntryText) : VerletResult RemoteIngressQueueEntryV1 :=
  entry <-? map_err (fun m => HistoryText ("decode remote ingress queue entry: " +:+ m))
              (decode_entry_text encoded) ;;
  validate_entry entry ;;?
  Ok entry.

(** [parse_event_id]. *)
Definition parse_event_id (value : string) : VerletResult EventRecordId :=
  ok_or (uuid_parse value) (HistoryText "decode queue event id").

Definition queue_key_eqb (target : string) (dispatch : DispatchId) (r : QueueRow) : bool :=
  String.eqb (row_target r) target && String.eqb (row_dispatch_id r) dispatch.

(** [SELECT COALESCE(MAX(sequence), 0) + 1 ... WHERE target_thread_id = ?1]. *)
Definition next_sequence (rows : list QueueRow) (target : string) : Z :=
  match max_by_key row_sequence (filter (fun r => row_target r = target) rows) with
  | Some r => row_sequence r
  | None => 0
  end + 1.

(** [INSERT INTO verlet_remote_ingress_queue], under the table's constraints. *)
Definition insert_row (row : QueueRow) : Tx unit :=
  rows <-! st_get ;;
  if existsb (fun r => String.eqb (row_event_id r) (row_event_id row)) rows ||
     existsb (queue_key_eqb (row_target row) (row_dispatch_id row)) rows ||
     existsb (fun r => String.eqb (row_target r) (row_target row) &&
                       (row_sequence r =? row_sequence row)%Z) rows
  then st_lift (Err (ConstraintFailed "verlet_remote_ingress_queue"))
  else st_modify (fun rows => rows ++ [row]).

(** [RemoteIngressQueue::enqueue]; [event_id] is the one drawn. *)
Definition enqueue (event_id : EventRecordId) (entry : RemoteIngressQueueEntryV1) :
    Tx RemoteEnqueueReceipt :=
  st_lift (validate_entry entry) ;;!
  rows <-! st_get ;;
  let target := uuid_text (entry_target_thread_id entry) in
  match list_find (fun r => queue_key_eqb target (entry_dispatch_id entry) r = true) rows with
  | Some (_, row) =>
      existing <-! st_lift (decode_entry (row_entry row)) ;;
      if negb (entry_eqb existing entry)
      then st_lift (Err (HistoryText
             ("remote ingress dispatch " +:+ entry_dispatch_id entry +:+
              " already exists with a different payload")))
      else st_ret (mk_enqueue_receipt existing FoldedToExisting)
  | None =>
      insert_row (mk_row target (next_sequence rows target) (uuid_text event_id)
                    (entry_dispatch_id entry) (encode_entry entry) None) ;;!
      st_ret (mk_enqueue_receipt entry Enqueued)
  end.

(** The rows [pending_rows] selects, in the order of its query. *)
Definition select_pending (rows : list QueueRow) (target : string)
    (after : option EventSequence) : list QueueRow :=
  sort_by_z row_sequence
    (filter (fun r => String.eqb (row_target r) target &&
                      (default 0 after <? row_sequence r)%Z &&
                      is_none (row_acknowledged_at_ms r) = true) rows).

(** The body of the loop of [pending_rows]. *)
Definition load_row (target : ThreadId) (row : QueueRow) : VerletResult StoredQueueRow :=
  event_id <-? parse_event_id (row_event_id row) ;;
  entry <-? decode_entry (row_entry row) ;;
  if negb (entry_target_thread_id entry =? target)%N
  then Err (HistoryText "remote ingress queue row target does not match its partition")
  else Ok (mk_stored (row_sequence row) event_id entry).

(** [pending_rows]. *)
Definition pending_rows (rows : list QueueRow) (target : ThreadId)
    (after : option EventSequence) : VerletResult (list StoredQueueRow) :=
  collect (load_row target) (select_pending rows (uuid_text target) after).

(** [RemoteIngressQueue::tail_pending]. *)
Definition tail_pending (rows : list QueueRow) (target : ThreadId)
    (after : option EventSequence) : VerletResult RemoteIngressQueuePage :=
  pending <-? pending_rows rows target after ;;
  let next := match last pending with Some row => Some (stored_sequence row) | None => after end in
  Ok (mk_page (map stored_entry pending) next).

(** [SET acknowledged_at_ms = COALESCE(acknowledged_at_ms, ?3)]. *)
Definition acknowledge_row (now_ms : Z) (r : QueueRow) : QueueRow :=
  mk_row (row_target r) (row_sequence r) (row_event_id r) (row_dispatch_id r) (row_entry r)
    (Some (default now_ms (row_acknowledged_at_ms r))).

(** [RemoteIngressQueue::acknowledge]. *)
Definition acknowledge (now_ms : Z) (target : ThreadId) (dispatch : DispatchId) : Tx unit :=
  st_modify (map (fun r => if queue_key_eqb (uuid_text target) dispatch r
                           then acknowledge_row now_ms r else r)).

(** [verify_cursor]. *)
Definition verify_cursor (rows : list QueueRow) (target : ThreadId) (cursor : StreamCursorV1) :
    VerletResult unit :=
  match list_find (fun r => String.eqb (row_target r) (uuid_text target) &&
                            (row_sequence r =? cursor_sequence cursor)%Z = true) rows with
  | None => Err (HistoryText "remote ingress queue cursor sequence is absent")
  | Some (_, row) =>
      if String.eqb (row_event_id row) (uuid_text (cursor_event_id cursor)) then Ok tt
      else Err (HistoryText "remote ingress queue cursor event id diverged")
  end.

(** [queue_coordinates]. *)
Definition queue_coordinates (target : ThreadId) : ThreadCoordinates :=
  mk_coordinates "remote-ingress" "remote-ingress" "remote-ingress" target.

(** [Serialize for RemoteIngressQueueEntryV1]. *)
Definition entry_json (e : RemoteIngressQueueEntryV1) : json :=
  jobj [("schema", JString (entry_schema e)); ("dispatch_id", JString (entry_dispatch_id e));
        ("target_thread_id", JString (uuid_text (entry_target_thread_id e)));
        ("envelope", ingress_json (entry_envelope e));
        ("enqueued_at_ms", jint (enqueued_at_ms e))].

(** [StoredQueueRow::into_wire]. *)
Definition into_wire (stream : EventStreamId) (row : StoredQueueRow) : StreamRecordEnvelopeV1 :=
  let entry := stored_entry row in
  mk_envelope STREAM_RECORD_SCHEMA_V1 (stored_event_id row) stream (stored_sequence row)
    (queue_coordinates (entry_target_thread_id entry)) (enqueued_at_ms entry)
    "sync.ingress.queue.entry" Witnessed SYNC_INGRESS_QUEUE_ENTRY_SCHEMA_V1 None
    provenance_default (entry_json entry).

(** [SqliteRemoteIngressQueue::pull_after]. *)
Definition queue_pull_after (rows : list QueueRow) (stream : EventStreamId)
    (cursor : option StreamCursorV1) : VerletResult (list StreamRecordEnvelopeV1) :=
  target <-? ok_or (remote_ingress_queue_target stream)
               (HistoryText ("invalid remote ingress queue stream " +:+ stream)) ;;
  after <-? match cursor with
            | Some cursor =>
                map_err HistoryFailed (validate_stream_cursor_v1 cursor) ;;?
                if negb (String.eqb (cursor_stream_id cursor) stream)
                then Err (HistoryText
                            "remote ingress queue cursor belongs to a different stream")
                else verify_cursor rows target cursor ;;? Ok (Some (cursor_sequence cursor))
            | None => Ok None
            end ;;
  pending <-? pending_rows rows target after ;;
  Ok (map (into_wire stream) pending).
End Queue.

(** * The dispatch law of the ingress queue

    The operations of [Queue] as a transition system: the invariant of every
    reachable table, the fate of a dispatch once its entry landed, and what a
    child that tails its queue is shown. *)

Local Close Scope verlet_scope.
Local Open Scope string_scope.
Local Open Scope list_scope.

Section Queue.
Context `{UuidParse} `{EntryCodec}.

Notation Rows := (list QueueRow).

(** ** The transition system *)

Inductive queue_op : Type :=
  | OpEnqueue (event_id : EventRecordId) (entry : RemoteIngressQueueEntryV1)
  | OpAcknowledge (now_ms : Z) (target : ThreadId) (dispatch : DispatchId).

Definition run_queue (o : queue_op) (rows : Rows) : Rows * VerletResult unit :=
  match o with
  | OpEnqueue id entry => let out := enqueue id entry rows in (out.1, result_map (fun _ => tt) out.2)
  | OpAcknowledge now target dispatch => acknowledge now target dispatch rows
  end.

Definition queue_step (rows rows' : Rows) : Prop := exists o r, run_queue o rows = (rows', r).

Definition queue_reachable (rows : Rows) : Prop := rtc queue_step [] rows.

(** ** The invariant *)

Definition rows_of (target : string) (rows : Rows) : Rows :=
  filter (fun r => row_target r = target) rows.

Definition row_key (r : QueueRow) : string * DispatchId := (row_target r, row_dispatch_id r).

(** What a row says about the entry it holds. *)
Definition row_holds (r : QueueRow) (e : RemoteIngressQueueEntryV1) : Prop :=
  decode_entry (row_entry r) = Ok e /\ row_target r = uuid_text (entry_target_thread_id e) /\
  row_dispatch_id r = entry_dispatch_id e.

Record queue_wf (rows : Rows) : Prop := {
  queue_numbered target i r :
    rows_of target rows !! i = Some r -> row_sequence r = Z.of_nat (S i);
  queue_keys : NoDup (row_key <$> rows);
  queue_ids r : r ∈ rows -> exists id, row_event_id r = uuid_text id;
  queue_entries r : r ∈ rows -> exists e, row_holds r e;
}.

(** A row never changes but for the time of its first acknowledgement. *)
Record row_le (r r' : QueueRow) : Prop := {
  le_target : row_target r' = row_target r;
  le_sequence : row_sequence r' = row_sequence r;
  le_event_id : row_event_id r' = row_event_id r;
  le_dispatch_id : row_dispatch_id r' = row_dispatch_id r;
  le_entry : row_entry r' = row_entry r;
  le_acknowledged t : row_acknowledged_at_ms r = Some t -> row_acknowledged_at_ms r' = Some t;
}.

#[export] Instance row_le_refl : Reflexive row_le.
Proof. by intros r; split. Qed.

#[export] Instance row_le_trans : Transitive row_le.
Proof. intros r1 r2 r3 [] []. split; try congruence. auto. Qed.

(** A later table: old rows in place, new rows behind them. *)
Definition rows_le (rows rows' : Rows) : Prop :=
  exists kept new, rows' = kept ++ new /\ Forall2 row_le rows kept.

#[export] Instance rows_le_refl : Reflexive rows_le.
Proof. intros rows. exists rows, []. rewrite app_nil_r. by split. Qed.

#[export] Instance rows_le_trans : Transitive rows_le.
Proof.
  intros rows1 rows2 rows3 (k1 & n1 & -> & Hk1) (k2 & n2 & -> & Hk2).
  apply Forall2_app_inv_l in Hk2 as (k2a & k2b & Ha & Hb & ->).
  exists k2a, (k2b ++ n2). rewrite app_assoc. split; [done|]. by etrans.
Qed.

Lemma rows_le_elem rows rows' r :
  rows_le rows rows' -> r ∈ rows -> exists r', r' ∈ rows' /\ row_le r r'.
Proof.
  intros (kept & new & -> & Hk) (i & Hi)%list_elem_of_lookup.
  destruct (Forall2_lookup_l _ _ _ _ _ Hk Hi) as (r' & Hr' & Hle).
  exists r'. split; [|done]. apply elem_of_app. left. by apply list_elem_of_lookup_2 in Hr'.
Qed.

Lemma row_le_key r r' : row_le r r' -> row_key r' = row_key r.
Proof. intros []. unfold row_key. congruence. Qed.

Lemma row_le_holds r r' e : row_le r r' -> row_holds r e -> row_holds r' e.
Proof. intros [] (? & ? & ?). unfold row_holds. split_and!; congruence. Qed.

Lemma rows_of_le target rows rows' :
  Forall2 row_le rows rows' -> Forall2 row_le (rows_of target rows) (rows_of target rows').
Proof.
  unfold rows_of. induction 1 as [|r r' rows rows' Hle _ IH]; [constructor|].
  destruct (decide (row_target r = target)).
  - rewrite !filter_cons_True by (rewrite ?(le_target _ _ Hle); done). by constructor.
  - rewrite !filter_cons_False by (rewrite ?(le_target _ _ Hle); done). done.
Qed.

Lemma queue_wf_le rows rows' : Forall2 row_le rows rows' -> queue_wf rows -> queue_wf rows'.
Proof.
  intros Hle [Hn Hk Hi He].
  assert (forall r', r' ∈ rows' -> exists r, r ∈ rows /\ row_le r r') as Hold.
  { intros r' (i & Hr')%list_elem_of_lookup.
    destruct (Forall2_lookup_r _ _ _ _ _ Hle Hr') as (r & Hr & ?).
    exists r. by apply list_elem_of_lookup_2 in Hr. }
  split.
  - intros target i r' Hr'.
    destruct (Forall2_lookup_r _ _ _ _ _ (rows_of_le target _ _ Hle) Hr') as (r & Hr & Hrr).
    rewrite (le_sequence _ _ Hrr). by apply (Hn target).
  - replace (row_key <$> rows') with (row_key <$> rows); [done|].
    clear -Hle. induction Hle as [|r r' ? ? Hr _ IH]; [done|].
    rewrite !fmap_cons, IH. f_equal. symmetry. by apply row_le_key.
  - intros r' (r & Hr & Hrr)%Hold. rewrite (le_event_id _ _ Hrr). auto.
  - intros r' (r & Hr & Hrr)%Hold. destruct (He r Hr) as [e Hh]. exists e.
    by apply (row_le_holds r).
Qed.

Lemma queue_wf_nil : queue_wf [].
Proof. split; [done|constructor|by intros r ?%elem_of_nil..]. Qed.

(** ** Queries *)

(** The order of the queries. *)
Definition row_order (a b : QueueRow) : Prop := (row_sequence a <= row_sequence b)%Z.

#[export] Instance row_order_refl : Reflexive row_order.
Proof. intros r. unfold row_order. lia. Qed.

Lemma sequences_sorted (rows : Rows) start :
  (forall i r, rows !! i = Some r -> row_sequence r = Z.of_nat (start + i)) ->
  StronglySorted row_order rows.
Proof.
  revert start. induction rows as [|r rows IH]; intros start Hseq; constructor.
  - apply (IH (S start)). intros i x Hx. rewrite (Hseq (S i) x Hx). lia.
  - apply Forall_forall. intros x (i & Hi)%list_elem_of_lookup.
    unfold row_order. rewrite (Hseq 0%nat r eq_refl), (Hseq (S i) x Hi). lia.
Qed.

Lemma sorted_filter {A} (R : A -> A -> Prop) (P : A -> Prop) `{!forall x, Decision (P x)} l :
  StronglySorted R l -> StronglySorted R (filter P l).
Proof.
  induction 1 as [|x l Hs IH Hx]; [constructor|]. destruct (decide (P x)).
  - rewrite filter_cons_True by done. constructor; [done|].
    rewrite Forall_forall in *. intros y [_ Hy]%list_elem_of_filter. auto.
  - by rewrite filter_cons_False.
Qed.

(** Whether a child that has seen everything up to [after] is still to be shown a row. *)
Definition is_pending (after : option EventSequence) (r : QueueRow) : Prop :=
  (default 0 after < row_sequence r)%Z /\ row_acknowledged_at_ms r = None.

#[global] Instance is_pending_dec after r : Decision (is_pending after r) := _.

Section Wf.
Context (rows : Rows) (Hwf : queue_wf rows).

Lemma rows_of_elem target r : r ∈ rows_of target rows <-> r ∈ rows /\ row_target r = target.
Proof. unfold rows_of. rewrite list_elem_of_filter. naive_solver. Qed.

Lemma same_key r r' : r ∈ rows -> r' ∈ rows -> row_key r = row_key r' -> r = r'.
Proof.
  intros (i & Hi)%list_elem_of_lookup (j & Hj)%list_elem_of_lookup Heq.
  assert (i = j) as ->; [|congruence].
  apply (NoDup_lookup _ _ _ (row_key r) (queue_keys _ Hwf));
    rewrite list_lookup_fmap, ?Hi, ?Hj; simpl; congruence.
Qed.

Lemma find_key target dispatch :
  match list_find (fun r => queue_key_eqb target dispatch r = true) rows with
  | Some (_, r) => r ∈ rows /\ row_key r = (target, dispatch)
  | None => forall r, r ∈ rows -> row_key r <> (target, dispatch)
  end.
Proof.
  destruct (list_find _ rows) as [[i r]|] eqn:Hf.
  - apply list_find_Some in Hf as (Hr & Hk & _). apply list_elem_of_lookup_2 in Hr.
    unfold queue_key_eqb in Hk. to_prop. unfold row_key. split; [done|congruence].
  - apply list_find_None in Hf. rewrite Forall_forall in Hf. intros r Hr Hk.
    apply (Hf r Hr). unfold row_key in Hk. injection Hk as Ht Hd.
    unfold queue_key_eqb. by rewrite Ht, Hd, !String.eqb_refl.
Qed.

(** [COALESCE(MAX(sequence), 0) + 1] counts the rows of the target. *)
Lemma next_sequence_eq target :
  next_sequence rows target = Z.of_nat (S (length (rows_of target rows))).
Proof.
  unfold next_sequence. change (filter _ rows) with (rows_of target rows).
  destruct (max_by_key row_sequence (rows_of target rows)) as [r|] eqn:Hm.
  - apply max_by_key_spec in Hm as [(i & Hi)%list_elem_of_lookup Hmax].
    rewrite (queue_numbered _ Hwf target i r Hi).
    destruct (lookup_lt_is_Some_2 (rows_of target rows) (length (rows_of target rows) - 1))
      as [x Hx]; [apply lookup_lt_Some in Hi; lia|].
    specialize (Hmax x (list_elem_of_lookup_2 _ _ _ Hx)).
    rewrite (queue_numbered _ Hwf target _ x Hx), (queue_numbered _ Hwf target i r Hi) in Hmax.
    apply lookup_lt_Some in Hi. lia.
  - apply max_by_key_none in Hm. rewrite Hm. done.
Qed.

Lemma select_pending_eq target after :
  select_pending rows target after = filter (is_pending after) (rows_of target rows).
Proof.
  unfold select_pending, rows_of. rewrite list_filter_filter.
  rewrite (list_filter_iff _ (fun r => is_pending after r /\ row_target r = target)).
  - rewrite sort_by_z_sorted; [done|]. rewrite <- list_filter_filter. apply sorted_filter.
    apply (sequences_sorted _ 1). intros i r Hr. by apply (queue_numbered _ Hwf target).
  - intros r. unfold is_pending. rewrite !andb_true_iff, String.eqb_eq, Z.ltb_lt.
    destruct (row_acknowledged_at_ms r); simpl; naive_solver.
Qed.

Lemma load_row_wf target r :
  r ∈ rows -> row_target r = uuid_text target ->
  exists id e, row_event_id r = uuid_text id /\ row_holds r e /\ entry_target_thread_id e = target /\
    load_row target r = Ok (mk_stored (row_sequence r) id e).
Proof.
  intros Hr Ht. destruct (queue_ids _ Hwf r Hr) as [id Hid].
  destruct (queue_entries _ Hwf r Hr) as [e Hh]. exists id, e.
  pose proof Hh as (Hd & Hte & Hdi). rewrite Ht in Hte. apply (inj uuid_text) in Hte. symmetry in Hte.
  split_and!; try done. unfold load_row, parse_event_id. rewrite Hid, uuid_parse_text. simpl.
  rewrite Hd. simpl. by rewrite Hte, N.eqb_refl.
Qed.

(** Reading a well-formed table never fails: the page is the pending rows, in order. *)
Lemma pending_rows_ok target after :
  exists stored, pending_rows rows target after = Ok stored /\
    Forall2 (fun r s => load_row target r = Ok s)
      (filter (is_pending after) (rows_of (uuid_text target) rows)) stored.
Proof.
  unfold pending_rows. rewrite select_pending_eq.
  set (l := filter _ _). assert (forall r, r ∈ l -> r ∈ rows /\ row_target r = uuid_text target) as Hl.
  { intros r [_ Hr]%list_elem_of_filter. by apply rows_of_elem. }
  clearbody l. induction l as [|r l IH]; [by exists []|].
  destruct (load_row_wf target r) as (id & e & _ & _ & _ & Hload); [apply Hl; set_solver..|].
  destruct IH as (stored & Hc & Hf); [intros x Hx; apply Hl; set_solver|].
  eexists (_ :: stored). simpl. rewrite Hload, Hc. split; [done|]. by constructor.
Qed.
End Wf.

(** ** What the operations do *)

Lemma decode_entry_ok x e : decode_entry x = Ok e -> validate_entry e = Ok tt.
Proof.
  unfold decode_entry. destruct (decode_entry_text x) as [e'|]; simpl; [|done].
  destruct (validate_entry e') as [[]|] eqn:Hv; simpl; [|done]. by intros [= ->].
Qed.

Lemma decode_entry_encode e : validate_entry e = Ok tt -> decode_entry (encode_entry e) = Ok e.
Proof. intros Hv. unfold decode_entry. rewrite decode_encode. simpl. by rewrite Hv. Qed.

(** The row an accepted entry lands in. *)
Definition new_row (rows : Rows) (id : EventRecordId) (e : RemoteIngressQueueEntryV1) : QueueRow :=
  let target := uuid_text (entry_target_thread_id e) in
  mk_row target (next_sequence rows target) (uuid_text id) (entry_dispatch_id e) (encode_entry e)
    None.

Definition entry_key (e : RemoteIngressQueueEntryV1) : string * DispatchId :=
  (uuid_text (entry_target_thread_id e), entry_dispatch_id e).

Lemma row_holds_key r e : row_holds r e -> row_key r = entry_key e.
Proof. intros (_ & Ht & Hd). unfold row_key, entry_key. congruence. Qed.

Lemma insert_row_ok row rows rows' u :
  insert_row row rows = (rows', Ok u) -> rows' = rows ++ [row].
Proof. unfold insert_row. intros Hrun. st_inv. destruct (_ || _); by st_inv. Qed.

Lemma insert_row_err row rows rows' e : insert_row row rows = (rows', Err e) -> rows' = rows.
Proof. unfold insert_row. intros Hrun. st_inv. destruct (_ || _); by st_inv. Qed.

Lemma enqueue_err id e rows rows' err : enqueue id e rows = (rows', Err err) -> rows' = rows.
Proof.
  unfold enqueue. intros Hrun. st_inv; [done|].
  destruct (list_find _ rows) as [[i r]|]; st_inv; [done| |].
  - destruct (negb _); by st_inv.
  - by eapply insert_row_err.
Qed.

Lemma enqueue_effect id e rows rows' receipt :
  queue_wf rows -> enqueue id e rows = (rows', Ok receipt) ->
  validate_entry e = Ok tt /\
  ((rows' = rows /\ disposition receipt = FoldedToExisting /\
  entry_eqb (receipt_entry receipt) e = true /\
  exists r, r ∈ rows /\ row_key r = entry_key e /\ row_holds r (receipt_entry receipt)) \/
   (rows' = rows ++ [new_row rows id e] /\ receipt = mk_enqueue_receipt e Enqueued /\
  forall r, r ∈ rows -> row_key r <> entry_key e)).
Proof.
  intros Hwf. unfold enqueue. intros Hrun. st_inv. split; [by destruct a|].
  pose proof (find_key rows (uuid_text (entry_target_thread_id e)) (entry_dispatch_id e)) as Hf.
  destruct (list_find _ rows) as [[i r]|]; st_inv.
  - destruct Hf as [Hr Hk]. destruct (negb _) eqn:Heq; st_inv; [done|]. to_prop. left.
    destruct (queue_entries _ Hwf r Hr) as [x Hx]. pose proof Hx as [Hd _]. simplify_eq/=.
    assert (a0 = x) as -> by congruence. split_and!; try done. by exists r.
  - right. split_and!; try done. by eapply insert_row_ok.
Qed.

Lemma snoc_queue_wf rows id e :
  queue_wf rows -> validate_entry e = Ok tt ->
  (forall r, r ∈ rows -> row_key r <> entry_key e) -> queue_wf (rows ++ [new_row rows id e]).
Proof.
  intros Hwf Hv Hnew. split.
  - intros target i r Hr. unfold rows_of in Hr. rewrite filter_app in Hr.
    apply lookup_app_Some in Hr as [Hr|[Hle Hr]]; [by apply (queue_numbered _ Hwf target)|].
    destruct (decide (row_target (new_row rows id e) = target)) as [Ht|Ht].
    + rewrite filter_cons_True in Hr by done. apply list_lookup_singleton_Some in Hr as [Hi <-].
      simpl in *. rewrite Ht, next_sequence_eq by done. unfold rows_of. f_equal. lia.
    + by rewrite filter_cons_False in Hr.
  - rewrite fmap_app. apply NoDup_app. split_and!; [apply (queue_keys _ Hwf)| |apply NoDup_singleton].
    intros k (r & -> & Hr)%list_elem_of_fmap Hk%list_elem_of_singleton.
    by apply (Hnew r Hr).
  - intros r [Hr|Hr%list_elem_of_singleton]%elem_of_app; [by apply (queue_ids _ Hwf)|].
    subst. by exists id.
  - intros r [Hr|Hr%list_elem_of_singleton]%elem_of_app; [by apply (queue_entries _ Hwf)|].
    subst. exists e. split_and!; try done. by apply decode_entry_encode.
Qed.

Lemma acknowledge_effect now target dispatch rows :
  exists rows', acknowledge now target dispatch rows = (rows', Ok tt) /\ Forall2 row_le rows rows' /\
    forall i r, rows !! i = Some r ->
      rows' !! i = Some (if queue_key_eqb (uuid_text target) dispatch r
                         then acknowledge_row now r else r).
Proof.
  eexists. split; [reflexivity|]. split.
  - apply Forall2_fmap_r, Forall_Forall2_diag, Forall_true. intros r.
    simpl. case_match; [|done]. split; try done. simpl. by intros t ->.
  - intros i r Hr. by rewrite list_lookup_fmap, Hr.
Qed.

Lemma queue_step_le rows rows' :
  queue_step rows rows' -> queue_wf rows -> queue_wf rows' /\ rows_le rows rows'.
Proof.
  intros ([id e|now target dispatch] & r & Hrun) Hwf.
  - simpl in Hrun. destruct (enqueue id e rows) as [rows1 [receipt|err]] eqn:He; injection Hrun as <- _.
    + apply enqueue_effect in He as [Hv [(-> & _)|(-> & _ & Hnew)]]; [done| |done].
      split; [by apply snoc_queue_wf|]. by exists rows, [new_row rows id e].
    + by apply enqueue_err in He as ->.
  - destruct (acknowledge_effect now target dispatch rows) as (rows1 & Ha & Hle & _).
    simpl in Hrun. rewrite Ha in Hrun. injection Hrun as <- _.
    split; [by apply (queue_wf_le rows)|]. exists rows1, []. by rewrite app_nil_r.
Qed.

Lemma queue_steps_le rows rows' :
  rtc queue_step rows rows' -> queue_wf rows -> queue_wf rows' /\ rows_le rows rows'.
Proof.
  induction 1 as [|rows rows1 rows2 Hs _ IH]; intros Hwf; [done|].
  destruct (queue_step_le _ _ Hs Hwf) as [Hwf1 Hle1]. destruct (IH Hwf1) as [Hwf2 Hle2].
  split; [done|]. by etrans.
Qed.

Lemma queue_reachable_wf rows : queue_reachable rows -> queue_wf rows.
Proof. intros Hr. by apply (queue_steps_le [] rows Hr queue_wf_nil). Qed.

(** ** Theorems *)

(** Dispatch identity: once an entry is accepted, its target and dispatch id name exactly
    one row holding it in every later state of the table.  A retry with the same payload folds to
    that entry, a retry with a different payload is refused, and neither changes the table. *)
Theorem dispatch_identity id e rows rows1 receipt rows2 :
  queue_reachable rows -> enqueue id e rows = (rows1, Ok receipt) -> rtc queue_step rows1 rows2 ->
  (exists r, r ∈ rows2 /\ row_holds r (receipt_entry receipt) /\
     forall r', r' ∈ rows2 -> row_key r' = entry_key e -> r' = r) /\
  forall id' e', entry_key e' = entry_key e -> validate_entry e' = Ok tt ->
    exists m, enqueue id' e' rows2 =
      (rows2, if entry_eqb (receipt_entry receipt) e'
              then Ok (mk_enqueue_receipt (receipt_entry receipt) FoldedToExisting)
              else Err (HistoryText m)).
Proof.
  intros Hwf%queue_reachable_wf Hrun Hsteps.
  assert (queue_wf rows1 /\ exists r, r ∈ rows1 /\ row_key r = entry_key e /\
    row_holds r (receipt_entry receipt)) as (Hwf1 & r1 & Hr1 & Hk1 & Hh1).
  { destruct (enqueue_effect _ _ _ _ _ Hwf Hrun) as [Hv [(-> & _ & _ & Hr)|(-> & -> & Hnew)]];
      [done|]. split; [by apply snoc_queue_wf|]. exists (new_row rows id e).
    split_and!; [set_solver|done|]. split_and!; try done. by apply decode_entry_encode. }
  destruct (queue_steps_le _ _ Hsteps Hwf1) as [Hwf2 Hle].
  destruct (rows_le_elem _ _ _ Hle Hr1) as (r & Hr & Hrr).
  pose proof (row_le_holds _ _ _ Hrr Hh1) as Hh.
  assert (row_key r = entry_key e) as Hk by (by rewrite (row_le_key _ _ Hrr)).
  split.
  - exists r. split_and!; try done. intros r' Hr' Hk'. apply (same_key _ Hwf2); congruence.
  - intros id' e' Hke Hv. unfold enqueue, st_bind, st_get, st_lift, st_ret. rewrite Hv.
    pose proof (find_key rows2 (uuid_text (entry_target_thread_id e')) (entry_dispatch_id e')) as Hf.
    fold (entry_key e') in Hf. rewrite Hke in Hf.
    destruct (list_find _ rows2) as [[i x]|]; [|by destruct (Hf r Hr)].
    destruct Hf as [Hx Hkx]. assert (x = r) as -> by (apply (same_key _ Hwf2); congruence).
    destruct Hh as [Hd _]. rewrite Hd. eexists. by destruct (entry_eqb _ _).
Qed.

Lemma sorted_last {A} (R : A -> A -> Prop) `{!Reflexive R} l z x :
  StronglySorted R l -> last l = Some z -> x ∈ l -> R x z.
Proof.
  induction 1 as [|y l Hs IH Hy]; [done|]. destruct l as [|y' l].
  - intros [= ->] ->%list_elem_of_singleton. done.
  - change (last (y :: y' :: l)) with (last (y' :: l)). intros Hl [->|Hx]%elem_of_cons; [|by apply IH].
    rewrite Forall_forall in Hy. apply Hy. rewrite last_lookup in Hl.
    by apply list_elem_of_lookup_2 in Hl.
Qed.

(** The rows of a target in a later table: the earlier ones, then the new ones. *)
Lemma rows_of_later target rows rows2 r :
  queue_wf rows -> queue_wf rows2 -> rows_le rows rows2 -> r ∈ rows_of target rows2 ->
  (row_sequence r <= Z.of_nat (length (rows_of target rows)))%Z ->
  exists r0, r0 ∈ rows_of target rows /\ row_le r0 r.
Proof.
  intros Hwf Hwf2 (kept & new & -> & Hk) (j & Hj)%list_elem_of_lookup Hle.
  rewrite (queue_numbered _ Hwf2 target j r Hj) in Hle.
  unfold rows_of in Hj. rewrite filter_app in Hj.
  pose proof (rows_of_le target _ _ Hk) as Hk'. fold (rows_of target kept) in Hj.
  rewrite lookup_app_l in Hj by (rewrite <- (Forall2_length _ _ _ Hk'); lia).
  destruct (Forall2_lookup_r _ _ _ _ _ Hk' Hj) as (r0 & Hr0 & ?). exists r0.
  by apply list_elem_of_lookup_2 in Hr0.
Qed.

(** What loading the due rows yields. *)
Lemma loaded_rows rows target due stored :
  queue_wf rows -> (forall r, r ∈ due -> r ∈ rows_of (uuid_text target) rows) ->
  Forall2 (fun r s => load_row target r = Ok s) due stored ->
  Forall2 row_holds due (map stored_entry stored) /\
  stored_sequence <$> stored = row_sequence <$> due.
Proof.
  intros Hwf Hdue Hs. induction Hs as [|r s due stored Hload _ IH]; [done|].
  destruct (proj1 (rows_of_elem rows _ r) (Hdue r (list_elem_of_here _ _))) as [Hr Ht].
  destruct (load_row_wf rows Hwf target r Hr Ht) as (id & e & _ & Hh & _ & Hl).
  rewrite Hload in Hl. injection Hl as ->.
  destruct IH as [IH1 IH2]; [intros x Hx; apply Hdue; by right|].
  rewrite !fmap_cons, IH2. split; [|done]. by constructor.
Qed.

(** The tail of a queue never fails and is exact: it yields, oldest first, the entries of
    its target that lie after the given position and are not acknowledged.  Resuming at the
    position a page returns loses nothing and repeats nothing: whatever happens in between, an
    entry still due is either in the page or after the new position, never both. *)
Theorem tail_resumes rows target after :
  queue_reachable rows ->
  exists page, tail_pending rows target after = Ok page /\
    let due := filter (is_pending after) (rows_of (uuid_text target) rows) in
    Forall2 row_holds due (page_entries page) /\
    (default 0 after <= default 0 (page_next page))%Z /\
    forall rows2 r, rtc queue_step rows rows2 -> r ∈ rows_of (uuid_text target) rows2 ->
      is_pending after r ->
      (is_pending (page_next page) r <-> ~ exists r0, r0 ∈ due /\ row_le r0 r).
Proof.
  intros Hwf%queue_reachable_wf.
  destruct (pending_rows_ok rows Hwf target after) as (stored & Hp & Hs).
  unfold tail_pending. rewrite Hp. simpl. eexists. split; [reflexivity|]. simpl.
  set (due := filter _ _) in *.
  assert (forall r0, r0 ∈ due -> is_pending after r0 /\ r0 ∈ rows_of (uuid_text target) rows) as Hdue
    by by intros r0 [? ?]%list_elem_of_filter.
  destruct (loaded_rows rows target due stored Hwf) as [Hh Hseq]; [by intros r [_ ?]%Hdue|done|].
  assert (StronglySorted row_order due) as Hsort.
  { apply sorted_filter, (sequences_sorted _ 1). intros i r Hr.
    by apply (queue_numbered _ Hwf (uuid_text target)). }
  assert (match last stored with Some s => Some (stored_sequence s) | None => after end =
    match last due with Some r => Some (row_sequence r) | None => after end) as ->.
  { apply (f_equal last) in Hseq. rewrite !fmap_last in Hseq.
    destruct (last stored), (last due); simpl in Hseq; congruence. }
  split; [done|]. destruct (last due) as [z|] eqn:Hz; simpl.
  - assert (z ∈ due) as Hzd by (rewrite last_lookup in Hz; by apply list_elem_of_lookup_2 in Hz).
    destruct (Hdue z Hzd) as [[Hza _] Hzr]. split; [lia|].
    intros rows2 r Hsteps Hr [Ha Hn]. destruct (queue_steps_le _ _ Hsteps Hwf) as [Hwf2 Hle].
    split.
    + intros [Hgt _] (r0 & Hr0 & Hrr). simpl in Hgt. rewrite (le_sequence _ _ Hrr) in Hgt.
      pose proof (sorted_last row_order due z r0 Hsort Hz Hr0)
        as Hmax. unfold row_order in Hmax. lia.
    + intros Hno. split; [|done]. simpl. apply Z.nle_gt. intros Hlt. apply Hno.
      apply list_elem_of_lookup in Hzr as (k & Hk).
      rewrite (queue_numbered _ Hwf _ k z Hk) in Hlt. apply lookup_lt_Some in Hk.
      destruct (rows_of_later (uuid_text target) rows rows2 r) as (r0 & Hr0 & Hrr);
        [done..|lia|]. exists r0. split; [|done]. apply list_elem_of_filter. split; [|done].
      rewrite (le_sequence _ _ Hrr) in Ha. split; [done|].
      destruct (row_acknowledged_at_ms r0) eqn:Hack; [|done].
      rewrite (le_acknowledged _ _ Hrr _ Hack) in Hn. done.
  - split; [done|]. intros rows2 r _ _ Hpend. split; [|done]. intros _ (r0 & Hr0 & _).
    apply last_None in Hz. rewrite Hz in Hr0. by apply elem_of_nil in Hr0.
Qed.

(** An acknowledged dispatch is never due again; acknowledging touches no other row. *)
Lemma acknowledge_final now target dispatch rows rows1 rows2 :
  queue_reachable rows -> acknowledge now target dispatch rows = (rows1, Ok tt) ->
  (forall r, r ∈ rows1 -> row_key r <> (uuid_text target, dispatch) -> r ∈ rows) /\
  (rtc queue_step rows1 rows2 -> (exists r, r ∈ rows /\ row_key r = (uuid_text target, dispatch)) ->
   forall r, r ∈ rows2 -> row_key r = (uuid_text target, dispatch) ->
   forall after, ~ is_pending after r).
Proof.
  intros Hwf%queue_reachable_wf Hack.
  destruct (acknowledge_effect now target dispatch rows) as (rows1' & Ha & Hle & Hrows).
  assert (rows1' = rows1) as -> by congruence.
  assert (forall i r, rows1 !! i = Some r -> exists r0, rows !! i = Some r0 /\
    r = if queue_key_eqb (uuid_text target) dispatch r0 then acknowledge_row now r0 else r0) as Hback.
  { intros i r Hr. destruct (Forall2_lookup_r _ _ _ _ _ Hle Hr) as (r0 & Hr0 & _).
    exists r0. split; [done|]. specialize (Hrows _ _ Hr0). congruence. }
  split.
  - intros r (i & Hr)%list_elem_of_lookup Hk. destruct (Hback i r Hr) as (r0 & Hr0 & ->).
    destruct (queue_key_eqb (uuid_text target) dispatch r0) eqn:Heq.
    + unfold queue_key_eqb in Heq. to_prop. exfalso. apply Hk. unfold row_key. simpl. congruence.
    + by apply list_elem_of_lookup_2 in Hr0.
  - intros Hsteps (r0 & Hr0 & Hk0) r Hr Hk after [_ Hn].
    destruct (queue_steps_le _ _ Hsteps (queue_wf_le _ _ Hle Hwf)) as [Hwf2 Hle2].
    apply list_elem_of_lookup in Hr0 as (i & Hi). pose proof (Hrows i r0 Hi) as Hi1.
    assert (queue_key_eqb (uuid_text target) dispatch r0 = true) as Heq.
    { unfold queue_key_eqb, row_key in *. injection Hk0 as -> ->. by rewrite !String.eqb_refl. }
    rewrite Heq in Hi1. apply list_elem_of_lookup_2 in Hi1.
    destruct (rows_le_elem _ _ _ Hle2 Hi1) as (r' & Hr' & Hrr).
    assert (r' = r) as ->.
    { apply (same_key _ Hwf2); try done. rewrite (row_le_key _ _ Hrr), Hk. by rewrite <- Hk0. }
    by rewrite (le_acknowledged _ _ Hrr _ eq_refl) in Hn.
Qed.
End Queue.
