(* ===== verification/Endpoint.v ===== *)
(** * The sync endpoint

    Models [crates/verlet-kernel/src/daemon/remote_store/endpoint.rs]: the door
    through which a remote runtime pushes, pulls, renews its lease and
    acknowledges queue deliveries.  The state is the lease authority with its
    event store, the ingress queue, and the table of rejection witnesses.

    A push is two calls on the authority: a read that authorizes
    ([authorize_push]) and a transaction that settles ([settle_push]); other
    calls may run in between.  The request fingerprint (a SHA-256 of the encoded
    request and reason) is a parameter; the clock readings are arguments. *)

From stdpp Require Import base gmap sets list strings pretty relations.
From Stdlib Require Import ZArith Lia.
From S2P Require Import Prelude Json EventKind EventSchemas Contracts Records Store Journal EventLog Lease LeaseFacts LeaseProps Ingress.
From S2P Require Import Queue.

Local Open Scope verlet_scope.
Local Open Scope string_scope.
Local Open Scope list_scope.

Definition SYNC_PUSH_SCHEMA_V1 : string := "cooldis.stream.sync_push/1".
Definition SYNC_PUSH_REJECTION_SCHEMA_V1 : string := "cooldis.stream.sync_push_rejection/1".
Definition SYNC_PUSH_REJECTION_WITNESS_SCHEMA_V1 : string :=
  "cooldis.stream.sync_push_rejection_witness/1".
Definition SYNC_PULL_SCHEMA_V1 : string := "cooldis.stream.sync_pull/1".
Definition SYNC_INGRESS_QUEUE_ACK_SCHEMA_V1 : string := "cooldis.stream.sync_ingress_queue_ack/1".

(** ** The protocol *)

Record SyncPushRequestV1 : Type := mk_push {
  push_schema : string;
  push_stream_id : EventStreamId;
  push_lease_id : StreamLeaseId;
  expected_next_sequence : EventSequence;
  push_records : list StreamRecordEnvelopeV1;
}.

Record SyncIngressQueueAckRequestV1 : Type := mk_queue_ack {
  queue_ack_schema : string;
  queue_ack_target : ThreadId;
  queue_ack_dispatch_id : DispatchId;
}.

Inductive SyncPushRejectionReason : Type :=
  | CredentialUnknown
  | ScopeViolation (scope : StreamPrefixScope)
  | CredentialLeaseMismatch (credential_lease_id : StreamLeaseId)
  | RequestInvalid (detail : string)
  | ReasonLeaseFence (fence : LeaseFenceDecision)
  | ReasonSequenceFence (actual_next_sequence : EventSequence).

Record SyncPushRejectionV1 : Type := mk_rejection {
  rejection_schema : string;
  rejection_stream_id : EventStreamId;
  rejection_lease_id : StreamLeaseId;
  rejection_reason : SyncPushRejectionReason;
  rejected_at_ms : Z;
}.

Inductive SyncPushOutcome : Type :=
  | Accepted (ack : StreamAppendAckV1)
  | Rejected (rejection : SyncPushRejectionV1).

#[global] Instance StreamAckClass_eq_dec : EqDecision StreamAckClass.
Proof. solve_decision. Defined.

(** [SyncPushOutcome::matches_request]. *)
Definition matches_request (outcome : SyncPushOutcome) (request : SyncPushRequestV1) : bool :=
  match outcome with
  | Accepted ack =>
      match last (push_records request) with
      | None => false
      | Some final =>
          String.eqb (ack_schema ack) STREAM_APPEND_ACK_SCHEMA_V1 &&
          String.eqb (ack_stream_id ack) (push_stream_id request) &&
          (start_sequence ack =? expected_next_sequence request)%Z &&
          (end_sequence ack =? env_sequence final)%Z &&
          (tail_sequence ack =? env_sequence final)%Z &&
          (tail_event_id ack =? env_event_id final)%N &&
          bool_decide (StreamCommitted ∈ acks ack)
      end
  | Rejected rejection =>
      String.eqb (rejection_schema rejection) SYNC_PUSH_REJECTION_SCHEMA_V1 &&
      String.eqb (rejection_stream_id rejection) (push_stream_id request) &&
      String.eqb (rejection_lease_id rejection) (push_lease_id request)
  end.

Record SyncPushRejectionWitnessV1 : Type := mk_witness {
  witness_schema : string;
  request_fingerprint : string;
  witness_stream_id : EventStreamId;
  witness_reason : string;
  witness_detail : json;
  witness_rejected_at_ms : Z;
}.

Definition fence_decision_json (d : LeaseFenceDecision) : json :=
  jobj [("decision", JString match d with
                             | Current => "current"
                             | Superseded => "superseded"
                             | Expired => "expired"
                             | Unknown => "unknown"
                             end)].

(** [redacted_rejection_reason]. *)
Definition redacted_rejection_reason (reason : SyncPushRejectionReason) : string * json :=
  match reason with
  | CredentialUnknown => ("credential_unknown", JNull)
  | ScopeViolation scope => ("scope_violation", jobj [("scope", JString scope)])
  | CredentialLeaseMismatch _ => ("credential_lease_mismatch", JNull)
  | RequestInvalid detail => ("request_invalid", jobj [("detail", JString detail)])
  | ReasonLeaseFence fence => ("lease_fence", jobj [("fence", fence_decision_json fence)])
  | ReasonSequenceFence actual =>
      ("sequence_fence_conflict", jobj [("actual_next_sequence", jint actual)])
  end.

(** ** Validation of a push *)

Section Validate.
Context `{UuidText}.

(** The body of the loop of [validate_push_request]. *)
Definition validate_push_record (request : SyncPushRequestV1)
    (entry : nat * StreamRecordEnvelopeV1) : result NewEventRecord string :=
  let (index, envelope) := entry in
  expected <-? ok_or (i64_checked_add (expected_next_sequence request) (Z.of_nat index))
                 "sync push sequence overflow" ;;
  if negb (String.eqb (env_schema envelope) STREAM_RECORD_SCHEMA_V1)
  then Err "record uses an unsupported stream schema"
  else if negb (String.eqb (env_stream_id envelope) (push_stream_id request))
  then Err "record belongs to a different stream"
  else if negb (env_sequence envelope =? expected)%Z
  then Err "record sequences are not contiguous from expected_next_sequence"
  else if negb (is_none (env_trace_context envelope))
  then Err "trace_context is not supported by the SQLite authority store"
  else
    kind <-? ok_or (parse_kind (env_kind envelope))
               "record kind is not in the frozen event vocabulary" ;;
    if negb (String.eqb (env_payload_schema envelope) (payload_schema_id kind))
    then Err "record payload schema does not match its kind"
    else
      let event := mk_event (env_event_id envelope) (env_stream_id envelope)
                     (env_sequence envelope) (env_coordinates envelope)
                     (env_created_at_ms envelope) kind (env_origin envelope)
                     (env_provenance envelope) (env_payload envelope) in
      map_err (fun _ => "record or payload violates the V1 stream schema")
        (validate_stream_record_v1 event) ;;?
      Ok (mk_new_event (event_id event) (coordinates event) (created_at_ms event)
            (Records.kind event) (origin event) (provenance event) (payload event)).

(** [validate_push_request]. *)
Definition validate_push_request (request : SyncPushRequestV1) :
    result (list NewEventRecord) string :=
  if negb (String.eqb (push_schema request) SYNC_PUSH_SCHEMA_V1)
  then Err "unsupported sync push schema"
  else if (expected_next_sequence request <? 1)%Z
  then Err "expected_next_sequence must be positive"
  else if is_nil (push_records request)
  then Err "sync push batch must not be empty"
  else collect (validate_push_record request) (imap pair (push_records request)).
End Validate.

(** ** The endpoint *)

Section Endpoint.
Context `{UuidParse} `{EntryCodec} {S : Type} `{EventStore S}.
Context (token_digest : string -> string) (lease_ttl_ms : Z).
Context (rejection_fingerprint : SyncPushRequestV1 -> SyncPushRejectionReason -> string).

(** [SqliteSyncEndpoint]: the tables it reads and writes. *)
Record Endpoint : Type := mk_endpoint {
  authority : Authority S;
  ingress_queue : list QueueRow;
  rejections : list SyncPushRejectionWitnessV1;
}.

Notation Call A := (st Endpoint VerletError A).

Definition set_authority (a : Authority S) (ep : Endpoint) : Endpoint :=
  mk_endpoint a (ingress_queue ep) (rejections ep).
Definition set_queue (rows : list QueueRow) (ep : Endpoint) : Endpoint :=
  mk_endpoint (authority ep) rows (rejections ep).
Definition set_rejections (f : list SyncPushRejectionWitnessV1 -> list SyncPushRejectionWitnessV1)
    (ep : Endpoint) : Endpoint :=
  mk_endpoint (authority ep) (ingress_queue ep) (f (rejections ep)).

(** A call on one of the parts. *)
Definition on_authority {A} (m : st (Authority S) VerletError A) : Call A :=
  fun ep => let (a, r) := m (authority ep) in (set_authority a ep, r).
Definition on_queue {A} (m : st (list QueueRow) VerletError A) : Call A :=
  fun ep => let (rows, r) := m (ingress_queue ep) in (set_queue rows ep, r).

(** [persist_rejection_witness]: [INSERT OR IGNORE], keyed by the fingerprint. *)
Definition persist_rejection_witness (request : SyncPushRequestV1)
    (rejection : SyncPushRejectionV1) : Call unit :=
  let fingerprint := rejection_fingerprint request (rejection_reason rejection) in
  let (reason, detail) := redacted_rejection_reason (rejection_reason rejection) in
  let witness := mk_witness SYNC_PUSH_REJECTION_WITNESS_SCHEMA_V1 fingerprint
                   (push_stream_id request) reason detail (rejected_at_ms rejection) in
  st_modify (set_rejections (fun rows =>
    if existsb (fun w => String.eqb (request_fingerprint w) fingerprint) rows
    then rows else rows ++ [witness])).

(** [SqliteSyncEndpoint::reject]. *)
Definition reject (now_ms : Z) (request : SyncPushRequestV1) (reason : SyncPushRejectionReason) :
    Call SyncPushOutcome :=
  let rejection := mk_rejection SYNC_PUSH_REJECTION_SCHEMA_V1 (push_stream_id request)
                     (push_lease_id request) reason now_ms in
  persist_rejection_witness request rejection ;;!
  st_ret (Rejected rejection).

(** [SqliteSyncEndpoint::rejection_witnesses]. *)
Definition rejection_witnesses (ep : Endpoint) (stream : option EventStreamId) :
    list SyncPushRejectionWitnessV1 :=
  sort_by_z witness_rejected_at_ms (sort_by_key request_fingerprint
    match stream with
    | Some stream => filter (fun w => witness_stream_id w = stream) (rejections ep)
    | None => rejections ep
    end).

(** The checks of [push] up to the append: credential, scope, lease binding, request. *)
Definition authorize_push (a : Authority S) (bearer_token : string)
    (request : SyncPushRequestV1) : result (list NewEventRecord) SyncPushRejectionReason :=
  match verify_token token_digest a bearer_token with
  | None => Err CredentialUnknown
  | Some identity =>
      if negb (authorizes (identity_scope identity) (push_stream_id request))
      then Err (ScopeViolation (identity_scope identity))
      else if negb (String.eqb (identity_lease_id identity) (push_lease_id request))
      then Err (CredentialLeaseMismatch (identity_lease_id identity))
      else map_err RequestInvalid (validate_push_request request)
  end.

(** The rest of [push]: the append under both fences, or the rejection. *)
Definition settle_push (now_ms reject_now_ms : Z) (request : SyncPushRequestV1)
    (authorized : result (list NewEventRecord) SyncPushRejectionReason) : Call SyncPushOutcome :=
  match authorized with
  | Err reason => reject reject_now_ms request reason
  | Ok records =>
      outcome <-! on_authority (append_if_current now_ms (push_stream_id request)
                    (push_lease_id request) (expected_next_sequence request) records) ;;
      match outcome with
      | Appended ack => st_ret (Accepted ack)
      | LeaseRejected fence => reject reject_now_ms request (ReasonLeaseFence fence)
      | SequenceFenceConflict actual => reject reject_now_ms request (ReasonSequenceFence actual)
      end
  end.

(** [SyncPushGate::push]. *)
Definition push (now_ms reject_now_ms : Z) (bearer_token : string)
    (request : SyncPushRequestV1) : Call SyncPushOutcome :=
  ep <-! st_get ;;
  settle_push now_ms reject_now_ms request (authorize_push (authority ep) bearer_token request).

(** [SyncLeaseRenewer::renew_lease]. *)
Definition endpoint_renew_lease (now_ms : Z) (bearer_token : string) :
    Call (option StreamLeaseGrantV1) :=
  ep <-! st_get ;;
  match verify_token token_digest (authority ep) bearer_token with
  | None => st_ret None
  | Some identity =>
      grant <-! on_authority (renew_lease lease_ttl_ms now_ms (identity_lease_id identity)) ;;
      st_ret (Some grant)
  end.

(** [not_authorized]. *)
Definition NOT_AUTHORIZED : string := "sync pull not authorized".
Definition not_authorized : VerletError := HistoryText NOT_AUTHORIZED.

(** [SyncPullSource::pull_after]. *)
Definition pull_after (ep : Endpoint) (bearer_token : string) (stream : EventStreamId)
    (cursor : option StreamCursorV1) : VerletResult (list StreamRecordEnvelopeV1) :=
  match verify_token token_digest (authority ep) bearer_token with
  | None => Err not_authorized
  | Some identity =>
      if negb (authorizes (identity_scope identity) stream) then Err not_authorized
      else if negb (is_none (remote_ingress_queue_target stream))
      then queue_pull_after (ingress_queue ep) stream cursor
      else if starts_with SYNC_INGRESS_QUEUE_STREAM_PREFIX stream
      then Err (HistoryText "invalid remote ingress queue stream")
      else
        let store := event_store (authority ep) in
        events <-? map_err HistoryFailed
          match cursor with
          | Some cursor => log_read_after_cursor store stream cursor
          | None => log_read store stream None
          end ;;
        Ok (map to_stream_record_v1 events)
  end.

(** [SyncIngressQueueAcknowledger::acknowledge_ingress]. *)
Definition acknowledge_ingress (now_ms : Z) (bearer_token : string)
    (request : SyncIngressQueueAckRequestV1) : Call unit :=
  if negb (String.eqb (queue_ack_schema request) SYNC_INGRESS_QUEUE_ACK_SCHEMA_V1)
  then st_lift (Err (HistoryText "unsupported remote ingress acknowledgement schema"))
  else
    ep <-! st_get ;;
    match verify_token token_digest (authority ep) bearer_token with
    | None => st_lift (Err not_authorized)
    | Some identity =>
        if negb (authorizes (identity_scope identity)
                   (remote_ingress_queue_stream_id (queue_ack_target request)))
        then st_lift (Err not_authorized)
        else on_queue (acknowledge now_ms (queue_ack_target request)
                         (queue_ack_dispatch_id request))
    end.
End Endpoint.
Arguments Endpoint {_} S.

(** * What the endpoint accepts and what it witnesses

    The check of a pushed batch is the inverse of the wire encoding; a push,
    whatever ran between its authorization and its append, commits exactly the
    pushed records under a current lease or leaves the streams alone and a
    witness behind. *)

Local Close Scope verlet_scope.
Local Open Scope string_scope.
Local Open Scope list_scope.

(** ** The batch *)

(** Reduces the checks of an envelope, and nothing of what they call. *)
Local Ltac reduce_check :=
  cbn [negb result_bind ok_or is_none map_err env_schema env_event_id env_stream_id env_sequence
       env_coordinates env_created_at_ms env_kind env_origin env_payload_schema env_trace_context
       env_provenance env_payload event_id stream_id sequence coordinates created_at_ms kind origin
       provenance payload new_id new_coordinates new_created_at_ms new_kind new_origin
       new_provenance new_payload] in *.

(** An event is recovered from its envelope. *)
#[export] Instance to_stream_record_inj : Inj (=) (=) to_stream_record_v1.
Proof.
  intros [id1 s1 q1 c1 m1 k1 o1 p1 l1] [id2 s2 q2 c2 m2 k2 o2 p2 l2] Heq.
  pose proof (f_equal env_event_id Heq) as H1. pose proof (f_equal env_stream_id Heq) as H2.
  pose proof (f_equal env_sequence Heq) as H3. pose proof (f_equal env_coordinates Heq) as H4.
  pose proof (f_equal env_created_at_ms Heq) as H5. pose proof (f_equal env_origin Heq) as H6.
  pose proof (f_equal env_provenance Heq) as H7. pose proof (f_equal env_payload Heq) as H8.
  pose proof (kind_str_inj _ _ (f_equal env_kind Heq)) as H9. reduce_check. simpl in *. by subst.
Qed.

Section Batch.
Context `{UuidText}.

Lemma validate_push_record_ok request i envelope r :
  let e := from_new (push_stream_id request)
             (expected_next_sequence request + Z.of_nat i)%Z r in
  validate_push_record request (i, envelope) = Ok r <->
  in_i64 (sequence e) = true /\ envelope = to_stream_record_v1 e /\
  validate_stream_record_v1 e = Ok tt.
Proof.
  destruct envelope as [sc id st seq co ms kd og ps tc pv pl].
  destruct r as [rid rco rms rkd rog rpv rpl]. cbn zeta.
  unfold validate_push_record, i64_checked_add, from_new, to_stream_record_v1. reduce_check.
  destruct (in_i64 _) eqn:Hr; reduce_check; [|by split; [|intros [? _]]].
  destruct (String.eqb_spec sc STREAM_RECORD_SCHEMA_V1) as [->|]; reduce_check;
    [|by split; [|intros (_ & [=] & _)]].
  destruct (String.eqb_spec st (push_stream_id request)) as [->|]; reduce_check;
    [|by split; [|intros (_ & [=] & _)]].
  destruct (Z.eqb_spec seq (expected_next_sequence request + Z.of_nat i)) as [->|];
    reduce_check; [|by split; [|intros (_ & [=] & _)]].
  destruct tc; reduce_check; [by split; [|intros (_ & [=] & _)]|].
  destruct (parse_kind kd) as [k|] eqn:Hk; reduce_check.
  - apply parse_kind_sound in Hk as ->.
    pose proof (inj to_stream_record_v1
      (mk_event id (push_stream_id request) (expected_next_sequence request + Z.of_nat i)%Z co ms k
         og pv pl)
      (mk_event rid (push_stream_id request) (expected_next_sequence request + Z.of_nat i)%Z rco
         rms rkd rog rpv rpl)) as Hback. unfold to_stream_record_v1 in Hback. reduce_check.
    destruct (String.eqb_spec ps (payload_schema_id k)) as [->|]; reduce_check.
    + destruct (validate_stream_record_v1 _) as [[]|e] eqn:Hv; reduce_check.
      * split; [by intros [= -> -> -> -> -> -> ->]|]. intros (_ & Heq & _).
        apply Hback in Heq. by injection Heq as -> -> -> -> -> -> ->.
      * split; [done|]. intros (_ & Heq & Hv'). apply Hback in Heq. congruence.
    + split; [done|]. intros (_ & Heq & _).
      pose proof (kind_str_inj k rkd (f_equal env_kind Heq)) as ->.
      by pose proof (f_equal env_payload_schema Heq).
  - split; [done|]. intros (_ & Heq & _). apply (f_equal env_kind) in Heq. reduce_check.
    cbn [env_kind] in Heq. by rewrite Heq, parse_kind_str in Hk.
Qed.
Lemma numbered_length stream start records : length (numbered stream start records) = length records.
Proof. apply length_imap. Qed.

Lemma numbered_lookup_eq stream start records i :
  numbered stream start records !! i =
    (fun r => from_new stream (start + Z.of_nat i + 1)%Z r) <$> records !! i.
Proof. unfold numbered. by rewrite list_lookup_imap. Qed.

Lemma last_numbered stream start records :
  last (numbered stream start records) =
    (fun r => from_new stream (start + Z.of_nat (length records))%Z r) <$> last records.
Proof.
  rewrite !last_lookup, numbered_lookup_eq, numbered_length.
  destruct records as [|r records]; [done|]. simpl pred.
  destruct ((r :: records) !! length records); simpl; [|done]. do 2 f_equal. simpl. lia.
Qed.

(** A request is valid exactly when its records are the wire form of a batch of valid events that
    starts at the named sequence, and then that batch is what the check returns. *)
Lemma validate_push_request_ok request records :
  validate_push_request request = Ok records <->
  push_schema request = SYNC_PUSH_SCHEMA_V1 /\ (1 <= expected_next_sequence request)%Z /\
  records <> [] /\
  let es := numbered (push_stream_id request) (expected_next_sequence request - 1) records in
  push_records request = map to_stream_record_v1 es /\
  Forall (fun e => in_i64 (sequence e) = true /\ validate_stream_record_v1 e = Ok tt) es.
Proof.
  unfold validate_push_request. set (n := expected_next_sequence request).
  destruct (String.eqb_spec (push_schema request) SYNC_PUSH_SCHEMA_V1) as [Hs|Hs]; simpl;
    [|by split; [|intros [? _]]].
  destruct (Z.ltb_spec n 1) as [Hn|Hn]; [split; [done|intros (_ & ? & _); lia]|].
  assert (forall i r, from_new (push_stream_id request) (n - 1 + Z.of_nat i + 1)%Z r =
    from_new (push_stream_id request) (n + Z.of_nat i)%Z r) as Hfrom by (intros; f_equal; lia).
  destruct (is_nil (push_records request)) eqn:Hnil.
  - split; [done|]. intros (_ & _ & Hne & Hrec & _). destruct (push_records request); [|done].
    destruct records; [done|]. by apply (f_equal length) in Hrec.
  - rewrite collect_imap_ok. setoid_rewrite validate_push_record_ok. fold n. split.
    + intros [Hl Hf].
      assert (forall i r, records !! i = Some r -> exists envelope,
        push_records request !! i = Some envelope) as Hsome.
      { intros i r Hr%lookup_lt_Some. apply lookup_lt_is_Some_2. lia. }
      split_and!; try done.
      { intros ->. destruct (push_records request); [done|]. by simpl in Hl. }
      * apply list_eq. intros i. rewrite list_lookup_fmap, numbered_lookup_eq.
        destruct (records !! i) as [r|] eqn:Hr; simpl.
        -- destruct (Hsome i r Hr) as [envelope He]. rewrite He, Hfrom. f_equal.
           by destruct (Hf i envelope r He Hr) as (_ & -> & _).
        -- apply lookup_ge_None in Hr. apply lookup_ge_None. lia.
      * apply Forall_lookup. intros i e. rewrite numbered_lookup_eq.
        destruct (records !! i) as [r|] eqn:Hr; simpl; [|done]. intros [= <-].
        destruct (Hsome i r Hr) as [envelope He]. rewrite Hfrom.
        by destruct (Hf i envelope r He Hr) as (? & _ & ?).
    + intros (_ & _ & _ & Hrec & Hok). split.
      * by rewrite Hrec, length_map, numbered_length.
      * intros i envelope r He Hr. rewrite Hrec, list_lookup_fmap, numbered_lookup_eq, Hr in He.
        simpl in He. rewrite Hfrom in He. injection He as <-.
        rewrite Forall_lookup in Hok. destruct (Hok i (from_new (push_stream_id request)
          (n + Z.of_nat i)%Z r)) as [? ?]; [|done].
        by rewrite numbered_lookup_eq, Hr, <- Hfrom.
Qed.

(** The push encoding round-trips: numbering a non-empty batch of admissible records from any
    positive sequence and encoding it for the wire yields a request the endpoint's check accepts,
    and what the check returns is that batch, field for field. *)
Theorem push_request_roundtrip stream lease n records :
  (1 <= n)%Z -> (n + Z.of_nat (length records) <= i64_max + 1)%Z -> records <> [] ->
  Forall admissible records ->
  validate_push_request
    (mk_push SYNC_PUSH_SCHEMA_V1 stream lease n
       (map to_stream_record_v1 (numbered stream (n - 1) records))) = Ok records.
Proof.
  intros Hn Hmax Hne Hadm. apply validate_push_request_ok. simpl. split_and!; try done.
  apply Forall_lookup. intros i e. rewrite numbered_lookup_eq.
  destruct (records !! i) as [r|] eqn:Hr; [|done]. intros [= <-]. split.
  - simpl. apply lookup_lt_Some in Hr. unfold in_i64, i64_min. rewrite andb_true_iff, !Z.leb_le. lia.
  - apply admissible_event. by eapply Forall_lookup_1 in Hr.
Qed.
End Batch.

(** ** A push *)

Section Push.
Context `{UuidParse} `{EntryCodec} {S : Type} `{EventStoreLaws S}.
Context (token_digest : string -> string).
Context (rejection_fingerprint : SyncPushRequestV1 -> SyncPushRejectionReason -> string).

Notation Endpoint := (Endpoint S).
Notation settle_push := (settle_push (S:=S) rejection_fingerprint).
Notation authorize_push := (authorize_push (S:=S) token_digest).

Lemma reject_ok now request reason (ep ep' : Endpoint) out :
  reject rejection_fingerprint now request reason ep = (ep', Ok out) ->
  authority ep' = authority ep /\ ingress_queue ep' = ingress_queue ep /\
  out = Rejected (mk_rejection SYNC_PUSH_REJECTION_SCHEMA_V1 (push_stream_id request)
                    (push_lease_id request) reason now) /\
  (exists w, w ∈ rejections ep' /\
     request_fingerprint w = rejection_fingerprint request reason) /\
  exists new, rejections ep' = rejections ep ++ new.
Proof.
  unfold reject, persist_rejection_witness. cbn [rejection_reason].
  destruct (redacted_rejection_reason reason) as [text detail]. intros Hrun. st_inv. simpl.
  split_and!; try done.
  - destruct (existsb _ _) eqn:Hex.
    + apply existsb_exists in Hex as (w & Hw%list_elem_of_In & Hfp%String.eqb_eq). by exists w.
    + eexists. split; [apply elem_of_app; right; apply list_elem_of_here|done].
  - destruct (existsb _ _); [exists []; by rewrite app_nil_r|by eexists].
Qed.

Lemma reject_err now request reason (ep ep' : Endpoint) e :
  reject rejection_fingerprint now request reason ep <> (ep', Err e).
Proof.
  unfold reject, persist_rejection_witness. by destruct (redacted_rejection_reason _).
Qed.

Lemma authorize_push_ok a token request records :
  authorize_push a token request = Ok records <->
  (exists identity, verify_token token_digest a token = Some identity /\
     authorizes (identity_scope identity) (push_stream_id request) = true /\
     identity_lease_id identity = push_lease_id request) /\
  validate_push_request request = Ok records.
Proof.
  unfold Endpoint.authorize_push. destruct (verify_token token_digest a token) as [i|];
    [|split; [done|by intros [(? & ? & _) _]]].
  destruct (authorizes _ _) eqn:Ha; simpl; [|split; [done|intros [(? & [= <-] & ? & _) _]; congruence]].
  destruct (String.eqb_spec (identity_lease_id i) (push_lease_id request)) as [Hl|Hl]; simpl;
    [|split; [done|by intros [(? & [= <-] & _ & ?) _]]].
  destruct (validate_push_request request); simpl; [|split; [done|by intros [_ ?]]].
  split; [intros [= ->]; split; [by exists i|done]|by intros [_ [= ->]]].
Qed.

(** The batch is at the tail of its stream, and nothing else changed. *)
Record batch_landed (request : SyncPushRequestV1) (ep ep' : Endpoint) : Prop := {
  landed_leases : leases (authority ep') = leases (authority ep);
  landed_credentials : credentials (authority ep') = credentials (authority ep);
  landed_rejections : rejections ep' = rejections ep;
  landed_queue : ingress_queue ep' = ingress_queue ep;
  landed_valid : log_valid (event_store (authority ep'));
  landed_at : expected_next_sequence request =
    Z.of_nat (Datatypes.S (length (log_events (event_store (authority ep)) (push_stream_id request))));
  landed_records : exists es, map to_stream_record_v1 es = push_records request /\
    log_events (event_store (authority ep')) (push_stream_id request) =
    log_events (event_store (authority ep)) (push_stream_id request) ++ es;
  landed_elsewhere other : other <> push_stream_id request ->
    log_events (event_store (authority ep')) other = log_events (event_store (authority ep)) other;
}.

(** The fences, as a cause of refusal. *)
Definition fence_cause (request : SyncPushRequestV1) (now_ms : Z) (ep : Endpoint)
    (reason : SyncPushRejectionReason) : Prop :=
  let stream := push_stream_id request in
  let fence := check_fence (authority ep) now_ms stream (push_lease_id request) in
  (fence <> Current /\ reason = ReasonLeaseFence fence) \/
  (fence = Current /\
   let next := Z.of_nat (Datatypes.S (length (log_events (event_store (authority ep)) stream))) in
   expected_next_sequence request <> next /\ reason = ReasonSequenceFence next).

(** Why a request is refused: the first check that failed, read off the authority [a] the
    credential was resolved in and the endpoint [ep] the append ran on. *)
Definition rejection_cause (a : Authority S) (token : string) (request : SyncPushRequestV1)
    (now_ms : Z) (ep : Endpoint) (reason : SyncPushRejectionReason) : Prop :=
  let stream := push_stream_id request in
  match verify_token token_digest a token with
  | None => reason = CredentialUnknown
  | Some identity =>
      if negb (authorizes (identity_scope identity) stream)
      then reason = ScopeViolation (identity_scope identity)
      else if negb (String.eqb (identity_lease_id identity) (push_lease_id request))
      then reason = CredentialLeaseMismatch (identity_lease_id identity)
      else
        match validate_push_request request with
        | Err detail => reason = RequestInvalid detail
        | Ok _ => fence_cause request now_ms ep reason
        end
  end.

(** How an authorized push ends. *)
Lemma settle_append now reject_now request records (ep ep' : Endpoint) r :
  log_valid (event_store (authority ep)) -> validate_push_request request = Ok records ->
  settle_push now reject_now request (Ok records) ep = (ep', r) ->
  match r with
  | Ok (Accepted ack) =>
      check_fence (authority ep) now (push_stream_id request) (push_lease_id request) = Current /\
      batch_landed request ep ep' /\ matches_request (Accepted ack) request = true
  | Ok (Rejected rejection) =>
      fence_cause request now ep (rejection_reason rejection) /\
      reject rejection_fingerprint reject_now request (rejection_reason rejection) ep =
        (ep', Ok (Rejected rejection))
  | Err _ => authority ep' = authority ep
  end.
Proof.
  intros Hv Hval. unfold Endpoint.settle_push, st_bind, on_authority.
  destruct (append_if_current now _ _ _ records (authority ep)) as [a' [out|e]] eqn:Happ.
  - pose proof (leased_push_spec _ _ _ _ _ _ _ _ Hv Happ) as (Hls & Hcr & Hout).
    assert (set_authority (authority ep) ep = ep) as Hself by by destruct ep.
    destruct out as [ack|fence|actual].
    + intros [= <- <-]. apply validate_push_request_ok in Hval as (_ & _ & _ & Hrec & _).
      destruct Hout as (Hcur & Hv' & Hn & Hlog & (final & Hfin & ->) & Hoth).
      split_and!; [done|split; simpl; try done; by eexists|].
      unfold matches_request. rewrite Hrec, fmap_last, last_numbered, Hfin. simpl.
      rewrite !String.eqb_refl, N.eqb_refl, !Z.eqb_refl. simpl.
      rewrite !(proj2 (Z.eqb_eq _ _)) by lia. done.
    + destruct Hout as (-> & Hne & ->). rewrite Hself. intros Hrun. pose proof Hrun as Hrej. destruct r as [out|e].
      * apply reject_ok in Hrun as (_ & _ & -> & _). split; [by left|done].
      * by apply reject_err in Hrun.
    + destruct Hout as (Hcur & -> & -> & Hne). rewrite Hself. intros Hrun.
      pose proof Hrun as Hrej. destruct r as [out|e].
      * apply reject_ok in Hrun as (_ & _ & -> & _). split; [by right|done].
      * by apply reject_err in Hrun.
  - intros [= <- <-]. simpl. eapply (run_lease_err token_digest 0 (OpAppend now _ _ _ records)).
    simpl. by rewrite Happ.
Qed.

(** C4 - A push is authorized once and settled once, and whatever other calls run in between, it
    either commits exactly the pushed records at the tail of their stream, under a lease that is
    current when they land and that the credential was minted for, or it is refused for the first
    check it fails: the streams, leases and queue stay as they were and a witness of the refusal
    is durable.  The answer is always one the pusher recognizes as the answer to its request. *)
Theorem push_settles a token request now reject_now (ep ep' : Endpoint) out :
  log_valid (event_store (authority ep)) ->
  settle_push now reject_now request (authorize_push a token request) ep = (ep', Ok out) ->
  matches_request out request = true /\
  match out with
  | Accepted _ =>
      (exists identity, verify_token token_digest a token = Some identity /\
         authorizes (identity_scope identity) (push_stream_id request) = true /\
         identity_lease_id identity = push_lease_id request) /\
      check_fence (authority ep) now (push_stream_id request) (push_lease_id request) = Current /\
      batch_landed request ep ep'
  | Rejected rejection =>
      rejection_cause a token request now ep (rejection_reason rejection) /\
      authority ep' = authority ep /\ ingress_queue ep' = ingress_queue ep /\
      (exists w, w ∈ rejections ep' /\ request_fingerprint w =
         rejection_fingerprint request (rejection_reason rejection)) /\
      exists new, rejections ep' = rejections ep ++ new
  end.
Proof.
  intros Hv Hrun.
  destruct (authorize_push a token request) as [records|reason] eqn:Hauth.
  - pose proof (proj1 (authorize_push_ok _ _ _ _) Hauth) as [Hid Hval].
    pose proof (settle_append _ _ _ _ _ _ _ Hv Hval Hrun) as Hout.
    destruct out as [ack|rejection]; [by destruct Hout as (Hc & Hl & Hm)|].
    destruct Hout as [Hcause Hrej]. apply reject_ok in Hrej as (Hau & Hq & Heq & Hw & Hnew).
    split_and!; try done; [injection Heq as ->; simpl; by rewrite !String.eqb_refl|].
    unfold rejection_cause. destruct Hid as (i & -> & -> & ->).
    rewrite String.eqb_refl. simpl. by rewrite Hval.
  - apply reject_ok in Hrun as (Hau & Hq & -> & Hw & Hnew).
    split_and!; try done; [simpl; by rewrite !String.eqb_refl|]. simpl.
    unfold rejection_cause, Endpoint.authorize_push in *.
    destruct (verify_token token_digest a token) as [i|]; [|by simplify_eq].
    destruct (negb (authorizes _ _)); [by simplify_eq|].
    destruct (negb (String.eqb _ _)); [by simplify_eq|].
    destruct (validate_push_request request); simpl in Hauth; by simplify_eq.
Qed.
End Push.
