(* ===== verification/Propagator.v ===== *)
(** * The stream propagator

    Models [crates/verlet-kernel/src/daemon/remote_store/propagator.rs] and
    [tail.rs]: the child's side of a leased stream.  [propagate_once] runs in a
    world it sees through [SyncWorld]: its local store and the three calls of the
    endpoint ([SyncPushGate], [SyncPullSource], [SyncLeaseRenewer]), each of which
    may fail, lose its answer, or let others run meanwhile.  The clock reading is
    an argument.

    The loop of [propagate_once] goes round again only after the one renewal it
    allows, so [push_loop] recurses on the renewals left. *)

From stdpp Require Import base gmap sets list strings pretty relations.
From Stdlib Require Import ZArith Lia.
From S2P Require Import Prelude Json EventKind EventSchemas Contracts Records Store EventLog Lease Ingress Queue Endpoint.

Local Open Scope verlet_scope.
Local Open Scope string_scope.
Local Open Scope list_scope.

Definition DEFAULT_PUSH_BATCH_SIZE : nat := 128.
Definition MIN_RENEWAL_MARGIN_MS : Z := 1000.

Record StreamPropagationState : Type := mk_propagation {
  prop_stream_id : EventStreamId;
  prop_lease : StreamLeaseGrantV1;
  pushed_through : option EventSequence;
}.

Inductive PropagationStep : Type :=
  | Converged
  | Advanced (pushed_through : EventSequence)
  | EndpointUnavailable
  | LeaseFenced
  | StreamDiverged (actual_next_sequence : EventSequence).

(** The errors a gate answers with, as far as the propagator tells them apart. *)
Inductive GateError : Type :=
  | GateHistory (error : VerletError)
  | GateOther (text : string).

(** ** Record equality ([PartialEq for StreamRecordEnvelopeV1]) *)

#[global] Instance ObservationSourceRange_eq_dec : EqDecision ObservationSourceRange.
Proof. solve_decision. Defined.
#[global] Instance EventProvenance_eq_dec : EqDecision EventProvenance.
Proof. solve_decision. Defined.

Definition opt_json_eqb (a b : option json) : bool :=
  match a, b with
  | Some x, Some y => json_eqb x y
  | None, None => true
  | _, _ => false
  end.

Definition envelope_eqb (a b : StreamRecordEnvelopeV1) : bool :=
  String.eqb (env_schema a) (env_schema b) && (env_event_id a =? env_event_id b)%N &&
  String.eqb (env_stream_id a) (env_stream_id b) && (env_sequence a =? env_sequence b)%Z &&
  bool_decide (env_coordinates a = env_coordinates b) &&
  (env_created_at_ms a =? env_created_at_ms b)%Z && String.eqb (env_kind a) (env_kind b) &&
  bool_decide (env_origin a = env_origin b) &&
  String.eqb (env_payload_schema a) (env_payload_schema b) &&
  opt_json_eqb (env_trace_context a) (env_trace_context b) &&
  bool_decide (env_provenance a = env_provenance b) &&
  json_eqb (env_payload a) (env_payload b).

Fixpoint envelopes_eqb (a b : list StreamRecordEnvelopeV1) : bool :=
  match a, b with
  | [], [] => true
  | x :: a, y :: b => envelope_eqb x y && envelopes_eqb a b
  | _, _ => false
  end.

(** ** The world of a propagator *)

Class SyncWorld (W S : Type) := {
  local_store : W -> S;
  gate_push : string -> SyncPushRequestV1 -> W -> W * result SyncPushOutcome GateError;
  gate_pull : string -> EventStreamId -> option StreamCursorV1 -> W ->
    W * result (list StreamRecordEnvelopeV1) GateError;
  gate_renew : string -> W -> W * result (option StreamLeaseGrantV1) GateError;
}.

Section Propagator.
Context {W S : Type} `{EventStore S} `{SyncWorld W S}.
Context (bearer_token : string) (batch_size : nat).

(** What an attempt runs on: the world, the table [cooldis_stream_propagation_state], and the
    state the caller lends. *)
Record Propagation : Type := mk_run {
  world : W;
  durable : gmap EventStreamId StreamPropagationState;
  state : StreamPropagationState;
}.

Notation Call A := (st Propagation VerletError A).

(** A gate call: its answer, success or error, is a value the caller matches on. *)
Definition on_world {A} (m : W -> W * result A GateError) : Call (result A GateError) :=
  fun p => let (w, r) := m (world p) in (mk_run w (durable p) (state p), Ok r).

Definition set_state (s : StreamPropagationState) (p : Propagation) : Propagation :=
  mk_run (world p) (durable p) s.

(** [SqlitePropagationStateStore::persist]. *)
Definition persist : Call unit :=
  st_modify (fun p => mk_run (world p) (<[prop_stream_id (state p) := state p]> (durable p)) (state p)).

(** [SqlitePropagationStateStore::load]. *)
Definition load (stream : EventStreamId) (p : Propagation) : option StreamPropagationState :=
  durable p !! stream.

(** [self.local_store.read_events]. *)
Definition read_local (stream : EventStreamId) (from : option EventSequence) :
    Call (list EventRecord) :=
  p <-! st_get ;;
  st_lift (map_err HistoryFailed (log_read (local_store (world p)) stream from)).

(** [LocalFirstStreamPropagator::renew]. *)
Definition renew : Call (option PropagationStep) :=
  p <-! st_get ;;
  renewed <-! on_world (gate_renew bearer_token) ;;
  match renewed with
  | Err _ => st_ret (Some EndpointUnavailable)
  | Ok None => st_ret (Some LeaseFenced)
  | Ok (Some grant) =>
      let lease := prop_lease (state p) in
      if negb (String.eqb (grant_lease_id grant) (grant_lease_id lease)) ||
         negb (String.eqb (grant_scope grant) (grant_scope lease))
      then st_ret (Some LeaseFenced)
      else
        st_modify (set_state (mk_propagation (prop_stream_id (state p)) grant
                                (pushed_through (state p)))) ;;!
        persist ;;!
        st_ret None
  end.

(** Whether [renew_if_due] renews. *)
Definition renewal_due (now_ms : Z) (lease : StreamLeaseGrantV1) : bool :=
  let lease_duration_ms :=
    i64_saturating_sub (grant_expires_at_ms lease) (grant_granted_at_ms lease) in
  let renewal_margin_ms := Z.max (Z.quot lease_duration_ms 3) MIN_RENEWAL_MARGIN_MS in
  negb (now_ms <? i64_saturating_sub (grant_expires_at_ms lease) renewal_margin_ms)%Z.

(** [LocalFirstStreamPropagator::renew_if_due]. *)
Definition renew_if_due (now_ms : Z) : Call (option PropagationStep) :=
  p <-! st_get ;;
  if renewal_due now_ms (prop_lease (state p)) then renew else st_ret None.

(** The end of an attempt that adopts a tail. *)
Definition advance (through : EventSequence) : Call PropagationStep :=
  p <-! st_get ;;
  st_modify (set_state (mk_propagation (prop_stream_id (state p)) (prop_lease (state p))
                          (Some through))) ;;!
  persist ;;!
  st_ret (Advanced through).

(** The cursor a reconciliation pulls from: the local record before the batch. *)
Definition reconcile_cursor (stream : EventStreamId) (expected : EventSequence) :
    Call (option StreamCursorV1) :=
  if (expected =? 1)%Z then st_ret None
  else
    events <-! read_local stream (Some (expected - 1)%Z) ;;
    previous <-! st_lift (ok_or (head events)
                            (HistoryText "local propagation cursor record is missing")) ;;
    st_ret (Some (cursor_v1 previous)).

(** [LocalFirstStreamPropagator::reconcile_sequence_conflict]; [first] and [final] are the ends of
    the batch. *)
Definition reconcile_sequence_conflict (first final : StreamRecordEnvelopeV1)
    (batch : list StreamRecordEnvelopeV1) (actual_next_sequence : EventSequence) :
    Call PropagationStep :=
  p <-! st_get ;;
  let stream := prop_stream_id (state p) in
  let expected := env_sequence first in
  cursor <-! reconcile_cursor stream expected ;;
  pulled <-! on_world (gate_pull bearer_token stream cursor) ;;
  match pulled with
  | Err (GateHistory (HistoryText message)) =>
      if String.eqb message NOT_AUTHORIZED then st_ret LeaseFenced
      else st_ret (StreamDiverged actual_next_sequence)
  | Err (GateHistory _) => st_ret (StreamDiverged actual_next_sequence)
  | Err (GateOther _) => st_ret EndpointUnavailable
  | Ok remote =>
      if (length remote <? length batch)%nat ||
         negb (envelopes_eqb (take (length batch) remote) batch)
      then st_ret (StreamDiverged actual_next_sequence)
      else if (length batch <? length remote)%nat
      then
        events <-! read_local stream (Some expected) ;;
        let local := map to_stream_record_v1 events in
        if (length local <? length remote)%nat ||
           negb (envelopes_eqb remote (take (length remote) local))
        then st_ret (StreamDiverged actual_next_sequence)
        else advance (env_sequence final)
      else advance (env_sequence final)
  end.

(** The loop of [propagate_once]; [renewals] is 1 until [renewed_after_expiry] is set. *)
Fixpoint push_loop (renewals : nat) (request : SyncPushRequestV1)
    (first final : StreamRecordEnvelopeV1) : Call PropagationStep :=
  pushed <-! on_world (gate_push bearer_token request) ;;
  match pushed with
  | Err _ => st_ret EndpointUnavailable
  | Ok outcome =>
      if negb (matches_request outcome request) then st_ret EndpointUnavailable
      else
        match outcome with
        | Accepted _ => advance (env_sequence final)
        | Rejected rejection =>
            match rejection_reason rejection, renewals with
            | ReasonLeaseFence Expired, Datatypes.S renewals =>
                stop <-! renew ;;
                match stop with
                | Some step => st_ret step
                | None => push_loop renewals request first final
                end
            | ReasonSequenceFence actual, _ =>
                reconcile_sequence_conflict first final (push_records request) actual
            | _, _ => st_ret LeaseFenced
            end
        end
  end.

(** [StreamPropagator::propagate_once]. *)
Definition propagate_once (now_ms : Z) : Call PropagationStep :=
  p <-! st_get ;;
  if negb (authorizes (grant_scope (prop_lease (state p))) (prop_stream_id (state p)))
  then st_lift (Err (HistoryText "propagation lease scope does not authorize its stream"))
  else
    stop <-! renew_if_due now_ms ;;
    match stop with
    | Some step => st_ret step
    | None =>
        p <-! st_get ;;
        let stream := prop_stream_id (state p) in
        let from_sequence := (fun through => i64_saturating_add through 1)
                               <$> pushed_through (state p) in
        local <-! read_local stream from_sequence ;;
        let batch := map to_stream_record_v1 (take batch_size local) in
        match head batch, last batch with
        | Some first, Some final =>
            push_loop 1
              (mk_push SYNC_PUSH_SCHEMA_V1 stream (grant_lease_id (prop_lease (state p)))
                 (env_sequence first) batch)
              first final
        | _, _ => st_ret Converged
        end
    end.
End Propagator.
Arguments Propagation : clear implicits.

(** [LocalFirstStreamPropagator::with_batch_size]. *)
Definition with_batch_size (batch_size : nat) : nat := Nat.max batch_size 1.

(** ** The parent's tail *)

Record RemoteStreamTailCursor : Type := mk_tail {
  tail_stream_id : EventStreamId;
  tail_cursor : option StreamCursorV1;
}.

Record RemoteStreamTailPage : Type := mk_tail_page {
  tail_records : list EventRecord;
  tail_next : RemoteStreamTailCursor;
}.

(** [RemoteStreamTail::poll]. *)
Definition poll `{UuidText} {S} `{EventStore S} (store : S) (position : RemoteStreamTailCursor) :
    VerletResult RemoteStreamTailPage :=
  records <-? map_err HistoryFailed
    match tail_cursor position with
    | Some cursor => log_read_after_cursor store (tail_stream_id position) cursor
    | None => log_read store (tail_stream_id position) None
    end ;;
  let next := match last records with
              | Some record => mk_tail (tail_stream_id position) (Some (cursor_v1 record))
              | None => position
              end in
  Ok (mk_tail_page records next).

(** * What a propagator may claim

    [pushed_through] is a claim about a store the child cannot see.  Against any
    endpoint that keeps its streams append-only and answers truthfully - however
    many requests and answers are lost, whoever else writes meanwhile - the claim
    holds after every attempt: the parent's stream agrees with the local one up to
    that sequence.  [SyncWorldLaws] is what the endpoint and the network owe. *)

Local Close Scope verlet_scope.
Local Open Scope string_scope.
Local Open Scope list_scope.

(** Equal, or equal as [PartialEq] sees it. *)
Definition record_same (a b : StreamRecordEnvelopeV1) : Prop := a = b \/ envelope_eqb a b = true.

#[export] Instance record_same_refl : Reflexive record_same.
Proof. by left. Qed.

Lemma envelopes_eqb_same a b : envelopes_eqb a b = true -> Forall2 record_same a b.
Proof.
  revert b. induction a as [|x a IH]; intros [|y b]; simpl; try done.
  intros [Hxy Hab]%andb_true_iff. constructor; [by right|]. by apply IH.
Qed.

(** ** The view of a world *)

Class SyncWorldView (W S : Type) `{EventStoreLaws S} `{SyncWorld W S} := {
  world_valid : W -> Prop;
  journal_stream : EventStreamId -> Prop;
  remote_log : W -> EventStreamId -> list StreamRecordEnvelopeV1;
}.

Section View.
Context {W S : Type} `{SyncWorldView W S}.

Definition local_log (w : W) (stream : EventStreamId) : list StreamRecordEnvelopeV1 :=
  map to_stream_record_v1 (log_events (local_store w) stream).

(** Both sides only ever append. *)
Definition world_grows (w w' : W) : Prop :=
  forall stream, local_log w stream `prefix_of` local_log w' stream /\
    remote_log w stream `prefix_of` remote_log w' stream.

#[export] Instance world_grows_refl : Reflexive world_grows.
Proof. intros w stream. done. Qed.

#[export] Instance world_grows_trans : Transitive world_grows.
Proof.
  intros w1 w2 w3 H12 H23 stream. destruct (H12 stream), (H23 stream). split; by etrans.
Qed.

(** What [records] pulled after [cursor] say about the parent's stream. *)
Definition pulled_from (w : W) (stream : EventStreamId) (cursor : option StreamCursorV1)
    (records : list StreamRecordEnvelopeV1) : Prop :=
  let skipped := match cursor with Some c => Z.to_nat (cursor_sequence c) | None => 0%nat end in
  (skipped <= length (remote_log w stream))%nat /\
  records `prefix_of` drop skipped (remote_log w stream).

(** A request that pushes a stretch of the local stream under its own sequences. *)
Definition own_records (w : W) (request : SyncPushRequestV1) : Prop :=
  (1 <= expected_next_sequence request)%Z /\
  push_records request `prefix_of`
    drop (Z.to_nat (expected_next_sequence request - 1)) (local_log w (push_stream_id request)).
End View.

Class SyncWorldLaws (W S : Type) `{SyncWorldView W S} := {
  world_local_valid w : world_valid w -> log_valid (local_store w);
  world_bounded w stream : world_valid w ->
    (Z.of_nat (length (log_events (local_store w) stream)) < i64_max)%Z;
  push_law token request w w' r : world_valid w -> own_records w request ->
    gate_push token request w = (w', r) ->
    world_valid w' /\ world_grows w w' /\
    forall ack, r = Ok (Accepted ack) ->
      take (length (push_records request))
        (drop (Z.to_nat (expected_next_sequence request - 1))
           (remote_log w' (push_stream_id request))) = push_records request;
  pull_law token stream cursor w w' r : world_valid w -> journal_stream stream ->
    gate_pull token stream cursor w = (w', r) ->
    world_valid w' /\ world_grows w w' /\
    forall records, r = Ok records -> pulled_from w' stream cursor records;
  renew_law token w w' r : world_valid w -> gate_renew token w = (w', r) ->
    world_valid w' /\ world_grows w w';
}.

Section Propagate.
Context {W S : Type} `{SyncWorldLaws W S} (bearer_token : string) (batch_size : nat).

Notation Propagation := (Propagation W).

(** ** The claim *)

Definition through_index (through : option EventSequence) : nat :=
  match through with Some p => Z.to_nat p | None => 0 end.

(** The parent holds what the child claims to have pushed. *)
Definition truthful (w : W) (stream : EventStreamId) (through : option EventSequence) : Prop :=
  (forall p, through = Some p -> (1 <= p)%Z) /\
  let k := through_index through in
  (k <= length (local_log w stream))%nat /\
  Forall2 record_same (take k (remote_log w stream)) (take k (local_log w stream)).

Record propagation_wf (p : Propagation) : Prop := {
  wf_world : world_valid (world p);
  wf_journal : journal_stream (prop_stream_id (state p));
  wf_state : truthful (world p) (prop_stream_id (state p)) (pushed_through (state p));
  wf_durable stream s : durable p !! stream = Some s ->
    prop_stream_id s = stream /\ truthful (world p) stream (pushed_through s);
}.

Lemma truthful_none w stream : truthful w stream None.
Proof. split; [done|]. simpl. split; [lia|]. by rewrite !take_0. Qed.

Lemma take_prefix {A} n (l l' : list A) : l `prefix_of` l' -> (n <= length l)%nat -> take n l' = take n l.
Proof. intros [k ->] Hn. by rewrite take_app_le. Qed.

Lemma truthful_grows w w' stream through :
  world_grows w w' -> truthful w stream through -> truthful w' stream through.
Proof.
  intros Hg [Hp [Hk Hs]]. destruct (Hg stream) as [Hl Hr]. split; [done|].
  set (k := through_index through) in *.
  pose proof (Forall2_length _ _ _ Hs) as Hlen. rewrite !length_take in Hlen.
  pose proof (prefix_length _ _ Hl). split; [lia|].
  rewrite (take_prefix k _ _ Hr), (take_prefix k _ _ Hl) by lia. done.
Qed.

Lemma local_log_length w stream :
  length (local_log w stream) = length (log_events (local_store w) stream).
Proof. apply length_map. Qed.

(** ** A batch on its way *)

(** The batch of a request, cut from the local stream right after the claim. *)
Record batch_of (w : W) (stream : EventStreamId) (through : option EventSequence)
    (request : SyncPushRequestV1) (first final : StreamRecordEnvelopeV1) : Prop := {
  batch_stream : push_stream_id request = stream;
  batch_prefix : push_records request `prefix_of` drop (through_index through) (local_log w stream);
  batch_first : env_sequence first = (Z.of_nat (through_index through) + 1)%Z;
  batch_expected : expected_next_sequence request = env_sequence first;
  batch_final : env_sequence final =
    (Z.of_nat (through_index through) + Z.of_nat (length (push_records request)))%Z;
  batch_nonempty : push_records request <> [];
}.

Lemma batch_of_grows w w' stream through request first final :
  world_grows w w' -> truthful w stream through ->
  batch_of w stream through request first final -> batch_of w' stream through request first final.
Proof.
  intros Hg [_ [Hk _]] []. split; try done. destruct (Hg stream) as [[ext Hext] _].
  rewrite Hext, drop_app_le by done. by apply prefix_app_r.
Qed.

Lemma batch_index w stream through request first final :
  batch_of w stream through request first final ->
  Z.to_nat (expected_next_sequence request - 1) = through_index through.
Proof. intros []. lia. Qed.

Lemma batch_own w stream through request first final :
  batch_of w stream through request first final -> own_records w request.
Proof.
  intros Hb. split; [destruct Hb; lia|]. rewrite (batch_index _ _ _ _ _ _ Hb). by destruct Hb as [-> ?].
Qed.

(** Once the parent holds the batch, the claim may move to its end. *)
Lemma adopt_batch w stream through request first final :
  truthful w stream through -> batch_of w stream through request first final ->
  Forall2 record_same
    (take (length (push_records request)) (drop (through_index through) (remote_log w stream)))
    (push_records request) ->
  truthful w stream (Some (env_sequence final)).
Proof.
  intros [Hp [Hk Hs]] [_ Hpre Hfirst _ Hfinal Hne] Hb. set (k := through_index through) in *.
  set (n := length (push_records request)) in *.
  assert (n <> 0%nat) by (unfold n; destruct (push_records request); [done|simpl; lia]).
  assert (through_index (Some (env_sequence final)) = (k + n)%nat) as Hi
    by (simpl; rewrite Hfinal; lia).
  split; [intros p [= <-]; lia|]. rewrite Hi. simpl.
  pose proof (prefix_length _ _ Hpre) as Hn. rewrite length_drop in Hn. fold n in Hn.
  split; [lia|]. rewrite <- !take_take_drop.
  apply Forall2_app; [done|]. destruct Hpre as [ext Hext]. rewrite Hext.
  unfold n. by rewrite take_app_length.
Qed.

(** ** Calls *)

(** What a call that leaves the claim alone does. *)
Record keeps (p p' : Propagation) : Prop := {
  keeps_wf : propagation_wf p';
  keeps_grows : world_grows (world p) (world p');
  keeps_stream : prop_stream_id (state p') = prop_stream_id (state p);
  keeps_through : pushed_through (state p') = pushed_through (state p);
}.

Lemma keeps_refl p : propagation_wf p -> keeps p p.
Proof. by split. Qed.

Lemma keeps_trans p1 p2 p3 : keeps p1 p2 -> keeps p2 p3 -> keeps p1 p3.
Proof. intros [] []. split; try done; [by etrans|congruence..]. Qed.

Lemma keeps_world p w : propagation_wf p -> world_valid w -> world_grows (world p) w ->
  keeps p (mk_run w (durable p) (state p)).
Proof.
  intros [Hw Hj Hs Hd] Hv Hg. split; try done.
  split; simpl; [done|done|by apply (truthful_grows (world p))|].
  intros stream s Hst. destruct (Hd stream s Hst). split; [done|].
  by apply (truthful_grows (world p)).
Qed.

Lemma on_world_ok {A} (m : W -> W * result A GateError) p p' r :
  on_world m p = (p', r) ->
  exists w g, m (world p) = (w, g) /\ r = Ok g /\ p' = mk_run w (durable p) (state p).
Proof. unfold on_world. destruct (m (world p)) as [w g]. intros [= <- <-]. by exists w, g. Qed.

(** Changing the state to one that claims something true, and persisting it. *)
Lemma persist_state_ok p s p' (r : VerletResult unit) :
  propagation_wf p -> prop_stream_id s = prop_stream_id (state p) ->
  truthful (world p) (prop_stream_id s) (pushed_through s) ->
  st_bind (st_modify (set_state s)) (fun _ => persist) p = (p', r) ->
  r = Ok tt /\ propagation_wf p' /\ world p' = world p /\ state p' = s /\
  durable p' !! prop_stream_id s = Some s.
Proof.
  intros [Hw Hj _ Hd] Hst Ht. unfold st_bind, st_modify, persist. simpl. intros [= <- <-]. simpl.
  split_and!; try done; [|by apply lookup_insert_eq]. split; simpl; [done|by rewrite Hst|done|].
  intros stream s' [[<- <-]|[Hne Hl]]%lookup_insert_Some; [done|]. by apply Hd.
Qed.

(** A renewal that stops the attempt stops it short of any claim. *)
Definition stops_short (step : PropagationStep) : Prop :=
  match step with Converged | Advanced _ => False | _ => True end.

Lemma renew_keeps p p' r :
  propagation_wf p -> renew bearer_token p = (p', r) ->
  keeps p p' /\ forall step, r = Ok (Some step) -> stops_short step.
Proof.
  intros Hwf Hrun. unfold renew, st_bind at 1 2, st_get in Hrun.
  destruct (on_world _ p) as [p1 r1] eqn:Hon. apply on_world_ok in Hon as (w & g & Hg & -> & ->).
  apply (renew_law _ _ _ _ (wf_world _ Hwf)) in Hg as [Hv Hgr].
  pose proof (keeps_world p w Hwf Hv Hgr) as Hk. destruct Hk as [Hwf1 Hg1 _ _].
  assert (keeps p (mk_run w (durable p) (state p))) as Hk by by apply keeps_world.
  destruct g as [[grant|]|e]; [|by injection Hrun as <- <-; split; [|intros step [= <-]]..].
  destruct (_ || _); [by injection Hrun as <- <-; split; [|intros step [= <-]]|].
  set (s := mk_propagation _ _ _) in Hrun.
  assert (st_bind (st_modify (set_state s)) (fun _ => persist) (mk_run w (durable p) (state p))
    = (p', Ok tt) /\ r = Ok None) as [Hp ->].
  { unfold st_bind, st_modify, persist, st_ret in *. simpl in *. by injection Hrun as <- <-. }
  apply persist_state_ok in Hp as (_ & Hwf' & Hw' & Hs' & _); [|done|done|apply Hwf1].
  split; [|done]. split; [done|by rewrite Hw'|by rewrite Hs'..].
Qed.

(** How an attempt ends. *)
Definition attempt_ends (p p' : Propagation) (r : VerletResult PropagationStep) : Prop :=
  let stream := prop_stream_id (state p) in
  propagation_wf p' /\ world_grows (world p) (world p') /\ prop_stream_id (state p') = stream /\
  match r with
  | Ok (Advanced through) =>
      pushed_through (state p') = Some through /\ durable p' !! stream = Some (state p') /\
      (through_index (pushed_through (state p)) < Z.to_nat through)%nat
  | Ok Converged =>
      pushed_through (state p') = pushed_through (state p) /\
      Forall2 record_same
        (take (length (local_log (world p') stream)) (remote_log (world p') stream))
        (local_log (world p') stream)
  | _ => pushed_through (state p') = pushed_through (state p)
  end.

Lemma attempt_after p p1 p' r :
  keeps p p1 -> attempt_ends p1 p' r -> attempt_ends p p' r.
Proof.
  intros [_ Hg Hs Ht] (Hwf & Hg' & Hs' & Hr). unfold attempt_ends. rewrite Hs, Ht in *.
  split_and!; try done. by etrans.
Qed.

Lemma attempt_stops p p' step :
  keeps p p' ->
  stops_short step -> attempt_ends p p' (Ok step).
Proof. intros [] Hstep. unfold attempt_ends. split_and!; try done. by destruct step. Qed.

Lemma attempt_fails p p' e : keeps p p' -> attempt_ends p p' (Err e).
Proof. by intros []. Qed.

Lemma advance_ends p p' r request first final :
  propagation_wf p ->
  batch_of (world p) (prop_stream_id (state p)) (pushed_through (state p)) request first final ->
  Forall2 record_same (take (length (push_records request))
    (drop (through_index (pushed_through (state p)))
       (remote_log (world p) (prop_stream_id (state p))))) (push_records request) ->
  advance (env_sequence final) p = (p', r) -> attempt_ends p p' r.
Proof.
  intros Hwf Hb Hsame Hrun. pose proof (adopt_batch _ _ _ _ _ _ (wf_state _ Hwf) Hb Hsame) as Ht.
  set (s := mk_propagation (prop_stream_id (state p)) (prop_lease (state p))
              (Some (env_sequence final))).
  assert (exists p1, st_bind (st_modify (set_state s)) (fun _ => persist) p = (p1, Ok tt) /\
    p' = p1 /\ r = Ok (Advanced (env_sequence final))) as (p1 & Hp & -> & ->).
  { unfold advance, st_bind, st_get, st_modify, persist, st_ret in *. simpl in *.
    injection Hrun as <- <-. by eexists. }
  apply (persist_state_ok p s) in Hp as (_ & Hwf' & Hw' & Hs' & Hd'); [|done..].
  unfold attempt_ends. rewrite Hw', Hs'. split_and!; try done.
  rewrite (batch_final _ _ _ _ _ _ Hb).
  pose proof (batch_nonempty _ _ _ _ _ _ Hb). destruct (push_records request); [done|simpl; lia].
Qed.

Lemma read_local_ok stream from p p' r :
  propagation_wf p -> read_local stream from p = (p', r) ->
  p' = p /\ r = Ok match from with
                   | Some seq => drop (Z.to_nat (seq - 1)) (log_events (local_store (world p)) stream)
                   | None => log_events (local_store (world p)) stream
                   end.
Proof.
  intros Hwf. unfold read_local, st_bind, st_get, st_lift.
  pose proof (world_local_valid _ (wf_world _ Hwf)) as Hv.
  destruct from as [seq|]; [rewrite (log_read_from _ _ _ Hv)|rewrite (log_read_all _ _ Hv)];
    by intros [= <- <-].
Qed.

Lemma local_log_sequence w stream i e :
  world_valid w -> local_log w stream !! i = Some e -> env_sequence e = Z.of_nat (Datatypes.S i).
Proof.
  intros Hw Hi. apply list_lookup_fmap_Some in Hi as (x & -> & Hi).
  by destruct (log_numbered _ _ _ _ (world_local_valid _ Hw) Hi).
Qed.

(** The cursor of a reconciliation stands at the claim. *)
Lemma reconcile_cursor_ok p p' r stream k :
  propagation_wf p -> reconcile_cursor stream (Z.of_nat k + 1) p = (p', r) ->
  p' = p /\ match r with
            | Ok cursor => k = match cursor with Some c => Z.to_nat (cursor_sequence c) | None => 0%nat end
            | Err _ => True
            end.
Proof.
  intros Hwf. unfold reconcile_cursor. destruct (Z.eqb_spec (Z.of_nat k + 1) 1) as [Hk|Hk].
  - intros [= <- <-]. split; [done|]. lia.
  - unfold st_bind at 1. destruct (read_local _ _ p) as [p1 r1] eqn:Hr.
    apply read_local_ok in Hr as [-> ->]; [|done]. unfold st_bind, st_lift, st_ret.
    rewrite head_lookup, lookup_drop, Nat.add_0_r.
    destruct (_ !! _) as [e|] eqn:He; simpl; intros [= <- <-]; [|done]. split; [done|]. simpl.
    destruct (log_numbered _ _ _ _ (world_local_valid _ (wf_world _ Hwf)) He) as [-> _]. lia.
Qed.

Lemma reconcile_ends p p' r request first final actual :
  propagation_wf p ->
  batch_of (world p) (prop_stream_id (state p)) (pushed_through (state p)) request first final ->
  reconcile_sequence_conflict bearer_token first final (push_records request) actual p = (p', r) ->
  attempt_ends p p' r.
Proof.
  intros Hwf Hb. unfold reconcile_sequence_conflict, st_bind at 1 2, st_get.
  rewrite (batch_first _ _ _ _ _ _ Hb).
  destruct (reconcile_cursor _ _ p) as [p1 [cursor|e]] eqn:Hc;
    apply reconcile_cursor_ok in Hc as [-> Hk]; try done;
    [|intros [= <- <-]; by apply attempt_fails, keeps_refl].
  unfold st_bind at 1. destruct (on_world _ p) as [p1 r1] eqn:Hon.
  apply on_world_ok in Hon as (w & g & Hg & -> & ->).
  apply (pull_law _ _ _ _ _ _ (wf_world _ Hwf) (wf_journal _ Hwf)) in Hg as (Hv & Hgr & Hpull).
  pose proof (keeps_world p w Hwf Hv Hgr) as Hkeep. set (p1 := mk_run w (durable p) (state p)) in *.
  destruct g as [remote|[[]|]]; try (intros [= <- <-]; by apply attempt_stops).
  2: { destruct (String.eqb _ _); intros [= <- <-]; by apply attempt_stops. }
  specialize (Hpull remote eq_refl). unfold pulled_from in Hpull. rewrite <- Hk in Hpull.
  destruct Hpull as [Hlen Hpre].
  destruct (_ || _) eqn:Hdiv; [intros [= <- <-]; by apply attempt_stops|]. to_prop.
  assert (forall p' r, advance (env_sequence final) p1 = (p', r) -> attempt_ends p p' r) as Hadv.
  { intros p2 r2 Hrun. apply (attempt_after p p1); [done|].
    apply (advance_ends p1 p2 r2 request first final); 
      [apply Hkeep|by apply (batch_of_grows (world p)); [|apply Hwf|]| |done].
    unfold p1. simpl. destruct Hpre as [ext Hext]. rewrite Hext, take_app_le by lia. by apply envelopes_eqb_same. }
  destruct (_ <? _)%nat; [|by apply Hadv].
  unfold st_bind. destruct (read_local _ _ p1) as [p2 r2] eqn:Hr.
  apply read_local_ok in Hr as [-> ->]; [|apply Hkeep].
  destruct (_ || _); [intros [= <- <-]; by apply attempt_stops|]. by apply Hadv.
Qed.

Lemma batch_of_keeps p p1 request first final :
  propagation_wf p -> keeps p p1 ->
  batch_of (world p) (prop_stream_id (state p)) (pushed_through (state p)) request first final ->
  batch_of (world p1) (prop_stream_id (state p1)) (pushed_through (state p1)) request first final.
Proof.
  intros Hwf [_ Hg -> ->] Hb. by apply (batch_of_grows (world p)); [|apply Hwf|].
Qed.

(** What a push may be followed by. *)
Lemma push_answer p p1 r1 request first final :
  propagation_wf p ->
  batch_of (world p) (prop_stream_id (state p)) (pushed_through (state p)) request first final ->
  on_world (gate_push bearer_token request) p = (p1, r1) ->
  exists answer, r1 = Ok answer /\ keeps p p1 /\
    (forall ack p' r, answer = Ok (Accepted ack) -> advance (env_sequence final) p1 = (p', r) ->
       attempt_ends p p' r) /\
    (forall actual p' r, reconcile_sequence_conflict bearer_token first final (push_records request)
       actual p1 = (p', r) -> attempt_ends p p' r).
Proof.
  intros Hwf Hb Hon. apply on_world_ok in Hon as (w & g & Hg & -> & ->).
  apply (push_law _ _ _ _ _ (wf_world _ Hwf) (batch_own _ _ _ _ _ _ Hb)) in Hg as (Hv & Hgr & Hacc).
  pose proof (keeps_world p w Hwf Hv Hgr) as Hkeep. set (p1 := mk_run w (durable p) (state p)) in *.
  pose proof (batch_of_keeps p p1 _ _ _ Hwf Hkeep Hb) as Hb1.
  exists g. split_and!; try done.
  - intros ack p' r -> Hrun. apply (attempt_after p p1); [done|].
    apply (advance_ends p1 p' r request first final); [apply Hkeep|done| |done].
    specialize (Hacc ack eq_refl).
    rewrite (batch_index _ _ _ _ _ _ Hb), (batch_stream _ _ _ _ _ _ Hb) in Hacc.
    unfold p1. simpl. by rewrite Hacc.
  - intros actual p' r Hrun. apply (attempt_after p p1); [done|].
    apply (reconcile_ends p1 p' r request first final actual); [apply Hkeep|done|done].
Qed.

Lemma push_loop_ends renewals p p' r request first final :
  propagation_wf p ->
  batch_of (world p) (prop_stream_id (state p)) (pushed_through (state p)) request first final ->
  push_loop bearer_token renewals request first final p = (p', r) -> attempt_ends p p' r.
Proof.
  revert p p' r. induction renewals as [|renewals IH]; intros p p' r Hwf Hb; cbn [push_loop];
    unfold st_bind at 1; destruct (on_world _ p) as [p1 r1] eqn:Hon;
    destruct (push_answer _ _ _ _ _ _ Hwf Hb Hon) as (g & -> & Hkeep & Hacc & Hrec);
    (destruct g as [outcome|e]; [|intros [= <- <-]; by apply attempt_stops]);
    (destruct (negb _); [intros [= <- <-]; by apply attempt_stops|]);
    (destruct outcome as [ack|rejection]; [by apply (Hacc ack)|]);
    destruct (rejection_reason rejection) as [| | | |fence|actual];
    try (intros [= <- <-]; by apply attempt_stops); try by apply Hrec.
  all: destruct fence; try (intros [= <- <-]; by apply attempt_stops).
  unfold st_bind. destruct (renew bearer_token p1) as [p2 out] eqn:Hrenew.
  apply renew_keeps in Hrenew as [Hrenew Hstop]; [|apply Hkeep].
  pose proof (keeps_trans _ _ _ Hkeep Hrenew) as Hk.
  destruct out as [[step|]|e].
  - intros [= <- <-]. apply attempt_stops; [done|]. by apply Hstop.
  - intros Hrun. apply (attempt_after p p2); [done|].
    apply (IH p2 p' r); [apply Hk|by apply (batch_of_keeps p)|done].
  - intros [= <- <-]. by apply attempt_fails.
Qed.

Lemma renew_if_due_keeps now p p' r :
  propagation_wf p -> renew_if_due bearer_token now p = (p', r) ->
  keeps p p' /\ forall step, r = Ok (Some step) -> stops_short step.
Proof.
  intros Hwf. unfold renew_if_due, st_bind, st_get. destruct (renewal_due _ _).
  - by apply renew_keeps.
  - intros [= <- <-]. split; [by apply keeps_refl|done].
Qed.

(** The batch [propagate_once] cuts is the one right after the claim. *)
Lemma cut_batch p batch first final :
  propagation_wf p ->
  let stream := prop_stream_id (state p) in let k := through_index (pushed_through (state p)) in
  batch = map to_stream_record_v1
            (take batch_size (drop k (log_events (local_store (world p)) stream))) ->
  head batch = Some first -> last batch = Some final ->
  batch_of (world p) stream (pushed_through (state p))
    (mk_push SYNC_PUSH_SCHEMA_V1 stream (grant_lease_id (prop_lease (state p)))
       (env_sequence first) batch) first final.
Proof.
  intros Hwf stream k Hbatch Hh Hl.
  assert (batch = take batch_size (drop k (local_log (world p) stream))) as Hb.
  { unfold local_log. by rewrite Hbatch, skipn_map, firstn_map. }
  assert (forall i e, batch !! i = Some e -> env_sequence e = (Z.of_nat k + Z.of_nat i + 1)%Z) as Hseq.
  { intros i e Hi. rewrite Hb in Hi. apply lookup_take_Some in Hi as [Hi _].
    rewrite lookup_drop in Hi. rewrite (local_log_sequence _ _ _ _ (wf_world _ Hwf) Hi). lia. }
  split; simpl; try done.
  - rewrite Hb. apply prefix_take.
  - rewrite head_lookup in Hh. rewrite (Hseq 0%nat first Hh). fold k. lia.
  - rewrite last_lookup in Hl. rewrite (Hseq _ final Hl). fold k.
    destruct batch; [done|]. simpl. lia.
  - by intros ->.
Qed.

Lemma propagate_once_ends now p p' r :
  (1 <= batch_size)%nat -> propagation_wf p ->
  propagate_once bearer_token batch_size now p = (p', r) -> attempt_ends p p' r.
Proof.
  intros Hbs Hwf. unfold propagate_once, st_bind at 1, st_get.
  destruct (negb _); [intros [= <- <-]; by apply attempt_fails, keeps_refl|].
  unfold st_bind at 1. destruct (renew_if_due bearer_token now p) as [p1 out] eqn:Hrenew.
  apply renew_if_due_keeps in Hrenew as [Hk Hstop]; [|done].
  destruct out as [[step|]|e].
  - intros [= <- <-]. apply attempt_stops; [done|]. by apply Hstop.
  - unfold st_bind at 1. unfold st_bind at 1. destruct (read_local _ _ p1) as [p2 out] eqn:Hr.
    apply read_local_ok in Hr as [-> ->]; [|apply Hk]. intros Hrun.
    apply (attempt_after p p1); [done|].
    pose proof (keeps_wf _ _ Hk) as Hwf1. set (stream := prop_stream_id (state p1)) in *.
    set (k := through_index (pushed_through (state p1))).
    assert (match (fun through => i64_saturating_add through 1) <$> pushed_through (state p1) with
      | Some seq => drop (Z.to_nat (seq - 1)) (log_events (local_store (world p1)) stream)
      | None => log_events (local_store (world p1)) stream
      end = drop k (log_events (local_store (world p1)) stream)) as Hlocal.
    { unfold k. destruct (wf_state _ Hwf1) as [Hpos [Hlen _]].
      destruct (pushed_through (state p1)) as [t|]; simpl; [|done]. simpl in Hlen.
      rewrite local_log_length in Hlen. fold stream in Hlen.
      pose proof (world_bounded _ stream (wf_world _ Hwf1)). specialize (Hpos t eq_refl).
      unfold i64_saturating_add, i64_saturate, i64_min. f_equal. lia. }
    rewrite Hlocal in Hrun.
    set (batch := map to_stream_record_v1 (take batch_size _)) in *.
    destruct (head batch) as [first|] eqn:Hh; [destruct (last batch) as [final|] eqn:Hl|].
    + eapply push_loop_ends; [done| |exact Hrun].
      by apply (cut_batch p1 batch first final Hwf1).
    + destruct batch; [done|]. by apply last_None in Hl.
    + injection Hrun as <- <-. unfold attempt_ends. split_and!; try done.
      assert (length (local_log (world p1) stream) <= k)%nat as Hlen.
      { rewrite local_log_length. assert (batch = []) as Hnil by by destruct batch.
        apply map_eq_nil in Hnil. apply (f_equal length) in Hnil.
        rewrite length_take, length_drop in Hnil. simpl in Hnil. lia. }
      destruct (wf_state _ Hwf1) as [_ [Hk1 Hs]]. fold k stream in Hk1, Hs.
      replace (length (local_log (world p1) stream)) with k by lia.
      by rewrite (take_ge (local_log (world p1) stream)) in Hs by lia.
  - intros [= <- <-]. by apply attempt_fails.
Qed.

(** [pushed_through] never lies.  Whatever requests or answers an attempt loses, and whoever
    appends to either store meanwhile, the attempt ends with the parent's stream agreeing with the
    local one up to every claimed sequence, in memory and on disk.  It advances only to a larger
    sequence and has persisted it by then, reports convergence only when the parent holds every
    local record, and in every other case leaves the claim as it was. *)
Theorem pushed_through_truthful now p p' r :
  (1 <= batch_size)%nat -> propagation_wf p ->
  propagate_once bearer_token batch_size now p = (p', r) ->
  let stream := prop_stream_id (state p) in
  truthful (world p') stream (pushed_through (state p')) /\
  (forall s, durable p' !! stream = Some s -> truthful (world p') stream (pushed_through s)) /\
  match r with
  | Ok (Advanced through) =>
      pushed_through (state p') = Some through /\ durable p' !! stream = Some (state p') /\
      (forall before, pushed_through (state p) = Some before -> (before < through)%Z)
  | Ok Converged =>
      pushed_through (state p') = pushed_through (state p) /\
      Forall2 record_same
        (take (length (local_log (world p') stream)) (remote_log (world p') stream))
        (local_log (world p') stream)
  | _ => pushed_through (state p') = pushed_through (state p)
  end.
Proof.
  intros Hbs Hwf Hrun stream.
  destruct (propagate_once_ends _ _ _ _ Hbs Hwf Hrun) as ([Hv' _ Ht Hd] & _ & Hs & Hr).
  rewrite Hs in Ht. split_and!; [done|intros s Hl; by destruct (Hd _ _ Hl)|].
  destruct r as [[]|]; try done. destruct Hr as (Hth & Hdur & Hlt). split_and!; try done.
  intros t Hbefore. destruct (wf_state _ Hwf) as [Hpos _]. specialize (Hpos t Hbefore).
  rewrite Hbefore in Hlt. simpl in Hlt. lia.
Qed.
End Propagate.
