(* ===== verification/Text.v ===== *)
(** * Bytes, characters and the operations of [str]

    A [Vec<u8>] is a list of bytes and a [str] the list of its characters, as
    code points.  The operations are those of the Rust standard library the
    kernel's own parsers use; their laws follow. *)

From stdpp Require Import base gmap sets list strings pretty.
From Stdlib Require Import NArith ZArith Lia Strings.Byte.
From S2P Require Import Prelude.

From Stdlib Require Decimal DecimalN Strings.String.

Local Open Scope N_scope.
Local Open Scope list_scope.

Notation char := N (only parsing).
Notation str := (list N) (only parsing).
Notation bytes := (list byte).

(** ** Literals *)

(** A byte string literal, and a [str] literal of ASCII characters. *)
Definition bytes_of (s : string) : bytes := String.list_byte_of_string s.
Definition lit (s : string) : str := map Byte.to_N (bytes_of s).

(** ** [std::str::from_utf8] *)

Definition in_range (lo hi : N) (b : byte) : bool := (lo <=? Byte.to_N b) && (Byte.to_N b <=? hi).

(** The low bits of a continuation byte. *)
Definition tail_bits (b : byte) : N := N.land (Byte.to_N b) 63.

(** The well-formed sequences of one to four bytes: no surrogates, no overlong forms, nothing past
    U+10FFFF. *)
Fixpoint from_utf8 (l : bytes) : option str :=
  match l with
  | [] => Some []
  | b0 :: l0 =>
      let x := Byte.to_N b0 in
      if x <? 128 then cons x <$> from_utf8 l0
      else if in_range 194 223 b0 then
        match l0 with
        | b1 :: l1 =>
            if in_range 128 191 b1
            then cons (N.land x 31 * 64 + tail_bits b1) <$> from_utf8 l1 else None
        | _ => None
        end
      else if in_range 224 239 b0 then
        match l0 with
        | b1 :: b2 :: l2 =>
            if in_range (if x =? 224 then 160 else 128) (if x =? 237 then 159 else 191) b1 &&
               in_range 128 191 b2
            then cons (N.land x 15 * 4096 + tail_bits b1 * 64 + tail_bits b2) <$> from_utf8 l2
            else None
        | _ => None
        end
      else if in_range 240 244 b0 then
        match l0 with
        | b1 :: b2 :: b3 :: l3 =>
            if in_range (if x =? 240 then 144 else 128) (if x =? 244 then 143 else 191) b1 &&
               in_range 128 191 b2 && in_range 128 191 b3
            then cons (N.land x 7 * 262144 + tail_bits b1 * 4096 + tail_bits b2 * 64 + tail_bits b3)
                   <$> from_utf8 l3
            else None
        | _ => None
        end
      else None
  end.

(** [char::encode_utf8]. *)
Definition encode_char (c : char) : list N :=
  if c <? 128 then [c]
  else if c <? 2048 then [192 + c / 64; 128 + c mod 64]
  else if c <? 65536 then [224 + c / 4096; 128 + c / 64 mod 64; 128 + c mod 64]
  else [240 + c / 262144; 128 + c / 4096 mod 64; 128 + c / 64 mod 64; 128 + c mod 64].

(** The bytes of a [str], as a text of the model. *)
Definition text_of (s : str) : string :=
  String.string_of_list_byte (omap Byte.of_N (s ≫= encode_char)).

(** ** Slices *)

Fixpoint starts_bytes (needle l : bytes) : bool :=
  match needle, l with
  | [], _ => true
  | x :: needle, y :: l => Byte.eqb x y && starts_bytes needle l
  | _, _ => false
  end.

(** The position of the first window equal to [needle]. *)
Fixpoint find_window (l needle : bytes) : option nat :=
  if starts_bytes needle l then Some O
  else match l with
       | [] => None
       | _ :: l => S <$> find_window l needle
       end.

(** ** Characters *)

(** [char::is_whitespace]: the Unicode property [White_Space]. *)
Definition is_whitespace (c : char) : bool :=
  ((9 <=? c) && (c <=? 13)) || (c =? 32) || (c =? 133) || (c =? 160) || (c =? 5760) ||
  ((8192 <=? c) && (c <=? 8202)) || (c =? 8232) || (c =? 8233) || (c =? 8239) || (c =? 8287) ||
  (c =? 12288).

Definition is_ascii_digit (c : char) : bool := (48 <=? c) && (c <=? 57).
Definition is_ascii_uppercase (c : char) : bool := (65 <=? c) && (c <=? 90).
Definition is_ascii_lowercase (c : char) : bool := (97 <=? c) && (c <=? 122).
Definition is_ascii_alphanumeric (c : char) : bool :=
  is_ascii_digit c || is_ascii_uppercase c || is_ascii_lowercase c.
Definition to_ascii_lowercase (c : char) : char := if is_ascii_uppercase c then c + 32 else c.

(** ** Strings *)

Fixpoint str_eqb (a b : str) : bool :=
  match a, b with
  | [], [] => true
  | x :: a, y :: b => (x =? y) && str_eqb a b
  | _, _ => false
  end.

(** [str::eq_ignore_ascii_case]. *)
Definition eq_ignore_ascii_case (a b : str) : bool :=
  str_eqb (map to_ascii_lowercase a) (map to_ascii_lowercase b).

(** [str::trim_start], [str::trim]. *)
Fixpoint trim_start (s : str) : str :=
  match s with
  | c :: s' => if is_whitespace c then trim_start s' else s
  | [] => []
  end.
Definition trim (s : str) : str := rev (trim_start (rev (trim_start s))).

(** [str::split_once] at a character. *)
Fixpoint split_once (at_char : char) (s : str) : option (str * str) :=
  match s with
  | [] => None
  | c :: s =>
      if c =? at_char then Some ([], s)
      else (fun parts : str * str => (c :: parts.1, parts.2)) <$> split_once at_char s
  end.

(** Puts a character in front of the first piece. *)
Definition onto_first (c : char) (pieces : list str) : list str :=
  match pieces with
  | piece :: pieces => (c :: piece) :: pieces
  | [] => [[c]]
  end.

(** [str::split] at the line end of HTTP. *)
Fixpoint split_crlf (s : str) : list str :=
  match s with
  | [] => [[]]
  | c :: s' =>
      match s' with
      | d :: s'' => if (c =? 13) && (d =? 10) then [] :: split_crlf s'' else onto_first c (split_crlf s')
      | [] => [[c]]
      end
  end.

(** [str::split_whitespace]. *)
Fixpoint words (s : str) : list str :=
  match s with
  | [] => []
  | c :: s' =>
      if is_whitespace c then words s'
      else match s' with
           | d :: _ => if is_whitespace d then [c] :: words s' else onto_first c (words s')
           | [] => [[c]]
           end
  end.

(** [str::strip_prefix]. *)
Fixpoint strip_str_prefix (prefix s : str) : option str :=
  match prefix, s with
  | [], _ => Some s
  | x :: prefix, y :: s => if x =? y then strip_str_prefix prefix s else None
  | _, _ => None
  end.

(** ** Numbers *)

Definition usize_max : N := 18446744073709551615.
Definition u16_max : N := 65535.

(** [Display] of an unsigned integer. *)
Fixpoint uint_text (u : Decimal.uint) : str :=
  match u with
  | Decimal.Nil => []
  | Decimal.D0 u => 48 :: uint_text u
  | Decimal.D1 u => 49 :: uint_text u
  | Decimal.D2 u => 50 :: uint_text u
  | Decimal.D3 u => 51 :: uint_text u
  | Decimal.D4 u => 52 :: uint_text u
  | Decimal.D5 u => 53 :: uint_text u
  | Decimal.D6 u => 54 :: uint_text u
  | Decimal.D7 u => 55 :: uint_text u
  | Decimal.D8 u => 56 :: uint_text u
  | Decimal.D9 u => 57 :: uint_text u
  end.
Definition decimal (n : N) : str := uint_text (N.to_uint n).

Definition digit (c : char) : option (Decimal.uint -> Decimal.uint) :=
  if c =? 48 then Some Decimal.D0 else if c =? 49 then Some Decimal.D1 else if c =? 50 then Some Decimal.D2
  else if c =? 51 then Some Decimal.D3 else if c =? 52 then Some Decimal.D4 else if c =? 53 then Some Decimal.D5
  else if c =? 54 then Some Decimal.D6 else if c =? 55 then Some Decimal.D7 else if c =? 56 then Some Decimal.D8
  else if c =? 57 then Some Decimal.D9 else None.

Fixpoint text_uint (s : str) : option Decimal.uint :=
  match s with
  | [] => Some Decimal.Nil
  | c :: s => d ← digit c; d <$> text_uint s
  end.

(** [str::parse] to an unsigned integer: digits after an optional sign, at least one, no overflow. *)
Definition parse_unsigned (max : N) (s : str) : option N :=
  let digits := match s with c :: s' => if c =? 43 then s' else s | [] => [] end in
  if match digits with [] => true | _ => false end then None
  else u ← text_uint digits;
       if N.of_uint u <=? max then Some (N.of_uint u) else None.

(** * Laws of the text operations

    Windows and their position under concatenation, ASCII text through the UTF-8
    decoder, lines, words and trimmed values of plain text, and decimal numbers
    read back. *)

Local Close Scope N_scope.
Local Open Scope list_scope.

From Stdlib Require Decimal DecimalN DecimalFacts Strings.String.

#[export] Instance byte_eq_dec : EqDecision byte := Byte.byte_eq_dec.

(** ** Windows *)

Lemma byte_eqb_spec x y : Byte.eqb x y = true <-> x = y.
Proof. split; [apply byte_dec_bl|apply byte_dec_lb]. Qed.

Lemma starts_bytes_iff needle l : starts_bytes needle l = true <-> needle `prefix_of` l.
Proof.
  revert l. induction needle as [|x needle IH]; intros l; simpl.
  - split; [intros _; apply prefix_nil|done].
  - destruct l as [|y l].
    + split; [done|]. by intros ?%prefix_nil_inv.
    + rewrite andb_true_iff, IH, byte_eqb_spec. split.
      * intros [-> Hl]. by apply prefix_cons.
      * intros Hp. split; [by eapply prefix_cons_inv_1|by eapply prefix_cons_inv_2].
Qed.

Lemma starts_bytes_app needle l k :
  (length needle <= length l)%nat -> starts_bytes needle (l ++ k) = starts_bytes needle l.
Proof.
  revert l. induction needle as [|x needle IH]; intros [|y l]; simpl; try done; [lia|].
  intros Hl. by rewrite IH by lia.
Qed.

(** A window is found in a longer text where it was, and in a shorter one when it lies inside. *)
Lemma find_window_app l k needle i :
  find_window l needle = Some i -> find_window (l ++ k) needle = Some i.
Proof.
  revert i. induction l as [|x l IH]; intros i Hf.
  - simpl in Hf. destruct needle; [|done]. injection Hf as <-. by destruct k.
  - simpl in *. destruct (starts_bytes needle (x :: l)) eqn:Hs.
    + injection Hf as <-. assert (starts_bytes needle (x :: l ++ k) = true) as ->; [|done].
      apply starts_bytes_iff in Hs. apply starts_bytes_iff. by apply (prefix_app_r _ _ k) in Hs.
    + destruct (find_window l needle) as [j|] eqn:Hj; [|done]. injection Hf as <-.
      assert (starts_bytes needle (x :: l ++ k) = false) as Hs'.
      { assert (length needle <= length l)%nat as Hn; [|by rewrite <- Hs; apply (starts_bytes_app _ (x :: l)); simpl; lia].
        clear -Hj. revert j Hj. induction l as [|y l IH]; intros j; simpl.
        - destruct needle; [simpl; lia|done].
        - destruct (starts_bytes needle (y :: l)) eqn:Hs.
          + intros _. by apply starts_bytes_iff, prefix_length in Hs.
          + destruct (find_window l needle) as [j'|]; [|done]. intros _.
            pose proof (IH j' eq_refl). simpl. lia. }
      by rewrite Hs', (IH j eq_refl).
Qed.

Lemma find_window_app_inv l k needle i :
  find_window (l ++ k) needle = Some i -> (i + length needle <= length l)%nat ->
  find_window l needle = Some i.
Proof.
  revert i. induction l as [|x l IH]; intros i Hf Hi.
  - simpl in *. destruct needle; [|simpl in Hi; lia]. by destruct k; simpl in *; simplify_eq/=; try lia.
  - simpl in *. destruct (starts_bytes needle (x :: l ++ k)) eqn:Hs.
    + injection Hf as <-. rewrite <- (starts_bytes_app _ (x :: l) k) by (simpl; lia). simpl.
      by rewrite Hs.
    + destruct (find_window (l ++ k) needle) as [j|]; [|done]. injection Hf as <-.
      rewrite (IH j) by (done || lia).
      assert (starts_bytes needle (x :: l) = false) as ->; [|done].
      rewrite <- Hs. symmetry. apply (starts_bytes_app _ (x :: l)). simpl. lia.
Qed.

Lemma find_window_bound l needle i :
  find_window l needle = Some i -> (i + length needle <= length l)%nat.
Proof.
  revert i. induction l as [|x l IH]; intros i; simpl.
  - destruct needle; [intros [= <-]; simpl; lia|done].
  - destruct (starts_bytes needle (x :: l)) eqn:Hs.
    + intros [= <-]. by apply starts_bytes_iff, prefix_length in Hs.
    + destruct (find_window l needle) as [j|]; [|done]. intros [= <-].
      pose proof (IH j eq_refl). lia.
Qed.

Lemma find_window_here l needle i :
  find_window l needle = Some i -> needle `prefix_of` drop i l.
Proof.
  revert i. induction l as [|x l IH]; intros i; simpl.
  - destruct needle; [intros _; apply prefix_nil|done].
  - destruct (starts_bytes needle (x :: l)) eqn:Hs.
    + intros [= <-]. by apply starts_bytes_iff in Hs.
    + destruct (find_window l needle) as [j|]; [|done]. intros [= <-]. by apply IH.
Qed.

(** ** Lines *)

(** Lines put back together. *)
Fixpoint join {A} (sep : list A) (lines : list (list A)) : list A :=
  match lines with
  | [] => []
  | [line] => line
  | line :: lines => line ++ sep ++ join sep lines
  end.

Lemma join_cons {A} (sep : list A) line lines :
  lines <> [] -> join sep (line :: lines) = line ++ sep ++ join sep lines.
Proof. by destruct lines. Qed.

(** Two empty lines at the end are two separators. *)
Lemma join_blank {A} (sep : list A) lines :
  lines <> [] -> join sep (lines ++ [[]; []]) = join sep lines ++ sep ++ sep.
Proof.
  induction lines as [|line lines IH]; [done|]. intros _. destruct lines as [|line' lines].
  - simpl. by rewrite app_nil_r.
  - rewrite <- app_comm_cons, !join_cons by (by destruct lines). rewrite IH by done.
    by rewrite <- !(assoc_L (++)).
Qed.

Lemma map_join {A B} (f : A -> B) sep lines :
  map f (join sep lines) = join (map f sep) (map (map f) lines).
Proof.
  induction lines as [|line lines IH]; [done|]. destruct lines as [|line' lines]; [done|].
  rewrite join_cons by done. change (map (map f) (line :: line' :: lines)) with
    (map f line :: map (map f) (line' :: lines)). rewrite (join_cons (map f sep)) by done.
  by rewrite !map_app, IH.
Qed.

Lemma split_crlf_end line : 13%N ∉ line -> split_crlf line = [line].
Proof.
  induction line as [|c line IH]; [done|]. rewrite not_elem_of_cons. intros [Hc Hl].
  specialize (IH Hl). simpl. destruct line as [|d line]; [done|].
  rewrite (proj2 (N.eqb_neq _ _)) by done. by rewrite IH.
Qed.

Lemma split_crlf_line line rest :
  13%N ∉ line -> split_crlf (line ++ [13; 10]%N ++ rest) = line :: split_crlf rest.
Proof.
  induction line as [|c line IH]; [done|]. rewrite not_elem_of_cons. intros [Hc Hl].
  specialize (IH Hl). destruct line as [|d line]; simpl in *.
  - rewrite (proj2 (N.eqb_neq _ _)) by done. done.
  - rewrite (proj2 (N.eqb_neq c 13)) by done. by rewrite IH.
Qed.

Lemma split_crlf_join lines :
  lines <> [] -> Forall (fun line => 13%N ∉ line) lines ->
  split_crlf (join [13; 10]%N lines) = lines.
Proof.
  intros Hne Hl. induction Hl as [|line lines Hline Hl IH]; [done|].
  destruct lines as [|line' lines]; [by apply split_crlf_end|].
  rewrite join_cons, split_crlf_line by done. by rewrite IH.
Qed.

(** The blank line after non-empty lines is the first one. *)
Notation CRLF := [x0d; x0a].

Lemma find_window_skip line k needle :
  x0d ∉ line -> find_window (line ++ k) (x0d :: needle) =
    (fun i => length line + i)%nat <$> find_window k (x0d :: needle).
Proof.
  induction line as [|x line IH]; rewrite ?not_elem_of_cons.
  - intros _. simpl. by destruct (find_window k _).
  - intros [Hx Hl]. simpl. destruct (Byte.eqb x0d x) eqn:He; [by apply byte_eqb_spec in He as <-|].
    simpl. rewrite (IH Hl). by destruct (find_window k _).
Qed.

Lemma find_blank_line lines rest :
  lines <> [] -> Forall (fun line => x0d ∉ line /\ line <> []) lines ->
  find_window (join CRLF lines ++ CRLF ++ CRLF ++ rest) [x0d; x0a; x0d; x0a] =
    Some (length (join CRLF lines)).
Proof.
  intros Hne Hl. induction Hl as [|line lines [Hline Hn] Hl IH]; [done|].
  destruct lines as [|line' lines].
  - simpl join. rewrite (find_window_skip line _ _ Hline). simpl. f_equal. lia.
  - rewrite join_cons, <- !(assoc_L (++)) by done. rewrite (find_window_skip line _ _ Hline).
    apply Forall_cons_1 in Hl as [[Hline' Hn'] _].
    destruct line' as [|y line']; [done|]. rewrite not_elem_of_cons in Hline'.
    assert (exists k, join CRLF ((y :: line') :: lines) = y :: k) as [k Hk]
      by (destruct lines; by eexists).
    specialize (IH ltac:(done)). rewrite Hk in *. rewrite <- !app_comm_cons in *.
    simpl app in *. destruct (Byte.eqb x0d y) eqn:Hy; [apply byte_eqb_spec in Hy; naive_solver|].
    cbn [find_window starts_bytes] in IH |- *. rewrite Hy in *. simpl in IH |- *.
    destruct (find_window (k ++ _) _) as [i|]; [|done]. simpl in *. injection IH as IH.
    f_equal. rewrite length_app. simpl. lia.
Qed.

(** ** ASCII *)

Definition is_ascii (b : byte) : Prop := (Byte.to_N b < 128)%N.

Lemma from_utf8_ascii l : Forall is_ascii l -> from_utf8 l = Some (map Byte.to_N l).
Proof.
  intros Hl. induction Hl as [|b l Hb Hl IH]; [done|]. simpl.
  by rewrite (proj2 (N.ltb_lt _ _) Hb), IH.
Qed.

(** ASCII characters are their own bytes. *)
Lemma text_of_ascii l : Forall is_ascii l -> text_of (map Byte.to_N l) = String.string_of_list_byte l.
Proof.
  intros Hl. unfold text_of. f_equal. induction Hl as [|b l Hb Hl IH]; [done|].
  simpl. rewrite omap_app. unfold encode_char at 1. rewrite (proj2 (N.ltb_lt _ _) Hb).
  simpl. rewrite Byte.of_to_N. simpl. by f_equal.
Qed.

Lemma bytes_of_text s : String.string_of_list_byte (bytes_of s) = s.
Proof. apply String.string_of_list_byte_of_string. Qed.

Lemma ascii_bytes_back (s : str) :
  Forall (fun c => (c < 128)%N) s -> map Byte.to_N (omap Byte.of_N s) = s.
Proof.
  intros Hs. induction Hs as [|c s Hc Hs IH]; [done|]. csimpl.
  destruct (Byte.of_N c) as [b|] eqn:Hb.
  - simpl. rewrite IH. f_equal. by apply Byte.to_of_N.
  - apply Byte.of_N_None_iff in Hb. lia.
Qed.

(** ** Words and edges *)

(** A visible ASCII character: neither white space nor a control character. *)
Definition visible (c : char) : Prop := (32 < c < 127)%N.

Lemma visible_not_space c : visible c -> is_whitespace c = false.
Proof.
  unfold visible, is_whitespace. intros Hc.
  repeat match goal with
         | |- context [(?a <=? ?b)%N] => destruct (N.leb_spec a b); try lia
         | |- context [(?a =? ?b)%N] => destruct (N.eqb_spec a b); try lia
         end; done.
Qed.

Lemma words_one w : w <> [] -> Forall visible w -> words w = [w].
Proof.
  intros Hne Hw. induction Hw as [|c w Hc Hw IH]; [done|]. simpl.
  rewrite (visible_not_space c Hc). destruct Hw as [|d w Hd Hw]; [done|].
  rewrite (visible_not_space d Hd). by rewrite IH.
Qed.

Lemma words_cons w rest :
  w <> [] -> Forall visible w -> words (w ++ 32%N :: rest) = w :: words rest.
Proof.
  intros Hne Hw. induction Hw as [|c w Hc Hw IH]; [done|].
  destruct Hw as [|d w Hd Hw].
  - cbn [app words]. by rewrite (visible_not_space c Hc).
  - specialize (IH ltac:(done)). cbn [app words] in *.
    rewrite (visible_not_space c Hc), (visible_not_space d Hd) in *. by rewrite IH.
Qed.

(** Text that starts and ends visibly, with spaces in front, is what [trim] leaves. *)
Lemma trim_edges c s d s' :
  visible c -> visible d -> c :: s = s' ++ [d] -> trim (c :: s) = c :: s.
Proof.
  intros Hc Hd Heq. unfold trim. simpl trim_start. rewrite (visible_not_space c Hc), Heq.
  rewrite rev_app_distr. simpl. rewrite (visible_not_space d Hd). simpl. by rewrite rev_involutive.
Qed.

Lemma trim_visible s : s <> [] -> Forall visible s -> trim s = s.
Proof.
  intros Hne Hs. destruct s as [|c s]; [done|]. clear Hne.
  destruct (exists_last (l := c :: s)) as (s' & d & Heq); [done|].
  assert (Forall visible (s' ++ [d])) as Hd by by rewrite <- Heq.
  apply Forall_app in Hd as [_ Hd%Forall_inv]. apply Forall_cons_1 in Hs as [Hc _].
  by apply (trim_edges c s d s').
Qed.

Lemma trim_space s : trim (32%N :: s) = trim s.
Proof. done. Qed.

(** ** Numbers *)

Lemma digit_visible u : Forall visible (uint_text u).
Proof. induction u; constructor; (done || unfold visible; lia). Qed.

Lemma uint_text_back u : text_uint (uint_text u) = Some u.
Proof. induction u as [|u IH|u IH|u IH|u IH|u IH|u IH|u IH|u IH|u IH|u IH]; simpl; by rewrite ?IH. Qed.

Lemma decimal_visible n : Forall visible (decimal n).
Proof. apply digit_visible. Qed.

Lemma decimal_not_nil n : decimal n <> [].
Proof.
  unfold decimal. intros Hn. assert (N.to_uint n = Decimal.Nil) as Hu
    by (destruct (N.to_uint n); done).
  destruct n as [|p]; [done|]. simpl in Hu. by apply DecimalPos.Unsigned.to_uint_nonnil in Hu.
Qed.

Lemma parse_decimal max n : (n <= max)%N -> parse_unsigned max (decimal n) = Some n.
Proof.
  intros Hn. unfold parse_unsigned, decimal.
  pose proof (uint_text_back (N.to_uint n)) as Hback. pose proof (decimal_not_nil n) as Hne.
  unfold decimal in Hne. destruct (uint_text (N.to_uint n)) as [|c s] eqn:Ht; [done|].
  assert ((c =? 43)%N = false) as ->.
  { apply N.eqb_neq. intros ->. destruct (N.to_uint n); simpl in Ht; congruence. }
  rewrite Hback. simpl. rewrite DecimalN.Unsigned.of_to. by rewrite (proj2 (N.leb_le _ _) Hn).
Qed.
