(* ===== verification/Http.v ===== *)
(** * The HTTP projection of the sync protocol

    Models the status and body each answer of the endpoint is sent as, and what
    [HttpSyncClient] makes of them
    ([crates/verlet-kernel/src/daemon/remote_store/endpoint_http.rs]).  A body is
    the value serde encodes; decoding a body of another shape fails.  Sockets
    and timeouts are left out.  The reading of requests off a connection and the
    writing of responses follow. *)

From stdpp Require Import base gmap sets list strings pretty.
From Stdlib Require Import NArith ZArith Lia Strings.Byte.
From S2P Require Import Prelude Json EventKind EventSchemas Contracts Records Store EventLog Lease Ingress Queue Endpoint Propagator Text.

Local Open Scope verlet_scope.
Local Open Scope string_scope.
Local Open Scope list_scope.

Definition SYNC_LEASE_RENEWAL_SCHEMA_V1 : string := "cooldis.stream.sync_lease_renewal/1".

Inductive HttpBody : Type :=
  | OutcomeBody (outcome : SyncPushOutcome)
  | PullBody (schema : string) (records : list StreamRecordEnvelopeV1)
  | RenewalBody (schema : string) (grant : option StreamLeaseGrantV1)
  | AcknowledgedBody (acknowledged : bool)
  | ErrorBody (error : string).

Record HttpResponse : Type := mk_response { status : Z; body : HttpBody }.

(** [push_status]. *)
Definition push_status (outcome : SyncPushOutcome) : Z :=
  match outcome with
  | Accepted _ => 200
  | Rejected rejection =>
      match rejection_reason rejection with
      | CredentialUnknown | ScopeViolation _ | CredentialLeaseMismatch _ => 403
      | RequestInvalid _ => 400
      | ReasonLeaseFence _ | ReasonSequenceFence _ => 409
      end
  end.

(** The arms of [handle_connection], from the answer of the endpoint on. *)
Definition serve_push (answer : VerletResult SyncPushOutcome) : HttpResponse :=
  match answer with
  | Ok outcome => mk_response (push_status outcome) (OutcomeBody outcome)
  | Err _ => mk_response 503 (ErrorBody "endpoint_unavailable")
  end.

Definition serve_pull (answer : VerletResult (list StreamRecordEnvelopeV1)) : HttpResponse :=
  match answer with
  | Ok records => mk_response 200 (PullBody SYNC_PULL_SCHEMA_V1 records)
  | Err (HistoryText message) =>
      if String.eqb message NOT_AUTHORIZED then mk_response 403 (ErrorBody "not_authorized")
      else mk_response 409 (ErrorBody "cursor_conflict")
  | Err _ => mk_response 409 (ErrorBody "cursor_conflict")
  end.

Definition serve_renew (answer : VerletResult (option StreamLeaseGrantV1)) : HttpResponse :=
  match answer with
  | Ok grant =>
      mk_response (match grant with Some _ => 200 | None => 403 end)
        (RenewalBody SYNC_LEASE_RENEWAL_SCHEMA_V1 grant)
  | Err _ => mk_response 503 (ErrorBody "endpoint_unavailable")
  end.

Definition serve_acknowledge (answer : VerletResult unit) : HttpResponse :=
  match answer with
  | Ok _ => mk_response 200 (AcknowledgedBody true)
  | Err (HistoryText message) =>
      if String.eqb message NOT_AUTHORIZED then mk_response 403 (ErrorBody "not_authorized")
      else mk_response 503 (ErrorBody "endpoint_unavailable")
  | Err _ => mk_response 503 (ErrorBody "endpoint_unavailable")
  end.

(** [transport_error]. *)
Definition transport_error (operation : string) : GateError :=
  GateOther ("sync endpoint " +:+ operation +:+ " failed").

(** [StatusCode::is_success]. *)
Definition is_success (status : Z) : bool := (200 <=? status)%Z && (status <? 300)%Z.

(** [SyncPushGate for HttpSyncClient], from the response on. *)
Definition client_push (request : SyncPushRequestV1) (r : HttpResponse) :
    result SyncPushOutcome GateError :=
  match body r with
  | OutcomeBody outcome =>
      if negb (status r =? push_status outcome)%Z || negb (matches_request outcome request)
      then Err (transport_error "push response validation")
      else Ok outcome
  | _ => Err (transport_error "response decode")
  end.

(** [SyncPullSource for HttpSyncClient]. *)
Definition client_pull (r : HttpResponse) : result (list StreamRecordEnvelopeV1) GateError :=
  if (status r =? 403)%Z then Err (GateHistory (HistoryText NOT_AUTHORIZED))
  else if negb (is_success (status r))
  then if (status r =? 409)%Z then Err (GateHistory (HistoryText "sync pull cursor conflict"))
       else Err (transport_error "pull")
  else
    match body r with
    | PullBody schema records =>
        if negb (String.eqb schema SYNC_PULL_SCHEMA_V1) then Err (transport_error "pull schema")
        else Ok records
    | _ => Err (transport_error "response decode")
    end.

(** [SyncLeaseRenewer for HttpSyncClient]. *)
Definition client_renew (r : HttpResponse) : result (option StreamLeaseGrantV1) GateError :=
  if (status r =? 403)%Z then Ok None
  else if negb (is_success (status r)) then Err (transport_error "lease renewal")
  else
    match body r with
    | RenewalBody schema grant =>
        if negb (String.eqb schema SYNC_LEASE_RENEWAL_SCHEMA_V1)
        then Err (transport_error "lease renewal schema")
        else Ok grant
    | _ => Err (transport_error "response decode")
    end.

(** [SyncIngressQueueAcknowledger for HttpSyncClient]. *)
Definition client_acknowledge (r : HttpResponse) : result unit GateError :=
  if (status r =? 403)%Z then Err (GateHistory (HistoryText NOT_AUTHORIZED))
  else if negb (is_success (status r)) then Err (transport_error "ingress acknowledgement")
  else
    match body r with
    | AcknowledgedBody true => Ok tt
    | AcknowledgedBody false | ErrorBody _ =>
        Err (transport_error "ingress acknowledgement response")
    | _ => Err (transport_error "ingress acknowledgement response")
    end.

(** ** The projection loses nothing a propagator acts on *)

Lemma push_over_http request answer :
  client_push request (serve_push answer) =
    match answer with
    | Ok outcome => if matches_request outcome request then Ok outcome
                    else Err (transport_error "push response validation")
    | Err _ => Err (transport_error "response decode")
    end.
Proof.
  destruct answer as [outcome|e]; [|done]. unfold client_push, serve_push. cbn [body status].
  rewrite Z.eqb_refl. simpl. by destruct (matches_request outcome request).
Qed.

Lemma pull_over_http answer :
  client_pull (serve_pull answer) =
    match answer with
    | Ok records => Ok records
    | Err (HistoryText message) =>
        Err (GateHistory (HistoryText (if String.eqb message NOT_AUTHORIZED then NOT_AUTHORIZED
                                       else "sync pull cursor conflict")))
    | Err _ => Err (GateHistory (HistoryText "sync pull cursor conflict"))
    end.
Proof. destruct answer as [records|[]]; try done. simpl. by destruct (String.eqb _ _). Qed.

Lemma renew_over_http answer :
  client_renew (serve_renew answer) =
    match answer with Ok grant => Ok grant | Err _ => Err (transport_error "lease renewal") end.
Proof. by destruct answer as [[grant|]|e]. Qed.

(** * The HTTP surface of the endpoint

    Models [crates/verlet-kernel/src/daemon/remote_store/endpoint_http.rs] below
    the typed answers above: reading a request off a connection, routing it,
    writing the response, and the two ends of the Unix-socket client.  A connection
    is the list of chunks that arrive and what follows them; a read takes at most
    as many bytes as its buffer holds.  The JSON of a body is a parameter
    ([BodyCodec]). *)

Definition MAX_HEADER_BYTES : N := 65536.
Definition MAX_HEADER_COUNT : nat := 128.
Definition MAX_BODY_BYTES : N := 8388608.
Definition PUSH_PATH : string := "/v1/sync/push".
Definition PULL_PATH : string := "/v1/sync/pull".
Definition RENEW_PATH : string := "/v1/sync/renew".
Definition INGRESS_ACK_PATH : string := "/v1/sync/ingress/ack".

Definition CRLF2 : bytes := [x0d; x0a; x0d; x0a].

(** ** Connections *)

(** What follows the bytes that arrive. *)
Inductive ConnectionEnd : Type := PeerClosed | ReadFails.

Record Connection : Type := mk_connection {
  chunks : list bytes;
  ending : ConnectionEnd;
}.

(** [AsyncReadExt::read] into a buffer of [capacity] bytes: no bytes at the end of the stream. *)
Fixpoint read_chunks (capacity : nat) (arrived : list bytes) : bytes * list bytes :=
  match arrived with
  | [] => ([], [])
  | [] :: rest => read_chunks capacity rest
  | chunk :: rest =>
      (take capacity chunk,
       match drop capacity chunk with [] => rest | left_over => left_over :: rest end)
  end.

Definition read (capacity : nat) (c : Connection) : result (bytes * Connection) unit :=
  let (got, rest) := read_chunks capacity (chunks c) in
  match got, ending c with
  | [], ReadFails => Err tt
  | _, _ => Ok (got, mk_connection rest (ending c))
  end.

(** A bound on the reads that yield something. *)
Definition reads_left (c : Connection) : nat := length (concat (chunks c)).

(** ** Requests *)

Record HttpRequest : Type := mk_request {
  method : str;
  path : str;
  headers : list (str * str);
  request_body : bytes;
}.

(** [HttpRequest::bearer_token]. *)
Definition bearer_token (r : HttpRequest) : option str :=
  header ← snd <$> list_find (fun h : str * str => eq_ignore_ascii_case h.1 (lit "authorization") = true)
                     (headers r);
  token ← strip_str_prefix (lit "Bearer ") header.2;
  match token with [] => None | _ => Some token end.

(** The texts of [protocol_error]. *)
Notation Parsed A := (result A string).

(** The loop of [read_request] that looks for the end of the headers. *)
Fixpoint read_head (fuel : nat) (buffered : bytes) (c : Connection) :
    Parsed (nat * bytes * Connection) :=
  match find_window buffered CRLF2 with
  | Some index => Ok (index + 4, buffered, c)%nat
  | None =>
      if (MAX_HEADER_BYTES <=? N.of_nat (length buffered))%N
      then Err "sync request headers exceed limit"
      else
        match read 4096 c, fuel with
        | Err _, _ => Err "failed to read sync request"
        | Ok ([], _), _ => Err "sync request ended before headers"
        | Ok (got, c), S fuel => read_head fuel (buffered ++ got) c
        | Ok _, O => Err "out of fuel"
        end
  end.

(** The loop of [read_request] that completes the body. *)
Fixpoint read_body (fuel : nat) (required : nat) (buffered : bytes) (c : Connection) :
    Parsed bytes :=
  if (length buffered <? required)%nat
  then
    match read 8192 c, fuel with
    | Err _, _ => Err "failed to read sync request body"
    | Ok ([], _), _ => Err "sync request body ended early"
    | Ok (got, c), S fuel => read_body fuel required (buffered ++ got) c
    | Ok _, O => Err "out of fuel"
    end
  else Ok buffered.

(** The characters of a header name. *)
Definition is_name_char (c : char) : bool :=
  is_ascii_alphanumeric c || existsb (N.eqb c) (lit "!#$%&'*+-.^_`|~").

(** The body of the loop over the header lines. *)
Fixpoint parse_headers (parsed : list (str * str)) (lines : list str) :
    Parsed (list (str * str)) :=
  match lines with
  | [] => Ok parsed
  | line :: lines =>
      if (MAX_HEADER_COUNT <=? length parsed)%nat
      then Err "sync request has too many headers"
      else
        parts <-? ok_or (split_once 58%N line) "sync request header is malformed" ;;
        let (name, value) := parts in
        if match name with [] => true | _ => false end || negb (str_eqb name (trim name)) ||
           negb (forallb is_name_char name)
        then Err "sync request header name is invalid"
        else parse_headers (parsed ++ [(name, trim value)]) lines
  end.

Definition has_name (name : string) (h : str * str) : bool := eq_ignore_ascii_case h.1 (lit name).

(** The request line. *)
Definition parse_request_line (line : str) : Parsed (str * str) :=
  match words line with
  | [] => Err "sync request method is missing"
  | [_] => Err "sync request path is missing"
  | method :: path :: rest =>
      match rest with
      | [version] =>
          if str_eqb version (lit "HTTP/1.1") then Ok (method, path)
          else Err "sync endpoint requires HTTP/1.1"
      | _ => Err "sync endpoint requires HTTP/1.1"
      end
  end.

(** The length the headers announce. *)
Definition announced_length (headers : list (str * str)) : Parsed N :=
  if existsb (has_name "transfer-encoding") headers
  then Err "chunked sync requests are not supported"
  else
    let content_lengths := map snd (List.filter (has_name "content-length") headers) in
    if (1 <? length content_lengths)%nat
    then Err "sync request has duplicate content-length headers"
    else if (1 <? length (List.filter (has_name "authorization") headers))%nat
    then Err "sync request has duplicate authorization headers"
    else
      content_length <-? match head content_lengths with
                         | Some value => ok_or (parse_unsigned usize_max value)
                                           "sync request content-length is invalid"
                         | None => Ok 0%N
                         end ;;
      if (MAX_BODY_BYTES <? content_length)%N then Err "sync request body exceeds limit"
      else Ok content_length.

(** The head of a request: its line, its headers and the length of its body. *)
Definition parse_head (head_bytes : bytes) : Parsed (str * str * list (str * str) * N) :=
  text <-? ok_or (from_utf8 head_bytes) "sync request headers are not UTF-8" ;;
  match split_crlf text with
  | [] => Err "sync request line is missing"
  | request_line :: lines =>
      line <-? parse_request_line request_line ;;
      headers <-? parse_headers [] lines ;;
      content_length <-? announced_length headers ;;
      Ok (line.1, line.2, headers, content_length)
  end.

(** [read_request]. *)
Definition read_request (c : Connection) : Parsed HttpRequest :=
  read <-? read_head (reads_left c) [] c ;;
  let '(header_end, buffered, c) := read in
  if (MAX_HEADER_BYTES <? N.of_nat header_end)%N then Err "sync request headers exceed limit"
  else
    parsed <-? parse_head (take (header_end - 4) buffered) ;;
    let '(method, path, headers, content_length) := parsed in
    let required := (N.of_nat header_end + content_length)%N in
    if (usize_max <? required)%N then Err "sync request size overflow"
    else
      let required := N.to_nat required in
      buffered <-? read_body (reads_left c) required buffered c ;;
      Ok (mk_request method path headers (take (required - header_end) (drop header_end buffered))).

(** ** Responses *)

(** The reason phrase of [write_json]. *)
Definition reason_phrase (status : N) : string :=
  match status with
  | 200%N => "OK"
  | 400%N => "Bad Request"
  | 403%N => "Forbidden"
  | 404%N => "Not Found"
  | 405%N => "Method Not Allowed"
  | 409%N => "Conflict"
  | 503%N => "Service Unavailable"
  | _ => "Error"
  end.

(** ASCII text as bytes. *)
Definition ascii_bytes (s : str) : bytes := omap Byte.of_N s.

(** [write_json], from the encoded body on. *)
Definition write_json (status : N) (body : bytes) : bytes :=
  bytes_of "HTTP/1.1 " ++ ascii_bytes (decimal status) ++ bytes_of " " ++
  bytes_of (reason_phrase status) ++ [x0d; x0a] ++
  bytes_of "Content-Type: application/json" ++ [x0d; x0a] ++
  bytes_of "Content-Length: " ++ ascii_bytes (decimal (N.of_nat (length body))) ++ [x0d; x0a] ++
  bytes_of "Connection: close" ++ CRLF2 ++ body.

(** ** The Unix-socket client *)

(** What [send_unix_request] writes. *)
Definition unix_request (path token : string) (body : bytes) : bytes :=
  bytes_of "POST " ++ bytes_of path ++ bytes_of " HTTP/1.1" ++ [x0d; x0a] ++
  bytes_of "Host: localhost" ++ [x0d; x0a] ++
  bytes_of "Authorization: Bearer " ++ bytes_of token ++ [x0d; x0a] ++
  bytes_of "Content-Type: application/json" ++ [x0d; x0a] ++
  bytes_of "Content-Length: " ++ ascii_bytes (decimal (N.of_nat (length body))) ++ [x0d; x0a] ++
  bytes_of "Connection: close" ++ CRLF2 ++ body.

(** The status of a response line: [StatusCode::from_u16] takes 100 to 999. *)
Definition response_status (line : str) : option N :=
  word ← words line !! 1%nat;
  status ← parse_unsigned u16_max word;
  if (100 <=? status)%N && (status <? 1000)%N then Some status else None.

(** [decode_unix_response]. *)
Definition decode_unix_response (response : bytes) : result (N * bytes) GateError :=
  index <-? ok_or (find_window response CRLF2) (transport_error "response headers") ;;
  let header_end := (index + 4)%nat in
  text <-? ok_or (from_utf8 (take header_end response)) (transport_error "response headers") ;;
  let lines := split_crlf text in
  status <-? ok_or (line ← head lines; response_status line) (transport_error "response status") ;;
  content_length <-?
    ok_or (header ← snd <$> list_find (fun h => has_name "content-length" h = true)
                              (omap (split_once 58%N) (tail lines));
           parse_unsigned usize_max (trim header.2))
      (transport_error "response content length") ;;
  let required := (N.of_nat header_end + content_length)%N in
  if (usize_max <? required)%N then Err (transport_error "response size")
  else if negb (N.of_nat (length response) =? required)%N
  then Err (transport_error "response body")
  else Ok (status, drop header_end response).

(** ** Routing *)

Record SyncPullRequestV1 : Type := mk_pull {
  pull_schema : string;
  pull_stream_id : EventStreamId;
  pull_cursor : option StreamCursorV1;
}.

(** [serde_json] on the bodies: requests both ways, responses to bytes and back.  Each direction
    has the values it carries faithfully - a double, for one, may not survive its text. *)
Class BodyCodec := {
  faithful_push : SyncPushRequestV1 -> Prop;
  encode_push : SyncPushRequestV1 -> bytes;
  decode_push : bytes -> option SyncPushRequestV1;
  decode_encode_push r : faithful_push r -> decode_push (encode_push r) = Some r;
  faithful_pull : SyncPullRequestV1 -> Prop;
  encode_pull : SyncPullRequestV1 -> bytes;
  decode_pull : bytes -> option SyncPullRequestV1;
  decode_encode_pull r : faithful_pull r -> decode_pull (encode_pull r) = Some r;
  faithful_ack : SyncIngressQueueAckRequestV1 -> Prop;
  encode_ack : SyncIngressQueueAckRequestV1 -> bytes;
  decode_ack : bytes -> option SyncIngressQueueAckRequestV1;
  decode_encode_ack r : faithful_ack r -> decode_ack (encode_ack r) = Some r;
  faithful_body : HttpBody -> Prop;
  encode_body : HttpBody -> bytes;
  decode_body : bytes -> option HttpBody;
  decode_encode_body b : faithful_body b -> decode_body (encode_body b) = Some b;
}.

(** What [HttpSyncClient] sends for each of its calls: the path and the encoded body. *)
Inductive ClientCall : Type :=
  | CallPush (request : SyncPushRequestV1)
  | CallPull (stream : EventStreamId) (cursor : option StreamCursorV1)
  | CallRenew
  | CallAcknowledge (request : SyncIngressQueueAckRequestV1).

Definition call_path (call : ClientCall) : string :=
  match call with
  | CallPush _ => PUSH_PATH
  | CallPull _ _ => PULL_PATH
  | CallRenew => RENEW_PATH
  | CallAcknowledge _ => INGRESS_ACK_PATH
  end.

Definition call_body `{BodyCodec} (call : ClientCall) : bytes :=
  match call with
  | CallPush request => encode_push request
  | CallPull stream cursor => encode_pull (mk_pull SYNC_PULL_SCHEMA_V1 stream cursor)
  | CallRenew => bytes_of "{}"
  | CallAcknowledge request => encode_ack request
  end.

Section Routing.
Context `{UuidParse} `{EntryCodec} `{BodyCodec} {S : Type} `{EventStore S}.
Context (token_digest : string -> string) (lease_ttl_ms : Z).
Context (rejection_fingerprint : SyncPushRequestV1 -> SyncPushRejectionReason -> string).

Definition invalid_request : HttpResponse := mk_response 400 (ErrorBody "invalid_request").

(** [handle_connection]; the times are those the endpoint's calls would read. *)
Definition handle_connection (now_ms reject_now_ms : Z) (c : Connection) (ep : Endpoint S) :
    Endpoint S * HttpResponse :=
  match read_request c with
  | Err _ => (ep, invalid_request)
  | Ok request =>
      if negb (str_eqb (method request) (lit "POST"))
      then (ep, mk_response 405 (ErrorBody "method_not_allowed"))
      else
        let bearer := text_of (default [] (bearer_token request)) in
        let is_path p := str_eqb (path request) (lit p) in
        if is_path PUSH_PATH then
          match decode_push (request_body request) with
          | None => (ep, invalid_request)
          | Some push_request =>
              let (ep, answer) := push token_digest rejection_fingerprint now_ms reject_now_ms
                                    bearer push_request ep in
              (ep, serve_push answer)
          end
        else if is_path PULL_PATH then
          match decode_pull (request_body request) with
          | Some pull =>
              if String.eqb (pull_schema pull) SYNC_PULL_SCHEMA_V1
              then (ep, serve_pull (pull_after token_digest ep bearer (pull_stream_id pull)
                                      (pull_cursor pull)))
              else (ep, invalid_request)
          | None => (ep, invalid_request)
          end
        else if is_path RENEW_PATH then
          let (ep, answer) := endpoint_renew_lease token_digest lease_ttl_ms now_ms bearer ep in
          (ep, serve_renew answer)
        else if is_path INGRESS_ACK_PATH then
          match decode_ack (request_body request) with
          | Some ack =>
              if String.eqb (queue_ack_schema ack) SYNC_INGRESS_QUEUE_ACK_SCHEMA_V1
              then
                let (ep, answer) := acknowledge_ingress token_digest now_ms bearer ack ep in
                (ep, serve_acknowledge answer)
              else (ep, invalid_request)
          | None => (ep, invalid_request)
          end
        else (ep, mk_response 404 (ErrorBody "not_found"))
  end.

(** The bytes a connection is answered with. *)
Definition response_bytes (r : HttpResponse) : bytes :=
  write_json (Z.to_N (status r)) (encode_body (body r)).

(** What a call of the client makes of the bytes it gets back, before it looks at them. *)
Definition receive (response : bytes) : result HttpResponse GateError :=
  decoded <-? decode_unix_response response ;;
  body <-? ok_or (decode_body decoded.2) (transport_error "response decode") ;;
  Ok (mk_response (Z.of_N decoded.1) body).
End Routing.
