(* ===== verification/HttpFacts.v ===== *)
(** * What a connection carries

    How a request is cut into chunks does not matter; the bounds and the framing
    of what is accepted; and the bytes of the Unix-socket client through the
    server's reader, its routes and back. *)

From stdpp Require Import base gmap sets list strings pretty.
From Stdlib Require Import NArith ZArith Lia Strings.Byte.
From S2P Require Import Prelude Json EventKind EventSchemas Contracts Records Store EventLog Lease Ingress Queue Endpoint Propagator Text.
From S2P Require Import Http.

Local Open Scope verlet_scope.
Local Open Scope string_scope.
Local Open Scope list_scope.

(** ** The reference reader *)

(** What the end of a connection is reported as. *)
Definition cut_short (broken closed : string) (e : ConnectionEnd) : string :=
  match e with ReadFails => broken | PeerClosed => closed end.

(** A request read off all the bytes that ever arrive. *)
Definition parse_request (all : bytes) (e : ConnectionEnd) : result HttpRequest string :=
  match find_window all CRLF2 with
  | None =>
      Err (if (MAX_HEADER_BYTES <=? N.of_nat (length all))%N then "sync request headers exceed limit"
           else cut_short "failed to read sync request" "sync request ended before headers" e)
  | Some index =>
      let header_end := (index + 4)%nat in
      if (MAX_HEADER_BYTES <? N.of_nat header_end)%N then Err "sync request headers exceed limit"
      else
        parsed <-? parse_head (take index all) ;;
        let '(method, path, headers, content_length) := parsed in
        let body := drop header_end all in
        if (N.of_nat (length body) <? content_length)%N
        then Err (cut_short "failed to read sync request body" "sync request body ended early" e)
        else Ok (mk_request method path headers (take (N.to_nat content_length) body))
  end.

(** ** Reads *)

Lemma read_chunks_concat capacity l got rest :
  read_chunks capacity l = (got, rest) -> concat l = got ++ concat rest.
Proof.
  revert got rest. induction l as [|chunk l IH]; intros got rest; simpl; [by intros [= <- <-]|].
  destruct chunk as [|b chunk]; [apply IH|]. intros [= <- <-].
  change (concat ((b :: chunk) :: l)) with ((b :: chunk) ++ concat l).
  pose proof (take_drop capacity (b :: chunk)) as Hcut.
  destruct (drop capacity (b :: chunk)) as [|x left_over]; rewrite <- Hcut at 1.
  - by rewrite app_nil_r.
  - by rewrite <- (assoc_L (++)).
Qed.

Lemma read_chunks_empty capacity l rest :
  (0 < capacity)%nat -> read_chunks capacity l = ([], rest) -> concat l = [].
Proof.
  intros Hc. revert rest. induction l as [|chunk l IH]; intros rest; simpl; [done|].
  destruct chunk as [|b chunk]; [apply IH|]. destruct capacity; [lia|]. by intros [=].
Qed.

(** A read yields what comes next, or the end when nothing does. *)
Lemma read_cases capacity c :
  (0 < capacity)%nat ->
  match read capacity c with
  | Ok ([], _) => concat (chunks c) = [] /\ ending c = PeerClosed
  | Ok (got, c') => concat (chunks c) = got ++ concat (chunks c') /\ ending c' = ending c
  | Err _ => concat (chunks c) = [] /\ ending c = ReadFails
  end.
Proof.
  intros Hcap. unfold read. destruct (read_chunks capacity (chunks c)) as [got rest] eqn:Hr.
  destruct got as [|b got].
  - apply read_chunks_empty in Hr; [|done]. by destruct (ending c).
  - by rewrite (read_chunks_concat _ _ _ _ Hr).
Qed.

(** Reading on for the headers ends where the reference reader finds them. *)
Lemma read_head_ok fuel buffered c :
  (reads_left c <= fuel)%nat ->
  let all := buffered ++ concat (chunks c) in
  match find_window all CRLF2 with
  | None => read_head fuel buffered c =
      Err (if (MAX_HEADER_BYTES <=? N.of_nat (length all))%N then "sync request headers exceed limit"
           else cut_short "failed to read sync request" "sync request ended before headers" (ending c))
  | Some index =>
      (exists buffered' c', read_head fuel buffered c = Ok ((index + 4)%nat, buffered', c') /\
         buffered' ++ concat (chunks c') = all /\ ending c' = ending c /\
         (index + 4 <= length buffered')%nat) \/
      ((MAX_HEADER_BYTES < N.of_nat (index + 4))%N /\
       read_head fuel buffered c = Err "sync request headers exceed limit")
  end.
Proof.
  revert buffered c. induction fuel as [|fuel IH]; intros buffered c Hfuel all;
    cbn [read_head]; unfold reads_left in Hfuel;
    destruct (find_window buffered CRLF2) as [i|] eqn:Hb.
  1,3: unfold all; rewrite (find_window_app _ _ _ _ Hb); left; exists buffered, c;
    split_and!; [done|done|done|by apply find_window_bound in Hb].
  all: assert (forall i, find_window all CRLF2 = Some i -> (length buffered < i + 4)%nat) as Hlate
    by (intros i Hi; destruct (decide (i + 4 <= length buffered)%nat); [|lia];
        pose proof (find_window_app_inv _ _ _ _ Hi); simpl in *; naive_solver).
  all: destruct (N.leb_spec MAX_HEADER_BYTES (N.of_nat (length buffered))) as [Hmax|Hmax];
    [destruct (find_window all CRLF2) as [i|] eqn:Hi;
       [right; specialize (Hlate i eq_refl); split; [lia|done]
       |unfold all; rewrite length_app; by rewrite (proj2 (N.leb_le _ _)) by lia]|].
  all: pose proof (read_cases 4096 c ltac:(lia)) as Hread;
    destruct (read 4096 c) as [[[|b got] c']|[]].
  1,3,4,6: destruct Hread as [Hnil ->]; unfold all in *; rewrite Hnil, app_nil_r in *;
    rewrite Hb, (proj2 (N.leb_gt _ _)) by done; done.
  - destruct Hread as [Hcat _]. rewrite Hcat in Hfuel. simpl in Hfuel. lia.
  - destruct Hread as [Hcat Hend]. specialize (IH (buffered ++ b :: got) c').
    cbn zeta in IH. rewrite <- (assoc_L (++)), <- Hcat, Hend in IH. apply IH.
    rewrite Hcat in Hfuel. simpl in Hfuel. rewrite length_app in Hfuel. unfold reads_left. lia.
Qed.

Lemma body_buffer : (0 < 8192)%nat.
Proof. apply Nat.ltb_lt. reflexivity. Qed.

Lemma read_body_ok fuel required buffered c :
  (reads_left c <= fuel)%nat ->
  let all := buffered ++ concat (chunks c) in
  if (length all <? required)%nat
  then read_body fuel required buffered c =
    Err (cut_short "failed to read sync request body" "sync request body ended early" (ending c))
  else exists buffered', read_body fuel required buffered c = Ok buffered' /\
    buffered' `prefix_of` all /\ (required <= length buffered')%nat.
Proof.
  revert buffered c. induction fuel as [|fuel IH]; intros buffered c Hfuel all;
    cbn [read_body]; unfold reads_left in Hfuel;
    (destruct (Nat.ltb_spec (length buffered) required) as [Hlt|Hge];
      [|unfold all; rewrite (proj2 (Nat.ltb_ge _ _)) by (rewrite length_app; lia);
        exists buffered; split_and!; [done|by apply prefix_app_r|done]]);
    pose proof (read_cases 8192 c body_buffer) as Hread;
    destruct (read 8192 c) as [[[|b got] c']|[]].
  1,3,4,6: destruct Hread as [Hnil ->]; unfold all in *; rewrite Hnil, app_nil_r in *;
    by rewrite (proj2 (Nat.ltb_lt _ _)).
  - destruct Hread as [Hcat _]. rewrite Hcat in Hfuel. simpl in Hfuel. lia.
  - destruct Hread as [Hcat Hend]. specialize (IH (buffered ++ b :: got) c').
    cbn zeta in IH. rewrite <- (assoc_L (++)), <- Hcat, Hend in IH. apply IH.
    rewrite Hcat in Hfuel. simpl in Hfuel. rewrite length_app in Hfuel. unfold reads_left. lia.
Qed.

(** ** What the head says *)

Lemma announced_length_ok headers n :
  announced_length headers = Ok n ->
  existsb (has_name "transfer-encoding") headers = false /\
  (length (List.filter (has_name "authorization") headers) <= 1)%nat /\
  (n <= MAX_BODY_BYTES)%N /\
  ((List.filter (has_name "content-length") headers = [] /\ n = 0%N) \/
   exists h, List.filter (has_name "content-length") headers = [h] /\
     parse_unsigned usize_max h.2 = Some n).
Proof.
  unfold announced_length. destruct (existsb _ headers); [done|].
  destruct (Nat.ltb_spec 1 (length (map snd (List.filter (has_name "content-length") headers))))
    as [|Hc]; [done|].
  destruct (Nat.ltb_spec 1 (length (List.filter (has_name "authorization") headers))); [done|].
  rewrite length_map in Hc.
  destruct (List.filter (has_name "content-length") headers) as [|h [|]]; simpl in *; [| |lia].
  - intros [= <-]. split_and!; try done. by left.
  - destruct (parse_unsigned usize_max h.2) as [m|] eqn:Hm; simpl; [|done].
    destruct (N.ltb_spec MAX_BODY_BYTES m); [done|]. intros [= <-].
    split_and!; try done. right. by exists h.
Qed.

Lemma parse_head_ok head_bytes method path headers n :
  parse_head head_bytes = Ok (method, path, headers, n) ->
  exists text line lines, from_utf8 head_bytes = Some text /\ split_crlf text = line :: lines /\
    parse_request_line line = Ok (method, path) /\ parse_headers [] lines = Ok headers /\
    announced_length headers = Ok n.
Proof.
  unfold parse_head. destruct (from_utf8 head_bytes) as [text|]; simpl; [|done].
  destruct (split_crlf text) as [|line lines] eqn:Hs; [done|].
  destruct (parse_request_line line) as [[m p]|] eqn:Hl; simpl; [|done].
  destruct (parse_headers [] lines) as [hs|] eqn:Hh; simpl; [|done].
  destruct (announced_length hs) as [k|] eqn:Hk; simpl; [|done]. intros [= <- <- <- <-].
  by exists text, line, lines.
Qed.

Lemma parse_headers_ok parsed lines headers :
  parse_headers parsed lines = Ok headers ->
  (length parsed <= MAX_HEADER_COUNT)%nat ->
  (length headers <= MAX_HEADER_COUNT)%nat /\
  exists more, headers = parsed ++ more /\ length more = length lines /\
    Forall (fun h : str * str => h.1 <> [] /\ forallb is_name_char h.1 = true) more.
Proof.
  revert parsed. induction lines as [|line lines IH]; intros parsed; cbn [parse_headers].
  - intros [= <-] Hp. split; [done|]. exists []. by rewrite app_nil_r.
  - destruct (Nat.leb_spec MAX_HEADER_COUNT (length parsed)) as [|Hlt]; [done|].
    destruct (split_once 58%N line) as [[name value]|]; simpl; [|done].
    destruct name as [|c name]; [done|].
    destruct (negb (str_eqb (c :: name) _)); [done|].
    destruct (forallb is_name_char (c :: name)) eqn:Hname; [|done].
    change (negb true) with false. cbn [orb].
    intros Hrun _. apply IH in Hrun as (Hlen & more & -> & Hmore & Hall);
      [|rewrite length_app; simpl; lia].
    split; [done|]. eexists (_ :: more). rewrite <- (assoc_L (++)). split_and!; [done|simpl; lia|].
    by constructor.
Qed.

(** No error of the head is the one of a spent bound. *)
Lemma parse_headers_err parsed lines e : parse_headers parsed lines = Err e -> e <> "out of fuel".
Proof.
  revert parsed. induction lines as [|line lines IH]; intros parsed; cbn [parse_headers]; [done|].
  destruct (_ <=? _)%nat; [by intros [= <-]|].
  destruct (split_once 58%N line) as [[name value]|]; cbn [ok_or result_bind]; [|by intros [= <-]].
  destruct (_ || _); [by intros [= <-]|]. apply IH.
Qed.

Lemma parse_head_err head_bytes e : parse_head head_bytes = Err e -> e <> "out of fuel".
Proof.
  unfold parse_head. destruct (from_utf8 head_bytes) as [text|]; cbn [ok_or result_bind]; [|by intros [= <-]].
  destruct (split_crlf text) as [|line lines]; [by intros [= <-]|].
  destruct (parse_request_line line) as [l|e1] eqn:Hl; cbn [result_bind].
  - destruct (parse_headers [] lines) as [hs|e2] eqn:Hh; cbn [result_bind];
      [|intros [= <-]; by eapply parse_headers_err].
    destruct (announced_length hs) as [n|e3] eqn:Hn; cbn [result_bind]; [done|]. intros [= <-].
    unfold announced_length in Hn. repeat case_match; simplify_eq; try done.
    destruct (head _); [|done]. destruct (parse_unsigned _ _); simpl in *; simplify_eq/=; try done.
    by destruct (_ <? _)%N; simplify_eq.
  - intros [= <-]. unfold parse_request_line in Hl. by repeat case_match; simplify_eq.
Qed.

(** ** Chunks *)

Lemma read_request_eq c :
  read_request c = parse_request (concat (chunks c)) (ending c).
Proof.
  unfold read_request, parse_request. set (all := concat (chunks c)).
  pose proof (read_head_ok (reads_left c) [] c (le_n _)) as Hhead. cbn zeta in Hhead.
  simpl app in Hhead. fold all in Hhead. destruct (find_window all CRLF2) as [index|];
    [|by rewrite Hhead].
  destruct Hhead as [(b & c' & -> & Hall & Hend & Hle)|[Hmax ->]];
    [|by rewrite (proj2 (N.ltb_lt _ _) Hmax)].
  cbn [result_bind]. destruct (N.ltb_spec MAX_HEADER_BYTES (N.of_nat (index + 4))) as [|Hmax]; [done|].
  assert (take (index + 4 - 4) b = take index all) as ->
    by (rewrite <- Hall, take_app_le by lia; f_equal; lia).
  destruct (parse_head (take index all)) as [[[[method path] headers] n]|e] eqn:Hp; [|done].
  apply parse_head_ok in Hp as (_ & _ & _ & _ & _ & _ & _ & Hn).
  apply announced_length_ok in Hn as (_ & _ & Hn & _). cbn [result_bind].
  unfold MAX_HEADER_BYTES, MAX_BODY_BYTES, usize_max in *.
  assert (length b <= length all)%nat as Hb by (rewrite <- Hall, length_app; lia).
  rewrite (proj2 (N.ltb_ge _ _)) by lia.
  set (required := N.to_nat (N.of_nat (index + 4) + n)).
  pose proof (read_body_ok (reads_left c') required b c' (le_n _)) as Hbody. cbn zeta in Hbody.
  rewrite Hall, Hend in Hbody.
  destruct (Nat.ltb_spec (length all) required) as [Hlt|Hge]; unfold required in *.
  - rewrite Hbody. cbn [result_bind]. rewrite length_drop, (proj2 (N.ltb_lt _ _)) by lia. done.
  - destruct Hbody as (b' & -> & [rest Hrest] & Hlen). cbn [result_bind].
    rewrite length_drop, (proj2 (N.ltb_ge _ _)) by lia. do 2 f_equal. rewrite Hrest.
    rewrite drop_app_le, take_app_le by (rewrite ?length_drop; lia). f_equal. lia.
Qed.

(** The reader of the sync endpoint does not depend on how a request is cut into chunks: two
    connections on which the same bytes arrive, and which end alike, give the same request or the
    same error, and no reader ever runs out of the reads its bound allows. *)
Theorem read_request_chunks c c' :
  concat (chunks c) = concat (chunks c') -> ending c = ending c' ->
  read_request c = read_request c' /\ read_request c <> Err "out of fuel".
Proof.
  intros Hbytes Hend. rewrite !read_request_eq, Hbytes, Hend. split; [done|].
  unfold parse_request. destruct (find_window _ _) as [index|].
  - destruct (_ <? _)%N; [done|].
    destruct (parse_head (take index (concat (chunks c')))) as [[[[m p] hs] n]|e] eqn:Hp; cbn [result_bind].
    + destruct (_ <? _)%N; [|done]. by destruct (ending c').
    + intros [= ->]. by apply parse_head_err in Hp.
  - destruct (_ <=? _)%N; [done|]. by destruct (ending c').
Qed.

(** What the reader accepts is framed unambiguously and within its bounds: at most 128
    headers with token names, no transfer encoding, at most one content length and one
    authorization header, and a body of exactly the announced length, which is zero when none is
    announced and never more than the limit. *)
Theorem accepted_request_framed c r :
  read_request c = Ok r ->
  (length (headers r) <= MAX_HEADER_COUNT)%nat /\
  Forall (fun h : str * str => h.1 <> [] /\ forallb is_name_char h.1 = true) (headers r) /\
  existsb (has_name "transfer-encoding") (headers r) = false /\
  (length (List.filter (has_name "authorization") (headers r)) <= 1)%nat /\
  (N.of_nat (length (request_body r)) <= MAX_BODY_BYTES)%N /\
  match List.filter (has_name "content-length") (headers r) with
  | [] => request_body r = []
  | [h] => parse_unsigned usize_max h.2 = Some (N.of_nat (length (request_body r)))
  | _ => False
  end /\
  exists before after, concat (chunks c) = before ++ CRLF2 ++ request_body r ++ after /\
    (N.of_nat (length before + 4) <= MAX_HEADER_BYTES)%N.
Proof.
  rewrite read_request_eq. unfold parse_request. set (all := concat (chunks c)).
  destruct (find_window all CRLF2) as [index|] eqn:Hi; [|done].
  destruct (N.ltb_spec MAX_HEADER_BYTES (N.of_nat (index + 4))) as [|Hmax]; [done|].
  destruct (parse_head (take index all)) as [[[[m p] hs] n]|e] eqn:Hp; [|done]. cbn [result_bind].
  destruct (N.ltb_spec (N.of_nat (length (drop (index + 4) all))) n) as [|Hn]; [done|].
  intros [= <-]. cbn [headers request_body].
  apply parse_head_ok in Hp as (text & line & lines & _ & _ & _ & Hh & Ha).
  apply parse_headers_ok in Hh as (Hlen & more & -> & _ & Hall); [|apply Nat.le_0_l].
  apply announced_length_ok in Ha as (Hte & Hauth & Hbody & Hcl).
  assert (N.of_nat (length (take (N.to_nat n) (drop (index + 4) all))) = n) as Hsize
    by (rewrite length_take; lia).
  rewrite Hsize. split_and!; try done.
  - destruct Hcl as [[-> ->]|(h & -> & Hh)]; [by rewrite take_0|done].
  - exists (take index all), (drop (N.to_nat n) (drop (index + 4) all)). rewrite (take_drop (N.to_nat n)).
    pose proof (find_window_bound _ _ _ Hi) as Hb. simpl in Hb. split.
    + rewrite <- (take_drop index all) at 1. f_equal. rewrite <- (drop_drop all 4 index).
      assert (CRLF2 `prefix_of` drop index all) as [k Hk] by by apply find_window_here.
      by rewrite Hk.
    + rewrite length_take. lia.
Qed.

(** ** Plain text *)

(** A printable ASCII byte: no line end among them. *)
Definition plain (b : byte) : bool := (32 <=? Byte.to_N b)%N && (Byte.to_N b <? 127)%N.
Definition plain_text (l : bytes) : Prop := forallb plain l = true.

Lemma plain_app l k : plain_text l -> plain_text k -> plain_text (l ++ k).
Proof. unfold plain_text. intros Hl Hk. by rewrite forallb_app, Hl, Hk. Qed.

Lemma plain_elem l b : plain_text l -> b ∈ l -> (32 <= Byte.to_N b < 127)%N.
Proof.
  intros Hl Hb%list_elem_of_In. unfold plain_text in Hl. rewrite forallb_forall in Hl.
  specialize (Hl b Hb). unfold plain in Hl. rewrite andb_true_iff, N.leb_le, N.ltb_lt in Hl. done.
Qed.

Lemma plain_ascii l : plain_text l -> Forall is_ascii l.
Proof.
  intros Hl. apply Forall_forall. intros b Hb%(plain_elem l b Hl). unfold is_ascii. lia.
Qed.

Lemma plain_line l : plain_text l -> x0d ∉ l.
Proof. intros Hl Hb%(plain_elem l _ Hl). simpl in Hb. lia. Qed.

(** Text of visible characters, as a string and as a decimal number. *)
Definition visible_text (s : string) : Prop := s <> "" /\ Forall visible (lit s).

Lemma visible_plain s : Forall visible (lit s) -> plain_text (bytes_of s).
Proof.
  unfold lit, plain_text. intros Hs. apply forallb_forall. intros b Hb%list_elem_of_In.
  rewrite Forall_map, Forall_forall in Hs. specialize (Hs b Hb). unfold visible, plain in *.
  rewrite andb_true_iff, N.leb_le, N.ltb_lt. lia.
Qed.

Lemma visible_not_nil s : s <> "" -> lit s <> [].
Proof. by destruct s. Qed.

Lemma decimal_bytes n : map Byte.to_N (ascii_bytes (decimal n)) = decimal n.
Proof.
  apply ascii_bytes_back. eapply Forall_impl; [apply decimal_visible|]. unfold visible. lia.
Qed.

Lemma decimal_plain n : plain_text (ascii_bytes (decimal n)).
Proof.
  apply forallb_forall. intros b Hb%list_elem_of_In.
  pose proof (decimal_visible n) as Hv. rewrite <- decimal_bytes, Forall_map, Forall_forall in Hv.
  specialize (Hv b Hb). unfold visible, plain in *. rewrite andb_true_iff, N.leb_le, N.ltb_lt. lia.
Qed.

(** ** Lines of a head *)

Lemma is_name_char_visible c : is_name_char c = true -> visible c /\ c <> 58%N.
Proof.
  unfold is_name_char, is_ascii_alphanumeric, is_ascii_digit, is_ascii_uppercase, is_ascii_lowercase,
    visible. intros Hc. apply orb_true_iff in Hc as [Hc|Hc].
  - rewrite !orb_true_iff, !andb_true_iff, !N.leb_le in Hc. lia.
  - apply existsb_exists in Hc as (x & Hx & <-%N.eqb_eq). vm_compute in Hx.
    repeat destruct Hx as [<-|Hx]; try done; lia.
Qed.

Lemma split_once_at name rest :
  58%N ∉ name -> split_once 58%N (name ++ 58%N :: rest) = Some (name, rest).
Proof.
  induction name as [|c name IH]; [done|]. rewrite not_elem_of_cons. intros [Hc Hn]. simpl.
  rewrite (proj2 (N.eqb_neq _ _)) by done. by rewrite IH.
Qed.

Lemma str_eqb_refl s : str_eqb s s = true.
Proof. induction s as [|c s IH]; [done|]. simpl. by rewrite N.eqb_refl. Qed.

(** A header line of a client. *)
Lemma parse_header_line parsed name value lines :
  name <> [] -> forallb is_name_char name = true -> (length parsed < MAX_HEADER_COUNT)%nat ->
  parse_headers parsed ((name ++ 58%N :: 32%N :: value) :: lines) =
    parse_headers (parsed ++ [(name, trim value)]) lines.
Proof.
  intros Hne Hname Hlen. cbn [parse_headers].
  assert (Forall (fun c => visible c /\ c <> 58%N) name) as Hv.
  { apply Forall_forall. intros c Hc%list_elem_of_In. apply is_name_char_visible.
    by apply (proj1 (forallb_forall _ _) Hname). }
  rewrite (proj2 (Nat.leb_gt _ _)) by done.
  rewrite split_once_at by (intros Hin; rewrite Forall_forall in Hv; by destruct (Hv _ Hin)).
  cbn [ok_or result_bind].
  rewrite (trim_visible name Hne) by (eapply Forall_impl; [exact Hv|]; by intros c []).
  rewrite str_eqb_refl, Hname. by destruct name.
Qed.

Lemma head_of_lines lines :
  lines <> [] -> Forall plain_text lines ->
  from_utf8 (join CRLF lines) = Some (join [13; 10]%N (map (map Byte.to_N) lines)) /\
  split_crlf (join [13; 10]%N (map (map Byte.to_N) lines)) = map (map Byte.to_N) lines.
Proof.
  intros Hne Hl. split.
  - rewrite from_utf8_ascii; [by rewrite map_join|].
    clear Hne. induction Hl as [|line lines Hline Hl IH]; [constructor|].
    destruct lines as [|line' lines]; [by apply plain_ascii|].
    rewrite join_cons by done. apply Forall_app. split; [by apply plain_ascii|].
    apply Forall_app. split; [|done]. repeat constructor.
  - apply split_crlf_join; [by destruct lines|]. apply Forall_map. eapply Forall_impl; [exact Hl|].
    intros line Hline Hin. apply list_elem_of_fmap in Hin as (b & Hb & Hin).
    apply (plain_elem _ _ Hline) in Hin. lia.
Qed.

(** ** The client's request *)

Definition request_lines (path token : string) (body : bytes) : list bytes :=
  [bytes_of "POST " ++ bytes_of path ++ bytes_of " HTTP/1.1";
   bytes_of "Host: localhost";
   bytes_of "Authorization: Bearer " ++ bytes_of token;
   bytes_of "Content-Type: application/json";
   bytes_of "Content-Length: " ++ ascii_bytes (decimal (N.of_nat (length body)));
   bytes_of "Connection: close"].

Lemma unix_request_lines path token body :
  unix_request path token body = join CRLF (request_lines path token body) ++ CRLF ++ CRLF ++ body.
Proof.
  unfold unix_request, request_lines. change CRLF2 with (CRLF ++ CRLF).
  rewrite !join_cons by done. cbn [join]. by rewrite <- !(assoc_L (++)).
Qed.

Lemma request_lines_plain path token body :
  visible_text path -> visible_text token -> Forall plain_text (request_lines path token body).
Proof.
  intros [_ Hp%visible_plain] [_ Ht%visible_plain]. unfold request_lines.
  repeat constructor; repeat apply plain_app; try (vm_compute; reflexivity); try done.
  apply decimal_plain.
Qed.

(** The headers as the server reads them. *)
Definition client_headers (token : str) (n : N) : list (str * str) :=
  [(lit "Host", lit "localhost"); (lit "Authorization", lit "Bearer " ++ token);
   (lit "Content-Type", lit "application/json"); (lit "Content-Length", decimal n);
   (lit "Connection", lit "close")].

Lemma bearer_value_trim token :
  token <> [] -> Forall visible token -> trim (lit "Bearer " ++ token) = lit "Bearer " ++ token.
Proof.
  intros Hne Ht. destruct (exists_last Hne) as (s & d & ->).
  apply Forall_app in Ht as [_ Hd%Forall_inv].
  apply (trim_edges 66%N (lit "earer " ++ s ++ [d]) d (lit "Bearer " ++ s));
    [unfold visible; lia|done|by rewrite <- (assoc_L (++))].
Qed.

Lemma client_headers_parsed token n :
  visible_text token ->
  parse_headers []
    [lit "Host: localhost"; lit "Authorization: Bearer " ++ lit token;
     lit "Content-Type: application/json"; lit "Content-Length: " ++ decimal n;
     lit "Connection: close"] = Ok (client_headers (lit token) n).
Proof.
  intros [Hne Ht]. assert (forall i, (i < 6)%nat -> (i < MAX_HEADER_COUNT)%nat) as Hcount
    by (intros i Hi; unfold MAX_HEADER_COUNT; lia).
  change (lit "Host: localhost") with (lit "Host" ++ 58%N :: 32%N :: lit "localhost").
  change (lit "Authorization: Bearer " ++ lit token)
    with (lit "Authorization" ++ 58%N :: 32%N :: (lit "Bearer " ++ lit token)).
  change (lit "Content-Type: application/json")
    with (lit "Content-Type" ++ 58%N :: 32%N :: lit "application/json").
  change (lit "Content-Length: " ++ decimal n) with (lit "Content-Length" ++ 58%N :: 32%N :: decimal n).
  change (lit "Connection: close") with (lit "Connection" ++ 58%N :: 32%N :: lit "close").
  rewrite !parse_header_line by (try done; apply Hcount; simpl; lia).
  rewrite (bearer_value_trim (lit token)) by (done || by apply visible_not_nil).
  rewrite (trim_visible (decimal n)) by (apply decimal_visible || apply decimal_not_nil).
  done.
Qed.

Lemma client_headers_length token n :
  (n <= MAX_BODY_BYTES)%N -> announced_length (client_headers token n) = Ok n.
Proof.
  intros Hn. unfold announced_length.
  change (existsb _ (client_headers token n)) with false.
  change (List.filter (has_name "content-length") (client_headers token n))
    with [(lit "Content-Length", decimal n)].
  change (List.filter (has_name "authorization") (client_headers token n))
    with [(lit "Authorization", lit "Bearer " ++ token)].
  cbn [map length Nat.ltb Nat.leb head snd].
  rewrite parse_decimal by (unfold MAX_BODY_BYTES, usize_max in *; lia). cbn [ok_or result_bind].
  by rewrite (proj2 (N.ltb_ge _ _)).
Qed.

Lemma request_line_parsed path :
  visible_text path ->
  parse_request_line (lit "POST " ++ lit path ++ lit " HTTP/1.1") = Ok (lit "POST", lit path).
Proof.
  intros [Hne Hp]. unfold parse_request_line.
  change (lit "POST " ++ lit path ++ lit " HTTP/1.1")
    with (lit "POST" ++ 32%N :: (lit path ++ 32%N :: lit "HTTP/1.1")).
  rewrite words_cons; [|done|apply Forall_forall; intros c Hc; vm_compute in Hc;
    repeat (apply elem_of_cons in Hc as [->|Hc]; [unfold visible; lia|]); by apply not_elem_of_nil in Hc].
  rewrite words_cons by (done || by apply visible_not_nil). done.
Qed.

Lemma client_head_parsed path token body :
  visible_text path -> visible_text token -> (N.of_nat (length body) <= MAX_BODY_BYTES)%N ->
  parse_head (join CRLF (request_lines path token body)) =
    Ok (lit "POST", lit path, client_headers (lit token) (N.of_nat (length body)),
        N.of_nat (length body)).
Proof.
  intros Hp Ht Hb. unfold parse_head.
  destruct (head_of_lines (request_lines path token body)) as [Htext Hlines];
    [done|by apply request_lines_plain|]. rewrite Htext. cbn [ok_or result_bind]. rewrite Hlines.
  unfold request_lines. cbn [map]. rewrite !map_app, decimal_bytes.
  repeat match goal with
         | |- context [map Byte.to_N (bytes_of ?s)] =>
             change (map Byte.to_N (bytes_of s)) with (lit s)
         end.
  rewrite (request_line_parsed path Hp). cbn [result_bind].
  rewrite (client_headers_parsed token _ Ht). cbn [result_bind].
  rewrite (client_headers_length _ _ Hb). done.
Qed.

Definition head_size (path token : string) (body : bytes) : nat :=
  length (join CRLF (request_lines path token body)).

Lemma client_request_parsed path token body rest e :
  visible_text path -> visible_text token -> (N.of_nat (length body) <= MAX_BODY_BYTES)%N ->
  (N.of_nat (head_size path token body + 4) <= MAX_HEADER_BYTES)%N ->
  parse_request (unix_request path token body ++ rest) e =
    Ok (mk_request (lit "POST") (lit path) (client_headers (lit token) (N.of_nat (length body))) body).
Proof.
  intros Hp Ht Hb Hsize. unfold parse_request. rewrite unix_request_lines, <- !(assoc_L (++)).
  unfold CRLF2. rewrite find_blank_line; [|done|].
  2: { apply Forall_and. split; [|by repeat constructor].
       eapply Forall_impl; [by apply request_lines_plain|]. apply plain_line. }
  unfold head_size in *. rewrite (proj2 (N.ltb_ge _ _)) by done.
  rewrite take_app_length, (client_head_parsed path token body Hp Ht Hb). cbn [result_bind].
  assert (drop (length (join CRLF (request_lines path token body)) + 4)
    (join CRLF (request_lines path token body) ++ CRLF ++ CRLF ++ body ++ rest) = body ++ rest) as ->.
  { rewrite <- drop_drop. by rewrite drop_app_length. }
  rewrite length_app, (proj2 (N.ltb_ge _ _)) by lia. do 2 f_equal.
  by rewrite Nat2N.id, take_app_length.
Qed.

Lemma client_bearer token m p n body :
  visible_text token ->
  text_of (default [] (bearer_token (mk_request m p (client_headers (lit token) n) body))) = token.
Proof.
  intros [Hne Ht]. unfold bearer_token. cbn [headers].
  change (list_find _ (client_headers (lit token) n))
    with (Some (1%nat, (lit "Authorization", lit "Bearer " ++ lit token))).
  cbn [fmap option_fmap option_map mbind option_bind snd].
  change (strip_str_prefix (lit "Bearer ") (lit "Bearer " ++ lit token)) with (Some (lit token)).
  cbn [mbind option_bind]. apply visible_not_nil in Hne.
  assert (text_of (lit token) = token) as Hback.
  { unfold lit. rewrite text_of_ascii by by apply plain_ascii, visible_plain. apply bytes_of_text. }
  by destruct (lit token).
Qed.

(** ** The server's response *)

Definition response_lines (status : N) (body : bytes) : list bytes :=
  [bytes_of "HTTP/1.1 " ++ ascii_bytes (decimal status) ++ bytes_of " " ++
     bytes_of (reason_phrase status);
   bytes_of "Content-Type: application/json";
   bytes_of "Content-Length: " ++ ascii_bytes (decimal (N.of_nat (length body)));
   bytes_of "Connection: close"].

Lemma write_json_lines status body :
  write_json status body = join CRLF (response_lines status body) ++ CRLF ++ CRLF ++ body.
Proof.
  unfold write_json, response_lines. change CRLF2 with (CRLF ++ CRLF).
  rewrite !join_cons by done. cbn [join]. by rewrite <- !(assoc_L (++)).
Qed.

Lemma reason_phrase_plain status : plain_text (bytes_of (reason_phrase status)).
Proof. unfold reason_phrase. repeat case_match; vm_compute; reflexivity. Qed.

Lemma response_lines_plain status body : Forall plain_text (response_lines status body).
Proof.
  unfold response_lines. repeat constructor; repeat apply plain_app;
    try (vm_compute; reflexivity); apply decimal_plain || apply reason_phrase_plain.
Qed.

Lemma response_status_read status :
  (100 <= status < 1000)%N ->
  response_status (lit "HTTP/1.1 " ++ decimal status ++ lit " " ++ lit (reason_phrase status)) =
    Some status.
Proof.
  intros Hs. unfold response_status.
  change (lit "HTTP/1.1 " ++ decimal status ++ lit " " ++ lit (reason_phrase status))
    with (lit "HTTP/1.1" ++ 32%N :: (decimal status ++ 32%N :: lit (reason_phrase status))).
  rewrite words_cons; [|done|by repeat constructor; unfold visible; lia].
  rewrite words_cons by (apply decimal_visible || apply decimal_not_nil).
  cbn [lookup list_lookup mbind option_bind].
  rewrite parse_decimal by (unfold u16_max; lia). cbn [mbind option_bind].
  by rewrite (proj2 (N.leb_le _ _)), (proj2 (N.ltb_lt _ _)) by lia.
Qed.

(** The lines of a response, the blank line included, as the client splits them. *)
Lemma response_head_read status body :
  (100 <= status < 1000)%N -> (N.of_nat (length body) <= usize_max)%N ->
  let lines := map (map Byte.to_N) (response_lines status body ++ [[]; []]) in
  (line ← head lines; response_status line) = Some status /\
  (header ← snd <$> list_find (fun h => has_name "content-length" h = true)
                      (omap (split_once 58%N) (tail lines));
   parse_unsigned usize_max (trim header.2)) = Some (N.of_nat (length body)).
Proof.
  intros Hs Hb. cbn zeta. unfold response_lines. cbn [app map head tail mbind option_bind].
  rewrite !map_app, !decimal_bytes.
  repeat match goal with
         | |- context [map Byte.to_N (bytes_of ?s)] =>
             change (map Byte.to_N (bytes_of s)) with (lit s)
         end.
  split; [by apply response_status_read|].
  assert (split_once 58%N (lit "Content-Length: " ++ decimal (N.of_nat (length body))) =
    Some (lit "Content-Length", 32%N :: decimal (N.of_nat (length body)))) as Hcl
    by (apply (split_once_at (lit "Content-Length")); vm_compute; set_solver).
  cbn [omap list_omap]. rewrite Hcl.
  change (split_once 58%N (lit "Content-Type: application/json"))
    with (Some (lit "Content-Type", lit " application/json")).
  change (split_once 58%N (lit "Connection: close")) with (Some (lit "Connection", lit " close")).
  change (split_once 58%N []) with (@None (list N * list N)). cbn iota.
  change (list_find _ _) with (Some (1%nat, (lit "Content-Length", 32%N :: decimal (N.of_nat (length body))))).
  cbn [fmap option_fmap option_map snd mbind option_bind].
  rewrite trim_space, trim_visible by (apply decimal_visible || apply decimal_not_nil).
  by apply parse_decimal.
Qed.

Lemma response_read_eq status body :
  (100 <= status < 1000)%N -> (N.of_nat (length (write_json status body)) <= usize_max)%N ->
  decode_unix_response (write_json status body) = Ok (status, body).
Proof.
  intros Hs Hsize. unfold decode_unix_response. rewrite write_json_lines in *. unfold CRLF2.
  set (lines := response_lines status body) in *.
  assert (Forall plain_text lines) as Hplain by apply response_lines_plain.
  rewrite find_blank_line; [|done|].
  2: { apply Forall_and. split; [|by repeat constructor].
       eapply Forall_impl; [exact Hplain|]. apply plain_line. }
  cbn [ok_or result_bind].
  set (whole := join CRLF (lines ++ [[]; []])).
  assert (join CRLF lines ++ CRLF ++ CRLF ++ body = whole ++ body) as Hwhole
    by (unfold whole; by rewrite join_blank, <- !(assoc_L (++))).
  assert (length (join CRLF lines) + 4 = length whole)%nat as Hlen.
  { unfold whole. rewrite join_blank, !length_app by done. simpl. lia. }
  rewrite Hwhole in *. rewrite Hlen, take_app_length.
  destruct (head_of_lines (lines ++ [[]; []])) as [Htext Hlines];
    [done|apply Forall_app; split; [done|by repeat constructor]|].
  unfold whole. rewrite Htext. cbn [ok_or result_bind]. rewrite Hlines. fold whole. subst lines.
  rewrite length_app, Nat2N.inj_add in Hsize.
  destruct (response_head_read status body Hs) as [-> Hcl]; [lia|]. cbn [ok_or result_bind].
  rewrite Hcl. cbn [ok_or result_bind]. rewrite length_app, Nat2N.inj_add.
  rewrite (proj2 (N.ltb_ge _ _)), N.eqb_refl by done. cbn [negb]. by rewrite drop_app_length.
Qed.

(** ** A call, there and back *)

Section Exchange.
Context `{UuidParse} `{EntryCodec} `{BodyCodec} {S : Type} `{EventStore S}.
Context (token_digest : string -> string) (lease_ttl_ms : Z).
Context (rejection_fingerprint : SyncPushRequestV1 -> SyncPushRejectionReason -> string).

(** What the endpoint answers a call with. *)
Definition answer_call (now_ms reject_now_ms : Z) (token : string) (call : ClientCall)
    (ep : Endpoint S) : Endpoint S * HttpResponse :=
  match call with
  | CallPush request =>
      let (ep, answer) := push token_digest rejection_fingerprint now_ms reject_now_ms token request ep in
      (ep, serve_push answer)
  | CallPull stream cursor => (ep, serve_pull (pull_after token_digest ep token stream cursor))
  | CallRenew =>
      let (ep, answer) := endpoint_renew_lease token_digest lease_ttl_ms now_ms token ep in
      (ep, serve_renew answer)
  | CallAcknowledge request =>
      let (ep, answer) := acknowledge_ingress token_digest now_ms token request ep in
      (ep, serve_acknowledge answer)
  end.

Lemma answer_status now reject_now token call ep :
  (100 <= status (answer_call now reject_now token call ep).2 < 1000)%Z.
Proof.
  destruct call; simpl.
  - destruct (push _ _ _ _ _ _ ep) as [ep' [[ack|rejection]|e]]; simpl; try lia.
    destruct (rejection_reason rejection); lia.
  - destruct (pull_after _ _ _ _ _) as [|[]]; simpl; try lia. destruct (String.eqb _ _); simpl; lia.
  - destruct (endpoint_renew_lease _ _ _ _ ep) as [ep' [[grant|]|e]]; simpl; lia.
  - destruct (acknowledge_ingress _ _ _ _ ep) as [ep' [|[]]]; simpl; try lia.
    destruct (String.eqb _ _); simpl; lia.
Qed.

(** A call whose body survives its encoding; an acknowledgement names its schema. *)
Definition faithful_call (call : ClientCall) : Prop :=
  match call with
  | CallPush request => faithful_push request
  | CallPull stream cursor => faithful_pull (mk_pull SYNC_PULL_SCHEMA_V1 stream cursor)
  | CallRenew => True
  | CallAcknowledge request =>
      faithful_ack request /\ queue_ack_schema request = SYNC_INGRESS_QUEUE_ACK_SCHEMA_V1
  end.

Lemma received r :
  faithful_body (body r) -> (100 <= status r < 1000)%Z -> (N.of_nat (length (response_bytes r)) <= usize_max)%N ->
  receive (response_bytes r) = Ok r.
Proof.
  intros Hf Hs Hsize. unfold receive, response_bytes in *. rewrite response_read_eq by (done || lia).
  cbn [result_bind snd fst]. rewrite decode_encode_body by done. cbn [ok_or result_bind].
  destruct r. simpl in *. do 2 f_equal. lia.
Qed.

End Exchange.
