(* ===== verification/Sync.v ===== *)
(** * A child, its parent's endpoint, and the network between them

    The composition of [Endpoint], the answers of [Http] and [Propagator]: a world holds the
    endpoint, the child's local store and a script of what the network and everyone
    else do around each call the propagator makes.  A request or an answer may be
    lost; other calls may run before a call, between the authorization and the
    settlement of a push, and after it; the child may append meanwhile.  The world
    is a [SyncWorld], so [propagate_once] runs in it as written. *)

From stdpp Require Import base gmap sets list strings pretty relations.
From Stdlib Require Import ZArith Lia.
From S2P Require Import Prelude Json EventKind EventSchemas Contracts Records Store Journal EventLog Lease LeaseFacts LeaseProps Ingress.
From S2P Require Import Queue Endpoint Propagator Http.

Local Open Scope verlet_scope.
Local Open Scope string_scope.
Local Open Scope list_scope.

Inductive Fate : Type := Delivered | RequestLost | ReplyLost.

Section Sync.
Context `{UuidParse} `{EntryCodec} {S L : Type} `{EventStoreLaws S} `{EventStoreLaws L}.
Context (token_digest : string -> string) (lease_ttl_ms : Z).
Context (rejection_fingerprint : SyncPushRequestV1 -> SyncPushRejectionReason -> string).

(** What others may do: transactions of the lease authority, operations on the queue, appends of
    the child to its own store. *)
Inductive env_op : Type :=
  | EnvLease (o : lease_op)
  | EnvQueue (o : queue_op)
  | EnvLocal (stream : EventStreamId) (records : list NewEventRecord).

(** The circumstances of one call. *)
Record Turn : Type := mk_turn {
  before : list env_op;
  between : list env_op;
  afterwards : list env_op;
  fate : Fate;
  turn_now_ms : Z;
  turn_reject_now_ms : Z;
}.

Record World : Type := mk_world {
  endpoint : Endpoint S;
  child_store : L;
  script : list Turn;
  clock_ms : Z;
}.

Definition set_endpoint (ep : Endpoint S) (w : World) : World :=
  mk_world ep (child_store w) (script w) (clock_ms w).
Definition set_child_store (l : L) (w : World) : World :=
  mk_world (endpoint w) l (script w) (clock_ms w).

(** The child appends at the tail of its stream.  A sequence is an [i64]: a store that would run
    past it does not take the batch. *)
Definition append_local (stream : EventStreamId) (records : list NewEventRecord) (l : L) : L :=
  let next := Z.of_nat (Datatypes.S (length (log_events l stream))) in
  if (next + Z.of_nat (length records) <=? i64_max)%Z
  then (log_append_fenced stream next records l).1
  else l.

Definition run_env (o : env_op) (w : World) : World :=
  match o with
  | EnvLease o =>
      set_endpoint (set_authority (run_lease token_digest lease_ttl_ms o (authority (endpoint w))).1
                      (endpoint w)) w
  | EnvQueue o =>
      set_endpoint (set_queue (run_queue o (ingress_queue (endpoint w))).1 (endpoint w)) w
  | EnvLocal stream records => set_child_store (append_local stream records (child_store w)) w
  end.

Definition run_envs (ops : list env_op) (w : World) : World := fold_left (fun w o => run_env o w) ops w.

(** The next turn of the script; when it is over, calls are delivered and nothing else happens. *)
Definition next_turn (w : World) : Turn * World :=
  match script w with
  | [] => (mk_turn [] [] [] Delivered (clock_ms w) (clock_ms w), w)
  | t :: rest => (t, mk_world (endpoint w) (child_store w) rest (clock_ms w))
  end.

(** A call under its circumstances: [serve] runs on the endpoint in two stages. *)
Definition call {A B} (stage1 : Turn -> Endpoint S -> A)
    (stage2 : Turn -> A -> Endpoint S -> Endpoint S * HttpResponse)
    (read_reply : HttpResponse -> result B GateError) (w : World) : World * result B GateError :=
  let (t, w) := next_turn w in
  let w := run_envs (before t) w in
  match fate t with
  | RequestLost => (run_envs (afterwards t) w, Err (transport_error "request"))
  | fate =>
      let staged := stage1 t (endpoint w) in
      let w := run_envs (between t) w in
      let (ep, response) := stage2 t staged (endpoint w) in
      let w := run_envs (afterwards t) (set_endpoint ep w) in
      (w, match fate with
          | ReplyLost => Err (transport_error "response")
          | _ => read_reply response
          end)
  end.

(** What each call runs at the endpoint, in up to two stages. *)
Definition push_stage (request : SyncPushRequestV1) (t : Turn)
    (authorized : result (list NewEventRecord) SyncPushRejectionReason) (ep : Endpoint S) :
    Endpoint S * HttpResponse :=
  let (ep, r) := settle_push rejection_fingerprint (turn_now_ms t) (turn_reject_now_ms t)
                   request authorized ep in
  (ep, serve_push r).

Definition pull_stage (token : string) (stream : EventStreamId) (cursor : option StreamCursorV1)
    (t : Turn) (_ : unit) (ep : Endpoint S) : Endpoint S * HttpResponse :=
  (ep, serve_pull (pull_after token_digest ep token stream cursor)).

Definition renew_stage (token : string) (t : Turn) (_ : unit) (ep : Endpoint S) :
    Endpoint S * HttpResponse :=
  let (ep, r) := endpoint_renew_lease token_digest lease_ttl_ms (turn_now_ms t) token ep in
  (ep, serve_renew r).

#[export] Instance sync_world : SyncWorld World L := {|
  local_store := child_store;
  gate_push token request :=
    call (fun _ ep => authorize_push token_digest (authority ep) token request)
      (push_stage request) (client_push request);
  gate_pull token stream cursor :=
    call (fun _ _ => tt) (pull_stage token stream cursor) client_pull;
  gate_renew token := call (fun _ _ => tt) (renew_stage token) client_renew;
|}.

(** The streams of the journal, as opposed to the projection of the queue. *)
Definition is_journal (stream : EventStreamId) : Prop :=
  starts_with SYNC_INGRESS_QUEUE_STREAM_PREFIX stream = false.

Record sync_valid (w : World) : Prop := {
  valid_parent : log_valid (event_store (authority (endpoint w)));
  valid_child : log_valid (child_store w);
  valid_bounded stream : (Z.of_nat (length (log_events (child_store w) stream)) < i64_max)%Z;
}.

(** The view of a world, with the invariant [valid] of its runs. *)
Definition view_of (valid : World -> Prop) : SyncWorldView World L := {|
  world_valid := valid;
  journal_stream := is_journal;
  remote_log w stream :=
    map to_stream_record_v1 (log_events (event_store (authority (endpoint w))) stream);
|}.

(** ** Runs *)

(** An operation that appends nothing to [stream] at the parent. *)
Definition spares (stream : EventStreamId) (o : env_op) : Prop :=
  match o with EnvLease (OpAppend _ other _ _ _) => other <> stream | _ => True end.

Definition turn_allows (allowed : env_op -> Prop) (t : Turn) : Prop :=
  Forall allowed (before t) /\ Forall allowed (between t) /\ Forall allowed (afterwards t).

(** Everything that can happen: an attempt at any time, an allowed step of the surroundings, a new
    script of such steps, a restart of the child from its durable state. *)
Inductive sync_step (allowed : env_op -> Prop) (token : string) (batch_size : nat) (p : Propagation World) :
    Propagation World -> Prop :=
  | step_attempt now p' r :
      propagate_once token batch_size now p = (p', r) -> sync_step allowed token batch_size p p'
  | step_env o :
      allowed o ->
      sync_step allowed token batch_size p (mk_run (run_env o (world p)) (durable p) (state p))
  | step_script turns clock :
      Forall (turn_allows allowed) turns ->
      sync_step allowed token batch_size p
        (mk_run (mk_world (endpoint (world p)) (child_store (world p)) turns clock)
           (durable p) (state p))
  | step_restart s :
      load (prop_stream_id (state p)) p = Some s ->
      sync_step allowed token batch_size p (mk_run (world p) (durable p) s).

(** The caller's loop while attempts advance, up to [fuel] more attempts. *)
Fixpoint drain (fuel : nat) (token : string) (batch_size : nat) (now_ms : Z)
    (p : Propagation World) : Propagation World * VerletResult PropagationStep :=
  match propagate_once token batch_size now_ms p, fuel with
  | (p', Ok (Advanced _)), Datatypes.S fuel => drain fuel token batch_size now_ms p'
  | out, _ => out
  end.
End Sync.
Arguments World {_} S L.

(** * What a child and its parent agree on

    The endpoint over the network discharges [SyncWorldLaws]; every run of the
    composed system then keeps the propagator's claims true, and a child that is
    the only writer of its stream finds a prefix of it at the parent. *)

Local Close Scope verlet_scope.
Local Open Scope string_scope.
Local Open Scope list_scope.

Section Laws.
Context `{UuidParse} `{EntryCodec} {S L : Type} `{EventStoreLaws S} `{EventStoreLaws L}.
Context (token_digest : string -> string) (lease_ttl_ms : Z).
Context (rejection_fingerprint : SyncPushRequestV1 -> SyncPushRejectionReason -> string).

Notation World := (World S L).
Notation run_env := (run_env (S:=S) (L:=L) token_digest lease_ttl_ms).
Notation run_envs := (run_envs (S:=S) (L:=L) token_digest lease_ttl_ms).
Notation call := (call (S:=S) (L:=L) token_digest lease_ttl_ms).
Notation view_of := (view_of (S:=S) (L:=L) token_digest lease_ttl_ms rejection_fingerprint).
Local Instance world_instance : SyncWorld World L :=
  sync_world token_digest lease_ttl_ms rejection_fingerprint.

(** ** The parent's store *)

(** What one store makes of another: lawful, and every stream extended. *)
Definition store_grows {T} `{EventStoreLaws T} (s s' : T) : Prop :=
  log_valid s' /\ forall stream, log_events s stream `prefix_of` log_events s' stream.

Lemma store_grows_refl {T} `{EventStoreLaws T} (s : T) : log_valid s -> store_grows s s.
Proof. intros Hv. split; [done|]. intros stream. reflexivity. Qed.

Lemma store_grows_trans {T} `{EventStoreLaws T} (s1 s2 s3 : T) :
  store_grows s1 s2 -> store_grows s2 s3 -> store_grows s1 s3.
Proof. intros [_ H12] [Hv H23]. split; [done|]. intros stream. transitivity (log_events s2 stream); auto. Qed.

Lemma append_grows {T} `{EventStoreLaws T} (s s' : T) stream n records es :
  log_valid s -> log_append_fenced stream n records s = (s', Ok es) -> store_grows s s'.
Proof.
  intros Hv Happ. destruct (log_append_ok _ _ _ _ _ _ Hv Happ) as (Hv' & _ & _ & Hs & Ho).
  split; [done|]. intros other. destruct (decide (other = stream)) as [->|Hne].
  - rewrite Hs. by apply prefix_app_r.
  - by rewrite Ho.
Qed.

(** A transaction of the lease authority leaves the store, or is an append through the fence. *)
Lemma run_lease_store o (a a' : Authority S) r :
  run_lease token_digest lease_ttl_ms o a = (a', r) ->
  event_store a' = event_store a \/
  exists now stream id n records es, o = OpAppend now stream id n records /\
    log_append_fenced stream n records (event_store a) = (event_store a', Ok es).
Proof.
  intros Hrun. destruct r as [[]|e]; [|left; by rewrite (run_lease_err _ _ _ _ _ _ Hrun)].
  destruct o; simpl in Hrun; apply drop_result_ok in Hrun as [x Hrun].
  - apply grant_effect in Hrun as (l & _ & _ & _ & _ & _ & _ & _ & _ & He & _). by left.
  - apply renew_effect in Hrun as (l & _ & _ & _ & _ & ->). by left.
  - apply release_effect in Hrun as [[-> _]|(l & _ & ->)]; by left.
  - apply append_effect in Hrun as [[-> _]|(s & es & ack & _ & Happ & _ & _ & ->)]; [by left|].
    right. by eexists _, _, _, _, _, _.
  - destruct x as [c token]. apply mint_effect in Hrun as (l & _ & _ & _ & _ & -> & _). by left.
  - unfold revoke_credential in Hrun. st_inv. by left.
Qed.

Lemma run_lease_grows o (a a' : Authority S) r :
  log_valid (event_store a) -> run_lease token_digest lease_ttl_ms o a = (a', r) ->
  store_grows (event_store a) (event_store a').
Proof.
  intros Hv Hrun. apply run_lease_store in Hrun as [->|(? & ? & ? & ? & ? & ? & _ & Happ)];
    [by apply store_grows_refl|by eapply append_grows].
Qed.

(** A push adds exactly its records to its own stream, or nothing. *)
Lemma settle_push_store now reject_now request (a : Authority S) token (ep ep' : Endpoint S) r :
  log_valid (event_store (authority ep)) ->
  settle_push rejection_fingerprint now reject_now request (authorize_push token_digest a token request)
    ep = (ep', r) ->
  authority ep' = authority ep \/ batch_landed request ep ep'.
Proof.
  intros Hv Hrun.
  destruct (authorize_push token_digest a token request) as [records|reason] eqn:Hauth.
  - apply authorize_push_ok in Hauth as [_ Hval].
    pose proof (settle_append token_digest _ _ _ _ _ _ _ _ Hv Hval Hrun) as Hout.
    destruct r as [[ack|rejection]|e]; [right; apply Hout| |by left].
    destruct Hout as [_ Hrej]. left. by apply reject_ok in Hrej as (-> & _).
  - destruct r as [out|e]; [|by apply reject_err in Hrun].
    left. by apply reject_ok in Hrun as (-> & _).
Qed.

Lemma landed_grows request (ep ep' : Endpoint S) :
  batch_landed request ep ep' ->
  store_grows (event_store (authority ep)) (event_store (authority ep')).
Proof.
  intros Hl. split; [apply Hl|]. intros other.
  destruct (decide (other = push_stream_id request)) as [->|Hne].
  - destruct (landed_records _ _ _ Hl) as (es & _ & ->). by apply prefix_app_r.
  - by rewrite (landed_elsewhere _ _ _ Hl).
Qed.

(** ** The surroundings *)

(** What follows holds for every invariant a view may carry. *)
Section View.
Context (valid : World -> Prop).
Local Instance view_instance : SyncWorldView World L := view_of valid.

Lemma append_local_grows stream records (l : L) :
  log_valid l ->
  (forall st, (Z.of_nat (length (log_events l st)) < i64_max)%Z) ->
  store_grows l (append_local stream records l) /\
  forall st, (Z.of_nat (length (log_events (append_local stream records l) st)) < i64_max)%Z.
Proof.
  intros Hv Hb. unfold append_local.
  destruct (Z.leb_spec (Z.of_nat (Datatypes.S (length (log_events l stream))) +
    Z.of_nat (length records)) i64_max) as [Hle|]; [|split; [by apply store_grows_refl|done]].
  destruct (log_append_fenced stream _ records l) as [l' [es|e]] eqn:Happ; simpl.
  - split; [by eapply append_grows|]. intros st.
    destruct (log_append_ok _ _ _ _ _ _ Hv Happ) as (_ & _ & -> & Hs & Ho).
    destruct (decide (st = stream)) as [->|Hne]; [|by rewrite Ho].
    rewrite Hs, length_app, numbered_length. lia.
  - destruct (log_append_err _ _ _ _ _ _ Hv Happ) as [Hv' Ho]. split.
    + split; [done|]. intros st. by rewrite Ho.
    + intros st. by rewrite Ho.
Qed.

Lemma world_grows_stores (w w' : World) :
  store_grows (event_store (authority (endpoint w))) (event_store (authority (endpoint w'))) ->
  store_grows (child_store w) (child_store w') -> world_grows w w'.
Proof.
  intros [_ Hp] [_ Hc] stream. unfold local_log. simpl.
  destruct (Hp stream) as [ext1 Hext1], (Hc stream) as [ext2 Hext2].
  rewrite Hext1, Hext2, !map_app. split; by apply prefix_app_r.
Qed.

Lemma run_env_ok o (w : World) :
  sync_valid w -> sync_valid (run_env o w) /\ world_grows w (run_env o w).
Proof.
  intros [Hp Hc Hb].
  assert (store_grows (child_store w) (child_store w)) as Hcc by by apply store_grows_refl.
  destruct o as [o|o|stream records]; simpl.
  - destruct (run_lease token_digest lease_ttl_ms o (authority (endpoint w))) as [a r] eqn:Hrun.
    pose proof (run_lease_grows _ _ _ _ Hp Hrun) as Hg. simpl.
    split; [split; try done; apply Hg|]. by apply world_grows_stores.
  - split; [done|]. apply world_grows_stores; [by apply store_grows_refl|done].
  - destruct (append_local_grows stream records _ Hc Hb) as [Hg Hb'].
    split; [split; try done; apply Hg|]. apply world_grows_stores; [by apply store_grows_refl|done].
Qed.

Lemma run_envs_ok ops (w : World) :
  sync_valid w -> sync_valid (run_envs ops w) /\ world_grows w (run_envs ops w).
Proof.
  unfold run_envs. revert w. induction ops as [|o ops IH]; intros w Hw; simpl; [done|].
  destruct (run_env_ok o w Hw) as [Hw1 Hg1]. destruct (IH _ Hw1) as [Hw2 Hg2].
  split; [done|]. by etrans.
Qed.

(** ** Calls *)

(** A stage that only extends the parent's store. *)
Definition stage_grows {A} (stage2 : Turn -> A -> Endpoint S -> Endpoint S * HttpResponse)
    (staged : Turn -> A -> Prop) : Prop :=
  forall t a ep ep' response, staged t a -> log_valid (event_store (authority ep)) ->
    stage2 t a ep = (ep', response) ->
    store_grows (event_store (authority ep)) (event_store (authority ep')).

Lemma push_stage_grows token request :
  stage_grows (push_stage rejection_fingerprint request)
    (fun _ authorized => exists ep : Endpoint S,
       authorized = authorize_push token_digest (authority ep) token request).
Proof.
  intros t ? ep ep' response (ep0 & ->) Hv. unfold push_stage.
  destruct (settle_push _ _ _ _ _ ep) as [ep1 out] eqn:Hset. intros [= <- _].
  apply settle_push_store in Hset as [->|Hl]; [by apply store_grows_refl| |done].
  by eapply landed_grows.
Qed.

Lemma pull_stage_grows token stream cursor P : stage_grows (pull_stage token_digest token stream cursor) P.
Proof. intros t a ep ep' response _ Hv [= <- _]. by apply store_grows_refl. Qed.

Lemma renew_stage_store token t a (ep ep' : Endpoint S) response :
  renew_stage token_digest lease_ttl_ms token t a ep = (ep', response) ->
  event_store (authority ep') = event_store (authority ep).
Proof.
  unfold renew_stage. destruct (endpoint_renew_lease _ _ _ token ep) as [ep1 out] eqn:Hren.
  intros [= <- _]. unfold endpoint_renew_lease, st_bind at 1, st_get in Hren.
  destruct (verify_token _ _ _) as [i|]; [|by injection Hren as <- _].
  unfold st_bind, on_authority in Hren.
  destruct (renew_lease lease_ttl_ms (turn_now_ms t) (identity_lease_id i) (authority ep))
    as [a' r'] eqn:Hrenew.
  assert (authority ep1 = a') as -> by (destruct r'; by injection Hren as <- _).
  destruct (run_lease_store (OpRenew (turn_now_ms t) (identity_lease_id i)) (authority ep) a'
    (drop_result (a', r')).2) as [?|(? & ? & ? & ? & ? & ? & [=] & _)]; [|done].
  simpl. by rewrite Hrenew.
Qed.

Lemma renew_stage_grows token P : stage_grows (renew_stage token_digest lease_ttl_ms token) P.
Proof.
  intros t a ep ep' response _ Hv ->%renew_stage_store. by apply store_grows_refl.
Qed.

Lemma call_ok {A B} (stage1 : Turn -> Endpoint S -> A) stage2
    (read_reply : HttpResponse -> result B GateError) (w w' : World) r :
  stage_grows stage2 (fun t a => exists ep, a = stage1 t ep) ->
  sync_valid w -> call stage1 stage2 read_reply w = (w', r) ->
  sync_valid w' /\ world_grows w w' /\
  forall b, r = Ok b -> exists t ep0 ep ep' response,
    log_valid (event_store (authority ep)) /\ stage2 t (stage1 t ep0) ep = (ep', response) /\
    read_reply response = Ok b /\
    forall stream, map to_stream_record_v1 (log_events (event_store (authority ep')) stream)
      `prefix_of` remote_log w' stream.
Proof.
  intros Hst Hw. unfold Sync.call.
  assert (exists t w1, next_turn w = (t, w1) /\ sync_valid w1 /\ world_grows w w1)
    as (t & w1 & -> & Hw1 & Hg1).
  { unfold next_turn. destruct (Sync.script w) as [|t rest]; eexists _, _; (split; [done|]); [done|].
    destruct Hw. split; [by split|]. by intros stream. }
  destruct (run_envs_ok (before t) w1 Hw1) as [Hw2 Hg2]. set (w2 := run_envs (before t) w1) in *.
  destruct (fate t) eqn:Hf.
  2: { intros [= <- <-]. destruct (run_envs_ok (afterwards t) w2 Hw2) as [Hw3 Hg3].
    split_and!; [done|by do 2 (etrans; [done|])|done]. }
  all: destruct (run_envs_ok (between t) w2 Hw2) as [Hw3 Hg3]; set (w3 := run_envs (between t) w2) in *;
    destruct (stage2 t (stage1 t (endpoint w2)) (endpoint w3)) as [ep' response] eqn:Hrun;
    pose proof (Hst _ _ _ _ _ (ex_intro _ (endpoint w2) eq_refl) (valid_parent _ Hw3) Hrun) as Hgr;
    assert (sync_valid (set_endpoint ep' w3)) as Hw4 by (split; [apply Hgr|apply Hw3..]);
    assert (world_grows w3 (set_endpoint ep' w3)) as Hg4
      by (apply world_grows_stores; [done|apply store_grows_refl, Hw3]);
    destruct (run_envs_ok (afterwards t) _ Hw4) as [Hw5 Hg5];
    intros [= <- <-]; (split; [done|]); (split; [by do 4 (etrans; [done|])|]); try done.
  intros b Hb. exists t, (endpoint w2), (endpoint w3), ep', response.
  split_and!; [apply Hw3|done|done|]. intros stream. by destruct (Hg5 stream).
Qed.

(** What the pull surface answers for a stream of the journal. *)
Lemma pull_after_ok (ep : Endpoint S) token stream cursor records :
  log_valid (event_store (authority ep)) -> is_journal stream ->
  pull_after token_digest ep token stream cursor = Ok records <->
  (exists identity, verify_token token_digest (authority ep) token = Some identity /\
     authorizes (identity_scope identity) stream = true) /\
  let log := log_events (event_store (authority ep)) stream in
  match cursor with
  | None => records = map to_stream_record_v1 log
  | Some c =>
      cursor_schema c = STREAM_CURSOR_SCHEMA_V1 /\ cursor_stream_id c = stream /\
      exists i e, cursor_sequence c = Z.of_nat (Datatypes.S i) /\ log !! i = Some e /\
        event_id e = cursor_event_id c /\
        records = map to_stream_record_v1 (drop (Datatypes.S i) log)
  end.
Proof.
  intros Hv Hj. unfold pull_after.
  destruct (verify_token token_digest (authority ep) token) as [i|];
    [|split; [done|intros [(? & ? & _) _]; done]].
  destruct (authorizes (identity_scope i) stream) eqn:Ha; simpl;
    [|split; [done|intros [(? & [= <-] & ?) _]; congruence]].
  assert (remote_ingress_queue_target stream = None) as ->.
  { unfold remote_ingress_queue_target, is_journal, starts_with in *.
    by destruct (strip_prefix _ stream). }
  simpl. rewrite Hj. destruct cursor as [c|]; simpl.
  - split.
    + destruct (log_read_after_cursor _ stream c) as [es|e] eqn:Hr; simpl; [|done]. intros [= <-].
      split; [by exists i|]. apply log_read_after_cursor_ok in Hr as (? & ? & j & x & ? & ? & ? & ->);
        [|done]. split_and!; try done. by exists j, x.
    + intros (_ & Hs & Hst & j & x & Hq & Hx & Hid & ->).
      rewrite (proj2 (log_read_after_cursor_ok _ stream c (drop (Datatypes.S j)
        (log_events (event_store (authority ep)) stream)) Hv)); [done|].
      split_and!; try done. by exists j, x.
  - rewrite (log_read_all _ _ Hv). simpl. split; [intros [= <-]; split; [by exists i|done]|].
    by intros [_ ->].
Qed.

Lemma take_drop_prefix {A} n k (l l' : list A) :
  l `prefix_of` l' -> (k + n <= length l)%nat -> take n (drop k l') = take n (drop k l).
Proof.
  intros [ext ->] Hle. rewrite drop_app_le by lia. rewrite take_app_le; [done|]. rewrite length_drop. lia.
Qed.

(** A landed batch is found at its place ever after. *)
Lemma landed_found request (ep ep' : Endpoint S) l :
  batch_landed request ep ep' ->
  map to_stream_record_v1 (log_events (event_store (authority ep')) (push_stream_id request))
    `prefix_of` l ->
  take (length (push_records request)) (drop (Z.to_nat (expected_next_sequence request - 1)) l) =
    push_records request.
Proof.
  intros Hl Hpre. destruct (landed_records _ _ _ Hl) as (es & Hes & Hlog).
  pose proof (landed_at _ _ _ Hl) as Hn. rewrite Hlog, map_app, Hes in Hpre.
  set (before := map to_stream_record_v1 (log_events _ _)) in Hpre.
  assert (Z.to_nat (expected_next_sequence request - 1) = length before) as ->
    by (unfold before; rewrite length_map; lia).
  rewrite (take_drop_prefix _ _ _ _ Hpre) by (rewrite length_app; lia).
  by rewrite drop_app_length, take_ge by done.
Qed.

(** The laws, for an invariant the calls preserve. *)
Lemma laws_of :
  (forall w, valid w -> sync_valid w) ->
  (forall token request w w' r, valid w -> own_records w request ->
     gate_push token request w = (w', r) -> valid w') ->
  (forall token stream cursor w w' r, valid w -> gate_pull token stream cursor w = (w', r) ->
     valid w') ->
  (forall token w w' r, valid w -> gate_renew token w = (w', r) -> valid w') ->
  SyncWorldLaws World L.
Proof.
  intros Hvalid Hpushes Hpulls Hrenews. split.
  - intros w Hw. apply Hvalid, Hw.
  - intros w stream Hw. apply Hvalid, Hw.
  - intros token request w w' r Hw Hown Hrun. split; [by eapply Hpushes|].
    apply call_ok in Hrun as (_ & Hg & Hres); [|by apply (push_stage_grows token)|by apply Hvalid].
    split; [done|]. intros ack Hack.
    destruct (Hres _ Hack) as (t & ep0 & ep & ep' & response & Hvep & Hst & Hread & Hpre).
    unfold push_stage in Hst. destruct (settle_push _ _ _ _ _ ep) as [ep1 out] eqn:Hset.
    injection Hst as <- <-. rewrite push_over_http in Hread.
    destruct out as [outcome|e]; [|done]. destruct (matches_request outcome request); [|done].
    injection Hread as ->.
    destruct (authorize_push token_digest (authority ep0) token request) as [records|] eqn:Hauth;
      [|by apply reject_ok in Hset as (_ & _ & ? & _)].
    apply authorize_push_ok in Hauth as [_ Hval].
    pose proof (settle_append token_digest _ _ _ _ _ _ _ _ Hvep Hval Hset) as (_ & Hl & _).
    by apply (landed_found _ _ _ _ Hl).
  - intros token stream cursor w w' r Hw Hj Hrun. split; [by eapply Hpulls|].
    apply call_ok in Hrun as (_ & Hg & Hres); [|apply pull_stage_grows|by apply Hvalid].
    split; [done|]. intros records Hrec.
    destruct (Hres _ Hrec) as (t & ep0 & ep & ep' & response & Hvep & Hst & Hread & Hpre).
    injection Hst as <- <-. rewrite pull_over_http in Hread.
    destruct (pull_after _ _ _ _ _) as [records'|[]] eqn:Hpull; try done. injection Hread as ->.
    apply pull_after_ok in Hpull as [_ Hpull]; [|done|done].
    destruct (Hpre stream) as [ext Hext]. unfold pulled_from. rewrite Hext.
    destruct cursor as [c|].
    + destruct Hpull as (_ & _ & i & e & -> & Hi%lookup_lt_Some & _ & ->).
      rewrite Nat2Z.id, length_app, length_map, drop_app_le, <- skipn_map by (rewrite length_map; lia).
      split; [lia|]. by apply prefix_app_r.
    + simpl. rewrite Hpull, drop_0. split; [lia|]. by apply prefix_app_r.
  - intros token w w' r Hw Hrun. split; [by eapply Hrenews|].
    by apply call_ok in Hrun as (_ & Hg & _); [|apply renew_stage_grows|apply Hvalid].
Qed.

End View.
End Laws.

(** * Runs of a child and its parent

    Every run of the composed system, from any well-formed start, keeps the
    propagator's claims true, whatever is lost, whoever writes and wherever the
    child is restarted; and a stream that nobody but its child appends to at the
    parent stays a prefix of the child's own. *)

Section Runs.
Context `{UuidParse} `{EntryCodec} {S L : Type} `{EventStoreLaws S} `{EventStoreLaws L}.
Context (token_digest : string -> string) (lease_ttl_ms : Z).
Context (rejection_fingerprint : SyncPushRequestV1 -> SyncPushRejectionReason -> string).

Notation World := (World S L).
Notation run_env := (run_env (S:=S) (L:=L) token_digest lease_ttl_ms).
Notation run_envs := (run_envs (S:=S) (L:=L) token_digest lease_ttl_ms).
Notation call := (call (S:=S) (L:=L) token_digest lease_ttl_ms).
Notation view_of := (view_of (S:=S) (L:=L) token_digest lease_ttl_ms rejection_fingerprint).
Local Instance run_world : SyncWorld World L :=
  sync_world token_digest lease_ttl_ms rejection_fingerprint.

(** A propagator in a world with the invariant [valid]. *)
Notation wf valid := (propagation_wf (H2 := view_of valid)).
Notation laws valid := (SyncWorldLaws World L (H2 := view_of valid)).
Notation grows := (world_grows (H2 := view_of sync_valid)).

Notation sync_step := (sync_step token_digest lease_ttl_ms rejection_fingerprint).

(** A step of the surroundings keeps a well-formed propagator so. *)
Lemma surroundings_wf valid p w :
  wf valid p -> valid w -> grows (world p) w -> wf valid (mk_run w (durable p) (state p)).
Proof.
  intros [Hw Hj Hs Hd] Hv Hg. split; simpl; [done|done|exact (truthful_grows _ _ _ _ Hg Hs)|].
  intros stream s Hl. destruct (Hd _ _ Hl) as [? Ht]. split; [done|].
  exact (truthful_grows _ _ _ _ Hg Ht).
Qed.

Lemma sync_step_mono (P Q : env_op -> Prop) token batch_size p p' :
  (forall o, P o -> Q o) -> sync_step P token batch_size p p' -> sync_step Q token batch_size p p'.
Proof.
  intros HPQ [now q r Hrun|o Ho|turns clock Ht|s Hs].
  - by eapply step_attempt.
  - apply step_env. by apply HPQ.
  - apply step_script. eapply Forall_impl; [exact Ht|].
    intros t (? & ? & ?). by split_and!; eapply Forall_impl.
  - by apply step_restart.
Qed.

(** Runs keep what the allowed steps and the calls keep. *)
Lemma run_wf valid allowed token batch_size p p' :
  laws valid -> (1 <= batch_size)%nat ->
  (forall o w, allowed o -> valid w -> valid (run_env o w) /\ grows w (run_env o w)) ->
  (forall w turns clock, Forall (turn_allows allowed) turns -> valid w ->
     valid (mk_world (endpoint w) (child_store w) turns clock)) ->
  rtc (sync_step allowed token batch_size) p p' -> wf valid p -> wf valid p'.
Proof.
  intros Hlaws Hb Henv Hscript Hrun Hwf.
  induction Hrun as [|p p1 p' Hstep Hrun IH]; [done|]. apply IH. clear IH Hrun.
  inversion Hstep as [now q r Hatt|o Ho|turns clock Ht|s Hload]; subst.
  - by destruct (propagate_once_ends _ _ _ _ _ _ Hb Hwf Hatt).
  - destruct (Henv o (world p) Ho (wf_world _ Hwf)). by apply surroundings_wf.
  - apply surroundings_wf; [done|apply Hscript, Hwf; done|]. by intros stream.
  - destruct Hwf as [Hw Hj Hs Hd]. destruct (Hd _ _ Hload) as [Hst Ht].
    split; simpl; [done|by rewrite Hst|by rewrite Hst|done].
Qed.

(** ** Every run *)

#[export] Instance sync_laws : laws sync_valid.
Proof.
  apply laws_of; [done|..].
  - intros token request w w' r Hw _ Hrun. eapply (call_ok _ _ rejection_fingerprint sync_valid) in Hrun; [apply Hrun| |done].
    apply (push_stage_grows token_digest _ token).
  - intros token stream cursor w w' r Hw Hrun. eapply (call_ok _ _ rejection_fingerprint sync_valid) in Hrun; [apply Hrun| |done].
    apply pull_stage_grows.
  - intros token w w' r Hw Hrun. eapply (call_ok _ _ rejection_fingerprint sync_valid) in Hrun; [apply Hrun| |done].
    apply renew_stage_grows.
Qed.

(** C1 - No run makes the propagator lie.  Start a child whose claim is true of a lawful endpoint,
    and let anything happen, in any order and any number of times: attempts to propagate, requests
    or answers lost, transactions of other lease holders before, during and after a call, appends
    of the child, restarts of the child from its durable state.  The claim in memory and every
    durable claim still name a stretch of the local stream that the parent holds. *)
Theorem run_stays_truthful token batch_size p p' :
  (1 <= batch_size)%nat -> wf sync_valid p ->
  rtc (sync_step (fun _ => True) token batch_size) p p' -> wf sync_valid p'.
Proof.
  intros Hb Hwf Hrun. eapply (run_wf sync_valid); [apply sync_laws|done| | |exact Hrun|done].
  - intros o w _ Hw. by apply run_env_ok.
  - intros w turns clock _ []. by split.
Qed.

(** ** A sole writer *)

Section Sole.
Context (stream : EventStreamId).

(** Nobody but the child appends to [stream] at the parent, now or in the script. *)
Record sole_writer (w : World) : Prop := {
  sole_valid : sync_valid w;
  sole_script : Forall (turn_allows (spares stream)) (Sync.script w);
  sole_prefix :
    map to_stream_record_v1 (log_events (event_store (authority (endpoint w))) stream) `prefix_of`
    map to_stream_record_v1 (log_events (child_store w) stream);
}.

Lemma run_env_sole o w :
  spares stream o -> sole_writer w -> sole_writer (run_env o w) /\ grows w (run_env o w).
Proof.
  intros Ho [Hv Hs Hp].
  destruct (run_env_ok token_digest lease_ttl_ms rejection_fingerprint sync_valid o w Hv) as [Hv' Hg].
  split; [|done]. split; [done|by destruct o|].
  destruct o as [o|o|other records]; [|done|].
  - simpl. destruct (run_lease token_digest lease_ttl_ms o (authority (endpoint w))) as [a r] eqn:Hrun.
    simpl. apply run_lease_store in Hrun as [->|(? & other & ? & ? & ? & ? & -> & Happ)]; [done|].
    simpl in Ho. destruct (log_append_ok _ _ _ _ _ _ (valid_parent _ Hv) Happ) as (_ & _ & _ & _ & Hoth).
    by rewrite Hoth.
  - destruct (Hg stream) as [Hl _]. etrans; [exact Hp|exact Hl].
Qed.

Lemma run_envs_sole ops w :
  Forall (spares stream) ops -> sole_writer w ->
  sole_writer (run_envs ops w) /\ grows w (run_envs ops w).
Proof.
  unfold Sync.run_envs. intros Hops. revert w.
  induction Hops as [|o ops Ho Hops IH]; intros w Hw; simpl; [done|].
  destruct (run_env_sole o w Ho Hw) as [Hw1 Hg1]. destruct (IH _ Hw1) as [Hw2 Hg2].
  split; [done|]. by etrans.
Qed.

(** A call keeps a sole writer so when its second stage does. *)
Lemma call_sole {A B} (stage1 : Turn -> Endpoint S -> A) stage2
    (read_reply : HttpResponse -> result B GateError) w w' r :
  (forall t ep0 w1 ep' response, sole_writer w1 -> grows w w1 ->
     stage2 t (stage1 t ep0) (endpoint w1) = (ep', response) ->
     sole_writer (set_endpoint ep' w1)) ->
  sole_writer w -> call stage1 stage2 read_reply w = (w', r) -> sole_writer w'.
Proof.
  intros Hst Hw. unfold Sync.call.
  assert (exists t w1, next_turn w = (t, w1) /\ sole_writer w1 /\ grows w w1 /\
    turn_allows (spares stream) t) as (t & w1 & -> & Hw1 & Hg1 & Hbefore & Hbetween & Hafter).
  { destruct Hw as [[] Hs Hp]. unfold next_turn. destruct (Sync.script w) as [|t rest] eqn:Hscript.
    - eexists _, _. split_and!; [done|split; [done|by rewrite Hscript|done]|done|done..].
    - apply Forall_cons_1 in Hs as [Ht Hrest]. eexists _, _. split_and!; [done| | |apply Ht..].
      + by split; [|exact Hrest|exact Hp].
      + by intros ?. }
  destruct (run_envs_sole _ w1 Hbefore Hw1) as [Hw2 Hg2]. set (w2 := run_envs (before t) w1) in *.
  destruct (fate t) eqn:Hf; [|by intros [= <- _]; apply run_envs_sole|];
    (destruct (run_envs_sole _ w2 Hbetween Hw2) as [Hw3 Hg3]; set (w3 := run_envs (between t) w2) in *);
    destruct (stage2 t (stage1 t (endpoint w2)) (endpoint w3)) as [ep' response] eqn:Hrun;
    intros [= <- _]; apply run_envs_sole; try done; apply (Hst _ _ _ _ _ Hw3) in Hrun; try done;
    do 2 (etrans; [done|]); done.
Qed.

(** An endpoint with the same store changes nothing. *)
Lemma sole_same_store w ep :
  sole_writer w -> event_store (authority ep) = event_store (authority (endpoint w)) ->
  sole_writer (set_endpoint ep w).
Proof. intros [[] Hs Hp] Heq. split; [split; simpl; by rewrite ?Heq|done|simpl; by rewrite Heq]. Qed.

(** The child's own records land where they stand in its stream. *)
Lemma sole_landed request w ep :
  own_records w request -> sole_writer w ->
  batch_landed request (endpoint w) ep -> sole_writer (set_endpoint ep w).
Proof.
  intros [_ Hown] [[] Hs Hp] Hl. split; [split; [apply Hl|done..]|done|]. simpl.
  destruct (decide (stream = push_stream_id request)) as [->|Hne];
    [|by rewrite (landed_elsewhere _ _ _ Hl)].
  destruct (landed_records _ _ _ Hl) as (es & Hes & ->). rewrite map_app, Hes.
  rewrite (landed_at _ _ _ Hl) in Hown.
  set (remote := map to_stream_record_v1 (log_events (event_store (authority (endpoint w))) _)) in *.
  set (local := map to_stream_record_v1 (log_events (child_store w) _)) in *.
  replace (Z.to_nat _) with (length remote) in Hown by (unfold remote; rewrite length_map; lia).
  destruct Hp as [ext Hext]. unfold local_log in Hown. simpl in Hown. fold local in Hown.
  rewrite Hext, drop_app_length in Hown. rewrite Hext. by apply prefix_app.
Qed.

#[export] Instance sole_laws : laws sole_writer.
Proof.
  apply laws_of; [by intros w []|..].
  - intros token request w w' r Hw Hown Hrun. eapply call_sole in Hrun; [done| |done].
    intros t ep0 w1 ep' response Hw1 Hg. unfold push_stage.
    destruct (settle_push _ _ _ _ _ (endpoint w1)) as [ep1 out] eqn:Hset. intros [= <- _].
    apply settle_push_store in Hset as [Heq|Hl]; [by apply sole_same_store; rewrite ?Heq| |apply Hw1].
    apply (sole_landed request); [|done|done]. destruct Hown as [Hpos Hown]. split; [done|].
    destruct (Hg (push_stream_id request)) as [Hlocal _].
    etrans; [exact Hown|]. destruct Hlocal as [ext Hext].
    unfold local_log in *. simpl in *. rewrite Hext, drop_app. by apply prefix_app_r.
  - intros token cursor_stream cursor w w' r Hw Hrun. eapply call_sole in Hrun; [done| |done].
    intros t ep0 w1 ep' response Hw1 _ [= <- _]. by apply sole_same_store.
  - intros token w w' r Hw Hrun. eapply call_sole in Hrun; [done| |done].
    intros t ep0 w1 ep' response Hw1 _ Heq%renew_stage_store. by apply sole_same_store.
Qed.
End Sole.

(** C2 - A stream that nobody else appends to at the parent is never forked by propagation: in
    every run of the child - with lost requests, lost answers, renewals, restarts and other leases
    at work on other streams - the parent's stream is, record for record, a prefix of the child's
    own.  Retries neither duplicate nor reorder nor skip a record. *)
Theorem sole_writer_prefix stream token batch_size p p' :
  (1 <= batch_size)%nat -> wf sync_valid p -> sole_writer stream (world p) ->
  rtc (sync_step (spares stream) token batch_size) p p' ->
  map to_stream_record_v1 (log_events (event_store (authority (endpoint (world p')))) stream)
    `prefix_of` map to_stream_record_v1 (log_events (child_store (world p')) stream).
Proof.
  intros Hb [Hw Hj Hs Hd] Hsole Hrun.
  assert (wf (sole_writer stream) p) as Hwf by (by split).
  eapply (run_wf (sole_writer stream)) in Hwf; [apply Hwf|apply sole_laws|done| | |exact Hrun].
  - intros o w. apply run_env_sole.
  - intros w turns clock Ht [[] _ Hp]. by split.
Qed.
End Runs.
