(* ===== verification/SyncLive.v ===== *)
(** * When a child and its parent converge

    Progress, once the network is back: the answer of each attempt, exactly, as a
    function of how many records the child has, how many it claims and how many the
    parent holds.  An attempt under a current lease cuts a batch at the claim; it
    advances when the parent lacks the whole batch or holds the whole batch, and
    reports divergence when the parent holds a part of it. *)

From stdpp Require Import base gmap sets list strings pretty relations.
From Stdlib Require Import ZArith Lia.
From S2P Require Import Prelude Json EventKind EventSchemas Contracts Records Store Journal EventLog Lease LeaseFacts LeaseProps Ingress.
From S2P Require Import Queue Endpoint Propagator Http Sync.

Local Open Scope string_scope.
Local Open Scope list_scope.

Section Live.
Context `{UuidParse} `{EntryCodec} {S L : Type} `{EventStoreProgress S} `{EventStoreProgress L}.
Context (token_digest : string -> string) (lease_ttl_ms : Z).
Context (rejection_fingerprint : SyncPushRequestV1 -> SyncPushRejectionReason -> string).
Context (token : string) (batch_size : nat) (now_ms : Z).

Notation World := (World S L).
Notation call := (call (S:=S) (L:=L) token_digest lease_ttl_ms).
Notation view_of := (view_of (S:=S) (L:=L) token_digest lease_ttl_ms rejection_fingerprint).
Local Instance world_instance : SyncWorld World L :=
  sync_world token_digest lease_ttl_ms rejection_fingerprint.
Notation wf := (propagation_wf (H2 := view_of sync_valid)).
Notation propagate_once := (propagate_once (W:=World) token batch_size now_ms).
Notation drain :=
  (fun fuel => drain (S:=S) (L:=L) token_digest lease_ttl_ms rejection_fingerprint fuel token
                 batch_size now_ms).

(** ** The situation *)

Notation parent w := (authority (endpoint w)).

(** The child's stream, and the parent's. *)
Definition here (p : Propagation World) : list EventRecord :=
  log_events (child_store (world p)) (prop_stream_id (state p)).
Definition there (p : Propagation World) : list EventRecord :=
  log_events (event_store (parent (world p))) (prop_stream_id (state p)).
Definition claim (p : Propagation World) : nat := through_index (pushed_through (state p)).

(** The network delivers, the lease is current, the credential good, and the parent holds nothing
    but a stretch of the child's stream. *)
Record linked (p : Propagation World) : Prop := {
  linked_wf : wf p;
  linked_quiet : Sync.script (world p) = [];
  linked_scope : authorizes (grant_scope (prop_lease (state p))) (prop_stream_id (state p)) = true;
  linked_unexpired : renewal_due now_ms (prop_lease (state p)) = false;
  linked_token : exists i, verify_token token_digest (parent (world p)) token = Some i /\
    authorizes (identity_scope i) (prop_stream_id (state p)) = true /\
    identity_lease_id i = grant_lease_id (prop_lease (state p));
  linked_lease : check_fence (parent (world p)) (clock_ms (world p)) (prop_stream_id (state p))
    (grant_lease_id (prop_lease (state p))) = Current;
  linked_open : log_open (event_store (parent (world p))) (prop_stream_id (state p));
  linked_prefix : there p `prefix_of` here p;
  linked_ids other e e' : other <> prop_stream_id (state p) ->
    e ∈ log_events (event_store (parent (world p))) other -> e' ∈ here p ->
    event_id e <> event_id e';
  linked_comparable e : e ∈ here p ->
    envelope_eqb (to_stream_record_v1 e) (to_stream_record_v1 e) = true;
}.

(** ** Lists of records *)

Lemma envelopes_eqb_refl (es : list EventRecord) :
  (forall e, e ∈ es -> envelope_eqb (to_stream_record_v1 e) (to_stream_record_v1 e) = true) ->
  envelopes_eqb (map to_stream_record_v1 es) (map to_stream_record_v1 es) = true.
Proof.
  intros Hes. induction es as [|e es IH]; [done|]. simpl. rewrite Hes by left. simpl.
  apply IH. intros e' He'. apply Hes. by right.
Qed.

Lemma take_length_take {A} n (l : list A) : take (length (take n l)) l = take n l.
Proof. by rewrite length_take, <- take_take, (take_ge l). Qed.

(** A stretch of a stream is what appending its records there would number. *)
Lemma numbered_stretch {T} `{EventStoreLaws T} (s : T) stream k n :
  log_valid s ->
  numbered stream (Z.of_nat k) (map as_new (take n (drop k (log_events s stream)))) =
    take n (drop k (log_events s stream)).
Proof.
  intros Hv. apply list_eq. intros i. rewrite numbered_lookup_eq, list_lookup_fmap.
  destruct (take n _ !! i) as [e|] eqn:He; [|done]. simpl. f_equal.
  apply lookup_take_Some in He as [He _]. rewrite lookup_drop in He.
  destruct (log_numbered _ _ _ _ Hv He) as [Hseq Hst]. destruct e; simpl in *.
  unfold from_new, as_new. simpl. subst. f_equal. lia.
Qed.

Lemma log_nodup {T} `{EventStoreLaws T} (s : T) stream :
  log_valid s -> NoDup (map event_id (log_events s stream)).
Proof.
  intros Hv. apply NoDup_alt. intros i j id Hi Hj.
  apply list_lookup_fmap_Some in Hi as (e & -> & He). apply list_lookup_fmap_Some in Hj as (e' & Hid & He').
  pose proof (log_ids_unique s stream e e' Hv (list_elem_of_lookup_2 _ _ _ He)
    (list_elem_of_lookup_2 _ _ _ He') Hid) as <-.
  destruct (log_numbered _ _ _ _ Hv He) as [Hs _], (log_numbered _ _ _ _ Hv He') as [Hs' _]. lia.
Qed.

(** ** Calls in a quiet world *)

Lemma quiet_call {A B} (stage1 : Turn -> Endpoint S -> A) stage2
    (read_reply : HttpResponse -> result B GateError) (w : World) :
  Sync.script w = [] ->
  let t := mk_turn [] [] [] Delivered (clock_ms w) (clock_ms w) in
  call stage1 stage2 read_reply w =
    (let (ep, response) := stage2 t (stage1 t (endpoint w)) (endpoint w) in
     (set_endpoint ep w, read_reply response)).
Proof.
  intros Hs. unfold Sync.call, next_turn. rewrite Hs. simpl. by destruct (stage2 _ _ _).
Qed.

(** ** The push of an attempt *)

(** The batch an attempt cuts, as events and as a request. *)
Definition stretch (p : Propagation World) : list EventRecord :=
  take batch_size (drop (claim p) (here p)).
Definition cut (p : Propagation World) : SyncPushRequestV1 :=
  mk_push SYNC_PUSH_SCHEMA_V1 (prop_stream_id (state p)) (grant_lease_id (prop_lease (state p)))
    (Z.of_nat (claim p) + 1) (map to_stream_record_v1 (stretch p)).

Section Attempt.
Context (p : Propagation World) (Hp : linked p).

Lemma claim_le : (claim p <= length (there p) <= length (here p))%nat.
Proof.
  pose proof (prefix_length _ _ (linked_prefix _ Hp)).
  destruct (wf_state _ (linked_wf _ Hp)) as [_ [Hk Hs]].
  apply Forall2_length in Hs. rewrite !length_take in Hs.
  unfold local_log in *. simpl in *. rewrite !length_map in *.
  fold (here p) (there p) (claim p) in *. lia.
Qed.

Lemma child_valid : log_valid (child_store (world p)).
Proof. apply (wf_world _ (linked_wf _ Hp)). Qed.

Lemma parent_valid : log_valid (event_store (parent (world p))).
Proof. apply (wf_world _ (linked_wf _ Hp)). Qed.

Lemma stretch_here e : e ∈ stretch p -> e ∈ here p.
Proof. intros (i & [Hi _]%lookup_take_Some)%list_elem_of_lookup. rewrite lookup_drop in Hi. by eapply list_elem_of_lookup_2. Qed.

Lemma stretch_numbered :
  numbered (prop_stream_id (state p)) (Z.of_nat (claim p)) (map as_new (stretch p)) = stretch p.
Proof. apply numbered_stretch, child_valid. Qed.

Lemma stretch_admissible : Forall admissible (map as_new (stretch p)).
Proof.
  apply Forall_forall. intros r (e & -> & He)%list_elem_of_fmap.
  eapply log_admissible; [apply child_valid|by apply stretch_here].
Qed.

Lemma cut_authorized :
  (1 <= batch_size)%nat -> (claim p < length (here p))%nat ->
  authorize_push token_digest (parent (world p)) token (cut p) = Ok (map as_new (stretch p)).
Proof.
  intros Hb Hk. apply authorize_push_ok. split; [by apply linked_token|].
  apply validate_push_request_ok. simpl. split_and!; [done|lia| | |].
  - intros Hnil%map_eq_nil. apply (f_equal length) in Hnil. unfold stretch in Hnil.
    rewrite length_take, length_drop in Hnil. simpl in Hnil. lia.
  - f_equal. rewrite <- stretch_numbered at 1. f_equal. lia.
  - replace (Z.of_nat (claim p) + 1 - 1)%Z with (Z.of_nat (claim p)) by lia.
    rewrite stretch_numbered. apply Forall_lookup. intros i e He. split.
    + assert (sequence e = Z.of_nat (Datatypes.S (claim p + i)) /\ (claim p + i < length (here p))%nat)
        as [-> Hlt].
      { apply lookup_take_Some in He as [He _]. rewrite lookup_drop in He.
        split; [by apply (log_numbered _ _ _ _ child_valid He)|by eapply lookup_lt_Some]. }
      pose proof (valid_bounded _ (wf_world _ (linked_wf _ Hp)) (prop_stream_id (state p))).
      fold (here p) in *. unfold in_i64, i64_min. to_prop. rewrite andb_true_iff, !Z.leb_le. lia.
    + pose proof stretch_admissible as Hadm. rewrite Forall_forall in Hadm.
      destruct (admissible_event (stream_id e) (sequence e) (as_new e)) as [Hval _];
        [|by destruct e]. apply Hadm. apply list_elem_of_fmap_2. by eapply list_elem_of_lookup_2.
Qed.

Notation settle := (settle_push (S:=S) rejection_fingerprint (clock_ms (world p))
  (clock_ms (world p)) (cut p) (Ok (map as_new (stretch p)))).

(** The ids of an unpushed batch are new at the parent. *)
Lemma stretch_fresh :
  claim p = length (there p) ->
  NoDup (new_id <$> map as_new (stretch p)) /\
  forall r, r ∈ map as_new (stretch p) ->
    forall other e, e ∈ log_events (event_store (parent (world p))) other -> event_id e <> new_id r.
Proof.
  intros Hq. pose proof (log_nodup _ (prop_stream_id (state p)) child_valid) as Hnd.
  fold (here p) in Hnd. split.
  - rewrite <- list_fmap_compose. unfold stretch.
    change (NoDup (event_id <$> take batch_size (drop (claim p) (here p)))).
    rewrite fmap_take, fmap_drop. eapply sublist_NoDup; [exact Hnd|].
    etrans; [apply sublist_take|apply sublist_drop].
  - intros r (e & -> & He)%list_elem_of_fmap other e' He'. simpl.
    destruct (decide (other = prop_stream_id (state p))) as [->|Hne];
      [|by eapply linked_ids; [done|done|exact He'|apply stretch_here]].
    fold (there p) in He'. apply list_elem_of_lookup in He' as (i & Hi), He as (j & Hj).
    apply lookup_take_Some in Hj as [Hj _]. rewrite lookup_drop in Hj.
    pose proof (lookup_lt_Some _ _ _ Hi) as Hlt.
    pose proof (prefix_lookup_Some _ _ _ _ Hi (linked_prefix _ Hp)) as Hi'.
    intros Heq. assert (i = (claim p + j)%nat); [|lia].
    apply (NoDup_lookup (map event_id (here p)) _ _ (event_id e) Hnd); rewrite list_lookup_fmap;
      [by rewrite Hi', <- Heq|by rewrite Hj].
Qed.

Lemma stretch_lookup i e :
  stretch p !! i = Some e ->
  sequence e = Z.of_nat (Datatypes.S (claim p + i)) /\ stream_id e = prop_stream_id (state p) /\
  (Z.of_nat (Datatypes.S (claim p + i)) < i64_max)%Z.
Proof.
  intros [He _]%lookup_take_Some. rewrite lookup_drop in He.
  destruct (log_numbered _ _ _ _ child_valid He). split_and!; try done.
  pose proof (valid_bounded _ (wf_world _ (linked_wf _ Hp)) (prop_stream_id (state p))).
  fold (here p) in *. apply lookup_lt_Some in He. lia.
Qed.

Lemma stretch_acked :
  (1 <= batch_size)%nat -> (claim p < length (here p))%nat ->
  exists ack, from_appended (prop_stream_id (state p)) (stretch p)
    [StreamCommitted; QueryProjected] = Ok ack.
Proof.
  intros Hb Hk. assert (length (stretch p) <> 0)%nat as Hlen
    by (unfold stretch; rewrite length_take, length_drop; lia).
  destruct (head (stretch p)) as [first|] eqn:Hh; [|by destruct (stretch p)].
  destruct (last (stretch p)) as [final|] eqn:Hl;
    [|apply last_None in Hl; by rewrite Hl in Hlen].
  eexists. apply from_appended_spec. exists first, final. split_and!; try done. intros i e He.
  rewrite head_lookup in Hh. apply stretch_lookup in Hh as (-> & _ & _).
  apply stretch_lookup in He as (-> & -> & Hmax). split; [done|].
  rewrite i64_wrapping_add_exact; [lia|]. unfold in_i64. rewrite andb_true_iff, !Z.leb_le.
  unfold i64_min. lia.
Qed.

(** The parent lacks the batch: it lands. *)
Lemma settle_lands :
  (1 <= batch_size)%nat -> (claim p < length (here p))%nat -> claim p = length (there p) ->
  exists ep ack, settle (endpoint (world p)) = (ep, Ok (Accepted ack)) /\
    log_open (event_store (authority ep)) (prop_stream_id (state p)).
Proof.
  intros Hb Hk Hq. pose proof (linked_lease _ Hp) as Hcur. unfold check_fence in Hcur.
  destruct (stretch_fresh Hq) as [Hnd Hf].
  destruct (log_append_accepts _ _ _ parent_valid (linked_open _ Hp) stretch_admissible Hnd Hf)
    as (s' & es & Hopen & Happ).
  fold (there p) in Happ. rewrite <- Hq in Happ.
  replace (Z.of_nat (Datatypes.S (claim p))) with (Z.of_nat (claim p) + 1)%Z in Happ by lia.
  unfold settle_push, st_bind at 1, on_authority, append_if_current, st_bind at 1, st_get.
  simpl. rewrite Hcur. simpl. rewrite Happ.
  pose proof (log_append_ok _ _ _ _ _ _ parent_valid Happ) as (_ & _ & -> & _).
  fold (there p). rewrite <- Hq, stretch_numbered.
  destruct (stretch_acked Hb Hk) as [ack Hack]. unfold st_bind, st_lift. rewrite Hack. simpl.
  by eexists _, _.
Qed.

(** The parent has gone on: the batch is refused for its sequence. *)
Lemma settle_conflicts :
  claim p <> length (there p) ->
  exists ep, settle (endpoint (world p)) =
    (ep, Ok (Rejected (mk_rejection SYNC_PUSH_REJECTION_SCHEMA_V1 (prop_stream_id (state p))
       (grant_lease_id (prop_lease (state p)))
       (ReasonSequenceFence (Z.of_nat (length (there p)) + 1)) (clock_ms (world p))))) /\
    authority ep = parent (world p).
Proof.
  intros Hq. pose proof (linked_lease _ Hp) as Hcur. unfold check_fence in Hcur.
  pose proof (log_append_refuses _ _ (Z.of_nat (claim p) + 1) (map as_new (stretch p)) parent_valid
    (linked_open _ Hp)) as Happ. fold (there p) in Happ.
  replace (Z.of_nat (Datatypes.S (length (there p)))) with (Z.of_nat (length (there p)) + 1)%Z
    in Happ by lia. cbn zeta in Happ. specialize (Happ ltac:(lia)).
  destruct (settle (endpoint (world p))) as [ep [out|e]] eqn:Hset;
    unfold settle_push, st_bind at 1, on_authority, append_if_current, st_bind at 1, st_get in Hset;
    simpl in Hset; rewrite Hcur in Hset; simpl in Hset; rewrite Happ in Hset; simpl in Hset;
    [|by apply reject_err in Hset].
  apply reject_ok in Hset as (Hau & _ & -> & _). by exists ep.
Qed.

(** The stores an attempt may leave behind: the claim's stretch landed, or nothing did. *)
Lemma push_answers :
  (1 <= batch_size)%nat -> (claim p < length (here p))%nat ->
  exists ep outcome,
    on_world (gate_push token (cut p)) p =
      (mk_run (set_endpoint ep (world p)) (durable p) (state p), Ok (Ok outcome)) /\
    matches_request outcome (cut p) = true /\
    if decide (claim p = length (there p)) then
      (exists ack, outcome = Accepted ack) /\ batch_landed (cut p) (endpoint (world p)) ep /\
      log_open (event_store (authority ep)) (prop_stream_id (state p))
    else
      (exists rejection, outcome = Rejected rejection /\
         rejection_reason rejection = ReasonSequenceFence (Z.of_nat (length (there p)) + 1)) /\
      authority ep = parent (world p).
Proof.
  intros Hb Hk. pose proof (quiet_call (fun _ ep => authorize_push token_digest (authority ep) token (cut p))
    (push_stage rejection_fingerprint (cut p)) (client_push (cut p)) (world p) (linked_quiet _ Hp))
    as Hcall. cbn zeta beta in Hcall. unfold on_world, gate_push. simpl. rewrite Hcall. clear Hcall.
  pose proof (cut_authorized Hb Hk) as Hauth. rewrite Hauth.
  apply authorize_push_ok in Hauth as [_ Hval]. unfold push_stage. cbn [turn_now_ms turn_reject_now_ms].
  destruct (decide (claim p = length (there p))) as [Hq|Hq].
  - destruct (settle_lands Hb Hk Hq) as (ep & ack & Hset & Hopen). rewrite Hset.
    apply (settle_append token_digest _ _ _ _ _ _ _ _ parent_valid Hval) in Hset as (_ & Hl & Hm).
    exists ep, (Accepted ack). rewrite push_over_http, Hm. split_and!; try done. by exists ack.
  - destruct (settle_conflicts Hq) as (ep & Hset & Hau). rewrite Hset.
    set (outcome := Rejected _). assert (matches_request outcome (cut p) = true) as Hm
      by (simpl; by rewrite !String.eqb_refl).
    exists ep, outcome. rewrite push_over_http, Hm. split_and!; try done. by eexists.
Qed.

(** ** The reconciliation of an attempt *)

(** The cursor at the claim. *)
Definition claim_cursor : option StreamCursorV1 :=
  match claim p with O => None | Datatypes.S i => cursor_v1 <$> here p !! i end.

Lemma reconcile_cursor_at_claim :
  (claim p < length (here p))%nat ->
  reconcile_cursor (prop_stream_id (state p)) (Z.of_nat (claim p) + 1) p = (p, Ok claim_cursor).
Proof.
  intros Hk. unfold reconcile_cursor, claim_cursor. destruct (claim p) as [|i] eqn:Hc; [done|].
  rewrite (proj2 (Z.eqb_neq _ _)) by lia.
  unfold st_bind, read_local, st_bind, st_get, st_lift, st_ret. simpl.
  rewrite (log_read_from _ _ _ child_valid). fold (here p). simpl.
  replace (Z.to_nat (Z.of_nat (Datatypes.S i) + 1 - 1 - 1)) with i by lia.
  rewrite head_lookup, lookup_drop, Nat.add_0_r.
  destruct (lookup_lt_is_Some_2 (here p) i) as [e He]; [lia|]. by rewrite He.
Qed.

Lemma pull_answers :
  on_world (gate_pull token (prop_stream_id (state p)) claim_cursor) p =
    (p, Ok (Ok (map to_stream_record_v1 (drop (claim p) (there p))))).
Proof.
  pose proof (quiet_call (fun _ _ => tt) (pull_stage token_digest token (prop_stream_id (state p))
    claim_cursor) client_pull (world p) (linked_quiet _ Hp)) as Hcall.
  cbn zeta beta in Hcall. unfold on_world, gate_pull. simpl. rewrite Hcall. clear Hcall.
  unfold pull_stage. rewrite pull_over_http.
  rewrite (proj2 (pull_after_ok token_digest (endpoint (world p)) token (prop_stream_id (state p))
    claim_cursor (map to_stream_record_v1 (drop (claim p) (there p))) parent_valid
    (wf_journal _ (linked_wf _ Hp)))); [by destruct p as [[] ? ?]|].
  split; [destruct (linked_token _ Hp) as (i & ? & ? & _); by exists i|].
  unfold claim_cursor. fold (there p). pose proof claim_le as Hle.
  destruct (claim p) as [|i]; [by rewrite drop_0|].
  destruct (lookup_lt_is_Some_2 (there p) i) as [e He]; [lia|].
  rewrite (prefix_lookup_Some _ _ _ _ He (linked_prefix _ Hp)). simpl.
  destruct (log_numbered _ _ _ _ parent_valid He) as [Hseq Hst].
  split_and!; [done|done|]. by exists i, e.
Qed.

Lemma stretch_length : length (stretch p) = Nat.min batch_size (length (here p) - claim p).
Proof. unfold stretch. by rewrite length_take, length_drop. Qed.

Lemma there_stretch : there p = take (length (there p)) (here p).
Proof. destruct (linked_prefix _ Hp) as [ext Hext]. rewrite Hext. by rewrite take_app_length. Qed.

Lemma reconcile_answers first final actual :
  (claim p < length (here p))%nat -> env_sequence first = (Z.of_nat (claim p) + 1)%Z ->
  reconcile_sequence_conflict token first final (map to_stream_record_v1 (stretch p)) actual p =
    if (length (there p) <? claim p + length (stretch p))%nat
    then (p, Ok (StreamDiverged actual)) else advance (env_sequence final) p.
Proof.
  intros Hk Hfirst. unfold reconcile_sequence_conflict, st_bind at 1 2, st_get.
  rewrite Hfirst, (reconcile_cursor_at_claim Hk). unfold st_bind at 1. rewrite pull_answers.
  pose proof claim_le as Hle. rewrite !length_map, !length_drop.
  assert (forall es, (forall e, e ∈ es -> e ∈ here p) ->
    envelopes_eqb (map to_stream_record_v1 es) (map to_stream_record_v1 es) = true) as Hrefl
    by (intros es Hes; apply envelopes_eqb_refl; intros e He; by apply (linked_comparable _ Hp), Hes).
  assert (drop (claim p) (there p) =
    take (length (there p) - claim p) (drop (claim p) (here p))) as Hthere
    by by rewrite there_stretch at 1; rewrite skipn_firstn_comm.
  destruct (Nat.ltb_spec (length (there p) - claim p) (length (stretch p))) as [Hlt|Hge];
    destruct (Nat.ltb_spec (length (there p)) (claim p + length (stretch p))); try lia; [done|].
  rewrite firstn_map, Hthere, take_take, Nat.min_l by lia.
  assert (take (length (stretch p)) (drop (claim p) (here p)) = stretch p) as ->
    by apply take_length_take.
  rewrite Hrefl by apply stretch_here. simpl.
  destruct (Nat.ltb_spec (length (stretch p)) (length (there p) - claim p)); [|done].
  unfold st_bind at 1, read_local, st_bind, st_get, st_lift. simpl.
  rewrite (log_read_from _ _ _ child_valid). fold (here p). simpl.
  replace (Z.to_nat (Z.of_nat (claim p) + 1 - 1)) with (claim p) by lia.
  rewrite length_map, (proj2 (Nat.ltb_ge _ _)) by (rewrite length_drop; lia).
  rewrite firstn_map, Hrefl; [done|]. intros e (i & [Hi _]%lookup_take_Some)%list_elem_of_lookup.
  rewrite lookup_drop in Hi. by eapply list_elem_of_lookup_2.
Qed.
End Attempt.

(** ** What an attempt leaves behind *)

(** Only the rejection witnesses changed. *)
Lemma linked_same p ep :
  linked p -> authority ep = parent (world p) ->
  linked (mk_run (set_endpoint ep (world p)) (durable p) (state p)).
Proof.
  intros Hp Hau. assert (sync_valid (set_endpoint ep (world p))) as Hv.
  { destruct (wf_world _ (linked_wf _ Hp)) as [Hpa Hc Hbd]. split; [|done..]. simpl. by rewrite Hau. }
  destruct Hp. split; unfold there, here in *; simpl; rewrite ?Hau; try done.
  apply surroundings_wf; [done|done|]. apply world_grows_stores; [simpl; rewrite Hau|];
    by apply store_grows_refl; apply (wf_world _ linked_wf0).
Qed.

(** The batch landed. *)
Lemma linked_landed p ep :
  linked p -> claim p = length (there p) -> batch_landed (cut p) (endpoint (world p)) ep ->
  log_open (event_store (authority ep)) (prop_stream_id (state p)) ->
  let p' := mk_run (set_endpoint ep (world p)) (durable p) (state p) in
  linked p' /\ there p' = there p ++ stretch p.
Proof.
  intros Hp Hq Hl Hopen p'.
  assert (there p' = there p ++ stretch p) as Hthere.
  { destruct (landed_records _ _ _ Hl) as (es & Hes & Hlog). apply (inj (map _)) in Hes as ->. done. }
  split; [|done].
  assert (sync_valid (world p')) as Hv.
  { destruct (wf_world _ (linked_wf _ Hp)) as [Hpa Hc Hbd]. split; [|done..]. apply Hl. }
  pose proof (surroundings_wf token_digest lease_ttl_ms rejection_fingerprint sync_valid p (world p')
    (linked_wf _ Hp) Hv) as Hwf'.
  destruct Hp. split; try done.
  - apply Hwf'. apply world_grows_stores; [by eapply landed_grows|].
    apply store_grows_refl, (wf_world _ linked_wf0).
  - destruct linked_token0 as (i & Hi & ?). exists i. split; [|done]. simpl. rewrite <- Hi.
    unfold verify_token. by rewrite (landed_leases _ _ _ Hl), (landed_credentials _ _ _ Hl).
  - unfold check_fence in *. simpl. by rewrite (landed_leases _ _ _ Hl).
  - rewrite Hthere. change (here p') with (here p). unfold stretch. rewrite Hq.
    destruct linked_prefix0 as [ext Hext]. rewrite Hext, drop_app_length.
    apply prefix_app, prefix_take.
  - intros other e e' Hne. simpl. rewrite (landed_elsewhere _ _ _ Hl) by done. by apply linked_ids0.
Qed.

(** The claim moves to what the parent holds. *)
Lemma linked_advance p k :
  linked p -> (1 <= k <= length (there p))%nat ->
  exists p', advance (Z.of_nat k) p = (p', Ok (Advanced (Z.of_nat k))) /\
    linked p' /\ here p' = here p /\ there p' = there p /\ claim p' = k.
Proof.
  intros Hp Hk. set (s := mk_propagation (prop_stream_id (state p)) (prop_lease (state p))
    (Some (Z.of_nat k))).
  pose proof (prefix_length _ _ (linked_prefix _ Hp)) as Hle.
  assert (truthful (H2 := view_of sync_valid) (world p) (prop_stream_id s) (pushed_through s)) as Ht.
  { split; [intros q [= <-]; lia|]. unfold local_log. simpl. rewrite Nat2Z.id.
    fold (here p) (there p). rewrite length_map. split; [lia|].
    rewrite (there_stretch p Hp), !firstn_map, take_take, Nat.min_l by lia. reflexivity. }
  destruct (st_bind (st_modify (set_state s)) (fun _ => persist) p) as [p' r] eqn:Hrun.
  pose proof (persist_state_ok p s p' r (linked_wf _ Hp) eq_refl Ht Hrun) as (-> & Hwf & Hw & Hs & _).
  exists p'. unfold advance, st_bind, st_get, st_modify, st_ret in *. simpl in *.
  split; [by injection Hrun as <-|].
  assert (here p' = here p /\ there p' = there p) as [Hh Hth] by (unfold here, there; by rewrite Hw, Hs).
  destruct Hp. split_and!; try done; [|unfold claim; rewrite Hs; simpl; lia].
  split; rewrite ?Hw, ?Hs, ?Hh, ?Hth; try done.
Qed.

(** ** Attempts *)

Lemma read_local_claim p :
  linked p ->
  read_local (prop_stream_id (state p))
    ((fun through => i64_saturating_add through 1) <$> pushed_through (state p)) p =
    (p, Ok (drop (claim p) (here p))).
Proof.
  intros Hp. unfold read_local, st_bind, st_get, st_lift. simpl. pose proof (child_valid p Hp) as Hv.
  destruct (wf_state _ (linked_wf _ Hp)) as [Hpos [Hlen _]].
  unfold claim. destruct (pushed_through (state p)) as [t|]; simpl;
    [rewrite (log_read_from _ _ _ Hv)|by rewrite (log_read_all _ _ Hv)].
  simpl in Hlen. unfold local_log in Hlen. rewrite length_map in Hlen. specialize (Hpos t eq_refl).
  pose proof (valid_bounded _ (wf_world _ (linked_wf _ Hp)) (prop_stream_id (state p))).
  simpl in Hlen. fold (here p) in *. simpl. do 2 f_equal.
  unfold i64_saturating_add, i64_saturate, i64_min. f_equal. lia.
Qed.

Lemma attempt_of_linked p :
  linked p -> (1 <= batch_size)%nat ->
  propagate_once p =
    match head (map to_stream_record_v1 (stretch p)), last (map to_stream_record_v1 (stretch p)) with
    | Some first, Some final =>
        push_loop token 1
          (mk_push SYNC_PUSH_SCHEMA_V1 (prop_stream_id (state p))
             (grant_lease_id (prop_lease (state p))) (env_sequence first)
             (map to_stream_record_v1 (stretch p))) first final p
    | _, _ => (p, Ok Converged)
    end.
Proof.
  intros Hp Hb. cbv beta iota delta [Propagator.propagate_once st_bind st_get renew_if_due st_ret].
  rewrite (linked_scope _ Hp). cbv beta iota delta [negb]. rewrite (linked_unexpired _ Hp).
  cbv beta iota zeta. rewrite (read_local_claim p Hp). cbv beta iota zeta. fold (stretch p).
  destruct (head (map to_stream_record_v1 (stretch p))); [|done].
  by destruct (last (map to_stream_record_v1 (stretch p))).
Qed.

(** The exact answer. *)
Definition advances (p : Propagation World) : Prop :=
  claim p = length (there p) \/
  (claim p + Nat.min batch_size (length (here p) - claim p) <= length (there p))%nat.

#[export] Instance advances_dec p : Decision (advances p).
Proof. apply _. Defined.

Definition next_claim (p : Propagation World) : nat :=
  (claim p + Nat.min batch_size (length (here p) - claim p))%nat.

(** The ends of a batch. *)
Lemma stretch_ends p :
  linked p -> (1 <= batch_size)%nat -> (claim p < length (here p))%nat ->
  exists first final,
    head (map to_stream_record_v1 (stretch p)) = Some first /\
    last (map to_stream_record_v1 (stretch p)) = Some final /\
    env_sequence first = (Z.of_nat (claim p) + 1)%Z /\
    env_sequence final = Z.of_nat (next_claim p).
Proof.
  intros Hp Hb Hk. pose proof (stretch_length p) as Hsl.
  destruct (lookup_lt_is_Some_2 (stretch p) 0) as [first Hf]; [lia|].
  destruct (lookup_lt_is_Some_2 (stretch p) (length (stretch p) - 1)) as [final Hl]; [lia|].
  exists (to_stream_record_v1 first), (to_stream_record_v1 final).
  rewrite head_lookup, last_lookup, !list_lookup_fmap, length_map, Hf.
  replace (pred (length (stretch p))) with (length (stretch p) - 1)%nat by lia. rewrite Hl.
  apply (stretch_lookup p Hp) in Hf as [Hf _], Hl as [Hl _].
  split_and!; try done; simpl; rewrite ?Hf, ?Hl; unfold next_claim; lia.
Qed.

Lemma attempt_answer p :
  linked p -> (1 <= batch_size)%nat ->
  exists p',
    propagate_once p =
      (p', Ok (if decide (claim p = length (here p)) then Converged
               else if decide (advances p) then Advanced (Z.of_nat (next_claim p))
               else StreamDiverged (Z.of_nat (length (there p)) + 1))) /\
    linked p' /\ here p' = here p /\
    claim p' = (if decide (advances p) then next_claim p else claim p) /\
    length (there p') = (if decide (claim p = length (there p)) then next_claim p
                         else length (there p)).
Proof.
  intros Hp Hb. pose proof (claim_le p Hp) as Hle. pose proof (stretch_length p) as Hsl.
  rewrite (attempt_of_linked p Hp Hb).
  destruct (decide (claim p = length (here p))) as [Hc|Hc].
  - assert (stretch p = []) as -> by (apply length_zero_iff_nil; lia). simpl.
    assert (next_claim p = claim p) as -> by (unfold next_claim; lia).
    exists p. split_and!; try done; [by destruct (decide _)|]. destruct (decide _); [done|lia].
  - assert (claim p < length (here p))%nat as Hk by lia.
    destruct (stretch_ends p Hp Hb Hk) as (first & final & -> & -> & Hfirst & Hfinal).
    rewrite Hfirst. fold (cut p). cbn [push_loop]. unfold st_bind at 1.
    destruct (push_answers p Hp Hb Hk) as (ep & outcome & -> & Hm & Hout). rewrite Hm.
    cbv beta iota delta [negb]. destruct (decide (claim p = length (there p))) as [Hq|Hq].
    + destruct Hout as ([ack ->] & Hl & Hopen). rewrite decide_True by (by left).
      destruct (linked_landed p ep Hp Hq Hl Hopen) as [Hp1 Hth].
      destruct (linked_advance _ (next_claim p) Hp1) as (p' & Hadv & Hp' & Hh' & Hth' & Hc').
      { rewrite Hth, length_app, Hsl. unfold next_claim. lia. }
      rewrite Hfinal, Hadv. exists p'. split_and!; try done; [by rewrite decide_True by (by left)|].
      rewrite Hth', Hth, length_app, Hsl. unfold next_claim. lia.
    + destruct Hout as [(rejection & -> & ->) Hau].
      pose proof (linked_same p ep Hp Hau) as Hp1. set (p1 := mk_run _ _ _) in *.
      assert (here p1 = here p /\ there p1 = there p /\ claim p1 = claim p /\ stretch p1 = stretch p)
        as (Hh1 & Hth1 & Hc1 & Hst1) by (unfold there, p1; simpl; by rewrite Hau).
      pose proof (reconcile_answers p1 Hp1 first final (Z.of_nat (length (there p)) + 1)) as Hrec.
      rewrite Hh1, Hth1, Hc1, Hst1 in Hrec. simpl push_records. rewrite (Hrec Hk Hfirst). clear Hrec.
      rewrite Hsl. fold (next_claim p).
      destruct (Nat.ltb_spec (length (there p)) (next_claim p)) as [Hlt|Hge].
      * rewrite !decide_False by (unfold advances, next_claim in *; lia). exists p1.
        by rewrite Hh1, Hth1, Hc1.
      * rewrite !decide_True by (unfold advances, next_claim in *; lia).
        destruct (linked_advance p1 (next_claim p) Hp1) as (p' & Hadv & Hp' & Hh' & Hth' & Hc').
        { rewrite Hth1. unfold next_claim in *. lia. }
        rewrite Hfinal, Hadv. exists p'. rewrite Hh', Hth', Hh1, Hth1. done.
Qed.

(** ** Convergence *)

Lemma drain_step fuel p :
  drain fuel p =
    match propagate_once p, fuel with
    | (p', Ok (Advanced _)), Datatypes.S fuel => drain fuel p'
    | out, _ => out
    end.
Proof. by destruct fuel. Qed.


(** A lost answer can strand a stream that never forked.  When the parent holds more than the
    child claims but not the whole batch the child now cuts - it accepted a batch, the answer was
    lost, and the child appended on - the attempt reports divergence although the parent's stream
    is a prefix of the child's, changes neither stream nor claim, and every later attempt does the
    same. *)
Theorem partial_batch_diverges p :
  linked p -> (claim p < length (there p) < next_claim p)%nat ->
  exists p',
    propagate_once p = (p', Ok (StreamDiverged (Z.of_nat (length (there p)) + 1))) /\
    linked p' /\ there p `prefix_of` here p /\
    here p' = here p /\ there p' = there p /\ claim p' = claim p /\
    exists p2, propagate_once p' = (p2, Ok (StreamDiverged (Z.of_nat (length (there p)) + 1))).
Proof.
  intros Hp Hk. assert (1 <= batch_size)%nat as Hb by (unfold next_claim in Hk; lia).
  pose proof (claim_le p Hp) as Hle.
  assert (forall q, linked q -> here q = here p -> length (there q) = length (there p) ->
    claim q = claim p -> exists q', propagate_once q =
      (q', Ok (StreamDiverged (Z.of_nat (length (there p)) + 1))) /\ linked q' /\
      here q' = here p /\ length (there q') = length (there p) /\ claim q' = claim p) as Hstuck.
  { intros q Hq Hh Hth Hc. destruct (attempt_answer q Hq Hb) as (q' & Hrun & Hq' & Hh' & Hc' & Hth').
    assert (~ advances q) as Hno
      by (unfold advances, next_claim in *; rewrite Hh, Hth, Hc; lia).
    rewrite decide_False in Hrun by (unfold next_claim in Hk; rewrite Hh, Hc; lia).
    rewrite decide_False in Hrun by done. rewrite decide_False in Hc' by done.
    rewrite decide_False in Hth' by (rewrite Hc, Hth; lia).
    exists q'. rewrite <- Hth, <- Hc. split_and!; try done; congruence. }
  destruct (Hstuck p Hp) as (p' & Hrun & Hp' & Hh & Hth & Hc); [done..|].
  exists p'. destruct (Hstuck p' Hp') as (p2 & Hrun2 & _); [done..|].
  split_and!; try done; [by apply linked_prefix| |by exists p2].
  rewrite (there_stretch p' Hp'), (there_stretch p Hp). by rewrite Hh, Hth.
Qed.
End Live.
