(* ===== verification/SyncExamples.v ===== *)
(** * Examples of a child and its parent

    A child with three events, a parent reached over a network that loses an
    answer, and a queue with one dispatch: the theorems of [Queue],
    [Endpoint], [Propagator], [Sync] and [SyncLive] are applied to them; and a
    request over the Unix socket, to which those of [HttpFacts] are. *)

From stdpp Require Import relations base gmap sets list strings pretty.
From Stdlib Require Import Ascii NArith ZArith Lia Strings.Byte.
From S2P Require Import Journal Branches StoreOps StoreInv StoreProps LeaseFacts LeaseProps LeaseExamples Prelude Json EventKind.
From S2P Require Import EventSchemas Contracts Records Store EventLog Lease Ingress Queue Endpoint Propagator Text Http HttpFacts Sync.
From S2P Require Import SyncLive.

Local Open Scope string_scope.
Local Open Scope list_scope.

Module SyncExamples.

(** ** Identifiers and entries as texts *)

(** A uuid as its digits, least significant first. *)
Fixpoint digits_text (p : positive) : string :=
  match p with
  | xH => "f"
  | xO p => String "0"%char (digits_text p)
  | xI p => String "1"%char (digits_text p)
  end.

Fixpoint digits_parse (s : string) : option positive :=
  match s with
  | String "f"%char EmptyString => Some xH
  | String "0"%char s => xO <$> digits_parse s
  | String "1"%char s => xI <$> digits_parse s
  | _ => None
  end.

Definition id_text (id : Uuid) : string :=
  match id with N0 => "e" | Npos p => digits_text p end.

Definition id_parse (s : string) : option Uuid :=
  if String.eqb s "e" then Some 0%N else Npos <$> digits_parse s.

Lemma digits_parse_text p : digits_parse (digits_text p) = Some p.
Proof. induction p as [p IH|p IH|]; simpl; [by rewrite IH..|done]. Qed.

Lemma id_parse_text id : id_parse (id_text id) = Some id.
Proof.
  destruct id as [|p]; [done|]. unfold id_parse. simpl. rewrite digits_parse_text.
  by destruct p.
Qed.

Lemma digits_text_plain p : String.index 0 ":" (digits_text p) = None.
Proof. induction p as [p IH|p IH|]; simpl; rewrite ?IH; done. Qed.

#[local, program] Instance id_texts : UuidText := {| uuid_text := id_text |}.
Next Obligation.
  intros a b Heq. pose proof (id_parse_text a) as Ha. rewrite Heq, id_parse_text in Ha. congruence.
Qed.

#[local, program] Instance id_parses : UuidParse := {| uuid_parse := id_parse |}.
Next Obligation. exact id_parse_text. Qed.
Next Obligation. intros [|p]; [done|]. split; [by destruct p|apply digits_text_plain]. Qed.

#[local, program] Instance entry_values : EntryCodec :=
  {| EntryText := RemoteIngressQueueEntryV1; encode_entry e := e; decode_entry_text e := Ok e |}.
Next Obligation. done. Qed.

(** ** A dispatch and its retries *)

Definition parent_source : IoSource := source_new "remote" "parent".
Definition ping (text : string) : IngressEnvelope :=
  with_dedupe_key (for_source parent_source "d1")
    (ingress_new "i1" parent_source (conversation_new "c1" Direct) (ContentText text) 3).
Definition entry (text : string) : RemoteIngressQueueEntryV1 :=
  mk_entry SYNC_INGRESS_QUEUE_ENTRY_SCHEMA_V1 "d1" 7 (ping text) 0.
Definition dispatched := enqueue 21 (entry "go") [].

Lemma dispatched_ok : dispatched = (dispatched.1, Ok (mk_enqueue_receipt (entry "go") Enqueued)).
Proof. vm_compute. reflexivity. Defined.

Lemma acknowledged_later : rtc queue_step dispatched.1 (acknowledge 30 7 "d1" dispatched.1).1.
Proof.
  apply rtc_once. exists (OpAcknowledge 30 7 "d1"), (Ok tt). vm_compute. reflexivity.
Defined.

Lemma dispatch_identity_witness :
  exists m, enqueue 22 (entry "stop") (acknowledge 30 7 "d1" dispatched.1).1 =
    ((acknowledge 30 7 "d1" dispatched.1).1, Err (HistoryText m)).
Proof.
  destruct (dispatch_identity 21 (entry "go") [] _ _ _ (rtc_refl _ _) dispatched_ok
    acknowledged_later) as [_ Hretry].
  destruct (Hretry 22%N (entry "stop") eq_refl eq_refl) as [m Hm]. exists m. exact Hm.
Defined.

Lemma tail_resumes_witness :
  exists page, tail_pending dispatched.1 7 None = Ok page /\ page_next page = Some 1%Z /\
    (0 <= default 0 (page_next page))%Z.
Proof.
  assert (queue_reachable dispatched.1) as Hr.
  { apply rtc_once. exists (OpEnqueue 21 (entry "go")), (Ok tt). vm_compute. reflexivity. }
  destruct (tail_resumes dispatched.1 7 None Hr) as (page & Hp & _ & Hle & _).
  exists page. split; [exact Hp|]. split; [|exact Hle].
  assert (tail_pending dispatched.1 7 None = Ok (mk_page [entry "go"] (Some 1%Z))) as Hq
    by (vm_compute; reflexivity). rewrite Hq in Hp. by injection Hp as <-.
Defined.

Lemma push_request_roundtrip_witness :
  let records := [Sample.event 1; Sample.event 2] in
  validate_push_request (mk_push SYNC_PUSH_SCHEMA_V1 "thread:7" "lease_1" 9
    (map to_stream_record_v1 (numbered "thread:7" 8 records))) = Ok records.
Proof.
  refine (push_request_roundtrip "thread:7" "lease_1" 9 [Sample.event 1; Sample.event 2] _ _ _ _).
  - lia.
  - vm_compute. discriminate.
  - discriminate.
  - repeat constructor; (discriminate || by eexists).
Defined.

(** ** A parent and its child *)

Definition digest (token : string) : string := token.
Definition ttl : Z := 10000.
Definition fingerprint (request : SyncPushRequestV1) (reason : SyncPushRejectionReason) : string :=
  (redacted_rejection_reason reason).1.

Definition empty_store : Handle := mk_handle inner_empty 0.
Definition lease : StreamLeaseGrantV1 :=
  mk_grant SYNC_STREAM_LEASE_SCHEMA_V1 "lease_1" "thread:7" "worker-a" None 0 10000.
Definition granted := grant_lease ttl 0 "1" "thread:7" "worker-a" None (authority_empty empty_store).
Definition minted := mint_credential digest 10 "c" "t" lease granted.1.
Definition token : string := "cooldis_sync_t".
Definition office : Endpoint Handle := mk_endpoint minted.1 [] [].

Definition child (n : nat) : Handle :=
  append_local "thread:7" (map (fun i => Sample.event (N.of_nat i)) (seq 1 n)) empty_store.

(** A child with [n] events of which none is claimed, over the network of [turns]. *)
Definition start (n : nat) (turns : list Turn) : Propagation (World Handle Handle) :=
  mk_run (mk_world office (child n) turns 50) ∅ (mk_propagation "thread:7" lease None).

Definition attempt (p : Propagation (World Handle Handle)) :=
  propagate_once (H0 := sync_world digest ttl fingerprint) token 128 100 p.

(** The answer to the push of two events is lost, and the child appends a third. *)
Definition answer_lost : Turn := mk_turn [] [] [] ReplyLost 50 50.
Definition unaware := (attempt (start 2 [answer_lost])).1.
Definition stranded : Propagation (World Handle Handle) :=
  mk_run (run_env digest ttl (EnvLocal "thread:7" [Sample.event 3]) (world unaware))
    (durable unaware) (state unaware).

Lemma lost_answer_run :
  (attempt (start 2 [answer_lost])).2 = Ok EndpointUnavailable /\
  (attempt stranded).2 = Ok (StreamDiverged 3).
Proof. split; vm_compute; reflexivity. Qed.

(** ** The examples are well formed *)

Notation view valid := (view_of (S:=Handle) (L:=Handle) digest ttl fingerprint valid).
Notation wf := (propagation_wf (H2 := view sync_valid)).
Notation step allowed := (sync_step digest ttl fingerprint allowed token 128).

Lemma empty_valid : log_valid empty_store.
Proof. apply journal_wf_empty. Qed.

Lemma office_valid : log_valid (event_store (authority office)).
Proof.
  assert (event_store (authority office) = empty_store) as -> by (vm_compute; reflexivity).
  apply empty_valid.
Qed.

Lemma store_of_child_valid n :
  log_valid (child n) /\ forall st, (Z.of_nat (length (log_events (child n) st)) < i64_max)%Z.
Proof.
  destruct (append_local_grows "thread:7" (map (fun i => Sample.event (N.of_nat i)) (seq 1 n))
    empty_store empty_valid) as [[Hv _] Hb]; [|by split].
  intros st. vm_compute. reflexivity.
Qed.

Lemma start_wf n turns : wf (start n turns).
Proof.
  split; [|vm_compute; reflexivity|apply truthful_none|done].
  split; [apply office_valid|apply store_of_child_valid|apply store_of_child_valid].
Qed.

Lemma push_settles_witness :
  let request := cut 128 (start 2 []) in
  exists ep ack,
    settle_push fingerprint 50 50 request (authorize_push digest (authority office) token request)
      office = (ep, Ok (Accepted ack)) /\ batch_landed request office ep.
Proof.
  intros request.
  destruct (settle_push fingerprint 50 50 request
    (authorize_push digest (authority office) token request) office) as [ep [[ack|]|]] eqn:Hrun;
    [|vm_compute in Hrun; discriminate..].
  exists ep, ack. split; [reflexivity|].
  apply (push_settles digest fingerprint (authority office) token request 50 50 office ep
    (Accepted ack) office_valid Hrun).
Defined.

Lemma pushed_through_truthful_witness :
  let p' := (attempt (start 2 [])).1 in
  (attempt (start 2 [])).2 = Ok (Advanced 2) /\
  truthful (H2 := view sync_valid) (world p') "thread:7" (Some 2%Z).
Proof.
  intros p'. split; [vm_compute; reflexivity|].
  assert (pushed_through (state p') = Some 2%Z) as <- by (vm_compute; reflexivity).
  pose proof (sync_laws (S:=Handle) (L:=Handle) digest ttl fingerprint) as Hlaws.
  refine (proj1 (pushed_through_truthful (H2 := view sync_valid) token 128 100 (start 2 []) p'
    (attempt (start 2 [])).2 _ (start_wf 2 []) (surjective_pairing _))). lia.
Defined.

(** The run in which the answer is lost, the child appends, and the next attempt is stranded. *)
Lemma unaware_run : rtc (step (spares "thread:7")) (start 2 [answer_lost]) stranded.
Proof.
  apply (rtc_l _ _ unaware); [|apply rtc_once; by apply step_env].
  apply (step_attempt _ _ _ _ _ _ _ 100 _ (attempt (start 2 [answer_lost])).2).
  unfold unaware, attempt. apply surjective_pairing.
Qed.

Lemma run_stays_truthful_witness :
  pushed_through (state stranded) = None /\ wf stranded.
Proof.
  split; [vm_compute; reflexivity|].
  refine (run_stays_truthful digest ttl fingerprint token 128 (start 2 [answer_lost]) stranded _
    (start_wf _ _) _); [lia|].
  eapply rtc_subrel; [|exact unaware_run]. intros p p'. by apply sync_step_mono.
Defined.

Lemma office_empty : event_store (authority office) = empty_store.
Proof. vm_compute. reflexivity. Qed.

Lemma start_sole n turns :
  Forall (turn_allows (spares "thread:7")) turns -> sole_writer "thread:7" (world (start n turns)).
Proof.
  intros Ht. split; [apply (wf_world _ (start_wf n turns))|done|].
  refine (eq_ind_r (fun l => l `prefix_of` _) (prefix_nil _) _).
  change (map to_stream_record_v1 (log_events (event_store (authority office)) "thread:7") = []).
  by rewrite office_empty.
Qed.

Lemma sole_writer_prefix_witness :
  let there := log_events (event_store (authority (endpoint (world stranded)))) "thread:7" in
  length there = 2%nat /\
  map to_stream_record_v1 there `prefix_of`
    map to_stream_record_v1 (log_events (child_store (world stranded)) "thread:7").
Proof.
  intros there. split; [vm_compute; reflexivity|].
  refine (sole_writer_prefix digest ttl fingerprint "thread:7" token 128 (start 2 [answer_lost])
    stranded _ (start_wf _ _) (start_sole _ _ _) unaware_run); [lia|by repeat constructor].
Defined.

(** ** Convergence and its failure *)

(** Records of the examples are comparable: no payload holds a double. *)
Lemma comparable (l : list EventRecord) :
  forallb (fun e => envelope_eqb (to_stream_record_v1 e) (to_stream_record_v1 e)) l = true ->
  forall e, e ∈ l -> envelope_eqb (to_stream_record_v1 e) (to_stream_record_v1 e) = true.
Proof. intros Hl e He%list_elem_of_In. exact (proj1 (forallb_forall _ _) Hl e He). Qed.

Notation linked := (linked digest ttl fingerprint token 100).

Lemma start_linked : linked (start 3 []).
Proof.
  split.
  - apply start_wf.
  - reflexivity.
  - vm_compute. reflexivity.
  - vm_compute. reflexivity.
  - eexists. split_and!; vm_compute; reflexivity.
  - vm_compute. reflexivity.
  - vm_compute. reflexivity.
  - refine (eq_ind_r (fun l => l `prefix_of` _) (prefix_nil _) _).
    change (log_events (event_store (authority office)) "thread:7" = []). by rewrite office_empty.
  - intros other e e' _ He. exfalso.
    change (e ∈ log_events (event_store (authority office)) other) in He. rewrite office_empty in He.
    by apply not_elem_of_nil in He.
  - apply comparable. vm_compute. reflexivity.
Qed.


(** After the lost answer: the parent holds two records of three. *)
Lemma stranded_wf : wf stranded.
Proof.
  refine (run_wf digest ttl fingerprint sync_valid _ token 128 _ _ (sync_laws _ _ _) _ _ _
    unaware_run (start_wf _ _)); [lia|..].
  - intros o w _ Hw. by apply run_env_ok.
  - intros w turns clock _ []. by split.
Qed.

(** The parent appended to the child's stream only. *)
Lemma stranded_elsewhere other :
  other <> "thread:7" ->
  log_events (event_store (authority (endpoint (world stranded)))) other = [].
Proof.
  intros Hne. set (out := append_if_current 50 "thread:7" "lease_1" 1
    [Sample.event 1; Sample.event 2] (authority office)).
  assert (event_store (authority (endpoint (world stranded))) = event_store out.1) as ->
    by (vm_compute; reflexivity).
  destruct out as [a [[ack| |]|]] eqn:Hout; [|vm_compute in Hout; discriminate..].
  destruct (leased_push_spec _ _ _ _ _ _ _ _ office_valid Hout) as (_ & _ & _ & _ & _ & _ & _ & Hoth).
  simpl fst. rewrite Hoth by done. by rewrite office_empty.
Qed.

Lemma stranded_linked : linked stranded.
Proof.
  split.
  - apply stranded_wf.
  - vm_compute. reflexivity.
  - vm_compute. reflexivity.
  - vm_compute. reflexivity.
  - eexists. split_and!; vm_compute; reflexivity.
  - vm_compute. reflexivity.
  - vm_compute. reflexivity.
  - eexists [_]. vm_compute. reflexivity.
  - intros other e e' Hne He. exfalso. rewrite stranded_elsewhere in He by exact Hne.
    by apply not_elem_of_nil in He.
  - apply comparable. vm_compute. reflexivity.
Qed.

Lemma partial_batch_diverges_witness :
  exists p', attempt stranded = (p', Ok (StreamDiverged 3)) /\ there p' `prefix_of` here p'.
Proof.
  destruct (partial_batch_diverges digest ttl fingerprint token 128 100 stranded stranded_linked)
    as (p' & Hrun & Hl & Hpre & Hh & Ht & _); [split; apply Nat.ltb_lt; vm_compute; reflexivity|].
  exists p'. split; [exact Hrun|]. rewrite Hh, Ht. exact Hpre.
Defined.
End SyncExamples.

(** * Examples of a call over the socket

    One push of two events, cut into two chunks, through the theorems of
    [HttpFacts]. *)

Module HttpExamples.
Import SyncExamples.
#[local] Existing Instances id_texts id_parses entry_values.

Definition request : SyncPushRequestV1 := cut 128 (start 2 []).
Definition exchange :=
  answer_call digest ttl fingerprint 50 50 token (CallPush request) office.

(** A codec that carries the one request and its answer. *)
#[local, program] Instance codec : BodyCodec := {|
  faithful_push r := r = request;
  encode_push _ := bytes_of "push";
  decode_push b := if bool_decide (b = bytes_of "push") then Some request else None;
  faithful_pull _ := False;
  encode_pull _ := [];
  decode_pull _ := None;
  faithful_ack _ := False;
  encode_ack _ := [];
  decode_ack _ := None;
  faithful_body b := b = body exchange.2;
  encode_body _ := bytes_of "accepted";
  decode_body b := if bool_decide (b = bytes_of "accepted") then Some (body exchange.2) else None;
|}.
Next Obligation. intros r ->. by rewrite bool_decide_true. Qed.
Next Obligation. done. Qed.
Next Obligation. done. Qed.
Next Obligation. intros b ->. by rewrite bool_decide_true. Qed.

Definition sent : bytes := unix_request PUSH_PATH token (bytes_of "push").
Definition connection : Connection := mk_connection [take 30 sent; []; drop 30 sent] PeerClosed.


Lemma read_request_chunks_witness :
  read_request connection = read_request (mk_connection [sent] PeerClosed).
Proof.
  apply (read_request_chunks connection (mk_connection [sent] PeerClosed));
    vm_compute; reflexivity.
Defined.

Lemma accepted_request_framed_witness :
  exists r, read_request connection = Ok r /\ (length (headers r) <= MAX_HEADER_COUNT)%nat.
Proof.
  destruct (read_request connection) as [r|e] eqn:Hr; [|vm_compute in Hr; discriminate].
  exists r. split; [reflexivity|]. apply (accepted_request_framed connection r Hr).
Defined.
End HttpExamples.
