(* ===== verification/Mandates.v ===== *)
(** * The life of a mandate

    Models [crates/verlet-kernel/src/kernel/mandate_lifecycle.rs]: a mandate is
    validated and recorded as a [mandate.started] event of its thread's control
    stream, listed while no [mandate.revoked] event names it, and revoked by
    appending one.  The store is any [EventStore] that also appends without a
    fence.

    An instant is a number of nanoseconds since the epoch.  Chrono's texts and
    range, the cron engine and the timezone table are the class [Calendar]; the
    uuids and times the code draws are arguments. *)

From stdpp Require Import base gmap sets list strings pretty.
From Stdlib Require Import ZArith Lia.
From S2P Require Import Prelude Json EventKind Contracts Records Store EventLog Control Ingress Queue.

Local Open Scope verlet_scope.
Local Open Scope string_scope.
Local Open Scope list_scope.

Notation Instant := Z (only parsing).

Definition MIN_MANDATE_INTERVAL_MS : Z := 60000.
Definition SCHEDULE_SNAPSHOT_ID : string := "schedule.v1".

(** ** Time *)

(** Chrono's instants and texts, the cron engine and the IANA timezones. *)
Class Calendar := {
  CronExpr : Type;
  TimeZone : Type;
  (** [Utc.timestamp_millis_opt] and [checked_add_signed] answer only inside chrono's range. *)
  instant_in_range : Instant -> bool;
  (** [DateTime::parse_from_rfc3339]: the instant, and its offset from UTC in seconds. *)
  parse_rfc3339 : string -> result (Instant * Z) string;
  (** [to_rfc3339_opts(SecondsFormat::Millis, true)]. *)
  rfc3339_text : Instant -> string;
  cron_parse : string -> result CronExpr string;
  tz_parse : string -> result TimeZone string;
  (** [Cron::find_next_occurrence(_, false)] in a timezone. *)
  find_next_occurrence : CronExpr -> TimeZone -> Instant -> result Instant string;
  (** The occurrences [Cron::iter_after] yields until its search limit. *)
  cron_iter_after : CronExpr -> TimeZone -> Instant -> list Instant;
}.

(** [DateTime::timestamp_millis]. *)
Definition timestamp_millis (t : Instant) : Z := (t / 10 ^ 6)%Z.

(** ** Errors *)

(** What [VerletError::RuntimeExecution] is formatted from. *)
Inductive ExecutionMessage : Type :=
  | MandateEventIdInvalid
  | ExpiryNotUtc (expires_at : string) (err : option string)
  | ExpiryPast (expires_at : string)
  | MandateNotActive (mandate_event_id : EventRecordId) (thread : ThreadId)
  | CronMalformed (err : string)
  | TimezoneUnknown (tz err : string)
  | CronWithoutOccurrence (err : string)
  | CronWithoutSecondOccurrence (err : string)
  | CronTooFrequent
  | IntervalTooShort
  | AtNotRfc3339 (err : string)
  | AtInThePast
  | IntervalZero
  | IntervalIndexOverflow
  | IntervalOffsetOverflow
  | IntervalDurationOverflow
  | IntervalTimestampOverflow
  | AtSingleOccurrence
  | CronExhausted
  | EventTimestampInvalid (value : Z)
  | InstantNotRfc3339 (err : string).

(** The variants of [VerletError] the mandates and the clock use. *)
Inductive KernelError : Type :=
  | KernelHistory (e : VerletError)
  | RuntimeExecution (message : ExecutionMessage)
  | RuntimeFactory (e : IoError).

Notation KernelResult T := (result T KernelError).

(** ** Requests and receipts *)

Record MandateStartRequest : Type := mk_start_request {
  request_schedule : MandateSchedulePayload;
  request_max_occurrences : option Z;
  request_catch_up : option MandateCatchUpPolicy;
  request_input_template : option string;
  request_snapshot_id : option string;
  request_expires_at : option string;
}.

Record MandateStartReceipt : Type := mk_start_receipt {
  started_event : EventRecord;
  started_payload : MandateStartedPayload;
}.

Record ActiveMandate : Type := mk_active {
  mandate_event : EventRecord;
  mandate_payload : MandateStartedPayload;
}.

Inductive MandateRevokeStatus : Type := Revoked | AlreadyRevoked.

Record MandateRevokeReceipt : Type := mk_revoke_receipt {
  revoke_status : MandateRevokeStatus;
  revoke_start_event : EventRecord;
  revoke_event : EventRecord;
  revoke_payload : MandateRevokedPayload;
}.

#[global] Instance MandateCatchUpPolicy_eq_dec : EqDecision MandateCatchUpPolicy.
Proof. solve_decision. Defined.

(** [MandateCatchUpPolicy::default]. *)
Definition catch_up_default : MandateCatchUpPolicy := SkipMissed.

(** ** Serialized payloads *)

Definition subject_json (s : MandateSubject) : json :=
  jobj (opt_field "thread_id" JString (mandate_subject_thread_id s) ++
        opt_field "loop_id" JString (mandate_loop_id s)).

Definition schedule_json (s : MandateSchedulePayload) : json :=
  match s with
  | Cron expr tz => jobj [("cron", jobj [("expr", JString expr); ("tz", JString tz)])]
  | Interval every_ms => jobj [("interval", jobj [("every_ms", jint every_ms)])]
  | At when => jobj [("at", jobj [("when", JString when)])]
  end.

Definition catch_up_json (c : MandateCatchUpPolicy) : json :=
  JString match c with CoalesceMissed => "coalesce_missed" | SkipMissed => "skip_missed" end.

(** [serde_json::to_value] of a [MandateStartedPayload]. *)
Definition mandate_started_json (p : MandateStartedPayload) : json :=
  jobj ([("subject", subject_json (started_subject p));
         ("mandate_id", JString (started_mandate_id p));
         ("snapshot_id", JString (started_snapshot_id p))] ++
        opt_field "thread_id" JString (started_thread_id p) ++
        opt_field "max_continuations" jint (max_continuations p) ++
        opt_field "expires_at_ms" jint (expires_at_ms p) ++
        opt_field "schedule" schedule_json (schedule p) ++
        opt_field "max_occurrences" jint (max_occurrences p) ++
        opt_field "catch_up" catch_up_json (catch_up p) ++
        opt_field "input_template" JString (input_template p)).

(** [serde_json::to_value] of a [MandateRevokedPayload]. *)
Definition mandate_revoked_json (p : MandateRevokedPayload) : json :=
  jobj ([("subject", subject_json (revoked_subject p));
         ("mandate_id", JString (revoked_mandate_id p))] ++
        opt_field "mandate_event_id" JString (mandate_event_id p) ++
        [("snapshot_id", JString (revoked_snapshot_id p))] ++
        opt_field "reason" JString (revoked_reason p)).

(** ** Validation *)

Section Validate.
Context `{Calendar}.

Definition execution_error {A} (message : ExecutionMessage) : KernelResult A :=
  Err (RuntimeExecution message).

(** A third-party call whose error text the message quotes. *)
Definition or_execution {A} (f : string -> ExecutionMessage) (r : result A string) :
    KernelResult A := map_err (fun err => RuntimeExecution (f err)) r.

(** [cron_next]. *)
Definition cron_next (cron : CronExpr) (timezone : TimeZone) (now : Instant) :
    KernelResult Instant :=
  or_execution CronWithoutOccurrence (find_next_occurrence cron timezone now).

(** [validate_schedule]. *)
Definition validate_schedule (s : MandateSchedulePayload) (catch_up : MandateCatchUpPolicy)
    (now : Instant) : KernelResult unit :=
  match s with
  | Cron expr tz =>
      cron <-? or_execution CronMalformed (cron_parse expr) ;;
      timezone <-? or_execution (TimezoneUnknown tz) (tz_parse tz) ;;
      first <-? cron_next cron timezone now ;;
      second <-? or_execution CronWithoutSecondOccurrence
                   (find_next_occurrence cron timezone first) ;;
      if (Z.quot (second - first) (10 ^ 6) <? MIN_MANDATE_INTERVAL_MS)%Z
      then execution_error CronTooFrequent
      else Ok tt
  | Interval every_ms =>
      if (every_ms <? MIN_MANDATE_INTERVAL_MS)%Z
      then execution_error IntervalTooShort
      else Ok tt
  | At when =>
      parsed <-? or_execution AtNotRfc3339 (parse_rfc3339 when) ;;
      if (parsed.1 <? now)%Z && negb (bool_decide (catch_up = CoalesceMissed))
      then execution_error AtInThePast
      else Ok tt
  end.

(** [mandate_expiry_ms]. *)
Definition mandate_expiry_ms (expires_at : option string) (now : Instant) :
    KernelResult (option Z) :=
  match expires_at with
  | None => Ok None
  | Some expires_at =>
      parsed <-? or_execution (fun err => ExpiryNotUtc expires_at (Some err))
                   (parse_rfc3339 expires_at) ;;
      if negb (parsed.2 =? 0)%Z
      then execution_error (ExpiryNotUtc expires_at None)
      else if (parsed.1 <? now)%Z
      then execution_error (ExpiryPast expires_at)
      else Ok (Some (timestamp_millis parsed.1))
  end.

(** [validate_mandate_start_request]. *)
Definition validate_mandate_start_request (request : MandateStartRequest) (now : Instant) :
    KernelResult unit :=
  let catch_up := default catch_up_default (request_catch_up request) in
  validate_schedule (request_schedule request) catch_up now ;;?
  mandate_expiry_ms (request_expires_at request) now ;;?
  Ok tt.
End Validate.

Section Mandates.
Context `{UuidParse} `{ControlCodec} `{Calendar} {S : Type} `{EventStore S} `{EventAppend S}.

(** [parse_mandate_event_id]. *)
Definition parse_mandate_event_id (value : string) : KernelResult EventRecordId :=
  ok_or (uuid_parse value) (RuntimeExecution MandateEventIdInvalid).

(** ** Reading mandates *)

Definition decode_started (event : EventRecord) : KernelResult MandateStartedPayload :=
  map_err (fun err => KernelHistory (HistoryText ("mandate.started payload is invalid: " +:+ err)))
    (decode_mandate_started (payload event)).

Definition decode_revoked (event : EventRecord) : KernelResult MandateRevokedPayload :=
  map_err (fun err => KernelHistory (HistoryText ("mandate.revoked payload is invalid: " +:+ err)))
    (decode_mandate_revoked (payload event)).

(** [mandate_targets_thread]. *)
Definition mandate_targets_thread (p : MandateStartedPayload) (c : ThreadCoordinates) : bool :=
  let subject := match mandate_subject_thread_id (started_subject p) with
                 | Some t => Some t
                 | None => started_thread_id p
                 end in
  match subject with
  | Some subject => String.eqb subject (uuid_text (thread_id c))
  | None => true
  end.

(** [revoked_targets_thread]. *)
Definition revoked_targets_thread (p : MandateRevokedPayload) (c : ThreadCoordinates) : bool :=
  match mandate_subject_thread_id (revoked_subject p) with
  | Some subject => String.eqb subject (uuid_text (thread_id c))
  | None => true
  end.

(** The [BTreeMap] of started mandates, as its entries in key order, and the two revoked sets. *)
Record MandateFold : Type := mk_fold {
  fold_started : list (string * (EventRecord * MandateStartedPayload));
  revoked_event_ids : gset string;
  revoked_mandate_ids : gset string;
}.

(** The body of the loop of [active_mandates_from_events]. *)
Definition active_step (c : ThreadCoordinates) (acc : MandateFold) (event : EventRecord) :
    KernelResult MandateFold :=
  match kind event with
  | EventKind.MandateStarted =>
      p <-? decode_started event ;;
      if mandate_targets_thread p c
      then Ok (mk_fold (obj_insert (uuid_text (event_id event)) (event, p) (fold_started acc))
                 (revoked_event_ids acc) (revoked_mandate_ids acc))
      else Ok acc
  | EventKind.MandateRevoked =>
      p <-? decode_revoked event ;;
      if revoked_targets_thread p c
      then Ok (mk_fold (fold_started acc)
                 (match mandate_event_id p with
                  | Some id => {[id]} ∪ revoked_event_ids acc
                  | None => revoked_event_ids acc
                  end)
                 ({[revoked_mandate_id p]} ∪ revoked_mandate_ids acc))
      else Ok acc
  | _ => Ok acc
  end.

(** The [filter_map] of [active_mandates_from_events]. *)
Definition still_active (acc : MandateFold)
    (entry : string * (EventRecord * MandateStartedPayload)) : option ActiveMandate :=
  let '(event_id, (event, p)) := entry in
  if bool_decide (event_id ∈ revoked_event_ids acc) ||
     bool_decide (started_mandate_id p ∈ revoked_mandate_ids acc)
  then None
  else Some (mk_active event p).

(** [active_mandates_from_events]. *)
Definition active_mandates_from_events (c : ThreadCoordinates) (events : list EventRecord) :
    KernelResult (list ActiveMandate) :=
  acc <-? try_fold (active_step c) (mk_fold [] ∅ ∅) events ;;
  Ok (sort_by_z (fun m => sequence (mandate_event m)) (omap (still_active acc) (fold_started acc))).

Definition read_control (store : S) (c : ThreadCoordinates) : KernelResult (list EventRecord) :=
  map_err KernelHistory (read_log store (control_stream_id c)).

(** [list_active_mandates]. *)
Definition list_active_mandates (store : S) (c : ThreadCoordinates) :
    KernelResult (list ActiveMandate) :=
  events <-? read_control store c ;;
  active_mandates_from_events c events.

(** [mandate_start_event]. *)
Fixpoint mandate_start_event (c : ThreadCoordinates) (events : list EventRecord)
    (id : EventRecordId) : KernelResult (option (EventRecord * MandateStartedPayload)) :=
  match events with
  | [] => Ok None
  | event :: events =>
      if negb (event_id event =? id)%N || negb (bool_decide (kind event = EventKind.MandateStarted))
      then mandate_start_event c events id
      else
        p <-? decode_started event ;;
        if mandate_targets_thread p c then Ok (Some (event, p))
        else mandate_start_event c events id
  end.

(** [mandate_revoked_event]. *)
Fixpoint mandate_revoked_event (events : list EventRecord) (id : EventRecordId)
    (started : MandateStartedPayload) :
    KernelResult (option (EventRecord * MandateRevokedPayload)) :=
  match events with
  | [] => Ok None
  | event :: events =>
      if negb (bool_decide (kind event = EventKind.MandateRevoked))
      then mandate_revoked_event events id started
      else
        p <-? decode_revoked event ;;
        if match mandate_event_id p with
           | Some text => String.eqb text (uuid_text id)
           | None => false
           end || String.eqb (revoked_mandate_id p) (started_mandate_id started)
        then Ok (Some (event, p))
        else mandate_revoked_event events id started
  end.

(** ** Writing mandates *)

Notation Call A := (st S KernelError A).

(** [append_events] of one record to the control stream, and the [pop] of what it appended. *)
Definition append_control (c : ThreadCoordinates) (record : NewEventRecord) (missing : string) :
    Call EventRecord := fun store =>
  let (store', r) := log_append (control_stream_id c) [record] store in
  (store', appended <-? map_err (fun e => KernelHistory (HistoryFailed e)) r ;;
           ok_or (last appended) (KernelHistory (HistoryText missing))).

(** The payload [start_mandate] records; [mandate] is the uuid drawn. *)
Definition started_from_request (c : ThreadCoordinates) (request : MandateStartRequest)
    (expires : option Z) (mandate : Uuid) : MandateStartedPayload :=
  let thread := uuid_text (thread_id c) in
  {| started_subject := mk_mandate_subject (Some thread) None;
     started_mandate_id := "mandate-" +:+ uuid_text mandate;
     started_snapshot_id :=
       match request_snapshot_id request with
       | Some id => if String.eqb (str_trim id) "" then SCHEDULE_SNAPSHOT_ID else id
       | None => SCHEDULE_SNAPSHOT_ID
       end;
     started_thread_id := Some thread;
     max_continuations := None;
     expires_at_ms := expires;
     schedule := Some (request_schedule request);
     max_occurrences := request_max_occurrences request;
     catch_up := Some (default catch_up_default (request_catch_up request));
     input_template := request_input_template request |}.

(** [start_mandate]; the uuid of the mandate, and the id and time of the event, are drawn. *)
Definition start_mandate (c : ThreadCoordinates) (request : MandateStartRequest) (now : Instant)
    (mandate : Uuid) (id : EventRecordId) (created : Z) : Call MandateStartReceipt :=
  st_lift (validate_mandate_start_request request now) ;;!
  expires <-! st_lift (mandate_expiry_ms (request_expires_at request) now) ;;
  let p := started_from_request c request expires mandate in
  event <-! append_control c
              (witnessed id created c EventKind.MandateStarted (mandate_started_json p))
              "mandate.start appended no event" ;;
  st_ret (mk_start_receipt event p).

(** The payload [revoke_mandate] records. *)
Definition revoked_from_started (started : MandateStartedPayload) (id : EventRecordId) :
    MandateRevokedPayload :=
  mk_mandate_revoked (started_subject started) (started_mandate_id started)
    (Some (uuid_text id)) (started_snapshot_id started) None.

(** [revoke_mandate]; the id and time of the event are drawn. *)
Definition revoke_mandate (c : ThreadCoordinates) (mandate : EventRecordId)
    (id : EventRecordId) (created : Z) : Call MandateRevokeReceipt :=
  store <-! st_get ;;
  events <-! st_lift (read_control store c) ;;
  found <-! st_lift (mandate_start_event c events mandate) ;;
  start <-! st_lift (ok_or found (RuntimeExecution (MandateNotActive mandate (thread_id c)))) ;;
  let (start_event, started) := start in
  revoked <-! st_lift (mandate_revoked_event events mandate started) ;;
  match revoked with
  | Some (event, p) => st_ret (mk_revoke_receipt AlreadyRevoked start_event event p)
  | None =>
      let p := revoked_from_started started mandate in
      event <-! append_control c
                  (witnessed id created c EventKind.MandateRevoked (mandate_revoked_json p))
                  "mandate.revoke appended no event" ;;
      st_ret (mk_revoke_receipt Revoked start_event event p)
  end.
End Mandates.
