(* ===== verification/MandateFacts.v ===== *)
(** * What the life of a mandate promises

    The fold of a control stream into its active mandates equals a declarative
    reading; starting a mandate makes exactly it active; a revocation is
    recorded once and is final.  The store is any lawful [EventStore] with an
    unfenced append. *)

From stdpp Require Import base gmap sets list strings pretty sorting.
From Stdlib Require Import ZArith Lia.
From S2P Require Import Prelude Json EventKind Contracts Records Store Journal EventLog SchemaFacts Control Ingress Queue Mandates.

Local Open Scope verlet_scope.
Local Open Scope string_scope.
Local Open Scope list_scope.

(** ** Generic lemmas *)

Lemma obj_insert_fresh {A} k (v : A) m : k ∉ m.*1 -> obj_insert k v m ≡ₚ (k, v) :: m.
Proof.
  induction m as [|[j w] m IH]; simpl; [done|]. rewrite not_elem_of_cons. intros [Hne Hm].
  destruct (str_cmp k j) eqn:Hc; [by apply str_cmp_eq in Hc| done |].
  rewrite IH by done. constructor.
Qed.

(** Sorting by a key that increases along a list restores the list from any rearrangement. *)
Lemma sort_by_z_restores {A} (key : A -> Z) l l' :
  StronglySorted (fun a b => (key a < key b)%Z) l -> l' ≡ₚ l -> sort_by_z key l' = l.
Proof.
  intros Hs Hp. pose proof (sort_by_z_ordered key l') as Hsorted.
  apply (StronglySorted_unique_strong (fun a b => (key a <= key b)%Z)); [|done| |].
  - intros x y Hx Hy Hxy Hyx. rewrite sort_by_z_perm, Hp in Hx. clear Hsorted Hp l'.
    induction Hs as [|z l Hs IH Hz]; [set_solver|].
    rewrite Forall_forall in Hz.
    apply elem_of_cons in Hx as [->|Hx], Hy as [->|Hy]; [done| | |by apply IH].
    + specialize (Hz _ Hy). lia.
    + specialize (Hz _ Hx). lia.
  - clear Hsorted Hp. induction Hs as [|z l Hs IH Hz]; constructor; [done|].
    eapply Forall_impl; [done|]. simpl. lia.
  - by rewrite sort_by_z_perm.
Qed.

(** A loop whose body fails on its own account, or updates the accumulator. *)
Lemma try_fold_pure {A F S E} (fact : A -> result F E) (upd : S -> A -> F -> S)
    (step : S -> A -> result S E) (dflt : F) :
  (forall s a, step s a = (f <-? fact a ;; Ok (upd s a f))) ->
  forall l s s', try_fold step s l = Ok s' <->
    Forall (fun a => is_ok (fact a) = true) l /\
    s' = fold_left (fun s a => upd s a (match fact a with Ok f => f | Err _ => dflt end)) l s.
Proof.
  intros Hstep l. induction l as [|a l IH]; intros s s'; simpl.
  - split; [intros [= <-]; by split | by intros [_ ->]].
  - rewrite Hstep, Forall_cons. destruct (fact a) as [f|e]; simpl; [|naive_solver].
    rewrite IH. naive_solver.
Qed.

Section Facts.
Context `{UuidParse} `{ControlCodec}.

(** ** The declarative reading *)

Inductive MandateFact : Type :=
  | FactStarted (p : MandateStartedPayload)
  | FactRevoked (p : MandateRevokedPayload)
  | FactOther.

(** What an event says about the mandates of a thread. *)
Definition mandate_fact (c : ThreadCoordinates) (event : EventRecord) : KernelResult MandateFact :=
  match kind event with
  | EventKind.MandateStarted =>
      p <-? decode_started event ;;
      Ok (if mandate_targets_thread p c then FactStarted p else FactOther)
  | EventKind.MandateRevoked =>
      p <-? decode_revoked event ;;
      Ok (if revoked_targets_thread p c then FactRevoked p else FactOther)
  | _ => Ok FactOther
  end.

Definition fact_of (c : ThreadCoordinates) (event : EventRecord) : MandateFact :=
  match mandate_fact c event with Ok f => f | Err _ => FactOther end.

(** Every mandate event of the stream decodes. *)
Definition readable (c : ThreadCoordinates) (events : list EventRecord) : Prop :=
  Forall (fun e => is_ok (mandate_fact c e) = true) events.

Definition started_here (c : ThreadCoordinates) (event : EventRecord) : option ActiveMandate :=
  match fact_of c event with FactStarted p => Some (mk_active event p) | _ => None end.

(** A revocation names the event of the mandate or its id. *)
Definition names_mandate (p : MandateRevokedPayload) (m : ActiveMandate) : bool :=
  bool_decide (mandate_event_id p = Some (uuid_text (event_id (mandate_event m)))) ||
  String.eqb (revoked_mandate_id p) (started_mandate_id (mandate_payload m)).

Definition revokes_here (c : ThreadCoordinates) (m : ActiveMandate) (event : EventRecord) : bool :=
  match fact_of c event with FactRevoked p => names_mandate p m | _ => false end.

(** Started minus revoked, in stream order. *)
Definition active_mandates (c : ThreadCoordinates) (events : list EventRecord) :
    list ActiveMandate :=
  filter (fun m => existsb (revokes_here c m) events = false) (omap (started_here c) events).

(** ** The fold is that reading *)

Definition apply_fact (acc : MandateFold) (event : EventRecord) (f : MandateFact) : MandateFold :=
  match f with
  | FactStarted p =>
      mk_fold (obj_insert (uuid_text (event_id event)) (event, p) (fold_started acc))
        (revoked_event_ids acc) (revoked_mandate_ids acc)
  | FactRevoked p =>
      mk_fold (fold_started acc)
        (match mandate_event_id p with
         | Some id => {[id]} ∪ revoked_event_ids acc
         | None => revoked_event_ids acc
         end)
        ({[revoked_mandate_id p]} ∪ revoked_mandate_ids acc)
  | FactOther => acc
  end.

Definition fold_facts (c : ThreadCoordinates) (events : list EventRecord) (acc : MandateFold) :=
  fold_left (fun acc e => apply_fact acc e (fact_of c e)) events acc.

Lemma active_fold c events acc acc' :
  try_fold (active_step c) acc events = Ok acc' <->
  readable c events /\ acc' = fold_facts c events acc.
Proof.
  apply (try_fold_pure (mandate_fact c) apply_fact (active_step c) FactOther). intros s e.
  unfold active_step, mandate_fact. destruct (kind e); try done.
  - destruct (decode_started e); simpl; [|done]. by destruct (mandate_targets_thread _ _).
  - destruct (decode_revoked e); simpl; [|done]. by destruct (revoked_targets_thread _ _).
Qed.

Definition entry_of (m : ActiveMandate) : string * (EventRecord * MandateStartedPayload) :=
  (uuid_text (event_id (mandate_event m)), (mandate_event m, mandate_payload m)).

Lemma started_here_event c e m : started_here c e = Some m -> mandate_event m = e.
Proof. unfold started_here. destruct (fact_of c e); intros [= <-]. done. Qed.

(** The map of the fold holds the started mandates, each under its own key. *)
Lemma fold_started_perm c events acc :
  NoDup (event_id <$> events) ->
  (forall e, e ∈ events -> uuid_text (event_id e) ∉ (fold_started acc).*1) ->
  fold_started (fold_facts c events acc) ≡ₚ
    (entry_of <$> omap (started_here c) events) ++ fold_started acc.
Proof.
  revert acc. induction events as [|e events IH]; intros acc; simpl; [done|].
  rewrite NoDup_cons. intros [Hn Hnd] Hfresh. unfold started_here at 1.
  destruct (fact_of c e) as [p|p|] eqn:Hf; simpl.
  - assert (uuid_text (event_id e) ∉ (fold_started acc).*1) as He by (apply Hfresh; left).
    rewrite IH; simpl; [|done|].
    + rewrite obj_insert_fresh by done. unfold entry_of at 2. simpl.
      by rewrite Permutation_middle.
    + intros e' He'. rewrite (obj_insert_fresh _ _ _ He). simpl.
      rewrite not_elem_of_cons. split; [|apply Hfresh; by right].
      intros Heq%(inj uuid_text). apply Hn. rewrite <- Heq. by apply list_elem_of_fmap_2.
  - rewrite IH; [done|done|]. intros e' He'. apply Hfresh. by right.
  - rewrite IH; [done|done|]. intros e' He'. apply Hfresh. by right.
Qed.

Lemma fold_revoked c events acc m :
  (uuid_text (event_id (mandate_event m)) ∈ revoked_event_ids (fold_facts c events acc) \/
   started_mandate_id (mandate_payload m) ∈ revoked_mandate_ids (fold_facts c events acc)) <->
  (uuid_text (event_id (mandate_event m)) ∈ revoked_event_ids acc \/
   started_mandate_id (mandate_payload m) ∈ revoked_mandate_ids acc) \/
  existsb (revokes_here c m) events = true.
Proof.
  revert acc. induction events as [|e events IH]; intros acc; simpl; [naive_solver|].
  fold (fold_facts c events (apply_fact acc e (fact_of c e))). rewrite IH, orb_true_iff.
  unfold revokes_here at 2. destruct (fact_of c e) as [p|p|]; simpl; [naive_solver| |naive_solver].
  unfold names_mandate. rewrite orb_true_iff, bool_decide_eq_true, String.eqb_eq.
  destruct (mandate_event_id p) as [id|]; set_solver.
Qed.

Lemma still_active_spec c events m :
  still_active (fold_facts c events (mk_fold [] ∅ ∅)) (entry_of m) =
  if existsb (revokes_here c m) events then None else Some m.
Proof.
  pose proof (fold_revoked c events (mk_fold [] ∅ ∅) m) as Hr. unfold still_active, entry_of.
  destruct m as [event p]. cbn [mandate_event mandate_payload] in *.
  destruct (existsb _ events) eqn:He.
  - destruct (proj2 Hr (or_intror eq_refl)) as [Hin|Hin].
    + by rewrite (bool_decide_eq_true_2 _ Hin).
    + by rewrite (bool_decide_eq_true_2 _ Hin), orb_true_r.
  - rewrite !bool_decide_eq_false_2; [done| |].
    + intros Hin. destruct (proj1 Hr (or_intror Hin)) as [[?|?]|?]; [set_solver..|done].
    + intros Hin. destruct (proj1 Hr (or_introl Hin)) as [[?|?]|?]; [set_solver..|done].
Qed.

(** A list of events as a store holds it. *)
Record stream_ordered (events : list EventRecord) : Prop := {
  ordered_sequences : StronglySorted (fun a b => (sequence a < sequence b)%Z) events;
  ordered_ids : NoDup (event_id <$> events);
}.

Lemma started_sorted c (f : ActiveMandate -> bool) events :
  StronglySorted (fun a b => (sequence a < sequence b)%Z) events ->
  StronglySorted (fun a b => (sequence (mandate_event a) < sequence (mandate_event b))%Z)
    (filter (fun m => f m = false) (omap (started_here c) events)).
Proof.
  induction 1 as [|e events Hs IH Hlt]; simpl; [constructor|].
  destruct (started_here c e) as [m|] eqn:Hm; simpl; [|done].
  rewrite filter_cons. destruct (decide _); [|done]. constructor; [done|].
  apply Forall_forall. intros m' [_ (e' & He' & Hm')%list_elem_of_omap]%list_elem_of_filter.
  apply started_here_event in Hm as ->, Hm' as ->. by apply (proj1 (Forall_forall _ _) Hlt).
Qed.

Lemma active_mandates_from_events_spec c events ms :
  stream_ordered events ->
  active_mandates_from_events c events = Ok ms <->
  readable c events /\ ms = active_mandates c events.
Proof.
  intros [Hs Hnd]. unfold active_mandates_from_events.
  assert (sort_by_z (fun m => sequence (mandate_event m))
    (omap (still_active (fold_facts c events (mk_fold [] ∅ ∅)))
       (fold_started (fold_facts c events (mk_fold [] ∅ ∅)))) = active_mandates c events) as Heq.
  { apply sort_by_z_restores; [by apply (started_sorted c (fun m => existsb (revokes_here c m) events))|].
    rewrite (fold_started_perm c events _ Hnd) by set_solver. simpl. rewrite app_nil_r.
    unfold active_mandates. generalize (omap (started_here c) events) as l.
    induction l as [|m l IH]; [done|]. rewrite fmap_cons. cbn [omap list_omap].
    rewrite still_active_spec, filter_cons. destruct (existsb _ events); [done|].
    rewrite decide_True by done. by constructor. }
  destruct (try_fold _ _ _) as [acc|e] eqn:Hf; simpl.
  - apply active_fold in Hf as [Hr ->]. rewrite Heq. naive_solver.
  - split; [done|]. intros [Hr _].
    assert (try_fold (active_step c) (mk_fold [] ∅ ∅) events =
      Ok (fold_facts c events (mk_fold [] ∅ ∅))) as Hok by by apply active_fold.
    by rewrite Hf in Hok.
Qed.
End Facts.

(** ** Laws of the parameters *)

Definition u32_max : Z := 2 ^ 32 - 1.
Definition in_u32 (z : Z) : bool := (0 <=? z)%Z && (z <=? u32_max)%Z.

Definition opt_in (range : Z -> bool) (o : option Z) : bool :=
  match o with Some z => range z | None => true end.

Definition schedule_in_range (s : MandateSchedulePayload) : bool :=
  match s with Interval every_ms => in_u64 every_ms | _ => true end.

(** The integers of a payload fit the fields they are written in. *)
Definition started_in_range (p : MandateStartedPayload) : bool :=
  opt_in in_u32 (max_continuations p) && opt_in in_i64 (expires_at_ms p) &&
  opt_in in_u32 (max_occurrences p) &&
  match schedule p with Some s => schedule_in_range s | None => true end.

Definition request_in_range (r : MandateStartRequest) : bool :=
  opt_in in_u32 (request_max_occurrences r) && schedule_in_range (request_schedule r).

(** serde reads back the payloads it wrote. *)
Class MandateCodec `{ControlCodec} := {
  decode_started_json p : started_in_range p = true ->
    decode_mandate_started (mandate_started_json p) = Ok p;
  decode_revoked_json p : decode_mandate_revoked (mandate_revoked_json p) = Ok p;
}.

(** What is relied on of chrono and the cron engine: an instant that parses has a millisecond
    count of 64 bits, and the occurrences of a cron expression come in order. *)
Class CalendarLaws `{Calendar} := {
  parsed_millis text r : parse_rfc3339 text = Ok r -> in_i64 (timestamp_millis r.1) = true;
  cron_ordered cron tz t : StronglySorted Z.lt (cron_iter_after cron tz t);
}.

Section Store.
Context `{UuidParse} `{ControlCodec} {S : Type} `{EventAppendLaws S}.

Lemma log_ordered (s : S) stream : log_valid s -> stream_ordered (log_events s stream).
Proof.
  intros Hv. split.
  - assert (forall i e, log_events s stream !! i = Some e -> sequence e = Z.of_nat (Datatypes.S i))
      as Hn by (intros i e Hi; by destruct (log_numbered _ _ _ _ Hv Hi)).
    revert Hn. generalize (log_events s stream) as l. intros l.
    assert (forall k, (forall i e, l !! i = Some e -> sequence e = Z.of_nat (Datatypes.S (k + i))) ->
      StronglySorted (fun a b => (sequence a < sequence b)%Z) l) as Hgen; [|by apply (Hgen 0%nat)].
    induction l as [|e l IH]; intros k Hk; [constructor|]. constructor.
    + apply (IH (Datatypes.S k)). intros i e' Hi. rewrite (Hk (Datatypes.S i) e' Hi). lia.
    + apply Forall_forall. intros e' (i & Hi)%list_elem_of_lookup.
      rewrite (Hk 0%nat e eq_refl), (Hk (Datatypes.S i) e' Hi). lia.
  - apply NoDup_fmap_2_strong.
    + intros e1 e2 He1 He2. by apply (log_ids_unique s stream).
    + apply NoDup_alt. intros i j e Hi Hj.
      destruct (log_numbered _ _ _ _ Hv Hi), (log_numbered _ _ _ _ Hv Hj). lia.
Qed.

Lemma read_control_ok (s : S) c :
  log_valid s -> read_control s c = Ok (log_events s (control_stream_id c)).
Proof. intros Hv. unfold read_control, read_log. by rewrite log_read_all. Qed.

(** What listing answers in every lawful store. *)
Lemma list_active_iff (s : S) c ms :
  log_valid s ->
  list_active_mandates s c = Ok ms <->
  readable c (log_events s (control_stream_id c)) /\
  ms = active_mandates c (log_events s (control_stream_id c)).
Proof.
  intros Hv. unfold list_active_mandates. rewrite read_control_ok by done. simpl.
  apply active_mandates_from_events_spec. by apply log_ordered.
Qed.

Lemma list_active_frame (s s' : S) c :
  log_valid s -> log_valid s' ->
  log_events s' (control_stream_id c) = log_events s (control_stream_id c) ->
  list_active_mandates s' c = list_active_mandates s c.
Proof.
  intros Hv Hv' He. unfold list_active_mandates. by rewrite !read_control_ok, He.
Qed.

(** ** One more event *)

Lemma active_mandates_started c events event p :
  fact_of c event = FactStarted p ->
  existsb (revokes_here c (mk_active event p)) events = false ->
  active_mandates c (events ++ [event]) = active_mandates c events ++ [mk_active event p].
Proof.
  intros Hf Hn. unfold active_mandates. rewrite omap_app, filter_app.
  assert (started_here c event = Some (mk_active event p)) as Hs by (unfold started_here; by rewrite Hf).
  cbn [omap list_omap]. rewrite Hs. f_equal.
  - apply list_filter_iff. intros m. rewrite existsb_app. simpl.
    unfold revokes_here at 2. by rewrite Hf, !orb_false_r.
  - rewrite filter_cons, decide_True; [done|]. rewrite existsb_app, Hn. simpl.
    unfold revokes_here. by rewrite Hf.
Qed.

Lemma active_mandates_revoked c events event p :
  fact_of c event = FactRevoked p ->
  active_mandates c (events ++ [event]) =
  filter (fun m => names_mandate p m = false) (active_mandates c events).
Proof.
  intros Hf. unfold active_mandates. rewrite omap_app, filter_app.
  assert (started_here c event = None) as Hs by (unfold started_here; by rewrite Hf).
  cbn [omap list_omap]. rewrite Hs, app_nil_r, list_filter_filter. apply list_filter_iff.
  intros m. rewrite existsb_app. simpl. unfold revokes_here at 2. rewrite Hf, orb_false_r, orb_false_iff.
  naive_solver.
Qed.

(** A revocation in the stream keeps its mandate out of every later listing. *)
Lemma active_not_revoked c events m :
  m ∈ active_mandates c events -> mandate_event m ∈ events /\
  forall event, event ∈ events -> revokes_here c m event = false.
Proof.
  intros [Hn (e & He & Hm)%list_elem_of_omap]%list_elem_of_filter.
  apply started_here_event in Hm as ->. split; [done|]. intros event Hin.
  destruct (revokes_here c m event) eqn:Hr; [|done].
  assert (existsb (revokes_here c m) events = true) as Ht; [|by rewrite Ht in Hn].
  apply existsb_exists. exists event. split; [by apply list_elem_of_In|done].
Qed.

Lemma readable_app c l1 l2 : readable c (l1 ++ l2) <-> readable c l1 /\ readable c l2.
Proof. apply Forall_app. Qed.

(** What an append to the control stream does. *)
Lemma append_control_ok (s s' : S) c record missing event :
  log_valid s -> append_control c record missing s = (s', Ok event) ->
  let stream := control_stream_id c in
  log_valid s' /\
  event = from_new stream (Z.of_nat (Datatypes.S (length (log_events s stream)))) record /\
  log_events s' stream = log_events s stream ++ [event] /\
  (forall other, other <> stream -> log_events s' other = log_events s other).
Proof.
  intros Hv. unfold append_control. destruct (log_append _ _ _) as [s1 [es|e]] eqn:Hrun; [|done].
  destruct (log_extended_one _ _ _ _ _ Hv Hrun) as (Hv' & -> & He & Ho). simpl.
  intros [= <- <-]. by split_and!.
Qed.

Lemma append_control_err (s s' : S) c record missing e :
  log_valid s -> append_control c record missing s = (s', Err e) ->
  log_valid s' /\ forall other, log_events s' other = log_events s other.
Proof.
  intros Hv. unfold append_control. destruct (log_append _ _ _) as [s1 [es|e']] eqn:Hrun.
  - destruct (log_extended_one _ _ _ _ _ Hv Hrun) as (Hv' & -> & He & Ho). done.
  - simpl. intros [= <- _]. by apply (log_unextended _ _ _ _ _ Hv Hrun).
Qed.
End Store.

(** ** Theorems *)

Section Mandates.
Context `{UuidParse} `{MandateCodec} `{CalendarLaws} {S : Type} `{EventAppendLaws S}.

(** In every lawful store, listing the mandates of a thread answers exactly
    when every mandate event of its control stream decodes, and then with the
    started mandates no revocation of the stream names, in the order they were
    started: the two sets, the map keyed by event id and the sort of the code
    amount to that reading. *)
Theorem list_active_mandates_spec (s : S) c ms :
  log_valid s ->
  list_active_mandates s c = Ok ms <->
  readable c (log_events s (control_stream_id c)) /\
  ms = active_mandates c (log_events s (control_stream_id c)).
Proof. apply list_active_iff. Qed.

Lemma validated_request request now :
  validate_mandate_start_request request now = Ok tt ->
  validate_schedule (request_schedule request) (default catch_up_default (request_catch_up request))
    now = Ok tt /\
  exists expires, mandate_expiry_ms (request_expires_at request) now = Ok expires.
Proof.
  unfold validate_mandate_start_request. rewrite check_ok. intros [Hs He]. split; [done|].
  destruct (mandate_expiry_ms _ _) as [expires|]; [eauto|done].
Qed.

Lemma expiry_in_range expires_at now expires :
  mandate_expiry_ms expires_at now = Ok expires -> opt_in in_i64 expires = true.
Proof.
  unfold mandate_expiry_ms. destruct expires_at as [text|]; [|by intros [= <-]].
  destruct (parse_rfc3339 text) as [r|err] eqn:Hp; simpl; [|done].
  destruct (negb _); [done|]. destruct (_ <? _)%Z; [done|]. intros [= <-].
  by apply (parsed_millis text).
Qed.

Lemma started_from_request_in_range c request expires mandate :
  request_in_range request = true -> opt_in in_i64 expires = true ->
  started_in_range (started_from_request c request expires mandate) = true.
Proof.
  unfold request_in_range, started_in_range, started_from_request. simpl.
  intros [-> ->]%andb_true_iff ->. done.
Qed.

Lemma targets_own_thread c request expires mandate :
  mandate_targets_thread (started_from_request c request expires mandate) c = true.
Proof. unfold mandate_targets_thread. simpl. apply String.eqb_refl. Qed.

(** What a successful start did. *)
Lemma start_mandate_ok c request now mandate id created (s s' : S) r :
  log_valid s -> request_in_range request = true ->
  start_mandate c request now mandate id created s = (s', Ok r) ->
  let stream := control_stream_id c in
  validate_mandate_start_request request now = Ok tt /\
  event_id (started_event r) = id /\
  (exists expires, mandate_expiry_ms (request_expires_at request) now = Ok expires /\
     started_payload r = started_from_request c request expires mandate) /\
  fact_of c (started_event r) = FactStarted (started_payload r) /\
  is_ok (mandate_fact c (started_event r)) = true /\
  log_valid s' /\ log_events s' stream = log_events s stream ++ [started_event r] /\
  (forall other, other <> stream -> log_events s' other = log_events s other).
Proof.
  intros Hv Hr. unfold start_mandate. intros Hrun. st_inv.
  match goal with Hx : append_control _ _ _ _ = _ |- _ =>
    apply append_control_ok in Hx as (Hv' & Hevent & He & Ho); [|done] end.
  destruct a. rename a0 into expires, a1 into event. cbn [started_event started_payload].
  set (p := started_from_request c request expires mandate) in *.
  assert (mandate_fact c event = Ok (FactStarted p)) as Hf.
  { rewrite Hevent. unfold mandate_fact, decode_started. cbn [from_new kind payload witnessed new_kind
      new_payload]. rewrite decode_started_json.
    - simpl. unfold p. by rewrite targets_own_thread.
    - apply started_from_request_in_range; [done|]. by eapply expiry_in_range. }
  unfold fact_of. rewrite Hf. split_and!; try done; [by rewrite Hevent|by eexists].
Qed.

(** A mandate that was started is listed from then on: a successful start
    leaves a lawful store in which the thread's active mandates are the ones
    before it followed by the new one, with the receipt's event and payload, and
    the mandates of every other control stream are untouched; as long as the
    drawn ids are fresh, that is, no earlier revocation names them. *)
Theorem start_lists_mandate c request now mandate id created (s s' : S) r ms :
  log_valid s -> request_in_range request = true ->
  (forall e p, e ∈ log_events s (control_stream_id c) -> kind e = EventKind.MandateRevoked ->
    decode_mandate_revoked (payload e) = Ok p ->
    mandate_event_id p <> Some (uuid_text id) /\
    revoked_mandate_id p <> "mandate-" +:+ uuid_text mandate) ->
  list_active_mandates s c = Ok ms ->
  start_mandate c request now mandate id created s = (s', Ok r) ->
  log_valid s' /\ event_id (started_event r) = id /\
  list_active_mandates s' c = Ok (ms ++ [mk_active (started_event r) (started_payload r)]) /\
  forall other, control_stream_id other <> control_stream_id c ->
    list_active_mandates s' other = list_active_mandates s other.
Proof.
  intros Hv Hr Hfresh Hms Hrun.
  apply start_mandate_ok in Hrun as (_ & Hid & (expires & _ & Hp) & Hf & Hok & Hv' & He & Ho);
    [|done..].
  split_and!; [done|done| |].
  - apply list_active_iff in Hms as [Hread ->]; [|done]. apply list_active_iff; [done|].
    rewrite He. split.
    + apply readable_app. split; [done|]. by apply Forall_singleton.
    + symmetry. apply active_mandates_started; [done|].
      destruct (existsb _ _) eqn:Hex; [|done]. exfalso.
      apply existsb_exists in Hex as (e & Hin%list_elem_of_In & Hrev).
      unfold revokes_here, fact_of, mandate_fact in Hrev.
      destruct (kind e) eqn:Hk; try done.
      * by destruct (decode_started e); [simpl in Hrev; destruct (mandate_targets_thread _ _)|].
      * unfold decode_revoked in Hrev. destruct (decode_mandate_revoked (payload e)) as [p|] eqn:Hd;
          simpl in Hrev; [|done]. destruct (revoked_targets_thread p c); [|done].
        destruct (Hfresh e p Hin Hk Hd) as [Hn1 Hn2]. unfold names_mandate in Hrev. simpl in Hrev.
        rewrite Hid, Hp in Hrev. simpl in Hrev. apply orb_true_iff in Hrev as [Hx|Hx]; to_prop; done.
  - intros other Hne. apply list_active_frame; [done|done|]. by apply Ho.
Qed.

(** A mandate is recorded only for a schedule the clock can honour: an
    interval of at least a minute, a cron expression whose next two occurrences
    are at least a minute apart in a known timezone, or one instant that is not
    past unless missed occurrences coalesce; and an expiry, when asked for, is a
    UTC instant not before now.  A start that fails leaves every stream as it
    was. *)
Theorem started_mandate_validated c request now mandate id created (s s' : S) res :
  log_valid s -> start_mandate c request now mandate id created s = (s', res) ->
  match res with
  | Err _ => log_valid s' /\ forall other, log_events s' other = log_events s other
  | Ok r =>
      schedule (started_payload r) = Some (request_schedule request) /\
      match request_schedule request with
      | Interval every_ms => (MIN_MANDATE_INTERVAL_MS <= every_ms)%Z
      | At when => exists t offset, parse_rfc3339 when = Ok (t, offset) /\
          ((now <= t)%Z \/ catch_up (started_payload r) = Some CoalesceMissed)
      | Cron expr tz => exists cron zone first second,
          cron_parse expr = Ok cron /\ tz_parse tz = Ok zone /\
          find_next_occurrence cron zone now = Ok first /\
          find_next_occurrence cron zone first = Ok second /\
          (MIN_MANDATE_INTERVAL_MS * 10 ^ 6 <= second - first)%Z
      end /\
      match request_expires_at request with
      | None => expires_at_ms (started_payload r) = None
      | Some text => exists t, parse_rfc3339 text = Ok (t, 0%Z) /\ (now <= t)%Z /\
          expires_at_ms (started_payload r) = Some (timestamp_millis t)
      end
  end.
Proof.
  intros Hv Hrun. destruct res as [r|e].
  - unfold start_mandate in Hrun. st_inv. cbn [started_payload].
    match goal with Hx : validate_mandate_start_request _ _ = Ok ?u |- _ =>
      destruct u; apply validated_request in Hx as [Hs _] end.
    match goal with Hx : mandate_expiry_ms _ _ = Ok _ |- _ => rename Hx into Hexp end.
    cbn [started_from_request schedule catch_up expires_at_ms]. split; [done|]. split.
    + unfold validate_schedule in Hs. destruct (request_schedule request) as [expr tz|every|when].
      * destruct (cron_parse expr) as [cron|]; simpl in Hs; [|done].
        destruct (tz_parse tz) as [zone|]; simpl in Hs; [|done]. unfold cron_next in Hs.
        destruct (find_next_occurrence cron zone now) as [first|] eqn:Hfirst; simpl in Hs; [|done].
        destruct (find_next_occurrence cron zone first) as [second|] eqn:Hsecond; simpl in Hs; [|done].
        destruct (Z.ltb_spec (Z.quot (second - first) (10 ^ 6)) MIN_MANDATE_INTERVAL_MS) as [|Hle];
          [done|].
        exists cron, zone, first, second. split_and!; try done.
        destruct (Z.le_gt_cases 0 (second - first)) as [Hp|Hn].
        -- rewrite Z.quot_div_nonneg in Hle by lia.
           pose proof (Z.mul_div_le (second - first) (10 ^ 6)). lia.
        -- assert (Z.quot (second - first) (10 ^ 6) <= 0)%Z; [|unfold MIN_MANDATE_INTERVAL_MS in *; lia].
           rewrite <- (Z.opp_involutive (second - first)), Z.quot_opp_l by lia.
           pose proof (Z.quot_pos (- (second - first)) (10 ^ 6)). lia.
      * by destruct (Z.ltb_spec every MIN_MANDATE_INTERVAL_MS).
      * destruct (parse_rfc3339 when) as [[t offset]|]; simpl in Hs; [|done].
        exists t, offset. split; [done|].
        destruct (Z.ltb_spec t now); simpl in Hs; [|by left].
        case_bool_decide as Hc; simpl in Hs; [|done]. right. by rewrite Hc.
    + unfold mandate_expiry_ms in Hexp. destruct (request_expires_at request) as [text|];
        [|by injection Hexp as <-].
      destruct (parse_rfc3339 text) as [[t offset]|];
        cbn [or_execution map_err result_bind fst snd] in Hexp; [|done].
      destruct (negb (offset =? 0)%Z) eqn:Ho; [done|]. to_prop. subst offset.
      destruct (Z.ltb_spec t now); [done|]. injection Hexp as <-. by exists t.
  - unfold start_mandate in Hrun. st_inv; try done; try (by apply append_control_err in Hrun).
Qed.

(** ** Revocations *)

Lemma mandate_start_event_ok c events id event p :
  mandate_start_event c events id = Ok (Some (event, p)) ->
  event ∈ events /\ event_id event = id /\ kind event = EventKind.MandateStarted /\
  decode_started event = Ok p /\ mandate_targets_thread p c = true.
Proof.
  induction events as [|e events IH]; simpl; [done|].
  destruct (negb _ || negb _) eqn:Hn; [intros (? & ?)%IH; split; [by right|done]|]. to_prop.
  destruct (decode_started e) as [q|] eqn:Hd; simpl; [|done].
  destruct (mandate_targets_thread q c) eqn:Ht.
  - intros [= <- <-]. split_and!; set_solver.
  - intros (? & ? & ? & ? & ?)%IH. split_and!; set_solver.
Qed.

Lemma mandate_start_event_app c events es id found :
  mandate_start_event c events id = Ok (Some found) ->
  mandate_start_event c (events ++ es) id = Ok (Some found).
Proof.
  induction events as [|e events IH]; simpl; [done|].
  destruct (negb _ || negb _); [done|]. destruct (decode_started e); simpl; [|done].
  by destruct (mandate_targets_thread _ _).
Qed.

Lemma mandate_revoked_event_after events event es id started p :
  mandate_revoked_event events id started = Ok None ->
  kind event = EventKind.MandateRevoked -> decode_revoked event = Ok p ->
  revoked_mandate_id p = started_mandate_id started ->
  mandate_revoked_event ((events ++ [event]) ++ es) id started = Ok (Some (event, p)).
Proof.
  intros Hn Hk Hd Hid. induction events as [|e events IH]; simpl in *.
  - rewrite bool_decide_eq_true_2, Hd by done. simpl. rewrite Hid, String.eqb_refl, orb_true_r. done.
  - destruct (negb _); [by apply IH|]. destruct (decode_revoked e); simpl in *; [|done].
    destruct (_ || _); [done|]. by apply IH.
Qed.

(** The revocation [revoke_mandate] writes is one the listing reads. *)
Lemma revocation_targets c started id :
  mandate_targets_thread started c = true ->
  revoked_targets_thread (revoked_from_started started id) c = true.
Proof.
  unfold mandate_targets_thread, revoked_targets_thread. simpl.
  by destruct (mandate_subject_thread_id _).
Qed.

(** What a revocation that was recorded did. *)
Lemma revoke_mandate_revoked c mandate id created (s s' : S) r :
  log_valid s -> revoke_mandate c mandate id created s = (s', Ok r) -> revoke_status r = Revoked ->
  let stream := control_stream_id c in
  exists started,
    mandate_start_event c (log_events s stream) mandate = Ok (Some (revoke_start_event r, started)) /\
    mandate_revoked_event (log_events s stream) mandate started = Ok None /\
    revoke_payload r = revoked_from_started started mandate /\
    event_id (revoke_event r) = id /\
    kind (revoke_event r) = EventKind.MandateRevoked /\
    decode_revoked (revoke_event r) = Ok (revoke_payload r) /\
    fact_of c (revoke_event r) = FactRevoked (revoke_payload r) /\
    is_ok (mandate_fact c (revoke_event r)) = true /\
    log_valid s' /\ log_events s' stream = log_events s stream ++ [revoke_event r] /\
    (forall other, other <> stream -> log_events s' other = log_events s other).
Proof.
  intros Hv. unfold revoke_mandate. intros Hrun Hst. st_inv.
  match goal with Hx : read_control _ _ = Ok _ |- _ => rewrite read_control_ok in Hx by done;
    injection Hx as <- end.
  match goal with Hx : ok_or ?o _ = Ok ?x |- _ => destruct o as [[start started]|] eqn:Ho; [|done];
    injection Hx as <- end.
  st_inv. match goal with Hx : mandate_revoked_event _ _ _ = Ok ?x |- _ => rename Hx into Hrev;
    rename x into found end.
  destruct found as [[event p]|]; st_inv; [done|]. cbn [revoke_start_event revoke_event
    revoke_payload].
  match goal with Hx : append_control _ _ _ _ = _ |- _ =>
    apply append_control_ok in Hx as (Hv' & Hevent & He & Hot); [|done] end.
  exists started.
  match goal with Hx : mandate_start_event _ _ _ = Ok _ |- _ => pose proof Hx as Hstart end.
  apply mandate_start_event_ok in Hstart as (_ & _ & _ & _ & Ht).
  set (p := revoked_from_started started mandate) in *.
  assert (decode_revoked a = Ok p) as Hd.
  { rewrite Hevent. unfold decode_revoked. cbn [from_new payload witnessed new_payload].
    by rewrite decode_revoked_json. }
  assert (kind a = EventKind.MandateRevoked) as Hk by by rewrite Hevent.
  assert (mandate_fact c a = Ok (FactRevoked p)) as Hf.
  { unfold mandate_fact. rewrite Hk, Hd. simpl. unfold p. by rewrite revocation_targets. }
  unfold fact_of. rewrite Hf. split_and!; try done. by rewrite Hevent.
Qed.

(** C12 - A revocation is recorded once and is final.  When a revocation was
    recorded, the mandates it names, and only they, leave the listing.  In every
    later state of the control stream the mandate is never listed again, and
    revoking it again changes nothing and answers with the event that was
    recorded. *)
Theorem revocation_is_final c mandate id created (s s' : S) r ms :
  log_valid s -> revoke_mandate c mandate id created s = (s', Ok r) -> revoke_status r = Revoked ->
  list_active_mandates s c = Ok ms ->
  list_active_mandates s' c = Ok (filter (fun m => names_mandate (revoke_payload r) m = false) ms) /\
  event_id (revoke_event r) = id /\
  forall s2 es, log_valid s2 ->
    log_events s2 (control_stream_id c) = log_events s' (control_stream_id c) ++ es ->
    (forall ms2 m, list_active_mandates s2 c = Ok ms2 -> m ∈ ms2 ->
       event_id (mandate_event m) <> mandate) /\
    forall id2 created2, revoke_mandate c mandate id2 created2 s2 =
      (s2, Ok (mk_revoke_receipt AlreadyRevoked (revoke_start_event r) (revoke_event r)
                 (revoke_payload r))).
Proof.
  intros Hv Hrun Hst Hms.
  destruct (revoke_mandate_revoked _ _ _ _ _ _ _ Hv Hrun Hst) as
    (started & Hstart & Hnone & Hp & Hid & Hk & Hd & Hf & Hok & Hv' & He & _).
  apply list_active_iff in Hms as [Hread ->]; [|done]. split_and!; [|done|].
  - apply list_active_iff; [done|]. rewrite He. split.
    + apply readable_app. split; [done|]. by apply Forall_singleton.
    + symmetry. by apply active_mandates_revoked.
  - intros s2 es Hv2 He2. rewrite He in He2. split.
    + intros ms2 m [_ ->]%list_active_iff Hm Heq; [|done].
      apply active_not_revoked in Hm as [_ Hm]. rewrite He2 in Hm.
      specialize (Hm (revoke_event r)). unfold revokes_here in Hm. rewrite Hf in Hm.
      unfold names_mandate in Hm. rewrite Hp in Hm. simpl in Hm.
      rewrite bool_decide_eq_true_2 in Hm by by rewrite Heq. simpl in Hm.
      discriminate Hm. set_solver.
    + intros id2 created2. unfold revoke_mandate, st_bind, st_get, st_lift, st_ret.
      rewrite read_control_ok by done. rewrite He2.
      rewrite <- app_assoc at 1. rewrite (mandate_start_event_app _ _ _ _ _ Hstart). simpl.
      erewrite mandate_revoked_event_after; [done|done..|]. by rewrite Hp.
Qed.
End Mandates.
