(* ===== verification/Clock.v ===== *)
(** * The clock route

    Models [crates/verlet-kernel/src/daemon/clock_route.rs]: the daemon's clock
    reads the active mandates of every control stream, computes the next
    occurrence of each from what has already fired, and submits the due ones to
    an ingress sink as witnessed envelopes.

    The store is any [EventStore] that also answers the two queries the route
    makes of the SQLite store ([crates/verlet-history-sqlite/src/lib.rs]): they
    are written over its table of event rows.  The sink is any [IngressSink].
    An occurrence index is a [u64]; the increment of the last fired index wraps,
    as it does without overflow checks. *)

From stdpp Require Import base gmap sets list strings pretty.
From Stdlib Require Import ZArith Lia.
From S2P Require Import Prelude Retry Json EventKind Contracts Records Store EventLog Control Ingress Queue Text Mandates.

Local Open Scope verlet_scope.
Local Open Scope string_scope.
Local Open Scope list_scope.

Definition CLOCK_TICK_ROUTE_KIND : string := "clock.tick".
Definition TIMER_FIRED_ENVELOPE_KIND : string := "timer.fired".
Definition DEFAULT_CLOCK_POLL_INTERVAL : Duration := from_secs 30.

(** ** Fired timers *)

Record TimerFiredPayload : Type := mk_timer {
  timer_mandate_event_id : EventRecordId;
  timer_scheduled_for : string;
  timer_occurrence_index : Z;
  timer_catch_up : bool;
}.

(** [serde_json::to_value] of a [TimerFiredPayload]. *)
Definition timer_fired_json `{UuidText} (p : TimerFiredPayload) : json :=
  jobj [("mandate_event_id", JString (uuid_text (timer_mandate_event_id p)));
        ("scheduled_for", JString (timer_scheduled_for p));
        ("occurrence_index", jint (timer_occurrence_index p));
        ("catch_up", JBool (timer_catch_up p))].

(** [serde_json::from_value] of a [TimerFiredPayload]; the error is its text. *)
Class TimerCodec := { decode_timer_fired : json -> result TimerFiredPayload string }.

(** The rows of the table [event_records], each read back as the record it stores. *)
Class EventTable (S : Type) := { event_rows : S -> list EventRecord }.

(** [verlet_io_core::IngressSink]. *)
Class IngressSink (K : Type) := {
  submit : IngressEnvelope -> K -> K * IoResult IngressAck;
}.

Section Queries.
Context `{UuidText} `{TimerCodec} {S : Type} `{EventTable S}.

(** [LIKE 'control:%'] ignores the case of ASCII letters. *)
Definition like_control (stream : EventStreamId) : bool :=
  match strip_str_prefix (lit "control:") (map to_ascii_lowercase (lit stream)) with
  | Some _ => true
  | None => false
  end.

(** [ORDER BY tenant_id, user_id, session_id, thread_id]. *)
Definition coordinates_cmp (a b : ThreadCoordinates) : comparison :=
  match str_cmp (tenant_id a) (tenant_id b) with
  | Eq => match str_cmp (user_id a) (user_id b) with
          | Eq => match str_cmp (session_id a) (session_id b) with
                  | Eq => str_cmp (uuid_text (thread_id a)) (uuid_text (thread_id b))
                  | o => o
                  end
          | o => o
          end
  | o => o
  end.

(** A stable insertion sort by a comparison. *)
Fixpoint insert_by {A} (cmp : A -> A -> comparison) (x : A) (l : list A) : list A :=
  match l with
  | [] => [x]
  | y :: l' => match cmp x y with Gt => y :: insert_by cmp x l' | _ => x :: l end
  end.

Definition sort_by {A} (cmp : A -> A -> comparison) (l : list A) : list A :=
  fold_right (insert_by cmp) [] l.

(** [SqliteSessionStore::list_control_stream_coordinates]. *)
Definition list_control_stream_coordinates (store : S) : list ThreadCoordinates :=
  sort_by coordinates_cmp
    (remove_dups (coordinates <$> filter (fun e => like_control (stream_id e) = true)
                                    (event_rows store))).

(** [SqliteSessionStore::list_fired_timer_occurrences]; the error is the text of serde's. *)
Definition list_fired_timer_occurrences (store : S) (stream : EventStreamId) :
    result (list (EventRecordId * Z)) string :=
  collect (fun e => result_map (fun p => (timer_mandate_event_id p, timer_occurrence_index p))
                      (decode_timer_fired (payload e)))
    (sort_by_z sequence
       (filter (fun e => stream_id e = stream /\ kind e = TimerFired) (event_rows store))).
End Queries.

(** ** Occurrences *)

Section Occurrences.
Context `{Calendar}.

(** [chrono::DateTime::checked_add_signed]. *)
Definition instant_checked_add (t : Instant) (d : Z) : option Instant :=
  if instant_in_range (t + d) then Some (t + d)%Z else None.

Definition from_ms (ms : Z) : Z := (ms * 10 ^ 6)%Z.

(** [u64::checked_add], [u64::checked_mul] and [i64::try_from]. *)
Definition u64_checked (z : Z) : option Z := if in_u64 z then Some z else None.
Definition i64_try_from (z : Z) : option Z := if in_i64 z then Some z else None.

Definition or_fail {A} (o : option A) (message : ExecutionMessage) : KernelResult A :=
  ok_or o (RuntimeExecution message).

(** [reject_zero_interval]. *)
Definition reject_zero_interval (every_ms : Z) : KernelResult Z :=
  if (every_ms =? 0)%Z then execution_error IntervalZero else Ok every_ms.

(** [datetime_from_millis]. *)
Definition datetime_from_millis (value : Z) : KernelResult Instant :=
  if instant_in_range (from_ms value) then Ok (from_ms value)
  else execution_error (EventTimestampInvalid value).

(** [parse_utc]. *)
Definition parse_utc (value : string) : KernelResult Instant :=
  result_map fst (or_execution InstantNotRfc3339 (parse_rfc3339 value)).

(** [cron_schedule]. *)
Definition cron_schedule (expr tz : string) : KernelResult (CronExpr * TimeZone) :=
  cron <-? or_execution CronMalformed (cron_parse expr) ;;
  timezone <-? or_execution (TimezoneUnknown tz) (tz_parse tz) ;;
  Ok (cron, timezone).

(** [occurrence_at_index]. *)
Definition occurrence_at_index (s : MandateSchedulePayload) (start : Instant) (index : Z) :
    KernelResult Instant :=
  match s with
  | Interval every_ms =>
      multiplier <-? or_fail (u64_checked (index + 1)) IntervalIndexOverflow ;;
      every_ms <-? reject_zero_interval every_ms ;;
      offset_ms <-? or_fail (u64_checked (every_ms * multiplier)) IntervalOffsetOverflow ;;
      offset_ms <-? or_fail (i64_try_from offset_ms) IntervalOffsetOverflow ;;
      or_fail (instant_checked_add start (from_ms offset_ms)) IntervalTimestampOverflow
  | At when =>
      if (0 <? index)%Z then execution_error AtSingleOccurrence else parse_utc when
  | Cron expr tz =>
      schedule <-? cron_schedule expr tz ;;
      or_fail (cron_iter_after schedule.1 schedule.2 start !! Z.to_nat index) CronExhausted
  end.

(** [max_occurrences.is_some_and(|max| index >= max)]. *)
Definition exhausted (max_occurrences : option Z) (index : Z) : bool :=
  is_some_and max_occurrences (fun max => (max <=? index)%Z).

(** The loop of [first_occurrence_index_at_or_after] over a cron iterator. *)
Fixpoint first_cron_index (occurrences : list Instant) (index : Z) (threshold : Instant)
    (max_occurrences : option Z) : option Z :=
  match occurrences with
  | [] => None
  | occurrence :: occurrences =>
      if exhausted max_occurrences index then None
      else if (threshold <=? occurrence)%Z then Some index
      else first_cron_index occurrences (index + 1) threshold max_occurrences
  end.

(** The first instant of an interval schedule. *)
Definition first_interval_occurrence (start : Instant) (every_ms : Z) : KernelResult Instant :=
  every <-? or_fail (i64_try_from every_ms) IntervalDurationOverflow ;;
  or_fail (instant_checked_add start (from_ms every)) IntervalTimestampOverflow.

(** [first_occurrence_index_at_or_after]. *)
Definition first_occurrence_index_at_or_after (s : MandateSchedulePayload)
    (start threshold : Instant) (max_occurrences : option Z) : KernelResult (option Z) :=
  match s with
  | Interval every_ms =>
      every_ms <-? reject_zero_interval every_ms ;;
      first <-? first_interval_occurrence start every_ms ;;
      if (threshold <=? first)%Z then Ok (Some 0%Z)
      else
        let diff_ms := ((threshold - first) / 10 ^ 6)%Z in
        let index := ((diff_ms + every_ms - 1) / every_ms)%Z in
        if exhausted max_occurrences index then Ok None else Ok (Some index)
  | At when =>
      when <-? parse_utc when ;;
      Ok (if (threshold <=? when)%Z && negb (exhausted max_occurrences 0) then Some 0%Z else None)
  | Cron expr tz =>
      schedule <-? cron_schedule expr tz ;;
      Ok (first_cron_index (cron_iter_after schedule.1 schedule.2 start) 0 threshold
            max_occurrences)
  end.

(** The loop of [latest_occurrence_index_at_or_before] over a cron iterator. *)
Fixpoint latest_cron_index (occurrences : list Instant) (index : Z) (threshold : Instant)
    (max_occurrences : option Z) (latest : option Z) : option Z :=
  match occurrences with
  | [] => latest
  | occurrence :: occurrences =>
      if exhausted max_occurrences index then latest
      else if (threshold <? occurrence)%Z then latest
      else latest_cron_index occurrences (index + 1) threshold max_occurrences (Some index)
  end.

(** [latest_occurrence_index_at_or_before]. *)
Definition latest_occurrence_index_at_or_before (s : MandateSchedulePayload)
    (start threshold : Instant) (max_occurrences : option Z) : KernelResult (option Z) :=
  match s with
  | Interval every_ms =>
      every_ms <-? reject_zero_interval every_ms ;;
      first <-? first_interval_occurrence start every_ms ;;
      if (threshold <? first)%Z then Ok None
      else
        let diff_ms := ((threshold - first) / 10 ^ 6)%Z in
        let index := (diff_ms / every_ms)%Z in
        match max_occurrences with
        | Some max => if (max =? 0)%Z then Ok None else Ok (Some (Z.min index (max - 1)))
        | None => Ok (Some index)
        end
  | At when =>
      when <-? parse_utc when ;;
      Ok (if (when <=? threshold)%Z && negb (exhausted max_occurrences 0) then Some 0%Z else None)
  | Cron expr tz =>
      schedule <-? cron_schedule expr tz ;;
      Ok (latest_cron_index (cron_iter_after schedule.1 schedule.2 start) 0 threshold
            max_occurrences None)
  end.
End Occurrences.

(** ** Ticks *)

Record ScheduledTick : Type := mk_tick {
  tick_coordinates : ThreadCoordinates;
  tick_mandate_event_id : EventRecordId;
  tick_scheduled_for : Instant;
  tick_occurrence_index : Z;
  tick_catch_up : bool;
}.

Section Clock.
Context `{UuidText} `{ControlCodec} `{TimerCodec} `{Calendar}.
Context {S : Type} `{EventStore S} `{EventTable S} {K : Type} `{IngressSink K}.

(** [ScheduledTick::cmp]. *)
Definition tick_cmp (a b : ScheduledTick) : comparison :=
  match Z.compare (tick_scheduled_for a) (tick_scheduled_for b) with
  | Eq => match Z.compare (tick_occurrence_index a) (tick_occurrence_index b) with
          | Eq => str_cmp (uuid_text (tick_mandate_event_id a)) (uuid_text (tick_mandate_event_id b))
          | o => o
          end
  | o => o
  end.

(** The payload of the event a tick asks for. *)
Definition tick_payload (t : ScheduledTick) : TimerFiredPayload :=
  mk_timer (tick_mandate_event_id t) (rfc3339_text (tick_scheduled_for t))
    (tick_occurrence_index t) (tick_catch_up t).

Definition bool_text (b : bool) : string := if b then "true" else "false".

(** [ScheduledTick::envelope]; [id] is the one [IngressEnvelope::new] draws. *)
Definition tick_envelope (route_id : string) (now : Instant) (id : string) (t : ScheduledTick) :
    IngressEnvelope :=
  let c := tick_coordinates t in
  let mandate := uuid_text (tick_mandate_event_id t) in
  let index := pretty (tick_occurrence_index t) in
  let source := source_new CLOCK_TICK_ROUTE_KIND route_id in
  let delivery := mandate +:+ ":" +:+ index in
  let envelope :=
    ingress_new id source (conversation_new ("thread:" +:+ uuid_text (thread_id c)) System)
      (ContentEvent TIMER_FIRED_ENVELOPE_KIND (timer_fired_json (tick_payload t)))
      (Z.max (timestamp_millis now) 0) in
  let envelope := with_dedupe_key (for_source source delivery) envelope in
  let envelope := with_delivery (delivery_new delivery) envelope in
  let envelope :=
    with_principal (mk_principal (tenant_id c) (user_id c) ("mandate:" +:+ mandate)) envelope in
  let envelope := with_metadata "cooldis_route_id" route_id envelope in
  let envelope := with_metadata "cooldis_session_id" (session_id c) envelope in
  let envelope := with_metadata "verlet_thread_id" (uuid_text (thread_id c)) envelope in
  let envelope := with_metadata "cooldis_mandate_event_id" mandate envelope in
  let envelope :=
    with_metadata "cooldis_scheduled_for" (rfc3339_text (tick_scheduled_for t)) envelope in
  let envelope := with_metadata "verlet_occurrence_index" index envelope in
  with_metadata "verlet_catch_up" (bool_text (tick_catch_up t)) envelope.

(** [fired_occurrence_indices]; the [HashSet] as the list it is collected from. *)
Definition fired_occurrence_indices (store : S) (c : ThreadCoordinates) :
    KernelResult (list (EventRecordId * Z)) :=
  map_err (fun err => KernelHistory (HistoryText ("history codec failed: " +:+ err)))
    (list_fired_timer_occurrences store (control_stream_id c)).

(** The greatest index a mandate has fired. *)
Definition last_fired (mandate : EventRecordId) (fired : list (EventRecordId * Z)) : option Z :=
  max_by_key (fun index => index)
    (omap (fun p => if (p.1 =? mandate)%N then Some p.2 else None) fired).

(** The [match catch_up_policy] of [next_tick_for_mandate]: the occurrence after the missed
    ones, if there is one. *)
Definition pass_missed (policy : MandateCatchUpPolicy) (s : MandateSchedulePayload)
    (start route_started_at now : Instant) (max_occurrences : option Z)
    (index : Z) (scheduled_for : Instant) : KernelResult (option (Z * Instant)) :=
  match policy with
  | SkipMissed =>
      if (scheduled_for <? route_started_at)%Z then
        found <-? first_occurrence_index_at_or_after s start route_started_at max_occurrences ;;
        match found with
        | None => Ok None
        | Some index =>
            scheduled_for <-? occurrence_at_index s start index ;;
            Ok (Some (index, scheduled_for))
        end
      else Ok (Some (index, scheduled_for))
  | CoalesceMissed =>
      if (scheduled_for <? route_started_at)%Z && (scheduled_for <=? now)%Z then
        found <-? latest_occurrence_index_at_or_before s start now max_occurrences ;;
        match found with
        | Some latest =>
            if (index <=? latest)%Z then
              scheduled_for <-? occurrence_at_index s start latest ;;
              Ok (Some (latest, scheduled_for))
            else Ok (Some (index, scheduled_for))
        | None => Ok (Some (index, scheduled_for))
        end
      else Ok (Some (index, scheduled_for))
  end.

(** [next_tick_for_mandate]. *)
Definition next_tick_for_mandate (c : ThreadCoordinates) (mandate : ActiveMandate)
    (fired : list (EventRecordId * Z)) (route_started_at now : Instant) :
    KernelResult (option ScheduledTick) :=
  match schedule (mandate_payload mandate) with
  | None => Ok None
  | Some s =>
      let policy := default catch_up_default (catch_up (mandate_payload mandate)) in
      let id := event_id (mandate_event mandate) in
      let max := max_occurrences (mandate_payload mandate) in
      start <-? datetime_from_millis (created_at_ms (mandate_event mandate)) ;;
      let index := match last_fired id fired with
                   | Some index => ((index + 1) mod 2 ^ 64)%Z
                   | None => 0%Z
                   end in
      if exhausted max index then Ok None
      else
        scheduled_for <-? occurrence_at_index s start index ;;
        passed <-? pass_missed policy s start route_started_at now max index scheduled_for ;;
        match passed with
        | None => Ok None
        | Some (index, scheduled_for) =>
            if exhausted max index then Ok None
            else if bool_decide ((id, index) ∈ fired) then Ok None
            else
              Ok (Some (mk_tick c id scheduled_for index
                (bool_decide (policy = CoalesceMissed) && (scheduled_for <? route_started_at)%Z)))
        end
  end.

(** ** The route *)

Record VerletDaemonClockRoute : Type := mk_route {
  route_id : string;
  route_store : S;
  route_started_at : Instant;
  route_poll_interval : Duration;
}.

(** [VerletDaemonClockRoute::new]; [now] is what the clock reads. *)
Definition clock_route (id : string) (store : S) (now : Instant) : VerletDaemonClockRoute :=
  mk_route id store now DEFAULT_CLOCK_POLL_INTERVAL.

(** [with_poll_interval]. *)
Definition with_poll_interval (interval : Duration) (r : VerletDaemonClockRoute) :
    VerletDaemonClockRoute :=
  mk_route (route_id r) (route_store r) (route_started_at r) interval.

(** The inner loop of [build_due_schedule]: the ticks of one thread, pushed to the heap. *)
Definition thread_ticks (r : VerletDaemonClockRoute) (now : Instant) (heap : list ScheduledTick)
    (c : ThreadCoordinates) : KernelResult (list ScheduledTick) :=
  active <-? list_active_mandates (route_store r) c ;;
  fired <-? fired_occurrence_indices (route_store r) c ;;
  try_fold (fun heap mandate =>
    tick <-? next_tick_for_mandate c mandate fired (route_started_at r) now ;;
    Ok (match tick with Some tick => heap ++ [tick] | None => heap end)) heap active.

(** [build_due_schedule]: the heap, as the list of what was pushed. *)
Definition build_due_schedule (r : VerletDaemonClockRoute) (now : Instant) :
    KernelResult (list ScheduledTick) :=
  try_fold (thread_ticks r now) [] (list_control_stream_coordinates (route_store r)).

Notation Call A := (st K KernelError A).

Definition submit_to_sink (envelope : IngressEnvelope) : Call IngressAck := fun sink =>
  let (sink, r) := submit envelope sink in (sink, map_err RuntimeFactory r).

(** The [while let] loop of [enqueue_due_once], over the heap in the order it pops; [ids n] is
    the id the [n]-th envelope draws. *)
Fixpoint enqueue_ticks (r : VerletDaemonClockRoute) (now : Instant) (ids : nat -> string)
    (n : nat) (schedule : list ScheduledTick) (enqueued : Z) : Call Z :=
  match schedule with
  | [] => st_ret enqueued
  | tick :: schedule =>
      if (now <? tick_scheduled_for tick)%Z then st_ret enqueued
      else
        ack <-! submit_to_sink (tick_envelope (route_id r) now (ids n) tick) ;;
        enqueue_ticks r now ids (Datatypes.S n) schedule
          (if ack_accepted ack then enqueued + 1 else enqueued)%Z
  end.

(** [enqueue_due_once]; [now] is what the clock reads. *)
Definition enqueue_due_once (r : VerletDaemonClockRoute) (now : Instant) (ids : nat -> string) :
    Call Z :=
  schedule <-! st_lift (build_due_schedule r now) ;;
  enqueue_ticks r now ids 0 (sort_by tick_cmp schedule) 0.

(** One round of [run]: a poll and the retry state it leaves; the route then sleeps for the
    delay of the decision. *)
Definition run_round (error_text : KernelError -> string) (r : VerletDaemonClockRoute)
    (now : Instant) (ids : nat -> string) (state : RetryState) (sink : K) :
    K * (RetryState * RetryDecision) :=
  let (sink, res) := enqueue_due_once r now ids sink in
  (sink, match res with
         | Ok _ => on_success (route_poll_interval r) state
         | Err err => on_failure (error_text err) (route_poll_interval r) state
         end).
End Clock.
