(* ===== verification/ClockFacts.v ===== *)
(** * What the clock route promises

    Which occurrence of a mandate comes next, that no occurrence is scheduled
    again once it has fired, what the catch-up policies do with the occurrences
    an interval mandate missed, which envelopes one poll submits and in which
    order, and when a poll cannot submit anything. *)

From stdpp Require Import base gmap sets list strings pretty sorting.
From Stdlib Require Import ZArith Lia.
From S2P Require Import Prelude Retry Json EventKind Contracts Records Store Journal EventLog Control Ingress Queue Mandates MandateFacts.
From S2P Require Import Clock.

Local Open Scope verlet_scope.
Local Open Scope string_scope.
Local Open Scope list_scope.

(** ** Occurrences of an interval *)

Section Occurrences.
Context `{CalendarLaws}.

Lemma u64_checked_some z v : u64_checked z = Some v <-> in_u64 z = true /\ v = z.
Proof. unfold u64_checked. destruct (in_u64 z); naive_solver. Qed.

Lemma or_fail_ok {A} (o : option A) message a : or_fail o message = Ok a <-> o = Some a.
Proof. unfold or_fail, ok_or. destruct o; naive_solver. Qed.

(** The instant of an occurrence of an interval. *)
Definition interval_instant (start : Instant) (every_ms index : Z) : Instant :=
  (start + from_ms (every_ms * (index + 1)))%Z.

Lemma interval_occurrence every_ms start index t :
  in_u64 every_ms = true -> occurrence_at_index (Interval every_ms) start index = Ok t ->
  (0 < every_ms)%Z /\ t = interval_instant start every_ms index.
Proof.
  intros He. simpl. destruct (or_fail (u64_checked (index + 1)) _) as [m|] eqn:Hm; simpl; [|done].
  apply or_fail_ok, u64_checked_some in Hm as [_ ->]. unfold reject_zero_interval.
  destruct (Z.eqb_spec every_ms 0) as [->|Hne]; simpl; [done|].
  destruct (or_fail (u64_checked _) _) as [o|] eqn:Ho; simpl; [|done].
  apply or_fail_ok, u64_checked_some in Ho as [_ ->].
  destruct (or_fail (i64_try_from _) _) as [o|] eqn:Ho; simpl; [|done].
  apply or_fail_ok in Ho. unfold i64_try_from in Ho. destruct (in_i64 _); [|done].
  injection Ho as <-. rewrite or_fail_ok. unfold instant_checked_add.
  destruct (instant_in_range _); [|done]. intros [= <-]. split; [|done].
  unfold in_u64 in He. to_prop. lia.
Qed.

Lemma first_interval_instant every_ms start first :
  first_interval_occurrence start every_ms = Ok first -> first = interval_instant start every_ms 0.
Proof.
  unfold first_interval_occurrence. destruct (or_fail (i64_try_from _) _) as [o|] eqn:Ho; simpl; [|done].
  apply or_fail_ok in Ho. unfold i64_try_from in Ho. destruct (in_i64 _); [|done].
  injection Ho as <-. rewrite or_fail_ok. unfold instant_checked_add.
  destruct (instant_in_range _); [|done]. intros [= <-]. unfold interval_instant, from_ms. lia.
Qed.

Lemma interval_instant_diff start every_ms i j :
  (interval_instant start every_ms i - interval_instant start every_ms j =
   every_ms * 10 ^ 6 * (i - j))%Z.
Proof. unfold interval_instant, from_ms. lia. Qed.

(** Where the search for the first occurrence at or after a threshold ends, to the millisecond. *)
Lemma first_interval_index every_ms start threshold max i :
  in_u64 every_ms = true ->
  first_occurrence_index_at_or_after (Interval every_ms) start threshold max = Ok (Some i) ->
  (0 < every_ms)%Z /\ (0 <= i)%Z /\
  (threshold < interval_instant start every_ms i + 10 ^ 6)%Z /\
  forall j, (0 <= j < i)%Z -> (interval_instant start every_ms j < threshold)%Z.
Proof.
  intros He. simpl. unfold reject_zero_interval.
  destruct (Z.eqb_spec every_ms 0) as [->|Hne]; simpl; [done|].
  assert (0 < every_ms)%Z as Hpos by (unfold in_u64 in He; to_prop; lia).
  destruct (first_interval_occurrence start every_ms) as [first|] eqn:Hf; simpl; [|done].
  apply first_interval_instant in Hf.
  destruct (Z.leb_spec threshold first) as [Hle|Hgt]; [intros [= <-]; split_and!; lia|].
  set (diff := ((threshold - first) / 10 ^ 6)%Z).
  destruct (exhausted _ _); [done|]. intros [= <-].
  pose proof (Z.div_mod (threshold - first) (10 ^ 6)) as Hd. fold diff in Hd.
  pose proof (Z.mod_pos_bound (threshold - first) (10 ^ 6)) as Hm.
  pose proof (Z.div_mod (diff + every_ms - 1) every_ms) as Hi.
  pose proof (Z.mod_pos_bound (diff + every_ms - 1) every_ms) as Hi'.
  set (i := ((diff + every_ms - 1) / every_ms)%Z) in *.
  assert (0 <= diff)%Z by (apply Z.div_pos; lia).
  assert (0 <= i)%Z by (apply Z.div_pos; lia).
  assert (diff <= every_ms * i)%Z by lia.
  split_and!; [done|done| |].
  - pose proof (interval_instant_diff start every_ms i 0). rewrite <- Hf in *. nia.
  - intros j Hj. pose proof (interval_instant_diff start every_ms j 0). rewrite <- Hf in *.
    assert (every_ms * j <= every_ms * (i - 1))%Z by nia. nia.
Qed.

(** The search for the latest occurrence at or before a threshold is exact. *)
Lemma latest_interval_index every_ms start threshold max i :
  in_u64 every_ms = true -> opt_in (fun m => 0 <=? m)%Z max = true ->
  latest_occurrence_index_at_or_before (Interval every_ms) start threshold max = Ok (Some i) ->
  (0 < every_ms)%Z /\ exhausted max i = false /\
  (interval_instant start every_ms i <= threshold)%Z /\
  forall j, (i < j)%Z -> exhausted max j = false ->
    (threshold < interval_instant start every_ms j)%Z.
Proof.
  intros He Hmax. simpl. unfold reject_zero_interval.
  destruct (Z.eqb_spec every_ms 0) as [->|Hne]; simpl; [done|].
  assert (0 < every_ms)%Z as Hpos by (unfold in_u64 in He; to_prop; lia).
  destruct (first_interval_occurrence start every_ms) as [first|] eqn:Hf; simpl; [|done].
  apply first_interval_instant in Hf.
  destruct (Z.ltb_spec threshold first) as [|Hge]; [done|].
  set (diff := ((threshold - first) / 10 ^ 6)%Z).
  pose proof (Z.div_mod (threshold - first) (10 ^ 6)) as Hd. fold diff in Hd.
  pose proof (Z.mod_pos_bound (threshold - first) (10 ^ 6)) as Hm.
  pose proof (Z.div_mod diff every_ms) as Hi. pose proof (Z.mod_pos_bound diff every_ms) as Hi'.
  set (q := (diff / every_ms)%Z) in *.
  assert (0 <= diff)%Z by (apply Z.div_pos; lia). assert (0 <= q)%Z by (apply Z.div_pos; lia).
  assert (forall j, (j <= q)%Z -> (interval_instant start every_ms j <= threshold)%Z) as Hdue.
  { intros j Hj. pose proof (interval_instant_diff start every_ms j 0). rewrite <- Hf in *.
    assert (every_ms * j <= every_ms * q)%Z by nia. nia. }
  assert (forall j, (q < j)%Z -> (threshold < interval_instant start every_ms j)%Z) as Hlate.
  { intros j Hj. pose proof (interval_instant_diff start every_ms j 0). rewrite <- Hf in *.
    assert (every_ms * (q + 1) <= every_ms * j)%Z by nia. nia. }
  unfold exhausted. destruct max as [max|]; simpl in *.
  - destruct (Z.eqb_spec max 0) as [|Hnz]; [done|]. intros [= <-]. to_prop. split_and!.
    + done.
    + apply Z.leb_gt. lia.
    + apply Hdue. lia.
    + intros j Hj Hex. apply Z.leb_gt in Hex. apply Hlate. lia.
  - intros [= <-]. split_and!; [done|done|apply Hdue; lia|]. intros j Hj _. by apply Hlate.
Qed.

(** ** Occurrences of a cron expression *)

Lemma first_cron_index_spec l k threshold max i :
  first_cron_index l k threshold max = Some i ->
  exists n t, i = (k + Z.of_nat n)%Z /\ l !! n = Some t /\ (threshold <= t)%Z.
Proof.
  revert k. induction l as [|o l IH]; intros k; simpl; [done|].
  destruct (exhausted _ _); [done|]. destruct (Z.leb_spec threshold o) as [Hle|Hgt].
  - intros [= <-]. exists 0%nat, o. split_and!; [lia|done|done].
  - intros (n & t & -> & Hl & Ht)%IH. exists (S n), t. split_and!; [lia|done|done].
Qed.

Lemma ordered_lookup l n n' t t' :
  StronglySorted Z.lt l -> l !! n = Some t -> l !! n' = Some t' -> (t < t')%Z -> (n < n')%nat.
Proof.
  intros Hs. revert n n'. induction Hs as [|o l Hs IH Ho]; intros n n'; [done|].
  destruct n as [|n], n' as [|n']; simpl; intros Hn Hn' Hlt; simplify_eq; [lia|lia| |].
  - exfalso. apply list_elem_of_lookup_2 in Hn. apply (proj1 (Forall_forall _ _) Ho) in Hn. lia.
  - specialize (IH n n' Hn Hn' Hlt). lia.
Qed.

(** ** Passing the missed occurrences never goes back *)

Definition schedule_wf (s : MandateSchedulePayload) : Prop := schedule_in_range s = true.

Lemma pass_missed_forward policy s start started now max index t index' t' :
  schedule_wf s -> (0 <= index)%Z -> occurrence_at_index s start index = Ok t ->
  pass_missed policy s start started now max index t = Ok (Some (index', t')) ->
  (index <= index')%Z /\ occurrence_at_index s start index' = Ok t'.
Proof.
  intros Hwf Hi Ht. destruct policy; unfold pass_missed.
  - destruct (_ && _); [|by intros [= <- <-]].
    destruct (latest_occurrence_index_at_or_before _ _ _ _) as [[latest|]|]; simpl; [| |done].
    + destruct (Z.leb_spec index latest); [|by intros [= <- <-]].
      destruct (occurrence_at_index s start latest) eqn:Hl; simpl; [|done]. by intros [= <- <-].
    + by intros [= <- <-].
  - destruct (Z.ltb_spec t started) as [Hlt|]; [|by intros [= <- <-]].
    destruct (first_occurrence_index_at_or_after _ _ _ _) as [[i|]|] eqn:Hf; simpl; [|done..].
    destruct (occurrence_at_index s start i) eqn:Hi'; simpl; [|done]. intros [= <- <-].
    split; [|done]. destruct s as [expr tz|every|when].
    + simpl in Hf, Ht. destruct (cron_schedule expr tz) as [[cron zone]|]; simpl in *; [|done].
      apply or_fail_ok in Ht. injection Hf as Hf.
      apply first_cron_index_spec in Hf as (n & u & -> & Hn & Hu).
      pose proof (ordered_lookup _ _ _ _ _ (cron_ordered cron zone start) Ht Hn). lia.
    + destruct (Z.le_gt_cases index i) as [|Hgt]; [done|]. exfalso.
      apply first_interval_index in Hf as (Hpos & Hi0 & Hthr & _); [|done].
      apply interval_occurrence in Ht as [_ ->]; [|done].
      pose proof (interval_instant_diff start every index i). nia.
    + simpl in Ht, Hf. destruct (Z.ltb_spec 0 index); [done|].
      destruct (parse_utc when); simpl in Hf; [|done]. injection Hf as Hf.
      destruct (_ && _); [injection Hf as <-; lia|done].
Qed.
End Occurrences.

(** ** The next tick of a mandate *)

Section Ticks.
Context `{UuidParse} `{ControlCodec} `{TimerCodec} `{CalendarLaws}.

(** The index after the last one a mandate fired. *)
Definition next_index (id : EventRecordId) (fired : list (EventRecordId * Z)) : Z :=
  match last_fired id fired with Some index => (index + 1) mod 2 ^ 64 | None => 0 end.

(** Indices that have not run through all 64 bits. *)
Definition indices_in_range (fired : list (EventRecordId * Z)) : Prop :=
  forall id i, (id, i) ∈ fired -> (0 <= i < u64_max)%Z.

Lemma last_fired_spec id fired last :
  last_fired id fired = Some last ->
  (id, last) ∈ fired /\ forall i, (id, i) ∈ fired -> (i <= last)%Z.
Proof.
  unfold last_fired. intros [Hin Hmax]%max_by_key_spec. split.
  - apply list_elem_of_omap in Hin as ([id' i] & Hin & Hi). simpl in Hi.
    destruct (N.eqb_spec id' id) as [->|]; [|done]. by injection Hi as ->.
  - intros i Hi. apply Hmax, list_elem_of_omap. exists (id, i). by rewrite N.eqb_refl.
Qed.

Lemma last_fired_none id fired i : last_fired id fired = None -> (id, i) ∉ fired.
Proof.
  unfold last_fired. intros Hn%max_by_key_none Hi.
  assert (i ∈ omap (fun p : EventRecordId * Z => if (p.1 =? id)%N then Some p.2 else None) fired)
    as Hin by (apply list_elem_of_omap; exists (id, i); by rewrite N.eqb_refl).
  rewrite Hn in Hin. by apply not_elem_of_nil in Hin.
Qed.

Lemma next_index_after id fired :
  indices_in_range fired ->
  (0 <= next_index id fired)%Z /\ (forall i, (id, i) ∈ fired -> (i < next_index id fired)%Z) /\
  (forall i, (i < next_index id fired)%Z -> (0 <= i)%Z -> exists j, (id, j) ∈ fired /\ (i <= j)%Z).
Proof.
  intros Hr. unfold next_index. destruct (last_fired id fired) as [last|] eqn:Hl.
  - apply last_fired_spec in Hl as [Hin Hmax]. pose proof (Hr _ _ Hin) as Hb.
    rewrite Z.mod_small by (unfold u64_max in Hb; lia). split_and!; [lia| |].
    + intros i Hi. specialize (Hmax i Hi). lia.
    + intros i Hi _. exists last. split; [done|lia].
  - split_and!; [done| |lia]. intros i Hi. by apply (last_fired_none id fired i) in Hl.
Qed.

(** What a tick is computed from. *)
Lemma next_tick_ok c m fired started now t :
  next_tick_for_mandate c m fired started now = Ok (Some t) ->
  let id := event_id (mandate_event m) in
  let start := from_ms (created_at_ms (mandate_event m)) in
  exists s first_at,
    schedule (mandate_payload m) = Some s /\
    exhausted (max_occurrences (mandate_payload m)) (next_index id fired) = false /\
    occurrence_at_index s start (next_index id fired) = Ok first_at /\
    pass_missed (default catch_up_default (catch_up (mandate_payload m))) s start started now
      (max_occurrences (mandate_payload m)) (next_index id fired) first_at =
      Ok (Some (tick_occurrence_index t, tick_scheduled_for t)) /\
    exhausted (max_occurrences (mandate_payload m)) (tick_occurrence_index t) = false /\
    (id, tick_occurrence_index t) ∉ fired /\
    tick_coordinates t = c /\ tick_mandate_event_id t = id /\
    tick_catch_up t =
      bool_decide (default catch_up_default (catch_up (mandate_payload m)) = CoalesceMissed) &&
      (tick_scheduled_for t <? started)%Z.
Proof.
  unfold next_tick_for_mandate. destruct (schedule _) as [s|]; [|done].
  unfold datetime_from_millis. destruct (instant_in_range _); simpl; [|done].
  fold (next_index (event_id (mandate_event m)) fired).
  destruct (exhausted _ (next_index _ _)) eqn:Hex; [done|].
  destruct (occurrence_at_index _ _ _) as [first_at|] eqn:Hfirst; cbn [result_bind]; [|done].
  destruct (pass_missed _ _ _ _ _ _ _ _) as [[[index at_]|]|] eqn:Hp; cbn [result_bind]; [|done..].
  destruct (exhausted _ index) eqn:Hex'; [done|]. case_bool_decide as Hf; [done|].
  intros [= <-]. exists s, first_at. cbn. by split_and!.
Qed.

(** No occurrence of a mandate is scheduled again.  The tick a poll computes
    for a mandate is an occurrence of that mandate's schedule, its index exceeds
    every index the mandate has fired and stays below the maximum of the mandate;
    with either catch-up policy, for every kind of schedule. *)
Theorem next_tick_never_refires c m fired started now t :
  indices_in_range fired ->
  (forall s, schedule (mandate_payload m) = Some s -> schedule_wf s) ->
  next_tick_for_mandate c m fired started now = Ok (Some t) ->
  tick_coordinates t = c /\ tick_mandate_event_id t = event_id (mandate_event m) /\
  (exists s, schedule (mandate_payload m) = Some s /\
     occurrence_at_index s (from_ms (created_at_ms (mandate_event m))) (tick_occurrence_index t) =
       Ok (tick_scheduled_for t)) /\
  (0 <= tick_occurrence_index t)%Z /\
  (forall i, (tick_mandate_event_id t, i) ∈ fired -> (i < tick_occurrence_index t)%Z) /\
  (forall max, max_occurrences (mandate_payload m) = Some max -> (tick_occurrence_index t < max)%Z).
Proof.
  intros Hr Hwf (s & first_at & Hs & Hex & Hfirst & Hp & Hex' & Hn & Hc & Hid & _)%next_tick_ok.
  destruct (next_index_after (event_id (mandate_event m)) fired Hr) as (H0i & Hlt & _).
  destruct (pass_missed_forward _ _ _ _ _ _ _ _ _ _ (Hwf s Hs) H0i Hfirst Hp) as [Hle Hat].
  split_and!; [done|done|by exists s|lia| |].
  - intros i Hi. rewrite Hid in Hi. specialize (Hlt i Hi). lia.
  - intros max Hmax. unfold exhausted in Hex'. rewrite Hmax in Hex'. simpl in Hex'. to_prop. done.
Qed.

Lemma pass_skip_interval every_ms start started now max next i t :
  let at_ := interval_instant start every_ms in
  in_u64 every_ms = true -> (0 <= next)%Z ->
  pass_missed SkipMissed (Interval every_ms) start started now max next (at_ next) =
    Ok (Some (i, t)) ->
  (started < at_ i + 10 ^ 6)%Z /\ forall j, (next <= j < i)%Z -> (at_ j < started)%Z.
Proof.
  intros at_ He Hn. unfold pass_missed. destruct (Z.ltb_spec (at_ next) started) as [Hlt|Hge].
  - destruct (first_occurrence_index_at_or_after _ _ _ _) as [[k|]|] eqn:Hf; cbn [result_bind];
      [|done..].
    destruct (occurrence_at_index _ _ k); cbn [result_bind]; [|done]. intros [= <- _].
    apply first_interval_index in Hf as (_ & Hi0 & Hthr & Hbefore); [|done].
    split; [done|]. intros j Hj. apply Hbefore. lia.
  - intros [= <- _]. split; [lia|]. intros j Hj. lia.
Qed.

Lemma pass_coalesce_interval every_ms start started now max next i t :
  let at_ := interval_instant start every_ms in
  in_u64 every_ms = true -> (0 < every_ms)%Z -> opt_in in_u32 max = true -> (0 <= next)%Z ->
  exhausted max next = false ->
  pass_missed CoalesceMissed (Interval every_ms) start started now max next (at_ next) =
    Ok (Some (i, t)) ->
  ((at_ next < started)%Z -> (at_ next <= now)%Z ->
    (at_ i <= now)%Z /\
    forall j, (i < j)%Z -> exhausted max j = false -> (now < at_ j)%Z) /\
  ((started <= at_ next)%Z \/ (now < at_ next)%Z -> i = next).
Proof.
  intros at_ He Hpos Hmax Hn Hex. unfold pass_missed.
  destruct (_ && _) eqn:Hmissed; [|intros [= <- _]; split; [|done]; intros H1' H2';
    by rewrite (proj2 (Z.ltb_lt _ _) H1'), (proj2 (Z.leb_le _ _) H2') in Hmissed].
  to_prop. intros Hp. split; [intros _ _|lia].
  destruct (latest_occurrence_index_at_or_before _ _ _ _) as [[latest|]|] eqn:Hl;
    cbn [result_bind] in Hp; [| |done].
  - apply latest_interval_index in Hl as (_ & Hlex & Hldue & Hllate); [|done|].
    2:{ destruct max; simpl in *; [|done]. unfold in_u32 in Hmax.
        by apply andb_true_iff in Hmax as [-> _]. }
    destruct (Z.leb_spec next latest) as [Hnl|Hnl].
    + destruct (occurrence_at_index _ _ _); cbn [result_bind] in Hp; [|done].
      injection Hp as <- _. by split.
    + exfalso. specialize (Hllate next Hnl Hex). fold at_ in Hllate. lia.
  - exfalso. simpl in Hl. unfold reject_zero_interval in Hl.
    destruct (Z.eqb_spec every_ms 0); [lia|]. cbn [result_bind] in Hl.
    destruct (first_interval_occurrence _ _) as [first|] eqn:Hf; cbn [result_bind] in Hl; [|done].
    apply first_interval_instant in Hf.
    pose proof (interval_instant_diff start every_ms next 0) as Hd. fold at_ in Hd, Hf.
    destruct (Z.ltb_spec now first); [nia|]. destruct max as [max|]; simpl in *; [|done].
    destruct (Z.eqb_spec max 0); [|done]. unfold exhausted in Hex. simpl in Hex. to_prop. lia.
Qed.

(** What becomes of the occurrences of an interval mandate that were missed
    while the route was down.  Under [SkipMissed] they are passed over: the tick
    is less than a millisecond before the start of the route at most (not at all,
    when the route started on a whole millisecond), and every occurrence it
    passes over had been missed.  Under [CoalesceMissed] a missed occurrence that
    is due makes one tick for all: the latest occurrence due now that the mandate
    still allows. *)
Theorem missed_interval_occurrences c m fired started now t every_ms :
  indices_in_range fired -> in_u64 every_ms = true ->
  opt_in in_u32 (max_occurrences (mandate_payload m)) = true ->
  schedule (mandate_payload m) = Some (Interval every_ms) ->
  next_tick_for_mandate c m fired started now = Ok (Some t) ->
  let at_ := interval_instant (from_ms (created_at_ms (mandate_event m))) every_ms in
  let next := next_index (event_id (mandate_event m)) fired in
  let index := tick_occurrence_index t in
  tick_scheduled_for t = at_ index /\
  match default catch_up_default (catch_up (mandate_payload m)) with
  | SkipMissed =>
      tick_catch_up t = false /\ (started < at_ index + 10 ^ 6)%Z /\
      ((started mod 10 ^ 6 = 0)%Z -> (started <= at_ index)%Z) /\
      forall j, (next <= j < index)%Z -> (at_ j < started)%Z
  | CoalesceMissed =>
      ((at_ next < started)%Z -> (at_ next <= now)%Z ->
        (at_ index <= now)%Z /\
        forall j, (index < j)%Z -> exhausted (max_occurrences (mandate_payload m)) j = false ->
          (now < at_ j)%Z) /\
      ((started <= at_ next)%Z \/ (now < at_ next)%Z -> index = next)
  end.
Proof.
  intros Hr He Hmax Hs (s & first_at & Hs' & Hex & Hfirst & Hp & _ & _ & _ & _ & Hcu)%next_tick_ok
    at_ next index. rewrite Hs in Hs'. injection Hs' as <-. fold next in Hex, Hfirst, Hp.
  destruct (next_index_after (event_id (mandate_event m)) fired Hr) as (H0i & _ & _). fold next in H0i.
  assert (schedule_wf (Interval every_ms)) as Hwf by exact He.
  destruct (pass_missed_forward _ _ _ _ _ _ _ _ _ _ Hwf H0i Hfirst Hp) as [Hle Hat]. fold index in Hle, Hat, Hp.
  apply interval_occurrence in Hfirst as [Hpos ->], Hat as [_ Hat]; [|done..].
  fold at_ in Hat, Hp. rewrite Hat in Hcu, Hp. split; [done|].
  destruct (default _ _) eqn:Hpol; simpl in Hcu.
  - by apply (pass_coalesce_interval _ _ _ _ _ _ _ _ He Hpos Hmax H0i Hex Hp).
  - destruct (pass_skip_interval _ _ _ _ _ _ _ _ He H0i Hp) as [Hlt Hbefore].
    rewrite Hcu. split_and!; [done|done| |done]. intros Hms. fold at_ in Hlt.
    unfold at_, interval_instant, from_ms in *. pose proof (Z.div_mod started (10 ^ 6)). lia.
Qed.
End Ticks.

(** ** One poll *)

Lemma insert_by_perm {A} (cmp : A -> A -> comparison) x l : insert_by cmp x l ≡ₚ x :: l.
Proof.
  induction l as [|y l IH]; simpl; [done|]. destruct (cmp x y); try done. rewrite IH. constructor.
Qed.

Lemma sort_by_perm {A} (cmp : A -> A -> comparison) l : sort_by cmp l ≡ₚ l.
Proof. induction l as [|x l IH]; simpl; [done|]. by rewrite insert_by_perm, IH. Qed.

(** A comparison that looks at a key first sorts by that key. *)
Lemma sort_by_key_order {A} (cmp : A -> A -> comparison) (key : A -> Z) l :
  (forall x y, cmp x y = Gt -> (key y <= key x)%Z) ->
  (forall x y, cmp x y <> Gt -> (key x <= key y)%Z) ->
  StronglySorted (fun a b => (key a <= key b)%Z) (sort_by cmp l).
Proof.
  intros Hgt Hle. induction l as [|x l IH]; simpl; [constructor|].
  induction IH as [|y k Hk IH Hy]; simpl; [by repeat constructor|].
  destruct (cmp x y) eqn:Hc.
  3: { constructor; [done|]. rewrite insert_by_perm. constructor; [by apply Hgt|done]. }
  all: constructor; [by constructor|]; constructor; [apply Hle; by rewrite Hc|];
    eapply Forall_impl; [done|]; intros z Hz; specialize (Hle x y); rewrite Hc in Hle;
    assert (key x <= key y)%Z by (by apply Hle); simpl in Hz; lia.
Qed.

Section Polls.
Context `{UuidParse} `{ControlCodec} `{TimerCodec} `{Calendar}.
Context {S : Type} `{EventStore S} `{EventTable S} {K : Type} `{IngressSink K}.
Implicit Types (r : VerletDaemonClockRoute (S := S)) (sink : K).

Definition due (now : Instant) (t : ScheduledTick) : Prop := (tick_scheduled_for t <= now)%Z.
#[global] Instance due_dec now t : Decision (due now t).
Proof. unfold due. apply _. Defined.

(** The reference: submit a list of envelopes until one is refused with an error. *)
Fixpoint submit_each (envelopes : list IngressEnvelope) : st K KernelError (list IngressAck) :=
  match envelopes with
  | [] => st_ret []
  | envelope :: envelopes =>
      ack <-! submit_to_sink envelope ;;
      acks <-! submit_each envelopes ;;
      st_ret (ack :: acks)
  end.

Definition accepted (acks : list IngressAck) : Z :=
  Z.of_nat (length (filter (fun ack => ack_accepted ack = true) acks)).

Lemma tick_order l :
  StronglySorted (fun a b => (tick_scheduled_for a <= tick_scheduled_for b)%Z) (sort_by tick_cmp l).
Proof.
  apply sort_by_key_order; intros x y; unfold tick_cmp;
    destruct (Z.compare_spec (tick_scheduled_for x) (tick_scheduled_for y)); lia || done.
Qed.

Lemma filter_due_head now t l :
  StronglySorted (fun a b => (tick_scheduled_for a <= tick_scheduled_for b)%Z) (t :: l) ->
  (now < tick_scheduled_for t)%Z -> filter (due now) (t :: l) = [].
Proof.
  intros Hs Hlt. inversion Hs as [|? ? _ Ht]; subst.
  rewrite filter_cons_False by (unfold due; lia).
  induction Ht as [|u l Hu Ht IH]; [done|]. rewrite filter_cons_False by (unfold due; lia).
  apply IH. inversion Hs as [|? ? Hs' Ht']; subst. inversion Hs'; subst.
  by constructor.
Qed.

Lemma enqueue_ticks_spec r now ids l n enqueued sink :
  StronglySorted (fun a b => (tick_scheduled_for a <= tick_scheduled_for b)%Z) l ->
  enqueue_ticks r now ids n l enqueued sink =
  let (sink, res) := submit_each
    (imap (fun i t => tick_envelope (route_id r) now (ids (n + i)%nat) t) (filter (due now) l)) sink in
  (sink, result_map (fun acks => (enqueued + accepted acks)%Z) res).
Proof.
  assert (accepted [] = 0%Z) as Hnil by done.
  intros Hs. revert n enqueued sink. induction Hs as [|t l Hs IH Ht]; intros n enqueued sink.
  { cbn -[accepted Z.add]. by rewrite Hnil, Z.add_0_r. }
  cbn [enqueue_ticks]. destruct (Z.ltb_spec now (tick_scheduled_for t)) as [Hlt|Hge].
  - rewrite filter_due_head; [|by constructor|done].
    cbn -[accepted Z.add]. by rewrite Hnil, Z.add_0_r.
  - rewrite filter_cons_True by done. rewrite imap_cons. cbn [submit_each].
    unfold st_bind at 1 2. rewrite Nat.add_0_r.
    destruct (submit_to_sink _ sink) as [sink1 [ack|e]]; [|done].
    rewrite IH. unfold st_bind, st_ret.
    assert (imap ((fun i t => tick_envelope (route_id r) now (ids (n + i)%nat) t) ∘ Datatypes.S)
              (filter (due now) l) =
            imap (fun i t => tick_envelope (route_id r) now (ids (Datatypes.S n + i)%nat) t)
              (filter (due now) l)) as Hids.
    { apply imap_ext. intros i x _. simpl. by rewrite Nat.add_succ_r. }
    rewrite Hids. destruct (submit_each _ sink1) as [sink2 [acks|e]]; [|done].
    simpl. do 2 f_equal. unfold accepted. rewrite filter_cons.
    destruct (ack_accepted ack); simpl; lia.
Qed.

(** What one poll submits.  If any thread's schedule cannot be computed,
    nothing is submitted.  Otherwise the poll submits exactly the ticks that are
    due, each as its envelope, in the order of their scheduled instants, stops at
    the first error of the sink, and counts the envelopes the sink accepted: the
    heap and its loop amount to that. *)
Theorem due_ticks_enqueued r now ids sink :
  match build_due_schedule r now with
  | Err e => enqueue_due_once r now ids sink = (sink, Err e)
  | Ok ticks =>
      exists order, order ≡ₚ filter (due now) ticks /\
        StronglySorted (fun a b => (tick_scheduled_for a <= tick_scheduled_for b)%Z) order /\
        enqueue_due_once r now ids sink =
          let (sink', res) := submit_each
            (imap (fun i t => tick_envelope (route_id r) now (ids i) t) order) sink in
          (sink', result_map accepted res)
  end.
Proof.
  unfold enqueue_due_once, st_bind, st_lift. destruct (build_due_schedule r now) as [ticks|e]; [|done].
  exists (filter (due now) (sort_by tick_cmp ticks)). split_and!.
  - by rewrite sort_by_perm.
  - pose proof (tick_order ticks) as Hs. induction Hs as [|t l Hs IH Ht]; [constructor|].
    rewrite filter_cons. destruct (decide _); [|done]. constructor; [done|].
    apply Forall_forall. intros u [_ Hu]%list_elem_of_filter.
    by apply (proj1 (Forall_forall _ _) Ht).
  - rewrite enqueue_ticks_spec by apply tick_order. cbn [Nat.add].
    destruct (submit_each _ sink) as [sink' [acks|e]]; [|done].
    simpl. do 2 f_equal.
Qed.

(** ** A fired [at] mandate *)

Lemma try_fold_stuck {A B E} (f : B -> A -> result B E) a l b :
  a ∈ l -> (forall b, is_ok (f b a) = false) -> is_ok (try_fold f b l) = false.
Proof.
  intros Ha Hf. revert b. induction l as [|x l IH]; intros b; [set_solver|].
  apply elem_of_cons in Ha as [->|Ha]; simpl.
  - specialize (Hf b). by destruct (f b x).
  - destruct (f b x); [by apply IH|done].
Qed.

(** An [at] mandate without a maximum that has fired has no next tick to answer with. *)
Lemma fired_at_mandate_fails c m fired when started now :
  indices_in_range fired -> schedule (mandate_payload m) = Some (At when) ->
  max_occurrences (mandate_payload m) = None -> (event_id (mandate_event m), 0%Z) ∈ fired ->
  is_ok (next_tick_for_mandate c m fired started now) = false.
Proof.
  intros Hr Hs Hmax Hin. unfold next_tick_for_mandate. rewrite Hs, Hmax.
  unfold datetime_from_millis. destruct (instant_in_range _); cbn [result_bind]; [|done].
  fold (next_index (event_id (mandate_event m)) fired).
  destruct (next_index_after (event_id (mandate_event m)) fired Hr) as (_ & Hlt & _).
  specialize (Hlt 0%Z Hin). cbn [exhausted is_some_and occurrence_at_index].
  by rewrite (proj2 (Z.ltb_lt _ _) Hlt).
Qed.

(** Once an [at] mandate that carries no maximum has fired, the clock stops
    for every mandate of every thread: the occurrence after its only one is an
    error, the error ends the poll, and no poll of a route over that store ever
    submits an envelope again. *)
Theorem fired_at_mandate_stops_clock r c ms m when fired :
  c ∈ list_control_stream_coordinates (route_store r) ->
  list_active_mandates (route_store r) c = Ok ms -> m ∈ ms ->
  schedule (mandate_payload m) = Some (At when) -> max_occurrences (mandate_payload m) = None ->
  fired_occurrence_indices (route_store r) c = Ok fired -> indices_in_range fired ->
  (event_id (mandate_event m), 0%Z) ∈ fired ->
  forall now ids sink, exists e, enqueue_due_once r now ids sink = (sink, Err e).
Proof.
  intros Hc Hms Hm Hs Hmax Hfired Hr Hin now ids sink.
  assert (is_ok (build_due_schedule r now) = false) as Hstuck.
  { unfold build_due_schedule. apply (try_fold_stuck _ c); [done|]. intros heap.
    unfold thread_ticks. rewrite Hms, Hfired. cbn [result_bind].
    apply (try_fold_stuck _ m); [done|]. intros heap'.
    pose proof (fired_at_mandate_fails c m fired when (route_started_at r) now Hr Hs Hmax Hin) as Hf.
    by destruct (next_tick_for_mandate _ _ _ _ _). }
  unfold enqueue_due_once, st_bind, st_lift. destruct (build_due_schedule r now) as [|e]; [done|].
  by exists e.
Qed.
End Polls.
