(* ===== verification/ClockBridge.v ===== *)
(** * Admitting clock ticks

    The clock half of the daemon's I/O bridge,
    [crates/verlet-kernel/src/daemon/daemon_io.rs]: an envelope of the clock
    route, delivered by an ingress queue at least once, becomes at most one
    [timer.fired] event of the thread's control stream.

    [IoError::Bridge] is kept as what its text is formatted from.  The store the
    bridge opens is the state of the calls; [None] is a bridge without a store
    path. *)

From stdpp Require Import base gmap sets list strings pretty sorting relations.
From Stdlib Require Import ZArith Lia.
From S2P Require Import Prelude Retry Json EventKind EventSchemas Contracts Records Store SchemaFacts Journal EventLog Control Ingress.
From S2P Require Import Queue Text Mandates MandateFacts Clock ClockFacts.

Local Open Scope verlet_scope.
Local Open Scope string_scope.
Local Open Scope list_scope.

(** The errors of the bridge, [Bridge] by what it is formatted from. *)
Inductive BridgeError : Type :=
  | BridgeEnvelope (e : IoError)
  | BridgeWithoutStore
  | BridgeMissingMetadata (key : string)
  | BridgeThreadId
  | BridgeTickPayload (err : string)
  | BridgeOccurrenceIndex
  | BridgeCatchUpFlag
  | BridgeTimerPayload (err : string)
  | BridgeHistory (e : HistoryError)
  | BridgeKernel (e : KernelError).

Notation BridgeResult T := (result T BridgeError).

(** [is_clock_tick_envelope]. *)
Definition is_clock_tick_envelope (e : IngressEnvelope) : bool :=
  String.eqb (protocol (ingress_source e)) CLOCK_TICK_ROUTE_KIND &&
  match content e with
  | ContentEvent kind _ => String.eqb kind TIMER_FIRED_ENVELOPE_KIND
  | _ => false
  end.

(** [required_metadata]. *)
Definition required_metadata (e : IngressEnvelope) (key : string) : BridgeResult string :=
  ok_or (obj_get key (ingress_metadata e)) (BridgeMissingMetadata key).

(** [str::parse::<bool>]. *)
Definition parse_bool (s : string) : option bool :=
  if String.eqb s "true" then Some true else if String.eqb s "false" then Some false else None.

(** [str::parse::<u64>]. *)
Definition parse_u64 (s : string) : option Z :=
  Z.of_N <$> parse_unsigned (Z.to_N u64_max) (lit s).

Section Bridge.
Context `{UuidParse} `{ControlCodec} `{TimerCodec} {S : Type} `{EventStore S} `{EventAppend S}.

(** [clock_tick_coordinates]. *)
Definition clock_tick_coordinates (e : IngressEnvelope) : BridgeResult ThreadCoordinates :=
  p <-? ok_or (principal e) (BridgeEnvelope (InvalidEnvelope (EnvelopeText "principal is required"))) ;;
  session <-? required_metadata e "cooldis_session_id" ;;
  text <-? required_metadata e "verlet_thread_id" ;;
  thread <-? ok_or (uuid_parse text) BridgeThreadId ;;
  Ok (mk_coordinates (principal_tenant_id p) (principal_id p) session thread).

(** [clock_tick_payload]. *)
Definition clock_tick_payload (e : IngressEnvelope) : BridgeResult TimerFiredPayload :=
  let from_metadata :=
    text <-? required_metadata e "cooldis_mandate_event_id" ;;
    mandate <-? map_err BridgeKernel (parse_mandate_event_id text) ;;
    scheduled_for <-? required_metadata e "cooldis_scheduled_for" ;;
    text <-? required_metadata e "verlet_occurrence_index" ;;
    index <-? ok_or (parse_u64 text) BridgeOccurrenceIndex ;;
    text <-? required_metadata e "verlet_catch_up" ;;
    catch_up <-? ok_or (parse_bool text) BridgeCatchUpFlag ;;
    Ok (mk_timer mandate scheduled_for index catch_up) in
  match content e with
  | ContentEvent kind payload =>
      if String.eqb kind TIMER_FIRED_ENVELOPE_KIND
      then map_err BridgeTickPayload (decode_timer_fired payload)
      else from_metadata
  | _ => from_metadata
  end.

(** The address a tick is attributed against. *)
Definition tick_target (c : ThreadCoordinates) : ResolvedIoTarget :=
  target_new (mk_address (tenant_id c) (user_id c) (session_id c) (Some (uuid_text (thread_id c)))).

(** The loop over the control stream: whether the occurrence has fired. *)
Fixpoint occurrence_fired (events : list EventRecord) (timer : TimerFiredPayload) :
    BridgeResult bool :=
  match events with
  | [] => Ok false
  | event :: events =>
      if negb (bool_decide (kind event = TimerFired)) then occurrence_fired events timer
      else
        p <-? map_err BridgeTimerPayload (decode_timer_fired (payload event)) ;;
        if (timer_mandate_event_id p =? timer_mandate_event_id timer)%N &&
           (timer_occurrence_index p =? timer_occurrence_index timer)%Z
        then Ok true
        else occurrence_fired events timer
  end.

(** The record of a fired timer. *)
Definition timer_record (id : EventRecordId) (now : Z) (c : ThreadCoordinates)
    (timer : TimerFiredPayload) : NewEventRecord :=
  mk_new_event id c now TimerFired Witnessed
    (mk_provenance [control_stream_id c] [timer_mandate_event_id timer] None [] None None None)
    (timer_fired_json timer).

Notation Call A := (st S BridgeError A).

(** [submit_clock_tick_envelope] past the opening of the store; the id and time of the event
    are drawn. *)
Definition admit_tick (e : IngressEnvelope) (id : EventRecordId) (created : Z) :
    Call KernelIoReceipt :=
  c <-! st_lift (clock_tick_coordinates e) ;;
  let target := tick_target c in
  st_lift (map_err BridgeEnvelope (require_attributed e target)) ;;!
  let receipt := kernel_io_receipt e target
                   (AdmitObserveOnly "clock tick admitted as timer.fired") in
  let receipt := mk_receipt (receipt_envelope_id receipt) (receipt_target receipt)
                   (receipt_mode receipt) (Some (uuid_text (thread_id c)))
                   (receipt_turn_id receipt) (receipt_principal receipt) in
  timer <-! st_lift (clock_tick_payload e) ;;
  store <-! st_get ;;
  active <-! st_lift (map_err BridgeKernel (list_active_mandates store c)) ;;
  if negb (existsb (fun m => (event_id (mandate_event m) =? timer_mandate_event_id timer)%N) active)
  then st_ret receipt
  else
    events <-! st_lift (map_err BridgeHistory (log_read store (control_stream_id c) None)) ;;
    fired <-! st_lift (occurrence_fired events timer) ;;
    if fired : bool then st_ret receipt
    else
      (fun store =>
         let (store, r) := log_append (control_stream_id c) [timer_record id created c timer] store in
         (store, map_err BridgeHistory r)) ;;!
      st_ret receipt.

(** [submit_clock_tick_envelope]. *)
Definition submit_clock_tick_envelope (e : IngressEnvelope) (id : EventRecordId) (created : Z) :
    st (option S) BridgeError KernelIoReceipt := fun bridge =>
  match bridge with
  | None => (None, Err BridgeWithoutStore)
  | Some store =>
      let (store, r) := admit_tick e id created store in (Some store, r)
  end.
End Bridge.

(** * A clock tick fires once

    The bridge admits a tick exactly when its mandate is active and the
    occurrence has not fired; whatever the queue redelivers and whoever starts or
    revokes mandates in between, no occurrence fires twice; and a tick of the
    clock route is admitted as the event it describes, after which the route
    schedules a later occurrence. *)

(** serde reads back the timers it wrote, and an index is a [u64]. *)
Class TimerCodecLaws `{UuidText} `{TimerCodec} := {
  decode_timer_json p : in_u64 (timer_occurrence_index p) = true ->
    decode_timer_fired (timer_fired_json p) = Ok p;
  decoded_index v p : decode_timer_fired v = Ok p -> in_u64 (timer_occurrence_index p) = true;
}.

(** The table holds the events of every stream, in some order. *)
Class EventTableLaws (S : Type) `{EventStoreLaws S} `{EventTable S} := {
  table_stream s stream : log_valid s ->
    filter (fun e => stream_id e = stream) (event_rows s) ≡ₚ log_events s stream;
}.

(** ** Fired timers of a stream *)

Section Fired.
Context `{TimerCodec}.

(** The occurrence an event says has fired. *)
Definition fired_pair (e : EventRecord) : option (EventRecordId * Z) :=
  if decide (kind e = TimerFired) then
    match decode_timer_fired (payload e) with
    | Ok p => Some (timer_mandate_event_id p, timer_occurrence_index p)
    | Err _ => None
    end
  else None.

Definition fired_pairs (events : list EventRecord) : list (EventRecordId * Z) :=
  omap fired_pair events.

(** Every [timer.fired] event of the stream decodes. *)
Definition timers_readable (events : list EventRecord) : Prop :=
  Forall (fun e => kind e = TimerFired -> is_ok (decode_timer_fired (payload e)) = true) events.

Definition timer_pair (p : TimerFiredPayload) : EventRecordId * Z :=
  (timer_mandate_event_id p, timer_occurrence_index p).

Lemma fired_pairs_cons e events :
  fired_pairs (e :: events) =
  match fired_pair e with Some f => f :: fired_pairs events | None => fired_pairs events end.
Proof. done. Qed.

Lemma occurrence_fired_iff events timer :
  timers_readable events ->
  exists b, occurrence_fired events timer = Ok b /\
    (b = true <-> timer_pair timer ∈ fired_pairs events).
Proof.
  induction 1 as [|e events He Hevents (b & IH & Hb)]; cbn [occurrence_fired].
  { exists false. split; [done|]. split; [done|]. by intros ?%not_elem_of_nil. }
  rewrite fired_pairs_cons. unfold fired_pair. destruct (decide (kind e = TimerFired)) as [Hk|Hk].
  - rewrite (bool_decide_eq_true_2 _ Hk). cbn [negb]. specialize (He Hk).
    destruct (decode_timer_fired (payload e)) as [p|]; cbn [map_err result_bind]; [|done].
    destruct (_ && _) eqn:Hsame.
    + to_prop. exists true. split; [done|]. split; [|done]. intros _. apply elem_of_cons. left.
      unfold timer_pair. congruence.
    + exists b. split; [done|]. rewrite Hb, elem_of_cons. split; [by right|].
      intros [Heq|Hin]; [|done]. exfalso. injection Heq as Hm Hi.
      by rewrite <- Hm, <- Hi, N.eqb_refl, Z.eqb_refl in Hsame.
  - rewrite (bool_decide_eq_false_2 _ Hk). by exists b.
Qed.

Lemma occurrence_fired_spec events timer :
  timers_readable events ->
  occurrence_fired events timer = Ok (bool_decide (timer_pair timer ∈ fired_pairs events)).
Proof.
  intros (b & -> & Hb)%(occurrence_fired_iff _ timer). f_equal. apply eq_true_iff_eq.
  by rewrite Hb, bool_decide_eq_true.
Qed.

(** Whatever the answer, it speaks the truth about what decodes. *)
Lemma occurrence_fired_false events timer :
  occurrence_fired events timer = Ok false -> timer_pair timer ∉ fired_pairs events.
Proof.
  induction events as [|e events IH]; cbn [occurrence_fired]; [intros _; apply not_elem_of_nil|].
  rewrite fired_pairs_cons. unfold fired_pair. case_bool_decide as Hk; cbn [negb].
  - rewrite decide_True by done. destruct (decode_timer_fired (payload e)) as [p|]; simpl; [|done].
    destruct (_ && _) eqn:Hsame; [done|]. intros Hf%IH. rewrite not_elem_of_cons.
    split; [|done]. intros Heq. injection Heq as Hm Hi.
    by rewrite <- Hm, <- Hi, N.eqb_refl, Z.eqb_refl in Hsame.
  - rewrite decide_False by done. apply IH.
Qed.

Lemma fired_pairs_app l1 l2 : fired_pairs (l1 ++ l2) = fired_pairs l1 ++ fired_pairs l2.
Proof. apply omap_app. Qed.
End Fired.

(** ** One event at most *)

Section Grows.
Context {S : Type} `{EventStoreLaws S}.

(** Nothing was written, or one event that satisfies [P] to one stream. *)
Definition grows (P : EventStreamId -> EventRecord -> Prop) (s s' : S) : Prop :=
  log_valid s' /\
  ((forall stream, log_events s' stream = log_events s stream) \/
   exists stream e, P stream e /\ log_events s' stream = log_events s stream ++ [e] /\
     forall other, other <> stream -> log_events s' other = log_events s other).

Lemma grows_same P s : log_valid s -> grows P s s.
Proof. intros Hv. split; [done|]. by left. Qed.

Lemma grows_weaken (P Q : EventStreamId -> EventRecord -> Prop) s s' :
  (forall stream e, P stream e -> Q stream e) -> grows P s s' -> grows Q s s'.
Proof.
  intros HPQ [Hv [?|(st & e & Hp & ?)]]; (split; [done|]); [by left|].
  right. exists st, e. split; [by apply HPQ|done].
Qed.

Lemma grows_kind_frame `{TimerCodec} k s s' stream :
  k <> TimerFired -> grows (fun _ e => kind e = k) s s' ->
  fired_pairs (log_events s' stream) = fired_pairs (log_events s stream).
Proof.
  intros Hk [_ [Hs|(st & e & He & Hst & Ho)]]; [by rewrite Hs|].
  destruct (decide (stream = st)) as [->|Hne]; [|by rewrite Ho].
  rewrite Hst, fired_pairs_app. unfold fired_pairs at 2. simpl. unfold fired_pair.
  rewrite decide_False by congruence. by rewrite app_nil_r.
Qed.
End Grows.

Section Bridge.
Context `{UuidParse} `{ControlCodec} `{TimerCodec} `{Calendar}.
Context {S : Type} `{EventAppendLaws S}.

Lemma append_control_grows (s s' : S) c record missing res :
  log_valid s -> append_control c record missing s = (s', res) ->
  grows (fun _ e => kind e = new_kind record) s s'.
Proof.
  intros Hv Hrun. destruct res as [event|e].
  - apply append_control_ok in Hrun as (Hv' & -> & He & Ho); [|done]. split; [done|]. right.
    exists (control_stream_id c). eexists. split; [|split; [exact He|exact Ho]]. done.
  - apply append_control_err in Hrun as [Hv' Hs]; [|done]. split; [done|]. by left.
Qed.

Lemma start_mandate_grows c request now mandate id created (s s' : S) res :
  log_valid s -> start_mandate c request now mandate id created s = (s', res) ->
  grows (fun _ e => kind e = EventKind.MandateStarted) s s'.
Proof.
  intros Hv Hrun. unfold start_mandate, st_bind, st_lift, st_ret in Hrun.
  destruct (validate_mandate_start_request request now); [|injection Hrun as <- _; by apply grows_same].
  destruct (mandate_expiry_ms _ _); [|injection Hrun as <- _; by apply grows_same].
  destruct (append_control _ _ _ s) as [s1 r] eqn:Ha. apply append_control_grows in Ha; [|done].
  by destruct r; injection Hrun as <- _.
Qed.

Lemma revoke_mandate_grows c mandate id created (s s' : S) res :
  log_valid s -> revoke_mandate c mandate id created s = (s', res) ->
  grows (fun _ e => kind e = EventKind.MandateRevoked) s s'.
Proof.
  intros Hv Hrun. unfold revoke_mandate, st_bind, st_lift, st_get, st_ret in Hrun.
  destruct (read_control s c); [|injection Hrun as <- _; by apply grows_same].
  destruct (mandate_start_event _ _ _) as [[[start started]|]|]; simpl in Hrun;
    [|injection Hrun as <- _; by apply grows_same..].
  destruct (mandate_revoked_event _ _ _) as [[[event p]|]|];
    [injection Hrun as <- _; by apply grows_same| |injection Hrun as <- _; by apply grows_same].
  destruct (append_control _ _ _ s) as [s1 r] eqn:Ha. apply append_control_grows in Ha; [|done].
  by destruct r; injection Hrun as <- _.
Qed.

(** The receipt of an admitted tick. *)
Definition tick_receipt (e : IngressEnvelope) (c : ThreadCoordinates) : KernelIoReceipt :=
  mk_receipt (ingress_id e) (tick_target c) ModeObserveOnly (Some (uuid_text (thread_id c))) None
    (principal e).

(** What the bridge does with a clock tick, on every branch past the checks
    of the envelope.  When the mandate is not active, or the occurrence has fired
    already, the answer is the receipt and the store is untouched; otherwise
    exactly one [timer.fired] event is appended, witnessed, naming the mandate as
    its source, and the receipt is the answer unless the append fails. *)
Theorem tick_admission_outcomes e id created (s : S) c timer ms :
  log_valid s ->
  clock_tick_coordinates e = Ok c -> require_attributed e (tick_target c) = Ok tt ->
  clock_tick_payload e = Ok timer -> list_active_mandates s c = Ok ms ->
  let events := log_events s (control_stream_id c) in
  timers_readable events ->
  admit_tick e id created s =
    if existsb (fun m => (event_id (mandate_event m) =? timer_mandate_event_id timer)%N) ms &&
       negb (bool_decide (timer_pair timer ∈ fired_pairs events))
    then let (s', r) := log_append (control_stream_id c) [timer_record id created c timer] s in
         (s', match r with
              | Ok _ => Ok (tick_receipt e c)
              | Err err => Err (BridgeHistory err)
              end)
    else (s, Ok (tick_receipt e c)).
Proof.
  intros Hv Hc Hat Hp Hms events Hread. unfold admit_tick, st_bind, st_lift, st_get, st_ret.
  rewrite Hc, Hat. cbn [map_err]. rewrite Hp, Hms. cbn [map_err].
  destruct (existsb _ ms); cbn [negb andb]; [|done].
  rewrite log_read_all by done. cbn [map_err]. fold events.
  rewrite (occurrence_fired_spec events timer Hread). case_bool_decide; cbn [negb]; [done|].
  by destruct (log_append _ _ _) as [s' [es|err]].
Qed.

(** An admission writes nothing, or one event for an occurrence that had not fired. *)
Lemma admit_tick_grows e id created (s s' : S) res :
  log_valid s -> admit_tick e id created s = (s', res) ->
  grows (fun stream ev => exists c timer, stream = control_stream_id c /\
    kind ev = TimerFired /\ payload ev = timer_fired_json timer /\
    clock_tick_payload e = Ok timer /\
    timer_pair timer ∉ fired_pairs (log_events s stream)) s s'.
Proof.
  intros Hv Hrun. unfold admit_tick, st_bind, st_lift, st_get, st_ret in Hrun.
  destruct (clock_tick_coordinates e) as [c|]; [|injection Hrun as <- _; by apply grows_same].
  destruct (map_err BridgeEnvelope _) as [[]|]; [|injection Hrun as <- _; by apply grows_same].
  destruct (clock_tick_payload e) as [timer|]; [|injection Hrun as <- _; by apply grows_same].
  destruct (map_err BridgeKernel _) as [ms|]; [|injection Hrun as <- _; by apply grows_same].
  destruct (negb (existsb _ ms)); [injection Hrun as <- _; by apply grows_same|].
  rewrite log_read_all in Hrun by done. cbn [map_err] in Hrun.
  destruct (occurrence_fired _ timer) as [[|]|] eqn:Hf;
    [injection Hrun as <- _; by apply grows_same| |injection Hrun as <- _; by apply grows_same].
  apply occurrence_fired_false in Hf.
  destruct (log_append _ _ s) as [s1 [es|err]] eqn:Ha; simpl in Hrun; injection Hrun as <- _.
  - destruct (log_extended_one _ _ _ _ _ Hv Ha) as (Hv' & _ & He & Ho). split; [done|]. right.
    exists (control_stream_id c). eexists. split; [|by split]. by exists c, timer.
  - destruct (log_unextended _ _ _ _ _ Hv Ha) as [Hv' Hs]. split; [done|]. by left.
Qed.
End Bridge.

(** ** Any history of mandates and deliveries *)

Section Runs.
Context `{UuidParse} `{ControlCodec} `{TimerCodec} `{!TimerCodecLaws} `{Calendar}.
Context {S : Type} `{EventAppendLaws S}.

(** A mandate is started or revoked, or an envelope of the clock is delivered, again or for the
    first time, with whatever ids and times are drawn and whatever comes of it. *)
Inductive control_step : S -> S -> Prop :=
  | StepStart c request now mandate id created s s' res :
      start_mandate c request now mandate id created s = (s', res) -> control_step s s'
  | StepRevoke c mandate id created s s' res :
      revoke_mandate c mandate id created s = (s', res) -> control_step s s'
  | StepDeliver e id created s s' res :
      admit_tick e id created s = (s', res) -> control_step s s'.

(** No occurrence is recorded twice in any control stream. *)
Definition fired_once (s : S) : Prop :=
  forall stream, NoDup (fired_pairs (log_events s stream)).

Lemma fired_pair_timer e timer :
  kind e = TimerFired -> payload e = timer_fired_json timer ->
  in_u64 (timer_occurrence_index timer) = true -> fired_pair e = Some (timer_pair timer).
Proof.
  intros Hk Hp Hi. unfold fired_pair. rewrite decide_True by done.
  by rewrite Hp, decode_timer_json.
Qed.

(** The payload of an admitted envelope is a [u64], however it was read. *)
Lemma tick_payload_index e timer :
  clock_tick_payload e = Ok timer -> in_u64 (timer_occurrence_index timer) = true.
Proof.
  assert (forall text z, parse_u64 text = Some z -> in_u64 z = true) as Hparse.
  { intros text z. unfold parse_u64, parse_unsigned. intros (n & Hn & ->)%fmap_Some.
    destruct (match _ with [] => true | _ => false end); [done|].
    apply bind_Some in Hn as (u & _ & Hu). destruct (N.leb_spec (N.of_uint u) (Z.to_N u64_max));
      [|done]. injection Hu as <-. unfold in_u64, u64_max in *. apply andb_true_iff.
    split; apply Z.leb_le; lia. }
  unfold clock_tick_payload. intros Hp.
  assert ((exists payload, decode_timer_fired payload = Ok timer) \/
    exists text, parse_u64 text = Some (timer_occurrence_index timer)) as [(v & Hv)|(text & Ht)];
    [|by eapply decoded_index|by eapply Hparse].
  assert (forall r : BridgeResult TimerFiredPayload, r = Ok timer -> r = Ok timer) as Hid by done.
  destruct (content e) as [text|name args|k v]; [| |destruct (String.eqb k _)];
    [right|right|left; exists v; by destruct (decode_timer_fired v); [injection Hp as ->|]|right].
  all: repeat match type of Hp with
    | result_bind ?r _ = Ok _ => let Hr := fresh "Hr" in destruct r eqn:Hr; simpl in Hp; [|done]
    end.
  all: injection Hp as <-; simpl.
  all: match goal with Hx : ok_or (parse_u64 ?t) _ = Ok _ |- _ =>
    exists t; unfold ok_or in Hx; by destruct (parse_u64 t); [injection Hx as ->|] end.
Qed.

Lemma control_step_fired s s' :
  control_step s s' -> log_valid s -> fired_once s ->
  log_valid s' /\ fired_once s'.
Proof.
  intros Hstep Hv Hone. destruct Hstep as [c request now mandate id created s s' res Hrun|
    c mandate id created s s' res Hrun|e id created s s' res Hrun].
  - apply start_mandate_grows in Hrun; [|done]. split; [apply Hrun|]. intros stream.
    by rewrite (grows_kind_frame EventKind.MandateStarted s).
  - apply revoke_mandate_grows in Hrun; [|done]. split; [apply Hrun|]. intros stream.
    by rewrite (grows_kind_frame EventKind.MandateRevoked s).
  - apply admit_tick_grows in Hrun as [Hv' [Hs|(st & ev & (c & timer & -> & Hk & Hp & Ht & Hn) & Hst & Ho)]];
      [|..|done]; (split; [done|]); intros stream; [by rewrite Hs|].
    destruct (decide (stream = control_stream_id c)) as [->|Hne];
      [|rewrite (Ho stream Hne); apply Hone].
    rewrite Hst, fired_pairs_app, fired_pairs_cons.
    rewrite (fired_pair_timer ev timer Hk Hp (tick_payload_index _ _ Ht)).
    apply NoDup_app. split_and!; [apply Hone| |apply NoDup_singleton].
    intros x Hx Hin%list_elem_of_singleton. by subst.
Qed.

End Runs.

(** ** From the route to the stream *)

Section EndToEnd.
Context `{UuidParse} `{ControlCodec} `{TimerCodec} `{!TimerCodecLaws} `{CalendarLaws}.

(** The coordinates and the payload the bridge reads off a tick's envelope are the tick's. *)
Lemma tick_envelope_read route now id t :
  in_u64 (tick_occurrence_index t) = true ->
  let e := tick_envelope route now id t in
  clock_tick_coordinates e = Ok (tick_coordinates t) /\
  require_attributed e (tick_target (tick_coordinates t)) = Ok tt /\
  clock_tick_payload e = Ok (tick_payload t).
Proof.
  intros Hi e. split_and!.
  - unfold clock_tick_coordinates, required_metadata.
    assert (obj_get "cooldis_session_id" (ingress_metadata e) =
      Some (session_id (tick_coordinates t))) as ->.
    { unfold e, tick_envelope. cbn [with_metadata ingress_metadata]. autorewrite with verlet. done. }
    assert (obj_get "verlet_thread_id" (ingress_metadata e) =
      Some (uuid_text (thread_id (tick_coordinates t)))) as ->.
    { unfold e, tick_envelope. cbn [with_metadata ingress_metadata]. autorewrite with verlet. done. }
    simpl. rewrite uuid_parse_text. simpl. by destruct (tick_coordinates t).
  - unfold require_attributed, require_witnessed. cbn -[String.append].
    destruct (uuid_text_plain (tick_mandate_event_id t)) as [Hne _].
    destruct (uuid_text (tick_mandate_event_id t)) as [|a text]; [done|]. cbn.
    by rewrite String.eqb_refl.
  - unfold clock_tick_payload, e, tick_envelope. cbn -[decode_timer_fired timer_fired_json tick_payload].
    by rewrite decode_timer_json.
Qed.

Context {S : Type} `{EventAppendLaws S} `{EventTable S} `{!EventTableLaws S}.

(** What the query of the route answers. *)
Lemma fired_occurrences_ok (s : S) c :
  log_valid s -> timers_readable (log_events s (control_stream_id c)) ->
  fired_occurrence_indices s c = Ok (fired_pairs (log_events s (control_stream_id c))).
Proof.
  intros Hv Hread. unfold fired_occurrence_indices, list_fired_timer_occurrences.
  set (events := log_events s (control_stream_id c)) in *.
  assert (sort_by_z sequence
      (filter (fun e : EventRecord => stream_id e = control_stream_id c /\ kind e = TimerFired)
         (event_rows s)) = filter (fun e : EventRecord => kind e = TimerFired) events) as Hrows.
  { apply sort_by_z_restores.
    - destruct (log_ordered s (control_stream_id c) Hv) as [Hs _]. fold events in Hs.
      induction Hs as [|e l Hs IH He]; [constructor|]. rewrite filter_cons.
      destruct (decide _); [|by apply IH; inversion Hread]. constructor; [by apply IH; inversion Hread|].
      apply Forall_forall. intros x [_ Hx]%list_elem_of_filter.
      by apply (proj1 (Forall_forall _ _) He).
    - unfold events. rewrite <- (table_stream s _ Hv), list_filter_filter.
      erewrite list_filter_iff; [reflexivity|]. naive_solver. }
  rewrite Hrows. clear Hrows.
  induction Hread as [|e l He Hl IH]; [done|]. rewrite filter_cons, fired_pairs_cons.
  unfold fired_pair. destruct (decide (kind e = TimerFired)) as [Hk|]; [|done].
  specialize (He Hk). simpl. destruct (decode_timer_fired (payload e)) as [p|]; [|done]. simpl.
  destruct (collect _ _) as [ps|]; simpl in *; [|done]. by injection IH as ->.
Qed.

(** An event of another kind leaves the listing as it is. *)
Lemma list_active_other (s s' : S) c ev ms :
  log_valid s -> log_valid s' ->
  log_events s' (control_stream_id c) = log_events s (control_stream_id c) ++ [ev] ->
  mandate_fact c ev = Ok FactOther ->
  list_active_mandates s c = Ok ms -> list_active_mandates s' c = Ok ms.
Proof.
  intros Hv Hv' He Hf [Hread ->]%list_active_iff; [|done]. apply list_active_iff; [done|].
  rewrite He. split.
  - apply readable_app. split; [done|]. apply Forall_singleton. by rewrite Hf.
  - assert (fact_of c ev = FactOther) as Ho by (unfold fact_of; by rewrite Hf).
    unfold active_mandates. rewrite omap_app. cbn [omap list_omap]. unfold started_here at 3.
    rewrite Ho, app_nil_r. apply list_filter_iff. intros m. rewrite existsb_app. simpl.
    unfold revokes_here at 3. by rewrite Ho, !orb_false_r.
Qed.

Lemma timer_record_admissible id created c timer : admissible (timer_record id created c timer).
Proof. split_and!; [done|by eexists|done]. Qed.

(** What the append of a timer record leaves behind. *)
Lemma timer_recorded (s s' : S) c id created timer es :
  let stream := control_stream_id c in
  log_valid s -> in_u64 (timer_occurrence_index timer) = true ->
  timers_readable (log_events s stream) ->
  log_append stream [timer_record id created c timer] s = (s', Ok es) ->
  exists ev, log_valid s' /\ log_events s' stream = log_events s stream ++ [ev] /\
    kind ev = TimerFired /\ origin ev = Witnessed /\ decode_timer_fired (payload ev) = Ok timer /\
    source_event_ids (provenance ev) = [timer_mandate_event_id timer] /\
    timers_readable (log_events s' stream) /\
    fired_pairs (log_events s' stream) = fired_pairs (log_events s stream) ++ [timer_pair timer].
Proof.
  intros stream Hv Hi Hread Happ.
  destruct (log_extended_one _ _ _ _ _ Hv Happ) as (Hv' & _ & He & _).
  set (ev := from_new stream _ _) in *. exists ev.
  assert (decode_timer_fired (payload ev) = Ok timer) as Hdec by by apply decode_timer_json.
  split_and!; try done; rewrite He.
  - apply Forall_app. split; [done|]. apply Forall_singleton. by rewrite Hdec.
  - rewrite fired_pairs_app, fired_pairs_cons. by rewrite (fired_pair_timer ev timer).
Qed.

Context `{!EventStoreProgress S} `{!EventAppendProgress S}.

(** C11 - A tick of the clock route becomes the event it describes, and the
    mandate moves on.  Delivering the envelope of the tick a poll computed for an
    active mandate, to a store the daemon may write, appends one witnessed
    [timer.fired] event that decodes to the tick and names the mandate; delivering
    the envelope again changes nothing and gives the same receipt; the route then
    reads the occurrence as fired, and every later tick of the mandate has a
    greater index. *)
Theorem due_tick_advances_mandate (s : S) c ms m started now t route eid id created :
  let stream := control_stream_id c in
  let envelope := tick_envelope route now eid t in
  log_valid s -> log_open s stream ->
  (forall other e, e ∈ log_events s other -> event_id e <> id) ->
  list_active_mandates s c = Ok ms -> m ∈ ms ->
  (forall sch, schedule (mandate_payload m) = Some sch -> schedule_wf sch) ->
  timers_readable (log_events s stream) ->
  indices_in_range (fired_pairs (log_events s stream)) ->
  next_tick_for_mandate c m (fired_pairs (log_events s stream)) started now = Ok (Some t) ->
  (tick_occurrence_index t < u64_max)%Z ->
  exists s' ev receipt,
    admit_tick envelope id created s = (s', Ok receipt) /\ log_valid s' /\
    log_events s' stream = log_events s stream ++ [ev] /\
    kind ev = TimerFired /\ origin ev = Witnessed /\
    decode_timer_fired (payload ev) = Ok (tick_payload t) /\
    source_event_ids (provenance ev) = [event_id (mandate_event m)] /\
    (forall id2 created2, admit_tick envelope id2 created2 s' = (s', Ok receipt)) /\
    exists fired, fired_occurrence_indices s' c = Ok fired /\
      forall started' now' t', next_tick_for_mandate c m fired started' now' = Ok (Some t') ->
        (tick_occurrence_index t < tick_occurrence_index t')%Z.
Proof.
  intros stream envelope Hv Hopen Hfresh Hms Hm Hwf Hread Hrange Htick Hmax.
  destruct (next_tick_never_refires _ _ _ _ _ _ Hrange Hwf Htick) as (Hc & Hid & _ & Hi0 & Hbelow & _).
  assert (in_u64 (tick_occurrence_index t) = true) as Hi.
  { unfold in_u64. apply andb_true_iff. split; apply Z.leb_le; lia. }
  destruct (tick_envelope_read route now eid t Hi) as (Hec & Hea & Hep). fold envelope in Hec, Hea, Hep.
  rewrite Hc in Hec, Hea.
  set (timer := tick_payload t) in *.
  assert (timer_pair timer ∉ fired_pairs (log_events s stream)) as Hn.
  { intros Hin. unfold timer_pair, timer in Hin. simpl in Hin. apply Hbelow in Hin. lia. }
  destruct (log_extends s stream [timer_record id created c timer] Hv Hopen) as (s' & es & _ & Happ).
  { apply Forall_singleton, timer_record_admissible. }
  { apply NoDup_singleton. }
  { intros r ->%list_elem_of_singleton other e He. by apply (Hfresh other). }
  destruct (timer_recorded _ _ _ _ _ timer _ Hv Hi Hread Happ) as
    (ev & Hv' & He & Hk & Ho & Hdec & Hsrc & Hread' & Hpairs). fold stream in He, Hread', Hpairs.
  exists s', ev, (tick_receipt envelope c). split_and!; try done.
  - rewrite (tick_admission_outcomes envelope id created s c timer ms) by done. fold stream.
    rewrite Happ, bool_decide_eq_false_2 by done. rewrite andb_true_r.
    assert (existsb (fun m => (event_id (mandate_event m) =? timer_mandate_event_id timer)%N) ms = true)
      as ->; [|done].
    apply existsb_exists. exists m. split; [by apply list_elem_of_In|]. simpl. rewrite Hid.
    apply N.eqb_refl.
  - rewrite Hsrc. simpl. by rewrite Hid.
  - intros id2 created2. rewrite (tick_admission_outcomes envelope id2 created2 s' c timer ms); try done.
    + fold stream. rewrite bool_decide_eq_true_2, andb_false_r; [done|]. rewrite Hpairs. set_solver.
    + apply (list_active_other s s' c ev ms); try done. unfold mandate_fact. by rewrite Hk.
  - exists (fired_pairs (log_events s' stream)). split; [by apply fired_occurrences_ok|].
    intros started' now' t' Htick'.
    assert (indices_in_range (fired_pairs (log_events s' stream))) as Hrange'.
    { rewrite Hpairs. intros i j [Hin|Hin%list_elem_of_singleton]%elem_of_app; [by apply Hrange in Hin|].
      injection Hin as _ ->. simpl. lia. }
    destruct (next_tick_never_refires _ _ _ _ _ _ Hrange' Hwf Htick') as (_ & Hid' & _ & _ & Hb & _).
    apply Hb. rewrite Hpairs, Hid'. apply elem_of_app. right. apply list_elem_of_singleton.
    unfold timer_pair, timer. simpl. by rewrite Hid.
Qed.
End EndToEnd.

(** ** The in-memory store as a table *)

Section InMemory.
Context `{UuidText}.

#[export] Instance in_memory_table : EventTable Handle := {|
  event_rows h := concat (map_to_list (events (handle_inner h))).*2;
|}.

Lemma filter_concat_streams (l : list (EventStreamId * list EventRecord)) stream :
  (forall st es, (st, es) ∈ l -> Forall (fun e => stream_id e = st) es) -> NoDup l.*1 ->
  filter (fun e : EventRecord => stream_id e = stream) (concat l.*2) =
  match list_find (fun p => p.1 = stream) l with Some (_, p) => p.2 | None => [] end.
Proof.
  induction l as [|[st es] l IH]; intros Hl Hnd; [done|].
  rewrite fmap_cons in Hnd. apply NoDup_cons in Hnd as [Hn Hnd]. rewrite fmap_cons.
  cbn [concat snd list_find]. rewrite filter_app, IH; [|intros st' es' Hin; apply Hl; by right|done].
  assert (Forall (fun e => stream_id e = st) es) as Hes by (apply Hl; left).
  destruct (decide (st = stream)) as [->|Hne].
  - rewrite decide_True, list_filter_all by done.
    destruct (list_find _ l) as [[i p]|] eqn:Hf; simpl; [|by rewrite app_nil_r].
    apply list_find_Some in Hf as (Hi & Hp & _). exfalso. apply Hn. rewrite <- Hp.
    cbn [fst]. apply list_elem_of_fmap_2. by apply list_elem_of_lookup_2 in Hi.
  - assert (filter (fun e : EventRecord => stream_id e = stream) es = []) as ->.
    { clear Hl Hn IH. induction Hes as [|e es He Hes IH]; [done|].
      by rewrite filter_cons_False by congruence. }
    rewrite decide_False by done. simpl. by destruct (list_find _ l) as [[i p]|].
Qed.

#[export, program] Instance in_memory_table_laws : EventTableLaws Handle.
Next Obligation.
  intros [s epoch] stream Hv.
  change (filter (fun e : EventRecord => stream_id e = stream)
    (concat (map_to_list (events s)).*2) ≡ₚ stream_events s stream).
  rewrite filter_concat_streams.
  - destruct (list_find _ _) as [[i [st es]]|] eqn:Hf; simpl.
    + apply list_find_Some in Hf as (Hi & Hp & _). simpl in Hp. subst st.
      apply list_elem_of_lookup_2, elem_of_map_to_list in Hi. unfold stream_events. by rewrite Hi.
    + apply list_find_None in Hf. unfold stream_events.
      destruct (events s !! stream) as [es|] eqn:He; [|done].
      apply elem_of_map_to_list in He. by apply (proj1 (Forall_forall _ _) Hf) in He.
  - intros st es Hin%elem_of_map_to_list. apply Forall_forall. intros e (i & He)%list_elem_of_lookup.
    apply (journal_numbered _ Hv st i). cbn [handle_inner]. unfold stream_events. by rewrite Hin.
  - apply NoDup_fst_map_to_list.
Qed.
End InMemory.
