(* ===== verification/ClockExamples.v ===== *)
(** * Mandates and the clock at work

    Decoders that read back what the kernel writes, a calendar whose texts are
    milliseconds, and a queue that keeps what it is given: the theorems of
    [MandateFacts], [ClockFacts] and [ClockBridge] are applied to threads
    on an in-memory store, and the runs that show the clock at its limits are
    computed. *)

From stdpp Require Import base gmap sets list strings pretty sorting relations.
From Stdlib Require Import ZArith Lia.
From S2P Require Import Prelude Retry Json EventKind Contracts Records Store Journal EventLog Control Ingress Queue SyncExamples Mandates.
From S2P Require Import MandateFacts Clock ClockFacts ClockBridge.

Local Open Scope verlet_scope.
Local Open Scope string_scope.
Local Open Scope list_scope.

Module ClockExamples.
#[local] Existing Instance SyncExamples.id_texts.
#[local] Existing Instance SyncExamples.id_parses.

(** ** Reading fields back *)

Definition text (key : string) (v : json) : option string := value_get key v ≫= as_str.

Definition int_of (v : json) : option Z :=
  match v with JNumber (PosInt z) | JNumber (NegInt z) => Some z | _ => None end.

Definition bool_of (v : json) : option bool := match v with JBool b => Some b | _ => None end.

Lemma int_of_jint z : int_of (jint z) = Some z.
Proof. unfold jint. by destruct (z <? 0)%Z. Qed.

(** Looks the keys up in the objects built from fields. *)
Ltac fields := rewrite !value_get_jobj, ?rev_app_distr, ?obj_get_app, ?obj_get_opt_field;
  cbn [String.eqb Ascii.eqb Bool.eqb rev app obj_get].

Definition subject_of (v : json) : MandateSubject :=
  mk_mandate_subject (text "thread_id" v) (text "loop_id" v).

Definition schedule_of (v : json) : option MandateSchedulePayload :=
  match value_get "interval" v, value_get "at" v, value_get "cron" v with
  | Some o, _, _ => Interval <$> (value_get "every_ms" o ≫= int_of)
  | _, Some o, _ => At <$> text "when" o
  | _, _, Some o => expr ← text "expr" o; tz ← text "tz" o; Some (Cron expr tz)
  | _, _, _ => None
  end.

Definition catch_up_of (v : json) : option MandateCatchUpPolicy :=
  s ← as_str v;
  if String.eqb s "coalesce_missed" then Some CoalesceMissed
  else if String.eqb s "skip_missed" then Some SkipMissed else None.

Definition required {A} (o : option A) : result A string := ok_or o "missing field".

Definition decode_started_of (v : json) : result MandateStartedPayload string :=
  required (subject ← value_get "subject" v; id ← text "mandate_id" v;
    snapshot ← text "snapshot_id" v;
    Some (mk_mandate_started (subject_of subject) id snapshot (text "thread_id" v)
            (value_get "max_continuations" v ≫= int_of) (value_get "expires_at_ms" v ≫= int_of)
            (value_get "schedule" v ≫= schedule_of) (value_get "max_occurrences" v ≫= int_of)
            (value_get "catch_up" v ≫= catch_up_of) (text "input_template" v))).

Definition decode_revoked_of (v : json) : result MandateRevokedPayload string :=
  required (subject ← value_get "subject" v; id ← text "mandate_id" v;
    snapshot ← text "snapshot_id" v;
    Some (mk_mandate_revoked (subject_of subject) id (text "mandate_event_id" v) snapshot
            (text "reason" v))).

Definition decode_timer_of (v : json) : result TimerFiredPayload string :=
  required (m ← text "mandate_event_id" v ≫= uuid_parse; at_ ← text "scheduled_for" v;
    index ← value_get "occurrence_index" v ≫= int_of; catch_up ← value_get "catch_up" v ≫= bool_of;
    if in_u64 index then Some (mk_timer m at_ index catch_up) else None).

#[local] Instance mandate_values : ControlCodec := {|
  decode_tool_decision := fun _ => Err "missing field";
  decode_tool_suspended := fun _ => Err "missing field";
  decode_tool_requested := fun _ => Err "missing field";
  decode_tool_completed := fun _ => Err "missing field";
  decode_continue_requested := fun _ => Err "missing field";
  decode_mandate_started := decode_started_of;
  decode_mandate_revoked := decode_revoked_of;
  decode_placement := fun _ => Err "missing field";
  rfc3339_millis := fun _ => None;
|}.

Lemma subject_read s : subject_of (subject_json s) = s.
Proof.
  unfold subject_of, text, subject_json. destruct s as [thread loop].
  f_equal; fields; by destruct thread, loop.
Qed.

Lemma schedule_read s : schedule_of (schedule_json s) = Some s.
Proof.
  destruct s as [expr tz|every|when]; [done| |done]. unfold schedule_of. cbn -[jint].
  by rewrite int_of_jint.
Qed.

#[local, program] Instance mandate_values_laws : MandateCodec.
Next Obligation.
  intros p _. simpl. unfold decode_started_of, required, text, mandate_started_json.
  destruct p as [subject id snapshot thread cont expires sched occ catch input].
  cbn [started_subject started_mandate_id started_snapshot_id started_thread_id max_continuations
    expires_at_ms schedule max_occurrences catch_up input_template].
  fields. cbn [mbind option_bind as_str ok_or]. rewrite subject_read. do 2 f_equal.
  - by destruct thread.
  - destruct cont as [z|]; [exact (int_of_jint z)|done].
  - destruct expires as [z|]; [exact (int_of_jint z)|done].
  - destruct sched as [s|]; [exact (schedule_read s)|done].
  - destruct occ as [z|]; [exact (int_of_jint z)|done].
  - destruct catch as [[]|]; done.
  - by destruct input.
Qed.
Next Obligation.
  intros p. simpl. unfold decode_revoked_of, required, text, mandate_revoked_json.
  destruct p as [subject id event snapshot reason].
  cbn [revoked_subject revoked_mandate_id mandate_event_id revoked_snapshot_id revoked_reason].
  fields. cbn [mbind option_bind as_str ok_or]. rewrite subject_read. do 2 f_equal.
  - by destruct event.
  - by destruct reason.
Qed.

#[local] Instance timer_values : TimerCodec := {| decode_timer_fired := decode_timer_of |}.

#[local, program] Instance timer_values_laws : TimerCodecLaws.
Next Obligation.
  intros p Hi. simpl. unfold decode_timer_of, required, text, timer_fired_json.
  destruct p as [m at_ index catch].
  cbn [timer_mandate_event_id timer_scheduled_for timer_occurrence_index timer_catch_up] in *.
  fields. cbn [mbind option_bind as_str bool_of]. rewrite int_of_jint.
  cbn [mbind option_bind]. rewrite uuid_parse_text. cbn [mbind option_bind]. by rewrite Hi.
Qed.
Next Obligation.
  intros v p. simpl. unfold decode_timer_of, required.
  destruct (text "mandate_event_id" v ≫= uuid_parse); simpl; [|done].
  destruct (text "scheduled_for" v); simpl; [|done].
  destruct (value_get "occurrence_index" v ≫= int_of) as [index|]; simpl; [|done].
  destruct (value_get "catch_up" v ≫= bool_of); simpl; [|done].
  destruct (in_u64 index) eqn:Hi; [|done]. by intros [= <-].
Qed.

(** ** A calendar *)

(** Two cron expressions: one every day at midnight, one that ticks again a second later. *)
Definition day : Z := 86400 * 10 ^ 9.
Definition second : Z := 10 ^ 9.
Definition nightly : list Instant := [day; 2 * day; 3 * day]%Z.
Definition twice_nightly : list Instant := [day; day + second; 2 * day; 2 * day + second]%Z.

(** Years are far from chrono's limits of about 262,000 years. *)
Definition in_chrono_range (t : Instant) : bool :=
  ((- 8 * 10 ^ 21 <=? t) && (t <=? 8 * 10 ^ 21))%Z.

Definition later (occurrences : list Instant) (t : Instant) : list Instant :=
  filter (fun o => (t < o)%Z) occurrences.

Definition read_millis (s : string) : result (Instant * Z) string :=
  match parse_u64 s with
  | Some ms => if in_chrono_range (from_ms ms) then Ok (from_ms ms, 0%Z) else Err "out of range"
  | None => Err "no digits"
  end.

#[local] Instance decimal_calendar : Calendar := {|
  CronExpr := bool;
  TimeZone := unit;
  instant_in_range := in_chrono_range;
  parse_rfc3339 := read_millis;
  rfc3339_text t := pretty (timestamp_millis t);
  cron_parse expr := if String.eqb expr "0 0 0 * * *" then Ok false
                     else if String.eqb expr "0,1 0 0 * * *" then Ok true
                     else Err "malformed";
  tz_parse tz := if String.eqb tz "UTC" then Ok tt else Err "unknown";
  find_next_occurrence cron _ t :=
    match later (if cron : bool then twice_nightly else nightly) t with
    | o :: _ => Ok o
    | [] => Err "no occurrence"
    end;
  cron_iter_after cron _ t := later (if cron : bool then twice_nightly else nightly) t;
|}.

Lemma later_ordered l t : StronglySorted Z.lt l -> StronglySorted Z.lt (later l t).
Proof.
  induction 1 as [|o l Hs IH Ho]; [constructor|]. unfold later. rewrite filter_cons.
  destruct (decide _); [|done]. constructor; [done|]. apply Forall_forall.
  intros x [_ Hx]%list_elem_of_filter. by apply (proj1 (Forall_forall _ _) Ho).
Qed.

#[local, program] Instance decimal_calendar_laws : CalendarLaws.
Next Obligation.
  intros s r. simpl. unfold read_millis. destruct (parse_u64 s) as [ms|]; [|done].
  destruct (in_chrono_range (from_ms ms)) eqn:Hr; [|done]. intros [= <-]. simpl.
  unfold in_chrono_range in Hr. to_prop. unfold in_i64, timestamp_millis, i64_min, i64_max, from_ms in *.
  rewrite Z.div_mul by lia. apply andb_true_iff. split; apply Z.leb_le; lia.
Qed.
Next Obligation.
  intros cron tz t. apply later_ordered. unfold twice_nightly, nightly, day, second.
  by destruct cron; repeat constructor.
Qed.

(** A queue that keeps every envelope, and takes an occurrence once. *)
#[local] Instance keeping_sink : IngressSink (list IngressEnvelope) := {|
  submit e kept :=
    if existsb (fun k => bool_decide (dedupe_key k = dedupe_key e)) kept
    then (kept, Ok (ingress_rejected e "duplicate"))
    else (kept ++ [e], Ok (ingress_accepted e));
|}.

(** ** A thread *)

Definition me : ThreadCoordinates := mk_coordinates "tenant" "user" "session" 7.
Definition my_stream : EventStreamId := control_stream_id me.
Definition minute : Z := 60 * 10 ^ 9.

Definition request (s : MandateSchedulePayload) (policy : MandateCatchUpPolicy) :
    MandateStartRequest := mk_start_request s None (Some policy) (Some "go") None None.

Definition empty_store : Handle := mk_handle inner_empty 0.
Definition start (s : MandateSchedulePayload) (policy : MandateCatchUpPolicy) (mandate : Uuid)
    (id : EventRecordId) (store : Handle) := start_mandate me (request s policy) 0 mandate id 0 store.

Lemma clock_store_valid : log_valid empty_store.
Proof. exact journal_wf_empty. Qed.

(** An interval mandate of a minute, started at the epoch. *)
Definition every_minute := start (Interval 60000) CoalesceMissed 1 11 empty_store.
Definition skipping := start (Interval 60000) SkipMissed 1 11 empty_store.

Lemma every_minute_valid : log_valid every_minute.1.
Proof.
  apply (start_mandate_grows me (request (Interval 60000) CoalesceMissed) 0 1 11 0 empty_store _
    every_minute.2 clock_store_valid). unfold every_minute, start. apply surjective_pairing.
Qed.

Lemma skipping_valid : log_valid skipping.1.
Proof.
  apply (start_mandate_grows me (request (Interval 60000) SkipMissed) 0 1 11 0 empty_store _
    skipping.2 clock_store_valid). unfold skipping, start. apply surjective_pairing.
Qed.

Definition the_mandate (store : Handle) : ActiveMandate :=
  match list_active_mandates store me with
  | Ok (m :: _) => m
  | _ => mk_active (from_new my_stream 0 (witnessed 0 0 me TimerFired JNull))
           (started_from_request me (request (Interval 60000) SkipMissed) None 0)
  end.

Definition value {A E} (d : A) (r : result A E) : A := match r with Ok a => a | Err _ => d end.

Definition no_event : EventRecord := from_new my_stream 0 (witnessed 0 0 me TimerFired JNull).

Definition receipt_of (run : Handle * KernelResult MandateStartReceipt) : MandateStartReceipt :=
  value (mk_start_receipt no_event (started_from_request me (request (Interval 0) SkipMissed) None 0))
    run.2.

(** ** Mandates *)

Lemma list_active_mandates_spec_witness :
  log_valid every_minute.1 /\
  active_mandates me (log_events every_minute.1 my_stream) = [the_mandate every_minute.1].
Proof.
  split; [exact every_minute_valid|]. symmetry.
  apply (proj1 (list_active_mandates_spec every_minute.1 me _ every_minute_valid)).
  vm_compute. reflexivity.
Defined.

Lemma start_lists_mandate_witness :
  let second := start (Interval 60000) SkipMissed 2 12 every_minute.1 in
  exists r, list_active_mandates second.1 me = Ok [the_mandate every_minute.1; r] /\
    event_id (mandate_event r) = 12%N.
Proof.
  intros second.
  destruct (start_lists_mandate me (request (Interval 60000) SkipMissed) 0 2 12 0 every_minute.1
    second.1 (receipt_of second) [the_mandate every_minute.1]) as (_ & Hid & Hl & _).
  - exact every_minute_valid.
  - vm_compute. reflexivity.
  - intros e p Hin Hk. apply list_elem_of_In in Hin. vm_compute in Hin.
    destruct Hin as [<-|[]]. discriminate Hk.
  - vm_compute. reflexivity.
  - vm_compute. reflexivity.
  - eexists. split; [exact Hl|exact Hid].
Defined.

Lemma started_mandate_validated_witness :
  let run := start (At "60000") SkipMissed 1 11 empty_store in
  exists t offset, read_millis "60000" = Ok (t, offset) /\
    ((0 <= t)%Z \/ catch_up (started_payload (receipt_of run)) = Some CoalesceMissed).
Proof.
  intros run.
  pose proof (started_mandate_validated me (request (At "60000") SkipMissed) 0 1 11 0 empty_store
    run.1 (Ok (receipt_of run)) clock_store_valid) as Hv.
  destruct Hv as (_ & Hat & _); [vm_compute; reflexivity|]. exact Hat.
Defined.

Definition revoke (id : EventRecordId) (store : Handle) := revoke_mandate me 11 id 9 store.
Definition revoked := revoke 13 every_minute.1.
Definition revoke_receipt_of (run : Handle * KernelResult MandateRevokeReceipt) : MandateRevokeReceipt :=
  value (mk_revoke_receipt AlreadyRevoked no_event no_event
           (mk_mandate_revoked (mk_mandate_subject None None) "" None "" None)) run.2.

Lemma revocation_is_final_witness :
  list_active_mandates revoked.1 me = Ok [] /\
  revoke 14 revoked.1 = (revoked.1, Ok (mk_revoke_receipt AlreadyRevoked
    (revoke_start_event (revoke_receipt_of revoked)) (revoke_event (revoke_receipt_of revoked))
    (revoke_payload (revoke_receipt_of revoked)))).
Proof.
  destruct (revocation_is_final me 11 13 9 every_minute.1 revoked.1 (revoke_receipt_of revoked)
    [the_mandate every_minute.1]) as (Hl & _ & Hlater).
  - exact every_minute_valid.
  - vm_compute. reflexivity.
  - vm_compute. reflexivity.
  - vm_compute. reflexivity.
  - split; [vm_compute in Hl |- *; exact Hl|].
    destruct (Hlater revoked.1 []) as [_ Hagain].
    + apply (revoke_mandate_grows me 11 13 9 every_minute.1 revoked.1 revoked.2 every_minute_valid).
      apply surjective_pairing.
    + symmetry. apply app_nil_r.
    + exact (Hagain 14%N 9%Z).
Defined.

(** A revocation that is in the stream but speaks of another thread: revoking answers that the
    mandate is revoked already, and the listing still shows it. *)
Definition foreign_revocation : NewEventRecord :=
  witnessed 13 9 me EventKind.MandateRevoked
    (mandate_revoked_json (mk_mandate_revoked (mk_mandate_subject (Some "elsewhere") None)
       "mandate-f" None "schedule.v1" None)).

Lemma foreign_revocation_blocks_revoke :
  let store := (log_append my_stream [foreign_revocation] every_minute.1).1 in
  (exists r, revoke 14 store = (store, Ok r) /\ revoke_status r = AlreadyRevoked) /\
  list_active_mandates store me = Ok [the_mandate every_minute.1].
Proof. split; [eexists; split|]; vm_compute; reflexivity. Qed.

(** A cron expression is accepted by the distance of the next two occurrences alone. *)
Lemma sub_minute_cron_accepted :
  let now := (day + second / 2)%Z in
  validate_schedule (Cron "0,1 0 0 * * *" "UTC") SkipMissed now = Ok tt /\
  exists first later, cron_iter_after true tt (2 * day - 1) = first :: later :: [] /\
    (later - first = second)%Z.
Proof. split; [vm_compute; reflexivity|]. do 2 eexists. split; vm_compute; reflexivity. Qed.

(** ** Ticks *)

Definition late : Instant := (2 * minute + 30 * second)%Z.
Definition tick_at (store : Handle) (at_ : Instant) : ScheduledTick :=
  match next_tick_for_mandate me (the_mandate store) (value [] (fired_occurrence_indices store me))
          at_ at_ with
  | Ok (Some t) => t
  | _ => mk_tick me 0 0 0 false
  end.

Lemma no_indices : indices_in_range [].
Proof. intros id i Hin. by apply not_elem_of_nil in Hin. Qed.

Lemma every_minute_schedule s :
  schedule (mandate_payload (the_mandate every_minute.1)) = Some s -> schedule_wf s.
Proof. intros Hs. vm_compute in Hs. injection Hs as <-. reflexivity. Qed.

Lemma next_tick_never_refires_witness :
  tick_occurrence_index (tick_at every_minute.1 late) = 1%Z /\
  (0 <= tick_occurrence_index (tick_at every_minute.1 late))%Z.
Proof.
  split; [vm_compute; reflexivity|].
  apply (next_tick_never_refires me (the_mandate every_minute.1) [] late late).
  - exact no_indices.
  - exact every_minute_schedule.
  - vm_compute. reflexivity.
Defined.

Lemma missed_interval_occurrences_witness :
  let index := tick_occurrence_index (tick_at every_minute.1 late) in
  (interval_instant 0 60000 index <= late)%Z /\
  forall j, (index < j)%Z -> (late < interval_instant 0 60000 j)%Z.
Proof.
  destruct (missed_interval_occurrences me (the_mandate every_minute.1) [] late late
    (tick_at every_minute.1 late) 60000) as (_ & Hpolicy).
  - exact no_indices.
  - reflexivity.
  - vm_compute. reflexivity.
  - vm_compute. reflexivity.
  - vm_compute. reflexivity.
  - destruct Hpolicy as [Hmissed _]. destruct Hmissed as [Hdue Hlater];
      [vm_compute; reflexivity|vm_compute; discriminate|].
    split; [exact Hdue|]. intros j Hj. apply Hlater; [exact Hj|vm_compute; reflexivity].
Defined.

(** A route that starts half a millisecond after an occurrence still fires it, although it was
    missed and the policy skips missed occurrences. *)
Lemma skip_fires_missed_occurrence :
  let started := (2 * minute + 500000)%Z in
  let t := tick_at skipping.1 started in
  next_tick_for_mandate me (the_mandate skipping.1) [] started started = Ok (Some t) /\
  catch_up (mandate_payload (the_mandate skipping.1)) = Some SkipMissed /\
  (tick_scheduled_for t < started)%Z /\ tick_catch_up t = false.
Proof. split_and!; vm_compute; reflexivity. Qed.

(** ** Delivered ticks *)

Definition route (store : Handle) (at_ : Instant) : VerletDaemonClockRoute :=
  clock_route "clock-main" store at_.
Definition envelope (store : Handle) (at_ : Instant) : IngressEnvelope :=
  tick_envelope "clock-main" at_ "e1" (tick_at store at_).
Definition deliver (store : Handle) (at_ : Instant) (id : EventRecordId) (to : Handle) :=
  admit_tick (envelope store at_) id 5 to.

Definition receipt_me (store : Handle) (at_ : Instant) : KernelIoReceipt :=
  tick_receipt (envelope store at_) me.

(** Two mandates: one at a single instant, one every minute. *)
Definition once := start (At "60000") CoalesceMissed 1 11 empty_store.
Definition once_and_every := start (Interval 60000) CoalesceMissed 2 12 once.1.
Definition fired_once_at := deliver once_and_every.1 minute 21 once_and_every.1.

Lemma once_and_every_valid : log_valid once_and_every.1.
Proof.
  assert (log_valid once.1) as Hv.
  { apply (start_mandate_grows me (request (At "60000") CoalesceMissed) 0 1 11 0 empty_store _
      once.2 clock_store_valid). unfold once, start. apply surjective_pairing. }
  apply (start_mandate_grows me (request (Interval 60000) CoalesceMissed) 0 2 12 0 once.1 _
    once_and_every.2 Hv). unfold once_and_every, start. apply surjective_pairing.
Qed.

(** Both mandates are due at the first minute; the queue takes each tick once. *)
Lemma both_due :
  let r := route once_and_every.1 minute in
  let kept := (enqueue_due_once r minute (fun n => pretty n) []).1 in
  (enqueue_due_once r minute (fun n => pretty n) []).2 = Ok 2%Z /\
  (enqueue_due_once r minute (fun n => pretty n) kept).2 = Ok 0%Z.
Proof. split; vm_compute; reflexivity. Qed.

Lemma fired_at_mandate_stops_clock_witness :
  (exists t, tick_at once_and_every.1 minute = t /\ tick_occurrence_index t = 0%Z) /\
  forall now sink, exists e,
    enqueue_due_once (route fired_once_at.1 (10 * minute)) now (fun n => pretty n) sink = (sink, Err e).
Proof.
  split; [eexists; split; vm_compute; reflexivity|]. intros now sink.
  apply (fired_at_mandate_stops_clock (route fired_once_at.1 (10 * minute)) me
    (value [] (list_active_mandates fired_once_at.1 me)) (the_mandate fired_once_at.1) "60000"
    [(11%N, 0%Z)]).
  - apply list_elem_of_In. vm_compute. left. reflexivity.
  - vm_compute. reflexivity.
  - apply list_elem_of_In. vm_compute. left. reflexivity.
  - vm_compute. reflexivity.
  - vm_compute. reflexivity.
  - vm_compute. reflexivity.
  - intros id i Hin%list_elem_of_singleton. injection Hin as _ ->. unfold u64_max. lia.
  - apply list_elem_of_In. vm_compute. left. reflexivity.
Defined.

Lemma timers_empty : timers_readable (log_events every_minute.1 my_stream).
Proof. apply Forall_forall. intros e Hin%list_elem_of_In Hk. vm_compute in Hin.
  destruct Hin as [<-|[]]. discriminate Hk. Qed.

Lemma tick_admission_outcomes_witness :
  deliver every_minute.1 late 21 every_minute.1 =
    (let (s', r) := log_append my_stream [timer_record 21 5 me (tick_payload (tick_at every_minute.1 late))]
       every_minute.1 in
     (s', match r with
          | Ok _ => Ok (receipt_me every_minute.1 late)
          | Err err => Err (BridgeHistory err)
          end)).
Proof.
  unfold deliver.
  rewrite (tick_admission_outcomes (envelope every_minute.1 late) 21 5 every_minute.1 me
    (tick_payload (tick_at every_minute.1 late)) [the_mandate every_minute.1] every_minute_valid).
  - vm_compute. reflexivity.
  - vm_compute. reflexivity.
  - vm_compute. reflexivity.
  - vm_compute. reflexivity.
  - vm_compute. reflexivity.
  - exact timers_empty.
Defined.

(** The same envelope delivered twice, with a revocation in between. *)
Definition delivered := deliver every_minute.1 late 21 every_minute.1.
Definition revoked_after := revoke 22 delivered.1.
Definition redelivered := deliver every_minute.1 late 23 revoked_after.1.


Lemma fresh_in (store : Handle) id :
  forallb (fun e => negb (event_id e =? id)%N) (concat (map_to_list (events (handle_inner store))).*2)
    = true ->
  forall other e, e ∈ log_events store other -> event_id e <> id.
Proof.
  intros Hall other e He Heq. rewrite forallb_forall in Hall.
  assert (In e (concat (map_to_list (events (handle_inner store))).*2)) as Hin.
  { apply list_elem_of_In. cbn in He. unfold stream_events in He.
    destruct (events (handle_inner store) !! other) as [es|] eqn:Hes; [|by apply not_elem_of_nil in He].
    apply list_elem_of_In, in_concat. exists es. split; [|by apply list_elem_of_In].
    apply list_elem_of_In, list_elem_of_fmap. exists (other, es). split; [done|].
    by apply elem_of_map_to_list. }
  apply Hall in Hin. rewrite Heq, N.eqb_refl in Hin. done.
Qed.

Lemma due_tick_advances_mandate_witness :
  exists s' receipt, deliver every_minute.1 late 21 every_minute.1 = (s', Ok receipt) /\
    deliver every_minute.1 late 22 s' = (s', Ok receipt).
Proof.
  destruct (due_tick_advances_mandate every_minute.1 me [the_mandate every_minute.1]
    (the_mandate every_minute.1) late late (tick_at every_minute.1 late) "clock-main" "e1" 21 5)
    as (s' & ev & receipt & Hrun & _ & _ & _ & _ & _ & _ & Hagain & _).
  - exact every_minute_valid.
  - vm_compute. reflexivity.
  - apply fresh_in. vm_compute. reflexivity.
  - vm_compute. reflexivity.
  - by left.
  - exact every_minute_schedule.
  - exact timers_empty.
  - intros id i Hin%list_elem_of_In. vm_compute in Hin. destruct Hin.
  - vm_compute. reflexivity.
  - vm_compute. reflexivity.
  - exists s', receipt. split; [exact Hrun|]. exact (Hagain 22%N 5%Z).
Defined.
End ClockExamples.
