(* ===== verification/Bindings.v ===== *)
(** * Attached bindings of a thread

    Models the first half of [crates/verlet-kernel/src/kernel/binding_projector.rs]
    (its second half is tests): the fold of a thread's control stream into its
    active bindings, and the delta that takes them to a desired list.  How a
    payload decodes is a parameter, as in [Control]. *)

From stdpp Require Import base gmap sets list strings sorting.
From Stdlib Require Import ZArith Lia.
From S2P Require Import Prelude Json EventKind Contracts Records Store.

Local Open Scope list_scope.

(** ** Payloads *)

Inductive BindingEffectClass : Type := Pure | Idempotent | AtMostOnce.

#[global] Instance BindingEffectClass_eq_dec : EqDecision BindingEffectClass.
Proof. solve_decision. Defined.

(** [bound_parameters] is listed in the order of its keys. *)
Record BindingAttachmentConfig : Type := mk_config {
  allowed_secrets : gset string;
  allowed_private_network : gmap string (gset string);
  bound_parameters : list (string * json);
}.

Record BindingAttachedDirectToolBinding : Type := mk_direct_tool {
  direct_tool_name : string;
  direct_operation : string;
  direct_effect_class : BindingEffectClass;
}.

#[global] Instance BindingAttachedDirectToolBinding_eq_dec :
  EqDecision BindingAttachedDirectToolBinding.
Proof. solve_decision. Defined.

Record BindingAttachedPayload : Type := mk_attached {
  binding_name : string;
  artifact_hash : string;
  operations : list string;
  direct_tools : list BindingAttachedDirectToolBinding;
  attachment_config : BindingAttachmentConfig;
  effect_class : BindingEffectClass;
  attached_requested_by : string;
  attached_decided_by : string;
  attached_decision_event_id : option EventRecordId;
}.

Record BindingDetachedPayload : Type := mk_detached {
  detached_attach_event_id : EventRecordId;
  detached_requested_by : string;
  detached_decided_by : string;
  detached_decision_event_id : option EventRecordId;
}.

(** [serde_json::from_value] at the two payload types, with its message. *)
Class BindingCodec := {
  decode_attached : json -> result BindingAttachedPayload string;
  decode_detached : json -> result BindingDetachedPayload string;
}.

(** ** The fold *)

Record ThreadBinding : Type := mk_binding {
  attach_event_id : EventRecordId;
  binding_payload : BindingAttachedPayload;
}.

Inductive ThreadBindingAnomaly : Type :=
  | UndecodableAttached (event_id : EventRecordId) (message : string)
  | UndecodableDetached (event_id : EventRecordId) (message : string)
  | UnknownDetach (detach_event_id attach_event_id : EventRecordId)
  | AlreadyDetached (detach_event_id attach_event_id : EventRecordId).

Record ThreadBindingsFold : Type := mk_fold {
  active : list ThreadBinding;
  anomalies : list ThreadBindingAnomaly;
}.

Section Fold.
Context `{BindingCodec}.

(** The body of the loop of [fold_thread_bindings], over the fold and the set [inactive]. *)
Definition fold_step (state : ThreadBindingsFold * gset EventRecordId) (event : EventRecord) :
    ThreadBindingsFold * gset EventRecordId :=
  let (folded, inactive) := state in
  let anomaly a := (mk_fold (active folded) (anomalies folded ++ [a]), inactive) in
  match kind event with
  | BindingAttached =>
      match decode_attached (payload event) with
      | Ok payload =>
          (mk_fold (active folded ++ [mk_binding (event_id event) payload]) (anomalies folded),
           inactive)
      | Err message => anomaly (UndecodableAttached (event_id event) message)
      end
  | BindingDetached =>
      match decode_detached (payload event) with
      | Err message => anomaly (UndecodableDetached (event_id event) message)
      | Ok payload =>
          let id := detached_attach_event_id payload in
          match list_find (fun binding => attach_event_id binding = id) (active folded) with
          | Some (index, _) =>
              (mk_fold (delete index (active folded)) (anomalies folded), {[id]} ∪ inactive)
          | None =>
              if bool_decide (id ∈ inactive) then anomaly (AlreadyDetached (event_id event) id)
              else anomaly (UnknownDetach (event_id event) id)
          end
      end
  | _ => state
  end.

Definition fold_thread_bindings (events : list EventRecord) : ThreadBindingsFold :=
  (fold_left fold_step events (mk_fold [] [], ∅)).1.
End Fold.

(** ** The delta *)

(** [PartialEq for BindingAttachmentConfig]. *)
Definition config_eqb (left right : BindingAttachmentConfig) : bool :=
  bool_decide (allowed_secrets left = allowed_secrets right) &&
  bool_decide (allowed_private_network left = allowed_private_network right) &&
  json_eqb (JObject (bound_parameters left)) (JObject (bound_parameters right)).

Definition binding_payload_identity_matches (left right : BindingAttachedPayload) : bool :=
  String.eqb (binding_name left) (binding_name right) &&
  String.eqb (artifact_hash left) (artifact_hash right) &&
  bool_decide (operations left = operations right) &&
  bool_decide (direct_tools left = direct_tools right) &&
  config_eqb (attachment_config left) (attachment_config right) &&
  bool_decide (effect_class left = effect_class right).

Record ThreadBindingDelta : Type := mk_delta {
  removed_attach_event_ids : list EventRecordId;
  added_bindings : list BindingAttachedPayload;
}.

(** The body of the loop of [reconcile_thread_bindings], over [unmatched_active] and
    [added_bindings]. *)
Definition reconcile_step (active : list ThreadBinding)
    (state : list bool * list BindingAttachedPayload) (desired : BindingAttachedPayload) :
    list bool * list BindingAttachedPayload :=
  let (unmatched, added) := state in
  match list_find (fun item : ThreadBinding * bool =>
          item.2 && binding_payload_identity_matches (binding_payload item.1) desired = true)
          (zip active unmatched) with
  | Some (index, _) => (<[index := false]> unmatched, added)
  | None => (unmatched, added ++ [desired])
  end.

Definition reconcile_thread_bindings (active : list ThreadBinding)
    (desired : list BindingAttachedPayload) : ThreadBindingDelta :=
  let (unmatched, added) :=
    fold_left (reconcile_step active) desired (repeat true (length active), []) in
  mk_delta (omap (fun item : ThreadBinding * bool =>
                    if item.2 then Some (attach_event_id item.1) else None)
              (zip active unmatched)) added.

(** * What the binding fold and its delta guarantee

    Which bindings are active after any history, and that committing a delta
    takes the thread to the desired bindings without touching what it keeps. *)

(** Filters that agree on the elements of the list. *)
Lemma filter_agree {A} (P Q : A -> Prop) `{!forall x, Decision (P x)} `{!forall x, Decision (Q x)}
    (l : list A) :
  (forall x, x ∈ l -> P x <-> Q x) -> filter P l = filter Q l.
Proof.
  induction l as [|a l IH]; intros Hl; [done|]. rewrite !filter_cons.
  rewrite IH by (intros x Hx; apply Hl; by right).
  rewrite (decide_ext (P a) (Q a)); [done|]. apply Hl. left.
Qed.

Section Facts.
Context `{BindingCodec}.

(** ** Steps *)

(** What an event attaches, and what it detaches. *)
Definition attaches (e : EventRecord) : option BindingAttachedPayload :=
  match kind e with
  | BindingAttached => match decode_attached (payload e) with Ok p => Some p | Err _ => None end
  | _ => None
  end.

Definition detaches (e : EventRecord) : option EventRecordId :=
  match kind e with
  | BindingDetached =>
      match decode_detached (payload e) with
      | Ok p => Some (detached_attach_event_id p)
      | Err _ => None
      end
  | _ => None
  end.

Definition ids (l : list ThreadBinding) : list EventRecordId := attach_event_id <$> l.

Definition without (id : EventRecordId) : list ThreadBinding -> list ThreadBinding :=
  filter (fun b => attach_event_id b <> id).

Lemma filter_same {A} (P : A -> Prop) `{!forall x, Decision (P x)} (l : list A) :
  (forall x, x ∈ l -> P x) -> filter P l = l.
Proof. intros Hl. apply list_filter_all. by apply Forall_forall. Qed.

Lemma delete_position l id i b :
  NoDup (ids l) -> list_find (fun b => attach_event_id b = id) l = Some (i, b) ->
  delete i l = without id l.
Proof.
  intros Hnd (Hi & Hid & _)%list_find_Some.
  rewrite delete_take_drop. unfold without. rewrite <- (take_drop_middle _ _ _ Hi) at 3.
  rewrite <- (take_drop_middle _ _ _ Hi) in Hnd. unfold ids in Hnd.
  rewrite fmap_app, fmap_cons in Hnd. apply NoDup_app in Hnd as (_ & Hl & [Hr _]%NoDup_cons).
  rewrite filter_app, filter_cons_False by (intros Hne; by apply Hne).
  rewrite !filter_same; [done| |].
  - intros x Hx Heq. apply Hr. rewrite Hid, <- Heq. by apply list_elem_of_fmap_2.
  - intros x Hx Heq. apply (Hl (attach_event_id x)); [by apply list_elem_of_fmap_2|].
    rewrite Heq, Hid. left.
Qed.

Lemma no_position l id :
  list_find (fun b => attach_event_id b = id) l = None -> without id l = l.
Proof.
  intros Hnone%list_find_None. apply filter_same. rewrite Forall_forall in Hnone. by apply Hnone.
Qed.

Definition next_active (e : EventRecord) (l : list ThreadBinding) : list ThreadBinding :=
  match attaches e, detaches e with
  | Some p, _ => l ++ [mk_binding (event_id e) p]
  | None, Some id => without id l
  | None, None => l
  end.

Lemma fold_step_active s e :
  NoDup (ids (active s.1)) -> active (fold_step s e).1 = next_active e (active s.1).
Proof.
  destruct s as [f inactive]. intros Hnd. unfold fold_step, next_active, attaches, detaches. simpl in *.
  destruct (kind e); try done.
  - by destruct (decode_attached (payload e)).
  - destruct (decode_detached (payload e)) as [p|m]; [|done].
    destruct (list_find _ (active f)) as [[i b]|] eqn:Hf; simpl.
    + by eapply delete_position.
    + rewrite no_position by done. by case_bool_decide.
Qed.

Lemma elem_of_next e l b :
  b ∈ next_active e l <->
  (b ∈ l /\ detaches e <> Some (attach_event_id b)) \/
  (attaches e = Some (binding_payload b) /\ attach_event_id b = event_id e).
Proof.
  unfold next_active.
  assert (forall p, attaches e = Some p -> detaches e = None) as Hone.
  { intros p. unfold attaches, detaches. by destruct (kind e). }
  destruct (attaches e) as [p|] eqn:Ha.
  - rewrite (Hone p eq_refl), elem_of_app, list_elem_of_singleton. destruct b as [id q]. naive_solver.
  - destruct (detaches e) as [id|]; [|naive_solver]. unfold without. rewrite list_elem_of_filter.
    naive_solver.
Qed.

Lemma next_ids e l : forall id, id ∈ ids (next_active e l) -> id ∈ ids l \/ id = event_id e.
Proof.
  intros id (b & -> & Hb)%list_elem_of_fmap. apply elem_of_next in Hb as [[Hb _]|[_ ->]];
    [left; by apply list_elem_of_fmap_2|by right].
Qed.

Lemma nodup_without id l : NoDup (ids l) -> NoDup (ids (without id l)).
Proof.
  unfold ids, without. induction l as [|b l IH]; [done|]. intros [Hb Hnd]%NoDup_cons.
  rewrite filter_cons. case_decide; [|by apply IH].
  rewrite fmap_cons. apply NoDup_cons. split; [|by apply IH].
  intros (x & Hx & Hin)%list_elem_of_fmap. apply list_elem_of_filter in Hin as [_ Hin].
  apply Hb. rewrite Hx. by apply list_elem_of_fmap_2.
Qed.

Lemma next_nodup e l : NoDup (ids l) -> event_id e ∉ ids l -> NoDup (ids (next_active e l)).
Proof.
  intros Hnd Hnew. unfold next_active. destruct (attaches e); [|destruct (detaches e) as [id|]; [|done]].
  - unfold ids. rewrite fmap_app. apply NoDup_app. split_and!; [done| |apply NoDup_singleton].
    intros x Hx Heq%list_elem_of_singleton. by subst.
  - by apply nodup_without.
Qed.

Definition folded (events : list EventRecord) : ThreadBindingsFold * gset EventRecordId :=
  fold_left fold_step events (mk_fold [] [], ∅).

Lemma folded_snoc events e : folded (events ++ [e]) = fold_step (folded events) e.
Proof. unfold folded. by rewrite fold_left_app. Qed.

Lemma nodup_snoc events (e : EventRecord) :
  NoDup (event_id <$> events ++ [e]) -> NoDup (event_id <$> events) /\ event_id e ∉ event_id <$> events.
Proof.
  rewrite fmap_app, NoDup_app. intros (Hnd & Hnew & _). split; [done|].
  intros Hin. apply (Hnew _ Hin). left.
Qed.

Lemma folded_ids events :
  NoDup (event_id <$> events) ->
  NoDup (ids (active (folded events).1)) /\
  forall id, id ∈ ids (active (folded events).1) -> id ∈ event_id <$> events.
Proof.
  induction events as [|e events IH] using rev_ind; [intros _; split; [constructor|done]|].
  intros [Hnd Hnew]%nodup_snoc. destruct (IH Hnd) as [Hids Hsub].
  rewrite folded_snoc, fold_step_active by done. split.
  - apply next_nodup; [done|]. intros Hin. by apply Hnew, Hsub.
  - intros id [Hin| ->]%next_ids; rewrite fmap_app, elem_of_app; [left; by apply Hsub|right; left].
Qed.

(** A binding is active exactly when an event attached it and no later event detaches it,
    whatever else the history holds. *)
Theorem active_bindings_spec events b :
  NoDup (event_id <$> events) ->
  b ∈ active (fold_thread_bindings events) <->
  exists i e, events !! i = Some e /\ attaches e = Some (binding_payload b) /\
    attach_event_id b = event_id e /\
    forall j d, events !! j = Some d -> (i < j)%nat -> detaches d <> Some (attach_event_id b).
Proof.
  change (fold_thread_bindings events) with (folded events).1.
  induction events as [|e events IH] using rev_ind.
  { intros _. split; [by intros ?%elem_of_nil|by intros (i & e & He & _)]. }
  intros [Hnd Hnew]%nodup_snoc. destruct (folded_ids events Hnd) as [Hids _].
  rewrite folded_snoc, fold_step_active, elem_of_next, (IH Hnd) by done. split.
  - intros [[(i & e' & Hi & Ha & Hid & Hlater) Hd]|[Ha Hid]].
    + exists i, e'. split_and!; try done; [by apply lookup_app_l_Some|].
      intros j d [Hj|[Hj Hd']]%lookup_app_Some Hlt; [by apply (Hlater j)|].
      by apply list_lookup_singleton_Some in Hd' as [_ <-].
    + exists (length events), e. split_and!; try done.
      * rewrite lookup_app_r by lia. by rewrite Nat.sub_diag.
      * intros j d Hj%lookup_lt_Some Hlt. rewrite length_app in Hj. simpl in Hj. lia.
  - intros (i & e' & Hi & Ha & Hid & Hlater). apply lookup_app_Some in Hi as [Hi|[Hi He]].
    + left. split.
      * exists i, e'. split_and!; try done. intros j d Hj. apply Hlater. by apply lookup_app_l_Some.
      * apply (Hlater (length events) e).
        -- rewrite lookup_app_r by lia. by rewrite Nat.sub_diag.
        -- by apply lookup_lt_Some in Hi.
    + right. by apply list_lookup_singleton_Some in He as [_ <-].
Qed.

(** ** Folding a delta *)

Definition neutral (e : EventRecord) : Prop :=
  kind e <> BindingAttached /\ kind e <> BindingDetached.

Lemma fold_neutral events s : Forall neutral events -> fold_left fold_step events s = s.
Proof.
  revert s. induction events as [|e events IH]; intros s Hall; [done|].
  apply Forall_cons in Hall as [[Ha Hd] Hall]. simpl. rewrite IH by done.
  destruct s. unfold fold_step. by destruct (kind e).
Qed.

Lemma fold_detaches events removed f inactive :
  Forall2 (fun e id => detaches e = Some id) events removed ->
  NoDup (ids (active f)) -> NoDup removed -> (forall id, id ∈ removed -> id ∈ ids (active f)) ->
  let f' := (fold_left fold_step events (f, inactive)).1 in
  active f' = filter (fun b => attach_event_id b ∉ removed) (active f) /\
  anomalies f' = anomalies f.
Proof.
  intros Hev. revert f inactive. induction Hev as [|e id events removed He Hev IH];
    intros f inactive Hids Hnd Hin; cbv zeta; cbn [fold_left].
  { split; [|done]. rewrite filter_same; [done|]. by intros x _ ?%elem_of_nil. }
  apply NoDup_cons in Hnd as [Hnew Hnd].
  assert (fold_step (f, inactive) e =
    (mk_fold (without id (active f)) (anomalies f), {[id]} ∪ inactive)) as ->.
  { unfold detaches in He. unfold fold_step.
    destruct (kind e); try done. destruct (decode_detached (payload e)) as [p|]; [|done].
    injection He as Hid. rewrite Hid.
    destruct (list_find (fun b => attach_event_id b = id) (active f)) as [[i b]|] eqn:Hf.
    { by rewrite (delete_position _ _ _ _ Hids Hf). }
    apply list_find_None in Hf. rewrite Forall_forall in Hf.
    assert (id ∈ ids (active f)) as (x & Hx & Hin')%list_elem_of_fmap by (apply Hin; left).
    by destruct (Hf x Hin'). }
  destruct (IH (mk_fold (without id (active f)) (anomalies f)) ({[id]} ∪ inactive)) as [Hact Hano].
  - simpl. unfold ids, without. by apply nodup_without.
  - done.
  - simpl. intros x Hx. assert (x ∈ ids (active f)) as (b' & -> & Hb)%list_elem_of_fmap
      by (apply Hin; by right).
    apply list_elem_of_fmap_2, list_elem_of_filter. split; [|done]. intros Heq. by rewrite Heq in Hx.
  - simpl in *. split; [|done]. rewrite Hact. unfold without. rewrite list_filter_filter.
    apply list_filter_iff. intros x. rewrite not_elem_of_cons. tauto.
Qed.

Lemma fold_attaches events added s :
  Forall2 (fun e p => attaches e = Some p) events added ->
  let f' := (fold_left fold_step events s).1 in
  active f' = active s.1 ++ zip_with (fun e p => mk_binding (event_id e) p) events added /\
  anomalies f' = anomalies s.1.
Proof.
  intros Hev. revert s. induction Hev as [|e p events added He Hev IH]; intros [f inactive];
    cbv zeta; cbn [fold_left zip_with].
  { by rewrite app_nil_r. }
  destruct (IH (fold_step (f, inactive) e)) as [Hact Hano].
  assert ((fold_step (f, inactive) e).1 =
    mk_fold (active f ++ [mk_binding (event_id e) p]) (anomalies f)) as Hstep.
  { unfold attaches in He. unfold fold_step. destruct (kind e); try done.
    destruct (decode_attached (payload e)); by simplify_eq/=. }
  rewrite Hstep in Hact, Hano. simpl in *. split; [|done]. by rewrite Hact, <- app_assoc.
Qed.
End Facts.

(** ** Reconciling *)

(** The active bindings whose flag is [flag]. *)
Definition flagged (flag : bool) (active : list ThreadBinding) (unmatched : list bool) :
    list ThreadBinding :=
  omap (fun item : ThreadBinding * bool => if Bool.eqb item.2 flag then Some item.1 else None)
    (zip active unmatched).

Lemma flagged_cons flag b active u unmatched :
  flagged flag (b :: active) (u :: unmatched) =
    (if Bool.eqb u flag then [b] else []) ++ flagged flag active unmatched.
Proof. unfold flagged. csimpl. by destruct (Bool.eqb u flag). Qed.

Lemma flagged_elem flag active unmatched b :
  b ∈ flagged flag active unmatched -> b ∈ active.
Proof.
  revert unmatched. induction active as [|x active IH]; intros [|u unmatched]; try by intros ?%elem_of_nil.
  rewrite flagged_cons, elem_of_app. intros [Hb|Hb]; [|right; by eapply IH].
  destruct (Bool.eqb u flag); [|by apply elem_of_nil in Hb]. apply list_elem_of_singleton in Hb. set_solver.
Qed.

Lemma flag_clear active unmatched i b :
  active !! i = Some b -> unmatched !! i = Some true ->
  flagged true active unmatched ≡ₚ b :: flagged true active (<[i:=false]> unmatched) /\
  flagged false active (<[i:=false]> unmatched) ≡ₚ b :: flagged false active unmatched.
Proof.
  revert unmatched i. induction active as [|x active IH]; intros [|u unmatched] [|i] Hb Hu; try done.
  - simpl in *. simplify_eq. by rewrite !flagged_cons.
  - simpl in *. rewrite !flagged_cons. destruct (IH unmatched i Hb Hu) as [Ht Hf].
    rewrite Ht, Hf. by split; rewrite Permutation_middle.
Qed.

Lemma flagged_split active unmatched :
  length unmatched = length active -> NoDup (attach_event_id <$> active) ->
  filter (fun b => attach_event_id b ∉ attach_event_id <$> flagged true active unmatched) active =
    flagged false active unmatched.
Proof.
  revert unmatched. induction active as [|b active IH]; intros [|u unmatched] Hlen Hnd; try done.
  apply NoDup_cons in Hnd as [Hb Hnd]. injection Hlen as Hlen.
  rewrite !flagged_cons, filter_cons, <- (IH unmatched) by done.
  assert (attach_event_id b ∉ attach_event_id <$> flagged true active unmatched) as Hout.
  { intros (x & Hx & Hin)%list_elem_of_fmap. apply Hb. rewrite Hx.
    apply list_elem_of_fmap_2. by eapply flagged_elem. }
  destruct u; simpl.
  - rewrite decide_False by set_solver. apply filter_agree.
    intros x Hx. rewrite not_elem_of_cons. split; [by intros []|]. intros Hno. split; [|done].
    intros Heq. apply Hb. rewrite <- Heq. by apply list_elem_of_fmap_2.
  - by rewrite decide_True.
Qed.

Lemma flagged_nodup flag active unmatched :
  NoDup (attach_event_id <$> active) -> NoDup (attach_event_id <$> flagged flag active unmatched).
Proof.
  revert unmatched. induction active as [|b active IH]; intros [|u unmatched] Hnd; try constructor.
  apply NoDup_cons in Hnd as [Hb Hnd]. rewrite flagged_cons. destruct (Bool.eqb u flag); [|by apply IH].
  simpl. apply NoDup_cons. split; [|by apply IH]. intros (x & Hx & Hin)%list_elem_of_fmap. apply Hb.
  rewrite Hx. apply list_elem_of_fmap_2. by eapply flagged_elem.
Qed.

(** A binding that is not kept is removed. *)
Lemma flagged_other active unmatched b :
  length unmatched = length active -> b ∈ active -> b ∉ flagged false active unmatched ->
  b ∈ flagged true active unmatched.
Proof.
  revert unmatched. induction active as [|x active IH]; intros [|u unmatched] Hlen; try done.
  injection Hlen as Hlen. rewrite !flagged_cons, !elem_of_app, elem_of_cons.
  specialize (IH unmatched Hlen). destruct u; simpl; rewrite ?list_elem_of_singleton; naive_solver.
Qed.

Notation matches b d := (binding_payload_identity_matches (binding_payload b) d = true).

Lemma reconcile_state active desired unmatched added :
  fold_left (reconcile_step active) desired (repeat true (length active), []) = (unmatched, added) ->
  length unmatched = length active /\
  exists kept matched,
    flagged false active unmatched ≡ₚ kept /\ Forall2 (fun b d => matches b d) kept matched /\
    desired ≡ₚ matched ++ added /\
    forall b d, b ∈ flagged true active unmatched -> d ∈ added -> ~ matches b d.
Proof.
  revert unmatched added. induction desired as [|d desired IH] using rev_ind; intros unmatched added.
  { intros [= <- <-]. rewrite repeat_length. split; [done|]. exists [], [].
    split_and!; [|constructor|done|by intros b d _ ?%elem_of_nil].
    induction active as [|b active IH]; [done|]. simpl. rewrite flagged_cons. exact IH. }
  rewrite fold_left_app. simpl.
  destruct (fold_left (reconcile_step active) desired _) as [u0 a0] eqn:Hpre.
  destruct (IH u0 a0 eq_refl) as (Hlen & kept & matched & Hkept & Hall & Hdes & Hno). unfold reconcile_step.
  destruct (list_find _ (zip active u0)) as [[i [b u]]|] eqn:Hf; intros [= <- <-].
  - apply list_find_Some in Hf as (Hi & Hok & _). simpl in Hok. apply andb_true_iff in Hok as [-> Hm].
    apply lookup_zip_with_Some in Hi as (b' & u' & [= <- <-] & Hb & Hu).
    destruct (flag_clear _ _ _ _ Hb Hu) as [Ht Hf].
    split; [by rewrite length_insert|]. exists (b :: kept), (d :: matched). split_and!.
    + by rewrite Hf, Hkept.
    + by constructor.
    + rewrite Hdes. simpl. by rewrite <- Permutation_cons_append.
    + intros x y Hx. apply Hno. rewrite Ht. by right.
  - split; [done|]. exists kept, matched. split_and!; try done.
    + by rewrite Hdes, app_assoc.
    + intros x y Hx [Hy|Hy%list_elem_of_singleton]%elem_of_app; [by apply Hno|]. subst y. intros Hm.
      apply list_find_None in Hf. rewrite Forall_forall in Hf.
      unfold flagged in Hx. apply list_elem_of_omap in Hx as ([b u] & Hin & Hu). simpl in Hu.
      destruct u; [|done]. injection Hu as ->. apply (Hf _ Hin). simpl. by rewrite Hm.
Qed.

Section Converge.
Context `{BindingCodec}.

(** Committing a delta reaches the desired bindings: when the detachments and attachments a
    delta asks for follow the history, in the batch of their receipts, the active bindings are
    the old ones it keeps, in their order and with their attachment ids, then the added ones;
    kept and added together realise the desired list, one binding for each desired one; nothing
    that could have served an added one is detached, and no anomaly arises. *)
Theorem reconcile_converges events receipts detached attached placement desired :
  NoDup (event_id <$> events) ->
  let bindings := active (fold_thread_bindings events) in
  let delta := reconcile_thread_bindings bindings desired in
  Forall neutral receipts -> Forall neutral placement ->
  Forall2 (fun e id => detaches e = Some id) detached (removed_attach_event_ids delta) ->
  Forall2 (fun e p => attaches e = Some p) attached (added_bindings delta) ->
  let result := fold_thread_bindings (events ++ receipts ++ detached ++ attached ++ placement) in
  anomalies result = anomalies (fold_thread_bindings events) /\
  exists kept kept' fresh matched,
    active result = kept ++ fresh /\ kept `sublist_of` bindings /\
    binding_payload <$> fresh = added_bindings delta /\
    desired ≡ₚ matched ++ added_bindings delta /\
    kept ≡ₚ kept' /\ Forall2 (fun b d => matches b d) kept' matched /\
    forall b d, b ∈ bindings -> b ∉ kept -> d ∈ added_bindings delta -> ~ matches b d.
Proof.
  intros Hnd bindings delta Hrec Hpl Hdet Hatt. destruct (folded_ids events Hnd) as [Hids _].
  unfold fold_thread_bindings at 1 2. rewrite !fold_left_app.
  rewrite (fold_neutral receipts) by done. rewrite (fold_neutral placement) by done.
  unfold delta, reconcile_thread_bindings in *.
  destruct (fold_left (reconcile_step bindings) desired _) as [unmatched added] eqn:Hrun.
  destruct (reconcile_state _ _ _ _ Hrun) as (Hlen & kept' & matched & Hkept & Hall & Hdes & Hno).
  set (ids_removed := omap _ (zip bindings unmatched)) in *.
  assert (ids_removed = attach_event_id <$> flagged true bindings unmatched) as Hremoved.
  { unfold ids_removed, flagged. clear. revert unmatched. generalize bindings.
    induction bindings0 as [|b l IH]; intros [|u unmatched]; try done. csimpl.
    destruct u; csimpl; by rewrite IH. }
  simpl in Hdet, Hatt |- *.
  change (fold_left fold_step events (mk_fold [] [], ∅)) with (folded events).
  destruct (folded events) as [f inactive] eqn:Hf.
  assert (active f = bindings) as Hact.
  { unfold bindings. change (fold_thread_bindings events) with (folded events).1. by rewrite Hf. }
  simpl in Hids. rewrite Hact in Hids.
  destruct (fold_detaches detached ids_removed f inactive) as [Hdact Hdano].
  { done. }
  { by rewrite Hact. }
  { rewrite Hremoved. by apply flagged_nodup. }
  { rewrite Hact, Hremoved. intros id (b & -> & Hb)%list_elem_of_fmap.
    apply list_elem_of_fmap_2. by eapply flagged_elem. }
  destruct (fold_attaches attached added (fold_left fold_step detached (f, inactive))) as [Haact Haano].
  { done. }
  split.
  { by rewrite Haano, Hdano. }
  exists (flagged false bindings unmatched), kept'.
  exists (zip_with (fun e p => mk_binding (event_id e) p) attached added), matched.
  rewrite Haact, Hdact, Hact, Hremoved, flagged_split by done. split_and!; try done.
  - rewrite <- (flagged_split bindings unmatched) by done. apply sublist_filter.
  - apply Forall2_length in Hatt. clear - Hatt. revert added Hatt.
    induction attached as [|e l IH]; intros [|p added] Hlen; try done.
    simpl. f_equal. apply IH. by injection Hlen.
  - intros b d Hb Hnk. apply Hno. by apply flagged_other.
Qed.
End Converge.

Module BindingExamples.

Definition named (name : string) : BindingAttachedPayload :=
  mk_attached name "sha" [] [] (mk_config ∅ ∅ []) AtMostOnce "me" "me" None.

(** A codec that reads a string as the name of a binding and a number as an event id. *)
Definition codec : BindingCodec := {|
  decode_attached v := match v with JString name => Ok (named name) | _ => Err "attached" end;
  decode_detached v := match v with
                       | JNumber (PosInt id) => Ok (mk_detached (Z.to_N id) "me" "me" None)
                       | _ => Err "detached"
                       end;
  |}.
#[local] Existing Instance codec.

Definition fact (id : EventRecordId) (k : EventKind) (p : json) : EventRecord :=
  from_new "control:7" (Z.of_N id) (witnessed id 5 (sample_coordinates 7) k p).
Definition attach (id : EventRecordId) (name : string) : EventRecord :=
  fact id BindingAttached (JString name).
Definition detach (id target : EventRecordId) : EventRecord :=
  fact id BindingDetached (jint (Z.of_N target)).
Definition history : list EventRecord := [attach 1 "fs"; attach 2 "net"].

Lemma active_bindings_spec_witness :
  mk_binding 2 (named "net") ∈ active (fold_thread_bindings (history ++ [detach 3 1])).
Proof.
  apply (active_bindings_spec (history ++ [detach 3 1]) (mk_binding 2 (named "net"))).
  - apply (bool_decide_unpack _). vm_compute. exact I.
  - exists 1%nat, (attach 2 "net"). split; [reflexivity|]. split; [reflexivity|].
    split; [reflexivity|].
    intros [|[|[|j]]] d Hj Hlt; try lia; [injection Hj as <-; discriminate|discriminate].
Defined.

Lemma reconcile_converges_witness :
  let result := fold_thread_bindings (history ++ [] ++ [detach 3 1] ++ [attach 4 "git"] ++ []) in
  anomalies result = [] /\
  exists kept fresh, active result = kept ++ fresh /\ binding_payload <$> fresh = [named "git"].
Proof.
  intros result.
  assert (NoDup (event_id <$> history)) as Hnd by (apply (bool_decide_unpack _); vm_compute; exact I).
  destruct (reconcile_converges history [] [detach 3 1] [attach 4 "git"] []
    [named "net"; named "git"] Hnd) as (Hano & kept & _ & fresh & _ & Hact & _ & Hfresh & _).
  - constructor.
  - constructor.
  - vm_compute. repeat constructor.
  - vm_compute. repeat constructor.
  - split; [exact Hano|]. exists kept, fresh. split; [exact Hact|exact Hfresh].
Defined.
End BindingExamples.
