(* ===== verification/Patch.v ===== *)
(** * Patches

    The patch tool of the shell, [verlet-vbash/src/apply_patch.rs]: the parser of
    the patch format, the search for the lines a chunk replaces, and the changes
    made to the files.  The file system is the third party's: a class. *)

From stdpp Require Import base gmap sets list strings pretty.
From Stdlib Require Import NArith ZArith Lia Strings.Byte.
From S2P Require Import Prelude Text.

Local Open Scope list_scope.
Local Open Scope verlet_scope.

(** ** The standard library's operations on text and paths *)

(** [str::lines]: the pieces between line ends, without the line end or the carriage return in
    front of it. *)
Definition NEWLINE : char := 10%N.
Definition RETURN : char := 13%N.

Definition strip_return (line : str) : str :=
  match rev line with
  | c :: r => if N.eqb c RETURN then rev r else line
  | [] => line
  end.

(** [str::split] at the line end. *)
Fixpoint split_newline (s : str) : list str :=
  match s with
  | [] => [[]]
  | c :: s => if N.eqb c NEWLINE then [] :: split_newline s else onto_first c (split_newline s)
  end.

(** The last piece has no line end: it is kept as it is, or not at all when it is empty. *)
Fixpoint ended_lines (pieces : list str) : list str :=
  match pieces with
  | [] => []
  | [piece] => match piece with [] => [] | _ => [piece] end
  | piece :: pieces => strip_return piece :: ended_lines pieces
  end.
Definition lines_of (s : str) : list str := ended_lines (split_newline s).

(** [[String]::join] with the line end. *)
Fixpoint join_newline (pieces : list str) : str :=
  match pieces with
  | [] => []
  | [piece] => piece
  | piece :: pieces => piece ++ NEWLINE :: join_newline pieces
  end.

(** [str::trim_end]. *)
Definition trim_end (s : str) : str := rev (trim_start (rev s)).

(** [Path::is_absolute] and [Path::join]. *)
Definition SLASH : char := 47%N.
Definition DOT : char := 46%N.
Definition is_absolute (path : str) : bool :=
  match path with c :: _ => N.eqb c SLASH | [] => false end.
Definition path_join (base path : str) : str :=
  if is_absolute path then path
  else match rev base with
       | [] => path
       | c :: _ => if N.eqb c SLASH then base ++ path else base ++ SLASH :: path
       end.

(** [Path::parent].  The text is read from its end: trailing separators and [.] components are
    not components of their own, except a leading [.] of a relative path. *)
Fixpoint skip_trailing (rooted : bool) (r : str) : str :=
  match r with
  | [] => []
  | c :: r' =>
      if N.eqb c SLASH then skip_trailing rooted r'
      else if N.eqb c DOT then
        match r' with
        | [] => if rooted then [] else r
        | d :: _ => if N.eqb d SLASH then skip_trailing rooted r' else r
        end
      else r
  end.
Fixpoint drop_component (r : str) : str :=
  match r with
  | [] => []
  | c :: r' => if N.eqb c SLASH then r else drop_component r'
  end.
Definition path_parent (path : str) : option str :=
  let rooted := is_absolute path in
  match skip_trailing rooted (rev (if rooted then drop 1 path else path)) with
  | [] => None
  | r => Some ((if rooted then [SLASH] else []) ++ rev (skip_trailing rooted (drop_component r)))
  end.

(** [String::from_utf8_lossy]: each maximal prefix of a sequence that is not well formed becomes
    one replacement character. *)
Definition REPLACEMENT : char := 65533%N.

Definition second_ok (x : N) (b1 : byte) : bool :=
  if N.eqb x 224 then in_range 160 191 b1
  else if N.eqb x 237 then in_range 128 159 b1
  else if N.eqb x 240 then in_range 144 191 b1
  else if N.eqb x 244 then in_range 128 143 b1
  else in_range 128 191 b1.

Fixpoint from_utf8_lossy (l : bytes) : str :=
  match l with
  | [] => []
  | b0 :: l0 =>
      let x := Byte.to_N b0 in
      if N.ltb x 128 then x :: from_utf8_lossy l0
      else if in_range 194 223 b0 then
        match l0 with
        | b1 :: l1 =>
            if in_range 128 191 b1
            then (N.land x 31 * 64 + tail_bits b1)%N :: from_utf8_lossy l1
            else REPLACEMENT :: from_utf8_lossy l0
        | [] => [REPLACEMENT]
        end
      else if in_range 224 239 b0 then
        match l0 with
        | b1 :: l1 =>
            if second_ok x b1 then
              match l1 with
              | b2 :: l2 =>
                  if in_range 128 191 b2
                  then (N.land x 15 * 4096 + tail_bits b1 * 64 + tail_bits b2)%N :: from_utf8_lossy l2
                  else REPLACEMENT :: from_utf8_lossy l1
              | [] => [REPLACEMENT]
              end
            else REPLACEMENT :: from_utf8_lossy l0
        | [] => [REPLACEMENT]
        end
      else if in_range 240 244 b0 then
        match l0 with
        | b1 :: l1 =>
            if second_ok x b1 then
              match l1 with
              | b2 :: l2 =>
                  if in_range 128 191 b2 then
                    match l2 with
                    | b3 :: l3 =>
                        if in_range 128 191 b3
                        then (N.land x 7 * 262144 + tail_bits b1 * 4096 + tail_bits b2 * 64 + tail_bits b3)%N
                               :: from_utf8_lossy l3
                        else REPLACEMENT :: from_utf8_lossy l2
                    | [] => [REPLACEMENT]
                    end
                  else REPLACEMENT :: from_utf8_lossy l1
              | [] => [REPLACEMENT]
              end
            else REPLACEMENT :: from_utf8_lossy l0
        | [] => [REPLACEMENT]
        end
      else REPLACEMENT :: from_utf8_lossy l0
  end.

(** [String::into_bytes]. *)
Definition into_bytes (s : str) : bytes := omap Byte.of_N (s ≫= encode_char).

(** ** The format *)

Definition BEGIN_PATCH_MARKER : str := lit "*** Begin Patch".
Definition ENVIRONMENT_ID_MARKER : str := lit "*** Environment ID: ".
Definition END_PATCH_MARKER : str := lit "*** End Patch".
Definition ADD_FILE_MARKER : str := lit "*** Add File: ".
Definition DELETE_FILE_MARKER : str := lit "*** Delete File: ".
Definition UPDATE_FILE_MARKER : str := lit "*** Update File: ".
Definition MOVE_TO_MARKER : str := lit "*** Move to: ".
Definition EOF_MARKER : str := lit "*** End of File".
Definition CHANGE_CONTEXT_MARKER : str := lit "@@ ".
Definition EMPTY_CHANGE_CONTEXT_MARKER : str := lit "@@".

Record UpdateFileChunk := {
  change_context : option str;
  old_lines : list str;
  new_lines : list str;
  is_end_of_file : bool;
}.

Inductive Hunk :=
  | AddFile (path : str) (contents : str)
  | DeleteFile (path : str)
  | UpdateFile (path : str) (move_path : option str) (chunks : list UpdateFileChunk).

(** [Hunk::path]. *)
Definition hunk_path (hunk : Hunk) : str :=
  match hunk with
  | AddFile path _ | DeleteFile path => path
  | UpdateFile path None _ => path
  | UpdateFile _ (Some path) _ => path
  end.

Record AffectedPaths := {
  added : list str;
  modified : list str;
  deleted : list str;
}.

(** The errors, each with what its text is made from.  [Panicked] is an index out of range or the
    [unreachable!] of the source, [Looping] a loop that has not ended when its fuel has. *)
Inductive patch_error (fs_error : Type) :=
  | NoFilesModified
  | EmptyEnvironmentId
  | FirstLineNotBegin
  | LastLineNotEnd
  | EmptyHunk
  | EmptyUpdate (line_number : nat) (path : str)
  | NotAHunkHeader (line_number : nat) (first_line : str)
  | NoChunkLines (line_number : nat)
  | MissingContextMarker (line_number : nat) (line : str)
  | UnexpectedLine (line_number : nat) (line : str)
  | ContextNotFound (context path : str)
  | LinesNotFound (path : str) (lines : list str)
  | WriteFailed (target : str) (err : fs_error)
  | DeleteFailed (target : str) (err : fs_error)
  | ReadFailed (source : str) (err : fs_error)
  | RemoveOriginalFailed (source : str) (err : fs_error)
  | Panicked
  | Looping.
Arguments NoFilesModified {_}.
Arguments EmptyEnvironmentId {_}.
Arguments FirstLineNotBegin {_}.
Arguments LastLineNotEnd {_}.
Arguments EmptyHunk {_}.
Arguments EmptyUpdate {_} _ _.
Arguments NotAHunkHeader {_} _ _.
Arguments NoChunkLines {_} _.
Arguments MissingContextMarker {_} _ _.
Arguments UnexpectedLine {_} _ _.
Arguments ContextNotFound {_} _ _.
Arguments LinesNotFound {_} _ _.
Arguments WriteFailed {_} _ _.
Arguments DeleteFailed {_} _ _.
Arguments ReadFailed {_} _ _.
Arguments RemoveOriginalFailed {_} _ _.
Arguments Panicked {_}.
Arguments Looping {_}.

Section Parser.
Context {fs_error : Type}.
Local Notation patch_error := (patch_error fs_error).

(** A slice [lines[from..to]], an index and [Vec::insert]: out of range they panic. *)
Definition slice {A} (l : list A) (from to : nat) : result (list A) patch_error :=
  if (from <=? to) && (to <=? length l) then Ok (take (to - from) (drop from l)) else Err Panicked.
Definition slice_from {A} (l : list A) (from : nat) : result (list A) patch_error :=
  slice l from (length l).
Definition index_at {A} (l : list A) (i : nat) : result A patch_error := ok_or (l !! i) Panicked.
Definition vec_insert {A} (l : list A) (i : nat) (x : A) : result (list A) patch_error :=
  if i <=? length l then Ok (take i l ++ x :: drop i l) else Err Panicked.

(** ** The parser *)

Definition check_start_and_end_lines (lines : list str) : result unit patch_error :=
  match trim <$> head lines, trim <$> last lines with
  | Some first, Some last =>
      if str_eqb first BEGIN_PATCH_MARKER && str_eqb last END_PATCH_MARKER then Ok tt
      else if negb (str_eqb first BEGIN_PATCH_MARKER) then Err FirstLineNotBegin
      else Err LastLineNotEnd
  | Some first, None =>
      if negb (str_eqb first BEGIN_PATCH_MARKER) then Err FirstLineNotBegin else Err LastLineNotEnd
  | None, _ => Err LastLineNotEnd
  end.

Definition HEREDOC_OPENINGS : list str :=
  [lit "<<EOF"; lit "<<'EOF'"; lit "<<" ++ [34%N] ++ lit "EOF" ++ [34%N]].

(** [str::ends_with]. *)
Definition ends_with (suffix s : str) : bool :=
  match strip_str_prefix (rev suffix) (rev s) with Some _ => true | None => false end.

(** The guard of the here-document arm; its pattern asks for two lines. *)
Definition is_heredoc (lines : list str) : bool :=
  match lines with
  | first :: _ :: _ =>
      existsb (str_eqb first) HEREDOC_OPENINGS &&
      match last lines with Some last => ends_with (lit "EOF") last | None => false end &&
      (4 <=? length lines)
  | _ => false
  end.

Definition check_patch_boundaries_lenient (lines : list str) : result (list str) patch_error :=
  if is_ok (check_start_and_end_lines lines) then slice lines 1 (length lines - 1)
  else if is_heredoc lines then
    inner <-? slice lines 1 (length lines - 1) ;;
    check_start_and_end_lines inner ;;?
    slice inner 1 (length inner - 1)
  else check_start_and_end_lines lines ;;? Err Panicked.

(** The environment id is checked and dropped. *)
Definition parse_environment_id_preamble (hunk_lines : list str)
    : result (option str * list str * nat) patch_error :=
  match hunk_lines with
  | [] => Ok (None, hunk_lines, 2)
  | first_line :: _ =>
      match strip_str_prefix ENVIRONMENT_ID_MARKER (trim_start first_line) with
      | None => Ok (None, hunk_lines, 2)
      | Some environment_id =>
          match trim environment_id with
          | [] => Err EmptyEnvironmentId
          | environment_id =>
              rest <-? slice_from hunk_lines 1 ;;
              Ok (Some environment_id, rest, 3)
          end
      end
  end.

(** The [for] loop of an added file: the lines up to the first without a [+]. *)
Fixpoint add_lines (lines : list str) (contents : str) (parsed_lines : nat) : str * nat :=
  match lines with
  | [] => (contents, parsed_lines)
  | add_line :: lines =>
      match strip_str_prefix (lit "+") add_line with
      | Some line_to_add => add_lines lines (contents ++ line_to_add ++ [NEWLINE]) (S parsed_lines)
      | None => (contents, parsed_lines)
      end
  end.

Definition push_old (line : str) (chunk : UpdateFileChunk) : UpdateFileChunk :=
  {| change_context := change_context chunk; old_lines := old_lines chunk ++ [line];
     new_lines := new_lines chunk; is_end_of_file := is_end_of_file chunk |}.
Definition push_new (line : str) (chunk : UpdateFileChunk) : UpdateFileChunk :=
  {| change_context := change_context chunk; old_lines := old_lines chunk;
     new_lines := new_lines chunk ++ [line]; is_end_of_file := is_end_of_file chunk |}.
Definition set_end_of_file (chunk : UpdateFileChunk) : UpdateFileChunk :=
  {| change_context := change_context chunk; old_lines := old_lines chunk;
     new_lines := new_lines chunk; is_end_of_file := true |}.

(** The [for] loop over the lines of a chunk. *)
Fixpoint chunk_lines (line_number : nat) (lines : list str) (chunk : UpdateFileChunk)
    (parsed_lines : nat) : result (UpdateFileChunk * nat) patch_error :=
  match lines with
  | [] => Ok (chunk, parsed_lines)
  | line :: lines =>
      if str_eqb line EOF_MARKER then
        if parsed_lines =? 0 then Err (NoChunkLines (line_number + 1))
        else Ok (set_end_of_file chunk, S parsed_lines)
      else match line with
      | [] => chunk_lines line_number lines (push_new [] (push_old [] chunk)) (S parsed_lines)
      | c :: content =>
          if N.eqb c 32 then
            chunk_lines line_number lines (push_new content (push_old content chunk)) (S parsed_lines)
          else if N.eqb c 43 then
            chunk_lines line_number lines (push_new content chunk) (S parsed_lines)
          else if N.eqb c 45 then
            chunk_lines line_number lines (push_old content chunk) (S parsed_lines)
          else if 0 <? parsed_lines then Ok (chunk, parsed_lines)
          else Err (UnexpectedLine (line_number + 1) line)
      end
  end.

(** [str::starts_with] of a character. *)
Definition starts_with_char (c : char) (s : str) : bool :=
  match s with d :: _ => N.eqb d c | [] => false end.

Definition parse_update_file_chunk (lines : list str) (line_number : nat)
    (allow_missing_context : bool) : result (UpdateFileChunk * nat) patch_error :=
  match lines with
  | [] => Err (NoChunkLines line_number)
  | first :: _ =>
      start <-? (if str_eqb first EMPTY_CHANGE_CONTEXT_MARKER then Ok (None, 1)
                 else match strip_str_prefix CHANGE_CONTEXT_MARKER first with
                      | Some context => Ok (Some context, 1)
                      | None => if allow_missing_context then Ok (None, 0)
                                else Err (MissingContextMarker line_number first)
                      end) ;;
      let '(change_context, start_index) := start in
      if length lines <=? start_index then Err (NoChunkLines (line_number + 1))
      else
        rest <-? slice_from lines start_index ;;
        parsed <-? chunk_lines line_number rest
                     {| change_context := change_context; old_lines := []; new_lines := [];
                        is_end_of_file := false |} 0 ;;
        let '(chunk, parsed_lines) := parsed in
        Ok (chunk, parsed_lines + start_index)
  end.

(** The [while] loop over the chunks of an update. *)
Fixpoint update_chunks (fuel line_number : nat) (remaining_lines : list str)
    (chunks : list UpdateFileChunk) (parsed_lines : nat)
    : result (list UpdateFileChunk * nat) patch_error :=
  match remaining_lines with
  | [] => Ok (chunks, parsed_lines)
  | first :: rest =>
      match fuel with
      | O => Err Looping
      | S fuel =>
          match trim first with
          | [] => update_chunks fuel line_number rest chunks (S parsed_lines)
          | _ =>
              if starts_with_char 42 first then Ok (chunks, parsed_lines)
              else
                parsed <-? parse_update_file_chunk remaining_lines (line_number + parsed_lines)
                             (match chunks with [] => true | _ => false end) ;;
                let '(chunk, chunk_lines) := parsed in
                rest <-? slice_from remaining_lines chunk_lines ;;
                update_chunks fuel line_number rest (chunks ++ [chunk]) (parsed_lines + chunk_lines)
          end
      end
  end.

Definition parse_one_hunk (lines : list str) (line_number : nat) : result (Hunk * nat) patch_error :=
  match lines with
  | [] => Err EmptyHunk
  | first_line :: rest =>
      let first_line := trim first_line in
      match strip_str_prefix ADD_FILE_MARKER first_line with
      | Some path =>
          let '(contents, parsed_lines) := add_lines rest [] 1 in
          Ok (AddFile path contents, parsed_lines)
      | None =>
      match strip_str_prefix DELETE_FILE_MARKER first_line with
      | Some path => Ok (DeleteFile path, 1)
      | None =>
      match strip_str_prefix UPDATE_FILE_MARKER first_line with
      | Some path =>
          let move_path := head rest ≫= strip_str_prefix MOVE_TO_MARKER in
          let '(remaining_lines, parsed_lines) :=
            match move_path with Some _ => (drop 1 rest, 2) | None => (rest, 1) end in
          updated <-? update_chunks (length remaining_lines) line_number remaining_lines [] parsed_lines ;;
          let '(chunks, parsed_lines) := updated in
          match chunks with
          | [] => Err (EmptyUpdate line_number path)
          | _ => Ok (UpdateFile path move_path chunks, parsed_lines)
          end
      | None => Err (NotAHunkHeader line_number first_line)
      end end end
  end.

(** The [while] loop over the hunks. *)
Fixpoint parse_hunks (fuel : nat) (remaining_lines : list str) (line_number : nat)
    (hunks : list Hunk) : result (list Hunk) patch_error :=
  match remaining_lines with
  | [] => Ok hunks
  | _ =>
      match fuel with
      | O => Err Looping
      | S fuel =>
          parsed <-? parse_one_hunk remaining_lines line_number ;;
          let '(hunk, parsed_lines) := parsed in
          rest <-? slice_from remaining_lines parsed_lines ;;
          parse_hunks fuel rest (line_number + parsed_lines) (hunks ++ [hunk])
      end
  end.

Definition parse_patch (patch : str) : result (list Hunk) patch_error :=
  hunk_lines <-? check_patch_boundaries_lenient (lines_of (trim patch)) ;;
  preamble <-? parse_environment_id_preamble hunk_lines ;;
  let '(_, remaining_lines, line_number) := preamble in
  parse_hunks (length remaining_lines) remaining_lines line_number [].
End Parser.

(** ** Finding and replacing lines *)

Section Lines.
Context {fs_error : Type}.
Local Notation patch_error := (patch_error fs_error).

(** The typographic characters that stand for ASCII punctuation. *)
Definition ascii_punctuation (ch : char) : char :=
  if ((8208 <=? ch) && (ch <=? 8213) || (ch =? 8722))%N then 45%N
  else if ((8216 <=? ch) && (ch <=? 8219))%N then 39%N
  else if ((8220 <=? ch) && (ch <=? 8223))%N then 34%N
  else if ((ch =? 160) || (8194 <=? ch) && (ch <=? 8202) || (ch =? 8239) || (ch =? 8287) ||
           (ch =? 12288))%N then 32%N
  else ch.
Definition normalize_punctuation (value : str) : str := map ascii_punctuation (trim value).

(** The comparisons of the four passes of [seek_sequence]. *)
Definition same_end_trimmed (line expected : str) : bool := str_eqb (trim_end line) (trim_end expected).
Definition same_trimmed (line expected : str) : bool := str_eqb (trim line) (trim expected).
Definition same_normalized (line expected : str) : bool :=
  str_eqb (normalize_punctuation line) (normalize_punctuation expected).

(** [lines[index..index + pattern.len()] == *pattern]. *)
Definition slice_is (lines pattern : list str) (index : nat) : result bool patch_error :=
  window <-? slice lines index (index + length pattern) ;;
  Ok (bool_decide (window = pattern)).

(** The [all] over the lines of the pattern, from [index] on. *)
Fixpoint all_match (same : str -> str -> bool) (lines pattern : list str) (index : nat)
    : result bool patch_error :=
  match pattern with
  | [] => Ok true
  | expected :: pattern =>
      line <-? index_at lines index ;;
      if same line expected then all_match same lines pattern (S index) else Ok false
  end.

(** The first index of a range that passes a test. *)
Fixpoint first_index (test : nat -> result bool patch_error) (range : list nat)
    : result (option nat) patch_error :=
  match range with
  | [] => Ok None
  | index :: range =>
      found <-? test index ;;
      if found : bool then Ok (Some index) else first_index test range
  end.

Definition seek_sequence (lines pattern : list str) (start : nat) (eof : bool)
    : result (option nat) patch_error :=
  match pattern with
  | [] => Ok (Some start)
  | _ =>
      if length lines <? length pattern then Ok None
      else
        let search_start :=
          if eof && (length pattern <=? length lines) then length lines - length pattern else start in
        let range := seq search_start (S (length lines - length pattern) - search_start) in
        exact <-? first_index (slice_is lines pattern) range ;;
        match exact with
        | Some index => Ok (Some index)
        | None =>
        end_trimmed <-? first_index (all_match same_end_trimmed lines pattern) range ;;
        match end_trimmed with
        | Some index => Ok (Some index)
        | None =>
        trimmed <-? first_index (all_match same_trimmed lines pattern) range ;;
        match trimmed with
        | Some index => Ok (Some index)
        | None => first_index (all_match same_normalized lines pattern) range
        end end end
  end.

(** [Vec::last] is an empty line. *)
Definition last_is_empty (lines : list str) : bool :=
  match last lines with Some [] => true | _ => false end.

Definition replacement : Type := nat * nat * list str.

(** One turn of the loop of [compute_replacements]: the state is the replacements so far and
    [line_index]. *)
Definition locate_chunk (original_lines : list str) (path : str)
    (acc : list replacement * nat) (chunk : UpdateFileChunk)
    : result (list replacement * nat) patch_error :=
  let '(replacements, line_index) := acc in
  line_index <-? (match change_context chunk with
                  | Some context_line =>
                      found <-? seek_sequence original_lines [context_line] line_index false ;;
                      match found with
                      | Some index => Ok (index + 1)
                      | None => Err (ContextNotFound context_line path)
                      end
                  | None => Ok line_index
                  end) ;;
  match old_lines chunk with
  | [] =>
      let insertion_index :=
        if last_is_empty original_lines then length original_lines - 1 else length original_lines in
      Ok (replacements ++ [(insertion_index, 0, new_lines chunk)], line_index)
  | _ =>
      let eof := is_end_of_file chunk in
      let pattern := old_lines chunk in
      let new_slice := new_lines chunk in
      found <-? seek_sequence original_lines pattern line_index eof ;;
      retried <-? (match found with
                   | None =>
                       if last_is_empty pattern then
                         pattern <-? slice pattern 0 (length pattern - 1) ;;
                         new_slice <-? (if last_is_empty new_slice
                                        then slice new_slice 0 (length new_slice - 1)
                                        else Ok new_slice) ;;
                         found <-? seek_sequence original_lines pattern line_index eof ;;
                         Ok (found, pattern, new_slice)
                       else Ok (found, pattern, new_slice)
                   | Some _ => Ok (found, pattern, new_slice)
                   end) ;;
      let '(found, pattern, new_slice) := retried in
      match found with
      | None => Err (LinesNotFound path (old_lines chunk))
      | Some start_index =>
          Ok (replacements ++ [(start_index, length pattern, new_slice)],
              start_index + length pattern)
      end
  end.

Definition compute_replacements (original_lines : list str) (path : str)
    (chunks : list UpdateFileChunk) : result (list replacement) patch_error :=
  acc <-? try_fold (locate_chunk original_lines path) ([], 0) chunks ;;
  Ok (sort_by_z (fun r : replacement => Z.of_nat r.1.1) acc.1).

(** [Vec::remove] under its guard, [old_len] times. *)
Fixpoint remove_lines (count start_index : nat) (lines : list str) : list str :=
  match count with
  | O => lines
  | S count =>
      remove_lines count start_index
        (if start_index <? length lines then take start_index lines ++ drop (S start_index) lines
         else lines)
  end.

(** [Vec::insert] of each line at [start_index + offset]. *)
Fixpoint insert_lines (index : nat) (new_segment lines : list str) : result (list str) patch_error :=
  match new_segment with
  | [] => Ok lines
  | new_line :: new_segment =>
      lines <-? vec_insert lines index new_line ;;
      insert_lines (S index) new_segment lines
  end.

Definition apply_replacement (lines : list str) (r : replacement) : result (list str) patch_error :=
  let '(start_index, old_len, new_segment) := r in
  insert_lines start_index new_segment (remove_lines old_len start_index lines).

Definition apply_replacements (lines : list str) (replacements : list replacement)
    : result (list str) patch_error :=
  try_fold apply_replacement lines (rev replacements).

Definition derive_new_contents_from_chunks (path original_contents : str)
    (chunks : list UpdateFileChunk) : result str patch_error :=
  let original_lines := split_newline original_contents in
  let original_lines :=
    if last_is_empty original_lines then take (length original_lines - 1) original_lines
    else original_lines in
  replacements <-? compute_replacements original_lines path chunks ;;
  new_lines <-? apply_replacements original_lines replacements ;;
  Ok (join_newline (if last_is_empty new_lines then new_lines else new_lines ++ [[]])).
End Lines.

(** ** The files *)

(** The file system the shell runs on: its calls, each of which may change its state even when it
    fails, the kind of an [Io] error, the error of a directory where a file is expected, and the
    normal form of a path. *)
Class BashkitFileSystem := {
  fs : Type;
  fs_error : Type;
  io_not_found : fs_error -> bool;
  path_is_a_directory : fs_error;
  normalize_path : str -> str;
  fs_stat_is_dir : str -> st fs fs_error bool;
  fs_read_file : str -> st fs fs_error bytes;
  fs_write_file : str -> bytes -> st fs fs_error unit;
  fs_mkdir : str -> bool -> st fs fs_error unit;
  fs_remove : str -> bool -> st fs fs_error unit;
}.

Section Files.
Context `{BashkitFileSystem}.
Local Notation patch_error := (patch_error fs_error).

(** [map_err] of a call. *)
Definition st_map_err {S E F A} (f : E -> F) (m : st S E A) : st S F A :=
  fun s => let '(s, r) := m s in (s, map_err f r).

Definition ensure_not_directory (path : str) : st fs fs_error unit :=
  is_dir <-! fs_stat_is_dir path ;;
  if is_dir : bool then st_lift (Err path_is_a_directory) else st_ret tt.

Definition write_file_with_missing_parent_retry (path : str) (contents : bytes)
    : st fs fs_error unit :=
  fun s =>
    match fs_write_file path contents s with
    | (s, Ok _) => (s, Ok tt)
    | (s, Err err) =>
        if io_not_found err then
          ((match path_parent path with Some parent => fs_mkdir parent true | None => st_ret tt end) ;;!
           fs_write_file path contents) s
        else (s, Err err)
    end.

Definition read_text_file (path : str) : st fs fs_error str :=
  bytes <-! fs_read_file path ;;
  st_ret (from_utf8_lossy bytes).

Definition resolve_virtual_path (cwd path : str) : str :=
  normalize_path (if is_absolute path then path else path_join cwd path).

(** One turn of the loop of [apply_patch_to_bashkit]. *)
Definition apply_hunk (cwd : str) (affected : AffectedPaths) (hunk : Hunk)
    : st fs patch_error AffectedPaths :=
  match hunk with
  | AddFile path contents =>
      let target := resolve_virtual_path cwd path in
      st_map_err (WriteFailed target)
        (write_file_with_missing_parent_retry target (into_bytes contents)) ;;!
      st_ret {| added := added affected ++ [hunk_path hunk]; modified := modified affected;
                deleted := deleted affected |}
  | DeleteFile path =>
      let target := resolve_virtual_path cwd path in
      st_map_err (DeleteFailed target) (ensure_not_directory target) ;;!
      st_map_err (DeleteFailed target) (fs_remove target false) ;;!
      st_ret {| added := added affected; modified := modified affected;
                deleted := deleted affected ++ [hunk_path hunk] |}
  | UpdateFile path move_path chunks =>
      let source := resolve_virtual_path cwd path in
      original_contents <-! st_map_err (ReadFailed source) (read_text_file source) ;;
      new_contents <-! st_lift (derive_new_contents_from_chunks source original_contents chunks) ;;
      (match move_path with
       | Some move_path =>
           let dest := resolve_virtual_path cwd move_path in
           st_map_err (WriteFailed dest)
             (write_file_with_missing_parent_retry dest (into_bytes new_contents)) ;;!
           st_map_err (RemoveOriginalFailed source) (ensure_not_directory source) ;;!
           st_map_err (RemoveOriginalFailed source) (fs_remove source false)
       | None =>
           st_map_err (WriteFailed source) (fs_write_file source (into_bytes new_contents))
       end) ;;!
      st_ret {| added := added affected; modified := modified affected ++ [hunk_path hunk];
                deleted := deleted affected |}
  end.

(** The loop over the hunks. *)
Fixpoint apply_hunks (cwd : str) (affected : AffectedPaths) (hunks : list Hunk)
    : st fs patch_error AffectedPaths :=
  match hunks with
  | [] => st_ret affected
  | hunk :: hunks =>
      affected <-! apply_hunk cwd affected hunk ;;
      apply_hunks cwd affected hunks
  end.

Definition summary_line (letter path : str) : str := letter ++ lit " " ++ path ++ [NEWLINE].
Definition print_summary (affected : AffectedPaths) : str :=
  lit "Success. Updated the following files:" ++ [NEWLINE] ++
  (added affected ≫= summary_line (lit "A")) ++
  (modified affected ≫= summary_line (lit "M")) ++
  (deleted affected ≫= summary_line (lit "D")).

Definition apply_patch_to_bashkit (cwd patch : str) : st fs patch_error str :=
  hunks <-! st_lift (parse_patch patch) ;;
  match hunks with
  | [] => st_lift (Err NoFilesModified)
  | _ =>
      affected <-! apply_hunks cwd {| added := []; modified := []; deleted := [] |} hunks ;;
      st_ret (print_summary affected)
  end.
End Files.
