(* ===== verification/PatchFacts.v ===== *)
(** * Patches: what the search and the replacement of lines do

    The four passes of [seek_sequence] against one specification of a match; the
    replacements a list of chunks yields, and [apply_replacements] against a
    splice of disjoint ranges; no index is ever out of range. *)

From stdpp Require Import base gmap sets list strings pretty sorting.
From Stdlib Require Import NArith ZArith Lia Strings.Byte.
From S2P Require Import Prelude Text Patch.

Local Open Scope list_scope.

(** ** Trimmed text *)

Section Trim.
Implicit Types s w : str.

Lemma trim_start_blank w s :
  Forall (fun c => is_whitespace c = true) w -> trim_start (w ++ s) = trim_start s.
Proof. induction 1 as [|c w Hc _ IH]; simpl; [done|]. by rewrite Hc. Qed.

(** What [trim_start] leaves is empty or starts with a character that is not blank. *)
Lemma trim_start_split s :
  exists w, s = w ++ trim_start s /\ Forall (fun c => is_whitespace c = true) w.
Proof.
  induction s as [|c s (w & Hs & Hw)]; simpl; [by exists []|].
  destruct (is_whitespace c) eqn:Hc; [|by exists []].
  exists (c :: w). split; [simpl; by f_equal|by constructor].
Qed.

Lemma trim_start_idem s : trim_start (trim_start s) = trim_start s.
Proof.
  induction s as [|c s IH]; simpl; [done|].
  destruct (is_whitespace c) eqn:Hc; [done|]. simpl. by rewrite Hc.
Qed.

Lemma trim_start_app s t : trim_start s <> [] -> trim_start (s ++ t) = trim_start s ++ t.
Proof.
  induction s as [|c s IH]; simpl; [done|]. destruct (is_whitespace c); [done|by simpl].
Qed.

Lemma trim_end_blank s w :
  Forall (fun c => is_whitespace c = true) w -> trim_end (s ++ w) = trim_end s.
Proof.
  intros Hw. unfold trim_end. rewrite rev_app_distr, trim_start_blank; [done|]. by apply Forall_rev.
Qed.

Lemma trim_end_split s :
  exists w, s = trim_end s ++ w /\ Forall (fun c => is_whitespace c = true) w.
Proof.
  destruct (trim_start_split (rev s)) as (w & Hs & Hw). exists (rev w). split.
  - unfold trim_end. rewrite <- rev_app_distr, <- Hs. by rewrite rev_involutive.
  - by apply Forall_rev.
Qed.

(** Trimming both ends sees only the text trimmed at its end. *)
Lemma trim_of_trim_end s : trim (trim_end s) = trim s.
Proof.
  destruct (trim_end_split s) as (w & Hs & Hw). rewrite Hs at 2. clear Hs.
  generalize (trim_end s) as t. intros t. unfold trim. fold (trim_end (trim_start t)).
  fold (trim_end (trim_start (t ++ w))).
  destruct (trim_start t) as [|c t'] eqn:Ht.
  - destruct (trim_start_split t) as (w' & Hsplit & Hw'). rewrite Ht, app_nil_r in Hsplit. subst t.
    rewrite trim_start_blank by done.
    destruct (trim_start_split w) as (w'' & Hsplit & _).
    assert (Forall (fun c => is_whitespace c = true) (trim_start w)) as Hall.
    { rewrite Hsplit in Hw. by apply Forall_app in Hw as [_ ?]. }
    by rewrite <- (app_nil_l (trim_start w)), trim_end_blank.
  - rewrite trim_start_app by congruence. rewrite Ht. by rewrite trim_end_blank.
Qed.
End Trim.

Lemma str_eqb_iff a b : str_eqb a b = true <-> a = b.
Proof.
  revert b. induction a as [|x a IH]; intros [|y b]; simpl; try done.
  rewrite andb_true_iff, IH, N.eqb_eq. naive_solver.
Qed.

(** ** Each pass accepts what the stricter ones accept *)

Lemma end_trimmed_of_exact a b : str_eqb a b = true -> same_end_trimmed a b = true.
Proof. intros ->%str_eqb_iff. by apply str_eqb_iff. Qed.

Lemma trimmed_of_end_trimmed a b : same_end_trimmed a b = true -> same_trimmed a b = true.
Proof.
  intros Heq%str_eqb_iff. apply str_eqb_iff. by rewrite <- (trim_of_trim_end a), Heq, trim_of_trim_end.
Qed.

Lemma normalized_of_trimmed a b : same_trimmed a b = true -> same_normalized a b = true.
Proof. intros Heq%str_eqb_iff. apply str_eqb_iff. unfold normalize_punctuation. by rewrite Heq. Qed.

(** ** A match of a pattern *)

(** The lines from [index] on agree with the pattern, line by line. *)
Definition matches_at (same : str -> str -> bool) (lines pattern : list str) (index : nat) : Prop :=
  Forall2 (fun line expected => same line expected = true)
    (take (length pattern) (drop index lines)) pattern.

#[export] Instance matches_at_dec same lines pattern index :
  Decision (matches_at same lines pattern index).
Proof. unfold matches_at. apply _. Defined.

Lemma matches_at_mono (same same' : str -> str -> bool) lines pattern index :
  (forall a b, same a b = true -> same' a b = true) ->
  matches_at same lines pattern index -> matches_at same' lines pattern index.
Proof. intros Hs Hm. eapply Forall2_impl; [exact Hm|]. simpl. auto. Qed.

Lemma matches_at_nil same lines index : matches_at same lines [] index.
Proof. unfold matches_at. simpl. rewrite take_0. constructor. Qed.

Lemma matches_at_cons same lines index expected pattern line :
  lines !! index = Some line ->
  matches_at same lines (expected :: pattern) index <->
  same line expected = true /\ matches_at same lines pattern (S index).
Proof.
  intros Hl. unfold matches_at. rewrite (drop_S _ _ _ Hl). simpl. by rewrite Forall2_cons.
Qed.

Section Seek.
Context {fs_error : Type}.
Local Notation patch_error := (patch_error fs_error).

(** The passes of the search, strictest first. *)
Definition passes : list (str -> str -> bool) :=
  [str_eqb; same_end_trimmed; same_trimmed; same_normalized].

Lemma slice_is_spec lines pattern index :
  index + length pattern <= length lines ->
  @slice_is fs_error lines pattern index = Ok (bool_decide (matches_at str_eqb lines pattern index)).
Proof.
  intros Hi. unfold slice_is, slice.
  replace (index <=? index + length pattern) with true by (symmetry; apply Nat.leb_le; lia).
  replace (index + length pattern <=? length lines) with true by (symmetry; apply Nat.leb_le; lia).
  cbn [andb result_bind]. f_equal. apply bool_decide_ext. unfold matches_at.
  replace (index + length pattern - index) with (length pattern) by lia.
  generalize (take (length pattern) (drop index lines)) as w. intros w. split.
  - intros ->. induction pattern; constructor; [by apply str_eqb_iff|]. apply IHpattern. simpl in Hi. lia.
  - intros Hf. clear Hi. induction Hf as [|x y l k Hxy _ IH]; [done|]. f_equal; [by apply str_eqb_iff|done].
Qed.

Lemma all_match_spec same lines pattern index :
  index + length pattern <= length lines ->
  @all_match fs_error same lines pattern index = Ok (bool_decide (matches_at same lines pattern index)).
Proof.
  revert index. induction pattern as [|expected pattern IH]; intros index Hi; cbn [all_match length] in *.
  - rewrite bool_decide_eq_true_2; [done|]. apply matches_at_nil.
  - destruct (lookup_lt_is_Some_2 lines index) as [line Hl]; [lia|].
    unfold index_at. rewrite Hl. cbn [ok_or result_bind].
    destruct (same line expected) eqn:Hs.
    + rewrite IH by lia. f_equal. apply bool_decide_ext. rewrite (matches_at_cons _ _ _ _ _ line) by done. by split; [|intros []].
    + rewrite bool_decide_eq_false_2; [done|]. rewrite (matches_at_cons _ _ _ _ _ line) by done. intros []. congruence.
Qed.

(** A range searched with a test that answers at each of its indices. *)
Lemma first_index_spec (P : nat -> Prop) `{!forall i, Decision (P i)}
    (test : nat -> result bool patch_error) from len :
  (forall i, from <= i < from + len -> test i = Ok (bool_decide (P i))) ->
  exists found, first_index test (seq from len) = Ok found /\
    match found with
    | Some i => from <= i < from + len /\ P i /\ forall j, from <= j < i -> ~ P j
    | None => forall j, from <= j < from + len -> ~ P j
    end.
Proof.
  revert from. induction len as [|len IH]; intros from Htest; cbn [seq first_index].
  - exists None. split; [done|]. lia.
  - rewrite Htest by lia. cbn [result_bind]. case_bool_decide as Hp.
    + exists (Some from). split; [done|]. split_and!; try lia. done.
    + assert (forall i, S from <= i < S from + len -> test i = Ok (bool_decide (P i))) as Htest'
        by (intros; apply Htest; lia).
      destruct (IH (S from) Htest') as (found & Hf & Hfound). rewrite Hf.
      exists found. split; [done|]. destruct found as [i|].
      * destruct Hfound as (? & ? & Hmin). split_and!; try lia; [done|].
        intros j Hj. destruct (decide (j = from)) as [->|]; [done|]. apply Hmin. lia.
      * intros j Hj. destruct (decide (j = from)) as [->|]; [done|]. apply Hfound. lia.
Qed.

(** Where a search may look: from [start], or at the very end of the file, up to the last place
    the pattern fits. *)
Definition search_start (lines pattern : list str) (start : nat) (eof : bool) : nat :=
  if eof then length lines - length pattern else start.
Definition searched (lines pattern : list str) (start : nat) (eof : bool) (i : nat) : Prop :=
  search_start lines pattern start eof <= i /\ i + length pattern <= length lines.

(** The result of a search: the first index of the strictest pass that has any. *)
Definition best_match (lines pattern : list str) (start : nat) (eof : bool) (i : nat) : Prop :=
  exists n same, passes !! n = Some same /\
    searched lines pattern start eof i /\ matches_at same lines pattern i /\
    (forall j, searched lines pattern start eof j -> j < i -> ~ matches_at same lines pattern j) /\
    (forall m stricter j, m < n -> passes !! m = Some stricter ->
       searched lines pattern start eof j -> ~ matches_at stricter lines pattern j).

(** One pass of the search. *)
Lemma pass_spec (same : str -> str -> bool) test lines pattern start eof :
  length pattern <= length lines ->
  (forall i, i + length pattern <= length lines ->
     test i = Ok (bool_decide (matches_at same lines pattern i))) ->
  exists found : option nat,
    @first_index fs_error test
      (seq (search_start lines pattern start eof)
         (S (length lines - length pattern) - search_start lines pattern start eof)) = Ok found /\
    match found with
    | Some i => searched lines pattern start eof i /\ matches_at same lines pattern i /\
                forall j, searched lines pattern start eof j -> j < i -> ~ matches_at same lines pattern j
    | None => forall j, searched lines pattern start eof j -> ~ matches_at same lines pattern j
    end.
Proof.
  intros Hlen Htest.
  destruct (first_index_spec (matches_at same lines pattern) test
              (search_start lines pattern start eof)
              (S (length lines - length pattern) - search_start lines pattern start eof))
    as (found & Hf & Hspec); [intros i Hi; apply Htest; lia|].
  exists found. split; [done|]. unfold searched. destruct found as [i|].
  - destruct Hspec as (Hi & Hm & Hmin). split_and!; try lia; [done|].
    intros j [? ?] ?. apply Hmin. lia.
  - intros j [? ?]. apply Hspec. lia.
Qed.

(** Without a match in the last pass there is none in the others. *)
Lemma pass_included n same lines pattern i :
  passes !! n = Some same -> matches_at same lines pattern i ->
  matches_at same_normalized lines pattern i.
Proof.
  intros Hn. apply matches_at_mono. intros a b.
  do 4 (destruct n as [|n]; [injection Hn as <-; eauto using end_trimmed_of_exact,
    trimmed_of_end_trimmed, normalized_of_trimmed|]). done.
Qed.

(** The search for the lines of a chunk is total and optimal: it answers the first index of the
    strictest of its four comparisons that matches anywhere in the searched range, and answers
    nothing only when no index of the range matches even up to blanks and punctuation. *)
Theorem seek_sequence_spec lines pattern start eof :
  pattern <> [] ->
  exists found, @seek_sequence fs_error lines pattern start eof = Ok found /\
    match found with
    | Some i => best_match lines pattern start eof i
    | None => forall j, searched lines pattern start eof j ->
                        ~ matches_at same_normalized lines pattern j
    end.
Proof.
  intros Hne. destruct pattern as [|p0 ps]; [done|]. unfold seek_sequence.
  set (pattern := p0 :: ps).
  destruct (length lines <? length pattern) eqn:Hlen; to_prop.
  { exists None. split; [done|]. intros j [_ Hj]. lia. }
  replace (eof && (length pattern <=? length lines)) with eof
    by (destruct eof; [symmetry; apply Nat.leb_le; lia|done]).
  fold (search_start lines pattern start eof).
  pose proof (fun same => pass_spec same (all_match same lines pattern) lines pattern start eof Hlen
                (fun i Hi => all_match_spec same lines pattern i Hi)) as Hpass.
  destruct (pass_spec str_eqb (slice_is lines pattern) lines pattern start eof) as (f0 & -> & H0);
    [done|intros; by apply slice_is_spec|].
  destruct (Hpass same_end_trimmed) as (f1 & -> & H1).
  destruct (Hpass same_trimmed) as (f2 & -> & H2).
  destruct (Hpass same_normalized) as (f3 & -> & H3). clear Hpass.
  cbn [result_bind].
  assert (forall (f : option nat) n same, passes !! n = Some same ->
    match f with
    | Some i => searched lines pattern start eof i /\ matches_at same lines pattern i /\
        forall j, searched lines pattern start eof j -> j < i -> ~ matches_at same lines pattern j
    | None => True
    end ->
    (forall m stricter j, m < n -> passes !! m = Some stricter ->
       searched lines pattern start eof j -> ~ matches_at stricter lines pattern j) ->
    match f with Some i => best_match lines pattern start eof i | None => True end) as Hbest.
  { intros [i|] n same Hn Hf Hstrict; [|done]. exists n, same. naive_solver. }
  destruct f0 as [i|].
  { exists (Some i). split; [done|]. apply (Hbest (Some i) 0 str_eqb eq_refl H0). lia. }
  destruct f1 as [i|].
  { exists (Some i). split; [done|]. apply (Hbest (Some i) 1 _ eq_refl H1).
    intros [|m] ? ? ?; [intros [= <-]; apply H0|lia]. }
  destruct f2 as [i|].
  { exists (Some i). split; [done|]. apply (Hbest (Some i) 2 _ eq_refl H2).
    intros [|[|m]] ? ? ?; [intros [= <-]; apply H0|intros [= <-]; apply H1|lia]. }
  exists f3. split; [done|]. destruct f3 as [i|]; [|done].
  apply (Hbest (Some i) 3 _ eq_refl H3).
  intros [|[|[|m]]] ? ? ?;
    [intros [= <-]; apply H0|intros [= <-]; apply H1|intros [= <-]; apply H2|lia].
Qed.
End Seek.

(** ** Replacements *)

(** The lines with disjoint ranges of them replaced: [at] lines were already passed. *)
Fixpoint splice (passed : nat) (lines : list str) (rs : list replacement) : list str :=
  match rs with
  | [] => lines
  | (start, len, new) :: rs =>
      take (start - passed) lines ++ new ++ splice (start + len) (drop (start + len - passed) lines) rs
  end.

(** The ranges are in order, disjoint and inside [total] lines. *)
Fixpoint disjoint_ranges (passed total : nat) (rs : list replacement) : Prop :=
  match rs with
  | [] => passed <= total
  | (start, len, _) :: rs => passed <= start /\ disjoint_ranges (start + len) total rs
  end.

Lemma disjoint_ranges_bound passed total rs : disjoint_ranges passed total rs -> passed <= total.
Proof.
  revert passed. induction rs as [|[[start len] new] rs IH]; intros passed; simpl; [done|].
  intros [? ?%IH]. lia.
Qed.

Section Replace.
Context {fs_error : Type}.
Local Notation patch_error := (patch_error fs_error).
Implicit Types lines new : list str.

Lemma insert_lines_app new before after :
  @insert_lines fs_error (length before) new (before ++ after) = Ok (before ++ new ++ after).
Proof.
  revert before. induction new as [|line new IH]; intros before; simpl; [done|].
  unfold vec_insert. rewrite length_app.
  replace (length before <=? length before + length after) with true by (symmetry; apply Nat.leb_le; lia).
  cbn [result_bind]. rewrite take_app_length, drop_app_length.
  replace (before ++ line :: after) with ((before ++ [line]) ++ after) by by rewrite <- app_assoc.
  replace (S (length before)) with (length (before ++ [line])) by (rewrite length_app; simpl; lia).
  rewrite IH. by rewrite <- app_assoc.
Qed.

Lemma remove_lines_app count before after :
  remove_lines count (length before) (before ++ after) = before ++ drop count after.
Proof.
  revert after. induction count as [|count IH]; intros after; simpl; [by rewrite drop_0|].
  destruct (length before <? length (before ++ after)) eqn:Hl; to_prop; rewrite length_app in Hl.
  - destruct after as [|line after]; [simpl in Hl; lia|].
    rewrite take_app_length. rewrite <- Nat.add_1_r, drop_app_add. simpl. by rewrite drop_0, IH.
  - destruct after; [|simpl in Hl; lia]. rewrite IH. by rewrite !drop_nil.
Qed.

(** One replacement, wherever it starts in the lines: the lines before it are kept, and of what
    follows at most [len] lines go. *)
Lemma apply_replacement_at start len new lines :
  start <= length lines ->
  @apply_replacement fs_error lines (start, len, new) =
    Ok (take start lines ++ new ++ drop (start + len) lines).
Proof.
  intros Hs. unfold apply_replacement. rewrite <- (take_drop start lines) at 1.
  assert (start = length (take start lines)) as Hlen by (rewrite length_take; lia).
  rewrite Hlen at 1 2. rewrite remove_lines_app, drop_drop. by rewrite insert_lines_app.
Qed.

Lemma apply_replacements_cons lines r rs :
  @apply_replacements fs_error lines (r :: rs) =
  result_bind (apply_replacements lines rs) (fun lines => apply_replacement lines r).
Proof.
  unfold apply_replacements. simpl. rewrite try_fold_app. apply result_bind_ext; [done|].
  intros a. simpl. by destruct (apply_replacement a r).
Qed.

(** Disjoint replacements, applied last first, are the splice. *)
Lemma apply_disjoint passed rs lines :
  disjoint_ranges passed (length lines) rs ->
  @apply_replacements fs_error lines rs = Ok (take passed lines ++ splice passed (drop passed lines) rs).
Proof.
  revert passed. induction rs as [|[[start len] new] rs IH]; intros passed Hd.
  - simpl. by rewrite take_drop.
  - destruct Hd as [Hle Hd]. rewrite apply_replacements_cons, (IH _ Hd). cbn [result_bind splice].
    apply disjoint_ranges_bound in Hd. rewrite apply_replacement_at.
    2: { rewrite length_app, length_take. lia. }
    f_equal. rewrite take_app_le by (rewrite length_take; lia). rewrite take_take.
    rewrite Nat.min_l by lia. rewrite drop_app_ge by (rewrite length_take; lia).
    rewrite length_take, Nat.min_l by lia. rewrite Nat.sub_diag, drop_0.
    rewrite drop_drop, (app_assoc (take passed lines)). f_equal.
    + rewrite <- (take_drop passed (take start lines)). rewrite take_take, Nat.min_l by lia.
      by rewrite skipn_firstn_comm.
    + replace (passed + (start + len - passed)) with (start + len) by lia. done.
Qed.

(** Overlapping or not, sorted replacements that start inside the file never index out of range. *)
Lemma apply_sorted_returns rs lines :
  StronglySorted (fun r r' : replacement => (Z.of_nat r.1.1 <= Z.of_nat r'.1.1)%Z) rs ->
  Forall (fun r : replacement => r.1.1 <= length lines) rs ->
  exists lines', @apply_replacements fs_error lines rs = Ok lines' /\
    (forall start, Forall (fun r : replacement => start <= r.1.1) rs -> start <= length lines ->
                   start <= length lines').
Proof.
  induction rs as [|[[start len] new] rs IH]; intros Hs Hf; [by exists lines|].
  apply StronglySorted_inv in Hs as [Hs Hfirst]. apply Forall_cons in Hf as [Hstart Hf].
  destruct (IH Hs Hf) as (mid & Hmid & Hlen). rewrite apply_replacements_cons, Hmid. cbn [result_bind].
  simpl in Hstart, Hfirst.
  assert (Forall (fun r : replacement => start <= r.1.1) rs) as Hge
    by (eapply Forall_impl; [exact Hfirst|]; simpl; lia).
  rewrite apply_replacement_at by by apply Hlen.
  eexists. split; [done|]. intros start' [Hs' _]%Forall_cons _. simpl in Hs'.
  pose proof (Hlen start Hge Hstart). rewrite length_app, length_take. lia.
Qed.
End Replace.

(** ** What a list of chunks replaces *)

(** A chunk's context moves the search on to the line after it. *)
Definition context_at (lines : list str) (k : nat) (context : option str) (k' : nat) : Prop :=
  match context with
  | None => k' = k
  | Some line => exists i, best_match lines [line] k false i /\ k' = i + 1
  end.

(** The old and new lines a chunk is looked up with: its own, or those without a last empty line
    when its own are nowhere. *)
Definition lookup_lines (lines : list str) (k : nat) (c : UpdateFileChunk) (old new : list str) : Prop :=
  (old = old_lines c /\ new = new_lines c) \/
  (old_lines c = old ++ [[]] /\
   new = (if last_is_empty (new_lines c)
          then take (length (new_lines c) - 1) (new_lines c) else new_lines c) /\
   forall j, searched lines (old_lines c) k (is_end_of_file c) j ->
             ~ matches_at same_normalized lines (old_lines c) j).

Definition insertion_index (lines : list str) : nat :=
  if last_is_empty lines then length lines - 1 else length lines.

(** Where one chunk goes when the search stands at line [k], and where it stands afterwards. *)
Inductive located (lines : list str) (k : nat) (c : UpdateFileChunk) : replacement -> nat -> Prop :=
  | located_insert k1 :
      context_at lines k (change_context c) k1 -> old_lines c = [] ->
      located lines k c (insertion_index lines, 0, new_lines c) k1
  | located_anywhere k1 new :
      context_at lines k (change_context c) k1 -> lookup_lines lines k1 c [] new ->
      old_lines c <> [] ->
      located lines k c (k1, 0, new) k1
  | located_replace k1 old new start :
      context_at lines k (change_context c) k1 -> lookup_lines lines k1 c old new -> old <> [] ->
      best_match lines old k1 (is_end_of_file c) start ->
      located lines k c (start, length old, new) (start + length old).

(** The replacements of a list of chunks, one for each, in their order. *)
Inductive located_all (lines : list str) : nat -> list UpdateFileChunk -> list replacement -> nat -> Prop :=
  | located_all_nil k : located_all lines k [] [] k
  | located_all_cons k k1 k2 c cs r rs :
      located lines k c r k1 -> located_all lines k1 cs rs k2 ->
      located_all lines k (c :: cs) (r :: rs) k2.

Lemma best_match_bounds lines old k eof i :
  best_match lines old k eof i ->
  search_start lines old k eof <= i /\ i + length old <= length lines.
Proof. intros (n & same & _ & Hs & _). exact Hs. Qed.

Lemma last_is_empty_iff lines : last_is_empty lines = true <-> exists init, lines = init ++ [[]].
Proof.
  unfold last_is_empty. destruct lines as [|x l _] using rev_ind.
  - simpl. split; [done|]. intros (init & H). by destruct init.
  - rewrite last_snoc. split.
    + destruct x; [by eexists|done].
    + intros (init & [_ [= ->]]%app_inj_tail). done.
Qed.

Lemma take_init {A} (l : list A) x : take (length (l ++ [x]) - 1) (l ++ [x]) = l.
Proof. rewrite length_app. simpl. by rewrite Nat.add_sub, take_app_length. Qed.

Lemma slice_prefix {fs_error A} (l : list A) n :
  n <= length l -> @slice fs_error A l 0 n = Ok (take n l).
Proof.
  intros Hn. unfold slice. replace (n <=? length l) with true by (symmetry; apply Nat.leb_le; lia).
  simpl. by rewrite Nat.sub_0_r, drop_0.
Qed.

Section Compute.
Context {fs_error : Type}.
Local Notation patch_error := (patch_error fs_error).

(** The error of a chunk that is not located is one of the two of the source. *)
Definition not_found (path : str) (c : UpdateFileChunk) (e : patch_error) : Prop :=
  (exists line, change_context c = Some line /\ e = ContextNotFound line path) \/
  e = LinesNotFound path (old_lines c).

Lemma context_spec lines path k (c : UpdateFileChunk) (next : nat -> result (list replacement * nat) patch_error) r :
  result_bind (match change_context c with
    | Some context_line =>
        result_bind (seek_sequence lines [context_line] k false) (fun found =>
        match found with
        | Some index => Ok (index + 1)
        | None => Err (ContextNotFound context_line path)
        end)
    | None => Ok k
    end) next = r ->
  (exists k1, context_at lines k (change_context c) k1 /\ next k1 = r) \/
  (exists e, not_found path c e /\ r = Err e).
Proof.
  unfold not_found, context_at. destruct (change_context c) as [line|]; [|intros <-; left; by exists k].
  destruct (@seek_sequence_spec fs_error lines [line] k false) as (found & Hf & Hspec); [done|].
  rewrite Hf. cbn [result_bind]. destruct found as [i|]; cbn [result_bind]; intros <-.
  - left. exists (i + 1). split; [by exists i|done].
  - right. eexists. split; [left; by exists line|done].
Qed.

Lemma seek_spec lines old k eof :
  exists found, @seek_sequence fs_error lines old k eof = Ok found /\
    match found with
    | Some i => (old = [] /\ i = k) \/ (old <> [] /\ best_match lines old k eof i)
    | None => old <> [] /\
        forall j, searched lines old k eof j -> ~ matches_at same_normalized lines old j
    end.
Proof.
  destruct (decide (old = [])) as [->|Hne]; [by exists (Some k); split; [|left]|].
  destruct (@seek_sequence_spec fs_error lines old k eof Hne) as (found & -> & Hspec).
  exists found. split; [done|]. destruct found; [by right|done].
Qed.

(** One turn of the loop: the chunk is located, or the error says what was not found. *)
Lemma locate_chunk_spec lines path replacements k c :
  match @locate_chunk fs_error lines path (replacements, k) c with
  | Ok (replacements', k') => exists r, replacements' = replacements ++ [r] /\ located lines k c r k'
  | Err e => not_found path c e
  end.
Proof.
  unfold locate_chunk. match goal with |- context [result_bind ?m ?f] => remember (result_bind m f) as r eqn:Hr end.
  symmetry in Hr. apply context_spec in Hr as [(k1 & Hctx & <-)|(e & He & ->)]; [|done].
  destruct (old_lines c) as [|l0 ls] eqn:Hold.
  { eexists. split; [done|]. by apply located_insert. }
  assert (old_lines c <> []) as Hne by congruence. rewrite <- Hold. clear Hold l0 ls.
  destruct (seek_spec lines (old_lines c) k1 (is_end_of_file c)) as (found & -> & Hfound).
  cbn [result_bind]. destruct found as [start|]; cbn [result_bind].
  { destruct Hfound as [[? _]|[_ Hbest]]; [done|]. eexists. split; [done|].
    eapply located_replace; [done|by left|done|done]. }
  destruct Hfound as [_ Hnone]. destruct (last_is_empty (old_lines c)) eqn:Hlast; cbn [result_bind];
    [|by right].
  apply last_is_empty_iff in Hlast as (old & Hold).
  rewrite slice_prefix by lia. cbn [result_bind].
  set (new := if last_is_empty (new_lines c) then take (length (new_lines c) - 1) (new_lines c)
              else new_lines c).
  assert ((if last_is_empty (new_lines c)
           then @slice fs_error _ (new_lines c) 0 (length (new_lines c) - 1)
           else Ok (new_lines c)) = Ok new) as ->.
  { unfold new. destruct (last_is_empty (new_lines c)); [|done]. apply slice_prefix. lia. }
  cbn [result_bind]. replace (take (length (old_lines c) - 1) (old_lines c)) with old
    by by rewrite Hold, take_init.
  assert (lookup_lines lines k1 c old new) as Hlook by by right.
  destruct (seek_spec lines old k1 (is_end_of_file c)) as (found & -> & Hfound).
  cbn [result_bind]. destruct found as [start|]; [|by right]. eexists. split; [done|].
  destruct Hfound as [[-> ->]|[? Hbest]].
  - simpl. rewrite Nat.add_0_r. by apply located_anywhere.
  - by eapply located_replace.
Qed.

(** The whole loop. *)
Lemma locate_all_spec lines path cs replacements k :
  match try_fold (@locate_chunk fs_error lines path) (replacements, k) cs with
  | Ok (replacements', k') =>
      exists rs, replacements' = replacements ++ rs /\ located_all lines k cs rs k'
  | Err e => exists c, c ∈ cs /\ not_found path c e
  end.
Proof.
  revert replacements k. induction cs as [|c cs IH]; intros replacements k; cbn [try_fold].
  - exists []. rewrite app_nil_r. split; [done|constructor].
  - pose proof (locate_chunk_spec lines path replacements k c) as Hc.
    destruct (locate_chunk lines path (replacements, k) c) as [[rs1 k1]|e].
    + destruct Hc as (r & -> & Hr). specialize (IH (replacements ++ [r]) k1).
      destruct (try_fold _ _ cs) as [[rs2 k2]|e].
      * destruct IH as (rs & -> & Hrs). exists (r :: rs). rewrite <- app_assoc.
        split; [done|]. by econstructor.
      * destruct IH as (c' & ? & ?). exists c'. split; [by right|done].
    + exists c. split; [by left|done].
Qed.
End Compute.

(** ** Where the replacements lie *)

Definition replaced_from (r : replacement) : Z := Z.of_nat r.1.1.
Notation in_order := (sort_by_z (fun r : replacement => Z.of_nat r.1.1)) (only parsing).

Lemma insertion_index_bound lines : insertion_index lines <= length lines.
Proof. unfold insertion_index. destruct (last_is_empty lines); lia. Qed.

Lemma context_at_bounds lines k context k1 :
  context_at lines k context k1 -> k <= length lines -> k <= k1 <= length lines.
Proof.
  destruct context as [line|]; simpl; [|intros ->; lia].
  intros (i & Hi & ->) _. apply best_match_bounds in Hi. simpl in Hi. lia.
Qed.

(** Every chunk is located inside the file. *)
Lemma located_inside lines k c r k' :
  located lines k c r k' -> k <= length lines -> r.1.1 <= length lines /\ k' <= length lines.
Proof.
  intros Hl Hk. destruct Hl as [k1 Hctx _|k1 new Hctx _ _|k1 old new start Hctx _ _ Hbest];
    apply context_at_bounds in Hctx; try done; simpl.
  - pose proof (insertion_index_bound lines). lia.
  - lia.
  - apply best_match_bounds in Hbest. lia.
Qed.

Lemma located_all_inside lines k cs rs k' :
  located_all lines k cs rs k' -> k <= length lines ->
  Forall (fun r : replacement => r.1.1 <= length lines) rs.
Proof.
  induction 1 as [|k k1 k2 c cs r rs Hl _ IH]; intros Hk; [constructor|].
  apply located_inside in Hl as [? ?]; [|done]. constructor; auto.
Qed.

(** A chunk without the end-of-file mark is located at or after the line the search stands at. *)
Lemma located_forward lines k c r k' :
  located lines k c r k' -> is_end_of_file c = false -> k <= length lines ->
  (k <= r.1.1 /\ k' = r.1.1 + r.1.2) \/
  (old_lines c = [] /\ r.1 = (insertion_index lines, 0) /\ k <= k').
Proof.
  intros Hl Heof Hk. destruct Hl as [k1 Hctx Hold|k1 new Hctx _ _|k1 old new start Hctx _ _ Hbest];
    apply context_at_bounds in Hctx; try done; simpl.
  - right. split_and!; [done|done|lia].
  - left. lia.
  - left. apply best_match_bounds in Hbest. rewrite Heof in Hbest. simpl in Hbest. lia.
Qed.

Lemma disjoint_ranges_weaken k k' total rs :
  disjoint_ranges k' total rs -> k <= k' -> disjoint_ranges k total rs.
Proof. destruct rs as [|[[start len] new] rs]; simpl; [lia|]. intros [? ?] ?. split; [lia|done]. Qed.

Lemma insert_in_front (r : replacement) total rs :
  disjoint_ranges (r.1.1 + r.1.2) total rs ->
  insert_by_z (fun r : replacement => Z.of_nat r.1.1) r rs = r :: rs.
Proof.
  destruct rs as [|[[start len] new] rs]; simpl; [done|]. intros [Hle _].
  destruct (Z.leb_spec (Z.of_nat r.1.1) (Z.of_nat start)); [done|lia].
Qed.

Lemma insert_at_end k total new rs :
  disjoint_ranges k total rs ->
  disjoint_ranges k total (insert_by_z (fun r : replacement => Z.of_nat r.1.1) (total, 0, new) rs).
Proof.
  revert k. induction rs as [|[[start len] new'] rs IH]; intros k; simpl; [lia|].
  intros [Hle Hd]. pose proof (disjoint_ranges_bound _ _ _ Hd) as Hb.
  destruct (Z.leb_spec (Z.of_nat total) (Z.of_nat start)); simpl.
  - split_and!; [lia|lia|done].
  - split; [done|]. by apply IH.
Qed.

(** Without end-of-file marks, and without insertions next to a blank last line, sorting gives
    disjoint ranges. *)
Lemma located_disjoint lines k cs rs k' :
  located_all lines k cs rs k' -> k <= length lines ->
  Forall (fun c => is_end_of_file c = false) cs ->
  last_is_empty lines = false \/ Forall (fun c => old_lines c <> []) cs ->
  disjoint_ranges k (length lines) (in_order rs).
Proof.
  induction 1 as [k|k k1 k2 c cs r rs Hl _ IH]; intros Hk Heof Hins; [done|].
  apply Forall_cons in Heof as [Hc Heof].
  assert (last_is_empty lines = false \/ Forall (fun c => old_lines c <> []) cs) as Hins'.
  { destruct Hins as [?|[_ ?]%Forall_cons]; [by left|by right]. }
  pose proof (located_inside _ _ _ _ _ Hl Hk) as [_ Hk1]. specialize (IH Hk1 Heof Hins').
  apply located_forward in Hl as [[Hle ->]|(Hold & Hr & Hle)]; [| |done..]; simpl.
  - destruct r as [[start len] new]. rewrite (insert_in_front _ (length lines)) by done. by split.
  - destruct Hins as [Hlast|[? _]%Forall_cons]; [|done].
    unfold insertion_index in Hr. rewrite Hlast in Hr.
    destruct r as [r new]. simpl in Hr. subst r. apply insert_at_end. by eapply disjoint_ranges_weaken.
Qed.

(** ** Files as lines *)

(** The text of a file whose lines all end in a line end. *)
Definition unlines (lines : list str) : str := lines ≫= (fun line => line ++ [NEWLINE]).
Definition one_line (line : str) : Prop := NEWLINE ∉ line.

Lemma unlines_cons line lines : unlines (line :: lines) = line ++ NEWLINE :: unlines lines.
Proof. unfold unlines. cbn [mbind list_bind]. by rewrite <- app_assoc. Qed.

Lemma split_newline_line line rest :
  one_line line -> split_newline (line ++ NEWLINE :: rest) = line :: split_newline rest.
Proof.
  unfold one_line. induction line as [|c line IH]; intros Hn; [done|].
  apply not_elem_of_cons in Hn as [Hc Hn]. cbn [app split_newline].
  destruct (N.eqb_spec c NEWLINE); [by subst|]. by rewrite (IH Hn).
Qed.

Lemma split_unlines lines : Forall one_line lines -> split_newline (unlines lines) = lines ++ [[]].
Proof.
  induction 1 as [|line lines Hl _ IH]; [done|]. by rewrite unlines_cons, split_newline_line, IH.
Qed.

Lemma join_unlines lines : join_newline (lines ++ [[]]) = unlines lines.
Proof.
  induction lines as [|line lines IH]; [done|]. rewrite unlines_cons, <- IH. by destruct lines.
Qed.

(** What the code writes for a list of lines: their text, less one empty line at the end. *)
Definition without_last_empty (lines : list str) : list str :=
  if last_is_empty lines then take (length lines - 1) lines else lines.

Lemma join_terminated lines :
  join_newline (if last_is_empty lines then lines else lines ++ [[]]) = unlines (without_last_empty lines).
Proof.
  unfold without_last_empty. destruct (last_is_empty lines) eqn:Hl; [|apply join_unlines].
  apply last_is_empty_iff in Hl as (init & ->). by rewrite join_unlines, take_init.
Qed.

Section Update.
Context {fs_error : Type}.
Local Notation patch_error := (patch_error fs_error).

Lemma derive_unlines path lines chunks :
  Forall one_line lines ->
  @derive_new_contents_from_chunks fs_error path (unlines lines) chunks =
  result_bind (compute_replacements lines path chunks) (fun rs =>
  result_bind (apply_replacements lines rs) (fun new => Ok (unlines (without_last_empty new)))).
Proof.
  intros Hl. unfold derive_new_contents_from_chunks. rewrite split_unlines by done.
  rewrite (proj2 (last_is_empty_iff _)) by by eexists. rewrite take_init.
  apply result_bind_ext; [done|]. intros rs. apply result_bind_ext; [done|]. intros new.
  by rewrite join_terminated.
Qed.

(** Updating a file of lines replaces exactly the lines its chunks name.  When no chunk is marked
    as the end of the file and none inserts next to a blank last line, a successful update is the
    splice of one replacement per chunk: each is found by the search from where the one before it
    ended (at the first best match of the chunk's old lines, or at the end for a pure insertion), the
    ranges are disjoint, everything outside them is kept in place, and one empty line at the very end
    is dropped.  A failed update names a chunk whose context or old lines are nowhere. *)
Theorem update_splices_chunks path lines chunks :
  Forall one_line lines ->
  Forall (fun c => is_end_of_file c = false) chunks ->
  last_is_empty lines = false \/ Forall (fun c => old_lines c <> []) chunks ->
  match @derive_new_contents_from_chunks fs_error path (unlines lines) chunks with
  | Ok contents => exists rs k,
      located_all lines 0 chunks rs k /\
      disjoint_ranges 0 (length lines) (in_order rs) /\
      contents = unlines (without_last_empty (splice 0 lines (in_order rs)))
  | Err e => exists c, c ∈ chunks /\ not_found path c e
  end.
Proof.
  intros Hl Heof Hins. rewrite derive_unlines by done. unfold compute_replacements.
  pose proof (@locate_all_spec fs_error lines path chunks [] 0) as Hall.
  destruct (try_fold _ _ _) as [[rs k]|e]; cbn [result_bind]; [|done].
  destruct Hall as (rs' & -> & Hall). cbn [app fst].
  pose proof (located_disjoint _ _ _ _ _ Hall (Nat.le_0_l _) Heof Hins) as Hd.
  rewrite (apply_disjoint 0) by done. cbn [result_bind]. rewrite take_0, drop_0. by exists rs', k.
Qed.

(** Whatever the chunks are, the update answers, with the new contents or with the chunk that was
    not found: no index is out of range. *)
Lemma update_answers path contents chunks :
  match @derive_new_contents_from_chunks fs_error path contents chunks with
  | Ok _ => True
  | Err e => exists c, c ∈ chunks /\ not_found path c e
  end.
Proof.
  unfold derive_new_contents_from_chunks.
  set (lines := if last_is_empty (split_newline contents)
                then take (length (split_newline contents) - 1) (split_newline contents)
                else split_newline contents).
  unfold compute_replacements. pose proof (@locate_all_spec fs_error lines path chunks [] 0) as Hall.
  destruct (try_fold _ _ _) as [[rs k]|e]; cbn [result_bind]; [|done].
  destruct Hall as (rs' & -> & Hall). cbn [app fst].
  apply located_all_inside in Hall as Hin; [|lia].
  destruct (@apply_sorted_returns fs_error (in_order rs') lines) as (new & -> & _); [| |done].
  - apply sort_by_z_ordered.
  - by rewrite sort_by_z_perm.
Qed.
End Update.
