(* ===== verification/PatchFormat.v ===== *)
(** * Patches: the format and its parser

    The parser never indexes out of range, its loops end, and it reads back every
    patch written in its format; what a patch then does to the files; examples. *)

From stdpp Require Import base gmap sets list strings pretty sorting.
From Stdlib Require Import NArith ZArith Lia Strings.Byte.
From S2P Require Import Prelude Text Patch PatchFacts.

Local Open Scope list_scope.

Section Regular.
Context {fs_error : Type}.
Local Notation patch_error := (patch_error fs_error).

(** ** The parser returns *)

(** An error that is neither a panic nor a loop without end. *)
Definition regular (e : patch_error) : Prop := e <> Panicked /\ e <> Looping.

(** A parse that took [n] of at least one and at most [avail] lines, or stopped with a regular error. *)
Definition consumes {A} (avail : nat) (r : result (A * nat) patch_error) : Prop :=
  match r with Ok (_, n) => 1 <= n <= avail | Err e => regular e end.

Lemma slice_from_ok {A} (l : list A) n :
  n <= length l -> @slice_from fs_error A l n = Ok (drop n l).
Proof.
  intros Hn. unfold slice_from, slice.
  replace (n <=? length l) with true by (symmetry; apply Nat.leb_le; lia). rewrite Nat.leb_refl.
  simpl. f_equal. rewrite take_ge; [done|]. rewrite length_drop. lia.
Qed.

Lemma slice_ok {A} (l : list A) n m :
  n <= m -> m <= length l -> @slice fs_error A l n m = Ok (take (m - n) (drop n l)).
Proof.
  intros Hn Hm. unfold slice.
  replace (n <=? m) with true by (symmetry; apply Nat.leb_le; lia).
  by replace (m <=? length l) with true by (symmetry; apply Nat.leb_le; lia).
Qed.

Lemma add_lines_count lines contents n :
  n <= (add_lines lines contents n).2 <= n + length lines.
Proof.
  revert contents n. induction lines as [|line lines IH]; intros contents n; cbn [add_lines length snd]; [lia|].
  destruct (strip_str_prefix (lit "+") line) as [text|]; cbn [snd]; [|lia].
  specialize (IH (contents ++ text ++ [NEWLINE]) (S n)). lia.
Qed.

Lemma chunk_lines_count line_number lines chunk n :
  match @chunk_lines fs_error line_number lines chunk n with
  | Ok (_, m) => n <= m <= n + length lines /\ (n = 0 -> lines <> [] -> 1 <= m)
  | Err e => regular e
  end.
Proof.
  revert chunk n. induction lines as [|line lines IH]; intros chunk n; simpl.
  { split; [lia|done]. }
  assert (forall chunk', match @chunk_lines fs_error line_number lines chunk' (S n) with
    | Ok (_, m) => n <= m <= n + S (length lines) /\ (n = 0 -> line :: lines <> [] -> 1 <= m)
    | Err e => regular e
    end) as Hnext.
  { intros chunk'. specialize (IH chunk' (S n)). destruct (chunk_lines _ _ _ _) as [[? m]|]; [lia|done]. }
  destruct (str_eqb line EOF_MARKER).
  { destruct (Nat.eqb_spec n 0); [by split|]. split; [lia|done]. }
  destruct line as [|c content]; [apply Hnext|].
  destruct (c =? 32)%N; [apply Hnext|]. destruct (c =? 43)%N; [apply Hnext|].
  destruct (c =? 45)%N; [apply Hnext|].
  destruct (Nat.ltb_spec 0 n); [split; lia|by split].
Qed.

Lemma parse_update_file_chunk_count lines line_number allow :
  consumes (length lines) (@parse_update_file_chunk fs_error lines line_number allow).
Proof.
  unfold parse_update_file_chunk. destruct lines as [|first rest]; [by split|].
  set (lines := first :: rest).
  match goal with |- consumes _ (result_bind ?m _) =>
    assert (match m with Ok (_, n) => n <= 1 | Err e => regular e end) as Hstart end.
  { destruct (str_eqb _ _); [lia|]. destruct (strip_str_prefix _ _); [lia|].
    destruct allow; [lia|by split]. }
  match goal with |- consumes _ (result_bind ?m _) => destruct m as [[context start]|e] end; [|done].
  cbn [result_bind]. destruct (Nat.leb_spec (length lines) start); [by split|].
  rewrite slice_from_ok by lia. cbn [result_bind].
  match goal with |- context [chunk_lines line_number ?l ?c 0] =>
    pose proof (chunk_lines_count line_number l c 0) as Hc; destruct (chunk_lines line_number l c 0) as [[chunk m]|e] end;
    [|done].
  cbn [result_bind]. unfold consumes. rewrite length_drop in Hc.
  assert (drop start lines <> []) as Hne.
  { intros Hnil. apply (f_equal length) in Hnil. rewrite length_drop in Hnil. cbn [length] in Hnil. lia. }
  destruct Hc as [Hm Hpos]. specialize (Hpos eq_refl Hne). lia.
Qed.

Lemma update_chunks_count fuel line_number lines chunks n :
  length lines <= fuel ->
  match @update_chunks fs_error fuel line_number lines chunks n with
  | Ok (_, m) => n <= m <= n + length lines
  | Err e => regular e
  end.
Proof.
  revert lines chunks n. induction fuel as [|fuel IH]; intros [|first rest] chunks n Hfuel;
    cbn [update_chunks]; simpl in Hfuel; try lia.
  destruct (trim first) as [|t0 ts].
  { specialize (IH rest chunks (S n) ltac:(lia)). destruct (update_chunks _ _ _ _ _) as [[? m]|]; [simpl; lia|done]. }
  destruct (starts_with_char 42 first); [simpl; lia|].
  match goal with |- context [parse_update_file_chunk ?l ?ln ?b] =>
    pose proof (parse_update_file_chunk_count l ln b) as Hc;
    destruct (parse_update_file_chunk l ln b) as [[chunk m]|e] end; [|done].
  unfold consumes in Hc. cbn [result_bind]. rewrite slice_from_ok by lia. cbn [result_bind].
  assert (length (drop m (first :: rest)) <= fuel) as Hle by (rewrite length_drop; simpl; lia).
  specialize (IH _ (chunks ++ [chunk]) (n + m) Hle).
  destruct (update_chunks _ _ _ _ _) as [[? k]|]; [|done]. rewrite length_drop in IH. simpl in *. lia.
Qed.

Lemma parse_one_hunk_count lines line_number :
  consumes (length lines) (@parse_one_hunk fs_error lines line_number).
Proof.
  unfold parse_one_hunk. destruct lines as [|first_line rest]; [by split|].
  destruct (strip_str_prefix ADD_FILE_MARKER _) as [path|].
  { pose proof (add_lines_count rest [] 1). destruct (add_lines rest [] 1). simpl in *. lia. }
  destruct (strip_str_prefix DELETE_FILE_MARKER _) as [path|]; [simpl; lia|].
  destruct (strip_str_prefix UPDATE_FILE_MARKER _) as [path|]; [|by split].
  destruct (head rest ≫= strip_str_prefix MOVE_TO_MARKER) as [move|] eqn:Hmove.
  - destruct rest as [|moved rest]; [done|]. cbn [drop].
    pose proof (update_chunks_count (length rest) line_number rest [] 2 (Nat.le_refl _)) as Hc.
    destruct (update_chunks _ _ _ _ _) as [[[|chunk chunks] m]|e]; simpl in *; [by split|lia|done].
  - pose proof (update_chunks_count (length rest) line_number rest [] 1 (Nat.le_refl _)) as Hc.
    destruct (update_chunks _ _ _ _ _) as [[[|chunk chunks] m]|e]; simpl in *; [by split|lia|done].
Qed.

Lemma parse_hunks_returns fuel lines line_number hunks :
  length lines <= fuel ->
  match @parse_hunks fs_error fuel lines line_number hunks with Ok _ => True | Err e => regular e end.
Proof.
  revert lines line_number hunks. induction fuel as [|fuel IH]; intros [|first rest] line_number hunks Hfuel;
    cbn [parse_hunks]; try done; simpl in Hfuel; try lia.
  pose proof (parse_one_hunk_count (first :: rest) line_number) as Hc.
  destruct (parse_one_hunk _ _) as [[hunk n]|e]; [|done]. unfold consumes in Hc. cbn [result_bind].
  rewrite slice_from_ok by lia. cbn [result_bind]. apply IH. rewrite length_drop. simpl in *. lia.
Qed.

Lemma check_start_and_end_lines_spec lines :
  match @check_start_and_end_lines fs_error lines with
  | Ok _ => 2 <= length lines
  | Err e => regular e
  end.
Proof.
  unfold check_start_and_end_lines. destruct lines as [|first rest]; [by split|].
  destruct rest as [|second rest].
  - simpl. destruct (str_eqb (trim first) BEGIN_PATCH_MARKER) eqn:Hb; simpl; [|by split].
    apply str_eqb_iff in Hb. rewrite Hb. by split.
  - destruct (last (first :: second :: rest)) as [l|]; simpl.
    + destruct (_ && _); [simpl; lia|]. by destruct (negb _).
    + by destruct (negb _).
Qed.

Lemma check_boundaries_returns lines :
  match @check_patch_boundaries_lenient fs_error lines with Ok _ => True | Err e => regular e end.
Proof.
  unfold check_patch_boundaries_lenient. pose proof (check_start_and_end_lines_spec lines) as Hc.
  destruct (check_start_and_end_lines lines) as [[]|e] eqn:Hcheck; cbn [is_ok].
  { rewrite slice_ok by lia. done. }
  destruct (is_heredoc lines) eqn:Hh; [|exact Hc].
  assert (4 <= length lines) as Hlen.
  { unfold is_heredoc in Hh. destruct lines as [|? [|? ?]]; try done. by to_prop. }
  rewrite slice_ok by lia. cbn [result_bind].
  set (inner := take _ _). pose proof (check_start_and_end_lines_spec inner) as Hi.
  destruct (check_start_and_end_lines inner) as [[]|e']; cbn [result_bind]; [|done].
  by rewrite slice_ok by lia.
Qed.

Lemma parse_patch_returns patch :
  match @parse_patch fs_error patch with Ok _ => True | Err e => regular e end.
Proof.
  unfold parse_patch. pose proof (check_boundaries_returns (lines_of (trim patch))) as Hb.
  destruct (check_patch_boundaries_lenient _) as [lines|e]; [|done]. cbn [result_bind].
  assert (match @parse_environment_id_preamble fs_error lines with Ok _ => True | Err e => regular e end) as Hp.
  { unfold parse_environment_id_preamble. destruct lines as [|first rest]; [done|].
    destruct (strip_str_prefix _ _); [|done]. destruct (trim _); [by split|].
    by rewrite slice_from_ok by (simpl; lia). }
  destruct (parse_environment_id_preamble lines) as [[[env rest] n]|e]; [|done].
  cbn [result_bind]. by apply parse_hunks_returns.
Qed.
End Regular.

(** ** The format, written *)

(** The lines of a chunk: kept, removed and added ones. *)
Inductive line_op :=
  | Keep (line : str)
  | Remove (line : str)
  | Add (line : str).

Record written_chunk := {
  context : option str;
  ops : list line_op;
  at_end : bool;
}.

Inductive written_hunk :=
  | WrittenAdd (path : str) (lines : list str)
  | WrittenDelete (path : str)
  | WrittenUpdate (path : str) (moved : option str) (chunks : list written_chunk).

Definition op_text (op : line_op) : str :=
  match op with Keep line => 32%N :: line | Remove line => 45%N :: line | Add line => 43%N :: line end.
Definition op_line (op : line_op) : str :=
  match op with Keep line | Remove line | Add line => line end.
Definition old_of (op : line_op) : list str :=
  match op with Keep line | Remove line => [line] | Add _ => [] end.
Definition new_of (op : line_op) : list str :=
  match op with Keep line | Add line => [line] | Remove _ => [] end.

Definition context_text (context : option str) : str :=
  match context with
  | None => EMPTY_CHANGE_CONTEXT_MARKER
  | Some line => CHANGE_CONTEXT_MARKER ++ line
  end.
Definition chunk_text (c : written_chunk) : list str :=
  context_text (context c) :: map op_text (ops c) ++ (if at_end c then [EOF_MARKER] else []).
Definition hunk_text (h : written_hunk) : list str :=
  match h with
  | WrittenAdd path lines => (ADD_FILE_MARKER ++ path) :: map (fun line => 43%N :: line) lines
  | WrittenDelete path => [DELETE_FILE_MARKER ++ path]
  | WrittenUpdate path moved chunks =>
      (UPDATE_FILE_MARKER ++ path) ::
      match moved with Some moved => [MOVE_TO_MARKER ++ moved] | None => [] end ++
      (chunks ≫= chunk_text)
  end.
Definition patch_lines (hunks : list written_hunk) : list str :=
  BEGIN_PATCH_MARKER :: (hunks ≫= hunk_text) ++ [END_PATCH_MARKER].

(** The patch as a text, alone or as a here-document. *)
Definition patch_text (hunks : list written_hunk) : str := join_newline (patch_lines hunks).
Definition heredoc_text (hunks : list written_hunk) : str :=
  join_newline (lit "<<EOF" :: patch_lines hunks ++ [lit "EOF"]).

(** What it stands for. *)
Definition chunk_of (c : written_chunk) : UpdateFileChunk :=
  {| change_context := context c; old_lines := ops c ≫= old_of; new_lines := ops c ≫= new_of;
     is_end_of_file := at_end c |}.
Definition hunk_of (h : written_hunk) : Hunk :=
  match h with
  | WrittenAdd path lines => AddFile path (unlines lines)
  | WrittenDelete path => DeleteFile path
  | WrittenUpdate path moved chunks => UpdateFile path moved (map chunk_of chunks)
  end.

(** A line that [str::lines] gives back, and a path that the header's trimming keeps. *)
Definition plain_line (line : str) : Prop := one_line line /\ last line <> Some RETURN.
Definition plain_path (path : str) : Prop := path <> [] /\ trim_end path = path /\ one_line path.

Definition well_written_chunk (c : written_chunk) : Prop :=
  match context c with Some line => plain_line line | None => True end /\
  ops c <> [] /\ Forall (fun op => plain_line (op_line op)) (ops c).
Definition well_written (h : written_hunk) : Prop :=
  match h with
  | WrittenAdd path lines => plain_path path /\ Forall plain_line lines
  | WrittenDelete path => plain_path path
  | WrittenUpdate path moved chunks =>
      plain_path path /\ match moved with Some moved => plain_line moved | None => True end /\
      chunks <> [] /\ Forall well_written_chunk chunks
  end.

(** ** Lines of text *)

Lemma strip_return_plain line : last line <> Some RETURN -> strip_return line = line.
Proof.
  intros Hl. unfold strip_return. destruct line as [|c line _] using rev_ind; [done|].
  rewrite rev_app_distr. simpl. rewrite last_snoc in Hl.
  by rewrite (proj2 (N.eqb_neq _ _)) by congruence.
Qed.

Lemma split_newline_one line : one_line line -> split_newline line = [line].
Proof.
  unfold one_line. induction line as [|c line IH]; [done|]. rewrite not_elem_of_cons. intros [Hc Hl].
  cbn [split_newline]. rewrite (proj2 (N.eqb_neq _ _)) by congruence. by rewrite (IH Hl).
Qed.

Lemma split_join lines :
  lines <> [] -> Forall one_line lines -> split_newline (join_newline lines) = lines.
Proof.
  intros Hne Hl. induction Hl as [|line lines Hline Hl IH]; [done|]. clear Hne.
  destruct lines as [|line' lines]; [by apply split_newline_one|].
  change (join_newline (line :: line' :: lines)) with (line ++ NEWLINE :: join_newline (line' :: lines)).
  rewrite split_newline_line by done. by rewrite IH.
Qed.

Lemma ended_lines_plain lines :
  Forall plain_line lines -> last lines <> Some [] -> ended_lines lines = lines.
Proof.
  induction 1 as [|line lines [_ Hline] Hl IH]; intros Hlast; [done|].
  destruct lines as [|line' lines]; [by destruct line|].
  change (ended_lines (line :: line' :: lines)) with (strip_return line :: ended_lines (line' :: lines)).
  rewrite strip_return_plain by done. f_equal. by apply IH.
Qed.

Lemma lines_of_join lines :
  Forall plain_line lines -> lines <> [] -> last lines <> Some [] ->
  lines_of (join_newline lines) = lines.
Proof.
  intros Hl Hne Hlast. unfold lines_of. rewrite split_join; [by apply ended_lines_plain|done|].
  eapply Forall_impl; [done|]. by intros ? [].
Qed.

Lemma strip_str_prefix_app p s : strip_str_prefix p (p ++ s) = Some s.
Proof. induction p as [|x p IH]; simpl; [by destruct s|]. by rewrite N.eqb_refl. Qed.

(** ** Header lines *)

Lemma trim_end_app s t : trim_end t <> [] -> trim_end (s ++ t) = s ++ trim_end t.
Proof.
  unfold trim_end. intros Hne. rewrite rev_app_distr, trim_start_app.
  - by rewrite rev_app_distr, rev_involutive.
  - intros Hnil. by rewrite Hnil in Hne.
Qed.

Lemma trim_starting c s : is_whitespace c = false -> trim (c :: s) = trim_end (c :: s).
Proof. intros Hc. unfold trim. simpl trim_start. by rewrite Hc. Qed.

Lemma trim_header (m path : str) c s :
  m = c :: s -> is_whitespace c = false -> plain_path path -> trim (m ++ path) = m ++ path.
Proof.
  intros -> Hc (Hne & Hend & _). simpl app. rewrite trim_starting by done.
  rewrite app_comm_cons, trim_end_app by by rewrite Hend. by rewrite Hend.
Qed.

Lemma last_of_trimmed (path : str) : trim_end path = path -> last path <> Some RETURN.
Proof.
  unfold trim_end. intros Ht Hl. destruct path as [|c path _] using rev_ind; [done|].
  rewrite last_snoc in Hl. injection Hl as ->. rewrite rev_app_distr in Ht. simpl in Ht.
  apply (f_equal length) in Ht. rewrite length_rev, length_app in Ht.
  destruct (trim_start_split (rev path)) as (w & Hs & _). apply (f_equal length) in Hs.
  rewrite length_app, length_rev in Hs. simpl in Ht. lia.
Qed.

Lemma plain_line_app (m line : str) :
  one_line m -> last m <> Some RETURN -> plain_line line -> plain_line (m ++ line).
Proof.
  intros Hm Hlm [Hl Hll]. split.
  - unfold one_line in *. set_solver.
  - rewrite last_app. by destruct (last line).
Qed.

Lemma plain_header (m path : str) :
  one_line m -> last m <> Some RETURN -> plain_path path -> plain_line (m ++ path).
Proof.
  intros ? ? (? & ? & ?). apply plain_line_app; [done|done|]. split; [done|]. by apply last_of_trimmed.
Qed.

(** Tests on the characters of a literal. *)
Ltac literal := unfold one_line; vm_compute; set_solver.

(** ** Reading the format back *)

Section RoundTrip.
Context {fs_error : Type}.
Local Notation patch_error := (patch_error fs_error).

(** Lines that end a chunk: none, or a marker. *)
Definition marker_line (marks : list char) (line : str) : Prop :=
  exists c s, line = c :: s /\ c ∈ marks /\ line <> EOF_MARKER.
Definition ends_chunk (marks : list char) (rest : list str) : Prop :=
  match rest with [] => True | line :: _ => marker_line marks line end.

Lemma ends_chunk_weaken marks marks' rest : ends_chunk marks rest -> marks ⊆ marks' -> ends_chunk marks' rest.
Proof. destruct rest; simpl; [done|]. intros (c & s & -> & ? & ?) ?. exists c, s. set_solver. Qed.

Lemma add_lines_text lines rest contents n :
  ends_chunk [42%N] rest ->
  add_lines (map (fun line => 43%N :: line) lines ++ rest) contents n =
    (contents ++ unlines lines, n + length lines).
Proof.
  intros Hrest. revert contents n. induction lines as [|line lines IH]; intros contents n.
  - cbn [map app length]. rewrite Nat.add_0_r. unfold unlines. simpl mbind. rewrite app_nil_r.
    destruct rest as [|first rest]; [done|]. destruct Hrest as (c & s & -> & Hc & _).
    by apply list_elem_of_singleton in Hc as ->.
  - cbn [map app add_lines].
    change (43%N :: line) with (lit "+" ++ line). rewrite strip_str_prefix_app, IH, unlines_cons.
    rewrite <- !app_assoc. simpl. f_equal. lia.
Qed.

Definition grown (chunk : UpdateFileChunk) (written : list line_op) : UpdateFileChunk :=
  {| change_context := change_context chunk; old_lines := old_lines chunk ++ (written ≫= old_of);
     new_lines := new_lines chunk ++ (written ≫= new_of); is_end_of_file := is_end_of_file chunk |}.

Lemma chunk_lines_ops ln written rest chunk n :
  @chunk_lines fs_error ln (map op_text written ++ rest) chunk n =
  chunk_lines ln rest (grown chunk written) (n + length written).
Proof.
  revert chunk n. induction written as [|op written IH]; intros chunk n.
  - simpl map. cbn [app length]. rewrite Nat.add_0_r. f_equal. unfold grown. simpl mbind.
    rewrite !app_nil_r. by destruct chunk.
  - cbn [map app length].
    transitivity (@chunk_lines fs_error ln (map op_text written ++ rest) (grown chunk [op]) (S n)).
    { destruct op; cbn [op_text chunk_lines];
        change EOF_MARKER with (42%N :: drop 1 EOF_MARKER); simpl str_eqb; cbn [N.eqb Pos.eqb];
        f_equal; unfold grown, push_new, push_old; simpl; by rewrite ?app_nil_r. }
    rewrite IH. f_equal; [|lia]. unfold grown. simpl. f_equal; rewrite ?app_nil_r, <- app_assoc; done.
Qed.

Lemma chunk_lines_end ln rest chunk n :
  ends_chunk [42%N; 64%N] rest -> 0 < n -> @chunk_lines fs_error ln rest chunk n = Ok (chunk, n).
Proof.
  intros Hrest Hn. destruct rest as [|line rest]; [done|]. destruct Hrest as (c & s & -> & Hc & Hne).
  cbn [chunk_lines]. destruct (str_eqb (c :: s) EOF_MARKER) eqn:He; [by apply str_eqb_iff in He|].
  rewrite (proj2 (Nat.ltb_lt 0 n) Hn).
  apply elem_of_cons in Hc as [->|Hc]; [done|]. by apply list_elem_of_singleton in Hc as ->.
Qed.

Lemma parse_chunk_text c rest ln allow :
  well_written_chunk c -> ends_chunk [42%N; 64%N] rest ->
  @parse_update_file_chunk fs_error (chunk_text c ++ rest) ln allow = Ok (chunk_of c, length (chunk_text c)).
Proof.
  intros (_ & Hops & _) Hrest. unfold parse_update_file_chunk, chunk_text. cbn [app].
  set (body := (map op_text (ops c) ++ (if at_end c then [EOF_MARKER] else [])) ++ rest).
  match goal with |- result_bind ?m _ = _ => replace m with (@Ok _ patch_error (context c, 1)) end.
  2: { unfold context_text. destruct (context c) as [line|]; [|done].
       replace (str_eqb (CHANGE_CONTEXT_MARKER ++ line) EMPTY_CHANGE_CONTEXT_MARKER) with false by done.
       by rewrite strip_str_prefix_app. }
  cbn [result_bind].
  assert (1 <= length body) as Hlen.
  { unfold body. rewrite !length_app, length_map. destruct (ops c); [done|simpl; lia]. }
  replace (length (context_text (context c) :: body) <=? 1) with false
    by (symmetry; apply Nat.leb_gt; simpl; lia).
  rewrite slice_from_ok by (simpl; lia). cbn [result_bind skipn]; rewrite ?drop_0. unfold body.
  rewrite <- app_assoc, chunk_lines_ops. cbn [Nat.add].
  assert (0 < length (ops c)) as Hpos by (destruct (ops c); [done|simpl; lia]).
  destruct (at_end c) eqn:He; cbn [app].
  - cbn [chunk_lines]. replace (str_eqb EOF_MARKER EOF_MARKER) with true by done.
    rewrite (proj2 (Nat.eqb_neq _ _)) by lia. cbn [result_bind]. f_equal. f_equal.
    + unfold chunk_of, grown, set_end_of_file. simpl. by rewrite He.
    + simpl. rewrite length_app, length_map. simpl. lia.
  - rewrite chunk_lines_end by done. cbn [result_bind]. f_equal. f_equal.
    + unfold chunk_of, grown. simpl. by rewrite He.
    + simpl. rewrite app_nil_r, length_map. lia.
Qed.

Lemma trim_nonblank c s : is_whitespace c = false -> trim (c :: s) <> [].
Proof.
  intros Hc. rewrite trim_starting by done. intros Hnil.
  destruct (trim_end_split (c :: s)) as (w & Hs & Hw). rewrite Hnil in Hs. simpl in Hs. subst w.
  apply Forall_cons in Hw as [Hw _]. congruence.
Qed.

Lemma chunk_text_head c : exists s, head (chunk_text c) = Some (64%N :: s) /\ 64%N :: s <> EOF_MARKER.
Proof. unfold chunk_text. destruct (context c); by eexists. Qed.

Lemma ends_chunk_chunks chunks rest :
  ends_chunk [42%N] rest -> ends_chunk [42%N; 64%N] ((chunks ≫= chunk_text) ++ rest).
Proof.
  intros Hrest. destruct chunks as [|c chunks]; [apply (ends_chunk_weaken [42%N]); [done|set_solver]|].
  destruct (chunk_text_head c) as (s & Hs & Hne). cbn [mbind list_bind]. destruct (chunk_text c) as [|l k]; [done|].
  injection Hs as ->. exists 64%N, s. split_and!; [done|set_solver|done].
Qed.

Lemma update_chunks_text fuel ln chunks rest acc n :
  Forall well_written_chunk chunks -> ends_chunk [42%N] rest ->
  length ((chunks ≫= chunk_text) ++ rest) <= fuel ->
  @update_chunks fs_error fuel ln ((chunks ≫= chunk_text) ++ rest) acc n =
    Ok (acc ++ map chunk_of chunks, n + length (chunks ≫= chunk_text)).
Proof.
  intros Hc Hrest. revert fuel acc n. induction Hc as [|c chunks Hc Hcs IH]; intros fuel acc n Hfuel.
  - simpl in *. rewrite app_nil_r, Nat.add_0_r. destruct rest as [|line rest]; [by destruct fuel|].
    destruct fuel as [|fuel]; [simpl in Hfuel; lia|].
    destruct Hrest as (c & s & -> & Hc' & _).
    apply list_elem_of_singleton in Hc' as ->. cbn [update_chunks].
    destruct (trim (42%N :: s)) eqn:Ht; [by apply trim_nonblank in Ht|]. done.
  - cbn [mbind list_bind] in *. rewrite <- app_assoc in *.
    destruct (chunk_text_head c) as (s & Hs & _).
    pose proof (parse_chunk_text c ((chunks ≫= chunk_text) ++ rest)) as Hparse.
    destruct (chunk_text c) as [|l k] eqn:Htext; [done|]. injection Hs as ->.
    destruct fuel as [|fuel]; [simpl in Hfuel; lia|]. cbn [app update_chunks].
    destruct (trim (64%N :: s)) eqn:Ht; [by apply trim_nonblank in Ht|].
    cbn [starts_with_char N.eqb Pos.eqb]. cbn [app] in Hparse, Hfuel.
    rewrite Hparse by (done || by apply ends_chunk_chunks). cbn [result_bind].
    rewrite slice_from_ok by (simpl; rewrite length_app; lia). cbn [result_bind length drop].
    rewrite drop_app_length. rewrite IH.
    + f_equal. f_equal; [by rewrite <- app_assoc|]. rewrite length_app. simpl. lia.
    + simpl in Hfuel. rewrite !length_app in *. lia.
Qed.

Lemma parse_hunk_text h rest ln :
  well_written h -> ends_chunk [42%N] rest ->
  @parse_one_hunk fs_error (hunk_text h ++ rest) ln = Ok (hunk_of h, length (hunk_text h)).
Proof.
  intros Hh Hrest. destruct h as [path lines|path|path moved chunks]; unfold parse_one_hunk, hunk_text; cbn [app].
  - destruct Hh as [Hpath _].
    rewrite (trim_header ADD_FILE_MARKER path 42%N (drop 1 ADD_FILE_MARKER)) by done.
    rewrite strip_str_prefix_app, add_lines_text by done. cbn [app length hunk_of]. by rewrite length_map.
  - rewrite (trim_header DELETE_FILE_MARKER path 42%N (drop 1 DELETE_FILE_MARKER)) by done.
    replace (strip_str_prefix ADD_FILE_MARKER (DELETE_FILE_MARKER ++ path)) with (@None str) by done.
    by rewrite strip_str_prefix_app.
  - destruct Hh as (Hpath & Hmoved & Hne & Hchunks).
    rewrite (trim_header UPDATE_FILE_MARKER path 42%N (drop 1 UPDATE_FILE_MARKER)) by done.
    replace (strip_str_prefix ADD_FILE_MARKER (UPDATE_FILE_MARKER ++ path)) with (@None str) by done.
    replace (strip_str_prefix DELETE_FILE_MARKER (UPDATE_FILE_MARKER ++ path)) with (@None str) by done.
    rewrite strip_str_prefix_app.
    assert (head ((chunks ≫= chunk_text) ++ rest) ≫= strip_str_prefix MOVE_TO_MARKER = None) as Hnomove.
    { destruct chunks as [|c chunks]; [done|]. cbn [mbind list_bind].
      destruct (chunk_text_head c) as (s & Hs & _). destruct (chunk_text c); [done|].
      by injection Hs as ->. }
    assert (map chunk_of chunks <> []) as Hmap by by destruct chunks.
    destruct moved as [moved|]; cbn [app head mbind option_bind].
    + rewrite strip_str_prefix_app. cbn [skipn]. rewrite ?drop_0, update_chunks_text by done.
      cbn [result_bind app length hunk_of]. by destruct (map chunk_of chunks).
    + rewrite Hnomove. rewrite update_chunks_text by done.
      cbn [result_bind app length hunk_of]. by destruct (map chunk_of chunks).
Qed.

Lemma hunk_text_head h : exists c s, head (hunk_text h) = Some (c :: s) /\ c = 42%N /\ c :: s <> EOF_MARKER /\
  strip_str_prefix ENVIRONMENT_ID_MARKER (trim_start (c :: s)) = None.
Proof. destruct h; eexists _, _; split_and!; done. Qed.

Lemma ends_chunk_hunks hunks : ends_chunk [42%N] (hunks ≫= hunk_text).
Proof.
  destruct hunks as [|h hunks]; [done|]. destruct (hunk_text_head h) as (c & s & Hs & -> & Hne & _).
  cbn [mbind list_bind]. destruct (hunk_text h); [done|]. injection Hs as ->.
  exists 42%N, s. split_and!; [done|set_solver|done].
Qed.

Lemma parse_hunks_text fuel ln hunks acc :
  Forall well_written hunks -> length (hunks ≫= hunk_text) <= fuel ->
  @parse_hunks fs_error fuel (hunks ≫= hunk_text) ln acc = Ok (acc ++ map hunk_of hunks).
Proof.
  intros Hh. revert fuel ln acc. induction Hh as [|h hunks Hh Hhs IH]; intros fuel ln acc Hfuel.
  - simpl. rewrite app_nil_r. by destruct fuel.
  - cbn [mbind list_bind] in *. destruct (hunk_text_head h) as (c & s & Hs & _).
    pose proof (parse_hunk_text h (hunks ≫= hunk_text) ln Hh (ends_chunk_hunks hunks)) as Hparse.
    destruct (hunk_text h) as [|l k] eqn:Htext; [done|].
    destruct fuel as [|fuel]; [simpl in Hfuel; lia|]. cbn [app parse_hunks] in *.
    rewrite Hparse. cbn [result_bind]. rewrite slice_from_ok by (simpl; rewrite length_app; lia).
    cbn [result_bind length skipn]. rewrite drop_app_length, IH.
    + simpl. by rewrite <- app_assoc.
    + simpl in Hfuel. rewrite length_app in Hfuel. lia.
Qed.

(** ** Whole patches *)

Lemma slice_body {A} first last (body : list A) :
  @slice fs_error A (first :: body ++ [last]) 1 (length (first :: body ++ [last]) - 1) = Ok body.
Proof.
  cbn [length]. rewrite length_app. cbn [length].
  rewrite slice_ok by (simpl; rewrite ?length_app; simpl; lia). f_equal.
  replace (S (length body + 1) - 1 - 1) with (length body) by lia. cbn [skipn]. rewrite ?drop_0.
  apply take_app_length.
Qed.

Lemma check_patch_lines hunks : @check_start_and_end_lines fs_error (patch_lines hunks) = Ok tt.
Proof.
  unfold check_start_and_end_lines, patch_lines. rewrite app_comm_cons, last_snoc.
  cbn [app head fmap option_fmap option_map]. by vm_compute.
Qed.

Lemma plain_hunk_text h : well_written h -> Forall plain_line (hunk_text h).
Proof.
  assert (forall c line, plain_line line -> c <> NEWLINE -> c <> RETURN -> plain_line (c :: line)) as Hcons.
  { intros c line Hl Hc Hr. apply (plain_line_app [c]); [|simpl; congruence|done].
    unfold one_line. by rewrite list_elem_of_singleton. }
  destruct h as [path lines|path|path moved chunks]; cbn [hunk_text well_written].
  - intros [Hpath Hlines]. constructor; [apply plain_header; [literal|done|done]|].
    apply Forall_map. eapply Forall_impl; [done|]. intros line Hl. by apply Hcons.
  - intros Hpath. constructor; [apply plain_header; [literal|done|done]|constructor].
  - intros (Hpath & Hmoved & _ & Hchunks). constructor; [apply plain_header; [literal|done|done]|].
    apply Forall_app. split.
    { destruct moved as [moved|]; [|constructor]. constructor; [|constructor].
      apply plain_line_app; [literal|done|done]. }
    induction Hchunks as [|c chunks (Hctx & _ & Hops) _ IH]; [constructor|].
    cbn [mbind list_bind]. unfold chunk_text at 1. cbn [app]. constructor.
    { unfold context_text. destruct (context c); [|split; [literal|done]].
      apply plain_line_app; [literal|done|done]. }
    rewrite <- app_assoc. apply Forall_app. split; [|apply Forall_app; split; [|done]].
    + apply Forall_map. eapply Forall_impl; [done|]. intros op Hop.
      destruct op; simpl in *; by apply Hcons.
    + destruct (at_end c); repeat constructor; [literal|done].
Qed.

Lemma plain_patch_lines hunks : Forall well_written hunks -> Forall plain_line (patch_lines hunks).
Proof.
  intros Hh. unfold patch_lines. constructor; [split; [literal|done]|]. apply Forall_app. split.
  - induction Hh; simpl; [constructor|]. apply Forall_app. split; [by apply plain_hunk_text|done].
  - constructor; [split; [literal|done]|constructor].
Qed.

Lemma join_starts (line : str) lines : exists s, join_newline (line :: lines) = line ++ s.
Proof. destruct lines; [exists []; simpl; by rewrite app_nil_r|by eexists]. Qed.

Lemma join_ends lines (line : str) : exists s, join_newline (lines ++ [line]) = s ++ line.
Proof.
  induction lines as [|l lines (s & IH)]; [by exists []|].
  exists (l ++ NEWLINE :: s). cbn [app join_newline]. rewrite <- app_assoc. cbn [app]. rewrite <- IH.
  by destruct lines.
Qed.

(** A text between two visible characters is not trimmed. *)
Lemma trim_lines c first lines body d :
  visible c -> visible d -> trim (join_newline ((c :: first) :: lines ++ [body ++ [d]])) =
                            join_newline ((c :: first) :: lines ++ [body ++ [d]]).
Proof.
  intros Hc Hd. destruct (join_starts (c :: first) (lines ++ [body ++ [d]])) as (s & Hs).
  destruct (join_ends ((c :: first) :: lines) (body ++ [d])) as (s' & Hs'). cbn [app] in Hs'.
  rewrite Hs. apply (trim_edges c (first ++ s) d (s' ++ body)); [done|done|].
  change (c :: first ++ s) with ((c :: first) ++ s). rewrite <- Hs, Hs'. apply app_assoc.
Qed.

Lemma parse_body hunks :
  Forall well_written hunks ->
  result_bind (@parse_environment_id_preamble fs_error (hunks ≫= hunk_text)) (fun preamble =>
    let '(_, remaining_lines, line_number) := preamble in
    parse_hunks (length remaining_lines) remaining_lines line_number []) = Ok (map hunk_of hunks).
Proof.
  intros Hh. unfold parse_environment_id_preamble.
  assert (match hunks ≫= hunk_text with
          | [] => True
          | first :: _ => strip_str_prefix ENVIRONMENT_ID_MARKER (trim_start first) = None
          end) as Hfirst.
  { destruct hunks as [|h hunks]; [done|]. destruct (hunk_text_head h) as (c & s & Hs & _ & _ & Hn).
    cbn [mbind list_bind]. destruct (hunk_text h); [done|]. by injection Hs as ->. }
  pose proof (fun ln => parse_hunks_text (length (hunks ≫= hunk_text)) ln hunks [] Hh (Nat.le_refl _)) as Hp.
  destruct (hunks ≫= hunk_text) as [|first rest]; [exact (Hp 2)|].
  rewrite Hfirst. cbn [result_bind]. by rewrite Hp.
Qed.

(** C32 - The parser reads back every patch of the format: the hunks written one after another between
    the two markers, with added lines, removed and kept lines, contexts, end-of-file marks and moves,
    are exactly the hunks it returns, whether the patch stands alone or in a here-document. *)
Theorem parse_patch_text hunks :
  Forall well_written hunks ->
  @parse_patch fs_error (patch_text hunks) = Ok (map hunk_of hunks) /\
  @parse_patch fs_error (heredoc_text hunks) = Ok (map hunk_of hunks).
Proof.
  intros Hh. pose proof (plain_patch_lines hunks Hh) as Hplain.
  assert (last (patch_lines hunks) = Some END_PATCH_MARKER) as Hlast.
  { unfold patch_lines. by rewrite app_comm_cons, last_snoc. }
  split; unfold parse_patch.
  - unfold patch_text. assert (trim (join_newline (patch_lines hunks)) = join_newline (patch_lines hunks)) as ->.
    { apply (trim_lines 42%N (drop 1 BEGIN_PATCH_MARKER) (hunks ≫= hunk_text)
               (take 12 END_PATCH_MARKER) 104%N); done. }
    rewrite lines_of_join by (done || by rewrite Hlast).
    unfold check_patch_boundaries_lenient. rewrite check_patch_lines. cbn [is_ok].
    unfold patch_lines. rewrite slice_body. cbn [result_bind]. by apply parse_body.
  - unfold heredoc_text. set (lines := lit "<<EOF" :: patch_lines hunks ++ [lit "EOF"]).
    assert (trim (join_newline lines) = join_newline lines) as ->.
    { apply (trim_lines 60%N (drop 1 (lit "<<EOF")) (patch_lines hunks) (lit "EO") 70%N); done. }
    assert (last lines = Some (lit "EOF")) as Hend by (unfold lines; by rewrite app_comm_cons, last_snoc).
    rewrite lines_of_join; [|constructor; [split; [literal|done]|]|done|by rewrite Hend].
    2: { apply Forall_app. split; [done|]. constructor; [split; [literal|done]|constructor]. }
    unfold check_patch_boundaries_lenient.
    assert (@check_start_and_end_lines fs_error lines = Err FirstLineNotBegin) as ->.
    { unfold check_start_and_end_lines. rewrite Hend. by vm_compute. }
    assert (is_heredoc lines = true) as ->.
    { unfold is_heredoc. rewrite Hend. unfold lines, patch_lines. cbn [app].
      replace (existsb _ _) with true by done. replace (ends_with _ _) with true by done.
      apply Nat.leb_le. simpl. rewrite !length_app. simpl. lia. }
    cbn [is_ok]. unfold lines. rewrite slice_body. cbn [result_bind]. rewrite check_patch_lines.
    cbn [result_bind]. unfold patch_lines. rewrite slice_body. cbn [result_bind]. by apply parse_body.
Qed.
End RoundTrip.

(** * Patches: what becomes of the files

    Text through its UTF-8 bytes and back, and the changes a patch makes to the
    files of a lawful file system, against a specification on the map of files. *)

Local Open Scope list_scope.
Local Open Scope N_scope.

(** ** UTF-8 *)

(** A Unicode scalar value, which a [char] is. *)
Definition scalar (c : char) : Prop := (c < 55296 \/ 57344 <= c < 1114112)%N.

(** What the strict decoder accepts is what the lossy one reads. *)
Lemma in_range_iff lo hi b : in_range lo hi b = true <-> (lo <= Byte.to_N b <= hi)%N.
Proof. unfold in_range. rewrite andb_true_iff, !N.leb_le. done. Qed.

Lemma byte_of_N n : (n < 256)%N -> exists b, Byte.of_N n = Some b /\ Byte.to_N b = n.
Proof.
  intros Hn. destruct (Byte.of_N n) as [b|] eqn:Hb.
  - exists b. split; [done|]. by apply Byte.to_of_N.
  - apply Byte.of_N_None_iff in Hb. lia.
Qed.

Lemma tail_bits_of b n : Byte.to_N b = (128 + n)%N -> (n < 64)%N -> tail_bits b = n.
Proof.
  intros Hb Hn. unfold tail_bits. rewrite Hb. change 63%N with (N.ones 6). rewrite N.land_ones.
  change (2 ^ 6)%N with 64%N. symmetry. apply (N.mod_unique _ _ 2); lia.
Qed.

Lemma lead_bits b k m n :
  Byte.to_N b = (m * 2 ^ k + n)%N -> (n < 2 ^ k)%N -> N.land (Byte.to_N b) (N.ones k) = n.
Proof. intros -> Hn. rewrite N.land_ones. symmetry. apply (N.mod_unique _ _ m); lia. Qed.

(** Introduces the byte of a value, with its value. *)
Ltac encode_byte n b :=
  let Hb := fresh "Hb" in let Hv := fresh "Hv" in
  destruct (byte_of_N n) as (b & Hb & Hv); [lia|]; rewrite Hb.
(** Decides a range test from the values of the bytes. *)
Ltac inside t := replace t with true by (symmetry; apply in_range_iff; lia).
Ltac outside t := replace t with false by (symmetry; apply not_true_iff_false; rewrite in_range_iff; lia).

Section Characters.

(** The sequences of two, three and four bytes, by the digits of the character in base 64. *)
Lemma lossy_two q m l :
  2 <= q < 32 -> m < 64 ->
  from_utf8_lossy (omap Byte.of_N [192 + q; 128 + m] ++ l) = (64 * q + m) :: from_utf8_lossy l.
Proof.
  intros Hq Hm. cbn [omap list_omap]. encode_byte (192 + q) b0. encode_byte (128 + m) b1.
  cbn [app from_utf8_lossy]. rewrite (proj2 (N.ltb_ge (Byte.to_N b0) 128)) by lia.
  inside (in_range 194 223 b0). inside (in_range 128 191 b1).
  rewrite (tail_bits_of b1 m) by lia. change 31 with (N.ones 5).
  rewrite (lead_bits b0 5 6 q) by (simpl; lia). f_equal. lia.
Qed.

Lemma lossy_three p q m l :
  scalar (4096 * p + 64 * q + m) -> 2048 <= 4096 * p + 64 * q + m -> p < 16 -> q < 64 -> m < 64 ->
  from_utf8_lossy (omap Byte.of_N [224 + p; 128 + q; 128 + m] ++ l) =
    (4096 * p + 64 * q + m) :: from_utf8_lossy l.
Proof.
  unfold scalar. intros Hs Hc Hp Hq Hm. cbn [omap list_omap].
  encode_byte (224 + p) b0. encode_byte (128 + q) b1. encode_byte (128 + m) b2.
  cbn [app from_utf8_lossy]. rewrite (proj2 (N.ltb_ge (Byte.to_N b0) 128)) by lia.
  outside (in_range 194 223 b0). inside (in_range 224 239 b0).
  replace (second_ok (Byte.to_N b0) b1) with true.
  2: { symmetry. unfold second_ok.
       repeat match goal with |- context [N.eqb ?a ?b] => destruct (N.eqb_spec a b) end;
         apply in_range_iff; lia. }
  inside (in_range 128 191 b2).
  rewrite (tail_bits_of b1 q), (tail_bits_of b2 m) by lia.
  change 15 with (N.ones 4). rewrite (lead_bits b0 4 14 p) by (simpl; lia). f_equal. lia.
Qed.

Lemma lossy_four o p q m l :
  65536 <= 262144 * o + 4096 * p + 64 * q + m < 1114112 -> p < 64 -> q < 64 -> m < 64 ->
  from_utf8_lossy (omap Byte.of_N [240 + o; 128 + p; 128 + q; 128 + m] ++ l) =
    (262144 * o + 4096 * p + 64 * q + m) :: from_utf8_lossy l.
Proof.
  intros Hc Hp Hq Hm. cbn [omap list_omap].
  encode_byte (240 + o) b0. encode_byte (128 + p) b1. encode_byte (128 + q) b2. encode_byte (128 + m) b3.
  cbn [app from_utf8_lossy]. rewrite (proj2 (N.ltb_ge (Byte.to_N b0) 128)) by lia.
  outside (in_range 194 223 b0). outside (in_range 224 239 b0). inside (in_range 240 244 b0).
  replace (second_ok (Byte.to_N b0) b1) with true.
  2: { symmetry. unfold second_ok.
       repeat match goal with |- context [N.eqb ?a ?b] => destruct (N.eqb_spec a b) end;
         apply in_range_iff; lia. }
  inside (in_range 128 191 b2). inside (in_range 128 191 b3).
  rewrite (tail_bits_of b1 p), (tail_bits_of b2 q), (tail_bits_of b3 m) by lia.
  change 7 with (N.ones 3). rewrite (lead_bits b0 3 30 o) by (simpl; lia). f_equal. lia.
Qed.

(** A character and its digits. *)
Lemma digits n : exists q m, n = 64 * q + m /\ m < 64 /\ n / 64 = q /\ n mod 64 = m.
Proof.
  exists (n / 64), (n mod 64). split_and!; [apply N.div_mod'|by apply N.mod_lt|done|done].
Qed.

Lemma from_utf8_lossy_char c l :
  scalar c -> from_utf8_lossy (omap Byte.of_N (encode_char c) ++ l) = c :: from_utf8_lossy l.
Proof.
  intros Hs. unfold encode_char.
  destruct (N.ltb_spec c 128) as [H1|H1].
  { cbn [omap list_omap]. encode_byte c b. cbn [app from_utf8_lossy]. rewrite Hv.
    by rewrite (proj2 (N.ltb_lt _ _) H1). }
  assert (c / 4096 = c / 64 / 64) as -> by by rewrite N.Div0.div_div.
  assert (c / 262144 = c / 64 / 64 / 64) as -> by by rewrite !N.Div0.div_div.
  destruct (digits c) as (q & m & Hc & Hm & -> & ->).
  destruct (N.ltb_spec c 2048) as [H2|H2]; [rewrite lossy_two by lia; by f_equal|].
  destruct (digits q) as (p & q0 & Hq & Hq0 & -> & ->).
  destruct (N.ltb_spec c 65536) as [H3|H3].
  { assert (c = 4096 * p + 64 * q0 + m) as -> by lia. rewrite lossy_three by (done || lia). done. }
  destruct (digits p) as (o & p0 & Hp & Hp0 & -> & ->).
  assert (c = 262144 * o + 4096 * p0 + 64 * q0 + m) as -> by lia.
  rewrite lossy_four by (unfold scalar in Hs; lia). done.
Qed.
End Characters.

(** Text written to a file is read back. *)
Lemma utf8_roundtrip s : Forall scalar s -> from_utf8_lossy (into_bytes s) = s.
Proof.
  unfold into_bytes. induction 1 as [|c s Hc _ IH]; [done|].
  cbn [mbind list_bind]. by rewrite omap_app, from_utf8_lossy_char, IH.
Qed.

(** ** What a file system promises *)

(** The regular files of a state, and what each call does to them: a call that fails, reads or makes
    directories leaves them as they are. *)
Class BashkitLaws `{BashkitFileSystem} := {
  files : fs -> gmap str bytes;
  stat_files p s : files (fs_stat_is_dir p s).1 = files s;
  read_files p s : files (fs_read_file p s).1 = files s;
  read_ok p s s' b : fs_read_file p s = (s', Ok b) -> files s !! p = Some b;
  write_ok p b s s' u : fs_write_file p b s = (s', Ok u) -> files s' = <[p := b]> (files s);
  write_err p b s s' e : fs_write_file p b s = (s', Err e) -> files s' = files s;
  mkdir_files p r s : files (fs_mkdir p r s).1 = files s;
  remove_ok p s s' u : fs_remove p false s = (s', Ok u) -> files s' = delete p (files s);
  remove_err p s s' e : fs_remove p false s = (s', Err e) -> files s' = files s;
}.

Section Effects.
Context `{BashkitLaws}.
Local Notation patch_error := (patch_error fs_error).

(** The effect of a hunk on the files: [None] when it does not apply to them. *)
Definition hunk_effect (cwd : str) (m : gmap str bytes) (hunk : Hunk) : option (gmap str bytes) :=
  match hunk with
  | AddFile path contents => Some (<[resolve_virtual_path cwd path := into_bytes contents]> m)
  | DeleteFile path => Some (delete (resolve_virtual_path cwd path) m)
  | UpdateFile path move_path chunks =>
      let source := resolve_virtual_path cwd path in
      old ← m !! source;
      match @derive_new_contents_from_chunks fs_error source (from_utf8_lossy old) chunks with
      | Err _ => None
      | Ok contents =>
          Some (match move_path with
                | Some dest => delete source (<[resolve_virtual_path cwd dest := into_bytes contents]> m)
                | None => <[source := into_bytes contents]> m
                end)
      end
  end.

(** What a failing hunk may leave behind: nothing, or the copy of a move whose original stays. *)
Definition failed_effect (cwd : str) (m : gmap str bytes) (hunk : Hunk) (m' : gmap str bytes) : Prop :=
  m' = m \/
  exists path dest chunks old contents,
    hunk = UpdateFile path (Some dest) chunks /\ m !! resolve_virtual_path cwd path = Some old /\
    @derive_new_contents_from_chunks fs_error (resolve_virtual_path cwd path) (from_utf8_lossy old) chunks
      = Ok contents /\
    m' = <[resolve_virtual_path cwd dest := into_bytes contents]> m.

Lemma st_map_err_ok {S E F A} (f : E -> F) (m : st S E A) s s' a :
  st_map_err f m s = (s', Ok a) <-> m s = (s', Ok a).
Proof. unfold st_map_err. destruct (m s) as [s1 [a1|e1]]; simpl; naive_solver. Qed.

Lemma st_map_err_err {S E F A} (f : E -> F) (m : st S E A) s s' e :
  st_map_err f m s = (s', Err e) <-> exists e0, m s = (s', Err e0) /\ e = f e0.
Proof. unfold st_map_err. destruct (m s) as [s1 [a1|e1]]; simpl; naive_solver. Qed.

(** The calls built from those of the file system keep the same promises. *)
Lemma ensure_files p s : files (ensure_not_directory p s).1 = files s.
Proof.
  unfold ensure_not_directory, st_bind. pose proof (stat_files p s) as Hs.
  destruct (fs_stat_is_dir p s) as [s1 [[]|e]]; exact Hs.
Qed.

Lemma read_text_files p s : files (read_text_file p s).1 = files s.
Proof.
  unfold read_text_file, st_bind. pose proof (read_files p s) as Hs.
  destruct (fs_read_file p s) as [s1 [b|e]]; exact Hs.
Qed.

Lemma read_text_ok p s s' text :
  read_text_file p s = (s', Ok text) -> exists b, files s !! p = Some b /\ text = from_utf8_lossy b.
Proof. unfold read_text_file. intros Hr. st_inv. apply read_ok in Hrun. by exists a. Qed.

Lemma write_retry_ok p b s s' u :
  write_file_with_missing_parent_retry p b s = (s', Ok u) -> files s' = <[p := b]> (files s).
Proof.
  unfold write_file_with_missing_parent_retry.
  destruct (fs_write_file p b s) as [s1 [[]|e]] eqn:Hw.
  { intros [= <- _]. by eapply write_ok. }
  destruct (io_not_found e); [|done]. intros Hr. apply st_bind_ok in Hr as (s2 & v & Hm & Hr).
  apply write_ok in Hr as ->. apply write_err in Hw as <-. f_equal.
  destruct (path_parent p) as [d|]; [|by injection Hm as <-].
  pose proof (mkdir_files d true s1) as Hmk. by rewrite Hm in Hmk.
Qed.

Lemma write_retry_err p b s s' e :
  write_file_with_missing_parent_retry p b s = (s', Err e) -> files s' = files s.
Proof.
  unfold write_file_with_missing_parent_retry.
  destruct (fs_write_file p b s) as [s1 [[]|e1]] eqn:Hw; [done|]. apply write_err in Hw as Hs.
  destruct (io_not_found e1); [|by intros [= <- _]].
  intros Hr. apply st_bind_err in Hr as [Hm|(s2 & v & Hm & Hr)].
  - destruct (path_parent p) as [d|]; [|done]. pose proof (mkdir_files d true s1) as Hmk.
    rewrite Hm in Hmk. simpl in Hmk. congruence.
  - apply write_err in Hr as ->. rewrite <- Hs.
    destruct (path_parent p) as [d|]; [|by injection Hm as <-].
    pose proof (mkdir_files d true s1) as Hmk. by rewrite Hm in Hmk.
Qed.

(** Rewrites the files after a call that leaves them alone. *)
Ltac same_files :=
  repeat match goal with
  | H : ensure_not_directory ?p ?s = (?s', _) |- _ =>
      let Hf := fresh "Hf" in pose proof (ensure_files p s) as Hf; rewrite H in Hf; cbn [fst] in Hf; clear H
  | H : read_text_file ?p ?s = (?s', Err _) |- _ =>
      let Hf := fresh "Hf" in pose proof (read_text_files p s) as Hf; rewrite H in Hf; cbn [fst] in Hf; clear H
  | H : read_text_file ?p ?s = (?s', Ok _) |- _ =>
      let Hf := fresh "Hf" in pose proof (read_text_files p s) as Hf; rewrite H in Hf; cbn [fst] in Hf;
      apply read_text_ok in H as (? & ? & ->)
  | H : st_map_err _ _ _ = (_, Ok _) |- _ => apply st_map_err_ok in H
  | H : st_map_err _ _ _ = (_, Err _) |- _ => apply st_map_err_err in H as (? & H & ->)
  | H : write_file_with_missing_parent_retry _ _ _ = (_, Ok _) |- _ => apply write_retry_ok in H
  | H : write_file_with_missing_parent_retry _ _ _ = (_, Err _) |- _ => apply write_retry_err in H
  | H : fs_write_file _ _ _ = (_, Ok _) |- _ => apply write_ok in H
  | H : fs_write_file _ _ _ = (_, Err _) |- _ => apply write_err in H
  | H : fs_remove _ _ _ = (_, Ok _) |- _ => apply remove_ok in H
  | H : fs_remove _ _ _ = (_, Err _) |- _ => apply remove_err in H
  end.

Lemma apply_hunk_ok cwd affected hunk s s' affected' :
  apply_hunk cwd affected hunk s = (s', Ok affected') ->
  hunk_effect cwd (files s) hunk = Some (files s').
Proof.
  destruct hunk as [path contents|path|path [dest|] chunks]; unfold apply_hunk; intros Hr; st_inv; same_files;
    unfold hunk_effect;
    try match goal with H : files _ !! _ = Some _ |- _ => rewrite H end;
    cbn [mbind option_bind]; try rewrite Hlift; congruence.
Qed.

Lemma apply_hunk_err cwd affected hunk s s' e :
  apply_hunk cwd affected hunk s = (s', Err e) -> failed_effect cwd (files s) hunk (files s').
Proof.
  destruct hunk as [path contents|path|path [dest|] chunks]; unfold apply_hunk; intros Hr; st_inv; same_files;
    try (left; congruence);
    right; eexists path, dest, chunks, _, _; (split_and!; [done|eassumption|eassumption|congruence]).
Qed.

(** The paths a list of hunks reports. *)
Definition reported (affected : AffectedPaths) (hunks : list Hunk) : AffectedPaths :=
  {| added := added affected ++ omap (fun h => match h with AddFile _ _ => Some (hunk_path h) | _ => None end) hunks;
     modified := modified affected ++
       omap (fun h => match h with UpdateFile _ _ _ => Some (hunk_path h) | _ => None end) hunks;
     deleted := deleted affected ++
       omap (fun h => match h with DeleteFile _ => Some (hunk_path h) | _ => None end) hunks |}.

Lemma apply_hunk_reports cwd affected hunk s s' affected' :
  apply_hunk cwd affected hunk s = (s', Ok affected') -> affected' = reported affected [hunk].
Proof.
  destruct hunk as [path contents|path|path [dest|] chunks]; unfold apply_hunk; intros Hr; st_inv;
    unfold reported; simpl; by rewrite ?app_nil_r.
Qed.

(** The effects of hunks one after the other. *)
Fixpoint effects (cwd : str) (m : gmap str bytes) (hunks : list Hunk) : option (gmap str bytes) :=
  match hunks with
  | [] => Some m
  | hunk :: hunks => m' ← hunk_effect cwd m hunk; effects cwd m' hunks
  end.

Lemma apply_hunks_spec cwd affected hunks s :
  match apply_hunks cwd affected hunks s with
  | (s', Ok affected') =>
      effects cwd (files s) hunks = Some (files s') /\ affected' = reported affected hunks
  | (s', Err _) =>
      exists done hunk rest m, hunks = done ++ hunk :: rest /\
        effects cwd (files s) done = Some m /\ failed_effect cwd m hunk (files s')
  end.
Proof.
  revert affected s. induction hunks as [|hunk hunks IH]; intros affected s; cbn [apply_hunks].
  - split; [done|]. unfold reported. simpl. rewrite !app_nil_r. by destruct affected.
  - unfold st_bind. destruct (apply_hunk cwd affected hunk s) as [s1 [affected1|e]] eqn:Hh.
    + apply apply_hunk_ok in Hh as Heff. apply apply_hunk_reports in Hh as ->.
      specialize (IH (reported affected [hunk]) s1).
      destruct (apply_hunks _ _ hunks s1) as [s2 [affected2|e]].
      * destruct IH as [He ->]. cbn [effects]. rewrite Heff. split; [done|].
        unfold reported. simpl. by destruct hunk; rewrite ?app_nil_r, <- ?app_assoc.
      * destruct IH as (ok & h & rest & m & -> & He & Hf). exists (hunk :: ok), h, rest, m.
        split_and!; [done| |done]. cbn [effects]. by rewrite Heff.
    + exists [], hunk, hunks, (files s). split_and!; [done|done|]. by eapply apply_hunk_err.
Qed.

End Effects.

(** ** The tool returns *)

Section Returns.
Context `{BashkitFileSystem}.

(** The patch tool always answers: for every text, every directory and every file system, no
    index of the parser or of the line replacement is out of range, its [unreachable!] is not reached
    and all its loops end. *)
Theorem apply_patch_returns cwd patch s :
  match apply_patch_to_bashkit cwd patch s with
  | (_, Ok _) => True
  | (_, Err e) => e <> Panicked /\ e <> Looping
  end.
Proof.
  destruct (apply_patch_to_bashkit cwd patch s) as [s' [answer|e]] eqn:Hr; [done|].
  unfold apply_patch_to_bashkit in Hr. apply st_bind_err in Hr as [Hr|(s1 & hunks & Hp & Hr)].
  { apply st_lift_err in Hr as [_ Hr]. pose proof (@parse_patch_returns fs_error patch) as Hreg.
    rewrite Hr in Hreg. exact Hreg. }
  destruct hunks as [|h0 hs]; [by apply st_lift_err in Hr as [_ [= <-]]|].
  apply st_bind_err in Hr as [Hr|(s2 & affected & _ & Hr)]; [|done]. clear Hp.
  revert s1 Hr. generalize {| added := []; modified := []; deleted := [] |}.
  induction (h0 :: hs) as [|hunk hunks IH]; intros affected s1 Hr; [done|].
  cbn [apply_hunks] in Hr. apply st_bind_err in Hr as [Hr|(s2 & affected' & _ & Hr)]; [|by eapply IH].
  destruct hunk as [path contents|path|path [dest|] chunks]; unfold apply_hunk in Hr; st_inv;
    try (apply st_map_err_err in Hr as (? & _ & ->); done);
    pose proof (@update_answers fs_error (resolve_virtual_path cwd path) a chunks) as Hans;
    rewrite Hlift in Hans; destruct Hans as (c & _ & [(line & _ & ->)| ->]); done.
Qed.
End Returns.

(** * Patches: concrete runs

    A file system in memory, the theorems applied to small patches, and three
    patches that succeed and lose lines or files. *)

Local Close Scope N_scope.
Local Open Scope list_scope.

(** ** Files in memory *)

Inductive mem_error := NotFound | IsDirectory.

#[export] Instance mem_fs : BashkitFileSystem := {
  fs := gmap str bytes;
  fs_error := mem_error;
  io_not_found e := match e with NotFound => true | IsDirectory => false end;
  path_is_a_directory := IsDirectory;
  normalize_path p := p;
  fs_stat_is_dir p m := (m, match m !! p with Some _ => Ok false | None => Err NotFound end);
  fs_read_file p m := (m, match m !! p with Some b => Ok b | None => Err NotFound end);
  fs_write_file p b m := (<[p := b]> m, Ok tt);
  fs_mkdir p r m := (m, Ok tt);
  fs_remove p r m :=
    match m !! p with Some _ => (delete p m, Ok tt) | None => (m, Err NotFound) end;
}.

#[export] Instance mem_laws : @BashkitLaws mem_fs.
Proof.
  refine {| files := fun m : @fs mem_fs => m |}; try done; intros p *; simpl;
    try (destruct (_ !! p)); congruence.
Defined.

(** ** Texts *)

Definition text (lines : list string) : str := unlines (map lit lines).
Definition file (lines : list string) : bytes := into_bytes (text lines).
Definition chunk (old new : list string) (eof : bool) : UpdateFileChunk :=
  {| change_context := None; old_lines := map lit old; new_lines := map lit new; is_end_of_file := eof |}.
Definition written (l : list line_op) (eof : bool) : written_chunk :=
  {| context := None; ops := l; at_end := eof |}.
Definition replace_line (old new : string) : written_chunk :=
  written [Remove (lit old); Add (lit new)] false.

Definition work : str := lit "/work".
Definition notes : str := lit "/work/notes.txt".

(** ** Applications of the theorems *)

Lemma seek_sequence_spec_witness :
  map lit ["b "%string] <> [] /\
  exists found, @seek_sequence mem_error (map lit ["a"; "b"; "b "])%string (map lit ["b "%string]) 0 false
                = Ok found /\
    match found with
    | Some i => best_match (map lit ["a"; "b"; "b "])%string (map lit ["b "%string]) 0 false i
    | None => forall j, searched (map lit ["a"; "b"; "b "])%string (map lit ["b "%string]) 0 false j ->
                        ~ matches_at same_normalized (map lit ["a"; "b"; "b "])%string (map lit ["b "%string]) j
    end.
Proof. split; [done|]. by apply (@seek_sequence_spec mem_error). Defined.

(** The exact pass wins over an earlier line that only agrees up to blanks. *)
Example exact_match_first :
  @seek_sequence mem_error (map lit ["a"; "b"; "b "])%string (map lit ["b "%string]) 0 false = Ok (Some 2) /\
  @seek_sequence mem_error (map lit ["a"; "b"; "c"])%string (map lit ["b "%string]) 0 false = Ok (Some 1).
Proof. by vm_compute. Qed.

Definition two_edits : list UpdateFileChunk :=
  [chunk ["b"]%string ["B"; "b2"]%string false; chunk ["d"]%string [] false; chunk [] ["e"]%string false].

Lemma update_splices_chunks_witness :
  Forall one_line (map lit ["a"; "b"; "c"; "d"])%string /\
  Forall (fun c => is_end_of_file c = false) two_edits /\
  last_is_empty (map lit ["a"; "b"; "c"; "d"])%string = false /\
  match @derive_new_contents_from_chunks mem_error notes (text ["a"; "b"; "c"; "d"])%string two_edits with
  | Ok contents => exists rs k,
      located_all (map lit ["a"; "b"; "c"; "d"])%string 0 two_edits rs k /\
      disjoint_ranges 0 4 (sort_by_z (fun r : replacement => Z.of_nat r.1.1) rs) /\
      contents = unlines (without_last_empty (splice 0 (map lit ["a"; "b"; "c"; "d"])%string
                   (sort_by_z (fun r : replacement => Z.of_nat r.1.1) rs)))
  | Err e => exists c, c ∈ two_edits /\ not_found notes c e
  end.
Proof.
  assert (Forall one_line (map lit ["a"; "b"; "c"; "d"])%string) as Hl
    by (repeat constructor; unfold one_line; vm_compute; set_solver).
  assert (Forall (fun c => is_end_of_file c = false) two_edits) as He by (repeat constructor).
  split_and!; [exact Hl|exact He|done|].
  exact (@update_splices_chunks mem_error notes (map lit ["a"; "b"; "c"; "d"])%string two_edits Hl He (or_introl eq_refl)).
Defined.

Example two_edits_applied :
  @derive_new_contents_from_chunks mem_error notes (text ["a"; "b"; "c"; "d"])%string two_edits =
    Ok (text ["a"; "B"; "b2"; "c"; "e"])%string.
Proof. by vm_compute. Qed.

Definition sample : list written_hunk :=
  [WrittenAdd (lit "new.txt") [lit "one"; []];
   WrittenUpdate (lit "notes.txt") None
     [{| context := Some (lit "fn main() {"); ops := [Keep (lit "x"); Remove (lit "y"); Add (lit "z")];
         at_end := false |};
      written [Add (lit "last")] true];
   WrittenDelete (lit "old.txt")].

Lemma parse_patch_text_witness :
  Forall well_written sample /\
  (@parse_patch mem_error (patch_text sample) = Ok (map hunk_of sample) /\
   @parse_patch mem_error (heredoc_text sample) = Ok (map hunk_of sample)).
Proof.
  assert (Forall well_written sample) as Hs.
  { repeat first [constructor | split_and!]; try done; unfold one_line; vm_compute; set_solver. }
  split; [exact Hs|]. exact (@parse_patch_text mem_error sample Hs).
Defined.

Definition small_patch : str :=
  patch_text [WrittenAdd (lit "new.txt") [lit "one"];
              WrittenUpdate (lit "notes.txt") None [replace_line "b" "c"]].
Definition before : gmap str bytes := {[ notes := file ["a"; "b"]%string ]}.


(** ** Patches that lose something *)

(** A file that ends in a blank line loses it, although no chunk names it. *)
Theorem blank_last_line_lost :
  @derive_new_contents_from_chunks mem_error notes (text ["a"; "b"; ""])%string [chunk ["a"%string] ["A"%string] false]
  = Ok (text ["A"; "b"])%string.
Proof. by vm_compute. Qed.

(** An end-of-file chunk is looked for at the very end, even before where the search stands: it can
    match lines an earlier chunk has replaced, and its own lines are then removed again. *)
Theorem end_of_file_chunk_overlaps :
  @derive_new_contents_from_chunks mem_error notes (text ["a"; "b"])%string
    [chunk ["a"; "b"]%string ["c"%string] false; chunk ["b"%string] ["d"%string] true]
  = Ok (text ["c"%string]).
Proof. by vm_compute. Qed.

(** A move onto the file's own path writes the file and then removes it. *)
Theorem move_onto_itself_deletes :
  apply_patch_to_bashkit work
    (patch_text [WrittenUpdate (lit "notes.txt") (Some (lit "/work/notes.txt")) [replace_line "b" "c"]]) before
  = (∅, Ok (text ["Success. Updated the following files:"; "M /work/notes.txt"]%string)).
Proof. by vm_compute. Qed.
