(* ===== verification/Context.v ===== *)
(** * The context a model is given

    The context compiler of [verlet-kernel/src/kernel/context_compiler.rs]: system
    blocks under a byte budget, the messages of a session's entries between the
    synthetic ones of a turn, the budgets on messages and text, and the
    diagnostics that account for them; and the deterministic summary of
    [verlet-kernel/src/kernel/compaction.rs]. *)

From stdpp Require Import base gmap sets list strings pretty.
From Stdlib Require Import NArith ZArith Lia Floats.SpecFloat.
From S2P Require Import Prelude Json EventKind Contracts Records Session.

From S2P Require Text.

Local Open Scope string_scope.
Local Open Scope list_scope.

(** ** Sizes *)

Notation usize := N (only parsing).

(** [str::len], and [usize]'s saturating operations: truncated subtraction is [N.sub]. *)
Definition byte_len (text : string) : usize := N.of_nat (String.length text).
Definition usize_saturating_add (a b : usize) : usize := N.min (a + b) Text.usize_max.
Definition usize_saturating_sub (a b : usize) : usize := (a - b)%N.

(** A byte that continues a character: not a boundary of one. *)
Definition is_continuation (c : Ascii.ascii) : bool :=
  (128 <=? Ascii.N_of_ascii c)%N && (Ascii.N_of_ascii c <=? 191)%N.

(** [str::is_char_boundary]. *)
Definition is_char_boundary (text : string) (index : nat) : bool :=
  match String.get index text with
  | Some c => negb (is_continuation c)
  | None => Nat.eqb index (String.length text)
  end.

(** [str::trim] and [is_empty]. *)
Definition is_blank (text : string) : bool := String.eqb (str_trim text) "".

(** [[String]::join]. *)
Definition join_lines (lines : list string) : string := String.concat newline lines.

(** ** The policy and the inputs *)

Record AgentContextCompilePolicy := {
  max_messages : option usize;
  max_text_bytes : option usize;
}.

(** [AgentContextCompilePolicy::unbounded] and [is_unbounded]. *)
Definition unbounded : AgentContextCompilePolicy := {| max_messages := None; max_text_bytes := None |}.
Definition is_unbounded (policy : AgentContextCompilePolicy) : bool :=
  match max_messages policy, max_text_bytes policy with None, None => true | _, _ => false end.

(** A [BTreeMap<String, String>] is the list of its entries in key order. *)
Record AgentContextAttachment := {
  attachment_path : string;
  mime_type : option string;
  size_bytes : option N;
  sha256 : option string;
  attachment_metadata : list (string * string);
}.

Inductive AgentContextSource :=
  | Environment
  | Attachment
  | History
  | CompactionSummary
  | HookContext
  | TurnContext.

Record AgentContextDroppedEntry := {
  dropped_entry_id : option SessionEntryId;
  dropped_source : AgentContextSource;
  reason : string;
}.

Record AgentContextCompilationDiagnostics := {
  input_entry_count : usize;
  output_message_count : usize;
  system_block_count : usize;
  tool_count : usize;
  attachment_count : usize;
  retained_text_bytes : usize;
  truncated_text_bytes : usize;
  dropped_entries : list AgentContextDroppedEntry;
}.

(** [SystemBlock] and [ToolDefinition] of [verlet-provider/src/lib.rs]. *)
Record SystemBlock := {
  block_text : string;
  block_cache_control : option CacheControl;
}.
Definition system_text (text : string) : SystemBlock :=
  {| block_text := text; block_cache_control := None |}.

Record ToolDefinition := {
  tool_definition_name : string;
  description : string;
  input_schema : json;
  tool_cache_control : option CacheControl;
}.

(** [AgentManifestStaticContextSegment]; an [f64] is its IEEE 754 value. *)
Record AgentManifestStaticContextSegment := {
  segment_id : string;
  assembler : string;
  segment_input : string;
  pinned : bool;
  budget_share : option spec_float;
  ref_uri : string;
  content_sha256 : string;
  segment_content : string;
}.

(** The fields of [TurnContextSnapshot] the compiler reads. *)
Record TurnContextSnapshot := {
  cwd : option string;
  workspace_roots : list string;
  turn_metadata : list (string * string);
  environment : list (string * string);
  model_visible_context : list string;
}.

Record AgentContextCompileInput := {
  system : list SystemBlock;
  static_system_sources : list AgentManifestStaticContextSegment;
  session_entries : list SessionEntry;
  turn_anchor_timestamp_ms : Z;
  turn_context : TurnContextSnapshot;
  hook_contexts : list string;
  environment_contexts : list string;
  attachments : list AgentContextAttachment;
  tools : list ToolDefinition;
  policy : AgentContextCompilePolicy;
}.

Record CompiledAgentContext := {
  compiled_system : list SystemBlock;
  messages : list CanonicalMessage;
  compiled_tools : list ToolDefinition;
  diagnostics : AgentContextCompilationDiagnostics;
}.

Record TrackedMessage := {
  message : CanonicalMessage;
  source : AgentContextSource;
  tracked_entry_id : option SessionEntryId;
}.

Record CompiledSystemBlocks := {
  blocks : list SystemBlock;
  budgeted_text_bytes : usize;
  system_truncated_text_bytes : usize;
}.

(** ** System blocks *)

(** [usize as f64], a product of two [f64], and [floor] followed by the saturating cast back. *)
Definition f64_of_usize (n : usize) : spec_float :=
  binary_normalize 53 1024 (Z.of_N n) 0 false.
Definition f64_mul (x y : spec_float) : spec_float := SFmul 53 1024 x y.
Definition f64_floor_as_usize (x : spec_float) : usize :=
  match x with
  | S754_finite false m e =>
      N.min (Z.to_N (if (0 <=? e)%Z then Z.pos m * 2 ^ e else Z.pos m / 2 ^ (- e))) Text.usize_max
  | S754_infinity false => Text.usize_max
  | _ => 0%N
  end.
Definition f64_is_finite (x : spec_float) : bool :=
  match x with S754_zero _ | S754_finite _ _ _ => true | _ => false end.
Definition f64_le_zero (x : spec_float) : bool :=
  match x with S754_zero _ | S754_finite true _ _ | S754_infinity true => true | _ => false end.

Definition fractional_budget_limit (max_text_bytes : usize) (share : spec_float) : usize :=
  if negb (f64_is_finite share) || f64_le_zero share then 0%N
  else f64_floor_as_usize (f64_mul (f64_of_usize max_text_bytes) share).

Definition static_source_budget_limit (max_text_bytes : option usize) (budget_share : option spec_float)
    (remaining_budget : option usize) : option usize :=
  max_text_bytes ← max_text_bytes;
  let remaining_budget := default max_text_bytes remaining_budget in
  let share_limit := match budget_share with
                     | Some share => fractional_budget_limit max_text_bytes share
                     | None => remaining_budget
                     end in
  Some (N.min share_limit remaining_budget).

(** The loop that moves [end] back to a boundary. *)
Fixpoint boundary_before (text : string) (end_ : nat) : nat :=
  match end_ with
  | O => O
  | S before => if is_char_boundary text end_ then end_ else boundary_before text before
  end.
Definition prefix_text_bytes (text : string) (max_bytes : usize) : string :=
  if (byte_len text <=? max_bytes)%N then text
  else String.substring 0 (boundary_before text (N.to_nat max_bytes)) text.

(** What the loop over the static sources carries. *)
Record SystemBudget := {
  remaining_budget : option usize;
  spent : usize;
  cut_bytes : usize;
  pushed : list SystemBlock;
}.

(** One turn of that loop. *)
Definition push_static_source (max_text_bytes : option usize) (b : SystemBudget)
    (src : AgentManifestStaticContextSegment) : SystemBudget :=
  let content := segment_content src in
  if is_blank content then b
  else if pinned src then
    {| remaining_budget := remaining_budget b; spent := spent b; cut_bytes := cut_bytes b;
       pushed := pushed b ++ [system_text content] |}
  else
    let original_len := byte_len content in
    let content :=
      match static_source_budget_limit max_text_bytes (budget_share src) (remaining_budget b) with
      | Some limit => if (limit <? original_len)%N then prefix_text_bytes content limit else content
      | None => content
      end in
    if is_blank content then
      {| remaining_budget := remaining_budget b; spent := spent b;
         cut_bytes := usize_saturating_add (cut_bytes b) original_len; pushed := pushed b |}
    else
      let retained_len := byte_len content in
      {| remaining_budget := (fun remaining => usize_saturating_sub remaining retained_len) <$> remaining_budget b;
         spent := usize_saturating_add (spent b) retained_len;
         cut_bytes := usize_saturating_add (cut_bytes b) (usize_saturating_sub original_len retained_len);
         pushed := pushed b ++ [system_text content] |}.

Definition compile_system_blocks (static_sources : list AgentManifestStaticContextSegment)
    (configured : list SystemBlock) (max_text_bytes : option usize) : CompiledSystemBlocks :=
  let b := fold_left (push_static_source max_text_bytes) static_sources
             {| remaining_budget := max_text_bytes; spent := 0; cut_bytes := 0; pushed := [] |} in
  {| blocks := pushed b ++ configured;
     budgeted_text_bytes := spent b;
     system_truncated_text_bytes := cut_bytes b |}.

(** ** Synthetic context *)

Definition entry_line (prefix : string) (entry : string * string) : string :=
  prefix +:+ entry.1 +:+ "=" +:+ entry.2.

Definition is_nil {A} (l : list A) : bool := match l with [] => true | _ => false end.
Definition is_none {A} (o : option A) : bool := match o with None => true | _ => false end.

Definition render_turn_environment_context (turn_context : TurnContextSnapshot) : option string :=
  if is_none (cwd turn_context) && is_nil (workspace_roots turn_context) &&
     is_nil (environment turn_context) && is_nil (turn_metadata turn_context) then None
  else
    Some (join_lines
      (["<environment_context>"] ++
       match cwd turn_context with Some cwd => ["cwd=" +:+ cwd] | None => [] end ++
       map (fun root => "workspace_root=" +:+ root) (workspace_roots turn_context) ++
       map (entry_line "env.") (environment turn_context) ++
       map (entry_line "metadata.") (turn_metadata turn_context) ++
       ["</environment_context>"])).

Definition render_environment_contexts (turn_context : TurnContextSnapshot)
    (explicit_contexts : list string) : list string :=
  let contexts := List.filter (fun context => negb (is_blank context)) explicit_contexts in
  match render_turn_environment_context turn_context with
  | Some rendered => contexts ++ [rendered]
  | None => contexts
  end.

Definition attachment_line (attachment : AgentContextAttachment) : string :=
  String.concat " "
    (["path=" +:+ attachment_path attachment] ++
     match mime_type attachment with Some mime_type => ["mime_type=" +:+ mime_type] | None => [] end ++
     match size_bytes attachment with Some size_bytes => ["size_bytes=" +:+ pretty size_bytes] | None => [] end ++
     match sha256 attachment with Some sha256 => ["sha256=" +:+ sha256] | None => [] end ++
     map (entry_line "metadata.") (attachment_metadata attachment)).

Definition render_attachment_context (attachments : list AgentContextAttachment) : option string :=
  match attachments with
  | [] => None
  | _ => Some (join_lines (["<attachments>"] ++ map attachment_line attachments ++ ["</attachments>"]))
  end.

(** ** Text of a message *)

(** The text blocks of a message's content. *)
Definition content_text_len (content : CanonicalContent) : option usize :=
  match content with
  | Session.Text text _ | Thinking text _ _ => Some (byte_len text)
  | Image _ _ | ToolCall _ _ _ => None
  end.
Definition usize_sum (sizes : list usize) : usize := fold_right N.add 0%N sizes.
Definition content_text_bytes (content : list CanonicalContent) : usize :=
  usize_sum (omap content_text_len content).
Definition message_content (message : CanonicalMessage) : list CanonicalContent :=
  match message with
  | User content _ | Assistant content _ _ _ _ _ _ _ | ToolResult _ _ content _ _ _ => content
  end.
Definition set_message_content (content : list CanonicalContent) (message : CanonicalMessage) : CanonicalMessage :=
  match message with
  | User _ t => User content t
  | Assistant _ api provider model usage stop err t => Assistant content api provider model usage stop err t
  | ToolResult id name _ is_error cache t => ToolResult id name content is_error cache t
  end.
Definition message_text_bytes (message : CanonicalMessage) : usize :=
  content_text_bytes (message_content message).
Definition messages_text_bytes (messages : list CanonicalMessage) : usize :=
  usize_sum (map message_text_bytes messages).
Definition messages_text_bytes_for_tracked (messages : list TrackedMessage) : usize :=
  usize_sum (map (fun tracked => message_text_bytes (message tracked)) messages).

(** ** Budgets *)

(** The text from the first boundary at which at most [remaining] bytes are left: [find] over
    [char_indices], the whole length when there is none. *)
Fixpoint suffix_within (text : string) (remaining : usize) : string :=
  match text with
  | EmptyString => EmptyString
  | String c rest =>
      if negb (is_continuation c) && (byte_len text <=? remaining)%N then text
      else suffix_within rest remaining
  end.

(** The new text and what remains of the budget. *)
Definition truncate_string_to_recent_bytes (text : string) (remaining : usize) : string * usize :=
  let bytes := byte_len text in
  if (bytes <=? remaining)%N then (text, (remaining - bytes)%N)
  else if (remaining =? 0)%N then (EmptyString, remaining)
  else
    let suffix := suffix_within text remaining in
    (suffix, usize_saturating_sub remaining (byte_len suffix)).

Definition truncate_block (block : CanonicalContent) (remaining : usize) : CanonicalContent * usize :=
  match block with
  | Session.Text text cache =>
      let '(text, remaining) := truncate_string_to_recent_bytes text remaining in
      (Session.Text text cache, remaining)
  | Thinking text provider metadata =>
      let '(text, remaining) := truncate_string_to_recent_bytes text remaining in
      (Thinking text provider metadata, remaining)
  | Image _ _ | ToolCall _ _ _ => (block, remaining)
  end.

(** A loop over a vector's elements from the last to the first, changing each in place. *)
Definition for_each_rev {A} (f : A -> usize -> A * usize) (l : list A) (remaining : usize) : list A * usize :=
  fold_right (fun x '(done, remaining) => let '(x, remaining) := f x remaining in (x :: done, remaining))
    ([], remaining) l.

Definition keeps_block (block : CanonicalContent) : bool :=
  match block with
  | Session.Text text _ | Thinking text _ _ => negb (String.eqb text "")
  | Image _ _ | ToolCall _ _ _ => true
  end.

Definition truncate_content_to_recent_text_bytes (content : list CanonicalContent) (remaining : usize)
    : list CanonicalContent * usize :=
  let '(content, remaining) := for_each_rev truncate_block content remaining in
  (List.filter keeps_block content, remaining).

Definition truncate_tracked (tracked : TrackedMessage) (remaining : usize) : TrackedMessage * usize :=
  let '(content, remaining) :=
    truncate_content_to_recent_text_bytes (message_content (message tracked)) remaining in
  ({| message := set_message_content content (message tracked); source := source tracked;
      tracked_entry_id := tracked_entry_id tracked |}, remaining).

Definition truncate_messages_to_recent_text_bytes (messages : list TrackedMessage) (max_bytes : usize)
    : list TrackedMessage :=
  fst (for_each_rev truncate_tracked messages max_bytes).

Definition dropped (why : string) (tracked : TrackedMessage) : AgentContextDroppedEntry :=
  {| dropped_entry_id := tracked_entry_id tracked; dropped_source := source tracked; reason := why |}.

(** The messages the count budget drops, and those it keeps. *)
Definition drain_oldest (messages : list TrackedMessage) (policy : AgentContextCompilePolicy)
    : list TrackedMessage * list TrackedMessage :=
  match max_messages policy with
  | Some max_messages =>
      let dropped := N.to_nat (usize_saturating_sub (N.of_nat (length messages)) max_messages) in
      (take dropped messages, drop dropped messages)
  | None => ([], messages)
  end.

Definition with_drops (d : AgentContextCompilationDiagnostics) (drops : list AgentContextDroppedEntry)
    (truncated : usize) : AgentContextCompilationDiagnostics :=
  {| input_entry_count := input_entry_count d; output_message_count := output_message_count d;
     system_block_count := system_block_count d; tool_count := tool_count d;
     attachment_count := attachment_count d; retained_text_bytes := retained_text_bytes d;
     truncated_text_bytes := truncated; dropped_entries := dropped_entries d ++ drops |}.

Definition apply_message_budget (messages : list TrackedMessage) (policy : AgentContextCompilePolicy)
    (d : AgentContextCompilationDiagnostics) : list TrackedMessage * AgentContextCompilationDiagnostics :=
  let '(oldest, messages) := drain_oldest messages policy in
  let original_text_bytes := messages_text_bytes_for_tracked messages in
  let messages := match max_text_bytes policy with
                  | Some max_text_bytes => truncate_messages_to_recent_text_bytes messages max_text_bytes
                  | None => messages
                  end in
  let retained_text_bytes := messages_text_bytes_for_tracked messages in
  (messages,
   with_drops d (map (dropped "max_messages") oldest)
     (usize_saturating_add (truncated_text_bytes d)
        (usize_saturating_sub original_text_bytes retained_text_bytes))).

(** ** Compiling *)

Definition synthetic (timestamp_ms : Z) (src : AgentContextSource) (context : string) : TrackedMessage :=
  {| message := user_text_at context timestamp_ms; source := src; tracked_entry_id := None |}.

(** One turn of the loop over the entries: the messages so far and the entries dropped. *)
Definition push_entry (acc : list TrackedMessage * list AgentContextDroppedEntry) (entry : SessionEntry)
    : list TrackedMessage * list AgentContextDroppedEntry :=
  let '(tracked, drops) := acc in
  match entry_kind entry with
  | Message m =>
      (tracked ++ [{| message := m; source := History; tracked_entry_id := Some (entry_id entry) |}], drops)
  | CustomContextMessage m =>
      (tracked ++ [{| message := m; source := HookContext; tracked_entry_id := Some (entry_id entry) |}], drops)
  | Compaction summary =>
      ([{| message := compaction_summary_message summary (entry_created_at_ms entry);
           source := CompactionSummary; tracked_entry_id := Some (entry_id entry) |}],
       drops ++ map (dropped "cleared_by_compaction") tracked)
  | ModelChange _ _ _ | BranchSummary _ | Runtime _ _ => (tracked, drops)
  end.

(** The messages of the input, before the budgets, and the entries a compaction dropped. *)
Definition collect_messages (input : AgentContextCompileInput)
    : list TrackedMessage * list AgentContextDroppedEntry :=
  let anchor := turn_anchor_timestamp_ms input in
  let environment := map (synthetic anchor Environment)
    (render_environment_contexts (turn_context input) (environment_contexts input)) in
  let '(tracked, drops) := fold_left push_entry (session_entries input) (environment, []) in
  (tracked ++
   map (synthetic anchor HookContext)
     (List.filter (fun context => negb (is_blank context)) (hook_contexts input)) ++
   map (synthetic anchor TurnContext)
     (List.filter (fun context => negb (is_blank context)) (model_visible_context (turn_context input))) ++
   match render_attachment_context (attachments input) with
   | Some context => [synthetic anchor Attachment context]
   | None => []
   end, drops).

(** [AgentContextCompiler::compile]. *)
Definition compile (input : AgentContextCompileInput) : CompiledAgentContext :=
  let sys := compile_system_blocks (static_system_sources input) (system input)
               (max_text_bytes (policy input)) in
  let '(tracked, drops) := collect_messages input in
  let d :=
    {| input_entry_count := N.of_nat (length (session_entries input)); output_message_count := 0;
       system_block_count := N.of_nat (length (blocks sys)); tool_count := N.of_nat (length (tools input));
       attachment_count := N.of_nat (length (attachments input)); retained_text_bytes := 0;
       truncated_text_bytes := system_truncated_text_bytes sys; dropped_entries := drops |} in
  let message_policy :=
    {| max_messages := max_messages (policy input);
       max_text_bytes := (fun max_text_bytes => usize_saturating_sub max_text_bytes (budgeted_text_bytes sys))
                           <$> max_text_bytes (policy input) |} in
  let '(tracked, d) := apply_message_budget tracked message_policy d in
  let compiled := map message tracked in
  {| compiled_system := blocks sys;
     messages := compiled;
     compiled_tools := tools input;
     diagnostics :=
       {| input_entry_count := input_entry_count d;
          output_message_count := N.of_nat (length compiled);
          system_block_count := system_block_count d; tool_count := tool_count d;
          attachment_count := attachment_count d;
          retained_text_bytes :=
            usize_saturating_add (messages_text_bytes compiled) (budgeted_text_bytes sys);
          truncated_text_bytes := truncated_text_bytes d; dropped_entries := dropped_entries d |} |}.

(** ** Compaction *)

Record CompactionPolicy := { auto_max_context_text_bytes : option usize }.
Definition compaction_disabled : CompactionPolicy := {| auto_max_context_text_bytes := None |}.
Definition auto_at_text_bytes (max_text_bytes : usize) : CompactionPolicy :=
  {| auto_max_context_text_bytes := Some max_text_bytes |}.
Definition is_disabled (policy : CompactionPolicy) : bool := is_none (auto_max_context_text_bytes policy).

Definition block_chunk (content : CanonicalContent) : option string :=
  match content with
  | Session.Text text _ | Thinking text _ _ => Some text
  | Image _ _ | ToolCall _ _ _ => None
  end.
Definition content_text (content : list CanonicalContent) : option string :=
  match List.filter (fun text => negb (String.eqb text "")) (omap block_chunk content) with
  | [] => None
  | chunks => Some (join_lines chunks)
  end.
Definition message_text (message : CanonicalMessage) : option string :=
  content_text (message_content message).

Definition MAX_PIECES : nat := 8.
Definition deterministic_compaction_summary (messages : list CanonicalMessage) : string :=
  let pieces := List.filter (fun text => negb (is_blank text)) (omap message_text messages) in
  match pieces with
  | [] => "No prior model-visible context."
  | _ =>
      let pieces := if Nat.ltb MAX_PIECES (length pieces) then drop (length pieces - MAX_PIECES) pieces else pieces in
      join_lines pieces
  end.
