(* ===== verification/ContextFacts.v ===== *)
(** * What the compiled context holds

    The messages are those of the session between the synthetic ones; every
    message is kept or accounted for; the budgets on messages and bytes are kept,
    and what is cut is the oldest; nothing before a compaction is visible. *)

From stdpp Require Import base gmap sets list strings pretty.
From Stdlib Require Import NArith ZArith Lia Floats.SpecFloat.
From S2P Require Import Prelude Json EventKind Contracts Records Session Context.

From S2P Require Text.

Local Open Scope string_scope.
Local Open Scope list_scope.

(** ** Loops from the last element *)

Section ForEachRev.
Context {A : Type} (f : A -> usize -> A * usize).

Lemma for_each_rev_cons x l r :
  for_each_rev f (x :: l) r =
    let '(l', r1) := for_each_rev f l r in let '(x', r2) := f x r1 in (x' :: l', r2).
Proof. reflexivity. Qed.

(** What a step takes from the budget is the size of what it leaves. *)
Definition spends (size : A -> N) : Prop :=
  forall x r, (size (fst (f x r)) + snd (f x r) = r)%N.

Lemma for_each_rev_spends size l r :
  spends size ->
  (usize_sum (map size (fst (for_each_rev f l r))) + snd (for_each_rev f l r) = r)%N.
Proof.
  intros Hs. induction l as [|x l IH]; [done|]. rewrite for_each_rev_cons.
  destruct (for_each_rev f l r) as [l' r1]. specialize (Hs x r1). destruct (f x r1) as [x' r2].
  cbn [fst snd map usize_sum fold_right] in *. fold (usize_sum (map size l')) in *. lia.
Qed.

(** The elements correspond one to one. *)
Lemma for_each_rev_forall2 (R : A -> A -> Prop) l r :
  (forall x r, R x (fst (f x r))) -> Forall2 R l (fst (for_each_rev f l r)).
Proof.
  intros HR. induction l as [|x l IH]; [constructor|]. rewrite for_each_rev_cons.
  destruct (for_each_rev f l r) as [l' r1]. specialize (HR x r1). destruct (f x r1) as [x' r2].
  by constructor.
Qed.

(** A step that takes as much as it can makes the loop do so. *)
Lemma for_each_rev_fills size (P : A -> Prop) l r :
  (forall x r, P x -> size (fst (f x r)) = N.min (size x) r) -> spends size -> Forall P l ->
  usize_sum (map size (fst (for_each_rev f l r))) = N.min (usize_sum (map size l)) r.
Proof.
  intros Hf Hs. induction 1 as [|x l Hx _ IH]; [cbn; lia|]. rewrite for_each_rev_cons.
  pose proof (for_each_rev_spends size l r Hs) as Hsp.
  destruct (for_each_rev f l r) as [l' r1]. specialize (Hf x r1 Hx). specialize (Hs x r1).
  destruct (f x r1) as [x' r2]. cbn [fst snd map usize_sum fold_right] in *.
  fold (usize_sum (map size l')) (usize_sum (map size l)) in *. lia.
Qed.
End ForEachRev.

Lemma usize_sum_app l k : usize_sum (l ++ k) = (usize_sum l + usize_sum k)%N.
Proof. induction l as [|x l IH]; [done|]. simpl. fold (usize_sum (l ++ k)) (usize_sum l). lia. Qed.

(** ** Sizes of text *)

Lemma byte_len_app a b : byte_len (a +:+ b) = (byte_len a + byte_len b)%N.
Proof.
  unfold byte_len. induction a as [|c a IH]; [done|].
  change (String.length (String c a +:+ b)) with (S (String.length (a +:+ b))). simpl String.length. lia.
Qed.

Lemma byte_len_zero s : byte_len s = 0%N <-> s = "".
Proof. unfold byte_len. destruct s; simpl; [done|]. split; [lia|done]. Qed.

(** [suffix_within] is a suffix of at most the bytes allowed. *)
Lemma suffix_within_spec s r :
  exists gone, s = (gone +:+ suffix_within s r) /\ (byte_len (suffix_within s r) <= r)%N.
Proof.
  induction s as [|c s (gone & Hs & Hl)]; [exists ""; split; [done|apply N.le_0_l]|].
  cbn [suffix_within]. destruct (_ && _) eqn:Hc.
  - exists "". split; [done|]. to_prop. by apply N.leb_le.
  - exists (String c gone). split; [|done]. change (String c gone +:+ suffix_within s r) with
      (String c (gone +:+ suffix_within s r)). by f_equal.
Qed.

(** Text without continuation bytes: every byte is a character. *)
Fixpoint single_bytes (s : string) : Prop :=
  match s with
  | EmptyString => True
  | String c s => is_continuation c = false /\ single_bytes s
  end.

Lemma suffix_within_single s r :
  single_bytes s -> byte_len (suffix_within s r) = N.min (byte_len s) r.
Proof.
  induction s as [|c s IH]; [intros _; unfold byte_len; simpl; lia|]. intros [Hc Hs]. cbn [suffix_within]. rewrite Hc. cbn [negb andb].
  destruct (N.leb_spec (byte_len (String c s)) r) as [Hle|Hlt]; [lia|].
  rewrite IH by done. unfold byte_len in *. simpl String.length in *. lia.
Qed.

(** The text before [text] was cut to [text']: a part in front is gone. *)
Definition cut_in_front (text text' : string) : Prop := exists gone, text = (gone +:+ text').

Lemma truncate_string_spec text r :
  let '(text', r') := truncate_string_to_recent_bytes text r in
  (byte_len text' + r' = r)%N /\ cut_in_front text text' /\
  ((byte_len text <= r)%N -> text' = text).
Proof.
  unfold truncate_string_to_recent_bytes. destruct (N.leb_spec (byte_len text) r) as [Hle|Hlt].
  { split_and!; [lia|by exists ""|done]. }
  destruct (N.eqb_spec r 0) as [->|Hr].
  { split_and!; [done|exists text; by rewrite string_app_nil_r|lia]. }
  destruct (suffix_within_spec text r) as (gone & Ht & Hle).
  unfold usize_saturating_sub. split_and!; [lia|by exists gone|lia].
Qed.

Lemma truncate_string_single text r :
  single_bytes text ->
  byte_len (fst (truncate_string_to_recent_bytes text r)) = N.min (byte_len text) r.
Proof.
  intros Hs. unfold truncate_string_to_recent_bytes.
  destruct (N.leb_spec (byte_len text) r) as [Hle|Hlt]; [simpl; lia|].
  destruct (N.eqb_spec r 0) as [->|Hr]; [change (0%N = N.min (byte_len text) 0); lia|]. cbn [fst]. by apply suffix_within_single.
Qed.

(** ** Blocks and contents *)

Definition block_size (b : CanonicalContent) : N := default 0%N (content_text_len b).

Lemma content_text_bytes_sum content : content_text_bytes content = usize_sum (map block_size content).
Proof.
  unfold content_text_bytes. induction content as [|b content IH]; [done|]. csimpl.
  unfold block_size at 1. destruct (content_text_len b); simpl.
  - fold (usize_sum (omap content_text_len content)) (usize_sum (map block_size content)). lia.
  - fold (usize_sum (map block_size content)). by rewrite N.add_0_l.
Qed.

Lemma truncate_block_spends : spends truncate_block block_size.
Proof.
  intros b r. destruct b as [text cache| |text provider metadata|]; unfold truncate_block, block_size; try done;
    pose proof (truncate_string_spec text r) as Hs;
    destruct (truncate_string_to_recent_bytes text r) as [text' r']; simpl; by destruct Hs as [? _].
Qed.

(** Dropping the emptied blocks keeps the size. *)
Lemma filter_keeps_size content :
  usize_sum (map block_size (List.filter keeps_block content)) = usize_sum (map block_size content).
Proof.
  induction content as [|b content IH]; [done|]. simpl.
  fold (usize_sum (map block_size content)). destruct (keeps_block b) eqn:Hk; simpl.
  - fold (usize_sum (map block_size (List.filter keeps_block content))). by rewrite IH.
  - rewrite IH. unfold keeps_block in Hk. destruct b; try done; to_prop; subst; done.
Qed.

Lemma truncate_content_spends content r :
  (content_text_bytes (fst (truncate_content_to_recent_text_bytes content r)) +
   snd (truncate_content_to_recent_text_bytes content r) = r)%N.
Proof.
  unfold truncate_content_to_recent_text_bytes.
  pose proof (for_each_rev_spends truncate_block block_size content r truncate_block_spends) as Hs.
  destruct (for_each_rev truncate_block content r) as [content' r']. cbn [fst snd] in *.
  by rewrite content_text_bytes_sum, filter_keeps_size.
Qed.

Definition tracked_size (t : TrackedMessage) : N := message_text_bytes (message t).

Lemma set_content_content content m : message_content (set_message_content content m) = content.
Proof. by destruct m. Qed.

Lemma truncate_tracked_spends : spends truncate_tracked tracked_size.
Proof.
  intros t r. unfold truncate_tracked.
  pose proof (truncate_content_spends (message_content (message t)) r) as Hs.
  destruct (truncate_content_to_recent_text_bytes _ r) as [content r']. cbn [fst snd] in *.
  unfold tracked_size, message_text_bytes. simpl. by rewrite set_content_content.
Qed.

Lemma messages_sum ms : messages_text_bytes_for_tracked ms = usize_sum (map tracked_size ms).
Proof. reflexivity. Qed.

(** The truncated messages hold at most the bytes of the budget. *)
Lemma truncated_within ms max :
  (messages_text_bytes_for_tracked (truncate_messages_to_recent_text_bytes ms max) <= max)%N.
Proof.
  unfold truncate_messages_to_recent_text_bytes. rewrite messages_sum.
  pose proof (for_each_rev_spends truncate_tracked tracked_size ms max truncate_tracked_spends). lia.
Qed.

(** ** System blocks *)

Lemma substring_prefix n s : exists rest, s = (String.substring 0 n s +:+ rest) /\
  String.length (String.substring 0 n s) <= n.
Proof.
  revert n. induction s as [|c s IH]; intros [|n]; simpl.
  - exists "". split; [done|lia].
  - exists "". split; [done|lia].
  - exists (String c s). split; [done|lia].
  - destruct (IH n) as (rest & Hs & Hl). exists rest. split; [|lia].
    change (String c (String.substring 0 n s) +:+ rest) with (String c (String.substring 0 n s +:+ rest)).
    by f_equal.
Qed.

Lemma boundary_before_le text n : boundary_before text n <= n.
Proof. induction n as [|n IH]; cbn [boundary_before]; [lia|]. destruct (is_char_boundary _ _); lia. Qed.

(** A prefix that ends before a character, of at most the bytes allowed. *)
Lemma prefix_text_bytes_spec text max :
  (exists rest, text = (prefix_text_bytes text max +:+ rest)) /\
  (byte_len (prefix_text_bytes text max) <= max)%N.
Proof.
  unfold prefix_text_bytes. destruct (N.leb_spec (byte_len text) max) as [Hle|Hlt].
  { split; [exists ""; by rewrite string_app_nil_r|done]. }
  destruct (substring_prefix (boundary_before text (N.to_nat max)) text) as (rest & Ht & Hl).
  pose proof (boundary_before_le text (N.to_nat max)). split; [by exists rest|]. unfold byte_len. lia.
Qed.

(** What a source may become: nothing, its text, or a prefix of it. *)
Definition source_block (src : AgentManifestStaticContextSegment) (b : SystemBlock) : Prop :=
  block_cache_control b = None /\ is_blank (block_text b) = false /\
  if pinned src then block_text b = segment_content src
  else exists rest, segment_content src = (block_text b +:+ rest).

(** The blocks of the sources, in their order: a pinned source that is not blank is always there. *)
Inductive source_blocks : list AgentManifestStaticContextSegment -> list SystemBlock -> Prop :=
  | source_blocks_nil : source_blocks [] []
  | source_blocks_skip src srcs bs :
      source_blocks srcs bs -> (pinned src = false \/ is_blank (segment_content src) = true) ->
      source_blocks (src :: srcs) bs
  | source_blocks_push src srcs b bs :
      source_blocks srcs bs -> source_block src b -> source_blocks (src :: srcs) (b :: bs).

(** The bytes the unpinned blocks may take together. *)
Definition budget_left (max : option usize) (b : SystemBudget) : Prop :=
  match max, remaining_budget b with
  | Some max, Some remaining => (spent b + remaining = max)%N
  | None, None => True
  | _, _ => False
  end.

(** One turn: at most one block is pushed, and the budget is kept. *)
Lemma push_static_source_spec max b src :
  (forall m, max = Some m -> (m <= Text.usize_max)%N) -> budget_left max b ->
  budget_left max (push_static_source max b src) /\
  ((pushed (push_static_source max b src) = pushed b /\
    (pinned src = false \/ is_blank (segment_content src) = true)) \/
   exists blk, pushed (push_static_source max b src) = pushed b ++ [blk] /\ source_block src blk).
Proof.
  intros Hmax Hb. unfold push_static_source. destruct (is_blank (segment_content src)) eqn:Hblank.
  { split; [done|]. left. split; [done|by right]. }
  destruct (pinned src) eqn:Hpin.
  { split; [done|]. right. eexists. split; [done|]. unfold source_block. rewrite Hpin. by split_and!. }
  set (content := match static_source_budget_limit max (budget_share src) (remaining_budget b) with
                  | Some limit => if (limit <? byte_len (segment_content src))%N
                                  then prefix_text_bytes (segment_content src) limit else segment_content src
                  | None => segment_content src
                  end).
  assert ((exists rest, segment_content src = (content +:+ rest)) /\
          (forall m remaining, max = Some m -> remaining_budget b = Some remaining ->
             (byte_len content <= remaining)%N)) as [Hprefix Hfits].
  { unfold content, static_source_budget_limit.
    destruct max as [m|]; cbn [mbind option_bind].
    2: { split; [exists ""; by rewrite string_app_nil_r|done]. }
    unfold budget_left in Hb. destruct (remaining_budget b) as [remaining|]; [|done]. cbn [default].
    unfold id. match goal with |- context [N.min ?x remaining] => set (limit := N.min x remaining) end.
    destruct (N.ltb_spec limit (byte_len (segment_content src))).
    - destruct (prefix_text_bytes_spec (segment_content src) limit) as [Hp Hl]. split; [done|].
      intros ? ? [= <-] [= <-]. unfold limit in *. lia.
    - split; [exists ""; by rewrite string_app_nil_r|]. intros ? ? [= <-] [= <-]. unfold limit in *. lia. }
  destruct (is_blank content) eqn:Hblank'.
  { split; [done|]. left. split; [done|by left]. }
  split.
  - unfold budget_left in *. cbn [remaining_budget spent]. destruct max as [m|].
    + destruct (remaining_budget b) as [remaining|]; [|done]. cbn [fmap option_fmap option_map].
      specialize (Hfits m remaining eq_refl eq_refl). specialize (Hmax m eq_refl).
      unfold usize_saturating_add, usize_saturating_sub. lia.
    + by destruct (remaining_budget b).
  - right. eexists. split; [done|]. unfold source_block. rewrite Hpin. cbn. by split_and!.
Qed.

Lemma push_static_sources_spec max srcs b :
  (forall m, max = Some m -> (m <= Text.usize_max)%N) -> budget_left max b ->
  budget_left max (fold_left (push_static_source max) srcs b) /\
  exists bs, pushed (fold_left (push_static_source max) srcs b) = pushed b ++ bs /\ source_blocks srcs bs.
Proof.
  intros Hmax. revert b. induction srcs as [|src srcs IH]; intros b Hb; cbn [fold_left].
  { split; [done|]. exists []. rewrite app_nil_r. split; [done|constructor]. }
  destruct (push_static_source_spec max b src Hmax Hb) as [Hb1 Hpush].
  destruct (IH _ Hb1) as (Hb2 & bs & Hbs & Hsrcs). split; [done|].
  destruct Hpush as [[Hsame Hskip]|(blk & Hone & Hblk)].
  - exists bs. rewrite Hbs, Hsame. split; [done|]. by constructor.
  - exists (blk :: bs). rewrite Hbs, Hone, <- app_assoc. split; [done|]. by constructor.
Qed.

(** System blocks: the configured blocks follow those of the static sources, which keep their
    order; a pinned source that is not blank is there in full, an unpinned one in full, as a prefix of
    whole characters, or not at all, and together the unpinned ones take at most the byte budget. *)
Theorem compile_system_blocks_spec srcs configured max :
  (forall m, max = Some m -> (m <= Text.usize_max)%N) ->
  exists bs, blocks (compile_system_blocks srcs configured max) = bs ++ configured /\
    source_blocks srcs bs /\
    forall m, max = Some m -> (budgeted_text_bytes (compile_system_blocks srcs configured max) <= m)%N.
Proof.
  intros Hmax. unfold compile_system_blocks.
  destruct (push_static_sources_spec max srcs
              {| remaining_budget := max; spent := 0; cut_bytes := 0; pushed := [] |} Hmax)
    as (Hb & bs & Hbs & Hsrcs); [destruct max; simpl; [lia|done]|].
  exists bs. simpl. rewrite Hbs. split_and!; [done|done|]. intros m ->. unfold budget_left in Hb.
  destruct (remaining_budget _) as [remaining|]; [|done]. lia.
Qed.

(** ** The messages of the input *)

Definition produces_message (e : SessionEntry) : bool :=
  match entry_kind e with
  | Message _ | CustomContextMessage _ | Compaction _ => true
  | ModelChange _ _ _ | BranchSummary _ | Runtime _ _ => false
  end.

(** The synthetic messages in front of the entries and after them. *)
Definition leading (input : AgentContextCompileInput) : list TrackedMessage :=
  map (synthetic (turn_anchor_timestamp_ms input) Environment)
    (render_environment_contexts (turn_context input) (environment_contexts input)).
Definition trailing (input : AgentContextCompileInput) : list TrackedMessage :=
  map (synthetic (turn_anchor_timestamp_ms input) HookContext)
    (List.filter (fun context => negb (is_blank context)) (hook_contexts input)) ++
  map (synthetic (turn_anchor_timestamp_ms input) TurnContext)
    (List.filter (fun context => negb (is_blank context)) (model_visible_context (turn_context input))) ++
  match render_attachment_context (attachments input) with
  | Some context => [synthetic (turn_anchor_timestamp_ms input) Attachment context]
  | None => []
  end.

Lemma collect_messages_eq input :
  collect_messages input =
    let '(tracked, drops) := fold_left push_entry (session_entries input) (leading input, []) in
    (tracked ++ trailing input, drops).
Proof. reflexivity. Qed.

(** The loop over the entries is the one of the session's own context. *)
Lemma push_entries_messages entries tracked drops :
  map message (fst (fold_left push_entry entries (tracked, drops))) =
  append_model_visible_messages entries (map message tracked).
Proof.
  unfold append_model_visible_messages. revert tracked drops.
  induction entries as [|e entries IH]; intros tracked drops; [done|]. cbn [fold_left].
  assert (exists drops', push_entry (tracked, drops) e = (fst (push_entry (tracked, drops) e), drops') /\
    map message (fst (push_entry (tracked, drops) e)) = append_visible (map message tracked) e) as (d & Hp & Hm).
  { unfold push_entry, append_visible. destruct (entry_kind e); eexists; (split; [done|]); cbn [fst];
      rewrite ?map_app; done. }
  by rewrite Hp, IH, Hm.
Qed.

(** Every message of the loop is in the list or in the drops. *)
Lemma push_entries_count entries tracked drops :
  let '(tracked', drops') := fold_left push_entry entries (tracked, drops) in
  length tracked' + length drops' =
    length tracked + length drops + length (List.filter produces_message entries).
Proof.
  revert tracked drops. induction entries as [|e entries IH]; intros tracked drops; cbn [fold_left].
  { simpl. lia. }
  unfold push_entry at 2. simpl List.filter. unfold produces_message at 1.
  destruct (entry_kind e);
    match goal with |- context [fold_left push_entry entries (?t, ?d)] => specialize (IH t d) end;
    destruct (fold_left push_entry entries _) as [tracked' drops']; rewrite IH;
    rewrite ?length_app, ?length_map; simpl; lia.
Qed.

(** What precedes a compaction leaves no message. *)
Lemma push_entries_after_compaction before c summary after tracked drops :
  entry_kind c = Compaction summary ->
  fst (fold_left push_entry (before ++ c :: after) (tracked, drops)) =
  fst (fold_left push_entry (c :: after) ([], [])).
Proof.
  intros Hc. rewrite fold_left_app. destruct (fold_left push_entry before (tracked, drops)) as [t d].
  cbn [fold_left]. unfold push_entry at 2 4. rewrite Hc.
  generalize [{| message := compaction_summary_message summary (entry_created_at_ms c);
                 source := CompactionSummary; tracked_entry_id := Some (entry_id c) |}] as ms.
  generalize (d ++ map (dropped "cleared_by_compaction") t) as d1.
  generalize ([] ++ map (dropped "cleared_by_compaction") []) as d2. clear.
  induction after as [|e after IH]; intros d1 d2 ms; [done|]. cbn [fold_left]. unfold push_entry at 2 4.
  destruct (entry_kind e); apply IH.
Qed.

(** ** The budgets on messages *)

Lemma drain_oldest_split ms p :
  let '(oldest, kept) := drain_oldest ms p in
  ms = oldest ++ kept /\
  (forall m, max_messages p = Some m -> (N.of_nat (length kept) <= m)%N /\
     (oldest <> [] -> N.of_nat (length kept) = m)).
Proof.
  unfold drain_oldest. destruct (max_messages p) as [m|]; [|done].
  split; [by rewrite take_drop|]. intros ? [= <-]. rewrite length_drop. unfold usize_saturating_sub.
  split; [lia|]. intros Hne. destruct (decide (N.to_nat (N.of_nat (length ms) - m) = 0)) as [Hz|Hz]; [|lia].
  by rewrite Hz, take_0 in Hne.
Qed.

(** Truncation keeps the messages, their sources and entries, and all content that is not text; of
    each text a part in front may go. *)
Definition same_block (b b' : CanonicalContent) : Prop :=
  match b, b' with
  | Session.Text t c, Session.Text t' c' => c' = c /\ cut_in_front t t'
  | Thinking t p m, Thinking t' p' m' => p' = p /\ m' = m /\ cut_in_front t t'
  | _, _ => b' = b
  end.
Definition same_message (t t' : TrackedMessage) : Prop :=
  source t' = source t /\ tracked_entry_id t' = tracked_entry_id t /\
  exists content, Forall2 same_block (message_content (message t)) content /\
    message t' = set_message_content (List.filter keeps_block content) (message t).

Lemma truncate_block_same b r : same_block b (fst (truncate_block b r)).
Proof.
  destruct b as [text cache| |text provider metadata|]; unfold truncate_block; try done;
    pose proof (truncate_string_spec text r) as Hs;
    destruct (truncate_string_to_recent_bytes text r) as [text' r']; simpl; naive_solver.
Qed.

Lemma truncate_tracked_same t r : same_message t (fst (truncate_tracked t r)).
Proof.
  unfold truncate_tracked, truncate_content_to_recent_text_bytes.
  pose proof (for_each_rev_forall2 truncate_block same_block (message_content (message t)) r truncate_block_same) as Hc.
  destruct (for_each_rev truncate_block _ r) as [content r']. split_and!; [done|done|]. by exists content.
Qed.

Lemma truncated_same ms max : Forall2 same_message ms (truncate_messages_to_recent_text_bytes ms max).
Proof. unfold truncate_messages_to_recent_text_bytes. apply for_each_rev_forall2, truncate_tracked_same. Qed.

(** Text of characters of one byte fills the budget exactly. *)
Definition single_block (b : CanonicalContent) : Prop :=
  match b with Session.Text t _ | Thinking t _ _ => single_bytes t | Image _ _ | ToolCall _ _ _ => True end.
Definition single_message (t : TrackedMessage) : Prop := Forall single_block (message_content (message t)).

Lemma truncate_block_fills b r :
  single_block b -> block_size (fst (truncate_block b r)) = N.min (block_size b) r.
Proof.
  destruct b as [text cache| |text provider metadata|]; unfold truncate_block, block_size; simpl; intros Hs;
    try lia; pose proof (truncate_string_single text r Hs) as Ht;
    by destruct (truncate_string_to_recent_bytes text r) as [text' r'].
Qed.

Lemma truncate_tracked_fills t r :
  single_message t -> tracked_size (fst (truncate_tracked t r)) = N.min (tracked_size t) r.
Proof.
  intros Ht. unfold truncate_tracked, truncate_content_to_recent_text_bytes.
  pose proof (for_each_rev_fills truncate_block block_size single_block (message_content (message t)) r
                truncate_block_fills truncate_block_spends Ht) as Hf.
  destruct (for_each_rev truncate_block _ r) as [content r']. cbn [fst] in *.
  unfold tracked_size, message_text_bytes. simpl. rewrite set_content_content, content_text_bytes_sum, filter_keeps_size.
  by rewrite content_text_bytes_sum.
Qed.

Lemma truncated_fills ms max :
  Forall single_message ms ->
  messages_text_bytes_for_tracked (truncate_messages_to_recent_text_bytes ms max) =
    N.min (messages_text_bytes_for_tracked ms) max.
Proof.
  intros Hs. unfold truncate_messages_to_recent_text_bytes. rewrite !messages_sum.
  apply (for_each_rev_fills truncate_tracked tracked_size single_message); [|apply truncate_tracked_spends|done].
  intros t r. apply truncate_tracked_fills.
Qed.

(** Everything that fits stays as it is. *)
Lemma truncate_block_fits b r : (block_size b <= r)%N -> truncate_block b r = (b, (r - block_size b)%N).
Proof.
  unfold truncate_block, block_size, truncate_string_to_recent_bytes.
  destruct b as [text cache| |text provider metadata|]; simpl; intros Hle; rewrite ?N.sub_0_r; try done;
    by rewrite (proj2 (N.leb_le _ _)).
Qed.

Lemma for_each_rev_fits {A} (f : A -> usize -> A * usize) (size : A -> N) l r :
  (forall x r, (size x <= r)%N -> f x r = (x, (r - size x)%N)) ->
  (usize_sum (map size l) <= r)%N ->
  for_each_rev f l r = (l, (r - usize_sum (map size l))%N).
Proof.
  intros Hf. induction l as [|x l IH]; intros Hle.
  { cbn. by rewrite N.sub_0_r. }
  cbn [map usize_sum fold_right] in *. fold (usize_sum (map size l)) in *.
  rewrite for_each_rev_cons, IH by lia. rewrite Hf by lia. f_equal. lia.
Qed.

(** No block of a message is empty: then no block is removed. *)
Definition no_empty_text (m : CanonicalMessage) : Prop := forallb keeps_block (message_content m) = true.

Lemma filter_all {A} (p : A -> bool) l : forallb p l = true -> List.filter p l = l.
Proof.
  induction l as [|x l IH]; [done|]. simpl. intros [Hp Hl]%andb_true_iff. by rewrite Hp, IH.
Qed.

Lemma set_own_content m : set_message_content (message_content m) m = m.
Proof. by destruct m. Qed.

(** ** Which bytes are kept *)

(** All the text of a list of messages, oldest first. *)
Definition concat_text (l : list string) : string := fold_right String.append "" l.
Definition block_string (b : CanonicalContent) : string := default "" (block_chunk b).
Definition message_string (t : TrackedMessage) : string :=
  concat_text (map block_string (message_content (message t))).
Definition messages_string (ms : list TrackedMessage) : string := concat_text (map message_string ms).

(** A step that cuts in front, and leaves budget only when it cut nothing. *)
Definition cuts_oldest {A} (f : A -> usize -> A * usize) (text : A -> string) (P : A -> Prop) : Prop :=
  forall x r, P x -> exists gone, text x = (gone +:+ text (fst (f x r))) /\
    ((0 < snd (f x r))%N -> gone = "") /\ (r = 0%N -> text (fst (f x r)) = "" /\ snd (f x r) = 0%N).

Lemma for_each_rev_cuts {A} (f : A -> usize -> A * usize) (text : A -> string) (P : A -> Prop) l r :
  cuts_oldest f text P -> Forall P l ->
  exists gone, concat_text (map text l) = (gone +:+ concat_text (map text (fst (for_each_rev f l r)))) /\
    ((0 < snd (for_each_rev f l r))%N -> gone = "") /\
    (r = 0%N -> concat_text (map text (fst (for_each_rev f l r))) = "" /\ snd (for_each_rev f l r) = 0%N).
Proof.
  intros Hf. induction 1 as [|x l Hx Hl IH]; [by exists ""|]. rewrite for_each_rev_cons.
  destruct IH as (gone & Htext & Hleft & Hzero).
  destruct (for_each_rev f l r) as [l' r1]. destruct (Hf x r1 Hx) as (gone1 & Ht1 & Hleft1 & Hzero1).
  destruct (f x r1) as [x' r2]. cbn [fst snd map] in *.
  change (concat_text (text x :: map text l)) with (text x +:+ concat_text (map text l)).
  change (concat_text (text x' :: map text l')) with (text x' +:+ concat_text (map text l')).
  rewrite Htext. destruct (N.eq_dec r1 0) as [H0|H0].
  - destruct (Hzero1 H0) as [Hx' Hr2]. exists (text x +:+ gone). rewrite Hx'.
    change ("" +:+ concat_text (map text l')) with (concat_text (map text l')).
    split_and!; [by rewrite string_app_assoc|lia|]. intros Hr. by destruct (Hzero Hr) as [-> _].
  - rewrite (Hleft ltac:(lia)). exists gone1. split_and!; [|done|].
    + rewrite Ht1 at 1. by rewrite string_app_assoc.
    + intros Hr. destruct (Hzero Hr) as [_ ?]. lia.
Qed.

Lemma truncate_string_cuts text r :
  single_bytes text ->
  exists gone, text = (gone +:+ fst (truncate_string_to_recent_bytes text r)) /\
    ((0 < snd (truncate_string_to_recent_bytes text r))%N -> gone = "") /\
    (r = 0%N -> fst (truncate_string_to_recent_bytes text r) = "" /\
                snd (truncate_string_to_recent_bytes text r) = 0%N).
Proof.
  intros Hs. pose proof (truncate_string_single text r Hs) as Hlen.
  pose proof (truncate_string_spec text r) as Hspec.
  destruct (truncate_string_to_recent_bytes text r) as [text' r']. cbn [fst snd] in *.
  destruct Hspec as (Hsum & (gone & Htext) & Hfit). exists gone. split_and!; [done| |].
  - intros Hr. apply (f_equal byte_len) in Htext. rewrite byte_len_app in Htext.
    apply byte_len_zero. lia.
  - intros ->. split; [apply byte_len_zero|]; lia.
Qed.

Lemma truncate_block_cuts : cuts_oldest truncate_block block_string single_block.
Proof.
  intros b r Hb. destruct b as [text cache| |text provider metadata|]; unfold truncate_block, block_string; simpl in *;
    try (exists ""; split_and!; [done|done|]; intros ->; done);
    pose proof (truncate_string_cuts text r Hb) as Hc;
    by destruct (truncate_string_to_recent_bytes text r) as [text' r'].
Qed.

Lemma filter_keeps_text content :
  concat_text (map block_string (List.filter keeps_block content)) = concat_text (map block_string content).
Proof.
  induction content as [|b content IH]; [done|]. simpl.
  fold (concat_text (map block_string content)). destruct (keeps_block b) eqn:Hk; simpl.
  - fold (concat_text (map block_string (List.filter keeps_block content))). by rewrite IH.
  - rewrite IH. unfold keeps_block in Hk. destruct b; try done; to_prop; subst; done.
Qed.

Lemma truncate_tracked_cuts : cuts_oldest truncate_tracked message_string single_message.
Proof.
  intros t r Ht. unfold truncate_tracked, truncate_content_to_recent_text_bytes.
  destruct (for_each_rev_cuts truncate_block block_string single_block (message_content (message t)) r
              truncate_block_cuts Ht) as (gone & Htext & Hleft & Hzero).
  destruct (for_each_rev truncate_block _ r) as [content r']. cbn [fst snd] in *. exists gone.
  unfold message_string. cbn [message]. rewrite set_content_content, filter_keeps_text. by split_and!.
Qed.

Lemma message_string_size t : byte_len (message_string t) = tracked_size t.
Proof.
  unfold message_string, tracked_size, message_text_bytes. rewrite content_text_bytes_sum.
  induction (message_content (message t)) as [|b content IH]; [done|]. cbn [map].
  change (byte_len (block_string b +:+ concat_text (map block_string content)) =
          (block_size b + usize_sum (map block_size content))%N).
  rewrite byte_len_app, IH. f_equal. by destruct b.
Qed.

Lemma messages_string_size ms : byte_len (messages_string ms) = messages_text_bytes_for_tracked ms.
Proof.
  unfold messages_string. rewrite messages_sum. induction ms as [|t ms IH]; [done|]. cbn [map].
  change (byte_len (message_string t +:+ concat_text (map message_string ms)) =
          (tracked_size t + usize_sum (map tracked_size ms))%N).
  by rewrite byte_len_app, IH, message_string_size.
Qed.

(** The byte budget keeps the most recent text: when every character is one byte, the text of the
    truncated messages, read as one text, is the end of the text there was, exactly as many of its
    bytes as the budget has, or all of them. *)
Theorem truncation_keeps_recent_text ms max :
  Forall single_message ms ->
  exists gone,
    messages_string ms = (gone +:+ messages_string (truncate_messages_to_recent_text_bytes ms max)) /\
    byte_len (messages_string (truncate_messages_to_recent_text_bytes ms max)) =
      N.min (byte_len (messages_string ms)) max.
Proof.
  intros Hs. unfold messages_string at 1.
  destruct (for_each_rev_cuts truncate_tracked message_string single_message ms max
              truncate_tracked_cuts Hs) as (gone & Ht & _ & _).
  exists gone. split; [exact Ht|]. rewrite !messages_string_size. by apply truncated_fills.
Qed.

(** ** The compiled context *)

(** What the byte budget makes of the messages the count budget kept. *)
Definition within_bytes (p : AgentContextCompilePolicy) (kept kept' : list TrackedMessage) : Prop :=
  match max_text_bytes p with
  | None => kept' = kept
  | Some m => kept' = truncate_messages_to_recent_text_bytes kept m
  end.

Lemma apply_message_budget_eq ms p d :
  let '(oldest, kept) := drain_oldest ms p in
  within_bytes p kept (fst (apply_message_budget ms p d)) /\
  dropped_entries (snd (apply_message_budget ms p d)) =
    dropped_entries d ++ map (dropped "max_messages") oldest.
Proof.
  unfold apply_message_budget, within_bytes. destruct (drain_oldest ms p) as [oldest kept].
  by destruct (max_text_bytes p).
Qed.

Lemma within_bytes_length p kept kept' : within_bytes p kept kept' -> length kept' = length kept.
Proof.
  unfold within_bytes. destruct (max_text_bytes p) as [m|]; intros ->; [|done].
  symmetry. eapply Forall2_length, truncated_same.
Qed.

(** The policy the messages are cut with: what the system blocks left of it. *)
Definition message_policy (input : AgentContextCompileInput) : AgentContextCompilePolicy :=
  {| max_messages := max_messages (policy input);
     max_text_bytes := (fun m => usize_saturating_sub m (budgeted_text_bytes
         (compile_system_blocks (static_system_sources input) (system input) (max_text_bytes (policy input)))))
       <$> max_text_bytes (policy input) |}.

(** The compiled messages: those of the input, without the oldest, cut to the bytes there are. *)
Lemma compile_messages input :
  exists tracked cleared oldest kept kept',
    collect_messages input = (tracked, cleared) /\
    tracked = oldest ++ kept /\ drain_oldest tracked (message_policy input) = (oldest, kept) /\
    within_bytes (message_policy input) kept kept' /\
    messages (compile input) = map message kept' /\
    dropped_entries (diagnostics (compile input)) = cleared ++ map (dropped "max_messages") oldest /\
    output_message_count (diagnostics (compile input)) = N.of_nat (length kept') /\
    retained_text_bytes (diagnostics (compile input)) =
      usize_saturating_add (messages_text_bytes_for_tracked kept')
        (budgeted_text_bytes (compile_system_blocks (static_system_sources input) (system input)
                                (max_text_bytes (policy input)))).
Proof.
  unfold compile. destruct (collect_messages input) as [tracked cleared] eqn:Hc.
  fold (message_policy input).
  match goal with |- context [apply_message_budget tracked _ ?d] =>
    pose proof (apply_message_budget_eq tracked (message_policy input) d) as Hb;
    pose proof (drain_oldest_split tracked (message_policy input)) as Hd;
    destruct (drain_oldest tracked (message_policy input)) as [oldest kept] eqn:Hdrain;
    destruct (apply_message_budget tracked (message_policy input) d) as [kept' d'] end.
  destruct Hb as [Hw Hdrops]. destruct Hd as [Hsplit _]. cbn [fst snd] in *.
  exists tracked, cleared, oldest, kept, kept'. split_and!; try done.
  - cbn. by rewrite length_map.
  - cbn [retained_text_bytes diagnostics]. f_equal. unfold messages_text_bytes, messages_text_bytes_for_tracked.
    by rewrite map_map.
Qed.


(** Every message is in the context or accounted for: the messages of the compiled context and
    its dropped entries together are the synthetic messages and those the entries produce, each once;
    the entries a compaction cleared come first, then the oldest the count budget dropped. *)
Theorem compile_accounts_for_messages input :
  length (messages (compile input)) + length (dropped_entries (diagnostics (compile input))) =
    length (leading input) + length (List.filter produces_message (session_entries input)) +
    length (trailing input) /\
  output_message_count (diagnostics (compile input)) = N.of_nat (length (messages (compile input))).
Proof.
  destruct (compile_messages input) as (tracked & cleared & oldest & kept & kept' & Hc & Hsplit & _ & Hw & Hm & Hdr & Hn & _).
  rewrite Hm, Hn, Hdr, !length_map, length_app, length_map. split; [|done].
  rewrite (within_bytes_length _ _ _ Hw). rewrite collect_messages_eq in Hc.
  pose proof (push_entries_count (session_entries input) (leading input) []) as Hcount.
  destruct (fold_left push_entry _ _) as [t d]. injection Hc as <- <-.
  apply (f_equal length) in Hsplit. rewrite !length_app in Hsplit. simpl in Hcount. lia.
Qed.

(** Without a policy the compiled messages are the session's own context: the model-visible
    messages of the entries, as the history defines them, after the environment of the turn and before
    its hooks, turn context and attachments. *)
Theorem compile_unbounded_is_session_context input :
  is_unbounded (policy input) = true ->
  messages (compile input) =
    append_model_visible_messages (session_entries input) (map message (leading input)) ++
    map message (trailing input).
Proof.
  intros Hp. unfold is_unbounded in Hp.
  destruct (max_messages (policy input)) eqn:H1; [done|].
  destruct (max_text_bytes (policy input)) eqn:H2; [done|].
  destruct (compile_messages input) as (tracked & cleared & oldest & kept & kept' & Hc & Hsplit & Hdrain & Hw & Hm & _).
  unfold drain_oldest, message_policy in Hdrain. cbn [max_messages] in Hdrain. rewrite H1 in Hdrain.
  injection Hdrain as <- <-. unfold within_bytes, message_policy in Hw. rewrite H2 in Hw. cbn in Hw. subst kept'.
  rewrite Hm, <- (push_entries_messages _ (leading input) []). rewrite collect_messages_eq in Hc.
  destruct (fold_left push_entry _ _) as [t d]. injection Hc as <- _. by rewrite map_app.
Qed.

Definition with_entries (entries : list SessionEntry) (input : AgentContextCompileInput) : AgentContextCompileInput :=
  {| system := system input; static_system_sources := static_system_sources input;
     session_entries := entries; turn_anchor_timestamp_ms := turn_anchor_timestamp_ms input;
     turn_context := turn_context input; hook_contexts := hook_contexts input;
     environment_contexts := environment_contexts input; attachments := attachments input;
     tools := tools input; policy := policy input |}.

(** A compaction hides what it summarises: whatever entries precede a compaction, the compiled
    messages are those of a session that starts with it, whatever the policy. *)
Theorem compaction_hides_the_past input before c summary after :
  entry_kind c = Compaction summary ->
  messages (compile (with_entries (before ++ c :: after) input)) =
  messages (compile (with_entries (c :: after) input)).
Proof.
  intros Hc.
  assert (fst (collect_messages (with_entries (before ++ c :: after) input)) =
          fst (collect_messages (with_entries (c :: after) input))) as Heq.
  { rewrite !collect_messages_eq. cbn [session_entries with_entries].
    pose proof (push_entries_after_compaction before c summary after
                  (leading (with_entries (before ++ c :: after) input)) [] Hc) as H1.
    pose proof (push_entries_after_compaction [] c summary after
                  (leading (with_entries (c :: after) input)) [] Hc) as H2.
    destruct (fold_left push_entry (before ++ c :: after) _) as [t1 d1].
    cbn [app] in H2. destruct (fold_left push_entry (c :: after) (leading _, _)) as [t2 d2].
    cbn [fst] in *. by rewrite H1, H2. }
  destruct (compile_messages (with_entries (before ++ c :: after) input)) as
    (t1 & c1 & o1 & k1 & k1' & Hc1 & _ & Hd1 & Hw1 & -> & _).
  destruct (compile_messages (with_entries (c :: after) input)) as
    (t2 & c2 & o2 & k2 & k2' & Hc2 & _ & Hd2 & Hw2 & -> & _).
  rewrite Hc1, Hc2 in Heq. cbn [fst] in Heq. subst t2.
  change (message_policy (with_entries (c :: after) input)) with
    (message_policy (with_entries (before ++ c :: after) input)) in *.
  rewrite Hd1 in Hd2. injection Hd2 as <- <-. unfold within_bytes in *.
  destruct (max_text_bytes (message_policy _)); by subst.
Qed.

(** ** The deterministic summary *)

(** The summary joins the last eight visible pieces, or all of them. *)
Lemma summary_pieces msgs :
  let pieces := List.filter (fun text => negb (is_blank text)) (omap message_text msgs) in
  pieces <> [] ->
  exists gone kept, pieces = gone ++ kept /\ length kept = Nat.min MAX_PIECES (length pieces) /\
    deterministic_compaction_summary msgs = join_lines kept.
Proof.
  cbv zeta. unfold deterministic_compaction_summary.
  set (pieces := List.filter _ _). intros Hne. destruct pieces as [|p ps]; [done|].
  destruct (Nat.ltb_spec MAX_PIECES (length (p :: ps))) as [Hlt|Hge].
  - exists (take (length (p :: ps) - MAX_PIECES) (p :: ps)), (drop (length (p :: ps) - MAX_PIECES) (p :: ps)).
    split_and!; [by rewrite take_drop|rewrite length_drop; lia|done].
  - exists [], (p :: ps). split_and!; [done|lia|done].
Qed.

(** * The compiled context: concrete inputs

    The theorems of [ContextFacts] applied to a small session, and a cut in the
    middle of a character, after which older text outlives newer. *)

From S2P Require Text.

Definition here : ThreadCoordinates := mk_coordinates "acme" "ann" "s1" 1%N.
Definition entry (id : positive) (kind : SessionEntryKind) : SessionEntry :=
  mk_entry (Npos id) None None here (Z.pos id) kind.
Definition said (id : positive) (text : string) : SessionEntry := entry id (Message (user_text_at text 7)).

Definition half : spec_float := binary_normalize 53 1024 1 (-1) false.
Definition segment (pin : bool) (share : option spec_float) (content : string) : AgentManifestStaticContextSegment :=
  {| segment_id := "s"; assembler := "a"; segment_input := "i"; pinned := pin; budget_share := share;
     ref_uri := "r"; content_sha256 := "h"; segment_content := content |}.

Definition quiet_turn : TurnContextSnapshot :=
  {| cwd := Some "/work"; workspace_roots := []; turn_metadata := []; environment := [("TZ", "UTC")];
     model_visible_context := ["  "; "now"] |}.

Definition session (p : AgentContextCompilePolicy) (entries : list SessionEntry) : AgentContextCompileInput :=
  {| system := [system_text "be brief"];
     static_system_sources := [segment true None "rules"; segment false (Some half) "0123456789"];
     session_entries := entries; turn_anchor_timestamp_ms := 9; turn_context := quiet_turn;
     hook_contexts := ["hook"]; environment_contexts := []; attachments := []; tools := []; policy := p |}.

Definition tight : AgentContextCompilePolicy := {| max_messages := Some 3%N; max_text_bytes := Some 16%N |}.
Definition talk : list SessionEntry := [said 1 "old"; said 2 "abcdef"].

Definition texts (ms : list CanonicalMessage) : list (list string) := map (fun m => omap block_chunk (message_content m)) ms.

(** The share of a byte budget is computed as the code's floating point does. *)
Example half_of_the_budget :
  fractional_budget_limit 16 half = 8%N /\ fractional_budget_limit 16 (S754_infinity false) = 0%N /\
  fractional_budget_limit 9007199254740993 (binary_normalize 53 1024 1 0 false) = 9007199254740992%N.
Proof. by vm_compute. Qed.

Example tight_session :
  texts (messages (compile (session tight talk))) = [["f"]; ["hook"]; ["now"]] /\
  map block_text (compiled_system (compile (session tight talk))) = ["rules"; "01234567"; "be brief"] /\
  (retained_text_bytes (diagnostics (compile (session tight talk))) = 16%N /\
   truncated_text_bytes (diagnostics (compile (session tight talk))) = 7%N).
Proof. by vm_compute. Qed.

Lemma compile_system_blocks_spec_witness :
  (forall m, Some 16%N = Some m -> (m <= Text.usize_max)%N) /\
  exists bs,
    blocks (compile_system_blocks (static_system_sources (session tight talk)) [system_text "be brief"] (Some 16%N))
      = bs ++ [system_text "be brief"] /\
    source_blocks (static_system_sources (session tight talk)) bs /\
    forall m, Some 16%N = Some m ->
      (budgeted_text_bytes (compile_system_blocks (static_system_sources (session tight talk))
                              [system_text "be brief"] (Some 16%N)) <= m)%N.
Proof.
  assert (forall m, Some 16%N = Some m -> (m <= Text.usize_max)%N) as Hm by (by intros m [= <-]).
  split; [exact Hm|].
  exact (compile_system_blocks_spec (static_system_sources (session tight talk)) [system_text "be brief"]
           (Some 16%N) Hm).
Defined.


Definition tracked_talk : list TrackedMessage :=
  [synthetic 7 History "abc"; synthetic 7 History "defg"].

Lemma truncation_keeps_recent_text_witness :
  Forall single_message tracked_talk /\
  messages_string (truncate_messages_to_recent_text_bytes tracked_talk 5) = "cdefg" /\
  exists gone,
    messages_string tracked_talk =
      (gone +:+ messages_string (truncate_messages_to_recent_text_bytes tracked_talk 5)) /\
    byte_len (messages_string (truncate_messages_to_recent_text_bytes tracked_talk 5)) =
      N.min (byte_len (messages_string tracked_talk)) 5.
Proof.
  assert (Forall single_message tracked_talk) as Hs.
  { repeat (constructor; [repeat constructor|]). constructor. }
  split_and!; [exact Hs|by vm_compute|]. exact (truncation_keeps_recent_text tracked_talk 5%N Hs).
Defined.

Lemma compile_unbounded_is_session_context_witness :
  is_unbounded (policy (session unbounded talk)) = true /\
  messages (compile (session unbounded talk)) =
    append_model_visible_messages talk (map message (leading (session unbounded talk))) ++
    map message (trailing (session unbounded talk)).
Proof. split; [reflexivity|]. exact (compile_unbounded_is_session_context (session unbounded talk) eq_refl). Defined.

Definition summarised : SessionEntry := entry 3 (Compaction "facts").

Lemma compaction_hides_the_past_witness :
  entry_kind summarised = Compaction "facts" /\
  texts (messages (compile (session unbounded (talk ++ summarised :: [said 4 "new"])))) =
    [["Compacted conversation summary:" +:+ newline +:+ "facts"]; ["new"]; ["hook"]; ["now"]] /\
  messages (compile (with_entries (talk ++ summarised :: [said 4 "new"]) (session unbounded []))) =
  messages (compile (with_entries (summarised :: [said 4 "new"]) (session unbounded []))).
Proof.
  split_and!; [reflexivity|by vm_compute|].
  exact (compaction_hides_the_past (session unbounded []) talk summarised "facts" [said 4 "new"] eq_refl).
Defined.

(** A budget that ends inside a character: the newest text does not fit by a byte and goes, what is
    left of the budget is spent on an older message, which stays. *)
Definition e_acute : string := String (Ascii.ascii_of_nat 195) (String (Ascii.ascii_of_nat 169) "").

Theorem older_text_outlives_newer :
  texts (map message (truncate_messages_to_recent_text_bytes
    [synthetic 7 History "a"; synthetic 7 History e_acute] 1)) = [["a"]; []].
Proof. by vm_compute. Qed.

(** Eight pieces at most, the latest ones. *)
Example summary_of_nine :
  deterministic_compaction_summary
    (map (fun t => user_text_at t 7) ["1"; "2"; "3"; " "; "4"; "5"; "6"; "7"; "8"; "9"]) =
  join_lines ["2"; "3"; "4"; "5"; "6"; "7"; "8"; "9"].
Proof. by vm_compute. Qed.
