(* ===== verification/Coupling.v ===== *)
(** * The coupling scheduler

    Models [verlet-kernel/src/kernel/coupling_scheduler.rs] with the bound
    couplings of [verlet-kernel/src/agent/manifest_bind.rs]: events appended to a
    thread's streams trigger couplings, a coupling reads its sources and
    discharges events to its sink, and these may trigger others.

    The executor is the class [CouplingExecutor] with a state of its own; the
    store is any [EventStore] that appends.  The ids and times the code draws are
    the sequence [draw]. *)

From stdpp Require Import base gmap sets list strings pretty.
From Stdlib Require Import NArith ZArith Lia.
From S2P Require Import Prelude Json EventKind Contracts Records Store EventLog.

Local Open Scope verlet_scope.
Local Open Scope string_scope.
Local Open Scope list_scope.

(** ** Machine integers *)

Definition u32_max : N := 4294967295.
(** [as u32] of a length, and the addition of a release build. *)
Definition as_u32 (n : N) : N := (n mod (u32_max + 1))%N.
Definition u32_add (a b : N) : N := as_u32 (a + b).

(** ** Bound couplings *)

Inductive CouplingRole := Projection | Controller.

Record CouplingQuota := {
  per_turn : option N;
  per_thread : option N;
}.

Record CouplingBudget := {
  max_ms : option N;
  max_discharge_events : option N;
}.

Record BoundCouplingSelector := {
  selector_stream : string;
  selector_kinds : list EventKind;
  selector_scope : option string;
  selector_since : option string;
}.

Record BoundCouplingSink := {
  sink_stream : string;
  sink_kinds : list EventKind;
}.

Record BoundCouplingFunction := {
  function_name : string;
  function_artifact_hash : string;
  function_operation_name : option string;
}.

Record BoundCoupling := {
  coupling_id : string;
  role : CouplingRole;
  trigger_kind : EventKind;
  trigger_match : list (string * json);
  trigger_quota : CouplingQuota;
  source_selectors : list BoundCouplingSelector;
  sink : BoundCouplingSink;
  function_ref : string;
  coupling_function : BoundCouplingFunction;
  budget : CouplingBudget;
  config : json;
  coupling_config_hash : string;
}.

Record BoundCouplingSet := {
  snapshot_id : string;
  couplings : list BoundCoupling;
}.

Record CouplingSchedulerConfig := {
  max_depth : N;
  max_discharge_events_per_cycle : N;
}.
Definition default_config : CouplingSchedulerConfig :=
  {| max_depth := 8; max_discharge_events_per_cycle := 128 |}.

(** ** Activations, runs and receipts *)

Record CouplingActivation := {
  root_event_id : EventRecordId;
  trigger_event_id : EventRecordId;
  trigger_stream_id : string;
  trigger_sequence : Z;
  activated_coupling_id : string;
  depth : N;
  activation_snapshot_id : string;
}.

Record QueuedActivation := {
  batch_index : nat;
  activation : CouplingActivation;
  trigger_event : EventRecord;
  coupling : BoundCoupling;
}.

Record CouplingSourceCutEntry := {
  cut_entry_stream_id : string;
  max_sequence : Z;
}.
(** [CouplingSourceCut], and its [default]. *)
Notation CouplingSourceCut := (list CouplingSourceCutEntry).

Inductive CouplingRunStatus := Completed | Failed | Skipped.

Record CouplingDischarge := {
  discharge_event_id : option EventRecordId;
  discharge_stream : string;
  discharge_kind : EventKind;
  discharge_payload : json;
}.

Record CouplingInvocation := {
  invoked_activation : CouplingActivation;
  invoked_coupling : BoundCoupling;
  invoked_trigger_event : EventRecord;
  invoked_source_cut : CouplingSourceCut;
  invoked_source_events : list EventRecord;
}.

(** What runs a coupling's function: it answers with discharges or an error, and may change a
    state of its own. *)
Class CouplingExecutor (X : Type) := {
  executor_error : Type;
  invoke : CouplingInvocation -> X -> X * result (list CouplingDischarge) executor_error;
}.

(** The reasons a run is failed or skipped for, each with what its text is made from. *)
Inductive run_reason (executor_error : Type) :=
  | DepthLimitExhausted
  | QuotaExhausted
  | SourceUnreadable (e : HistoryError)
  | ExecutorFailed (e : executor_error)
  | OverCouplingBudget (coupling : string)
  | OverSchedulerBudget (coupling : string)
  | SinkStreamViolation (coupling stream bound : string)
  | SinkKindViolation (coupling : string) (kind : EventKind).
Arguments DepthLimitExhausted {_}.
Arguments QuotaExhausted {_}.
Arguments SourceUnreadable {_} _.
Arguments ExecutorFailed {_} _.
Arguments OverCouplingBudget {_} _.
Arguments OverSchedulerBudget {_} _.
Arguments SinkStreamViolation {_} _ _ _.
Arguments SinkKindViolation {_} _ _.

(** A receipt, over what it knows of the reason: the scheduler's is the reason itself, a decoded
    one's its text. *)
Record CouplingRunReceipt (reason : Type) := {
  run_coupling_id : string;
  run_role : CouplingRole;
  status : CouplingRunStatus;
  run_reason_of : option reason;
  run_root_event_id : EventRecordId;
  run_trigger_event_id : EventRecordId;
  run_trigger_stream_id : string;
  run_trigger_sequence : Z;
  run_snapshot_id : string;
  run_depth : N;
  run_source_cut : CouplingSourceCut;
  run_source_event_ids : list EventRecordId;
  discharged_event_ids : list EventRecordId;
  run_function_ref : string;
  run_config_hash : string;
  spent_discharge_events : N;
}.
Arguments run_coupling_id {_} _.
Arguments run_role {_} _.
Arguments status {_} _.
Arguments run_reason_of {_} _.
Arguments run_root_event_id {_} _.
Arguments run_trigger_event_id {_} _.
Arguments run_trigger_stream_id {_} _.
Arguments run_trigger_sequence {_} _.
Arguments run_snapshot_id {_} _.
Arguments run_depth {_} _.
Arguments run_source_cut {_} _.
Arguments run_source_event_ids {_} _.
Arguments discharged_event_ids {_} _.
Arguments run_function_ref {_} _.
Arguments run_config_hash {_} _.
Arguments spent_discharge_events {_} _.

(** ** Streams and triggers *)

Section Streams.
Context `{UuidText}.

(** [stream_id_for]. *)
Definition stream_id_for (c : ThreadCoordinates) (stream : string) : EventStreamId :=
  if String.eqb stream "thread" then for_thread c
  else stream +:+ ":" +:+ uuid_text (thread_id c).

(** [root_depth_from_event]. *)
Definition root_depth_from_event (event : EventRecord) : EventRecordId * N :=
  match origin event with
  | Witnessed => (event_id event, 0%N)
  | Discharged => (default (event_id event) (head (source_event_ids (provenance event))), 1%N)
  end.

(** [coupling_matches_event]. *)
Definition coupling_matches_event (c : BoundCoupling) (event : EventRecord) : bool :=
  bool_decide (trigger_kind c = kind event) &&
  forallb (fun expected : string * json =>
    match value_get expected.1 (payload event) with
    | Some v => json_eqb v expected.2
    | None => false
    end) (trigger_match c).

(** [quota_exhausted]. *)
Definition quota_exhausted (c : BoundCoupling) (per_turn_count per_thread_count : N) : bool :=
  match per_turn (trigger_quota c) with Some limit => (limit <=? per_turn_count)%N | None => false end ||
  match per_thread (trigger_quota c) with Some limit => (limit <=? per_thread_count)%N | None => false end.

(** [counted_thread_quota_run]. *)
Definition counted_thread_quota_run (id : string) (event : EventRecord) : bool :=
  (bool_decide (kind event = CouplingRunCompleted) || bool_decide (kind event = CouplingRunFailed)) &&
  bool_decide ((value_get "coupling_id" (payload event) ≫= as_str) = Some id) &&
  negb (bool_decide ((value_get "status" (payload event) ≫= as_str) = Some "skipped")).

(** [ActivationKey::from_activation]. *)
Definition activation_key (a : CouplingActivation) : string * string * string :=
  (uuid_text (trigger_event_id a), activated_coupling_id a, activation_snapshot_id a).

(** [ThreadCouplingRunKey::new]. *)
Definition thread_run_key (c : ThreadCoordinates) (id : string) : string * string :=
  (stream_id_for c "control", id).

(** [event_provenance]. *)
Definition event_provenance (a : CouplingActivation) (c : BoundCoupling) (cut : CouplingSourceCut)
    (source_events : list EventRecord) : EventProvenance :=
  mk_provenance
    (match cut with [] => [trigger_stream_id a] | _ => map cut_entry_stream_id cut end)
    (match source_events with [] => [trigger_event_id a] | _ => map event_id source_events end)
    None [] (Some ("coupling:" +:+ coupling_id c)) (Some (function_ref c)) (Some (coupling_config_hash c)).

(** [RootDepth]. *)
Inductive RootDepth :=
  | FromEvent
  | Inherited (root : EventRecordId) (depth : N).

Definition root_and_depth (r : RootDepth) (event : EventRecord) : EventRecordId * N :=
  match r with
  | FromEvent => root_depth_from_event event
  | Inherited root depth => (root, depth)
  end.

(** The loop body of [enqueue_matches]: one coupling against one event of the batch. *)
Definition enqueue_one (set : BoundCouplingSet) (r : RootDepth) (index : nat) (event : EventRecord)
    (acc : gset (string * string * string) * list QueuedActivation) (c : BoundCoupling)
    : gset (string * string * string) * list QueuedActivation :=
  let '(seen, candidates) := acc in
  if negb (coupling_matches_event c event) then acc
  else
    let '(root, d) := root_and_depth r event in
    let a := {| root_event_id := root; trigger_event_id := event_id event;
                trigger_stream_id := stream_id event; trigger_sequence := sequence event;
                activated_coupling_id := coupling_id c; depth := d;
                activation_snapshot_id := snapshot_id set |} in
    if bool_decide (activation_key a ∈ seen) then acc
    else ({[ activation_key a ]} ∪ seen,
          candidates ++ [{| batch_index := index; activation := a; trigger_event := event; coupling := c |}]).

Definition candidates_of (set : BoundCouplingSet) (events : list EventRecord)
    (seen : gset (string * string * string)) (r : RootDepth)
    : gset (string * string * string) * list QueuedActivation :=
  fold_left (fun acc '(index, event) => fold_left (enqueue_one set r index event) (couplings set) acc)
    (imap pair events) (seen, []).

(** The order of a batch: by index, stream, sequence and coupling, as stable sorts from the last
    key to the first. *)
Definition order_candidates (candidates : list QueuedActivation) : list QueuedActivation :=
  sort_by_z (fun q => Z.of_nat (batch_index q))
    (sort_by_key (fun q => trigger_stream_id (activation q))
      (sort_by_z (fun q => trigger_sequence (activation q))
        (sort_by_key (fun q => activated_coupling_id (activation q)) candidates))).

(** [enqueue_matches]. *)
Definition enqueue_matches (set : BoundCouplingSet) (events : list EventRecord)
    (seen : gset (string * string * string)) (queue : list QueuedActivation) (r : RootDepth)
    : gset (string * string * string) * list QueuedActivation :=
  let '(seen, candidates) := candidates_of set events seen r in
  (seen, queue ++ order_candidates candidates).

(** ** Receipts as payloads *)

Definition role_text (r : CouplingRole) : string :=
  match r with Projection => "projection" | Controller => "controller" end.
Definition status_text (s : CouplingRunStatus) : string :=
  match s with Completed => "completed" | Failed => "failed" | Skipped => "skipped" end.
Definition cut_json (cut : CouplingSourceCut) : json :=
  jobj [("entries", JArray (map (fun e => jobj [("stream_id", JString (cut_entry_stream_id e));
                                                ("max_sequence", jint (max_sequence e))]) cut))].
End Streams.

(** The texts of the reasons that quote other values. *)
Class CouplingTexts (executor_error : Type) := { display_reason : run_reason executor_error -> string }.
Definition reason_text {E} `{CouplingTexts E} (r : run_reason E) : string :=
  match r with
  | DepthLimitExhausted => "depth_limit_exhausted"
  | QuotaExhausted => "quota_exhausted"
  | r => display_reason r
  end.

(** [serde_json::to_value] of a receipt. *)
Definition receipt_json `{UuidText} {E} `{CouplingTexts E} (run : CouplingRunReceipt (run_reason E)) : json :=
  let ids l := JArray (map (fun id => JString (uuid_text id)) l) in
  jobj ([("coupling_id", JString (run_coupling_id run)); ("role", JString (role_text (run_role run)));
         ("status", JString (status_text (status run)))] ++
        opt_field "reason" (fun r => JString (reason_text r)) (run_reason_of run) ++
        [("root_event_id", JString (uuid_text (run_root_event_id run)));
         ("trigger_event_id", JString (uuid_text (run_trigger_event_id run)));
         ("trigger_stream_id", JString (run_trigger_stream_id run));
         ("trigger_sequence", jint (run_trigger_sequence run));
         ("snapshot_id", JString (run_snapshot_id run));
         ("depth", jint (Z.of_N (run_depth run)));
         ("source_cut", cut_json (run_source_cut run));
         ("source_event_ids", ids (run_source_event_ids run));
         ("discharged_event_ids", ids (discharged_event_ids run));
         ("function_ref", JString (run_function_ref run));
         ("config_hash", JString (run_config_hash run));
         ("budget_spent", jobj [("discharge_events", jint (Z.of_N (spent_discharge_events run)))])]).

(** ** One cycle *)

Section Scheduler.
Context `{UuidText} {S : Type} `{EventStore S} `{EventAppend S} {X : Type} `{CouplingExecutor X}.
Context `{!CouplingTexts executor_error}.
(** The id and the time of each event that is made, in the order they are. *)
Variable draw : nat -> EventRecordId * Z.
Variable cfg : CouplingSchedulerConfig.

Record World := {
  store : S;
  executor : X;
  drawn : nat;
}.

(** [VerletError::History] of the store's error. *)
Notation Call A := (st World HistoryError A).
Notation Receipt := (CouplingRunReceipt (run_reason executor_error)).

Definition new_event (c : ThreadCoordinates) (k : EventKind) (p : json) (v : EventProvenance)
    : Call NewEventRecord := fun w =>
  ({| store := store w; executor := executor w; drawn := Datatypes.S (drawn w) |},
   Ok (let '(id, now) := draw (drawn w) in discharged id now c k p v)).

Definition append (stream : EventStreamId) (records : list NewEventRecord) : Call (list EventRecord) :=
  fun w =>
    let '(s, r) := log_append stream records (store w) in
    ({| store := s; executor := executor w; drawn := drawn w |}, r).

Definition read (stream : EventStreamId) : Call (list EventRecord) :=
  fun w => (w, log_read (store w) stream None).

(** [resolve_source_cut]: the loop body over the selectors. *)
Record Sources := {
  cut_entries : list (string * Z);
  selected : list EventRecord;
  seen_event_ids : gset EventRecordId;
}.

Definition select_event (acc : Sources) (event : EventRecord) : Sources :=
  if bool_decide (event_id event ∈ seen_event_ids acc) then acc
  else {| cut_entries := cut_entries acc; selected := selected acc ++ [event];
          seen_event_ids := {[ event_id event ]} ∪ seen_event_ids acc |}.

Definition highest_sequence (events : list EventRecord) : Z :=
  match map sequence events with
  | [] => 0
  | s :: l => fold_left Z.max l s
  end.

Definition read_selector (trigger : EventRecord) (acc : Sources) (sel : BoundCouplingSelector) : Call Sources :=
  let stream := stream_id_for (coordinates trigger) (selector_stream sel) in
  events <-! read stream ;;
  let highest := highest_sequence events in
  let highest := match obj_get stream (cut_entries acc) with Some v => Z.max v highest | None => highest end in
  st_ret (fold_left select_event
    (List.filter (fun e => existsb (fun k => bool_decide (k = kind e)) (selector_kinds sel)) events)
    {| cut_entries := obj_insert stream highest (cut_entries acc); selected := selected acc;
       seen_event_ids := seen_event_ids acc |}).

Fixpoint read_selectors (trigger : EventRecord) (acc : Sources) (sels : list BoundCouplingSelector) : Call Sources :=
  match sels with
  | [] => st_ret acc
  | sel :: sels => acc <-! read_selector trigger acc sel ;; read_selectors trigger acc sels
  end.

Definition order_sources (events : list EventRecord) : list EventRecord :=
  sort_by_key stream_id (sort_by_z sequence (sort_by_key (fun e => uuid_text (event_id e)) events)).

Definition resolve_source_cut (c : BoundCoupling) (trigger : EventRecord)
    : Call (CouplingSourceCut * list EventRecord) :=
  acc <-! read_selectors trigger {| cut_entries := []; selected := []; seen_event_ids := ∅ |} (source_selectors c) ;;
  st_ret (map (fun e => {| cut_entry_stream_id := e.1; max_sequence := e.2 |}) (cut_entries acc),
          order_sources (selected acc)).

(** [append_sink_events]. *)
Definition discharge_event (q : QueuedActivation) (cut : CouplingSourceCut) (source_events : list EventRecord)
    (d : CouplingDischarge) : Call NewEventRecord :=
  record <-! new_event (coordinates (trigger_event q)) (discharge_kind d) (discharge_payload d)
    (event_provenance (activation q) (coupling q) cut source_events) ;;
  st_ret (match discharge_event_id d with
          | Some id => mk_new_event id (new_coordinates record) (new_created_at_ms record) (new_kind record)
                         (new_origin record) (new_provenance record) (new_payload record)
          | None => record
          end).

Fixpoint group_discharges (q : QueuedActivation) (cut : CouplingSourceCut) (source_events : list EventRecord)
    (groups : list (string * list NewEventRecord)) (ds : list CouplingDischarge)
    : Call (list (string * list NewEventRecord)) :=
  match ds with
  | [] => st_ret groups
  | d :: ds =>
      record <-! discharge_event q cut source_events d ;;
      group_discharges q cut source_events
        (obj_insert (discharge_stream d)
           (default [] (obj_get (discharge_stream d) groups) ++ [record]) groups) ds
  end.

Fixpoint append_groups (c : ThreadCoordinates) (appended : list EventRecord)
    (groups : list (string * list NewEventRecord)) : Call (list EventRecord) :=
  match groups with
  | [] => st_ret appended
  | (stream, records) :: groups =>
      events <-! append (stream_id_for c stream) records ;;
      append_groups c (appended ++ events) groups
  end.

Definition append_sink_events (q : QueuedActivation) (cut : CouplingSourceCut) (source_events : list EventRecord)
    (ds : list CouplingDischarge) : Call (list EventRecord) :=
  match ds with
  | [] => st_ret []
  | _ =>
      groups <-! group_discharges q cut source_events [] ds ;;
      append_groups (coordinates (trigger_event q)) [] groups
  end.

(** [append_run_receipt]. *)
Definition run_receipt (q : QueuedActivation) (s : CouplingRunStatus) (reason : option (run_reason executor_error))
    (cut : CouplingSourceCut) (source_events : list EventRecord) (discharged : list EventRecordId) : Receipt :=
  {| run_coupling_id := coupling_id (coupling q); run_role := role (coupling q); status := s;
     run_reason_of := reason; run_root_event_id := root_event_id (activation q);
     run_trigger_event_id := trigger_event_id (activation q);
     run_trigger_stream_id := trigger_stream_id (activation q);
     run_trigger_sequence := trigger_sequence (activation q);
     run_snapshot_id := activation_snapshot_id (activation q); run_depth := depth (activation q);
     run_source_cut := cut; run_source_event_ids := map event_id source_events;
     discharged_event_ids := discharged; run_function_ref := function_ref (coupling q);
     run_config_hash := coupling_config_hash (coupling q);
     spent_discharge_events := as_u32 (N.of_nat (length discharged)) |}.

Definition run_kind (s : CouplingRunStatus) : EventKind :=
  match s with Completed => CouplingRunCompleted | Failed | Skipped => CouplingRunFailed end.

Definition append_run_receipt (q : QueuedActivation) (s : CouplingRunStatus)
    (reason : option (run_reason executor_error)) (cut : CouplingSourceCut) (source_events : list EventRecord)
    (discharged : list EventRecordId) : Call (Receipt * list EventRecord) :=
  let run := run_receipt q s reason cut source_events discharged in
  let c := coordinates (trigger_event q) in
  record <-! new_event c (run_kind s) (receipt_json run)
    (event_provenance (activation q) (coupling q) cut source_events) ;;
  appended <-! append (stream_id_for c "control") [record] ;;
  st_ret (run, appended).

(** [validate_discharges]. *)
Definition check_discharge (c : BoundCoupling) (d : CouplingDischarge) : result unit (run_reason executor_error) :=
  if negb (String.eqb (discharge_stream d) (sink_stream (sink c)))
  then Err (SinkStreamViolation (coupling_id c) (discharge_stream d) (sink_stream (sink c)))
  else if negb (existsb (fun k => bool_decide (k = discharge_kind d)) (sink_kinds (sink c)))
  then Err (SinkKindViolation (coupling_id c) (discharge_kind d))
  else Ok tt.

Definition validate_discharges (c : BoundCoupling) (ds : list CouplingDischarge) (remaining : N)
    : result unit (run_reason executor_error) :=
  let len := N.of_nat (length ds) in
  if match max_discharge_events (budget c) with Some limit => (limit <? len)%N | None => false end
  then Err (OverCouplingBudget (coupling_id c))
  else if (remaining <? len)%N then Err (OverSchedulerBudget (coupling_id c))
  else for_each (check_discharge c) ds.

(** The variables of [run_batch]'s loop. *)
Record Cycle := {
  seen : gset (string * string * string);
  queue : list QueuedActivation;
  runs : list Receipt;
  appended_events : list EventRecord;
  per_turn_run_counts : gmap string N;
  per_thread_run_counts : gmap (string * string) N;
  remaining_discharge_budget : N;
}.

(** [thread_run_count]. *)
Definition thread_run_count (q : QueuedActivation) (counts : gmap (string * string) N)
    : Call ((string * string) * N * gmap (string * string) N) :=
  let key := thread_run_key (coordinates (trigger_event q)) (coupling_id (coupling q)) in
  match counts !! key with
  | Some count => st_ret (key, count, counts)
  | None =>
      events <-! read (stream_id_for (coordinates (trigger_event q)) "control") ;;
      let count := as_u32 (N.of_nat (length
        (List.filter (counted_thread_quota_run (coupling_id (coupling q))) events))) in
      st_ret (key, count, <[key := count]> counts)
  end.

Definition next_depth (q : QueuedActivation) : RootDepth :=
  Inherited (root_event_id (activation q)) (u32_add (depth (activation q)) 1).

(** The end of a run: its receipt, with the events before it, triggers couplings one deeper. *)
Definition end_run (set : BoundCouplingSet) (cy : Cycle) (q : QueuedActivation) (sink_events : list EventRecord)
    (remaining : N) (s : CouplingRunStatus) (reason : option (run_reason executor_error))
    (cut : CouplingSourceCut) (source_events : list EventRecord) : Call Cycle :=
  receipt <-! append_run_receipt q s reason cut source_events (map event_id sink_events) ;;
  let '(run, appended) := receipt in
  let generated := sink_events ++ appended in
  let '(seen', queue') := enqueue_matches set generated (seen cy) (queue cy) (next_depth q) in
  st_ret {| seen := seen'; queue := queue'; runs := runs cy ++ [run];
            appended_events := appended_events cy ++ generated;
            per_turn_run_counts := per_turn_run_counts cy;
            per_thread_run_counts := per_thread_run_counts cy;
            remaining_discharge_budget := remaining |}.

(** The run is skipped because it is too deep: its receipt triggers nothing. *)
Definition skip_depth (cy : Cycle) (q : QueuedActivation) : Call Cycle :=
  receipt <-! append_run_receipt q Skipped (Some DepthLimitExhausted) [] [] [] ;;
  let '(run, appended) := receipt in
  st_ret {| seen := seen cy; queue := queue cy; runs := runs cy ++ [run];
            appended_events := appended_events cy ++ appended;
            per_turn_run_counts := per_turn_run_counts cy;
            per_thread_run_counts := per_thread_run_counts cy;
            remaining_discharge_budget := remaining_discharge_budget cy |}.

(** [self.executor.invoke]. *)
Definition invoke_executor (request : CouplingInvocation)
    : Call (result (list CouplingDischarge) executor_error) := fun w =>
  let '(x, r) := invoke request (executor w) in
  ({| store := store w; executor := x; drawn := drawn w |}, Ok r).

(** [resolve_source_cut] with its error kept as a value. *)
Definition try_sources (q : QueuedActivation)
    : Call (result (CouplingSourceCut * list EventRecord) HistoryError) := fun w =>
  let '(w, r) := resolve_source_cut (coupling q) (trigger_event q) w in (w, Ok r).

Definition with_counts (cy : Cycle) (turn : gmap string N) (thread : gmap (string * string) N) : Cycle :=
  {| seen := seen cy; queue := queue cy; runs := runs cy; appended_events := appended_events cy;
     per_turn_run_counts := turn; per_thread_run_counts := thread;
     remaining_discharge_budget := remaining_discharge_budget cy |}.

(** The run itself, once it is admitted. *)
Definition run_admitted (set : BoundCouplingSet) (cy : Cycle) (q : QueuedActivation) : Call Cycle :=
  let remaining := remaining_discharge_budget cy in
  sources <-! try_sources q ;;
  match sources with
  | Err e => end_run set cy q [] remaining Failed (Some (SourceUnreadable e)) [] []
  | Ok (cut, source_events) =>
      execution <-! invoke_executor
        {| invoked_activation := activation q; invoked_coupling := coupling q;
           invoked_trigger_event := trigger_event q; invoked_source_cut := cut;
           invoked_source_events := source_events |} ;;
      match execution with
      | Err e => end_run set cy q [] remaining Failed (Some (ExecutorFailed e)) cut source_events
      | Ok ds =>
          match validate_discharges (coupling q) ds remaining with
          | Err reason => end_run set cy q [] remaining Failed (Some reason) cut source_events
          | Ok _ =>
              sink_events <-! append_sink_events q cut source_events ds ;;
              end_run set cy q sink_events
                (remaining - as_u32 (N.of_nat (length sink_events)))%N Completed None cut source_events
          end
      end
  end.

(** One turn of the loop, for the activation at the front of the queue. *)
Definition run_one (set : BoundCouplingSet) (cy : Cycle) (q : QueuedActivation) : Call Cycle :=
  if (max_depth cfg <? depth (activation q))%N then skip_depth cy q
  else
    let per_turn_count := default 0%N (per_turn_run_counts cy !! coupling_id (coupling q)) in
    counted <-! (match per_thread (trigger_quota (coupling q)) with
                 | Some _ =>
                     counted <-! thread_run_count q (per_thread_run_counts cy) ;;
                     let '(key, count, counts) := counted in
                     st_ret (Some (key, count), counts)
                 | None => st_ret (None, per_thread_run_counts cy)
                 end) ;;
    let '(thread_count, thread_counts) := counted in
    let per_thread_count := match thread_count with Some (_, count) => count | None => 0%N end in
    if quota_exhausted (coupling q) per_turn_count per_thread_count then
      end_run set (with_counts cy (per_turn_run_counts cy) thread_counts) q [] (remaining_discharge_budget cy)
        Skipped (Some QuotaExhausted) [] []
    else
      let turn_counts := <[coupling_id (coupling q) := u32_add per_turn_count 1]> (per_turn_run_counts cy) in
      let thread_counts :=
        match thread_count with
        | Some (key, _) => <[key := u32_add (default 0%N (thread_counts !! key)) 1]> thread_counts
        | None => thread_counts
        end in
      run_admitted set (with_counts cy turn_counts thread_counts) q.

(** The [while] loop: [None] when the fuel is used up. *)
Fixpoint run_queue (fuel : nat) (set : BoundCouplingSet) (cy : Cycle) (w : World)
    : option (World * result Cycle HistoryError) :=
  match queue cy with
  | [] => Some (w, Ok cy)
  | q :: rest =>
      match fuel with
      | O => None
      | Datatypes.S fuel =>
          let cy := {| seen := seen cy; queue := rest; runs := runs cy; appended_events := appended_events cy;
                       per_turn_run_counts := per_turn_run_counts cy;
                       per_thread_run_counts := per_thread_run_counts cy;
                       remaining_discharge_budget := remaining_discharge_budget cy |} in
          match run_one set cy q w with
          | (w, Ok cy) => run_queue fuel set cy w
          | (w, Err e) => Some (w, Err e)
          end
      end
  end.

Definition first_cycle (set : BoundCouplingSet) (appended : list EventRecord) : Cycle :=
  let '(seen, queue) := enqueue_matches set appended ∅ [] FromEvent in
  {| seen := seen; queue := queue; runs := []; appended_events := []; per_turn_run_counts := ∅;
     per_thread_run_counts := ∅; remaining_discharge_budget := max_discharge_events_per_cycle cfg |}.

(** [CouplingSchedulerCycleReceipt] and [run_batch]. *)
Record CycleReceipt := {
  receipt_snapshot_id : string;
  receipt_runs : list Receipt;
  receipt_appended_events : list EventRecord;
}.

Definition run_batch (fuel : nat) (set : BoundCouplingSet) (appended : list EventRecord) (w : World)
    : option (World * result CycleReceipt HistoryError) :=
  (fun '(w, r) =>
     (w, result_map (fun cy => {| receipt_snapshot_id := snapshot_id set; receipt_runs := runs cy;
                                  receipt_appended_events := appended_events cy |}) r))
  <$> run_queue fuel set (first_cycle set appended) w.
End Scheduler.
