(* ===== verification/CouplingFacts.v ===== *)
(** * What a scheduler cycle does

    A cycle ends; what it writes is what its receipts report; a coupling
    discharges only to its sink and within its budgets; and no activation runs
    twice.  The quotas are in [CouplingQuota]. *)

From stdpp Require Import base gmap sets list strings pretty sorting.
From Stdlib Require Import NArith ZArith Lia.
From S2P Require Import Prelude Json EventKind Contracts Records Store Journal EventLog Coupling.

Local Open Scope verlet_scope.
Local Open Scope string_scope.
Local Open Scope list_scope.

(** ** Enqueued activations *)

Section Enqueue.
Context `{UuidText}.

(** An activation of one of the couplings by one of the events. *)
Definition activates (set : BoundCouplingSet) (r : RootDepth) (events : list EventRecord) (q : QueuedActivation) : Prop :=
  exists i, events !! i = Some (trigger_event q) /\ batch_index q = i /\ coupling q ∈ couplings set /\
    coupling_matches_event (coupling q) (trigger_event q) = true /\
    activation q =
      {| root_event_id := (root_and_depth r (trigger_event q)).1; trigger_event_id := event_id (trigger_event q);
         trigger_stream_id := stream_id (trigger_event q); trigger_sequence := sequence (trigger_event q);
         activated_coupling_id := coupling_id (coupling q); depth := (root_and_depth r (trigger_event q)).2;
         activation_snapshot_id := snapshot_id set |}.

Definition keys (qs : list QueuedActivation) : list (string * string * string) :=
  map (fun q => activation_key (activation q)) qs.

(** The state of the search: what is enqueued is new, and is seen. *)
Definition enqueued (P : QueuedActivation -> Prop) (seen0 : gset (string * string * string))
    (acc : gset (string * string * string) * list QueuedActivation) : Prop :=
  Forall P acc.2 /\ NoDup (keys acc.2) /\
  (forall k, k ∈ keys acc.2 -> k ∉ seen0) /\ (forall k, k ∈ acc.1 <-> k ∈ seen0 \/ k ∈ keys acc.2).

Lemma keys_app l k : keys (l ++ k) = keys l ++ keys k.
Proof. apply map_app. Qed.

Lemma enqueue_one_spec set r i event seen0 acc c (P : QueuedActivation -> Prop) :
  (forall a, coupling_matches_event c event = true ->
     a = {| root_event_id := (root_and_depth r event).1; trigger_event_id := event_id event;
            trigger_stream_id := stream_id event; trigger_sequence := sequence event;
            activated_coupling_id := coupling_id c; depth := (root_and_depth r event).2;
            activation_snapshot_id := snapshot_id set |} ->
     P {| batch_index := i; activation := a; trigger_event := event; coupling := c |}) ->
  enqueued P seen0 acc ->
  enqueued P seen0 (enqueue_one set r i event acc c) /\
  length (enqueue_one set r i event acc c).2 <= Datatypes.S (length acc.2).
Proof.
  intros HP (HF & Hnd & Hnew & Hseen). unfold enqueue_one. destruct acc as [seen candidates]. cbn [fst snd] in *.
  destruct (coupling_matches_event c event); cbn [negb]; [|by split; [|cbn; lia]].
  destruct (root_and_depth r event) as [root d] eqn:Hroot. cbn [fst snd] in HP.
  set (a := {| root_event_id := root; trigger_event_id := event_id event;
               trigger_stream_id := stream_id event; trigger_sequence := sequence event;
               activated_coupling_id := coupling_id c; depth := d;
               activation_snapshot_id := snapshot_id set |}) in *.
  case_bool_decide as Hin; [by split; [|cbn; lia]|]. split; [|cbn; rewrite length_app; simpl; lia].
  assert (activation_key a ∉ keys candidates) as Hk by naive_solver.
  split_and!; cbn [fst snd].
  - apply Forall_app. split; [done|]. constructor; [by apply HP|constructor].
  - rewrite keys_app. apply NoDup_app. split_and!; [done| |apply NoDup_singleton].
    intros k Hk1 Hk2. apply list_elem_of_singleton in Hk2 as ->. done.
  - intros k. rewrite keys_app, elem_of_app. intros [?|Hk2]; [by apply Hnew|].
    apply list_elem_of_singleton in Hk2 as ->. cbn. naive_solver.
  - intros k. rewrite keys_app, elem_of_app, elem_of_union, elem_of_singleton, Hseen.
    change (keys [_]) with [activation_key a]. rewrite list_elem_of_singleton. naive_solver.
Qed.

Lemma enqueue_event_spec set r i event seen0 acc cs (P : QueuedActivation -> Prop) :
  (forall c a, c ∈ cs -> coupling_matches_event c event = true ->
     a = {| root_event_id := (root_and_depth r event).1; trigger_event_id := event_id event;
            trigger_stream_id := stream_id event; trigger_sequence := sequence event;
            activated_coupling_id := coupling_id c; depth := (root_and_depth r event).2;
            activation_snapshot_id := snapshot_id set |} ->
     P {| batch_index := i; activation := a; trigger_event := event; coupling := c |}) ->
  enqueued P seen0 acc ->
  enqueued P seen0 (fold_left (enqueue_one set r i event) cs acc) /\
  length (fold_left (enqueue_one set r i event) cs acc).2 <= length cs + length acc.2.
Proof.
  revert acc. induction cs as [|c cs IH]; intros acc HP Hacc; cbn [fold_left]; [by split; [|cbn; lia]|].
  destruct (enqueue_one_spec set r i event seen0 acc c P) as [Hacc1 Hlen1]; [intros a; apply HP; set_solver|done|].
  destruct (IH (enqueue_one set r i event acc c)) as [Hacc2 Hlen2]; [intros c' a Hc; apply HP; set_solver|done|].
  split; [done|]. simpl in *. lia.
Qed.

Lemma candidates_of_spec set events seen0 r :
  enqueued (activates set r events) seen0 (candidates_of set events seen0 r) /\
  length (candidates_of set events seen0 r).2 <= length (couplings set) * length events.
Proof.
  unfold candidates_of.
  assert (forall k pre acc, events = pre ++ k ->
    enqueued (activates set r events) seen0 acc ->
    enqueued (activates set r events) seen0
      (fold_left (fun acc '(index, event) => fold_left (enqueue_one set r index event) (couplings set) acc)
         (imap (fun i e => (length pre + i, e)) k) acc) /\
    length (fold_left (fun acc '(index, event) => fold_left (enqueue_one set r index event) (couplings set) acc)
         (imap (fun i e => (length pre + i, e)) k) acc).2 <= length (couplings set) * length k + length acc.2) as Hgen.
  { induction k as [|e k IH]; intros pre acc Hev Hacc; cbn [imap fold_left]; [split; [done|simpl; lia]|].
    destruct (enqueue_event_spec set r (length pre + 0) e seen0 acc (couplings set) (activates set r events))
      as [Hacc1 Hlen1]; [|done|].
    { intros c a Hc Hm ->. exists (length pre + 0). split_and!; try done. cbn.
      by rewrite Hev, Nat.add_0_r, list_lookup_middle by done. }
    destruct (IH (pre ++ [e]) _ ltac:(by rewrite <- app_assoc) Hacc1) as [Hacc2 Hlen2].
    rewrite length_app in Hacc2, Hlen2. simpl in Hacc2, Hlen2.
    assert (imap ((fun i e0 => (length pre + i, e0)) ∘ Datatypes.S) k =
            imap (fun i e0 => (length pre + 1 + i, e0)) k) as ->.
    { apply imap_ext. intros i x _. simpl. f_equal. lia. }
    split; [done|]. simpl length. lia. }
  destruct (Hgen events [] (seen0, []) eq_refl) as [Hq Hl].
  { split_and!; cbn; [constructor|constructor|set_solver|set_solver]. }
  change (imap pair events) with (imap (fun i e => (length (@nil EventRecord) + i, e)) events).
  split; [done|]. eapply Nat.le_trans; [exact Hl|]. cbn. lia.
Qed.

Lemma order_candidates_perm qs : order_candidates qs ≡ₚ qs.
Proof. unfold order_candidates. by rewrite sort_by_z_perm, sort_by_key_perm, sort_by_z_perm, sort_by_key_perm. Qed.

(** What a batch adds to the queue: activations by its events, no two with one key, none seen. *)
Lemma enqueue_matches_spec set events seen0 queue0 r :
  exists new, enqueue_matches set events seen0 queue0 r =
      ((candidates_of set events seen0 r).1, queue0 ++ new) /\
    Forall (activates set r events) new /\ NoDup (keys new) /\ (forall k, k ∈ keys new -> k ∉ seen0) /\
    (forall k, k ∈ (candidates_of set events seen0 r).1 <-> k ∈ seen0 \/ k ∈ keys new) /\
    length new <= length (couplings set) * length events.
Proof.
  destruct (candidates_of_spec set events seen0 r) as [(HF & Hnd & Hnew & Hseen) Hlen].
  unfold enqueue_matches. destruct (candidates_of set events seen0 r) as [seen1 candidates]. cbn [fst snd] in *.
  pose proof (order_candidates_perm candidates) as Hp.
  assert (keys (order_candidates candidates) ≡ₚ keys candidates) as Hk by (unfold keys; by rewrite Hp).
  exists (order_candidates candidates). split_and!; [done|by rewrite Hp|by rewrite Hk| | |by rewrite Hp].
  - intros k. rewrite Hk. apply Hnew.
  - intros k. rewrite Hk. apply Hseen.
Qed.
End Enqueue.

(** ** One run *)

Section Runs.
Context `{UuidText} {S : Type} `{EventStoreLaws S} `{!EventAppend S} `{!EventAppendLaws S}.
Context {X : Type} `{CouplingExecutor X} `{!CouplingTexts executor_error}.
Variable draw : nat -> EventRecordId * Z.
Variable cfg : CouplingSchedulerConfig.
Notation World := (World (S := S) (X := X)).
Notation Receipt := (CouplingRunReceipt (run_reason executor_error)).

(** A record made for a discharge. *)
Definition made_from (q : QueuedActivation) (cut : CouplingSourceCut) (srcs : list EventRecord)
    (d : CouplingDischarge) (r : NewEventRecord) : Prop :=
  exists id now, r = discharged id now (coordinates (trigger_event q)) (discharge_kind d) (discharge_payload d)
                       (event_provenance (activation q) (coupling q) cut srcs) /\
    (forall given, discharge_event_id d = Some given -> id = given).

Lemma discharge_event_spec q cut srcs d (w w' : World) r :
  discharge_event draw q cut srcs d w = (w', Ok r) -> store w' = store w /\ made_from q cut srcs d r.
Proof.
  unfold discharge_event, new_event. intros Hrun. st_inv. injection Hrun0 as <- <-. split; [done|].
  destruct (draw (drawn w)) as [id now]. unfold made_from, discharged. cbn.
  destruct (discharge_event_id d) as [given|].
  - exists given, now. by split; [|intros ? [= ->]].
  - exists id, now. by split.
Qed.

Lemma group_discharges_spec q cut srcs ds st recs (w w' : World) gs :
  Forall (fun d => discharge_stream d = st) ds ->
  group_discharges draw q cut srcs [(st, recs)] ds w = (w', Ok gs) ->
  store w' = store w /\ exists new, gs = [(st, recs ++ new)] /\ Forall2 (made_from q cut srcs) ds new.
Proof.
  intros Hds. revert recs w. induction Hds as [|d ds Hd _ IH]; intros recs w; cbn [group_discharges].
  - intros Hrun. st_inv. split; [done|]. exists []. by rewrite app_nil_r.
  - intros Hrun. apply st_bind_ok in Hrun as (w1 & r & Hrun0 & Hrun).
    apply discharge_event_spec in Hrun0 as [Hs Hr].
    cbn [obj_get obj_insert] in Hrun. rewrite Hd, String.eqb_refl in Hrun. cbn [default obj_insert] in Hrun.
    rewrite str_cmp_refl in Hrun. destruct (IH _ _ Hrun) as (Hs' & new & -> & Hnew).
    split; [congruence|]. exists (r :: new). by rewrite <- app_assoc; split; [|constructor].
Qed.

Lemma append_plus stream records (w w' : World) es :
  log_valid (store w) -> append stream records w = (w', Ok es) ->
  journal_plus (store w) es (store w') /\ Forall2 (appended_as stream) records es.
Proof.
  unfold append. destruct (log_append stream records (store w)) as [s r] eqn:Hrun. intros Hv [= <- ->].
  by apply log_append_plus.
Qed.

(** An event a run discharges: on its coupling's sink, of a kind of it, and said to be its own. *)
Definition sink_event (q : QueuedActivation) (cut : CouplingSourceCut) (srcs : list EventRecord) (e : EventRecord) : Prop :=
  stream_id e = stream_id_for (coordinates (trigger_event q)) (sink_stream (sink (coupling q))) /\
  kind e ∈ sink_kinds (sink (coupling q)) /\
  coordinates e = coordinates (trigger_event q) /\ origin e = Discharged /\
  provenance e = event_provenance (activation q) (coupling q) cut srcs.

Lemma validate_discharges_ok c ds remaining :
  (validate_discharges c ds remaining : result unit (run_reason executor_error)) = Ok tt <->
  (forall limit, max_discharge_events (budget c) = Some limit -> (N.of_nat (length ds) <= limit)%N) /\
  (N.of_nat (length ds) <= remaining)%N /\
  Forall (fun d => discharge_stream d = sink_stream (sink c) /\ discharge_kind d ∈ sink_kinds (sink c)) ds.
Proof.
  assert ((for_each (check_discharge c) ds : result unit (run_reason executor_error)) = Ok tt <->
    Forall (fun d => discharge_stream d = sink_stream (sink c) /\ discharge_kind d ∈ sink_kinds (sink c)) ds) as Heach.
  { induction ds as [|d ds IH]; simpl; [by split; [constructor|]|].
    rewrite Forall_cons, <- IH. unfold check_discharge.
    destruct (String.eqb_spec (discharge_stream d) (sink_stream (sink c))) as [|Hne]; simpl; [|naive_solver].
    destruct (existsb _ _) eqn:Hk; simpl.
    - apply existsb_exists in Hk as (k & Hk & He%bool_decide_eq_true_1). subst k.
      apply list_elem_of_In in Hk. naive_solver.
    - split; [done|]. intros [[_ Hin] _]. exfalso. apply not_true_iff_false in Hk. apply Hk.
      apply existsb_exists. exists (discharge_kind d). split; [by apply list_elem_of_In|by apply bool_decide_eq_true_2]. }
  unfold validate_discharges. rewrite <- Heach. clear Heach.
  destruct (max_discharge_events (budget c)) as [l|].
  - destruct (N.ltb_spec l (N.of_nat (length ds))).
    + split; [done|]. intros (Hl & _). specialize (Hl _ eq_refl). lia.
    + destruct (N.ltb_spec remaining (N.of_nat (length ds))); [split; [done|lia]|].
      split; [|by intros (_ & _ & ?)]. intros Hc. by split_and!; [intros ? [= <-]| |].
  - destruct (N.ltb_spec remaining (N.of_nat (length ds))); [split; [done|lia]|].
    split; [|by intros (_ & _ & ?)]. by intros Hc.
Qed.

Lemma append_sink_events_spec q cut srcs ds (w w' : World) es :
  log_valid (store w) ->
  Forall (fun d => discharge_stream d = sink_stream (sink (coupling q)) /\
                   discharge_kind d ∈ sink_kinds (sink (coupling q))) ds ->
  append_sink_events draw q cut srcs ds w = (w', Ok es) ->
  journal_plus (store w) es (store w') /\ Forall (sink_event q cut srcs) es /\ length es = length ds.
Proof.
  intros Hv Hds. destruct ds as [|d ds].
  - cbn [append_sink_events]. intros Hrun. st_inv. by split_and!; [apply journal_plus_nil| |].
  - set (st := sink_stream (sink (coupling q))) in *. cbn [append_sink_events group_discharges]. intros Hrun.
    apply st_bind_ok in Hrun as (w2 & gs & Hg & Hrun). apply st_bind_ok in Hg as (w1 & r & Hr & Hg).
    apply discharge_event_spec in Hr as [Hs1 Hr].
    apply Forall_cons in Hds as [[Hd Hk] Hds]. cbn [obj_get obj_insert default app] in Hg. rewrite Hd in Hg.
    apply group_discharges_spec in Hg as (Hs2 & new & -> & Hnew);
      [|by eapply Forall_impl; [exact Hds|intros ? [? _]]].
    cbn [append_groups] in Hrun. apply st_bind_ok in Hrun as (w3 & es' & Happ & Hrun). st_inv. simpl app.
    apply append_plus in Happ as [Hj Has]; [|by rewrite Hs2, Hs1]. rewrite Hs2, Hs1 in Hj.
    assert (Forall2 (made_from q cut srcs) (d :: ds) (r :: new)) as Hm by by constructor.
    split_and!; [done| |by rewrite <- (Forall2_length _ _ _ Has), (Forall2_length _ _ _ Hm)].
    assert (Forall (fun d => discharge_kind d ∈ sink_kinds (sink (coupling q))) (d :: ds)) as Hkinds.
    { constructor; [done|]. eapply Forall_impl; [exact Hds|]. by intros ? [_ ?]. }
    change ([r] ++ new) with (r :: new) in Has. clear -Hm Has Hkinds. revert es' Has Hkinds. revert Hm. generalize (d :: ds), (r :: new). intros l k Hm.
    induction Hm as [|d' r' ds' rs' (id & now & -> & _) _ IH]; intros es Has Hkinds.
    + apply Forall2_nil_inv_l in Has as ->. constructor.
    + apply Forall2_cons_inv_l in Has as (e & es' & (n & ->) & Has & ->).
      apply Forall_cons in Hkinds as [Hk Hkinds]. constructor; [by split_and!|by apply IH].
Qed.

(** The receipt of a run, as an event. *)
Definition receipt_event (q : QueuedActivation) (run : Receipt) (cut : CouplingSourceCut)
    (srcs : list EventRecord) (e : EventRecord) : Prop :=
  stream_id e = stream_id_for (coordinates (trigger_event q)) "control" /\
  kind e = run_kind (status run) /\ payload e = receipt_json run /\
  coordinates e = coordinates (trigger_event q) /\ origin e = Discharged /\
  provenance e = event_provenance (activation q) (coupling q) cut srcs.

Lemma append_run_receipt_spec q s reason cut srcs ids (w w' : World) run es :
  log_valid (store w) ->
  append_run_receipt draw q s reason cut srcs ids w = (w', Ok (run, es)) ->
  run = run_receipt q s reason cut srcs ids /\
  exists e, es = [e] /\ journal_plus (store w) [e] (store w') /\ receipt_event q run cut srcs e.
Proof.
  intros Hv. unfold append_run_receipt. intros Hrun.
  apply st_bind_ok in Hrun as (w1 & r & Hnew & Hrun). apply st_bind_ok in Hrun as (w2 & es' & Happ & Hrun).
  apply st_ret_ok in Hrun as [-> [= -> ->]]. split; [done|].
  unfold new_event in Hnew. injection Hnew as <- <-. apply append_plus in Happ as [Hj Has]; [|done].
  inversion Has as [|? e ? es1 (n & He) Hnil]; subst. inversion Hnil; subst.
  exists (from_new (stream_id_for (coordinates (trigger_event q)) "control") n
    (let '(id, now) := draw (drawn w) in discharged id now (coordinates (trigger_event q)) (run_kind s)
       (receipt_json (run_receipt q s reason cut srcs ids)) (event_provenance (activation q) (coupling q) cut srcs))).
  split_and!; [done|done|]. destruct (draw (drawn w)). by split_and!.
Qed.
End Runs.

(** * The runs of a scheduler cycle

    One turn of the scheduler's loop as a step: what it writes, what it reports,
    what it enqueues and how it counts, on every branch; and the induction over
    the turns of a cycle. *)

#[global] Instance CouplingRunStatus_eq_dec : EqDecision CouplingRunStatus.
Proof. solve_decision. Defined.

Section Runs.
Context `{UuidText} {S : Type} `{EventStoreLaws S} `{!EventAppend S} `{!EventAppendLaws S}.
Context {X : Type} `{CouplingExecutor X} `{!CouplingTexts executor_error}.
Variable draw : nat -> EventRecordId * Z.
Variable cfg : CouplingSchedulerConfig.
Notation World := (World (S := S) (X := X)).
Notation Receipt := (CouplingRunReceipt (run_reason executor_error)).

(** A run of [q]: its receipt, the events it discharged and the event of the receipt. *)
Record ran (q : QueuedActivation) (run : Receipt) (sunk : list EventRecord) (rcpt : EventRecord) : Prop := {
  ran_reported : exists s reason cut srcs, run = run_receipt q s reason cut srcs (map event_id sunk) /\
    receipt_event q run cut srcs rcpt /\ Forall (sink_event q cut srcs) sunk;
  ran_nothing : status run <> Completed -> sunk = [];
  ran_budget limit : max_discharge_events (budget (coupling q)) = Some limit -> (N.of_nat (length sunk) <= limit)%N;
}.

(** How often [q]'s coupling ran, in the turn and on the thread. *)
Definition turn_count (cy : Cycle (X := X)) (q : QueuedActivation) : N :=
  default 0%N (per_turn_run_counts cy !! coupling_id (coupling q)).
Definition recorded_runs (s : S) (key : string * string) : list EventRecord :=
  List.filter (counted_thread_quota_run key.2) (log_events s key.1).
Definition key_of (q : QueuedActivation) : string * string :=
  thread_run_key (coordinates (trigger_event q)) (coupling_id (coupling q)).
Definition thread_count (cy : Cycle (X := X)) (q : QueuedActivation) (s : S) : N :=
  default (as_u32 (N.of_nat (length (recorded_runs s (key_of q))))) (per_thread_run_counts cy !! key_of q).

(** The counters across a turn, by whether the function was run. *)
Definition counted (cy : Cycle (X := X)) (q : QueuedActivation) (s : S) (invoked : bool) (cy' : Cycle (X := X)) : Prop :=
  let quota := trigger_quota (coupling q) in
  if invoked then
    quota_exhausted (coupling q) (turn_count cy q)
      (match per_thread quota with Some _ => thread_count cy q s | None => 0%N end) = false /\
    per_turn_run_counts cy' = <[coupling_id (coupling q) := u32_add (turn_count cy q) 1]> (per_turn_run_counts cy) /\
    per_thread_run_counts cy' =
      match per_thread quota with
      | Some _ => <[key_of q := u32_add (thread_count cy q s) 1]> (per_thread_run_counts cy)
      | None => per_thread_run_counts cy
      end
  else
    per_turn_run_counts cy' = per_turn_run_counts cy /\
    (per_thread_run_counts cy' = per_thread_run_counts cy \/
     is_Some (per_thread quota) /\
     per_thread_run_counts cy' = <[key_of q := thread_count cy q s]> (per_thread_run_counts cy)).

(** What a turn enqueues. *)
Definition enqueues (set : BoundCouplingSet) (cy : Cycle (X := X)) (q : QueuedActivation)
    (events : list EventRecord) (new : list QueuedActivation) (cy' : Cycle (X := X)) : Prop :=
  queue cy' = queue cy ++ new /\ Forall (activates set (next_depth q) events) new /\ NoDup (keys new) /\
  (forall k, k ∈ keys new -> k ∉ seen cy) /\ (forall k, k ∈ seen cy' <-> k ∈ seen cy \/ k ∈ keys new) /\
  length new <= length (couplings set) * length events /\
  (new <> [] -> (depth (activation q) <= max_depth cfg)%N).

(** One turn for [q], with [q] already taken from the queue. *)
Definition turn (set : BoundCouplingSet) (cy : Cycle (X := X)) (q : QueuedActivation) (w : World)
    (w' : World) (cy' : Cycle (X := X)) : Prop :=
  exists run sunk rcpt new,
    journal_plus (store w) (sunk ++ [rcpt]) (store w') /\ ran q run sunk rcpt /\
    runs cy' = runs cy ++ [run] /\ appended_events cy' = appended_events cy ++ sunk ++ [rcpt] /\
    (N.of_nat (length sunk) + remaining_discharge_budget cy' = remaining_discharge_budget cy)%N /\
    enqueues set cy q (sunk ++ [rcpt]) new cy' /\
    counted cy q (store w) (negb (bool_decide (status run = Skipped))) cy'.

(** The end of a run, whichever way it goes. *)
Lemma end_run_spec set cy q sunk remaining s reason cut srcs (w w' : World) cy' :
  log_valid (store w) -> (depth (activation q) <= max_depth cfg)%N ->
  end_run draw set cy q sunk remaining s reason cut srcs w = (w', Ok cy') ->
  exists rcpt new, let run := run_receipt q s reason cut srcs (map event_id sunk) in
    journal_plus (store w) [rcpt] (store w') /\ receipt_event q run cut srcs rcpt /\
    runs cy' = runs cy ++ [run] /\ appended_events cy' = appended_events cy ++ sunk ++ [rcpt] /\
    remaining_discharge_budget cy' = remaining /\ enqueues set cy q (sunk ++ [rcpt]) new cy' /\
    per_turn_run_counts cy' = per_turn_run_counts cy /\ per_thread_run_counts cy' = per_thread_run_counts cy.
Proof.
  intros Hv Hd. unfold end_run. intros Hrun. apply st_bind_ok in Hrun as (w1 & [run appended] & Hrcpt & Hrun).
  apply append_run_receipt_spec in Hrcpt as (-> & rcpt & -> & Hj & Hr); [|done].
  destruct (enqueue_matches_spec set (sunk ++ [rcpt]) (seen cy) (queue cy) (next_depth q))
    as (new & Heq & Hact & Hnd & Hnew & Hseen & Hlen). rewrite Heq in Hrun.
  apply st_ret_ok in Hrun as [-> ->]. exists rcpt, new. by split_and!; try done.
Qed.

Lemma skip_depth_spec set cy q (w w' : World) cy' :
  log_valid (store w) -> skip_depth draw cy q w = (w', Ok cy') -> turn set cy q w w' cy'.
Proof.
  intros Hv. unfold skip_depth. intros Hrun. apply st_bind_ok in Hrun as (w1 & [run appended] & Hrcpt & Hrun).
  apply append_run_receipt_spec in Hrcpt as (-> & rcpt & -> & Hj & Hr); [|done].
  apply st_ret_ok in Hrun as [-> ->].
  exists (run_receipt q Skipped (Some DepthLimitExhausted) [] [] []), [], rcpt, [].
  split_and!; try done.
  - split; [by eexists Skipped, _, [], []|done|cbn; lia].
  - split_and!; cbn; [by rewrite app_nil_r|constructor|constructor|set_solver|set_solver|lia|done].
  - by split; [|left].
Qed.

(** [end_run] with no events of its own is a turn. *)
Lemma end_run_empty set cy cy0 q s reason cut srcs (w0 w w' : World) cy' :
  log_valid (store w) -> store w0 = store w -> (depth (activation q) <= max_depth cfg)%N -> s <> Completed ->
  seen cy0 = seen cy -> queue cy0 = queue cy -> runs cy0 = runs cy -> appended_events cy0 = appended_events cy ->
  counted cy q (store w) (negb (bool_decide (s = Skipped))) cy0 ->
  end_run draw set cy0 q [] (remaining_discharge_budget cy) s reason cut srcs w0 = (w', Ok cy') ->
  turn set cy q w w' cy'.
Proof.
  intros Hv Hw Hd Hs E1 E2 E3 E4 Hc Hrun.
  apply end_run_spec in Hrun as (rcpt & new & Hj & Hr & Eruns & Eapp & Erem & Hq & Eturn & Ethread);
    [|by rewrite Hw|done].
  rewrite Hw in Hj. unfold enqueues in Hq. rewrite E1, E2 in Hq. rewrite E3 in Eruns. rewrite E4 in Eapp.
  exists (run_receipt q s reason cut srcs []), [], rcpt, new. split_and!; try done.
  - split; [by eexists s, _, cut, srcs|done|cbn; lia].
  - unfold counted in *. cbn [status run_receipt]. by rewrite Eturn, Ethread.
Qed.

Lemma read_selectors_pure trigger acc sels (w w' : World) r :
  read_selectors trigger acc sels w = (w', r) -> w' = w.
Proof.
  revert acc. induction sels as [|sel sels IH]; intros acc; cbn [read_selectors].
  - by intros [= <-].
  - unfold read_selector, read, st_ret, st_bind. destruct (log_read _ _ _); [apply IH|by intros [= <- _]].
Qed.

Lemma try_sources_pure q (w w' : World) r : try_sources q w = (w', Ok r) -> w' = w.
Proof.
  unfold try_sources, resolve_source_cut. intros Hrun.
  destruct (st_bind _ _ w) as [w1 r1] eqn:Hb. injection Hrun as <- _. unfold st_bind in Hb.
  destruct (read_selectors _ _ _ w) as [w2 [a|e]] eqn:Hr; apply read_selectors_pure in Hr as ->;
    [unfold st_ret in Hb|]; by injection Hb as <- _.
Qed.

(** The function's run, and everything after it. *)
Lemma run_admitted_spec set cy cy0 q (w w' : World) cy' :
  log_valid (store w) -> (depth (activation q) <= max_depth cfg)%N ->
  (remaining_discharge_budget cy <= u32_max)%N ->
  seen cy0 = seen cy -> queue cy0 = queue cy -> runs cy0 = runs cy -> appended_events cy0 = appended_events cy ->
  remaining_discharge_budget cy0 = remaining_discharge_budget cy -> counted cy q (store w) true cy0 ->
  run_admitted draw set cy0 q w = (w', Ok cy') -> turn set cy q w w' cy'.
Proof.
  intros Hv Hd Hmax E1 E2 E3 E4 E5 Hc. unfold run_admitted. rewrite E5. intros Hrun.
  apply st_bind_ok in Hrun as (w1 & srcs & Hs & Hrun). apply try_sources_pure in Hs as ->.
  destruct srcs as [[cut srcs]|e]; [|eapply end_run_empty; [..|exact Hrun]; done].
  apply st_bind_ok in Hrun as (w1 & execution & Hx & Hrun). unfold invoke_executor in Hx.
  destruct (invoke _ (executor w)) as [x r]. injection Hx as <- ->.
  destruct execution as [ds|e]; [|eapply end_run_empty; [..|exact Hrun]; done].
  destruct (validate_discharges _ _ _) as [[]|reason] eqn:Hvd; [|eapply end_run_empty; [..|exact Hrun]; done].
  apply validate_discharges_ok in Hvd as (Hlimit & Hrem & Hds).
  apply st_bind_ok in Hrun as (w2 & sunk & Hsink & Hrun).
  apply append_sink_events_spec in Hsink as (Hj & Hsunk & Hlen); [|done|done]. cbn [store] in Hj.
  apply end_run_spec in Hrun as (rcpt & new & Hj2 & Hr & Eruns & Eapp & Erem & Hq & Eturn & Ethread);
    [|by destruct Hj|done].
  unfold enqueues in Hq. rewrite E1, E2 in Hq. rewrite E3 in Eruns. rewrite E4 in Eapp.
  exists (run_receipt q Completed None cut srcs (map event_id sunk)), sunk, rcpt, new. split_and!; try done.
  - by eapply journal_plus_app.
  - split; [by eexists Completed, _, cut, srcs|done|]. intros limit Hl. rewrite Hlen. by apply Hlimit.
  - rewrite Erem, Hlen. unfold as_u32. rewrite N.mod_small by lia. lia.
  - unfold counted in *. cbn [status run_receipt]. by rewrite Eturn, Ethread.
Qed.

Lemma thread_run_count_spec cy q (w w' : World) key count counts :
  log_valid (store w) -> thread_run_count q (per_thread_run_counts cy) w = (w', Ok (key, count, counts)) ->
  w' = w /\ key = key_of q /\ count = thread_count cy q (store w) /\
  counts !! key = Some count /\
  (counts = per_thread_run_counts cy \/ counts = <[key_of q := thread_count cy q (store w)]> (per_thread_run_counts cy)).
Proof.
  intros Hv. unfold thread_run_count, thread_count. fold (key_of q). intros Hrun.
  destruct (per_thread_run_counts cy !! key_of q) as [n|] eqn:Hn.
  - apply st_ret_ok in Hrun as [-> [= -> -> ->]]. by split_and!; try left.
  - apply st_bind_ok in Hrun as (w1 & es & Hread & Hrun). unfold read in Hread.
    rewrite (log_read_all _ _ Hv) in Hread. injection Hread as <- <-.
    apply st_ret_ok in Hrun as [-> [= -> -> ->]]. split_and!; try done; [apply lookup_insert_eq|by right].
Qed.

(** Every turn of the loop that returns is a [turn]. *)
Lemma run_one_spec set cy q (w w' : World) cy' :
  log_valid (store w) -> (remaining_discharge_budget cy <= u32_max)%N ->
  run_one draw cfg set cy q w = (w', Ok cy') -> turn set cy q w w' cy'.
Proof.
  intros Hv Hmax. unfold run_one.
  destruct (N.ltb_spec (max_depth cfg) (depth (activation q))) as [_|Hd]; [by apply skip_depth_spec|].
  fold (turn_count cy q). intros Hrun. apply st_bind_ok in Hrun as (w1 & [tc counts] & Hcount & Hrun).
  assert (w1 = w /\
    tc = match per_thread (trigger_quota (coupling q)) with
         | Some _ => Some (key_of q, thread_count cy q (store w)) | None => None end /\
    match per_thread (trigger_quota (coupling q)) with
    | Some _ => counts !! key_of q = Some (thread_count cy q (store w)) /\
        (counts = per_thread_run_counts cy \/ counts = <[key_of q := thread_count cy q (store w)]> (per_thread_run_counts cy))
    | None => counts = per_thread_run_counts cy end) as (-> & -> & Hcounts).
  { destruct (per_thread (trigger_quota (coupling q))).
    - apply st_bind_ok in Hcount as (w2 & [[key count] counts'] & Hcount & Hret).
      apply st_ret_ok in Hret as [-> [= -> ->]].
      by apply thread_run_count_spec in Hcount as (-> & -> & -> & Hk & Hc).
    - by apply st_ret_ok in Hcount as [-> [= -> ->]]. }
  clear Hcount.
  destruct (quota_exhausted _ _ _) eqn:Hquota.
  - eapply (end_run_empty set cy) in Hrun; try done. cbn. split; [done|].
    destruct (per_thread (trigger_quota (coupling q))); [|by left].
    destruct Hcounts as [_ [->| ->]]; [by left|by right].
  - eapply run_admitted_spec in Hrun; try done. unfold counted. cbn [with_counts per_turn_run_counts per_thread_run_counts].
    destruct (per_thread (trigger_quota (coupling q))) as [l|]; [|by rewrite Hcounts].
    split_and!; try done. destruct Hcounts as [Hk Hc]. rewrite Hk. cbn [default].
    destruct Hc as [->| ->]; [done|]. by rewrite insert_insert_eq.
Qed.

Definition popped (cy : Cycle (X := X)) (rest : list QueuedActivation) : Cycle (X := X) :=
  {| seen := seen cy; queue := rest; runs := runs cy; appended_events := appended_events cy;
     per_turn_run_counts := per_turn_run_counts cy; per_thread_run_counts := per_thread_run_counts cy;
     remaining_discharge_budget := remaining_discharge_budget cy |}.

(** What every turn keeps, a cycle keeps. *)
Lemma run_queue_ind (I : Cycle (X := X) -> World -> Prop) set :
  (forall cy q rest w w' cy', queue cy = q :: rest -> I cy w -> log_valid (store w) ->
     turn set (popped cy rest) q w w' cy' -> I cy' w') ->
  forall fuel cy w w' cy', log_valid (store w) -> (remaining_discharge_budget cy <= u32_max)%N -> I cy w ->
    run_queue draw cfg fuel set cy w = Some (w', Ok cy') -> I cy' w' /\ log_valid (store w').
Proof.
  intros Hstep fuel. induction fuel as [|fuel IH]; intros cy w w' cy' Hv Hmax HI; cbn [run_queue].
  - destruct (queue cy); [|done]. by intros [= <- <-].
  - destruct (queue cy) as [|q rest] eqn:Hq; [by intros [= <- <-]|]. fold (popped cy rest).
    destruct (run_one draw cfg set (popped cy rest) q w) as [w1 [cy1|e]] eqn:Hone; [|done].
    intros Hrun. apply run_one_spec in Hone as Ht; [|done|done].
    pose proof Ht as (run & sunk & rcpt & new & Hj & _ & _ & _ & Hrem & _). cbn [popped remaining_discharge_budget] in Hrem.
    eapply IH; [|  |by eapply Hstep|exact Hrun]; [by destruct Hj|lia].
Qed.
End Runs.

(** * Properties of a scheduler cycle

    A cycle ends; its receipt accounts for what it wrote, which is what the
    couplings may write; no activation runs twice; quotas hold; and a run reads
    what its source cut says. *)

(** ** The bound on the turns of a cycle *)

(** The turns an activation that may trigger [level] more generations can cause, where a run
    enqueues at most [width] activations. *)
Fixpoint turns (width level : nat) : nat :=
  match level with
  | O => 1
  | Datatypes.S level => Datatypes.S (width * turns width level)
  end.

(** A run writes at most the discharge budget and its receipt, each of which every coupling may
    match. *)
Definition run_width (cfg : CouplingSchedulerConfig) (set : BoundCouplingSet) : nat :=
  length (couplings set) * Datatypes.S (N.to_nat (max_discharge_events_per_cycle cfg)).
Definition level_of (cfg : CouplingSchedulerConfig) (d : N) : nat := N.to_nat (max_depth cfg + 1 - d).
Definition cycle_fuel (cfg : CouplingSchedulerConfig) (set : BoundCouplingSet) (batch : nat) : nat :=
  length (couplings set) * batch * turns (run_width cfg set) (level_of cfg 0).

Definition pending (cfg : CouplingSchedulerConfig) (set : BoundCouplingSet) (qs : list QueuedActivation) : nat :=
  sum_list_with (fun q => turns (run_width cfg set) (level_of cfg (depth (activation q)))) qs.

Lemma turns_pos width level : 1 <= turns width level.
Proof. destruct level; simpl; lia. Qed.

Lemma turns_mono width l k : l <= k -> turns width l <= turns width k.
Proof.
  revert k. induction l as [|l IH]; intros k Hk; [apply turns_pos|].
  destruct k as [|k]; [lia|]. cbn [turns]. specialize (IH k ltac:(lia)). nia.
Qed.

Lemma sum_list_with_bound {A} (f : A -> nat) m l : Forall (fun a => f a <= m) l -> sum_list_with f l <= length l * m.
Proof. induction 1; simpl; lia. Qed.

Section Cycle.
Context `{UuidText} {S : Type} `{EventStoreLaws S} `{!EventAppend S} `{!EventAppendLaws S}.
Context {X : Type} `{CouplingExecutor X} `{!CouplingTexts executor_error}.
Variable draw : nat -> EventRecordId * Z.
Variable cfg : CouplingSchedulerConfig.
Notation World := (World (S := S) (X := X)).
Notation Receipt := (CouplingRunReceipt (run_reason executor_error)).
Notation Cycle := (Cycle (X := X)).

(** A turn leaves fewer turns to come. *)
Lemma turn_pending set (cy : Cycle) q (w w' : World) cy' :
  (max_depth cfg < u32_max)%N -> (remaining_discharge_budget cy <= max_discharge_events_per_cycle cfg)%N ->
  turn cfg set cy q w w' cy' ->
  pending cfg set (queue cy') < pending cfg set (q :: queue cy).
Proof.
  intros Hmax Hrem (run & sunk & rcpt & new & _ & _ & _ & _ & Hb & (-> & Hact & _ & _ & _ & Hlen & Hd) & _).
  unfold pending. rewrite sum_list_with_app.
  set (f := fun q => turns (run_width cfg set) (level_of cfg (depth (activation q)))).
  change (sum_list_with f (queue cy) + sum_list_with f new < f q + sum_list_with f (queue cy)).
  enough (sum_list_with f new < f q) by lia.
  destruct new as [|q' new]; [apply turns_pos|].
  specialize (Hd ltac:(done)). set (qs := q' :: new) in *.
  assert (Forall (fun a => f a <= turns (run_width cfg set) (level_of cfg (depth (activation q) + 1))) qs) as Hf.
  { eapply Forall_impl; [exact Hact|]. intros a (i & _ & _ & _ & _ & Ha). unfold f.
    rewrite Ha. cbn [depth next_depth root_and_depth snd]. unfold u32_add, as_u32.
    by rewrite N.mod_small by lia. }
  apply sum_list_with_bound in Hf. rewrite length_app in Hlen. cbn [length] in Hlen.
  unfold f at 2. replace (level_of cfg (depth (activation q))) with
    (Datatypes.S (level_of cfg (depth (activation q) + 1))) by (unfold level_of; lia).
  cbn [turns]. apply Nat.lt_succ_r. etransitivity; [exact Hf|]. apply Nat.mul_le_mono_r.
  unfold run_width. etransitivity; [exact Hlen|]. apply Nat.mul_le_mono_l. lia.
Qed.

Lemma run_queue_more fuel fuel' set cy (w : World) r :
  fuel <= fuel' -> run_queue draw cfg fuel set cy w = Some r -> run_queue draw cfg fuel' set cy w = Some r.
Proof.
  revert fuel' cy w. induction fuel as [|fuel IH]; intros fuel' cy w Hle; cbn [run_queue].
  - destruct (queue cy) eqn:Hq; [|done]. by destruct fuel'; cbn [run_queue]; rewrite Hq.
  - destruct fuel' as [|fuel']; [lia|]. cbn [run_queue]. destruct (queue cy); [done|].
    destruct (run_one _ _ _ _ _ w) as [w1 [cy1|e]]; [|done]. apply IH. lia.
Qed.

Lemma run_queue_returns set fuel cy (w : World) :
  (max_depth cfg < u32_max)%N -> log_valid (store w) ->
  (remaining_discharge_budget cy <= max_discharge_events_per_cycle cfg <= u32_max)%N ->
  pending cfg set (queue cy) <= fuel -> is_Some (run_queue draw cfg fuel set cy w).
Proof.
  intros Hmax. revert cy w. induction fuel as [|fuel IH]; intros cy w Hv Hrem Hp; cbn [run_queue].
  - destruct (queue cy) as [|q rest]; [by eexists|].
    exfalso. unfold pending in Hp. cbn [sum_list_with] in Hp.
    pose proof (turns_pos (run_width cfg set) (level_of cfg (depth (activation q)))). lia.
  - destruct (queue cy) as [|q rest] eqn:Hq; [by eexists|]. fold (popped cy rest).
    destruct (run_one draw cfg set (popped cy rest) q w) as [w1 [cy1|e]] eqn:Hone; [|by eexists].
    apply run_one_spec in Hone as Ht; [|done|cbn; lia].
    pose proof (turn_pending set (popped cy rest) q w w1 cy1 Hmax ltac:(apply Hrem) Ht) as Hless. cbn [popped queue] in Hless.
    destruct Ht as (run & sunk & rcpt & new & [Hv1 _] & _ & _ & _ & Hb & _). cbn in Hb.
    apply IH; [done|lia|lia].
Qed.

Lemma first_cycle_spec set batch :
  let cy := first_cycle (X := X) cfg set batch in
  runs cy = [] /\ appended_events cy = [] /\ per_turn_run_counts cy = ∅ /\ per_thread_run_counts cy = ∅ /\
  remaining_discharge_budget cy = max_discharge_events_per_cycle cfg /\
  Forall (activates set FromEvent batch) (queue cy) /\ NoDup (keys (queue cy)) /\
  (forall k, k ∈ seen cy <-> k ∈ keys (queue cy)) /\ length (queue cy) <= length (couplings set) * length batch.
Proof.
  unfold first_cycle. destruct (enqueue_matches_spec set batch ∅ [] FromEvent)
    as (new & Heq & Hact & Hnd & Hnew & Hseen & Hlen). rewrite Heq. cbn.
  split_and!; try done. intros k. rewrite Hseen. set_solver.
Qed.


(** ** What a cycle writes *)

(** One run of the cycle: its activation, its receipt, the events it discharged and the receipt's
    event. *)
Record RunParts := mk_run {
  run_of : QueuedActivation;
  reported : Receipt;
  sunk : list EventRecord;
  receipt_as : EventRecord;
}.

Definition written (p : RunParts) : list EventRecord := sunk p ++ [receipt_as p].

(** The activation is of a coupling of the set, by one of the events, which it matches. *)
Definition triggered (set : BoundCouplingSet) (events : list EventRecord) (q : QueuedActivation) : Prop :=
  trigger_event q ∈ events /\ coupling q ∈ couplings set /\
  coupling_matches_event (coupling q) (trigger_event q) = true /\
  trigger_event_id (activation q) = event_id (trigger_event q) /\
  activated_coupling_id (activation q) = coupling_id (coupling q) /\
  activation_snapshot_id (activation q) = snapshot_id set.

Definition made (set : BoundCouplingSet) (events : list EventRecord) (p : RunParts) : Prop :=
  triggered set events (run_of p) /\ ran (run_of p) (reported p) (sunk p) (receipt_as p).

Lemma activates_triggered set r events events' q :
  events ⊆ events' -> activates set r events q -> triggered set events' q.
Proof.
  intros Hsub (i & Hi & _ & Hc & Hm & Ha). unfold triggered. rewrite Ha. split_and!; try done.
  apply Hsub. by eapply list_elem_of_lookup_2.
Qed.

Lemma triggered_mono set events events' q : events ⊆ events' -> triggered set events q -> triggered set events' q.
Proof. intros Hsub (Hin & Hr). by split; [apply Hsub|]. Qed.

(** What the runs [ps] so far account for. *)
Definition accounts (set : BoundCouplingSet) (batch : list EventRecord) (w0 : World)
    (ps : list RunParts) (cy : Cycle) (w : World) : Prop :=
  runs cy = map reported ps /\ appended_events cy = concat (map written ps) /\
  journal_plus (store w0) (appended_events cy) (store w) /\
  (N.of_nat (sum_list_with (fun p => length (sunk p)) ps) + remaining_discharge_budget cy =
     max_discharge_events_per_cycle cfg)%N /\
  Forall (made set (batch ++ appended_events cy)) ps /\
  Forall (triggered set (batch ++ appended_events cy)) (queue cy).

Lemma accounts_turn set batch w0 ps cy q rest w w' cy' :
  queue cy = q :: rest -> accounts set batch w0 ps cy w -> turn cfg set (popped cy rest) q w w' cy' ->
  exists p, accounts set batch w0 (ps ++ [p]) cy' w'.
Proof.
  intros Hq (Er & Ea & Hj & Hb & Hps & Hqs)
    (run & sunk & rcpt & new & Hj1 & Hran & Er' & Ea' & Hb' & (Eq & Hact & _) & _).
  cbn [popped runs appended_events remaining_discharge_budget queue] in *.
  exists (mk_run q run sunk rcpt).
  assert (batch ++ appended_events cy ⊆ batch ++ appended_events cy') as Hsub.
  { rewrite Ea'. intros e. rewrite !elem_of_app. tauto. }
  rewrite Hq in Hqs. apply Forall_cons in Hqs as [Hhead Hqs]. split_and!.
  - by rewrite Er', Er, map_app.
  - by rewrite Ea', Ea, map_app, concat_app; cbn; rewrite app_nil_r.
  - rewrite Ea'. by eapply journal_plus_app.
  - rewrite sum_list_with_app. cbn. lia.
  - apply Forall_app. split.
    + eapply Forall_impl; [exact Hps|]. intros p [Ht Hr]. split; [by eapply triggered_mono|done].
    + constructor; [|constructor]. split; [by eapply triggered_mono|exact Hran].
  - rewrite Eq. apply Forall_app. split.
    + eapply Forall_impl; [exact Hqs|]. intros p Ht. by eapply triggered_mono.
    + eapply Forall_impl; [exact Hact|]. intros q' Ha. eapply activates_triggered; [|exact Ha].
      rewrite Ea'. intros e. rewrite !elem_of_app. tauto.
Qed.

(** C14 - The receipt of a cycle accounts for everything the cycle wrote: the journal grew by exactly
    the events it lists, which are those of its runs in order, each run's discharges followed by its
    receipt.  Every run is of a coupling of the set triggered by an event of the batch or of the
    cycle itself; its discharges are on its own sink, of the kinds bound to it, within its budget,
    carry its provenance, and are there only if it completed; its receipt is on the thread's control
    stream and lists them; and all runs together discharge at most the budget of the cycle. *)
Theorem cycle_accounts_for_writes fuel set batch (w w' : World) receipt :
  log_valid (store w) -> (max_discharge_events_per_cycle cfg <= u32_max)%N ->
  run_batch draw cfg fuel set batch w = Some (w', Ok receipt) ->
  receipt_snapshot_id receipt = snapshot_id set /\
  journal_plus (store w) (receipt_appended_events receipt) (store w') /\
  exists ps, receipt_runs receipt = map reported ps /\
    receipt_appended_events receipt = concat (map written ps) /\
    Forall (made set (batch ++ receipt_appended_events receipt)) ps /\
    (N.of_nat (sum_list_with (fun p => length (sunk p)) ps) <= max_discharge_events_per_cycle cfg)%N.
Proof.
  intros Hv Hb. unfold run_batch. rewrite fmap_Some. intros ([w1 [cy|e]] & Hrun & Heq); [|done].
  injection Heq as <- ->. cbn.
  destruct (first_cycle_spec set batch) as (E1 & E2 & _ & _ & Hrem & Hact & _).
  eapply (run_queue_ind draw cfg (fun cy w1 => exists ps, accounts set batch w ps cy w1)) in Hrun
    as [(ps & Er & Ea & Hj & Hsum & Hps & _) _].
  - split_and!; [done|done|]. exists ps. split_and!; [done|done|done|lia].
  - intros cy0 q rest w0 w2 cy' Hq (ps & Hacc) _ Ht.
    destruct (accounts_turn _ _ _ _ _ _ _ _ _ _ Hq Hacc Ht) as [p Hp]. by eexists.
  - done.
  - by rewrite Hrem.
  - exists []. unfold accounts. rewrite E1, E2, Hrem. split_and!; try done.
    + by apply journal_plus_nil.
    + eapply Forall_impl; [exact Hact|]. intros q. apply activates_triggered. set_solver.
Qed.

(** ** No activation runs twice *)

(** The activation a receipt is about. *)
Definition run_key (run : Receipt) : string * string * string :=
  (uuid_text (run_trigger_event_id run), run_coupling_id run, run_snapshot_id run).

Definition once (set : BoundCouplingSet) (cy : Cycle) (_ : World) : Prop :=
  NoDup (map run_key (runs cy) ++ keys (queue cy)) /\
  (forall k, k ∈ map run_key (runs cy) ++ keys (queue cy) -> k ∈ seen cy) /\
  Forall (fun q => activated_coupling_id (activation q) = coupling_id (coupling q)) (queue cy).

(** Within a cycle a coupling runs at most once for an event, however often the event is written
    or matched: no two receipts of the cycle are for the same event, coupling and snapshot. *)
Theorem activation_runs_once fuel set batch (w w' : World) receipt :
  log_valid (store w) -> (max_discharge_events_per_cycle cfg <= u32_max)%N ->
  run_batch draw cfg fuel set batch w = Some (w', Ok receipt) -> NoDup (map run_key (receipt_runs receipt)).
Proof.
  intros Hv Hb. unfold run_batch. rewrite fmap_Some. intros ([w1 [cy|e]] & Hrun & Heq); [|done].
  injection Heq as <- ->. cbn.
  destruct (first_cycle_spec set batch) as (E1 & _ & _ & _ & Hrem & Hact & Hnd & Hseen & _).
  assert (forall r events q, activates set r events q ->
    activated_coupling_id (activation q) = coupling_id (coupling q)) as Hid
    by (intros r events q (i & _ & _ & _ & _ & Ha); by rewrite Ha).
  eapply (run_queue_ind draw cfg (once set)) in Hrun as [[Hrunq _] _]; [by apply NoDup_app in Hrunq as [? _]| |done| |].
  - intros cy0 q rest w0 w2 cy' Hq (Hnd0 & Hin0 & Hids) _
      (run & sunk & rcpt & new & _ & [(s & reason & cut & srcs & -> & _) _ _] & Er & _ & _ &
       (Eq & Ha & Hnd1 & Hnew & Hseen1 & _) & _).
    cbn [popped runs queue seen] in *. rewrite Hq in *. apply Forall_cons in Hids as [Hqid Hids].
    unfold once. rewrite Er, Eq, map_app, keys_app.
    assert (map run_key [run_receipt (X := X) q s reason cut srcs (map event_id sunk)] = keys [q]) as ->.
    { cbn. unfold run_key, activation_key. cbn. by rewrite Hqid. }
    assert ((map run_key (runs cy0) ++ keys [q]) ++ keys rest ++ keys new =
            (map run_key (runs cy0) ++ keys (q :: rest)) ++ keys new) as ->
      by (rewrite <- !app_assoc; done).
    split_and!.
    + apply NoDup_app. split_and!; [done| |done]. intros k Hk Hk2. by apply (Hnew _ Hk2), Hin0.
    + intros k [Hk|Hk]%elem_of_app; apply Hseen1; [left; by apply Hin0|by right].
    + apply Forall_app. split; [done|]. eapply Forall_impl; [exact Ha|]. intros q' Hact'. by eapply Hid.
  - by rewrite Hrem.
  - unfold once. rewrite E1. cbn [map app]. split_and!; [done|intros k; by rewrite Hseen|].
    eapply Forall_impl; [exact Hact|]. intros q Hq. by eapply Hid.
Qed.
End Cycle.
