(* ===== verification/CouplingQuota.v ===== *)
(** * Quotas and source cuts of a scheduler cycle

    How often a coupling runs in a turn and on a thread, across the receipts of
    a cycle and those already on the journal; and what a run's source cut says
    of the events it read. *)

From stdpp Require Import base gmap sets list strings pretty sorting relations.
From Stdlib Require Import NArith ZArith Lia.
From S2P Require Import Prelude Json EventKind Contracts Records Store Journal EventLog SyncExamples Coupling CouplingFacts.

Local Open Scope verlet_scope.
Local Open Scope string_scope.
Local Open Scope list_scope.

Section Quota.
Context `{UuidText} {S : Type} `{EventStoreLaws S} `{!EventAppend S} `{!EventAppendLaws S}.
Context {X : Type} `{CouplingExecutor X} `{!CouplingTexts executor_error}.
Variable draw : nat -> EventRecordId * Z.
Variable cfg : CouplingSchedulerConfig.
Notation World := (World (S := S) (X := X)).
Notation Receipt := (CouplingRunReceipt (run_reason executor_error)).
Notation Cycle := (Cycle (X := X)).

Lemma receipt_field_id (run : Receipt) :
  (value_get "coupling_id" (receipt_json run) ≫= as_str) = Some (run_coupling_id run).
Proof.
  unfold receipt_json, jobj, value_get. rewrite obj_get_of. by destruct (run_reason_of run).
Qed.

Lemma receipt_field_status (run : Receipt) :
  (value_get "status" (receipt_json run) ≫= as_str) = Some (status_text (status run)).
Proof.
  unfold receipt_json, jobj, value_get. rewrite obj_get_of. by destruct (run_reason_of run).
Qed.

Definition invoked (run : Receipt) : bool := negb (bool_decide (status run = Skipped)).

(** A receipt counts for its coupling exactly when the function was run. *)
Lemma receipt_counts id q run cut srcs e :
  receipt_event q run cut srcs e ->
  counted_thread_quota_run id e = bool_decide (run_coupling_id run = id) && invoked run.
Proof.
  intros (_ & Hk & Hp & _). unfold counted_thread_quota_run. rewrite Hp, Hk, receipt_field_id, receipt_field_status.
  unfold invoked. destruct (status run); cbn [run_kind status_text];
    rewrite ?(bool_decide_ext (Some (run_coupling_id run) = Some id) (run_coupling_id run = id)) by naive_solver;
    destruct (bool_decide (run_coupling_id run = id)); reflexivity.
Qed.

(** The runs of a coupling among receipts. *)
Definition runs_of (id : string) (rs : list Receipt) : list Receipt :=
  List.filter (fun run => bool_decide (run_coupling_id run = id) && invoked run) rs.

(** The sinks of the set take no receipts, or are not control streams. *)
Definition sinks_are_honest (set : BoundCouplingSet) : Prop :=
  forall c, c ∈ couplings set ->
    (CouplingRunCompleted ∉ sink_kinds (sink c) /\ CouplingRunFailed ∉ sink_kinds (sink c)) \/
    (forall thread other, stream_id_for thread (sink_stream (sink c)) <> stream_id_for other "control").

Lemma honest_not_counted set q cut srcs es id thread :
  sinks_are_honest set -> coupling q ∈ couplings set -> Forall (sink_event q cut srcs) es ->
  List.filter (counted_thread_quota_run id)
    (List.filter (fun e => String.eqb (stream_id e) (stream_id_for thread "control")) es) = [].
Proof.
  intros Hh Hq Hes. apply Hh in Hq. induction Hes as [|e es (Hs & Hk & _) _ IH]; [done|]. cbn [List.filter].
  destruct (String.eqb_spec (stream_id e) (stream_id_for thread "control")) as [Heq|]; [|done].
  cbn [List.filter]. rewrite IH. destruct Hq as [[Hok Hfail]|Hother]; [|by rewrite Hs in Heq; apply Hother in Heq].
  unfold counted_thread_quota_run.
  by rewrite !bool_decide_eq_false_2 by (intros E; rewrite E in Hk; done).
Qed.

(** What a turn adds to the runs recorded for a key: its own, if it is of that key and was run. *)
Lemma recorded_turn set cy q (w w' : World) cy' thread id :
  let key := thread_run_key thread id in
  sinks_are_honest set -> coupling q ∈ couplings set -> turn cfg set cy q w w' cy' ->
  exists run, runs cy' = runs cy ++ [run] /\ run_coupling_id run = coupling_id (coupling q) /\
    length (recorded_runs (store w') key) =
      length (recorded_runs (store w) key) + (if bool_decide (key_of q = key) && invoked run then 1 else 0) /\
    counted cy q (store w) (invoked run) cy'.
Proof.
  intros key Hh Hq (run & sk & rcpt & new & [_ Hj] & [(s & reason & cut & srcs & Hrun & Hr & Hs) _ _] & Er & _ & _ & _ & Hc).
  exists run. split_and!; [done|by rewrite Hrun| |done].
  unfold recorded_runs, key, thread_run_key. cbn [fst snd]. rewrite Hj, !List.filter_app, !length_app.
  rewrite (honest_not_counted set q cut srcs sk) by done.
  cbn [List.filter length]. f_equal.
  pose proof (receipt_counts id _ _ _ _ _ Hr) as Hcount. destruct Hr as (Hst & _). rewrite Hst.
  assert (run_coupling_id run = coupling_id (coupling q)) as Hid by by rewrite Hrun.
  rewrite Hid in Hcount. unfold key_of, thread_run_key. set (stream := stream_id_for thread "control").
  destruct (String.eqb_spec (stream_id_for (coordinates (trigger_event q)) "control") stream) as [->|Hne].
  - cbn [List.filter]. rewrite Hcount. destruct (invoked run); [|by rewrite !andb_false_r].
    rewrite !andb_true_r. rewrite (bool_decide_ext ((stream, coupling_id (coupling q)) = (stream, id))
      (coupling_id (coupling q) = id)) by naive_solver. by case_bool_decide.
  - rewrite (bool_decide_eq_false_2 ((_, coupling_id (coupling q)) = (stream, id))) by congruence. done.
Qed.

Lemma same_coupling set c q :
  NoDup (map coupling_id (couplings set)) -> c ∈ couplings set -> coupling q ∈ couplings set ->
  coupling_id (coupling q) = coupling_id c -> coupling q = c.
Proof.
  intros Hnd Hc Hq Heq. apply list_elem_of_lookup in Hc as [i Hi]. apply list_elem_of_lookup in Hq as [j Hj].
  enough (i = j) by congruence. eapply NoDup_lookup; [exact Hnd| |].
  - by rewrite list_lookup_fmap, Hi.
  - by rewrite list_lookup_fmap, Hj; cbn; rewrite Heq.
Qed.

Lemma queue_bound set cy q rest (w w' : World) cy' :
  queue cy = q :: rest -> Forall (fun q => coupling q ∈ couplings set) (queue cy) ->
  turn cfg set (popped cy rest) q w w' cy' ->
  coupling q ∈ couplings set /\ Forall (fun q => coupling q ∈ couplings set) (queue cy').
Proof.
  intros -> [Hq Hrest]%Forall_cons (run & sk & rcpt & new & _ & _ & _ & _ & _ & (-> & Ha & _) & _).
  split; [done|]. apply Forall_app. split; [done|]. eapply Forall_impl; [exact Ha|].
  by intros q' (i & _ & _ & Hc & _).
Qed.

(** The counter of the turn is the number of runs, which the quota bounds. *)
Definition turn_quota_kept (set : BoundCouplingSet) (c : BoundCoupling) (limit : N) (cy : Cycle) (_ : World) : Prop :=
  Forall (fun q => coupling q ∈ couplings set) (queue cy) /\
  default 0%N (per_turn_run_counts cy !! coupling_id c) = N.of_nat (length (runs_of (coupling_id c) (runs cy))) /\
  (N.of_nat (length (runs_of (coupling_id c) (runs cy))) <= limit)%N.

Lemma turn_quota_step set c limit cy q rest (w w' : World) cy' :
  sinks_are_honest set -> NoDup (map coupling_id (couplings set)) -> c ∈ couplings set ->
  per_turn (trigger_quota c) = Some limit -> (limit <= u32_max)%N ->
  queue cy = q :: rest -> turn_quota_kept set c limit cy w -> turn cfg set (popped cy rest) q w w' cy' ->
  turn_quota_kept set c limit cy' w'.
Proof.
  intros Hh Hnd Hc Hlimit Hu Hqueue (Hin & Heq & Hle) Ht.
  destruct (queue_bound _ _ _ _ _ _ _ Hqueue Hin Ht) as [Hq Hin'].
  destruct (recorded_turn _ _ _ _ _ _ (coordinates (trigger_event q)) (coupling_id (coupling q)) Hh Hq Ht) as (run & Er & Hid & _ & Hcount).
  split; [done|]. cbn [popped runs] in Er. rewrite Er. unfold runs_of in *. rewrite List.filter_app, length_app.
  cbn [List.filter]. rewrite Hid. unfold counted, turn_count in Hcount. cbn [popped per_turn_run_counts] in Hcount.
  destruct (invoked run).
  - destruct Hcount as (Hquota & Hturn & _). rewrite Hturn. case_bool_decide as Hsame; cbn [andb length].
    + rewrite Hsame in *. rewrite lookup_insert_eq. cbn [default]. apply same_coupling with (set := set) in Hsame; try done.
      unfold quota_exhausted in Hquota. rewrite Hsame, Hlimit in Hquota. to_prop.
      match goal with Hl : (limit <=? _)%N = false |- _ => apply N.leb_gt in Hl; rewrite Heq in Hl |- * end.
      unfold id, u32_add, as_u32. rewrite N.mod_small by lia. lia.
    + rewrite lookup_insert_ne by done. split; [|lia]. rewrite Heq. lia.
  - destruct Hcount as (Hturn & _). rewrite Hturn, andb_false_r. cbn [length]. split; [|lia]. rewrite Heq. lia.
Qed.

(** The counter of a thread is the number of runs its control stream records. *)
Definition thread_quota_kept (set : BoundCouplingSet) (key : string * string) (bound : nat) (cy : Cycle) (w : World) : Prop :=
  Forall (fun q => coupling q ∈ couplings set) (queue cy) /\
  (forall n, per_thread_run_counts cy !! key = Some n -> n = N.of_nat (length (recorded_runs (store w) key))) /\
  length (recorded_runs (store w) key) <= bound.

Lemma thread_quota_step set c limit thread bound cy q rest (w w' : World) cy' :
  let key := thread_run_key thread (coupling_id c) in
  sinks_are_honest set -> NoDup (map coupling_id (couplings set)) -> c ∈ couplings set ->
  per_thread (trigger_quota c) = Some limit ->
  (N.of_nat bound <= u32_max)%N -> N.to_nat limit <= bound ->
  queue cy = q :: rest -> thread_quota_kept set key bound cy w -> turn cfg set (popped cy rest) q w w' cy' ->
  thread_quota_kept set key bound cy' w'.
Proof.
  intros key Hh Hnd Hc Hlimit Hu Hb Hqueue (Hin & Heq & Hle) Ht.
  destruct (queue_bound _ _ _ _ _ _ _ Hqueue Hin Ht) as [Hq Hin'].
  destruct (recorded_turn _ _ _ _ _ _ thread (coupling_id c) Hh Hq Ht) as (run & _ & _ & Hrec & Hcount).
  fold key in Hrec. split; [done|]. unfold counted in Hcount. cbn [popped per_thread_run_counts] in Hcount.
  assert (key_of q = key -> thread_count (popped cy rest) q (store w) = N.of_nat (length (recorded_runs (store w) key))) as Htc.
  { intros Hk. unfold thread_count. cbn [popped per_thread_run_counts]. rewrite Hk.
    destruct (_ !! key) as [n|] eqn:Hn; [by apply Heq|]. cbn [default]. unfold id, as_u32. rewrite N.mod_small by lia. done. }
  destruct (decide (key_of q = key)) as [Hk|Hk].
  - rewrite (bool_decide_eq_true_2 _ Hk) in Hrec. specialize (Htc Hk).
    assert (coupling q = c) as Hqc by (eapply same_coupling; try done; by injection Hk).
    rewrite Hqc, Hlimit, Htc, Hk in Hcount. destruct (invoked run); cbn [andb] in Hrec.
    + destruct Hcount as (Hquota & _ & ->). unfold quota_exhausted in Hquota. rewrite Hlimit in Hquota. to_prop.
      match goal with Hl : (limit <=? _)%N = false |- _ => apply N.leb_gt in Hl end.
      split; [|lia]. intros n. rewrite lookup_insert_eq. intros [= <-]. unfold u32_add, as_u32.
      rewrite N.mod_small by lia. lia.
    + rewrite Hrec, Nat.add_0_r. split; [|lia]. intros n.
      destruct Hcount as (_ & [->|[_ ->]]); [apply Heq|]. rewrite lookup_insert_eq. by intros [= <-].
  - rewrite (bool_decide_eq_false_2 _ Hk) in Hrec. cbn [andb] in Hrec. rewrite Hrec, Nat.add_0_r. split; [|lia].
    intros n. enough (per_thread_run_counts cy' !! key = per_thread_run_counts cy !! key) as -> by apply Heq.
    destruct (invoked run); [destruct Hcount as (_ & _ & ->); case_match|destruct Hcount as (_ & [->|[_ ->]])];
      try done; by apply lookup_insert_ne.
Qed.

End Quota.

(** ** What a run reads *)

Section Sources.
Context `{UuidText} {S : Type} `{EventStoreLaws S} {X : Type}.
Notation World := (World (S := S) (X := X)).

Lemma highest_of_numbered (es : list EventRecord) :
  (forall i e, es !! i = Some e -> sequence e = Z.of_nat (Datatypes.S i)) ->
  highest_sequence es = Z.of_nat (length es).
Proof.
  intros Hn. unfold highest_sequence.
  assert (forall k start, (forall i e, k !! i = Some e -> sequence e = Z.of_nat (start + Datatypes.S i)) ->
    fold_left Z.max (map sequence k) (Z.of_nat start) = Z.of_nat (start + length k)) as Hgen.
  { clear. induction k as [|e k IH]; intros start Hk; cbn [map fold_left length]; [lia|].
    rewrite (Hk 0 e eq_refl). replace (Z.max _ _) with (Z.of_nat (Datatypes.S start)) by lia.
    rewrite IH; [lia|]. intros i e' Hi. rewrite (Hk (Datatypes.S i) e' Hi). lia. }
  destruct es as [|e es]; [done|]. cbn [map]. rewrite (Hn 0 e eq_refl).
  rewrite (Hgen es 1); [cbn [length]; lia|]. intros i e' Hi. rewrite (Hn (Datatypes.S i) e' Hi). lia.
Qed.

(** What has been read for the selectors [sels]. *)
Definition sources_of (s : S) (trigger : EventRecord) (sels : list BoundCouplingSelector) (acc : Sources) : Prop :=
  let stream sel := stream_id_for (coordinates trigger) (selector_stream sel) in
  (forall name m, obj_get name (cut_entries acc) = Some m <->
     (exists sel, sel ∈ sels /\ stream sel = name) /\ m = Z.of_nat (length (log_events s name))) /\
  (forall e, e ∈ selected acc -> exists sel, sel ∈ sels /\ e ∈ log_events s (stream sel) /\ kind e ∈ selector_kinds sel) /\
  (forall sel e, sel ∈ sels -> e ∈ log_events s (stream sel) -> kind e ∈ selector_kinds sel ->
     event_id e ∈ map event_id (selected acc)) /\
  NoDup (map event_id (selected acc)) /\
  (forall id, id ∈ seen_event_ids acc <-> id ∈ map event_id (selected acc)) /\
  keys_sorted (cut_entries acc).

(** The events of one selector, taken in order unless they were taken before. *)
Lemma select_events_spec es acc :
  NoDup (map event_id (selected acc)) -> (forall id, id ∈ seen_event_ids acc <-> id ∈ map event_id (selected acc)) ->
  let acc' := fold_left select_event es acc in
  cut_entries acc' = cut_entries acc /\ NoDup (map event_id (selected acc')) /\
  (forall id, id ∈ seen_event_ids acc' <-> id ∈ map event_id (selected acc')) /\
  (forall e, e ∈ selected acc' -> e ∈ selected acc \/ e ∈ es) /\
  (forall id, id ∈ map event_id (selected acc) \/ id ∈ map event_id es -> id ∈ map event_id (selected acc')).
Proof.
  revert acc. induction es as [|e es IH]; intros acc Hnd Hseen; cbn [fold_left].
  - split_and!; try done; [by left|]. by intros id [?|?%elem_of_nil].
  - destruct (decide (event_id e ∈ seen_event_ids acc)) as [Hin|Hin].
    + assert (select_event acc e = acc) as -> by (unfold select_event; by rewrite bool_decide_eq_true_2).
      destruct (IH acc Hnd Hseen) as (E & Hnd' & Hs' & Hsub & Hall). split_and!; try done.
      * intros e' He'. destruct (Hsub _ He') as [?|?]; [by left|right; set_solver].
      * intros id [?|Hid]; apply Hall; [by left|]. cbn [map] in Hid.
        apply elem_of_cons in Hid as [->|?]; [left; by apply Hseen|by right].
    + assert (select_event acc e = {| cut_entries := cut_entries acc; selected := selected acc ++ [e];
        seen_event_ids := {[ event_id e ]} ∪ seen_event_ids acc |}) as ->
        by (unfold select_event; by rewrite bool_decide_eq_false_2).
      edestruct IH as (E & Hnd' & Hs' & Hsub & Hall); [| |split_and!; [exact E|exact Hnd'|exact Hs'| |]].
      * cbn. rewrite map_app. apply NoDup_app. split_and!; [done| |apply NoDup_singleton].
        intros id Hid Hid2. apply list_elem_of_singleton in Hid2 as ->. by apply Hin, Hseen.
      * cbn. intros id. rewrite map_app, elem_of_app, elem_of_union, Hseen, elem_of_singleton.
        cbn. rewrite list_elem_of_singleton. tauto.
      * intros e' He'. destruct (Hsub _ He') as [Hs|?]; [|right; set_solver]. cbn in Hs.
        apply elem_of_app in Hs as [?|Hs]; [by left|right; set_solver].
      * intros id Hid. apply Hall. cbn. rewrite map_app, elem_of_app. cbn [map] in *. set_solver.
Qed.

Lemma read_selector_spec s trigger sels sel acc (w : World) :
  store w = s -> log_valid s -> sources_of s trigger sels acc ->
  exists acc', read_selector trigger acc sel w = (w, Ok acc') /\ sources_of s trigger (sels ++ [sel]) acc'.
Proof.
  intros <- Hv (Hcut & Hsel & Hall & Hnd & Hseen & Hsorted). unfold read_selector, read, st_bind.
  set (stream := stream_id_for (coordinates trigger) (selector_stream sel)).
  rewrite (log_read_all _ _ Hv), highest_of_numbered by (intros i e Hi; by destruct (log_numbered _ _ _ _ Hv Hi)).
  eexists. split; [done|]. set (es := List.filter _ _). set (len := Z.of_nat _).
  set (m := match obj_get stream (cut_entries acc) with Some v => _ | None => _ end).
  assert (m = len) as ->.
  { subst m. destruct (obj_get stream _) eqn:Hg; [|done]. apply Hcut in Hg as [_ ->]. fold len. lia. }
  destruct (select_events_spec es {| cut_entries := obj_insert stream len (cut_entries acc);
    selected := selected acc; seen_event_ids := seen_event_ids acc |} Hnd Hseen) as (E & Hnd' & Hseen' & Hsub & Hids).
  assert (forall e, e ∈ es <-> e ∈ log_events (store w) stream /\ kind e ∈ selector_kinds sel) as Hes.
  { intros e. unfold es. rewrite list_elem_of_In, filter_In, <- list_elem_of_In, existsb_exists.
    split; intros [He Hk]; (split; [done|]).
    - destruct Hk as (k & Hk & <-%bool_decide_eq_true_1). by apply list_elem_of_In.
    - exists (kind e). split; [by apply list_elem_of_In|by apply bool_decide_eq_true_2]. }
  split_and!; [| | |done|done|rewrite E; by apply obj_insert_sorted].
  - intros name m. rewrite E. cbn [cut_entries]. rewrite obj_get_insert. destruct (String.eqb_spec name stream) as [->|Hne].
    + fold len. split; [intros [= <-]|intros [_ ->]; done]. split; [|done]. exists sel. set_solver.
    + rewrite Hcut. split; intros [(sel' & Hs & Hn) ->]; (split; [|done]); exists sel'; split; try done; [set_solver|].
      apply elem_of_app in Hs as [?|Hs]; [done|]. apply list_elem_of_singleton in Hs as ->. by rewrite <- Hn in Hne.
  - intros e He. destruct (Hsub _ He) as [Hold|Hnew].
    + destruct (Hsel _ Hold) as (sel' & ? & ?). exists sel'. set_solver.
    + exists sel. apply Hes in Hnew. set_solver.
  - intros sel' e Hs He Hk. apply Hids. apply elem_of_app in Hs as [Hs|Hs].
    + left. by eapply Hall.
    + apply list_elem_of_singleton in Hs as ->. right. apply list_elem_of_fmap. exists e. split; [done|]. by apply Hes.
Qed.

Lemma read_selectors_spec s trigger before sels acc (w : World) :
  store w = s -> log_valid s -> sources_of s trigger before acc ->
  exists acc', read_selectors trigger acc sels w = (w, Ok acc') /\ sources_of s trigger (before ++ sels) acc'.
Proof.
  intros Hw Hv. revert before acc. induction sels as [|sel sels IH]; intros before acc Hacc; cbn [read_selectors].
  - exists acc. by rewrite app_nil_r.
  - destruct (read_selector_spec s trigger before sel acc w Hw Hv Hacc) as (acc1 & Hrun & Hacc1).
    destruct (IH _ _ Hacc1) as (acc2 & Hrun2 & Hacc2). exists acc2. unfold st_bind. rewrite Hrun.
    by rewrite <- app_assoc in Hacc2.
Qed.

(** A source cut says what a run has read: resolving a coupling's sources always succeeds and
    changes nothing; the cut names exactly the streams of the coupling's selectors, each with the
    number of events it held; and the events are those of the selected streams and kinds, none
    twice and none beyond the cut. *)
Theorem source_cut_covers c trigger (w : World) :
  log_valid (store w) ->
  let stream sel := stream_id_for (coordinates trigger) (selector_stream sel) in
  exists cut srcs, resolve_source_cut c trigger w = (w, Ok (cut, srcs)) /\
    (forall name m, {| cut_entry_stream_id := name; max_sequence := m |} ∈ cut ->
       (exists sel, sel ∈ source_selectors c /\ stream sel = name) /\
       m = Z.of_nat (length (log_events (store w) name))) /\
    (forall e, e ∈ srcs -> exists sel m, sel ∈ source_selectors c /\ kind e ∈ selector_kinds sel /\
       e ∈ log_events (store w) (stream sel) /\
       {| cut_entry_stream_id := stream_id e; max_sequence := m |} ∈ cut /\ (1 <= sequence e <= m)%Z) /\
    (forall sel e, sel ∈ source_selectors c -> e ∈ log_events (store w) (stream sel) ->
       kind e ∈ selector_kinds sel -> event_id e ∈ map event_id srcs) /\
    NoDup (map event_id srcs).
Proof.
  intros Hv stream.
  destruct (read_selectors_spec (store w) trigger [] (source_selectors c)
    {| cut_entries := []; selected := []; seen_event_ids := ∅ |} w eq_refl Hv)
    as (acc & Hrun & Hcut & Hsel & Hall & Hnd & _ & Hsorted).
  { unfold sources_of. cbn. split_and!; [|set_solver|set_solver|constructor|set_solver|constructor].
    intros name m. split; [done|]. set_solver. }
  unfold resolve_source_cut, st_bind. rewrite Hrun. eexists _, _. split; [done|].
  assert (order_sources (selected acc) ≡ₚ selected acc) as Hp.
  { unfold order_sources. by rewrite sort_by_key_perm, sort_by_z_perm, sort_by_key_perm. }
  assert (forall name m, (name, m) ∈ cut_entries acc ->
    {| cut_entry_stream_id := name; max_sequence := m |} ∈
    map (fun e : string * Z => {| cut_entry_stream_id := e.1; max_sequence := e.2 |}) (cut_entries acc)) as Hin.
  { intros name m Hnm. apply list_elem_of_fmap. by exists (name, m). }
  split_and!.
  - intros name m Hnm. apply list_elem_of_fmap in Hnm as ((name' & m') & [= -> ->] & Hnm). cbn [fst snd] in *.
    apply Hcut. by apply obj_get_sorted.
  - intros e He. rewrite Hp in He. destruct (Hsel _ He) as (sel & Hs & Hes & Hk).
    apply list_elem_of_lookup in Hes as Hi. destruct Hi as [i Hi]. destruct (log_numbered _ _ _ _ Hv Hi) as [Hseq Hst].
    exists sel, (Z.of_nat (length (log_events (store w) (stream sel)))). split_and!; try done.
    + apply Hin, obj_get_elem, Hcut. rewrite Hst. split; [by exists sel|done].
    + lia.
    + apply lookup_lt_Some in Hi. unfold stream. lia.
  - intros sel e Hs He Hk. rewrite Hp. by eapply Hall.
  - by rewrite Hp.
Qed.
End Sources.

(** * Couplings at work

    A watcher triggered by completed turns and a follower triggered by what the
    watcher discharges, on an in-memory store: the theorems of [CouplingFacts] and
    [CouplingQuota] applied to their cycle. *)

Module CouplingExamples.
#[local] Existing Instance SyncExamples.id_texts.

Definition me : ThreadCoordinates := sample_coordinates 7.

(** An executor that discharges a note for every invocation, and counts them. *)
#[local] Instance notes : CouplingExecutor nat := {|
  executor_error := string;
  invoke request n := (Datatypes.S n,
    if String.eqb (coupling_id (invoked_coupling request)) "broken" then Err "no such function"
    else Ok [{| discharge_event_id := None; discharge_stream := "notes"; discharge_kind := LoopCompleted;
                discharge_payload := jobj [("note", jint (Z.of_nat n))] |}]);
|}.
#[local] Instance texts : CouplingTexts string := {| display_reason _ := "failed" |}.

Definition coupling_on (id : string) (trigger : EventKind) (quota : CouplingQuota) : BoundCoupling := {|
  coupling_id := id; role := Controller; trigger_kind := trigger; trigger_match := [];
  trigger_quota := quota;
  source_selectors := [{| selector_stream := "thread"; selector_kinds := [TurnCompleted];
                          selector_scope := None; selector_since := None |}];
  sink := {| sink_stream := "notes"; sink_kinds := [LoopCompleted] |};
  function_ref := "f"; coupling_function :=
    {| function_name := "f"; function_artifact_hash := "h"; function_operation_name := None |};
  budget := {| max_ms := None; max_discharge_events := Some 2%N |};
  config := JNull; coupling_config_hash := "c" |}.

Definition watcher : BoundCoupling := coupling_on "watcher" TurnCompleted {| per_turn := Some 1%N; per_thread := Some 2%N |}.
Definition follower : BoundCoupling := coupling_on "follower" LoopCompleted {| per_turn := None; per_thread := None |}.
Definition both : BoundCouplingSet := {| snapshot_id := "s1"; couplings := [watcher; follower] |}.

Definition shallow : CouplingSchedulerConfig := {| max_depth := 1; max_discharge_events_per_cycle := 3 |}.
Definition ids (n : nat) : EventRecordId * Z := (N.of_nat (100 + n), 5%Z).

Definition turn_event (id : EventRecordId) : NewEventRecord := witnessed id 5 me TurnCompleted (jobj []).
Definition started : Handle * HistoryResult (list EventRecord) :=
  log_append (for_thread me) [turn_event 1; turn_event 2] (mk_handle inner_empty 0).
Definition turn_events : list EventRecord := match started.2 with Ok es => es | Err _ => [] end.
Definition at_start : World (S := Handle) (X := nat) := {| store := started.1; executor := 0; drawn := 0 |}.

Definition run_for (fuel : nat) := run_batch ids shallow fuel both turn_events at_start.
Definition outcome := run_for 100.

Lemma empty_log_valid : log_valid (mk_handle inner_empty 0).
Proof. exact journal_wf_empty. Qed.

Lemma at_start_valid : log_valid (store at_start).
Proof.
  unfold at_start. cbn [store]. destruct started as [s [es|e]] eqn:Hrun; unfold started in Hrun;
    [by apply (log_extended _ _ _ _ _ empty_log_valid) in Hrun as [Hv _]
    |by apply (log_unextended _ _ _ _ _ empty_log_valid) in Hrun as [Hv _]].
Qed.

(** The receipt of a cycle that succeeded. *)
Definition receipt_of {S X} `{CouplingExecutor X}
    (o : option (World (S := S) (X := X) * result (CycleReceipt (X := X)) HistoryError)) : list EventRecord * list (CouplingRunReceipt (run_reason executor_error)) :=
  match o with
  | Some (_, Ok r) => (receipt_appended_events r, receipt_runs r)
  | _ => ([], [])
  end.

(** The second completed turn exceeds the watcher's quota, and what follows from the follower's own
    note is too deep. *)
Lemma cycle_runs :
  map (fun run => (run_coupling_id run, status run, run_depth run)) (receipt_of outcome).2 =
    [("watcher", Completed, 0%N); ("watcher", Skipped, 0%N); ("follower", Completed, 1%N); ("follower", Skipped, 2%N)].
Proof. vm_compute. reflexivity. Qed.

Lemma outcome_ok : exists w' r, outcome = Some (w', Ok r).
Proof.
  pose proof cycle_runs as Hruns. destruct outcome as [[w' [r|e]]|]; [by eexists _, _| |]; discriminate Hruns.
Qed.

Lemma sample_honest : sinks_are_honest both.
Proof.
  intros c Hc. unfold both in Hc. cbn [couplings] in Hc.
  apply elem_of_cons in Hc as [->|Hc]; [left; split; vm_compute; set_solver|].
  apply list_elem_of_singleton in Hc as ->. left; split; vm_compute; set_solver.
Qed.


Lemma cycle_accounts_for_writes_witness :
  exists w' r, outcome = Some (w', Ok r) /\
    journal_plus (store at_start) (receipt_appended_events r) (store w').
Proof.
  destruct outcome_ok as (w' & r & Hr). exists w', r. split; [exact Hr|].
  eapply (cycle_accounts_for_writes ids shallow 100 both turn_events at_start w' r);
    [exact at_start_valid|vm_compute; discriminate|exact Hr].
Defined.

Lemma activation_runs_once_witness :
  exists w' r, outcome = Some (w', Ok r) /\ NoDup (map run_key (receipt_runs r)).
Proof.
  destruct outcome_ok as (w' & r & Hr). exists w', r. split; [exact Hr|].
  eapply (activation_runs_once ids shallow 100 both turn_events at_start w' r);
    [exact at_start_valid|vm_compute; discriminate|exact Hr].
Defined.


Lemma source_cut_covers_witness :
  exists e cut srcs, turn_events = [e] ++ tail turn_events /\
    resolve_source_cut watcher e at_start = (at_start, Ok (cut, srcs)) /\ NoDup (map event_id srcs).
Proof.
  destruct turn_events as [|e es] eqn:He; [discriminate (f_equal (@length _) He)|].
  destruct (source_cut_covers watcher e at_start) as (cut & srcs & Hrun & _ & _ & _ & Hnd); [exact at_start_valid|].
  exists e, cut, srcs. split; [reflexivity|]. split; [exact Hrun|exact Hnd].
Defined.
End CouplingExamples.
