(* ===== verification/ReadPlan.v ===== *)
(** * Read plans

    Models [verlet-kernel/src/kernel/runtime_host/context_read_plan.rs] and the
    operations of [runtime_host/runtime_services.rs] that use it: the payloads
    that say what a context was read from, the ranges of the journal they cover,
    the recording of a summary checkpoint, and the reduction of the latest read
    plan of a thread to the text a model is given.

    The digest of a text is the parameter [Sha256]. *)

From stdpp Require Import base gmap sets list strings pretty.
From Stdlib Require Import ZArith Lia.
From S2P Require Import Prelude Json EventKind EventSchemas Contracts Records Session Store EventLog.

Local Open Scope verlet_scope.
Local Open Scope string_scope.
Local Open Scope list_scope.

(** The digest of the [sha2] crate, in hexadecimal. *)
Class Sha256 := { sha256_digest : string -> string }.

(** [sha256_hex] of [verlet-agent/src/contracts.rs]. *)
Definition sha256_hex `{Sha256} (text : string) : string := "sha256:" +:+ sha256_digest text.

(** [String::join]. *)
Definition join (separator : string) (texts : list string) : string := String.concat separator texts.

(** ** Payloads *)

(** [read_plan_from_cursor]. *)
Definition read_plan_from_cursor (seq : EventSequence) : json :=
  if (seq <=? 1)%Z then JString "start" else jobj [("sequence", jint (seq - 1))].

Definition sequence_json (seq : EventSequence) : json := jobj [("sequence", jint seq)].

Definition source_stream_entry (stream : EventStreamId) : json :=
  jobj [("kind", JString "raw_range"); ("stream_id", JString stream);
        ("range", jobj [("from", JString "start"); ("to", JString "frontier")])].

Definition source_range_entry (range : ObservationSourceRange) : json :=
  jobj [("kind", JString "raw_range"); ("stream_id", JString (range_stream_id range));
        ("range", jobj [("from", read_plan_from_cursor (from_sequence range));
                        ("to", sequence_json (to_sequence range))])].

(** The five fields every read plan is made of. *)
Definition read_plan_json (name source_stream : string) (entries : list json) : json :=
  jobj [("schema", JString CONTEXT_READ_PLAN_SCHEMA_V1); ("name", JString name);
        ("source_stream", JString source_stream); ("frontier", JString "compile_frontier");
        ("entries", JArray entries)].

(** [context_read_plan_v1]. *)
Definition context_read_plan_v1 (name : string) (stream : EventStreamId)
    (source_ranges : list ObservationSourceRange) (source_streams : list EventStreamId) : json :=
  read_plan_json name stream
    (match source_ranges with
     | [] => map source_stream_entry source_streams
     | _ => map source_range_entry source_ranges
     end).

(** [context_compile_payload_v1]. *)
Definition context_compile_payload_v1 (payload : json) (stream : EventStreamId)
    (source_ranges : list ObservationSourceRange) (source_streams : list EventStreamId) : json :=
  let object := match payload with JObject object => object | other => obj_insert "receipt" other [] end in
  let object :=
    match obj_get "schema" object with
    | Some _ => object
    | None => obj_insert "schema" (JString (payload_schema_id ContextCompileCompleted)) object
    end in
  JObject (obj_insert "read_plan" (context_read_plan_v1 "history.default" stream source_ranges source_streams) object).

(** [source_ranges_json]. *)
Definition source_range_json (range : ObservationSourceRange) : json :=
  jobj [("stream_id", JString (range_stream_id range)); ("from_sequence", jint (from_sequence range));
        ("to_sequence", jint (to_sequence range))].
Definition source_ranges_json (source_ranges : list ObservationSourceRange) : json :=
  JArray (map source_range_json source_ranges).

(** [context_summary_completed_payload_v1]. *)
Definition context_summary_completed_payload_v1 `{Sha256} (summary : string)
    (source_ranges : list ObservationSourceRange) : json :=
  jobj [("schema", JString (payload_schema_id ContextSummaryCompleted));
        ("role", JString "summary_checkpoint"); ("text", JString summary);
        ("covered_ranges", source_ranges_json source_ranges);
        ("content", jobj [("sha256", JString ("sha256:" +:+ sha256_hex summary))])].

Section Plans.
Context `{UuidText}.

(** [summary_checkpoint_entries]. *)
Definition summary_checkpoint_entry (summary_event_id : EventRecordId) (range : ObservationSourceRange) : json :=
  jobj [("kind", JString "event_ref"); ("stream_id", JString (range_stream_id range));
        ("event_id", JString (uuid_text summary_event_id)); ("event_role", JString "summary_checkpoint");
        ("covers", jobj [("from", read_plan_from_cursor (from_sequence range));
                         ("to", sequence_json (to_sequence range))])].

Definition summary_checkpoint_entries (summary_event_id : EventRecordId)
    (source_ranges : list ObservationSourceRange) : list json :=
  match source_ranges with
  | [] => [jobj [("kind", JString "event_ref"); ("event_id", JString (uuid_text summary_event_id));
                 ("event_role", JString "summary_checkpoint")]]
  | _ => map (summary_checkpoint_entry summary_event_id) source_ranges
  end.

(** [context_read_plan_set_payload_v1]. *)
Definition context_read_plan_set_payload_v1 (name : string) (stream : EventStreamId)
    (summary_event_id : EventRecordId) (source_ranges : list ObservationSourceRange) : json :=
  jobj [("schema", JString (payload_schema_id ContextReadPlanSet)); ("scope", JString "thread");
        ("name", JString name); ("pipeline_id", JString "context.default"); ("source_id", JString stream);
        ("summary_event_id", JString (uuid_text summary_event_id));
        ("read_plan", read_plan_json name stream (summary_checkpoint_entries summary_event_id source_ranges))].

(** ** Ranges *)

(** [context_source_range]: the entries are those of the stream the ids name. *)
Definition selects_entry (selected_entry_ids : gset string) (event : EventRecord) : bool :=
  match value_get "entry_id" (payload event) ≫= as_str with
  | Some entry_id => bool_decide (entry_id ∈ selected_entry_ids)
  | None => false
  end.

Definition context_source_range (stream : EventStreamId) (events : list EventRecord)
    (selected_entry_ids : list SessionEntryId) : option ObservationSourceRange :=
  let ids := list_to_set (map uuid_text selected_entry_ids) in
  let selected_sequences :=
    map sequence (List.filter (selects_entry ids)
      (List.filter (fun e => bool_decide (kind e = SessionEntryAppended)) events)) in
  from_seq ← head selected_sequences;
  to_seq ← last selected_sequences;
  Some (mk_range stream from_seq to_seq).

(** [session_context_source_cut_for_entries]. *)
Definition session_context_source_cut_for_entries (c : ThreadCoordinates) (session_entries : list SessionEntry)
    : list SessionContextSourceCut :=
  let ids := map entry_id (List.filter (fun e => bool_decide (thread_id (entry_coordinates e) = thread_id c))
                             session_entries) in
  match ids with
  | [] => []
  | _ => [mk_cut c (for_thread c) false ids]
  end.

(** [context_source_streams]. *)
Definition context_source_streams (source_cuts : list SessionContextSourceCut) (fallback : EventStreamId)
    : list EventStreamId :=
  let streams := fold_left (fun streams cut =>
    if bool_decide (cut_stream_id cut ∈ streams) then streams else streams ++ [cut_stream_id cut]) source_cuts [] in
  match streams with [] => [fallback] | _ => streams end.

(** [primary_context_source_range]. *)
Definition primary_context_source_range (stream : EventStreamId) (source_ranges : list ObservationSourceRange)
    : option ObservationSourceRange :=
  match List.find (fun range => String.eqb (range_stream_id range) stream) (rev source_ranges) with
  | Some range => Some range
  | None => head source_ranges
  end.

(** [is_recall_context_read_plan_event] and [is_instruction_context_read_plan_event]. *)
Definition is_thread_read_plan_event (pipeline : string) (event : EventRecord) : bool :=
  bool_decide (kind event = ContextReadPlanSet) &&
  bool_decide ((value_get "scope" (payload event) ≫= as_str) = Some "thread") &&
  bool_decide ((value_get "pipeline_id" (payload event) ≫= as_str) = Some pipeline).
Definition is_recall_context_read_plan_event : EventRecord -> bool := is_thread_read_plan_event "context.memory".
Definition is_instruction_context_read_plan_event : EventRecord -> bool :=
  is_thread_read_plan_event "context.instructions".

(** [render_recall_context] and [render_instruction_context]. *)
Definition render_context (tag : string) (texts : list string) : string :=
  "<" +:+ tag +:+ ">" +:+ newline +:+ join newline (map (fun text => "- " +:+ str_trim text) texts) +:+
  newline +:+ "</" +:+ tag +:+ ">".
Definition render_recall_context : list string -> string := render_context "memory_context".
Definition render_instruction_context : list string -> string := render_context "instruction_context".
End Plans.

(** ** The store *)

Section Store.
Context `{UuidText} {S : Type} `{EventStore S}.

(** [read_events] with [VerletError::History] of its error. *)
Definition read_stream (s : S) (stream : EventStreamId) : VerletResult (list EventRecord) :=
  map_err HistoryFailed (log_read s stream None).

(** [context_source_ranges]. *)
Fixpoint context_source_ranges (s : S) (source_cuts : list SessionContextSourceCut)
    : VerletResult (list ObservationSourceRange) :=
  match source_cuts with
  | [] => Ok []
  | cut :: cuts =>
      match entry_ids cut with
      | [] => context_source_ranges s cuts
      | _ =>
          events <-? read_stream s (cut_stream_id cut) ;;
          ranges <-? context_source_ranges s cuts ;;
          Ok (match context_source_range (cut_stream_id cut) events (entry_ids cut) with
              | Some range => range :: ranges
              | None => ranges
              end)
      end
  end.

(** [Iterator::max_by_key] of the sequence: the last of the greatest. *)
Definition latest_event (events : list EventRecord) : option EventRecord :=
  fold_left (fun best event =>
    match best with
    | Some b => if (sequence b <=? sequence event)%Z then Some event else best
    | None => Some event
    end) events None.

(** What the loop over a plan's entries has found. *)
Record Recalled := {
  seen_ids : gset string;
  texts : list string;
}.

Definition missing (label what : string) : VerletError := HistoryText (label +:+ " read plan " +:+ what).

(** The text of the summary an entry refers to. *)
Definition referenced_text (s : S) (label stream event_id : string) : VerletResult string :=
  source_events <-? read_stream s stream ;;
  event <-? ok_or (List.find (fun e => String.eqb (uuid_text (Records.event_id e)) event_id) source_events)
              (missing label ("referenced missing event " +:+ event_id)) ;;
  if negb (bool_decide (kind event = ContextSummaryCompleted))
  then Err (missing label ("referenced non-summary event " +:+ event_id))
  else
    ok_or (match value_get "text" (payload event) ≫= as_str with
           | Some text => if String.eqb (str_trim text) "" then None else Some text
           | None => None
           end)
      (missing label ("referenced summary event " +:+ event_id +:+ " without text")).

(** One turn of that loop. *)
Definition recall_entry (s : S) (event_role label source_stream : string) (acc : Recalled) (entry : json)
    : VerletResult Recalled :=
  if negb (bool_decide ((value_get "kind" entry ≫= as_str) = Some "event_ref")) then Ok acc
  else if negb (bool_decide ((value_get "event_role" entry ≫= as_str) = Some event_role)) then Ok acc
  else
    id <-? ok_or (value_get "event_id" entry ≫= as_str) (missing label "event_ref is missing event_id") ;;
    if bool_decide (id ∈ seen_ids acc) then Ok acc
    else
      let stream := default source_stream (value_get "stream_id" entry ≫= as_str) in
      text <-? referenced_text s label stream id ;;
      Ok {| seen_ids := {[ id ]} ∪ seen_ids acc; texts := texts acc ++ [text] |}.

(** The texts a plan selects. *)
Definition plan_texts (s : S) (event_role label : string) (plan_event : EventRecord) : VerletResult (list string) :=
  read_plan <-? ok_or (value_get "read_plan" (payload plan_event)) (missing label "is missing read_plan") ;;
  if negb (bool_decide ((value_get "schema" read_plan ≫= as_str) = Some CONTEXT_READ_PLAN_SCHEMA_V1))
  then Err (missing label "has unsupported schema")
  else
    source_stream <-? ok_or (value_get "source_stream" read_plan ≫= as_str) (missing label "is missing source_stream") ;;
    entries <-? ok_or (value_get "entries" read_plan ≫= as_array) (missing label "is missing entries") ;;
    acc <-? try_fold (recall_entry s event_role label source_stream) {| seen_ids := ∅; texts := [] |} entries ;;
    Ok (texts acc).

(** [build_context_read_plan_contexts]. *)
Definition derived_context_stream (c : ThreadCoordinates) : EventStreamId :=
  "derived:context:" +:+ uuid_text (thread_id c).

Definition build_context_read_plan_contexts (s : S) (c : ThreadCoordinates)
    (event_filter : EventRecord -> bool) (event_role label : string) (render : list string -> string)
    : VerletResult (list string) :=
  events <-? read_stream s (derived_context_stream c) ;;
  match latest_event (List.filter event_filter events) with
  | None => Ok []
  | Some plan_event =>
      texts <-? plan_texts s event_role label plan_event ;;
      match texts with
      | [] => Ok []
      | _ => Ok [render texts]
      end
  end.

Definition build_recall_read_plan_contexts (s : S) (c : ThreadCoordinates) : VerletResult (list string) :=
  build_context_read_plan_contexts s c is_recall_context_read_plan_event "memory_checkpoint" "memory context"
    render_recall_context.
Definition build_instruction_read_plan_contexts (s : S) (c : ThreadCoordinates) : VerletResult (list string) :=
  build_context_read_plan_contexts s c is_instruction_context_read_plan_event "instruction_checkpoint"
    "instruction context" render_instruction_context.

(** ** Recording a summary *)

Context `{EventAppend S} `{Sha256}.
(** The ids and times drawn for the two events. *)
Variable drawn : nat -> EventRecordId * Z.

Notation Call A := (st S VerletError A).

(** [append_events] of one record, which the code expects one event of. *)
Definition append_one (what : string) (stream : EventStreamId) (record : NewEventRecord) : Call EventRecord := fun s =>
  let '(s, r) := log_append stream [record] s in
  (s, events <-? map_err HistoryFailed r ;;
      ok_or (head events) (HistoryText (what +:+ " event append returned no record"))).

Definition plan_provenance (streams : list EventStreamId) (ids : list EventRecordId)
    (range : option ObservationSourceRange) (ranges : list ObservationSourceRange) (by_ fn : string) : EventProvenance :=
  mk_provenance streams ids range ranges (Some by_) (Some fn) None.

(** [record_context_summary_checkpoint]. *)
Definition record_context_summary_checkpoint (c : ThreadCoordinates) (session_entries : list SessionEntry)
    (source_cuts : list SessionContextSourceCut) (summary : string) : Call (EventRecord * EventRecord) :=
  let stream := for_thread c in
  let source_cuts := match source_cuts with [] => session_context_source_cut_for_entries c session_entries | _ => source_cuts end in
  source_ranges <-! (fun s => (s, context_source_ranges s source_cuts)) ;;
  let source_range := primary_context_source_range stream source_ranges in
  let source_streams := context_source_streams source_cuts stream in
  let '(summary_id, summary_now) := drawn 0 in
  summary_event <-! append_one "context summary" stream
    (discharged summary_id summary_now c ContextSummaryCompleted
       (context_summary_completed_payload_v1 summary source_ranges)
       (plan_provenance source_streams [] source_range source_ranges "projection:context-summarizer" "context_summary/v1")) ;;
  let '(plan_id, plan_now) := drawn 1 in
  read_plan_event <-! append_one "context read plan" stream
    (discharged plan_id plan_now c ContextReadPlanSet
       (context_read_plan_set_payload_v1 "history.default" stream (event_id summary_event) source_ranges)
       (plan_provenance [stream] [event_id summary_event] source_range source_ranges "controller:context-budget"
          "context_read_plan/v1")) ;;
  st_ret (summary_event, read_plan_event).
End Store.
