(* ===== verification/ReadPlanFacts.v ===== *)
(** * What read plans say

    The payloads conform to their frozen schemas; a range covers the events it
    was computed for; a summary checkpoint is two events, the second naming the
    first; and what a model is given from a plan is the text the plan selects. *)

From stdpp Require Import base gmap sets list strings pretty.
From Stdlib Require Import ZArith Lia.
From S2P Require Import Prelude Json Schema SchemaFacts EventKind EventSchemas Contracts Records Session EventLog ReadPlan.

Local Open Scope verlet_scope.
Local Open Scope string_scope.
Local Open Scope list_scope.

(** ** Conformance of built objects *)

(** An object conforms when its fields do, each to the property of its name. *)
Lemma conforms_fields schema value :
  obj_get "enum" schema = None -> obj_get "type" schema = Some (JString "object") ->
  NoDup (props_of schema).*1 ->
  Forall (fun p => match p with JString p => negb (is_none (obj_get p value)) = true | _ => True end) (required_of schema) ->
  Forall (fun field : string * json =>
    match obj_get field.1 (props_of schema) with
    | Some s => conforms s field.2
    | None => obj_get "additionalProperties" schema = Some (JBool true)
    end) value ->
  conforms (JObject schema) (JObject value).
Proof.
  intros He Ht Hnd Hreq Hfields. pose proof (proj1 (List.Forall_forall _ _) Hreq) as Hr.
  pose proof (proj1 (List.Forall_forall _ _) Hfields) as Hf. apply conforms_object.
  - unfold enum_admits. by rewrite He.
  - exists "object". unfold types_of. rewrite Ht. split; [by left|done].
  - intros p Hp. specialize (Hr _ (proj1 (list_elem_of_In _ _) Hp)). cbn in Hr. by destruct (obj_get p value).
  - intros name s v Hs Hv. apply obj_get_elem, list_elem_of_In, Hf in Hv. cbn [fst snd] in Hv.
    destruct (obj_get name (props_of schema)) as [s'|] eqn:Hn.
    + apply obj_get_elem in Hn. apply list_elem_of_lookup in Hs as [i Hi]. apply list_elem_of_lookup in Hn as [j Hj].
      enough (i = j) by congruence. eapply NoDup_lookup; [exact Hnd| |]; rewrite list_lookup_fmap.
      * by rewrite Hi.
      * by rewrite Hj.
    + apply obj_get_none in Hn. destruct Hn. apply list_elem_of_fmap. by exists (name, s).
  - intros name v Hv Hn. apply list_elem_of_In, Hf in Hv. cbn [fst snd] in Hv. rewrite Hn in Hv. by left.
Qed.

Lemma conforms_items schema s value :
  obj_get "enum" schema = None -> obj_get "type" schema = Some (JString "array") ->
  obj_get "items" schema = Some (JObject s) -> Forall (conforms (JObject s)) value ->
  conforms (JObject schema) (JArray value).
Proof.
  intros He Ht Hi Hv. rewrite Forall_forall in Hv. apply conforms_array.
  - unfold enum_admits. by rewrite He.
  - exists "array". unfold types_of. rewrite Ht. split; [by left|done].
  - intros v Hin. right. exists s. split; [done|by apply Hv].
Qed.

Lemma conforms_string schema s :
  obj_get "enum" schema = None -> obj_get "type" schema = Some (JString "string") ->
  conforms (JObject schema) (JString s).
Proof.
  intros He Ht. apply conforms_scalar; [unfold enum_admits; by rewrite He| |done|done].
  exists "string". unfold types_of. rewrite Ht. split; [by left|done].
Qed.

Lemma conforms_integer schema z :
  obj_get "enum" schema = None -> obj_get "type" schema = Some (JString "integer") ->
  conforms (JObject schema) (jint z).
Proof.
  intros He Ht. apply conforms_scalar; [unfold enum_admits; by rewrite He| |done|done].
  exists "integer". unfold types_of. rewrite Ht. split; [by left|]. 
  assert (is_json_integer (jint z) = true) as Hz.
  { unfold jint, is_json_integer. destruct (z <? 0)%Z; by repeat case_match. }
  unfold schema_value_type_matches. rewrite Hz. by rewrite !orb_true_r.
Qed.

Lemma conforms_enum schema v l :
  obj_get "type" schema = None -> obj_get "enum" schema = Some (JArray l) ->
  existsb (fun c => json_eqb c v) l = true -> conforms (JObject schema) v.
Proof.
  intros Ht He Hl. apply conforms_untyped; [done|by rewrite He|]. unfold enum_admits. rewrite He.
  apply existsb_exists in Hl as (c & Hc & Heq). exists c. split; [by apply list_elem_of_In|done].
Qed.

Lemma obj_insert_elem {A} k (v : A) m x : x ∈ obj_insert k v m -> x = (k, v) \/ x ∈ m.
Proof.
  induction m as [|[k' v'] m IH]; cbn [obj_insert].
  - intros Hx. apply list_elem_of_singleton in Hx. by left.
  - destruct (str_cmp k k'); intros Hx; apply elem_of_cons in Hx as [->|Hx]; set_solver.
Qed.

Lemma obj_of_elem (l : list (string * json)) x : x ∈ obj_of l -> x ∈ l.
Proof.
  induction l as [|[k v] l IH] using rev_ind; [done|]. unfold obj_of in *. rewrite fold_left_app. cbn [fold_left].
  intros [->|Hx]%obj_insert_elem; [set_solver|]. apply elem_of_app. left. by apply IH.
Qed.

(** The same for an object built from a list of fields. *)
Lemma conforms_built schema fields :
  obj_get "enum" schema = None -> obj_get "type" schema = Some (JString "object") ->
  NoDup (props_of schema).*1 ->
  Forall (fun p => match p with JString p => negb (is_none (obj_get p (rev fields))) = true | _ => True end)
    (required_of schema) ->
  Forall (fun field : string * json =>
    match obj_get field.1 (props_of schema) with
    | Some s => conforms s field.2
    | None => obj_get "additionalProperties" schema = Some (JBool true)
    end) fields ->
  conforms (JObject schema) (jobj fields).
Proof.
  intros He Ht Hnd Hreq Hfields. apply conforms_fields; try done.
  - eapply Forall_impl; [exact Hreq|]. intros [| | |p| |]; try done. by rewrite obj_get_of.
  - apply List.Forall_forall. intros x Hx%list_elem_of_In%obj_of_elem%list_elem_of_In. revert x Hx.
    by apply List.Forall_forall.
Qed.

(** Applies the rule of the value's form and goes on with its parts. *)
Ltac conform_field :=
  cbn [fst snd];
  lazymatch goal with
  | |- match obj_get ?k (props_of ?s) with _ => _ end =>
      let r := eval vm_compute in (obj_get k (props_of s)) in
      change (obj_get k (props_of s)) with r; cbv iota beta
  end.

Ltac conform :=
  lazymatch goal with
  | |- conforms (jobj ?fs) _ =>
      let s := eval vm_compute in (jobj fs) in change (jobj fs) with s; conform
  | |- conforms _ (JString _) =>
      first [apply conforms_string; vm_compute; reflexivity
            | eapply conforms_enum; vm_compute; reflexivity]
  | |- conforms _ (jint _) => apply conforms_integer; vm_compute; reflexivity
  | |- conforms _ (jobj _) =>
      apply conforms_built;
      [vm_compute; reflexivity | vm_compute; reflexivity
      |refine (bool_decide_eq_true_1 _ _); vm_compute; reflexivity
      |repeat constructor; vm_compute; reflexivity
      |repeat (apply Forall_cons; split; [conform_field; try (vm_compute; reflexivity); conform|]); try (lazymatch goal with |- Forall _ [] => constructor end)]
  | |- _ => idtac
  end.

Section Payloads.
Context `{UuidText} `{Sha256}.

Lemma source_ranges_conform schema s ranges :
  obj_get "enum" schema = None -> obj_get "type" schema = Some (JString "array") ->
  obj_get "items" schema = Some (JObject s) ->
  (forall range, conforms (JObject s) (source_range_json range)) ->
  conforms (JObject schema) (source_ranges_json ranges).
Proof.
  intros He Ht Hi Hr. eapply conforms_items; try done. induction ranges; constructor; [apply Hr|done].
Qed.

Lemma summary_payload_conforms summary ranges :
  conforms context_summary_completed_payload_schema_v1 (context_summary_completed_payload_v1 summary ranges).
Proof.
  unfold context_summary_completed_payload_v1, context_summary_completed_payload_schema_v1. conform.
  eapply source_ranges_conform; [vm_compute; reflexivity..|]. intros range. unfold source_range_json. conform.
Qed.

(** The schema of an entry, as it stands in the schema of a read plan. *)
Definition entry_schema : json :=
  Eval vm_compute in default JNull
    (props ← value_get "properties" context_read_plan_schema_v1; es ← value_get "entries" props;
     value_get "items" es).

(** A read plan conforms when its entries do. *)
Lemma read_plan_conforms name stream entries :
  Forall (conforms entry_schema) entries -> conforms context_read_plan_schema_v1 (read_plan_json name stream entries).
Proof.
  intros He. unfold read_plan_json, context_read_plan_schema_v1. conform.
  by eapply conforms_items; [vm_compute; reflexivity..|].
Qed.

Lemma conforms_free_object schema value :
  obj_get "enum" schema = None -> obj_get "type" schema = Some (JString "object") ->
  obj_get "properties" schema = None -> obj_get "required" schema = None ->
  obj_get "additionalProperties" schema = Some (JBool true) -> conforms (JObject schema) (JObject value).
Proof.
  intros He Ht Hp Hr Ha. apply conforms_fields; try done.
  - unfold props_of. rewrite Hp. constructor.
  - unfold required_of. by rewrite Hr.
  - unfold props_of. rewrite Hp. by apply Forall_true.
Qed.

Ltac conform_entry :=
  unfold entry_schema; conform; apply conforms_free_object; vm_compute; reflexivity.

Lemma source_stream_entry_conforms stream : conforms entry_schema (source_stream_entry stream).
Proof. unfold source_stream_entry. conform_entry. Qed.

Lemma source_range_entry_conforms range : conforms entry_schema (source_range_entry range).
Proof. unfold source_range_entry. conform_entry. Qed.

Lemma summary_checkpoint_entries_conform id ranges : Forall (conforms entry_schema) (summary_checkpoint_entries id ranges).
Proof.
  unfold summary_checkpoint_entries. destruct ranges as [|range ranges].
  - constructor; [|constructor]. unfold entry_schema. conform.
  - induction (range :: ranges) as [|r rs IH]; constructor; [|done]. unfold summary_checkpoint_entry. conform_entry.
Qed.

Lemma context_read_plan_conforms name stream ranges streams :
  conforms context_read_plan_schema_v1 (context_read_plan_v1 name stream ranges streams).
Proof.
  apply read_plan_conforms. destruct ranges as [|range ranges].
  - induction streams; constructor; [apply source_stream_entry_conforms|done].
  - induction (range :: ranges); constructor; [apply source_range_entry_conforms|done].
Qed.

Lemma read_plan_set_payload_conforms name stream id ranges :
  conforms context_read_plan_set_payload_schema_v1 (context_read_plan_set_payload_v1 name stream id ranges).
Proof.
  unfold context_read_plan_set_payload_v1, context_read_plan_set_payload_schema_v1. conform.
  exact (read_plan_conforms _ _ _ (summary_checkpoint_entries_conform id ranges)).
Qed.

Lemma registry_decides kind schema payload :
  obj_get (payload_schema_id kind) (schemas REGISTRY) = Some schema ->
  validate_json_schema_subset schema (payload_schema_id kind) = Ok tt ->
  validate_context_payload_schema_v1 kind payload = Ok tt <-> conforms schema payload.
Proof.
  intros Hr Hs. unfold validate_context_payload_schema_v1, validate. rewrite Hr. cbn [ok_or result_bind].
  rewrite validator_decides. split; [by intros [_ ?]|by split].
Qed.

Lemma string_schema_admits schema v :
  conforms (JObject schema) v -> obj_get "type" schema = Some (JString "string") -> exists s, v = JString s.
Proof.
  intros Hc Ht. assert (type_admits schema v) as (t & Hin & Hm) by (inversion Hc; subst; congruence).
  unfold types_of in Hin. rewrite Ht in Hin. apply list_elem_of_singleton in Hin as [= ->].
  destruct v; try discriminate Hm; by eexists.
Qed.

Lemma enum_schema_admits schema v s :
  conforms (JObject schema) v -> obj_get "enum" schema = Some (JArray [JString s]) -> v = JString s.
Proof.
  intros Hc He. assert (enum_admits schema v) as Ha by (inversion Hc; subst; done).
  unfold enum_admits in Ha. rewrite He in Ha. destruct Ha as (c & Hin & Heq).
  apply list_elem_of_singleton in Hin as ->. by apply json_eqb_string_l.
Qed.

Lemma object_props_conform schema value name s v :
  conforms (JObject schema) (JObject value) -> obj_get "type" schema <> None ->
  obj_get name (props_of schema) = Some s -> obj_get name value = Some v -> conforms s v.
Proof.
  intros Hc Ht Hs Hv. inversion Hc; subst; try done.
  match goal with Hp : forall _ _ _, _ ∈ props_of _ -> _ |- _ => by eapply Hp; [apply obj_get_elem|] end.
Qed.

(** What a caller's receipt may say in the fields the schema fixes. *)
Definition receipt_admissible (payload : json) : Prop :=
  match payload with
  | JObject m =>
      (forall v, obj_get "schema" m = Some v -> v = JString (payload_schema_id ContextCompileCompleted)) /\
      (forall v, obj_get "strategy" m = Some v -> exists s, v = JString s) /\
      (forall v, obj_get "output_hash" m = Some v -> exists s, v = JString s)
  | _ => True
  end.

Definition context_compile_schema_fields : list (string * json) :=
  Eval vm_compute in default [] (as_object context_compile_completed_payload_schema_v1).

Lemma compile_payload_conforms payload stream ranges streams :
  conforms context_compile_completed_payload_schema_v1 (context_compile_payload_v1 payload stream ranges streams) <->
  receipt_admissible payload.
Proof.
  unfold context_compile_payload_v1.
  set (object := match payload with JObject object => object | other => obj_insert "receipt" other [] end).
  set (filled := match obj_get "schema" object with Some _ => object | None => _ end).
  pose proof (context_read_plan_conforms "history.default" stream ranges streams) as Hplan.
  set (plan := context_read_plan_v1 _ _ _ _) in *.
  change context_compile_completed_payload_schema_v1 with (JObject context_compile_schema_fields).
  assert (forall k, obj_get k filled = if String.eqb k "schema"
    then Some (default (JString (payload_schema_id ContextCompileCompleted)) (obj_get "schema" object))
    else obj_get k object) as Hfilled.
  { intros k. unfold filled. destruct (obj_get "schema" object) as [v|] eqn:Hs.
    - destruct (String.eqb_spec k "schema") as [->|]; [by rewrite Hs|done].
    - rewrite obj_get_insert. by destruct (String.eqb_spec k "schema"). }
  assert (receipt_admissible payload <-> receipt_admissible (JObject object)) as ->.
  { destruct payload; [..|done]; cbn; (split; [intros _|done]); split_and!; intros v; discriminate. }
  split.
  - intros Hc.
    assert (forall name s v, obj_get name (props_of context_compile_schema_fields) = Some s ->
      String.eqb name "read_plan" = false -> obj_get name object = Some v -> conforms s v) as Hprops.
    { intros name s v Hs Hn Hv. eapply object_props_conform; [exact Hc|done|exact Hs|].
      rewrite obj_get_insert, Hn, Hfilled. destruct (String.eqb_spec name "schema") as [->|]; [by rewrite Hv|done]. }
    split_and!; intros v Hv.
    + eapply (enum_schema_admits _ v); [by eapply (Hprops "schema")|reflexivity].
    + eapply (string_schema_admits _ v); [by eapply (Hprops "strategy")|reflexivity].
    + eapply (string_schema_admits _ v); [by eapply (Hprops "output_hash")|reflexivity].
  - intros (Hs & Hst & Ho). apply conforms_object.
    + done.
    + by exists "object"; split; [left|].
    + intros p Hp. rewrite obj_get_insert, Hfilled. cbn in Hp.
      repeat (apply elem_of_cons in Hp as [[= ->]|Hp]; [done|]). by apply elem_of_nil in Hp.
    + intros name s v Hin. rewrite obj_get_insert, Hfilled. cbn in Hin.
      repeat (apply elem_of_cons in Hin as [[= -> ->]|Hin]; [cbn; intros Hv|]); [..|by apply elem_of_nil in Hin].
      * destruct (Ho _ Hv) as [h ->]. by apply conforms_string.
      * by injection Hv as <-.
      * injection Hv as <-. destruct (obj_get "schema" object) as [w|] eqn:Hw; cbn; [rewrite (Hs _ eq_refl)|];
          by eapply conforms_enum.
      * destruct (Hst _ Hv) as [h ->]. by apply conforms_string.
    + intros name v _ _. by left.
Qed.
End Payloads.

(** The payloads that record what a context was read from conform to their frozen schemas: those
    of a summary and of the plan that selects it always do; that of a compilation does exactly when
    the receipt it is built from says nothing else in the fields the schema fixes. *)
Theorem context_payloads_conform `{UuidText} `{Sha256} :
  (forall summary ranges,
     validate_context_payload_schema_v1 ContextSummaryCompleted
       (context_summary_completed_payload_v1 summary ranges) = Ok tt) /\
  (forall name stream id ranges,
     validate_context_payload_schema_v1 ContextReadPlanSet
       (context_read_plan_set_payload_v1 name stream id ranges) = Ok tt) /\
  (forall payload stream ranges streams,
     validate_context_payload_schema_v1 ContextCompileCompleted
       (context_compile_payload_v1 payload stream ranges streams) = Ok tt <-> receipt_admissible payload).
Proof.
  split_and!.
  - intros summary ranges. apply (registry_decides _ context_summary_completed_payload_schema_v1);
      [vm_compute; reflexivity..|apply summary_payload_conforms].
  - intros name stream id ranges. apply (registry_decides _ context_read_plan_set_payload_schema_v1);
      [vm_compute; reflexivity..|apply read_plan_set_payload_conforms].
  - intros payload stream ranges streams.
    rewrite (registry_decides _ context_compile_completed_payload_schema_v1) by (vm_compute; reflexivity).
    apply compile_payload_conforms.
Qed.

(** ** Ranges *)

Section Ranges.
Context `{UuidText}.

(** The event records an entry of the list. *)
Definition records_entry (ids : list SessionEntryId) (e : EventRecord) : Prop :=
  kind e = SessionEntryAppended /\
  exists id, id ∈ ids /\ (value_get "entry_id" (payload e) ≫= as_str) = Some (uuid_text id).

Definition selected_events (ids : list SessionEntryId) (events : list EventRecord) : list EventRecord :=
  List.filter (selects_entry (list_to_set (map uuid_text ids)))
    (List.filter (fun e => bool_decide (kind e = SessionEntryAppended)) events).

Lemma elem_of_selected ids events e : e ∈ selected_events ids events <-> e ∈ events /\ records_entry ids e.
Proof.
  unfold selected_events, records_entry, selects_entry.
  rewrite list_elem_of_In, !filter_In, <- list_elem_of_In.
  split.
  - intros [[He Hk%bool_decide_eq_true_1] Hs]. split_and!; try done.
    destruct (value_get "entry_id" (payload e) ≫= as_str) as [t|]; [|done].
    apply bool_decide_eq_true_1, elem_of_list_to_set, list_elem_of_fmap in Hs as (id & -> & Hid). by exists id.
  - intros [He [Hk (id & Hid & Ht)]]. split_and!; [done|by apply bool_decide_eq_true_2|]. rewrite Ht.
    apply bool_decide_eq_true_2, elem_of_list_to_set, list_elem_of_fmap. by exists id.
Qed.

(** A list whose sequences grow has its least and greatest at its ends. *)
Definition ascending (events : list EventRecord) : Prop := Sorted.StronglySorted (fun a b => sequence a < sequence b)%Z events.

Lemma ascending_filter f events : ascending events -> ascending (List.filter f events).
Proof.
  unfold ascending. induction 1 as [|e events Hs IH Hhd]; cbn [List.filter]; [constructor|].
  destruct (f e); [|done]. constructor; [done|].
  apply List.Forall_forall. intros x [Hx _]%filter_In. by apply (proj1 (List.Forall_forall _ _) Hhd).
Qed.

Lemma numbered_ascending events :
  (forall i e, events !! i = Some e -> sequence e = Z.of_nat (Datatypes.S i)) -> ascending events.
Proof.
  intros Hn. assert (forall start k, (forall i e, k !! i = Some e -> sequence e = Z.of_nat (start + i)) -> ascending k) as Hgen.
  { intros start k. revert start. induction k as [|e k IH]; intros start Hk; [constructor|]. constructor.
    - apply (IH (Datatypes.S start)). intros i e' Hi. rewrite (Hk (Datatypes.S i) e' Hi). lia.
    - apply List.Forall_forall. intros x Hx%list_elem_of_In. apply list_elem_of_lookup in Hx as [i Hi].
      rewrite (Hk 0 e eq_refl), (Hk (Datatypes.S i) x Hi). lia. }
  apply (Hgen 1). intros i e Hi. by rewrite (Hn _ _ Hi).
Qed.

Lemma ascending_ends events e first last_ :
  ascending events -> e ∈ events -> head (map sequence events) = Some first -> last (map sequence events) = Some last_ ->
  (first <= sequence e <= last_)%Z.
Proof.
  intros Hg He Hf Hl. unfold ascending in Hg. revert first Hf. induction Hg as [|x events Hs IH Hhd]; intros first Hf; [done|].
  injection Hf as <-. rewrite Forall_forall in Hhd. apply elem_of_cons in He as [->|He].
  - split; [lia|]. destruct events as [|y events]; [by injection Hl as <-|].
    change (last (map sequence (y :: events)) = Some last_) in Hl. rewrite fmap_last in Hl.
    destruct (last (y :: events)) as [z|] eqn:Hz; [|done]. injection Hl as <-.
    apply last_Some_elem_of in Hz. specialize (Hhd _ Hz). lia.
  - destruct events as [|y events]; [by apply elem_of_nil in He|].
    change (last (map sequence (y :: events)) = Some last_) in Hl.
    specialize (IH He Hl _ eq_refl). pose proof (Hhd y (list_elem_of_here _ _)). lia.
Qed.
End Ranges.

Section Store.
Context `{UuidText} {S : Type} `{EventStoreLaws S}.

Lemma read_stream_all (s : S) stream : log_valid s -> read_stream s stream = Ok (log_events s stream).
Proof. intros Hv. unfold read_stream. by rewrite (log_read_all _ _ Hv). Qed.

Lemma stream_ascending (s : S) stream : log_valid s -> ascending (log_events s stream).
Proof. intros Hv. apply numbered_ascending. intros i e Hi. by destruct (log_numbered _ _ _ _ Hv Hi). Qed.

(** A range lies in its stream and holds every event that records one of the entries; there is one
    unless no event does. *)
Lemma context_source_range_covers (s : S) stream ids :
  log_valid s ->
  match context_source_range stream (log_events s stream) ids with
  | Some range =>
      range_stream_id range = stream /\
      (1 <= from_sequence range <= to_sequence range)%Z /\
      (to_sequence range <= Z.of_nat (length (log_events s stream)))%Z /\
      forall e, e ∈ log_events s stream -> records_entry ids e ->
        (from_sequence range <= sequence e <= to_sequence range)%Z
  | None => forall e, e ∈ log_events s stream -> ~ records_entry ids e
  end.
Proof.
  intros Hv. unfold context_source_range.
  change (List.filter (selects_entry (list_to_set (map uuid_text ids)))
    (List.filter (fun e => bool_decide (kind e = SessionEntryAppended)) (log_events s stream)))
    with (selected_events ids (log_events s stream)).
  set (sel := selected_events ids (log_events s stream)).
  assert (ascending sel) as Hasc by (do 2 apply ascending_filter; by apply stream_ascending).
  assert (forall e, e ∈ sel -> (1 <= sequence e <= Z.of_nat (length (log_events s stream)))%Z) as Hin.
  { intros e [He _]%elem_of_selected. apply list_elem_of_lookup in He as [i Hi].
    destruct (log_numbered _ _ _ _ Hv Hi) as [-> _]. apply lookup_lt_Some in Hi. lia. }
  destruct (head (map sequence sel)) as [from|] eqn:Hf; destruct (last (map sequence sel)) as [to|] eqn:Hl; cbn.
  - assert (exists e, e ∈ sel /\ sequence e = from) as (e & He & <-).
    { destruct sel as [|e sel']; [done|]. injection Hf as <-. exists e. split; [left|done]. }
    destruct (ascending_ends _ _ _ _ Hasc He Hf Hl) as [_ Hle].
    rewrite fmap_last in Hl. destruct (last sel) as [e'|] eqn:He'; [|done]. injection Hl as <-.
    pose proof (Hin _ (last_Some_elem_of _ _ He')). pose proof (Hin _ He). split_and!; try done; try lia.
    intros x Hx Hr. assert (x ∈ sel) as Hxs by (by apply elem_of_selected).
      destruct (ascending_ends _ x _ (sequence e') Hasc Hxs Hf) as [? ?]; [by rewrite fmap_last, He'|lia].
  - exfalso. rewrite fmap_last in Hl. apply fmap_None, last_None in Hl. by rewrite Hl in Hf.
  - exfalso. destruct sel; [done|discriminate Hf].
  - intros e He Hr. assert (e ∈ sel) as Hes by (by apply elem_of_selected).
    destruct sel; [by apply elem_of_nil in Hes|discriminate Hf].
Qed.

(** Computing ranges succeeds, within the streams and over the selection. *)
Lemma ranges_cover (s : S) cuts :
  log_valid s ->
  exists ranges, context_source_ranges s cuts = Ok ranges /\
    (forall range, range ∈ ranges -> exists cut, cut ∈ cuts /\ range_stream_id range = cut_stream_id cut /\
       (1 <= from_sequence range <= to_sequence range)%Z /\
       (to_sequence range <= Z.of_nat (length (log_events s (cut_stream_id cut))))%Z) /\
    (forall cut e, cut ∈ cuts -> e ∈ log_events s (cut_stream_id cut) -> records_entry (entry_ids cut) e ->
       exists range, range ∈ ranges /\ range_stream_id range = cut_stream_id cut /\
         (from_sequence range <= sequence e <= to_sequence range)%Z).
Proof.
  intros Hv. induction cuts as [|cut cuts (ranges & Hrun & Hin & Hcov)].
  - exists []. split_and!; [done|intros r Hr; by apply elem_of_nil in Hr|intros c e Hc; by apply elem_of_nil in Hc].
  - cbn [context_source_ranges].
    assert (forall c, c ∈ cuts -> c ∈ cut :: cuts) as Hsub by set_solver.
    destruct (entry_ids cut) as [|id ids] eqn:Hids.
    + exists ranges. split_and!; [done| |].
      * intros r Hr. destruct (Hin _ Hr) as (c & Hc & ?). exists c. split; [by apply Hsub|done].
      * intros c e [->|Hc]%elem_of_cons He Hr; [|by eapply Hcov].
        destruct Hr as [_ (id & Hid & _)]. rewrite Hids in Hid. by apply elem_of_nil in Hid.
    + rewrite <- Hids, (read_stream_all _ _ Hv). cbn [result_bind]. rewrite Hrun. cbn [result_bind].
      pose proof (context_source_range_covers s (cut_stream_id cut) (entry_ids cut) Hv) as Hr.
      destruct (context_source_range _ _ _) as [range|].
      * destruct Hr as (Hst & Hb & Hb' & Hc). exists (range :: ranges). split_and!; [done| |].
        -- intros r [->|Hr]%elem_of_cons; [by exists cut; split; [left|]|].
           destruct (Hin _ Hr) as (c & Hc' & ?). exists c. split; [by apply Hsub|done].
        -- intros c e [->|Hc']%elem_of_cons He Hr; [exists range; split_and!; [left|done|by apply Hc|by apply Hc]|].
           destruct (Hcov _ _ Hc' He Hr) as (r & ? & ?). exists r. split; [by right|done].
      * exists ranges. split_and!; [done| |].
        -- intros r Hr'. destruct (Hin _ Hr') as (c & Hc & ?). exists c. split; [by apply Hsub|done].
        -- intros c e [->|Hc]%elem_of_cons He Hr'; [by destruct (Hr _ He)|by eapply Hcov].
Qed.

(** The ranges recorded for a context cover what was selected from the journal: computing them
    always succeeds; each is of one of the cuts and lies within its stream; and every event that
    records a selected entry is in the range of its cut's stream. *)
Theorem context_source_ranges_cover (s : S) cuts :
  log_valid s ->
  exists ranges, context_source_ranges s cuts = Ok ranges /\
    (forall range, range ∈ ranges -> exists cut, cut ∈ cuts /\ range_stream_id range = cut_stream_id cut /\
       (1 <= from_sequence range <= to_sequence range)%Z /\
       (to_sequence range <= Z.of_nat (length (log_events s (cut_stream_id cut))))%Z) /\
    (forall cut e, cut ∈ cuts -> e ∈ log_events s (cut_stream_id cut) -> records_entry (entry_ids cut) e ->
       exists range, range ∈ ranges /\ range_stream_id range = cut_stream_id cut /\
         (from_sequence range <= sequence e <= to_sequence range)%Z).
Proof. apply ranges_cover. Qed.
End Store.

(** ** A summary checkpoint *)

Section Checkpoint.
Context `{UuidText} {S : Type} `{EventAppendLaws S} `{Sha256}.
Variable drawn : nat -> EventRecordId * Z.

Lemma append_one_ok what stream record (s s' : S) e :
  log_valid s -> append_one what stream record s = (s', Ok e) ->
  journal_plus s [e] s' /\ e = from_new stream (Z.of_nat (Datatypes.S (length (log_events s stream)))) record.
Proof.
  intros Hv. unfold append_one. destruct (log_append stream [record] s) as [s1 [es|err]] eqn:Hrun; [|by intros [= _ ?]].
  cbn [map_err result_bind]. intros [= <- He].
  destruct (log_append_plus _ _ _ _ _ Hv Hrun) as [Hj _].
  destruct (log_extended_one _ _ _ _ _ Hv Hrun) as (_ & -> & _). injection He as <-. by split.
Qed.

Lemma append_one_err what stream record (s s' : S) e :
  log_valid s -> append_one what stream record s = (s', Err e) -> journal_plus s [] s'.
Proof.
  intros Hv. unfold append_one. destruct (log_append stream [record] s) as [s1 [es|err]] eqn:Hrun.
  - cbn [map_err result_bind]. destruct (log_extended_one _ _ _ _ _ Hv Hrun) as (_ & -> & _). by intros [= _ ?].
  - intros [= <- _]. destruct (log_unextended _ _ _ _ _ Hv Hrun) as [Hv' Ho]. split; [done|].
    intros st. by rewrite Ho, app_nil_r.
Qed.

(** A summary checkpoint is two events on the thread's stream, one after the other, and nothing
    else: the summary, over the ranges of the cuts, and the read plan that selects it by its id and
    names it as its source.  If the recording fails, nothing was written or only the summary. *)
Theorem summary_checkpoint_recorded c session_entries cuts summary (s s' : S) r :
  log_valid s -> record_context_summary_checkpoint drawn c session_entries cuts summary s = (s', r) ->
  let cuts := match cuts with [] => session_context_source_cut_for_entries c session_entries | _ => cuts end in
  exists ranges, context_source_ranges s cuts = Ok ranges /\
    let is_summary e := stream_id e = for_thread c /\ kind e = ContextSummaryCompleted /\ coordinates e = c /\
      payload e = context_summary_completed_payload_v1 summary ranges /\ source_ranges (provenance e) = ranges in
    match r with
    | Ok (e1, e2) =>
        journal_plus s [e1; e2] s' /\ is_summary e1 /\ stream_id e2 = for_thread c /\
        kind e2 = ContextReadPlanSet /\ coordinates e2 = c /\ sequence e2 = (sequence e1 + 1)%Z /\
        payload e2 = context_read_plan_set_payload_v1 "history.default" (for_thread c) (event_id e1) ranges /\
        source_event_ids (provenance e2) = [event_id e1]
    | Err _ => journal_plus s [] s' \/ exists e1, is_summary e1 /\ journal_plus s [e1] s'
    end.
Proof.
  intros Hv Hrun cuts'. unfold record_context_summary_checkpoint in Hrun. fold cuts' in Hrun.
  destruct (ranges_cover s cuts' Hv) as (ranges & Hranges & _).
  exists ranges. split; [done|]. intros is_summary.
  unfold st_bind at 1 in Hrun. rewrite Hranges in Hrun. destruct (drawn 0) as [id1 now1], (drawn 1) as [id2 now2].
  unfold st_bind in Hrun.
  destruct (append_one "context summary" _ _ s) as [s1 [e1|err]] eqn:Hone.
  2: { injection Hrun as <- <-. left. by eapply append_one_err. }
  apply append_one_ok in Hone as [Hj1 He1]; [|done].
  assert (is_summary e1) as Hsum by (subst e1; by split_and!).
  destruct (append_one "context read plan" _ _ s1) as [s2 [e2|err]] eqn:Htwo.
  - apply append_one_ok in Htwo as [Hj2 He2]; [|by destruct Hj1]. injection Hrun as <- <-.
    split_and!; try done; try (by subst e2); [by apply (journal_plus_app _ _ _ [e1] [e2] Hj1 Hj2)|].
    subst e2. destruct Hj1 as [_ Hj1]. cbn [sequence from_new]. rewrite (Hj1 (for_thread c)), length_app.
    destruct Hsum as (Hst & _). cbn [List.filter]. rewrite Hst, String.eqb_refl. subst e1. cbn. lia.
  - injection Hrun as <- <-. right. exists e1. split; [done|].
    apply append_one_err in Htwo; [|by destruct Hj1]. by apply (journal_plus_app _ _ _ [e1] [] Hj1 Htwo).
Qed.
End Checkpoint.

(** ** Reading a plan back *)

Section Recall.
Context `{UuidText} {S : Type} `{EventStoreLaws S}.

(** An entry that refers to an event in a role. *)
Definition ref_entry (role : string) (stream : EventStreamId) (id : EventRecordId) : json :=
  jobj [("kind", JString "event_ref"); ("stream_id", JString stream);
        ("event_id", JString (uuid_text id)); ("event_role", JString role)].

(** A summary with something to say. *)
Definition says (s : S) (e : EventRecord) (text : string) : Prop :=
  e ∈ log_events s (stream_id e) /\ kind e = ContextSummaryCompleted /\
  (value_get "text" (payload e) ≫= as_str) = Some text /\ String.eqb (str_trim text) "" = false.

Lemma find_by_id (s : S) e :
  log_valid s -> e ∈ log_events s (stream_id e) ->
  List.find (fun e' => String.eqb (uuid_text (event_id e')) (uuid_text (event_id e))) (log_events s (stream_id e)) = Some e.
Proof.
  intros Hv He. destruct (List.find _ _) as [e'|] eqn:Hf.
  - apply find_some in Hf as [Hin%list_elem_of_In Heq%String.eqb_eq%uuid_text_inj]. f_equal.
    by eapply log_ids_unique.
  - pose proof (find_none _ _ Hf e) as Hn. cbn in Hn. rewrite String.eqb_refl in Hn.
    by specialize (Hn (proj1 (list_elem_of_In _ _) He)).
Qed.

Lemma referenced_text_ok (s : S) label e text :
  log_valid s -> says s e text ->
  referenced_text s label (stream_id e) (uuid_text (event_id e)) = Ok text.
Proof.
  intros Hv (He & Hk & Ht & Hb). unfold referenced_text. rewrite (read_stream_all _ _ Hv). cbn [result_bind].
  rewrite find_by_id by done. cbn [ok_or result_bind]. rewrite bool_decide_eq_true_2 by done. cbn [negb].
  by rewrite Ht, Hb.
Qed.

(** A reference to a summary whose text is blank is an error. *)
Lemma referenced_text_blank (s : S) label e text :
  log_valid s -> e ∈ log_events s (stream_id e) -> kind e = ContextSummaryCompleted ->
  (value_get "text" (payload e) ≫= as_str) = Some text -> String.eqb (str_trim text) "" = true ->
  referenced_text s label (stream_id e) (uuid_text (event_id e)) =
    Err (missing label ("referenced summary event " +:+ uuid_text (event_id e) +:+ " without text")).
Proof.
  intros Hv He Hk Ht Hb. unfold referenced_text. rewrite (read_stream_all _ _ Hv). cbn [result_bind].
  rewrite find_by_id by done. cbn [ok_or result_bind]. rewrite bool_decide_eq_true_2 by done. cbn [negb].
  by rewrite Ht, Hb.
Qed.

Lemma recall_ref (s : S) role label src acc stream id :
  recall_entry s role label src acc (ref_entry role stream id) =
  (if bool_decide (uuid_text id ∈ seen_ids acc) then Ok acc
   else text <-? referenced_text s label stream (uuid_text id) ;;
        Ok {| seen_ids := {[ uuid_text id ]} ∪ seen_ids acc; texts := texts acc ++ [text] |}).
Proof.
  unfold recall_entry, ref_entry.
  assert (forall k v, In (k, v) [("kind", JString "event_ref"); ("stream_id", JString stream);
        ("event_id", JString (uuid_text id)); ("event_role", JString role)] ->
    value_get k (jobj [("kind", JString "event_ref"); ("stream_id", JString stream);
        ("event_id", JString (uuid_text id)); ("event_role", JString role)]) = Some v) as Hget.
  { intros k v Hin. unfold value_get, jobj. rewrite obj_get_of. by repeat destruct Hin as [[= <- <-]|Hin]. }
  rewrite (Hget "kind" (JString "event_ref")), (Hget "event_role" (JString role)),
    (Hget "event_id" (JString (uuid_text id))), (Hget "stream_id" (JString stream)) by (cbn; tauto).
  cbn [mbind option_bind as_str default ok_or result_bind]. by rewrite !bool_decide_eq_true_2 by done.
Qed.

(** A plan of references gives the texts of what they refer to, in order and each once. *)
Lemma recall_refs (s : S) role label src es ts acc :
  log_valid s -> Forall2 (says s) es ts -> NoDup (map event_id es) ->
  (forall e, e ∈ es -> uuid_text (event_id e) ∉ seen_ids acc) ->
  exists acc', try_fold (recall_entry s role label src) acc
      (map (fun e => ref_entry role (stream_id e) (event_id e)) es) = Ok acc' /\ texts acc' = texts acc ++ ts.
Proof.
  intros Hv Hsay. revert acc. induction Hsay as [|e t es ts He Hsay IH]; intros acc Hnd Hseen; cbn [map try_fold].
  - exists acc. by rewrite app_nil_r.
  - apply NoDup_cons in Hnd as [Hfresh Hnd].
    rewrite recall_ref, bool_decide_eq_false_2 by (apply Hseen; left).
    rewrite (referenced_text_ok s label e t Hv He). cbn [result_bind].
    destruct (IH {| seen_ids := {[ uuid_text (event_id e) ]} ∪ seen_ids acc; texts := texts acc ++ [t] |} Hnd)
      as (acc' & Hrun & Ht).
    { intros e' He'. cbn [seen_ids]. rewrite elem_of_union, elem_of_singleton. intros [Heq%uuid_text_inj|Hin].
      - apply Hfresh. rewrite <- Heq. apply list_elem_of_fmap. by exists e'.
      - by apply (Hseen e'); [right|]. }
    exists acc'. split; [exact Hrun|]. rewrite Ht. cbn [texts]. by rewrite <- app_assoc.
Qed.

(** The latest of the events is the one with the greatest sequence. *)
Lemma latest_event_app events e : latest_event (events ++ [e]) =
  match latest_event events with Some b => if (sequence b <=? sequence e)%Z then Some e else Some b | None => Some e end.
Proof. unfold latest_event. rewrite fold_left_app. cbn. by destruct (fold_left _ events None). Qed.

Lemma latest_event_in events e : latest_event events = Some e -> e ∈ events.
Proof.
  revert e. induction events as [|x events IH] using rev_ind; [done|]. intros e. rewrite latest_event_app.
  destruct (latest_event events) as [b|]; [destruct (_ <=? _)%Z|]; intros [= <-]; set_solver.
Qed.

Lemma latest_of_ascending events e : ascending (events ++ [e]) -> latest_event (events ++ [e]) = Some e.
Proof.
  intros Ha. rewrite latest_event_app. destruct (latest_event events) as [b|] eqn:Hb; [|done].
  apply latest_event_in in Hb. unfold ascending in Ha.
  assert (sequence b < sequence e)%Z as Hlt.
  { induction events as [|x events IH]; [by apply elem_of_nil in Hb|]. inversion Ha as [|? ? Hs Hhd]; subst.
    apply elem_of_cons in Hb as [->|Hb]; [|by apply IH].
    rewrite Forall_forall in Hhd. apply Hhd. set_solver. }
  by rewrite (proj2 (Z.leb_le _ _)) by lia.
Qed.

(** What a model is given when the last plan of its pipeline is a plan of references. *)
Lemma contexts_of_references (s : S) c filter_ role label render plans plan rest name src es ts :
  log_valid s -> log_events s (derived_context_stream c) = plans ++ plan :: rest ->
  filter_ plan = true -> List.filter filter_ rest = [] ->
  value_get "read_plan" (payload plan) =
    Some (read_plan_json name src (map (fun e => ref_entry role (stream_id e) (event_id e)) es)) ->
  Forall2 (says s) es ts -> NoDup (map event_id es) -> es <> [] ->
  build_context_read_plan_contexts s c filter_ role label render = Ok [render ts].
Proof.
  intros Hv Hlog Hf Hrest Hplan Hsay Hnd Hne. unfold build_context_read_plan_contexts.
  rewrite (read_stream_all _ _ Hv), Hlog. cbn [result_bind].
  assert (latest_event (List.filter filter_ (plans ++ plan :: rest)) = Some plan) as ->.
  { rewrite List.filter_app. cbn [List.filter]. rewrite Hf, Hrest. apply latest_of_ascending.
    assert (List.filter filter_ plans ++ [plan] = List.filter filter_ (log_events s (derived_context_stream c))) as ->.
    { by rewrite Hlog, List.filter_app; cbn [List.filter]; rewrite Hf, Hrest. }
    apply ascending_filter. by apply stream_ascending. }
  assert (plan_texts s role label plan = Ok ts) as ->.
  { unfold plan_texts. rewrite Hplan. cbn [ok_or result_bind]. unfold read_plan_json.
    assert (forall k v, In (k, v) [("schema", JString CONTEXT_READ_PLAN_SCHEMA_V1); ("source_stream", JString src);
        ("entries", JArray (map (fun e => ref_entry role (stream_id e) (event_id e)) es))] ->
      value_get k (jobj [("schema", JString CONTEXT_READ_PLAN_SCHEMA_V1); ("name", JString name);
        ("source_stream", JString src); ("frontier", JString "compile_frontier");
        ("entries", JArray (map (fun e => ref_entry role (stream_id e) (event_id e)) es))]) = Some v) as Hget.
    { intros k v Hin. unfold value_get, jobj. rewrite obj_get_of. by repeat destruct Hin as [[= <- <-]|Hin]. }
    rewrite (Hget "schema" (JString CONTEXT_READ_PLAN_SCHEMA_V1)), (Hget "source_stream" (JString src)),
      (Hget "entries" (JArray (map (fun e => ref_entry role (stream_id e) (event_id e)) es))) by (cbn; tauto).
    cbn [mbind option_bind as_str as_array ok_or result_bind]. rewrite bool_decide_eq_true_2 by done. cbn [negb].
    destruct (recall_refs s role label src es ts {| seen_ids := ∅; texts := [] |} Hv Hsay Hnd) as (acc & Hrun & Ht);
      [intros e _; cbn; set_solver|]. rewrite Hrun. cbn [result_bind]. by rewrite Ht. }
  cbn [result_bind]. destruct ts; [|done]. by inversion Hsay.
Qed.
End Recall.
