(* ===== verification/Stdlib.v ===== *)
(** * The standard couplings: context, memory and prompts

    Models [verlet-kernel/src/kernel/stdlib_couplings.rs]: the configurations of
    the templates, the helpers they share, and the functions that write to the
    context of a thread.  The functions that write to its control stream follow, and after them
    the catalog of templates of [verlet-kernel/src/agent/coupling_templates.rs].

    The decoders of configurations and payloads are the class [StdlibCodec], and
    the id a function draws for an event is its argument [fresh]. *)

From stdpp Require Import gmap sets pretty base list strings.
From Stdlib Require Import NArith ZArith Lia.
From S2P Require Import Json Schema EventSchemas Contracts Control Clock ReadPlan Prelude EventKind Records Coupling.

Local Open Scope verlet_scope.
Local Open Scope string_scope.
Local Open Scope list_scope.

(** ** Template ids *)

Definition STD_QUEUE_TASK_TEMPLATE_ID : string := "std::queue.task".
Definition STD_QUEUE_COMPLETION_CALLBACK_TEMPLATE_ID : string := "std::queue.completion_callback".
Definition STD_CONTEXT_SPILL_TEMPLATE_ID : string := "std::context.spill".
Definition STD_CONTEXT_TRUNCATE_TEMPLATE_ID : string := "std::context.truncate".
Definition STD_CONTEXT_SUMMARIZE_TEMPLATE_ID : string := "std::context.summarize".
Definition STD_MEMORY_EXTRACT_TEMPLATE_ID : string := "std::memory.extract".
Definition STD_MEMORY_RECALL_TEMPLATE_ID : string := "std::memory.recall".
Definition STD_PROMPT_STEER_TEMPLATE_ID : string := "std::prompt.steer".
Definition STD_PROMPT_DYNAMIC_INSTRUCTIONS_TEMPLATE_ID : string := "std::prompt.dynamic_instructions".
Definition STD_PERMISSION_APPROVAL_GATE_TEMPLATE_ID : string := "std::permission.approval_gate".
Definition STD_PERMISSION_TOOL_GATE_TEMPLATE_ID : string := "std::permission.tool_gate".
Definition STD_SCHEDULE_CRON_TEMPLATE_ID : string := "std::schedule.cron".
Definition STD_SUPERVISOR_SPAWN_TEMPLATE_ID : string := "std::supervisor.spawn".
Definition STD_SUPERVISOR_CHILD_COMPLETION_TEMPLATE_ID : string := "std::supervisor.child_completion".
Definition STD_RETRY_WITH_BUDGET_TEMPLATE_ID : string := "std::retry.with_budget".
Definition STD_FAILURE_DEADLETTER_TEMPLATE_ID : string := "std::failure.deadletter".

(** ** Configurations *)

Record QueueTaskConfig := { task_prefix : option string; task_reason : option string }.

Record ContextSpillConfig := {
  spill_summary_event_id : option EventRecordId;
  spill_summary_text : option string;
  spill_read_plan_name : option string;
  spill_pipeline_id : option string;
}.

Record ContextTruncateConfig := {
  truncate_read_plan_name : option string;
  truncate_pipeline_id : option string;
  retain_tail_events : N;
  truncate_reason : option string;
}.

Record ContextSummarizeConfig := {
  summarize_event_id : option EventRecordId;
  summarize_text : option string;
  summarize_read_plan_name : option string;
  summarize_pipeline_id : option string;
  summarize_reason : option string;
}.

Record MemoryExtractConfig := {
  extract_event_id : option EventRecordId;
  extract_text : option string;
  extract_kind : option string;
}.

Record MemoryRecallConfig := {
  recall_read_plan_name : option string;
  recall_pipeline_id : option string;
  max_events : N;
  recall_kind : option string;
}.

Record PromptDynamicInstructionsConfig := {
  instruction_event_id : option EventRecordId;
  instruction_text : option string;
  instruction_name : option string;
  instruction_read_plan_name : option string;
  instruction_pipeline_id : option string;
}.

Inductive PromptSteerAction := SteerContinuation | SteerReadPlan.

Record PromptSteerConfig := {
  steer_action : PromptSteerAction;
  steer_reason : option string;
  steer_loop_id : option string;
  steer_parent_turn_id : option string;
  steer_next_turn_input : option string;
  steer_read_plan_name : option string;
  steer_pipeline_id : option string;
  checkpoint_event_id : option EventRecordId;
  checkpoint_stream_id : option string;
  steer_event_role : option string;
}.

Inductive PermissionToolGateDecision := GateAllow | GateRewrite | GateDeny | GateWait.

Record PermissionToolGateConfig := {
  gate_decision : PermissionToolGateDecision;
  gate_reason : option string;
  gate_approval_id : option string;
  gate_arguments : option json;
}.

Record PermissionApprovalGateConfig := {
  approval_approval_id : option string;
  approval_reason : option string;
  approval_resume_token : option string;
}.

Record FailureDeadletterConfig := { deadletter_reason : option string; deadletter_queue : option string }.

Record RetryWithBudgetConfig := {
  max_attempts : N;
  retry_loop_id : option string;
  retry_parent_turn_id : option string;
  retry_next_turn_input : option string;
  retryable_error_classes : list string;
  retry_reason : option string;
}.

Inductive ScheduleCronMandateScope := MatchAll | MatchSubject (subject : MandateSubject).

Record ScheduleCronConfig := {
  cron_max_occurrences : Z;
  mandate_scope : ScheduleCronMandateScope;
  cron_loop_id : option string;
  cron_parent_turn_id : option string;
  cron_next_turn_input : option string;
  schedule_id : option string;
  cron_reason : option string;
}.

(** [QueueCompletionAction] and [SupervisorChildCompletionAction] have the same cases. *)
Inductive CompletionAction := CompleteLoop | RequestContinuation.

Record QueueCompletionCallbackConfig := {
  queue_watch_coupling_id : option string;
  queue_on_completed : CompletionAction;
  queue_reason : option string;
  queue_loop_id : option string;
  queue_parent_turn_id : option string;
  queue_next_turn_input : option string;
}.

Record SupervisorSpawnConfig := {
  spawn_agent_ref : option string;
  spawn_submission : option string;
  spawn_parent_turn_id : option string;
  spawn_correlation_id : option string;
  spawn_block_parent : bool;
  spawn_reason : option string;
}.

Record SupervisorChildCompletionConfig := {
  child_watch_coupling_id : option string;
  child_on_completed : CompletionAction;
  child_reason : option string;
  child_loop_id : option string;
  child_parent_turn_id : option string;
  child_next_turn_input : option string;
  child_parent_thread_id : option string;
  child_child_thread_id : option string;
  child_child_turn_id : option string;
}.

(** [serde_json::from_value] of the configurations and of a run receipt, the error its text; and
    the quoted form of a text. *)
Class StdlibCodec := {
  decode_queue_task : json -> result QueueTaskConfig string;
  decode_queue_completion : json -> result QueueCompletionCallbackConfig string;
  decode_spill : json -> result ContextSpillConfig string;
  decode_truncate : json -> result ContextTruncateConfig string;
  decode_summarize : json -> result ContextSummarizeConfig string;
  decode_extract : json -> result MemoryExtractConfig string;
  decode_recall : json -> result MemoryRecallConfig string;
  decode_steer : json -> result PromptSteerConfig string;
  decode_instructions : json -> result PromptDynamicInstructionsConfig string;
  decode_tool_gate : json -> result PermissionToolGateConfig string;
  decode_approval_gate : json -> result PermissionApprovalGateConfig string;
  decode_deadletter : json -> result FailureDeadletterConfig string;
  decode_retry : json -> result RetryWithBudgetConfig string;
  decode_cron : json -> result ScheduleCronConfig string;
  decode_spawn : json -> result SupervisorSpawnConfig string;
  decode_child_completion : json -> result SupervisorChildCompletionConfig string;
  decode_run_receipt : json -> result (CouplingRunReceipt string) string;
  (** [{:?}] of a text. *)
  debug_str : string -> string;
}.

(** [VerletError::RuntimeFactory] of a text. *)
Notation ExecResult := (result (list CouplingDischarge) string).

(** [queue_task_config] and its fifteen likes. *)
Definition config_of {A} (template : string) (decode : json -> result A string) (request : CouplingInvocation)
    : result A string :=
  map_err (fun err => template +:+ " config codec failed: " +:+ err) (decode (config (invoked_coupling request))).

(** The guard every function starts with. *)
Definition expect_trigger (template expected : string) (kinds : list EventKind) (request : CouplingInvocation)
    : result unit string :=
  if existsb (fun k => bool_decide (k = kind (invoked_trigger_event request))) kinds then Ok tt
  else Err (template +:+ " expected " +:+ expected +:+ " trigger, got " +:+ kind_str (kind (invoked_trigger_event request))).

(** ** Shared helpers *)

Definition is_blank (text : string) : bool := String.eqb (str_trim text) "".
Definition text_field (key : string) (payload : json) : option string := value_get key payload ≫= as_str.

(** [payload_string]: the first of the keys whose value is text with something in it. *)
Fixpoint payload_string (payload : json) (keys : list string) : option string :=
  match keys with
  | [] => None
  | key :: keys =>
      match text_field key payload with
      | Some text => if is_blank text then payload_string payload keys else Some text
      | None => payload_string payload keys
      end
  end.

(** [source_payload_string]. *)
Fixpoint first_payload_string (events : list EventRecord) (keys : list string) : option string :=
  match events with
  | [] => None
  | event :: events =>
      match payload_string (payload event) keys with
      | Some text => Some text
      | None => first_payload_string events keys
      end
  end.
Definition source_payload_string (events : list EventRecord) (keys : list string) : option string :=
  first_payload_string (rev events) keys.

(** [memory_text_from_payload] and [instruction_text_from_payload]. *)
Definition memory_text_from_payload (payload : json) : option string :=
  payload_string payload ["memory_text"; "output_text"; "summary"; "result_preview"; "text"].
Definition instruction_text_from_payload (payload : json) : option string :=
  payload_string payload ["instruction_text"; "instructions"; "system_instruction"; "summary"; "text"].

(** [Option::or_else] of a computed value. *)
Definition or_else {A} (o p : option A) : option A := match o with Some a => Some a | None => p end.

(** [context_spill_source_ranges]. *)
Definition context_spill_source_ranges (request : CouplingInvocation) : list ObservationSourceRange :=
  match source_ranges (provenance (invoked_trigger_event request)) with
  | [] => map (fun entry => mk_range (cut_entry_stream_id entry) 1 (max_sequence entry)) (invoked_source_cut request)
  | ranges => ranges
  end.

Definition discharge (id : option EventRecordId) (stream : string) (k : EventKind) (p : json) : CouplingDischarge :=
  {| discharge_event_id := id; discharge_stream := stream; discharge_kind := k; discharge_payload := p |}.

Section Functions.
Context `{UuidText} `{Sha256} `{StdlibCodec}.

Definition trigger_id_text (request : CouplingInvocation) : string := uuid_text (event_id (invoked_trigger_event request)).
Definition trigger_kind_text (request : CouplingInvocation) : string := kind_str (kind (invoked_trigger_event request)).
Definition request_snapshot (request : CouplingInvocation) : string := activation_snapshot_id (invoked_activation request).

(** The fields that say what triggered a discharge. *)
Definition trigger_fields (request : CouplingInvocation) : list (string * json) :=
  [("trigger_event_id", JString (trigger_id_text request)); ("trigger_kind", JString (trigger_kind_text request))].

(** A summary with its digest. *)
Definition summary_fields (text : string) (ranges : list ObservationSourceRange) : list (string * json) :=
  [("schema", JString (payload_schema_id ContextSummaryCompleted)); ("role", JString "summary_checkpoint");
   ("text", JString text); ("covered_ranges", source_ranges_json ranges);
   ("content", jobj [("sha256", JString (sha256_hex text))])].

(** A read plan that is set for the thread. *)
Definition plan_fields (name pipeline source_id : string) : list (string * json) :=
  [("schema", JString (payload_schema_id ContextReadPlanSet)); ("scope", JString "thread"); ("name", JString name);
   ("pipeline_id", JString pipeline); ("source_id", JString source_id)].

(** ** Context *)

(** [context_spill_summary_text]. *)
Definition as_i64_value (v : json) : option Z := match v with JNumber n => as_i64 n | _ => None end.
Definition context_spill_summary_text (request : CouplingInvocation) : string :=
  let truncated := default 0%Z (value_get "truncated_text_bytes" (payload (invoked_trigger_event request)) ≫= as_i64_value) in
  "Spilled " +:+ pretty truncated +:+ " bytes from context.compile.completed " +:+ trigger_id_text request +:+ ".".

(** [invoke_context_spill]. *)
Definition invoke_context_spill (fresh : EventRecordId) (request : CouplingInvocation) : ExecResult :=
  expect_trigger STD_CONTEXT_SPILL_TEMPLATE_ID "context.compile.completed" [ContextCompileCompleted] request ;;?
  config <-? config_of STD_CONTEXT_SPILL_TEMPLATE_ID decode_spill request ;;
  let ranges := context_spill_source_ranges request in
  let text := default (context_spill_summary_text request) (spill_summary_text config) in
  let summary_id := default fresh (spill_summary_event_id config) in
  let name := default "history.default" (spill_read_plan_name config) in
  let pipeline := default "context.default" (spill_pipeline_id config) in
  let stream := stream_id (invoked_trigger_event request) in
  Ok [discharge (Some summary_id) "derived:context" ContextSummaryCompleted
        (jobj (summary_fields text ranges ++
               [("template_id", JString STD_CONTEXT_SPILL_TEMPLATE_ID); ("compile_event_id", JString (trigger_id_text request))]));
      discharge None "derived:context" ContextReadPlanSet
        (jobj (plan_fields name pipeline stream ++
               [("summary_event_id", JString (uuid_text summary_id)); ("template_id", JString STD_CONTEXT_SPILL_TEMPLATE_ID);
                ("read_plan", read_plan_json name stream (summary_checkpoint_entries summary_id ranges))]))].

(** [truncate_read_plan_entries]: the retained tail of each range, and the prefix it drops. *)
Definition truncate_range (retain : Z) (reason : string) (range : ObservationSourceRange) : list json :=
  let from := from_sequence range in
  let to := to_sequence range in
  if (to <? from)%Z then []
  else
    let retain_from := Z.max from (to - retain + 1) in
    (if (from <? retain_from)%Z
     then [jobj [("kind", JString "drop_range"); ("stream_id", JString (range_stream_id range)); ("reason", JString reason);
                 ("range", jobj [("from", read_plan_from_cursor from); ("to", sequence_json (retain_from - 1))])]]
     else []) ++
    [jobj [("kind", JString "raw_range"); ("stream_id", JString (range_stream_id range));
           ("range", jobj [("from", read_plan_from_cursor retain_from); ("to", sequence_json to)])]].
Definition truncate_read_plan_entries (ranges : list ObservationSourceRange) (retain : Z) (reason : string) : list json :=
  ranges ≫= truncate_range retain reason.

(** [invoke_context_truncate]. *)
Definition invoke_context_truncate (request : CouplingInvocation) : ExecResult :=
  expect_trigger STD_CONTEXT_TRUNCATE_TEMPLATE_ID "context.compile.completed" [ContextCompileCompleted] request ;;?
  config <-? config_of STD_CONTEXT_TRUNCATE_TEMPLATE_ID decode_truncate request ;;
  let retain := Z.of_N (N.max (retain_tail_events config) 1) in
  let name := default "history.default" (truncate_read_plan_name config) in
  let pipeline := default "context.truncate" (truncate_pipeline_id config) in
  let reason := default "bounded context tail selected" (truncate_reason config) in
  let stream := stream_id (invoked_trigger_event request) in
  Ok [discharge None "control" ContextReadPlanSet
        (jobj (plan_fields name pipeline stream ++
               [("template_id", JString STD_CONTEXT_TRUNCATE_TEMPLATE_ID)] ++ trigger_fields request ++
               [("retain_tail_events", jint retain); ("reason", JString reason);
                ("read_plan", read_plan_json name stream
                   (truncate_read_plan_entries (context_spill_source_ranges request) retain reason))]))].

(** [invoke_context_summarize]. *)
Definition invoke_context_summarize (fresh : EventRecordId) (request : CouplingInvocation) : ExecResult :=
  expect_trigger STD_CONTEXT_SUMMARIZE_TEMPLATE_ID "context.compile.completed or turn.completed"
    [ContextCompileCompleted; TurnCompleted] request ;;?
  config <-? config_of STD_CONTEXT_SUMMARIZE_TEMPLATE_ID decode_summarize request ;;
  let ranges := context_spill_source_ranges request in
  let text := default ("Summary checkpoint from " +:+ trigger_kind_text request +:+ " " +:+ trigger_id_text request +:+ ".")
    (or_else (summarize_text config)
       (payload_string (payload (invoked_trigger_event request)) ["summary_text"; "summary"; "output_text"; "text"])) in
  let summary_id := default fresh (summarize_event_id config) in
  let name := default "history.default" (summarize_read_plan_name config) in
  let pipeline := default "context.summarize" (summarize_pipeline_id config) in
  let reason := default "summary checkpoint selected" (summarize_reason config) in
  let stream := stream_id (invoked_trigger_event request) in
  Ok [discharge (Some summary_id) "derived:context" ContextSummaryCompleted
        (jobj (summary_fields text ranges ++ [("template_id", JString STD_CONTEXT_SUMMARIZE_TEMPLATE_ID)] ++
               trigger_fields request ++
               [("snapshot_id", JString (request_snapshot request)); ("reason", JString reason)]));
      discharge None "derived:context" ContextReadPlanSet
        (jobj (plan_fields name pipeline stream ++
               [("summary_event_id", JString (uuid_text summary_id));
                ("template_id", JString STD_CONTEXT_SUMMARIZE_TEMPLATE_ID)] ++ trigger_fields request ++
               [("read_plan", read_plan_json name stream (summary_checkpoint_entries summary_id ranges))]))].

(** ** Memory *)

(** The text of a memory. *)
Definition memory_text (request : CouplingInvocation) (config : MemoryExtractConfig) : string :=
  default ("Memory extracted from " +:+ trigger_kind_text request +:+ " " +:+ trigger_id_text request +:+ ".")
    (or_else (extract_text config) (memory_text_from_payload (payload (invoked_trigger_event request)))).

(** [invoke_memory_extract]. *)
Definition invoke_memory_extract (request : CouplingInvocation) : ExecResult :=
  expect_trigger STD_MEMORY_EXTRACT_TEMPLATE_ID "turn.completed or tool.call.completed"
    [TurnCompleted; ToolCallCompleted] request ;;?
  config <-? config_of STD_MEMORY_EXTRACT_TEMPLATE_ID decode_extract request ;;
  let text := memory_text request config in
  let memory_kind := default "observation" (extract_kind config) in
  Ok [discharge (extract_event_id config) "derived:memory" ContextSummaryCompleted
        (jobj (summary_fields text (context_spill_source_ranges request) ++
               [("template_id", JString STD_MEMORY_EXTRACT_TEMPLATE_ID); ("memory_kind", JString memory_kind);
                ("source_event_id", JString (trigger_id_text request)); ("source_kind", JString (trigger_kind_text request));
                ("snapshot_id", JString (request_snapshot request))]))].

(** [memory_kind_matches]. *)
Definition memory_kind_matches (payload : json) (expected : option string) : bool :=
  match expected with
  | None => true
  | Some expected => bool_decide (text_field "memory_kind" payload = Some expected)
  end.

(** The checkpoints a recall selects: of the kind asked for, in order, the last [max_events]. *)
Definition selected_memories (config : MemoryRecallConfig) (source_events : list EventRecord) : list EventRecord :=
  let limit := N.to_nat (N.max (max_events config) 1) in
  let memories := order_sources
    (List.filter (fun e => memory_kind_matches (payload e) (recall_kind config))
       (List.filter (fun e => bool_decide (kind e = ContextSummaryCompleted)) source_events)) in
  if Nat.ltb limit (length memories) then drop (length memories - limit) memories else memories.

Definition checkpoint_entry (role stream id : string) : json :=
  jobj [("kind", JString "event_ref"); ("stream_id", JString stream); ("event_id", JString id); ("event_role", JString role)].

(** The payload of the plan [invoke_memory_recall] discharges. *)
Definition recall_payload (request : CouplingInvocation) (config : MemoryRecallConfig) (source_stream : string)
    (memories : list EventRecord) : json :=
  let name := default "memory.default" (recall_read_plan_name config) in
  let pipeline := default "context.memory" (recall_pipeline_id config) in
  jobj (plan_fields name pipeline source_stream ++ [("template_id", JString STD_MEMORY_RECALL_TEMPLATE_ID)] ++
        trigger_fields request ++
        [("snapshot_id", JString (request_snapshot request));
         ("selected_event_ids", JArray (map (fun e => JString (uuid_text (event_id e))) memories));
         ("read_plan", read_plan_json name source_stream
            (map (fun e => checkpoint_entry "memory_checkpoint" (stream_id e) (uuid_text (event_id e))) memories))]).

(** [invoke_memory_recall]. *)
Definition invoke_memory_recall (request : CouplingInvocation) : ExecResult :=
  expect_trigger STD_MEMORY_RECALL_TEMPLATE_ID "turn.submitted or context.compile.completed"
    [TurnSubmitted; ContextCompileCompleted] request ;;?
  config <-? config_of STD_MEMORY_RECALL_TEMPLATE_ID decode_recall request ;;
  match selected_memories config (invoked_source_events request) with
  | [] => Ok []
  | (first :: _) as memories =>
      Ok [discharge None "derived:context" ContextReadPlanSet (recall_payload request config (stream_id first) memories)]
  end.

(** ** Prompts *)

(** [serde_json::to_value] of a [TurnContinueRequestedPayload], with the fields inserted after. *)
Definition continue_requested_json (subject : TurnContinuationSubject) (snapshot next_turn_input : string)
    (fields : list (string * json)) : json :=
  jobj ([("subject", jobj [("loop_id", JString (loop_id subject)); ("parent_turn_id", JString (parent_turn_id subject))]);
         ("snapshot_id", JString snapshot); ("next_turn_input", JString next_turn_input);
         ("schema", JString (payload_schema_id TurnContinueRequested))] ++ fields).

(** [invoke_prompt_steer_continuation]. *)
Definition invoke_prompt_steer_continuation (request : CouplingInvocation) (config : PromptSteerConfig) : ExecResult :=
  parent <-? ok_or (or_else (steer_parent_turn_id config)
      (payload_string (payload (invoked_trigger_event request)) ["parent_turn_id"; "turn_id"]))
    "std::prompt.steer request_continuation requires parent_turn_id" ;;
  input <-? ok_or (steer_next_turn_input config) "std::prompt.steer request_continuation requires next_turn_input" ;;
  Ok [discharge None "control" TurnContinueRequested
        (continue_requested_json (mk_continuation_subject (default "prompt.steer" (steer_loop_id config)) parent)
           (request_snapshot request) input
           ([("template_id", JString STD_PROMPT_STEER_TEMPLATE_ID)] ++ trigger_fields request ++
            [("reason", JString (default "prompt steering requested continuation" (steer_reason config)))]))].

(** [invoke_prompt_steer_read_plan]. *)
Definition invoke_prompt_steer_read_plan (request : CouplingInvocation) (config : PromptSteerConfig) : ExecResult :=
  id <-? ok_or (checkpoint_event_id config) "std::prompt.steer set_read_plan requires checkpoint_event_id" ;;
  let stream := default (stream_id (invoked_trigger_event request)) (checkpoint_stream_id config) in
  let role := default "instruction_checkpoint" (steer_event_role config) in
  let name := default "instructions.default" (steer_read_plan_name config) in
  let pipeline := default "context.instructions" (steer_pipeline_id config) in
  Ok [discharge None "control" ContextReadPlanSet
        (jobj (plan_fields name pipeline stream ++
               [("checkpoint_event_id", JString (uuid_text id)); ("template_id", JString STD_PROMPT_STEER_TEMPLATE_ID)] ++
               trigger_fields request ++
               [("snapshot_id", JString (request_snapshot request));
                ("reason", JString (default "prompt steering selected read plan" (steer_reason config)));
                ("read_plan", read_plan_json name stream [checkpoint_entry role stream (uuid_text id)])]))].

(** [invoke_prompt_steer]. *)
Definition invoke_prompt_steer (request : CouplingInvocation) : ExecResult :=
  expect_trigger STD_PROMPT_STEER_TEMPLATE_ID "turn.completed or approval.resolved"
    [TurnCompleted; ApprovalResolved] request ;;?
  config <-? config_of STD_PROMPT_STEER_TEMPLATE_ID decode_steer request ;;
  match steer_action config with
  | SteerContinuation => invoke_prompt_steer_continuation request config
  | SteerReadPlan => invoke_prompt_steer_read_plan request config
  end.

(** [invoke_prompt_dynamic_instructions]. *)
Definition invoke_prompt_dynamic_instructions (fresh : EventRecordId) (request : CouplingInvocation) : ExecResult :=
  expect_trigger STD_PROMPT_DYNAMIC_INSTRUCTIONS_TEMPLATE_ID "manifest.bind.completed or context.compile.completed"
    [ManifestBindCompleted; ContextCompileCompleted] request ;;?
  config <-? config_of STD_PROMPT_DYNAMIC_INSTRUCTIONS_TEMPLATE_ID decode_instructions request ;;
  let text := default ("Instruction checkpoint from " +:+ trigger_kind_text request +:+ " " +:+ trigger_id_text request +:+ ".")
    (or_else (instruction_text config) (instruction_text_from_payload (payload (invoked_trigger_event request)))) in
  let label := default "instructions.default" (instruction_name config) in
  let name := default label (instruction_read_plan_name config) in
  let pipeline := default "context.instructions" (instruction_pipeline_id config) in
  let id := default fresh (instruction_event_id config) in
  let stream := derived_context_stream (coordinates (invoked_trigger_event request)) in
  Ok [discharge (Some id) "derived:context" ContextSummaryCompleted
        (jobj (summary_fields text (context_spill_source_ranges request) ++
               [("template_id", JString STD_PROMPT_DYNAMIC_INSTRUCTIONS_TEMPLATE_ID); ("instruction_name", JString label);
                ("source_event_id", JString (trigger_id_text request)); ("source_kind", JString (trigger_kind_text request));
                ("snapshot_id", JString (request_snapshot request))]));
      discharge None "derived:context" ContextReadPlanSet
        (jobj (plan_fields name pipeline stream ++
               [("instruction_event_id", JString (uuid_text id));
                ("template_id", JString STD_PROMPT_DYNAMIC_INSTRUCTIONS_TEMPLATE_ID)] ++ trigger_fields request ++
               [("read_plan", read_plan_json name stream [checkpoint_entry "instruction_checkpoint" stream (uuid_text id)])]))].
End Functions.

(** * The standard couplings: control stream and executor

    Models [verlet-kernel/src/kernel/stdlib_couplings.rs]: the functions that write to the
    control stream of a thread (queues, permissions, schedules, supervision, retries), the
    projection into the deadletter stream, and the executor that picks a function by the id of
    the coupling.  The executor's state is the number of ids it has drawn. *)

(** [serde_json::json!] of an [Option<String>]. *)
Definition optional_text (o : option string) : json := match o with Some text => JString text | None => JNull end.

(** [insert_optional_string]. *)
Definition insert_optional_string (key : string) (o : option string) : list (string * json) := opt_field key JString o.

(** Configured text that has something in it, trimmed. *)
Definition nonblank (o : option string) : option string :=
  text ← o; if is_blank text then None else Some (str_trim text).

(** [str::replace] of a pattern that is not empty; [skip] counts the rest of a replaced match. *)
Fixpoint str_replace (pattern to : string) (skip : nat) (text : string) : string :=
  match text with
  | EmptyString => EmptyString
  | String c rest =>
      match skip with
      | Datatypes.S skip => str_replace pattern to skip rest
      | O =>
          if String.prefix pattern text then to +:+ str_replace pattern to (String.length pattern - 1) rest
          else String c (str_replace pattern to 0 rest)
      end
  end.

(** [render_schedule_input_template]. *)
Definition render_schedule_input_template (template scheduled_for : string) : string :=
  str_replace "{scheduled_for}" scheduled_for 0 template.

(** [ScheduleCronMandateScope::matches]. *)
#[export] Instance mandate_subject_eq_dec : EqDecision MandateSubject.
Proof. solve_decision. Defined.
Definition scope_matches (scope : ScheduleCronMandateScope) (subject : MandateSubject) : bool :=
  match scope with MatchAll => true | MatchSubject expected => bool_decide (expected = subject) end.

Section Functions.
Context `{UuidText} `{Sha256} `{ControlCodec} `{TimerCodec} `{StdlibCodec}.

Definition template_fields (k : EventKind) (template : string) (request : CouplingInvocation) : list (string * json) :=
  [("schema", JString (payload_schema_id k)); ("template_id", JString template);
   ("snapshot_id", JString (request_snapshot request))].

(** ** Queues *)

(** [invoke_queue_task]. *)
Definition invoke_queue_task (request : CouplingInvocation) : ExecResult :=
  expect_trigger STD_QUEUE_TASK_TEMPLATE_ID "turn.submitted" [TurnSubmitted] request ;;?
  config <-? config_of STD_QUEUE_TASK_TEMPLATE_ID decode_queue_task request ;;
  turn <-? ok_or (text_field "turn_id" (payload (invoked_trigger_event request)))
    "std::queue.task trigger payload is missing turn_id" ;;
  let prefix := default "task" (task_prefix config) in
  Ok [discharge None "control" TurnWaiting
        (jobj (template_fields TurnWaiting STD_QUEUE_TASK_TEMPLATE_ID request ++
               [("turn_id", JString turn); ("task_id", JString (prefix +:+ ":" +:+ trigger_id_text request));
                ("waiting_on_event_id", JString (trigger_id_text request)); ("status", JString "queued");
                ("reason", JString (default "queued by std::queue.task" (task_reason config)))] ++
               insert_optional_string "entry_id" (text_field "entry_id" (payload (invoked_trigger_event request)))))].

(** The receipt of a completed run the coupling watches. *)
Definition watched_completion (template : string) (watch : option string) (request : CouplingInvocation)
    : result (option (CouplingRunReceipt string)) string :=
  completed <-? map_err (fun err => template +:+ " trigger payload is not a coupling run receipt: " +:+ err)
    (decode_run_receipt (payload (invoked_trigger_event request))) ;;
  match status completed with
  | Completed =>
      match watch with
      | Some watched => if String.eqb (run_coupling_id completed) watched then Ok (Some completed) else Ok None
      | None => Ok (Some completed)
      end
  | _ => Ok None
  end.

(** [invoke_queue_completion_callback]. *)
Definition invoke_queue_completion_callback (request : CouplingInvocation) : ExecResult :=
  expect_trigger STD_QUEUE_COMPLETION_CALLBACK_TEMPLATE_ID "coupling.run.completed" [CouplingRunCompleted] request ;;?
  config <-? config_of STD_QUEUE_COMPLETION_CALLBACK_TEMPLATE_ID decode_queue_completion request ;;
  watched <-? watched_completion STD_QUEUE_COMPLETION_CALLBACK_TEMPLATE_ID (queue_watch_coupling_id config) request ;;
  match watched with
  | None => Ok []
  | Some completed =>
      match queue_on_completed config with
      | CompleteLoop =>
          Ok [discharge None "control" LoopCompleted
                (jobj (template_fields LoopCompleted STD_QUEUE_COMPLETION_CALLBACK_TEMPLATE_ID request ++
                       [("completed_coupling_id", JString (run_coupling_id completed));
                        ("completed_trigger_event_id", JString (uuid_text (run_trigger_event_id completed)));
                        ("completed_discharged_event_ids",
                          JArray (map (fun id => JString (uuid_text id)) (discharged_event_ids completed)));
                        ("reason", JString (default "queued work completed" (queue_reason config)))]))]
      | RequestContinuation =>
          input <-? ok_or (queue_next_turn_input config)
            "std::queue.completion_callback request_continuation requires next_turn_input" ;;
          parent <-? ok_or (queue_parent_turn_id config)
            "std::queue.completion_callback request_continuation requires parent_turn_id" ;;
          Ok [discharge None "control" TurnContinueRequested
                (continue_requested_json (mk_continuation_subject (default "default" (queue_loop_id config)) parent)
                   (request_snapshot request) input
                   [("template_id", JString STD_QUEUE_COMPLETION_CALLBACK_TEMPLATE_ID);
                    ("completed_coupling_id", JString (run_coupling_id completed))])]
      end
  end.

(** ** Supervision *)

(** [serde_json::to_value] of a [ThreadSpawnRequestedPayload] without a task name and a turn. *)
Definition spawn_requested_fields (parent : ThreadId) (parent_turn : option string)
    (agent submission correlation : string) (block : bool) : list (string * json) :=
  [("parent_thread_id", JString (uuid_text parent))] ++ opt_field "parent_turn_id" JString parent_turn ++
  [("child_agent_ref", JString agent); ("initial_submission", JString submission);
   ("correlation_id", JString correlation); ("block_parent", JBool block)].

(** The payload of the request [invoke_supervisor_spawn] discharges. *)
Definition spawn_payload (request : CouplingInvocation) (config : SupervisorSpawnConfig) (parent_turn : option string)
    (agent submission correlation : string) : json :=
  jobj (spawn_requested_fields (thread_id (coordinates (invoked_trigger_event request))) parent_turn agent submission
          correlation (spawn_block_parent config) ++
        template_fields ThreadSpawnRequested STD_SUPERVISOR_SPAWN_TEMPLATE_ID request ++ trigger_fields request ++
        [("reason", JString (default "supervisor spawn requested" (spawn_reason config)))]).

(** [invoke_supervisor_spawn]. *)
Definition invoke_supervisor_spawn (fresh : EventRecordId) (request : CouplingInvocation) : ExecResult :=
  expect_trigger STD_SUPERVISOR_SPAWN_TEMPLATE_ID "turn.submitted or tool.call.requested"
    [TurnSubmitted; ToolCallRequested] request ;;?
  config <-? config_of STD_SUPERVISOR_SPAWN_TEMPLATE_ID decode_spawn request ;;
  let parent_turn := or_else (spawn_parent_turn_id config)
    (payload_string (payload (invoked_trigger_event request)) ["turn_id"]) in
  let agent := default "unbound" (nonblank (spawn_agent_ref config)) in
  submission <-? ok_or (nonblank (spawn_submission config)) "std::supervisor.spawn requires initial_submission" ;;
  let correlation := default (STD_SUPERVISOR_SPAWN_TEMPLATE_ID +:+ ":" +:+ trigger_id_text request)
    (nonblank (spawn_correlation_id config)) in
  let requested := discharge (Some fresh) "control" ThreadSpawnRequested
    (spawn_payload request config parent_turn agent submission correlation) in
  if spawn_block_parent config then
    turn <-? ok_or parent_turn "std::supervisor.spawn block_parent requires parent_turn_id or trigger turn_id" ;;
    Ok [requested;
        discharge None "control" TurnWaiting
          (jobj (template_fields TurnWaiting STD_SUPERVISOR_SPAWN_TEMPLATE_ID request ++
                 [("turn_id", JString turn); ("waiting_on_event_id", JString (uuid_text fresh));
                  ("correlation_id", JString correlation); ("status", JString "waiting_on_child");
                  ("reason", JString "waiting on supervised child completion")]))]
  else Ok [requested].

Record SupervisorChildCompletionFact := {
  fact_parent_thread_id : option string;
  fact_child_thread_id : option string;
  fact_child_turn_id : option string;
  fact_status : string;
  fact_coupling_id : option string;
  fact_trigger_event_id : option EventRecordId;
  fact_discharged_event_ids : list EventRecordId;
}.

(** [supervisor_child_completion_fact]. *)
Definition supervisor_child_completion_fact (request : CouplingInvocation) (config : SupervisorChildCompletionConfig)
    : result (option SupervisorChildCompletionFact) string :=
  let said := payload_string (payload (invoked_trigger_event request)) in
  let sourced := source_payload_string (invoked_source_events request) in
  match kind (invoked_trigger_event request) with
  | TurnCompleted =>
      Ok (Some {|
        fact_parent_thread_id := or_else (child_parent_thread_id config) (said ["parent_thread_id"]);
        fact_child_thread_id :=
          or_else (or_else (child_child_thread_id config) (said ["child_thread_id"]))
            (Some (uuid_text (thread_id (coordinates (invoked_trigger_event request)))));
        fact_child_turn_id := or_else (child_child_turn_id config) (said ["child_turn_id"; "turn_id"]);
        fact_status := default "completed" (said ["status"]);
        fact_coupling_id := None; fact_trigger_event_id := None; fact_discharged_event_ids := [] |})
  | CouplingRunCompleted =>
      watched <-? watched_completion STD_SUPERVISOR_CHILD_COMPLETION_TEMPLATE_ID (child_watch_coupling_id config) request ;;
      match watched with
      | None => Ok None
      | Some completed =>
          Ok (Some {|
            fact_parent_thread_id :=
              or_else (or_else (child_parent_thread_id config) (said ["parent_thread_id"])) (sourced ["parent_thread_id"]);
            fact_child_thread_id :=
              or_else (or_else (child_child_thread_id config) (said ["child_thread_id"])) (sourced ["child_thread_id"]);
            fact_child_turn_id :=
              or_else (or_else (child_child_turn_id config) (said ["child_turn_id"; "turn_id"]))
                (sourced ["child_turn_id"; "turn_id"]);
            fact_status := default "completed" (said ["child_status"; "status"]);
            fact_coupling_id := Some (run_coupling_id completed);
            fact_trigger_event_id := Some (run_trigger_event_id completed);
            fact_discharged_event_ids := discharged_event_ids completed |})
      end
  | _ => Ok None
  end.

(** [supervisor_child_completion_json]. *)
Definition supervisor_child_completion_json (fact : SupervisorChildCompletionFact) : json :=
  jobj ([("status", JString (fact_status fact))] ++
        insert_optional_string "parent_thread_id" (fact_parent_thread_id fact) ++
        insert_optional_string "child_thread_id" (fact_child_thread_id fact) ++
        insert_optional_string "child_turn_id" (fact_child_turn_id fact) ++
        insert_optional_string "completed_coupling_id" (fact_coupling_id fact) ++
        insert_optional_string "completed_trigger_event_id" (uuid_text <$> fact_trigger_event_id fact) ++
        match fact_discharged_event_ids fact with
        | [] => []
        | ids => [("completed_discharged_event_ids", JArray (map (fun id => JString (uuid_text id)) ids))]
        end).

(** [invoke_supervisor_child_completion]. *)
Definition invoke_supervisor_child_completion (request : CouplingInvocation) : ExecResult :=
  expect_trigger STD_SUPERVISOR_CHILD_COMPLETION_TEMPLATE_ID "turn.completed or coupling.run.completed"
    [TurnCompleted; CouplingRunCompleted] request ;;?
  config <-? config_of STD_SUPERVISOR_CHILD_COMPLETION_TEMPLATE_ID decode_child_completion request ;;
  fact <-? supervisor_child_completion_fact request config ;;
  match fact with
  | None => Ok []
  | Some completion =>
      match child_on_completed config with
      | CompleteLoop =>
          Ok [discharge None "control" LoopCompleted
                (jobj (template_fields LoopCompleted STD_SUPERVISOR_CHILD_COMPLETION_TEMPLATE_ID request ++
                       trigger_fields request ++
                       [("reason", JString (default "supervised child work completed" (child_reason config)));
                        ("child", supervisor_child_completion_json completion)] ++
                       insert_optional_string "parent_thread_id" (fact_parent_thread_id completion)))]
      | RequestContinuation =>
          parent <-? ok_or (or_else (child_parent_turn_id config)
              (payload_string (payload (invoked_trigger_event request)) ["parent_turn_id"; "turn_id"]))
            "std::supervisor.child_completion request_continuation requires parent_turn_id" ;;
          input <-? ok_or (child_next_turn_input config)
            "std::supervisor.child_completion request_continuation requires next_turn_input" ;;
          Ok [discharge None "control" TurnContinueRequested
                (continue_requested_json (mk_continuation_subject (default "supervisor" (child_loop_id config)) parent)
                   (request_snapshot request) input
                   ([("template_id", JString STD_SUPERVISOR_CHILD_COMPLETION_TEMPLATE_ID)] ++ trigger_fields request ++
                    [("reason", JString (default "supervised child completion requested continuation" (child_reason config)));
                     ("child", supervisor_child_completion_json completion)]))]
      end
  end.

(** ** Permissions *)

Definition tool_subject_json (subject : ToolCallSubject) : json :=
  jobj [("turn_id", JString (subject_turn_id subject)); ("call_id", JString (subject_call_id subject))].

(** [serde_json::to_value] of a [ToolCallDecisionOutcomePayload]. *)
Definition outcome_json (o : ToolCallDecisionOutcomePayload) : json :=
  match o with
  | OutcomeAllow => jobj [("decision", JString "allow")]
  | OutcomeRewrite arguments => jobj [("decision", JString "rewrite"); ("arguments", arguments)]
  | OutcomeDeny reason => jobj [("decision", JString "deny"); ("reason", JString reason)]
  end.

(** [serde_json::to_value] of a [ToolCallSuspendedPayload], with the fields inserted after. *)
Definition suspended_json (subject : ToolCallSubject) (snapshot : string) (approval reason : option string)
    (fields : list (string * json)) : json :=
  jobj ([("subject", tool_subject_json subject); ("snapshot_id", JString snapshot)] ++
        opt_field "approval_id" JString approval ++ opt_field "reason" JString reason ++
        [("schema", JString (payload_schema_id ToolCallSuspended))] ++ fields).

(** The payload of the tool call the trigger requests. *)
Definition requested_tool_call (template : string) (request : CouplingInvocation) : result ToolCallRequestedPayload string :=
  map_err (fun err => template +:+ " trigger payload codec failed: " +:+ err)
    (decode_tool_requested (payload (invoked_trigger_event request))).

(** [permission_tool_decision_result]. *)
Definition permission_tool_decision_result (request : CouplingInvocation) (requested : ToolCallRequestedPayload)
    (outcome : ToolCallDecisionOutcomePayload) (reason : option string) : list CouplingDischarge :=
  [discharge None "control" EventKind.ToolCallDecision
     (jobj ([("subject", tool_subject_json (requested_subject requested));
             ("snapshot_id", JString (request_snapshot request)); ("outcome", outcome_json outcome);
             ("schema", JString (payload_schema_id EventKind.ToolCallDecision));
             ("template_id", JString STD_PERMISSION_TOOL_GATE_TEMPLATE_ID);
             ("tool_name", JString (requested_tool_name requested));
             ("request_event_id", JString (trigger_id_text request))] ++
            insert_optional_string "reason" reason))].

(** [invoke_permission_tool_gate]. *)
Definition invoke_permission_tool_gate (request : CouplingInvocation) : ExecResult :=
  expect_trigger STD_PERMISSION_TOOL_GATE_TEMPLATE_ID "tool.call.requested" [ToolCallRequested] request ;;?
  config <-? config_of STD_PERMISSION_TOOL_GATE_TEMPLATE_ID decode_tool_gate request ;;
  requested <-? requested_tool_call STD_PERMISSION_TOOL_GATE_TEMPLATE_ID request ;;
  match gate_decision config with
  | GateAllow => Ok (permission_tool_decision_result request requested OutcomeAllow (gate_reason config))
  | GateRewrite =>
      arguments <-? ok_or (gate_arguments config) "std::permission.tool_gate rewrite requires arguments" ;;
      Ok (permission_tool_decision_result request requested (OutcomeRewrite arguments) (gate_reason config))
  | GateDeny =>
      let reason := default "denied by std::permission.tool_gate" (gate_reason config) in
      Ok (permission_tool_decision_result request requested (OutcomeDeny reason) (Some reason))
  | GateWait =>
      Ok [discharge None "control" ToolCallSuspended
            (suspended_json (requested_subject requested) (request_snapshot request) (gate_approval_id config)
               (or_else (gate_reason config) (Some "waiting on std::permission.tool_gate"))
               [("template_id", JString STD_PERMISSION_TOOL_GATE_TEMPLATE_ID);
                ("tool_name", JString (requested_tool_name requested));
                ("request_event_id", JString (trigger_id_text request))])]
  end.

(** [invoke_permission_approval_gate]. *)
Definition invoke_permission_approval_gate (request : CouplingInvocation) : ExecResult :=
  expect_trigger STD_PERMISSION_APPROVAL_GATE_TEMPLATE_ID "tool.call.requested" [ToolCallRequested] request ;;?
  config <-? config_of STD_PERMISSION_APPROVAL_GATE_TEMPLATE_ID decode_approval_gate request ;;
  requested <-? requested_tool_call STD_PERMISSION_APPROVAL_GATE_TEMPLATE_ID request ;;
  let subject := requested_subject requested in
  let approval := default ("approval:" +:+ subject_turn_id subject +:+ ":" +:+ subject_call_id subject)
    (approval_approval_id config) in
  let reason := default "operator approval required" (approval_reason config) in
  let token := default approval (approval_resume_token config) in
  Ok [discharge None "control" ApprovalRequested
        (jobj (template_fields ApprovalRequested STD_PERMISSION_APPROVAL_GATE_TEMPLATE_ID request ++
               [("approval_id", JString approval); ("kind", JString "tool.call"); ("subject", tool_subject_json subject);
                ("tool_name", JString (requested_tool_name requested));
                ("request_event_id", JString (trigger_id_text request)); ("reason", JString reason);
                ("resume_token", JString token)]));
      discharge None "control" ToolCallSuspended
        (suspended_json subject (request_snapshot request) (Some approval) (Some reason)
           [("template_id", JString STD_PERMISSION_APPROVAL_GATE_TEMPLATE_ID);
            ("approval_requested_event_role", JString "approval_request");
            ("request_event_id", JString (trigger_id_text request));
            ("tool_name", JString (requested_tool_name requested)); ("resume_token", JString token)])].

(** ** Schedules *)

(** [timer_fired_mandate]. *)
Definition timer_fired_mandate (request : CouplingInvocation) (timer : TimerFiredPayload)
    : result (option (EventRecord * MandateStartedPayload)) string :=
  if bool_decide (timer_mandate_event_id timer ∈ source_event_ids (provenance (invoked_trigger_event request))) then
    match List.find (fun e => (event_id e =? timer_mandate_event_id timer)%N && bool_decide (kind e = MandateStarted))
            (invoked_source_events request) with
    | None => Ok None
    | Some event =>
        mandate <-? map_err (fun err => "std::schedule.cron mandate payload failed: " +:+ err)
          (decode_mandate_started (payload event)) ;;
        Ok (Some (event, mandate))
    end
  else Ok None.

(** [schedule_budget_exhausted_discharge], with the fields inserted after. *)
Definition schedule_budget_exhausted_discharge (request : CouplingInvocation) (schedule : string) (timer : TimerFiredPayload)
    (mandate : string) (max_occurrences : Z) : CouplingDischarge :=
  let occurrence := timer_occurrence_index timer in
  discharge None "control" LoopBudgetExhausted
    (jobj (template_fields LoopBudgetExhausted STD_SCHEDULE_CRON_TEMPLATE_ID request ++
           [("mandate_event_id", JString (uuid_text (timer_mandate_event_id timer))); ("mandate_id", JString mandate);
            ("schedule_id", JString schedule); ("occurrence", jint occurrence); ("max_occurrences", jint max_occurrences);
            ("reason", JString ("schedule budget exhausted after occurrence " +:+ pretty occurrence +:+ "/" +:+
                                pretty max_occurrences));
            ("occurrence_index", jint occurrence); ("timer_event_id", JString (trigger_id_text request))])).

(** [invoke_schedule_cron_timer_fired]. *)
Definition invoke_schedule_cron_timer_fired (request : CouplingInvocation) (config : ScheduleCronConfig) : ExecResult :=
  timer <-? map_err (fun err => "std::schedule.cron timer payload failed: " +:+ err)
    (decode_timer_fired (payload (invoked_trigger_event request))) ;;
  found <-? timer_fired_mandate request timer ;;
  match found with
  | None => Ok []
  | Some (mandate_event, mandate) =>
      if negb (scope_matches (mandate_scope config) (started_subject mandate)) then Ok []
      else
        let max := default (cron_max_occurrences config) (max_occurrences mandate) in
        let schedule := default "default" (schedule_id config) in
        if (max <=? timer_occurrence_index timer)%Z then
          Ok [schedule_budget_exhausted_discharge request schedule timer (started_mandate_id mandate) max]
        else
          parent <-? ok_or (cron_parent_turn_id config) "std::schedule.cron continuation requires parent_turn_id" ;;
          template <-? ok_or (or_else (input_template mandate) (cron_next_turn_input config))
            "std::schedule.cron continuation requires input_template" ;;
          let loop := default "default" (or_else (cron_loop_id config) (mandate_loop_id (started_subject mandate))) in
          Ok [discharge None "control" TurnContinueRequested
                (continue_requested_json (mk_continuation_subject loop parent) (started_snapshot_id mandate)
                   (render_schedule_input_template template (timer_scheduled_for timer))
                   [("template_id", JString STD_SCHEDULE_CRON_TEMPLATE_ID);
                    ("reason", JString (default "scheduled occurrence accepted" (cron_reason config)));
                    ("schedule",
                      jobj [("schedule_id", JString schedule); ("mandate_id", JString (started_mandate_id mandate));
                            ("mandate_event_id", JString (uuid_text (event_id mandate_event)));
                            ("timer_event_id", JString (trigger_id_text request));
                            ("scheduled_for", JString (timer_scheduled_for timer));
                            ("occurrence_index", jint (timer_occurrence_index timer)); ("max_occurrences", jint max)])])]
  end.

(** [invoke_schedule_cron]. *)
Definition invoke_schedule_cron (request : CouplingInvocation) : ExecResult :=
  match kind (invoked_trigger_event request) with
  | MandateStarted => Ok []
  | TimerFired =>
      config <-? config_of STD_SCHEDULE_CRON_TEMPLATE_ID decode_cron request ;;
      invoke_schedule_cron_timer_fired request config
  | k => Err (STD_SCHEDULE_CRON_TEMPLATE_ID +:+ " expected timer.fired trigger, got " +:+ kind_str k)
  end.

(** ** Failures *)

(** [invoke_failure_deadletter]. *)
Definition invoke_failure_deadletter (request : CouplingInvocation) : ExecResult :=
  let trigger := invoked_trigger_event request in
  expect_trigger STD_FAILURE_DEADLETTER_TEMPLATE_ID "coupling.run.failed or loop.blocked"
    [CouplingRunFailed; LoopBlocked] request ;;?
  if bool_decide (text_field "role" (payload trigger) = Some "deadletter_projection") then Ok []
  else
    config <-? config_of STD_FAILURE_DEADLETTER_TEMPLATE_ID decode_deadletter request ;;
    let reason := default "projected into deadletter stream"
      (or_else (deadletter_reason config) (text_field "reason" (payload trigger))) in
    Ok [discharge None "derived:deadletter" CouplingRunFailed
          (jobj (template_fields CouplingRunFailed STD_FAILURE_DEADLETTER_TEMPLATE_ID request ++
                 [("role", JString "deadletter_projection"); ("status", JString "deadlettered");
                  ("queue", JString (default "default" (deadletter_queue config)));
                  ("deadletter_id", JString ("deadletter:" +:+ trigger_id_text request));
                  ("source_event_id", JString (trigger_id_text request)); ("source_kind", JString (trigger_kind_text request));
                  ("source_stream_id", JString (stream_id trigger)); ("source_sequence", jint (sequence trigger));
                  ("reason", JString reason); ("failure", payload trigger)]))].

(** The attempt a failed run reports, at least one. *)
Definition u32_value (v : json) : option N :=
  match v with
  | JNumber n => z ← as_u64 n; if (z <? 2 ^ 32)%Z then Some (Z.to_N z) else None
  | _ => None
  end.
Definition failed_attempt (payload : json) : N := N.max (default 1%N (value_get "attempt" payload ≫= u32_value)) 1.

(** [retry_error_class_allowed]. *)
Definition retry_error_class_allowed (config : RetryWithBudgetConfig) (error_class : option string) : bool :=
  match retryable_error_classes config, error_class with
  | [], _ => true
  | _, None => false
  | classes, Some class => existsb (String.eqb class) classes
  end.

(** [retry_budget_exhausted_discharge]. *)
Definition retry_budget_exhausted_discharge (request : CouplingInvocation) (attempt max : N) (error_class : option string)
    (reason : string) : CouplingDischarge :=
  discharge None "control" LoopBudgetExhausted
    (jobj (template_fields LoopBudgetExhausted STD_RETRY_WITH_BUDGET_TEMPLATE_ID request ++
           [("failed_event_id", JString (trigger_id_text request)); ("attempt", jint (Z.of_N attempt));
            ("max_attempts", jint (Z.of_N max)); ("error_class", optional_text error_class); ("reason", JString reason)])).

(** [invoke_retry_with_budget]. *)
Definition invoke_retry_with_budget (request : CouplingInvocation) : ExecResult :=
  expect_trigger STD_RETRY_WITH_BUDGET_TEMPLATE_ID "coupling.run.failed" [CouplingRunFailed] request ;;?
  config <-? config_of STD_RETRY_WITH_BUDGET_TEMPLATE_ID decode_retry request ;;
  let attempt := failed_attempt (payload (invoked_trigger_event request)) in
  let error_class := text_field "error_class" (payload (invoked_trigger_event request)) in
  if negb (retry_error_class_allowed config error_class) then
    Ok [retry_budget_exhausted_discharge request attempt (max_attempts config) error_class
          ("retry denied for error class " +:+ default "unknown" error_class)]
  else if (max_attempts config <=? attempt)%N then
    Ok [retry_budget_exhausted_discharge request attempt (max_attempts config) error_class
          ("retry budget exhausted after attempt " +:+ pretty attempt +:+ "/" +:+ pretty (max_attempts config))]
  else
    parent <-? ok_or (retry_parent_turn_id config) "std::retry.with_budget continuation requires parent_turn_id" ;;
    input <-? ok_or (retry_next_turn_input config) "std::retry.with_budget continuation requires next_turn_input" ;;
    Ok [discharge None "control" TurnContinueRequested
          (continue_requested_json (mk_continuation_subject (default "default" (retry_loop_id config)) parent)
             (request_snapshot request) input
             [("template_id", JString STD_RETRY_WITH_BUDGET_TEMPLATE_ID);
              ("reason", JString (default "retry requested by std::retry.with_budget" (retry_reason config)));
              ("retry",
                jobj [("attempt", jint (Z.of_N (attempt + 1))); ("previous_attempt", jint (Z.of_N attempt));
                      ("max_attempts", jint (Z.of_N (max_attempts config)));
                      ("failed_event_id", JString (trigger_id_text request));
                      ("error_class", optional_text error_class)])])].

(** ** The executor *)

(** The templates [StdlibCouplingExecutor] implements, each with its function. *)
Definition stdlib_functions : list (string * (EventRecordId -> CouplingInvocation -> ExecResult)) :=
  [(STD_QUEUE_TASK_TEMPLATE_ID, fun _ => invoke_queue_task);
   (STD_QUEUE_COMPLETION_CALLBACK_TEMPLATE_ID, fun _ => invoke_queue_completion_callback);
   (STD_CONTEXT_SPILL_TEMPLATE_ID, invoke_context_spill);
   (STD_CONTEXT_TRUNCATE_TEMPLATE_ID, fun _ => invoke_context_truncate);
   (STD_CONTEXT_SUMMARIZE_TEMPLATE_ID, invoke_context_summarize);
   (STD_MEMORY_EXTRACT_TEMPLATE_ID, fun _ => invoke_memory_extract);
   (STD_MEMORY_RECALL_TEMPLATE_ID, fun _ => invoke_memory_recall);
   (STD_PROMPT_STEER_TEMPLATE_ID, fun _ => invoke_prompt_steer);
   (STD_PROMPT_DYNAMIC_INSTRUCTIONS_TEMPLATE_ID, invoke_prompt_dynamic_instructions);
   (STD_PERMISSION_APPROVAL_GATE_TEMPLATE_ID, fun _ => invoke_permission_approval_gate);
   (STD_PERMISSION_TOOL_GATE_TEMPLATE_ID, fun _ => invoke_permission_tool_gate);
   (STD_SCHEDULE_CRON_TEMPLATE_ID, fun _ => invoke_schedule_cron);
   (STD_SUPERVISOR_SPAWN_TEMPLATE_ID, invoke_supervisor_spawn);
   (STD_SUPERVISOR_CHILD_COMPLETION_TEMPLATE_ID, fun _ => invoke_supervisor_child_completion);
   (STD_RETRY_WITH_BUDGET_TEMPLATE_ID, fun _ => invoke_retry_with_budget);
   (STD_FAILURE_DEADLETTER_TEMPLATE_ID, fun _ => invoke_failure_deadletter)].

(** [StdlibCouplingExecutor::invoke]. *)
Definition stdlib_invoke (fresh : EventRecordId) (request : CouplingInvocation) : ExecResult :=
  let id := coupling_id (invoked_coupling request) in
  match List.find (fun f => String.eqb id f.1) stdlib_functions with
  | Some f => f.2 fresh request
  | None => Err ("stdlib coupling executor does not implement template " +:+ debug_str id)
  end.

(** The executor of a runtime, over the ids it has drawn. *)
Definition stdlib_executor (fresh : nat -> EventRecordId) : CouplingExecutor nat := {|
  executor_error := string;
  invoke request drawn := (Datatypes.S drawn, stdlib_invoke (fresh drawn) request);
|}.
End Functions.

(** [StdlibCouplingExecutor::supports_template]. *)
Definition supports_template (id : string) : bool :=
  existsb (String.eqb id)
    [STD_QUEUE_TASK_TEMPLATE_ID; STD_QUEUE_COMPLETION_CALLBACK_TEMPLATE_ID; STD_CONTEXT_SPILL_TEMPLATE_ID;
     STD_CONTEXT_TRUNCATE_TEMPLATE_ID; STD_CONTEXT_SUMMARIZE_TEMPLATE_ID; STD_MEMORY_EXTRACT_TEMPLATE_ID;
     STD_MEMORY_RECALL_TEMPLATE_ID; STD_PROMPT_STEER_TEMPLATE_ID; STD_PROMPT_DYNAMIC_INSTRUCTIONS_TEMPLATE_ID;
     STD_PERMISSION_APPROVAL_GATE_TEMPLATE_ID; STD_PERMISSION_TOOL_GATE_TEMPLATE_ID; STD_SCHEDULE_CRON_TEMPLATE_ID;
     STD_SUPERVISOR_SPAWN_TEMPLATE_ID; STD_SUPERVISOR_CHILD_COMPLETION_TEMPLATE_ID; STD_RETRY_WITH_BUDGET_TEMPLATE_ID;
     STD_FAILURE_DEADLETTER_TEMPLATE_ID].

(** * The catalog of coupling templates

    Models [verlet-kernel/src/agent/coupling_templates.rs]: each template of the
    standard couplings with what triggers it, what it reads and where it writes. *)

Local Close Scope verlet_scope.
Local Open Scope string_scope.
Local Open Scope list_scope.

Definition COUPLING_TEMPLATE_CATALOG_SCHEMA_V1 : string := "cooldis.coupling.template_catalog/1".

Inductive CouplingTemplateMaturity := KernelBacked | InterfaceOnly | ReferenceOnly.

Record CouplingTemplateStreamPattern := { pattern_stream : string; pattern_kinds : list EventKind }.

Record CouplingTemplateV1 := {
  template_id : string;
  maturity : CouplingTemplateMaturity;
  template_role : CouplingRole;
  runtime_executable : bool;
  trigger_kinds : list EventKind;
  template_source : CouplingTemplateStreamPattern;
  template_sink : CouplingTemplateStreamPattern;
  must_have : bool;
  channel_decision_required : bool;
  template_summary : string;
}.

Record CouplingTemplateCatalogV1 := { catalog_schema : string; templates : list CouplingTemplateV1 }.

(** [coupling_template_runtime_executable]. *)
Definition coupling_template_runtime_executable (id : string) : bool :=
  existsb (String.eqb id)
    ["std::queue.task"; "std::queue.completion_callback"; "std::context.spill"; "std::context.truncate";
     "std::context.summarize"; "std::memory.extract"; "std::memory.recall";
     "std::permission.approval_gate"; "std::prompt.steer"; "std::permission.tool_gate";
     "std::prompt.dynamic_instructions"; "std::schedule.cron"; "std::supervisor.spawn";
     "std::supervisor.child_completion"; "std::retry.with_budget"; "std::failure.deadletter"].

Definition template (id : string) (m : CouplingTemplateMaturity) (r : CouplingRole) (triggers : list EventKind)
    (source_stream : string) (source_kinds : list EventKind) (sink_stream : string) (sink_kinds : list EventKind)
    (must channel : bool) (summary : string) : CouplingTemplateV1 := {|
  template_id := id; maturity := m; template_role := r;
  runtime_executable := coupling_template_runtime_executable id; trigger_kinds := triggers;
  template_source := {| pattern_stream := source_stream; pattern_kinds := source_kinds |};
  template_sink := {| pattern_stream := sink_stream; pattern_kinds := sink_kinds |};
  must_have := must; channel_decision_required := channel; template_summary := summary;
|}.

Definition catalog_templates : list CouplingTemplateV1 :=
  [template "std::queue.task" ReferenceOnly Controller [TurnSubmitted]
     "thread" [TurnSubmitted] "control"
     [TurnWaiting; CouplingRunCompleted] true false
     "Turn an event into durable queued work with a later completion fact.";
   template "std::queue.completion_callback" ReferenceOnly Controller [CouplingRunCompleted; ToolCallCompleted]
     "control" [CouplingRunCompleted] "control"
     [TurnContinueRequested; LoopCompleted] true false
     "React to completed queued work by continuing, notifying, or closing the loop.";
   template "std::context.spill" ReferenceOnly Projection [ContextCompileCompleted]
     "thread" [ContextCompileCompleted] "derived:context"
     [ContextSummaryCompleted; ContextReadPlanSet] true false
     "Project over-budget context into durable context facts for later assembly.";
   template "std::context.truncate" KernelBacked Controller [ContextCompileCompleted]
     "thread" [ContextCompileCompleted] "control"
     [ContextReadPlanSet] false false
     "Select a bounded read plan when the context budget requires dropping raw ranges.";
   template "std::context.summarize" KernelBacked Projection [ContextCompileCompleted; TurnCompleted]
     "thread" [SessionEntryAppended; TurnCompleted] "derived:context"
     [ContextSummaryCompleted; ContextReadPlanSet] false false
     "Discharge a summary checkpoint plus a read plan over a witnessed source range.";
   template "std::memory.extract" ReferenceOnly Projection [TurnCompleted; ToolCallCompleted]
     "thread" [TurnCompleted; ToolCallCompleted] "derived:memory"
     [ContextSummaryCompleted] false false
     "Extract durable memory facts from completed turns or tool results.";
   template "std::memory.recall" ReferenceOnly Projection [TurnSubmitted; ContextCompileCompleted]
     "derived:memory" [ContextSummaryCompleted] "derived:context"
     [ContextReadPlanSet] false false
     "Select memory facts for future context assembly without making memory a primitive.";
   template "std::permission.approval_gate" ReferenceOnly Controller [ToolCallRequested]
     "thread" [ToolCallRequested] "control"
     [ApprovalRequested; ToolCallSuspended] false false
     "Suspend a tool call behind an abstract approval fact; channel-specific HITL delivery remains deferred.";
   template "std::permission.tool_gate" KernelBacked Controller [ToolCallRequested]
     "thread" [ToolCallRequested] "control"
     [EventKind.ToolCallDecision; ToolCallSuspended] false false
     "Allow, deny, or suspend tool calls through durable control-stream facts.";
   template "std::prompt.steer" ReferenceOnly Controller [TurnCompleted; ApprovalResolved]
     "thread" [TurnCompleted] "control"
     [TurnContinueRequested; ContextReadPlanSet] false false
     "Steer future turns by writing witnessed control facts instead of hidden prompt hooks.";
   template "std::prompt.dynamic_instructions" ReferenceOnly Projection [ManifestBindCompleted; ContextCompileCompleted]
     "thread" [ManifestBindCompleted; ContextCompileCompleted] "derived:context"
     [ContextReadPlanSet] false false
     "Select versioned instruction material for future context assembly.";
   template "std::io.channel_ingress" ReferenceOnly Controller [TurnSubmitted]
     "thread" [TurnSubmitted] "control"
     [TurnWaiting; TurnContinueRequested] false true
     "Map channel ingress into durable turn/control facts with channel authority outside the kernel.";
   template "std::io.channel_egress" ReferenceOnly Controller [TurnCompleted; LoopCompleted]
     "thread" [TurnCompleted] "control"
     [CouplingRunCompleted; CouplingRunFailed] false true
     "Emit channel egress as a durable operation/coupling result rather than a hidden callback.";
   template "std::schedule.cron" ReferenceOnly Controller [TimerFired]
     "control" [MandateStarted; MandateRevoked; TimerFired] "control"
     [TurnContinueRequested; LoopBudgetExhausted] false false
     "Turn witnessed timer firings for a standing mandate into bounded future turn requests.";
   template "std::supervisor.spawn" KernelBacked Controller [TurnSubmitted; ToolCallRequested]
     "thread" [TurnSubmitted; ToolCallRequested] "control"
     [ThreadSpawnRequested; TurnWaiting; CouplingRunCompleted] false false
     "Spawn supervised child work through the thread/turn kernel package.";
   template "std::supervisor.child_completion" KernelBacked Controller [TurnCompleted; CouplingRunCompleted]
     "thread" [TurnCompleted] "control"
     [TurnContinueRequested; LoopCompleted] false false
     "Join child thread completion back into a parent continuation or terminal fact.";
   template "std::retry.with_budget" ReferenceOnly Controller [CouplingRunFailed; ToolCallCompleted]
     "control" [CouplingRunFailed] "control"
     [TurnContinueRequested; LoopBudgetExhausted] false false
     "Retry only from typed failure facts and explicit budget, never from blanket replay.";
   template "std::failure.deadletter" ReferenceOnly Projection [CouplingRunFailed; LoopBlocked]
     "control" [CouplingRunFailed; LoopBlocked] "derived:deadletter"
     [CouplingRunFailed] false false
     "Project exhausted or blocked work into a durable deadletter stream for inspection."].

Definition coupling_template_catalog_v1 : CouplingTemplateCatalogV1 :=
  {| catalog_schema := COUPLING_TEMPLATE_CATALOG_SCHEMA_V1; templates := catalog_templates |}.

Definition coupling_template_ids_v1 : list string :=
  ["std::queue.task"; "std::queue.completion_callback"; "std::context.spill"; "std::context.truncate";
     "std::context.summarize"; "std::memory.extract"; "std::memory.recall";
     "std::permission.approval_gate"; "std::permission.tool_gate"; "std::prompt.steer";
     "std::prompt.dynamic_instructions"; "std::io.channel_ingress"; "std::io.channel_egress";
     "std::schedule.cron"; "std::supervisor.spawn"; "std::supervisor.child_completion";
     "std::retry.with_budget"; "std::failure.deadletter"].

(** The template of an id. *)
Definition catalog_template (id : string) : option CouplingTemplateV1 :=
  List.find (fun t => String.eqb id (template_id t)) (templates coupling_template_catalog_v1).
