(* ===== verification/StdlibFacts.v ===== *)
(** * What the standard couplings promise

    A coupling bound as the catalog says discharges within its sink, and what it
    discharges conforms to the frozen schemas; a gate's decision is the one the
    agent loop acts on; schedules and retries stay within their budgets; and the
    memories a model is given are the texts that were extracted. *)

From stdpp Require Import base gmap sets list strings pretty.
From Stdlib Require Import NArith ZArith Lia.
From S2P Require Import SchemaFacts Prelude Json Schema EventKind EventSchemas Contracts Records Store EventLog Control ControlFacts Clock.
From S2P Require Import Coupling ReadPlan ReadPlanFacts Stdlib.

Local Open Scope verlet_scope.
Local Open Scope string_scope.
Local Open Scope list_scope.

(** ** Runs of the functions *)

Lemma result_bind_ok {A B E} (r : result A E) (k : A -> result B E) b :
  result_bind r k = Ok b -> exists a, r = Ok a /\ k a = Ok b.
Proof. destruct r as [a|e]; [by exists a|done]. Qed.

(** Takes the successful run of a function apart. *)
Ltac exec_step :=
  lazymatch goal with
  | H : result_bind _ _ = Ok _ |- _ => apply result_bind_ok in H as (? & ? & H)
  | H : (if ?b then _ else _) = Ok _ |- _ => destruct b eqn:?
  | H : match ?x with _ => _ end = Ok _ |- _ => destruct x eqn:?
  | H : Ok _ = Ok _ |- _ => injection H as <-
  | H : Err _ = Ok _ |- _ => discriminate H
  end; cbv beta zeta in *.
Ltac exec_inv := repeat exec_step.

Section Functions.
Context `{UuidText} `{Sha256} `{ControlCodec} `{TimerCodec} `{StdlibCodec}.

(** ** Sinks *)

(** The discharges of a function stay on a stream and within kinds. *)
Definition within (stream : string) (kinds : list EventKind) (ds : list CouplingDischarge) : Prop :=
  length ds <= 2 /\ Forall (fun d => discharge_stream d = stream /\ discharge_kind d ∈ kinds) ds.

Lemma within_checked {X} `{CouplingExecutor X} c ds :
  within (sink_stream (sink c)) (sink_kinds (sink c)) ds -> for_each (check_discharge c) ds = Ok tt.
Proof.
  intros [_ Hds]. induction Hds as [|d ds [Hs Hk] _ IH]; [done|]. cbn [for_each]. unfold check_discharge at 1.
  rewrite Hs, String.eqb_refl. cbn [negb].
  assert (existsb (fun k => bool_decide (k = discharge_kind d)) (sink_kinds (sink c)) = true) as ->; [|done].
  apply existsb_exists. exists (discharge_kind d). split; [by apply list_elem_of_In|by apply bool_decide_eq_true].
Qed.

(** Unfolds the functions in a hypothesis. *)
Ltac unfold_functions H :=
  unfold invoke_queue_task, invoke_queue_completion_callback, watched_completion, invoke_context_spill,
    invoke_context_truncate, invoke_context_summarize, invoke_memory_extract, invoke_memory_recall,
    invoke_prompt_steer, invoke_prompt_steer_continuation, invoke_prompt_steer_read_plan,
    invoke_prompt_dynamic_instructions, invoke_permission_approval_gate, invoke_permission_tool_gate,
    permission_tool_decision_result, invoke_schedule_cron, invoke_schedule_cron_timer_fired,
    schedule_budget_exhausted_discharge, invoke_supervisor_spawn, invoke_supervisor_child_completion,
    invoke_retry_with_budget, retry_budget_exhausted_discharge, invoke_failure_deadletter in H.

(** Goes over the discharges one by one. *)
Ltac each_discharge tac :=
  repeat (apply List.Forall_cons; [tac|]); apply List.Forall_nil.

(** What each function keeps within; that of dynamic instructions needs a kind the catalog does
    not give it. *)
Definition template_kinds (t : CouplingTemplateV1) : list EventKind :=
  (if String.eqb (template_id t) STD_PROMPT_DYNAMIC_INSTRUCTIONS_TEMPLATE_ID then [ContextSummaryCompleted] else []) ++
  pattern_kinds (template_sink t).

Lemma functions_within :
  Forall (fun f : string * (EventRecordId -> CouplingInvocation -> ExecResult) =>
    exists t, catalog_template f.1 = Some t /\
      forall fresh request ds, f.2 fresh request = Ok ds ->
        within (pattern_stream (template_sink t)) (template_kinds t) ds) stdlib_functions.
Proof.
  unfold stdlib_functions.
  repeat (apply List.Forall_cons; [eexists; split; [vm_compute; reflexivity|cbn [snd]]|]); [..|apply List.Forall_nil].
  all: intros fresh request ds Hrun; unfold_functions Hrun; exec_inv; (split; [cbn [length]; lia|]).
  all: each_discharge ltac:(split; [reflexivity|cbn [discharge_kind discharge]; vm_compute; set_solver]).
Qed.

(** ** Payloads *)

Definition registered (k : EventKind) : bool := negb (is_none (obj_get (payload_schema_id k) (schemas REGISTRY))).

Definition well_formed (d : CouplingDischarge) : Prop :=
  registered (discharge_kind d) = true ->
  validate_context_payload_schema_v1 (discharge_kind d) (discharge_payload d) = Ok tt.

Lemma checkpoint_entry_conforms role stream id : conforms entry_schema (checkpoint_entry role stream id).
Proof. unfold checkpoint_entry, entry_schema. conform. Qed.

Lemma truncate_entries_conform ranges retain reason :
  Forall (conforms entry_schema) (truncate_read_plan_entries ranges retain reason).
Proof.
  unfold truncate_read_plan_entries. induction ranges as [|r ranges IH]; [constructor|]. cbn [mbind list_bind].
  apply Forall_app. split; [|done]. unfold truncate_range. repeat case_match; cbn [app]; each_discharge ltac:(unfold entry_schema; conform).
Qed.

Lemma mapped_entries_conform {A} (f : A -> json) l :
  (forall a, conforms entry_schema (f a)) -> Forall (conforms entry_schema) (map f l).
Proof. intros Hf. induction l; constructor; [apply Hf|done]. Qed.

(** What a schema that allows any field asks of one. *)
Definition field_conforms (schema : list (string * json)) (field : string * json) : Prop :=
  match obj_get field.1 (props_of schema) with
  | Some s => conforms s field.2
  | None => True
  end.

Lemma conforms_open schema fields :
  obj_get "enum" schema = None -> obj_get "type" schema = Some (JString "object") ->
  NoDup (props_of schema).*1 -> obj_get "additionalProperties" schema = Some (JBool true) ->
  Forall (fun p => match p with JString p => p ∈ fields.*1 | _ => True end) (required_of schema) ->
  Forall (field_conforms schema) fields -> conforms (JObject schema) (jobj fields).
Proof.
  intros He Ht Hnd Ha Hr Hf. apply conforms_built; try done.
  - eapply Forall_impl; [exact Hr|]. intros [| | |p| |]; try done. intros Hp.
    destruct (obj_get p (rev fields)) eqn:Hn; [done|]. apply obj_get_none in Hn. destruct Hn.
    apply list_elem_of_fmap in Hp as (x & -> & Hx). apply list_elem_of_fmap. exists x. split; [done|].
    apply list_elem_of_In, in_rev. rewrite rev_involutive. by apply list_elem_of_In.
  - eapply Forall_impl; [exact Hf|]. intros field. unfold field_conforms. by destruct (obj_get field.1 (props_of schema)).
Qed.

(** Splits the field list of a payload into its parts and goes over those that are known. *)
Ltac open_fields :=
  lazymatch goal with |- conforms ?s _ => let r := eval vm_compute in s in change s with r end;
  apply conforms_open;
  [vm_compute; reflexivity|vm_compute; reflexivity|refine (bool_decide_eq_true_1 _ _); vm_compute; reflexivity
  |vm_compute; reflexivity| |].
Ltac requires tac :=
  lazymatch goal with |- Forall _ ?l => let r := eval vm_compute in l in change l with r end;
  repeat (apply List.Forall_cons; [tac; cbn [fmap list_fmap fst]; try set_solver|]); apply List.Forall_nil.
Ltac field_ok :=
  unfold field_conforms; conform_field; try exact I; conform.
Ltac fields_ok := repeat (apply List.Forall_cons; [field_ok|]); try apply List.Forall_nil.

Lemma summary_conforms text ranges extra :
  Forall (field_conforms (default [] (as_object context_summary_completed_payload_schema_v1))) extra ->
  conforms context_summary_completed_payload_schema_v1 (jobj (summary_fields text ranges ++ extra)).
Proof.
  intros Hx. open_fields.
  - rewrite fmap_app. requires ltac:(apply elem_of_app; left).
  - apply Forall_app. split; [|exact Hx]. fields_ok.
    eapply source_ranges_conform; [vm_compute; reflexivity..|]. intros range. unfold source_range_json. conform.
Qed.

Lemma plan_conforms name pipeline source rest :
  "read_plan" ∈ rest.*1 ->
  Forall (field_conforms (default [] (as_object context_read_plan_set_payload_schema_v1))) rest ->
  conforms context_read_plan_set_payload_schema_v1 (jobj (plan_fields name pipeline source ++ rest)).
Proof.
  intros Hin Hx. open_fields.
  - rewrite fmap_app. requires ltac:(apply elem_of_app; first [by right | left]).
  - apply Forall_app. split; [fields_ok|exact Hx].
Qed.

Lemma conforms_boolean schema b :
  obj_get "enum" schema = None -> obj_get "type" schema = Some (JString "boolean") ->
  conforms (JObject schema) (JBool b).
Proof.
  intros He Ht. apply conforms_scalar; [unfold enum_admits; by rewrite He| |done|done].
  exists "boolean". unfold types_of. rewrite Ht. split; [by left|done].
Qed.

Lemma recall_conforms request config source memories :
  conforms context_read_plan_set_payload_schema_v1 (recall_payload request config source memories).
Proof.
  unfold recall_payload, trigger_fields. cbn [app]. apply plan_conforms; [cbn [fmap list_fmap fst]; set_solver|].
  fields_ok. refine (read_plan_conforms _ _ _ _). apply mapped_entries_conform. intros e. apply checkpoint_entry_conforms.
Qed.

Lemma spawn_conforms request config parent agent submission correlation :
  conforms thread_spawn_requested_payload_schema_v1 (spawn_payload request config parent agent submission correlation).
Proof.
  unfold spawn_payload, spawn_requested_fields, trigger_fields, template_fields, opt_field.
  destruct parent; cbn [app]; (open_fields; [requires ltac:(idtac)|]); fields_ok; by apply conforms_boolean.
Qed.

(** A summary, a plan or a request for a child conforms; the other kinds have no frozen schema. *)
Ltac registered_payload schema :=
  apply (registry_decides _ schema); [vm_compute; reflexivity..|].
Ltac discharge_ok :=
  let Hreg := fresh "Hreg" in
  intros Hreg; cbn [discharge_kind discharge discharge_payload] in Hreg |- *;
  lazymatch goal with
  | |- validate_context_payload_schema_v1 ContextSummaryCompleted _ = _ =>
      registered_payload context_summary_completed_payload_schema_v1;
      apply summary_conforms; unfold trigger_fields; cbn [app]; fields_ok
  | |- validate_context_payload_schema_v1 ContextReadPlanSet (recall_payload _ _ _ _) = _ =>
      registered_payload context_read_plan_set_payload_schema_v1; apply recall_conforms
  | |- validate_context_payload_schema_v1 ContextReadPlanSet _ = _ =>
      registered_payload context_read_plan_set_payload_schema_v1;
      apply plan_conforms; unfold trigger_fields; cbn [app];
      [cbn [fmap list_fmap fst]; set_solver|fields_ok; refine (read_plan_conforms _ _ _ _)];
      first [apply summary_checkpoint_entries_conform | apply truncate_entries_conform
            | repeat (apply List.Forall_cons; [apply checkpoint_entry_conforms|]); apply List.Forall_nil]
  | |- validate_context_payload_schema_v1 ThreadSpawnRequested _ = _ =>
      registered_payload thread_spawn_requested_payload_schema_v1; apply spawn_conforms
  | |- _ => exfalso; vm_compute in Hreg; discriminate Hreg
  end.

Lemma functions_well_formed :
  Forall (fun f : string * (EventRecordId -> CouplingInvocation -> ExecResult) =>
    forall fresh request ds, f.2 fresh request = Ok ds -> Forall well_formed ds) stdlib_functions.
Proof.
  unfold stdlib_functions.
  repeat (apply List.Forall_cons; [cbn [snd]|]); [..|apply List.Forall_nil].
  all: intros fresh request ds Hrun; unfold_functions Hrun; exec_inv.
  all: each_discharge discharge_ok.
Qed.

(** ** The executor *)

Lemma stdlib_invoke_ok fresh request ds :
  stdlib_invoke fresh request = Ok ds ->
  exists f, f ∈ stdlib_functions /\ f.1 = coupling_id (invoked_coupling request) /\ f.2 fresh request = Ok ds.
Proof.
  unfold stdlib_invoke. destruct (List.find _ _) as [f|] eqn:Hf; [|done]. intros Hrun.
  apply find_some in Hf as [Hin Heq%String.eqb_eq]. exists f. split; [by apply list_elem_of_In|done].
Qed.

(** Dynamic instructions discharge a summary before their plan. *)
Lemma dynamic_instructions_summarize fresh request ds :
  invoke_prompt_dynamic_instructions fresh request = Ok ds ->
  exists d rest, ds = d :: rest /\ discharge_stream d = "derived:context" /\ discharge_kind d = ContextSummaryCompleted.
Proof. intros Hrun. unfold invoke_prompt_dynamic_instructions in Hrun. exec_inv. by eexists _, _. Qed.

Definition bound_to_catalog (c : BoundCoupling) (t : CouplingTemplateV1) : Prop :=
  catalog_template (coupling_id c) = Some t /\
  sink_stream (sink c) = pattern_stream (template_sink t) /\ sink_kinds (sink c) = pattern_kinds (template_sink t).

(** A coupling that is bound to the sink its template has in the catalog never leaves it: the
    scheduler accepts what its function discharges, at most two events, whatever the configuration
    and the trigger.  The exception is the template of dynamic instructions: whatever it discharges
    is refused, for the summary that is not among the kinds of its sink. *)
Theorem stdlib_stays_in_sink {X} `{CouplingExecutor X} fresh request ds t remaining :
  bound_to_catalog (invoked_coupling request) t -> stdlib_invoke fresh request = Ok ds ->
  max_discharge_events (budget (invoked_coupling request)) = None -> (2 <= remaining)%N ->
  validate_discharges (invoked_coupling request) ds remaining =
  if String.eqb (template_id t) STD_PROMPT_DYNAMIC_INSTRUCTIONS_TEMPLATE_ID
  then Err (SinkKindViolation (coupling_id (invoked_coupling request)) ContextSummaryCompleted) else Ok tt.
Proof.
  intros (Ht & Hstream & Hkinds) Hrun Hbudget Hrem.
  apply stdlib_invoke_ok in Hrun as (f & Hf & Hid & Hrun).
  pose proof functions_within as Hw. rewrite Forall_forall in Hw.
  destruct (Hw _ Hf) as (t' & Ht' & Hw'). specialize (Hw' _ _ _ Hrun).
  rewrite <- Hid, Ht' in Ht. injection Ht as ->.
  unfold validate_discharges. rewrite Hbudget.
  assert ((remaining <? N.of_nat (length ds))%N = false) as -> by (destruct Hw'; apply N.ltb_ge; lia).
  destruct (String.eqb (template_id t) _) eqn:Hdyn.
  - apply String.eqb_eq in Hdyn.
    assert (f = (STD_PROMPT_DYNAMIC_INSTRUCTIONS_TEMPLATE_ID, invoke_prompt_dynamic_instructions)) as ->.
    { unfold catalog_template in Ht'. apply find_some in Ht' as [_ Heq%String.eqb_eq]. rewrite Hdyn in Heq.
      unfold stdlib_functions in Hf. rewrite !elem_of_cons in Hf. destruct_or!; first [by apply elem_of_nil in Hf|subst f];
        first [reflexivity|discriminate Heq]. }
    cbn [snd] in Hrun. apply dynamic_instructions_summarize in Hrun as (d & rest & -> & Hs & Hk).
    cbn [for_each]. unfold check_discharge at 1. rewrite Hs, Hk, Hstream, Hkinds.
    vm_compute in Ht'. injection Ht' as <-. reflexivity.
  - apply within_checked. unfold template_kinds in Hw'. rewrite Hdyn in Hw'. by rewrite Hstream, Hkinds.
Qed.

(** C30 - Whatever a template is configured with and triggered by, each event its function discharges
    of a kind with a frozen schema conforms to that schema. *)
Theorem stdlib_payloads_conform fresh request ds :
  stdlib_invoke fresh request = Ok ds ->
  Forall (fun d => registered (discharge_kind d) = true ->
    validate_context_payload_schema_v1 (discharge_kind d) (discharge_payload d) = Ok tt) ds.
Proof.
  intros (f & Hf & _ & Hrun)%stdlib_invoke_ok. pose proof functions_well_formed as Hw. rewrite Forall_forall in Hw.
  exact (Hw _ Hf _ _ _ Hrun).
Qed.
End Functions.

(** ** The catalog *)

Lemma existsb_perm (id : string) l l' : l ≡ₚ l' -> existsb (String.eqb id) l = existsb (String.eqb id) l'.
Proof.
  intros Hp. apply eq_true_iff_eq. rewrite !existsb_exists. setoid_rewrite <- list_elem_of_In. by setoid_rewrite Hp.
Qed.

(** The catalog and the executor agree: the catalog lists its ids in the order of
    [coupling_template_ids_v1] and none twice; an id is marked as executable exactly when the executor
    says it supports it, and exactly when there is a function for it. *)
Theorem catalog_agrees_with_executor `{UuidText} `{Sha256} `{ControlCodec} `{TimerCodec} `{StdlibCodec} :
  map template_id (templates coupling_template_catalog_v1) = coupling_template_ids_v1 /\
  NoDup coupling_template_ids_v1 /\
  (forall id, supports_template id = coupling_template_runtime_executable id) /\
  (forall id, supports_template id = existsb (String.eqb id) (map fst stdlib_functions)) /\
  (forall id, supports_template id = false -> catalog_template id = None \/
     id = "std::io.channel_ingress" \/ id = "std::io.channel_egress").
Proof.
  split_and!.
  - reflexivity.
  - refine (bool_decide_eq_true_1 _ _). vm_compute. reflexivity.
  - intros id. apply existsb_perm. refine (bool_decide_eq_true_1 _ _). vm_compute. reflexivity.
  - intros id. reflexivity.
  - intros id Hs. destruct (catalog_template id) as [t|] eqn:Ht; [right|by left].
    unfold catalog_template in Ht. apply find_some in Ht as [Hin Heq%String.eqb_eq]. rewrite Heq in Hs |- *. clear Heq.
    assert (forallb (fun t => supports_template (template_id t) || String.eqb (template_id t) "std::io.channel_ingress" ||
      String.eqb (template_id t) "std::io.channel_egress") (templates coupling_template_catalog_v1) = true) as Hall
      by (vm_compute; reflexivity).
    pose proof (proj1 (forallb_forall _ _) Hall _ Hin) as Hor. cbv beta in Hor. rewrite Hs in Hor.
    by apply orb_true_iff in Hor as [Heq%String.eqb_eq|Heq%String.eqb_eq]; [left|right].
Qed.

(** * What becomes of the standard couplings' discharges

    The agent loop acts on a gate's decision as it was configured; a model is
    given the texts of the memories that were extracted; schedules and retries
    keep to their budgets. *)

(** A field of an object that is built from a list in which its key stands once. *)
Ltac built_field := unfold value_get, jobj; rewrite obj_get_of; reflexivity.

(** ** Permissions *)

(** [serde]'s derived decoders read the fields they know and no others. *)
Class ToolCodecLaws `{ControlCodec} := {
  decision_decodes v p :
    value_get "subject" v = Some (tool_subject_json (decision_subject p)) ->
    value_get "snapshot_id" v = Some (JString (decision_snapshot_id p)) ->
    value_get "outcome" v = Some (outcome_json (outcome p)) ->
    value_get "admissible" v = None -> decision_admissible p = None -> decode_tool_decision v = Ok p;
  suspension_decodes v p :
    value_get "subject" v = Some (tool_subject_json (suspended_subject p)) ->
    value_get "snapshot_id" v = Some (JString (suspended_snapshot_id p)) ->
    value_get "approval_id" v = JString <$> suspended_approval_id p ->
    value_get "reason" v = JString <$> suspended_reason p -> decode_tool_suspended v = Ok p;
}.

Section Gates.
Context `{UuidText} `{Sha256} `{ControlCodec} `{TimerCodec} `{StdlibCodec} `{!ToolCodecLaws} {S : Type} `{EventStoreLaws S}.

(** One fact about a request, and no other, decides it. *)
Lemma decided_by_fact (s : S) treq before fact after d :
  log_valid s -> log_events s (control_stream_id (tool_coordinates treq)) = before ++ fact :: after ->
  (forall e, e ∈ before ++ after ->
     malformed_fact treq e = None /\ terminal_fact treq e = None /\ wait_fact treq e = None) ->
  malformed_fact treq fact = None ->
  terminal_fact treq fact = Some d \/ terminal_fact treq fact = None /\ wait_fact treq fact = Some d ->
  decide_tool_call s treq = Ok d.
Proof.
  intros Hv Hlog Hno Hm Hd. rewrite decide_tool_call_facts by done. rewrite Hlog. f_equal.
  assert (forall f : ToolDecisionRequest -> EventRecord -> option ToolCallDecision,
    (forall e, e ∈ before ++ after -> f treq e = None) ->
    omap (f treq) (before ++ fact :: after) = match f treq fact with Some d => [d] | None => [] end) as Hone.
  { intros f Hf. assert (forall l, (forall e, e ∈ l -> f treq e = None) -> omap (f treq) l = []) as Hnil.
    { induction l as [|e l IH]; intros Hl; [done|]. csimpl. rewrite (Hl e) by left. apply IH. set_solver. }
    rewrite omap_app, Hnil by (intros e He; apply Hf; set_solver). csimpl.
    rewrite Hnil by (intros e He; apply Hf; set_solver). by destruct (f treq fact). }
  rewrite !Hone by (intros e He; apply (Hno e He)). rewrite Hm.
  destruct Hd as [-> | [-> ->]]; [|done]. by destruct (wait_fact treq fact).
Qed.

(** The event the scheduler makes of a discharge of a request. *)
Definition discharged_as (request : CouplingInvocation) (d : CouplingDischarge) (e : EventRecord) : Prop :=
  kind e = discharge_kind d /\ payload e = discharge_payload d /\ origin e = Discharged /\
  provenance e = event_provenance (invoked_activation request) (invoked_coupling request)
    (invoked_source_cut request) (invoked_source_events request).

(** The trigger is read back as a source, or nothing is. *)
Definition trigger_sourced (request : CouplingInvocation) : Prop :=
  invoked_trigger_event request ∈ invoked_source_events request \/
  invoked_source_events request = [] /\
  trigger_event_id (invoked_activation request) = event_id (invoked_trigger_event request).

Lemma discharged_reaches request d e :
  discharged_as request d e -> trigger_sourced request ->
  provenance_reaches_event e (event_id (invoked_trigger_event request)) = true.
Proof.
  intros (_ & _ & _ & Hp) Hs. unfold provenance_reaches_event. apply bool_decide_eq_true. rewrite Hp.
  unfold event_provenance. cbn [source_event_ids]. destruct Hs as [Hin | [-> ->]]; [|by left].
  assert (event_id (invoked_trigger_event request) ∈ map event_id (invoked_source_events request)) as Hm
    by (apply list_elem_of_In, in_map, list_elem_of_In, Hin).
  destruct (invoked_source_events request); [by apply elem_of_nil in Hin|exact Hm].
Qed.

(** What a gate is configured to answer. *)
Definition gate_verdict (config : PermissionToolGateConfig) (id : EventRecordId) : option ToolCallDecision :=
  match gate_decision config with
  | GateAllow => Some (Allow id)
  | GateRewrite => Rewrite id <$> gate_arguments config
  | GateDeny => Some (Deny (Some id) (default "denied by std::permission.tool_gate" (gate_reason config)) false)
  | GateWait =>
      Some (Wait id (gate_approval_id config) (Some (default "waiting on std::permission.tool_gate" (gate_reason config))))
  end.

(** The question the agent loop asks about the call that triggered the gate. *)
Definition gate_question (request : CouplingInvocation) (requested : ToolCallRequestedPayload) : ToolDecisionRequest :=
  mk_tool_request (coordinates (invoked_trigger_event request)) (requested_subject requested)
    (request_snapshot request) (event_id (invoked_trigger_event request)).

Lemma decision_fact request requested o reason e :
  discharged_as request (discharge None "control" EventKind.ToolCallDecision
     (jobj ([("subject", tool_subject_json (requested_subject requested));
             ("snapshot_id", JString (request_snapshot request)); ("outcome", outcome_json o);
             ("schema", JString (payload_schema_id EventKind.ToolCallDecision));
             ("template_id", JString STD_PERMISSION_TOOL_GATE_TEMPLATE_ID);
             ("tool_name", JString (requested_tool_name requested));
             ("request_event_id", JString (trigger_id_text request))] ++
            insert_optional_string "reason" reason))) e ->
  trigger_sourced request ->
  malformed_fact (gate_question request requested) e = None /\
  terminal_fact (gate_question request requested) e =
    Some (tool_decision_from_payload (event_id e) (mk_tool_decision (requested_subject requested) (request_snapshot request) o None)).
Proof.
  intros Hd Hs. pose proof (discharged_reaches _ _ _ Hd Hs) as Hr. destruct Hd as (Hk & Hp & Ho & _).
  cbn [discharge_kind discharge_payload discharge] in Hk, Hp.
  assert (decode_tool_decision (payload e) =
    Ok (mk_tool_decision (requested_subject requested) (request_snapshot request) o None)) as Hdec.
  { rewrite Hp. unfold insert_optional_string, opt_field. apply decision_decodes; try done; destruct reason; built_field. }
  unfold malformed_fact, terminal_fact, gate_question, fresh_control_event.
  cbn [tool_subject tool_snapshot_id tool_request_event_id]. rewrite Hr, Hk, Hdec, Ho.
  cbn [decision_subject decision_snapshot_id]. by rewrite bool_decide_eq_true_2, String.eqb_refl by done.
Qed.

Lemma wait_answer request requested approval reason fields e :
  discharged_as request (discharge None "control" ToolCallSuspended
     (suspended_json (requested_subject requested) (request_snapshot request) approval (Some reason) fields)) e ->
  forallb (fun f : string * json => negb (existsb (String.eqb f.1) ["subject"; "snapshot_id"; "approval_id"; "reason"])) fields = true ->
  trigger_sourced request ->
  malformed_fact (gate_question request requested) e = None /\
  terminal_fact (gate_question request requested) e = None /\
  wait_fact (gate_question request requested) e = Some (Wait (event_id e) approval (Some reason)).
Proof.
  intros Hd Hf Hs. pose proof (discharged_reaches _ _ _ Hd Hs) as Hr. destruct Hd as (Hk & Hp & Ho & _).
  cbn [discharge_kind discharge_payload discharge] in Hk, Hp.
  assert (decode_tool_suspended (payload e) =
    Ok (mk_tool_suspended (requested_subject requested) (request_snapshot request) approval (Some reason))) as Hdec.
  { rewrite Hp. assert (forall k, existsb (String.eqb k) ["subject"; "snapshot_id"; "approval_id"; "reason"] = true ->
      obj_get k (rev fields) = None) as Hno.
    { intros k Hk'. apply obj_get_none. intros (x & -> & Hx)%list_elem_of_fmap.
      apply list_elem_of_In, in_rev in Hx. pose proof (proj1 (forallb_forall _ _) Hf _ Hx) as Hn. cbv beta in Hn.
      by rewrite Hk' in Hn. }
    apply suspension_decodes; unfold value_get, suspended_json, jobj; rewrite obj_get_of, !rev_app_distr, <- !app_assoc, obj_get_app, Hno by reflexivity; destruct approval; reflexivity. }
  unfold malformed_fact, terminal_fact, wait_fact, gate_question, fresh_control_event.
  cbn [tool_subject tool_snapshot_id tool_request_event_id]. rewrite Hr, Hk, Hdec, Ho.
  cbn [suspended_subject suspended_snapshot_id]. by rewrite bool_decide_eq_true_2, String.eqb_refl by done.
Qed.

(** A tool call that a gate is asked about goes as the gate is configured: the one event it
    discharges, recorded by the scheduler with the request among its sources, is what the agent loop
    reads back as its decision: allow, rewrite with the configured arguments, deny with the reason
    or wait for the approval. *)
Theorem tool_gate_decides (s : S) fresh request config requested ds before fact after :
  coupling_id (invoked_coupling request) = STD_PERMISSION_TOOL_GATE_TEMPLATE_ID ->
  stdlib_invoke fresh request = Ok ds -> decode_tool_gate (Coupling.config (invoked_coupling request)) = Ok config ->
  decode_tool_requested (payload (invoked_trigger_event request)) = Ok requested ->
  trigger_sourced request -> Exists (fun d => discharged_as request d fact) ds ->
  log_valid s ->
  log_events s (control_stream_id (coordinates (invoked_trigger_event request))) = before ++ fact :: after ->
  (forall e, e ∈ before ++ after -> malformed_fact (gate_question request requested) e = None /\
     terminal_fact (gate_question request requested) e = None /\ wait_fact (gate_question request requested) e = None) ->
  Ok <$> gate_verdict config (event_id fact) = Some (decide_tool_call s (gate_question request requested)).
Proof.
  intros Hid Hrun Hconfig Hreq Hs Hfact Hv Hlog Hno.
  unfold stdlib_invoke in Hrun. rewrite Hid in Hrun. cbn -[invoke_permission_tool_gate] in Hrun.
  unfold invoke_permission_tool_gate, config_of, requested_tool_call in Hrun. rewrite Hconfig, Hreq in Hrun.
  cbn [map_err] in Hrun. apply result_bind_ok in Hrun as (_ & _ & Hrun). cbn [result_bind] in Hrun.
  unfold gate_verdict.
  destruct (gate_decision config); [| |cbv zeta in Hrun|];
    [|destruct (gate_arguments config) as [arguments|]; [cbn [ok_or result_bind] in Hrun|done]| |].
  all: injection Hrun as <-; apply Exists_cons in Hfact as [Hfact|Hfact]; [|by apply Exists_nil in Hfact].
  1-3: apply decision_fact in Hfact as [Hm Ht]; [|done]; cbn; f_equal; symmetry; eapply decided_by_fact; eauto.
  assert (or_else (gate_reason config) (Some "waiting on std::permission.tool_gate") =
    Some (default "waiting on std::permission.tool_gate" (gate_reason config))) as Heq by by destruct (gate_reason config).
  rewrite Heq in Hfact.
  apply wait_answer in Hfact as (Hm & Ht & Hw); [|done..]. cbn. f_equal. symmetry. eapply decided_by_fact; eauto.
Qed.
End Gates.

(** ** Blank texts *)

Lemma rev_app_app s t acc : String.rev_app (s +:+ t) acc = String.rev_app t (String.rev_app s acc).
Proof. revert acc. induction s as [|c s IH]; intros acc; [done|]. apply IH. Qed.

Lemma rev_app_empty s acc : String.rev_app s acc = "" -> acc = "".
Proof. revert acc. induction s as [|c s IH]; intros acc Hs; [done|]. by specialize (IH _ Hs). Qed.

(** A text from a letter to a full stop has something in it. *)
Lemma sentence_not_blank s : is_blank ("M" +:+ s +:+ ".") = false.
Proof.
  unfold is_blank, str_trim. apply String.eqb_neq. cbv zeta. set (m := "M" +:+ s +:+ ".").
  change (trim_chars (String.length m) WHITESPACE m) with m.
  assert (String.rev m = "." +:+ String.rev_app s "M") as ->.
  { subst m. unfold String.rev. rewrite !rev_app_app. reflexivity. }
  set (r := "." +:+ String.rev_app s "M").
  change (trim_chars (String.length m) (map String.rev WHITESPACE) r) with r.
  unfold String.rev, r. rewrite rev_app_app. intros Hr%rev_app_empty. discriminate Hr.
Qed.

Lemma payload_string_not_blank payload keys text : payload_string payload keys = Some text -> is_blank text = false.
Proof.
  induction keys as [|key keys IH]; [done|]. cbn [payload_string]. destruct (text_field key payload) as [t|]; [|done].
  destruct (is_blank t) eqn:Ht; [done|]. by intros [= <-].
Qed.

(** ** Memory *)

Section Memory.
Context `{UuidText} `{Sha256} `{ControlCodec} `{TimerCodec} `{StdlibCodec} {S : Type} `{EventStoreLaws S}.

(** Only a configured text can be blank. *)
Lemma memory_text_not_blank request config :
  match extract_text config with Some text => is_blank text = false | None => True end ->
  is_blank (memory_text request config) = false.
Proof.
  unfold memory_text. destruct (extract_text config) as [text|]; [done|]. intros _. cbn [or_else].
  destruct (memory_text_from_payload _) as [text|] eqn:Hp; [by eapply payload_string_not_blank|].
  cbn [default]. change ("Memory extracted from " +:+ trigger_kind_text request +:+ " " +:+ trigger_id_text request +:+ ".")
    with ("M" +:+ ("emory extracted from " +:+ trigger_kind_text request +:+ " " +:+ trigger_id_text request +:+ ".")).
  assert (forall a b c d : string, (a +:+ (b +:+ (c +:+ (d +:+ ".")))) = ((a +:+ (b +:+ (c +:+ d))) +:+ ".")) as Hassoc.
  { intros x y z t. by rewrite !string_app_assoc. }
  rewrite Hassoc. apply sentence_not_blank.
Qed.

(** The event is what an extraction discharged, with its text. *)
Definition extracted (e : EventRecord) (text : string) : Prop :=
  exists fresh request config ds,
    coupling_id (invoked_coupling request) = STD_MEMORY_EXTRACT_TEMPLATE_ID /\
    decode_extract (Coupling.config (invoked_coupling request)) = Ok config /\
    match extract_text config with Some text => is_blank text = false | None => True end /\
    stdlib_invoke fresh request = Ok ds /\ text = memory_text request config /\
    Exists (fun d => kind e = discharge_kind d /\ payload e = discharge_payload d) ds.

Lemma extracted_says (s : S) e text : e ∈ log_events s (stream_id e) -> extracted e text -> says s e text.
Proof.
  intros He (fresh & request & config & ds & Hid & Hconfig & Hb & Hrun & -> & Hd).
  unfold stdlib_invoke in Hrun. rewrite Hid in Hrun. cbn -[invoke_memory_extract] in Hrun.
  unfold invoke_memory_extract, config_of in Hrun. rewrite Hconfig in Hrun. cbn [map_err] in Hrun.
  apply result_bind_ok in Hrun as (_ & _ & Hrun). cbn [result_bind] in Hrun. cbv zeta in Hrun.
  injection Hrun as <-. apply Exists_cons in Hd as [[Hk Hp]|Hd]; [|by apply Exists_nil in Hd].
  cbn [discharge_kind discharge_payload discharge] in Hk, Hp. split_and!; [done|done| |by apply memory_text_not_blank].
  rewrite Hp, value_get_jobj. reflexivity.
Qed.

Lemma selected_memories_nodup config es :
  NoDup (map event_id es) -> NoDup (map event_id (selected_memories config es)).
Proof.
  intros Hnd. assert (forall f l, NoDup (map event_id l) -> NoDup (map event_id (List.filter f l))) as Hf.
  { intros f l. induction l as [|e l IH]; [done|]. cbn [map List.filter]. intros [Hn Hl]%NoDup_cons.
    destruct (f e); [|by apply IH]. cbn [map]. constructor; [|by apply IH].
    intros Hin. apply Hn. apply list_elem_of_In in Hin. apply list_elem_of_In. apply in_map_iff in Hin as (x & <- & Hx).
    apply filter_In in Hx as [Hx _]. by apply in_map. }
  unfold selected_memories. set (l := order_sources _).
  assert (NoDup (map event_id l)) as Hl.
  { subst l. assert (forall l, order_sources l ≡ₚ l) as Hperm.
    { intros l. unfold order_sources. by rewrite sort_by_key_perm, sort_by_z_perm, sort_by_key_perm. }
    rewrite (Permutation_map event_id (Hperm _)). by apply Hf, Hf. }
  case_match; [|done]. rewrite <- (take_drop (length l - N.to_nat (N.max (max_events config) 1)) l), map_app in Hl.
  by apply NoDup_app in Hl as (_ & _ & Hl).
Qed.

(** What is extracted is what is recalled: when the memories a recall selects, the last so many
    of the kind asked for, were discharged by extractions, and its plan is the last of its pipeline
    on the thread's context, the model is given exactly their texts, in order, in one block. *)
Theorem memory_roundtrip (s : S) c fresh request config ds plans plan rest ts :
  coupling_id (invoked_coupling request) = STD_MEMORY_RECALL_TEMPLATE_ID ->
  decode_recall (Coupling.config (invoked_coupling request)) = Ok config -> recall_pipeline_id config = None ->
  stdlib_invoke fresh request = Ok ds ->
  Exists (fun d => kind plan = discharge_kind d /\ payload plan = discharge_payload d) ds ->
  log_valid s -> log_events s (derived_context_stream c) = plans ++ plan :: rest ->
  List.filter is_recall_context_read_plan_event rest = [] ->
  NoDup (map event_id (invoked_source_events request)) ->
  Forall2 (fun e text => e ∈ log_events s (stream_id e) /\ extracted e text)
    (selected_memories config (invoked_source_events request)) ts ->
  build_recall_read_plan_contexts s c = Ok [render_recall_context ts].
Proof.
  intros Hid Hconfig Hpipe Hrun Hd Hv Hlog Hrest Hnd Hts.
  unfold stdlib_invoke in Hrun. rewrite Hid in Hrun. cbn -[invoke_memory_recall] in Hrun.
  unfold invoke_memory_recall, config_of in Hrun. rewrite Hconfig in Hrun. cbn [map_err] in Hrun.
  apply result_bind_ok in Hrun as (_ & _ & Hrun). cbn [result_bind] in Hrun.
  destruct (selected_memories config (invoked_source_events request)) as [|first memories] eqn:Hsel;
    [injection Hrun as <-; by apply Exists_nil in Hd|].
  injection Hrun as <-. apply Exists_cons in Hd as [[Hk Hp]|Hd]; [|by apply Exists_nil in Hd].
  cbn [discharge_kind discharge_payload discharge] in Hk, Hp.
  apply (contexts_of_references s c _ _ _ _ plans plan rest
    (default "memory.default" (recall_read_plan_name config)) (stream_id first) (first :: memories)); try done.
  - unfold is_recall_context_read_plan_event, is_thread_read_plan_event. rewrite Hk, Hp. unfold recall_payload.
    rewrite Hpipe, !value_get_jobj. reflexivity.
  - rewrite Hp. unfold recall_payload. rewrite value_get_jobj. reflexivity.
  - eapply Forall2_impl; [exact Hts|]. intros e text [He Hx]. by apply extracted_says.
  - rewrite <- Hsel. by apply selected_memories_nodup.
Qed.
End Memory.

(** ** Schedules and retries *)

Section Budgets.
Context `{UuidText} `{Sha256} `{ControlCodec} `{TimerCodec} `{StdlibCodec}.

(** Takes the run of the function of a template. *)
Ltac of_template Hid Hrun :=
  unfold stdlib_invoke in Hrun; rewrite Hid in Hrun;
  cbn -[invoke_schedule_cron invoke_retry_with_budget] in Hrun.

(** The occurrence a schedule may go on with. *)
Definition scheduled (request : CouplingInvocation) (config : ScheduleCronConfig) (timer : TimerFiredPayload)
    (mandate_event : EventRecord) (mandate : MandateStartedPayload) : Prop :=
  kind (invoked_trigger_event request) = TimerFired /\
  decode_timer_fired (payload (invoked_trigger_event request)) = Ok timer /\
  timer_mandate_event_id timer ∈ source_event_ids (provenance (invoked_trigger_event request)) /\
  mandate_event ∈ invoked_source_events request /\ event_id mandate_event = timer_mandate_event_id timer /\
  kind mandate_event = MandateStarted /\ decode_mandate_started (payload mandate_event) = Ok mandate /\
  scope_matches (mandate_scope config) (started_subject mandate) = true.

Lemma timer_fired_mandate_found request timer mandate_event mandate :
  timer_fired_mandate request timer = Ok (Some (mandate_event, mandate)) ->
  timer_mandate_event_id timer ∈ source_event_ids (provenance (invoked_trigger_event request)) /\
  mandate_event ∈ invoked_source_events request /\ event_id mandate_event = timer_mandate_event_id timer /\
  kind mandate_event = MandateStarted /\ decode_mandate_started (payload mandate_event) = Ok mandate.
Proof.
  unfold timer_fired_mandate. case_bool_decide as Hin; [|done]. destruct (List.find _ _) as [event|] eqn:Hf; [|done].
  apply find_some in Hf as [Hev Hb]. to_prop. intros Hok. apply result_bind_ok in Hok as (m & Hm & [= <- <-]).
  split_and!; try done; [by apply list_elem_of_In|]. by destruct (decode_mandate_started (payload event)); simplify_result.
Qed.

(** A schedule keeps to its budget: what it discharges is one event, that a turn is to be
    continued only while the occurrence is below the mandate's limit (or the configured one, when
    the mandate has none), and that the budget is exhausted only from then on; either only for a
    fired timer that names, as one of its sources, a mandate the function was given, within the
    configured scope. *)
Theorem schedule_keeps_budget fresh request ds d :
  coupling_id (invoked_coupling request) = STD_SCHEDULE_CRON_TEMPLATE_ID ->
  stdlib_invoke fresh request = Ok ds -> d ∈ ds ->
  exists config timer mandate_event mandate,
    decode_cron (Coupling.config (invoked_coupling request)) = Ok config /\ ds = [d] /\
    scheduled request config timer mandate_event mandate /\
    let limit := default (cron_max_occurrences config) (max_occurrences mandate) in
    (discharge_kind d = TurnContinueRequested /\ (timer_occurrence_index timer < limit)%Z /\
     exists template, or_else (input_template mandate) (cron_next_turn_input config) = Some template /\
       value_get "next_turn_input" (discharge_payload d) =
         Some (JString (render_schedule_input_template template (timer_scheduled_for timer)))) \/
    (discharge_kind d = LoopBudgetExhausted /\ (limit <= timer_occurrence_index timer)%Z).
Proof.
  intros Hid Hrun Hd. of_template Hid Hrun. unfold invoke_schedule_cron in Hrun.
  destruct (kind (invoked_trigger_event request)) eqn:Hk; try discriminate Hrun;
    [injection Hrun as <-; by apply elem_of_nil in Hd|].
  apply result_bind_ok in Hrun as (config & Hconfig & Hrun). exists config.
  assert (decode_cron (Coupling.config (invoked_coupling request)) = Ok config) as Hdec.
  { unfold config_of in Hconfig. by destruct (decode_cron _); simplify_result. }
  unfold invoke_schedule_cron_timer_fired in Hrun. apply result_bind_ok in Hrun as (timer & Htimer & Hrun).
  assert (decode_timer_fired (payload (invoked_trigger_event request)) = Ok timer) as Ht
    by by destruct (decode_timer_fired _); simplify_result.
  apply result_bind_ok in Hrun as ([[mandate_event mandate]|] & Hfound & Hrun);
    [|injection Hrun as <-; by apply elem_of_nil in Hd].
  apply timer_fired_mandate_found in Hfound as (Hsrc & Hin & Hev & Hkm & Hm).
  destruct (scope_matches _ _) eqn:Hscope; cbn [negb] in Hrun; [|injection Hrun as <-; by apply elem_of_nil in Hd].
  cbv zeta in Hrun. exists timer, mandate_event, mandate.
  destruct (Z.leb_spec (default (cron_max_occurrences config) (max_occurrences mandate)) (timer_occurrence_index timer)) as [Hle|Hlt].
  - injection Hrun as <-. apply list_elem_of_singleton in Hd as ->. split_and!; [done|done|done|]. by right.
  - apply result_bind_ok in Hrun as (parent & _ & Hrun). apply result_bind_ok in Hrun as (template & Htpl & Hrun).
    injection Hrun as <-. apply list_elem_of_singleton in Hd as ->. split_and!; [done|done|done|]. left.
    split_and!; [done|done|]. exists template. split; [by destruct (or_else _ _); simplify_result|].
    cbn [discharge_payload discharge]. unfold continue_requested_json. rewrite value_get_jobj. reflexivity.
Qed.

(** The receipts of the scheduler name neither an attempt nor a class of error. *)
Lemma receipt_names_no_attempt {E} `{CouplingTexts E} (run : CouplingRunReceipt (run_reason E)) :
  value_get "attempt" (receipt_json run) = None /\ value_get "error_class" (receipt_json run) = None.
Proof.
  unfold receipt_json. cbv zeta. rewrite !value_get_jobj, !rev_app_distr, !obj_get_app, !obj_get_opt_field. done.
Qed.

(** Against the receipts of the scheduler, whose failures it is triggered by, the retry template
    counts no attempts: with a budget of two or more and no classes of error it asks for attempt two,
    however often it has failed; when classes of error are listed it denies every retry, for an
    unknown class; and with a budget of one it is exhausted at once. *)
Theorem retry_of_receipts {E} `{CouplingTexts E} (run : CouplingRunReceipt (run_reason E)) fresh request config :
  coupling_id (invoked_coupling request) = STD_RETRY_WITH_BUDGET_TEMPLATE_ID ->
  kind (invoked_trigger_event request) = CouplingRunFailed ->
  payload (invoked_trigger_event request) = receipt_json run ->
  decode_retry (Coupling.config (invoked_coupling request)) = Ok config ->
  stdlib_invoke fresh request =
  match retryable_error_classes config with
  | _ :: _ =>
      Ok [retry_budget_exhausted_discharge request 1 (max_attempts config) None "retry denied for error class unknown"]
  | [] =>
      if (max_attempts config <=? 1)%N
      then Ok [retry_budget_exhausted_discharge request 1 (max_attempts config) None
                 ("retry budget exhausted after attempt 1/" +:+ pretty (max_attempts config))]
      else match retry_parent_turn_id config, retry_next_turn_input config with
           | None, _ => Err "std::retry.with_budget continuation requires parent_turn_id"
           | _, None => Err "std::retry.with_budget continuation requires next_turn_input"
           | Some parent, Some input =>
               Ok [discharge None "control" TurnContinueRequested
                     (continue_requested_json (mk_continuation_subject (default "default" (retry_loop_id config)) parent)
                        (request_snapshot request) input
                        [("template_id", JString STD_RETRY_WITH_BUDGET_TEMPLATE_ID);
                         ("reason", JString (default "retry requested by std::retry.with_budget" (retry_reason config)));
                         ("retry", jobj [("attempt", jint 2); ("previous_attempt", jint 1);
                                         ("max_attempts", jint (Z.of_N (max_attempts config)));
                                         ("failed_event_id", JString (trigger_id_text request)); ("error_class", JNull)])])]
           end
  end.
Proof.
  intros Hid Hk Hp Hconfig. unfold stdlib_invoke. rewrite Hid. cbn -[invoke_retry_with_budget].
  unfold invoke_retry_with_budget, expect_trigger, config_of, failed_attempt, text_field, retry_error_class_allowed.
  destruct (receipt_names_no_attempt run) as [Ha Hc]. rewrite Hk, Hconfig, Hp, Ha, Hc.
  cbn [existsb bool_decide map_err result_bind]. rewrite bool_decide_eq_true_2 by done. cbn [orb result_bind map_err].
  destruct (retryable_error_classes config); [|reflexivity]. cbn [negb].
  change (mbind as_str None) with (@None string). change (default 1%N (None ≫= u32_value) `max` 1)%N with 1%N.
  destruct (max_attempts config <=? 1)%N; [reflexivity|].
  destruct (retry_parent_turn_id config); [|reflexivity]. by destruct (retry_next_turn_input config).
Qed.
End Budgets.
