(* ===== verification/StdlibExamples.v ===== *)
(** * The standard couplings at work

    The theorems of [ReadPlanFacts] and [StdlibFacts] applied to a
    thread on an in-memory store: a gate that denies a tool call, a memory that
    is extracted and recalled, a schedule and a retry. *)

From stdpp Require Import base gmap sets list strings pretty sorting relations.
From Stdlib Require Import NArith ZArith Lia.
From S2P Require Import Prelude Json Schema EventKind EventSchemas Contracts Records Session Store Journal EventLog Control ControlFacts.
From S2P Require Import Clock SyncExamples Coupling ReadPlan ReadPlanFacts Stdlib StdlibFacts.

Local Open Scope verlet_scope.
Local Open Scope string_scope.
Local Open Scope list_scope.

Module StdlibExamples.
#[local] Existing Instance SyncExamples.id_texts.

Definition me : ThreadCoordinates := sample_coordinates 7.

(** ** Decoders *)

#[local] Instance lengths : Sha256 := {| sha256_digest text := pretty (N.of_nat (String.length text)) |}.

Definition text (key : string) (v : json) : option string := value_get key v ≫= as_str.
Definition required {A} (o : option A) : result A string := ok_or o "missing field".

Definition subject_of (v : json) : option ToolCallSubject :=
  s ← value_get "subject" v; turn ← text "turn_id" s; call ← text "call_id" s; Some (mk_tool_subject turn call).

Definition outcome_of (v : json) : option ToolCallDecisionOutcomePayload :=
  decision ← text "decision" v;
  if String.eqb decision "allow" then Some OutcomeAllow
  else if String.eqb decision "rewrite" then OutcomeRewrite <$> value_get "arguments" v
  else OutcomeDeny <$> text "reason" v.

Definition requested : ToolCallRequestedPayload :=
  mk_tool_requested (mk_tool_subject "t1" "c1") "s1" "shell" JNull None None [].
Definition mandate : MandateStartedPayload :=
  mk_mandate_started (mk_mandate_subject None (Some "l1")) "m1" "s1" None None None None (Some 3%Z) None
    (Some "report for {scheduled_for}").

#[local] Instance codec : ControlCodec := {|
  decode_tool_decision v :=
    required (s ← subject_of v; snapshot ← text "snapshot_id" v; o ← (value_get "outcome" v ≫= outcome_of);
              Some (mk_tool_decision s snapshot o None));
  decode_tool_suspended v :=
    required (s ← subject_of v; snapshot ← text "snapshot_id" v;
              Some (mk_tool_suspended s snapshot (text "approval_id" v) (text "reason" v)));
  decode_tool_requested _ := Ok requested;
  decode_tool_completed _ := Err "missing field";
  decode_continue_requested _ := Err "missing field";
  decode_mandate_started _ := Ok mandate;
  decode_mandate_revoked _ := Err "missing field";
  decode_placement _ := Err "missing field";
  rfc3339_millis _ := None;
|}.

#[local] Instance codec_reads_fields : ToolCodecLaws.
Proof.
  split.
  - intros v [subject snapshot o admissible] Hs Hn Ho _ Ha. cbn in Hs, Hn, Ho, Ha. cbn [decode_tool_decision codec].
    unfold subject_of, text. rewrite Hs, Hn, Ho, Ha. by destruct subject, o.
  - intros v [subject snapshot approval reason] Hs Hn Ha Hr. cbn in Hs, Hn, Ha, Hr. cbn [decode_tool_suspended codec].
    unfold subject_of, text. rewrite Hs, Hn, Ha, Hr. by destruct subject, approval, reason.
Qed.

#[local] Instance timers : TimerCodec := {|
  decode_timer_fired _ := Ok (mk_timer 40 "2026-01-01T00:00:00Z" 2 false);
|}.

#[local] Instance configs : StdlibCodec.
Proof.
  refine {|
    decode_queue_task _ := Ok {| task_prefix := None; task_reason := None |};
    decode_queue_completion _ := Err "none";
    decode_spill _ := Ok {| spill_summary_event_id := None; spill_summary_text := None; spill_read_plan_name := None;
                            spill_pipeline_id := None |};
    decode_truncate _ := Ok {| truncate_read_plan_name := None; truncate_pipeline_id := None; retain_tail_events := 2;
                               truncate_reason := None |};
    decode_summarize _ := Err "none";
    decode_extract _ := Ok {| extract_event_id := None; extract_text := None; extract_kind := None |};
    decode_recall _ := Ok {| recall_read_plan_name := None; recall_pipeline_id := None; max_events := 3;
                             recall_kind := Some "observation" |};
    decode_steer _ := Err "none";
    decode_instructions _ := Err "none";
    decode_tool_gate _ := Ok {| gate_decision := GateDeny; gate_reason := Some "not here"; gate_approval_id := None;
                                gate_arguments := None |};
    decode_approval_gate _ := Err "none";
    decode_deadletter _ := Err "none";
    decode_retry _ := Ok {| max_attempts := 3; retry_loop_id := None; retry_parent_turn_id := Some "t1";
                            retry_next_turn_input := Some "again"; retryable_error_classes := []; retry_reason := None |};
    decode_cron _ := Ok {| cron_max_occurrences := 1; mandate_scope := MatchAll; cron_loop_id := None;
                           cron_parent_turn_id := Some "t1"; cron_next_turn_input := None; schedule_id := None;
                           cron_reason := None |};
    decode_spawn _ := Err "none";
    decode_child_completion _ := Err "none";
    decode_run_receipt _ := Err "none";
    debug_str text := text |}.
Defined.

(** ** Invocations *)

(** A coupling of a template, bound to the sink of the catalog. *)
Definition bound (id : string) (trigger : EventKind) : BoundCoupling := {|
  coupling_id := id; role := Controller; trigger_kind := trigger; trigger_match := [];
  trigger_quota := {| per_turn := None; per_thread := None |}; source_selectors := [];
  sink := match catalog_template id with
          | Some t => {| sink_stream := pattern_stream (template_sink t); sink_kinds := pattern_kinds (template_sink t) |}
          | None => {| sink_stream := ""; sink_kinds := [] |}
          end;
  function_ref := id; coupling_function :=
    {| function_name := id; function_artifact_hash := "h"; function_operation_name := None |};
  budget := {| max_ms := None; max_discharge_events := None |};
  config := JNull; coupling_config_hash := "c" |}.

Definition event (id : EventRecordId) (stream : string) (k : EventKind) (sources : list EventRecordId) (p : json) : EventRecord :=
  mk_event id stream 1 me 5 k Witnessed (mk_provenance [] sources None [] None None None) p.

Definition asked (id : string) (trigger : EventRecord) (sources : list EventRecord) : CouplingInvocation := {|
  invoked_activation := {| root_event_id := event_id trigger; trigger_event_id := event_id trigger;
    trigger_stream_id := stream_id trigger; trigger_sequence := 1; activated_coupling_id := id; depth := 0;
    activation_snapshot_id := "s1" |};
  invoked_coupling := bound id (kind trigger); invoked_trigger_event := trigger;
  invoked_source_cut := [{| cut_entry_stream_id := for_thread me; max_sequence := 4 |}];
  invoked_source_events := sources |}.

Definition discharges_of (request : CouplingInvocation) : list CouplingDischarge :=
  match stdlib_invoke 90 request with Ok ds => ds | Err _ => [] end.

(** The thread's journal after the discharges were recorded on a stream. *)
Definition recorded (c : EventStreamId) (first : EventRecordId) (request : CouplingInvocation) (s : Handle) : Handle :=
  (log_append c
     (imap (fun i d => discharged (first + N.of_nat i) 5 me (discharge_kind d) (discharge_payload d)
        (event_provenance (invoked_activation request) (invoked_coupling request) (invoked_source_cut request)
           (invoked_source_events request))) (discharges_of request)) s).1.
Definition empty : Handle := mk_handle inner_empty 0.

Lemma journal_starts_valid : log_valid empty.
Proof. exact journal_wf_empty. Qed.

Lemma recorded_valid c first request (s : Handle) : log_valid s -> log_valid (recorded c first request s).
Proof.
  intros Hv. unfold recorded. set (records := imap _ _). destruct (log_append c records s) as [s' [es|e]] eqn:Hrun;
    [by apply (log_extended _ _ _ _ _ Hv) in Hrun as [? _]|by apply (log_unextended _ _ _ _ _ Hv) in Hrun as [? _]].
Qed.

#[local] Instance executor_of_90 : CouplingExecutor nat := stdlib_executor (fun _ => 90%N).

(** ** Truncation and its sink *)

Definition compiled : EventRecord := event 20 (for_thread me) ContextCompileCompleted [] (jobj []).
Definition truncation : CouplingInvocation := asked STD_CONTEXT_TRUNCATE_TEMPLATE_ID compiled [].

Lemma truncation_runs : stdlib_invoke 90 truncation = Ok (discharges_of truncation) /\ length (discharges_of truncation) = 1.
Proof. split; vm_compute; reflexivity. Qed.

Lemma stdlib_stays_in_sink_witness :
  length (discharges_of truncation) = 1 /\
  validate_discharges (X := nat) (invoked_coupling truncation) (discharges_of truncation) 5 = Ok tt.
Proof.
  split; [apply truncation_runs|].
  destruct (catalog_template STD_CONTEXT_TRUNCATE_TEMPLATE_ID) as [t|] eqn:Ht; [|discriminate Ht].
  rewrite (stdlib_stays_in_sink (X := nat) 90 truncation (discharges_of truncation) t 5).
  - vm_compute in Ht. injection Ht as <-. reflexivity.
  - split; [exact Ht|]. vm_compute in Ht. injection Ht as <-. split; reflexivity.
  - apply truncation_runs.
  - reflexivity.
  - vm_compute. discriminate.
Defined.

Lemma stdlib_payloads_conform_witness :
  stdlib_invoke 90 truncation = Ok (discharges_of truncation) /\
  Forall (fun d => registered (discharge_kind d) = true ->
    validate_context_payload_schema_v1 (discharge_kind d) (discharge_payload d) = Ok tt) (discharges_of truncation).
Proof.
  split; [apply truncation_runs|]. apply (stdlib_payloads_conform 90 truncation). apply truncation_runs.
Defined.

(** ** A denied tool call *)

Definition call : EventRecord := event 21 (for_thread me) ToolCallRequested [] (jobj []).
Definition gate : CouplingInvocation := asked STD_PERMISSION_TOOL_GATE_TEMPLATE_ID call [call].
Definition gated : Handle := recorded (control_stream_id me) 30 gate empty.

Lemma tool_gate_decides_witness :
  decide_tool_call gated (gate_question gate requested) = Ok (Deny (Some 30%N) "not here" false).
Proof.
  destruct (log_events gated (control_stream_id me)) as [|fact [|]] eqn:Hlog;
    [vm_compute in Hlog; discriminate Hlog| |vm_compute in Hlog; discriminate Hlog].
  pose proof (tool_gate_decides gated 90 gate
    {| gate_decision := GateDeny; gate_reason := Some "not here"; gate_approval_id := None; gate_arguments := None |}
    requested (discharges_of gate) [] fact []) as Hgate.
  assert (event_id fact = 30%N) as Hfact by (vm_compute in Hlog; injection Hlog as <-; reflexivity).
  rewrite Hfact in Hgate. symmetry. apply (inj Some). apply Hgate; clear Hgate.
  - reflexivity.
  - vm_compute. reflexivity.
  - reflexivity.
  - reflexivity.
  - left. by left.
  - vm_compute in Hlog. injection Hlog as <-. left. vm_compute. split_and!; reflexivity.
  - apply recorded_valid, journal_starts_valid.
  - exact Hlog.
  - intros e He. by apply elem_of_nil in He.
Defined.

(** ** A memory *)

Definition answered : EventRecord := event 22 (for_thread me) TurnCompleted [] (jobj [("output_text", JString "likes tea")]).
Definition extraction : CouplingInvocation := asked STD_MEMORY_EXTRACT_TEMPLATE_ID answered [answered].
Definition remembered : Handle := recorded ("derived:memory:" +:+ uuid_text (thread_id me)) 40 extraction empty.
Definition memories : list EventRecord := log_events remembered ("derived:memory:" +:+ uuid_text (thread_id me)).

Definition submitted : EventRecord := event 23 (for_thread me) TurnSubmitted [] (jobj []).
Definition recall : CouplingInvocation := asked STD_MEMORY_RECALL_TEMPLATE_ID submitted memories.
Definition planned : Handle := recorded (derived_context_stream me) 50 recall remembered.

Definition recall_config : MemoryRecallConfig :=
  {| recall_read_plan_name := None; recall_pipeline_id := None; max_events := 3; recall_kind := Some "observation" |}.

Lemma memory_extracted :
  Forall2 (fun e text => e ∈ log_events planned (stream_id e) /\ extracted e text)
    (selected_memories recall_config (invoked_source_events recall)) ["likes tea"].
Proof.
  destruct (selected_memories recall_config (invoked_source_events recall)) as [|e [|]] eqn:Hsel;
    [vm_compute in Hsel; discriminate Hsel| |vm_compute in Hsel; discriminate Hsel].
  vm_compute in Hsel. injection Hsel as <-. constructor; [|constructor]. split; [vm_compute; left|].
  exists 90%N, extraction, {| extract_event_id := None; extract_text := None; extract_kind := None |}, (discharges_of extraction).
  split_and!; [reflexivity|reflexivity|exact I|vm_compute; reflexivity|vm_compute; reflexivity|].
  left. vm_compute. split; reflexivity.
Qed.

Lemma recall_planned :
  stdlib_invoke 90 recall = Ok (discharges_of recall) /\ NoDup (map event_id (invoked_source_events recall)) /\
  exists plan, log_events planned (derived_context_stream me) = [plan] /\
    Exists (fun d => kind plan = discharge_kind d /\ payload plan = discharge_payload d) (discharges_of recall).
Proof.
  split_and!; [vm_compute; reflexivity|refine (bool_decide_eq_true_1 _ _); vm_compute; reflexivity|].
  destruct (log_events planned (derived_context_stream me)) as [|plan [|]] eqn:Hlog;
    [vm_compute in Hlog; discriminate Hlog| |vm_compute in Hlog; discriminate Hlog].
  exists plan. split; [reflexivity|]. vm_compute in Hlog. injection Hlog as <-. left. vm_compute. split; reflexivity.
Qed.

Lemma memory_roundtrip_witness :
  build_recall_read_plan_contexts planned me = Ok [render_recall_context ["likes tea"]].
Proof.
  destruct recall_planned as (Hrun & Hnd & plan & Hlog & Hd).
  apply (memory_roundtrip planned me 90 recall recall_config (discharges_of recall) [] plan []);
    [reflexivity|reflexivity|reflexivity|exact Hrun|exact Hd|
    |exact Hlog|reflexivity|exact Hnd|exact memory_extracted].
  apply recorded_valid, recorded_valid, journal_starts_valid.
Defined.

(** ** A schedule *)

Definition standing : EventRecord := event 40 (control_stream_id me) MandateStarted [] (jobj []).
Definition fired : EventRecord := event 24 (control_stream_id me) TimerFired [40%N] (jobj []).
Definition cron : CouplingInvocation := asked STD_SCHEDULE_CRON_TEMPLATE_ID fired [standing].

Lemma cron_runs :
  stdlib_invoke 90 cron = Ok (discharges_of cron) /\ map discharge_kind (discharges_of cron) = [TurnContinueRequested].
Proof. split; vm_compute; reflexivity. Qed.

Lemma schedule_keeps_budget_witness :
  exists d config timer mandate_event mandate,
    discharges_of cron = [d] /\ scheduled cron config timer mandate_event mandate /\
    (timer_occurrence_index timer < default (cron_max_occurrences config) (max_occurrences mandate))%Z.
Proof.
  destruct cron_runs as [Hrun Hk]. destruct (discharges_of cron) as [|d [|]]; [discriminate Hk| |discriminate Hk].
  destruct (schedule_keeps_budget 90 cron [d] d) as (config & timer & e & m & _ & _ & Hs & [(_ & Hlt & _)|[Hex _]]);
    [reflexivity|exact Hrun|by left|exists d, config, timer, e, m; by split_and!|].
  cbn in Hk. injection Hk as Hk. rewrite Hk in Hex. discriminate Hex.
Defined.

(** ** A retry *)

#[local] Instance reasons : CouplingTexts string := {| display_reason _ := "failed" |}.

Definition failure : CouplingRunReceipt (run_reason string) := {|
  run_coupling_id := "watcher"; run_role := Controller; status := Failed;
  run_reason_of := Some (ExecutorFailed "no such function"); run_root_event_id := 20; run_trigger_event_id := 20;
  run_trigger_stream_id := for_thread me; run_trigger_sequence := 1; run_snapshot_id := "s1"; run_depth := 0;
  run_source_cut := []; run_source_event_ids := []; discharged_event_ids := []; run_function_ref := "f";
  run_config_hash := "c"; spent_discharge_events := 0 |}.
Definition failed : EventRecord := event 25 (control_stream_id me) CouplingRunFailed [] (receipt_json failure).
Definition retry : CouplingInvocation := asked STD_RETRY_WITH_BUDGET_TEMPLATE_ID failed [].

(** A budget of three, and yet the next attempt is the second. *)
Lemma retry_of_receipts_witness :
  exists d, stdlib_invoke 90 retry = Ok [d] /\ discharge_kind d = TurnContinueRequested /\
    (value_get "retry" (discharge_payload d) ≫= value_get "attempt") = Some (jint 2).
Proof.
  eexists. rewrite (retry_of_receipts failure 90 retry
    {| max_attempts := 3; retry_loop_id := None; retry_parent_turn_id := Some "t1"; retry_next_turn_input := Some "again";
       retryable_error_classes := []; retry_reason := None |}) by reflexivity.
  split_and!; [reflexivity|reflexivity|vm_compute; reflexivity].
Defined.

(** ** A summary *)

Definition said : NewEventRecord :=
  witnessed 60 5 me SessionEntryAppended (jobj [("entry_id", JString (uuid_text 61))]).
Definition talked : Handle := (log_append (for_thread me) [said] empty).1.
Definition cut : SessionContextSourceCut := mk_cut me (for_thread me) false [61%N].

Lemma talked_valid : log_valid talked.
Proof.
  unfold talked. destruct (log_append (for_thread me) [said] empty) as [s' [es|e]] eqn:Hrun;
    [by apply (log_extended _ _ _ _ _ journal_starts_valid) in Hrun as [? _]
    |by apply (log_unextended _ _ _ _ _ journal_starts_valid) in Hrun as [? _]].
Qed.

Lemma context_source_ranges_cover_witness :
  log_valid talked /\ exists ranges, context_source_ranges talked [cut] = Ok ranges.
Proof.
  split; [exact talked_valid|].
  destruct (context_source_ranges_cover talked [cut] talked_valid) as (ranges & Hrun & _). by exists ranges.
Defined.

Definition draws (n : nat) : EventRecordId * Z := (N.of_nat (70 + n), 6%Z).

Lemma summary_recorded : is_ok (record_context_summary_checkpoint draws me [] [cut] "they talked" talked).2 = true.
Proof. vm_compute. reflexivity. Qed.

Lemma summary_checkpoint_recorded_witness :
  exists s' e1 e2, record_context_summary_checkpoint draws me [] [cut] "they talked" talked = (s', Ok (e1, e2)) /\
    journal_plus talked [e1; e2] s'.
Proof.
  pose proof summary_recorded as Hok.
  destruct (record_context_summary_checkpoint draws me [] [cut] "they talked" talked) as [s' [[e1 e2]|err]] eqn:Hrun;
    [|discriminate Hok].
  exists s', e1, e2. split; [reflexivity|].
  destruct (summary_checkpoint_recorded draws me [] [cut] "they talked" talked s' (Ok (e1, e2)) talked_valid Hrun)
    as (ranges & _ & Hj & _). exact Hj.
Defined.
End StdlibExamples.
