(* ===== verification/LoopContinuation.v ===== *)
(** * Loop continuation

    Models [verlet-kernel/src/kernel/runtime_host/loop_continuation.rs] and
    [RuntimeHost::continue_turn_if_requested] of [kernel/runtime_host.rs]: the last
    request to continue a loop after a turn is decided once, the decision is a
    fact on the control stream, and an accepted one submits the next turn.

    The host that runs the turns is the class [TurnHost]; ids and times are drawn
    from a sequence, as in [Coupling]. *)

From stdpp Require Import base gmap sets list strings pretty.
From Stdlib Require Import ZArith Lia.
From S2P Require Import Prelude Json EventKind Contracts Records Store EventLog Control ReadPlan.

Local Open Scope verlet_scope.
Local Open Scope string_scope.
Local Open Scope list_scope.

(** ** Payloads and receipts *)

Record TurnContinuationAcceptedPayload := mk_accepted {
  accepted_subject : TurnContinuationSubject;
  accepted_snapshot_id : string;
  accepted_mandate_id : string;
  accepted_next_turn_id : string;
}.

Record TurnContinuationRejectedPayload := mk_rejected {
  rejected_subject : TurnContinuationSubject;
  rejected_snapshot_id : string;
  rejected_reason : string;
}.

Definition subject_json (s : TurnContinuationSubject) : json :=
  jobj [("loop_id", JString (loop_id s)); ("parent_turn_id", JString (parent_turn_id s))].

(** [serde_json::to_value]; [admissible] is absent. *)
Definition accepted_json (p : TurnContinuationAcceptedPayload) : json :=
  jobj [("subject", subject_json (accepted_subject p)); ("snapshot_id", JString (accepted_snapshot_id p));
        ("mandate_id", JString (accepted_mandate_id p)); ("next_turn_id", JString (accepted_next_turn_id p))].
Definition rejected_json (p : TurnContinuationRejectedPayload) : json :=
  jobj [("subject", subject_json (rejected_subject p)); ("snapshot_id", JString (rejected_snapshot_id p));
        ("reason", JString (rejected_reason p))].

(** [serde_json::from_value]; the error is its text. *)
Class ContinuationCodec := {
  decode_accepted : json -> result TurnContinuationAcceptedPayload string;
  decode_rejected : json -> result TurnContinuationRejectedPayload string;
}.

Inductive LoopContinuationReceipt :=
  | NoContinuation
  | ContinuationAccepted (loop parent next : string) (event : EventRecordId)
  | ContinuationRejected (loop parent reason : string) (event : EventRecordId).

(** The runtime host: [get_thread], for the thread's coordinates, and [admission::submit_turn] of
    a queued text without an admission context. *)
Class TurnHost (K : Type) := {
  host_error : Type;
  thread_coordinates : ThreadId -> K -> result ThreadCoordinates host_error;
  submit_turn : ThreadId -> string -> string -> K -> K * result unit host_error;
}.

Inductive LoopError (E : Type) := LoopStore (e : VerletError) | LoopHost (e : E).
Arguments LoopStore {_} _.
Arguments LoopHost {_} _.

Section Loop.
Context `{UuidText} `{ControlCodec} `{ContinuationCodec} {S : Type} `{EventStore S} `{EventAppend S}.
Context {K : Type} `{TurnHost K}.
Variable draw : nat -> EventRecordId * Z.

Record LoopWorld := { loop_store : S; loop_host : K; loop_drawn : nat }.

Notation Call A := (st LoopWorld (LoopError host_error) A).

(** ** Reading *)

(** A later event of a greater sequence takes the place of the one before. *)
Definition keep_latest {A} (latest : option (Z * A)) (sequence : Z) (a : A) : option (Z * A) :=
  match latest with
  | Some (latest_sequence, _) => if (latest_sequence <? sequence)%Z then Some (sequence, a) else latest
  | None => Some (sequence, a)
  end.

(** [latest_turn_continue_request]. *)
Definition request_step (loop parent : string) (latest : option (Z * (EventRecord * TurnContinueRequestedPayload)))
    (event : EventRecord) : option (Z * (EventRecord * TurnContinueRequestedPayload)) :=
  if negb (bool_decide (kind event = TurnContinueRequested)) then latest
  else
    match decode_continue_requested (payload event) with
    | Err _ => latest
    | Ok p =>
        if negb (String.eqb (loop_id (continue_subject p)) loop) ||
           negb (String.eqb (parent_turn_id (continue_subject p)) parent)
        then latest else keep_latest latest (sequence event) (event, p)
    end.

Definition latest_turn_continue_request (store : S) (c : ThreadCoordinates) (loop parent : string)
    : VerletResult (option (EventRecord * TurnContinueRequestedPayload)) :=
  events <-? read_log store (control_stream_id c) ;;
  Ok (snd <$> fold_left (request_step loop parent) events None).

(** [existing_continuation_receipt]. *)
Definition receipt_of_event (subject : TurnContinuationSubject) (snapshot : string) (event : EventRecord)
    : VerletResult (option LoopContinuationReceipt) :=
  match kind event with
  | TurnContinuationAccepted =>
      p <-? map_err (fun err => HistoryText ("turn.continuation.accepted payload is invalid: " +:+ err))
        (decode_accepted (payload event)) ;;
      if negb (bool_decide (accepted_subject p = subject)) || negb (String.eqb (accepted_snapshot_id p) snapshot)
      then Ok None
      else Ok (Some (ContinuationAccepted (loop_id (accepted_subject p)) (parent_turn_id (accepted_subject p))
                       (accepted_next_turn_id p) (event_id event)))
  | TurnContinuationRejected =>
      p <-? map_err (fun err => HistoryText ("turn.continuation.rejected payload is invalid: " +:+ err))
        (decode_rejected (payload event)) ;;
      if negb (bool_decide (rejected_subject p = subject)) || negb (String.eqb (rejected_snapshot_id p) snapshot)
      then Ok None
      else Ok (Some (ContinuationRejected (loop_id (rejected_subject p)) (parent_turn_id (rejected_subject p))
                       (rejected_reason p) (event_id event)))
  | _ => Ok None
  end.

Definition receipt_step (subject : TurnContinuationSubject) (snapshot : string)
    (latest : option (Z * LoopContinuationReceipt)) (event : EventRecord)
    : VerletResult (option (Z * LoopContinuationReceipt)) :=
  receipt <-? receipt_of_event subject snapshot event ;;
  Ok (match receipt with Some r => keep_latest latest (sequence event) r | None => latest end).

Definition existing_continuation_receipt (store : S) (c : ThreadCoordinates) (subject : TurnContinuationSubject)
    (snapshot : string) : VerletResult (option LoopContinuationReceipt) :=
  events <-? read_log store (control_stream_id c) ;;
  latest <-? try_fold (receipt_step subject snapshot) None events ;;
  Ok (snd <$> latest).

(** [turn_submitted_event]. *)
Definition submits (turn : string) (event : EventRecord) : bool :=
  bool_decide (kind event = TurnSubmitted) &&
  bool_decide ((value_get "turn_id" (payload event) ≫= as_str) = Some turn).
Definition turn_submitted_event (store : S) (c : ThreadCoordinates) (turn : string) : VerletResult (option EventRecord) :=
  events <-? read_log store (for_thread c) ;;
  Ok (max_by_key sequence (List.filter (submits turn) events)).

(** ** Writing *)

Definition query {A} (f : S -> VerletResult A) : Call A := fun w => (w, map_err LoopStore (f (loop_store w))).

(** [append_events] of one discharged record, which the code expects one event of. *)
Definition append_discharged (stream : EventStreamId) (c : ThreadCoordinates) (k : EventKind) (p : json)
    (source : EventRecordId) (by_ function : string) : Call EventRecord := fun w =>
  let '(id, now) := draw (loop_drawn w) in
  let provenance := mk_provenance [control_stream_id c] [source] None [] (Some by_) (Some function) None in
  let '(s, r) := log_append stream [discharged id now c k p provenance] (loop_store w) in
  ({| loop_store := s; loop_host := loop_host w; loop_drawn := Datatypes.S (loop_drawn w) |},
   map_err LoopStore (events <-? map_err HistoryFailed r ;; ok_or (head events) (HistoryText "event append returned no record"))).

(** [append_control_discharge]. *)
Definition append_control_discharge (c : ThreadCoordinates) (k : EventKind) (p : json) (source : EventRecordId)
    : Call EventRecord :=
  append_discharged (control_stream_id c) c k p source "scheduler:turn-continuation" "turn_continuation/v1".

(** [append_continuation_accepted_event] and [append_continuation_rejected_event]. *)
Definition append_continuation_accepted_event (c : ThreadCoordinates) (subject : TurnContinuationSubject)
    (snapshot mandate next : string) (consumed : EventRecordId) : Call EventRecord :=
  append_control_discharge c TurnContinuationAccepted (accepted_json (mk_accepted subject snapshot mandate next)) consumed.
Definition append_continuation_rejected_event (c : ThreadCoordinates) (subject : TurnContinuationSubject)
    (snapshot reason : string) (consumed : EventRecordId) : Call EventRecord :=
  append_control_discharge c TurnContinuationRejected (rejected_json (mk_rejected subject snapshot reason)) consumed.

(** [append_loop_turn_submitted_event]. *)
Definition append_loop_turn_submitted_event (c : ThreadCoordinates) (next : string) (accepted : EventRecordId)
    : Call EventRecord :=
  existing <-! query (fun s => turn_submitted_event s c next) ;;
  match existing with
  | Some event => st_ret event
  | None =>
      append_discharged (for_thread c) c TurnSubmitted
        (jobj [("turn_id", JString next); ("source", JString "turn.continuation.accepted");
               ("accepted_event_id", JString (uuid_text accepted))])
        accepted "scheduler:loop-continuation" "turn_submit/v1"
  end.

(** [admission::submit_turn]. *)
Definition host_submit (thread : ThreadId) (turn text : string) : Call unit := fun w =>
  let '(k, r) := submit_turn thread turn text (loop_host w) in
  ({| loop_store := loop_store w; loop_host := k; loop_drawn := loop_drawn w |}, map_err LoopHost r).

(** ** Continuing *)

(** The turn of an accepted continuation, unless it was submitted before. *)
Definition resume_accepted (thread : ThreadId) (c : ThreadCoordinates) (next text : string) (accepted : EventRecordId)
    : Call unit :=
  existing <-! query (fun s => turn_submitted_event s c next) ;;
  match existing with
  | Some _ => st_ret tt
  | None => append_loop_turn_submitted_event c next accepted ;;! host_submit thread next text
  end.

Definition decision_request (c : ThreadCoordinates) (request : EventRecord) (p : TurnContinueRequestedPayload)
    (now completed : Z) : TurnContinuationDecisionRequest :=
  mk_continuation_request c (continue_subject p) (continue_snapshot_id p)
    (default (event_id request) (head (source_event_ids (provenance request)))) now completed.

(** The rest of [continue_turn_if_requested], for a request without a receipt. *)
Definition decide_and_record (thread : ThreadId) (c : ThreadCoordinates) (loop parent next : string) (now completed : Z)
    (request : EventRecord) (p : TurnContinueRequestedPayload) : Call LoopContinuationReceipt :=
  decision <-! query (fun s => decide_turn_continuation s (decision_request c request p now completed)) ;;
  match decision with
  | NoRequest => st_ret NoContinuation
  | Accept consumed mandate text =>
      accepted <-! append_continuation_accepted_event c (continue_subject p) (continue_snapshot_id p) mandate next consumed ;;
      append_loop_turn_submitted_event c next (event_id accepted) ;;!
      host_submit thread next text ;;!
      st_ret (ContinuationAccepted loop parent next (event_id accepted))
  | Reject consumed reason _ =>
      rejected <-! append_continuation_rejected_event c (continue_subject p) (continue_snapshot_id p) reason
        (default (event_id request) consumed) ;;
      st_ret (ContinuationRejected loop parent reason (event_id rejected))
  end.

(** [continue_turn_if_requested]. *)
Definition continue_turn_if_requested (thread : ThreadId) (loop parent next : string) (now completed : Z)
    : Call LoopContinuationReceipt :=
  c <-! (fun w => (w, map_err LoopHost (thread_coordinates thread (loop_host w)))) ;;
  latest <-! query (fun s => latest_turn_continue_request s c loop parent) ;;
  match latest with
  | None => st_ret NoContinuation
  | Some (request, p) =>
      receipt <-! query (fun s => existing_continuation_receipt s c (continue_subject p) (continue_snapshot_id p)) ;;
      match receipt with
      | Some receipt =>
          match receipt with
          | ContinuationAccepted _ _ accepted_next event =>
              resume_accepted thread c accepted_next (continue_next_turn_input p) event
          | _ => st_ret tt
          end ;;!
          st_ret receipt
      | None => decide_and_record thread c loop parent next now completed request p
      end
  end.
End Loop.
