(* ===== verification/LoopFacts.v ===== *)
(** * What a loop continuation records

    A request is decided once: the decision is on the control stream, an
    accepted turn on the thread's, and asking again changes nothing. *)

From stdpp Require Import base gmap sets list strings pretty.
From Stdlib Require Import ZArith Lia.
From S2P Require Import ReadPlan Prelude Json EventKind Contracts Records Store Journal EventLog Control ControlFacts ControlExamples.
From S2P Require Import LoopContinuation.

Local Open Scope verlet_scope.
Local Open Scope string_scope.
Local Open Scope list_scope.

(** What is written is read back. *)
Class ContinuationCodecLaws `{ContinuationCodec} := {
  accepted_decodes p : decode_accepted (accepted_json p) = Ok p;
  rejected_decodes p : decode_rejected (rejected_json p) = Ok p;
}.

Section Facts.
Context `{UuidText} `{ControlCodec} `{!ContinuationCodec} `{!ContinuationCodecLaws} {S : Type} `{EventAppendLaws S}.
Context {K : Type} `{TurnHost K}.
Variable draw : nat -> EventRecordId * Z.

Notation World := (LoopWorld (S := S) (K := K)).
Implicit Types (w : World) (s : S).

Lemma control_not_thread c c' : control_stream_id c <> for_thread c'.
Proof. unfold control_stream_id, for_thread. intros Heq. by vm_compute in Heq. Qed.

(** ** The state of a decided request *)

(** The request is the last for its loop and turn, its receipt is there, and so is the submission of
    an accepted turn. *)
Definition decided (s : S) (c : ThreadCoordinates) (loop parent : string) (receipt : LoopContinuationReceipt) : Prop :=
  exists request p, latest_turn_continue_request s c loop parent = Ok (Some (request, p)) /\
    existing_continuation_receipt s c (continue_subject p) (continue_snapshot_id p) = Ok (Some receipt) /\
    match receipt with
    | ContinuationAccepted _ _ next _ => exists e, turn_submitted_event s c next = Ok (Some e)
    | _ => True
    end.

(** A decided request is answered without a write. *)
Lemma decided_again w thread c loop parent next now completed receipt :
  thread_coordinates thread (loop_host w) = Ok c -> decided (loop_store w) c loop parent receipt ->
  continue_turn_if_requested draw thread loop parent next now completed w = (w, Ok receipt).
Proof.
  intros Hc (request & p & Hreq & Hrec & Hsub). unfold continue_turn_if_requested, st_bind, query. rewrite Hc. cbn [map_err].
  rewrite Hreq. cbn [map_err]. rewrite Hrec. cbn [map_err].
  destruct receipt as [|l q n id|l q reason id]; [done| |done].
  destruct Hsub as [e He]. unfold resume_accepted, st_bind, query. by rewrite He.
Qed.

(** Neither a request nor a decision. *)
Definition unrelated (e : EventRecord) : Prop :=
  kind e <> TurnContinueRequested /\ kind e <> TurnContinuationAccepted /\ kind e <> TurnContinuationRejected.

Lemma request_step_unrelated loop parent es latest :
  (forall e, e ∈ es -> kind e <> TurnContinueRequested) -> fold_left (request_step loop parent) es latest = latest.
Proof.
  induction es as [|e es IH]; intros He; [done|]. cbn [fold_left]. unfold request_step at 2.
  rewrite bool_decide_eq_false_2 by (apply He; left). apply IH. set_solver.
Qed.

Lemma receipt_step_unrelated subject snapshot es latest :
  (forall e, e ∈ es -> unrelated e) -> try_fold (receipt_step subject snapshot) latest es = Ok latest.
Proof.
  induction es as [|e es IH]; intros He; [done|]. cbn [try_fold].
  assert (receipt_step subject snapshot latest e = Ok latest) as ->; [|apply IH; set_solver].
  destruct (He e) as (_ & Ha & Hr); [by left|]. unfold receipt_step, receipt_of_event.
  destruct (kind e); try done; congruence.
Qed.

Lemma submitted_stays s s' c turn rest e :
  log_valid s -> log_valid s' -> log_events s' (for_thread c) = log_events s (for_thread c) ++ rest ->
  turn_submitted_event s c turn = Ok (Some e) -> exists e', turn_submitted_event s' c turn = Ok (Some e').
Proof.
  unfold turn_submitted_event. intros Hv Hv' Hlog. rewrite !read_log_valid by done. cbn [result_bind]. intros He.
  rewrite Hlog, List.filter_app.
  destruct (max_by_key sequence (_ ++ _)) as [e'|] eqn:Hmax; [by exists e'|].
  apply max_by_key_none, app_nil in Hmax as [Hnil _]. rewrite Hnil in He. discriminate He.
Qed.

(** Unrelated events leave it decided. *)
Lemma decided_stable s s' c loop parent receipt extra rest :
  log_valid s -> log_valid s' ->
  log_events s' (control_stream_id c) = log_events s (control_stream_id c) ++ extra ->
  log_events s' (for_thread c) = log_events s (for_thread c) ++ rest ->
  (forall e, e ∈ extra -> unrelated e) -> decided s c loop parent receipt -> decided s' c loop parent receipt.
Proof.
  intros Hv Hv' Hcontrol Hthread Hextra (request & p & Hreq & Hrec & Hsub). exists request, p.
  unfold latest_turn_continue_request, existing_continuation_receipt in *.
  rewrite read_log_valid in Hreq, Hrec by done. rewrite !read_log_valid by done. cbn [result_bind] in *.
  rewrite Hcontrol, fold_left_app, try_fold_app. split_and!.
  - rewrite <- Hreq. do 2 f_equal. apply request_step_unrelated. intros e He. by apply Hextra.
  - destruct (try_fold _ None _) as [latest|err]; [|done]. cbn [result_bind] in *. by rewrite receipt_step_unrelated.
  - destruct receipt as [|l q next id|]; try done. destruct Hsub as [e He]. exact (submitted_stays s s' c next rest e Hv Hv' Hthread He).
Qed.

(** ** What is written *)

Definition is_submission (c : ThreadCoordinates) (next : string) (e : EventRecord) : Prop :=
  stream_id e = for_thread c /\ kind e = TurnSubmitted /\ coordinates e = c /\ submits next e = true.
Definition is_acceptance (c : ThreadCoordinates) (subject : TurnContinuationSubject) (snapshot next : string) (e : EventRecord) : Prop :=
  stream_id e = control_stream_id c /\ kind e = TurnContinuationAccepted /\ coordinates e = c /\
  exists mandate, payload e = accepted_json (mk_accepted subject snapshot mandate next).
Definition is_rejection (c : ThreadCoordinates) (subject : TurnContinuationSubject) (snapshot reason : string) (e : EventRecord) : Prop :=
  stream_id e = control_stream_id c /\ kind e = TurnContinuationRejected /\ coordinates e = c /\
  payload e = rejected_json (mk_rejected subject snapshot reason).

Lemma append_discharged_ok stream c k p source by_ fn w w' e :
  log_valid (loop_store w) -> append_discharged draw stream c k p source by_ fn w = (w', Ok e) ->
  journal_plus (loop_store w) [e] (loop_store w') /\ loop_host w' = loop_host w /\
  stream_id e = stream /\ kind e = k /\ coordinates e = c /\ payload e = p /\ source_event_ids (provenance e) = [source] /\
  sequence e = Z.of_nat (Datatypes.S (length (log_events (loop_store w) stream))).
Proof.
  intros Hv. unfold append_discharged. destruct (draw (loop_drawn w)) as [id now].
  destruct (log_append _ _ (loop_store w)) as [s1 [es|err]] eqn:Hrun; [|by intros [= _ ?]].
  cbn [map_err result_bind]. destruct (log_append_plus _ _ _ _ _ Hv Hrun) as [Hj _].
  destruct (log_extended_one _ _ _ _ _ Hv Hrun) as (_ & -> & _). cbn [head ok_or map_err]. intros [= <- <-].
  by split_and!.
Qed.

Lemma append_discharged_err stream c k p source by_ fn w w' err :
  log_valid (loop_store w) -> append_discharged draw stream c k p source by_ fn w = (w', Err err) ->
  journal_plus (loop_store w) [] (loop_store w') /\ loop_host w' = loop_host w.
Proof.
  intros Hv. unfold append_discharged. destruct (draw (loop_drawn w)) as [id now].
  destruct (log_append _ _ (loop_store w)) as [s1 [es|e]] eqn:Hrun.
  - cbn [map_err result_bind]. destruct (log_extended_one _ _ _ _ _ Hv Hrun) as (_ & -> & _). by intros [= _ ?].
  - intros [= <- _]. destruct (log_unextended _ _ _ _ _ Hv Hrun) as [Hv' Ho]. split; [|done]. split; [done|].
    intros st. by rewrite Ho, app_nil_r.
Qed.

(** After a submission is recorded, the turn is found as submitted. *)
Lemma submission_found s s' c next e :
  log_valid s -> journal_plus s [e] s' -> is_submission c next e ->
  exists e', turn_submitted_event s' c next = Ok (Some e').
Proof.
  intros Hv [Hv' Hj] (Hs & _ & _ & Hsub). unfold turn_submitted_event. rewrite read_log_valid by done. cbn [result_bind].
  rewrite (Hj (for_thread c)). cbn [List.filter]. rewrite Hs, String.eqb_refl, List.filter_app. cbn [List.filter]. rewrite Hsub.
  destruct (max_by_key sequence (_ ++ _)) as [e'|] eqn:Hmax; [by exists e'|].
  apply max_by_key_none, app_nil in Hmax as [_ Hnil]. discriminate Hnil.
Qed.

(** The submission: found, or recorded with the acceptance as its source. *)
Lemma append_loop_turn_submitted_spec c next accepted w w' r :
  log_valid (loop_store w) -> append_loop_turn_submitted_event draw c next accepted w = (w', r) ->
  loop_host w' = loop_host w /\
  match r with
  | Ok _ =>
      (exists e, turn_submitted_event (loop_store w') c next = Ok (Some e)) /\
      (journal_plus (loop_store w) [] (loop_store w') \/
       exists e, is_submission c next e /\ source_event_ids (provenance e) = [accepted] /\
         journal_plus (loop_store w) [e] (loop_store w'))
  | Err _ => journal_plus (loop_store w) [] (loop_store w')
  end.
Proof.
  intros Hv. unfold append_loop_turn_submitted_event, st_bind, query.
  destruct (turn_submitted_event (loop_store w) c next) as [[e|]|err] eqn:Hfound; cbn [map_err].
  - intros [= <- <-]. split; [done|]. split; [by exists e|]. left. by apply journal_plus_nil.
  - destruct (append_discharged _ _ _ _ _ _ _ _ w) as [w1 [e|err]] eqn:Hrun.
    + intros [= <- <-]. apply append_discharged_ok in Hrun as (Hj & Hh & Hst & Hk & Hc & Hp & Hsrc & _); [|done].
      assert (is_submission c next e) as He.
      { split_and!; try done. unfold submits. rewrite Hk, Hp, value_get_jobj. cbn. by rewrite !bool_decide_eq_true_2. }
      split; [done|]. split; [by eapply submission_found|]. right. by exists e.
    + intros [= <- <-]. apply append_discharged_err in Hrun as [Hj Hh]; done.
  - intros [= <- <-]. split; [done|]. by apply journal_plus_nil.
Qed.

(** ** Deciding *)

Lemma latest_request_matches s c loop parent request p :
  latest_turn_continue_request s c loop parent = Ok (Some (request, p)) ->
  continue_subject p = mk_continuation_subject loop parent.
Proof.
  unfold latest_turn_continue_request. destruct (read_log s _) as [events|]; [|done]. cbn [result_bind].
  assert (forall es latest, (forall n r q, latest = Some (n, (r, q)) -> continue_subject q = mk_continuation_subject loop parent) ->
    forall n r q, fold_left (request_step loop parent) es latest = Some (n, (r, q)) ->
    continue_subject q = mk_continuation_subject loop parent) as Hfold.
  { induction es as [|e es IH]; intros latest Hl n r q; [by apply Hl|]. cbn [fold_left]. apply IH. clear n r q.
    intros n r q. unfold request_step. case_bool_decide; [|by apply Hl]. cbn [negb].
    destruct (decode_continue_requested (payload e)) as [p0|]; [|by apply Hl].
    destruct (negb _ || negb _) eqn:Hm; [by apply Hl|]. apply orb_false_iff in Hm as [Hl1 Hl2]. to_prop.
    assert (continue_subject p0 = mk_continuation_subject loop parent) as Hp0
      by (destruct (continue_subject p0); cbn in *; congruence).
    unfold keep_latest. destruct latest as [[m a]|]; [|by intros [= _ _ <-]].
    destruct (m <? sequence e)%Z; [by intros [= _ _ <-]|by apply Hl]. }
  destruct (fold_left _ events None) as [[n [r q]]|] eqn:Hf; [|done]. intros [= <- <-]. by eapply Hfold; [|exact Hf].
Qed.

(** A decision that is recorded is the receipt from then on. *)
Lemma decision_found s s' c loop parent request p d rest receipt :
  log_valid s -> journal_plus s (d :: rest) s' -> stream_id d = control_stream_id c ->
  Forall (fun e => stream_id e = for_thread c) rest -> kind d <> TurnContinueRequested ->
  receipt_of_event (continue_subject p) (continue_snapshot_id p) d = Ok (Some receipt) ->
  latest_turn_continue_request s c loop parent = Ok (Some (request, p)) ->
  existing_continuation_receipt s c (continue_subject p) (continue_snapshot_id p) = Ok None ->
  latest_turn_continue_request s' c loop parent = Ok (Some (request, p)) /\
  existing_continuation_receipt s' c (continue_subject p) (continue_snapshot_id p) = Ok (Some receipt).
Proof.
  intros Hv [Hv' Hj] Hst Hrest Hk Hd.
  assert (log_events s' (control_stream_id c) = log_events s (control_stream_id c) ++ [d]) as Hlog.
  { rewrite Hj. cbn [List.filter]. rewrite Hst, String.eqb_refl. do 2 f_equal.
    apply (filter_other_stream (for_thread c)); [done|apply control_not_thread]. }
  unfold latest_turn_continue_request, existing_continuation_receipt.
  rewrite !read_log_valid by done. cbn [result_bind]. rewrite Hlog, fold_left_app, try_fold_app. intros Hreq Hrec. split.
  - rewrite <- Hreq. do 2 f_equal. apply request_step_unrelated. intros e ->%list_elem_of_singleton. done.
  - destruct (try_fold _ None _) as [[[n r]|]|err]; try done. cbn [try_fold]. unfold receipt_step. by rewrite Hd.
Qed.

Lemma acceptance_receipt c subject snapshot next e :
  is_acceptance c subject snapshot next e ->
  receipt_of_event subject snapshot e = Ok (Some (ContinuationAccepted (loop_id subject) (parent_turn_id subject) next (event_id e))).
Proof.
  intros (_ & Hk & _ & mandate & Hp). unfold receipt_of_event. rewrite Hk, Hp, accepted_decodes. cbn [map_err result_bind].
  cbn [accepted_subject accepted_snapshot_id accepted_next_turn_id]. by rewrite bool_decide_eq_true_2, String.eqb_refl.
Qed.

Lemma rejection_receipt c subject snapshot reason e :
  is_rejection c subject snapshot reason e ->
  receipt_of_event subject snapshot e = Ok (Some (ContinuationRejected (loop_id subject) (parent_turn_id subject) reason (event_id e))).
Proof.
  intros (_ & Hk & _ & Hp). unfold receipt_of_event. rewrite Hk, Hp, rejected_decodes. cbn [map_err result_bind].
  cbn [rejected_subject rejected_snapshot_id rejected_reason]. by rewrite bool_decide_eq_true_2, String.eqb_refl.
Qed.

(** What a call adds to the journal, for the receipt it answers with. *)
Definition recorded_for (s' : S) (c : ThreadCoordinates) (receipt : LoopContinuationReceipt) (es : list EventRecord) : Prop :=
  match receipt with
  | NoContinuation => es = []
  | ContinuationAccepted _ _ next id =>
      (exists e, turn_submitted_event s' c next = Ok (Some e)) /\
      exists decision submission, es = decision ++ submission /\
        (decision = [] \/ exists a subject snapshot, decision = [a] /\ is_acceptance c subject snapshot next a /\ event_id a = id) /\
        (submission = [] \/ exists e, submission = [e] /\ is_submission c next e /\ source_event_ids (provenance e) = [id])
  | ContinuationRejected _ _ reason id =>
      es = [] \/ exists d subject snapshot, es = [d] /\ is_rejection c subject snapshot reason d /\ event_id d = id
  end.

Lemma resume_accepted_spec thread c next text accepted w w' r :
  log_valid (loop_store w) -> resume_accepted draw thread c next text accepted w = (w', r) ->
  exists es, journal_plus (loop_store w) es (loop_store w') /\
    (es = [] \/ exists e, es = [e] /\ is_submission c next e /\ source_event_ids (provenance e) = [accepted]) /\
    (r = Ok tt -> exists e, turn_submitted_event (loop_store w') c next = Ok (Some e)).
Proof.
  intros Hv. unfold resume_accepted, st_bind at 1, query.
  destruct (turn_submitted_event (loop_store w) c next) as [[e|]|err] eqn:Hfound; cbn [map_err].
  - intros [= <- <-]. exists []. split_and!; [by apply journal_plus_nil|by left|by exists e].
  - unfold st_bind. destruct (append_loop_turn_submitted_event draw c next accepted w) as [w1 r1] eqn:Hrun.
    apply append_loop_turn_submitted_spec in Hrun as [_ Hspec]; [|done].
    destruct r1 as [e|err].
    + unfold host_submit. destruct (submit_turn thread next text (loop_host w1)) as [k rk]. intros [= <- <-]. cbn [loop_store].
      destruct Hspec as [Hsub [Hj|(e' & He' & Hsrc & Hj)]]; [exists []|exists [e']]; (split_and!; [done| |done]);
        [by left|right; by exists e'].
    + intros [= <- <-]. exists []. split_and!; [done|by left|done].
  - intros [= <- <-]. exists []. split_and!; [by apply journal_plus_nil|by left|done].
Qed.

(** An acceptance with its submission, and the turn. *)
Definition record_acceptance (thread : ThreadId) (c : ThreadCoordinates) (loop parent next mandate text : string)
    (p : TurnContinueRequestedPayload) (consumed : EventRecordId)
    : st World (LoopError host_error) LoopContinuationReceipt :=
  accepted <-! append_continuation_accepted_event draw c (continue_subject p) (continue_snapshot_id p) mandate next consumed ;;
  append_loop_turn_submitted_event draw c next (event_id accepted) ;;!
  host_submit thread next text ;;!
  st_ret (ContinuationAccepted loop parent next (event_id accepted)).

Lemma record_acceptance_spec thread c loop parent next mandate text p consumed w w' r :
  log_valid (loop_store w) -> record_acceptance thread c loop parent next mandate text p consumed w = (w', r) ->
  exists es, journal_plus (loop_store w) es (loop_store w') /\
    match r with
    | Ok receipt => exists a submission, es = a :: submission /\ receipt = ContinuationAccepted loop parent next (event_id a) /\
        is_acceptance c (continue_subject p) (continue_snapshot_id p) next a /\
        (submission = [] \/ exists e, submission = [e] /\ is_submission c next e /\ source_event_ids (provenance e) = [event_id a]) /\
        exists e, turn_submitted_event (loop_store w') c next = Ok (Some e)
    | Err _ => length es <= 2
    end.
Proof.
  intros Hv. unfold record_acceptance, st_bind, append_continuation_accepted_event, append_control_discharge.
  destruct (append_discharged draw _ _ _ _ _ _ _ w) as [w1 [a|err]] eqn:Hone.
  2: { intros [= <- <-]. exists []. apply append_discharged_err in Hone as [Hj _]; [|done]. split; [done|cbn; lia]. }
  apply append_discharged_ok in Hone as (Hj1 & _ & Hst & Hk & Hco & Hp & _); [|done].
  destruct (append_loop_turn_submitted_event draw c next (event_id a) w1) as [w2 r2] eqn:Htwo.
  apply append_loop_turn_submitted_spec in Htwo as [_ Hspec]; [|by destruct Hj1].
  destruct r2 as [e|err].
  2: { intros [= <- <-]. exists [a]. split; [by apply (journal_plus_app _ _ _ [a] [] Hj1 Hspec)|cbn; lia]. }
  destruct Hspec as [Hsub Hj2].
  assert (exists submission, journal_plus (loop_store w) (a :: submission) (loop_store w2) /\
    (submission = [] \/ exists e, submission = [e] /\ is_submission c next e /\ source_event_ids (provenance e) = [event_id a]))
    as (submission & Hj & Hshape).
  { destruct Hj2 as [Hj2|(e' & He' & Hsrc & Hj2)]; [exists []|exists [e']]; (split; [by eapply (journal_plus_app _ _ _ [a] _)|]);
      [by left|right; by exists e']. }
  unfold host_submit. destruct (submit_turn thread next text (loop_host w2)) as [k [[]|err]]; intros [= <- <-]; cbn [loop_store].
  - exists (a :: submission). split; [done|]. exists a, submission. split_and!; try done. by split_and!; [..|by eexists].
  - exists (a :: submission). split; [done|]. destruct Hshape as [->|(? & -> & _)]; cbn; lia.
Qed.

(** The decision of a request without a receipt: recorded once, and found from then on. *)
Lemma decide_and_record_spec thread c loop parent next now completed request p w w' r :
  log_valid (loop_store w) -> latest_turn_continue_request (loop_store w) c loop parent = Ok (Some (request, p)) ->
  existing_continuation_receipt (loop_store w) c (continue_subject p) (continue_snapshot_id p) = Ok None ->
  decide_and_record draw thread c loop parent next now completed request p w = (w', r) ->
  exists es, journal_plus (loop_store w) es (loop_store w') /\
    match r with
    | Ok receipt => recorded_for (loop_store w') c receipt es /\
        (receipt <> NoContinuation -> decided (loop_store w') c loop parent receipt)
    | Err _ => length es <= 2
    end.
Proof.
  intros Hv Hreq Hrec. pose proof (latest_request_matches _ _ _ _ _ _ Hreq) as Hsubj.
  unfold decide_and_record, st_bind at 1, query.
  destruct (decide_turn_continuation (loop_store w) _) as [[|consumed mandate text|consumed reason closed]|err]; cbn [map_err].
  - intros [= <- <-]. exists []. split; [by apply journal_plus_nil|]. by split.
  - intros Hrun. change (record_acceptance thread c loop parent next mandate text p consumed w = (w', r)) in Hrun.
    apply record_acceptance_spec in Hrun as (es & Hj & Hr); [|done]. exists es. split; [done|]. destruct r as [receipt|]; [|done].
    destruct Hr as (a & submission & -> & -> & Ha & Hshape & Hsub). split.
    + split; [done|]. exists [a], submission. split_and!; [done| |done]. right. by exists a, (continue_subject p), (continue_snapshot_id p).
    + intros _. pose proof (acceptance_receipt _ _ _ _ _ Ha) as Hr. rewrite Hsubj in Hr at 2 3. cbn [loop_id parent_turn_id] in Hr.
      exists request, p. destruct Ha as (Hst & Hk & _).
      edestruct (decision_found (loop_store w) (loop_store w') c loop parent request p a submission) as [Hreq' Hrec'];
        [exact Hv|exact Hj|exact Hst| |by rewrite Hk|exact Hr|exact Hreq|exact Hrec|by split_and!].
      destruct Hshape as [->|(e & -> & (He & _) & _)]; by repeat constructor.
  - unfold st_bind, append_continuation_rejected_event, append_control_discharge.
    destruct (append_discharged draw _ _ _ _ _ _ _ w) as [w1 [d|err]] eqn:Hone; intros [= <- <-].
    2: { exists []. apply append_discharged_err in Hone as [Hj _]; [|done]. split; [done|cbn; lia]. }
    apply append_discharged_ok in Hone as (Hj & _ & Hst & Hk & Hco & Hp & _); [|done].
    assert (is_rejection c (continue_subject p) (continue_snapshot_id p) reason d) as Hd by by split_and!.
    exists [d]. split; [done|]. split; [right; by eexists _, _, _|]. intros _.
    pose proof (rejection_receipt _ _ _ _ _ Hd) as Hr. rewrite Hsubj in Hr at 2 3. cbn [loop_id parent_turn_id] in Hr.
    exists request, p.
    edestruct (decision_found (loop_store w) (loop_store w1) c loop parent request p d []) as [Hreq' Hrec'];
      [exact Hv|exact Hj|exact Hst|constructor|by rewrite Hk|exact Hr|exact Hreq|exact Hrec|by split_and!].
  - intros [= <- <-]. exists []. split; [by apply journal_plus_nil|cbn; lia].
Qed.

(** What one call does: it answers from the journal, or decides. *)
Lemma continue_spec thread c loop parent next now completed w w' r :
  log_valid (loop_store w) -> thread_coordinates thread (loop_host w) = Ok c ->
  continue_turn_if_requested draw thread loop parent next now completed w = (w', r) ->
  exists es, journal_plus (loop_store w) es (loop_store w') /\
    match r with
    | Ok receipt => recorded_for (loop_store w') c receipt es /\
        (receipt <> NoContinuation -> decided (loop_store w') c loop parent receipt)
    | Err _ => length es <= 2
    end.
Proof.
  intros Hv Hc. unfold continue_turn_if_requested. unfold st_bind at 1. rewrite Hc. cbn [map_err].
  unfold st_bind at 1, query. destruct (latest_turn_continue_request (loop_store w) c loop parent) as [[[request p]|]|err] eqn:Hreq;
    cbn [map_err]; [|intros [= <- <-]; exists []; split; [by apply journal_plus_nil|by split]
                    |intros [= <- <-]; exists []; split; [by apply journal_plus_nil|cbn; lia]].
  unfold st_bind at 1. destruct (existing_continuation_receipt _ _ _ _) as [[receipt|]|err] eqn:Hrec; cbn [map_err].
  - unfold st_bind. destruct receipt as [|l q n id|l q reason id]; cbn [st_ret].
    + intros [= <- <-]. exists []. split; [by apply journal_plus_nil|by split].
    + destruct (resume_accepted draw thread c n (continue_next_turn_input p) id w) as [w1 r1] eqn:Hres.
      apply resume_accepted_spec in Hres as (es & Hj & Hshape & Hsub); [|done].
      destruct r1 as [[]|err]; intros [= <- <-]; exists es; (split; [done|]).
      2: { destruct Hshape as [->|(e & -> & _)]; cbn; lia. }
      specialize (Hsub eq_refl). split.
      * split; [done|]. exists [], es. by split_and!; [|left|].
      * intros _. destruct Hj as [Hv1 Hj].
        assert (Forall (fun e => stream_id e = for_thread c) es) as Hst
          by (destruct Hshape as [->|(e & -> & (He & _) & _)]; by repeat constructor).
        assert (log_events (loop_store w1) (control_stream_id c) = log_events (loop_store w) (control_stream_id c)) as Hlog.
        { rewrite Hj. rewrite (filter_other_stream (for_thread c)) by (done || apply control_not_thread). by rewrite app_nil_r. }
        exists request, p. split_and!; [|by unfold existing_continuation_receipt in *; rewrite read_log_valid in Hrec |- * by done; rewrite Hlog|done].
        unfold latest_turn_continue_request in *. rewrite read_log_valid in Hreq |- * by done. by rewrite Hlog.
    + intros [= <- <-]. exists []. split; [by apply journal_plus_nil|]. split; [by left|]. intros _. by exists request, p.
  - intros Hrun. by eapply decide_and_record_spec.
  - intros [= <- <-]. exists []. split; [by apply journal_plus_nil|cbn; lia].
Qed.


(** C21 - A continuation is decided once: after a call that answered with a decision, any later call
    for the same loop and turn, whatever the time, the turn it offers and the count it claims,
    answers the same and changes nothing, neither the journal nor the host, as long as no new
    request or decision was recorded in between. *)
Theorem continuation_decided_once thread c loop parent next now completed w w' receipt
    w2 next2 now2 completed2 extra rest :
  log_valid (loop_store w) -> thread_coordinates thread (loop_host w) = Ok c ->
  continue_turn_if_requested draw thread loop parent next now completed w = (w', Ok receipt) -> receipt <> NoContinuation ->
  log_valid (loop_store w2) -> thread_coordinates thread (loop_host w2) = Ok c ->
  log_events (loop_store w2) (control_stream_id c) = log_events (loop_store w') (control_stream_id c) ++ extra ->
  log_events (loop_store w2) (for_thread c) = log_events (loop_store w') (for_thread c) ++ rest ->
  (forall e, e ∈ extra -> kind e <> TurnContinueRequested /\ kind e <> TurnContinuationAccepted /\ kind e <> TurnContinuationRejected) ->
  continue_turn_if_requested draw thread loop parent next2 now2 completed2 w2 = (w2, Ok receipt).
Proof.
  intros Hv Hc Hrun Hne Hv2 Hc2 Hcontrol Hthread Hextra.
  destruct (continue_spec _ _ _ _ _ _ _ _ _ _ Hv Hc Hrun) as (es & [Hv' _] & _ & Hdec). specialize (Hdec Hne).
  apply (decided_again _ _ c); [done|]. by eapply (decided_stable (loop_store w') (loop_store w2)).
Qed.
End Facts.

(** * A loop that continues

    The theorems of [LoopFacts] on an in-memory store: a mandate and a request
    are on the control stream, the turn is accepted, submitted and found again. *)

Module LoopExamples.
#[local] Existing Instance decimal_uuid_text.
#[local] Existing Instance ControlExamples.codec.

(** ** Decoders *)

Definition text (key : string) (v : json) : option string := value_get key v ≫= as_str.
Definition subject_of (v : json) : option TurnContinuationSubject :=
  s ← value_get "subject" v; loop ← text "loop_id" s; parent ← text "parent_turn_id" s;
  Some (mk_continuation_subject loop parent).

#[local] Instance codec : ContinuationCodec := {|
  decode_accepted v :=
    ok_or (s ← subject_of v; snapshot ← text "snapshot_id" v; mandate ← text "mandate_id" v; next ← text "next_turn_id" v;
           Some (mk_accepted s snapshot mandate next)) "missing field";
  decode_rejected v :=
    ok_or (s ← subject_of v; snapshot ← text "snapshot_id" v; reason ← text "reason" v;
           Some (mk_rejected s snapshot reason)) "missing field";
|}.

#[local] Instance codec_reads_back : ContinuationCodecLaws.
Proof. split; intros [[loop parent] ? ?]; reflexivity. Qed.

(** ** A host *)

(** The turns handed over. *)
#[local] Instance host : TurnHost (list (string * string)) := {|
  host_error := string;
  thread_coordinates thread _ := if N.eqb thread 7 then Ok ControlExamples.me else Err "no such thread";
  submit_turn _ turn text turns := (turns ++ [(turn, text)], Ok tt);
|}.

Definition draws (n : nat) : EventRecordId * Z := (N.of_nat (80 + n), 6%Z).

Definition waiting : LoopWorld (S := Handle) (K := list (string * string)) := {|
  loop_store := ControlExamples.holding [ControlExamples.mandate_event 1; ControlExamples.continue_event 2];
  loop_host := []; loop_drawn := 0 |}.

Definition continued := continue_turn_if_requested draws 7 "l1" "t1" "t2" 100 2 waiting.

Lemma waiting_valid : log_valid (loop_store waiting).
Proof. eapply ControlExamples.holding_valid; vm_compute; reflexivity. Qed.

Lemma continuation_accepted :
  continued.2 = Ok (ContinuationAccepted "l1" "t1" "t2" 80%N) /\ loop_host continued.1 = [("t2", "go on")].
Proof. split; vm_compute; reflexivity. Qed.


(** ** Asking again *)

(** A suspended tool call is recorded after the decision. *)
Definition later : LoopWorld (S := Handle) (K := list (string * string)) := {|
  loop_store := (log_append "control:7" [ControlExamples.suspend_event 90] (loop_store continued.1)).1;
  loop_host := loop_host continued.1; loop_drawn := 9 |}.

Lemma later_extends :
  log_valid (loop_store later) /\
  (exists e, kind e = ToolCallSuspended /\
     log_events (loop_store later) "control:7" = log_events (loop_store continued.1) "control:7" ++ [e]) /\
  log_events (loop_store later) (for_thread ControlExamples.me) =
    log_events (loop_store continued.1) (for_thread ControlExamples.me) ++ [].
Proof.
  assert (log_valid (loop_store continued.1)) as Hv.
  { destruct continued as [w r] eqn:Hrun.
    by destruct (continue_spec draws 7 ControlExamples.me "l1" "t1" "t2" 100 2 waiting w r waiting_valid eq_refl Hrun)
      as (es & [Hv _] & _). }
  unfold later. cbn [loop_store]. destruct (log_append _ _ (loop_store continued.1)) as [s [es|e]] eqn:Hrun; [|vm_compute in Hrun; discriminate Hrun].
  destruct (log_append_plus _ _ _ _ _ Hv Hrun) as [[Hv' Hj] _]. destruct (log_extended_one _ _ _ _ _ Hv Hrun) as (_ & -> & _).
  cbn [fst]. split; [exact Hv'|]. split.
  - eexists. split; [|rewrite Hj; reflexivity]. reflexivity.
  - rewrite Hj. reflexivity.
Qed.

Lemma continuation_decided_once_witness :
  continue_turn_if_requested draws 7 "l1" "t1" "t9" 999 0 later = (later, Ok (ContinuationAccepted "l1" "t1" "t2" 80%N)).
Proof.
  pose proof continuation_accepted as [Hok _]. destruct later_extends as (Hv & (e & Hk & Hcontrol) & Hthread).
  apply (continuation_decided_once draws 7 ControlExamples.me "l1" "t1" "t2" 100 2 waiting continued.1 _ later "t9" 999 0 [e] []).
  - exact waiting_valid.
  - reflexivity.
  - rewrite <- Hok. apply surjective_pairing.
  - discriminate.
  - exact Hv.
  - reflexivity.
  - exact Hcontrol.
  - exact Hthread.
  - intros e' ->%list_elem_of_singleton. rewrite Hk. split_and!; discriminate.
Defined.
(** ** A host that refuses the turn *)

(** The first submission is refused, as one past the limit of pending inputs is. *)
#[local] Instance busy_host : TurnHost (option (list (string * string))) := {|
  host_error := string;
  thread_coordinates thread _ := if N.eqb thread 7 then Ok ControlExamples.me else Err "no such thread";
  submit_turn _ turn text k :=
    match k with
    | None => (Some [], Err "max pending inputs")
    | Some turns => (Some (turns ++ [(turn, text)]), Ok tt)
    end;
|}.

Definition refused_world : LoopWorld (S := Handle) (K := option (list (string * string))) := {|
  loop_store := loop_store waiting; loop_host := None; loop_drawn := 0 |}.
Definition refused := continue_turn_if_requested draws 7 "l1" "t1" "t2" 100 2 refused_world.
Definition asked_again := continue_turn_if_requested draws 7 "l1" "t1" "t2" 101 2 refused.1.

(** Its [turn.submitted] is recorded by then, so asking again answers the acceptance and submits nothing. *)
Lemma refused_turn_never_submitted :
  refused.2 = Err (LoopHost "max pending inputs") /\
  asked_again.2 = Ok (ContinuationAccepted "l1" "t1" "t2" 80%N) /\ loop_host asked_again.1 = Some [].
Proof. split_and!; vm_compute; reflexivity. Qed.
End LoopExamples.
