(* ===== verification/Canonical.v ===== *)
(** * Canonical JSON

    Models [write_canonical_json] and [canonical_json_hash] of
    [verlet-kernel/src/agent/manifest_bind.rs], the text that configuration and
    policy hashes are taken of: no white space, the members of an object by key.

    The texts of strings and numbers are [serde_json]'s: the class [JsonTexts].
    The second part shows that the text identifies the value it is of. *)

From stdpp Require Import base countable gmap sets list strings pretty sorting.
From Stdlib Require Import ZArith Lia SpecFloat Ascii.
From S2P Require Import Prelude Json ReadPlan.

Local Open Scope verlet_scope.
Local Open Scope string_scope.
Local Open Scope list_scope.

Class JsonTexts := {
  to_writer : string -> result string string;  (** [serde_json::to_writer] of a string; the error is its text. *)
  number_text : number -> string;              (** [Number::to_string]. *)
}.

Section Canonical.
Context `{JsonTexts}.

Definition write_string (s : string) : result string string :=
  map_err (fun err => "failed to canonicalize coupling config: " +:+ err) (to_writer s).

(** The items of a list, each written where the one before it ended. *)
Fixpoint write_items (first : bool) (items : list (result string string)) : result string string :=
  match items with
  | [] => Ok ""
  | item :: items =>
      text <-? item ;;
      rest <-? write_items false items ;;
      Ok ((if first then "" else ",") +:+ text +:+ rest)
  end.

Definition write_member (member : string * result string string) : result string string :=
  key <-? write_string member.1 ;; value <-? member.2 ;; Ok (key +:+ ":" +:+ value).

(** [write_canonical_json]. *)
Fixpoint write_canonical_json (v : json) : result string string :=
  match v with
  | JNull => Ok "null"
  | JBool true => Ok "true"
  | JBool false => Ok "false"
  | JNumber n => Ok (number_text n)
  | JString s => write_string s
  | JArray l => items <-? write_items true (map write_canonical_json l) ;; Ok ("[" +:+ items +:+ "]")
  | JObject m =>
      members <-? write_items true (map write_member
        (sort_by_key fst (map (fun '(k, v) => (k, write_canonical_json v)) m))) ;;
      Ok ("{" +:+ members +:+ "}")
  end.

(** [canonical_json_hash]. *)
Definition canonical_json_hash `{Sha256} (v : json) : result string string :=
  text <-? write_canonical_json v ;; Ok ("sha256:" +:+ sha256_digest text).
End Canonical.

(** ** The value behind a text *)

(** The value with the members of every object by key. *)
Fixpoint canonical (v : json) : json :=
  match v with
  | JArray l => JArray (map canonical l)
  | JObject m => JObject (sort_by_key fst (map (fun '(k, v) => (k, canonical v)) m))
  | v => v
  end.

(** A number of the data model: an integer of 64 bits or a finite double. *)
Definition number_valid (n : number) : bool :=
  match n with
  | PosInt n => in_u64 n
  | NegInt n => in_i64 n && (n <? 0)%Z
  | Float (S754_zero _) => true
  | Float (S754_finite s m e) => valid_binary 53 1024 (S754_finite s m e)
  | Float _ => false
  end.

Fixpoint json_valid (v : json) : bool :=
  match v with
  | JNumber n => number_valid n
  | JArray l => forallb json_valid l
  | JObject m => forallb (fun '(_, v) => json_valid v) m
  | _ => true
  end.

(** * What a canonical text identifies

    Two values have the same canonical text exactly when they differ in the order
    of object members only, so a hash of the text names the value. *)

(** A character a number is written with. *)
Definition number_char (c : Ascii.ascii) : bool :=
  bool_decide (c ∈ String.list_ascii_of_string "0123456789+-.eE").
Definition number_start (c : Ascii.ascii) : bool := bool_decide (c ∈ String.list_ascii_of_string "0123456789-").

(** What is known of [serde_json]'s texts: a string is written between quotes and read up to the
    closing one; numbers have digits, a sign, a point and an exponent, and different numbers differ. *)
Class JsonTextsLaws `{JsonTexts} := {
  to_writer_quoted s : exists t, to_writer s = Ok (String (Ascii.ascii_of_N 34) t);
  to_writer_prefix a b ta tb r r' : to_writer a = Ok ta -> to_writer b = Ok tb -> ta +:+ r = tb +:+ r' -> a = b /\ r = r';
  number_text_chars n : number_valid n = true -> exists c t, number_text n = String c t /\ number_start c = true /\
    forallb number_char (String.list_ascii_of_string t) = true;
  number_text_inj a b : number_valid a = true -> number_valid b = true -> number_text a = number_text b -> a = b;
}.

(** ** Induction over nested values *)

Section Induction.
Variable P : json -> Prop.
Hypothesis P_null : P JNull.
Hypothesis P_bool : forall b, P (JBool b).
Hypothesis P_number : forall n, P (JNumber n).
Hypothesis P_string : forall s, P (JString s).
Hypothesis P_array : forall l, Forall P l -> P (JArray l).
Hypothesis P_object : forall m, Forall (fun kv => P kv.2) m -> P (JObject m).

Fixpoint json_nested_ind (v : json) : P v :=
  match v with
  | JNull => P_null
  | JBool b => P_bool b
  | JNumber n => P_number n
  | JString s => P_string s
  | JArray l =>
      P_array l ((fix go (l : list json) : Forall P l :=
        match l with
        | [] => @List.Forall_nil _ P
        | x :: l => @List.Forall_cons _ P x l (json_nested_ind x) (go l)
        end) l)
  | JObject m =>
      P_object m ((fix go (m : list (string * json)) : Forall (fun kv => P kv.2) m :=
        match m with
        | [] => @List.Forall_nil _ (fun kv => P kv.2)
        | kv :: m => @List.Forall_cons _ (fun kv => P kv.2) kv m (json_nested_ind kv.2) (go m)
        end) m)
  end.
End Induction.

(** ** Sorting *)

Lemma insert_by_key_map {A B} (ka : A -> string) (kb : B -> string) (f : A -> B) x l :
  (forall a, kb (f a) = ka a) -> insert_by_key kb (f x) (map f l) = map f (insert_by_key ka x l).
Proof.
  intros Hk. induction l as [|y l IH]; [done|]. cbn [map insert_by_key]. rewrite !Hk.
  destruct (str_cmp (ka x) (ka y)); [done..|]. cbn [map]. by rewrite IH.
Qed.

Lemma sort_by_key_map {A B} (ka : A -> string) (kb : B -> string) (f : A -> B) l :
  (forall a, kb (f a) = ka a) -> sort_by_key kb (map f l) = map f (sort_by_key ka l).
Proof.
  intros Hk. induction l as [|x l IH]; [done|]. unfold sort_by_key in *. cbn [map fold_right].
  rewrite IH. by apply insert_by_key_map.
Qed.

Definition key_lt {A} (a b : string * A) : Prop := str_cmp a.1 b.1 = Lt.

#[local] Instance key_lt_trans {A} : Transitive (key_lt (A := A)).
Proof. intros a b c. apply str_cmp_lt_trans. Qed.

(** The members of an object with distinct keys are ordered strictly. *)
Lemma sorted_members_strict {A} (m : list (string * A)) : NoDup m.*1 -> StronglySorted key_lt (sort_by_key fst m).
Proof.
  intros Hnd. apply Sorted_StronglySorted; [apply _|].
  pose proof (sort_by_key_sorted fst m) as Hs.
  assert (NoDup (sort_by_key fst m).*1) as Hnd' by (by rewrite sort_by_key_perm).
  induction Hs as [|[k v] l Hs IH Hhd]; [constructor|].
  cbn [fmap list_fmap fst] in Hnd'. apply NoDup_cons in Hnd' as [Hk Hnd']. constructor; [by apply IH|].
  destruct Hhd as [|[k' v'] l Hkk]; constructor. unfold key_lt. cbn [fst] in *.
  destruct (str_cmp k k') eqn:Hc; [|done|done]. apply str_cmp_eq in Hc as ->. set_solver.
Qed.

(** The order of the members is forgotten. *)
Lemma sort_members_perm {A} (m1 m2 : list (string * A)) :
  NoDup m1.*1 -> m1 ≡ₚ m2 -> sort_by_key fst m1 = sort_by_key fst m2.
Proof.
  intros Hnd Hp. assert (NoDup m2.*1) as Hnd2 by (by rewrite <- Hp).
  pose proof (sorted_members_strict m1 Hnd) as Hs1. pose proof (sorted_members_strict m2 Hnd2) as Hs2.
  assert (sort_by_key fst m1 ≡ₚ sort_by_key fst m2) as Hperm by (by rewrite !sort_by_key_perm).
  revert Hs1 Hs2 Hperm. generalize (sort_by_key fst m1), (sort_by_key fst m2). clear.
  induction l as [|x l IH]; intros l2 Hs1 Hs2 Hp; [by apply Permutation_nil in Hp|].
  destruct l2 as [|y l2]; [by apply Permutation_nil_r in Hp|].
  apply StronglySorted_inv in Hs1 as [Hs1 Hx]. apply StronglySorted_inv in Hs2 as [Hs2 Hy].
  assert (x = y) as ->.
  { assert (x ∈ y :: l2) as Hxin by (rewrite <- Hp; left). assert (y ∈ x :: l) as Hyin by (rewrite Hp; left).
    apply elem_of_cons in Hxin as [->|Hxin]; [done|]. apply elem_of_cons in Hyin as [->|Hyin]; [done|].
    rewrite Forall_forall in Hx, Hy. specialize (Hx y Hyin). specialize (Hy x Hxin).
    unfold key_lt in *. rewrite str_cmp_antisym, Hx in Hy. done. }
  f_equal. apply IH; [done..|]. by apply Permutation_cons_inv in Hp.
Qed.

(** ** Writing the value in order *)

Section Facts.
Context `{JsonTextsLaws}.

Definition key_text (s : string) : string := match to_writer s with Ok t => t | Err _ => "" end.

Lemma write_string_ok s : write_string s = Ok (key_text s).
Proof. unfold write_string, key_text. destruct (to_writer_quoted s) as [t ->]. done. Qed.

Fixpoint rest_items {A} (f : A -> string) (l : list A) : string :=
  match l with [] => "" | x :: l => "," +:+ f x +:+ rest_items f l end.
Definition all_items {A} (f : A -> string) (l : list A) : string :=
  match l with [] => "" | x :: l => f x +:+ rest_items f l end.

(** The text of a value whose members are in order. *)
Fixpoint render (v : json) : string :=
  match v with
  | JNull => "null"
  | JBool true => "true"
  | JBool false => "false"
  | JNumber n => number_text n
  | JString s => key_text s
  | JArray l => "[" +:+ all_items render l +:+ "]"
  | JObject m => "{" +:+ all_items (fun '(k, v) => key_text k +:+ ":" +:+ render v) m +:+ "}"
  end.

Lemma write_items_ok {A} (f : A -> result string string) (g : A -> string) first l :
  Forall (fun x => f x = Ok (g x)) l ->
  write_items first (map f l) = Ok (if first then all_items g l else rest_items g l).
Proof.
  intros Hl. revert first. induction Hl as [|x l Hx Hl IH]; intros first; [by destruct first|].
  cbn [map write_items]. rewrite Hx, (IH false). cbn [result_bind]. by destruct first.
Qed.

(** Members are written in order of their keys, and nothing else of the order shows. *)
Lemma write_renders v : write_canonical_json v = Ok (render (canonical v)).
Proof.
  induction v as [|[]|n|s|l IH|m IH] using json_nested_ind; try done.
  - apply write_string_ok.
  - cbn [write_canonical_json canonical render]. rewrite (write_items_ok _ (fun v => render (canonical v)) true l IH).
    cbn [result_bind]. do 3 f_equal. unfold all_items. destruct l as [|x l]; [done|]. cbn [map]. f_equal.
    clear IH. induction l as [|y l IH]; [done|]. cbn [map rest_items]. by rewrite IH.
  - cbn [write_canonical_json canonical render].
    rewrite !(sort_by_key_map fst fst) by (by intros []). rewrite map_map.
    set (members := sort_by_key fst m).
    assert (Forall (fun kv => write_canonical_json kv.2 = Ok (render (canonical kv.2))) members) as Hm
      by (unfold members; by rewrite sort_by_key_perm).
    rewrite (write_items_ok _ (fun kv => key_text kv.1 +:+ ":" +:+ render (canonical kv.2)) true members).
    + cbn [result_bind]. do 3 f_equal. clear IH Hm. generalize members. intros l. unfold all_items.
      destruct l as [|[k x] l]; [done|]. cbn [map fst snd]. f_equal.
      induction l as [|[k' y] l IH]; [done|]. cbn [map rest_items fst snd]. by rewrite IH.
    + eapply Forall_impl; [exact Hm|]. intros [k x] Hx. cbn [fst snd] in *. unfold write_member. cbn [fst snd].
      by rewrite write_string_ok, Hx.
Qed.

(** ** Reading a text back *)

(** What may follow a value. *)
Definition delimiter (c : Ascii.ascii) : bool := bool_decide (c ∈ String.list_ascii_of_string ",]}").
Definition delimited (r : string) : Prop :=
  match r with EmptyString => True | String c _ => delimiter c = true end.

Lemma render_head v : json_valid v = true -> exists c t, render v = String c t /\ delimiter c = false.
Proof.
  destruct v as [|[]|n|s|l|m]; intros Hv; cbn [render]; try (eexists _, _; by split).
  - destruct (number_text_chars n Hv) as (c & t & Hn & Hc & _). exists c, t. split; [done|].
    unfold number_start, delimiter in *. apply bool_decide_eq_true in Hc. apply bool_decide_eq_false. cbn in *. set_solver.
  - unfold key_text. destruct (to_writer_quoted s) as [t ->]. by eexists _, _.
Qed.

(** The characters of a number end where a delimiter or the text does. *)
Lemma number_span t t' r r' :
  forallb number_char (String.list_ascii_of_string t) = true -> forallb number_char (String.list_ascii_of_string t') = true ->
  delimited r -> delimited r' -> t +:+ r = t' +:+ r' -> t = t' /\ r = r'.
Proof.
  assert (forall c t r, number_char c = true -> delimited r -> r <> String c t) as Hne.
  { intros c u q Hc Hq ->. unfold delimited, delimiter, number_char in *.
    apply bool_decide_eq_true in Hc, Hq. cbn in *. set_solver. }
  revert t'. induction t as [|c t IH]; intros [|c' t'] Ht Ht' Hr Hr' Heq; cbn [String.append forallb String.list_ascii_of_string] in *.
  - by split.
  - apply andb_true_iff in Ht' as [Hc _]. destruct (Hne _ _ _ Hc Hr Heq).
  - apply andb_true_iff in Ht as [Hc _]. destruct (Hne _ _ _ Hc Hr' (eq_sym Heq)).
  - apply andb_true_iff in Ht as [_ Ht]. apply andb_true_iff in Ht' as [_ Ht']. injection Heq as -> Heq.
    by destruct (IH t' Ht Ht' Hr Hr' Heq) as [-> ->].
Qed.

(** Texts that are read back up to the delimiter after them. *)
Definition self_delimiting {A} (f : A -> string) (good : A -> Prop) (x : A) : Prop :=
  forall y r r', good x -> good y -> delimited r -> delimited r' -> f x +:+ r = f y +:+ r' -> x = y /\ r = r'.

Lemma rest_items_inj {A} (f : A -> string) (good : A -> Prop) l l' close r r' :
  delimiter close = true -> close <> Ascii.ascii_of_N 44 -> Forall (self_delimiting f good) l -> Forall good l -> Forall good l' ->
  rest_items f l +:+ String close r = rest_items f l' +:+ String close r' -> l = l' /\ r = r'.
Proof.
  intros Hclose Hcomma Hl. revert l'. induction Hl as [|x l Hx Hl IH]; intros [|y l'] Hgl Hgl' Heq; cbn [rest_items] in Heq.
  - by injection Heq as ->.
  - injection Heq as Hc _. done.
  - injection Heq as Hc _. done.
  - apply Forall_cons in Hgl as [Hgx Hgl], Hgl' as [Hgy Hgl']. injection Heq as Heq. rewrite !string_app_assoc in Heq.
    assert (forall k s, delimited (rest_items f k +:+ String close s)) as Hd by (by intros [|z k] s).
    apply Hx in Heq as [-> Heq]; [|done..]. by apply (IH l' Hgl Hgl') in Heq as [-> ->].
Qed.

(** The items of an array or an object are read back up to its closing bracket. *)
Lemma all_items_inj {A} (f : A -> string) (good : A -> Prop) l l' close r r' :
  delimiter close = true -> close <> Ascii.ascii_of_N 44 ->
  (forall x, good x -> exists c t, f x = String c t /\ delimiter c = false) ->
  Forall (self_delimiting f good) l -> Forall good l -> Forall good l' ->
  all_items f l +:+ String close r = all_items f l' +:+ String close r' -> l = l' /\ r = r'.
Proof.
  intros Hclose Hcomma Hhead Hl Hgl Hgl' Heq. destruct l as [|x l], l' as [|y l']; cbn [all_items] in Heq.
  - by injection Heq as ->.
  - apply Forall_cons in Hgl' as [Hgy _]. destruct (Hhead y Hgy) as (c & t & Hf & Hc). rewrite Hf in Heq.
    injection Heq as -> _. by rewrite Hc in Hclose.
  - apply Forall_cons in Hgl as [Hgx _]. destruct (Hhead x Hgx) as (c & t & Hf & Hc). rewrite Hf in Heq.
    injection Heq as -> _. by rewrite Hc in Hclose.
  - apply Forall_cons in Hl as [Hx Hl], Hgl as [Hgx Hgl], Hgl' as [Hgy Hgl']. rewrite !string_app_assoc in Heq.
    assert (forall k s, delimited (rest_items f k +:+ String close s)) as Hd by (by intros [|z k] s).
    apply Hx in Heq as [-> Heq]; [|done..].
    by apply (rest_items_inj f good) in Heq as [-> ->].
Qed.

Definition member_text (member : string * json) : string := key_text member.1 +:+ ":" +:+ render member.2.

Lemma render_object m : render (JObject m) = "{" +:+ all_items member_text m +:+ "}".
Proof.
  cbn [render]. do 2 f_equal. unfold all_items. destruct m as [|[k x] m]; [done|]. f_equal.
  induction m as [|[k' y] m IH]; [done|]. cbn [rest_items]. by rewrite IH.
Qed.

Lemma key_text_prefix a b r r' : key_text a +:+ r = key_text b +:+ r' -> a = b /\ r = r'.
Proof.
  unfold key_text. destruct (to_writer_quoted a) as [ta Ha], (to_writer_quoted b) as [tb Hb]. rewrite Ha, Hb.
  by apply to_writer_prefix.
Qed.

Lemma key_text_head k : exists t, key_text k = String (Ascii.ascii_of_N 34) t.
Proof. unfold key_text. destruct (to_writer_quoted k) as [t ->]. by exists t. Qed.

Lemma number_text_prefix n n' r r' :
  number_valid n = true -> number_valid n' = true -> delimited r -> delimited r' ->
  number_text n +:+ r = number_text n' +:+ r' -> n = n' /\ r = r'.
Proof.
  intros Hn Hn' Hr Hr' Heq.
  destruct (number_text_chars n Hn) as (c & t & Ht & _ & Hall), (number_text_chars n' Hn') as (c' & t' & Ht' & _ & Hall').
  rewrite Ht, Ht' in Heq. injection Heq as -> Heq. destruct (number_span t t' r r') as [-> ->]; [done..|].
  split; [|done]. apply number_text_inj; [done..|congruence].
Qed.

(** The first character tells the kind of a value. *)
Definition kind_char (v : json) (c : Ascii.ascii) : bool :=
  match v with
  | JNull => Ascii.eqb c "n"
  | JBool true => Ascii.eqb c "t"
  | JBool false => Ascii.eqb c "f"
  | JNumber _ => number_start c
  | JString _ => Ascii.eqb c (Ascii.ascii_of_N 34)
  | JArray _ => Ascii.eqb c "["
  | JObject _ => Ascii.eqb c "{"
  end%char.

Definition same_kind (a b : json) : Prop :=
  match a, b with
  | JNull, JNull | JNumber _, JNumber _ | JString _, JString _ | JArray _, JArray _ | JObject _, JObject _ => True
  | JBool x, JBool y => x = y
  | _, _ => False
  end.

Lemma render_kind v : json_valid v = true -> exists c t, render v = String c t /\ kind_char v c = true.
Proof.
  destruct v as [|[]|n|s|l|m]; intros Hv; cbn [render]; try (eexists _, _; by split).
  - destruct (number_text_chars n Hv) as (c & t & Hn & Hc & _). by exists c, t.
  - destruct (key_text_head s) as [t ->]. by eexists _, _.
Qed.

Lemma kind_char_inj a b c : kind_char a c = true -> kind_char b c = true -> same_kind a b.
Proof.
  assert (forall d, number_start d = true -> d <> "n"%char /\ d <> "t"%char /\ d <> "f"%char /\ d <> Ascii.ascii_of_N 34 /\
                    d <> "["%char /\ d <> "{"%char) as Hstart.
  { intros d Hd. unfold number_start in Hd. apply bool_decide_eq_true in Hd. split_and!; intros ->; cbn in Hd; set_solver. }
  destruct a as [|[]| | | |], b as [|[]| | | |]; cbn [kind_char same_kind]; try done; intros Ha Hb;
    repeat match goal with
    | Hq : Ascii.eqb _ _ = true |- _ => apply Ascii.eqb_eq in Hq; subst
    | Hq : number_start _ = true |- _ => apply Hstart in Hq
    end; naive_solver.
Qed.

Lemma render_same_kind a b r r' :
  json_valid a = true -> json_valid b = true -> render a +:+ r = render b +:+ r' -> same_kind a b.
Proof.
  intros Ha Hb Heq. destruct (render_kind a Ha) as (c & t & Hta & Hca), (render_kind b Hb) as (c' & t' & Htb & Hcb).
  rewrite Hta, Htb in Heq. injection Heq as -> _. by eapply kind_char_inj.
Qed.

Lemma valid_items l : json_valid (JArray l) = true -> Forall (fun v => json_valid v = true) l.
Proof. cbn [json_valid]. rewrite forallb_forall, Forall_forall. intros Hl x Hx. by apply Hl, list_elem_of_In. Qed.
Lemma valid_members m : json_valid (JObject m) = true -> Forall (fun kv => json_valid kv.2 = true) m.
Proof.
  cbn [json_valid]. rewrite forallb_forall, Forall_forall. intros Hm [k x] Hx. by apply (Hm (k, x)), list_elem_of_In.
Qed.

(** A text is the text of one value. *)
Lemma render_inj v : self_delimiting render (fun v => json_valid v = true) v.
Proof.
  induction v as [|x|n|s|l IH|m IH] using json_nested_ind; intros w r r' Hv Hw Hr Hr' Heq;
    pose proof (render_same_kind _ _ _ _ Hv Hw Heq) as Hk; destruct w as [|y|n'|s'|l'|m']; cbn [same_kind] in Hk; try done.
  - injection Heq as Heq. split; [done|exact Heq].
  - subst y. destruct x; injection Heq as Heq; (split; [done|exact Heq]).
  - apply (number_text_prefix n n') in Heq as [-> ->]; done.
  - apply (key_text_prefix s s') in Heq as [-> ->]. done.
  - cbn [render] in Heq. injection Heq as Heq. rewrite !string_app_assoc in Heq.
    apply (all_items_inj render (fun v => json_valid v = true)) in Heq as [-> ->];
      [done|done|done|exact render_head|exact IH|by apply valid_items|by apply valid_items].
  - rewrite !render_object in Heq. injection Heq as Heq. rewrite !string_app_assoc in Heq.
    apply (all_items_inj member_text (fun kv => json_valid kv.2 = true)) in Heq as [-> ->];
      [done|done|done| | |by apply valid_members|by apply valid_members].
    + intros [k x] _. unfold member_text. cbn [fst]. destruct (key_text_head k) as [t ->]. by eexists _, _.
    + eapply Forall_impl; [exact IH|]. intros [k x] Hx [k' y] q q' Hgx Hgy Hq Hq'. unfold member_text. cbn [fst snd] in *.
      rewrite !string_app_assoc. intros Hm. apply key_text_prefix in Hm as [-> Hm]. injection Hm as Hm.
      by apply Hx in Hm as [-> ->].
Qed.

Lemma canonical_valid v : json_valid (canonical v) = json_valid v.
Proof.
  induction v as [|x|n|s|l IH|m IH] using json_nested_ind; try done; cbn [canonical json_valid].
  - induction IH as [|x l Hx _ IHl]; [done|]. cbn [map forallb]. by rewrite Hx, IHl.
  - transitivity (forallb (fun '(_, v) => json_valid v) (map (fun '(k, v) => (k, canonical v)) m)).
    + apply eq_true_iff_eq. rewrite !forallb_forall. split; intros Hm [k x] Hx; apply (Hm (k, x));
        apply list_elem_of_In; apply list_elem_of_In in Hx; [by rewrite sort_by_key_perm|by rewrite sort_by_key_perm in Hx].
    + induction IH as [|[k x] m Hx _ IHm]; [done|]. cbn [map forallb snd] in *. by rewrite Hx, IHm.
Qed.

(** C24 - The canonical text of a value always exists, and two values have the same one exactly when
    they are the same once the members of every object are put in order; so the hash taken of it
    tells configurations apart as well as the digest does.  Listing the members of an object in
    another order changes nothing. *)
Theorem canonical_text_identifies v w :
  json_valid v = true -> json_valid w = true ->
  is_ok (write_canonical_json v) = true /\
  (write_canonical_json v = write_canonical_json w <-> canonical v = canonical w) /\
  (forall m m', v = JObject m -> w = JObject m' -> NoDup m.*1 -> m ≡ₚ m' -> canonical v = canonical w).
Proof.
  intros Hv Hw. rewrite !write_renders. split_and!; [done| |].
  - split; [|by intros ->]. intros [= Heq].
    destruct (render_inj (canonical v) (canonical w) "" ""); rewrite ?canonical_valid; try done. by rewrite Heq.
  - intros m m' -> -> Hnd Hp. cbn [canonical]. f_equal. apply sort_members_perm; [|by apply Permutation_map].
    assert ((map (fun '(k, v) => (k, canonical v)) m).*1 = m.*1) as ->; [|exact Hnd].
    clear. induction m as [|[k x] m IH]; [done|]. cbn [map fmap list_fmap fst]. by f_equal.
Qed.
End Facts.

(** * A configuration in two orders

    The theorem above with a quoting writer: the members of an
    object in two orders have one text, another value has another. *)

Module CanonicalExamples.
(** ** A writer *)

Definition quote : ascii := ascii_of_N 34.
Definition backslash : ascii := ascii_of_N 92.

(** A string between quotes, a quote or a backslash in it after a backslash. *)
Fixpoint quoted (s : string) : string :=
  match s with
  | EmptyString => String quote ""
  | String c s => if Ascii.eqb c quote || Ascii.eqb c backslash then String backslash (String c (quoted s)) else String c (quoted s)
  end.

Fixpoint ones (n : nat) : string := match n with O => "" | S n => String "1" (ones n) end.

Definition number_code (n : number) : Z + Z + (bool + (bool * positive * Z)) :=
  match n with
  | PosInt n => inl (inl n)
  | NegInt n => inl (inr n)
  | Float (S754_finite s m e) => inr (inr (s, m, e))
  | Float (S754_zero s) => inr (inl s)
  | Float _ => inr (inl false)
  end.

#[local] Instance texts : JsonTexts := {|
  to_writer s := Ok (String quote (quoted s));
  number_text n := String "1" (ones (encode_nat (number_code n)));
|}.

Lemma quoted_prefix a b r r' : quoted a +:+ r = quoted b +:+ r' -> a = b /\ r = r'.
Proof.
  revert b. induction a as [|c a IH]; intros [|d b] Heq; cbn [quoted] in Heq.
  - injection Heq as Heq. split; [done|exact Heq].
  - destruct (Ascii.eqb d quote || Ascii.eqb d backslash) eqn:Hd; injection Heq as Hc _; [discriminate Hc|].
    rewrite <- Hc in Hd. discriminate Hd.
  - destruct (Ascii.eqb c quote || Ascii.eqb c backslash) eqn:Hd; injection Heq as Hc _; [discriminate Hc|].
    rewrite Hc in Hd. discriminate Hd.
  - destruct (Ascii.eqb c quote || Ascii.eqb c backslash) eqn:Hc, (Ascii.eqb d quote || Ascii.eqb d backslash) eqn:Hd.
    + injection Heq as -> Heq. by destruct (IH b Heq) as [-> ->].
    + injection Heq as <- _. discriminate Hd.
    + injection Heq as -> _. discriminate Hc.
    + injection Heq as -> Heq. by destruct (IH b Heq) as [-> ->].
Qed.

Lemma ones_inj n m : ones n = ones m -> n = m.
Proof. revert m. induction n as [|n IH]; intros [|m]; cbn [ones]; try done. intros [= Heq]. by rewrite (IH m Heq). Qed.

#[local] Instance texts_read_back : JsonTextsLaws.
Proof.
  split.
  - intros s. by eexists.
  - intros a b ta tb r r' [= <-] [= <-] Heq. injection Heq as Heq. by apply quoted_prefix.
  - intros n _. eexists _, _. split_and!; [reflexivity..|]. induction (encode_nat (number_code n)) as [|k IH]; [done|exact IH].
  - intros a b Ha Hb [= Heq]. apply ones_inj, (inj encode_nat) in Heq.
    destruct a as [a|a|[| | |]], b as [b|b|[| | |]]; cbn in Ha, Hb, Heq; try done; congruence.
Qed.

(** ** Two orders of a configuration *)

Definition config : json := JObject [("window", JString "tail"); ("max", JArray [JNull; JBool true])].
Definition reordered : json := JObject [("max", JArray [JNull; JBool true]); ("window", JString "tail")].
Definition other : json := JObject [("window", JString "head"); ("max", JArray [JNull; JBool true])].

Lemma canonical_text_identifies_witness :
  write_canonical_json config = write_canonical_json reordered /\
  write_canonical_json config <> write_canonical_json other.
Proof.
  destruct (canonical_text_identifies config reordered eq_refl eq_refl) as (_ & Hsame & Hperm).
  destruct (canonical_text_identifies config other eq_refl eq_refl) as (_ & Hother & _). split.
  - apply Hsame. eapply Hperm; [reflexivity|reflexivity| |].
    + refine (bool_decide_eq_true_1 _ _). vm_compute. reflexivity.
    + apply Permutation_swap.
  - intros Heq. apply Hother in Heq. discriminate Heq.
Defined.
End CanonicalExamples.
