(* ===== verification/Admission.v ===== *)
(** * Turn admission and the turn watchdog

    Models [verlet-kernel/src/kernel/admission.rs], the reservation of a turn in
    [kernel/runtime_host.rs] ([reserve_turn_submission_at_choke_point],
    [ReservedTurnSubmission::submit_unchecked], [spawn_turn_timeout_watchdog]) and
    the tokens a queued input carries ([kernel/runtime_host/turn.rs]).

    Callers, the runtime and the watchdogs of one thread run at the same time: the
    state is [RuntimeThread], a caller is an attempt with a phase, and each function
    below is what one of them does between two points where others may run.  An
    attempt may be dropped wherever the code awaits.  [tokio]'s semaphore and
    channel are the classes [Semaphore] and [CommandChannel]. *)

From stdpp Require Import base gmap sets list strings pretty.
From Stdlib Require Import NArith ZArith Lia.
From S2P Require Import Prelude Json EventKind Contracts Records Store EventLog ReadPlan Canonical.

Local Open Scope verlet_scope.
Local Open Scope string_scope.
Local Open Scope list_scope.

(** ** Surfaces and policies *)

Definition HOST_SUBMIT_SURFACE := "host-submit".
Definition APP_SERVER_RPC_SURFACE := "app-server-rpc".
Definition APP_SERVER_ENVELOPE_INGRESS_SURFACE := "app-server-envelope-ingress".
Definition MCP_ADAPTER_SURFACE := "mcp-adapter".
Definition ACP_ADAPTER_SURFACE := "acp-adapter".
Definition DEBUG_RPC_SURFACE := "debug-rpc".
Definition TELEGRAM_WEBHOOK_SURFACE := "telegram-webhook-ingress".
Definition PGQRS_QUEUE_SURFACE := "pgqrs-queue-ingress".
Definition REMOTE_SYNC_INGRESS_SURFACE := "remote-sync-ingress".
Definition KERNEL_THREAD_SUBMIT_SURFACE := "kernel-thread-submit".

Definition TURN_ENTRY_SURFACES : list string :=
  [HOST_SUBMIT_SURFACE; APP_SERVER_RPC_SURFACE; APP_SERVER_ENVELOPE_INGRESS_SURFACE; MCP_ADAPTER_SURFACE;
   ACP_ADAPTER_SURFACE; DEBUG_RPC_SURFACE; TELEGRAM_WEBHOOK_SURFACE; PGQRS_QUEUE_SURFACE;
   REMOTE_SYNC_INGRESS_SURFACE; KERNEL_THREAD_SUBMIT_SURFACE].

Definition app_server_surface (client_name : option string) : string :=
  match client_name with
  | Some name =>
      if String.eqb name "verlet-mcp-server" then MCP_ADAPTER_SURFACE
      else if String.eqb name "verlet-acp-agent" then ACP_ADAPTER_SURFACE
      else if String.eqb name "verlet-debug-rpc" then DEBUG_RPC_SURFACE
      else APP_SERVER_RPC_SURFACE
  | None => APP_SERVER_RPC_SURFACE
  end.

(** [AdmissionDecision] of [verlet-history]. *)
Inductive AdmissionDecision := AdmitQueue | AdmitSteer | AdmitInterrupt | AdmitFork | AdmitObserve | AdmitReject | AdmitCoalesce.

Definition admission_name (d : AdmissionDecision) : string :=
  match d with
  | AdmitQueue => "queue" | AdmitSteer => "steer" | AdmitInterrupt => "interrupt" | AdmitFork => "fork"
  | AdmitObserve => "observe" | AdmitReject => "reject" | AdmitCoalesce => "coalesce"
  end.

Record AdmissionGateContext := {
  route_id : string;
  policy_hash : string;
  decision : AdmissionDecision;
  admissible : option (list AdmissionDecision);
  source_ingress_event_ids : list EventRecordId;
  gate_discharged_by : string;
  gate_function : string;
}.

(** [AdmissionGateContext::route_policy]. *)
Definition route_policy (route policy : string) (d : AdmissionDecision) (choices : list AdmissionDecision)
    (sources : list EventRecordId) : AdmissionGateContext := {|
  route_id := route; policy_hash := policy; decision := d; admissible := Some choices;
  source_ingress_event_ids := sources;
  gate_discharged_by := "policy:admission_route:" +:+ route; gate_function := "admission_route/v1" |}.

Definition surface_default_policy (route : string) : json :=
  jobj [("schema", JString "cooldis.admission.surface_policy/1"); ("route_id", JString route);
        ("decision", JString "queue"); ("admissible", JArray [JString "queue"])].

(** [AdmissionGateContext::surface_default]; the error is the text of the failed hash. *)
Definition surface_default `{JsonTexts} `{Sha256} (surface : string) (sources : list EventRecordId)
    : result AdmissionGateContext string :=
  let route := "surface:" +:+ surface in
  policy <-? canonical_json_hash (surface_default_policy route) ;;
  Ok {| route_id := route; policy_hash := policy; decision := AdmitQueue; admissible := Some [AdmitQueue];
        source_ingress_event_ids := sources;
        gate_discharged_by := "policy:admission_surface:" +:+ surface; gate_function := "surface_admission/v1" |}.

(** [admission_decided_record]; the payload is [AdmissionDecidedPayload] with its schema. *)
Definition admission_decided_payload `{UuidText} (c : AdmissionGateContext) : json :=
  jobj ([("route_id", JString (route_id c)); ("policy_hash", JString (policy_hash c));
         ("decision", JString (admission_name (decision c)))] ++
        opt_field "admissible" (fun ds => JArray (map (fun d => JString (admission_name d)) ds)) (admissible c) ++
        [("source_ingress_event_ids", JArray (map (fun id => JString (uuid_text id)) (source_ingress_event_ids c)));
         ("schema", JString (payload_schema_id AdmissionDecided))]).

Definition admission_decided_record `{UuidText} (id : EventRecordId) (now : Z) (coordinates : ThreadCoordinates)
    (c : AdmissionGateContext) : NewEventRecord :=
  discharged id now coordinates AdmissionDecided (admission_decided_payload c)
    (mk_provenance ["control:" +:+ uuid_text (thread_id coordinates)] (source_ingress_event_ids c) None []
       (Some (gate_discharged_by c)) (Some (gate_function c)) (Some (policy_hash c))).

(** ** Commands, tokens and statuses *)

Inductive TurnSubmissionMode := ModeQueue | ModeSteer | ModeInterrupt.
#[global] Instance TurnSubmissionMode_eq_dec : EqDecision TurnSubmissionMode.
Proof. solve_decision. Defined.

(** An input is the lease it carries, named by the attempt that made it. *)
Notation InputLease := nat (only parsing).

Inductive CompactionTrigger := ManualCompaction | AutoCompaction.
Inductive ThreadCommand :=
  | Submit (turn_id : string) (input : InputLease) (mode : TurnSubmissionMode)
  | Compact (turn_id : string) (trigger : CompactionTrigger) (summary : option string)
  | ResumeToolCall (turn_id call_id : string)
  | CancelThread (reason : string)
  | CancelTurn (watchdog_token_id : N) (reason : string)
  | Shutdown.

Inductive ThreadStatus := Starting | Idle | Running | Cancelling | Stopped | ThreadFailed.
#[global] Instance ThreadStatus_eq_dec : EqDecision ThreadStatus.
Proof. solve_decision. Defined.

Inductive TurnWatchdogPhase := WatchdogPending | WatchdogActive | WatchdogTimedOut | WatchdogFinished.
#[global] Instance TurnWatchdogPhase_eq_dec : EqDecision TurnWatchdogPhase.
Proof. solve_decision. Defined.

(** The token's id, the atomic phase and the phase last published. *)
Record TurnWatchdogState := { token_id : N; phase : TurnWatchdogPhase; updates : TurnWatchdogPhase }.

(** What an input carries: the pending-input permit and the watchdog's state. *)
Record TurnLease := { pending_input_permit : bool; turn_watchdog : option TurnWatchdogState }.

Inductive TurnError :=
  | RuntimeExecution (text : string)
  | ThreadPolicyViolation (code message : string)
  | ThreadClosed
  | AdmissionFailed (e : VerletError).

Inductive RuntimeEventKind :=
  | PolicyRejected (code message : string)
  | Timeout (operation : string) (timeout_ms : Z)
  | TerminalTimedOut
  | RecoveryEvent (action reason : string)
  | FailedEvent (code message : string).

(** ** The thread *)

Inductive TryAcquireError := NoPermits | SemaphoreClosed.
Class Semaphore (Sem : Type) := {
  max_permits : N;
  new_semaphore : N -> Sem;
  available_permits : Sem -> N;
  try_acquire_owned : Sem -> result Sem TryAcquireError;
  release_permit : Sem -> Sem;
}.

Inductive TrySendError := ChannelFull | ChannelClosed.
Class CommandChannel (Ch : Type) := {
  new_channel : N -> Ch;
  messages : Ch -> list ThreadCommand;
  reserved : Ch -> N;                              (** Permits that were reserved and not used. *)
  try_reserve : Ch -> result Ch TrySendError;
  send_permit : ThreadCommand -> Ch -> Ch;
  drop_permit : Ch -> Ch;
  receive : Ch -> option (ThreadCommand * Ch);
  close : Ch -> Ch;                                (** The receiver and what it had queued are gone. *)
}.

(** [RuntimeServices::run_bound_couplings], after an append. *)
Class BoundCouplings (S : Type) := { run_bound_couplings : list EventRecord -> S -> S * VerletResult unit }.

Record RuntimeExecutionPolicy := {
  turn_timeout_ms : option Z;
  cancel_grace_timeout_ms : option Z;
  max_pending_inputs : option N;
}.

(** Where a caller is in [reserve_turn_submission_at_choke_point] and [submit_unchecked]. *)
Inductive AttemptPhase :=
  | TurnReserved          (** The turn id is reserved, the pending-input slot is next. *)
  | NoSlot                (** The slot was refused, the refusal is to be reported. *)
  | AwaitingCommand       (** Awaits room in the command channel. *)
  | AwaitingAdmission     (** Awaits the append of [admission.decided]. *)
  | Ready                 (** Holds a [ReservedTurnSubmission]. *)
  | Duplicate             (** Holds the empty submission of a turn id reserved before. *)
  | Sent                  (** The command is sent, the signal is to be recorded. *)
  | Submitted             (** [submit_unchecked] returned [true]. *)
  | Unsubmitted           (** [submit_unchecked] returned [false]. *)
  | Rejected (e : TurnError)
  | Dropped.
#[global] Instance AttemptPhase_inhabited : Inhabited AttemptPhase := populate Dropped.

Record Attempt := {
  attempt_turn_id : string;
  attempt_mode : TurnSubmissionMode;
  attempt_admission : option AdmissionGateContext;
  attempt_phase : AttemptPhase;
}.

(** The task of [spawn_turn_timeout_watchdog]. *)
Inductive WatchdogTask :=
  | WaitingForStart
  | Sleeping
  | TimingOut             (** The phase is set, the update is to be published. *)
  | RequestingCancel      (** Published; [CancelTurn] is to be sent. *)
  | SignallingCancel
  | Grace
  | WatchdogDone.
#[global] Instance WatchdogTask_eq_dec : EqDecision WatchdogTask.
Proof. solve_decision. Defined.

Section Thread.
Context `{UuidText} {S : Type} `{EventAppend S} `{BoundCouplings S} {Sem : Type} `{Semaphore Sem} {Ch : Type} `{CommandChannel Ch}.
Variable me : ThreadCoordinates.
Variable execution_policy : RuntimeExecutionPolicy.

(** [RuntimeThread], what it shares with its callers, and the tasks on it.  [held] are the inputs
    the runtime took from the channel and still has. *)
Record RuntimeThread := {
  runtime_store : S;
  turn_reservations : gset string;
  pending_input_slots : option Sem;
  command_channel : Ch;
  turn_watchdog_sequence : N;
  leases : gmap InputLease TurnLease;
  attempts : gmap nat Attempt;
  held : gset InputLease;
  watchdog_tasks : gmap InputLease WatchdogTask;
  status : ThreadStatus;
  cancellation : bool;
  emitted : list RuntimeEventKind;
  latest_signal : option (N * Z);
}.
Implicit Types (t : RuntimeThread) (a : InputLease).

(** [start_runtime]: the capacities of the channel and of the pending-input slots. *)
Definition slot_limit : option N := (fun limit => N.min limit max_permits) <$> max_pending_inputs execution_policy.
Definition command_channel_capacity : N := N.max (N.min (default 512%N (max_pending_inputs execution_policy)) max_permits) 512.
Definition started_thread (store : S) : RuntimeThread := {|
  runtime_store := store; turn_reservations := ∅; pending_input_slots := new_semaphore <$> slot_limit;
  command_channel := new_channel command_channel_capacity; turn_watchdog_sequence := 0;
  leases := ∅; attempts := ∅; held := ∅; watchdog_tasks := ∅;
  status := Starting; cancellation := false; emitted := []; latest_signal := None |}.

(** ** Parts of the state *)

Definition set_store (s : S) t := {| runtime_store := s; turn_reservations := turn_reservations t;
  pending_input_slots := pending_input_slots t; command_channel := command_channel t;
  turn_watchdog_sequence := turn_watchdog_sequence t; leases := leases t; attempts := attempts t; held := held t;
  watchdog_tasks := watchdog_tasks t; status := status t; cancellation := cancellation t; emitted := emitted t;
  latest_signal := latest_signal t |}.
Definition set_reservations (r : gset string) t := {| runtime_store := runtime_store t; turn_reservations := r;
  pending_input_slots := pending_input_slots t; command_channel := command_channel t;
  turn_watchdog_sequence := turn_watchdog_sequence t; leases := leases t; attempts := attempts t; held := held t;
  watchdog_tasks := watchdog_tasks t; status := status t; cancellation := cancellation t; emitted := emitted t;
  latest_signal := latest_signal t |}.
Definition set_slots (o : option Sem) t := {| runtime_store := runtime_store t; turn_reservations := turn_reservations t;
  pending_input_slots := o; command_channel := command_channel t;
  turn_watchdog_sequence := turn_watchdog_sequence t; leases := leases t; attempts := attempts t; held := held t;
  watchdog_tasks := watchdog_tasks t; status := status t; cancellation := cancellation t; emitted := emitted t;
  latest_signal := latest_signal t |}.
Definition set_channel (c : Ch) t := {| runtime_store := runtime_store t; turn_reservations := turn_reservations t;
  pending_input_slots := pending_input_slots t; command_channel := c;
  turn_watchdog_sequence := turn_watchdog_sequence t; leases := leases t; attempts := attempts t; held := held t;
  watchdog_tasks := watchdog_tasks t; status := status t; cancellation := cancellation t; emitted := emitted t;
  latest_signal := latest_signal t |}.
Definition set_sequence (n : N) t := {| runtime_store := runtime_store t; turn_reservations := turn_reservations t;
  pending_input_slots := pending_input_slots t; command_channel := command_channel t;
  turn_watchdog_sequence := n; leases := leases t; attempts := attempts t; held := held t;
  watchdog_tasks := watchdog_tasks t; status := status t; cancellation := cancellation t; emitted := emitted t;
  latest_signal := latest_signal t |}.
Definition set_lease a (l : TurnLease) t := {| runtime_store := runtime_store t; turn_reservations := turn_reservations t;
  pending_input_slots := pending_input_slots t; command_channel := command_channel t;
  turn_watchdog_sequence := turn_watchdog_sequence t; leases := <[a := l]> (leases t); attempts := attempts t; held := held t;
  watchdog_tasks := watchdog_tasks t; status := status t; cancellation := cancellation t; emitted := emitted t;
  latest_signal := latest_signal t |}.
Definition set_attempt a (att : Attempt) t := {| runtime_store := runtime_store t; turn_reservations := turn_reservations t;
  pending_input_slots := pending_input_slots t; command_channel := command_channel t;
  turn_watchdog_sequence := turn_watchdog_sequence t; leases := leases t; attempts := <[a := att]> (attempts t); held := held t;
  watchdog_tasks := watchdog_tasks t; status := status t; cancellation := cancellation t; emitted := emitted t;
  latest_signal := latest_signal t |}.
Definition set_held (h : gset InputLease) t := {| runtime_store := runtime_store t; turn_reservations := turn_reservations t;
  pending_input_slots := pending_input_slots t; command_channel := command_channel t;
  turn_watchdog_sequence := turn_watchdog_sequence t; leases := leases t; attempts := attempts t; held := h;
  watchdog_tasks := watchdog_tasks t; status := status t; cancellation := cancellation t; emitted := emitted t;
  latest_signal := latest_signal t |}.
Definition set_task a (k : WatchdogTask) t := {| runtime_store := runtime_store t; turn_reservations := turn_reservations t;
  pending_input_slots := pending_input_slots t; command_channel := command_channel t;
  turn_watchdog_sequence := turn_watchdog_sequence t; leases := leases t; attempts := attempts t; held := held t;
  watchdog_tasks := <[a := k]> (watchdog_tasks t); status := status t; cancellation := cancellation t; emitted := emitted t;
  latest_signal := latest_signal t |}.
Definition set_thread_status (k : ThreadStatus) (cancelled : bool) t := {| runtime_store := runtime_store t;
  turn_reservations := turn_reservations t; pending_input_slots := pending_input_slots t; command_channel := command_channel t;
  turn_watchdog_sequence := turn_watchdog_sequence t; leases := leases t; attempts := attempts t; held := held t;
  watchdog_tasks := watchdog_tasks t; status := k; cancellation := cancelled || cancellation t; emitted := emitted t;
  latest_signal := latest_signal t |}.
Definition emit_runtime (e : RuntimeEventKind) t := {| runtime_store := runtime_store t; turn_reservations := turn_reservations t;
  pending_input_slots := pending_input_slots t; command_channel := command_channel t;
  turn_watchdog_sequence := turn_watchdog_sequence t; leases := leases t; attempts := attempts t; held := held t;
  watchdog_tasks := watchdog_tasks t; status := status t; cancellation := cancellation t; emitted := emitted t ++ [e];
  latest_signal := latest_signal t |}.
Definition record_signal (id : N) (now : Z) t := {| runtime_store := runtime_store t; turn_reservations := turn_reservations t;
  pending_input_slots := pending_input_slots t; command_channel := command_channel t;
  turn_watchdog_sequence := turn_watchdog_sequence t; leases := leases t; attempts := attempts t; held := held t;
  watchdog_tasks := watchdog_tasks t; status := status t; cancellation := cancellation t; emitted := emitted t;
  latest_signal := Some (id, now) |}.

Definition set_phase a (p : AttemptPhase) t : RuntimeThread :=
  match attempts t !! a with
  | Some att => set_attempt a {| attempt_turn_id := attempt_turn_id att; attempt_mode := attempt_mode att;
                                 attempt_admission := attempt_admission att; attempt_phase := p |} t
  | None => t
  end.

(** ** The tokens of an input *)

Definition set_watchdog_phase (p published : TurnWatchdogPhase) (l : TurnLease) : TurnLease := {|
  pending_input_permit := pending_input_permit l;
  turn_watchdog := (fun w => {| token_id := token_id w; phase := p; updates := published |}) <$> turn_watchdog l |}.
Definition watchdog_phase t a : option TurnWatchdogPhase := l ← leases t !! a; phase <$> turn_watchdog l.
Definition watchdog_updates t a : option TurnWatchdogPhase := l ← leases t !! a; updates <$> turn_watchdog l.

(** The pending-input permit of an input goes back to its semaphore. *)
Definition release_slot a t : RuntimeThread :=
  match leases t !! a with
  | Some l =>
      if pending_input_permit l
      then set_lease a {| pending_input_permit := false; turn_watchdog := turn_watchdog l |}
             (set_slots (release_permit <$> pending_input_slots t) t)
      else t
  | None => t
  end.

(** [Drop for TurnWatchdogLease], and the drop of the permit: the last clone of the input is gone. *)
Definition drop_input a t : RuntimeThread :=
  let t := release_slot a t in
  match leases t !! a with
  | Some l => set_lease a (set_watchdog_phase WatchdogFinished WatchdogFinished l) t
  | None => t
  end.

(** [TurnInput::start_turn_watchdog]: the slot is released, [Pending] becomes [Active]. *)
Definition start_turn_watchdog a t : RuntimeThread :=
  let t := release_slot a t in
  match leases t !! a with
  | Some l =>
      if bool_decide (watchdog_phase t a = Some WatchdogPending)
      then set_lease a (set_watchdog_phase WatchdogActive WatchdogActive l) t else t
  | None => t
  end.

(** ** Reserving a turn *)

Definition holds_command_permit (p : AttemptPhase) : bool :=
  match p with AwaitingAdmission | Ready => true | _ => false end.

(** The attempt ends before it sends: what it reserved is dropped ([Drop for TurnIdReservation],
    the command permit, the input). *)
Definition abandon a (outcome : AttemptPhase) t : RuntimeThread :=
  match attempts t !! a with
  | Some att =>
      let t := drop_input a t in
      let t := if holds_command_permit (attempt_phase att) then set_channel (drop_permit (command_channel t)) t else t in
      set_phase a outcome (set_reservations (turn_reservations t ∖ {[attempt_turn_id att]}) t)
  | None => t
  end.

(** [reserve_turn_submission_at_choke_point], to the reservation of the turn id. *)
Definition begin_reserve a (turn : string) (mode : TurnSubmissionMode) (admission : option AdmissionGateContext) t
    : option RuntimeThread :=
  match attempts t !! a with
  | Some _ => None
  | None =>
      let att p := {| attempt_turn_id := turn; attempt_mode := mode; attempt_admission := admission; attempt_phase := p |} in
      if bool_decide (turn ∈ turn_reservations t) then Some (set_attempt a (att Duplicate) t)
      else Some (set_attempt a (att TurnReserved)
                  (set_lease a {| pending_input_permit := false; turn_watchdog := None |}
                    (set_reservations ({[turn]} ∪ turn_reservations t) t)))
  end.

(** The pending-input slot of a queued turn. *)
Definition take_slot a t : option RuntimeThread :=
  match attempts t !! a with
  | Some att =>
      match attempt_phase att with
      | TurnReserved =>
          match attempt_mode att, max_pending_inputs execution_policy with
          | ModeQueue, Some _ =>
              match pending_input_slots t with
              | None => Some (abandon a (Rejected (RuntimeExecution
                          "configured pending-input policy has no slot semaphore")) t)
              | Some slots =>
                  match try_acquire_owned slots with
                  | Ok slots =>
                      Some (set_phase a AwaitingCommand
                             (set_lease a {| pending_input_permit := true; turn_watchdog := None |} (set_slots (Some slots) t)))
                  | Err NoPermits => Some (set_phase a NoSlot t)
                  | Err SemaphoreClosed => Some (abandon a (Rejected ThreadClosed) t)
                  end
              end
          | _, _ => Some (set_phase a AwaitingCommand t)
          end
      | _ => None
      end
  | None => None
  end.

(** The report of a refused slot. *)
Definition refuse_slot a t : option RuntimeThread :=
  match attempts t !! a, max_pending_inputs execution_policy, pending_input_slots t with
  | Some att, Some limit, Some slots =>
      match attempt_phase att with
      | NoSlot =>
          let queued_commands := (N.min limit max_permits - available_permits slots)%N in
          let message := "thread has " +:+ pretty queued_commands +:+ " queued command(s); max pending input count is "
                           +:+ pretty limit in
          Some (abandon a (Rejected (ThreadPolicyViolation "max_pending_inputs" message))
                 (emit_runtime (PolicyRejected "max_pending_inputs" message) t))
      | _ => None
      end
  | _, _, _ => None
  end.

(** [command_tx.reserve_owned().await]: goes on when the channel has room or is closed. *)
Definition reserve_command a t : option RuntimeThread :=
  match attempts t !! a with
  | Some att =>
      match attempt_phase att, try_reserve (command_channel t) with
      | AwaitingCommand, Ok channel => Some (set_phase a AwaitingAdmission (set_channel channel t))
      | AwaitingCommand, Err ChannelClosed => Some (abandon a (Rejected ThreadClosed) t)
      | _, _ => None
      end
  | None => None
  end.

(** [append_control_event]: the couplings bound to the thread run on what was appended. *)
Definition append_control_event (record : NewEventRecord) (s : S) : S * VerletResult EventRecord :=
  let '(s, r) := log_append ("control:" +:+ uuid_text (thread_id me)) [record] s in
  match (events <-? map_err HistoryFailed r ;; ok_or (head events) (HistoryText "event append returned no record")) with
  | Ok event =>
      let '(s, r) := run_bound_couplings [event] s in
      (s, result_map (fun _ => event) r)
  | Err e => (s, Err e)
  end.

(** [register_turn_watchdog]: the next id, modulo 2^64, if turns have a timeout. *)
Definition register_turn_watchdog a t : RuntimeThread :=
  match turn_timeout_ms execution_policy, leases t !! a with
  | Some _, Some l =>
      let next := ((turn_watchdog_sequence t + 1) mod 2 ^ 64)%N in
      set_lease a {| pending_input_permit := pending_input_permit l;
                     turn_watchdog := Some {| token_id := next; phase := WatchdogPending; updates := WatchdogPending |} |}
        (set_sequence next t)
  | _, _ => t
  end.

(** [append_admission_decided], then the watchdog. *)
Definition decide_admission a (id : EventRecordId) (now : Z) t : option RuntimeThread :=
  match attempts t !! a with
  | Some att =>
      match attempt_phase att with
      | AwaitingAdmission =>
          match attempt_admission att with
          | None => Some (set_phase a Ready (register_turn_watchdog a t))
          | Some context =>
              let '(s, r) := append_control_event (admission_decided_record id now me context) (runtime_store t) in
              let t := set_store s t in
              Some match r with
                   | Ok _ => set_phase a Ready (register_turn_watchdog a t)
                   | Err e => abandon a (Rejected (AdmissionFailed e)) t
                   end
          end
      | _ => None
      end
  | None => None
  end.

(** [submit_unchecked]: the command is sent, the reservation committed, the watchdog spawned. *)
Definition submit_unchecked a t : option RuntimeThread :=
  match attempts t !! a with
  | Some att =>
      match attempt_phase att with
      | Duplicate => Some (set_phase a Unsubmitted t)
      | Ready =>
          let t := set_phase a Sent
            (set_channel (send_permit (Submit (attempt_turn_id att) a (attempt_mode att)) (command_channel t)) t) in
          Some match watchdog_phase t a with Some _ => set_task a WaitingForStart t | None => t end
      | _ => None
      end
  | None => None
  end.

(** The signal of [submit_unchecked]. *)
Definition signal_submitted a (id : N) (now : Z) t : option RuntimeThread :=
  match attempt_phase <$> attempts t !! a with
  | Some Sent => Some (set_phase a Submitted (record_signal id now t))
  | _ => None
  end.

(** The caller is dropped where it awaits, or drops its reserved submission. *)
Definition drop_attempt a t : option RuntimeThread :=
  match attempt_phase <$> attempts t !! a with
  | Some AwaitingCommand | Some AwaitingAdmission | Some Ready => Some (abandon a Dropped t)
  | Some Duplicate => Some (set_phase a Dropped t)
  | Some Sent => Some (set_phase a Submitted t)
  | _ => None
  end.

(** The caller is dropped after its [admission.decided] was appended, before it heard of it. *)
Definition drop_in_admission a (id : EventRecordId) (now : Z) t : option RuntimeThread :=
  match attempts t !! a with
  | Some att =>
      match attempt_phase att, attempt_admission att with
      | AwaitingAdmission, Some context =>
          let s := (log_append ("control:" +:+ uuid_text (thread_id me)) [admission_decided_record id now me context]
                     (runtime_store t)).1 in
          Some (abandon a Dropped (set_store s t))
      | _, _ => None
      end
  | None => None
  end.

(** ** The runtime *)

Definition receive_command t : option RuntimeThread :=
  match receive (command_channel t) with
  | Some (command, channel) =>
      let t := set_channel channel t in
      Some match command with Submit _ a _ => set_held ({[a]} ∪ held t) t | _ => t end
  | None => None
  end.

(** [append_user_turn_input] starts the turn of the input. *)
Definition start_turn a t : option RuntimeThread :=
  if bool_decide (a ∈ held t) then Some (start_turn_watchdog a t) else None.

Definition finish_input a t : option RuntimeThread :=
  if bool_decide (a ∈ held t) then Some (set_held (held t ∖ {[a]}) (drop_input a t)) else None.

(** The inputs of commands. *)
Definition command_inputs (commands : list ThreadCommand) : list InputLease :=
  omap (fun c => match c with Submit _ a _ => Some a | _ => None end) commands.

(** The runtime's task ends: what it held and what was queued is dropped. *)
Definition stop_runtime t : RuntimeThread :=
  let inputs := command_inputs (messages (command_channel t)) ++ elements (held t) in
  set_held ∅ (set_channel (close (command_channel t)) (fold_right drop_input t inputs)).

(** ** The watchdog's task *)

(** [wait_until_started]: goes on when the published phase is not [Pending]. *)
Definition watchdog_started a t : option RuntimeThread :=
  match watchdog_tasks t !! a, watchdog_updates t a with
  | Some WaitingForStart, Some WatchdogActive | Some WaitingForStart, Some WatchdogTimedOut => Some (set_task a Sleeping t)
  | Some WaitingForStart, Some WatchdogFinished => Some (set_task a WatchdogDone t)
  | _, _ => None
  end.

(** The timeout elapsed: the status, then [try_timeout]. *)
Definition watchdog_fires a t : option RuntimeThread :=
  match watchdog_tasks t !! a, leases t !! a with
  | Some Sleeping, Some l =>
      if negb (bool_decide (status t = Running)) || negb (bool_decide (watchdog_phase t a = Some WatchdogActive))
      then Some (set_task a WatchdogDone t)
      else Some (set_task a TimingOut
                  (set_lease a (set_watchdog_phase WatchdogTimedOut (default WatchdogActive (watchdog_updates t a)) l) t))
  | _, _ => None
  end.

(** [try_timeout] publishes, and the timeout is reported. *)
Definition publish_timeout a t : option RuntimeThread :=
  match watchdog_tasks t !! a, leases t !! a, turn_timeout_ms execution_policy, watchdog_phase t a with
  | Some TimingOut, Some l, Some timeout, Some p =>
      Some (set_task a RequestingCancel (emit_runtime TerminalTimedOut (emit_runtime (Timeout "turn" timeout)
             (set_lease a (set_watchdog_phase p WatchdogTimedOut l) t))))
  | _, _, _, _ => None
  end.

Definition timeout_reason (timeout : Z) : string := "turn exceeded " +:+ pretty timeout +:+ "ms timeout".

(** The turn is to be cancelled: by a command if the channel has room, else by the thread's token. *)
Definition request_cancel a t : option RuntimeThread :=
  match watchdog_tasks t !! a, turn_timeout_ms execution_policy, l ← leases t !! a; turn_watchdog l with
  | Some RequestingCancel, Some timeout, Some w =>
      match try_reserve (command_channel t) with
      | Ok channel =>
          Some (set_task a SignallingCancel
                 (set_channel (send_permit (CancelTurn (token_id w) (timeout_reason timeout)) channel) t))
      | Err ChannelClosed => Some (set_task a WatchdogDone t)
      | Err ChannelFull =>
          if negb (bool_decide (phase w = WatchdogTimedOut)) || negb (bool_decide (status t = Running))
          then Some (set_task a WatchdogDone t)
          else Some (set_task a SignallingCancel (set_thread_status Cancelling true t))
      end
  | _, _, _ => None
  end.

Definition signal_cancel a (id : N) (now : Z) t : option RuntimeThread :=
  match watchdog_tasks t !! a with
  | Some SignallingCancel =>
      Some (set_task a (if cancel_grace_timeout_ms execution_policy then Grace else WatchdogDone) (record_signal id now t))
  | _ => None
  end.

(** The grace period elapsed: a turn that is still there takes its thread with it. *)
Definition grace_elapsed a t : option RuntimeThread :=
  match watchdog_tasks t !! a, cancel_grace_timeout_ms execution_policy with
  | Some Grace, Some cancel_timeout =>
      Some (set_task a WatchdogDone
        (if bool_decide (watchdog_phase t a = Some WatchdogTimedOut) &&
            (bool_decide (status t = Running) || bool_decide (status t = Cancelling))
         then
           stop_runtime
             (emit_runtime (FailedEvent "cancel_timeout" "runtime did not cancel within grace timeout")
               (set_thread_status ThreadFailed false
                 (emit_runtime (RecoveryEvent "abort_runtime" "cancel grace timeout elapsed after turn timeout")
                   (emit_runtime (Timeout "cancel" cancel_timeout) t))))
         else t))
  | _, _ => None
  end.

(** ** Runs *)

Inductive TurnStep :=
  | BeginReserve (a : InputLease) (turn : string) (mode : TurnSubmissionMode) (admission : option AdmissionGateContext)
  | TakeSlot (a : InputLease)
  | RefuseSlot (a : InputLease)
  | ReserveCommand (a : InputLease)
  | DecideAdmission (a : InputLease) (id : EventRecordId) (now : Z)
  | SubmitUnchecked (a : InputLease)
  | SignalSubmitted (a : InputLease) (id : N) (now : Z)
  | DropAttempt (a : InputLease)
  | DropInAdmission (a : InputLease) (id : EventRecordId) (now : Z)
  | ReceiveCommand
  | StartTurn (a : InputLease)
  | FinishInput (a : InputLease)
  | StopRuntime
  | SetStatus (k : ThreadStatus)
  | WatchdogStarted (a : InputLease)
  | WatchdogFires (a : InputLease)
  | PublishTimeout (a : InputLease)
  | RequestCancel (a : InputLease)
  | SignalCancel (a : InputLease) (id : N) (now : Z)
  | GraceElapsed (a : InputLease).

(** One step of one of the parties; [None] where it has none to take. *)
Definition turn_step (step : TurnStep) t : option RuntimeThread :=
  match step with
  | BeginReserve a turn mode admission => begin_reserve a turn mode admission t
  | TakeSlot a => take_slot a t
  | RefuseSlot a => refuse_slot a t
  | ReserveCommand a => reserve_command a t
  | DecideAdmission a id now => decide_admission a id now t
  | SubmitUnchecked a => submit_unchecked a t
  | SignalSubmitted a id now => signal_submitted a id now t
  | DropAttempt a => drop_attempt a t
  | DropInAdmission a id now => drop_in_admission a id now t
  | ReceiveCommand => receive_command t
  | StartTurn a => start_turn a t
  | FinishInput a => finish_input a t
  | StopRuntime => Some (stop_runtime t)
  | SetStatus k => Some (set_thread_status k false t)
  | WatchdogStarted a => watchdog_started a t
  | WatchdogFires a => watchdog_fires a t
  | PublishTimeout a => publish_timeout a t
  | RequestCancel a => request_cancel a t
  | SignalCancel a id now => signal_cancel a id now t
  | GraceElapsed a => grace_elapsed a t
  end.

Definition turn_steps (steps : list TurnStep) t : option RuntimeThread :=
  fold_left (fun r step => t ← r; turn_step step t) steps (Some t).

Inductive reachable_thread (store : S) : RuntimeThread -> Prop :=
  | reachable_started : reachable_thread store (started_thread store)
  | reachable_step t t' step : reachable_thread store t -> turn_step step t = Some t' -> reachable_thread store t'.
End Thread.
