(* ===== verification/AdmissionFacts.v ===== *)
(** * What turn admission guarantees

    Invariants of the reachable states of [Admission]: which turn ids are
    reserved, where the pending-input permits are, which turns have their
    decision on the control stream, and which turns a watchdog may stop. *)

From stdpp Require Import base gmap sets list strings pretty.
From Stdlib Require Import NArith ZArith Lia.
From S2P Require Import Prelude Json EventKind Contracts Records Store EventLog ReadPlan Canonical Admission.

Local Open Scope verlet_scope.
Local Open Scope string_scope.
Local Open Scope list_scope.

(** [tokio::sync::Semaphore]. *)
Class SemaphoreLaws (Sem : Type) `{Semaphore Sem} := {
  new_available n : (n <= max_permits)%N -> available_permits (new_semaphore n) = n;
  acquire_takes s s' : try_acquire_owned s = Ok s' -> available_permits s = (available_permits s' + 1)%N;
  acquire_refused s : try_acquire_owned s = Err NoPermits -> available_permits s = 0%N;
  release_gives s : (available_permits s < max_permits)%N -> available_permits (release_permit s) = (available_permits s + 1)%N;
}.

(** [tokio::sync::mpsc], a channel that keeps its order. *)
Class CommandChannelLaws (Ch : Type) `{CommandChannel Ch} := {
  new_messages n : messages (new_channel n) = [];
  reserve_messages ch ch' : try_reserve ch = Ok ch' -> messages ch' = messages ch;
  send_messages c ch : messages (send_permit c ch) = messages ch ++ [c];
  drop_messages ch : messages (drop_permit ch) = messages ch;
  receive_messages c ch ch' : receive ch = Some (c, ch') -> messages ch = c :: messages ch';
  close_messages ch : messages (close ch) = [];
}.

(** Couplings add events and remove none. *)
Class BoundCouplingsLaws (S : Type) `{EventStoreLaws S} `{!BoundCouplings S} := {
  couplings_extend es s s' r : log_valid s -> run_bound_couplings es s = (s', r) ->
    log_valid s' /\ forall stream, exists more, log_events s' stream = log_events s stream ++ more;
}.

(** ** The parts of the invariant *)

(** The attempt has its turn id reserved. *)
Definition holds (p : AttemptPhase) : bool :=
  match p with
  | TurnReserved | NoSlot | AwaitingCommand | AwaitingAdmission | Ready | Sent | Submitted => true
  | _ => false
  end.
(** The turn was sent. *)
Definition sent (p : AttemptPhase) : bool := match p with Sent | Submitted => true | _ => false end.
(** The decision on the turn was recorded. *)
Definition admitted (p : AttemptPhase) : bool := match p with Ready | Sent | Submitted => true | _ => false end.

(** The attempt is past its pending-input slot. *)
Definition slotted (p : AttemptPhase) : bool := match p with AwaitingCommand | AwaitingAdmission | Ready => true | _ => false end.

Definition with_phase (p : AttemptPhase) (att : Attempt) : Attempt := {|
  attempt_turn_id := attempt_turn_id att; attempt_mode := attempt_mode att;
  attempt_admission := attempt_admission att; attempt_phase := p |}.

Lemma sent_holds p : sent p = true -> holds p = true.
Proof. by destruct p. Qed.
Lemma sent_admitted p : sent p = true -> admitted p = true.
Proof. by destruct p. Qed.

(** *** Turn ids *)

Record reservations_ok (ids : gset string) (atts : gmap nat Attempt) : Prop := {
  held_reserved a att : atts !! a = Some att -> holds (attempt_phase att) = true -> attempt_turn_id att ∈ ids;
  holder_unique a b att btt : atts !! a = Some att -> atts !! b = Some btt -> holds (attempt_phase att) = true ->
    holds (attempt_phase btt) = true -> attempt_turn_id att = attempt_turn_id btt -> a = b;
  reserved_held turn : turn ∈ ids -> exists a att, atts !! a = Some att /\ holds (attempt_phase att) = true /\ attempt_turn_id att = turn;
}.

Lemma lookup_alter_phase (atts : gmap nat Attempt) a p b btt :
  alter (with_phase p) a atts !! b = Some btt ->
  exists old, atts !! b = Some old /\ attempt_turn_id btt = attempt_turn_id old /\ attempt_mode btt = attempt_mode old /\
    attempt_admission btt = attempt_admission old /\
    (a = b /\ attempt_phase btt = p \/ a <> b /\ btt = old).
Proof.
  rewrite lookup_alter. destruct (decide (a = b)) as [->|Hne].
  - intros (old & -> & ->)%fmap_Some. exists old. split_and!; try done. by left.
  - intros Hb. exists btt. split_and!; try done. by right.
Qed.

Lemma reservations_alter ids atts a att p :
  atts !! a = Some att -> holds p = holds (attempt_phase att) -> reservations_ok ids atts ->
  reservations_ok ids (alter (with_phase p) a atts).
Proof.
  intros Ha Hp [Hr Hu Hh].
  assert (forall b btt, alter (with_phase p) a atts !! b = Some btt -> exists old, atts !! b = Some old /\
    attempt_turn_id btt = attempt_turn_id old /\ holds (attempt_phase btt) = holds (attempt_phase old)) as Hold.
  { intros b btt Hb. apply lookup_alter_phase in Hb as (old & Hb & Ht & _ & _ & [[-> Hpb]|[_ ->]]); exists old; split_and!; try done.
    rewrite Hpb, Hp. congruence. }
  split.
  - intros b btt Hb Hholds. apply Hold in Hb as (old & Hb & -> & Heq). apply (Hr b); congruence.
  - intros b c btt ctt Hb Hc Hbh Hch Ht. apply Hold in Hb as (ob & Hb & Hbt & Hbe), Hc as (oc & Hc & Hct & Hce).
    apply (Hu b c ob oc); congruence.
  - intros turn Hturn. destruct (Hh turn Hturn) as (b & btt & Hb & Hbh & Hbt). destruct (decide (a = b)) as [<-|Hne].
    + exists a, (with_phase p att). rewrite lookup_alter_eq, Ha. split_and!; [done|cbn; congruence|cbn; congruence].
    + exists b, btt. by rewrite lookup_alter_ne.
Qed.

Lemma reservations_abandon ids atts a att p :
  atts !! a = Some att -> holds (attempt_phase att) = true -> holds p = false -> reservations_ok ids atts ->
  reservations_ok (ids ∖ {[attempt_turn_id att]}) (alter (with_phase p) a atts).
Proof.
  intros Ha Hheld Hp [Hr Hu Hh].
  assert (forall b btt, alter (with_phase p) a atts !! b = Some btt -> holds (attempt_phase btt) = true -> b <> a /\ atts !! b = Some btt) as Hold.
  { intros b btt Hb Hbh. apply lookup_alter_phase in Hb as (old & Hb & _ & _ & _ & [[-> Hpb]|[Hne ->]]); [congruence|by split]. }
  split.
  - intros b btt Hb Hbh. destruct (Hold _ _ Hb Hbh) as [Hne Hb']. apply elem_of_difference. split; [by apply (Hr b)|].
    rewrite elem_of_singleton. intros Ht. apply Hne. by eapply Hu.
  - intros b c btt ctt Hb Hc Hbh Hch Ht. destruct (Hold _ _ Hb Hbh) as [_ Hb'], (Hold _ _ Hc Hch) as [_ Hc']. by eapply Hu.
  - intros turn [Hturn Hne]%elem_of_difference. destruct (Hh turn Hturn) as (b & btt & Hb & Hbh & Hbt).
    exists b, btt. rewrite lookup_alter_ne; [done|]. intros <-. assert (btt = att) as -> by congruence. set_solver.
Qed.

Lemma reservations_begin ids atts a att :
  atts !! a = None -> holds (attempt_phase att) = true -> attempt_turn_id att ∉ ids -> reservations_ok ids atts ->
  reservations_ok ({[attempt_turn_id att]} ∪ ids) (<[a := att]> atts).
Proof.
  intros Ha Hatt Hnew [Hr Hu Hh]. split.
  - intros b btt [[<- <-]|[Hne Hb]]%lookup_insert_Some Hbh; [set_solver|]. specialize (Hr b btt Hb Hbh). set_solver.
  - intros b c btt ctt [[<- <-]|[Hb1 Hb]]%lookup_insert_Some [[<- <-]|[Hc1 Hc]]%lookup_insert_Some Hbh Hch Ht; try done.
    + destruct Hnew. rewrite Ht. by eapply Hr.
    + destruct Hnew. rewrite <- Ht. by eapply Hr.
    + by eapply Hu.
  - intros turn [->%elem_of_singleton|Hturn]%elem_of_union.
    + exists a, att. by rewrite lookup_insert_eq.
    + destruct (Hh turn Hturn) as (b & btt & Hb & Hbh & Hbt). exists b, btt. rewrite lookup_insert_ne; [done|congruence].
Qed.

Lemma reservations_insert ids atts a att :
  atts !! a = None -> holds (attempt_phase att) = false -> reservations_ok ids atts -> reservations_ok ids (<[a := att]> atts).
Proof.
  intros Ha Hatt [Hr Hu Hh]. split.
  - intros b btt [[<- <-]|[Hne Hb]]%lookup_insert_Some Hbh; [congruence|]. by eapply Hr.
  - intros b c btt ctt [[<- <-]|[Hb1 Hb]]%lookup_insert_Some [[<- <-]|[Hc1 Hc]]%lookup_insert_Some Hbh Hch Ht; try congruence.
    by eapply Hu.
  - intros turn Hturn. destruct (Hh turn Hturn) as (b & btt & Hb & Hbh & Hbt). exists b, btt. rewrite lookup_insert_ne; [done|congruence].
Qed.

(** *** Pending-input permits *)

(** The inputs that hold a pending-input permit. *)
Definition permit_holders (ls : gmap InputLease TurnLease) : gset InputLease :=
  dom (filter (fun kl => pending_input_permit kl.2 = true) ls).

Lemma elem_of_permit_holders a ls : a ∈ permit_holders ls <-> exists l, ls !! a = Some l /\ pending_input_permit l = true.
Proof.
  unfold permit_holders. rewrite elem_of_dom. unfold is_Some. split.
  - intros (l & Hl). apply map_lookup_filter_Some in Hl as [Hl Hp]. by exists l.
  - intros (l & Hl & Hp). exists l. by apply map_lookup_filter_Some.
Qed.

Lemma permit_holders_insert a l ls :
  permit_holders (<[a := l]> ls) = if pending_input_permit l then {[a]} ∪ permit_holders ls else permit_holders ls ∖ {[a]}.
Proof.
  apply set_eq. intros b. rewrite elem_of_permit_holders. destruct (decide (a = b)) as [<-|Hne].
  - rewrite lookup_insert_eq. destruct (pending_input_permit l) eqn:Hp; [set_solver|].
    split; [intros (? & [= <-] & Hp'); congruence|set_solver].
  - rewrite lookup_insert_ne by done. rewrite <- elem_of_permit_holders.
    destruct (pending_input_permit l); set_solver.
Qed.

Section Slots.
Context {Sem : Type} `{SemaphoreLaws Sem}.

(** No permit is lost and none is made: those available and those held add up to the limit. *)
Definition slots_ok (limit : option N) (slots : option Sem) (ls : gmap InputLease TurnLease) : Prop :=
  match slots, limit with
  | Some slots, Some n => (n <= max_permits)%N /\ (available_permits slots + N.of_nat (size (permit_holders ls)) = n)%N
  | None, None => permit_holders ls = ∅
  | _, _ => False
  end.

Lemma slots_same limit slots a l ls :
  (pending_input_permit l = true <-> a ∈ permit_holders ls) -> slots_ok limit slots ls -> slots_ok limit slots (<[a := l]> ls).
Proof.
  intros Hl. assert (permit_holders (<[a := l]> ls) = permit_holders ls) as Heq.
  { rewrite permit_holders_insert. destruct (pending_input_permit l); set_solver. }
  unfold slots_ok. by rewrite Heq.
Qed.

Lemma slots_release limit slots a l ls :
  a ∈ permit_holders ls -> pending_input_permit l = false -> slots_ok limit slots ls ->
  slots_ok limit (release_permit <$> slots) (<[a := l]> ls).
Proof.
  intros Ha Hl. unfold slots_ok. rewrite permit_holders_insert, Hl. destruct slots as [slots|], limit as [n|]; cbn; try done; [|set_solver].
  intros [Hmax Hn].
  assert (size (permit_holders ls ∖ {[a]}) = size (permit_holders ls) - 1) as Hsize
    by (rewrite size_difference, size_singleton by set_solver; done).
  assert (1 <= size (permit_holders ls)).
  { assert (size ({[a]} : gset InputLease) <= size (permit_holders ls)) as Hle by (apply subseteq_size; set_solver).
    by rewrite size_singleton in Hle. }
  rewrite Hsize, release_gives by lia. split; [done|lia].
Qed.

Lemma slots_acquire limit slots slots' a l ls :
  try_acquire_owned slots = Ok slots' -> a ∉ permit_holders ls -> pending_input_permit l = true ->
  slots_ok limit (Some slots) ls -> slots_ok limit (Some slots') (<[a := l]> ls).
Proof.
  intros Hacq Ha Hl. apply acquire_takes in Hacq. unfold slots_ok. rewrite permit_holders_insert, Hl.
  destruct limit as [n|]; [|done]. intros [Hmax Hn]. rewrite size_union, size_singleton by set_solver. split; [done|lia].
Qed.
End Slots.

(** ** What each part of a step leaves alone *)

Section Facts.
Context `{UuidText} {S : Type} `{!EventStore S, !EventStoreLaws S, !EventAppend S, !EventAppendLaws S}.
Context `{!BoundCouplings S, !BoundCouplingsLaws S}.
Context {Sem : Type} `{!Semaphore Sem, !SemaphoreLaws Sem} {Ch : Type} `{!CommandChannel Ch, !CommandChannelLaws Ch}.
Variable me : ThreadCoordinates.
Variable execution_policy : RuntimeExecutionPolicy.

Notation Thread := (RuntimeThread (S := S) (Sem := Sem) (Ch := Ch)).
Implicit Types (t u : Thread) (a b : InputLease).

(** Every part but the slots and the leases. *)
Definition same_rest t t' : Prop :=
  runtime_store t' = runtime_store t /\ turn_reservations t' = turn_reservations t /\ command_channel t' = command_channel t /\
  turn_watchdog_sequence t' = turn_watchdog_sequence t /\ attempts t' = attempts t /\ held t' = held t /\
  watchdog_tasks t' = watchdog_tasks t /\ status t' = status t.

#[local] Instance same_rest_refl : Reflexive same_rest.
Proof. by intros t. Qed.
#[local] Instance same_rest_trans : Transitive same_rest.
Proof. unfold same_rest. intros t1 t2 t3 ? ?. intuition congruence. Qed.

Lemma release_slot_rest a t : same_rest t (release_slot a t).
Proof. unfold release_slot. destruct (leases t !! a) as [l|]; [destruct (pending_input_permit l)|]; by split_and!. Qed.

Lemma drop_input_rest a t : same_rest t (drop_input a t).
Proof.
  unfold drop_input. pose proof (release_slot_rest a t) as Hr. destruct (leases (release_slot a t) !! a); [|done].
  transitivity (release_slot a t); [done|by split_and!].
Qed.

Lemma start_turn_watchdog_rest a t : same_rest t (start_turn_watchdog a t).
Proof.
  unfold start_turn_watchdog. pose proof (release_slot_rest a t) as Hr. destruct (leases (release_slot a t) !! a); [|done].
  case_bool_decide; [|done]. transitivity (release_slot a t); [done|by split_and!].
Qed.

Lemma drop_inputs_rest l t : same_rest t (fold_right drop_input t l).
Proof. induction l as [|a l IH]; [done|]. cbn [fold_right]. etransitivity; [exact IH|apply drop_input_rest]. Qed.

Lemma attempts_set_phase a p t : attempts (set_phase a p t) = alter (with_phase p) a (attempts t).
Proof.
  unfold set_phase. destruct (attempts t !! a) as [att|] eqn:Ha.
  - cbn [attempts set_attempt]. apply map_eq. intros b. destruct (decide (a = b)) as [<-|Hne].
    + by rewrite lookup_insert_eq, lookup_alter_eq, Ha.
    + by rewrite lookup_insert_ne, lookup_alter_ne.
  - symmetry. by apply alter_id_None || (apply map_eq; intros b; destruct (decide (a = b)) as [<-|Hne];
      [by rewrite lookup_alter_eq, Ha|by rewrite lookup_alter_ne]).
Qed.

(** A change of phase touches the attempts only. *)
Lemma set_phase_rest a p t : exists atts, set_phase a p t =
  {| runtime_store := runtime_store t; turn_reservations := turn_reservations t;
     pending_input_slots := pending_input_slots t; command_channel := command_channel t;
     turn_watchdog_sequence := turn_watchdog_sequence t; leases := leases t; attempts := atts; held := held t;
     watchdog_tasks := watchdog_tasks t; status := status t; cancellation := cancellation t; emitted := emitted t;
     latest_signal := latest_signal t |}.
Proof. unfold set_phase. destruct (attempts t !! a); [by eexists|]. exists (attempts t). by destruct t. Qed.

Lemma store_set_phase a p t : runtime_store (set_phase a p t) = runtime_store t.
Proof. by destruct (set_phase_rest a p t) as [atts ->]. Qed.
Lemma ids_set_phase a p t : turn_reservations (set_phase a p t) = turn_reservations t.
Proof. by destruct (set_phase_rest a p t) as [atts ->]. Qed.
Lemma slots_set_phase a p t : pending_input_slots (set_phase a p t) = pending_input_slots t.
Proof. by destruct (set_phase_rest a p t) as [atts ->]. Qed.
Lemma channel_set_phase a p t : command_channel (set_phase a p t) = command_channel t.
Proof. by destruct (set_phase_rest a p t) as [atts ->]. Qed.
Lemma leases_set_phase a p t : leases (set_phase a p t) = leases t.
Proof. by destruct (set_phase_rest a p t) as [atts ->]. Qed.
Lemma held_set_phase a p t : held (set_phase a p t) = held t.
Proof. by destruct (set_phase_rest a p t) as [atts ->]. Qed.
Lemma tasks_set_phase a p t : watchdog_tasks (set_phase a p t) = watchdog_tasks t.
Proof. by destruct (set_phase_rest a p t) as [atts ->]. Qed.
Lemma status_set_phase a p t : status (set_phase a p t) = status t.
Proof. by destruct (set_phase_rest a p t) as [atts ->]. Qed.

(** Giving up: the turn id is free, the input dropped, a command permit returned. *)
Lemma abandon_spec a p t att :
  attempts t !! a = Some att ->
  let t' := abandon a p t in
  turn_reservations t' = turn_reservations t ∖ {[attempt_turn_id att]} /\
  attempts t' = alter (with_phase p) a (attempts t) /\
  leases t' = leases (drop_input a t) /\ pending_input_slots t' = pending_input_slots (drop_input a t) /\
  messages (command_channel t') = messages (command_channel t) /\
  runtime_store t' = runtime_store t /\ held t' = held t /\ watchdog_tasks t' = watchdog_tasks t /\ status t' = status t.
Proof.
  intros Ha. unfold abandon. rewrite Ha. cbn zeta.
  destruct (drop_input_rest a t) as (Hs & Hi & Hc & _ & Hat & Hh & Hk & Hst).
  destruct (holds_command_permit (attempt_phase att));
    rewrite attempts_set_phase, ids_set_phase, slots_set_phase, channel_set_phase, leases_set_phase, held_set_phase,
      tasks_set_phase, status_set_phase, store_set_phase;
    cbn [set_reservations set_channel turn_reservations attempts leases pending_input_slots command_channel runtime_store
         held watchdog_tasks status]; rewrite ?drop_messages; split_and!; congruence.
Qed.

Lemma register_turn_watchdog_rest a t :
  let t' := register_turn_watchdog execution_policy a t in
  runtime_store t' = runtime_store t /\ turn_reservations t' = turn_reservations t /\ command_channel t' = command_channel t /\
  attempts t' = attempts t /\ held t' = held t /\ watchdog_tasks t' = watchdog_tasks t /\
  pending_input_slots t' = pending_input_slots t.
Proof. unfold register_turn_watchdog. destruct (turn_timeout_ms execution_policy), (leases t !! a); by split_and!. Qed.

Lemma stop_runtime_spec t :
  let inputs := command_inputs (messages (command_channel t)) ++ elements (held t) in
  let t' := stop_runtime t in
  runtime_store t' = runtime_store t /\ turn_reservations t' = turn_reservations t /\ attempts t' = attempts t /\
  watchdog_tasks t' = watchdog_tasks t /\ status t' = status t /\ messages (command_channel t') = [] /\ held t' = ∅ /\
  leases t' = leases (fold_right drop_input t inputs) /\ pending_input_slots t' = pending_input_slots (fold_right drop_input t inputs).
Proof.
  cbn zeta. unfold stop_runtime. cbn [set_held set_channel runtime_store turn_reservations attempts watchdog_tasks status
    command_channel held leases pending_input_slots].
  destruct (drop_inputs_rest (command_inputs (messages (command_channel t)) ++ elements (held t)) t)
    as (Hs & Hi & _ & _ & Ha & _ & Hk & Hst). by rewrite close_messages, Hs, Hi, Ha, Hk, Hst.
Qed.

(** Takes a step apart into the branches of its function. *)
Ltac step_cases H :=
  cbn [turn_step] in H;
  unfold begin_reserve, take_slot, refuse_slot, reserve_command, decide_admission, submit_unchecked, signal_submitted,
    drop_attempt, drop_in_admission, receive_command, start_turn, finish_input, watchdog_started, watchdog_fires, publish_timeout,
    request_cancel, signal_cancel, grace_elapsed in H;
  repeat case_hyp H; try discriminate H; injection H as H; subst;
  repeat match goal with
  | Hp : _ <$> _ = Some _ |- _ => apply fmap_Some in Hp as (? & ? & Hp); symmetry in Hp
  end.

(** Computes the parts of a state. *)
Ltac parts :=
  repeat first
    [ rewrite attempts_set_phase | rewrite store_set_phase | rewrite ids_set_phase | rewrite slots_set_phase
    | rewrite channel_set_phase | rewrite leases_set_phase | rewrite held_set_phase | rewrite tasks_set_phase
    | rewrite status_set_phase
    | progress cbn [set_store set_reservations set_slots set_channel set_sequence set_lease set_attempt set_held set_task
        set_thread_status emit_runtime record_signal runtime_store turn_reservations pending_input_slots command_channel
        turn_watchdog_sequence leases attempts held watchdog_tasks status] ].

(** ** Leases *)

Definition dropped (l : TurnLease) : TurnLease :=
  set_watchdog_phase WatchdogFinished WatchdogFinished {| pending_input_permit := false; turn_watchdog := turn_watchdog l |}.
Definition started (l : TurnLease) : TurnLease :=
  let l' := {| pending_input_permit := false; turn_watchdog := turn_watchdog l |} in
  if bool_decide (phase <$> turn_watchdog l = Some WatchdogPending) then set_watchdog_phase WatchdogActive WatchdogActive l' else l'.

Lemma dropped_idemp l : dropped (dropped l) = dropped l.
Proof. unfold dropped, set_watchdog_phase. cbn. by destruct (turn_watchdog l). Qed.

Lemma lookup_release_slot a b t :
  leases (release_slot a t) !! b =
  if decide (a = b) then (fun l => {| pending_input_permit := false; turn_watchdog := turn_watchdog l |}) <$> leases t !! b
  else leases t !! b.
Proof.
  unfold release_slot. destruct (decide (a = b)) as [<-|Hne], (leases t !! a) as [l|] eqn:Ha; cbn [fmap option_fmap option_map]; rewrite ?Ha; try done.
  - destruct (pending_input_permit l) eqn:Hp; cbn [leases set_lease]; [by rewrite lookup_insert_eq|]. rewrite Ha. destruct l; cbn in *; congruence.
  - destruct (pending_input_permit l); cbn [leases set_lease set_slots]; [by rewrite lookup_insert_ne|done].
Qed.

Lemma lookup_drop_input a b t :
  leases (drop_input a t) !! b = if decide (a = b) then dropped <$> leases t !! b else leases t !! b.
Proof.
  unfold drop_input. pose proof (lookup_release_slot a a t) as Ha. rewrite decide_True in Ha by done.
  pose proof (lookup_release_slot a b t) as Hb. destruct (leases t !! a) as [l|] eqn:Hl; cbn [fmap option_fmap option_map] in Ha; rewrite Ha.
  - cbn [leases set_lease]. destruct (decide (a = b)) as [<-|Hne]; [by rewrite lookup_insert_eq, Hl|by rewrite lookup_insert_ne].
  - rewrite Hb. destruct (decide (a = b)) as [<-|Hne]; [by rewrite Hl|done].
Qed.

Lemma lookup_drop_inputs l b t :
  leases (fold_right drop_input t l) !! b = if decide (b ∈ l) then dropped <$> leases t !! b else leases t !! b.
Proof.
  induction l as [|a l IH]; [by rewrite decide_False by (by intros ?%elem_of_nil)|]. cbn [fold_right].
  rewrite lookup_drop_input, IH. destruct (decide (a = b)) as [->|Hne].
  - rewrite (decide_True (P := b ∈ b :: l)) by left. destruct (decide (b ∈ l)); [|done].
    destruct (leases t !! b); cbn; [by rewrite dropped_idemp|done].
  - destruct (decide (b ∈ l)) as [Hin|Hout].
    + by rewrite decide_True by (by right).
    + rewrite decide_False; [done|]. set_solver.
Qed.

Lemma lookup_start a b t :
  leases (start_turn_watchdog a t) !! b = if decide (a = b) then started <$> leases t !! b else leases t !! b.
Proof.
  unfold start_turn_watchdog. pose proof (lookup_release_slot a a t) as Ha. rewrite decide_True in Ha by done.
  pose proof (lookup_release_slot a b t) as Hb. unfold watchdog_phase.
  destruct (leases t !! a) as [l|] eqn:Hl; cbn [fmap option_fmap option_map] in Ha; rewrite !Ha; cbn [mbind option_bind].
  - unfold started. case_bool_decide as Hp; cbn [turn_watchdog] in Hp.
    + cbn [leases set_lease]. destruct (decide (a = b)) as [<-|Hne]; [|by rewrite lookup_insert_ne].
      rewrite lookup_insert_eq, Hl. cbn [fmap option_fmap option_map]. by rewrite bool_decide_eq_true_2.
    + rewrite Hb. destruct (decide (a = b)) as [<-|Hne]; [|done]. rewrite Hl. cbn [fmap option_fmap option_map].
      by rewrite bool_decide_eq_false_2.
  - rewrite Hb. destruct (decide (a = b)) as [<-|Hne]; [by rewrite Hl|done].
Qed.

Notation queued t := (command_inputs (messages (command_channel t))).

Lemma command_inputs_app l k : command_inputs (l ++ k) = command_inputs l ++ command_inputs k.
Proof. apply omap_app. Qed.

(** A dropped input holds no permit, and no other input loses its own. *)
Lemma holders_drop_input a t : permit_holders (leases (drop_input a t)) = permit_holders (leases t) ∖ {[a]}.
Proof.
  apply set_eq. intros b. rewrite elem_of_difference, elem_of_singleton, !elem_of_permit_holders, lookup_drop_input.
  destruct (decide (a = b)) as [<-|Hne]; [|naive_solver].
  split; [|naive_solver]. intros (l & Hl & Hp). apply fmap_Some in Hl as (l0 & _ & ->). discriminate Hp.
Qed.

Lemma holders_drop_inputs l t : permit_holders (leases (fold_right drop_input t l)) = permit_holders (leases t) ∖ list_to_set l.
Proof.
  induction l as [|a l IH]; cbn [fold_right]; [set_solver|]. rewrite holders_drop_input, IH. set_solver.
Qed.

(** ** Turn ids *)

(** The decision of the attempt's context was appended. *)
Definition recorded_admission t t' (att : Attempt) : Prop :=
  forall c, attempt_admission att = Some c ->
    exists id now e, append_control_event me (admission_decided_record id now me c) (runtime_store t) = (runtime_store t', Ok e).

(** How a step changes the attempts and the reserved ids. *)
Inductive attempts_change t t' : Prop :=
  | attempts_same : attempts t' = attempts t -> turn_reservations t' = turn_reservations t -> attempts_change t t'
  | attempts_phase a att p : attempts t !! a = Some att -> holds p = holds (attempt_phase att) ->
      sent p = sent (attempt_phase att) \/ attempt_phase att = Ready /\ p = Sent ->
      admitted p = admitted (attempt_phase att) \/ recorded_admission t t' att ->
      slotted p = slotted (attempt_phase att) \/ (p = Sent /\ queued t' = queued t ++ [a]) \/
        (attempt_phase att = TurnReserved /\
         (attempt_mode att = ModeQueue -> max_pending_inputs execution_policy <> None -> a ∈ permit_holders (leases t'))) ->
      attempts t' = alter (with_phase p) a (attempts t) -> turn_reservations t' = turn_reservations t -> attempts_change t t'
  | attempts_given_up a att p : attempts t !! a = Some att -> holds (attempt_phase att) = true -> sent (attempt_phase att) = false ->
      holds p = false -> attempts t' = alter (with_phase p) a (attempts t) ->
      turn_reservations t' = turn_reservations t ∖ {[attempt_turn_id att]} -> a ∉ permit_holders (leases t') -> attempts_change t t'
  | attempts_begun a att : attempts t !! a = None -> attempt_phase att = TurnReserved -> attempt_turn_id att ∉ turn_reservations t ->
      attempts t' = <[a := att]> (attempts t) ->
      turn_reservations t' = {[attempt_turn_id att]} ∪ turn_reservations t -> attempts_change t t'
  | attempts_duplicate a att : attempts t !! a = None -> attempt_phase att = Duplicate ->
      attempts t' = <[a := att]> (attempts t) -> turn_reservations t' = turn_reservations t -> attempts_change t t'.

(** An attempt that goes to another phase, and one that ends before it sends. *)
Ltac phase_change a p :=
  match goal with
  | Ha : attempts ?t !! a = Some ?att, Hp : attempt_phase ?att = _ |- _ =>
      apply (attempts_phase t _ a att p Ha); rewrite ?Hp; parts;
        try match goal with
        | |- context [register_turn_watchdog _ _ ?u] =>
            destruct (register_turn_watchdog_rest a u) as (Hstore & Hids & _ & Hatts & _); rewrite ?Hids, ?Hatts
        end; try done;
        first [by left|by right|by destruct p|idtac];
        first [right; intros c Hc; parts; try match goal with Hq : runtime_store (register_turn_watchdog _ _ _) = _ |- _ => rewrite Hq end; cbn [runtime_store set_store];
                 first [congruence|simplify_eq; by eexists _, _, _]|idtac];
        first [right; left; split; [done|]; parts; by rewrite send_messages, command_inputs_app
              |right; right; split; [done|]; intros _ _; parts; rewrite permit_holders_insert; set_solver
              |right; right; split; [done|]; congruence|idtac]
  end.
Ltac abandon_change a p u :=
  match goal with
  | Ha : attempts ?t !! a = Some ?att, Hp : attempt_phase ?att = _ |- _ =>
      destruct (abandon_spec a p u att Ha) as (Hi & Hat & Hle & _);
      apply (attempts_given_up t _ a att p Ha); rewrite ?Hp; try done;
      rewrite Hle, holders_drop_input; set_solver
  end.

Lemma turn_step_attempts step t t' : turn_step me execution_policy step t = Some t' -> attempts_change t t'.
Proof.
  intros Hstep. destruct step; step_cases Hstep; to_prop;
    try (apply attempts_same; parts; reflexivity).
  all: try match goal with
    | |- attempts_change _ (set_phase ?a ?p ?u) => phase_change a p
    | |- attempts_change _ (set_task _ _ (set_phase ?a ?p ?u)) => phase_change a p
    | |- attempts_change _ (abandon ?a ?p ?u) => abandon_change a p u
    end.
  - apply (attempts_duplicate _ _ a {| attempt_turn_id := turn; attempt_mode := mode; attempt_admission := admission; attempt_phase := Duplicate |}); done.
  - apply (attempts_begun _ _ a {| attempt_turn_id := turn; attempt_mode := mode; attempt_admission := admission; attempt_phase := TurnReserved |}); done.
  - destruct (start_turn_watchdog_rest a t) as (_ & Hi & _ & _ & Ha & _). by apply attempts_same.
  - destruct (drop_input_rest a t) as (_ & Hi & _ & _ & Ha & _). by apply attempts_same.
  - destruct (stop_runtime_spec t) as (_ & Hi & Ha & _). by apply attempts_same.
  - match goal with |- attempts_change _ (set_task _ _ (stop_runtime ?u)) => destruct (stop_runtime_spec u) as (_ & Hi & Ha & _) end.
    by apply attempts_same.
Qed.

Lemma step_reservations t t' :
  attempts_change t t' -> reservations_ok (turn_reservations t) (attempts t) -> reservations_ok (turn_reservations t') (attempts t').
Proof.
  intros [-> ->|a att p Ha Hp _ _ _ -> ->|a att p Ha Hh _ Hp -> -> _|a att Ha Hp Hnew -> ->|a att Ha Hp -> ->] Hok.
  - done.
  - by eapply reservations_alter.
  - by eapply reservations_abandon.
  - apply reservations_begin; [done|by rewrite Hp|done..].
  - apply reservations_insert; [done|by rewrite Hp|done].
Qed.

(** An attempt keeps what it asked for, and stays sent. *)
Lemma attempt_stays t t' a att :
  attempts_change t t' -> attempts t !! a = Some att ->
  exists att', attempts t' !! a = Some att' /\ attempt_turn_id att' = attempt_turn_id att /\ attempt_mode att' = attempt_mode att /\
    attempt_admission att' = attempt_admission att /\
    (sent (attempt_phase att) = true -> sent (attempt_phase att') = true).
Proof.
  assert (forall b p old, attempts t !! b = Some old -> attempts t !! a = Some att ->
    (sent (attempt_phase old) = true -> sent p = true) ->
    exists att', alter (with_phase p) b (attempts t) !! a = Some att' /\ attempt_turn_id att' = attempt_turn_id att /\
      attempt_mode att' = attempt_mode att /\ attempt_admission att' = attempt_admission att /\
      (sent (attempt_phase att) = true -> sent (attempt_phase att') = true)) as Halter.
  { intros b p old Hb Ha Hp. destruct (decide (b = a)) as [->|Hne].
    - exists (with_phase p att). rewrite lookup_alter_eq, Ha. split_and!; try done. assert (old = att) as -> by congruence. done.
    - exists att. by rewrite lookup_alter_ne. }
  intros Hc Ha. destruct Hc as [-> _|b old p Hb _ Hs _ _ -> _|b old p Hb _ Hs _ -> _ _|b old Hb _ _ -> _|b old Hb _ -> _].
  - by exists att.
  - apply (Halter b p old Hb Ha). intros Hold. destruct Hs as [->|[_ ->]]; done.
  - apply (Halter b p old Hb Ha). congruence.
  - exists att. rewrite lookup_insert_ne by congruence. done.
  - exists att. rewrite lookup_insert_ne by congruence. done.
Qed.

(** ** Queued and running inputs *)

(** How a step moves inputs through the channel. *)
Inductive flow_change t t' : Prop :=
  | flow_same : queued t' = queued t -> held t' = held t -> flow_change t t'
  | flow_sends a att : attempts t !! a = Some att -> attempt_phase att = Ready ->
      attempts t' = alter (with_phase Sent) a (attempts t) -> queued t' = queued t ++ [a] -> held t' = held t -> flow_change t t'
  | flow_receives a : queued t = a :: queued t' -> held t' = {[a]} ∪ held t -> flow_change t t'
  | flow_finishes a : queued t' = queued t -> held t' = held t ∖ {[a]} -> a ∉ permit_holders (leases t') -> flow_change t t'
  | flow_stops : queued t' = [] -> held t' = ∅ ->
      (forall a, a ∈ queued t \/ a ∈ held t -> a ∉ permit_holders (leases t')) -> flow_change t t'.

Lemma flow_change_stop t u t' :
  command_channel u = command_channel t -> held u = held t -> command_channel t' = command_channel (stop_runtime u) ->
  held t' = held (stop_runtime u) -> leases t' = leases (stop_runtime u) -> flow_change t t'.
Proof.
  intros Hc Hh Hc' Hh' Hl'. destruct (stop_runtime_spec u) as (_ & _ & _ & _ & _ & Hm & Hh0 & Hl & _).
  apply flow_stops; [by rewrite Hc', Hm|by rewrite Hh'|]. intros a Ha. rewrite Hl', Hl, holders_drop_inputs, Hc, Hh. set_solver.
Qed.

Lemma turn_step_flow step t t' : turn_step me execution_policy step t = Some t' -> flow_change t t'.
Proof.
  intros Hstep. destruct step; step_cases Hstep; to_prop;
    try (apply flow_same; parts; rewrite ?reserve_messages by eassumption; reflexivity).
  all: try match goal with
    | |- flow_change _ (abandon ?a ?p ?u) =>
        match goal with Ha : attempts ?t !! a = Some ?att |- _ =>
          destruct (abandon_spec a p u att Ha) as (_ & _ & _ & _ & Hm & _ & Hh & _); apply flow_same; [by rewrite Hm|exact Hh]
        end
    | |- context [register_turn_watchdog ?pol ?a ?u] =>
        destruct (register_turn_watchdog_rest a u) as (_ & _ & Hc & _ & Hh & _);
        apply flow_same; parts; [by rewrite Hc|by rewrite Hh]
    | Hr : receive _ = Some (?c, ?ch) |- flow_change _ _ =>
        apply receive_messages in Hr; first [apply flow_same; parts; by rewrite ?Hr|eapply flow_receives; parts; by rewrite ?Hr]
    | Hr : try_reserve _ = Ok _ |- flow_change _ _ =>
        apply flow_same; parts; rewrite ?send_messages, ?command_inputs_app, ?(reserve_messages _ _ Hr), ?app_nil_r; reflexivity
    | Ha : attempts ?t !! ?a = Some ?att |- flow_change ?t _ =>
        apply (flow_sends _ _ a att); parts; rewrite ?send_messages, ?command_inputs_app; done
    end.
  - destruct (start_turn_watchdog_rest a t) as (_ & _ & Hc & _ & _ & Hh & _). apply flow_same; [by rewrite Hc|done].
  - destruct (drop_input_rest a t) as (_ & _ & Hc & _). apply (flow_finishes _ _ a); parts; [by rewrite Hc|done|].
    rewrite holders_drop_input. set_solver.
  - by apply (flow_change_stop t t).
  - match goal with |- flow_change _ (set_task _ _ (stop_runtime ?u)) =>
      by apply (flow_change_stop t u) end.
Qed.

(** Each input is in one place once, and its turn was sent. *)
Record flow_ok t : Prop := {
  queued_once : NoDup (queued t);
  queued_not_held a : a ∈ queued t -> a ∉ held t;
  placed_sent a : a ∈ queued t \/ a ∈ held t -> exists att, attempts t !! a = Some att /\ sent (attempt_phase att) = true;
}.

Lemma step_flow t t' : attempts_change t t' -> flow_change t t' -> flow_ok t -> flow_ok t'.
Proof.
  intros Hatts Hc [Hnd Hdisj Hsent].
  assert (forall a, a ∈ queued t \/ a ∈ held t -> exists att, attempts t' !! a = Some att /\ sent (attempt_phase att) = true) as Hkeep.
  { intros a Ha. destruct (Hsent a Ha) as (att & Hatt & Hs).
    destruct (attempt_stays _ _ _ _ Hatts Hatt) as (att' & Ha' & _ & _ & _ & Hs'). exists att'. auto. }
  destruct Hc as [Hq Hh|a att Ha Hp Hat Hq Hh|a Hq Hh|a Hq Hh _|Hq Hh _]; split; rewrite ?Hq, ?Hh.
  - done.
  - done.
  - intros b Hb. rewrite ?Hq, ?Hh in Hb. by apply Hkeep.
  - apply NoDup_app. split_and!; [done| |apply NoDup_singleton]. intros b Hb ->%list_elem_of_singleton.
    destruct (Hsent a (or_introl Hb)) as (att' & Ha' & Hs). assert (att' = att) as -> by congruence. by rewrite Hp in Hs.
  - intros b [Hb| ->%list_elem_of_singleton]%elem_of_app; [by apply Hdisj|]. intros Hb.
    destruct (Hsent a (or_intror Hb)) as (att' & Ha' & Hs). assert (att' = att) as -> by congruence. by rewrite Hp in Hs.
  - intros b Hb. rewrite ?Hq, ?Hh in Hb. rewrite elem_of_app, list_elem_of_singleton in Hb.
    destruct (decide (b = a)) as [->|Hne]; [|apply Hkeep; naive_solver].
    exists (with_phase Sent att). by rewrite Hat, lookup_alter_eq, Ha.
  - rewrite Hq in Hnd. by apply NoDup_cons in Hnd as [_ ?].
  - intros b Hb. rewrite Hq in Hnd. apply NoDup_cons in Hnd as [Hnot _]. assert (b ∉ held t) by (apply Hdisj; rewrite Hq; by right). set_solver.
  - intros b Hb. rewrite ?Hh in Hb. apply Hkeep. rewrite Hq. set_solver.
  - done.
  - intros b Hb. apply Hdisj in Hb. set_solver.
  - intros b Hb. rewrite ?Hq, ?Hh in Hb. apply Hkeep. set_solver.
  - constructor.
  - intros b Hb%elem_of_nil. done.
  - intros b Hb. rewrite ?Hq, ?Hh in Hb. set_solver.
Qed.

(** ** The lease of an input *)

(** How a step changes one lease. *)
Inductive lease_change t t' b : Prop :=
  | lease_same : leases t' !! b = leases t !! b -> lease_change t t' b
  | lease_new att : attempts t !! b = None -> leases t' !! b = Some {| pending_input_permit := false; turn_watchdog := None |} ->
      attempts t' !! b = Some att -> attempt_phase att = TurnReserved -> lease_change t t' b
  | lease_acquired att : attempts t !! b = Some att -> attempt_phase att = TurnReserved -> attempt_mode att = ModeQueue ->
      leases t' !! b = Some {| pending_input_permit := true; turn_watchdog := None |} ->
      attempts t' = alter (with_phase AwaitingCommand) b (attempts t) -> queued t' = queued t -> lease_change t t' b
  | lease_registered att l w : attempts t !! b = Some att -> attempt_phase att = AwaitingAdmission -> leases t !! b = Some l ->
      leases t' !! b = Some {| pending_input_permit := pending_input_permit l; turn_watchdog := Some w |} ->
      phase w = WatchdogPending -> updates w = WatchdogPending -> attempts t' = alter (with_phase Ready) b (attempts t) ->
      lease_change t t' b
  | lease_given_up att p l : attempts t !! b = Some att -> sent (attempt_phase att) = false -> holds p = false -> leases t !! b = Some l ->
      leases t' !! b = Some (dropped l) -> attempts t' = alter (with_phase p) b (attempts t) -> queued t' = queued t -> lease_change t t' b
  | lease_finished l : (b ∈ held t /\ queued t' = queued t) \/ (queued t' = [] /\ (b ∈ queued t \/ b ∈ held t)) -> leases t !! b = Some l ->
      leases t' !! b = Some (dropped l) -> attempts t' = attempts t -> lease_change t t' b
  | lease_started l : b ∈ held t -> leases t !! b = Some l -> leases t' !! b = Some (started l) ->
      attempts t' = attempts t -> queued t' = queued t -> lease_change t t' b
  | lease_fires l : watchdog_tasks t !! b = Some Sleeping -> phase <$> turn_watchdog l = Some WatchdogActive ->
      leases t !! b = Some l -> leases t' !! b = Some (set_watchdog_phase WatchdogTimedOut (default WatchdogActive (watchdog_updates t b)) l) ->
      attempts t' = attempts t -> queued t' = queued t -> lease_change t t' b
  | lease_published l p : watchdog_tasks t !! b = Some TimingOut -> phase <$> turn_watchdog l = Some p ->
      leases t !! b = Some l -> leases t' !! b = Some (set_watchdog_phase p WatchdogTimedOut l) ->
      attempts t' = attempts t -> queued t' = queued t -> lease_change t t' b.

Lemma lease_change_abandon t u a p att b :
  attempts t !! a = Some att -> sent (attempt_phase att) = false -> holds p = false -> attempts u = attempts t ->
  leases u = leases t -> messages (command_channel u) = messages (command_channel t) -> lease_change t (abandon a p u) b.
Proof.
  intros Ha Hsent Hp Hu Hl Hm. rewrite <- Hu in Ha. destruct (abandon_spec a p u att Ha) as (_ & Hat & Hle & _ & Hq & _).
  assert (leases (abandon a p u) !! b = if decide (a = b) then dropped <$> leases t !! b else leases t !! b) as Hlook
    by (by rewrite Hle, lookup_drop_input, Hl).
  destruct (decide (a = b)) as [<-|Hne]; [|by apply lease_same]. destruct (leases t !! a) as [l|] eqn:Hla; [|by apply lease_same; rewrite Hlook, Hla].
  apply (lease_given_up _ _ _ att p l); try done; [congruence|congruence|by rewrite Hq, Hm].
Qed.

Lemma lease_change_stop t u b :
  attempts u = attempts t -> leases u = leases t -> command_channel u = command_channel t -> held u = held t ->
  forall t' : Thread, attempts t' = attempts (stop_runtime u) -> leases t' = leases (stop_runtime u) -> queued t' = [] ->
  lease_change t t' b.
Proof.
  intros Hu Hl Hc Hh t' Hat Hle Hq. destruct (stop_runtime_spec u) as (_ & _ & Ha & _ & _ & _ & _ & Hls & _).
  assert (leases t' !! b = if decide (b ∈ queued u ++ elements (held u)) then dropped <$> leases t !! b else leases t !! b) as Hlook
    by (by rewrite Hle, Hls, lookup_drop_inputs, Hl).
  destruct (decide _) as [Hin|]; [|by apply lease_same]. destruct (leases t !! b) as [l|] eqn:Hb; [|by apply lease_same; rewrite Hlook, Hb].
  apply (lease_finished _ _ _ l); try done; [|congruence]. right. split; [done|].
  rewrite elem_of_app, elem_of_elements, Hc, Hh in Hin. done.
Qed.

Lemma lease_insert t t' a l l' b :
  leases t' = <[a := l']> (leases t) -> leases t !! a = Some l -> (a = b -> lease_change t t' b) -> lease_change t t' b.
Proof. intros Hl _ Hab. destruct (decide (a = b)) as [->|Hne]; [by apply Hab|]. apply lease_same. by rewrite Hl, lookup_insert_ne. Qed.

Lemma lease_change_register t u a att b :
  attempts t !! a = Some att -> attempt_phase att = AwaitingAdmission -> attempts u = attempts t -> leases u = leases t ->
  lease_change t (set_phase a Ready (register_turn_watchdog execution_policy a u)) b.
Proof.
  intros Ha Hp Hu Hl. destruct (register_turn_watchdog_rest a u) as (_ & _ & _ & Hat & _).
  destruct (turn_timeout_ms execution_policy) as [timeout|] eqn:Ht;
    [|apply lease_same; parts; unfold register_turn_watchdog; by rewrite Ht, Hl].
  destruct (leases u !! a) as [l|] eqn:Hla;
    [|apply lease_same; parts; unfold register_turn_watchdog; by rewrite Ht, Hla, Hl].
  unfold register_turn_watchdog in *. rewrite Ht, Hla in *. destruct (decide (a = b)) as [<-|Hne].
  - rewrite Hl in Hla. eapply (lease_registered _ _ _ att l); parts; try done; [by rewrite lookup_insert_eq|done|done|by rewrite Hu].
  - apply lease_same. parts. by rewrite lookup_insert_ne, Hl.
Qed.

Lemma turn_step_lease step t t' b : turn_step me execution_policy step t = Some t' -> lease_change t t' b.
Proof.
  intros Hstep. destruct step; step_cases Hstep; to_prop;
    try (apply lease_same; parts; reflexivity).
  all: try match goal with
    | Ha : attempts _ !! ?a = Some ?att, Hp : attempt_phase ?att = _ |- lease_change _ (abandon ?a _ _) _ =>
        apply (lease_change_abandon _ _ a _ att _ Ha); by rewrite ?Hp
    end.
  - destruct (decide (a = b)) as [<-|Hne]; [|by apply lease_same; parts; rewrite lookup_insert_ne].
    eapply lease_new; parts; [done|by rewrite lookup_insert_eq|by rewrite lookup_insert_eq|done].
  - destruct (decide (a = b)) as [<-|Hne]; [|by apply lease_same; parts; rewrite lookup_insert_ne].
    eapply lease_acquired; parts; [eassumption|done|done|by rewrite lookup_insert_eq|done|done].
  - match goal with Ha : attempts t !! a = Some ?att, Hp : attempt_phase ?att = _ |- _ =>
      apply (lease_change_register t (set_store s t) a att b Ha Hp); done end.
  - match goal with Ha : attempts t !! a = Some ?att, Hp : attempt_phase ?att = _ |- _ =>
      apply (lease_change_register t t a att b Ha Hp); done end.
  - destruct (start_turn_watchdog_rest a t) as (_ & _ & Hc & _ & Hat & _).
    pose proof (lookup_start a b t) as Hlook. destruct (decide (a = b)) as [<-|Hne]; [|by apply lease_same].
    destruct (leases t !! a) as [l|] eqn:Hl; [|by apply lease_same; rewrite Hlook, Hl].
    apply (lease_started _ _ _ l); try done; by rewrite Hc.
  - destruct (drop_input_rest a t) as (_ & _ & Hc & _ & Hat & _).
    pose proof (lookup_drop_input a b t) as Hlook. destruct (decide (a = b)) as [<-|Hne]; [|by apply lease_same].
    destruct (leases t !! a) as [l|] eqn:Hl; [|by apply lease_same; parts; rewrite Hlook, Hl].
    apply (lease_finished _ _ _ l); parts; try done. left. by rewrite Hc.
  - destruct (stop_runtime_spec t) as (_ & _ & _ & _ & _ & Hm & Hh & _).
    apply (lease_change_stop t t b); try done. by rewrite Hm.
  - eapply lease_insert; [reflexivity|eassumption|intros <-].
    match goal with Hl : leases t !! a = Some ?l, Hp : watchdog_phase t a = _ |- _ =>
      unfold watchdog_phase in Hp; rewrite Hl in Hp;
      apply (lease_fires _ _ _ l); parts; try done; by rewrite lookup_insert_eq end.
  - eapply lease_insert; [reflexivity|eassumption|intros <-].
    match goal with Hl : leases t !! a = Some ?l, Hp : watchdog_phase t a = Some ?p |- _ =>
      unfold watchdog_phase in Hp; rewrite Hl in Hp;
      apply (lease_published _ _ _ l p); parts; try done; by rewrite lookup_insert_eq end.
  - match goal with |- lease_change _ (set_task _ _ (stop_runtime ?u)) _ =>
      destruct (stop_runtime_spec u) as (_ & _ & _ & _ & _ & Hm & Hh & _); apply (lease_change_stop t u b); try done; parts; by rewrite ?Hm end.
Qed.

(** ** Watchdog tasks *)

(** The task passed [try_timeout]. *)
Definition timed_out_task (k : WatchdogTask) : bool :=
  match k with TimingOut | RequestingCancel | SignallingCancel | Grace => true | _ => false end.

(** How a step moves one task. *)
Inductive task_change t t' b : Prop :=
  | task_same : watchdog_tasks t' !! b = watchdog_tasks t !! b -> task_change t t' b
  | task_spawned att p : attempts t !! b = Some att -> attempt_phase att = Ready -> attempts t' = alter (with_phase Sent) b (attempts t) ->
      watchdog_phase t b = Some p -> leases t' = leases t -> watchdog_tasks t' !! b = Some WaitingForStart -> task_change t t' b
  | task_wakes p k : watchdog_tasks t !! b = Some WaitingForStart -> watchdog_updates t b = Some p -> p <> WatchdogPending ->
      timed_out_task k = false -> leases t' = leases t -> watchdog_tasks t' !! b = Some k -> task_change t t' b
  | task_times_out : watchdog_tasks t !! b = Some Sleeping -> watchdog_phase t' b = Some WatchdogTimedOut ->
      watchdog_tasks t' !! b = Some TimingOut -> task_change t t' b
  | task_goes_on k k' : watchdog_tasks t !! b = Some k -> k <> WaitingForStart -> (timed_out_task k' = true -> timed_out_task k = true) ->
      watchdog_tasks t' !! b = Some k' -> task_change t t' b.

Lemma task_insert t t' a k b :
  watchdog_tasks t' = <[a := k]> (watchdog_tasks t) -> (a = b -> task_change t t' b) -> task_change t t' b.
Proof. intros Ht Hab. destruct (decide (a = b)) as [->|Hne]; [by apply Hab|]. apply task_same. by rewrite Ht, lookup_insert_ne. Qed.

Lemma turn_step_task step t t' b : turn_step me execution_policy step t = Some t' -> task_change t t' b.
Proof.
  intros Hstep. destruct step; step_cases Hstep; to_prop;
    try (apply task_same; parts; reflexivity).
  all: try match goal with
  | |- task_change _ (abandon ?a ?p ?u) _ =>
      match goal with Ha : attempts _ !! a = Some ?att |- _ =>
        destruct (abandon_spec a p u att Ha) as (_ & _ & _ & _ & _ & _ & _ & Hk & _); apply task_same; by rewrite Hk end
  | |- context [register_turn_watchdog ?pol ?a ?u] =>
      destruct (register_turn_watchdog_rest a u) as (_ & _ & _ & _ & _ & Hk & _); apply task_same; parts; by rewrite Hk
  | |- task_change _ (start_turn_watchdog ?a ?u) _ =>
      destruct (start_turn_watchdog_rest a u) as (_ & _ & _ & _ & _ & _ & Hk & _); apply task_same; by rewrite Hk
  | |- task_change _ (set_held _ (drop_input ?a ?u)) _ =>
      destruct (drop_input_rest a u) as (_ & _ & _ & _ & _ & _ & Hk & _); apply task_same; parts; by rewrite Hk
  | |- task_change _ (stop_runtime ?u) _ =>
      destruct (stop_runtime_spec u) as (_ & _ & _ & Hk & _); apply task_same; by rewrite Hk
  end.
  all: try match goal with
  | |- task_change _ (set_task ?a ?k (set_phase _ _ _)) _ => idtac
  | |- task_change _ (set_task ?a TimingOut _) _ => idtac
  | Hw : watchdog_tasks ?t !! ?a = Some WaitingForStart |- task_change ?t (set_task ?a ?k ?u) _ =>
      apply (task_insert _ _ a k); [reflexivity|intros <-];
        eapply (task_wakes _ _ _ _ k Hw); [eassumption|done|done|done|parts; by rewrite lookup_insert_eq]
  | Hw : watchdog_tasks ?t !! ?a = Some ?j |- task_change ?t (set_task ?a ?k (stop_runtime ?v)) ?b =>
      let Hrest := fresh in
      pose proof (proj1 (proj2 (proj2 (proj2 (stop_runtime_spec v))))) as Hrest;
      apply (task_insert _ _ a k b); [parts; by rewrite Hrest|intros <-];
        apply (task_goes_on _ _ _ j k Hw); [done|done|parts; by rewrite Hrest, lookup_insert_eq]
  | Hw : watchdog_tasks ?t !! ?a = Some ?j |- task_change ?t (set_task ?a ?k ?u) ?b =>
      apply (task_insert t (set_task a k u) a k b); [parts; reflexivity|intros <-];
        apply (task_goes_on _ _ _ j k Hw); [done|first [done|intros Hk; discriminate Hk]|parts; by rewrite lookup_insert_eq]
  end.
  - apply (task_insert _ _ a WaitingForStart); [parts; reflexivity|intros <-].
    match goal with Hp : watchdog_phase _ a = Some ?p |- _ => unfold watchdog_phase in Hp; revert Hp; parts; intros Hp end.
    eapply task_spawned; try eassumption; parts; try done. by rewrite lookup_insert_eq.
  - apply (task_insert _ _ a TimingOut); [reflexivity|intros <-]. apply task_times_out; [done| |parts; by rewrite lookup_insert_eq].
    match goal with Hp : watchdog_phase t a = _, Hl : leases t !! a = _ |- _ => unfold watchdog_phase in *; rewrite Hl in Hp end.
    parts. rewrite lookup_insert_eq. cbn in *. by destruct (turn_watchdog _).
Qed.

(** ** Where permits are and what watchdogs may do *)

(** The input waits: its attempt has not sent it yet, or it is in the channel. *)
Definition waiting t a : Prop :=
  a ∈ queued t \/ exists att, attempts t !! a = Some att /\ holds (attempt_phase att) = true /\ sent (attempt_phase att) = false.

(** A permit is held by the input of a queued turn between its slot and its start. *)
Record permits_ok t : Prop := {
  permit_place a : a ∈ permit_holders (leases t) -> exists att, attempts t !! a = Some att /\ attempt_mode att = ModeQueue /\
    (slotted (attempt_phase att) = true \/ a ∈ queued t \/ a ∈ held t);
  permit_kept a att : max_pending_inputs execution_policy <> None -> attempts t !! a = Some att -> attempt_mode att = ModeQueue ->
    (slotted (attempt_phase att) = true \/ a ∈ queued t) -> a ∈ permit_holders (leases t);
}.

(** A watchdog times out the turn that runs, after its start. *)
Record watchdogs_ok t : Prop := {
  lease_attempted a : is_Some (leases t !! a) -> is_Some (attempts t !! a);
  pending_published a : watchdog_phase t a = Some WatchdogPending -> watchdog_updates t a = Some WatchdogPending;
  waiting_pending a : waiting t a -> watchdog_phase t a = None \/ watchdog_phase t a = Some WatchdogPending;
  task_sent a k : watchdog_tasks t !! a = Some k -> exists att p, attempts t !! a = Some att /\ sent (attempt_phase att) = true /\
    watchdog_phase t a = Some p /\ (k = WaitingForStart \/ p <> WatchdogPending) /\
    (timed_out_task k = true -> p = WatchdogTimedOut \/ p = WatchdogFinished);
}.

(** How the phase of a watchdog changes. *)
Inductive phase_change t t' a : Prop :=
  | phase_same : watchdog_phase t' a = watchdog_phase t a ->
      watchdog_updates t' a = watchdog_updates t a \/ watchdog_tasks t !! a = Some TimingOut -> phase_change t t' a
  | phase_absent : watchdog_phase t' a = None ->
      (attempts t !! a = None \/ exists att, attempts t !! a = Some att /\ sent (attempt_phase att) = false) -> phase_change t t' a
  | phase_registered att : attempts t !! a = Some att -> attempt_phase att = AwaitingAdmission ->
      watchdog_phase t' a = Some WatchdogPending -> watchdog_updates t' a = Some WatchdogPending -> phase_change t t' a
  | phase_finished p : watchdog_phase t a = Some p -> watchdog_phase t' a = Some WatchdogFinished -> ~ waiting t' a -> phase_change t t' a
  | phase_started : watchdog_phase t a = Some WatchdogPending -> watchdog_phase t' a = Some WatchdogActive -> ~ waiting t' a ->
      phase_change t t' a
  | phase_fires : watchdog_phase t a = Some WatchdogActive -> watchdog_phase t' a = Some WatchdogTimedOut -> phase_change t t' a.

Lemma sent_not_waiting t a att : a ∉ queued t -> attempts t !! a = Some att -> sent (attempt_phase att) = true -> ~ waiting t a.
Proof. intros Hq Ha Hs [Hin|(att' & Ha' & _ & Hs')]; [done|]. assert (att' = att) as -> by congruence. congruence. Qed.

Lemma turn_step_phase t t' a : flow_ok t -> lease_change t t' a -> phase_change t t' a.
Proof.
  intros [_ Hdisj Hplaced] Hc. unfold waiting in *.
  destruct Hc as [Hl|att Ha Hl Ha' _|att Ha Hat _ Hl _ _|att l w Ha Hat Hl Hl' Hw Hu Hatt|att p l Ha Hs Hp Hl Hl' Hatt Hq
                 |l Hwhere Hl Hl' Hatt|l Hh Hl Hl' Hatt Hq|l _ Hp Hl Hl' _ _|l q Ht Hp Hl Hl' _ _].
  - apply phase_same; [by unfold watchdog_phase; rewrite Hl|left; by unfold watchdog_updates; rewrite Hl].
  - apply phase_absent; [by unfold watchdog_phase; rewrite Hl|by left].
  - apply phase_absent; [by unfold watchdog_phase; rewrite Hl|]. right. exists att. by rewrite Hat.
  - apply (phase_registered _ _ _ att Ha Hat); unfold watchdog_phase, watchdog_updates; rewrite Hl'; cbn; congruence.
  - destruct (turn_watchdog l) as [w|] eqn:Hw.
    + apply (phase_finished _ _ _ (phase w)); [by unfold watchdog_phase; rewrite Hl; cbn; rewrite Hw
        |by unfold watchdog_phase, dropped, set_watchdog_phase; rewrite Hl'; cbn; rewrite Hw|].
      intros [Hin|(att' & Ha' & Hh & _)].
      * rewrite Hq in Hin. destruct (Hplaced a (or_introl Hin)) as (att' & Ha' & Hs'). congruence.
      * rewrite Hatt, lookup_alter_eq, Ha in Ha'. injection Ha' as <-. cbn in Hh. congruence.
    + apply phase_absent; [by unfold watchdog_phase, dropped, set_watchdog_phase; rewrite Hl'; cbn; rewrite Hw|]. right. by exists att.
  - assert (exists att, attempts t !! a = Some att /\ sent (attempt_phase att) = true) as (att & Ha & Hs)
      by (destruct Hwhere as [[Hh _]|[_ Hin]]; apply Hplaced; auto).
    assert (a ∉ queued t') as Hnot.
    { destruct Hwhere as [[Hh ->]|[-> _]]; [intros Hin; by apply Hdisj in Hin|by intros ?%elem_of_nil]. }
    destruct (turn_watchdog l) as [w|] eqn:Hw.
    + apply (phase_finished _ _ _ (phase w)); [by unfold watchdog_phase; rewrite Hl; cbn; rewrite Hw
        |by unfold watchdog_phase, dropped, set_watchdog_phase; rewrite Hl'; cbn; rewrite Hw|].
      apply (sent_not_waiting t' a att Hnot); [by rewrite Hatt|done].
    + apply phase_same; [by unfold watchdog_phase, dropped, set_watchdog_phase; rewrite Hl, Hl'; cbn; rewrite Hw|].
      left. by unfold watchdog_updates, dropped, set_watchdog_phase; rewrite Hl, Hl'; cbn; rewrite Hw.
  - destruct (Hplaced a (or_intror Hh)) as (att & Ha & Hs). unfold started in Hl'. case_bool_decide as Hp.
    + apply phase_started; [by unfold watchdog_phase; rewrite Hl| |].
      * unfold watchdog_phase, set_watchdog_phase in *. rewrite Hl'. cbn in *. by destruct (turn_watchdog l).
      * apply (sent_not_waiting t' a att); [|by rewrite Hatt|done]. rewrite Hq. intros Hin. by apply Hdisj in Hin.
    + apply phase_same; [by unfold watchdog_phase; rewrite Hl, Hl'|left; by unfold watchdog_updates; rewrite Hl, Hl'].
  - apply phase_fires; [by unfold watchdog_phase; rewrite Hl|].
    unfold watchdog_phase, set_watchdog_phase. rewrite Hl'. cbn in *. by destruct (turn_watchdog l).
  - apply phase_same; [|by right]. unfold watchdog_phase, set_watchdog_phase. rewrite Hl, Hl'. cbn in *. by destruct (turn_watchdog l).
Qed.

Lemma waiting_back t t' a :
  attempts_change t t' -> flow_change t t' -> waiting t' a -> waiting t a \/ attempts t !! a = None.
Proof.
  intros Hatts Hflow [Hin|(att' & Ha' & Hh & Hs)].
  - destruct Hflow as [Hq _|b att Hb Hp _ Hq _|b Hq _|b Hq _ _|Hq _ _]; rewrite ?Hq in Hin.
    + by left; left.
    + apply elem_of_app in Hin as [Hin| ->%list_elem_of_singleton]; [by left; left|].
      left; right. exists att. by rewrite Hp.
    + left; left. rewrite Hq. by right.
    + by left; left.
    + by apply elem_of_nil in Hin.
  - destruct (attempts t !! a) as [att|] eqn:Ha; [left; right|by right]. exists att. split; [done|].
    destruct Hatts as [Hat _|b old p Hb Hp Hsp _ _ Hat _|b old p Hb Hold _ Hp Hat _ _|b old Hb _ _ Hat _|b old Hb _ Hat _]; rewrite Hat in Ha'.
    + assert (att' = att) as -> by congruence. done.
    + apply lookup_alter_phase in Ha' as (old' & Ho & _ & _ & _ & [[-> Hph]|[_ ->]]); [|by assert (att = old') as -> by congruence].
      assert (old' = att /\ old = att) as [-> ->] by (split; congruence). destruct Hsp as [Hsp|[_ Hsp]]; [by rewrite <- Hp, <- Hsp, <- Hph|].
      by rewrite Hph, Hsp in Hs.
    + apply lookup_alter_phase in Ha' as (old' & Ho & _ & _ & _ & [[-> Hph]|[_ ->]]); [by rewrite Hph, Hp in Hh|].
      by assert (att = old') as -> by congruence.
    + rewrite lookup_insert_ne in Ha' by congruence. by assert (att = att') as -> by congruence.
    + rewrite lookup_insert_ne in Ha' by congruence. by assert (att = att') as -> by congruence.
Qed.

Lemma attempts_kept t t' a : attempts_change t t' -> is_Some (attempts t !! a) -> is_Some (attempts t' !! a).
Proof. intros Hc [att Ha]. destruct (attempt_stays _ _ _ _ Hc Ha) as (att' & Ha' & _). by exists att'. Qed.

Lemma lease_attempted_kept t t' a :
  attempts_change t t' -> lease_change t t' a -> watchdogs_ok t -> is_Some (leases t' !! a) -> is_Some (attempts t' !! a).
Proof.
  intros Hatts Hlease [Hatt _ _ _] [l Hl].
  destruct Hlease as [Heq|att _ _ Ha' _|att Ha _ _ _ _ _|att l0 w Ha _ _ _ _ _ _|att p l0 Ha _ _ _ _ _ _
    |l0 _ Hl0 _ _|l0 _ Hl0 _ _ _|l0 _ _ Hl0 _ _ _|l0 q _ _ Hl0 _ _ _]; [|by exists att|..];
    apply (attempts_kept _ _ _ Hatts); try (by exists att); apply Hatt; [rewrite <- Heq; by exists l|by exists l0..].
Qed.

(** While a task is where it was, its turn is where the task takes it to be. *)
Lemma task_stays t t' a k :
  attempts_change t t' -> phase_change t t' a -> watchdogs_ok t -> watchdog_tasks t !! a = Some k ->
  exists att p, attempts t' !! a = Some att /\ sent (attempt_phase att) = true /\ watchdog_phase t' a = Some p /\
    (k = WaitingForStart \/ p <> WatchdogPending) /\ (timed_out_task k = true -> p = WatchdogTimedOut \/ p = WatchdogFinished).
Proof.
  intros Hatts Hphase [_ _ _ Hsent] Hk. destruct (Hsent a k Hk) as (att & p & Ha & Hs & Hp & Hstart & Hend).
  destruct (attempt_stays _ _ _ _ Hatts Ha) as (att' & Ha' & _ & _ & _ & Hs').
  destruct Hphase as [Hp' _|_ Hno|att0 Ha0 Hph _ _|q _ Hp' _|Hp0 Hp' _|Hp0 Hp'].
  - exists att', p. rewrite Hp'. split_and!; auto.
  - destruct Hno as [Hno|(att0 & Ha0 & Hs0)]; congruence.
  - assert (att0 = att) as -> by congruence. by rewrite Hph in Hs.
  - exists att', WatchdogFinished. split_and!; auto.
  - exists att', WatchdogActive. split_and!; auto. intros Hk1. destruct (Hend Hk1); congruence.
  - exists att', WatchdogTimedOut. split_and!; auto.
Qed.

Lemma task_sent_kept t t' a k :
  attempts_change t t' -> phase_change t t' a -> task_change t t' a -> watchdogs_ok t -> watchdog_tasks t' !! a = Some k ->
  exists att p, attempts t' !! a = Some att /\ sent (attempt_phase att) = true /\ watchdog_phase t' a = Some p /\
    (k = WaitingForStart \/ p <> WatchdogPending) /\ (timed_out_task k = true -> p = WatchdogTimedOut \/ p = WatchdogFinished).
Proof.
  intros Hatts Hphase Htask Hok Hk.
  destruct Htask as [Heq|att p Ha Hp Hat Hph Hl Heq|p k' Hk0 Hu Hne Hto Hl Heq|Hk0 Hp Heq|k0 k' Hk0 Hne Hto Heq]; rewrite Heq in Hk.
  - by eapply task_stays.
  - injection Hk as <-. exists (with_phase Sent att), p. rewrite Hat, lookup_alter_eq, Ha.
    split_and!; try done; [by unfold watchdog_phase in *; rewrite Hl|by left].
  - injection Hk as <-. destruct (task_stays _ _ _ _ Hatts Hphase Hok Hk0) as (att & q & Ha & Hs & Hq & _ & _).
    exists att, q. split_and!; try done; [right; intros ->|by rewrite Hto].
    apply Hne. destruct Hok as [_ Hpub _ _]. unfold watchdog_phase, watchdog_updates in *. rewrite Hl in Hq. apply Hpub in Hq. congruence.
  - injection Hk as <-. destruct (task_stays _ _ _ _ Hatts Hphase Hok Hk0) as (att & q & Ha & Hs & Hq & Hst & _).
    exists att, q. assert (q = WatchdogTimedOut) as -> by congruence. split_and!; auto.
  - injection Hk as <-. destruct (task_stays _ _ _ _ Hatts Hphase Hok Hk0) as (att & q & Ha & Hs & Hq & Hst & Hend).
    exists att, q. split_and!; auto. right. by destruct Hst.
Qed.

Lemma step_watchdogs t t' :
  attempts_change t t' -> flow_change t t' -> (forall a, lease_change t t' a) -> (forall a, task_change t t' a) ->
  flow_ok t -> watchdogs_ok t -> watchdogs_ok t'.
Proof.
  intros Hatts Hflow Hlease Htask Hok Hw. pose proof (fun a => turn_step_phase t t' a Hok (Hlease a)) as Hphase.
  destruct Hw as [Hatt Hpub Hwait Hsent] eqn:Hw'. clear Hw'.
  assert (forall a, attempts t !! a = None -> watchdog_phase t a = None) as Hnone.
  { intros a Ha. unfold watchdog_phase. destruct (leases t !! a) eqn:Hl; [|done].
    destruct (Hatt a) as [att Ha']; [by rewrite Hl|congruence]. }
  split.
  - intros a. by apply (lease_attempted_kept t).
  - intros a Ha. destruct (Hphase a) as [Hp Hu|Hp _|att _ _ _ Hu|p _ Hp _|_ Hp _|_ Hp]; try congruence.
    rewrite Hp in Ha. destruct Hu as [->|Ht]; [by apply Hpub|].
    destruct (Hsent a TimingOut Ht) as (att & p & _ & _ & Hp' & _ & Hend). destruct (Hend eq_refl); congruence.
  - intros a Ha. destruct (Hphase a) as [Hp _|Hp _|att _ _ Hp _|p _ _ Hno|_ _ Hno|Hp _]; try done; [|by left|by right|].
    + rewrite Hp. destruct (waiting_back t t' a Hatts Hflow Ha) as [Hwt|Hn]; [by apply Hwait|left; by apply Hnone].
    + destruct (waiting_back t t' a Hatts Hflow Ha) as [Hwt|Hn]; [destruct (Hwait a Hwt); congruence|]. by rewrite (Hnone a Hn) in Hp.
  - intros a k. by apply (task_sent_kept t).
Qed.

(** ** Permits *)

Lemma holders_leases t t' a : leases t' !! a = leases t !! a -> (a ∈ permit_holders (leases t') <-> a ∈ permit_holders (leases t)).
Proof. intros Heq. by rewrite !elem_of_permit_holders, Heq. Qed.

(** A permit comes with a slot and leaves with a start or a drop. *)
Lemma permit_moves t t' a :
  lease_change t t' a ->
  (a ∈ permit_holders (leases t') -> a ∈ permit_holders (leases t) \/
     (exists att, attempts t !! a = Some att /\ attempt_mode att = ModeQueue /\ attempts t' = alter (with_phase AwaitingCommand) a (attempts t))) /\
  (a ∈ permit_holders (leases t) -> a ∈ permit_holders (leases t') \/ a ∈ held t \/ (queued t' = [] /\ a ∈ queued t) \/
     (exists att p, attempts t !! a = Some att /\ holds p = false /\ attempts t' = alter (with_phase p) a (attempts t) /\ sent (attempt_phase att) = false) \/
     attempts t !! a = None).
Proof.
  intros Hc. rewrite !elem_of_permit_holders.
  destruct Hc as [Hl|att Ha Hl Ha' _|att Ha Hat Hm Hl Hatt _|att l w Ha Hat Hl Hl' _ _ _|att p l Ha Hs Hp Hl Hl' Hatt Hq
                 |l Hwhere Hl Hl' Hatt|l Hh Hl Hl' Hatt Hq|l _ Hp Hl Hl' _ _|l q Ht Hp Hl Hl' _ _]; rewrite ?Hl, ?Hl'.
  - naive_solver.
  - split; [intros (l & [= <-] & ?); done|]. naive_solver.
  - split; [|naive_solver]. right. by exists att.
  - naive_solver.
  - split; [intros (l' & [= <-] & ?); done|]. right; right; right; left. by exists att, p.
  - split; [intros (l' & [= <-] & ?); done|]. destruct Hwhere as [[Hh _]|[Hq [|]]]; auto.
  - split; [intros (l' & [= <-] & Hp); unfold started in Hp; by case_bool_decide|]. auto.
  - unfold set_watchdog_phase. naive_solver.
  - unfold set_watchdog_phase. naive_solver.
Qed.

Lemma placed_kept t t' a :
  flow_change t t' -> a ∈ permit_holders (leases t') -> a ∈ queued t \/ a ∈ held t -> a ∈ queued t' \/ a ∈ held t'.
Proof.
  intros [Hq Hh|b att _ _ _ Hq Hh|b Hq Hh|b Hq Hh Hno|Hq Hh Hno] Hp Ha.
  - by rewrite Hq, Hh.
  - rewrite Hq, Hh, elem_of_app. naive_solver.
  - rewrite Hh. rewrite Hq in Ha. set_solver.
  - rewrite Hq, Hh. destruct (decide (a = b)) as [->|]; [done|]. set_solver.
  - by destruct (Hno a Ha).
Qed.

Lemma permit_place_kept t t' a :
  attempts_change t t' -> flow_change t t' -> lease_change t t' a -> permits_ok t -> a ∈ permit_holders (leases t') ->
  exists att, attempts t' !! a = Some att /\ attempt_mode att = ModeQueue /\
    (slotted (attempt_phase att) = true \/ a ∈ queued t' \/ a ∈ held t').
Proof.
  intros Hatts Hflow Hlease [Hplace _] Ha. destruct (proj1 (permit_moves t t' a Hlease) Ha) as [Hold|(att & Hatt & Hm & Hnew)].
  2: { exists (with_phase AwaitingCommand att). rewrite Hnew, lookup_alter_eq, Hatt. split_and!; [done..|by left]. }
  destruct (Hplace a Hold) as (att & Hatt & Hm & [Hs|Hin]).
  2: { destruct (attempt_stays _ _ _ _ Hatts Hatt) as (att' & Ha' & _ & Hm' & _). exists att'.
       split_and!; [done|congruence|right; by apply (placed_kept t)]. }
  destruct Hatts as [Hat _|b old p Hb _ _ _ Hsl Hat _|b old p Hb _ _ _ Hat _ Hno|b old Hb _ _ Hat _|b old Hb _ Hat _].
  - exists att. rewrite Hat. auto.
  - destruct (decide (b = a)) as [->|Hne]; [|exists att; rewrite Hat, lookup_alter_ne by done; auto].
    exists (with_phase p att). assert (old = att) as -> by congruence. rewrite Hat, lookup_alter_eq, Hatt. split_and!; [done..|].
    destruct Hsl as [Hsl|[[_ Hq]|[Hp _]]]; [left; cbn; congruence|right; left; rewrite Hq; set_solver|by rewrite Hp in Hs].
  - destruct (decide (b = a)) as [->|Hne]; [done|]. exists att. rewrite Hat, lookup_alter_ne by done. auto.
  - exists att. rewrite Hat, lookup_insert_ne by congruence. auto.
  - exists att. rewrite Hat, lookup_insert_ne by congruence. auto.
Qed.

Lemma slotted_not_sent p : slotted p = true -> sent p = false.
Proof. by destruct p. Qed.

(** An input that has its permit keeps it until the runtime takes it or it is dropped. *)
Lemma permit_survives t t' a att att' :
  attempts_change t t' -> lease_change t t' a -> flow_ok t -> flow_ok t' -> attempts t !! a = Some att -> attempts t' !! a = Some att' ->
  slotted (attempt_phase att) = true \/ a ∈ queued t -> slotted (attempt_phase att') = true \/ a ∈ queued t' ->
  a ∈ permit_holders (leases t) -> a ∈ permit_holders (leases t').
Proof.
  intros Hatts Hlease [_ Hdisj Hplaced] [_ _ Hplaced'] Ha Ha' Hw Hw' Hp.
  assert (a ∈ queued t \/ a ∈ held t -> sent (attempt_phase att) = true) as Hsent.
  { intros Hin. destruct (Hplaced a Hin) as (x & Hx & Hsx). by assert (x = att) as -> by congruence. }
  destruct (attempt_stays _ _ _ _ Hatts Ha) as (x & Hx & _ & _ & _ & Hstay). assert (x = att') as -> by congruence.
  destruct (proj2 (permit_moves t t' a Hlease) Hp) as [?|[Hheld|[[Hq Hin]|[(old & p & Hold & Hp0 & Hat & Hs)|Hn]]]]; [done| | | |congruence].
  - exfalso. destruct Hw as [Hs|Hin]; [|by apply Hdisj in Hin]. apply slotted_not_sent in Hs. rewrite Hsent in Hs by auto. done.
  - exfalso. destruct Hw' as [Hs'|Hin']; [|rewrite Hq in Hin'; by apply elem_of_nil in Hin'].
    apply slotted_not_sent in Hs'. rewrite Hstay in Hs' by auto. done.
  - rewrite Hat, lookup_alter_eq, Hold in Ha'. injection Ha' as <-. assert (old = att) as -> by congruence.
    exfalso. cbn in Hw'. destruct Hw' as [Hs'|Hin']; [by destruct p|].
    destruct (Hplaced' a (or_introl Hin')) as (y & Hy & Hsy). rewrite Hat, lookup_alter_eq, Hold in Hy. injection Hy as <-.
    cbn in Hsy. by destruct p.
Qed.

Lemma permit_kept_kept t t' a att' :
  attempts_change t t' -> flow_change t t' -> lease_change t t' a -> flow_ok t -> flow_ok t' -> permits_ok t ->
  max_pending_inputs execution_policy <> None -> attempts t' !! a = Some att' -> attempt_mode att' = ModeQueue ->
  slotted (attempt_phase att') = true \/ a ∈ queued t' -> a ∈ permit_holders (leases t').
Proof.
  intros Hatts Hflow Hlease Hok Hok' [_ Hkept] Hmax Ha' Hm Hw.
  assert (forall att, attempts t !! a = Some att -> attempt_mode att = ModeQueue -> slotted (attempt_phase att) = true \/ a ∈ queued t ->
    a ∈ permit_holders (leases t')) as Hdone.
  { intros att Ha Hma Hwa. apply (permit_survives t t' a att att'); auto. by apply (Hkept a att). }
  destruct Hw as [Hs|Hin].
  - destruct Hatts as [Hat _|b old p Hb _ _ _ Hsl Hat _|b old p Hb _ _ Hp Hat _ _|b old Hb Hp _ Hat _|b old Hb Hp Hat _];
      pose proof Ha' as Ha; rewrite Hat in Ha.
    + apply (Hdone att'); auto.
    + apply lookup_alter_phase in Ha as (x & Hx & _ & Hmx & _ & [[-> Hph]|[_ ->]]); [|by apply (Hdone x); auto].
      assert (x = old) as -> by congruence. rewrite Hph in Hs.
      destruct Hsl as [Hsl|[[-> _]|[_ Hacq]]]; [apply (Hdone old); [done|congruence|left; congruence]|done|apply Hacq; congruence].
    + apply lookup_alter_phase in Ha as (x & Hx & _ & Hmx & _ & [[-> Hph]|[_ ->]]); [|by apply (Hdone x); auto].
      rewrite Hph in Hs. by destruct p.
    + apply lookup_insert_Some in Ha as [[-> ->]|[_ Ha]]; [by rewrite Hp in Hs|by apply (Hdone att'); auto].
    + apply lookup_insert_Some in Ha as [[-> ->]|[_ Ha]]; [by rewrite Hp in Hs|by apply (Hdone att'); auto].
  - assert (a ∈ queued t \/ exists att, attempts t !! a = Some att /\ attempt_phase att = Ready) as Hwas.
    { destruct Hflow as [Hq _|b att Hb Hp _ Hq _|b Hq _|b Hq _ _|Hq _ _]; try rewrite Hq in Hin;
        [by left| |left; rewrite Hq; by right|by left|by apply elem_of_nil in Hin].
      apply elem_of_app in Hin as [Hin| ->%list_elem_of_singleton]; [by left|right; by exists att]. }
    assert (exists att, attempts t !! a = Some att /\ (slotted (attempt_phase att) = true \/ a ∈ queued t)) as (att & Ha & Hwa).
    { destruct Hwas as [Hq|(att & Ha & Hp)]; [|exists att; rewrite Hp; auto].
      destruct Hok as [_ _ Hplaced]. destruct (Hplaced a (or_introl Hq)) as (att & Ha & _). exists att. auto. }
    destruct (attempt_stays _ _ _ _ Hatts Ha) as (x & Hx & _ & Hmx & _). assert (x = att') as -> by congruence.
    apply (Hdone att Ha); [congruence|done].
Qed.

Lemma step_permits t t' :
  attempts_change t t' -> flow_change t t' -> (forall a, lease_change t t' a) -> flow_ok t -> flow_ok t' -> permits_ok t -> permits_ok t'.
Proof.
  intros Hatts Hflow Hlease Hok Hok' Hp. split.
  - intros a. by apply (permit_place_kept t).
  - intros a att. by apply (permit_kept_kept t).
Qed.

(** ** Slots *)

Definition slots_inv t : Prop := slots_ok (slot_limit (Sem := Sem) execution_policy) (pending_input_slots t) (leases t).

Lemma slots_keep t u a l :
  slots_inv t -> pending_input_slots u = pending_input_slots t -> leases u = <[a := l]> (leases t) ->
  (pending_input_permit l = true <-> a ∈ permit_holders (leases t)) -> slots_inv u.
Proof. unfold slots_inv. intros Hs -> -> Hl. by apply slots_same. Qed.

Lemma slots_unchanged t u : slots_inv t -> pending_input_slots u = pending_input_slots t -> leases u = leases t -> slots_inv u.
Proof. unfold slots_inv. by intros Hs -> ->. Qed.

Lemma slots_release_slot a t : slots_inv t -> slots_inv (release_slot a t).
Proof.
  unfold release_slot. intros Hs. destruct (leases t !! a) as [l|] eqn:Hl; [|done].
  destruct (pending_input_permit l) eqn:Hp; [|done]. unfold slots_inv. cbn [pending_input_slots leases set_lease set_slots].
  apply slots_release; [|done|done]. apply elem_of_permit_holders. by exists l.
Qed.

Lemma release_slot_free a t l : leases (release_slot a t) !! a = Some l -> pending_input_permit l = false.
Proof. rewrite lookup_release_slot, decide_True by done. by intros (l0 & _ & ->)%fmap_Some. Qed.

Lemma free_not_holder t a l : leases t !! a = Some l -> pending_input_permit l = false -> a ∉ permit_holders (leases t).
Proof. intros Hl Hp (l' & Hl' & Hp')%elem_of_permit_holders. congruence. Qed.

Lemma slots_drop_input a t : slots_inv t -> slots_inv (drop_input a t).
Proof.
  intros Hs. apply (slots_release_slot a) in Hs. unfold drop_input. destruct (leases (release_slot a t) !! a) as [l|] eqn:Hl; [|done].
  pose proof (release_slot_free a t l Hl) as Hp. eapply (slots_keep _ _ a); [exact Hs|reflexivity|reflexivity|].
  cbn. rewrite Hp. split; [done|]. intros Hin. by destruct (free_not_holder _ _ _ Hl Hp).
Qed.

Lemma slots_drop_inputs l t : slots_inv t -> slots_inv (fold_right drop_input t l).
Proof. intros Hs. induction l as [|a l IH]; [done|]. by apply slots_drop_input. Qed.

Lemma slots_start a t : slots_inv t -> slots_inv (start_turn_watchdog a t).
Proof.
  intros Hs. apply (slots_release_slot a) in Hs. unfold start_turn_watchdog.
  destruct (leases (release_slot a t) !! a) as [l|] eqn:Hl; [|done]. case_bool_decide; [|done].
  pose proof (release_slot_free a t l Hl) as Hp. eapply (slots_keep _ _ a); [exact Hs|reflexivity|reflexivity|].
  cbn. rewrite Hp. split; [done|]. intros Hin. by destruct (free_not_holder _ _ _ Hl Hp).
Qed.

Lemma slots_abandon a p t att : attempts t !! a = Some att -> slots_inv t -> slots_inv (abandon a p t).
Proof.
  intros Ha Hs. destruct (abandon_spec a p t att Ha) as (_ & _ & Hl & Hsl & _).
  apply (slots_unchanged (drop_input a t)); [by apply slots_drop_input|done|done].
Qed.

Lemma slots_stop t : slots_inv t -> slots_inv (stop_runtime t).
Proof.
  intros Hs. destruct (stop_runtime_spec t) as (_ & _ & _ & _ & _ & _ & _ & Hl & Hsl).
  by eapply slots_unchanged; [apply slots_drop_inputs, Hs|exact Hsl|exact Hl].
Qed.

Lemma slots_register a t : slots_inv t -> slots_inv (register_turn_watchdog execution_policy a t).
Proof.
  intros Hs. unfold register_turn_watchdog. destruct (turn_timeout_ms execution_policy), (leases t !! a) as [l|] eqn:Hl; try done.
  eapply (slots_keep t _ a); [exact Hs|reflexivity|reflexivity|]. cbn. rewrite elem_of_permit_holders, Hl. naive_solver.
Qed.

Lemma slots_phase t a l q v :
  slots_inv t -> leases t !! a = Some l -> slots_inv (set_lease a (set_watchdog_phase q v l) t).
Proof.
  intros Hs Hl. eapply (slots_keep t _ a); [exact Hs|reflexivity|reflexivity|]. cbn. rewrite elem_of_permit_holders, Hl. naive_solver.
Qed.

(** No step makes or loses a permit. *)
Lemma step_slots step t t' : turn_step me execution_policy step t = Some t' -> watchdogs_ok t -> permits_ok t -> flow_ok t ->
  slots_inv t -> slots_inv t'.
Proof.
  intros Hstep [Hatt _ _ _] [Hplace _] [_ _ Hplaced] Hs.
  destruct step; step_cases Hstep; to_prop; try (apply (slots_unchanged t); [exact Hs|parts; reflexivity|parts; reflexivity]).
  all: try match goal with
  | Ha : attempts _ !! ?a = Some ?att |- slots_inv (abandon ?a _ ?u) =>
      apply (slots_abandon a _ u att Ha); apply (slots_unchanged t); done
  | |- slots_inv (set_phase _ _ (register_turn_watchdog _ ?a ?u)) =>
      apply (slots_unchanged (register_turn_watchdog execution_policy a u));
        [apply slots_register, (slots_unchanged t); done|parts; reflexivity|parts; reflexivity]
  end.
  - eapply (slots_keep t _ a); [exact Hs|reflexivity|reflexivity|]. cbn. split; [done|]. intros Hin.
    destruct (Hplace a Hin) as (att & Ha & _). congruence.
  - unfold slots_inv. parts. match goal with Hslots : pending_input_slots t = Some ?s0 |- _ =>
      unfold slots_inv in Hs; rewrite Hslots in Hs; apply (slots_acquire _ s0); try done end.
    intros Hin. destruct (Hplace a Hin) as (att & Ha & _ & Hwhere). assert (a0 = att) as -> by congruence.
    destruct Hwhere as [Hsl|Hin']; [by rewrite Hcase0 in Hsl|].
    destruct (Hplaced a Hin') as (x & Hx & Hsx). assert (x = att) as -> by congruence. by rewrite Hcase0 in Hsx.
  - by apply slots_start.
  - by apply (slots_unchanged (drop_input a t)); [apply slots_drop_input|..].
  - by apply slots_stop.
  - eapply (slots_unchanged (set_lease a _ t)); [by apply (slots_phase t a); eassumption|reflexivity|reflexivity].
  - eapply (slots_unchanged (set_lease a _ t)); [by apply (slots_phase t a); eassumption|reflexivity|reflexivity].
  - match goal with |- slots_inv (set_task _ _ ?u) => apply (slots_unchanged u) end; [|done|done].
    apply slots_stop. by apply (slots_unchanged t).
Qed.

(** ** Decisions *)

Definition control_stream : EventStreamId := "control:" +:+ uuid_text (thread_id me).

(** The decision of a context is on the control stream. *)
Definition decided_on (s : S) (c : AdmissionGateContext) : Prop :=
  exists e, e ∈ log_events s control_stream /\ kind e = AdmissionDecided /\ coordinates e = me /\
    payload e = admission_decided_payload c /\ source_event_ids (provenance e) = source_ingress_event_ids c.

(** The journal is extended. *)
Definition journal_extended (s s' : S) : Prop :=
  log_valid s' /\ forall stream, exists more, log_events s' stream = log_events s stream ++ more.

Lemma decided_extended s s' c : journal_extended s s' -> decided_on s c -> decided_on s' c.
Proof.
  intros [_ He] (e & Hin & Hrest). exists e. split; [|done]. destruct (He control_stream) as [more ->]. rewrite elem_of_app. by left.
Qed.

Lemma append_extended records s : log_valid s -> journal_extended s (log_append control_stream records s).1.
Proof.
  intros Hv. destruct (log_append control_stream records s) as [s' [es|err]] eqn:Hrun; cbn [fst].
  - destruct (log_append_plus _ _ _ _ _ Hv Hrun) as [[Hv' Hj] _]. split; [done|]. intros stream. by eexists.
  - destruct (log_unextended _ _ _ _ _ Hv Hrun) as [Hv' Ho]. split; [done|]. intros stream. exists []. by rewrite Ho, app_nil_r.
Qed.

Lemma append_control_event_spec id now c s s' r :
  log_valid s -> append_control_event me (admission_decided_record id now me c) s = (s', r) ->
  journal_extended s s' /\ (is_ok r = true -> decided_on s' c).
Proof.
  intros Hv. unfold append_control_event. fold control_stream. pose proof (append_extended [admission_decided_record id now me c] s Hv) as Happ.
  destruct (log_append control_stream _ s) as [s1 [es|err]] eqn:Hrun; cbn [map_err result_bind fst] in *; [|by intros [= <- <-]].
  destruct (log_extended_one _ _ _ _ _ Hv Hrun) as (Hv1 & Hes & Hlog & _). rewrite Hes in *. cbn [head ok_or].
  destruct (run_bound_couplings _ s1) as [s2 r2] eqn:Hc. destruct (couplings_extend _ _ _ _ Hv1 Hc) as [Hv2 Hext].
  intros [= <- <-]. assert (journal_extended s1 s2) as H12 by done. split.
  - split; [done|]. intros stream. destruct (proj2 Happ stream) as [m1 Hm1], (Hext stream) as [m2 Hm2].
    exists (m1 ++ m2). by rewrite Hm2, Hm1, app_assoc.
  - intros _. apply (decided_extended s1); [done|]. eexists. rewrite Hlog. split; [apply elem_of_app; right; by left|]. by split_and!.
Qed.

Lemma turn_step_store step t t' :
  turn_step me execution_policy step t = Some t' -> log_valid (runtime_store t) -> journal_extended (runtime_store t) (runtime_store t').
Proof.
  intros Hstep Hv. assert (journal_extended (runtime_store t) (runtime_store t)) as Hrefl
    by (split; [done|]; intros stream; exists []; by rewrite app_nil_r).
  destruct step; step_cases Hstep; to_prop; try (parts; exact Hrefl).
  all: try match goal with
  | Hr : append_control_event _ _ _ = (?s, _) |- journal_extended _ (runtime_store ?u) =>
      replace (runtime_store u) with s; [by apply (append_control_event_spec _ _ _ _ _ _ Hv Hr)|]; symmetry
  end.
  all: try match goal with
  | Ha : attempts _ !! ?a = Some ?att |- context [abandon ?a ?p ?u] =>
      destruct (abandon_spec a p u att Ha) as (_ & _ & _ & _ & _ & Hs & _); rewrite Hs; first [exact Hrefl|reflexivity|by apply append_extended]
  | |- context [register_turn_watchdog ?pol ?a ?u] =>
      destruct (register_turn_watchdog_rest a u) as (Hs & _); parts; rewrite Hs; first [exact Hrefl|reflexivity]
  | |- context [start_turn_watchdog ?a ?u] => destruct (start_turn_watchdog_rest a u) as (-> & _); exact Hrefl
  | |- context [drop_input ?a ?u] => destruct (drop_input_rest a u) as (Hs & _); parts; rewrite Hs; exact Hrefl
  | |- context [stop_runtime ?u] => destruct (stop_runtime_spec u) as (Hs & _); parts; rewrite Hs; exact Hrefl
  end.
Qed.

(** Turns past their admission have their decision recorded. *)
Record admissions_ok t : Prop := {
  store_valid : log_valid (runtime_store t);
  admitted_decided a att c : attempts t !! a = Some att -> admitted (attempt_phase att) = true -> attempt_admission att = Some c ->
    decided_on (runtime_store t) c;
}.

Lemma step_admissions t t' :
  attempts_change t t' -> journal_extended (runtime_store t) (runtime_store t') -> admissions_ok t -> admissions_ok t'.
Proof.
  intros Hatts Hext [Hv Hdec]. split; [by destruct Hext|]. intros a att c Ha Hadm Hc.
  destruct Hatts as [Hat _|b old p Hb _ _ Hp _ Hat _|b old p Hb _ _ Hp Hat _ _|b old Hb Hp _ Hat _|b old Hb Hp Hat _]; rewrite Hat in Ha.
  - eapply decided_extended; [done|]. by apply (Hdec a att).
  - apply lookup_alter_phase in Ha as (x & Hx & _ & _ & Hcx & [[-> Hph]|[_ ->]]); [|by eapply decided_extended, (Hdec a x)].
    assert (x = old) as -> by congruence. rewrite Hph in Hadm. destruct Hp as [Hp|Hrec].
    + eapply decided_extended; [done|]. apply (Hdec a old); congruence.
    + destruct (Hrec c) as (id & now & e & Hrun); [congruence|].
      by apply (append_control_event_spec _ _ _ _ _ _ Hv Hrun).
  - apply lookup_alter_phase in Ha as (x & Hx & _ & _ & Hcx & [[-> Hph]|[_ ->]]); [|by eapply decided_extended, (Hdec a x)].
    rewrite Hph in Hadm. by destruct p.
  - apply lookup_insert_Some in Ha as [[-> ->]|[_ Ha]]; [by rewrite Hp in Hadm|by eapply decided_extended, (Hdec a att)].
  - apply lookup_insert_Some in Ha as [[-> ->]|[_ Ha]]; [by rewrite Hp in Hadm|by eapply decided_extended, (Hdec a att)].
Qed.

(** ** Reachable states *)

Record thread_ok t : Prop := {
  thread_reservations : reservations_ok (turn_reservations t) (attempts t);
  thread_flow : flow_ok t;
  thread_permits : permits_ok t;
  thread_watchdogs : watchdogs_ok t;
  thread_slots : slots_inv t;
  thread_admissions : admissions_ok t;
}.

Lemma started_ok store : log_valid store -> thread_ok (started_thread execution_policy store).
Proof.
  intros Hv. split.
  - split; [by intros a att Ha|by intros a b att btt Ha|by intros turn Ht%elem_of_empty].
  - split; cbn; rewrite new_messages; cbn; [constructor|by intros a Ha%elem_of_nil|].
    intros a [Ha%elem_of_nil|Ha%elem_of_empty]; done.
  - split.
    + intros a (l & Hl & _)%elem_of_permit_holders. done.
    + intros a att _ Ha. done.
  - split.
    + intros a [l Hl]. done.
    + intros a Ha. done.
    + intros a _. by left.
    + intros a k Hk. done.
  - unfold slots_inv. cbn. unfold slots_ok, slot_limit. destruct (max_pending_inputs execution_policy) as [n|]; cbn; [|done].
    split; [lia|]. rewrite new_available by lia. change (permit_holders ∅) with (∅ : gset InputLease). rewrite size_empty. lia.
  - split; [done|]. intros a att c Ha. done.
Qed.

Lemma step_ok step t t' : turn_step me execution_policy step t = Some t' -> thread_ok t -> thread_ok t'.
Proof.
  intros Hstep [Hr Hf Hp Hw Hs Ha]. pose proof (turn_step_attempts _ _ _ Hstep) as Hatts. pose proof (turn_step_flow _ _ _ Hstep) as Hflow.
  pose proof (fun a => turn_step_lease _ _ _ a Hstep) as Hlease. pose proof (fun a => turn_step_task _ _ _ a Hstep) as Htask.
  assert (flow_ok t') as Hf' by by eapply step_flow. split.
  - by eapply step_reservations.
  - done.
  - by eapply step_permits.
  - by eapply step_watchdogs.
  - by eapply step_slots.
  - eapply step_admissions; [done| |done]. eapply turn_step_store; [done|]. by destruct Ha.
Qed.

Lemma reachable_thread_ok store t : log_valid store -> reachable_thread me execution_policy store t -> thread_ok t.
Proof. intros Hv. induction 1 as [|t t' step _ IH Hstep]; [by apply started_ok|by eapply step_ok]. Qed.

Lemma reachable_steps store steps t t' :
  reachable_thread me execution_policy store t -> turn_steps me execution_policy steps t = Some t' ->
  reachable_thread me execution_policy store t'.
Proof.
  unfold turn_steps. revert t. induction steps as [|step steps IH]; intros t Hr; cbn [fold_left]; [by intros [= <-]|].
  cbn [mbind option_bind]. destruct (turn_step me execution_policy step t) as [t1|] eqn:Hstep.
  - apply IH. by eapply reachable_step.
  - assert (fold_left (fun r step => t ← r; turn_step me execution_policy step t) steps None = @None Thread) as -> by (clear; by induction steps).
    done.
Qed.
End Facts.
