(* ===== verification/AdmissionProps.v ===== *)
(** * Turn admission: its properties

    What holds in every state that callers, the runtime and the watchdogs of a
    thread can reach together, in any order of their steps. *)

From stdpp Require Import base gmap sets list strings pretty.
From Stdlib Require Import NArith ZArith Lia.
From S2P Require Import Prelude Json EventKind Contracts Records Store Journal EventLog SyncExamples ReadPlan Canonical Admission.
From S2P Require Import AdmissionFacts.

Local Open Scope verlet_scope.
Local Open Scope string_scope.
Local Open Scope list_scope.

Section Props.
Context `{UuidText} {S : Type} `{!EventStore S, !EventStoreLaws S, !EventAppend S, !EventAppendLaws S}.
Context `{!BoundCouplings S, !BoundCouplingsLaws S}.
Context {Sem : Type} `{!Semaphore Sem, !SemaphoreLaws Sem} {Ch : Type} `{!CommandChannel Ch, !CommandChannelLaws Ch}.
Variable me : ThreadCoordinates.
Variable execution_policy : RuntimeExecutionPolicy.

Notation Thread := (RuntimeThread (S := S) (Sem := Sem) (Ch := Ch)).
Implicit Types (t : Thread) (a b : InputLease).
Notation queued t := (command_inputs (messages (command_channel t))).
Notation reachable := (reachable_thread me execution_policy).

(** C17 - A turn id is reserved by one attempt at a time, and for good by the one that submits it: it
    is in the set of reserved ids exactly while some attempt is under way with it or has sent it, and
    no two such attempts have the same id.  So of the callers that submit the same turn at once, one
    at most gets through. *)
Theorem turn_ids_reserved_once store t :
  log_valid store -> reachable store t ->
  (forall turn, turn ∈ turn_reservations t <->
     exists a att, attempts t !! a = Some att /\ attempt_turn_id att = turn /\ holds (attempt_phase att) = true) /\
  (forall a b att btt, attempts t !! a = Some att -> attempts t !! b = Some btt ->
     holds (attempt_phase att) = true -> holds (attempt_phase btt) = true ->
     attempt_turn_id att = attempt_turn_id btt -> a = b).
Proof.
  intros Hv Hr. destruct (reachable_thread_ok _ _ _ _ Hv Hr) as [[Hres Huniq Hheld] _ _ _ _ _]. split; [|exact Huniq].
  intros turn. split; [intros Hin; destruct (Hheld turn Hin) as (a & att & ? & ? & ?); by exists a, att|].
  intros (a & att & Ha & <- & Hh). by apply (Hres a).
Qed.



(** C16 - A turn that goes through admission is scheduled after its decision is recorded: of a turn
    that is in the channel, that the runtime has, or whose submission returned, and that came with an
    admission context, the [admission.decided] record with that context is on the control stream.  In
    particular a record that could not be appended means that the turn is not run. *)
Theorem admission_precedes_turn store t a att c :
  log_valid store -> reachable store t -> attempts t !! a = Some att -> attempt_admission att = Some c ->
  a ∈ queued t \/ a ∈ held t \/ sent (attempt_phase att) = true ->
  exists e, e ∈ log_events (runtime_store t) ("control:" +:+ uuid_text (thread_id me)) /\ kind e = AdmissionDecided /\
    coordinates e = me /\ payload e = admission_decided_payload c /\ source_event_ids (provenance e) = source_ingress_event_ids c.
Proof.
  intros Hv Hr Ha Hc Hw. destruct (reachable_thread_ok _ _ _ _ Hv Hr) as [_ [_ _ Hplaced] _ _ _ [_ Hdec]].
  assert (sent (attempt_phase att) = true) as Hs.
  { destruct Hw as [Hw|[Hw|Hw]]; [| |done];
      [destruct (Hplaced a (or_introl Hw)) as (x & Hx & Hsx)|destruct (Hplaced a (or_intror Hw)) as (x & Hx & Hsx)]; congruence. }
  apply (Hdec a att c Ha); [by apply sent_admitted|done].
Qed.

(** The time a turn waits does not count against it: while the turn is reserved or in the
    channel, its watchdog has no step to take, so it is not timed out and nothing is cancelled on its
    account, however long the turn before it runs. *)
Theorem queued_turn_not_timed_out store t a :
  log_valid store -> reachable store t -> waiting t a ->
  watchdog_started a t = None /\ watchdog_fires a t = None /\ publish_timeout execution_policy a t = None /\
  request_cancel execution_policy a t = None /\ grace_elapsed execution_policy a t = None.
Proof.
  intros Hv Hr Hw. destruct (reachable_thread_ok _ _ _ _ Hv Hr) as [_ _ _ [_ Hpub Hwait Htask] _ _].
  assert (watchdog_tasks t !! a = None \/ watchdog_tasks t !! a = Some WaitingForStart /\ watchdog_updates t a = Some WatchdogPending) as Hk.
  { destruct (watchdog_tasks t !! a) as [k|] eqn:Hk; [right|by left]. destruct (Htask a k Hk) as (att & p & _ & _ & Hp & Hst & _).
    destruct (Hwait a Hw) as [Hnone|Hpend]; [congruence|]. assert (p = WatchdogPending) as -> by congruence.
    destruct Hst as [->|]; [|done]. split; [done|by apply Hpub]. }
  unfold watchdog_started, watchdog_fires, publish_timeout, request_cancel, grace_elapsed.
  destruct Hk as [->|[-> ->]]; by split_and!.
Qed.

(** A turn that was started and does not end is stopped: if its thread is running when its
    timeout elapses, the watchdog's steps are all there to take and end with its [CancelTurn] in the
    channel or, when the channel is full, with the thread's cancellation; unless the channel is
    closed, which ends the turn as well. *)
Theorem started_turn_times_out t a l w timeout :
  turn_timeout_ms execution_policy = Some timeout -> a ∈ held t -> status t = Running ->
  leases t !! a = Some l -> turn_watchdog l = Some w -> phase w = WatchdogPending -> updates w = WatchdogPending ->
  watchdog_tasks t !! a = Some WaitingForStart ->
  exists t', turn_steps me execution_policy
      [StartTurn a; WatchdogStarted a; WatchdogFires a; PublishTimeout a; RequestCancel a] t = Some t' /\
    (CancelTurn (token_id w) (timeout_reason timeout) ∈ messages (command_channel t') \/ cancellation t' = true \/
     try_reserve (command_channel t) = Err ChannelClosed).
Proof.
  intros Htimeout Hheld Hstatus Hl Hw Hp Hu Htask. unfold turn_steps. cbn [fold_left mbind option_bind turn_step].
  unfold start_turn. rewrite bool_decide_eq_true_2 by done. cbn [mbind option_bind].
  pose proof (lookup_start a a t) as Hl1. rewrite decide_True, Hl in Hl1 by done.
  destruct (start_turn_watchdog_rest a t) as (_ & _ & Hc1 & _ & _ & _ & Hk1 & Hst1).
  set (t1 := start_turn_watchdog a t) in *. clearbody t1.
  assert (turn_watchdog (started l) = Some {| token_id := token_id w; phase := WatchdogActive; updates := WatchdogActive |}) as Hw1.
  { unfold started. rewrite Hw. cbn. by rewrite Hp. }
  cbn [fmap option_fmap option_map] in Hl1. unfold watchdog_started at 1, watchdog_updates. rewrite Hk1, Htask, Hl1. cbn [mbind option_bind].
  rewrite Hw1. cbn [fmap option_fmap option_map updates mbind option_bind]. unfold watchdog_fires, watchdog_phase, watchdog_updates.
  cbn [set_task watchdog_tasks leases status]. rewrite lookup_insert_eq, Hl1. cbn [mbind option_bind]. rewrite Hw1, Hst1, Hstatus.
  cbn [fmap option_fmap option_map phase updates default bool_decide negb orb]. rewrite !bool_decide_eq_true_2 by done. cbn [negb orb mbind option_bind].
  unfold publish_timeout, watchdog_phase. cbn [set_task set_lease watchdog_tasks leases]. rewrite !lookup_insert_eq, Htimeout.
  cbn [mbind option_bind]. unfold set_watchdog_phase at 1. cbn [turn_watchdog]. rewrite Hw1. cbn [fmap option_fmap option_map phase mbind option_bind].
  unfold request_cancel. cbn [set_task set_lease emit_runtime watchdog_tasks leases command_channel status].
  rewrite !lookup_insert_eq, Htimeout. cbn [mbind option_bind]. unfold set_watchdog_phase. cbn [turn_watchdog].
  rewrite Hw1. cbn [fmap option_fmap option_map token_id phase]. rewrite Hc1, Hst1, Hstatus, !bool_decide_eq_true_2 by done. cbn [negb orb].
  destruct (try_reserve (command_channel t)) as [ch|[]] eqn:Hch; (eexists; split; [reflexivity|]).
  - left. cbn. rewrite send_messages. apply elem_of_app. right. by left.
  - by right; left.
  - by right; right.
Qed.
End Props.

(** * A thread with room for one pending turn

    The theorems of [AdmissionProps] on runs of a thread with one pending-input
    slot and a turn timeout: a turn that is admitted, queued and started, a second
    one that is refused, and the watchdog of the first. *)

Module AdmissionExamples.
#[local] Existing Instance SyncExamples.id_texts.

(** ** A semaphore and a channel *)

#[local] Instance counter : Semaphore N := {|
  max_permits := 1000;
  new_semaphore n := n;
  available_permits n := n;
  try_acquire_owned n := if (n =? 0)%N then Err NoPermits else Ok (n - 1)%N;
  release_permit n := (n + 1)%N;
|}.
#[local] Instance counter_counts : SemaphoreLaws N.
Proof.
  split; cbn; try done.
  - intros s s'. destruct (N.eqb_spec s 0); [done|]. intros [= <-]. lia.
  - intros s. destruct (N.eqb_spec s 0); [done|]. done.
Qed.

Record Queue := { queue : list ThreadCommand; promised : N; room : N; open : bool }.
#[local] Instance fifo : CommandChannel Queue := {|
  new_channel n := {| queue := []; promised := 0; room := n; open := true |};
  messages q := queue q;
  reserved q := promised q;
  try_reserve q :=
    if open q then
      if (N.of_nat (length (queue q)) + promised q <? room q)%N
      then Ok {| queue := queue q; promised := promised q + 1; room := room q; open := true |}
      else Err ChannelFull
    else Err ChannelClosed;
  send_permit c q := {| queue := queue q ++ [c]; promised := promised q - 1; room := room q; open := open q |};
  drop_permit q := {| queue := queue q; promised := promised q - 1; room := room q; open := open q |};
  receive q := match queue q with
               | c :: rest => if open q then Some (c, {| queue := rest; promised := promised q; room := room q; open := true |}) else None
               | [] => None
               end;
  close q := {| queue := []; promised := promised q; room := room q; open := false |};
|}.
#[local] Instance fifo_ordered : CommandChannelLaws Queue.
Proof.
  split; cbn; try done.
  - intros q q'. destruct (open q); [|done]. destruct (_ <? _)%N; [|done]. by intros [= <-].
  - intros c q q'. destruct (queue q) as [|d rest]; [done|]. destruct (open q); [|done]. by intros [= <- <-].
Qed.

#[local] Instance uncoupled : BoundCouplings Handle := {| run_bound_couplings _ s := (s, Ok tt) |}.
#[local] Instance uncoupled_extends : BoundCouplingsLaws Handle.
Proof. split. intros es s s' r Hv [= <- <-]. split; [done|]. intros stream. exists []. by rewrite app_nil_r. Qed.

(** ** Runs *)

Definition me : ThreadCoordinates := sample_coordinates 7.
Definition policy : RuntimeExecutionPolicy := {| turn_timeout_ms := Some 1000%Z; cancel_grace_timeout_ms := None; max_pending_inputs := Some 1%N |}.
Definition context : AdmissionGateContext := route_policy "r1" "h1" AdmitQueue [AdmitQueue] [5%N].
Definition empty : Handle := mk_handle inner_empty 0.
Notation Thread := (RuntimeThread (S := Handle) (Sem := N) (Ch := Queue)).

Definition after (steps : list TurnStep) : Thread :=
  default (started_thread policy empty) (turn_steps me policy steps (started_thread policy empty)).

(** A turn in the channel, another refused. *)
Definition submission : list TurnStep :=
  [BeginReserve 0 "t1" ModeQueue (Some context); TakeSlot 0; ReserveCommand 0; DecideAdmission 0 9 6; SubmitUnchecked 0;
   SignalSubmitted 0 11 6].
Definition crowd : list TurnStep := submission ++ [BeginReserve 1 "t2" ModeQueue None].
Definition full : Thread := after (crowd ++ [TakeSlot 1]).
Definition refused : Thread := after (crowd ++ [TakeSlot 1; RefuseSlot 1]).

Lemma idle_store_valid : log_valid empty.
Proof. exact journal_wf_empty. Qed.

Lemma after_reachable steps : reachable_thread me policy empty (after steps).
Proof.
  unfold after. destruct (turn_steps me policy steps _) as [t|] eqn:Hrun; cbn [default]; [|constructor].
  by eapply reachable_steps; [constructor|exact Hrun].
Qed.

Lemma queue_full : command_inputs (messages (command_channel (after crowd))) = [0] /\
  turn_steps me policy [TakeSlot 1] (after crowd) = Some full /\ attempt_phase <$> attempts full !! 1 = Some NoSlot.
Proof. split_and!; vm_compute; reflexivity. Qed.

Lemma turn_refused : turn_step me policy (RefuseSlot 1) full = Some refused /\
  attempts full !! 1 = Some {| attempt_turn_id := "t2"; attempt_mode := ModeQueue; attempt_admission := None; attempt_phase := NoSlot |} /\
  exists e, attempts refused !! 1 = Some {| attempt_turn_id := "t2"; attempt_mode := ModeQueue; attempt_admission := None; attempt_phase := Rejected e |}.
Proof. split_and!; [vm_compute; reflexivity|vm_compute; reflexivity|eexists; vm_compute; reflexivity]. Qed.

Lemma turn_ids_reserved_once_witness : "t1" ∈ turn_reservations full /\
  exists a att, attempts full !! a = Some att /\ attempt_turn_id att = "t1" /\ holds (attempt_phase att) = true.
Proof.
  assert ("t1" ∈ turn_reservations full) as Hin by (refine (bool_decide_eq_true_1 _ _); vm_compute; reflexivity).
  split; [exact Hin|].
  apply (proj1 (turn_ids_reserved_once me policy empty full idle_store_valid (after_reachable _)) "t1"). exact Hin.
Defined.



Lemma turn_sent : attempts full !! 0 = Some {| attempt_turn_id := "t1"; attempt_mode := ModeQueue; attempt_admission := Some context; attempt_phase := Submitted |}.
Proof. vm_compute. reflexivity. Qed.

Lemma admission_precedes_turn_witness :
  exists e, e ∈ log_events (runtime_store full) ("control:" +:+ uuid_text (thread_id me)) /\ kind e = AdmissionDecided.
Proof.
  destruct (admission_precedes_turn me policy empty full 0 _ context idle_store_valid (after_reachable _) turn_sent eq_refl)
    as (e & Hin & Hk & _); [right; right; reflexivity|]. exists e. split; [exact Hin|exact Hk].
Defined.

Lemma turn_waits : waiting (after crowd) 0.
Proof. left. rewrite (proj1 queue_full). by left. Qed.

Lemma queued_turn_not_timed_out_witness :
  watchdog_tasks (after crowd) !! 0 = Some WaitingForStart /\ watchdog_started 0 (after crowd) = None.
Proof.
  split; [vm_compute; reflexivity|].
  exact (proj1 (queued_turn_not_timed_out me policy empty (after crowd) 0 idle_store_valid (after_reachable _) turn_waits)).
Defined.

(** The runtime takes the turn and runs. *)
Definition running : Thread := after (submission ++ [ReceiveCommand; SetStatus Running]).

Lemma started_turn_times_out_witness :
  exists t', turn_steps me policy [StartTurn 0; WatchdogStarted 0; WatchdogFires 0; PublishTimeout 0; RequestCancel 0] running = Some t' /\
    (CancelTurn 1 (timeout_reason 1000) ∈ messages (command_channel t') \/ cancellation t' = true \/
     try_reserve (command_channel running) = Err ChannelClosed).
Proof.
  apply (started_turn_times_out me policy running 0
    {| pending_input_permit := true; turn_watchdog := Some {| token_id := 1; phase := WatchdogPending; updates := WatchdogPending |} |}
    {| token_id := 1; phase := WatchdogPending; updates := WatchdogPending |} 1000).
  - reflexivity.
  - refine (bool_decide_eq_true_1 _ _). vm_compute. reflexivity.
  - vm_compute. reflexivity.
  - vm_compute. reflexivity.
  - reflexivity.
  - reflexivity.
  - reflexivity.
  - vm_compute. reflexivity.
Defined.
End AdmissionExamples.
