(* ===== verification/Vfs.v ===== *)
(** * The virtual filesystem: mounts and read-only views

    Models [verlet-vfs/src/lib.rs]: paths, the read-only filesystem, and
    [VerletVfs], which sends an operation to the filesystem mounted at the nearest
    ancestor of its path and keeps a journal of what was changed.

    A [PathBuf] is the list of its components, by which Rust compares paths.  A
    filesystem is the class [FileSystem]; those behind an [Arc] are cells of a heap,
    so one that is mounted twice is one cell.  [bashkit]'s [normalize_path] is a
    parameter.  The second part shows which mount a path resolves to. *)

From stdpp Require Import countable base gmap sets list strings pretty sorting.
From Stdlib Require Import ZArith Lia.
From S2P Require Import Prelude.

Local Open Scope verlet_scope.
Local Open Scope string_scope.
Local Open Scope list_scope.

(** ** Paths *)

Inductive Component := RootDir | CurDir | ParentDir | Normal (name : string).
#[global] Instance Component_eq_dec : EqDecision Component.
Proof. solve_decision. Defined.
#[global] Instance Component_countable : Countable Component.
Proof.
  refine (inj_countable' (fun c => match c with RootDir => inl 0 | CurDir => inl 1 | ParentDir => inl 2 | Normal n => inr n end)
    (fun x => match x with inl 0 => RootDir | inl 1 => CurDir | inl _ => ParentDir | inr n => Normal n end) _).
  by intros [].
Defined.

Notation PathBuf := (list Component) (only parsing).

(** [Path::has_root], [join], [parent], [file_name], [starts_with] and [strip_prefix]. *)
Definition has_root (p : PathBuf) : bool := match p with RootDir :: _ => true | _ => false end.
Definition path_join (p q : PathBuf) : PathBuf :=
  if has_root q then q else match p with [] => q | _ => p ++ filter (fun c => c <> CurDir) q end.
Definition path_parent (p : PathBuf) : option PathBuf :=
  match list.last p with Some RootDir | None => None | Some _ => Some (removelast p) end.
Definition file_name (p : PathBuf) : option string := match list.last p with Some (Normal n) => Some n | _ => None end.
Fixpoint path_strip_prefix (prefix p : PathBuf) : option PathBuf :=
  match prefix, p with
  | [], _ => Some p
  | c :: prefix, d :: p => if decide (c = d) then path_strip_prefix prefix p else None
  | _ :: _, [] => None
  end.
Definition path_starts_with (p prefix : PathBuf) : bool := bool_decide (is_Some (path_strip_prefix prefix p)).

(** [Ord for Path], the order of a [BTreeMap]'s keys. *)
Definition component_cmp (c d : Component) : comparison :=
  let rank c := match c with RootDir => 0 | CurDir => 1 | ParentDir => 2 | Normal _ => 3 end in
  match c, d with Normal a, Normal b => str_cmp a b | _, _ => Nat.compare (rank c) (rank d) end.
Fixpoint path_cmp (p q : PathBuf) : comparison :=
  match p, q with
  | [], [] => Eq
  | [], _ => Lt
  | _, [] => Gt
  | c :: p, d :: q => match component_cmp c d with Eq => path_cmp p q | r => r end
  end.
Definition path_le (p q : PathBuf) : Prop := path_cmp p q <> Gt.
#[global] Instance path_le_dec p q : Decision (path_le p q).
Proof. unfold path_le. apply _. Defined.

(** The entries of a [BTreeMap] in order. *)
Definition entry_le {A} (x y : PathBuf * A) : Prop := path_le x.1 y.1.
#[global] Instance entry_le_dec {A} (x y : PathBuf * A) : Decision (entry_le x y).
Proof. unfold entry_le. apply _. Defined.
Definition btree_entries {A} (m : gmap PathBuf A) : list (PathBuf * A) := merge_sort entry_le (map_to_list m).

Class PathNormalizer := { normalize_path : PathBuf -> PathBuf }.
Definition normalize_vfs_path `{PathNormalizer} (p : PathBuf) : PathBuf :=
  if has_root p then normalize_path p else normalize_path (path_join [RootDir] p).

(** ** Filesystems *)

Inductive ErrorKind := NotFound | PermissionDenied | AlreadyExists | InvalidInput | IsADirectory | DirectoryNotEmpty | Unsupported | OtherKind.
Inductive VfsError := VfsIo (kind : ErrorKind) (text : string) | VfsOther (text : string).
Notation VfsResult A := (result A VfsError).

Inductive FileType := File | Directory | Symlink | Fifo.
#[global] Instance FileType_eq_dec : EqDecision FileType.
Proof. solve_decision. Defined.
Record Metadata := { file_type : FileType; size : Z; mode : Z; modified : Z; created : Z }.
Record DirEntry := { name : string; metadata : Metadata }.

(** [bashkit::FileSystem] and [VerletVfsBackend]. *)
Class FileSystem (F : Type) := {
  read_file : PathBuf -> F -> F * VfsResult string;
  write_file : PathBuf -> string -> F -> F * VfsResult unit;
  append_file : PathBuf -> string -> F -> F * VfsResult unit;
  mkdir : PathBuf -> bool -> F -> F * VfsResult unit;
  remove : PathBuf -> bool -> F -> F * VfsResult unit;
  stat : PathBuf -> F -> F * VfsResult Metadata;
  read_dir : PathBuf -> F -> F * VfsResult (list DirEntry);
  exists_path : PathBuf -> F -> F * VfsResult bool;
  rename : PathBuf -> PathBuf -> F -> F * VfsResult unit;
  copy : PathBuf -> PathBuf -> F -> F * VfsResult unit;
  symlink : PathBuf -> PathBuf -> F -> F * VfsResult unit;
  read_link : PathBuf -> F -> F * VfsResult PathBuf;
  chmod : PathBuf -> Z -> F -> F * VfsResult unit;
  set_modified_time : PathBuf -> Z -> F -> F * VfsResult unit;
  flush : F -> F * VfsResult unit;
  validate_limits : PathBuf -> F -> result unit string;   (** [limits().validate_path]; the error is its text. *)
}.

(** ** The read-only filesystem *)

Record ReadOnlyFileSystem (F : Type) := read_only { inner : F }.
Arguments read_only {F} _.
Arguments inner {F} _.

Definition readonly_error : VfsError := VfsIo PermissionDenied "filesystem is mounted read-only".

Section ReadOnly.
Context {F : Type} `{FileSystem F}.

Definition through {A} (op : F -> F * A) (f : ReadOnlyFileSystem F) : ReadOnlyFileSystem F * A :=
  let '(g, r) := op (inner f) in (read_only g, r).
Definition refused {A} (f : ReadOnlyFileSystem F) : ReadOnlyFileSystem F * VfsResult A := (f, Err readonly_error).

Definition read_only_file_system : FileSystem (ReadOnlyFileSystem F) := {|
  read_file p := through (read_file p);
  write_file _ _ := refused;
  append_file _ _ := refused;
  mkdir _ _ := refused;
  remove _ _ := refused;
  stat p := through (stat p);
  read_dir p := through (read_dir p);
  exists_path p := through (exists_path p);
  rename _ _ := refused;
  copy _ _ := refused;
  symlink _ _ := refused;
  read_link p := through (read_link p);
  chmod _ _ := refused;
  set_modified_time _ _ := refused;
  flush := through flush;
  validate_limits p f := validate_limits p (inner f);
|}.
#[global] Existing Instance read_only_file_system.
End ReadOnly.

(** ** Mounts *)

Inductive VfsMutationKind := Write | Append | Mkdir | Remove | Rename | Copy | Chmod | SetModifiedTime.
Record VfsMutation := { kind : VfsMutationKind; path : PathBuf; target : option PathBuf }.

(** A filesystem behind an [Arc]. *)
Notation Backend := nat (only parsing).

Section Mounts.
Context `{PathNormalizer} {F : Type} `{FileSystem F}.
(** [SystemTime::now]. *)
Variable now : Z.

Record VerletVfs := {
  backends : Backend -> F;
  root : Backend;
  mounts : gmap PathBuf Backend;
  journal : list VfsMutation;
}.
Implicit Types (v : VerletVfs).

Notation Call A := (st VerletVfs VfsError A).

Definition directory_metadata : Metadata := {| file_type := Directory; size := 0; mode := 493; modified := now; created := now |}.

Definition set_backend (b : Backend) (f : F) v : VerletVfs :=
  {| backends := fun c => if decide (c = b) then f else backends v c; root := root v; mounts := mounts v; journal := journal v |}.

(** A call of a method of a filesystem. *)
Definition on_backend {A} (b : Backend) (op : F -> F * VfsResult A) : Call A := fun v =>
  let '(f, r) := op (backends v b) in (set_backend b f v, r).

(** [VerletVfs::new]. *)
Definition new_vfs (heap : Backend -> F) (r : Backend) : VerletVfs := {| backends := heap; root := r; mounts := ∅; journal := [] |}.

Definition mount (p : PathBuf) (b : Backend) : Call unit := fun v =>
  if negb (has_root p) then (v, Err (VfsIo OtherKind "mount path must be absolute"))
  else
    let p := normalize_vfs_path p in
    if bool_decide (p = [RootDir]) then (v, Err (VfsIo OtherKind "mount path must not be /"))
    else ({| backends := backends v; root := root v; mounts := <[p := b]> (mounts v); journal := journal v |}, Ok tt).

Definition has_mount (p : PathBuf) v : bool := bool_decide (is_Some (mounts v !! normalize_vfs_path p)).
Definition mutations v : list VfsMutation := journal v.
Definition clear_mutations v : VerletVfs := {| backends := backends v; root := root v; mounts := mounts v; journal := [] |}.

Fixpoint flush_all (bs : list Backend) : Call unit :=
  match bs with
  | [] => st_ret tt
  | b :: bs => on_backend b flush ;;! flush_all bs
  end.
(** [VerletVfs::flush]: the root, then the mounts in order. *)
Definition flush_vfs : Call unit := fun v =>
  (on_backend (root v) flush ;;! flush_all (snd <$> btree_entries (mounts v))) v.

Definition record (k : VfsMutationKind) (p : PathBuf) (t : option PathBuf) : Call unit := fun v =>
  ({| backends := backends v; root := root v; mounts := mounts v; journal := journal v ++ [{| kind := k; path := p; target := t |}] |}, Ok tt).

(** [resolve]: the mount with the most components among those the path starts with. *)
Definition resolve (p : PathBuf) v : Backend * PathBuf :=
  let p := normalize_vfs_path p in
  let candidates := List.filter (fun e => path_starts_with p e.1) (btree_entries (mounts v)) in
  match max_by_key (fun e => Z.of_nat (length e.1)) candidates with
  | Some (m, b) =>
      let relative := default [] (path_strip_prefix m p) in
      (b, match relative with [] => [RootDir] | _ => path_join [RootDir] relative end)
  | None => (root v, p)
  end.

Definition validate_path (p : PathBuf) : Call unit := fun v =>
  (v, map_err (VfsIo InvalidInput) (validate_limits p (backends v (root v)))).

Definition direct_child_mount_names (p : PathBuf) v : list string :=
  omap (fun e => if bool_decide (path_parent e.1 = Some p) then file_name e.1 else None) (btree_entries (mounts v)).

(** An operation on the backend a path resolves to. *)
Definition resolved {A} (p : PathBuf) (op : PathBuf -> F -> F * VfsResult A) : Call A := fun v =>
  let '(b, q) := resolve p v in on_backend b (op q) v.

(** *** The operations of [FileSystem for VerletVfs] *)

Definition vfs_read_file (p : PathBuf) : Call string := resolved p read_file.

(** An operation that is recorded if it succeeds. *)
Definition mutate (k : VfsMutationKind) (p : PathBuf) (op : PathBuf -> F -> F * VfsResult unit) : Call unit :=
  validate_path p ;;!
  let p := normalize_vfs_path p in
  resolved p op ;;!
  record k p None.

Definition vfs_write_file (p : PathBuf) (content : string) : Call unit := mutate Write p (fun q => write_file q content).
Definition vfs_append_file (p : PathBuf) (content : string) : Call unit := mutate Append p (fun q => append_file q content).
Definition vfs_mkdir (p : PathBuf) (recursive : bool) : Call unit := mutate Mkdir p (fun q => mkdir q recursive).
Definition vfs_remove (p : PathBuf) (recursive : bool) : Call unit := mutate Remove p (fun q => remove q recursive).
Definition vfs_chmod (p : PathBuf) (m : Z) : Call unit := mutate Chmod p (fun q => chmod q m).
Definition vfs_set_modified_time (p : PathBuf) (time : Z) : Call unit := mutate SetModifiedTime p (fun q => set_modified_time q time).

(** A mount point, or the parent of one. *)
Definition mount_directory (p : PathBuf) v : bool :=
  bool_decide (is_Some (mounts v !! p)) || negb (bool_decide (direct_child_mount_names p v = [])).

Definition vfs_stat (p : PathBuf) : Call Metadata := fun v =>
  let p := normalize_vfs_path p in
  if mount_directory p v then (v, Ok directory_metadata) else resolved p stat v.

Definition vfs_exists (p : PathBuf) : Call bool := fun v =>
  let p := normalize_vfs_path p in
  if mount_directory p v then (v, Ok true) else resolved p exists_path v.

(** The mounted names that are not there yet. *)
Definition add_mount_names (children : list string) (entries : list DirEntry) : list DirEntry :=
  fold_left (fun entries n =>
    if bool_decide (n ∈ name <$> entries) then entries else entries ++ [{| name := n; metadata := directory_metadata |}])
    children entries.

Definition vfs_read_dir (p : PathBuf) : Call (list DirEntry) := fun v =>
  let p := normalize_vfs_path p in
  let children := direct_child_mount_names p v in
  let '(v, r) := resolved p read_dir v in
  match r with
  | Ok entries => (v, Ok (sort_by_key name (add_mount_names children entries)))
  | Err e => if bool_decide (children = []) then (v, Err e) else (v, Ok (sort_by_key name (add_mount_names children [])))
  end.

(** The content of a file, or a link, goes from one backend to another. *)
Definition transfer (from_fs : Backend) (from : PathBuf) (to_fs : Backend) (to : PathBuf) : Call unit :=
  meta <-! on_backend from_fs (stat from) ;;
  if bool_decide (file_type meta = Symlink)
  then link <-! on_backend from_fs (read_link from) ;; on_backend to_fs (symlink link to)
  else content <-! on_backend from_fs (read_file from) ;; on_backend to_fs (write_file to content).

Definition vfs_rename (from to : PathBuf) : Call unit :=
  validate_path from ;;! validate_path to ;;!
  let from := normalize_vfs_path from in
  let to := normalize_vfs_path to in
  (fun v =>
    let '(from_fs, from_resolved) := resolve from v in
    let '(to_fs, to_resolved) := resolve to v in
    (if Nat.eqb from_fs to_fs then on_backend from_fs (rename from_resolved to_resolved)
     else transfer from_fs from_resolved to_fs to_resolved ;;! on_backend from_fs (remove from_resolved false)) v) ;;!
  record Rename from (Some to).

Definition vfs_copy (from to : PathBuf) : Call unit :=
  validate_path from ;;! validate_path to ;;!
  let from := normalize_vfs_path from in
  let to := normalize_vfs_path to in
  (fun v =>
    let '(from_fs, from_resolved) := resolve from v in
    let '(to_fs, to_resolved) := resolve to v in
    (if Nat.eqb from_fs to_fs then on_backend from_fs (copy from_resolved to_resolved)
     else transfer from_fs from_resolved to_fs to_resolved) v) ;;!
  record Copy from (Some to).

(** A link is not recorded. *)
Definition vfs_symlink (tgt link : PathBuf) : Call unit := validate_path link ;;! resolved link (symlink tgt).
Definition vfs_read_link (p : PathBuf) : Call PathBuf := resolved p read_link.
End Mounts.

(** * What the virtual filesystem does with a path

    The nearest mount above a path gets the operation, no other filesystem is
    touched, and the journal lists what succeeded. *)

(** A path from the root, without [.] and [..]. *)
Definition normal (p : PathBuf) : Prop := exists ns, p = RootDir :: map Normal ns.

(** [bashkit::normalize_path]: a rooted path becomes a normal one, a normal one stays. *)
Class PathNormalizerLaws `{PathNormalizer} := {
  normalize_normal p : has_root p = true -> normal (normalize_path p);
  normalize_done p : normal p -> normalize_path p = p;
}.

(** ** Prefixes of paths *)

Lemma path_strip_prefix_some m p r : path_strip_prefix m p = Some r <-> p = m ++ r.
Proof.
  revert p. induction m as [|c m IH]; intros p; cbn [path_strip_prefix app]; [split; congruence|].
  destruct p as [|d p]; [done|]. destruct (decide (c = d)) as [->|Hne]; [rewrite IH; split; congruence|split; congruence].
Qed.

Lemma path_starts_with_prefix p m : path_starts_with p m = true <-> exists r, p = m ++ r.
Proof.
  unfold path_starts_with. rewrite bool_decide_eq_true. unfold is_Some. by setoid_rewrite path_strip_prefix_some.
Qed.

Lemma prefix_take (p m r : PathBuf) : p = m ++ r -> m = take (length m) p.
Proof. intros ->. by rewrite take_app_length. Qed.

Section Facts.
Context `{PathNormalizerLaws} {F : Type} `{FileSystem F}.
Variable now : Z.
Notation World := (VerletVfs (F := F)).
Implicit Types (v : World).

Lemma normalize_vfs_normal p : normal (normalize_vfs_path p).
Proof.
  unfold normalize_vfs_path. destruct (has_root p) eqn:Hr; [by apply normalize_normal|]. apply normalize_normal.
  unfold path_join. rewrite Hr. done.
Qed.

Lemma normalize_vfs_done p : normal p -> normalize_vfs_path p = p.
Proof. intros Hp. unfold normalize_vfs_path. destruct Hp as [ns ->]. cbn [has_root]. apply normalize_done. by exists ns. Qed.

(** Mount points are normal and below the root. *)
Definition mounts_ok v : Prop := forall m b, mounts v !! m = Some b -> normal m /\ m <> [RootDir].

Lemma new_vfs_ok (heap : Backend -> F) r : mounts_ok (new_vfs heap r).
Proof. by intros m b Hm. Qed.

Lemma mount_ok p b v v' r : mounts_ok v -> mount p b v = (v', r) -> mounts_ok v'.
Proof.
  intros Hok. unfold mount. destruct (has_root p) eqn:Hr; cbn [negb]; [|by intros [= <- _]].
  case_bool_decide as Hroot; intros [= <- _]; [done|]. intros m c Hm. cbn [mounts] in Hm.
  apply lookup_insert_Some in Hm as [[<- <-]|[_ Hm]]; [|by apply (Hok m c)].
  split; [apply normalize_vfs_normal|done].
Qed.

(** ** The nearest mount *)

(** The longest prefix of [p] of at most [n] components that is mounted. *)
Fixpoint nearest_mount (ms : gmap PathBuf Backend) (p : PathBuf) (n : nat) : option (nat * Backend) :=
  match ms !! take n p with
  | Some b => Some (n, b)
  | None => match n with O => None | Datatypes.S n => nearest_mount ms p n end
  end.

Lemma nearest_mount_some ms p n k b :
  nearest_mount ms p n = Some (k, b) <->
  k <= n /\ ms !! take k p = Some b /\ forall j, k < j -> j <= n -> ms !! take j p = None.
Proof.
  induction n as [|n IH]; cbn [nearest_mount].
  - destruct (ms !! take 0 p) as [c|] eqn:Hc; split; try done.
    + intros [= <- <-]. split_and!; [done|done|lia].
    + intros (Hk & Hb & _). assert (k = 0) as -> by lia. congruence.
    + intros (Hk & Hb & _). assert (k = 0) as -> by lia. congruence.
  - destruct (ms !! take (Datatypes.S n) p) as [c|] eqn:Hc.
    + split; [intros [= <- <-]; split_and!; [done|done|lia]|].
      intros (Hk & Hb & Hj). destruct (decide (k = Datatypes.S n)) as [->|]; [congruence|]. rewrite Hj in Hc by lia. done.
    + rewrite IH. split; intros (Hk & Hb & Hj).
      * split_and!; [lia|done|]. intros j Hkj Hjn. destruct (decide (j = Datatypes.S n)) as [->|]; [done|apply Hj; lia].
      * destruct (decide (k = Datatypes.S n)) as [->|]; [congruence|]. split_and!; [lia|done|]. intros j Hkj Hjn. apply Hj; lia.
Qed.

Lemma elem_of_btree_entries {A} (m : gmap PathBuf A) k a : (k, a) ∈ btree_entries m <-> m !! k = Some a.
Proof. unfold btree_entries. by rewrite merge_sort_Permutation, elem_of_map_to_list. Qed.

(** The mounts above a path. *)
Lemma elem_of_candidates v p m b :
  (m, b) ∈ List.filter (fun e => path_starts_with p e.1) (btree_entries (mounts v)) <->
  mounts v !! m = Some b /\ exists r, p = m ++ r.
Proof.
  rewrite list_elem_of_In, filter_In, <- list_elem_of_In, elem_of_btree_entries. cbn [fst]. by rewrite path_starts_with_prefix.
Qed.

Lemma join_root (ns : list Component) : CurDir ∉ ns -> has_root ns = false -> path_join [RootDir] ns = RootDir :: ns.
Proof.
  intros Hcur Hr. unfold path_join. rewrite Hr. cbn [app]. f_equal. apply list_filter_all. rewrite Forall_forall. intros c Hc ->. done.
Qed.

(** What is left of a normal path below a mount is normal again. *)
Lemma below_mount m r : normal (m ++ r) -> normal m -> match r with [] => [RootDir] | _ => path_join [RootDir] r end = RootDir :: r.
Proof.
  intros [ns Hns] [ms ->]. cbn [app] in Hns. injection Hns as Hns.
  destruct r as [|c r]; [done|]. apply join_root.
  - intros Hin. assert (CurDir ∈ map Normal ns) as Hcur by (rewrite <- Hns; set_solver).
    apply list_elem_of_In, in_map_iff in Hcur as (n & Hn & _). discriminate Hn.
  - destruct c; try done. assert (RootDir ∈ map Normal ns) as Hroot by (rewrite <- Hns; set_solver).
    apply list_elem_of_In, in_map_iff in Hroot as (n & Hn & _). discriminate Hn.
Qed.

(** C27 - A path goes to the nearest mount above it: taking the mount with the most components among
    all that the path starts with is the same as walking from the path up to the first directory
    that is mounted, and to the root when none is.  The mounted filesystem is given what is left of
    the path below the mount, from its own root, so no path leaves the mount it falls under. *)
Theorem resolve_nearest_mount v p :
  mounts_ok v ->
  let q := normalize_vfs_path p in
  resolve p v =
    match nearest_mount (mounts v) q (length q) with
    | Some (n, b) => (b, RootDir :: drop n q)
    | None => (root v, q)
    end /\
  (forall n b, nearest_mount (mounts v) q (length q) = Some (n, b) -> take n q ++ drop n q = q /\ normal (RootDir :: drop n q)).
Proof.
  intros Hok q. assert (normal q) as Hq by apply normalize_vfs_normal.
  assert (forall n b, nearest_mount (mounts v) q (length q) = Some (n, b) -> normal (take n q)) as Hnear.
  { intros n b Hn. apply nearest_mount_some in Hn as (_ & Hb & _). by destruct (Hok _ _ Hb). }
  split.
  - unfold resolve. fold q. destruct (max_by_key _ _) as [[m b]|] eqn:Hmax.
    + apply max_by_key_spec in Hmax as [Hin Hlong]. apply elem_of_candidates in Hin as [Hm [r Hr]].
      assert (nearest_mount (mounts v) q (length q) = Some (length m, b)) as Hn.
      { apply nearest_mount_some. rewrite <- (prefix_take q m r Hr). split_and!; [rewrite Hr, length_app; lia|done|].
        intros j Hj Hjq. destruct (mounts v !! take j q) as [c|] eqn:Hc; [|done].
        assert ((take j q, c) ∈ List.filter (fun e => path_starts_with q e.1) (btree_entries (mounts v))) as Hcand
          by (apply elem_of_candidates; split; [done|exists (drop j q); by rewrite take_drop]).
        specialize (Hlong _ Hcand). cbn [fst] in Hlong. rewrite length_take in Hlong. lia. }
      rewrite Hn. pose proof (proj2 (path_strip_prefix_some m q r) Hr) as Hstrip. cbv zeta. rewrite Hstrip.
      change (default [] (Some r)) with r. f_equal.
      assert (RootDir :: drop (length m) q = RootDir :: r) as -> by (by rewrite Hr, drop_app_length).
      apply (below_mount m r); [by rewrite <- Hr|by destruct (Hok _ _ Hm)].
    + apply max_by_key_none in Hmax.
      destruct (nearest_mount (mounts v) q (length q)) as [[n b]|] eqn:Hn; [|done].
      apply nearest_mount_some in Hn as (Hle & Hb & _).
      assert ((take n q, b) ∈ List.filter (fun e => path_starts_with q e.1) (btree_entries (mounts v))) as Hcand
        by (apply elem_of_candidates; split; [done|exists (drop n q); by rewrite take_drop]).
      rewrite Hmax in Hcand. by apply elem_of_nil in Hcand.
  - intros n b Hn. split; [apply take_drop|]. pose proof (Hnear n b Hn) as [ms Hms]. destruct Hq as [ns Hns]. rewrite Hns in Hms |- *.
    destruct n as [|n]; [done|]. cbn [drop]. exists (drop n ns). by rewrite skipn_map.
Qed.
(** ** Edits *)

(** A change asked of the filesystem. *)
Inductive VfsEdit :=
  | EditWrite (p : PathBuf) (content : string)
  | EditAppend (p : PathBuf) (content : string)
  | EditMkdir (p : PathBuf) (recursive : bool)
  | EditRemove (p : PathBuf) (recursive : bool)
  | EditRename (from to : PathBuf)
  | EditCopy (from to : PathBuf)
  | EditSymlink (tgt link : PathBuf)
  | EditChmod (p : PathBuf) (m : Z)
  | EditTime (p : PathBuf) (time : Z).

Definition run_edit (e : VfsEdit) : World -> World * VfsResult unit :=
  match e with
  | EditWrite p c => vfs_write_file p c
  | EditAppend p c => vfs_append_file p c
  | EditMkdir p r => vfs_mkdir p r
  | EditRemove p r => vfs_remove p r
  | EditRename f t => vfs_rename f t
  | EditCopy f t => vfs_copy f t
  | EditSymlink t l => vfs_symlink t l
  | EditChmod p m => vfs_chmod p m
  | EditTime p t => vfs_set_modified_time p t
  end.

(** The paths an edit may touch, and what the journal says of it. *)
Definition edit_paths (e : VfsEdit) : list PathBuf :=
  match e with
  | EditWrite p _ | EditAppend p _ | EditMkdir p _ | EditRemove p _ | EditChmod p _ | EditTime p _ => [p]
  | EditRename f t | EditCopy f t => [f; t]
  | EditSymlink _ l => [l]
  end.
Definition edit_entry (e : VfsEdit) : list VfsMutation :=
  let one k p := [{| kind := k; path := normalize_vfs_path p; target := None |}] in
  let two k f t := [{| kind := k; path := normalize_vfs_path f; target := Some (normalize_vfs_path t) |}] in
  match e with
  | EditWrite p _ => one Write p
  | EditAppend p _ => one Append p
  | EditMkdir p _ => one Mkdir p
  | EditRemove p _ => one Remove p
  | EditRename f t => two Rename f t
  | EditCopy f t => two Copy f t
  | EditSymlink _ _ => []
  | EditChmod p _ => one Chmod p
  | EditTime p _ => one SetModifiedTime p
  end.

(** Only the cells of [bs] may have changed, and the journal got [js]. *)
Record edited (bs : list Backend) (js : list VfsMutation) v v' : Prop := {
  edited_root : root v' = root v;
  edited_mounts : mounts v' = mounts v;
  edited_journal : journal v' = journal v ++ js;
  edited_frame : forall b, b ∉ bs -> backends v' b = backends v b;
}.

Lemma edited_refl bs v : edited bs [] v v.
Proof. split; [done|done|by rewrite app_nil_r|done]. Qed.

Lemma edited_trans bs cs js ks v v1 v2 : edited bs js v v1 -> edited cs ks v1 v2 -> edited (bs ++ cs) (js ++ ks) v v2.
Proof.
  intros [R M J Fr] [R' M' J' Fr']. split; [congruence|congruence|by rewrite J', J, app_assoc|].
  intros b Hb. rewrite Fr', Fr by set_solver. done.
Qed.

Lemma edited_weaken bs cs js v v' : bs ⊆ cs -> edited bs js v v' -> edited cs js v v'.
Proof. intros Hsub [R M J Fr]. split; try done. intros b Hb. apply Fr. set_solver. Qed.

Lemma on_backend_edited {A} b (op : F -> F * VfsResult A) v v' r : on_backend b op v = (v', r) -> edited [b] [] v v'.
Proof.
  unfold on_backend. destruct (op (backends v b)) as [f x]. intros [= <- _].
  split; [done|done|by rewrite app_nil_r|]. intros c Hc. cbn. by rewrite decide_False by set_solver.
Qed.

(** A call made of calls that write nothing to the journal. *)
Lemma quiet_bind {A B} bs (m : World -> World * VfsResult A) (k : A -> World -> World * VfsResult B) v v' r :
  (forall w w' x, m w = (w', x) -> edited bs [] w w') ->
  (forall a w w' x, k a w = (w', x) -> edited bs [] w w') ->
  st_bind m k v = (v', r) -> edited bs [] v v'.
Proof.
  intros Hm Hk. unfold st_bind. destruct (m v) as [w [a|e]] eqn:Hmv; [|intros [= <- _]; by apply (Hm _ _ _ Hmv)].
  intros Hkw. eapply edited_weaken, (edited_trans bs bs [] []); [set_solver|by apply (Hm _ _ _ Hmv)|by apply (Hk _ _ _ _ Hkw)].
Qed.

Lemma transfer_quiet b p c q v v' r : transfer b p c q v = (v', r) -> edited [b; c] [] v v'.
Proof.
  assert (forall d A (op : F -> F * VfsResult A) w w' x, d ∈ [b; c] -> on_backend d op w = (w', x) -> edited [b; c] [] w w') as Hone
    by (intros d A op w w' x Hd Hop; eapply edited_weaken, on_backend_edited, Hop; set_solver).
  unfold transfer. apply quiet_bind; [intros; eapply Hone; [|done]; set_solver|]. intros m w w' x.
  case_bool_decide; apply quiet_bind; intros; eapply Hone; try done; set_solver.
Qed.

Lemma validate_same p v v' r : validate_path p v = (v', r) -> v' = v.
Proof. unfold validate_path. by intros [= <- _]. Qed.

(** A guarded call that is recorded when it succeeds. *)
Lemma recorded_bind bs js (m : World -> World * VfsResult unit) (k : World -> World * VfsResult unit) v v' r :
  (forall w w' x, m w = (w', x) -> edited bs [] w w') ->
  (forall w w' x, k w = (w', x) -> x = Ok tt /\ edited [] js w w') ->
  (m ;;! k) v = (v', r) -> edited bs (match r with Ok _ => js | Err _ => [] end) v v'.
Proof.
  intros Hm Hk. unfold st_bind. destruct (m v) as [w [a|e]] eqn:Hmv; [|intros [= <- <-]; by apply (Hm _ _ _ Hmv)].
  intros Hkw. destruct (Hk _ _ _ Hkw) as [-> Hed].
  eapply edited_weaken, (edited_trans bs [] [] js); [set_solver|by apply (Hm _ _ _ Hmv)|done].
Qed.

Lemma record_edited k p t v v' r :
  record k p t v = (v', r) -> r = Ok tt /\ edited [] [{| kind := k; path := p; target := t |}] v v'.
Proof. unfold record. by intros [= <- <-]. Qed.
End Facts.
