(* ===== verification/VfsProps.v ===== *)
(** * What an edit of the virtual filesystem changes

    Edits in sequence against the journal and the cells they resolve to, and what a
    read-only mount lets through. *)

From stdpp Require Import base gmap sets list strings pretty sorting.
From Stdlib Require Import ZArith Lia.
From S2P Require Import Prelude Vfs.

Local Open Scope verlet_scope.
Local Open Scope string_scope.
Local Open Scope list_scope.

Section Edits.
Context `{PathNormalizerLaws} {F : Type} `{FileSystem F}.
Notation World := (VerletVfs (F := F)).
Implicit Types (v w : World).

Lemma resolve_normalized p v : resolve (normalize_vfs_path p) v = resolve p v.
Proof. unfold resolve. by rewrite (normalize_vfs_done _ (normalize_vfs_normal p)). Qed.

(** The cells an edit may touch. *)
Definition edit_cells (e : VfsEdit) v : list Backend := (fun p => fst (resolve p v)) <$> edit_paths e.

(** The cells of an edit are found by its paths, the root and the mounts alone. *)
Lemma edit_cells_same e bs js v v' : edited bs js v v' -> edit_cells e v' = edit_cells e v.
Proof. intros [R M _ _]. unfold edit_cells, resolve. by rewrite R, M. Qed.

Lemma resolved_edited {A} p (op : PathBuf -> F -> F * VfsResult A) v v' r :
  resolved p op v = (v', r) -> edited [fst (resolve p v)] [] v v'.
Proof. unfold resolved. destruct (resolve p v) as [b q]. apply on_backend_edited. Qed.

Lemma mutate_edited k p (op : PathBuf -> F -> F * VfsResult unit) v v' r :
  mutate k p op v = (v', r) ->
  edited [fst (resolve p v)]
    (match r with Ok _ => [{| kind := k; path := normalize_vfs_path p; target := None |}] | Err _ => [] end) v v'.
Proof.
  unfold mutate. unfold st_bind at 1. destruct (validate_path p v) as [w [[]|e]] eqn:Hval; apply validate_same in Hval as ->.
  - cbv zeta. unfold st_bind. destruct (resolved _ op v) as [w [[]|e]] eqn:Hres.
    + apply resolved_edited in Hres. rewrite resolve_normalized in Hres. intros Hrec. apply record_edited in Hrec as [-> Hrec].
      by apply (edited_trans _ [] [] _ _ _ _ Hres) in Hrec.
    + apply resolved_edited in Hres. rewrite resolve_normalized in Hres. by intros [= <- <-].
  - intros [= <- <-]. eapply edited_weaken, edited_refl. set_solver.
Qed.

(** Two paths, validated before anything is done. *)
Lemma two_edited k from to (m : World -> World * VfsResult unit) v v' r :
  (forall x v', m v = (v', x) -> edited (edit_cells (EditRename from to) v) [] v v') ->
  (validate_path from ;;! validate_path to ;;! m ;;! record k (normalize_vfs_path from) (Some (normalize_vfs_path to))) v = (v', r) ->
  edited (edit_cells (EditRename from to) v)
    (match r with
     | Ok _ => [{| kind := k; path := normalize_vfs_path from; target := Some (normalize_vfs_path to) |}]
     | Err _ => []
     end) v v'.
Proof.
  intros Hm. unfold st_bind. destruct (validate_path from v) as [w [[]|e]] eqn:Hval; apply validate_same in Hval as ->;
    [|intros [= <- <-]; eapply edited_weaken, edited_refl; set_solver].
  destruct (validate_path to v) as [w [[]|e]] eqn:Hval; apply validate_same in Hval as ->;
    [|intros [= <- <-]; eapply edited_weaken, edited_refl; set_solver].
  destruct (m v) as [w [[]|e]] eqn:Hmv; [|intros [= <- <-]; by apply (Hm _ _ eq_refl)].
  intros Hrec. apply record_edited in Hrec as [-> Hrec].
  eapply edited_weaken, (edited_trans _ [] [] _ _ _ _ (Hm _ _ eq_refl) Hrec). set_solver.
Qed.

Lemma run_edit_edited e v v' r :
  run_edit e v = (v', r) -> edited (edit_cells e v) (match r with Ok _ => edit_entry e | Err _ => [] end) v v'.
Proof.
  destruct e as [p c|p c|p rc|p rc|from to|from to|tgt link|p m|p t]; cbn [run_edit edit_entry];
    try (by apply mutate_edited).
  - apply two_edited. intros x w. rewrite !resolve_normalized. unfold edit_cells. cbn [edit_paths fmap list_fmap].
    destruct (resolve from v) as [b p], (resolve to v) as [c q]. cbn [fst]. destruct (Nat.eqb b c).
    + intros Hop. eapply edited_weaken, on_backend_edited, Hop. set_solver.
    + apply quiet_bind; [intros; by eapply transfer_quiet|]. intros. eapply edited_weaken, on_backend_edited; [|done]. set_solver.
  - apply two_edited. intros x w. rewrite !resolve_normalized. unfold edit_cells. cbn [edit_paths fmap list_fmap].
    destruct (resolve from v) as [b p], (resolve to v) as [c q]. cbn [fst]. destruct (Nat.eqb b c).
    + intros Hop. eapply edited_weaken, on_backend_edited, Hop. set_solver.
    + apply transfer_quiet.
  - unfold vfs_symlink, st_bind. destruct (validate_path link v) as [w [[]|e]] eqn:Hval; apply validate_same in Hval as ->.
    + intros Hop. replace (match r with Ok _ => [] | Err _ => [] end) with (@nil VfsMutation) by (by destruct r). by eapply resolved_edited.
    + intros [= <- <-]. eapply edited_weaken, edited_refl. set_solver.
Qed.

(** Edits one after the other, with what each returned. *)
Fixpoint run_edits (es : list VfsEdit) v : World * list (VfsResult unit) :=
  match es with
  | [] => (v, [])
  | e :: es => let '(v, r) := run_edit e v in let '(v, rs) := run_edits es v in (v, r :: rs)
  end.

(** C28 - The journal of mutations is what the edits that succeeded did, in order: after any edits it
    has grown by exactly the entries of those that returned no error, a link by none, with the
    normalized paths.  The root and the mounts are as before, and a filesystem to which none of the
    edited paths resolves is untouched, so an edit cannot reach outside the mount of its path. *)
Theorem journal_of_edits (es : list VfsEdit) v :
  let '(v', rs) := run_edits es v in
  length rs = length es /\
  journal v' = journal v ++ concat (zip_with (fun e r => match r with Ok _ => edit_entry e | Err _ => [] end) es rs) /\
  root v' = root v /\ mounts v' = mounts v /\
  forall b, (forall e p, e ∈ es -> p ∈ edit_paths e -> fst (resolve p v) <> b) -> backends v' b = backends v b.
Proof.
  revert v. induction es as [|e es IH]; intros v; cbn [run_edits zip_with]; [by rewrite app_nil_r|].
  destruct (run_edit e v) as [w r] eqn:He. apply run_edit_edited in He. specialize (IH w).
  destruct (run_edits es w) as [w' rs]. destruct IH as (Hl & Hj & Hroot & Hms & Hfr).
  destruct He as [R M J Fr]. cbn [zip_with concat]. split_and!; [cbn; lia|by rewrite Hj, J, app_assoc|congruence|congruence|].
  intros b Hb. rewrite Hfr, Fr; [done| |].
  - intros Hin. unfold edit_cells in Hin. apply list_elem_of_fmap in Hin as (p & -> & Hp). by apply (Hb e p (list_elem_of_here _ _)).
  - intros e' p He' Hp. assert (resolve p w = resolve p v) as -> by (unfold resolve; by rewrite R, M).
    apply (Hb e' p); [by apply list_elem_of_further|done].
Qed.
End Edits.

(** ** Read-only mounts *)

(** What an [Arc<dyn VerletVfsBackend>] points to: a filesystem, or a read-only view of one. *)
Inductive AnyFileSystem (G : Type) := Plain (g : G) | View (f : ReadOnlyFileSystem G).
Arguments Plain {G} _.
Arguments View {G} _.

Section Dispatch.
Context {G : Type} `{FileSystem G}.

Definition dispatch {A} (op : G -> G * A) (op' : ReadOnlyFileSystem G -> ReadOnlyFileSystem G * A) (f : AnyFileSystem G) :
    AnyFileSystem G * A :=
  match f with
  | Plain g => let '(g, r) := op g in (Plain g, r)
  | View f => let '(f, r) := op' f in (View f, r)
  end.

#[global] Instance any_file_system : FileSystem (AnyFileSystem G) := {|
  read_file p := dispatch (read_file p) (read_file p);
  write_file p c := dispatch (write_file p c) (write_file p c);
  append_file p c := dispatch (append_file p c) (append_file p c);
  mkdir p r := dispatch (mkdir p r) (mkdir p r);
  remove p r := dispatch (remove p r) (remove p r);
  stat p := dispatch (stat p) (stat p);
  read_dir p := dispatch (read_dir p) (read_dir p);
  exists_path p := dispatch (exists_path p) (exists_path p);
  rename p q := dispatch (rename p q) (rename p q);
  copy p q := dispatch (copy p q) (copy p q);
  symlink p q := dispatch (symlink p q) (symlink p q);
  read_link p := dispatch (read_link p) (read_link p);
  chmod p m := dispatch (chmod p m) (chmod p m);
  set_modified_time p t := dispatch (set_modified_time p t) (set_modified_time p t);
  flush := dispatch flush flush;
  validate_limits p f := match f with Plain g => validate_limits p g | View f => validate_limits p f end;
|}.
End Dispatch.

(** What a reading operation leaves as it was. *)
Class ReadsKeep {G} `{FileSystem G} (same : G -> G -> Prop) := {
  same_refl g : same g g;
  same_trans g g' g'' : same g g' -> same g' g'' -> same g g'';
  read_file_keeps p g : same g (fst (read_file p g));
  stat_keeps p g : same g (fst (stat p g));
  read_link_keeps p g : same g (fst (read_link p g));
}.

(** The paths whose directories an edit changes. *)
Definition edit_targets (e : VfsEdit) : list PathBuf := match e with EditCopy _ t => [t] | _ => edit_paths e end.

Section ReadOnlyMounts.
Context `{PathNormalizerLaws} {G : Type} `{FileSystem G} (same : G -> G -> Prop) `{!ReadsKeep same}.
Notation World := (VerletVfs (F := AnyFileSystem G)).
Implicit Types (v w : World).

(** Cell [b] is a read-only view whose filesystem is as [g] was. *)
Definition protected (b : Backend) (g : G) v : Prop :=
  exists g', backends v b = View (read_only g') /\ same g g'.

Definition gentle {A} (op : AnyFileSystem G -> AnyFileSystem G * VfsResult A) : Prop :=
  forall g, exists g' r, op (View (read_only g)) = (View (read_only g'), r) /\ same g g'.
Definition refusing (op : AnyFileSystem G -> AnyFileSystem G * VfsResult unit) : Prop :=
  forall f, op (View f) = (View f, Err readonly_error).

Lemma set_backend_same b f v : backends (set_backend b f v) b = f.
Proof. cbn. by rewrite decide_True. Qed.
Lemma set_backend_other b c f v : b <> c -> backends (set_backend c f v) b = backends v b.
Proof. intros Hne. cbn. by rewrite decide_False. Qed.

Lemma refusing_gentle op : refusing op -> gentle op.
Proof. intros Hop g. exists g, (Err readonly_error). split; [apply Hop|apply same_refl]. Qed.

Lemma reading_gentle {A} (op : G -> G * VfsResult A) :
  (forall g, same g (fst (op g))) -> gentle (dispatch op (through op)).
Proof.
  intros Hop g. specialize (Hop g). cbn [dispatch]. unfold through. cbn [inner]. destruct (op g) as [g' r]. by exists g', r.
Qed.

Lemma on_backend_protected {A} b c g (op : AnyFileSystem G -> AnyFileSystem G * VfsResult A) v v' r :
  gentle op -> protected b g v -> on_backend c op v = (v', r) -> protected b g v'.
Proof.
  intros Hop (g1 & Hb & Hsame). unfold on_backend, protected. destruct (op (backends v c)) as [f x] eqn:Hf. intros [= <- _].
  cbn [backends set_backend]. destruct (decide (b = c)) as [->|Hne]; [|by exists g1].
  destruct (Hop g1) as (g2 & y & Hview & Hs). rewrite Hb, Hview in Hf. injection Hf as <- <-. exists g2. split; [done|]. by eapply same_trans.
Qed.

Lemma on_backend_refused b g op v v' r : refusing op -> protected b g v -> on_backend b op v = (v', r) -> r = Err readonly_error.
Proof. intros Hop (g1 & Hb & _). unfold on_backend. rewrite Hb, Hop. by intros [= _ <-]. Qed.

Lemma transfer_protected b g c p d q v v' r :
  protected b g v -> transfer c p d q v = (v', r) -> protected b g v' /\ (d = b -> exists e, r = Err e).
Proof.
  intros Hp. unfold transfer. unfold st_bind at 1.
  destruct (on_backend c (stat p) v) as [w [m|e]] eqn:Hstat;
    pose proof (on_backend_protected b c g _ _ _ _ (reading_gentle _ (stat_keeps p)) Hp Hstat) as Hw;
    [|intros [= <- <-]; split; [done|by exists e]].
  case_bool_decide; unfold st_bind.
  - destruct (on_backend c (read_link p) w) as [w' [x|e]] eqn:Hread;
      pose proof (on_backend_protected b c g _ _ _ _ (reading_gentle _ (read_link_keeps p)) Hw Hread) as Hw';
      [|intros [= <- <-]; split; [done|by exists e]].
    intros Hlast. split; [eapply (on_backend_protected b d), Hlast; [by apply refusing_gentle|done]|].
    intros ->. exists readonly_error. by eapply (on_backend_refused b g), Hlast.
  - destruct (on_backend c (read_file p) w) as [w' [x|e]] eqn:Hread;
      pose proof (on_backend_protected b c g _ _ _ _ (reading_gentle _ (read_file_keeps p)) Hw Hread) as Hw';
      [|intros [= <- <-]; split; [done|by exists e]].
    intros Hlast. split; [eapply (on_backend_protected b d), Hlast; [by apply refusing_gentle|done]|].
    intros ->. exists readonly_error. by eapply (on_backend_refused b g), Hlast.
Qed.

Lemma protected_journal b g v w : backends w = backends v -> protected b g v -> protected b g w.
Proof. intros Heq. unfold protected. by rewrite Heq. Qed.
Definition fails (r : VfsResult unit) : Prop := exists e, r = Err e.

(** What an edit of the paths [ps] does to cell [b]. *)
Definition guards (b : Backend) (ps : list PathBuf) (m : World -> World * VfsResult unit) : Prop :=
  forall g v v' r, protected b g v -> m v = (v', r) ->
    protected b g v' /\ ((exists p, p ∈ ps /\ fst (resolve p v) = b) -> fails r).

Lemma validate_guards b ps p m : guards b ps m -> guards b ps (validate_path p ;;! m).
Proof.
  intros Hm g v v' r Hp. unfold st_bind. destruct (validate_path p v) as [w [[]|e]] eqn:Hval; apply validate_same in Hval as ->;
    [by apply Hm|]. intros [= <- <-]. split; [done|intros _; by exists e].
Qed.

Lemma record_guards b ps m k p t : guards b ps m -> guards b ps (m ;;! record k p t).
Proof.
  intros Hm g v v' r Hp. unfold st_bind. destruct (m v) as [w [[]|e]] eqn:Hmv; destruct (Hm g v w _ Hp Hmv) as [Hw Hf].
  - unfold record. intros [= <- <-]. split; [by eapply protected_journal, Hw|].
    intros Hin. by destruct (Hf Hin) as [e He].
  - by intros [= <- <-].
Qed.

Lemma resolved_guards b p (op : PathBuf -> AnyFileSystem G -> AnyFileSystem G * VfsResult unit) :
  (forall q, refusing (op q)) -> guards b [p] (resolved p op).
Proof.
  intros Hop g v v' r Hp. unfold resolved. destruct (resolve p v) as [c q] eqn:Hres. intros Hrun. split.
  - eapply on_backend_protected, Hrun; [apply refusing_gentle, Hop|done].
  - intros (p' & Hin & Hb). apply list_elem_of_singleton in Hin as ->. rewrite Hres in Hb. cbn in Hb. subst c.
    exists readonly_error. by eapply (on_backend_refused b g), Hrun.
Qed.

Lemma guards_normalized b p m : guards b [normalize_vfs_path p] m -> guards b [p] m.
Proof.
  intros Hm g v v' r Hp Hrun. destruct (Hm g v v' r Hp Hrun) as [Hw Hf]. split; [done|].
  intros (p' & Hin & Hb). apply list_elem_of_singleton in Hin as ->. apply Hf. exists (normalize_vfs_path p).
  split; [set_solver|by rewrite resolve_normalized].
Qed.

Lemma mutate_guards b k p (op : PathBuf -> AnyFileSystem G -> AnyFileSystem G * VfsResult unit) :
  (forall q, refusing (op q)) -> guards b [p] (mutate k p op).
Proof. intros Hop. apply validate_guards. cbv zeta. apply record_guards, guards_normalized. by apply resolved_guards. Qed.

(** The two cells of a rename or a copy. *)
Lemma rename_guards b from to : guards b [from; to] (vfs_rename from to).
Proof.
  apply validate_guards, validate_guards. cbv zeta. apply record_guards. intros g v v' r Hp. rewrite !resolve_normalized.
  destruct (resolve from v) as [c p] eqn:Hc, (resolve to v) as [d q] eqn:Hd.
  assert ((exists x, x ∈ [from; to] /\ fst (resolve x v) = b) -> c = b \/ d = b) as Hwhich.
  { intros (x & Hx & Hb). apply list_elem_of_In in Hx as [<-|[<-|[]]]; [rewrite Hc in Hb|rewrite Hd in Hb]; cbn in Hb; tauto. }
  destruct (Nat.eqb_spec c d) as [->|Hne].
  - intros Hrun. split; [eapply on_backend_protected, Hrun; [by apply refusing_gentle|done]|].
    intros Hin. apply Hwhich in Hin. assert (d = b) as -> by tauto. exists readonly_error. by eapply (on_backend_refused b g), Hrun.
  - unfold st_bind. destruct (transfer c p d q v) as [w [[]|e]] eqn:Htr; destruct (transfer_protected b g _ _ _ _ _ _ _ Hp Htr) as [Hw Hf].
    + intros Hrun. split; [eapply on_backend_protected, Hrun; [by apply refusing_gentle|done]|].
      intros Hin. apply Hwhich in Hin as [->| ->]; [|by destruct (Hf eq_refl)]. exists readonly_error. by eapply (on_backend_refused b g), Hrun.
    + intros [= <- <-]. split; [done|intros _; by exists e].
Qed.

Lemma copy_guards b from to : guards b [to] (vfs_copy from to).
Proof.
  apply validate_guards, validate_guards. cbv zeta. apply record_guards. intros g v v' r Hp. rewrite !resolve_normalized.
  destruct (resolve from v) as [c p] eqn:Hc, (resolve to v) as [d q] eqn:Hd.
  assert ((exists x, x ∈ [to] /\ fst (resolve x v) = b) -> d = b) as Hwhich.
  { intros (x & Hx & Hb). apply list_elem_of_singleton in Hx as ->. by rewrite Hd in Hb. }
  destruct (Nat.eqb_spec c d) as [->|Hne].
  - intros Hrun. split; [eapply on_backend_protected, Hrun; [by apply refusing_gentle|done]|].
    intros Hin. apply Hwhich in Hin as ->. exists readonly_error. by eapply (on_backend_refused b g), Hrun.
  - intros Hrun. destruct (transfer_protected b g _ _ _ _ _ _ _ Hp Hrun) as [Hw Hf]. split; [done|].
    intros Hin. by apply Hf, Hwhich.
Qed.

Lemma edit_guards b e : guards b (edit_targets e) (run_edit e).
Proof.
  destruct e; cbn [edit_targets edit_paths run_edit]; try (by apply mutate_guards); [apply rename_guards|apply copy_guards|].
  apply validate_guards. by apply resolved_guards.
Qed.


(** A file renamed from a read-only mount into another one is copied, and then the rename fails:
    the destination is written, the source cannot be removed, the error is the read-only one, and the
    journal has no entry for what was written. *)
Theorem rename_from_readonly_leaves_copy v from to b p c q g g1 g2 g3 meta content h :
  resolve from v = (b, p) -> resolve to v = (c, q) -> b <> c ->
  backends v b = View (read_only g) -> backends v c = Plain h ->
  validate_limits from (backends v (root v)) = Ok tt -> validate_limits to (backends v (root v)) = Ok tt ->
  stat p g = (g1, Ok meta) -> file_type meta <> Symlink -> read_file p g1 = (g2, Ok content) ->
  write_file q content h = (g3, Ok tt) ->
  exists v', vfs_rename from to v = (v', Err readonly_error) /\ backends v' c = Plain g3 /\ journal v' = journal v.
Proof.
  intros Hfrom Hto Hne Hb Hc Hv1 Hv2 Hstat Hft Hread Hwrite.
  unfold vfs_rename, st_bind, validate_path. rewrite Hv1. cbn [map_err]. rewrite Hv2. cbn [map_err].
  rewrite !resolve_normalized, Hfrom, Hto. apply Nat.eqb_neq in Hne as Hneb. rewrite Hneb. apply Nat.eqb_neq in Hneb.
  unfold transfer, st_bind, on_backend. rewrite Hb. cbn. unfold through. cbn. rewrite Hstat.
  rewrite bool_decide_eq_false_2, set_backend_same by done. cbn. rewrite Hread.
  rewrite !set_backend_other, Hc by done. cbn. rewrite Hwrite.
  rewrite set_backend_other, set_backend_same by done. cbn.
  eexists. split; [done|]. by rewrite set_backend_other, set_backend_same by done.
Qed.
End ReadOnlyMounts.

(** * The virtual filesystem on concrete mounts

    A path normalizer and a small filesystem in memory, and the theorems of the
    virtual filesystem applied to them. *)

Module VfsExamples.

(** ** Normalization *)

Definition push_component (names : list string) (c : Component) : list string :=
  match c with RootDir => [] | CurDir => names | ParentDir => removelast names | Normal n => names ++ [n] end.
#[export] Instance dots : PathNormalizer := {| normalize_path p := RootDir :: map Normal (fold_left push_component p []) |}.

Lemma fold_push acc ns : fold_left push_component (map Normal ns) acc = acc ++ ns.
Proof.
  revert acc. induction ns as [|n ns IH]; intros acc; cbn; [by rewrite app_nil_r|]. by rewrite IH, <- app_assoc.
Qed.

#[export] Instance dots_laws : PathNormalizerLaws.
Proof.
  split; [intros p _; by eexists|]. intros p [ns ->]. cbn. by rewrite fold_push.
Qed.

(** ** Files in memory *)

(** The regular files by path; a directory is there when a file is below it. *)
Notation Files := (gmap PathBuf string) (only parsing).

Definition no_such {A : Type} : VfsResult A := Err (VfsIo NotFound "file not found").
Definition fetch (p : PathBuf) (f : Files) : VfsResult string := match f !! p with Some c => Ok c | None => no_such end.
Definition file_meta (c : string) : Metadata :=
  {| file_type := File; size := Z.of_nat (String.length c); mode := 420; modified := 0; created := 0 |}.
Definition refuse {A : Type} (f : Files) : Files * VfsResult A := (f, Err (VfsOther "not supported")).

#[export] Instance memory : FileSystem Files := {|
  read_file p f := (f, fetch p f);
  write_file p c f := (<[p := c]> f, Ok tt);
  append_file p c f := (<[p := default EmptyString (f !! p) +:+ c]> f, Ok tt);
  mkdir _ _ f := (f, Ok tt);
  remove p _ f := match f !! p with Some _ => (delete p f, Ok tt) | None => (f, no_such) end;
  stat p f := (f, match fetch p f with Ok c => Ok (file_meta c) | Err e => Err e end);
  read_dir _ f := refuse f;
  exists_path p f := (f, Ok (bool_decide (is_Some (f !! p))));
  rename p q f := match f !! p with Some c => (<[q := c]> (delete p f), Ok tt) | None => (f, no_such) end;
  copy p q f := match f !! p with Some c => (<[q := c]> f, Ok tt) | None => (f, no_such) end;
  symlink _ _ := refuse;
  read_link _ := refuse;
  chmod _ _ := refuse;
  set_modified_time _ _ := refuse;
  flush f := (f, Ok tt);
  validate_limits _ _ := Ok tt;
|}.

#[export] Instance memory_keeps : ReadsKeep (G := Files) (=).
Proof. split; try done. by intros g g' g'' -> ->. Qed.

(** ** A workspace, and a package mounted read-only inside it *)

Definition at_root (ns : list string) : PathBuf := RootDir :: map Normal ns.

Definition cells (b : Backend) : AnyFileSystem Files :=
  match b with
  | 1 => View (read_only {[ at_root ["tool.md"] := "use it" ]})
  | _ => Plain ∅
  end.

Definition workspace : VerletVfs (F := AnyFileSystem Files) :=
  fst ((mount (at_root ["work"]) 2 ;;! mount (at_root ["work"; "pkg"]) 1) (new_vfs cells 0)).

(** [..] and [.] are gone before the mount is looked up. *)
Definition dotted : PathBuf := [RootDir; Normal "work"; Normal "tmp"; ParentDir; Normal "pkg"; CurDir; Normal "tool.md"].

Lemma resolve_dotted : resolve dotted workspace = (1, at_root ["tool.md"]).
Proof. vm_compute. reflexivity. Qed.

Lemma workspace_ok : mounts_ok workspace.
Proof.
  unfold workspace.
  destruct ((mount (at_root ["work"]) 2 ;;! mount (at_root ["work"; "pkg"]) 1) (new_vfs cells 0)) as [v r] eqn:Hrun.
  unfold st_bind in Hrun. destruct (mount (at_root ["work"]) 2 (new_vfs cells 0)) as [w [[]|e]] eqn:Hw;
    pose proof (mount_ok _ _ _ _ _ (new_vfs_ok cells 0) Hw) as Hok.
  - by apply (mount_ok _ _ _ _ _ Hok Hrun).
  - by injection Hrun as <- _.
Qed.

Lemma resolve_nearest_mount_witness :
  let q := normalize_vfs_path dotted in
  resolve dotted workspace =
    match nearest_mount (mounts workspace) q (length q) with
    | Some (n, b) => (b, RootDir :: drop n q)
    | None => (root workspace, q)
    end /\
  nearest_mount (mounts workspace) q (length q) = Some (3, 1).
Proof.
  split; [exact (proj1 (resolve_nearest_mount workspace dotted workspace_ok))|vm_compute; reflexivity].
Defined.

(** Writing over the package's file fails and copying it out succeeds; the package is as it was. *)
Definition edits : list VfsEdit :=
  [EditWrite dotted "changed"; EditCopy dotted (at_root ["work"; "copy.md"]); EditRemove (at_root ["work"; "copy.md"]) false].

Lemma edits_results : snd (run_edits edits workspace) = [Err readonly_error; Ok tt; Ok tt].
Proof. vm_compute. reflexivity. Qed.

Lemma journal_of_edits_witness :
  length (snd (run_edits edits workspace)) = 3 /\
  journal (fst (run_edits edits workspace)) =
    journal workspace ++ edit_entry (EditCopy dotted (at_root ["work"; "copy.md"])) ++ edit_entry (EditRemove (at_root ["work"; "copy.md"]) false).
Proof.
  pose proof (journal_of_edits edits workspace) as Hall. pose proof edits_results as Hres.
  destruct (run_edits edits workspace) as [v rs]. cbn [fst snd] in *. subst rs. destruct Hall as (Hlen & Hj & _).
  split; [exact Hlen|exact Hj].
Defined.


Lemma rename_from_readonly_leaves_copy_witness :
  exists v', vfs_rename dotted (at_root ["work"; "tool.md"]) workspace = (v', Err readonly_error) /\
    backends v' 2 = Plain (<[at_root ["tool.md"] := "use it"]> ∅) /\ journal v' = journal workspace.
Proof.
  apply (rename_from_readonly_leaves_copy workspace dotted (at_root ["work"; "tool.md"])
    1 (at_root ["tool.md"]) 2 (at_root ["tool.md"]) {[ at_root ["tool.md"] := "use it" ]} {[ at_root ["tool.md"] := "use it" ]}
    {[ at_root ["tool.md"] := "use it" ]} (<[at_root ["tool.md"] := "use it"]> ∅) (file_meta "use it") "use it" ∅);
    first [done | vm_compute; reflexivity | vm_compute; discriminate].
Defined.
End VfsExamples.
