(* ===== verification/ObjectFs.v ===== *)
(** * Object-store mounts

    Models [ManagedObjectStoreFs] of [verlet-vfs/src/lib.rs]: a filesystem over an
    object store, with the files read and written kept in memory, a queue of what is
    still to be written back, the set of deleted paths that hide what the store still
    has, and a bounded cache of the files that are clean.

    The store and the filesystem in memory ([bashkit::InMemoryFs]) are the classes
    [ObjectStore] and [FileSystem]; [object_store::path::Path::from] is a parameter.
    One caller at a time is modelled, so each operation is a function on the state. *)

From stdpp Require Import base gmap sets list strings pretty sorting.
From Stdlib Require Import ZArith Lia.
From S2P Require Import Prelude Vfs.

Local Open Scope verlet_scope.
Local Open Scope string_scope.
Local Open Scope list_scope.

(** ** The object store *)

Inductive StoreError := ObjectNotFound (text : string) | StoreFailure (text : string).
Notation StoreResult A := (result A StoreError).

Record ObjectMeta := { location : string; object_size : Z; last_modified : Z }.
Record ListResult := { common_prefixes : list string; objects : list ObjectMeta }.

(** [object_store::ObjectStore]; an object path is the text it is made of. *)
Class ObjectStore (Bucket : Type) := {
  put : string -> string -> Bucket -> Bucket * StoreResult unit;
  get : string -> Bucket -> Bucket * StoreResult string;
  head_object : string -> Bucket -> Bucket * StoreResult ObjectMeta;
  delete_object : string -> Bucket -> Bucket * StoreResult unit;
  list_objects : option string -> Bucket -> Bucket * StoreResult (list ObjectMeta);
  list_with_delimiter : option string -> Bucket -> Bucket * StoreResult ListResult;
}.

(** [object_store::path::Path::from]. *)
Class ObjectPaths := { path_from : string -> string }.

(** ** Keys *)

Definition trim_start_slashes (s : string) : string := trim_chars (String.length s) ["/"] s.
Definition trim_end_slashes (s : string) : string := String.rev (trim_start_slashes (String.rev s)).

Definition normalize_object_prefix (prefix : string) : string :=
  let prefix := trim_start_slashes prefix in
  if negb (String.eqb prefix "") && negb (starts_with "/" (String.rev prefix)) then prefix +:+ "/" else prefix.

(** The text of a path. *)
Definition component_text (c : Component) : string :=
  match c with RootDir => "" | CurDir => "." | ParentDir => ".." | Normal n => n end.
Definition path_text (p : PathBuf) : string :=
  match p with [RootDir] => "/" | _ => String.concat "/" (map component_text p) end.

Definition object_path `{ObjectPaths} (key : string) : string := if String.eqb key "" then "" else path_from key.
Definition object_prefix_path `{ObjectPaths} (key : string) : option string :=
  let key := trim_end_slashes key in
  if String.eqb key "" then None else Some (path_from key).

Section Keys.
Context `{PathNormalizer}.

Definition relative_vfs_key (p : PathBuf) : string := trim_start_slashes (path_text (normalize_vfs_path p)).

Definition rebase_path (p from to : PathBuf) : PathBuf :=
  let p := normalize_vfs_path p in
  let from := normalize_vfs_path from in
  let to := normalize_vfs_path to in
  if bool_decide (p = from) then to
  else match path_strip_prefix from p with
       | Some rest => normalize_vfs_path (path_join to rest)
       | None => p
       end.
End Keys.

(** ** The cache policy *)

Record ObjectStoreCachePolicy := { max_clean_file_bytes : Z; max_clean_file_count : nat; max_single_file_bytes : Z }.
Definition disabled_cache : ObjectStoreCachePolicy :=
  {| max_clean_file_bytes := 0; max_clean_file_count := 0; max_single_file_bytes := 0 |}.
Definition bounded_cache (bytes : Z) (count : nat) (single : Z) : ObjectStoreCachePolicy :=
  {| max_clean_file_bytes := bytes; max_clean_file_count := count; max_single_file_bytes := single |}.
Definition should_track (policy : ObjectStoreCachePolicy) (size : Z) : bool :=
  (0 <? max_clean_file_bytes policy)%Z && Nat.ltb 0 (max_clean_file_count policy) && (size <=? max_single_file_bytes policy)%Z.
Definition default_cache : ObjectStoreCachePolicy :=
  {| max_clean_file_bytes := 32 * 1024 * 1024; max_clean_file_count := 2 ^ 10; max_single_file_bytes := 1024 * 1024 |}.

(** ** State *)

Record CachedCleanFile := { cached_size : Z; last_access : Z }.
Inductive ObjectStoreWriteback := PutFile (p : PathBuf) | PutDir (p : PathBuf) | DeleteFile (p : PathBuf) | DeleteDir (p : PathBuf).
Record QueuedObjectStoreWriteback := { queued_id : Z; op : ObjectStoreWriteback }.

Definition op_path (o : ObjectStoreWriteback) : PathBuf :=
  match o with PutFile p | PutDir p | DeleteFile p | DeleteDir p => p end.

Definition io {A} (k : ErrorKind) (text : string) : VfsResult A := Err (VfsIo k text).
Definition object_error (e : StoreError) : VfsError :=
  match e with ObjectNotFound text => VfsIo NotFound text | StoreFailure text => VfsIo OtherKind text end.
Definition ignore_not_found (r : StoreResult unit) : VfsResult unit :=
  match r with Ok _ | Err (ObjectNotFound _) => Ok tt | Err e => Err (object_error e) end.

Section Managed.
Context `{PathNormalizer} `{ObjectPaths} {Bucket : Type} `{ObjectStore Bucket} {L : Type} `{FileSystem L}.
(** [SystemTime::now]. *)
Variable now : Z.

Record ManagedObjectStoreFs := {
  store : Bucket;
  key_prefix : string;
  state : L;
  cache_policy : ObjectStoreCachePolicy;
  cache : gmap PathBuf CachedCleanFile;
  cache_clock : Z;
  dirty : list QueuedObjectStoreWriteback;
  dirty_clock : Z;
  deleted : gset PathBuf;
}.
Implicit Types (s : ManagedObjectStoreFs).

Notation Call A := (st ManagedObjectStoreFs VfsError A).

Definition set_store (o : Bucket) s : ManagedObjectStoreFs := {| store := o; key_prefix := key_prefix s; state := state s;
  cache_policy := cache_policy s; cache := cache s; cache_clock := cache_clock s; dirty := dirty s; dirty_clock := dirty_clock s;
  deleted := deleted s |}.
Definition set_state (l : L) s : ManagedObjectStoreFs := {| store := store s; key_prefix := key_prefix s; state := l;
  cache_policy := cache_policy s; cache := cache s; cache_clock := cache_clock s; dirty := dirty s; dirty_clock := dirty_clock s;
  deleted := deleted s |}.
Definition set_cache (c : gmap PathBuf CachedCleanFile) (clock : Z) s : ManagedObjectStoreFs := {| store := store s;
  key_prefix := key_prefix s; state := state s; cache_policy := cache_policy s; cache := c; cache_clock := clock; dirty := dirty s;
  dirty_clock := dirty_clock s; deleted := deleted s |}.
Definition set_dirty (d : list QueuedObjectStoreWriteback) (clock : Z) s : ManagedObjectStoreFs := {| store := store s;
  key_prefix := key_prefix s; state := state s; cache_policy := cache_policy s; cache := cache s; cache_clock := cache_clock s;
  dirty := d; dirty_clock := clock; deleted := deleted s |}.
Definition set_deleted (d : gset PathBuf) s : ManagedObjectStoreFs := {| store := store s; key_prefix := key_prefix s; state := state s;
  cache_policy := cache_policy s; cache := cache s; cache_clock := cache_clock s; dirty := dirty s; dirty_clock := dirty_clock s;
  deleted := d |}.

(** [from_store] and [with_cache_policy], of a fresh filesystem in memory. *)
Definition from_store (o : Bucket) (prefix : string) (empty : L) : ManagedObjectStoreFs := {| store := o;
  key_prefix := normalize_object_prefix prefix; state := empty; cache_policy := default_cache; cache := ∅; cache_clock := 0;
  dirty := []; dirty_clock := 0; deleted := ∅ |}.
Definition with_cache_policy (policy : ObjectStoreCachePolicy) s : ManagedObjectStoreFs := {| store := store s;
  key_prefix := key_prefix s; state := state s; cache_policy := policy; cache := cache s; cache_clock := cache_clock s;
  dirty := dirty s; dirty_clock := dirty_clock s; deleted := deleted s |}.

Definition key_for_file (p : PathBuf) s : string :=
  let rel := relative_vfs_key p in
  if String.eqb rel "" then trim_end_slashes (key_prefix s) else key_prefix s +:+ rel.
Definition key_for_dir_prefix (p : PathBuf) s : string :=
  let rel := relative_vfs_key p in
  if String.eqb rel "" then key_prefix s else key_prefix s +:+ rel +:+ "/".
Definition key_for_dir_marker (p : PathBuf) s : string := key_for_dir_prefix p s +:+ ".dir".

(** Calls of the filesystem in memory and of the store. *)
Definition on_state {A} (f : L -> L * VfsResult A) : Call A := fun s => let '(l, r) := f (state s) in (set_state l s, r).
Definition on_store {A} (f : Bucket -> Bucket * StoreResult A) : st ManagedObjectStoreFs VfsError (StoreResult A) := fun s =>
  let '(o, r) := f (store s) in (set_store o s, Ok r).
Definition stored {A} (f : Bucket -> Bucket * StoreResult A) : Call A := fun s =>
  let '(o, r) := f (store s) in (set_store o s, map_err object_error r).
Definition update (f : ManagedObjectStoreFs -> ManagedObjectStoreFs) : Call unit := fun s => (f s, Ok tt).
Definition fail {A} (k : ErrorKind) (text : string) : Call A := fun s => (s, io k text).

(** [state.exists(path).await.unwrap_or(false)]. *)
Definition state_exists (p : PathBuf) : Call bool := fun s =>
  let '(l, r) := exists_path p (state s) in (set_state l s, Ok (match r with Ok b => b | Err _ => false end)).

(** ** The queue, the cache and the deleted paths *)

Definition next_tick (clock : Z) : Z := (clock + 1) mod 2 ^ 64.

Definition push_dirty (o : ObjectStoreWriteback) s : ManagedObjectStoreFs :=
  let id := next_tick (dirty_clock s) in set_dirty (dirty s ++ [{| queued_id := id; op := o |}]) id s.

Definition dirty_paths s : list PathBuf := map (fun q => normalize_vfs_path (op_path (op q))) (dirty s).

Definition rewrite_pending_puts_for_rename (from to : PathBuf) s : ManagedObjectStoreFs :=
  let from := normalize_vfs_path from in
  let to := normalize_vfs_path to in
  let rewrite o :=
    match o with
    | PutFile p => if bool_decide (p = from) || path_starts_with p from then PutFile (rebase_path p from to) else o
    | PutDir p => if bool_decide (p = from) || path_starts_with p from then PutDir (rebase_path p from to) else o
    | _ => o
    end in
  set_dirty (map (fun q => {| queued_id := queued_id q; op := rewrite (op q) |}) (dirty s)) (dirty_clock s) s.

Definition mark_clean_cached (p : PathBuf) (size : Z) s : ManagedObjectStoreFs :=
  let p := normalize_vfs_path p in
  if should_track (cache_policy s) size
  then let access := next_tick (cache_clock s) in
       set_cache (<[p := {| cached_size := size; last_access := access |}]> (cache s)) access s
  else set_cache (delete p (cache s)) (cache_clock s) s.

Definition touch_clean_cached (p : PathBuf) s : ManagedObjectStoreFs :=
  let access := next_tick (cache_clock s) in
  set_cache (alter (fun e => {| cached_size := cached_size e; last_access := access |}) (normalize_vfs_path p) (cache s)) access s.

Definition untrack_clean_cached (p : PathBuf) s : ManagedObjectStoreFs :=
  let p := normalize_vfs_path p in
  set_cache (filter (fun e => e.1 <> p /\ path_starts_with e.1 p = false) (cache s)) (cache_clock s) s.

(** The sizes and the entries of the cache ([clean_cache_snapshot]). *)
Definition clean_cache_bytes (c : gmap PathBuf CachedCleanFile) : Z := foldr (fun e n => (cached_size e.2 + n)%Z) 0%Z (map_to_list c).

Definition dirty_above (d : list PathBuf) (p : PathBuf) : bool := existsb (path_starts_with p) d.

(** The entries to evict, the least recently used first, until the rest is within the policy. *)
Fixpoint evict_candidates (policy : ObjectStoreCachePolicy) (total : Z) (entries : nat) (candidates : list (PathBuf * CachedCleanFile))
    : list PathBuf :=
  match candidates with
  | [] => []
  | (p, e) :: candidates =>
      if (total <=? max_clean_file_bytes policy)%Z && Nat.leb entries (max_clean_file_count policy) then []
      else p :: evict_candidates policy (Z.max 0 (total - cached_size e)) (entries - 1) candidates
  end.

(** The cached files that no queued write-back and no deletion is above. *)
Definition settled_cache s : gmap PathBuf CachedCleanFile :=
  let d := dirty_paths s in
  filter (fun e => dirty_above d e.1 = false /\ dirty_above (elements (deleted s)) e.1 = false) (cache s).

Fixpoint evict_all (ps : list PathBuf) : Call unit :=
  match ps with
  | [] => st_ret tt
  | p :: ps =>
      here <-! state_exists p ;;
      (if here then on_state (remove p false) else st_ret tt) ;;!
      evict_all ps
  end.

Definition gc_clean_cache : Call unit := fun s =>
  let kept := settled_cache s in
  let candidates := sort_by_z (fun e => last_access e.2) (btree_entries kept) in
  let evict := evict_candidates (cache_policy s) (clean_cache_bytes kept) (base.size kept) candidates in
  evict_all evict (set_cache (foldr delete kept evict) (cache_clock s) s).

Definition is_deleted (p : PathBuf) s : bool := dirty_above (elements (deleted s)) (normalize_vfs_path p).
Definition mark_deleted (p : PathBuf) s : ManagedObjectStoreFs := set_deleted ({[normalize_vfs_path p]} ∪ deleted s) s.
Definition unmark_deleted (p : PathBuf) s : ManagedObjectStoreFs := set_deleted (deleted s ∖ {[normalize_vfs_path p]}) s.

(** ** The filesystem in memory *)

Definition ensure_parent_dirs (p : PathBuf) : st L VfsError unit :=
  match path_parent p with
  | Some [] | None => st_ret tt
  | Some parent =>
      here <-! exists_path parent ;;
      if here then st_ret tt else mkdir parent true
  end.

Definition local_exists (p : PathBuf) : st L VfsError bool := fun l =>
  let '(l, r) := exists_path p l in (l, Ok (match r with Ok b => b | Err _ => false end)).

(** One entry of a directory that is moved; a directory is moved later. *)
Definition move_entry (source_dir target_dir : PathBuf) (e : DirEntry) : st L VfsError (list (PathBuf * PathBuf)) :=
  let source := path_join source_dir [Normal (name e)] in
  let target := path_join target_dir [Normal (name e)] in
  match file_type (metadata e) with
  | Directory => mkdir target true ;;! st_ret [(source, target)]
  | Symlink => link <-! read_link source ;; symlink link target ;;! st_ret []
  | File | Fifo => bytes <-! read_file source ;; ensure_parent_dirs target ;;! write_file target bytes ;;! st_ret []
  end.

Fixpoint move_entries (source_dir target_dir : PathBuf) (es : list DirEntry) (pending : list (PathBuf * PathBuf))
    : st L VfsError (list (PathBuf * PathBuf)) :=
  match es with
  | [] => st_ret pending
  | e :: es => more <-! move_entry source_dir target_dir e ;; move_entries source_dir target_dir es (more ++ pending)
  end.

(** The loop over the directories; a move of a directory into itself finds new ones for ever. *)
Fixpoint move_directories (fuel : nat) (pending : list (PathBuf * PathBuf)) (l : L) : option (L * VfsResult unit) :=
  match pending with
  | [] => Some (l, Ok tt)
  | (source_dir, target_dir) :: pending =>
      match fuel with
      | O => None
      | Datatypes.S fuel =>
          match (es <-! read_dir source_dir ;; move_entries source_dir target_dir es pending) l with
          | (l, Ok pending) => move_directories fuel pending l
          | (l, Err e) => Some (l, Err e)
          end
      end
  end.

Definition rename_local_directory_tree (fuel : nat) (from to : PathBuf) (l : L) : option (L * VfsResult unit) :=
  match (here <-! local_exists to ;;
         if here then (fun l => (l, io AlreadyExists "destination exists")) else ensure_parent_dirs to ;;! mkdir to true) l with
  | (l, Ok _) =>
      match move_directories fuel [(from, to)] l with
      | Some (l, Ok _) => Some (remove from true l)
      | r => r
      end
  | (l, Err e) => Some (l, Err e)
  end.

(** ** The store *)

(** [should_track] of what was read: it is kept, or forgotten. *)
Definition keep_hydrated (p : PathBuf) (bytes : string) : Call unit := fun s =>
  let size := Z.of_nat (String.length bytes) in
  if should_track (cache_policy s) size
  then (on_state (ensure_parent_dirs p) ;;! on_state (write_file p bytes) ;;! update (mark_clean_cached p size) ;;! gc_clean_cache) s
  else update (untrack_clean_cached p) s.

Definition hydrate_file (p : PathBuf) : Call (option string) := fun s =>
  (r <-! on_store (get (object_path (key_for_file p s))) ;;
   match r with
   | Ok bytes => keep_hydrated p bytes ;;! st_ret (Some bytes)
   | Err (ObjectNotFound _) => st_ret None
   | Err e => fun s => (s, Err (object_error e))
   end) s.

Definition remote_file_exists (p : PathBuf) : Call bool := fun s =>
  if is_deleted p s then (s, Ok false)
  else (r <-! on_store (head_object (object_path (key_for_file p s))) ;;
        match r with
        | Ok _ => st_ret true
        | Err (ObjectNotFound _) => st_ret false
        | Err e => fun s => (s, Err (object_error e))
        end) s.

Definition remote_dir_exists (p : PathBuf) : Call bool := fun s =>
  if is_deleted p s then (s, Ok false)
  else if bool_decide (p = [RootDir]) then (s, Ok true)
  else
    (r <-! on_store (head_object (object_path (key_for_dir_marker p s))) ;;
     match r with
     | Ok _ => st_ret true
     | Err _ =>
         listed <-! stored (list_with_delimiter (object_prefix_path (key_for_dir_prefix p s))) ;;
         st_ret (negb (bool_decide (length (objects listed) = 0)) || negb (bool_decide (common_prefixes listed = [])))
     end) s.

Definition component_of (n : string) : Component :=
  if String.eqb n "." then CurDir else if String.eqb n ".." then ParentDir else Normal n.
Definition has_slash (n : string) : bool := bool_decide (is_Some (String.index 0 "/" n)).
Definition file_metadata (m : ObjectMeta) : Metadata :=
  {| file_type := File; size := object_size m; mode := 420; modified := last_modified m; created := last_modified m |}.

(** An entry is added unless its name was seen. *)
Definition add_entry (entries : list DirEntry) (n : string) (m : Metadata) : list DirEntry :=
  if bool_decide (n ∈ name <$> entries) then entries else entries ++ [{| name := n; metadata := m |}].

Definition remote_file_entry (p : PathBuf) (prefix_raw : string) s (entries : list DirEntry) (o : ObjectMeta) : list DirEntry :=
  match strip_prefix prefix_raw (location o) with
  | Some n =>
      if String.eqb n "" || String.eqb n ".dir" || has_slash n || is_deleted (path_join p [component_of n]) s then entries
      else add_entry entries n (file_metadata o)
  | None => entries
  end.
Definition remote_dir_entry (p : PathBuf) (prefix_raw : string) s (entries : list DirEntry) (common : string) : list DirEntry :=
  match strip_prefix prefix_raw common with
  | Some n =>
      let n := trim_end_slashes n in
      if is_deleted (path_join p [component_of n]) s || String.eqb n "" || has_slash n then entries
      else add_entry entries n (directory_metadata now)
  | None => entries
  end.

Definition remote_entries (p : PathBuf) : Call (list DirEntry) := fun s =>
  let prefix_raw := key_for_dir_prefix p s in
  (listed <-! stored (list_with_delimiter (object_prefix_path prefix_raw)) ;;
   let files := fold_left (remote_file_entry p prefix_raw s) (objects listed) [] in
   st_ret (sort_by_key name (fold_left (remote_dir_entry p prefix_raw s) (common_prefixes listed) files))) s.

(** ** The operations of [FileSystem for ManagedObjectStoreFs] *)

Definition object_read_file (p : PathBuf) : Call string :=
  let p := normalize_vfs_path p in
  here <-! state_exists p ;;
  if here then update (touch_clean_cached p) ;;! on_state (read_file p)
  else fun s =>
    if is_deleted p s then fail NotFound "file not found" s
    else (bytes <-! hydrate_file p ;;
          match bytes with
          | Some bytes => st_ret bytes
          | None =>
              dir <-! remote_dir_exists p ;;
              if dir then fail IsADirectory "is a directory" else fail NotFound "file not found"
          end) s.

Definition object_write_file (p : PathBuf) (content : string) : Call unit :=
  let p := normalize_vfs_path p in
  on_state (ensure_parent_dirs p) ;;!
  on_state (write_file p content) ;;!
  update (fun s => push_dirty (PutFile p) (unmark_deleted p (untrack_clean_cached p s))) ;;!
  gc_clean_cache.

Definition object_exists (p : PathBuf) : Call bool :=
  let p := normalize_vfs_path p in
  here <-! state_exists p ;;
  if here then st_ret true
  else fun s =>
    if is_deleted p s then (s, Ok false)
    else (file <-! remote_file_exists p ;; if file then st_ret true else remote_dir_exists p) s.

Definition object_append_file (p : PathBuf) (content : string) : Call unit :=
  let p := normalize_vfs_path p in
  there <-! object_exists p ;;
  existing <-! (if there then object_read_file p else st_ret "") ;;
  object_write_file p (existing +:+ content).

Definition object_mkdir (p : PathBuf) (recursive : bool) : Call unit :=
  let p := normalize_vfs_path p in
  on_state (mkdir p recursive) ;;!
  update (fun s => push_dirty (PutDir p) (unmark_deleted p (untrack_clean_cached p s))).

Definition object_stat (p : PathBuf) : Call Metadata :=
  let p := normalize_vfs_path p in
  here <-! state_exists p ;;
  if here then on_state (stat p)
  else fun s =>
    if is_deleted p s then fail NotFound "not found" s
    else (r <-! on_store (head_object (object_path (key_for_file p s))) ;;
          match r with
          | Ok m => st_ret (file_metadata m)
          | Err (ObjectNotFound _) =>
              dir <-! remote_dir_exists p ;;
              if dir then st_ret (directory_metadata now) else fail NotFound "not found"
          | Err e => fun s => (s, Err (object_error e))
          end) s.

Definition object_read_dir (p : PathBuf) : Call (list DirEntry) :=
  let p := normalize_vfs_path p in
  here <-! state_exists p ;;
  fun s =>
    if is_deleted p s && negb here then fail NotFound "directory not found" s
    else (entries <-! (if here then on_state (read_dir p)
                       else dir <-! remote_dir_exists p ;; if dir then st_ret [] else fail NotFound "directory not found") ;;
          remote <-! remote_entries p ;;
          st_ret (sort_by_key name (fold_left (fun es e => add_entry es (name e) (metadata e)) remote entries))) s.

Definition object_remove (p : PathBuf) (recursive : bool) : Call unit :=
  let p := normalize_vfs_path p in
  meta <-! object_stat p ;;
  (if bool_decide (file_type meta = Directory) && negb recursive
   then entries <-! object_read_dir p ;;
        if bool_decide (length entries = 0) then st_ret tt else fail DirectoryNotEmpty "directory not empty"
   else st_ret tt) ;;!
  here <-! state_exists p ;;
  (if here then on_state (remove p recursive) else st_ret tt) ;;!
  update (fun s => push_dirty (if bool_decide (file_type meta = Directory) then DeleteDir p else DeleteFile p)
                     (mark_deleted p (untrack_clean_cached p s))).

(** A file is read, written to its new path and removed. *)
Definition rename_file (from to : PathBuf) : Call unit :=
  bytes <-! object_read_file from ;;
  object_write_file to bytes ;;!
  object_remove from false.

(** Before the directories are moved. *)
Definition rename_directory_checks (from to : PathBuf) : Call unit :=
  remote <-! remote_dir_exists from ;;
  if remote then fail Unsupported "remote directory rename not supported"
  else
    here <-! state_exists from ;;
    if negb here then fail Unsupported "remote directory rename not supported"
    else on_state (ensure_parent_dirs to).

Definition object_rename (fuel : nat) (from to : PathBuf) s : option (ManagedObjectStoreFs * VfsResult unit) :=
  let from := normalize_vfs_path from in
  let to := normalize_vfs_path to in
  match object_stat from s with
  | (s, Err e) => Some (s, Err e)
  | (s, Ok meta) =>
      if bool_decide (file_type meta = Directory) then
        match rename_directory_checks from to s with
        | (s, Err e) => Some (s, Err e)
        | (s, Ok _) =>
            match rename_local_directory_tree fuel from to (state s) with
            | None => None
            | Some (l, Err e) => Some (set_state l s, Err e)
            | Some (l, Ok _) =>
                Some ((update (fun s => push_dirty (PutDir to) (push_dirty (DeleteDir from)
                        (untrack_clean_cached to (untrack_clean_cached from (rewrite_pending_puts_for_rename from to s))))) ;;!
                       gc_clean_cache) (set_state l s))
            end
        end
      else Some ((rename_file from to ;;! gc_clean_cache) s)
  end.

Definition object_copy (from to : PathBuf) : Call unit :=
  let from := normalize_vfs_path from in
  let to := normalize_vfs_path to in
  meta <-! object_stat from ;;
  if bool_decide (file_type meta = Directory) then fail Unsupported "directory copy not supported"
  else bytes <-! object_read_file from ;; object_write_file to bytes.

Definition object_symlink (target link : PathBuf) : Call unit := fail Unsupported "symlink not supported".
Definition object_read_link (p : PathBuf) : Call PathBuf := fail Unsupported "symlink not supported".
Definition object_chmod (p : PathBuf) (m : Z) : Call unit := st_ret tt.
Definition object_set_modified_time (p : PathBuf) (time : Z) : Call unit := st_ret tt.

(** ** Writing back *)

(** A clean file is cached, or is to be dropped when it is too large. *)
Definition settle_put (p : PathBuf) (bytes : string) (oversized : list PathBuf) s : ManagedObjectStoreFs * list PathBuf :=
  let size := Z.of_nat (String.length bytes) in
  let s := unmark_deleted p s in
  if should_track (cache_policy s) size then (mark_clean_cached p size s, oversized)
  else (untrack_clean_cached p s, oversized ++ [p]).

Fixpoint delete_keys (keys : list string) : Call unit :=
  match keys with
  | [] => st_ret tt
  | k :: keys =>
      r <-! on_store (delete_object k) ;;
      (fun s => (s, ignore_not_found r)) ;;!
      delete_keys keys
  end.

Definition forget (p : PathBuf) : Call unit := update (fun s => mark_deleted p (untrack_clean_cached p s)).

(** One queued operation; the result is what was too large so far. *)
Definition write_back (o : ObjectStoreWriteback) (oversized : list PathBuf) : Call (list PathBuf) :=
  match o with
  | PutFile p =>
      here <-! state_exists p ;;
      if here then
        bytes <-! on_state (read_file p) ;;
        (fun s => stored (put (object_path (key_for_file p s)) bytes) s) ;;!
        (fun s => let '(s, oversized) := settle_put p bytes oversized s in (s, Ok oversized))
      else st_ret oversized
  | PutDir p =>
      (fun s => stored (put (object_path (key_for_dir_marker p s)) "") s) ;;!
      update (unmark_deleted p) ;;!
      st_ret oversized
  | DeleteFile p =>
      (fun s => delete_keys [object_path (key_for_file p s)] s) ;;!
      forget p ;;!
      st_ret oversized
  | DeleteDir p =>
      (fun s =>
        match object_prefix_path (key_for_dir_prefix p s) with
        | Some prefix => (listed <-! stored (list_objects (Some prefix)) ;; delete_keys (map location listed)) s
        | None => (s, Ok tt)
        end) ;;!
      (fun s => delete_keys [object_path (key_for_dir_marker p s)] s) ;;!
      forget p ;;!
      st_ret oversized
  end.

Fixpoint write_back_all (ops : list QueuedObjectStoreWriteback) (oversized : list PathBuf) : Call (list PathBuf) :=
  match ops with
  | [] => st_ret oversized
  | q :: ops => oversized <-! write_back (op q) oversized ;; write_back_all ops oversized
  end.

(** The files too large for the cache, unless they are to be written again. *)
Fixpoint drop_oversized (d : list PathBuf) (ps : list PathBuf) : Call unit :=
  match ps with
  | [] => st_ret tt
  | p :: ps =>
      (if dirty_above d p then st_ret tt
       else here <-! state_exists p ;; if here then on_state (remove p false) else st_ret tt) ;;!
      drop_oversized d ps
  end.

Definition object_flush : Call unit := fun s =>
  let ops := dirty s in
  (oversized <-! write_back_all ops [] ;;
   update (fun s => set_dirty (filter (fun q => queued_id q ∉ map queued_id ops) (dirty s)) (dirty_clock s) s) ;;!
   (fun s => drop_oversized (dirty_paths s) oversized s) ;;!
   gc_clean_cache) s.
End Managed.
