(* ===== verification/ObjectFacts.v ===== *)
(** * The clean cache of an object-store mount

    What the garbage collection of the cache keeps, and what it drops; then the
    invariant of a mount and the files it holds, as a map from paths to contents. *)

From stdpp Require Import base gmap sets list strings pretty sorting.
From Stdlib Require Import ZArith Lia.
From S2P Require Import Prelude Vfs ObjectFs.

Local Open Scope verlet_scope.
Local Open Scope string_scope.
Local Open Scope list_scope.

Notation Entry := (PathBuf * CachedCleanFile)%type (only parsing).
Implicit Types (policy : ObjectStoreCachePolicy).

Definition sum_sizes (l : list Entry) : Z := foldr (fun e n => (cached_size e.2 + n)%Z) 0%Z l.
Definition sizes_ok (c : gmap PathBuf CachedCleanFile) : Prop := forall p e, c !! p = Some e -> (0 <= cached_size e)%Z.
Definition fits policy (bytes : Z) (count : nat) : bool :=
  (bytes <=? max_clean_file_bytes policy)%Z && Nat.leb count (max_clean_file_count policy).

Lemma sum_sizes_perm (l l' : list Entry) : l ≡ₚ l' -> sum_sizes l = sum_sizes l'.
Proof. unfold sum_sizes. induction 1; cbn; lia. Qed.

Lemma sum_sizes_nonneg (l : list Entry) : Forall (fun e => (0 <= cached_size e.2)%Z) l -> (0 <= sum_sizes l)%Z.
Proof. unfold sum_sizes. induction 1; cbn; lia. Qed.

(** Eviction takes the first candidates, and no more than it must. *)
Lemma evict_candidates_take policy (l : list Entry) :
  (0 <= max_clean_file_bytes policy)%Z -> Forall (fun e => (0 <= cached_size e.2)%Z) l ->
  exists k, evict_candidates policy (sum_sizes l) (length l) l = (take k l).*1 /\
    fits policy (sum_sizes (drop k l)) (length (drop k l)) = true /\
    (forall j, j < k -> fits policy (sum_sizes (drop j l)) (length (drop j l)) = false).
Proof.
  intros Hmax Hl. induction Hl as [|[p e] l He Hl IH].
  - exists 0. split_and!; [done| |lia]. unfold fits. cbn. rewrite andb_true_r. by apply Z.leb_le.
  - cbn [evict_candidates]. change (_ && _) with (fits policy (sum_sizes ((p, e) :: l)) (length ((p, e) :: l))).
    destruct (fits policy (sum_sizes ((p, e) :: l)) (length ((p, e) :: l))) eqn:Hfits.
    + exists 0. split_and!; [done|done|lia].
    + destruct IH as (k & Hev & Hfit & Hmin). exists (Datatypes.S k). pose proof (sum_sizes_nonneg l Hl) as Hnn.
      replace (Z.max 0 (sum_sizes ((p, e) :: l) - cached_size e)) with (sum_sizes l) by (unfold sum_sizes in *; cbn in *; lia).
      replace (length ((p, e) :: l) - 1) with (length l) by (cbn; lia). rewrite Hev. split_and!; [done|done|].
      intros [|j] Hj; [done|]. apply Hmin. lia.
Qed.

(** ** Deleting the first entries *)

Lemma lookup_foldr_delete (m : gmap PathBuf CachedCleanFile) ps p :
  foldr delete m ps !! p = if decide (p ∈ ps) then None else m !! p.
Proof.
  induction ps as [|q ps IH]; cbn [foldr]; [by rewrite decide_False by (intros Hin; inversion Hin)|].
  destruct (decide (p = q)) as [->|Hne]; [rewrite lookup_delete_eq; by rewrite decide_True by set_solver|].
  rewrite lookup_delete_ne by done. rewrite IH. destruct (decide (p ∈ ps)); [by rewrite decide_True by set_solver|by rewrite decide_False by set_solver].
Qed.

(** The entries of a map, in any order, after the first [k] are deleted. *)
Lemma delete_first (m : gmap PathBuf CachedCleanFile) (l : list Entry) k :
  l ≡ₚ map_to_list m -> map_to_list (foldr delete m (take k l).*1) ≡ₚ drop k l.
Proof.
  intros Hl. assert (NoDup l.*1) as Hnd by (rewrite Hl; apply NoDup_fst_map_to_list).
  assert (forall p e, (p, e) ∈ l <-> m !! p = Some e) as Hin by (intros; by rewrite Hl, elem_of_map_to_list).
  rewrite <- (take_drop k l) in Hnd. rewrite fmap_app in Hnd. apply NoDup_app in Hnd as (_ & Hdisj & Hnd).
  assert (foldr delete m (take k l).*1 = list_to_map (drop k l)) as ->.
  { apply map_eq. intros p. rewrite lookup_foldr_delete. apply option_eq. intros e. rewrite <- elem_of_list_to_map by done. split.
    - case_decide as Hp; [done|]. rewrite <- Hin. intros Hpe. rewrite <- (take_drop k l) in Hpe. apply elem_of_app in Hpe as [Hpe|]; [|done].
      destruct Hp. apply list_elem_of_fmap. by exists (p, e).
    - intros Hpe. rewrite decide_False; [apply Hin; rewrite <- (take_drop k l); apply elem_of_app; by right|].
      intros Hp. apply (Hdisj p Hp). apply list_elem_of_fmap. by exists (p, e). }
  by rewrite map_to_list_to_map.
Qed.

Section Cache.
Context `{PathNormalizerLaws} `{ObjectPaths} {Bucket : Type} `{ObjectStore Bucket} {L : Type} `{FileSystem L}.
Notation World := (ManagedObjectStoreFs (Bucket := Bucket) (L := L)).
Implicit Types (s : World).

(** Only the filesystem in memory differs. *)
Definition only_state s s' : Prop := s' = set_state (state s') s.

Lemma only_state_refl s : only_state s s.
Proof. by destruct s. Qed.
Lemma only_state_trans s1 s2 s3 : only_state s1 s2 -> only_state s2 s3 -> only_state s1 s3.
Proof. unfold only_state. intros -> ->. by destruct s1. Qed.

Lemma on_state_only {A} (f : L -> L * VfsResult A) s s' r : on_state f s = (s', r) -> only_state s s'.
Proof. unfold on_state. destruct (f (state s)) as [l x]. by intros [= <- _]. Qed.
Lemma state_exists_only p s s' r : state_exists p s = (s', r) -> only_state s s' /\ is_ok r = true.
Proof. unfold state_exists. destruct (exists_path p (state s)) as [l x]. by intros [= <- <-]. Qed.

Lemma evict_all_only ps s s' r : evict_all ps s = (s', r) -> only_state s s'.
Proof.
  revert s. induction ps as [|p ps IH]; intros s; cbn [evict_all]; [intros [= <- _]; apply only_state_refl|].
  unfold st_bind at 1. destruct (state_exists p s) as [s1 [here|e]] eqn:Hex; apply state_exists_only in Hex as [Hex Hok]; [|done].
  unfold st_bind. destruct here.
  - destruct (on_state (remove p false) s1) as [s2 [[]|e]] eqn:Hrm; apply on_state_only in Hrm.
    + intros Hrest. eapply only_state_trans, IH, Hrest. by eapply only_state_trans.
    + intros [= <- _]. by eapply only_state_trans.
  - intros Hrest. by eapply only_state_trans, IH, Hrest.
Qed.

Lemma candidates_perm (m : gmap PathBuf CachedCleanFile) : sort_by_z (fun e => last_access e.2) (btree_entries m) ≡ₚ map_to_list m.
Proof. rewrite sort_by_z_perm. apply merge_sort_Permutation. Qed.

(** Collecting the cache leaves it within its policy, in bytes and in files, and only settled
    entries in it: none under a path still to be written back or under a deleted one.  It drops no
    more than it must: when the settled entries fit they all stay, and otherwise those dropped were
    used no later than any that stay, and with the last of them the limits would be exceeded. *)
Theorem gc_keeps_recent s s' r :
  sizes_ok (cache s) -> (0 <= max_clean_file_bytes (cache_policy s))%Z -> gc_clean_cache s = (s', r) ->
  exists dropped kept,
    map_to_list (settled_cache s) ≡ₚ dropped ++ kept /\ map_to_list (cache s') ≡ₚ kept /\
    fits (cache_policy s) (clean_cache_bytes (cache s')) (base.size (cache s')) = true /\
    (forall d k, d ∈ dropped -> k ∈ kept -> (last_access d.2 <= last_access k.2)%Z) /\
    (forall ds d, dropped = ds ++ [d] -> fits (cache_policy s) (sum_sizes (d :: kept)) (length (d :: kept)) = false).
Proof.
  intros Hsizes Hmax. unfold gc_clean_cache. set (kept := settled_cache s). set (l := sort_by_z _ _).
  assert (l ≡ₚ map_to_list kept) as Hl by apply candidates_perm.
  assert (Forall (fun e : Entry => (0 <= cached_size e.2)%Z) l) as Hnn.
  { rewrite Forall_forall. intros [p e] Hin. rewrite Hl, elem_of_map_to_list in Hin.
    apply map_lookup_filter_Some in Hin as [Hin _]. by apply (Hsizes p). }
  destruct (evict_candidates_take (cache_policy s) l Hmax Hnn) as (k & Hev & Hfit & Hmin).
  assert (clean_cache_bytes kept = sum_sizes l) as -> by (symmetry; by apply sum_sizes_perm).
  assert (base.size kept = length l) as -> by (by rewrite Hl, length_map_to_list).
  rewrite Hev. intros Hrun. apply evict_all_only in Hrun. rewrite Hrun. cbn [cache set_state set_cache].
  pose proof (delete_first kept l k Hl) as Hrest. exists (take k l), (drop k l). split_and!.
  - by rewrite take_drop.
  - done.
  - rewrite <- Hfit. f_equal; [by apply sum_sizes_perm|by rewrite <- length_map_to_list, Hrest].
  - intros d e Hd He. pose proof (sort_by_z_ordered (fun e : Entry => last_access e.2) (btree_entries kept)) as Hs. fold l in Hs.
    rewrite <- (take_drop k l) in Hs. apply StronglySorted_app in Hs as (Hs & _). by apply Hs.
  - intros ds d Hds. assert (d :: drop k l = drop (length ds) l) as ->.
    { rewrite <- (take_drop k l) at 2. rewrite Hds, <- app_assoc. by rewrite drop_app_length. }
    apply Hmin. assert (length (take k l) = length ds + 1) as Hlen by (rewrite Hds, length_app; cbn; lia).
    rewrite length_take in Hlen. lia.
Qed.
End Cache.

(** * An object-store mount as a map of files

    The laws of the filesystem in memory and of the store, and the invariant under
    which the files kept in memory, the queue of write-backs, the deleted paths and
    the store together are one map from paths to contents. *)

(** ** Laws *)

(** What is in the filesystem in memory. *)
Class LocalView (L : Type) := { local_file : L -> PathBuf -> option string; local_dir : L -> PathBuf -> bool }.

(** [bashkit::InMemoryFs]: reading changes nothing; writing a file changes that file or fails and
    changes nothing; making directories makes those on the path; a file can be removed. *)
Class LocalLaws (L : Type) `{FileSystem L} `{LocalView L} := {
  exists_local p l : exists_path p l = (l, Ok (bool_decide (is_Some (local_file l p)) || local_dir l p));
  read_local p l : fst (read_file p l) = l /\ forall c, local_file l p = Some c -> snd (read_file p l) = Ok c;
  stat_local p l : fst (stat p l) = l /\
    forall c, local_file l p = Some c -> exists m, snd (stat p l) = Ok m /\ file_type m = File;
  write_local p c l l' r : write_file p c l = (l', r) ->
    (forall q, local_file l' q = if is_ok r && bool_decide (q = p) then Some c else local_file l q) /\
    (forall q, local_dir l' q = local_dir l q);
  mkdir_local p l l' r : mkdir p true l = (l', r) ->
    (forall q, local_file l' q = local_file l q) /\
    (forall q, local_dir l' q = true -> local_dir l q = true \/ path_starts_with p q = true);
  remove_local p recursive l c : local_file l p = Some c -> exists l', remove p recursive l = (l', Ok tt) /\
    (forall q, local_file l' q = if bool_decide (q = p) then None else local_file l q) /\
    (forall q, local_dir l' q = local_dir l q);
}.

(** What is in the store. *)
Class StoreView (Bucket : Type) := { object : Bucket -> string -> option string }.

(** [object_store::ObjectStore]: calls act on one key, a call that fails may or may not have acted,
    and a listing without objects under its prefix is empty. *)
Class StoreLaws (Bucket : Type) `{ObjectStore Bucket} `{StoreView Bucket} := {
  put_object k c b b' r : put k c b = (b', r) ->
    (forall j, j <> k -> object b' j = object b j) /\
    (is_ok r = true -> object b' k = Some c) /\ (object b' k = object b k \/ object b' k = Some c);
  get_object k b b' r : get k b = (b', r) ->
    (forall j, object b' j = object b j) /\
    match r with Ok c => object b k = Some c | Err (ObjectNotFound _) => object b k = None | Err _ => True end;
  head_of_object k b b' r : head_object k b = (b', r) ->
    (forall j, object b' j = object b j) /\
    match r with Ok _ => is_Some (object b k) | Err (ObjectNotFound _) => object b k = None | Err _ => True end;
  delete_of_object k b b' r : delete_object k b = (b', r) ->
    (forall j, j <> k -> object b' j = object b j) /\
    match r with Ok _ | Err (ObjectNotFound _) => object b' k = None | Err _ => object b' k = object b k \/ object b' k = None end;
  list_of_objects prefix b b' r : list_with_delimiter (Some prefix) b = (b', r) ->
    (forall j, object b' j = object b j) /\
    ((forall j, is_Some (object b j) -> starts_with (prefix +:+ "/") j = false) ->
     match r with Ok listed => objects listed = [] /\ common_prefixes listed = [] | Err _ => True end);
}.

Section Files.
Context `{PathNormalizerLaws} `{ObjectPaths} {Bucket : Type} `{StoreLaws Bucket} {L : Type} `{LocalLaws L}.
Variable now : Z.
Notation World := (ManagedObjectStoreFs (Bucket := Bucket) (L := L)).
Implicit Types (s : World) (p q : PathBuf).

(** ** Paths *)

Definition file_key s p : string := object_path (key_for_file p s).
Definition marker_key s p : string := object_path (key_for_dir_marker p s).
Definition dir_key s p : option string := object_prefix_path (key_for_dir_prefix p s).

(** No object under a key is part of the directory [p]. *)
Definition outside s p (key : string) : Prop :=
  key <> marker_key s p /\ forall prefix, dir_key s p = Some prefix -> starts_with (prefix +:+ "/") key = false.

(** The paths of files: normal, none above another, with keys of their own. *)
Record file_set s (ps : list PathBuf) : Prop := {
  files_normal p : p ∈ ps -> normal p;
  files_below p : p ∈ ps -> p <> [RootDir] /\ dir_key s p <> None;
  files_apart p q : p ∈ ps -> q ∈ ps -> path_starts_with p q = true -> p = q;
  files_keys p q : p ∈ ps -> q ∈ ps -> file_key s p = file_key s q -> p = q;
  files_outside p q : p ∈ ps -> q ∈ ps -> outside s p (file_key s q);
}.

(** ** The view *)

(** The content of a file: what is in memory, else what the store has, unless it was deleted. *)
Definition view s p : option string :=
  match local_file (state s) p with
  | Some c => Some c
  | None => if is_deleted p s then None else object (store s) (file_key s p)
  end.

(** The last queued operation on a file: [Some true] for a put, [Some false] for a deletion. *)
Definition pending_step p (acc : option bool) (x : QueuedObjectStoreWriteback) : option bool :=
  match op x with
  | PutFile q => if bool_decide (q = p) then Some true else acc
  | DeleteFile q => if bool_decide (q = p) then Some false else acc
  | _ => acc
  end.
Definition pending_of (ops : list QueuedObjectStoreWriteback) p : option bool := fold_left (pending_step p) ops None.

Context (ps : list PathBuf).

Record files_inv s : Prop := {
  inv_files : file_set s ps;
  inv_deleted p : p ∈ deleted s -> p ∈ ps;
  inv_dirty x : x ∈ dirty s -> exists p, p ∈ ps /\ (op x = PutFile p \/ op x = DeleteFile p);
  inv_dirs p : p ∈ ps -> local_dir (state s) p = false;
  inv_cache p e : cache s !! p = Some e -> p ∈ ps;
  inv_outside p j : p ∈ ps -> is_Some (object (store s) j) -> outside s p j;
  inv_clean p : p ∈ ps -> pending_of (dirty s) p = None -> object (store s) (file_key s p) = view s p;
  inv_pending p b : p ∈ ps -> pending_of (dirty s) p = Some b ->
    bool_decide (is_Some (local_file (state s) p)) = b /\ (b = false -> p ∈ deleted s);
}.

(** [s'] shows the same files, and nothing was queued or deleted. *)
Record quiet s s' : Prop := {
  quiet_prefix : key_prefix s' = key_prefix s;
  quiet_policy : cache_policy s' = cache_policy s;
  quiet_dirty : dirty s' = dirty s;
  quiet_deleted : deleted s' = deleted s;
  quiet_objects j : object (store s') j = object (store s) j;
  quiet_dirs p : p ∈ ps -> local_dir (state s') p = false;
  quiet_cache p e : cache s' !! p = Some e -> p ∈ ps;
  quiet_view p : p ∈ ps -> view s' p = view s p;
  quiet_pending p : p ∈ ps -> pending_of (dirty s) p <> None -> local_file (state s') p = local_file (state s) p;
}.

Lemma keys_same s s' p : key_prefix s' = key_prefix s ->
  file_key s' p = file_key s p /\ marker_key s' p = marker_key s p /\ dir_key s' p = dir_key s p.
Proof. intros Hk. unfold file_key, marker_key, dir_key, key_for_file, key_for_dir_marker, key_for_dir_prefix. by rewrite Hk. Qed.

Lemma outside_same s s' p j : key_prefix s' = key_prefix s -> outside s p j -> outside s' p j.
Proof. intros Hk. destruct (keys_same s s' p Hk) as (_ & Hm & Hd). unfold outside. by rewrite Hm, Hd. Qed.

Lemma file_set_same s s' : key_prefix s' = key_prefix s -> file_set s ps -> file_set s' ps.
Proof.
  intros Hk [F1 F2 F3 F4 F5]. split; try done.
  - intros p Hp. destruct (keys_same s s' p Hk) as (_ & _ & ->). by apply F2.
  - intros p q Hp Hq. destruct (keys_same s s' p Hk) as (-> & _), (keys_same s s' q Hk) as (-> & _). by apply F4.
  - intros p q Hp Hq. destruct (keys_same s s' q Hk) as (-> & _). eapply outside_same, F5; done.
Qed.

Lemma quiet_refl s : files_inv s -> quiet s s.
Proof. intros []. by split. Qed.

Lemma quiet_trans s1 s2 s3 : quiet s1 s2 -> quiet s2 s3 -> quiet s1 s3.
Proof.
  intros [P1 Y1 D1 E1 O1 R1 C1 V1 N1] [P2 Y2 D2 E2 O2 R2 C2 V2 N2].
  split; try congruence; try done.
  - intros p Hp. by rewrite V2, V1.
  - intros p Hp Hn. rewrite N2, N1; [done..|]. by rewrite D1.
Qed.

Lemma quiet_inv s s' : files_inv s -> quiet s s' -> files_inv s'.
Proof.
  intros [F D Q R C O N P] [P1 Y1 D1 E1 O1 R1 C1 V1 N1]. split; try done.
  - by eapply file_set_same.
  - intros p. rewrite E1. apply D.
  - intros x. rewrite D1. apply Q.
  - intros p j Hp. rewrite O1. intros Hj. eapply outside_same, O; done.
  - intros p Hp. rewrite D1, O1, V1 by done. destruct (keys_same s s' p P1) as (-> & _). by apply N.
  - intros p b Hp. rewrite D1, E1. intros Hb. rewrite N1 by (done || congruence). by apply P.
Qed.

(** ** Deletions and write-backs above a file *)

Lemma path_starts_with_refl p : path_starts_with p p = true.
Proof. apply path_starts_with_prefix. exists []. by rewrite app_nil_r. Qed.

Lemma dirty_above_files s d p : file_set s ps -> (forall q, q ∈ d -> q ∈ ps) -> p ∈ ps -> dirty_above d p = bool_decide (p ∈ d).
Proof.
  intros F Hd Hp. unfold dirty_above. apply eq_true_iff_eq. rewrite existsb_exists, bool_decide_eq_true. split.
  - intros (q & Hq & Hpre). apply list_elem_of_In in Hq. by rewrite (files_apart _ _ F p q Hp (Hd q Hq) Hpre).
  - intros Hin. exists p. split; [by apply list_elem_of_In|apply path_starts_with_refl].
Qed.

Lemma is_deleted_files s p : files_inv s -> p ∈ ps -> is_deleted p s = bool_decide (p ∈ deleted s).
Proof.
  intros Hs Hp. unfold is_deleted. rewrite normalize_vfs_done by (by eapply files_normal, Hp; apply inv_files).
  rewrite (dirty_above_files s); [|by apply inv_files|intros q Hq; apply (inv_deleted s Hs); set_solver|done].
  apply bool_decide_ext. set_solver.
Qed.

Lemma pending_of_app ops x p : pending_of (ops ++ [x]) p = pending_step p (pending_of ops p) x.
Proof. unfold pending_of. by rewrite fold_left_app. Qed.

Lemma pending_step_none p acc x : pending_step p acc x = None <-> acc = None /\ op x <> PutFile p /\ op x <> DeleteFile p.
Proof.
  unfold pending_step. destruct (op x) as [q|q|q|q]; try case_bool_decide as Hq; (split; [|intros (? & ? & ?); congruence]);
    intros Hacc; try discriminate Hacc; split_and!; congruence.
Qed.

Lemma pending_of_none ops p :
  pending_of ops p = None <-> forall x, x ∈ ops -> op x <> PutFile p /\ op x <> DeleteFile p.
Proof.
  induction ops as [|x ops IH] using rev_ind; [split; [intros _ x Hx; inversion Hx|done]|].
  rewrite pending_of_app, pending_step_none, IH. setoid_rewrite elem_of_app. setoid_rewrite list_elem_of_singleton. split.
  - intros [Hops Hx] y [Hy| ->]; [by apply Hops|done].
  - intros Hall. split; [intros y Hy; apply Hall; by left|apply Hall; by right].
Qed.

Lemma dirty_paths_files s p : files_inv s -> p ∈ ps -> dirty_above (dirty_paths s) p = bool_decide (pending_of (dirty s) p <> None).
Proof.
  intros Hs Hp. assert (forall x, x ∈ dirty s -> normalize_vfs_path (op_path (op x)) = op_path (op x) /\ op_path (op x) ∈ ps) as Hx.
  { intros x Hx. destruct (inv_dirty s Hs x Hx) as (q & Hq & [-> | ->]); cbn; (split; [|done]);
      apply normalize_vfs_done; by eapply files_normal, Hq; apply inv_files. }
  rewrite (dirty_above_files s); [|by apply inv_files| |done].
  - apply bool_decide_ext. unfold dirty_paths. rewrite pending_of_none, list_elem_of_In, in_map_iff. split.
    + intros (x & Hxp & Hin) Hno. apply list_elem_of_In in Hin. destruct (Hno x Hin) as [Hn1 Hn2].
      destruct (Hx x Hin) as [Heq _]. rewrite Heq in Hxp. destruct (inv_dirty s Hs x Hin) as (q & _ & [Hop|Hop]); rewrite Hop in *; cbn in Hxp; congruence.
    + intros Hno. destruct (decide (Exists (fun x => op_path (op x) = p) (dirty s))) as [Hex|Hne].
      * apply Exists_exists in Hex as (x & Hin & Hxp). exists x. split; [destruct (Hx x Hin) as [-> _]; done|by apply list_elem_of_In].
      * destruct Hno. intros x Hin. split; intros Hop; destruct Hne; apply Exists_exists; exists x; by rewrite Hop.
  - intros q Hq. unfold dirty_paths in Hq. apply list_elem_of_In, in_map_iff in Hq as (x & <- & Hin). apply list_elem_of_In in Hin.
    destruct (Hx x Hin) as [-> ?]. done.
Qed.

(** ** Steps that change no file *)

Lemma view_same s s' p :
  local_file (state s') p = local_file (state s) p -> deleted s' = deleted s -> key_prefix s' = key_prefix s ->
  object (store s') (file_key s p) = object (store s) (file_key s p) -> view s' p = view s p.
Proof.
  intros Hl Hd Hk Ho. unfold view, is_deleted. rewrite Hl, Hd. destruct (keys_same s s' p Hk) as (-> & _). by rewrite Ho.
Qed.

Lemma state_quiet s l' : files_inv s ->
  (forall p, p ∈ ps -> local_file l' p = local_file (state s) p) -> (forall p, p ∈ ps -> local_dir l' p = false) ->
  quiet s (set_state l' s).
Proof.
  intros Hs Hf Hd. split; try done; [apply (inv_cache s Hs)| |].
  - intros p Hp. apply view_same; try done. by apply Hf.
  - intros p Hp _. by apply Hf.
Qed.

Lemma cache_quiet s c clock : files_inv s -> (forall p e, c !! p = Some e -> p ∈ ps) -> quiet s (set_cache c clock s).
Proof. intros Hs Hc. split; try done. apply (inv_dirs s Hs). Qed.

Lemma store_quiet s b : files_inv s -> (forall j, object b j = object (store s) j) -> quiet s (set_store b s).
Proof.
  intros Hs Ho. split; try done; [apply (inv_dirs s Hs)|apply (inv_cache s Hs)|]. intros p Hp. by apply view_same.
Qed.

Lemma set_state_same s : set_state (state s) s = s.
Proof. by destruct s. Qed.

Lemma state_exists_file s p : files_inv s -> p ∈ ps -> state_exists p s = (s, Ok (bool_decide (is_Some (local_file (state s) p)))).
Proof. intros Hs Hp. unfold state_exists. rewrite exists_local, (inv_dirs s Hs p Hp), orb_false_r. by rewrite set_state_same. Qed.

Lemma parent_app p parent : path_parent p = Some parent -> exists c, p = parent ++ [c].
Proof.
  unfold path_parent. destruct p as [|c p] using rev_ind; [done|]. rewrite last_snoc, removelast_last.
  destruct c; intros [= <-]; by eexists.
Qed.

Lemma ensure_parent_local p l l' r : ensure_parent_dirs p l = (l', r) ->
  (forall q, local_file l' q = local_file l q) /\
  (forall q, local_dir l' q = true -> local_dir l q = true \/ (path_starts_with p q = true /\ length q < length p)).
Proof.
  unfold ensure_parent_dirs. destruct (path_parent p) as [[|c parent]|] eqn:Hpar; try (intros [= <- _]; split; [done|by left]).
  unfold st_bind. rewrite exists_local. destruct (_ || _); [intros [= <- _]; split; [done|by left]|].
  intros Hm. apply mkdir_local in Hm as [Hf Hd]. split; [done|]. intros q Hq. destruct (Hd q Hq) as [|Hpre]; [by left|right].
  apply parent_app in Hpar as [d ->]. apply path_starts_with_prefix in Hpre as [rest Hrest]. rewrite Hrest. split.
  - apply path_starts_with_prefix. exists (rest ++ [d]). by rewrite app_assoc.
  - rewrite !length_app. cbn. lia.
Qed.

Lemma ensure_parent_quiet s p s' r : files_inv s -> p ∈ ps -> on_state (ensure_parent_dirs p) s = (s', r) -> quiet s s'.
Proof.
  intros Hs Hp. unfold on_state. destruct (ensure_parent_dirs p (state s)) as [l x] eqn:He. intros [= <- _].
  apply ensure_parent_local in He as [Hf Hd]. apply state_quiet; [done|by intros q _|]. intros q Hq.
  destruct (local_dir l q) eqn:Hl; [|done]. apply Hd in Hl as [Hl|[Hpre Hlen]]; [by rewrite (inv_dirs s Hs q Hq) in Hl|].
  rewrite (files_apart _ _ (inv_files s Hs) p q Hp Hq Hpre) in Hlen. lia.
Qed.

(** ** Eviction *)

Definition evictable s p : Prop := p ∈ ps /\ pending_of (dirty s) p = None /\ p ∉ deleted s.

(** A clean file leaves memory: the store has it. *)
Lemma remove_clean_quiet s p c : files_inv s -> evictable s p -> local_file (state s) p = Some c ->
  exists s', on_state (remove p false) s = (s', Ok tt) /\ quiet s s' /\ only_state s s'.
Proof.
  intros Hs (Hp & Hclean & Hdel) Hc. destruct (remove_local p false (state s) c Hc) as (l & Hrm & Hf & Hd).
  unfold on_state. rewrite Hrm. eexists. split; [done|]. split; [|done]. split; try done.
  - intros q Hq. cbn. rewrite Hd. by apply (inv_dirs s Hs).
  - apply (inv_cache s Hs).
  - intros q Hq. destruct (decide (q = p)) as [->|Hne].
    + rewrite <- (inv_clean s Hs p Hp Hclean). unfold view. cbn [state set_state]. rewrite Hf, bool_decide_eq_true_2 by done.
      change (is_deleted p (set_state l s)) with (is_deleted p s). rewrite is_deleted_files by done. by rewrite bool_decide_eq_false_2.
    + apply view_same; try done. cbn. by rewrite Hf, bool_decide_eq_false_2.
  - intros q Hq Hpend. cbn. rewrite Hf, bool_decide_eq_false_2; [done|]. intros ->. by rewrite Hclean in Hpend.
Qed.

Lemma evict_all_quiet qs s : files_inv s -> (forall p, p ∈ qs -> evictable s p) ->
  exists s', evict_all qs s = (s', Ok tt) /\ quiet s s'.
Proof.
  revert s. induction qs as [|p qs IH]; intros s Hs Hqs; cbn [evict_all].
  - exists s. split; [done|by apply quiet_refl].
  - destruct (Hqs p) as (Hp & Hclean & Hdel); [set_solver|]. unfold st_bind at 1. rewrite state_exists_file by done.
    assert (exists s1, (if bool_decide (is_Some (local_file (state s) p)) then on_state (remove p false) else st_ret tt) s = (s1, Ok tt) /\ quiet s s1)
      as (s1 & Hone & Hq1).
    { case_bool_decide as Hex; [|exists s; split; [done|by apply quiet_refl]]. destruct Hex as [c Hc].
      destruct (remove_clean_quiet s p c Hs) as (s1 & ? & ? & _); [done|done|by exists s1]. }
    unfold st_bind. rewrite Hone. destruct (IH s1) as (s2 & Hrest & Hq2); [by eapply quiet_inv| |].
    + intros q Hq. unfold evictable. rewrite (quiet_dirty _ _ Hq1), (quiet_deleted _ _ Hq1). apply Hqs. set_solver.
    + exists s2. split; [done|by eapply quiet_trans].
Qed.

Lemma evict_candidates_in policy total entries l p : p ∈ evict_candidates policy total entries l -> p ∈ l.*1.
Proof.
  revert total entries. induction l as [|[q e] l IH]; intros total entries; cbn [evict_candidates]; [intros Hin; inversion Hin|].
  destruct (_ && _); [intros Hin; inversion Hin|]. intros [->|Hin]%elem_of_cons; [left|]. right. by eapply IH.
Qed.

Lemma gc_quiet s : files_inv s -> exists s', gc_clean_cache s = (s', Ok tt) /\ quiet s s'.
Proof.
  intros Hs. unfold gc_clean_cache. set (ev := evict_candidates _ _ _ _).
  assert (forall p, p ∈ ev -> evictable s p) as Hev.
  { intros p Hp. apply evict_candidates_in in Hp. apply list_elem_of_fmap in Hp as ([q e] & -> & Hin). cbn.
    rewrite candidates_perm, elem_of_map_to_list in Hin. apply map_lookup_filter_Some in Hin as [Hin [Hdirty Hdel]]. cbn in Hdirty, Hdel.
    pose proof (inv_cache s Hs q e Hin) as Hq. split_and!; [done| |].
    - rewrite dirty_paths_files in Hdirty by done. apply bool_decide_eq_false in Hdirty. by apply dec_stable in Hdirty.
    - rewrite (dirty_above_files s) in Hdel; [|by apply inv_files|intros x Hx; apply (inv_deleted s Hs); set_solver|done].
      apply bool_decide_eq_false in Hdel. set_solver. }
  assert (quiet s (set_cache (foldr delete (settled_cache s) ev) (cache_clock s) s)) as Hq.
  { apply cache_quiet; [done|]. intros p e. rewrite lookup_foldr_delete. case_decide; [done|]. intros Hin.
    apply map_lookup_filter_Some in Hin as [Hin _]. by apply (inv_cache s Hs p e). }
  destruct (evict_all_quiet ev _ (quiet_inv _ _ Hs Hq)) as (s' & Hrun & Hq'); [intros p Hp; by apply Hev|].
  exists s'. split; [done|by eapply quiet_trans].
Qed.
End Files.
