(* ===== verification/ObjectOps.v ===== *)
(** * The operations of an object-store mount on its files

    Each operation either changes no file or changes the content of one, as a map
    from paths to contents does; so does every run of them, through flushes and
    restarts. *)

From stdpp Require Import base gmap sets list strings pretty sorting.
From Stdlib Require Import ZArith Lia.
From S2P Require Import Prelude Vfs ObjectFs ObjectFacts.

Local Open Scope verlet_scope.
Local Open Scope string_scope.
Local Open Scope list_scope.

Section Operations.
Context `{PathNormalizerLaws} `{ObjectPaths} {Bucket : Type} `{StoreLaws Bucket} {L : Type} `{LocalLaws L}.
Variable now : Z.
Context (ps : list PathBuf).
Notation World := (ManagedObjectStoreFs (Bucket := Bucket) (L := L)).
Notation Call A := (World -> World * VfsResult A).
Implicit Types (s : World) (p q : PathBuf).

Lemma files_normalized s p : files_inv ps s -> p ∈ ps -> normalize_vfs_path p = p.
Proof. intros Hs Hp. apply normalize_vfs_done. by eapply files_normal, Hp; apply inv_files. Qed.

(** Quiet calls in sequence. *)
Lemma quiet_then {A B} (m : Call A) (k : A -> Call B) s s' r :
  files_inv ps s ->
  (forall s1 x, m s = (s1, x) -> quiet ps s s1) ->
  (forall a s1 s2 x, m s = (s1, Ok a) -> files_inv ps s1 -> quiet ps s s1 -> k a s1 = (s2, x) -> quiet ps s1 s2) ->
  st_bind m k s = (s', r) -> quiet ps s s'.
Proof.
  intros Hs Hm Hk. unfold st_bind. destruct (m s) as [s1 [a|e]] eqn:Hrun; specialize (Hm s1 _ eq_refl);
    [|by intros [= <- _]]. intros Hrest. eapply quiet_trans, Hk; try done. by eapply quiet_inv.
Qed.

Lemma update_cache_quiet s (f : World -> World) s' r :
  files_inv ps s -> (exists c clock, f s = set_cache c clock s /\ forall p e, c !! p = Some e -> p ∈ ps) ->
  update f s = (s', r) -> quiet ps s s'.
Proof. intros Hs (c & clock & Hf & Hc). unfold update. rewrite Hf. intros [= <- _]. by apply cache_quiet. Qed.

Lemma untrack_cache s p : files_inv ps s ->
  exists c clock, untrack_clean_cached p s = set_cache c clock s /\ forall q e, c !! q = Some e -> q ∈ ps.
Proof.
  intros Hs. eexists _, _. split; [done|]. intros q e Hq. apply map_lookup_filter_Some in Hq as [Hq _]. by apply (inv_cache ps s Hs q e).
Qed.

Lemma touch_cache s p : files_inv ps s ->
  exists c clock, touch_clean_cached p s = set_cache c clock s /\ forall q e, c !! q = Some e -> q ∈ ps.
Proof.
  intros Hs. eexists _, _. split; [done|]. intros q e Hq. apply lookup_alter_Some in Hq as [(_ & x & Hx & _)|[_ Hq]];
    by eapply (inv_cache ps s Hs).
Qed.

Lemma mark_cache s p n : files_inv ps s -> p ∈ ps ->
  exists c clock, mark_clean_cached p n s = set_cache c clock s /\ forall q e, c !! q = Some e -> q ∈ ps.
Proof.
  intros Hs Hp. unfold mark_clean_cached. rewrite (files_normalized s p) by done. destruct (should_track _ _); eexists _, _; (split; [done|]); intros q e Hq.
  - apply lookup_insert_Some in Hq as [[<- _]|[_ Hq]]; [done|by apply (inv_cache ps s Hs q e)].
  - apply lookup_delete_Some in Hq as [_ Hq]. by apply (inv_cache ps s Hs q e).
Qed.

Lemma on_store_quiet {A} (f : Bucket -> Bucket * result A StoreError) s s' r :
  files_inv ps s -> (forall b x, f (store s) = (b, x) -> forall j, object b j = object (store s) j) ->
  on_store f s = (s', r) -> quiet ps s s'.
Proof.
  intros Hs Hf. unfold on_store. destruct (f (store s)) as [b x] eqn:Hrun. intros [= <- _]. apply store_quiet; [done|]. by eapply Hf.
Qed.

(** ** Reading *)

(** A file that is neither in memory nor deleted is settled. *)
Lemma absent_pending s p : files_inv ps s -> p ∈ ps -> local_file (state s) p = None -> p ∉ deleted s -> pending_of (dirty s) p = None.
Proof.
  intros Hs Hp Hl Hd. destruct (pending_of (dirty s) p) as [b|] eqn:Hb; [|done]. destruct (inv_pending ps s Hs p b Hp Hb) as [Hbool Hdel].
  rewrite Hl in Hbool. destruct b; [by apply bool_decide_eq_true in Hbool as [? ?]|]. by destruct (Hd (Hdel eq_refl)).
Qed.

Lemma absent_view s p : files_inv ps s -> p ∈ ps -> local_file (state s) p = None -> p ∉ deleted s ->
  view s p = object (store s) (file_key s p).
Proof. intros Hs Hp Hl Hd. unfold view. rewrite Hl, (is_deleted_files ps) by done. by rewrite bool_decide_eq_false_2. Qed.

Lemma write_hydrated_quiet s p c s' r :
  files_inv ps s -> p ∈ ps -> local_file (state s) p = None -> p ∉ deleted s -> view s p = Some c ->
  on_state (write_file p c) s = (s', r) -> quiet ps s s'.
Proof.
  intros Hs Hp Hl Hd Hv. unfold on_state. destruct (write_file p c (state s)) as [l x] eqn:Hw. intros [= <- _].
  apply write_local in Hw as [Hf Hdir]. pose proof (absent_pending s p Hs Hp Hl Hd) as Hpend. split; try done.
  - intros q Hq. cbn. rewrite Hdir. by apply (inv_dirs ps s Hs).
  - apply (inv_cache ps s Hs).
  - intros q Hq. destruct (decide (q = p)) as [->|Hne].
    + unfold view at 1. cbn [state set_state]. rewrite Hf, (bool_decide_eq_true_2 (p = p)), andb_true_r by done. destruct (is_ok x); [done|].
      change (is_deleted p (set_state l s)) with (is_deleted p s). by rewrite Hl, (is_deleted_files ps), bool_decide_eq_false_2, absent_view.
    + apply view_same; try done. cbn. by rewrite Hf, (bool_decide_eq_false_2 (q = p)), andb_false_r.
  - intros q Hq Hn. cbn. rewrite Hf, (bool_decide_eq_false_2 (q = p)), andb_false_r; [done|]. intros ->. by rewrite Hpend in Hn.
Qed.

Lemma gc_call_quiet s s' r : files_inv ps s -> gc_clean_cache s = (s', r) -> quiet ps s s' /\ r = Ok tt.
Proof. intros Hs Hrun. destruct (gc_quiet ps s Hs) as (s1 & Hgc & Hq). rewrite Hgc in Hrun. by injection Hrun as <- <-. Qed.

Lemma keep_hydrated_quiet s p c s' r :
  files_inv ps s -> p ∈ ps -> local_file (state s) p = None -> p ∉ deleted s -> view s p = Some c ->
  keep_hydrated p c s = (s', r) -> quiet ps s s'.
Proof.
  intros Hs Hp Hl Hd Hv. unfold keep_hydrated. destruct (should_track _ _).
  - apply quiet_then; [done|intros s1 x Hrun; by eapply ensure_parent_quiet, Hrun|]. intros [] s1 s2 x Hens Hs1 Hq1.
    assert (local_file (state s1) p = None) as Hl1.
    { unfold on_state in Hens. destruct (ensure_parent_dirs p (state s)) as [l y] eqn:He. injection Hens as <- _.
      apply ensure_parent_local in He as [Hf _]. cbn. by rewrite Hf. }
    apply quiet_then; [done|intros s3 y Hrun; eapply write_hydrated_quiet, Hrun; try done|].
    { by rewrite (quiet_deleted _ _ _ Hq1). }
    { by rewrite (quiet_view _ _ _ Hq1). }
    intros [] s3 s4 y _ Hs3 _. apply quiet_then; [done| |].
    + intros s5 z. apply update_cache_quiet; [done|by apply mark_cache].
    + intros [] s5 s6 z _ Hs5 _ Hgc. by apply gc_call_quiet in Hgc as [].
  - apply update_cache_quiet; [done|by apply untrack_cache].
Qed.

Lemma hydrate_quiet s p s' r :
  files_inv ps s -> p ∈ ps -> local_file (state s) p = None -> p ∉ deleted s -> hydrate_file p s = (s', r) ->
  quiet ps s s' /\ forall o, r = Ok o -> view s p = o.
Proof.
  intros Hs Hp Hl Hd. unfold hydrate_file, st_bind at 1, on_store. change (object_path (key_for_file p s)) with (file_key s p).
  destruct (get (file_key s p) (store s)) as [b x] eqn:Hget. apply get_object in Hget as [Hsame Hx].
  pose proof (store_quiet ps s b Hs Hsame) as Hq. pose proof (quiet_inv _ _ _ Hs Hq) as Hs1.
  rewrite <- absent_view in Hx by done. destruct x as [c|[text|text]].
  - intros Hrun. split.
    + eapply quiet_trans; [exact Hq|]. revert Hrun. apply quiet_then; [done| |intros [] s1 s2 x _ Hs2 _ [= <- _]; by apply quiet_refl].
      intros s1 x. apply keep_hydrated_quiet; try done. by rewrite (quiet_view _ _ _ Hq).
    + intros o ->. unfold st_bind, st_ret in Hrun. destruct (keep_hydrated p c _) as [s1 [[]|e]]; [|done]. by injection Hrun as _ <-.
  - intros [= <- <-]. split; [done|]. by intros o [= <-].
  - intros [= <- <-]. by split.
Qed.

Lemma remote_dir_quiet s p s' r :
  files_inv ps s -> p ∈ ps -> remote_dir_exists p s = (s', r) -> quiet ps s s' /\ forall b, r = Ok b -> b = false.
Proof.
  intros Hs Hp. destruct (files_below _ _ (inv_files ps s Hs) p Hp) as [Hroot Hkey]. unfold remote_dir_exists.
  destruct (is_deleted p s); [intros [= <- <-]; split; [by apply quiet_refl|by intros b [= <-]]|].
  rewrite bool_decide_eq_false_2 by done. unfold st_bind at 1, on_store. change (object_path (key_for_dir_marker p s)) with (marker_key s p).
  destruct (head_object (marker_key s p) (store s)) as [b x] eqn:Hhead. apply head_of_object in Hhead as [Hsame Hx].
  pose proof (store_quiet ps s b Hs Hsame) as Hq. pose proof (quiet_inv _ _ _ Hs Hq) as Hs1.
  destruct x as [m|e]; [by destruct (inv_outside ps s Hs p _ Hp Hx)|]. clear Hx.
  change (object_prefix_path (key_for_dir_prefix p s)) with (dir_key s p). unfold st_bind, stored.
  destruct (dir_key s p) as [prefix|] eqn:Hdir; [|done].
  destruct (list_with_delimiter (Some prefix) (store (set_store b s))) as [b' x] eqn:Hlist.
  apply list_of_objects in Hlist as [Hsame' Hx]. pose proof (store_quiet ps _ b' Hs1 Hsame') as Hq'.
  assert (quiet ps s (set_store b' (set_store b s))) as Hqq by by eapply quiet_trans.
  destruct x as [listed|e2]; cbn [map_err].
  - intros [= <- <-]. split; [done|]. intros y [= <-]. destruct Hx as [-> ->]; [|by rewrite !bool_decide_eq_true_2].
    intros j Hj. cbn in Hj. rewrite Hsame in Hj. by apply (inv_outside ps s Hs p j Hp Hj).
  - intros [= <- <-]. by split.
Qed.

(** A call in two parts: the second ran, or the first failed. *)
Lemma bind_cases {A B} (m : Call A) (k : A -> Call B) s s' r :
  st_bind m k s = (s', r) ->
  (exists s1 a, m s = (s1, Ok a) /\ k a s1 = (s', r)) \/ (exists e, m s = (s', Err e) /\ r = Err e).
Proof.
  unfold st_bind. destruct (m s) as [s1 [a|e]]; [intros Hk; left; by exists s1, a|]. intros [= <- <-]. right. by exists e.
Qed.

Lemma bind_exists {B} p (k : bool -> Call B) s :
  files_inv ps s -> p ∈ ps ->
  st_bind (state_exists p) k s = k (bool_decide (is_Some (local_file (state s) p))) s.
Proof. intros Hs Hp. unfold st_bind. by rewrite state_exists_file with (ps := ps). Qed.

(** The cases of a file: in memory, deleted, or as the store has it. *)
Lemma file_cases s p : files_inv ps s -> p ∈ ps ->
  (exists c, local_file (state s) p = Some c /\ view s p = Some c) \/
  (local_file (state s) p = None /\ p ∈ deleted s /\ is_deleted p s = true /\ view s p = None) \/
  (local_file (state s) p = None /\ p ∉ deleted s /\ is_deleted p s = false /\ view s p = object (store s) (file_key s p)).
Proof.
  intros Hs Hp. unfold view. rewrite (is_deleted_files ps) by done. destruct (local_file (state s) p) as [c|]; [left; by exists c|right].
  case_bool_decide; [by left|by right].
Qed.

Lemma head_quiet s p s' r : files_inv ps s -> p ∈ ps -> local_file (state s) p = None -> p ∉ deleted s ->
  on_store (head_object (object_path (key_for_file p s))) s = (s', r) ->
  quiet ps s s' /\ exists x, r = Ok x /\
    match x with Ok _ => is_Some (view s p) | Err (ObjectNotFound _) => view s p = None | Err _ => True end.
Proof.
  intros Hs Hp Hl Hd. unfold on_store. change (object_path (key_for_file p s)) with (file_key s p).
  destruct (head_object (file_key s p) (store s)) as [b x] eqn:Hhead. apply head_of_object in Hhead as [Hsame Hx].
  rewrite <- absent_view in Hx by done. intros [= <- <-]. split; [by apply store_quiet|by exists x].
Qed.

Lemma exists_quiet s p s' r : files_inv ps s -> p ∈ ps -> object_exists p s = (s', r) ->
  quiet ps s s' /\ forall b, r = Ok b -> b = bool_decide (is_Some (view s p)).
Proof.
  intros Hs Hp. unfold object_exists. cbv zeta. rewrite (files_normalized s p), bind_exists by done.
  destruct (file_cases s p Hs Hp) as [(c & -> & ->)|[(-> & _ & Hdel & ->)|(Hl & Hd & Hdel & _)]].
  - intros [= <- <-]. split; [by apply quiet_refl|by intros b [= <-]].
  - cbn. rewrite Hdel. intros [= <- <-]. split; [by apply quiet_refl|by intros b [= <-]].
  - rewrite Hl. cbn. rewrite Hdel. intros [(s1 & file & Hfile & Hrest)|(e & Hfile & ->)]%bind_cases.
    all: unfold remote_file_exists in Hfile; rewrite Hdel in Hfile.
    all: apply bind_cases in Hfile as [(s2 & x & Hhead & Hx)|(e2 & Hhead & He)].
    all: destruct (head_quiet s p _ _ Hs Hp Hl Hd Hhead) as [Hq (y & Hy & Hv)]; try discriminate Hy.
    + injection Hy as <-. destruct x as [m|[t|t]]; [injection Hx as <- <-| injection Hx as <- <-|discriminate Hx].
      * injection Hrest as <- <-. split; [done|]. intros b [= <-]. by rewrite bool_decide_eq_true_2.
      * destruct (remote_dir_quiet s2 p s' r) as [Hq2 Hb]; [by eapply quiet_inv|done..|]. split; [by eapply quiet_trans|].
        intros b Hr. rewrite Hv. by apply Hb.
    + injection Hy as <-. destruct x as [m|[t|t]]; [discriminate Hx|discriminate Hx|]. injection Hx as <- <-. by split.
Qed.

Lemma stat_quiet s p s' r : files_inv ps s -> p ∈ ps -> object_stat now p s = (s', r) ->
  quiet ps s s' /\ forall m, r = Ok m -> file_type m <> Directory /\ is_Some (view s p).
Proof.
  intros Hs Hp. unfold object_stat. cbv zeta. rewrite (files_normalized s p), bind_exists by done.
  destruct (file_cases s p Hs Hp) as [(c & Hl & ->)|[(-> & _ & Hdel & ->)|(Hl & Hd & Hdel & _)]].
  - rewrite Hl. cbn. unfold on_state. destruct (stat_local p (state s)) as [Hsame Hst]. destruct (Hst c Hl) as (m & Hm & Hft).
    destruct (stat p (state s)) as [l x]. cbn in *. subst l x. intros [= <- <-]. rewrite set_state_same. split; [by apply quiet_refl|].
    intros m' [= <-]. split; [congruence|done].
  - cbn. rewrite Hdel. intros [= <- <-]. split; [by apply quiet_refl|done].
  - rewrite Hl. cbn. rewrite Hdel. intros [(s2 & x & Hhead & Hx)|(e2 & Hhead & He)]%bind_cases.
    all: destruct (head_quiet s p _ _ Hs Hp Hl Hd Hhead) as [Hq (y & Hy & Hv)]; try discriminate Hy.
    injection Hy as <-. destruct x as [m|[t|t]].
    + injection Hx as <- <-. split; [done|]. by intros m' [= <-].
    + apply bind_cases in Hx as [(s3 & dir & Hdir & Hx)|(e & Hdir & ->)];
        apply remote_dir_quiet in Hdir as [Hq2 Hb]; try done; try (by eapply quiet_inv).
      * rewrite (Hb dir eq_refl) in Hx. injection Hx as <- <-. split; [by eapply quiet_trans|done].
      * split; [by eapply quiet_trans|done].
    + injection Hx as <- <-. by split.
Qed.

Lemma read_quiet s p s' r : files_inv ps s -> p ∈ ps -> object_read_file p s = (s', r) ->
  quiet ps s s' /\ (forall c, r = Ok c -> view s p = Some c) /\ (is_Some (local_file (state s) p) -> is_ok r = true).
Proof.
  intros Hs Hp. unfold object_read_file. cbv zeta. rewrite (files_normalized s p), bind_exists by done.
  destruct (file_cases s p Hs Hp) as [(c & Hl & Hv)|[(Hl & _ & Hdel & Hv)|(Hl & Hd & Hdel & _)]].
  - rewrite Hl. cbn. unfold st_bind, update, on_state. destruct (touch_cache s p Hs) as (ch & clock & -> & Hch).
    cbn [state set_cache]. destruct (read_local p (state s)) as [Hsame Hrd]. specialize (Hrd c Hl).
    destruct (read_file p (state s)) as [l x]. cbn in *. subst l x. intros [= <- <-]. split_and!; [|by intros ? [= <-]|done].
    change (set_state _ _) with (set_cache ch clock (set_state (state s) s)). rewrite set_state_same. by apply cache_quiet.
  - rewrite Hl. cbn. rewrite Hdel. intros [= <- <-]. split_and!; [by apply quiet_refl|done|by intros [? ?]].
  - rewrite Hl. cbn. rewrite Hdel. intros [(s1 & o & Hhyd & Hx)|(e & Hhyd & ->)]%bind_cases.
    all: destruct (hydrate_quiet s p _ _ Hs Hp Hl Hd Hhyd) as [Hq Ho].
    + specialize (Ho o eq_refl). destruct o as [c|]; [injection Hx as <- <-; split_and!; [done|by intros ? [= <-]|done]|].
      apply bind_cases in Hx as [(s3 & dir & Hdir & Hx)|(e & Hdir & ->)];
        apply remote_dir_quiet in Hdir as [Hq2 Hb]; try done; try (by eapply quiet_inv).
      * rewrite (Hb dir eq_refl) in Hx. injection Hx as <- <-. split_and!; [by eapply quiet_trans|done|by intros [? ?]].
      * split_and!; [by eapply quiet_trans|done|by intros [? ?]].
    + split_and!; [done|done|by intros [? ?]].
Qed.

(** ** Changing a file *)

(** The content of [p] is now [o], and no other file changed. *)
Record becomes s s' p (o : option string) : Prop := {
  becomes_inv : files_inv ps s';
  becomes_prefix : key_prefix s' = key_prefix s;
  becomes_view q : q ∈ ps -> view s' q = if bool_decide (q = p) then o else view s q;
}.

Lemma is_deleted_set s p : file_set s ps -> (forall q, q ∈ deleted s -> q ∈ ps) -> p ∈ ps -> is_deleted p s = bool_decide (p ∈ deleted s).
Proof.
  intros Hf Hd Hp. unfold is_deleted. rewrite normalize_vfs_done by (by eapply files_normal).
  rewrite (dirty_above_files ps s); [apply bool_decide_ext; set_solver|done|intros q Hq; apply Hd; set_solver|done].
Qed.

Lemma queue_becomes s s1 p o x :
  files_inv ps s -> p ∈ ps ->
  (forall q, local_file (state s1) q = if bool_decide (q = p) then o else local_file (state s) q) ->
  (forall q, local_dir (state s1) q = local_dir (state s) q) ->
  store s1 = store s -> key_prefix s1 = key_prefix s -> (forall q e, cache s1 !! q = Some e -> q ∈ ps) ->
  dirty s1 = dirty s ++ [x] -> op x = match o with Some _ => PutFile p | None => DeleteFile p end ->
  (forall q, q ∈ deleted s1 <-> if bool_decide (q = p) then o = None else q ∈ deleted s) ->
  becomes s s1 p o.
Proof.
  intros Hs Hp Hfile Hdir Hstore Hkp Hcache Hdirty Hop Hdel.
  pose proof (file_set_same ps s s1 Hkp (inv_files ps s Hs)) as Hset.
  assert (forall q, q ∈ deleted s1 -> q ∈ ps) as Hsub.
  { intros q Hq. apply Hdel in Hq. case_bool_decide as Hqp; [congruence|by apply (inv_deleted ps s Hs)]. }
  assert (forall q, q ∈ ps -> view s1 q = if bool_decide (q = p) then o else view s q) as Hview.
  { intros q Hq. unfold view. rewrite is_deleted_set, (is_deleted_files ps), Hfile, Hstore by done.
    destruct (keys_same s s1 q Hkp) as (-> & _). specialize (Hdel q). case_bool_decide as Hqp.
    - destruct o; [done|]. by rewrite bool_decide_eq_true_2 by (by apply Hdel).
    - by rewrite (bool_decide_ext _ _ Hdel). }
  assert (forall q, pending_of (dirty s1) q = if bool_decide (q = p) then Some (bool_decide (is_Some o)) else pending_of (dirty s) q) as Hpend.
  { intros q. rewrite Hdirty, pending_of_app. unfold pending_step. rewrite Hop.
    destruct o; repeat case_bool_decide; try congruence; try done; match goal with Hn : ~ is_Some _ |- _ => by destruct Hn | Hn : is_Some None |- _ => by destruct Hn end. }
  split; [|done|done]. split; try done.
  - intros y Hy. rewrite Hdirty in Hy. apply elem_of_app in Hy as [Hy|Hy]; [by apply (inv_dirty ps s Hs)|].
    apply list_elem_of_singleton in Hy as ->. exists p. split; [done|]. rewrite Hop. destruct o; [by left|by right].
  - intros q Hq. rewrite Hdir. by apply (inv_dirs ps s Hs).
  - intros q j Hq. rewrite Hstore. intros Hj. eapply outside_same, (inv_outside ps s Hs q j Hq Hj). done.
  - intros q Hq. rewrite Hpend, Hview, Hstore by done. destruct (keys_same s s1 q Hkp) as (-> & _).
    case (bool_decide_reflect (q = p)); [done|]. intros _. by apply (inv_clean ps s Hs).
  - intros q b Hq. rewrite Hpend, Hfile. specialize (Hdel q). destruct (bool_decide (q = p)).
    + intros [= <-]. split; [done|]. intros Hno. apply bool_decide_eq_false in Hno. apply Hdel. destruct o; [by destruct Hno|done].
    + intros Hb. destruct (inv_pending ps s Hs q b Hq Hb) as [Hl Hd]. split; [done|]. intros Hf. apply Hdel. by apply Hd.
Qed.

Lemma becomes_quiet s s1 s2 p o : becomes s s1 p o -> quiet ps s1 s2 -> becomes s s2 p o.
Proof.
  intros [Hi Hk Hv] Hq. split; [by eapply quiet_inv|by rewrite (quiet_prefix _ _ _ Hq)|]. intros q Hin. by rewrite (quiet_view _ _ _ Hq), Hv.
Qed.
Lemma quiet_becomes s s1 s2 p o : quiet ps s s1 -> becomes s1 s2 p o -> becomes s s2 p o.
Proof.
  intros Hq [Hi Hk Hv]. split; [done|by rewrite Hk, (quiet_prefix _ _ _ Hq)|]. intros q Hin. rewrite Hv by done.
  by rewrite (quiet_view _ _ _ Hq).
Qed.

Lemma write_becomes s p c s' r : files_inv ps s -> p ∈ ps -> object_write_file p c s = (s', r) ->
  match r with Ok _ => becomes s s' p (Some c) | Err _ => quiet ps s s' end.
Proof.
  intros Hs Hp. unfold object_write_file. cbv zeta. rewrite (files_normalized s p) by done.
  intros [(s1 & [] & Hens & Hrest)|(e & Hens & ->)]%bind_cases; apply (ensure_parent_quiet ps) in Hens; try done.
  pose proof (quiet_inv _ _ _ Hs Hens) as Hs1.
  apply bind_cases in Hrest as [(s2 & [] & Hw & Hrest)|(e & Hw & ->)];
    unfold on_state in Hw; destruct (write_file p c (state s1)) as [l x] eqn:Hwr; injection Hw as <- ->;
    apply write_local in Hwr as [Hf Hd]; cbn [is_ok andb] in Hf.
  - apply bind_cases in Hrest as [(s3 & [] & Hup & Hgc)|(e & Hup & ->)]; [|done]. injection Hup as <-.
    match type of Hgc with gc_clean_cache ?w = _ => assert (becomes s1 w p (Some c)) as Hb end.
    { eapply queue_becomes; try done; cbn; unfold unmark_deleted, mark_deleted; cbn; rewrite ?(files_normalized s1 p) by done.
      - intros q e Hq. apply map_lookup_filter_Some in Hq as [Hq _]. by apply (inv_cache ps s1 Hs1 q e).
      - intros q. case_bool_decide; set_solver. }
    apply gc_call_quiet in Hgc as [Hq ->]; [|by eapply becomes_inv]. eapply quiet_becomes; [exact Hens|]. by eapply becomes_quiet.
  - eapply quiet_trans; [exact Hens|]. apply state_quiet; [done|intros q _; apply Hf|].
    intros q Hq. rewrite Hd. by apply (inv_dirs ps s1 Hs1).
Qed.

Lemma append_becomes s p c s' r : files_inv ps s -> p ∈ ps -> object_append_file p c s = (s', r) ->
  match r with Ok _ => becomes s s' p (Some (default "" (view s p) +:+ c)) | Err _ => quiet ps s s' end.
Proof.
  intros Hs Hp. unfold object_append_file. cbv zeta. rewrite (files_normalized s p) by done.
  intros [(s1 & there & Hex & Hrest)|(e & Hex & ->)]%bind_cases; apply exists_quiet in Hex as [Hq1 Hb]; try done.
  specialize (Hb there eq_refl). subst there. pose proof (quiet_inv _ _ _ Hs Hq1) as Hs1.
  apply bind_cases in Hrest as [(s2 & old & Hread & Hwrite)|(e & Hread & ->)].
  - assert (quiet ps s1 s2 /\ default "" (view s p) = old) as [Hq2 <-].
    { case_bool_decide as Hv.
      - apply read_quiet in Hread as (Hq2 & Hc & _); [|done|done]. split; [done|]. rewrite (quiet_view _ _ _ Hq1) in Hc by done. by rewrite (Hc old eq_refl).
      - injection Hread as <- <-. split; [by apply quiet_refl|]. destruct (view s p) eqn:Hvp; [|done]. destruct Hv. try rewrite Hvp. by eexists. }
    apply write_becomes in Hwrite; [|by eapply quiet_inv|done]. pose proof (quiet_trans _ _ _ _ Hq1 Hq2) as Hq.
    destruct r as [u|e]; [by eapply quiet_becomes|by eapply quiet_trans].
  - case_bool_decide; [|done]. apply read_quiet in Hread as (Hq2 & _); [|done|done]. by eapply quiet_trans.
Qed.

Lemma local_remove_becomes s p recursive m s' r :
  files_inv ps s -> p ∈ ps -> file_type m <> Directory ->
  (here <-! state_exists p ;;
   (if here then on_state (remove p recursive) else st_ret tt) ;;!
   update (fun s => push_dirty (if bool_decide (file_type m = Directory) then DeleteDir p else DeleteFile p)
                      (mark_deleted p (untrack_clean_cached p s)))) s = (s', r) ->
  r = Ok tt /\ becomes s s' p None.
Proof.
  intros Hs Hp Hm. rewrite bind_exists by done. rewrite (bool_decide_eq_false_2 (file_type m = Directory)) by done.
  assert (exists l, (if bool_decide (is_Some (local_file (state s) p)) then on_state (remove p recursive) else st_ret tt) s = (set_state l s, Ok tt) /\
    (forall q, local_file l q = if bool_decide (q = p) then None else local_file (state s) q) /\
    (forall q, local_dir l q = local_dir (state s) q)) as (l & Hone & Hf & Hd).
  { case_bool_decide as Hex.
    - destruct Hex as [c Hc]. destruct (remove_local p recursive (state s) c Hc) as (l & Hrm & Hf & Hd). exists l.
      unfold on_state. by rewrite Hrm.
    - exists (state s). rewrite set_state_same. split_and!; [done| |done]. intros q. case_bool_decide as Hq; [|done]. subst q.
      destruct (local_file (state s) p) eqn:Hl; [|done]. destruct Hex. try rewrite Hl. by eexists. }
  unfold st_bind. rewrite Hone. unfold update. intros [= <- <-]. split; [done|].
  eapply queue_becomes; try done; cbn; unfold unmark_deleted, mark_deleted; cbn; rewrite ?(files_normalized s p) by done.
  - intros q e Hq. apply map_lookup_filter_Some in Hq as [Hq _]. by apply (inv_cache ps s Hs q e).
  - intros q. rewrite elem_of_union, elem_of_singleton. destruct (decide (q = p)) as [Hq|Hq].
    + rewrite bool_decide_eq_true_2 by done. split; [by intros _|by left].
    + rewrite bool_decide_eq_false_2 by done. split; [by intros []|by right].
Qed.

Lemma remove_becomes s p recursive s' r : files_inv ps s -> p ∈ ps -> object_remove now p recursive s = (s', r) ->
  match r with Ok _ => is_Some (view s p) /\ becomes s s' p None | Err _ => quiet ps s s' end.
Proof.
  intros Hs Hp. unfold object_remove. cbv zeta. rewrite (files_normalized s p) by done.
  intros [(s1 & m & Hstat & Hrest)|(e & Hstat & ->)]%bind_cases; apply stat_quiet in Hstat as [Hq1 Hm]; try done.
  destruct (Hm m eq_refl) as [Hft Hv]. pose proof (quiet_inv _ _ _ Hs Hq1) as Hs1.
  rewrite (bool_decide_eq_false_2 (file_type m = Directory)) in Hrest by done. cbn [andb] in Hrest.
  apply bind_cases in Hrest as [(s2 & [] & Hnone & Hrest)|(e & Hnone & ->)]; [|done]. injection Hnone as <-.
  pose proof (local_remove_becomes s1 p recursive m s' r Hs1 Hp Hft) as Hrm. rewrite (bool_decide_eq_false_2 (file_type m = Directory)) in Hrm by done.
  destruct (Hrm Hrest) as [-> Hb]. split; [done|by eapply quiet_becomes].
Qed.

Lemma copy_becomes s from to s' r : files_inv ps s -> from ∈ ps -> to ∈ ps -> object_copy now from to s = (s', r) ->
  match r with Ok _ => exists c, view s from = Some c /\ becomes s s' to (Some c) | Err _ => quiet ps s s' end.
Proof.
  intros Hs Hfrom Hto. unfold object_copy. cbv zeta. rewrite !(files_normalized s) by done.
  intros [(s1 & m & Hstat & Hrest)|(e & Hstat & ->)]%bind_cases; apply stat_quiet in Hstat as [Hq1 Hm]; try done.
  destruct (Hm m eq_refl) as [Hft _]. rewrite bool_decide_eq_false_2 in Hrest by done. pose proof (quiet_inv _ _ _ Hs Hq1) as Hs1.
  apply bind_cases in Hrest as [(s2 & c & Hread & Hwrite)|(e & Hread & ->)]; apply read_quiet in Hread as (Hq2 & Hc & _); try done.
  - specialize (Hc c eq_refl). rewrite (quiet_view _ _ _ Hq1) in Hc by done. pose proof (quiet_trans _ _ _ _ Hq1 Hq2) as Hq.
    apply write_becomes in Hwrite; [|by eapply quiet_inv|done]. destruct r as [u|e]; [|by eapply quiet_trans].
    exists c. split; [done|by eapply quiet_becomes].
  - by eapply quiet_trans.
Qed.

Lemma rename_becomes s fuel from to : files_inv ps s -> from ∈ ps -> to ∈ ps ->
  exists s' r, object_rename now fuel from to s = Some (s', r) /\
  match r with
  | Ok _ => exists c s1, view s from = Some c /\ becomes s s1 to (Some c) /\ becomes s1 s' from None
  | Err _ => quiet ps s s' \/ exists c, view s from = Some c /\ becomes s s' to (Some c)
  end.
Proof.
  intros Hs Hfrom Hto. unfold object_rename. cbv zeta. rewrite !(files_normalized s) by done.
  destruct (object_stat now from s) as [s1 [m|e]] eqn:Hstat; apply stat_quiet in Hstat as [Hq1 Hm]; try done;
    [|eexists _, _; split; [done|by left]].
  destruct (Hm m eq_refl) as [Hft _]. rewrite bool_decide_eq_false_2 by done. pose proof (quiet_inv _ _ _ Hs Hq1) as Hs1.
  destruct ((rename_file now from to ;;! gc_clean_cache) s1) as [s' r] eqn:Hrun. exists s', r. split; [done|].
  apply bind_cases in Hrun as [(s2 & [] & Hren & Hgc)|(e & Hren & ->)];
    apply bind_cases in Hren as [(s3 & c & Hread & Hren)|(e3 & Hread & He3)]; try done;
    apply read_quiet in Hread as (Hq2 & Hc & _); try done.
  all: pose proof (quiet_trans _ _ _ _ Hq1 Hq2) as Hq.
  3: by left.
  all: specialize (Hc c eq_refl); rewrite (quiet_view _ _ _ Hq1) in Hc by done.
  all: apply bind_cases in Hren as [(s4 & [] & Hwrite & Hrm)|(e4 & Hwrite & He4)]; try done.
  all: apply write_becomes in Hwrite; [|by eapply quiet_inv|done].
  - pose proof (quiet_becomes _ _ _ _ _ Hq Hwrite) as Hb. apply remove_becomes in Hrm as [_ Hrm]; [|by apply Hb|done].
    apply gc_call_quiet in Hgc as [Hgc ->]; [|by apply Hrm]. exists c, s4. split_and!; [done|done|by eapply becomes_quiet].
  - pose proof (quiet_becomes _ _ _ _ _ Hq Hwrite) as Hb. apply remove_becomes in Hrm; [|by apply Hb|done].
    right. exists c. split; [done|by eapply becomes_quiet].
  - left. by eapply quiet_trans.
Qed.
End Operations.

(** * Writing back, and runs of an object-store mount

    A flush writes what is queued and changes no file; runs of operations show what
    a map of files shows, and a mount made of the store after a flush shows it too. *)

Section Runs.
Context `{PathNormalizerLaws} `{ObjectPaths} {Bucket : Type} `{StoreLaws Bucket} {L : Type} `{LocalLaws L}.
Variable now : Z.
Context (ps : list PathBuf).
Notation World := (ManagedObjectStoreFs (Bucket := Bucket) (L := L)).
Notation Call A := (World -> World * VfsResult A).
Implicit Types (s : World) (p q : PathBuf).

(** ** Flushing *)

Definition in_memory s p : bool := bool_decide (is_Some (local_file (state s) p)).

(** The store has what the file shows, and a file in memory is not hidden. *)
Definition settled s p : Prop := object (store s) (file_key s p) = view s p /\ (in_memory s p = true -> p ∉ deleted s).

(** What a write-back of [p] may change. *)
Record synced s s' p : Prop := {
  synced_prefix : key_prefix s' = key_prefix s;
  synced_dirty : dirty s' = dirty s;
  synced_state : state s' = state s;
  synced_cache q e : cache s' !! q = Some e -> q ∈ ps;
  synced_objects j : j <> file_key s p -> object (store s') j = object (store s) j;
  synced_deleted q : q <> p -> q ∈ deleted s' <-> q ∈ deleted s;
  synced_hidden : in_memory s p = false -> p ∈ deleted s';
}.

(** A flush under way: the files and the queue are as they were. *)
Record steady s s' : Prop := {
  steady_inv : files_inv ps s';
  steady_prefix : key_prefix s' = key_prefix s;
  steady_dirty : dirty s' = dirty s;
  steady_state : state s' = state s;
  steady_view p : p ∈ ps -> view s' p = view s p;
}.

Lemma steady_refl s : files_inv ps s -> steady s s.
Proof. by split. Qed.
Lemma steady_trans s1 s2 s3 : steady s1 s2 -> steady s2 s3 -> steady s1 s3.
Proof. intros [] []. split; try congruence; try done. intros p Hp. rewrite steady_view1, steady_view0; done. Qed.

Lemma synced_steady s s' p b : files_inv ps s -> p ∈ ps -> pending_of (dirty s) p = Some b -> synced s s' p ->
  steady s s' /\ (forall q, q ∈ ps -> q <> p -> settled s q -> settled s' q).
Proof.
  intros Hs Hp Hb [Hk Hd Hl Hc Ho Hdel Hhid]. destruct (inv_pending ps s Hs p b Hp Hb) as [Hmem Hpdel].
  assert (forall q, q ∈ ps -> q <> p -> object (store s') (file_key s q) = object (store s) (file_key s q)) as Hother.
  { intros q Hq Hne. apply Ho. intros Heq. destruct Hne. symmetry in Heq. by rewrite (files_keys _ _ (inv_files ps s Hs) p q Hp Hq Heq). }
  pose proof (file_set_same ps s s' Hk (inv_files ps s Hs)) as Hset.
  assert (forall q, q ∈ deleted s' -> q ∈ ps) as Hsub.
  { intros q Hq. destruct (decide (q = p)) as [->|Hne]; [done|]. apply (inv_deleted ps s Hs). by apply Hdel. }
  assert (forall q, q ∈ ps -> view s' q = view s q) as Hview.
  { intros q Hq. unfold view. rewrite Hl, (is_deleted_set ps s'), (is_deleted_files ps s) by done.
    destruct (keys_same s s' q Hk) as (-> & _). destruct (local_file (state s) q) as [c|] eqn:Hlq; [done|].
    destruct (decide (q = p)) as [->|Hne].
    - unfold in_memory in *. rewrite Hlq in *. rewrite bool_decide_eq_false_2 in Hmem by (intros [? ?]; done). subst b.
      rewrite !bool_decide_eq_true_2; [done|by apply Hpdel|apply Hhid]. by apply bool_decide_eq_false_2; intros [? ?].
    - rewrite Hother by done. by rewrite (bool_decide_ext _ _ (Hdel q Hne)). }
  split; [split; try done; split; try done|].
  - intros x. rewrite Hd. apply (inv_dirty ps s Hs).
  - intros q. rewrite Hl. apply (inv_dirs ps s Hs).
  - intros q j Hq Hj. eapply outside_same; [done|]. destruct (decide (j = file_key s p)) as [->|Hne].
    + by apply (files_outside _ _ (inv_files ps s Hs)).
    + rewrite Ho in Hj by done. by apply (inv_outside ps s Hs).
  - intros q Hq. rewrite Hd, Hview by done. destruct (keys_same s s' q Hk) as (-> & _). intros Hn.
    destruct (decide (q = p)) as [->|Hne]; [congruence|]. rewrite Hother by done. by apply (inv_clean ps s Hs).
  - intros q b' Hq. rewrite Hd, Hl. intros Hb'. destruct (inv_pending ps s Hs q b' Hq Hb') as [Hm' Hd']. split; [done|]. intros Hf.
    destruct (decide (q = p)) as [->|Hne]; [|by apply Hdel, Hd']. apply Hhid. unfold in_memory. by rewrite Hm'.
  - intros q Hq Hne [Ho1 Hd1]. unfold settled, in_memory. rewrite Hl, Hview by done. destruct (keys_same s s' q Hk) as (-> & _).
    rewrite Hother, Hdel by done. done.
Qed.

(** ** One write-back *)

Lemma settle_put_synced s p c over s' over' : files_inv ps s -> p ∈ ps -> in_memory s p = true ->
  settle_put p c over s = (s', over') ->
  synced s s' p /\ p ∉ deleted s' /\ store s' = store s /\ (forall q, q ∈ over' -> q ∈ over \/ q = p).
Proof.
  intros Hs Hp Hmem. unfold settle_put, unmark_deleted. rewrite (files_normalized ps s p Hs Hp).
  assert (forall q e, cache (set_deleted (deleted s ∖ {[p]}) s) !! q = Some e -> q ∈ ps) as Hc by apply (inv_cache ps s Hs).
  destruct (should_track _ _); intros [= <- <-]; [unfold mark_clean_cached|unfold untrack_clean_cached];
    rewrite (files_normalized ps s p Hs Hp); try destruct (should_track _ _).
  all: split; [split; cbn; try done|cbn; split_and!; [set_solver|done|set_solver]].
  all: try (intros q Hq; set_solver). all: try congruence.
  - intros q e [[<- _]|[_ Hq]]%lookup_insert_Some; [done|by apply (Hc q e)].
  - intros q e [_ Hq]%lookup_delete_Some. by apply (Hc q e).
  - intros q e [Hq _]%map_lookup_filter_Some. by apply (Hc q e).
Qed.

(** The outcome of writing back one operation on [p]. *)
Definition wrote (o : ObjectStoreWriteback) p (over : list PathBuf) s s' (r : VfsResult (list PathBuf)) : Prop :=
  steady s s' /\ (forall q, q ∈ ps -> q <> p -> settled s q -> settled s' q) /\
  forall over', r = Ok over' ->
    (forall q, q ∈ over' -> q ∈ over \/ (q = p /\ in_memory s p = true)) /\
    (o = (if in_memory s p then PutFile p else DeleteFile p) -> settled s' p).

Lemma hidden_deleted s p b : files_inv ps s -> p ∈ ps -> pending_of (dirty s) p = Some b -> in_memory s p = false -> p ∈ deleted s.
Proof. intros Hs Hp Hb Hm. destruct (inv_pending ps s Hs p b Hp Hb) as [Hbool Hdel]. apply Hdel. unfold in_memory in Hm. congruence. Qed.

Lemma put_wrote s p b over s' r : files_inv ps s -> p ∈ ps -> pending_of (dirty s) p = Some b ->
  write_back (PutFile p) over s = (s', r) -> wrote (PutFile p) p over s s' r.
Proof.
  intros Hs Hp Hb. cbn [write_back]. rewrite bind_exists with (ps := ps) by done. fold (in_memory s p).
  destruct (in_memory s p) eqn:Hmem.
  2: { intros [= <- <-]. split_and!; [by apply steady_refl|done|]. intros over' [= <-]. split; [by left|by rewrite Hmem]. }
  unfold in_memory in Hmem. apply bool_decide_eq_true in Hmem as Hc. destruct Hc as [c Hc].
  destruct (read_local p (state s)) as [Hsame Hread]. specialize (Hread c Hc).
  unfold st_bind at 1, on_state. destruct (read_file p (state s)) as [l x]. cbn in Hsame, Hread. subst l x. rewrite set_state_same.
  intros Hrun. unfold st_bind at 1, stored in Hrun. change (object_path (key_for_file p s)) with (file_key s p) in Hrun.
  destruct (put (file_key s p) c (store s)) as [bk x] eqn:Hput. apply put_object in Hput as (Hother & Hok & _).
  assert (synced s (set_store bk s) p) as Hsync.
  { split; try done; [apply (inv_cache ps s Hs)|]. intros Hm. by apply (hidden_deleted s p b). }
  destruct (synced_steady _ _ p b Hs Hp Hb Hsync) as [Hst Hset].
  destruct x as [u|e]; cbn [map_err] in Hrun; [|injection Hrun as <- <-; by split_and!].
  destruct (settle_put p c over (set_store bk s)) as [s2 over2] eqn:Hsettle. injection Hrun as <- <-.
  destruct (settle_put_synced (set_store bk s) p c over s2 over2) as (Hsync2 & Hdel2 & Hstore2 & Hover); [by apply Hst|done|done|done|].
  destruct (synced_steady _ _ p b (steady_inv _ _ Hst) Hp Hb Hsync2) as [Hst2 Hset2].
  split_and!; [by eapply steady_trans|intros q Hq Hne Hsq; apply Hset2; [done|done|by apply Hset]|].
  intros over' [= <-]. split; [intros q Hq; destruct (Hover q Hq) as [|Hqp]; [by left|right; split; [done|]]; by apply bool_decide_eq_true_2|].
  intros _. split; [|done]. rewrite Hstore2, (steady_view _ _ Hst2), (steady_view _ _ Hst) by done.
  destruct (keys_same s s2 p) as (-> & _); [by rewrite (steady_prefix _ _ Hst2)|]. cbn. rewrite Hok by done. unfold view. by rewrite Hc.
Qed.

Lemma delete_wrote s p b over s' r : files_inv ps s -> p ∈ ps -> pending_of (dirty s) p = Some b ->
  write_back (DeleteFile p) over s = (s', r) -> wrote (DeleteFile p) p over s s' r.
Proof.
  intros Hs Hp Hb Hrun. cbn [write_back delete_keys] in Hrun. unfold st_bind, on_store in Hrun.
  change (object_path (key_for_file p s)) with (file_key s p) in Hrun.
  destruct (delete_object (file_key s p) (store s)) as [bk x] eqn:Hdel. apply delete_of_object in Hdel as [Hother Hx].
  assert (forall o, ignore_not_found o = Ok tt \/ exists e, o = Err e /\ exists f, ignore_not_found o = Err f) as Hign.
  { intros [u|[t|t]]; cbn; [by left|by left|right]. eexists. split; [done|by eexists]. }
  destruct (ignore_not_found x) as [u|f] eqn:Hi.
  - assert (object bk (file_key s p) = None) as Hgone by (destruct x as [|[t|t]]; [done|done|discriminate Hi]).
    unfold forget, update, st_ret, mark_deleted, untrack_clean_cached in Hrun. rewrite (files_normalized ps s p Hs Hp) in Hrun.
    injection Hrun as <- <-.
    match goal with |- wrote _ _ _ _ ?w _ => assert (synced s w p) as Hsync end.
    { split; try done; cbn.
      - intros q e [Hq _]%map_lookup_filter_Some. by apply (inv_cache ps s Hs q e).
      - set_solver.
      - set_solver. }
    destruct (synced_steady _ _ p b Hs Hp Hb Hsync) as [Hst Hset]. split_and!; [done|done|].
    intros over' [= <-]. split; [by left|]. destruct (in_memory s p) eqn:Hmem; [done|]. intros _. split.
    + rewrite (steady_view _ _ Hst) by done. etransitivity; [exact Hgone|]. unfold view.
      destruct (local_file (state s) p) eqn:Hl; [unfold in_memory in Hmem; by rewrite Hl in Hmem|].
      rewrite (is_deleted_files ps) by done. rewrite bool_decide_eq_true_2; [done|]. by eapply hidden_deleted.
    + unfold in_memory in *. cbn. congruence.
  - injection Hrun as <- <-. assert (synced s (set_store bk s) p) as Hsync.
    { split; try done; [apply (inv_cache ps s Hs)|]. intros Hm. by apply (hidden_deleted s p b). }
    destruct (synced_steady _ _ p b Hs Hp Hb Hsync) as [Hst Hset]. by split_and!.
Qed.

(** ** The whole queue *)

Lemma pending_of_in ops p x : x ∈ ops -> op x = PutFile p \/ op x = DeleteFile p -> pending_of ops p <> None.
Proof. intros Hin Hop Hn. destruct (proj1 (pending_of_none ops p) Hn x Hin) as [H1' H2']. by destruct Hop. Qed.

(** Those of the operations [before] that agree with what is in memory are settled. *)
Definition progress before s : Prop := forall p, p ∈ ps -> pending_of before p = Some (in_memory s p) -> settled s p.

Lemma write_back_all_steady ops before s over s' r :
  files_inv ps s -> (forall x, x ∈ ops -> x ∈ dirty s) -> progress before s ->
  (forall q, q ∈ over -> q ∈ ps /\ in_memory s q = true /\ pending_of (dirty s) q <> None) ->
  write_back_all ops over s = (s', r) ->
  steady s s' /\ forall over', r = Ok over' -> progress (before ++ ops) s' /\
    (forall q, q ∈ over' -> q ∈ ps /\ in_memory s q = true /\ pending_of (dirty s) q <> None).
Proof.
  revert before s over. induction ops as [|x ops IH]; intros before s over Hs Hops Hprog Hover; cbn [write_back_all].
  - intros [= <- <-]. split; [by apply steady_refl|]. intros over' [= <-]. by rewrite app_nil_r.
  - assert (x ∈ dirty s) as Hx by (apply Hops; set_solver). destruct (inv_dirty ps s Hs x Hx) as (p & Hp & Hop).
    destruct (pending_of (dirty s) p) as [b|] eqn:Hb; [|by destruct (pending_of_in _ p x Hx Hop)].
    intros Hrun. assert (exists s1 r1, write_back (op x) over s = (s1, r1) /\ wrote (op x) p over s s1 r1) as (s1 & r1 & Hone & Hst & Hkeep & Hwrote).
    { destruct (write_back (op x) over s) as [s1 r1] eqn:Hone. exists s1, r1. split; [done|].
      destruct Hop as [Hop|Hop]; rewrite Hop in Hone |- *; [by eapply put_wrote|by eapply delete_wrote]. }
    unfold st_bind in Hrun. rewrite Hone in Hrun. destruct r1 as [over1|e]; [|by injection Hrun as <- <-].
    destruct (Hwrote over1 eq_refl) as [Hin Hmatch].
    assert (forall q, in_memory s1 q = in_memory s q) as Hmem by (intros q; unfold in_memory; by rewrite (steady_state _ _ Hst)).
    destruct (IH (before ++ [x]) s1 over1) as [Hst2 Hrest]; [by apply Hst| | | |exact Hrun|].
    + intros y Hy. rewrite (steady_dirty _ _ Hst). apply Hops. set_solver.
    + intros q Hq. rewrite pending_of_app, Hmem. unfold pending_step. destruct (decide (q = p)) as [->|Hne].
      * intros Hpend. apply Hmatch. destruct Hop as [Hop|Hop]; rewrite Hop in Hpend |- *;
          rewrite bool_decide_eq_true_2 in Hpend by done; injection Hpend as <-; done.
      * intros Hpend. apply Hkeep; [done|done|]. apply Hprog; [done|].
        destruct Hop as [Hop|Hop]; rewrite Hop, bool_decide_eq_false_2 in Hpend by congruence; done.
    + intros q Hq. rewrite Hmem, (steady_dirty _ _ Hst). destruct (Hin q Hq) as [Hq'|[-> Hm]]; [by apply Hover|]. split_and!; [done|done|congruence].
    + split; [by eapply steady_trans|]. intros over' Hr. destruct (Hrest over' Hr) as [Hp2 Ho2]. rewrite <- app_assoc in Hp2. split; [done|].
      intros q Hq. destruct (Ho2 q Hq) as (? & ? & ?). rewrite Hmem, (steady_dirty _ _ Hst) in *. done.
Qed.

Lemma drop_oversized_evicts qs s : drop_oversized [] qs s = evict_all qs s.
Proof.
  revert s. induction qs as [|p qs IH]; intros s; [done|]. cbn [drop_oversized evict_all dirty_above existsb]. unfold st_bind.
  destruct (state_exists p s) as [s1 [[]|e]]; [|apply IH|done].
  destruct (on_state (remove p false) s1) as [s2 [[]|e]]; [apply IH|done].
Qed.

(** The queue was written: what it held is settled. *)
Lemma written_inv s : files_inv ps s -> progress (dirty s) s -> files_inv ps (set_dirty [] (dirty_clock s) s).
Proof.
  intros Hs Hprog. split; try done; try apply Hs.
  - by eapply file_set_same, inv_files, Hs.
  - intros x Hx. inversion Hx.
  - intros p Hp _. destruct (pending_of (dirty s) p) as [b|] eqn:Hb; [|by apply (inv_clean ps s Hs)].
    apply Hprog; [done|]. rewrite Hb. by destruct (inv_pending ps s Hs p b Hp Hb) as [<- _].
Qed.

Lemma flush_files s s' r : files_inv ps s -> object_flush s = (s', r) ->
  files_inv ps s' /\ key_prefix s' = key_prefix s /\ (forall p, p ∈ ps -> view s' p = view s p) /\
  (is_ok r = true -> forall p, p ∈ ps -> object (store s') (file_key s' p) = view s' p).
Proof.
  intros Hs. unfold object_flush. intros [(s1 & over & Hall & Hrest)|(e & Hall & ->)]%bind_cases;
    (apply (write_back_all_steady _ []) in Hall as [Hst Hmore]; [|done|done|by intros p Hp|by intros q Hq; inversion Hq]).
  2: { split_and!; [apply Hst|apply Hst|apply Hst|done]. }
  destruct (Hmore over eq_refl) as [Hprog Hover]. cbn [app] in Hprog. pose proof (steady_inv _ _ Hst) as Hs1.
  apply bind_cases in Hrest as [(s2 & [] & Hup & Hrest)|(e & Hup & ->)]; [|done]. unfold update in Hup. injection Hup as <-.
  rewrite <- (steady_dirty _ _ Hst) in Hrest, Hprog.
  assert (filter (fun x => queued_id x ∉ map queued_id (dirty s1)) (dirty s1) = []) as Hnone.
  { apply elem_of_nil_inv. intros x Hx. apply list_elem_of_filter in Hx as [Hno Hx]. apply Hno. apply list_elem_of_In, in_map, list_elem_of_In, Hx. }
  rewrite Hnone in Hrest. set (s2 := set_dirty [] (dirty_clock s1) s1) in *. pose proof (written_inv s1 Hs1 Hprog) as Hs2. fold s2 in Hs2.
  change (dirty_paths s2) with (@nil PathBuf) in Hrest. apply bind_cases in Hrest as [(s3 & [] & Hdrop & Hgc)|(e & Hdrop & ->)];
    rewrite drop_oversized_evicts in Hdrop.
  all: destruct (evict_all_quiet ps over s2 Hs2) as (s4 & Hev & Hq).
  all: try (intros p Hp; destruct (Hover p Hp) as (Hin & Hmem & Hpend); split_and!; [done|done|];
    rewrite <- (steady_dirty _ _ Hst) in Hpend; destruct (pending_of (dirty s1) p) as [b|] eqn:Hb; [|done];
    destruct (inv_pending ps s1 Hs1 p b Hin Hb) as [Hm _]; apply (Hprog p Hin); [rewrite Hb; f_equal; done|];
    unfold in_memory in *; by rewrite (steady_state _ _ Hst)).
  all: rewrite Hev in Hdrop.
  2: discriminate Hdrop.
  injection Hdrop as <-.
  apply gc_call_quiet with (ps := ps) in Hgc as [Hq2 ->]; [|by eapply quiet_inv].
  pose proof (quiet_trans ps _ _ _ Hq Hq2) as Hq3. pose proof (quiet_inv _ _ _ Hs2 Hq3) as Hs'.
  assert (dirty s' = []) as Hd by (by rewrite (quiet_dirty _ _ _ Hq3)). split_and!.
  - done.
  - rewrite (quiet_prefix _ _ _ Hq3). by apply Hst.
  - intros p Hp. rewrite (quiet_view _ _ _ Hq3) by done. by apply Hst.
  - intros _ p Hp. apply (inv_clean ps s' Hs' p Hp). by rewrite Hd.
Qed.

(** ** Runs *)

Inductive FileOp :=
  | OpRead (p : PathBuf)
  | OpWrite (p : PathBuf) (content : string)
  | OpAppend (p : PathBuf) (content : string)
  | OpRemove (p : PathBuf) (recursive : bool)
  | OpCopy (from to : PathBuf)
  | OpRename (from to : PathBuf)
  | OpFlush.

Definition op_paths (o : FileOp) : list PathBuf :=
  match o with OpRead p | OpWrite p _ | OpAppend p _ | OpRemove p _ => [p] | OpCopy f t | OpRename f t => [f; t] | OpFlush => [] end.

(** The answer is the content for a read, and nothing else. *)
Definition answer {A} (f : A -> option string) (x : World * VfsResult A) : World * VfsResult (option string) := (x.1, result_map f x.2).

Definition run_file_op (o : FileOp) s : option (World * VfsResult (option string)) :=
  match o with
  | OpRead p => Some (answer Some (object_read_file p s))
  | OpWrite p c => Some (answer (fun _ => None) (object_write_file p c s))
  | OpAppend p c => Some (answer (fun _ => None) (object_append_file p c s))
  | OpRemove p rec => Some (answer (fun _ => None) (object_remove now p rec s))
  | OpCopy f t => Some (answer (fun _ => None) (object_copy now f t s))
  | OpRename f t => answer (fun _ => None) <$> object_rename now 0 f t s
  | OpFlush => Some (answer (fun _ => None) (object_flush s))
  end.

(** What the operation does to a map of files, when it returns [r]. *)
Definition file_op_spec (o : FileOp) (r : VfsResult (option string)) (fs fs' : gmap PathBuf string) : Prop :=
  match o, r with
  | OpRead p, Ok o => fs' = fs /\ o = fs !! p /\ is_Some o
  | OpWrite p c, Ok _ => fs' = <[p := c]> fs
  | OpAppend p c, Ok _ => fs' = <[p := default "" (fs !! p) +:+ c]> fs
  | OpRemove p _, Ok _ => is_Some (fs !! p) /\ fs' = delete p fs
  | OpCopy f t, Ok _ => exists c, fs !! f = Some c /\ fs' = <[t := c]> fs
  | OpRename f t, Ok _ => exists c, fs !! f = Some c /\ fs' = delete f (<[t := c]> fs)
  | OpRename f t, Err _ => fs' = fs \/ exists c, fs !! f = Some c /\ fs' = <[t := c]> fs
  | _, _ => fs' = fs
  end.

Definition shows s (fs : gmap PathBuf string) : Prop := forall p, p ∈ ps -> view s p = fs !! p.

Lemma shows_quiet s s' fs : quiet ps s s' -> shows s fs -> shows s' fs.
Proof. intros Hq Hs p Hp. rewrite (quiet_view _ _ _ Hq) by done. by apply Hs. Qed.
Lemma shows_insert s s' fs p c : becomes ps s s' p (Some c) -> shows s fs -> shows s' (<[p := c]> fs).
Proof.
  intros Hb Hs q Hq. rewrite (becomes_view _ _ _ _ _ Hb) by done. destruct (decide (q = p)) as [->|Hne].
  - by rewrite bool_decide_eq_true_2, lookup_insert_eq.
  - rewrite bool_decide_eq_false_2, lookup_insert_ne by done. by apply Hs.
Qed.
Lemma shows_delete s s' fs p : becomes ps s s' p None -> shows s fs -> shows s' (delete p fs).
Proof.
  intros Hb Hs q Hq. rewrite (becomes_view _ _ _ _ _ Hb) by done. destruct (decide (q = p)) as [->|Hne].
  - by rewrite bool_decide_eq_true_2, lookup_delete_eq.
  - rewrite bool_decide_eq_false_2, lookup_delete_ne by done. by apply Hs.
Qed.

Lemma run_step o s fs : files_inv ps s -> shows s fs -> (forall p, p ∈ op_paths o -> p ∈ ps) ->
  exists s' r, run_file_op o s = Some (s', r) /\ files_inv ps s' /\ key_prefix s' = key_prefix s /\
    exists fs', file_op_spec o r fs fs' /\ shows s' fs' /\
      (o = OpFlush -> is_ok r = true -> forall p, p ∈ ps -> object (store s') (file_key s' p) = fs' !! p).
Proof.
  intros Hs Hfs Hin.
  destruct o as [p|p c|p c|p rec|f t|f t|]; cbn [run_file_op op_paths] in *; unfold answer.
  - assert (p ∈ ps) as Hp by set_solver. destruct (object_read_file p s) as [s' r] eqn:Hrun.
    apply (read_quiet ps) in Hrun as (Hq & Hc & _); [|done|done]. eexists _, _. split; [done|]. cbn.
    split_and!; [by eapply quiet_inv|by eapply quiet_prefix|]. exists fs. split_and!; [|by eapply shows_quiet|done].
    destruct r as [c|e]; [|done]. cbn. rewrite <- Hfs, (Hc c) by done. done.
  - assert (p ∈ ps) as Hp by set_solver. destruct (object_write_file p c s) as [s' r] eqn:Hrun.
    apply (write_becomes ps) in Hrun; [|done|done]. eexists _, _. split; [done|]. cbn. destruct r as [u|e].
    + split_and!; [by apply Hrun|by apply Hrun|]. eexists. split_and!; [done|by eapply shows_insert|done].
    + split_and!; [by eapply quiet_inv|by eapply quiet_prefix|]. eexists. split_and!; [done|by eapply shows_quiet|done].
  - assert (p ∈ ps) as Hp by set_solver. destruct (object_append_file p c s) as [s' r] eqn:Hrun.
    apply (append_becomes ps) in Hrun; [|done|done]. eexists _, _. split; [done|]. cbn. destruct r as [u|e].
    + split_and!; [by apply Hrun|by apply Hrun|]. eexists. split_and!; [done|rewrite <- Hfs by done; by eapply shows_insert|done].
    + split_and!; [by eapply quiet_inv|by eapply quiet_prefix|]. eexists. split_and!; [done|by eapply shows_quiet|done].
  - assert (p ∈ ps) as Hp by set_solver. destruct (object_remove now p rec s) as [s' r] eqn:Hrun.
    apply (remove_becomes now ps) in Hrun; [|done|done]. eexists _, _. split; [done|]. cbn. destruct r as [u|e].
    + destruct Hrun as [Hv Hb]. split_and!; [by apply Hb|by apply Hb|]. eexists. rewrite <- Hfs by done. split_and!; [done|by eapply shows_delete|done].
    + split_and!; [by eapply quiet_inv|by eapply quiet_prefix|]. eexists. split_and!; [done|by eapply shows_quiet|done].
  - assert (f ∈ ps /\ t ∈ ps) as [Hf Ht] by set_solver. destruct (object_copy now f t s) as [s' r] eqn:Hrun.
    apply (copy_becomes now ps) in Hrun; [|done|done|done]. eexists _, _. split; [done|]. cbn. destruct r as [u|e].
    + destruct Hrun as (c & Hv & Hb). split_and!; [by apply Hb|by apply Hb|]. rewrite Hfs in Hv by done.
      eexists. split_and!; [by exists c|by eapply shows_insert|done].
    + split_and!; [by eapply quiet_inv|by eapply quiet_prefix|]. eexists. split_and!; [done|by eapply shows_quiet|done].
  - assert (f ∈ ps /\ t ∈ ps) as [Hf Ht] by set_solver. destruct (rename_becomes now ps s 0 f t Hs Hf Ht) as (s' & r & -> & Hr).
    eexists _, _. split; [done|]. cbn. destruct r as [u|e].
    + destruct Hr as (c & s1 & Hv & Hb1 & Hb2). split_and!; [by apply Hb2|rewrite (becomes_prefix _ _ _ _ _ Hb2); by apply Hb1|].
      rewrite Hfs in Hv by done. eexists. split_and!; [by exists c|by eapply shows_delete, shows_insert|done].
    + destruct Hr as [Hq|(c & Hv & Hb)].
      * split_and!; [by eapply quiet_inv|by eapply quiet_prefix|]. eexists. split_and!; [by left|by eapply shows_quiet|done].
      * split_and!; [by apply Hb|by apply Hb|]. rewrite Hfs in Hv by done. eexists. split_and!; [right; by exists c|by eapply shows_insert|done].
  - destruct (object_flush s) as [s' r] eqn:Hrun. apply flush_files in Hrun as (Hi & Hk & Hv & Ho); [|done].
    eexists _, _. split; [done|]. cbn. split_and!; [done|done|]. exists fs. split_and!; [done| |].
    + intros p Hp. rewrite Hv by done. by apply Hfs.
    + intros _ Hr p Hp. rewrite Ho, Hv by (try done; by destruct r). by apply Hfs.
Qed.

Fixpoint run_file_ops (ops : list FileOp) s : option (World * list (VfsResult (option string))) :=
  match ops with
  | [] => Some (s, [])
  | o :: ops => '(s, r) ← run_file_op o s; '(s, rs) ← run_file_ops ops s; Some (s, r :: rs)
  end.

Inductive spec_run : list FileOp -> list (VfsResult (option string)) -> gmap PathBuf string -> gmap PathBuf string -> Prop :=
  | spec_done fs : spec_run [] [] fs fs
  | spec_step o ops r rs fs fs1 fs2 : file_op_spec o r fs fs1 -> spec_run ops rs fs1 fs2 -> spec_run (o :: ops) (r :: rs) fs fs2.

(** A mount just made: nothing in memory, nothing queued, nothing deleted. *)
Record mounted s : Prop := {
  mounted_dirty : dirty s = [];
  mounted_deleted : deleted s = ∅;
  mounted_cache : cache s = ∅;
  mounted_files p : local_file (state s) p = None;
  mounted_dirs p : p ∈ ps -> local_dir (state s) p = false;
}.

(** The store has the files [fs] under the mount, none of the paths is a directory in it. *)
Record stores s (fs : gmap PathBuf string) : Prop := {
  stores_files p : p ∈ ps -> object (store s) (file_key s p) = fs !! p;
  stores_outside p j : p ∈ ps -> is_Some (object (store s) j) -> outside s p j;
}.

Lemma mounted_inv s fs : file_set s ps -> mounted s -> stores s fs -> files_inv ps s /\ shows s fs.
Proof.
  intros Hset [Hd Hdel Hc Hl Hdir] [Hf Ho].
  assert (forall p, p ∈ ps -> view s p = object (store s) (file_key s p)) as Hview.
  { intros p Hp. unfold view. rewrite Hl, (is_deleted_set ps) by (try done; intros q; rewrite Hdel; set_solver).
    by rewrite bool_decide_eq_false_2 by (rewrite Hdel; set_solver). }
  split; [|intros p Hp; by rewrite Hview, Hf]. split; try done.
  - intros p. rewrite Hdel. set_solver.
  - intros x. rewrite Hd. intros Hx. inversion Hx.
  - intros p e. by rewrite Hc, lookup_empty.
  - intros p Hp _. by rewrite Hview.
  - intros p b _. by rewrite Hd.
Qed.

Lemma run_steps ops s fs : files_inv ps s -> shows s fs -> (forall o p, o ∈ ops -> p ∈ op_paths o -> p ∈ ps) ->
  exists s' rs fs', run_file_ops ops s = Some (s', rs) /\ spec_run ops rs fs fs' /\ files_inv ps s' /\ shows s' fs' /\ key_prefix s' = key_prefix s.
Proof.
  revert s fs. induction ops as [|o ops IH]; intros s fs Hs Hfs Hin; cbn [run_file_ops].
  - exists s, [], fs. split_and!; try done. constructor.
  - destruct (run_step o s fs Hs Hfs) as (s1 & r & -> & Hs1 & Hk1 & fs1 & Hspec & Hfs1 & _); [intros p; apply Hin; set_solver|].
    destruct (IH s1 fs1 Hs1 Hfs1) as (s2 & rs & fs2 & Hrun & Hspecs & Hs2 & Hfs2 & Hk2); [intros o' p Ho'; apply Hin; set_solver|].
    cbn. rewrite Hrun. exists s2, (r :: rs), fs2. split_and!; [done|by econstructor|done|done|congruence].
Qed.


End Runs.
