(* ===== verification/ObjectExamples.v ===== *)
(** * An object-store mount on concrete stores

    A filesystem in memory and a store, with their laws, and the theorems of the
    object-store mount applied to runs over them. *)

From stdpp Require Import base gmap sets list strings pretty sorting.
From Stdlib Require Import ZArith Lia.
From S2P Require Import Prelude Vfs ObjectFs ObjectFacts ObjectOps VfsProps.

Module ObjectExamples.
Import VfsProps.VfsExamples.
Local Open Scope verlet_scope.
Local Open Scope string_scope.
Local Open Scope list_scope.

(** ** Files and directories in memory *)

Record Ram := { ram_files : gmap PathBuf string; ram_dirs : gset PathBuf }.

Definition refuse_ram {A : Type} (l : Ram) : Ram * VfsResult A := (l, Err (VfsOther "not supported")).
Definition ram_entry (c : string) : Metadata :=
  {| file_type := File; size := Z.of_nat (String.length c); mode := 420; modified := 0; created := 0 |}.
Definition ram_directory : Metadata := {| file_type := Directory; size := 0; mode := 493; modified := 0; created := 0 |}.

(** The names in a directory. *)
Definition ram_children (p : PathBuf) (l : Ram) : list DirEntry :=
  let child q := match path_strip_prefix p q with Some [Normal n] => Some n | _ => None end in
  omap (fun e => n ← child e.1; Some {| name := n; metadata := ram_entry e.2 |}) (map_to_list (ram_files l)) ++
  omap (fun q => n ← child q; Some {| name := n; metadata := ram_directory |}) (elements (ram_dirs l)).

#[export] Instance ram_file_system : FileSystem Ram := {|
  read_file p l := (l, match ram_files l !! p with Some c => Ok c | None => io NotFound "file not found" end);
  write_file p c l := ({| ram_files := <[p := c]> (ram_files l); ram_dirs := ram_dirs l |}, Ok tt);
  append_file _ _ := refuse_ram;
  mkdir p _ l := ({| ram_files := ram_files l; ram_dirs := list_to_set (map (fun n => take n p) (seq 0 (length p + 1))) ∪ ram_dirs l |}, Ok tt);
  remove p recursive l :=
    match ram_files l !! p with
    | Some _ => ({| ram_files := delete p (ram_files l); ram_dirs := ram_dirs l |}, Ok tt)
    | None =>
        ({| ram_files := filter (fun e => path_starts_with e.1 p = false) (ram_files l);
            ram_dirs := filter (fun q => path_starts_with q p = false) (ram_dirs l) |}, Ok tt)
    end;
  stat p l := (l, match ram_files l !! p with
                  | Some c => Ok (ram_entry c)
                  | None => if decide (p ∈ ram_dirs l) then Ok ram_directory else io NotFound "not found"
                  end);
  read_dir p l := (l, if decide (p ∈ ram_dirs l) then Ok (ram_children p l) else io NotFound "directory not found");
  exists_path p l := (l, Ok (bool_decide (is_Some (ram_files l !! p)) || bool_decide (p ∈ ram_dirs l)));
  rename _ _ := refuse_ram;
  copy _ _ := refuse_ram;
  symlink _ _ := refuse_ram;
  read_link _ := refuse_ram;
  chmod _ _ := refuse_ram;
  set_modified_time _ _ := refuse_ram;
  flush l := (l, Ok tt);
  validate_limits _ _ := Ok tt;
|}.

#[export] Instance ram_view : LocalView Ram := {| local_file l p := ram_files l !! p; local_dir l p := bool_decide (p ∈ ram_dirs l) |}.

#[export] Instance ram_laws : LocalLaws Ram.
Proof.
  split.
  - done.
  - intros p l. split; [done|]. by intros c; cbn; intros ->.
  - intros p l. split; [done|]. intros c. cbn. intros ->. by eexists.
  - intros p c l l' r [= <- <-]. split; [|done]. intros q. cbn. case_bool_decide as Hq; [subst; by rewrite lookup_insert_eq|by rewrite lookup_insert_ne].
  - intros p l l' r [= <- <-]. split; [done|]. intros q. cbn. intros Hq. apply bool_decide_eq_true in Hq.
    apply elem_of_union in Hq as [Hq|Hq]; [right|left; by apply bool_decide_eq_true_2].
    apply elem_of_list_to_set, list_elem_of_In, in_map_iff in Hq as (n & <- & _).
    apply path_starts_with_prefix. exists (drop n p). by rewrite take_drop.
  - intros p recursive l c. cbn. intros ->. eexists. split; [done|]. split; [|done]. intros q. cbn.
    case_bool_decide as Hq; [subst; by rewrite lookup_delete_eq|by rewrite lookup_delete_ne].
Qed.

(** ** A store *)

Notation Objects := (gmap string string) (only parsing).
Definition missing {A : Type} : StoreResult A := Err (ObjectNotFound "no such object").
Definition object_meta (k c : string) : ObjectMeta := {| location := k; object_size := Z.of_nat (String.length c); last_modified := 0 |}.

(** The objects under a prefix: those directly in it, and the first names of the others. *)
Definition under_prefix (prefix : option string) (b : Objects) : list (string * string * string) :=
  omap (fun e => rest ← match prefix with Some p => strip_prefix (p +:+ "/") e.1 | None => Some e.1 end; Some (e.1, e.2, rest)) (map_to_list b).
Definition split_prefix (prefix : option string) (b : Objects) : ListResult :=
  let found := under_prefix prefix b in
  {| objects := omap (fun x => let '(k, c, rest) := x in if has_slash rest then None else Some (object_meta k c)) found;
     common_prefixes := omap (fun x => let '(k, _, rest) := x in
       n ← String.index 0 "/" rest; Some (default "" ((fun p => p +:+ "/") <$> prefix) +:+ String.substring 0 n rest)) found |}.

#[export] Instance objects_store : ObjectStore Objects := {|
  put k c b := (<[k := c]> b, Ok tt);
  get k b := (b, match b !! k with Some c => Ok c | None => missing end);
  head_object k b := (b, match b !! k with Some c => Ok (object_meta k c) | None => missing end);
  delete_object k b := match b !! k with Some _ => (delete k b, Ok tt) | None => (b, missing) end;
  list_objects prefix b := (b, Ok (map (fun x => object_meta x.1.1 x.1.2) (under_prefix prefix b)));
  list_with_delimiter prefix b := (b, Ok (split_prefix prefix b));
|}.
#[export] Instance objects_view : StoreView Objects := {| object b k := b !! k |}.

#[export] Instance objects_laws : StoreLaws Objects.
Proof.
  split.
  - intros k c b b' r [= <- <-]. cbn. split_and!; [intros j Hj; by rewrite lookup_insert_ne|by rewrite lookup_insert_eq|right; by rewrite lookup_insert_eq].
  - intros k b b' r [= <- <-]. split; [done|]. cbn. by destruct (b !! k).
  - intros k b b' r [= <- <-]. split; [done|]. cbn. destruct (b !! k); [by eexists|done].
  - intros k b b' r. cbn. destruct (b !! k) eqn:Hk; intros [= <- <-]; (split; [|try done]); [intros j Hj; by rewrite lookup_delete_ne|by rewrite lookup_delete_eq|done].
  - intros prefix b b' r [= <- <-]. split; [done|]. intros Hnone. unfold split_prefix.
    assert (under_prefix (Some prefix) b = []) as ->; [|done].
    unfold under_prefix. apply elem_of_nil_inv. intros x Hx. apply list_elem_of_omap in Hx as ([k c] & Hkc & Hx).
    apply elem_of_map_to_list in Hkc. cbn in Hx. destruct (strip_prefix (prefix +:+ "/") k) as [rest|] eqn:Hrest; [|done].
    specialize (Hnone k (mk_is_Some _ _ Hkc)). unfold starts_with in Hnone. by rewrite Hrest in Hnone.
Qed.

#[export] Instance plain_paths : ObjectPaths := {| path_from k := k |}.

(** ** Runs *)

Definition notes : PathBuf := at_root ["notes.md"].
Definition draft : PathBuf := at_root ["work"; "draft.md"].
Definition files : list PathBuf := [notes; draft].

Definition bucket : Objects := {[ "team/notes.md" := "first" ]}.

(** Nothing is cached: what is clean is dropped. *)
Definition new_mount (b : Objects) : ManagedObjectStoreFs (Bucket := Objects) (L := Ram) :=
  with_cache_policy disabled_cache (from_store b "team" {| ram_files := ∅; ram_dirs := {[ [RootDir] ]} |}).

Definition run1 : list FileOp :=
  [OpAppend notes ", second"; OpWrite draft "new"; OpFlush; OpRemove notes false; OpRead notes; OpCopy draft notes; OpRead notes; OpRemove draft false].

Ltac file_cases H := repeat (apply elem_of_cons in H as [H|H]); [subst..|by apply elem_of_nil in H].

Lemma files_ok b : file_set (new_mount b) files.
Proof.
  split.
  - intros p Hp. file_cases Hp; by eexists.
  - intros p Hp. file_cases Hp; split; (vm_compute; discriminate).
  - intros p q Hp Hq. file_cases Hp; file_cases Hq; vm_compute; first [done|intros [=]].
  - intros p q Hp Hq. file_cases Hp; file_cases Hq; vm_compute; first [done|intros [=]].
  - intros p q Hp Hq. file_cases Hp; file_cases Hq; (split; [vm_compute; intros [=]|]); intros prefix Hpre; vm_compute in Hpre; injection Hpre as <-; by vm_compute.
Qed.

Lemma new_mount_ok b : mounted files (new_mount b).
Proof. split; try done. intros p Hp. file_cases Hp; by vm_compute. Qed.

Lemma bucket_stores : stores files (new_mount bucket) {[ notes := "first" ]}.
Proof.
  split.
  - intros p Hp. file_cases Hp; by vm_compute.
  - intros p j Hp Hj. assert (j = "team/notes.md") as ->.
    { destruct Hj as [c Hc]. change (bucket !! j = Some c) in Hc. unfold bucket in Hc. by apply lookup_singleton_Some in Hc as [<- _]. }
    file_cases Hp; (split; [vm_compute; intros [=]|]); intros prefix Hpre; vm_compute in Hpre; injection Hpre as <-; by vm_compute.
Qed.

Lemma run1_paths o p : o ∈ run1 -> p ∈ op_paths o -> p ∈ files.
Proof.
  intros Ho Hp. assert (Forall (fun o => Forall (fun p => p ∈ files) (op_paths o)) run1) as Hall
    by (refine (bool_decide_eq_true_1 _ _); vm_compute; reflexivity).
  rewrite Forall_forall in Hall. specialize (Hall o Ho). rewrite Forall_forall in Hall. by apply Hall.
Qed.

Definition ran (ops : list FileOp) (s : ManagedObjectStoreFs (Bucket := Objects) (L := Ram)) :=
  default (s, []) (run_file_ops 0 ops s).

Lemma run1_results : (ran run1 (new_mount bucket)).2 =
  [Ok None; Ok None; Ok None; Ok None; io NotFound "file not found"; Ok None; Ok (Some "new"); Ok None].
Proof. vm_compute. reflexivity. Qed.



Lemma gc_keeps_recent_witness :
  exists dropped kept, map_to_list (cache (fst (gc_clean_cache (new_mount bucket)))) ≡ₚ kept /\
    map_to_list (settled_cache (new_mount bucket)) ≡ₚ dropped ++ kept.
Proof.
  destruct (gc_keeps_recent (new_mount bucket) (fst (gc_clean_cache (new_mount bucket))) (snd (gc_clean_cache (new_mount bucket))))
    as (dropped & kept & Hall & Hkept & _); [intros p e Hp; discriminate Hp|vm_compute; discriminate|by destruct (gc_clean_cache _)|].
  exists dropped, kept. split; [exact Hkept|exact Hall].
Defined.
(** ** Files that are lost *)

(** A file renamed to its own path is written, and then removed. *)
Lemma rename_onto_itself_removes :
  (ran [OpRename notes notes; OpRead notes] (new_mount bucket)).2 = [Ok None; io NotFound "file not found"].
Proof. vm_compute. reflexivity. Qed.

(** A directory is removed and a file is written under it again: after the flush the store has the
    file, but the mount hides it, since only the file's own path was taken off the deleted ones. *)
Definition rewritten_below : Objects * VfsResult string :=
  let s := (ran [OpWrite draft "old"; OpFlush] (new_mount bucket)).1 in
  let s := (object_remove 0 (at_root ["work"]) true s).1 in
  let s := (ran [OpWrite draft "again"; OpFlush] s).1 in
  (store s, (object_read_file draft s).2).
Lemma rewritten_below_hidden : rewritten_below = (<["team/work/draft.md" := "again"]> bucket, io NotFound "file not found").
Proof. vm_compute. reflexivity. Qed.

(** A directory renamed into itself: the loop finds the directories it has just made, here after eight
    rounds for a tree of one. *)
Lemma rename_into_itself_diverges :
  let s := (ran [OpWrite draft "x"] (new_mount bucket)).1 in
  object_rename 0 8 (at_root ["work"]) (at_root ["work"; "sub"]) s = None.
Proof. vm_compute. reflexivity. Qed.
End ObjectExamples.
