(* ===== verification/Join.v ===== *)
(** * Joining a child thread

    Models [append_thread_joined_first_wins] of
    [verlet-kernel/src/kernel/runtime_host/runtime_services.rs]: the one
    [thread.joined] of a spawned child, written by whichever of its monitor, a retry
    and the startup recovery comes first.

    Joiners run at the same time: a joiner is a phase, each step of it one call of
    the store.  The second part shows that the first join wins. *)

From stdpp Require Import base gmap sets list strings pretty.
From Stdlib Require Import ZArith Lia.
From S2P Require Import Prelude Json EventKind Contracts Records Store Journal EventLog Control Propagator.

Local Open Scope verlet_scope.
Local Open Scope string_scope.
Local Open Scope list_scope.

(** ** Payload *)

Inductive ThreadTerminalState := TerminalCompleted | TerminalFailed | TerminalCancelled | TerminalBudgetExhausted.
#[global] Instance ThreadTerminalState_eq_dec : EqDecision ThreadTerminalState.
Proof. solve_decision. Defined.

Definition terminal_name (s : ThreadTerminalState) : string :=
  match s with
  | TerminalCompleted => "completed" | TerminalFailed => "failed" | TerminalCancelled => "cancelled"
  | TerminalBudgetExhausted => "budget_exhausted"
  end.

Record ThreadJoinedPayload := mk_joined {
  joined_child_thread_id : ThreadId;
  joined_spawned_event_id : EventRecordId;
  joined_terminal_state : ThreadTerminalState;
  joined_result_digest : option string;
}.

(** [serde_json::from_value]; the error is its text. *)
Class JoinCodec := { decode_joined : json -> result ThreadJoinedPayload string }.

(** [PartialEq for EventRecord]. *)
Definition event_record_eqb (a b : EventRecord) : bool :=
  (event_id a =? event_id b)%N && String.eqb (stream_id a) (stream_id b) && (sequence a =? sequence b)%Z &&
  bool_decide (coordinates a = coordinates b) && (created_at_ms a =? created_at_ms b)%Z &&
  bool_decide (kind a = kind b) && bool_decide (origin a = origin b) && bool_decide (provenance a = provenance b) &&
  json_eqb (payload a) (payload b).

(** The fence a snapshot of a stream is appended behind. *)
Definition next_sequence (events : list EventRecord) : EventSequence :=
  match last events with Some e => (sequence e + 1)%Z | None => 1%Z end.

Section Join.
Context `{UuidText} `{JoinCodec} {S : Type} `{EventStore S} `{EventAppend S}.

(** The arguments of [append_thread_joined_first_wins]. *)
Record JoinRequest := {
  join_parent : ThreadCoordinates;
  join_child : ThreadCoordinates;
  join_spawned_event_id : EventRecordId;
  join_terminal_state : ThreadTerminalState;
  join_result_digest : option string;
  join_reason : option string;
  join_source_event : option (EventStreamId * EventRecordId);
  join_discharged_by : string;
  join_function : string;
}.

Definition joined_json (p : ThreadJoinedPayload) (reason : option string) : json :=
  jobj ([("child_thread_id", JString (uuid_text (joined_child_thread_id p)));
         ("spawned_event_id", JString (uuid_text (joined_spawned_event_id p)));
         ("terminal_state", JString (terminal_name (joined_terminal_state p)))] ++
        opt_field "result_digest" JString (joined_result_digest p) ++
        [("schema", JString (payload_schema_id ThreadJoined))] ++ opt_field "reason" JString reason).

Definition join_payload (r : JoinRequest) : json :=
  joined_json (mk_joined (thread_id (join_child r)) (join_spawned_event_id r) (join_terminal_state r) (join_result_digest r))
    (join_reason r).

Definition join_record (id : EventRecordId) (now : Z) (r : JoinRequest) : NewEventRecord :=
  let (streams, ids) :=
    match join_source_event r with
    | Some (stream, event) => ([stream], [event])
    | None => ([for_thread (join_child r)], [])
    end in
  discharged id now (join_parent r) ThreadJoined (join_payload r)
    (mk_provenance streams ids None [] (Some (join_discharged_by r)) (Some (join_function r)) None).

(** ** A joiner *)

Record ThreadJoinAppend := { join_appended_record : EventRecord; join_was_appended : bool }.

Inductive JoinPhase :=
  | JoinReading
  | JoinAppending (next : EventSequence)
  | Joined (r : VerletResult ThreadJoinAppend).

Record Joiner := {
  joiner_stream : EventStreamId;
  joiner_spawned : EventRecordId;
  joiner_record : NewEventRecord;
  joiner_phase : JoinPhase;
}.

Definition new_joiner (id : EventRecordId) (now : Z) (r : JoinRequest) : Joiner := {|
  joiner_stream := control_stream_id (join_parent r); joiner_spawned := join_spawned_event_id r;
  joiner_record := join_record id now r; joiner_phase := JoinReading |}.

(** The first join of the spawn on the stream; an earlier one that does not decode is an error. *)
Fixpoint existing_join (spawned : EventRecordId) (events : list EventRecord) : VerletResult (option EventRecord) :=
  match events with
  | [] => Ok None
  | e :: events =>
      if negb (bool_decide (kind e = ThreadJoined)) then existing_join spawned events
      else
        match decode_joined (payload e) with
        | Err err => Err (HistoryText ("existing thread.joined " +:+ uuid_text (event_id e) +:+ " payload is malformed: " +:+ err))
        | Ok p =>
            if String.eqb (uuid_text (joined_spawned_event_id p)) (uuid_text spawned) then Ok (Some e)
            else existing_join spawned events
        end
  end.

(** What a joiner does with the stream it read. *)
Definition join_decide (j : Joiner) (events : list EventRecord) : JoinPhase :=
  match existing_join (joiner_spawned j) events with
  | Err e => Joined (Err e)
  | Ok (Some existing) => Joined (Ok {| join_appended_record := existing; join_was_appended := false |})
  | Ok None => JoinAppending (next_sequence events)
  end.

(** What it does with the answer to its append. *)
Definition join_settle (j : Joiner) (next : EventSequence) (r : HistoryResult (list EventRecord)) : JoinPhase :=
  match r with
  | Ok [e] =>
      if event_record_eqb e (from_new (joiner_stream j) next (joiner_record j))
      then Joined (Ok {| join_appended_record := e; join_was_appended := true |})
      else Joined (Err (HistoryText "thread.joined fenced append returned 1 unexpected record(s)"))
  | Ok es => Joined (Err (HistoryText ("thread.joined fenced append returned " +:+ pretty (length es) +:+ " unexpected record(s)")))
  | Err (AppendFenceConflict _ _ _) => JoinReading
  | Err e => Joined (Err (HistoryFailed e))
  end.

Definition join_step (j : Joiner) (s : S) : S * JoinPhase :=
  match joiner_phase j with
  | JoinReading =>
      (s, match read_log s (joiner_stream j) with
          | Ok events => join_decide j events
          | Err e => Joined (Err e)
          end)
  | JoinAppending next =>
      let (s, r) := log_append_fenced (joiner_stream j) next [joiner_record j] s in (s, join_settle j next r)
  | Joined r => (s, Joined r)
  end.

Definition set_join_phase (p : JoinPhase) (j : Joiner) : Joiner := {|
  joiner_stream := joiner_stream j; joiner_spawned := joiner_spawned j; joiner_record := joiner_record j; joiner_phase := p |}.

(** A joiner that is let run: read and append, at most so often. *)
Fixpoint join_run (fuel : nat) (j : Joiner) (s : S) : S * JoinPhase :=
  match fuel, joiner_phase j with
  | _, Joined r => (s, Joined r)
  | O, p => (s, p)
  | Datatypes.S fuel, _ => let (s, p) := join_step j s in join_run fuel (set_join_phase p j) s
  end.

(** [append_thread_joined_first_wins] while nothing else writes to the stream. *)
Definition append_thread_joined_first_wins (id : EventRecordId) (now : Z) (r : JoinRequest) (s : S) : S * JoinPhase :=
  join_run 2 (new_joiner id now r) s.

(** ** Joiners at the same time *)

Record JoinWorld := { join_store : S; joiners : gmap nat Joiner }.

(** What happens next: a call begins, a joiner takes its next step, or something else writes. *)
Inductive JoinLabel :=
  | JoinBegins (k : nat) (id : EventRecordId) (now : Z) (r : JoinRequest)
  | JoinProceeds (k : nat)
  | OthersAppend (stream : EventStreamId) (records : list NewEventRecord).

Definition join_turn (label : JoinLabel) (w : JoinWorld) : option JoinWorld :=
  match label with
  | JoinBegins k id now r =>
      match joiners w !! k with
      | Some _ => None
      | None => Some {| join_store := join_store w; joiners := <[k := new_joiner id now r]> (joiners w) |}
      end
  | JoinProceeds k =>
      match joiners w !! k with
      | Some j =>
          let (s, p) := join_step j (join_store w) in
          Some {| join_store := s; joiners := <[k := set_join_phase p j]> (joiners w) |}
      | None => None
      end
  | OthersAppend stream records =>
      Some {| join_store := (log_append stream records (join_store w)).1; joiners := joiners w |}
  end.

(** The other writers of the kernel append no [thread.joined]. *)
Definition joins_by_joiners (label : JoinLabel) : Prop :=
  match label with OthersAppend _ records => Forall (fun r => new_kind r <> ThreadJoined) records | _ => True end.

Inductive join_reachable (s : S) : JoinWorld -> Prop :=
  | join_start : join_reachable s {| join_store := s; joiners := ∅ |}
  | join_next label w w' :
      join_reachable s w -> joins_by_joiners label -> join_turn label w = Some w' -> join_reachable s w'.
End Join.

(** * The first join wins

    However joiners of the same child interleave, one [thread.joined] is written, and
    every joiner answers with it. *)

(** ** How a log grows *)

Section Growth.
Context {S : Type} `{EventAppendLaws S}.
Implicit Types (s : S) (stream : EventStreamId).

(** The stream has new events at its end, made of these records, and no other stream changed. *)
Definition grew stream (records : list NewEventRecord) s s' : Prop :=
  log_valid s' /\ (forall other, other <> stream -> log_events s' other = log_events s other) /\
  exists es, log_events s' stream = log_events s stream ++ es /\
    (es = [] \/ es = numbered stream (Z.of_nat (length (log_events s stream))) records).

Lemma numbered_made stream start records :
  Forall (fun e => exists r n, r ∈ records /\ e = from_new stream n r) (numbered stream start records).
Proof.
  apply Forall_forall. intros e (i & Hi)%list_elem_of_lookup. unfold numbered in Hi.
  rewrite list_lookup_imap in Hi. destruct (records !! i) as [r|] eqn:Hr; [|done]. injection Hi as <-.
  exists r. eexists. split; [by eapply list_elem_of_lookup_2|done].
Qed.

Lemma grew_nothing stream records s s' : log_valid s' -> (forall other, log_events s' other = log_events s other) ->
  grew stream records s s'.
Proof. intros Hv He. split_and!; [done|auto|]. exists []. rewrite app_nil_r. auto. Qed.

Lemma log_append_grew stream records s : log_valid s -> grew stream records s (log_append stream records s).1.
Proof.
  intros Hv. destruct (log_append stream records s) as [s' [es|e]] eqn:Hrun; cbn [fst].
  - destruct (log_extended _ _ _ _ _ Hv Hrun) as (Hv' & -> & He & Ho). split_and!; [done|done|].
    eexists. split; [exact He|by right].
  - destruct (log_unextended _ _ _ _ _ Hv Hrun) as [Hv' He]. by apply grew_nothing.
Qed.

Lemma log_append_fenced_grew stream n records s :
  log_valid s -> grew stream records s (log_append_fenced stream n records s).1.
Proof.
  intros Hv. destruct (log_append_fenced stream n records s) as [s' [es|e]] eqn:Hrun; cbn [fst].
  - destruct (log_append_ok _ _ _ _ _ _ Hv Hrun) as (Hv' & _ & -> & He & Ho). split_and!; [done|done|].
    eexists. split; [exact He|by right].
  - destruct (log_append_err _ _ _ _ _ _ Hv Hrun) as [Hv' He]. by apply grew_nothing.
Qed.

(** Nothing that was on a stream is lost or moved. *)
Lemma grew_prefix stream records s s' other : grew stream records s s' ->
  exists more, log_events s' other = log_events s other ++ more.
Proof.
  intros (_ & Ho & es & He & _). destruct (decide (other = stream)) as [->|Hne]; [by exists es|].
  exists []. rewrite app_nil_r. by apply Ho.
Qed.

Lemma grew_elem stream records s s' other e : grew stream records s s' ->
  e ∈ log_events s other -> e ∈ log_events s' other.
Proof. intros (more & ->)%(grew_prefix _ _ _ _ other). set_solver. Qed.

(** What is new on a stream was one of the records. *)
Lemma grew_new stream records s s' other e : grew stream records s s' -> e ∈ log_events s' other ->
  e ∈ log_events s other \/ other = stream /\ exists r n, r ∈ records /\ e = from_new stream n r.
Proof.
  intros (_ & Ho & es & He & Hes) Hin. destruct (decide (other = stream)) as [->|Hne]; [|left; by rewrite <- Ho].
  rewrite He in Hin. apply elem_of_app in Hin as [Hin|Hin]; [by left|right].
  split; [done|]. destruct Hes as [->| ->]; [set_solver|]. revert e Hin. apply Forall_forall, numbered_made.
Qed.

(** A single record is appended once at most. *)
Lemma grew_single stream r s s' : grew stream [r] s s' ->
  log_events s' stream = log_events s stream \/
  log_events s' stream = log_events s stream ++ [from_new stream (Z.of_nat (Datatypes.S (length (log_events s stream)))) r].
Proof.
  intros (_ & _ & es & -> & [->| ->]); [left; by rewrite app_nil_r|right]. do 2 f_equal. unfold numbered. cbn. do 2 f_equal. lia.
Qed.

Lemma next_sequence_length stream s : log_valid s ->
  next_sequence (log_events s stream) = Z.of_nat (Datatypes.S (length (log_events s stream))).
Proof.
  intros Hv. unfold next_sequence. destruct (last (log_events s stream)) as [e|] eqn:Hl.
  - rewrite last_lookup in Hl. destruct (log_numbered _ _ _ _ Hv Hl) as [-> _].
    destruct (log_events s stream); [done|]. cbn. lia.
  - apply last_None in Hl as ->. done.
Qed.

(** A snapshot is what is on the stream up to the fence its reader presents. *)
Definition snapshot_at stream (n : EventSequence) (events : list EventRecord) s : Prop :=
  exists more, log_events s stream = events ++ more /\ n = Z.of_nat (Datatypes.S (length events)).

Lemma snapshot_now stream s : log_valid s ->
  snapshot_at stream (next_sequence (log_events s stream)) (log_events s stream) s.
Proof. intros Hv. exists []. by rewrite app_nil_r, next_sequence_length. Qed.

Lemma snapshot_grew stream n events records other s s' : grew other records s s' ->
  snapshot_at stream n events s -> snapshot_at stream n events s'.
Proof.
  intros Hg (more & He & Hn). destruct (grew_prefix _ _ _ _ stream Hg) as (more' & He').
  exists (more ++ more'). by rewrite He', He, app_assoc.
Qed.

(** An append is accepted behind a fence only if the snapshot is still the whole stream. *)
Lemma snapshot_fence stream n events r s s' es : log_valid s -> snapshot_at stream n events s ->
  log_append_fenced stream n [r] s = (s', Ok es) ->
  log_events s stream = events /\ es = [from_new stream n r] /\ log_events s' stream = events ++ [from_new stream n r].
Proof.
  intros Hv (more & He & Hn) Hrun. destruct (log_append_ok _ _ _ _ _ _ Hv Hrun) as (Hv' & Hnext & Hes & He' & _).
  rewrite He, length_app in Hnext. destruct more; [|cbn in Hnext; lia]. rewrite app_nil_r in He.
  assert (es = [from_new stream n r]) as ->; [|by rewrite <- He].
  rewrite Hes. unfold numbered. cbn. do 2 f_equal. rewrite He, Hn. lia.
Qed.
End Growth.

(** ** Joins *)

Class JoinCodecLaws `{UuidText} `{!JoinCodec} := { joined_decodes p reason : decode_joined (joined_json p reason) = Ok p }.

Section Joins.
Context `{UuidText} `{!JoinCodec} `{!JoinCodecLaws} {S : Type} `{EventAppendLaws S}.
Implicit Types (s : S) (stream : EventStreamId) (j : Joiner) (e : EventRecord).

(** The event is a join of the spawn. *)
Definition joins (spawned : EventRecordId) e : Prop :=
  kind e = ThreadJoined /\ exists p, decode_joined (payload e) = Ok p /\ joined_spawned_event_id p = spawned.

Lemma existing_join_spec spawned events :
  match existing_join spawned events with
  | Ok (Some e) => e ∈ events /\ joins spawned e
  | Ok None => forall e, e ∈ events -> ~ joins spawned e
  | Err _ => True
  end.
Proof.
  induction events as [|e events IH]; cbn; [set_solver|].
  case_bool_decide as Hk; cbn [negb].
  - destruct (decode_joined (payload e)) as [p|] eqn:Hp; [|done].
    destruct (String.eqb_spec (uuid_text (joined_spawned_event_id p)) (uuid_text spawned)) as [Heq|Hne].
    + apply (inj uuid_text) in Heq. split; [set_solver|]. by split; [|exists p].
    + destruct (existing_join spawned events) as [[x|]|]; [set_solver| |done].
      intros x [->|Hx]%elem_of_cons; [|by apply IH]. intros (_ & q & Hq & <-). congruence.
  - destruct (existing_join spawned events) as [[x|]|]; [set_solver| |done].
    intros x [->|Hx]%elem_of_cons; [|by apply IH]. by intros [Hkx _].
Qed.

Lemma join_record_joins stream n id now (r : JoinRequest) :
  joins (join_spawned_event_id r) (from_new stream n (join_record id now r)).
Proof.
  unfold join_record. destruct (join_source_event r) as [[src ev]|]; (split; [done|]); cbn [payload from_new new_payload discharged];
    (eexists; split; [apply joined_decodes|done]).
Qed.

Definition joins_unique s : Prop := forall stream spawned e1 e2,
  e1 ∈ log_events s stream -> e2 ∈ log_events s stream -> joins spawned e1 -> joins spawned e2 -> e1 = e2.

(** What a joiner at its phase knows of the stream. *)
Definition joiner_ok s j : Prop :=
  (forall stream n, joins (joiner_spawned j) (from_new stream n (joiner_record j))) /\
  match joiner_phase j with
  | JoinReading => True
  | JoinAppending n =>
      exists events, snapshot_at (joiner_stream j) n events s /\ forall e, e ∈ events -> ~ joins (joiner_spawned j) e
  | Joined (Ok a) => join_appended_record a ∈ log_events s (joiner_stream j) /\ joins (joiner_spawned j) (join_appended_record a)
  | Joined (Err _) => True
  end.

(** The joiner wrote its join. *)
Definition joiner_wrote j : bool :=
  match joiner_phase j with Joined (Ok a) => join_was_appended a | _ => false end.

Lemma joiner_ok_grew stream records s s' j : grew stream records s s' -> joiner_ok s j -> joiner_ok s' j.
Proof.
  intros Hg [Hr Hp]. split; [done|]. destruct (joiner_phase j) as [|n|[a|e]]; [done| | |done].
  - destruct Hp as (events & Hs & He). exists events. split; [by eapply snapshot_grew|done].
  - destruct Hp as [Hin Hj]. split; [by eapply grew_elem|done].
Qed.

(** A step of a joiner writes its record at most, and only where no join of the spawn is. *)
Lemma join_step_spec j s s' p : log_valid s -> joiner_ok s j -> join_step j s = (s', p) ->
  grew (joiner_stream j) [joiner_record j] s s' /\ joiner_ok s' (set_join_phase p j) /\
  (joiner_phase j = p \/ joiner_wrote j = false) /\
  ((forall other, log_events s' other = log_events s other) /\ (joiner_wrote (set_join_phase p j) = joiner_wrote j) \/
   (forall e, e ∈ log_events s (joiner_stream j) -> ~ joins (joiner_spawned j) e)).
Proof.
  intros Hv [Hr Hp]. unfold join_step. destruct (joiner_phase j) as [|n|r] eqn:Hphase; cbn.
  - intros Hrun. injection Hrun as <- <-.
    split_and!; [by apply grew_nothing| |right; unfold joiner_wrote; by rewrite Hphase|left; split; [done|]].
    + split; [done|]. cbn. unfold read_log. rewrite (log_read_all _ _ Hv). cbn. unfold join_decide.
      pose proof (existing_join_spec (joiner_spawned j) (log_events s (joiner_stream j))) as Hex.
      destruct (existing_join _ _) as [[e|]|]; [done| |done]. eexists. split; [by apply snapshot_now|done].
    + unfold joiner_wrote. rewrite Hphase. cbn. unfold read_log. rewrite (log_read_all _ _ Hv). cbn. unfold join_decide.
      by destruct (existing_join _ _) as [[e|]|].
  - destruct (log_append_fenced _ _ _ s) as [s1 r] eqn:Hrun. intros Heq. injection Heq as <- <-.
    pose proof (log_append_fenced_grew (joiner_stream j) n [joiner_record j] s Hv) as Hg. rewrite Hrun in Hg.
    destruct Hp as (events & Hs & Hno). split_and!; [done| |right; unfold joiner_wrote; by rewrite Hphase|].
    + split; [done|]. cbn. destruct r as [es|err]; [|by destruct err].
      destruct (snapshot_fence _ _ _ _ _ _ _ Hv Hs Hrun) as (_ & -> & He). cbn.
      destruct (event_record_eqb _ _); [|done]. cbn. split; [rewrite He; set_solver|done].
    + destruct r as [es|err].
      * right. by destruct (snapshot_fence _ _ _ _ _ _ _ Hv Hs Hrun) as (-> & _).
      * left. split; [by destruct (log_append_err _ _ _ _ _ _ Hv Hrun)|].
        unfold joiner_wrote. rewrite Hphase. cbn. by destruct err.
  - intros Hrun. injection Hrun as <- <-. split_and!; [by apply grew_nothing| |by left|left; split; [done|]].
    + split; [done|]. exact Hp.
    + unfold joiner_wrote. by rewrite Hphase.
Qed.

(** ** Joiners at the same time *)

Record join_inv (w : JoinWorld) : Prop := {
  ji_valid : log_valid (join_store w);
  ji_unique : joins_unique (join_store w);
  ji_joiners : map_Forall (fun _ j => joiner_ok (join_store w) j) (joiners w);
  ji_writers : forall k1 k2 j1 j2, joiners w !! k1 = Some j1 -> joiners w !! k2 = Some j2 ->
    joiner_stream j1 = joiner_stream j2 -> joiner_spawned j1 = joiner_spawned j2 ->
    joiner_wrote j1 = true -> joiner_wrote j2 = true -> k1 = k2;
}.

Lemma joiner_wrote_on_log s j : joiner_ok s j -> joiner_wrote j = true ->
  exists e, e ∈ log_events s (joiner_stream j) /\ joins (joiner_spawned j) e.
Proof.
  unfold joiner_wrote. intros [_ Hp]. destruct (joiner_phase j) as [| |[a|]]; [done|done| |done].
  intros _. by exists (join_appended_record a).
Qed.

Lemma joins_unique_grew stream r s s' : joins_unique s -> grew stream [r] s s' ->
  (log_events s' stream = log_events s stream \/
   forall spawned n, joins spawned (from_new stream n r) -> forall e, e ∈ log_events s stream -> ~ joins spawned e) ->
  joins_unique s'.
Proof.
  intros Hu Hg Hno st spawned e1 e2 Hm1 Hm2 Hj1 Hj2.
  destruct (decide (st = stream)) as [->|Hne]; [|destruct Hg as (_ & Ho & _); rewrite Ho in Hm1, Hm2 by done; by eapply Hu].
  destruct (grew_single _ _ _ _ Hg) as [He|He]; [rewrite He in Hm1, Hm2; by eapply Hu|].
  destruct Hno as [Hno|Hno]; [rewrite Hno in Hm1, Hm2; by eapply Hu|].
  rewrite He in Hm1, Hm2.
  apply elem_of_app in Hm1 as [Hm1|Hm1%list_elem_of_singleton]; apply elem_of_app in Hm2 as [Hm2|Hm2%list_elem_of_singleton]; subst.
  - by eapply Hu.
  - by destruct (Hno _ _ Hj2 e1).
  - by destruct (Hno _ _ Hj1 e2).
  - done.
Qed.

Lemma join_inv_step label w w' : join_inv w -> joins_by_joiners label -> join_turn label w = Some w' -> join_inv w'.
Proof.
  intros [Hv Hu Hj Hw] Hlabel Hturn. destruct label as [k id now r|k|stream records]; cbn in Hturn.
  - destruct (joiners w !! k) eqn:Hk; [done|]. injection Hturn as <-. split; [done..| |].
    + apply map_Forall_insert_2; [|done]. split; [|done]. intros stream n. apply join_record_joins.
    + intros k1 k2 j1 j2 Hm1 Hm2 Hs1 Hs2 Hw1 Hw2. cbn in Hm1, Hm2.
      apply lookup_insert_Some in Hm1 as [[_ <-]|[_ Hm1]]; [done|].
      apply lookup_insert_Some in Hm2 as [[_ <-]|[_ Hm2]]; [done|]. by eapply Hw.
  - destruct (joiners w !! k) as [j|] eqn:Hk; [|done].
    destruct (join_step j (join_store w)) as [s p] eqn:Hstep. injection Hturn as <-.
    pose proof (Hj _ _ Hk) as Hok.
    destruct (join_step_spec _ _ _ _ Hv Hok Hstep) as (Hg & Hok' & _ & Hcase). split; cbn [join_store joiners].
    + by destruct Hg.
    + eapply joins_unique_grew; [exact Hu|exact Hg|]. destruct Hcase as [[Hsame _]|Hno]; [by left|right].
      intros spawned n (_ & q & Hq & <-) e He. destruct (proj1 Hok (joiner_stream j) n) as (_ & q' & Hq' & Hsp).
      assert (q' = q) as -> by congruence. rewrite Hsp. by apply Hno.
    + apply map_Forall_insert_2; [done|]. intros k2 j2 Hm2. eapply joiner_ok_grew; [exact Hg|]. by apply (Hj k2).
    + assert (forall k2 j2, joiners w !! k2 = Some j2 -> k2 <> k -> joiner_stream j2 = joiner_stream j ->
        joiner_spawned j2 = joiner_spawned j -> joiner_wrote j2 = true -> joiner_wrote (set_join_phase p j) = true -> False) as Hne.
      { intros k2 j2 Hm2 Hk2 Hst Hsp Hw2 Hwp. destruct Hcase as [[_ Hsame]|Hno].
        - rewrite Hsame in Hwp. apply Hk2. by apply (Hw k2 k j2 j).
        - destruct (joiner_wrote_on_log _ _ (Hj _ _ Hm2) Hw2) as (e & He & Hje).
          apply (Hno e); [by rewrite <- Hst|by rewrite <- Hsp]. }
      intros k1 k2 j1 j2 Hm1 Hm2 Hs1 Hs2 Hw1 Hw2.
      apply lookup_insert_Some in Hm1 as [[Hk1 Hj1]|[Hk1 Hm1]]; apply lookup_insert_Some in Hm2 as [[Hk2 Hj2]|[Hk2 Hm2]]; subst.
      * done.
      * by destruct (Hne k2 j2 Hm2 (not_eq_sym Hk2)).
      * by destruct (Hne k1 j1 Hm1 (not_eq_sym Hk1)).
      * by apply (Hw k1 k2 j1 j2).
  - injection Hturn as <-. cbn in Hlabel. pose proof (log_append_grew stream records (join_store w) Hv) as Hg.
    split; cbn [join_store joiners]; [by destruct Hg| | |done].
    + intros st spawned e1 e2 Hm1 Hm2 Hj1 Hj2. rewrite Forall_forall in Hlabel.
      assert (forall e, e ∈ log_events (log_append stream records (join_store w)).1 st -> joins spawned e ->
        e ∈ log_events (join_store w) st) as Hold.
      { intros e He [Hke _]. apply (grew_new _ _ _ _ _ _ Hg) in He as [He|(_ & r & n & Hr & ->)]; [done|]. by destruct (Hlabel r Hr). }
      eapply Hu; eauto.
    + intros k j Hk. eapply joiner_ok_grew; [exact Hg|]. by apply (Hj k).
Qed.

Lemma join_reachable_inv s w : log_valid s -> joins_unique s -> join_reachable s w -> join_inv w.
Proof.
  intros Hv Hu. induction 1 as [|label w w' _ IH Hl Hw]; [|by eapply join_inv_step].
  split; [done|done|apply map_Forall_empty|]. intros k1 k2 j1 j2 Hm1. cbn in Hm1. by rewrite lookup_empty in Hm1.
Qed.

(** C7 - The first join wins: whatever joiners of a child interleave, with each other and with what
    else is written, the control stream holds one [thread.joined] of the spawn at most, every joiner
    that returns a record returns that one, and at most one of them is told that it wrote it. *)
Theorem join_first_wins s w :
  log_valid s -> joins_unique s -> join_reachable s w ->
  joins_unique (join_store w) /\
  (forall k j a, joiners w !! k = Some j -> joiner_phase j = Joined (Ok a) ->
     join_appended_record a ∈ log_events (join_store w) (joiner_stream j) /\ joins (joiner_spawned j) (join_appended_record a)) /\
  (forall k1 k2 j1 j2 a1 a2, joiners w !! k1 = Some j1 -> joiners w !! k2 = Some j2 ->
     joiner_stream j1 = joiner_stream j2 -> joiner_spawned j1 = joiner_spawned j2 ->
     joiner_phase j1 = Joined (Ok a1) -> joiner_phase j2 = Joined (Ok a2) ->
     join_appended_record a1 = join_appended_record a2 /\
     (join_was_appended a1 = true -> join_was_appended a2 = true -> k1 = k2)).
Proof.
  intros Hv Hu Hr. destruct (join_reachable_inv _ _ Hv Hu Hr) as [_ Hu' Hj Hw].
  assert (forall k j a, joiners w !! k = Some j -> joiner_phase j = Joined (Ok a) ->
     join_appended_record a ∈ log_events (join_store w) (joiner_stream j) /\ joins (joiner_spawned j) (join_appended_record a)) as Hret.
  { intros k j a Hk Hp. destruct (Hj _ _ Hk) as [_ Ha]. by rewrite Hp in Ha. }
  split_and!; [done|done|]. intros k1 k2 j1 j2 a1 a2 Hm1 Hm2 Hst Hsp Hp1 Hp2.
  destruct (Hret _ _ _ Hm1 Hp1) as [Hin1 Hj1], (Hret _ _ _ Hm2 Hp2) as [Hin2 Hj2]. split.
  - apply (Hu' (joiner_stream j1) (joiner_spawned j1)); [done|by rewrite Hst|done|by rewrite Hsp].
  - intros Ha1 Ha2. apply (Hw k1 k2 j1 j2); [done..| |]; unfold joiner_wrote; by rewrite ?Hp1, ?Hp2.
Qed.

(** ** A joiner alone *)

Lemma obj_insert_Forall {A} (P : string * A -> Prop) k v m : P (k, v) -> Forall P m -> Forall P (obj_insert k v m).
Proof.
  intros Hkv. induction 1 as [|[k' v'] m Hm Hms IH]; cbn; [by repeat constructor|].
  destruct (str_cmp k k'); auto using Forall_cons_2.
Qed.

(** An object of values that are equal to themselves (as a [NaN] is not) is. *)
Lemma jobj_eqb_refl l : Forall (fun kv => json_eqb kv.2 kv.2 = true) l -> json_eqb (jobj l) (jobj l) = true.
Proof.
  intros Hl. assert (Forall (fun kv => json_eqb kv.2 kv.2 = true) (obj_of l)) as Ho.
  { unfold obj_of. assert (Forall (fun kv : string * json => json_eqb kv.2 kv.2 = true) []) as Hm by constructor.
    revert Hm. generalize (@nil (string * json)). induction Hl as [|[k v] l Hv Hl IH]; intros m Hm; cbn; [done|].
    apply IH. by apply obj_insert_Forall. }
  unfold jobj. cbn. induction Ho as [|[k v] m Hv Hm IH]; [done|]. cbn in Hv. by rewrite String.eqb_refl, Hv.
Qed.

Lemma joined_json_eqb p reason : json_eqb (joined_json p reason) (joined_json p reason) = true.
Proof.
  apply jobj_eqb_refl. destruct (joined_result_digest p), reason; repeat constructor; apply String.eqb_refl.
Qed.

Lemma event_record_eqb_refl e : json_eqb (payload e) (payload e) = true -> event_record_eqb e e = true.
Proof.
  intros Hp. unfold event_record_eqb. rewrite Hp, N.eqb_refl, String.eqb_refl, !Z.eqb_refl.
  by rewrite !bool_decide_eq_true_2 by done.
Qed.

Lemma join_record_eqb stream n id now (r : JoinRequest) :
  event_record_eqb (from_new stream n (join_record id now r)) (from_new stream n (join_record id now r)) = true.
Proof.
  apply event_record_eqb_refl. unfold join_record. destruct (join_source_event r) as [[src ev]|]; apply joined_json_eqb.
Qed.

(** What a joiner alone ends with: the join that is there, its own, or an error that wrote nothing. *)
Inductive join_outcome (j : Joiner) (s s' : S) : VerletResult ThreadJoinAppend -> Prop :=
  | join_found e : s' = s -> e ∈ log_events s (joiner_stream j) -> joins (joiner_spawned j) e ->
      join_outcome j s s' (Ok {| join_appended_record := e; join_was_appended := false |})
  | join_written e : (forall e, e ∈ log_events s (joiner_stream j) -> ~ joins (joiner_spawned j) e) ->
      e = from_new (joiner_stream j) (next_sequence (log_events s (joiner_stream j))) (joiner_record j) ->
      log_events s' (joiner_stream j) = log_events s (joiner_stream j) ++ [e] ->
      join_outcome j s s' (Ok {| join_appended_record := e; join_was_appended := true |})
  | join_refused err :
      log_append_fenced (joiner_stream j) (next_sequence (log_events s (joiner_stream j))) [joiner_record j] s = (s', Err err) ->
      (forall stream, log_events s' stream = log_events s stream) ->
      join_outcome j s s' (Err (HistoryFailed err))
  | join_malformed err : s' = s -> existing_join (joiner_spawned j) (log_events s (joiner_stream j)) = Err err ->
      join_outcome j s s' (Err err).

(** One read and one append are enough. *)
Lemma join_run_alone id now (r : JoinRequest) s : log_valid s ->
  exists s' a, append_thread_joined_first_wins id now r s = (s', Joined a) /\ join_outcome (new_joiner id now r) s s' a /\
    grew (control_stream_id (join_parent r)) [join_record id now r] s s'.
Proof.
  intros Hv. unfold append_thread_joined_first_wins. set (j := new_joiner id now r).
  cbn [join_run joiner_phase j new_joiner]. unfold join_step. cbn [joiner_phase j new_joiner joiner_stream].
  unfold read_log. rewrite (log_read_all _ _ Hv). cbn [map_err]. fold j.
  pose proof (existing_join_spec (joiner_spawned j) (log_events s (joiner_stream j))) as Hex.
  unfold join_decide. destruct (existing_join _ _) as [[e|]|e] eqn:Hj; cbn in Hj; rewrite ?Hj; cbn.
  - destruct Hex. do 2 eexists. split_and!; [done|by apply join_found|by apply grew_nothing].
  - set (n := next_sequence _). pose proof (log_append_fenced_grew (joiner_stream j) n [joiner_record j] s Hv) as Hg.
    cbn in Hg |- *. destruct (log_append_fenced _ n _ s) as [s' [es|err]] eqn:Hrun; cbn.
    + destruct (snapshot_fence _ _ _ _ _ _ _ Hv (snapshot_now _ _ Hv) Hrun) as (_ & -> & He).
      rewrite join_record_eqb. cbn. do 2 eexists. split_and!; [done|by apply join_written|done].
    + destruct (log_append_err _ _ _ _ _ _ Hv Hrun) as [_ Hsame].
      destruct err; cbn; try (do 2 eexists; split_and!; [done|by eapply join_refused|done]).
      destruct (log_append_conflict _ _ _ _ _ _ _ _ Hv Hrun) as [Ha Hb].
      unfold n in Hb. rewrite next_sequence_length in Hb by done. by rewrite Ha in Hb.
  - do 2 eexists. split_and!; [done|by apply join_malformed|by apply grew_nothing].
Qed.
End Joins.
