(* ===== verification/Spawn.v ===== *)
(** * Spawn records and their folds

    Models the folds of [verlet-kernel/src/kernel/thread_spawn_projector.rs]: what the
    control stream of a parent says of the requests to spawn a child, who claimed them,
    which children they became and which task names and handles stand for those.

    The decoders serde derives are the class [SpawnCodec], the text of an error of the
    history [SpawnTexts]. *)

From stdpp Require Import base gmap sets list strings pretty.
From Stdlib Require Import ZArith Lia.
From S2P Require Import Prelude Json EventKind Contracts Records Store EventLog Lease Queue Control Coupling Stdlib Canonical ReadPlan Join.

Local Open Scope verlet_scope.
Local Open Scope string_scope.
Local Open Scope list_scope.

Definition THREAD_SPAWN_PROJECTOR_DISCHARGED_BY := "projector:thread-spawn".
Definition THREAD_SPAWN_PROJECTOR_FUNCTION := "thread_spawn_projector/v1".
Definition THREAD_SPAWN_DISPATCH_FUNCTION := "thread_spawn_dispatch/v1".
Definition UNBOUND_CHILD_AGENT_REF := "unbound".
(** In nanoseconds. *)
Definition THREAD_SPAWN_CLAIM_WAIT_TIMEOUT : Z := 5 * 10 ^ 9.
Definition THREAD_SPAWN_CLAIM_POLL_INTERVAL : Z := 10 * 10 ^ 6.

(** ** Payloads *)

Record ThreadSpawnRequestedPayload := mk_spawn_request {
  request_parent_thread_id : ThreadId;
  request_parent_turn_id : option string;
  request_task_name : option string;
  request_submitted_turn_id : option string;
  request_child_agent_ref : string;
  request_initial_submission : string;
  request_correlation_id : string;
  request_block_parent : bool;
}.

(** Without [fork], which nothing here writes or reads. *)
Record ThreadSpawnedPayload := mk_spawned {
  spawned_parent_thread_id : ThreadId;
  spawned_parent_turn_id : option string;
  spawned_child_thread_id : ThreadId;
  spawned_child_manifest_hash : string;
  spawned_child_policy_hash : option string;
  spawned_granted : list string;
  spawned_inputs_hash : string;
}.

(** What is read of an [AgentManifestBindReceipt]: a placement is its target. *)
Record SpawnBindReceipt := {
  receipt_manifest_hash : string;
  receipt_placement : option PlacementTarget;
  receipt_has_workspace : bool;
}.

(** [serde_json::from_value] and [from_str]; the error is its text. *)
Class SpawnCodec := {
  decode_spawn_request : json -> result ThreadSpawnRequestedPayload string;
  decode_spawned : json -> result ThreadSpawnedPayload string;
  decode_coupling_set : string -> result BoundCouplingSet string;
  decode_bind_receipt : json -> result SpawnBindReceipt string;
}.

Inductive HandleKind := HandleThread | HandleProcess.
Record HandleId := mk_handle_id { handle_kind : HandleKind; handle_id : string }.
#[global] Instance HandleKind_eq_dec : EqDecision HandleKind.
Proof. solve_decision. Defined.
#[global] Instance HandleId_eq_dec : EqDecision HandleId.
Proof. solve_decision. Defined.

(** ** Errors *)

(** The errors of [VerletError] these functions make; [SpawnHost] is one the host answers with. *)
Inductive SpawnError :=
  | SpawnHistory (e : VerletError)
  | SpawnExecution (text : string)
  | SpawnFactory (text : string)
  | SpawnScopeMismatch (thread : ThreadId) (requested actual : ThreadScope)
  | SpawnHost (text : string).
Notation SpawnResult T := (result T SpawnError).

Class SpawnTexts := {
  history_text : VerletError -> string;
  scope_mismatch_text : ThreadId -> ThreadScope -> ThreadScope -> string;
  debug_text : string -> string;  (** What [{:?}] writes of a string. *)
}.

(** [Display for VerletError]. *)
Definition spawn_error_text `{SpawnTexts} (e : SpawnError) : string :=
  match e with
  | SpawnHistory e => "history store failed: " +:+ history_text e
  | SpawnExecution text => "runtime execution failed: " +:+ text
  | SpawnFactory text => "runtime factory failed: " +:+ text
  | SpawnScopeMismatch thread requested actual => scope_mismatch_text thread requested actual
  | SpawnHost text => text
  end.

(** [Iterator::find_map]. *)
Fixpoint find_map {A B} (f : A -> option B) (l : list A) : option B :=
  match l with
  | [] => None
  | a :: l => match f a with Some b => Some b | None => find_map f l end
  end.

(** A text of an event's payload. *)
Definition payload_text (key : string) (e : EventRecord) : option string := value_get key (payload e) ≫= as_str.

Section Folds.
Context `{UuidParse} `{SpawnCodec} `{SpawnTexts}.

Definition handle_of_thread (thread : ThreadId) : HandleId := mk_handle_id HandleThread (uuid_text thread).

Definition spawn_request_fields (p : ThreadSpawnRequestedPayload) : list (string * json) :=
  [("parent_thread_id", JString (uuid_text (request_parent_thread_id p)))] ++
  opt_field "parent_turn_id" JString (request_parent_turn_id p) ++
  opt_field "task_name" JString (request_task_name p) ++
  opt_field "submitted_turn_id" JString (request_submitted_turn_id p) ++
  [("child_agent_ref", JString (request_child_agent_ref p));
   ("initial_submission", JString (request_initial_submission p));
   ("correlation_id", JString (request_correlation_id p)); ("block_parent", JBool (request_block_parent p))].

Definition is_spawn_request_claim (e : EventRecord) : bool :=
  bool_decide (kind e = ThreadSpawnRequested) &&
  bool_decide (discharged_by (provenance e) = Some THREAD_SPAWN_PROJECTOR_DISCHARGED_BY) &&
  bool_decide (function (provenance e) = Some THREAD_SPAWN_PROJECTOR_FUNCTION).

(** A request that is not the claim of one. *)
Definition is_spawn_request (e : EventRecord) : bool :=
  bool_decide (kind e = ThreadSpawnRequested) && negb (is_spawn_request_claim e).

(** The payload of an event that is a request. *)
Definition spawn_request (e : EventRecord) : option ThreadSpawnRequestedPayload :=
  if is_spawn_request e then match decode_spawn_request (payload e) with Ok p => Some p | Err _ => None end else None.

Definition spawn_request_belongs_to_parent (e : EventRecord) (p : ThreadSpawnRequestedPayload) (parent : ThreadCoordinates) : bool :=
  (thread_id (coordinates e) =? thread_id parent)%N && bool_decide (scope (coordinates e) = scope parent) &&
  (request_parent_thread_id p =? thread_id parent)%N.

(** The turn a request's child is submitted first. *)
Definition submitted_turn_of (request : EventRecord) (p : ThreadSpawnRequestedPayload) : string :=
  default ("thread-spawn-" +:+ uuid_text (event_id request)) (request_submitted_turn_id p).

(** ** One dispatch *)

Record ThreadSpawnDispatchFold := {
  fold_request_event_id : EventRecordId;
  fold_handle : option HandleId;
  fold_submitted_turn_id : option string;
  fold_task_name : option string;
  fold_failure_reason : option string;
  fold_claimed : bool;
}.

(** The first request with the dispatch id. *)
Definition dispatch_request_of (events : list EventRecord) (dispatch : DispatchId)
    : option (EventRecord * ThreadSpawnRequestedPayload) :=
  find_map (fun e => p ← spawn_request e;
    if String.eqb (request_correlation_id p) dispatch then Some (e, p) else None) events.

(** The first event of a kind with the dispatch id. *)
Definition correlated (k : EventKind) (dispatch : DispatchId) (e : EventRecord) : bool :=
  bool_decide (kind e = k) && bool_decide (payload_text "correlation_id" e = Some dispatch).

(** A claim of the request, or of one with its correlation id. *)
Definition claims (request : EventRecordId) (correlation : option string) (e : EventRecord) : bool :=
  is_spawn_request_claim e &&
  (bool_decide (request ∈ source_event_ids (provenance e)) ||
   match correlation with Some c => bool_decide (payload_text "correlation_id" e = Some c) | None => false end).

Definition fold_thread_spawn_dispatch (events : list EventRecord) (dispatch : DispatchId) : option ThreadSpawnDispatchFold :=
  '(request, p) ← dispatch_request_of events dispatch;
  Some {|
    fold_request_event_id := event_id request;
    fold_handle := e ← List.find (correlated ThreadSpawned dispatch) events;
                   text ← payload_text "child_thread_id" e; handle_of_thread <$> uuid_parse text;
    fold_submitted_turn_id := Some (submitted_turn_of request p);
    fold_task_name := request_task_name p;
    fold_failure_reason := e ← List.find (correlated LoopDenied dispatch) events; payload_text "reason" e;
    fold_claimed := existsb (claims (event_id request) (Some dispatch)) events |}.

Definition spawn_request_already_projected (events : list EventRecord) (request : EventRecordId)
    (correlation : option string) : bool :=
  existsb (fun e =>
    claims request correlation e ||
    (bool_decide (kind e = ThreadSpawned \/ kind e = LoopDenied) &&
     (bool_decide (request ∈ source_event_ids (provenance e)) ||
      match correlation with Some c => bool_decide (payload_text "correlation_id" e = Some c) | None => false end))) events.

(** ** Task names *)

Record ThreadTaskNameResolutionReceipt := {
  resolved_task_name : string;
  resolved_parent_thread_id : ThreadId;
  resolved_request_event_id : EventRecordId;
  resolved_spawned_event_id : EventRecordId;
  resolved_dispatch_id : DispatchId;
  resolved_handle : HandleId;
}.

(** A [thread.spawned] of the request on the parent's stream. *)
Definition spawned_for (parent : ThreadCoordinates) (request : EventRecord) (correlation : string) (e : EventRecord) : bool :=
  bool_decide (kind e = ThreadSpawned) && (thread_id (coordinates e) =? thread_id parent)%N &&
  bool_decide (scope (coordinates e) = scope parent) &&
  bool_decide (payload_text "correlation_id" e = Some correlation) &&
  bool_decide (event_id request ∈ source_event_ids (provenance e)).

Definition resolution_of (parent : ThreadCoordinates) (task_name : string) (request : EventRecord)
    (p : ThreadSpawnRequestedPayload) (e : EventRecord) : SpawnResult ThreadTaskNameResolutionReceipt :=
  s <-? map_err (fun err => SpawnHistory (HistoryText ("thread task_name resolution spawned payload decode failed: " +:+ err)))
    (decode_spawned (payload e)) ;;
  if negb (spawned_parent_thread_id s =? thread_id parent)%N
  then Err (SpawnHistory (HistoryText ("thread task_name " +:+ debug_text task_name +:+ " spawned receipt has the wrong parent")))
  else Ok {|
    resolved_task_name := task_name; resolved_parent_thread_id := thread_id parent;
    resolved_request_event_id := event_id request; resolved_spawned_event_id := event_id e;
    resolved_dispatch_id := request_correlation_id p; resolved_handle := handle_of_thread (spawned_child_thread_id s) |}.

(** The resolutions one request gives. *)
Definition resolutions_of (events : list EventRecord) (parent : ThreadCoordinates) (task_name : string) (request : EventRecord)
    : SpawnResult (list ThreadTaskNameResolutionReceipt) :=
  if negb (thread_id (coordinates request) =? thread_id parent)%N || negb (bool_decide (scope (coordinates request) = scope parent))
  then Ok []
  else
    p <-? map_err (fun err => SpawnHistory (HistoryText ("thread task_name resolution spawn request decode failed: " +:+ err)))
      (decode_spawn_request (payload request)) ;;
    if negb (request_parent_thread_id p =? thread_id parent)%N || negb (bool_decide (request_task_name p = Some task_name))
    then Ok []
    else collect (resolution_of parent task_name request p)
           (List.filter (spawned_for parent request (request_correlation_id p)) events).

Definition fold_thread_task_name_resolution (events : list EventRecord) (parent : ThreadCoordinates) (task_name : string)
    : SpawnResult (option ThreadTaskNameResolutionReceipt) :=
  resolutions <-? collect (resolutions_of events parent task_name) (List.filter is_spawn_request events) ;;
  match List.concat resolutions with
  | [] => Ok None
  | [r] => Ok (Some r)
  | _ => Err (SpawnExecution ("thread task_name " +:+ debug_text task_name +:+ " is ambiguous under this parent"))
  end.

(** ** Handles *)

Record ThreadHandleBinding := {
  binding_request_event_id : EventRecordId;
  binding_spawned_event_id : EventRecordId;
  binding_submitted_turn_id : string;
  binding_consumer : ThreadCoordinates;
  binding_dispatch_id : DispatchId;
  binding_handle : HandleId;
}.
#[global] Instance ThreadHandleBinding_eq_dec : EqDecision ThreadHandleBinding.
Proof. solve_decision. Defined.

Definition binding_error (text : string) : SpawnError := SpawnHistory (HistoryText ("thread handle binding " +:+ text)).

(** The binding of one [thread.spawned] that has a correlation id. *)
Definition binding_of (events : list EventRecord) (spawned : EventRecord) (correlation : string) : SpawnResult ThreadHandleBinding :=
  s <-? map_err (fun err => binding_error ("spawned payload decode failed: " +:+ err)) (decode_spawned (payload spawned)) ;;
  let consumer := thread_id (coordinates spawned) in
  if negb (spawned_parent_thread_id s =? consumer)%N
  then Err (binding_error ("parent " +:+ uuid_text (spawned_parent_thread_id s) +:+ " does not match consumer stream " +:+ uuid_text consumer))
  else
    request <-? ok_or (dispatch_request_of events correlation) (binding_error (correlation +:+ " is missing its spawn request")) ;;
    if negb (request_parent_thread_id request.2 =? consumer)%N
    then Err (binding_error ("request parent " +:+ uuid_text (request_parent_thread_id request.2) +:+
                             " does not match consumer stream " +:+ uuid_text consumer))
    else if negb (bool_decide (event_id request.1 ∈ source_event_ids (provenance spawned)))
    then Err (binding_error (correlation +:+ " spawned receipt is missing request provenance"))
    else Ok {|
      binding_request_event_id := event_id request.1; binding_spawned_event_id := event_id spawned;
      binding_submitted_turn_id := submitted_turn_of request.1 request.2; binding_consumer := coordinates spawned;
      binding_dispatch_id := correlation; binding_handle := handle_of_thread (spawned_child_thread_id s) |}.

Definition binding_step (events : list EventRecord) (bindings : list (string * ThreadHandleBinding)) (spawned : EventRecord)
    : SpawnResult (list (string * ThreadHandleBinding)) :=
  match payload_text "correlation_id" spawned with
  | None => Ok bindings
  | Some correlation =>
      binding <-? binding_of events spawned correlation ;;
      match obj_get correlation bindings with
      | Some existing =>
          if bool_decide (existing = binding) then Ok (obj_insert correlation binding bindings)
          else Err (binding_error (correlation +:+ " has conflicting spawned receipts"))
      | None => Ok (obj_insert correlation binding bindings)
      end
  end.

Definition fold_thread_handle_bindings (events : list EventRecord) : SpawnResult (list ThreadHandleBinding) :=
  bindings <-? try_fold (binding_step events) [] (List.filter (fun e => bool_decide (kind e = ThreadSpawned)) events) ;;
  Ok (map snd bindings).
End Folds.
