(* ===== verification/SpawnTasks.v ===== *)
(** * Spawning children

    Models the rest of [verlet-kernel/src/kernel/thread_spawn_projector.rs]
    ([dispatch_request_with_authority], [project_control_stream], [claim_request],
    [project_claimed], [append_fenced_decision], [append_failure]) and the spawn of a
    child in [kernel/runtime_host/kernel_control.rs] ([spawn_child_inner],
    [spawn_remote_child_with_witness], [append_thread_spawned_event]).

    Dispatchers and projectors run at the same time: a task is a phase, and a step of
    it is one call of the store or of the host, with what the code does until the next.
    What the host answers, the ids and times that are drawn and the clock are inputs of
    the step, so every host is allowed. *)

From stdpp Require Import base gmap sets list strings pretty.
From Stdlib Require Import ZArith Lia.
From S2P Require Import Prelude Json EventKind Contracts Records Store EventLog Lease Queue Control Coupling Stdlib Canonical ReadPlan Join.
From S2P Require Import Spawn.

Local Open Scope verlet_scope.
Local Open Scope string_scope.
Local Open Scope list_scope.

Definition THREAD_BOUND_COUPLING_SET_METADATA := "cooldis.agent.bound_coupling_set".
Definition THREAD_AGENT_MANIFEST_HASH_METADATA := "cooldis.agent.manifest_hash".
Definition THREAD_SPAWN_INPUTS_HASH_METADATA := "cooldis.thread_spawn.inputs_hash".

(** ** The host *)

Record KernelThreadSpawnAgentBinding := {
  agent_metadata : list (string * string);
  agent_compile_receipt : json;
  agent_bind_receipt : json;
  agent_principal_id : string;
}.

(** What an awaited call answers: a thread that was looked up, a resolved agent, no more than
    success, or whether there is a remote executor. *)
Inductive HostAnswer :=
  | AnswerThread (r : SpawnResult ThreadContext)
  | AnswerBinding (r : SpawnResult KernelThreadSpawnAgentBinding)
  | AnswerUnit (r : SpawnResult unit)
  | AnswerExecutor (present : bool).

(** The answer to [get_thread]: the thread that was asked for, or an error. *)
Definition got_thread (thread : ThreadId) (a : HostAnswer) : option (SpawnResult ThreadContext) :=
  match a with
  | AnswerThread (Ok c) => if (thread_id (ctx_coordinates c) =? thread)%N then Some (Ok c) else None
  | AnswerThread (Err e) => Some (Err e)
  | _ => None
  end.

Record StepInput := {
  drawn_id : EventRecordId;      (** The id of a record made in the step. *)
  drawn_now : Z;                 (** Its time, in milliseconds. *)
  drawn_signal : Uuid;           (** [ThreadSignalId::new]. *)
  drawn_thread : ThreadId;       (** [ThreadId::new], for a child. *)
  clock : Z;                     (** [Instant::now], in nanoseconds. *)
  answer : HostAnswer;
}.

Record ThreadSpawnWitness := {
  witness_parent_turn_id : option string;
  witness_correlation_id : option string;
  witness_request_stream_id : option EventStreamId;
  witness_request_event_id : option EventRecordId;
  witness_submitted_turn_id : option string;
}.

(** What was asked of the host. *)
Inductive SpawnEffect :=
  | ChildStarted (w : ThreadSpawnWitness)
  | RemoteChildStarted (w : ThreadSpawnWitness)
  | FirstTurnSubmitted (child : ThreadId) (turn : string)
  | ChildStopped (child : ThreadId).

Section Tasks.
Context `{UuidParse} `{SpawnCodec} `{SpawnTexts} `{JoinCodec} `{JsonTexts} `{Sha256}.
Context {S : Type} `{EventStore S} `{EventAppend S}.

(** ** Fenced decisions *)

Record Decision := {
  decision_request : EventRecord;
  decision_correlation : option string;
  decision_record : NewEventRecord;
}.

Inductive FencedDecisionAppend := DecisionAppended (id : EventRecordId) | AlreadyProjected.

(** Where [append_fenced_decision] is: it has a snapshot, or a conflict made it read again. *)
Inductive DecisionPhase :=
  | Deciding (events : list EventRecord)
  | Redeciding
  | Decided (r : SpawnResult FencedDecisionAppend).

(** The answer to the append of a decision. *)
Definition decision_settle (d : Decision) (next : EventSequence) (r : HistoryResult (list EventRecord)) : DecisionPhase :=
  match r with
  | Ok [e] =>
      if event_record_eqb e (from_new (stream_id (decision_request d)) next (decision_record d))
      then Decided (Ok (DecisionAppended (event_id e)))
      else Decided (Err (SpawnHistory (HistoryText ("fenced thread spawn decision append returned unexpected record " +:+
             uuid_text (event_id e) +:+ " at " +:+ stream_id e +:+ " sequence " +:+ pretty (sequence e)))))
  | Ok es => Decided (Err (SpawnHistory (HistoryText
      ("fenced thread spawn decision append returned " +:+ pretty (length es) +:+ " record(s), expected 1"))))
  | Err (AppendFenceConflict _ _ _) => Redeciding
  | Err e => Decided (Err (SpawnHistory (HistoryFailed e)))
  end.

(** [append_fenced_decision]. *)
Definition decision_step (d : Decision) (p : DecisionPhase) (s : S) : S * DecisionPhase :=
  let stream := stream_id (decision_request d) in
  match p with
  | Deciding events =>
      if spawn_request_already_projected events (event_id (decision_request d)) (decision_correlation d)
      then (s, Decided (Ok AlreadyProjected))
      else
        let next := next_sequence events in
        let (s, r) := log_append_fenced stream next [decision_record d] s in (s, decision_settle d next r)
  | Redeciding =>
      (s, match read_log s stream with
          | Ok events => Deciding events
          | Err e => Decided (Err (SpawnHistory e))
          end)
  | Decided r => (s, Decided r)
  end.

Definition projector_provenance (request : EventRecord) : EventProvenance :=
  mk_provenance [stream_id request] [event_id request] None [] (Some THREAD_SPAWN_PROJECTOR_DISCHARGED_BY)
    (Some THREAD_SPAWN_PROJECTOR_FUNCTION) None.

(** The claim of [claim_request]: the request again, by the projector. *)
Definition claim_record (id : EventRecordId) (now : Z) (request : EventRecord) : NewEventRecord :=
  discharged id now (coordinates request) ThreadSpawnRequested (payload request) (projector_provenance request).

Definition claim_decision (id : EventRecordId) (now : Z) (request : EventRecord) (correlation : string) : Decision := {|
  decision_request := request; decision_correlation := Some correlation; decision_record := claim_record id now request |}.

(** [failure_record]. *)
Definition failure_record (id : EventRecordId) (now : Z) (c : ThreadCoordinates) (request : EventRecord)
    (correlation : option string) (reason : string) : NewEventRecord :=
  discharged id now c LoopDenied
    (jobj [("schema", JString (payload_schema_id LoopDenied)); ("template_id", JString STD_SUPERVISOR_SPAWN_TEMPLATE_ID);
           ("request_event_id", JString (uuid_text (event_id request)));
           ("correlation_id", jopt JString
              match correlation with Some text => Some text | None => payload_text "correlation_id" request end);
           ("status", JString "failed"); ("error_class", JString "thread_spawn_failed"); ("reason", JString reason)])
    (projector_provenance request).

Definition failure_decision (id : EventRecordId) (now : Z) (c : ThreadCoordinates) (request : EventRecord)
    (correlation : option string) (reason : string) : Decision := {|
  decision_request := request; decision_correlation := correlation;
  decision_record := failure_record id now c request correlation reason |}.

(** [append_failure]: an append behind no fence. *)
Definition append_failure (id : EventRecordId) (now : Z) (c : ThreadCoordinates) (request : EventRecord)
    (correlation : option string) (reason : string) (s : S) : S * SpawnResult EventRecord :=
  let failure := failure_record id now c request correlation reason in
  let (s, r) := log_append (stream_id request) [failure] s in
  (s, match r with
      | Ok [e] =>
          if event_record_eqb e (from_new (stream_id request) (sequence e) failure) then Ok e
          else Err (SpawnHistory (HistoryText ("thread spawn failure append returned unexpected record " +:+
                 uuid_text (event_id e) +:+ " on " +:+ stream_id e)))
      | Ok es => Err (SpawnHistory (HistoryText
          ("thread spawn failure append returned " +:+ pretty (length es) +:+ " record(s), expected 1")))
      | Err e => Err (SpawnHistory (HistoryFailed e))
      end).

(** ** The start of a child *)

(** The arguments of the spawn functions of [RuntimeKernelControl]. *)
Record ChildSpawn := {
  child_caller : ThreadContext;
  child_task_name : option string;
  child_input : string;
  child_metadata : list (string * string);
  child_witness : ThreadSpawnWitness;
  child_manifest_payloads : option (json * json * string);
}.

(** Of [AgentProcessSpawnReceipt], without what is the caller's or constant. *)
Record AgentProcessSpawnReceipt := {
  process_thread_id : ThreadId;
  process_task_name : option string;
  process_submitted_turn_id : string;
  process_dispatch_id : DispatchId;
}.

(** A child that is started, with the ids its spawn goes by. *)
Record StartedChild := {
  started_context : ThreadContext;
  started_turn_id : string;
  started_dispatch_id : DispatchId;
}.
Definition started_thread_id (c : StartedChild) : ThreadId := thread_id (ctx_coordinates (started_context c)).

Inductive ChildPhase :=
  | ChildStarting                                               (** [start_thread_with_topology_and_metadata]. *)
  | ChildParent (child : ThreadContext)                         (** [get_thread]. *)
  | ChildWitness (child : StartedChild) (parent : ThreadContext)  (** The append of [thread.spawned]. *)
  | ChildCouplings (child : StartedChild)                       (** The couplings it triggers. *)
  | ChildReceipts (child : StartedChild)                        (** [record_manifest_receipts_for_principal]. *)
  | ChildSubmitting (child : StartedChild)                      (** [submit_turn]. *)
  | ChildStopping (child : StartedChild) (e : SpawnError)       (** [shutdown_thread]. *)
  | RemoteExecutor                                              (** [remote_thread_executor]. *)
  | RemoteParent (child : ThreadContext)
  | RemoteWitness (child : StartedChild) (parent : ThreadContext)
  | RemoteCouplings (child : StartedChild) (spawned : EventRecord)
  | RemoteSpawning (child : StartedChild) (spawned : EventRecord)   (** [executor.spawn]. *)
  | RemoteJoining (e : SpawnError) (j : Joiner)                 (** The join of a child that failed to start. *)
  | ChildDone (r : SpawnResult AgentProcessSpawnReceipt).

Definition nonblank_text (o : option string) : option string :=
  match o with Some text => if is_blank text then None else Some text | None => None end.

(** The metadata of a child. *)
Definition spawned_metadata (c : ChildSpawn) : list (string * string) :=
  let m := obj_insert "agent_process_v1" "true" (child_metadata c) in
  let m := obj_insert "spawned_by_thread_id" (uuid_text (thread_id (ctx_coordinates (child_caller c)))) m in
  match nonblank_text (child_task_name c) with Some name => obj_insert "task_name" name m | None => m end.

(** The context of the child: a new thread in the caller's session. *)
Definition child_context (c : ChildSpawn) (thread : ThreadId) : ThreadContext :=
  let caller := ctx_coordinates (child_caller c) in
  with_topology_and_metadata (mk_coordinates (tenant_id caller) (user_id caller) (session_id caller) thread)
    (spawned_from (thread_id caller)) (spawned_metadata c).

(** The ids a spawn goes by, drawn where the witness has none. *)
Definition started_child (c : ChildSpawn) (signal : Uuid) (child : ThreadContext) : StartedChild := {|
  started_context := child;
  started_turn_id := default ("agent-process-v1-" +:+ uuid_text signal) (nonblank_text (witness_submitted_turn_id (child_witness c)));
  started_dispatch_id := default ("thread-spawn-" +:+ uuid_text signal) (witness_correlation_id (child_witness c)) |}.

Definition spawn_receipt (c : ChildSpawn) (child : StartedChild) : AgentProcessSpawnReceipt := {|
  process_thread_id := started_thread_id child; process_task_name := nonblank_text (child_task_name c);
  process_submitted_turn_id := started_turn_id child; process_dispatch_id := started_dispatch_id child |}.

(** [coupling_set_content_hash]. *)
Definition coupling_set_content_hash (set : BoundCouplingSet) : result string string :=
  canonical_json_hash (JArray (map (fun c =>
    jobj [("id", JString (coupling_id c)); ("function_ref", JString (function_ref c)); ("config", config c)])
    (sort_by_key coupling_id (couplings set)))).

Definition bound_coupling_set (raw : string) : SpawnResult BoundCouplingSet :=
  map_err (fun err => SpawnFactory ("thread bound coupling set is invalid: " +:+ err)) (decode_coupling_set raw).

(** [serde_json::to_value] of a [ThreadSpawnedPayload], with the schema and the correlation id. *)
Definition spawned_json (p : ThreadSpawnedPayload) (correlation : option string) : json :=
  jobj ([("parent_thread_id", JString (uuid_text (spawned_parent_thread_id p)))] ++
        opt_field "parent_turn_id" JString (spawned_parent_turn_id p) ++
        [("child_thread_id", JString (uuid_text (spawned_child_thread_id p)));
         ("child_manifest_hash", JString (spawned_child_manifest_hash p))] ++
        opt_field "child_policy_hash" JString (spawned_child_policy_hash p) ++
        [("granted", jstrs (spawned_granted p)); ("inputs_hash", JString (spawned_inputs_hash p));
         ("schema", JString (payload_schema_id ThreadSpawned))] ++ opt_field "correlation_id" JString correlation).

(** The record of [append_thread_spawned_event]. *)
Definition spawned_record (id : EventRecordId) (now : Z) (caller child : ThreadContext) (w : ThreadSpawnWitness)
    : SpawnResult NewEventRecord :=
  let metadata := ctx_metadata child in
  let thread := thread_id (ctx_coordinates child) in
  policy <-? match obj_get THREAD_BOUND_COUPLING_SET_METADATA metadata with
             | None => Ok None
             | Some raw =>
                 set <-? bound_coupling_set raw ;;
                 hash <-? map_err SpawnFactory (coupling_set_content_hash set) ;; Ok (Some hash)
             end ;;
  let p := mk_spawned (thread_id (ctx_coordinates caller)) (witness_parent_turn_id w) thread
             (default "unbound" (obj_get THREAD_AGENT_MANIFEST_HASH_METADATA metadata)) policy []
             (default ("sha256:" +:+ sha256_digest (uuid_text thread)) (obj_get THREAD_SPAWN_INPUTS_HASH_METADATA metadata)) in
  Ok (mk_new_event id (ctx_coordinates caller) now ThreadSpawned Witnessed
       match witness_request_stream_id w, witness_request_event_id w with
       | Some stream, Some event => mk_provenance [stream] [event] None [] None None None
       | _, _ => provenance_default
       end (spawned_json p (witness_correlation_id w))).

(** The append to the control stream of the parent's handle. *)
Definition append_spawned (record : NewEventRecord) (parent : ThreadContext) (s : S) : S * SpawnResult EventRecord :=
  let (s, r) := log_append (control_stream_id (ctx_coordinates parent)) [record] s in
  (s, events <-? map_err (fun e => SpawnHistory (HistoryFailed e)) r ;;
      ok_or (head events) (SpawnHistory (HistoryText "event append returned no record"))).

(** The join of a remote child that could not be started. *)
Definition failed_remote_join (input : StepInput) (c : ChildSpawn) (child : StartedChild) (spawned : EventRecord) (e : SpawnError) : Joiner :=
  new_joiner (drawn_id input) (drawn_now input) {|
    join_parent := ctx_coordinates (child_caller c); join_child := ctx_coordinates (started_context child);
    join_spawned_event_id := event_id spawned; join_terminal_state := TerminalFailed;
    join_result_digest := Some (spawn_error_text e); join_reason := Some "remote child process failed to start";
    join_source_event := None; join_discharged_by := "executor:remote-thread"; join_function := "remote_thread_spawn/v1" |}.

(** [spawn_child_inner] and [spawn_remote_child_with_witness]: one call of the host or the store.
    [None]: the answer is not one to this call. *)
Definition child_step (c : ChildSpawn) (input : StepInput) (p : ChildPhase) (s : S) : option (S * list SpawnEffect * ChildPhase) :=
  let w := child_witness c in
  let got := got_thread (thread_id (ctx_coordinates (child_caller c))) (answer input) in
  match p, answer input with
  | ChildStarting, AnswerUnit (Ok _) => Some (s, [ChildStarted w], ChildParent (child_context c (drawn_thread input)))
  | ChildStarting, AnswerUnit (Err e) => Some (s, [ChildStarted w], ChildDone (Err e))
  | ChildParent child, _ =>
      r ← got;
      Some (s, [], match r with
                   | Ok parent => ChildWitness (started_child c (drawn_signal input) child) parent
                   | Err e => ChildDone (Err e)
                   end)
  | ChildWitness child parent, _ =>
      match spawned_record (drawn_id input) (drawn_now input) (child_caller c) (started_context child) w with
      | Err e => Some (s, [], ChildStopping child e)
      | Ok record =>
          let (s, r) := append_spawned record parent s in
          Some (s, [], match r with Ok _ => ChildCouplings child | Err e => ChildStopping child e end)
      end
  | ChildCouplings child, AnswerUnit (Ok _) =>
      Some (s, [], match child_manifest_payloads c with Some _ => ChildReceipts child | None => ChildSubmitting child end)
  | ChildReceipts child, AnswerUnit (Ok _) => Some (s, [], ChildSubmitting child)
  | ChildSubmitting child, AnswerUnit (Ok _) =>
      Some (s, [FirstTurnSubmitted (started_thread_id child) (started_turn_id child)], ChildDone (Ok (spawn_receipt c child)))
  | ChildCouplings child, AnswerUnit (Err e) | ChildReceipts child, AnswerUnit (Err e) | ChildSubmitting child, AnswerUnit (Err e) =>
      Some (s, [], ChildStopping child e)
  | ChildStopping child e, AnswerUnit _ => Some (s, [ChildStopped (started_thread_id child)], ChildDone (Err e))
  | RemoteExecutor, AnswerExecutor true =>
      Some (s, [], RemoteParent (child_context c (drawn_thread input)))
  | RemoteExecutor, AnswerExecutor false =>
      Some (s, [], ChildDone (Err (SpawnFactory "placement target remote requires a served remote thread executor")))
  | RemoteParent child, _ =>
      r ← got;
      Some (s, [], match r with
                   | Ok parent => RemoteWitness (started_child c (drawn_signal input) child) parent
                   | Err e => ChildDone (Err e)
                   end)
  | RemoteWitness child parent, _ =>
      match spawned_record (drawn_id input) (drawn_now input) (child_caller c) (started_context child) w with
      | Err e => Some (s, [], ChildDone (Err e))
      | Ok record =>
          let (s, r) := append_spawned record parent s in
          Some (s, [], match r with Ok spawned => RemoteCouplings child spawned | Err e => ChildDone (Err e) end)
      end
  | RemoteCouplings child spawned, AnswerUnit (Ok _) => Some (s, [], RemoteSpawning child spawned)
  | RemoteCouplings _ _, AnswerUnit (Err e) => Some (s, [], ChildDone (Err e))
  | RemoteSpawning child spawned, AnswerUnit r =>
      Some (s, [RemoteChildStarted w],
            match r with
            | Ok _ => ChildDone (Ok (spawn_receipt c child))
            | Err e => RemoteJoining e (failed_remote_join input c child spawned e)
            end)
  | RemoteJoining e j, _ =>
      let (s, q) := join_step j s in
      Some (s, [], match q with Joined _ => ChildDone (Err e) | q => RemoteJoining e (set_join_phase q j) end)
  | _, _ => None
  end.

(** ** A claimed request *)

Record ThreadSpawnProjected := {
  projected_request_event_id : EventRecordId;
  projected_child_thread_id : ThreadId;
  projected_submitted_turn_id : string;
  projected_correlation_id : string;
  projected_task_name : option string;
}.

(** The arguments of [project_claimed]. *)
Record ClaimedRequest := {
  claimed_parent : ThreadContext;
  claimed_event : EventRecord;
  claimed_payload : ThreadSpawnRequestedPayload;
  claimed_requires_attachment : bool;
  claimed_has_resolver : bool;
}.

Inductive ProjectPhase :=
  | ProjectChecking
  | ProjectResolving (inputs_hash : string)                     (** [resolve_agent_ref]. *)
  | ProjectChild (c : ChildSpawn) (p : ChildPhase)
  | ProjectDone (r : SpawnResult ThreadSpawnProjected).

(** [parent_has_supervisor_spawn_attachment]. *)
Definition parent_has_supervisor_spawn_attachment (metadata : list (string * string)) : SpawnResult bool :=
  match obj_get THREAD_BOUND_COUPLING_SET_METADATA metadata with
  | None => Ok false
  | Some raw =>
      set <-? bound_coupling_set raw ;;
      Ok (existsb (fun c => String.eqb (coupling_id c) STD_SUPERVISOR_SPAWN_TEMPLATE_ID) (couplings set))
  end.

(** The arguments whose hash the child records. *)
Definition spawn_arguments (p : ThreadSpawnRequestedPayload) : list (string * json) :=
  match request_task_name p with
  | Some name =>
      [("task_name", JString name); ("message", JString (request_initial_submission p))] ++
      (if String.eqb (request_child_agent_ref p) UNBOUND_CHILD_AGENT_REF then []
       else [("agent_ref", JString (request_child_agent_ref p))])
  | None => [("agent_ref", JString (request_child_agent_ref p)); ("message", JString (request_initial_submission p))]
  end.

Definition argument_agent_ref (p : ThreadSpawnRequestedPayload) : string :=
  str_trim (default "" (value_get "agent_ref" (jobj (spawn_arguments p)) ≫= as_str)).

Definition bind_receipt_of (binding : KernelThreadSpawnAgentBinding) : SpawnResult SpawnBindReceipt :=
  map_err (fun err => SpawnFactory ("thread spawn projector agent_ref bind receipt is invalid: " +:+ err))
    (decode_bind_receipt (agent_bind_receipt binding)).

(** The metadata of [spawn_metadata]. *)
Definition child_spawn_metadata (inputs_hash : string) (binding : option (KernelThreadSpawnAgentBinding * SpawnBindReceipt))
    : list (string * string) :=
  let m := obj_insert THREAD_SPAWN_INPUTS_HASH_METADATA inputs_hash (default [] ((fun b => agent_metadata b.1) <$> binding)) in
  match binding with
  | Some (_, receipt) =>
      match obj_get THREAD_AGENT_MANIFEST_HASH_METADATA m with
      | Some _ => m
      | None => obj_insert THREAD_AGENT_MANIFEST_HASH_METADATA (receipt_manifest_hash receipt) m
      end
  | None => m
  end.

(** From the metadata to the choice of the placement. *)
Definition project_child (r : ClaimedRequest) (inputs_hash : string) (binding : option KernelThreadSpawnAgentBinding) : ProjectPhase :=
  let p := claimed_payload r in
  match match binding with
        | None => Ok None
        | Some b => receipt <-? bind_receipt_of b ;; Ok (Some (b, receipt))
        end with
  | Err e => ProjectDone (Err e)
  | Ok bound =>
      let target := default Local (bound ≫= fun b => receipt_placement b.2) in
      let workspace := default false ((fun b => receipt_has_workspace b.2) <$> bound) in
      if negb (bool_decide (target = Local)) && workspace
      then ProjectDone (Err (SpawnFactory
             "workspace bindings require local placement and cannot cross the remote child executor boundary"))
      else
        let c := {|
          child_caller := claimed_parent r;
          child_task_name := Some (default (request_correlation_id p) (request_task_name p));
          child_input := request_initial_submission p;
          child_metadata := child_spawn_metadata inputs_hash bound;
          child_witness := {|
            witness_parent_turn_id := request_parent_turn_id p; witness_correlation_id := Some (request_correlation_id p);
            witness_request_stream_id := Some (stream_id (claimed_event r));
            witness_request_event_id := Some (event_id (claimed_event r));
            witness_submitted_turn_id := Some (submitted_turn_of (claimed_event r) p) |};
          child_manifest_payloads := (fun b => (agent_compile_receipt b, agent_bind_receipt b, agent_principal_id b)) <$> binding |} in
        match target with
        | Local => ProjectChild c ChildStarting
        | Remote => ProjectChild c RemoteExecutor
        | Sandbox => ProjectDone (Err (SpawnFactory
            "placement target sandbox requires the remote EventStore backend capability, which is not available"))
        end
  end.

(** [project_claimed], to the call of the resolver or of the host. *)
Definition project_checks (r : ClaimedRequest) : ProjectPhase :=
  let attached := if claimed_requires_attachment r
                  then parent_has_supervisor_spawn_attachment (ctx_metadata (claimed_parent r)) else Ok true in
  match attached with
  | Err e => ProjectDone (Err e)
  | Ok false => ProjectDone (Err (SpawnExecution (STD_SUPERVISOR_SPAWN_TEMPLATE_ID +:+
      " projector requires the parent thread to attach that supervisor coupling")))
  | Ok true =>
      match canonical_json_hash (jobj (spawn_arguments (claimed_payload r))) with
      | Err text => ProjectDone (Err (SpawnFactory text))
      | Ok inputs_hash =>
          let agent := argument_agent_ref (claimed_payload r) in
          if String.eqb agent "" || String.eqb agent UNBOUND_CHILD_AGENT_REF then project_child r inputs_hash None
          else if negb (claimed_has_resolver r)
          then ProjectDone (Err (SpawnExecution "thread spawn projector agent_ref requires a manifest resolver"))
          else ProjectResolving inputs_hash
      end
  end.

Definition projected_of (r : ClaimedRequest) (receipt : AgentProcessSpawnReceipt) : ThreadSpawnProjected := {|
  projected_request_event_id := event_id (claimed_event r); projected_child_thread_id := process_thread_id receipt;
  projected_submitted_turn_id := process_submitted_turn_id receipt;
  projected_correlation_id := request_correlation_id (claimed_payload r);
  projected_task_name := request_task_name (claimed_payload r) |}.

Definition project_step (r : ClaimedRequest) (input : StepInput) (p : ProjectPhase) (s : S)
    : option (S * list SpawnEffect * ProjectPhase) :=
  match p with
  | ProjectChecking => Some (s, [], project_checks r)
  | ProjectResolving inputs_hash =>
      match answer input with
      | AnswerBinding (Ok binding) => Some (s, [], project_child r inputs_hash (Some binding))
      | AnswerBinding (Err e) => Some (s, [], ProjectDone (Err e))
      | _ => None
      end
  | ProjectChild c p =>
      match child_step c input p s with
      | Some (s, effects, ChildDone result) => Some (s, effects, ProjectDone (result_map (projected_of r) result))
      | Some (s, effects, p) => Some (s, effects, ProjectChild c p)
      | None => None
      end
  | ProjectDone _ => None
  end.

(** ** A dispatch *)

(** The arguments of [dispatch_request_with_authority], and whether the projector has a resolver. *)
Record DispatchCall := {
  dispatch_coordinates : ThreadCoordinates;
  dispatch_payload : ThreadSpawnRequestedPayload;
  dispatch_requires_attachment : bool;
  dispatch_has_resolver : bool;
}.

Record ThreadSpawnDispatchReceipt := {
  dispatched_request_event_id : EventRecordId;
  dispatched_handle : HandleId;
  dispatched_dispatch_id : DispatchId;
  dispatched_submitted_turn_id : option string;
  dispatched_task_name : option string;
}.

Inductive DispatchPhase :=
  | DispatchReading
  | DispatchSleeping (until : Z)
  | DispatchRequesting (next : EventSequence) (request : NewEventRecord)
  | DispatchClaiming (request : EventRecord) (d : Decision) (p : DecisionPhase)
  | DispatchParent (request : EventRecord)                      (** [get_thread], after the claim. *)
  | DispatchProjecting (r : ClaimedRequest) (p : ProjectPhase)
  | DispatchFailing (request : EventRecord) (e : SpawnError)    (** [append_failure]. *)
  | DispatchReturned (r : SpawnResult ThreadSpawnDispatchReceipt).

Definition dispatch_id (call : DispatchCall) : DispatchId := request_correlation_id (dispatch_payload call).
Definition dispatch_stream (call : DispatchCall) : EventStreamId := control_stream_id (dispatch_coordinates call).

Definition dispatch_begin (call : DispatchCall) : DispatchPhase :=
  let parent := request_parent_thread_id (dispatch_payload call) in
  let thread := thread_id (dispatch_coordinates call) in
  if (parent =? thread)%N then DispatchReading
  else DispatchReturned (Err (SpawnExecution ("thread spawn dispatch parent " +:+ uuid_text parent +:+
         " does not match control stream " +:+ uuid_text thread))).

(** A request of the parent, under another dispatch id, that has the task name. *)
Definition reserves_task_name (c : ThreadCoordinates) (dispatch : DispatchId) (task_name : string) (e : EventRecord) : bool :=
  match spawn_request e with
  | Some p => spawn_request_belongs_to_parent e p c && bool_decide (request_task_name p = Some task_name) &&
              negb (String.eqb (request_correlation_id p) dispatch)
  | None => false
  end.

(** The request a dispatcher records. *)
Definition dispatch_request_record (id : EventRecordId) (now : Z) (call : DispatchCall) : NewEventRecord :=
  discharged id now (dispatch_coordinates call) ThreadSpawnRequested
    (jobj (spawn_request_fields (dispatch_payload call) ++ [("schema", JString (payload_schema_id ThreadSpawnRequested))]))
    (mk_provenance [] [] None [] (Some "dispatcher:thread-spawn") (Some THREAD_SPAWN_DISPATCH_FUNCTION) None).

(** The dispatch is on the stream: what [dispatch_request_with_authority] makes of it. *)
Definition dispatch_folded (call : DispatchCall) (started : option Z) (input : StepInput) (events : list EventRecord)
    (folded : ThreadSpawnDispatchFold) : option Z * DispatchPhase :=
  let fails e := (started, DispatchReturned (Err e)) in
  match List.find (fun e => (event_id e =? fold_request_event_id folded)%N) events with
  | None => fails (SpawnHistory (HistoryText "folded thread spawn request is absent from its event slice"))
  | Some request =>
      match decode_spawn_request (payload request) with
      | Err err => fails (SpawnHistory (HistoryText ("folded thread spawn request payload decode failed: " +:+ err)))
      | Ok p =>
          if negb (spawn_request_belongs_to_parent request p (dispatch_coordinates call))
          then fails (SpawnHistory (HistoryText "thread spawn dispatch matched an out-of-scope request record"))
          else
            match fold_handle folded with
            | Some handle =>
                match uuid_parse (handle_id handle) with
                | None => fails (SpawnHistory (HistoryText ("thread spawn dispatch " +:+ dispatch_id call +:+ " folded invalid child handle")))
                | Some _ =>
                    (started, DispatchReturned (Ok {|
                       dispatched_request_event_id := fold_request_event_id folded; dispatched_handle := handle;
                       dispatched_dispatch_id := dispatch_id call;
                       dispatched_submitted_turn_id := fold_submitted_turn_id folded;
                       dispatched_task_name := fold_task_name folded |}))
                end
            | None =>
                match fold_failure_reason folded with
                | Some reason => fails (SpawnExecution reason)
                | None =>
                    if fold_claimed folded then
                      let since := default (clock input) started in
                      let elapsed := (clock input - since)%Z in
                      if (THREAD_SPAWN_CLAIM_WAIT_TIMEOUT <=? elapsed)%Z
                      then (Some since, DispatchReturned (Err (SpawnExecution ("thread spawn dispatch " +:+ dispatch_id call +:+
                              " is claimed without a terminal decision; refusing to replay the child effect"))))
                      else (Some since, DispatchSleeping (clock input +
                              Z.min THREAD_SPAWN_CLAIM_POLL_INTERVAL (THREAD_SPAWN_CLAIM_WAIT_TIMEOUT - elapsed)))
                    else (started, DispatchClaiming request
                            (claim_decision (drawn_id input) (drawn_now input) request (dispatch_id call)) (Deciding events))
                end
            end
      end
  end.

(** What a dispatcher does with the stream it read. *)
Definition dispatch_decide (call : DispatchCall) (started : option Z) (input : StepInput) (events : list EventRecord)
    : option Z * DispatchPhase :=
  let fails e := (started, DispatchReturned (Err e)) in
  match fold_thread_spawn_dispatch events (dispatch_id call) with
  | Some folded => dispatch_folded call started input events folded
  | None =>
      let request := (started, DispatchRequesting (next_sequence events)
                                 (dispatch_request_record (drawn_id input) (drawn_now input) call)) in
      match request_task_name (dispatch_payload call) with
      | None => request
      | Some name =>
          if is_blank name then fails (SpawnExecution "thread_spawn task_name must not be empty")
          else if existsb (reserves_task_name (dispatch_coordinates call) (dispatch_id call) name) events
          then fails (SpawnExecution ("thread_spawn task_name " +:+ debug_text name +:+ " is already bound under this parent; " +:+
                 "retry with the original dispatch or choose a new task_name"))
          else request
      end
  end.

Definition dispatch_receipt (call : DispatchCall) (p : ThreadSpawnProjected) : ThreadSpawnDispatchReceipt := {|
  dispatched_request_event_id := projected_request_event_id p;
  dispatched_handle := handle_of_thread (projected_child_thread_id p);
  dispatched_dispatch_id := dispatch_id call;
  dispatched_submitted_turn_id := Some (projected_submitted_turn_id p);
  dispatched_task_name := projected_task_name p |}.

(** [dispatch_request_with_authority]: one call of the store or the host. *)
Definition dispatch_step (call : DispatchCall) (input : StepInput) (started : option Z) (p : DispatchPhase) (s : S)
    : option (S * list SpawnEffect * option Z * DispatchPhase) :=
  match p with
  | DispatchReading =>
      let (started, p) := match read_log s (dispatch_stream call) with
                          | Ok events => dispatch_decide call started input events
                          | Err e => (started, DispatchReturned (Err (SpawnHistory e)))
                          end in
      Some (s, [], started, p)
  | DispatchSleeping until => if (until <=? clock input)%Z then Some (s, [], started, DispatchReading) else None
  | DispatchRequesting next request =>
      let (s, r) := log_append_fenced (dispatch_stream call) next [request] s in
      Some (s, [], started, match r with
                            | Ok _ | Err (AppendFenceConflict _ _ _) => DispatchReading
                            | Err e => DispatchReturned (Err (SpawnHistory (HistoryFailed e)))
                            end)
  | DispatchClaiming request d p =>
      let (s, p) := decision_step d p s in
      Some match p with
           | Decided (Err e) => (s, [], started, DispatchReturned (Err e))
           | Decided (Ok AlreadyProjected) => (s, [], Some (default (clock input) started), DispatchReading)
           | Decided (Ok (DecisionAppended _)) => (s, [], started, DispatchParent request)
           | p => (s, [], started, DispatchClaiming request d p)
           end
  | DispatchParent request =>
      r ← got_thread (thread_id (dispatch_coordinates call)) (answer input);
      Some (s, [], started,
        match r, decode_spawn_request (payload request) with
        | Err e, _ => DispatchReturned (Err e)
        | Ok _, Err err => DispatchReturned (Err (SpawnHistory (HistoryText ("thread spawn dispatch payload decode failed: " +:+ err))))
        | Ok parent, Ok p =>
            DispatchProjecting {| claimed_parent := parent; claimed_event := request; claimed_payload := p;
              claimed_requires_attachment := dispatch_requires_attachment call;
              claimed_has_resolver := dispatch_has_resolver call |} ProjectChecking
        end)
  | DispatchProjecting r p =>
      match project_step r input p s with
      | Some (s, effects, ProjectDone (Ok projected)) => Some (s, effects, started, DispatchReturned (Ok (dispatch_receipt call projected)))
      | Some (s, effects, ProjectDone (Err e)) => Some (s, effects, started, DispatchFailing (claimed_event r) e)
      | Some (s, effects, p) => Some (s, effects, started, DispatchProjecting r p)
      | None => None
      end
  | DispatchFailing request e =>
      let (s, r) := append_failure (drawn_id input) (drawn_now input) (dispatch_coordinates call) request
                      (Some (dispatch_id call)) (spawn_error_text e) s in
      Some (s, [], started, DispatchReturned (Err match r with Ok _ => e | Err failed => failed end))
  | DispatchReturned _ => None
  end.

(** ** A projection *)

Record ThreadSpawnProjectionFailure := {
  failure_request_event_id : EventRecordId;
  failure_event_id : EventRecordId;
  failure_reason : string;
}.

Record ThreadSpawnProjectionReceipt := {
  receipt_projected : list ThreadSpawnProjected;
  receipt_skipped : list EventRecordId;
  receipt_failed : list ThreadSpawnProjectionFailure;
}.

Definition receipt_default : ThreadSpawnProjectionReceipt :=
  {| receipt_projected := []; receipt_skipped := []; receipt_failed := [] |}.
Definition push_projected (p : ThreadSpawnProjected) (r : ThreadSpawnProjectionReceipt) : ThreadSpawnProjectionReceipt :=
  {| receipt_projected := receipt_projected r ++ [p]; receipt_skipped := receipt_skipped r; receipt_failed := receipt_failed r |}.
Definition push_skipped (e : EventRecord) (r : ThreadSpawnProjectionReceipt) : ThreadSpawnProjectionReceipt :=
  {| receipt_projected := receipt_projected r; receipt_skipped := receipt_skipped r ++ [event_id e]; receipt_failed := receipt_failed r |}.
Definition push_failed (e : EventRecord) (failure : EventRecordId) (reason : string) (r : ThreadSpawnProjectionReceipt)
    : ThreadSpawnProjectionReceipt :=
  {| receipt_projected := receipt_projected r; receipt_skipped := receipt_skipped r;
     receipt_failed := receipt_failed r ++ [{| failure_request_event_id := event_id e; failure_event_id := failure; failure_reason := reason |}] |}.

(** The arguments of [project_control_stream]. *)
Record ProjectionCall := { projection_coordinates : ThreadCoordinates; projection_has_resolver : bool }.

(** Where a projector is; [rest] are the requests after the one it is at. *)
Inductive ProjectionPhase :=
  | ProjectionReading
  | ProjectionRereading (event : EventRecord) (rest : list EventRecord) (receipt : ThreadSpawnProjectionReceipt)
  | ProjectionRejecting (event : EventRecord) (rest : list EventRecord) (receipt : ThreadSpawnProjectionReceipt)
      (reason : string) (d : Decision) (p : DecisionPhase)      (** [record_preclaim_failure]. *)
  | ProjectionParent (event : EventRecord) (rest : list EventRecord) (receipt : ThreadSpawnProjectionReceipt)
      (payload : ThreadSpawnRequestedPayload) (events : list EventRecord)
  | ProjectionClaiming (event : EventRecord) (rest : list EventRecord) (receipt : ThreadSpawnProjectionReceipt)
      (r : ClaimedRequest) (d : Decision) (p : DecisionPhase)
  | ProjectionSpawning (event : EventRecord) (rest : list EventRecord) (receipt : ThreadSpawnProjectionReceipt)
      (r : ClaimedRequest) (p : ProjectPhase)
  | ProjectionFailing (event : EventRecord) (rest : list EventRecord) (receipt : ThreadSpawnProjectionReceipt) (e : SpawnError)
  | ProjectionReturned (r : SpawnResult ThreadSpawnProjectionReceipt).

(** On to the next request; each but the first is looked at in a new snapshot. *)
Definition projection_next (rest : list EventRecord) (receipt : ThreadSpawnProjectionReceipt) : ProjectionPhase :=
  match rest with
  | [] => ProjectionReturned (Ok receipt)
  | event :: rest => ProjectionRereading event rest receipt
  end.

(** A request against the coordinates of the stream; [Some] is the reason it is refused for. *)
Definition request_out_of_scope (c : ThreadCoordinates) (event : EventRecord) (p : ThreadSpawnRequestedPayload) : option string :=
  let thread := thread_id (coordinates event) in
  if negb (thread =? thread_id c)%N
  then Some ("thread.spawn.requested event thread " +:+ uuid_text thread +:+ " does not match projected stream " +:+ uuid_text (thread_id c))
  else if negb (bool_decide (scope (coordinates event) = scope c))
  then Some (spawn_error_text (SpawnScopeMismatch (thread_id c) (scope c) (scope (coordinates event))))
  else if negb (request_parent_thread_id p =? thread_id c)%N
  then Some ("thread.spawn.requested parent_thread_id " +:+ uuid_text (request_parent_thread_id p) +:+
             " does not match projected stream " +:+ uuid_text (thread_id c))
  else None.

Definition projection_reject (c : ThreadCoordinates) (input : StepInput) (event : EventRecord) (rest : list EventRecord)
    (receipt : ThreadSpawnProjectionReceipt) (correlation : option string) (reason : string) (events : list EventRecord) : ProjectionPhase :=
  ProjectionRejecting event rest receipt reason
    (failure_decision (drawn_id input) (drawn_now input) c event correlation reason) (Deciding events).

(** The body of the loop of [project_control_stream], to its first call. *)
Definition projection_event (call : ProjectionCall) (input : StepInput) (event : EventRecord) (rest : list EventRecord)
    (receipt : ThreadSpawnProjectionReceipt) (events : list EventRecord) : ProjectionPhase :=
  let c := projection_coordinates call in
  match decode_spawn_request (payload event) with
  | Err err =>
      projection_reject c input event rest receipt (payload_text "correlation_id" event)
        ("invalid thread.spawn.requested payload: " +:+ err) events
  | Ok p =>
      if spawn_request_already_projected events (event_id event) (Some (request_correlation_id p))
      then projection_next rest (push_skipped event receipt)
      else
        match request_out_of_scope c event p with
        | Some reason => projection_reject c input event rest receipt (Some (request_correlation_id p)) reason events
        | None => ProjectionParent event rest receipt p events
        end
  end.

(** The answer to [get_thread] for the parent of a request. *)
Definition projection_parent (call : ProjectionCall) (input : StepInput) (event : EventRecord) (rest : list EventRecord)
    (receipt : ThreadSpawnProjectionReceipt) (p : ThreadSpawnRequestedPayload) (events : list EventRecord)
    (r : SpawnResult ThreadContext) : ProjectionPhase :=
  let c := projection_coordinates call in
  let correlation := request_correlation_id p in
  match r with
  | Err e => projection_reject c input event rest receipt (Some correlation) (spawn_error_text e) events
  | Ok parent =>
      let actual := ctx_coordinates parent in
      if negb (bool_decide (scope actual = scope c))
      then projection_reject actual input event rest receipt (Some correlation)
             (spawn_error_text (SpawnScopeMismatch (thread_id c) (scope c) (scope actual))) events
      else ProjectionClaiming event rest receipt
             {| claimed_parent := parent; claimed_event := event; claimed_payload := p; claimed_requires_attachment := true;
                claimed_has_resolver := projection_has_resolver call |}
             (claim_decision (drawn_id input) (drawn_now input) event correlation) (Deciding events)
  end.

(** [project_control_stream]: one call of the store or the host. *)
Definition projection_step (call : ProjectionCall) (input : StepInput) (p : ProjectionPhase) (s : S)
    : option (S * list SpawnEffect * ProjectionPhase) :=
  let c := projection_coordinates call in
  match p with
  | ProjectionReading =>
      Some (s, [], match read_log s (control_stream_id c) with
                   | Err e => ProjectionReturned (Err (SpawnHistory e))
                   | Ok events =>
                       match List.filter is_spawn_request events with
                       | [] => ProjectionReturned (Ok receipt_default)
                       | event :: rest => projection_event call input event rest receipt_default events
                       end
                   end)
  | ProjectionRereading event rest receipt =>
      Some (s, [], match read_log s (control_stream_id c) with
                   | Err e => ProjectionReturned (Err (SpawnHistory e))
                   | Ok events => projection_event call input event rest receipt events
                   end)
  | ProjectionRejecting event rest receipt reason d p =>
      let (s, p) := decision_step d p s in
      Some (s, [], match p with
                   | Decided (Err e) => ProjectionReturned (Err e)
                   | Decided (Ok (DecisionAppended id)) => projection_next rest (push_failed event id reason receipt)
                   | Decided (Ok AlreadyProjected) => projection_next rest (push_skipped event receipt)
                   | p => ProjectionRejecting event rest receipt reason d p
                   end)
  | ProjectionParent event rest receipt p events =>
      r ← got_thread (request_parent_thread_id p) (answer input);
      Some (s, [], projection_parent call input event rest receipt p events r)
  | ProjectionClaiming event rest receipt r d p =>
      let (s, p) := decision_step d p s in
      Some (s, [], match p with
                   | Decided (Err e) => ProjectionReturned (Err e)
                   | Decided (Ok AlreadyProjected) => projection_next rest (push_skipped event receipt)
                   | Decided (Ok (DecisionAppended _)) => ProjectionSpawning event rest receipt r ProjectChecking
                   | p => ProjectionClaiming event rest receipt r d p
                   end)
  | ProjectionSpawning event rest receipt r p =>
      match project_step r input p s with
      | Some (s, effects, ProjectDone (Ok projected)) => Some (s, effects, projection_next rest (push_projected projected receipt))
      | Some (s, effects, ProjectDone (Err e)) => Some (s, effects, ProjectionFailing event rest receipt e)
      | Some (s, effects, p) => Some (s, effects, ProjectionSpawning event rest receipt r p)
      | None => None
      end
  | ProjectionFailing event rest receipt e =>
      let reason := spawn_error_text e in
      let (s, r) := append_failure (drawn_id input) (drawn_now input) c event None reason s in
      Some (s, [], match r with
                   | Ok failure => projection_next rest (push_failed event (event_id failure) reason receipt)
                   | Err e => ProjectionReturned (Err e)
                   end)
  | ProjectionReturned _ => None
  end.

(** ** Dispatchers and projectors at the same time *)

Inductive SpawnTask :=
  | DispatchTask (call : DispatchCall) (started : option Z) (p : DispatchPhase)
  | ProjectionTask (call : ProjectionCall) (p : ProjectionPhase).

Record SpawnWorld := {
  spawn_store : S;
  spawn_tasks : gmap nat SpawnTask;
  spawn_effects : list SpawnEffect;
}.

(** What happens next: a call begins, a task takes its next step, or something else writes. *)
Inductive SpawnLabel :=
  | DispatchBegins (k : nat) (call : DispatchCall)
  | ProjectionBegins (k : nat) (call : ProjectionCall)
  | TaskProceeds (k : nat) (input : StepInput)
  | WorldAppends (stream : EventStreamId) (records : list NewEventRecord).

Definition begin_task (k : nat) (t : SpawnTask) (w : SpawnWorld) : option SpawnWorld :=
  match spawn_tasks w !! k with
  | Some _ => None
  | None => Some {| spawn_store := spawn_store w; spawn_tasks := <[k := t]> (spawn_tasks w); spawn_effects := spawn_effects w |}
  end.

Definition task_step (input : StepInput) (t : SpawnTask) (s : S) : option (S * list SpawnEffect * SpawnTask) :=
  match t with
  | DispatchTask call started p =>
      '(s, effects, started, p) ← dispatch_step call input started p s; Some (s, effects, DispatchTask call started p)
  | ProjectionTask call p => '(s, effects, p) ← projection_step call input p s; Some (s, effects, ProjectionTask call p)
  end.

Definition spawn_turn (label : SpawnLabel) (w : SpawnWorld) : option SpawnWorld :=
  match label with
  | DispatchBegins k call => begin_task k (DispatchTask call None (dispatch_begin call)) w
  | ProjectionBegins k call => begin_task k (ProjectionTask call ProjectionReading) w
  | TaskProceeds k input =>
      t ← spawn_tasks w !! k;
      '(s, effects, t) ← task_step input t (spawn_store w);
      Some {| spawn_store := s; spawn_tasks := <[k := t]> (spawn_tasks w); spawn_effects := spawn_effects w ++ effects |}
  | WorldAppends stream records =>
      Some {| spawn_store := (log_append stream records (spawn_store w)).1; spawn_tasks := spawn_tasks w;
              spawn_effects := spawn_effects w |}
  end.

Inductive spawn_reachable (allowed : SpawnLabel -> Prop) (s : S) : SpawnWorld -> Prop :=
  | spawn_start : spawn_reachable allowed s {| spawn_store := s; spawn_tasks := ∅; spawn_effects := [] |}
  | spawn_next label w w' :
      spawn_reachable allowed s w -> allowed label -> spawn_turn label w = Some w' -> spawn_reachable allowed s w'.
End Tasks.
