(* ===== verification/SpawnFacts.v ===== *)
(** * What a step of a spawner does

    Each step of a dispatcher or a projector against the log: what it appends, on which
    stream and in what state of it, what it asks of the host, and what it knows then. *)

From stdpp Require Import base gmap sets list strings pretty.
From Stdlib Require Import ZArith Lia.
From S2P Require Import Prelude Json EventKind Contracts Records Store Journal EventLog Lease Queue Control Coupling Stdlib Canonical.
From S2P Require Import ReadPlan Join Spawn SpawnTasks.

Local Open Scope verlet_scope.
Local Open Scope string_scope.
Local Open Scope list_scope.

(** What is written is read back, and the correlation id is where the folds look for it. *)
Class SpawnCodecLaws `{UuidText} `{!SpawnCodec} := {
  spawn_request_decodes p :
    decode_spawn_request (jobj (spawn_request_fields p ++ [("schema", JString (payload_schema_id ThreadSpawnRequested))])) = Ok p;
  spawn_request_correlated v p : decode_spawn_request v = Ok p ->
    value_get "correlation_id" v ≫= as_str = Some (request_correlation_id p);
}.

(** The spawns that were asked for. *)
Definition starts (effects : list SpawnEffect) : list ThreadSpawnWitness :=
  omap (fun e => match e with ChildStarted w | RemoteChildStarted w => Some w | _ => None end) effects.

Lemma starts_app a b : starts (a ++ b) = starts a ++ starts b.
Proof. apply omap_app. Qed.

(** The event is the claim of a request with the dispatch id, or the child of one. *)
Definition claim_with (d : string) (e : EventRecord) : Prop :=
  is_spawn_request_claim e = true /\ payload_text "correlation_id" e = Some d.
Definition spawned_with (d : string) (e : EventRecord) : Prop :=
  kind e = ThreadSpawned /\ payload_text "correlation_id" e = Some d.

(** An event that is neither. *)
Definition inert (e : EventRecord) : Prop :=
  is_spawn_request_claim e = false /\ (kind e = ThreadSpawned -> payload_text "correlation_id" e = None).
Definition inert_record (r : NewEventRecord) : Prop := forall stream n, inert (from_new stream n r).

Lemma inert_claim d e : inert e -> ~ claim_with d e.
Proof. intros [He _] [Hc _]. congruence. Qed.
Lemma inert_spawned d e : inert e -> ~ spawned_with d e.
Proof. intros [_ He] [Hk Hc]. rewrite He in Hc; done. Qed.
Lemma other_kind_inert r : new_kind r <> ThreadSpawned -> new_kind r <> ThreadSpawnRequested -> inert_record r.
Proof.
  intros H1 H2 stream n. split; [|done]. unfold is_spawn_request_claim. cbn.
  by rewrite (bool_decide_eq_false_2 (new_kind r = ThreadSpawnRequested)).
Qed.

(** An inert record that is no request either. *)
Definition quiet_record (r : NewEventRecord) : Prop := new_kind r <> ThreadSpawnRequested /\ inert_record r.
Lemma other_kind_quiet r : new_kind r <> ThreadSpawned -> new_kind r <> ThreadSpawnRequested -> quiet_record r.
Proof. intros H1 H2. split; [done|by apply other_kind_inert]. Qed.

Lemma find_map_app {A B} (f : A -> option B) l k b : find_map f l = Some b -> find_map f (l ++ k) = Some b.
Proof. induction l as [|a l IH]; cbn; [done|]. destruct (f a); [done|apply IH]. Qed.

Lemma find_map_some {A B} (f : A -> option B) l b : find_map f l = Some b -> exists a, a ∈ l /\ f a = Some b.
Proof.
  induction l as [|a l IH]; cbn; [done|]. destruct (f a) as [b'|] eqn:Hf.
  - intros Heq. injection Heq as ->. exists a. set_solver.
  - intros (a' & Ha & Hf')%IH. exists a'. set_solver.
Qed.

Lemma find_map_none {A B} (f : A -> option B) l : find_map f l = None <-> forall a, a ∈ l -> f a = None.
Proof.
  induction l as [|a l IH]; cbn; [set_solver|]. destruct (f a) as [b|] eqn:Hf.
  - split; [done|]. intros Ha. by rewrite Ha in Hf by set_solver.
  - rewrite IH. set_solver.
Qed.

Lemma existsb_false_elem {A} (f : A -> bool) l a : existsb f l = false -> a ∈ l -> f a = false.
Proof.
  intros He Ha. destruct (f a) eqn:Hf; [|done]. assert (existsb f l = true) as Ht; [|congruence].
  apply existsb_exists. exists a. by rewrite <- list_elem_of_In.
Qed.

Section Facts.
Context `{UuidParse} `{!SpawnCodec} `{!SpawnCodecLaws} `{SpawnTexts} `{JoinCodec} `{JsonTexts} `{Sha256}.
Context {S : Type} `{EventAppendLaws S}.
Implicit Types (s : S) (stream : EventStreamId) (e request : EventRecord) (r : ClaimedRequest) (input : StepInput).

(** ** The folds *)

Lemma dispatch_request_of_spec events d request p : dispatch_request_of events d = Some (request, p) ->
  request ∈ events /\ spawn_request request = Some p /\ request_correlation_id p = d.
Proof.
  intros (e & He & Hf)%find_map_some. destruct (spawn_request e) as [q|] eqn:Hq; cbn in Hf; [|done].
  destruct (String.eqb_spec (request_correlation_id q) d); [|done]. by simplify_eq.
Qed.

Lemma spawn_request_decoded e p : spawn_request e = Some p ->
  is_spawn_request e = true /\ decode_spawn_request (payload e) = Ok p.
Proof. unfold spawn_request. destruct (is_spawn_request e); [|done]. destruct (decode_spawn_request _); [|done]. by intros [= ->]. Qed.

Lemma decoded_correlation e p : decode_spawn_request (payload e) = Ok p -> payload_text "correlation_id" e = Some (request_correlation_id p).
Proof. apply spawn_request_correlated. Qed.

Lemma not_projected events (request : EventRecordId) d : spawn_request_already_projected events request (Some d) = false ->
  forall e, e ∈ events -> ~ claim_with d e /\ ~ spawned_with d e.
Proof.
  intros Hn e He. apply (existsb_false_elem _ _ e) in Hn; [|done]. unfold claims in Hn. to_prop. split.
  - intros [Hc Ht]. rewrite Hc, (bool_decide_eq_true_2 _ Ht), orb_true_r in *. done.
  - intros [Hk Ht]. rewrite (bool_decide_eq_true_2 _ Ht), orb_true_r in *.
    rewrite (bool_decide_eq_true_2 (kind e = ThreadSpawned \/ kind e = LoopDenied)) in * by auto. done.
Qed.

(** ** Records *)

Lemma claim_record_claims stream n id now request p : decode_spawn_request (payload request) = Ok p ->
  claim_with (request_correlation_id p) (from_new stream n (claim_record id now request)).
Proof. intros Hp. split; [by vm_compute|]. cbn. by apply spawn_request_correlated. Qed.

Lemma failure_record_quiet id now c request correlation reason : quiet_record (failure_record id now c request correlation reason).
Proof. by apply other_kind_quiet. Qed.

Lemma dispatch_record_inert id now call : inert_record (dispatch_request_record id now call).
Proof. intros stream n. by split. Qed.

Lemma join_record_quiet id now (q : JoinRequest) : quiet_record (join_record id now q).
Proof. unfold join_record. destruct (join_source_event q) as [[a b]|]; by apply other_kind_quiet. Qed.

(** ** Growth *)

(** The store after a step that wrote at most this record. *)
Definition wrote_one stream (r : NewEventRecord) s s' : Prop := grew stream [r] s s'.

Definition same_log s s' : Prop := log_valid s' /\ forall other, log_events s' other = log_events s other.

Lemma same_log_refl s : log_valid s -> same_log s s.
Proof. by split. Qed.

Lemma same_log_grew stream records s s' : same_log s s' -> grew stream records s s'.
Proof. intros [Hv He]. by apply grew_nothing. Qed.

(** The log only grew. *)
Definition extends s s' : Prop := forall other, exists more, log_events s' other = log_events s other ++ more.

Lemma grew_extends stream records s s' : grew stream records s s' -> extends s s'.
Proof. intros Hg other. by eapply grew_prefix. Qed.
Lemma same_extends s s' : same_log s s' -> extends s s'.
Proof. intros [_ He] other. exists []. by rewrite app_nil_r. Qed.

Lemma extends_elem s s' stream e : extends s s' -> e ∈ log_events s stream -> e ∈ log_events s' stream.
Proof. intros Hx. destruct (Hx stream) as [more ->]. set_solver. Qed.

Lemma extends_snapshot s s' stream n events : extends s s' -> snapshot_at stream n events s -> snapshot_at stream n events s'.
Proof. intros Hx (more & He & Hn). destruct (Hx stream) as [more' He']. exists (more ++ more'). by rewrite He', He, app_assoc. Qed.

(** The request a dispatch id stands for on the stream. *)
Definition first_request s stream d request p : Prop := dispatch_request_of (log_events s stream) d = Some (request, p).

Lemma extends_first s s' stream d request p : extends s s' -> first_request s stream d request p -> first_request s' stream d request p.
Proof. intros Hx Hf. unfold first_request. destruct (Hx stream) as [more ->]. by apply find_map_app. Qed.

Lemma first_request_spec s stream d request p : first_request s stream d request p ->
  request ∈ log_events s stream /\ is_spawn_request request = true /\ decode_spawn_request (payload request) = Ok p /\
  request_correlation_id p = d.
Proof.
  intros (Hin & Hr & Hd)%dispatch_request_of_spec. by apply spawn_request_decoded in Hr as [? ?].
Qed.

(** ** Decisions *)

Definition decision_ok s (d : Decision) (p : DecisionPhase) : Prop :=
  match p with
  | Deciding events => snapshot_at (stream_id (decision_request d)) (next_sequence events) events s
  | Redeciding => True
  | Decided _ => False
  end.

Lemma extends_decision s s' d p : extends s s' -> decision_ok s d p -> decision_ok s' d p.
Proof. intros Hx. destruct p; [by apply extends_snapshot|done..]. Qed.

(** The decision is written only where the request is not projected yet; it is written if the caller is
    told so. *)
Lemma decision_step_spec s s' d p p' : log_valid s -> decision_ok s d p -> decision_step d p s = (s', p') ->
  let stream := stream_id (decision_request d) in
  grew stream [decision_record d] s s' /\ match p' with Decided _ => True | _ => decision_ok s' d p' end /\
  ((same_log s s' /\ forall id, p' <> Decided (Ok (DecisionAppended id))) \/
   (exists n, log_events s' stream = log_events s stream ++ [from_new stream n (decision_record d)]) /\
   spawn_request_already_projected (log_events s stream) (event_id (decision_request d)) (decision_correlation d) = false).
Proof.
  intros Hv Hok. destruct p as [events| |q]; cbn [decision_step].
  - destruct (spawn_request_already_projected events _ _) eqn:Hn.
    { intros [= <- <-]. split_and!; [by apply same_log_grew|done|left; split; [done|]; done]. }
    destruct (log_append_fenced _ _ _ s) as [s1 r] eqn:Hrun. intros [= <- <-].
    pose proof (log_append_fenced_grew (stream_id (decision_request d)) (next_sequence events) [decision_record d] s Hv) as Hg.
    rewrite Hrun in Hg. cbn [fst] in Hg. destruct r as [es|err].
    + destruct (snapshot_fence _ _ _ _ _ _ _ Hv Hok Hrun) as (Hev & -> & Hev'). split_and!; [done| |].
      * cbn. by destruct (event_record_eqb _ _).
      * right. rewrite Hev. split; [eexists; exact Hev'|done].
    + split_and!; [done|by destruct err|]. left. split; [by destruct (log_append_err _ _ _ _ _ _ Hv Hrun)|].
      intros id. by destruct err.
  - intros [= <- <-]. split_and!; [by apply same_log_grew| |left; split; [done|]].
    + unfold read_log. rewrite (log_read_all _ _ Hv). cbn. by apply snapshot_now.
    + intros id. unfold read_log. by rewrite (log_read_all _ _ Hv).
  - done.
Qed.

(** ** Rights *)

(** What a task that won the claim of a request may still do: ask for the child, record it. *)
Record Right := mk_right {
  right_stream : EventStreamId;
  right_id : string;
  right_call : bool;
  right_record : bool;
}.

Definition child_uncalled (p : ChildPhase) : bool :=
  match p with
  | ChildStarting | RemoteExecutor | RemoteParent _ | RemoteWitness _ _ | RemoteCouplings _ _ | RemoteSpawning _ _ => true
  | _ => false
  end.
Definition child_unrecorded (p : ChildPhase) : bool :=
  match p with
  | ChildStarting | ChildParent _ | ChildWitness _ _ | RemoteExecutor | RemoteParent _ | RemoteWitness _ _ => true
  | _ => false
  end.

(** A right that is given up in part, or altogether. *)
Definition less_right (old : Right) (new : option Right) : Prop :=
  match new with
  | None => True
  | Some n => right_stream n = right_stream old /\ right_id n = right_id old /\
      (right_call n = true -> right_call old = true) /\ (right_record n = true -> right_record old = true)
  end.

(** What a step with a right does: nothing of note, the one request for the child, or its record. *)
Inductive right_move s s' (effects : list SpawnEffect) (old : Right) (new : option Right) : Prop :=
  | move_inert stream (r : NewEventRecord) : grew stream [r] s s' -> quiet_record r -> starts effects = [] -> less_right old new -> right_move s s' effects old new
  | move_call w : same_log s s' -> starts effects = [w] -> witness_request_stream_id w = Some (right_stream old) ->
      witness_correlation_id w = Some (right_id old) -> right_call old = true -> less_right old new ->
      (forall n, new = Some n -> right_call n = false) -> right_move s s' effects old new
  | move_record (r : NewEventRecord) : grew (right_stream old) [r] s s' -> new_kind r = ThreadSpawned ->
      (forall n, payload_text "correlation_id" (from_new (right_stream old) n r) = Some (right_id old)) ->
      (exists id, source_event_ids (new_provenance r) = [id]) -> starts effects = [] ->
      right_record old = true -> less_right old new ->
      (forall n, new = Some n -> right_record n = false) -> right_move s s' effects old new.

Lemma move_nothing s s' effects old new : same_log s s' -> starts effects = [] -> less_right old new -> right_move s s' effects old new.
Proof.
  intros Hs He Hl. eapply (move_inert _ _ _ _ _ "" (witnessed 0 0 (mk_coordinates "" "" "" 0) TurnSubmitted JNull)); [by apply same_log_grew| |done..].
  by apply other_kind_quiet.
Qed.

Lemma right_move_extends s s' effects old new : right_move s s' effects old new -> extends s s' /\ log_valid s'.
Proof.
  intros [stream r Hg _ _ _|w Hs _ _ _ _ _ _|r Hg _ _ _ _ _ _ _].
  - split; [by eapply grew_extends|by destruct Hg].
  - split; [by apply same_extends|by destruct Hs].
  - split; [by eapply grew_extends|by destruct Hg].
Qed.

(** ** The start of a child *)

(** The child of the request is on the stream. *)
Definition recorded s r (thread : ThreadId) : Prop :=
  exists e, e ∈ log_events s (stream_id (claimed_event r)) /\ spawned_with (request_correlation_id (claimed_payload r)) e /\
    payload_text "child_thread_id" e = Some (uuid_text thread).

(** The turn the request names, unless it is blank. *)
Definition names_turn r (turn : string) : Prop :=
  is_blank (submitted_turn_of (claimed_event r) (claimed_payload r)) = false ->
  turn = submitted_turn_of (claimed_event r) (claimed_payload r).

Definition child_ok s r (c : ChildSpawn) (p : ChildPhase) : Prop :=
  child_caller c = claimed_parent r /\
  witness_correlation_id (child_witness c) = Some (request_correlation_id (claimed_payload r)) /\
  witness_request_stream_id (child_witness c) = Some (stream_id (claimed_event r)) /\
  witness_request_event_id (child_witness c) = Some (event_id (claimed_event r)) /\
  witness_submitted_turn_id (child_witness c) = Some (submitted_turn_of (claimed_event r) (claimed_payload r)) /\
  match p with
  | ChildWitness child parent | RemoteWitness child parent =>
      names_turn r (started_turn_id child) /\ thread_id (ctx_coordinates parent) = thread_id (ctx_coordinates (claimed_parent r))
  | ChildCouplings child | ChildReceipts child | ChildSubmitting child | RemoteCouplings child _ | RemoteSpawning child _ =>
      names_turn r (started_turn_id child) /\ recorded s r (started_thread_id child)
  | RemoteJoining _ j => quiet_record (joiner_record j)
  | ChildDone (Ok receipt) => names_turn r (process_submitted_turn_id receipt) /\ recorded s r (process_thread_id receipt)
  | _ => True
  end.

Lemma extends_recorded s s' r thread : extends s s' -> recorded s r thread -> recorded s' r thread.
Proof. intros Hx (e & He & Hrest). exists e. split; [by eapply extends_elem|done]. Qed.

Lemma extends_child s s' r c p : extends s s' -> child_ok s r c p -> child_ok s' r c p.
Proof.
  intros Hx (H1' & H2' & H3' & H4' & H5' & Hp). split_and!; [done..|].
  destruct p as [| | | | | | | | | | | | |[receipt|]]; try exact Hp; (destruct Hp as [? ?]; split; [done|by eapply extends_recorded]).
Qed.

Lemma control_stream_thread c c' : thread_id c = thread_id c' -> control_stream_id c = control_stream_id c'.
Proof. unfold control_stream_id. by intros ->. Qed.

Lemma started_names_turn r (c : ChildSpawn) signal child :
  witness_submitted_turn_id (child_witness c) = Some (submitted_turn_of (claimed_event r) (claimed_payload r)) ->
  names_turn r (started_turn_id (started_child c signal child)).
Proof. intros Hw Hb. cbn. rewrite Hw. cbn. by rewrite Hb. Qed.

Lemma got_thread_ok thread a c : got_thread thread a = Some (Ok c) -> thread_id (ctx_coordinates c) = thread.
Proof.
  unfold got_thread. destruct a as [[c'|]| | |]; try done. destruct (N.eqb_spec (thread_id (ctx_coordinates c')) thread); [|done].
  by intros [= ->].
Qed.

Lemma spawned_json_texts (p : ThreadSpawnedPayload) d :
  value_get "correlation_id" (spawned_json p (Some d)) = Some (JString d) /\
  value_get "child_thread_id" (spawned_json p (Some d)) = Some (JString (uuid_text (spawned_child_thread_id p))).
Proof.
  unfold spawned_json. rewrite !value_get_jobj, !rev_app_distr, !obj_get_app.
  destruct (spawned_parent_turn_id p), (spawned_child_policy_hash p); done.
Qed.

(** The record of the child says whose child it is. *)
Lemma spawned_record_spec id now caller child w record d : spawned_record id now caller child w = Ok record ->
  witness_correlation_id w = Some d ->
  new_kind record = ThreadSpawned /\ new_coordinates record = ctx_coordinates caller /\
  (forall stream event, witness_request_stream_id w = Some stream -> witness_request_event_id w = Some event ->
     source_event_ids (new_provenance record) = [event]) /\
  forall stream n, let e := from_new stream n record in
    payload_text "correlation_id" e = Some d /\ payload_text "child_thread_id" e = Some (uuid_text (thread_id (ctx_coordinates child))).
Proof.
  unfold spawned_record. intros Hr Hd. simplify_result. split_and!; [done|done|by intros stream event -> ->|]. intros stream n. unfold payload_text.
  cbn [payload from_new new_payload]. rewrite Hd. by rewrite (proj1 (spawned_json_texts _ d)), (proj2 (spawned_json_texts _ d)).
Qed.

(** The right of a claimed request. *)
Definition claimed_right r (call record : bool) : Right :=
  mk_right (stream_id (claimed_event r)) (request_correlation_id (claimed_payload r)) call record.

(** A request is claimed for the parent whose stream it is on. *)
Definition claimed_for_parent r : Prop := stream_id (claimed_event r) = control_stream_id (ctx_coordinates (claimed_parent r)).

Lemma less_right_claimed r (call record call' record' : bool) :
  (call' = true -> call = true) -> (record' = true -> record = true) ->
  less_right (claimed_right r call record) (Some (claimed_right r call' record')).
Proof. unfold less_right. auto. Qed.

(** The append of the child's record. *)
Lemma append_spawned_spec r c input child parent s s' record res : log_valid s -> claimed_for_parent r ->
  child_caller c = claimed_parent r -> witness_correlation_id (child_witness c) = Some (request_correlation_id (claimed_payload r)) ->
  witness_request_stream_id (child_witness c) = Some (stream_id (claimed_event r)) ->
  witness_request_event_id (child_witness c) = Some (event_id (claimed_event r)) ->
  thread_id (ctx_coordinates parent) = thread_id (ctx_coordinates (claimed_parent r)) ->
  spawned_record (drawn_id input) (drawn_now input) (child_caller c) (started_context child) (child_witness c) = Ok record ->
  append_spawned record parent s = (s', res) ->
  (forall call call', (call' = true -> call = true) ->
     right_move s s' [] (claimed_right r call true) (Some (claimed_right r call' false))) /\
  (forall e, res = Ok e -> recorded s' r (started_thread_id child)).
Proof.
  intros Hv Hc Hcaller Hw Hwst Hwid Hparent Hrec Happ.
  destruct (spawned_record_spec _ _ _ _ _ _ _ Hrec Hw) as (Hk & _ & Hsrc & Htexts).
  unfold append_spawned in Happ. rewrite (control_stream_thread _ (ctx_coordinates (claimed_parent r)) Hparent), <- Hc in Happ.
  pose proof (log_append_grew (stream_id (claimed_event r)) [record] s Hv) as Hg.
  destruct (log_append _ [record] s) as [s1 res1] eqn:Hrun. cbn [fst] in Hg. injection Happ as <- <-. split.
  - intros call call' Hcall. eapply (move_record _ _ _ _ _ record); [exact Hg|exact Hk| |eexists; by eapply Hsrc|done..|by apply less_right_claimed|by intros n [= <-]].
    intros n. by destruct (Htexts (stream_id (claimed_event r)) n).
  - intros e He. destruct res1 as [es|]; [|done]. destruct (log_extended_one _ _ _ _ _ Hv Hrun) as (_ & -> & Hlog & _).
    set (ev := from_new _ _ record) in *. exists ev. rewrite Hlog. destruct (Htexts (stream_id (claimed_event r)) (Z.of_nat (Datatypes.S (length (log_events s (stream_id (claimed_event r))))))) as [Hcorr Hchild].
    split_and!; [set_solver|by split|exact Hchild].
Qed.

Lemma child_step_spec r c input p s s' effects p' : log_valid s -> claimed_for_parent r -> child_ok s r c p ->
  child_step c input p s = Some (s', effects, p') ->
  child_ok s' r c p' /\
  right_move s s' effects (claimed_right r (child_uncalled p) (child_unrecorded p))
    (Some (claimed_right r (child_uncalled p') (child_unrecorded p'))).
Proof.
  intros Hv Hfor Hok. assert (same_log s s) as Hsame by by apply same_log_refl.
  pose proof Hok as (Hcaller & Hcorr & Hstr & Hid & Hturn & Hp).
  assert (forall q, match q with ChildStarting | ChildParent _ | ChildStopping _ _ | RemoteExecutor | RemoteParent _ | ChildDone (Err _) => True | _ => False end ->
    child_ok s r c q) as Hplain.
  { intros q Hq. split_and!; [done..|]. by destruct q as [| | | | | | | | | | | | |[|]]. }
  assert (forall effs q, starts effs = [] -> (child_uncalled q = true -> child_uncalled p = true) -> (child_unrecorded q = true -> child_unrecorded p = true) ->
    right_move s s effs (claimed_right r (child_uncalled p) (child_unrecorded p)) (Some (claimed_right r (child_uncalled q) (child_unrecorded q)))) as Hquiet.
  { intros effs q He H1' H2'. apply move_nothing; [done|done|by apply less_right_claimed]. }
  assert (forall effs q, starts effs = [child_witness c] -> child_uncalled p = true -> child_uncalled q = false -> (child_unrecorded q = true -> child_unrecorded p = true) ->
    right_move s s effs (claimed_right r (child_uncalled p) (child_unrecorded p)) (Some (claimed_right r (child_uncalled q) (child_unrecorded q)))) as Hcall.
  { intros effs q He H1' H2' H3'. eapply (move_call _ _ _ _ _ (child_witness c)); [done..| |by intros n [= <-]].
    apply less_right_claimed; [by rewrite H1'|done]. }
  destruct p as [|child|child parent|child|child|child|child e| |child|child parent|child spawned|child spawned|e j|res]; cbn [child_step];
    intros Hstep.
  - destruct (answer input) as [| |[[]|e]|]; try done; injection Hstep as <- <- <-; (split; [by apply Hplain|by apply Hcall]).
  - destruct (got_thread _ _) as [[parent|e]|] eqn:Hgot; [| |done]; injection Hstep as <- <- <-; (split; [|by apply Hquiet]); [|by apply Hplain].
    apply got_thread_ok in Hgot. split_and!; [done..|by apply started_names_turn|by rewrite <- Hcaller].
  - destruct (spawned_record _ _ _ _ _) as [record|e] eqn:Hrec; [|injection Hstep as <- <- <-; split; [by apply Hplain|by apply Hquiet]].
    destruct (append_spawned record parent s) as [s1 res] eqn:Happ. injection Hstep as <- <- <-.
    destruct (append_spawned_spec _ _ _ _ _ _ _ _ _ Hv Hfor Hcaller Hcorr Hstr Hid (proj2 Hp) Hrec Happ) as [Hmove Hin].
    assert (extends s s1) as Hx by exact (proj1 (right_move_extends _ _ _ _ _ (Hmove true true (fun x => x)))).
    destruct res as [ev|e]; (split; [|by apply Hmove]); [|by eapply extends_child, Hplain].
    split_and!; [done..|by destruct Hp|by apply (Hin ev)].
  - destruct (answer input) as [| |[[]|e]|]; try done; injection Hstep as <- <- <-; (split; [|by apply Hquiet; destruct (child_manifest_payloads c)]).
    + destruct (child_manifest_payloads c); done.
    + by apply Hplain.
  - destruct (answer input) as [| |[[]|e]|]; try done; injection Hstep as <- <- <-; (split; [|by apply Hquiet]); [exact Hok|by apply Hplain].
  - destruct (answer input) as [| |[[]|e]|]; try done; injection Hstep as <- <- <-; (split; [|by apply Hquiet]); [|by apply Hplain].
    split_and!; [done..|by destruct Hp|by destruct Hp].
  - destruct (answer input) as [| |r'|]; try done; injection Hstep as <- <- <-; (split; [|by apply Hquiet]); by apply Hplain.
  - destruct (answer input) as [| | |[]]; try done; injection Hstep as <- <- <-; (split; [|by apply Hquiet]); by apply Hplain.
  - destruct (got_thread _ _) as [[parent|e]|] eqn:Hgot; [| |done]; injection Hstep as <- <- <-; (split; [|by apply Hquiet]); [|by apply Hplain].
    apply got_thread_ok in Hgot. split_and!; [done..|by apply started_names_turn|by rewrite <- Hcaller].
  - destruct (spawned_record _ _ _ _ _) as [record|e] eqn:Hrec; [|injection Hstep as <- <- <-; split; [by apply Hplain|by apply Hquiet]].
    destruct (append_spawned record parent s) as [s1 res] eqn:Happ. injection Hstep as <- <- <-.
    destruct (append_spawned_spec _ _ _ _ _ _ _ _ _ Hv Hfor Hcaller Hcorr Hstr Hid (proj2 Hp) Hrec Happ) as [Hmove Hin].
    assert (extends s s1) as Hx by exact (proj1 (right_move_extends _ _ _ _ _ (Hmove true true (fun x => x)))).
    destruct res as [ev|e]; (split; [|by apply Hmove]); [|by eapply extends_child, Hplain].
    split_and!; [done..|by destruct Hp|by apply (Hin ev)].
  - destruct (answer input) as [| |[[]|e]|]; try done; injection Hstep as <- <- <-; (split; [|by apply Hquiet]); [exact Hok|by apply Hplain].
  - destruct (answer input) as [| |[[]|e]|]; try done; injection Hstep as <- <- <-; (split; [|by apply Hcall]).
    + split_and!; [done..|by destruct Hp|by destruct Hp].
    + split_and!; [done..|]. apply join_record_quiet.
  - destruct (join_step j s) as [s1 q] eqn:Hj. injection Hstep as <- <- <-.
    assert (grew (joiner_stream j) [joiner_record j] s s1) as Hg.
    { unfold join_step in Hj. destruct (joiner_phase j); [injection Hj as <- _; by apply grew_nothing| |injection Hj as <- _; by apply grew_nothing].
      destruct (log_append_fenced _ _ _ s) as [s2 res] eqn:Hrun. injection Hj as <- _.
      pose proof (log_append_fenced_grew (joiner_stream j) next [joiner_record j] s Hv) as Hg. by rewrite Hrun in Hg. }
    split; [|eapply move_inert; [exact Hg|exact Hp|done|by destruct q; apply less_right_claimed]].
    destruct q; by split_and!.
  - done.
Qed.

Lemma right_move_drop s s' effects old new : right_move s s' effects old new -> right_move s s' effects old None.
Proof.
  intros [stream r Hg Hi He _|w Hs He Hst Hid Hc _ _|r Hg Hk Ht Hsrc He Hr _ _].
  - by eapply move_inert.
  - by eapply move_call.
  - by eapply move_record.
Qed.

(** ** A claimed request *)

Definition project_right r (p : ProjectPhase) : option Right :=
  match p with
  | ProjectChecking | ProjectResolving _ => Some (claimed_right r true true)
  | ProjectChild _ p => Some (claimed_right r (child_uncalled p) (child_unrecorded p))
  | ProjectDone _ => None
  end.

Definition projected_ok s r (p : ThreadSpawnProjected) : Prop :=
  projected_request_event_id p = event_id (claimed_event r) /\ projected_task_name p = request_task_name (claimed_payload r) /\
  names_turn r (projected_submitted_turn_id p) /\ recorded s r (projected_child_thread_id p).

Definition project_ok s r (p : ProjectPhase) : Prop :=
  match p with
  | ProjectChild c p => child_ok s r c p
  | ProjectDone (Ok p) => projected_ok s r p
  | _ => True
  end.

Lemma extends_project s s' r p : extends s s' -> project_ok s r p -> project_ok s' r p.
Proof.
  intros Hx. destruct p as [| |c p|[p|]]; cbn; [done|done|by apply extends_child| |done].
  intros (? & ? & ? & ?). split_and!; [done..|by eapply extends_recorded].
Qed.

(** A request that is about to have its child asked for, or is refused. *)
Definition not_asked_yet s r (p : ProjectPhase) : Prop :=
  project_ok s r p /\ (project_right r p = Some (claimed_right r true true) \/ project_right r p = None).

Lemma project_child_fresh s r hash binding : not_asked_yet s r (project_child r hash binding).
Proof.
  unfold project_child. destruct (match binding with None => _ | Some _ => _ end) as [bound|e]; [|by split; [|right]].
  destruct (_ && _); [by split; [|right]|]. destruct (default Local _); split; try done; [by left|by left|by right].
Qed.

Lemma project_checks_fresh s r : not_asked_yet s r (project_checks r).
Proof.
  unfold project_checks. destruct (if claimed_requires_attachment r then _ else _) as [[]|e]; [|by split; [|right]..].
  destruct (canonical_json_hash _); [|by split; [|right]]. destruct (_ || _); [apply project_child_fresh|].
  destruct (negb _); [by split; [|right]|by split; [|left]].
Qed.

Lemma project_step_spec r input p s s' effects p' : log_valid s -> claimed_for_parent r -> project_ok s r p ->
  project_step r input p s = Some (s', effects, p') ->
  project_ok s' r p' /\ exists old, project_right r p = Some old /\ right_move s s' effects old (project_right r p').
Proof.
  intros Hv Hfor Hok Hstep. assert (same_log s s) as Hsame by by apply same_log_refl.
  assert (forall q, not_asked_yet s r q -> project_ok s r q /\
    right_move s s [] (claimed_right r true true) (project_right r q)) as Hfresh.
  { intros q [Hq Hr]. split; [done|]. apply move_nothing; [done..|]. destruct Hr as [-> | ->]; [by apply less_right_claimed|done]. }
  destruct p as [|hash|c p|res]; cbn [project_step] in Hstep; [| | |done].
  - injection Hstep as <- <- <-. destruct (Hfresh _ (project_checks_fresh s r)). eauto.
  - destruct (answer input) as [|[binding|e]| |]; try done; injection Hstep as <- <- <-.
    + destruct (Hfresh _ (project_child_fresh s r hash (Some binding))). eauto.
    + split; [done|]. eexists. split; [done|]. by apply move_nothing.
  - destruct (child_step c input p s) as [[[s1 eff] q]|] eqn:Hc; [|done].
    destruct (child_step_spec _ _ _ _ _ _ _ _ Hv Hfor Hok Hc) as [Hok' Hmove].
    destruct q; injection Hstep as <- <- <-; try (split; [exact Hok'|by eexists]).
    split; [|eexists; split; [done|by eapply right_move_drop]].
    destruct r0 as [receipt|e]; [|done]. destruct Hok' as (_ & _ & _ & _ & _ & Hn & Hrec). by split_and!.
Qed.

(** ** Tasks *)

Definition task_right (t : SpawnTask) : option Right :=
  match t with
  | DispatchTask call _ (DispatchParent _) => Some (mk_right (dispatch_stream call) (dispatch_id call) true true)
  | DispatchTask _ _ (DispatchProjecting r p) => project_right r p
  | ProjectionTask _ (ProjectionSpawning _ _ _ r p) => project_right r p
  | _ => None
  end.

(** What a receipt of a dispatch says is on the stream. *)
Definition dispatched_ok s stream d (receipt : ThreadSpawnDispatchReceipt) : Prop :=
  exists request p e text thread, first_request s stream d request p /\
    dispatched_request_event_id receipt = event_id request /\ dispatched_task_name receipt = request_task_name p /\
    (is_blank (submitted_turn_of request p) = false -> dispatched_submitted_turn_id receipt = Some (submitted_turn_of request p)) /\
    e ∈ log_events s stream /\ spawned_with d e /\ payload_text "child_thread_id" e = Some text /\ uuid_parse text = Some thread /\
    dispatched_handle receipt = handle_of_thread thread.

Definition dispatch_ok s (call : DispatchCall) (p : DispatchPhase) : Prop :=
  let stream := dispatch_stream call in
  let d := dispatch_id call in
  match p with
  | DispatchRequesting next record =>
      (exists id now, record = dispatch_request_record id now call) /\
      exists events, snapshot_at stream next events s /\ dispatch_request_of events d = None /\
        (forall name, request_task_name (dispatch_payload call) = Some name ->
           forall e, e ∈ events -> reserves_task_name (dispatch_coordinates call) d name e = false)
  | DispatchClaiming request dec p =>
      (exists payload, first_request s stream d request payload) /\ (exists id now, dec = claim_decision id now request d) /\ decision_ok s dec p
  | DispatchParent request => exists payload, first_request s stream d request payload
  | DispatchProjecting r p =>
      first_request s stream d (claimed_event r) (claimed_payload r) /\
      thread_id (ctx_coordinates (claimed_parent r)) = thread_id (dispatch_coordinates call) /\ project_ok s r p
  | DispatchReturned (Ok receipt) => dispatched_ok s stream d receipt
  | _ => True
  end.

(** A request on the stream, and the claim it is or was looked at for. *)
Definition on_stream s (call : ProjectionCall) (event : EventRecord) (rest : list EventRecord) : Prop :=
  forall e, e ∈ event :: rest -> e ∈ log_events s (control_stream_id (projection_coordinates call)).
Definition claimed_ok s (call : ProjectionCall) event r : Prop :=
  claimed_event r = event /\ decode_spawn_request (payload event) = Ok (claimed_payload r) /\
  thread_id (ctx_coordinates (claimed_parent r)) = thread_id (projection_coordinates call).

Definition projection_ok s (call : ProjectionCall) (p : ProjectionPhase) : Prop :=
  match p with
  | ProjectionReading => True
  | ProjectionRereading event rest _ => on_stream s call event rest
  | ProjectionRejecting event rest _ _ d p =>
      on_stream s call event rest /\ decision_request d = event /\ quiet_record (decision_record d) /\ decision_ok s d p
  | ProjectionParent event rest _ p events =>
      on_stream s call event rest /\ decode_spawn_request (payload event) = Ok p /\
      request_parent_thread_id p = thread_id (projection_coordinates call) /\
      snapshot_at (control_stream_id (projection_coordinates call)) (next_sequence events) events s
  | ProjectionClaiming event rest _ r d p =>
      on_stream s call event rest /\ claimed_ok s call event r /\
      (exists id now, d = claim_decision id now event (request_correlation_id (claimed_payload r))) /\ decision_ok s d p
  | ProjectionSpawning event rest _ r p => on_stream s call event rest /\ claimed_ok s call event r /\ project_ok s r p
  | ProjectionFailing event rest _ _ => on_stream s call event rest
  | ProjectionReturned _ => True
  end.

Definition task_ok s (t : SpawnTask) : Prop :=
  match t with
  | DispatchTask call _ p => dispatch_ok s call p
  | ProjectionTask call p => projection_ok s call p
  end.

Lemma extends_task s s' t : extends s s' -> task_ok s t -> task_ok s' t.
Proof.
  intros Hx. destruct t as [call started p|call p].
  - destruct p as [|until|next record|request d p|request|r p|request e|[receipt|e]]; cbn; try done.
    + intros (Hr & events & Hs & Hrest). split; [done|]. exists events. split; [by eapply extends_snapshot|done].
    + intros ((pl & Hf) & Hd & Hdec). split_and!; [exists pl; by eapply extends_first|done|by eapply extends_decision].
    + intros (pl & Hf). exists pl. by eapply extends_first.
    + intros (Hf & Ht & Hp). split_and!; [by eapply extends_first|done|by eapply extends_project].
    + intros (request & p & e & text & thread & Hf & ? & ? & ? & He & Hrest). exists request, p, e, text, thread.
      destruct Hrest as (? & ? & ? & ?). split_and!; first [done|by eapply extends_first|by eapply extends_elem].
  - assert (forall event rest, on_stream s call event rest -> on_stream s' call event rest) as Hon.
    { intros event rest Ho e He. eapply extends_elem; [exact Hx|by apply Ho]. }
    destruct p as [|event rest receipt|event rest receipt reason d p|event rest receipt p events|event rest receipt r d p|event rest receipt r p|event rest receipt e|res];
      cbn; try done; [apply Hon|..].
    + intros (? & ? & ? & ?). split_and!; [by apply Hon|done..|by eapply extends_decision].
    + intros (? & ? & ? & ?). split_and!; [by apply Hon|done..|by eapply extends_snapshot].
    + intros (? & ? & ? & ?). split_and!; [by apply Hon|done..|by eapply extends_decision].
    + intros (? & ? & ?). split_and!; [by apply Hon|done|by eapply extends_project].
    + apply Hon.
Qed.

(** What a step of a task does: a move within its right, or one that wins it, or one without any. *)
Inductive task_move s s' (effects : list SpawnEffect) (old new : option Right) : Prop :=
  | task_moves o : old = Some o -> right_move s s' effects o new -> task_move s s' effects old new
  | task_writes stream (record : NewEventRecord) : grew stream [record] s s' -> quiet_record record -> starts effects = [] ->
      old = None -> new = None -> task_move s s' effects old new
  | task_requests call id now : grew (dispatch_stream call) [dispatch_request_record id now call] s s' ->
      (forall name, request_task_name (dispatch_payload call) = Some name -> forall e, e ∈ log_events s (dispatch_stream call) ->
         reserves_task_name (dispatch_coordinates call) (dispatch_id call) name e = false) ->
      starts effects = [] -> old = None -> new = None -> task_move s s' effects old new
  | task_claims stream d (record : NewEventRecord) : grew stream [record] s s' -> new_kind record <> ThreadSpawned ->
      (forall n, claim_with d (from_new stream n record)) -> starts effects = [] ->
      (exists n, log_events s' stream = log_events s stream ++ [from_new stream n record]) ->
      (forall e, e ∈ log_events s stream -> ~ claim_with d e /\ ~ spawned_with d e) ->
      old = None -> (new = None \/ new = Some (mk_right stream d true true)) -> task_move s s' effects old new.

Lemma task_quiet s effects old new : log_valid s -> starts effects = [] -> old = None -> new = None -> task_move s s effects old new.
Proof.
  intros Hv He -> ->. apply (task_writes _ _ _ _ _ "" (witnessed 0 0 (mk_coordinates "" "" "" 0) TurnSubmitted JNull)); [|by apply other_kind_quiet|done..].
  by apply same_log_grew, same_log_refl.
Qed.

(** ** A step of a dispatcher *)

Lemma on_stream_id s stream e : log_valid s -> e ∈ log_events s stream -> stream_id e = stream.
Proof. intros Hv (i & Hi)%list_elem_of_lookup. by destruct (log_numbered _ _ _ _ Hv Hi). Qed.

Lemma find_event_by_id s stream request : log_valid s -> request ∈ log_events s stream ->
  List.find (fun e => (event_id e =? event_id request)%N) (log_events s stream) = Some request.
Proof.
  intros Hv Hin. destruct (List.find _ _) as [e|] eqn:Hf.
  - apply find_some in Hf as [He Hid]. apply list_elem_of_In in He. to_prop. f_equal. by eapply log_ids_unique.
  - eapply find_none in Hf; [|by apply list_elem_of_In]. by rewrite N.eqb_refl in Hf.
Qed.

Lemma dispatch_folded_ok s call started input request p folded :
  log_valid s -> first_request s (dispatch_stream call) (dispatch_id call) request p ->
  fold_thread_spawn_dispatch (log_events s (dispatch_stream call)) (dispatch_id call) = Some folded ->
  let p' := (dispatch_folded call started input (log_events s (dispatch_stream call)) folded).2 in
  dispatch_ok s call p' /\ (forall st', task_right (DispatchTask call st' p') = None).
Proof.
  intros Hv Hf Hfold. destruct (first_request_spec _ _ _ _ _ Hf) as (Hin & Hreq & Hdec & Hcorr).
  unfold fold_thread_spawn_dispatch in Hfold. rewrite Hf in Hfold. cbn in Hfold. injection Hfold as <-.
  unfold dispatch_folded. cbn [fold_request_event_id]. rewrite (find_event_by_id _ _ _ Hv Hin), Hdec.
  destruct (negb _); [done|]. cbn [fold_handle fold_failure_reason fold_claimed fold_submitted_turn_id fold_task_name].
  match goal with |- context [match ?h with Some _ => _ | None => _ end] => destruct h as [handle|] eqn:Hh end.
  - apply bind_Some in Hh as (e & Hfind & Hh). apply bind_Some in Hh as (text & Htext & Hh).
    apply fmap_Some in Hh as (thread & Hparse & ->).
    apply find_some in Hfind as [He Hcor]. apply list_elem_of_In in He. unfold correlated in Hcor. to_prop.
    cbn [handle_id handle_of_thread]. rewrite uuid_parse_text. split; [|done]. cbn. exists request, p, e, text, thread. by split_and!.
  - destruct (e ← _; payload_text "reason" e); [done|]. destruct (existsb _ _).
    + cbv zeta. by destruct (THREAD_SPAWN_CLAIM_WAIT_TIMEOUT <=? _)%Z.
    + split; [|done]. cbn. split_and!; [by exists p|by do 2 eexists|]. rewrite (on_stream_id _ _ _ Hv Hin). by apply snapshot_now.
Qed.

Lemma dispatch_decide_ok s call started input : log_valid s ->
  let p' := (dispatch_decide call started input (log_events s (dispatch_stream call))).2 in
  dispatch_ok s call p' /\ (forall st', task_right (DispatchTask call st' p') = None).
Proof.
  intros Hv. unfold dispatch_decide. destruct (fold_thread_spawn_dispatch _ _) as [folded|] eqn:Hfold.
  - unfold fold_thread_spawn_dispatch in Hfold. apply bind_Some in Hfold as ([request p] & Hf & Hfold).
    eapply dispatch_folded_ok; [done|exact Hf|]. unfold fold_thread_spawn_dispatch. by rewrite Hf.
  - assert (dispatch_request_of (log_events s (dispatch_stream call)) (dispatch_id call) = None) as Hnone.
    { unfold fold_thread_spawn_dispatch in Hfold. by destruct (dispatch_request_of _ _) as [[]|]. }
    assert ((forall name, request_task_name (dispatch_payload call) = Some name -> forall e, e ∈ log_events s (dispatch_stream call) ->
        reserves_task_name (dispatch_coordinates call) (dispatch_id call) name e = false) ->
      dispatch_ok s call (DispatchRequesting (next_sequence (log_events s (dispatch_stream call)))
        (dispatch_request_record (drawn_id input) (drawn_now input) call))) as Hreq.
    { intros Hn. split; [by do 2 eexists|]. exists (log_events s (dispatch_stream call)). split_and!; [by apply snapshot_now|done|exact Hn]. }
    cbv zeta. destruct (request_task_name (dispatch_payload call)) as [name|].
    + destruct (is_blank name); [done|]. destruct (existsb _ _) eqn:Hex; [done|]. split; [|done]. apply Hreq.
      intros n [= <-] e He. by eapply existsb_false_elem in Hex.
    + split; [|done]. by apply Hreq.
Qed.

Lemma dispatch_step_spec call input started p s s' eff started' p' : log_valid s -> dispatch_ok s call p ->
  dispatch_step call input started p s = Some (s', eff, started', p') ->
  dispatch_ok s' call p' /\ task_move s s' eff (task_right (DispatchTask call started p)) (task_right (DispatchTask call started' p')).
Proof.
  intros Hv Hok Hstep.
  destruct p as [|until|next record|request d p|request|r p|request e|res]; cbn [dispatch_step] in Hstep; [..|done].
  - unfold read_log in Hstep. rewrite (log_read_all _ _ Hv) in Hstep. cbn [map_err] in Hstep.
    destruct (dispatch_decide_ok s call started input Hv) as [Hok' Hr].
    destruct (dispatch_decide _ _ _ _) as [st' q]. injection Hstep as <- <- <- <-. split; [done|]. by apply task_quiet.
  - destruct (until <=? clock input)%Z; [|done]. injection Hstep as <- <- <- <-. split; [done|]. by apply task_quiet.
  - destruct Hok as ((id & now & ->) & (events & Hsnap & _ & Hnames)). destruct (log_append_fenced _ _ _ s) as [s1 res] eqn:Hrun.
    pose proof (log_append_fenced_grew (dispatch_stream call) next [dispatch_request_record id now call] s Hv) as Hg. rewrite Hrun in Hg.
    injection Hstep as <- <- <- <-.
    split; [by destruct res as [|[]]|]. destruct res as [es|err].
    + destruct (snapshot_fence _ _ _ _ _ _ _ Hv Hsnap Hrun) as (<- & _). by eapply task_requests.
    + eapply (task_writes _ _ _ _ _ "" (witnessed 0 0 (mk_coordinates "" "" "" 0) TurnSubmitted JNull));
        [apply same_log_grew; by destruct (log_append_err _ _ _ _ _ _ Hv Hrun)|by apply other_kind_quiet|done..|by destruct err].
  - destruct Hok as ((pl & Hf) & (id & now & ->) & Hdec). destruct (first_request_spec _ _ _ _ _ Hf) as (Hin & _ & Hpl & Hcorr).
    destruct (decision_step _ p s) as [s1 q] eqn:Hrun. destruct (decision_step_spec _ _ _ _ _ Hv Hdec Hrun) as (Hg & Hok' & Hcase).
    cbn [decision_request decision_correlation decision_record claim_decision] in *. rewrite (on_stream_id _ _ _ Hv Hin) in *.
    assert (first_request s1 (dispatch_stream call) (dispatch_id call) request pl) as Hf' by (eapply extends_first; [by eapply grew_extends|done]).
    assert (s' = s1 /\ eff = [] /\ dispatch_ok s1 call p' /\
      (task_right (DispatchTask call started' p') = None \/
       (exists id, q = Decided (Ok (DecisionAppended id))) /\
       task_right (DispatchTask call started' p') = Some (mk_right (dispatch_stream call) (dispatch_id call) true true))) as (-> & -> & Hdok & Hright).
    { destruct q as [events| |[[nid|]|err]]; injection Hstep as <- <- <- <-; split_and!; try done; try (by left);
        try (right; by split; [eexists|]); [..|by exists pl]; (split; [by exists pl|split; [by do 2 eexists|exact Hok']]). }
    split; [done|]. destruct Hcase as [[Hsame Hno]|[Happ Hproj]].
    + destruct Hright as [Hr|[[nid Hq] _]]; [|by destruct (Hno nid)].
      eapply (task_writes _ _ _ _ _ "" (witnessed 0 0 (mk_coordinates "" "" "" 0) TurnSubmitted JNull)); [by apply same_log_grew|by apply other_kind_quiet|done..].
    + eapply (task_claims _ _ _ _ _ (dispatch_stream call) (dispatch_id call)); [exact Hg|done| |done|exact Happ| |done|].
      * intros n. rewrite <- Hcorr. by apply claim_record_claims.
      * by eapply not_projected.
      * destruct Hright as [Hr|[_ Hr]]; [by left|by right].
  - destruct Hok as [pl Hf]. destruct (got_thread _ _) as [res|] eqn:Hgot; [|done].
    destruct (first_request_spec _ _ _ _ _ Hf) as (Hin & _ & Hpl & Hcorr). cbn [mbind option_bind] in Hstep. rewrite Hpl in Hstep.
    injection Hstep as <- <- <- <-. destruct res as [parent|err].
    + split; [cbn; split_and!; [done|by eapply got_thread_ok|done]|].
      eapply task_moves; [done|]. apply move_nothing; [by apply same_log_refl|done|].
      cbn. rewrite (on_stream_id _ _ _ Hv Hin), Hcorr. auto.
    + split; [done|]. eapply task_moves; [done|]. by apply move_nothing; [apply same_log_refl|..].
  - destruct Hok as (Hf & Hthread & Hp). destruct (first_request_spec _ _ _ _ _ Hf) as (Hin & _ & Hpl & Hcorr).
    destruct (project_step r input p s) as [[[s1 eff1] q]|] eqn:Hrun; [|done].
    assert (claimed_for_parent r) as Hfor.
    { unfold claimed_for_parent. rewrite (on_stream_id _ _ _ Hv Hin). by apply control_stream_thread. }
    destruct (project_step_spec _ _ _ _ _ _ _ Hv Hfor Hp Hrun) as (Hok' & old & Hold & Hmove).
    destruct (right_move_extends _ _ _ _ _ Hmove) as [Hx _].
    assert (first_request s1 (dispatch_stream call) (dispatch_id call) (claimed_event r) (claimed_payload r)) as Hf' by by eapply extends_first.
    destruct q as [|hash|c p1|[pr|err]]; injection Hstep as <- <- <- <-; (split; [|by eapply task_moves]); try done.
    destruct Hok' as (Hid & Hname & Hturn & (e & He & Hs & Ht)). cbn. rewrite (on_stream_id _ _ _ Hv Hin), Hcorr in *.
    exists (claimed_event r), (claimed_payload r), e, (uuid_text (projected_child_thread_id pr)), (projected_child_thread_id pr).
    split_and!; try done; [|apply uuid_parse_text]. intros Hb. cbn. by rewrite Hturn.
  - destruct (append_failure _ _ _ _ _ _ s) as [s1 res] eqn:Hrun. injection Hstep as <- <- <- <-. split; [done|].
    unfold append_failure in Hrun. set (failure := failure_record _ _ _ _ _ _) in *.
    pose proof (log_append_grew (stream_id request) [failure] s Hv) as Hg. destruct (log_append _ _ s) as [s2 r2]. injection Hrun as <- _.
    eapply task_writes; [exact Hg|apply failure_record_quiet|done..].
Qed.

(** ** A step of a projector *)

Lemma projection_next_ok s call event rest receipt : on_stream s call event rest ->
  projection_ok s call (projection_next rest receipt) /\ task_right (ProjectionTask call (projection_next rest receipt)) = None.
Proof. intros Ho. destruct rest as [|next rest]; [done|]. split; [|done]. intros e He. apply Ho. set_solver. Qed.

Lemma projection_reject_ok s call c input event rest receipt correlation reason :
  log_valid s -> on_stream s call event rest ->
  let events := log_events s (control_stream_id (projection_coordinates call)) in
  projection_ok s call (projection_reject c input event rest receipt correlation reason events).
Proof.
  intros Hv Ho events. cbn. split_and!; [done|done|apply failure_record_quiet|].
  rewrite (on_stream_id _ _ _ Hv (Ho event ltac:(set_solver))). by apply snapshot_now.
Qed.

Lemma projection_event_ok s call input event rest receipt :
  log_valid s -> on_stream s call event rest ->
  let events := log_events s (control_stream_id (projection_coordinates call)) in
  let p := projection_event call input event rest receipt events in
  projection_ok s call p /\ task_right (ProjectionTask call p) = None.
Proof.
  intros Hv Ho events. unfold projection_event. destruct (decode_spawn_request (payload event)) as [p|err] eqn:Hp.
  - destruct (spawn_request_already_projected _ _ _); [by eapply projection_next_ok|].
    destruct (request_out_of_scope _ _ _) as [reason|] eqn:Hscope; [split; [by apply projection_reject_ok|done]|].
    split; [|done]. cbn. split_and!; [done..| |by apply snapshot_now].
    unfold request_out_of_scope in Hscope. repeat case_hyp Hscope; try done. by to_prop.
  - split; [by apply projection_reject_ok|done].
Qed.

Lemma projection_step_spec call input p s s' eff p' : log_valid s -> projection_ok s call p ->
  projection_step call input p s = Some (s', eff, p') ->
  projection_ok s' call p' /\ task_move s s' eff (task_right (ProjectionTask call p)) (task_right (ProjectionTask call p')).
Proof.
  intros Hv Hok Hstep. set (stream := control_stream_id (projection_coordinates call)) in *.
  assert (read_log s stream = Ok (log_events s stream)) as Hread by (unfold read_log; by rewrite (log_read_all _ _ Hv)).
  assert (forall s1 event rest, extends s s1 -> on_stream s call event rest -> on_stream s1 call event rest) as Hon.
  { intros s1 event rest Hx Ho e He. eapply extends_elem; [exact Hx|by apply Ho]. }
  assert (forall s1, same_log s s1 -> task_move s s1 [] None None) as Hsame.
  { intros s1 Hs. eapply (task_writes _ _ _ _ _ "" (witnessed 0 0 (mk_coordinates "" "" "" 0) TurnSubmitted JNull));
      [by apply same_log_grew|by apply other_kind_quiet|done..]. }
  destruct p as [|event rest receipt|event rest receipt reason d p|event rest receipt p events|event rest receipt r d p|event rest receipt r p|event rest receipt e|res];
    cbn [projection_step] in Hstep; fold stream in Hstep; [..|done].
  - rewrite Hread in Hstep. injection Hstep as <- <- <-.
    destruct (List.filter is_spawn_request (log_events s stream)) as [|event rest] eqn:Hfil; [split; [done|by apply Hsame, same_log_refl]|].
    destruct (projection_event_ok s call input event rest receipt_default Hv) as [Hok' Hr].
    { intros e He. rewrite <- Hfil in He. apply list_elem_of_In, filter_In in He as [He _]. by apply list_elem_of_In. }
    split; [exact Hok'|]. fold stream in Hr. rewrite Hr. by apply Hsame, same_log_refl.
  - rewrite Hread in Hstep. injection Hstep as <- <- <-. destruct (projection_event_ok s call input event rest receipt Hv Hok) as [Hok' Hr].
    split; [exact Hok'|]. fold stream in Hr. rewrite Hr. by apply Hsame, same_log_refl.
  - destruct Hok as (Ho & Hev & Hinert & Hdec). destruct (decision_step d p s) as [s1 q] eqn:Hrun.
    destruct (decision_step_spec _ _ _ _ _ Hv Hdec Hrun) as (Hg & Hok' & _). injection Hstep as <- <- <-.
    pose proof (Hon s1 event rest (grew_extends _ _ _ _ Hg) Ho) as Ho'.
    assert (forall q', task_right (ProjectionTask call q') = None -> task_move s s1 [] None (task_right (ProjectionTask call q'))) as Hw.
    { intros q' Hq. eapply task_writes; [exact Hg|exact Hinert|done..]. }
    destruct q as [events| |[[nid|]|err]]; (split; [|apply Hw]); try done; try (by eapply projection_next_ok).
  - destruct Hok as (Ho & Hpl & Hpar & Hsnap). destruct (got_thread _ _) as [res|] eqn:Hgot; [|done]. injection Hstep as <- <- <-.
    assert (decision_ok s (claim_decision (drawn_id input) (drawn_now input) event (request_correlation_id p)) (Deciding events)) as Hdec.
    { cbn. by rewrite (on_stream_id _ _ _ Hv (Ho event ltac:(set_solver))). }
    unfold projection_parent. destruct res as [parent|err]; [destruct (negb _)|]; (split; [|by apply Hsame, same_log_refl]).
    + exact (conj Ho (conj eq_refl (conj (failure_record_quiet _ _ _ _ _ _) Hdec))).
    + assert (thread_id (ctx_coordinates parent) = thread_id (projection_coordinates call)) as Hth
        by (by rewrite (got_thread_ok _ _ _ Hgot)).
      exact (conj Ho (conj (conj eq_refl (conj Hpl Hth)) (conj (ex_intro _ _ (ex_intro _ _ eq_refl)) Hdec))).
    + exact (conj Ho (conj eq_refl (conj (failure_record_quiet _ _ _ _ _ _) Hdec))).
  - destruct Hok as (Ho & (Hev & Hpl & Hthread) & (id & now & ->) & Hdec). destruct (decision_step _ p s) as [s1 q] eqn:Hrun.
    assert (stream_id event = stream) as Hst by exact (on_stream_id _ _ _ Hv (Ho event ltac:(set_solver))).
    destruct (decision_step_spec _ _ _ _ _ Hv Hdec Hrun) as (Hg & Hok' & Hcase). injection Hstep as <- <- <-.
    cbn [decision_request decision_correlation decision_record claim_decision] in *. rewrite Hst in *.
    pose proof (Hon s1 event rest (grew_extends _ _ _ _ Hg) Ho) as Ho'.
    set (p' := match q with Decided _ => _ | _ => _ end).
    assert (projection_ok s1 call p' /\
      (task_right (ProjectionTask call p') = None \/ (exists id, q = Decided (Ok (DecisionAppended id))) /\
       task_right (ProjectionTask call p') = Some (mk_right stream (request_correlation_id (claimed_payload r)) true true))) as [Hpok Hright].
    { subst p'. destruct q as [events| |[[nid|]|err]].
      - split; [|by left]. split; [exact Ho'|split; [by split_and!|split; [by do 2 eexists|exact Hok']]].
      - split; [|by left]. split; [exact Ho'|split; [by split_and!|split; [by do 2 eexists|exact Hok']]].
      - split; [split; [exact Ho'|split; [by split_and!|done]]|right]. split; [by eexists|]. cbn. unfold claimed_right. by rewrite Hev, Hst.
      - destruct (projection_next_ok s1 call event rest (push_skipped event receipt) Ho'). auto.
      - auto. }
    split; [exact Hpok|]. destruct Hcase as [[Hs Hno]|[Happ Hproj]].
    + destruct Hright as [Hr|[[nid Hq] _]]; [|by destruct (Hno nid)]. rewrite Hr. by apply Hsame.
    + eapply (task_claims _ _ _ _ _ stream (request_correlation_id (claimed_payload r))); [exact Hg|done| |done|exact Happ| |done|].
      * intros n. by apply claim_record_claims.
      * by eapply not_projected.
      * destruct Hright as [Hr|[_ Hr]]; [by left|by right].
  - destruct Hok as (Ho & Hcl & Hp). pose proof Hcl as (Hev & Hpl & Hthread).
    assert (stream_id event = stream) as Hst by exact (on_stream_id _ _ _ Hv (Ho event ltac:(set_solver))).
    destruct (project_step r input p s) as [[[s1 eff1] q]|] eqn:Hrun; [|done].
    assert (claimed_for_parent r) as Hfor.
    { unfold claimed_for_parent. rewrite Hev, Hst. by apply control_stream_thread. }
    destruct (project_step_spec _ _ _ _ _ _ _ Hv Hfor Hp Hrun) as (Hok' & old & Hold & Hmove).
    destruct (right_move_extends _ _ _ _ _ Hmove) as [Hx _]. pose proof (Hon s1 event rest Hx Ho) as Ho'.
    assert (forall rc, projection_ok s1 call (projection_next rest rc) /\ task_right (ProjectionTask call (projection_next rest rc)) = None) as Hnext
      by (intros rc; by eapply projection_next_ok).
    destruct q as [|hash|c p1|[pr|err]]; injection Hstep as <- <- <-.
    1-3: split; [split; [exact Ho'|split; [exact Hcl|exact Hok']]|by eapply task_moves].
    + destruct (Hnext (push_projected pr receipt)) as [Hn Hr]. split; [exact Hn|]. rewrite Hr. by eapply task_moves.
    + split; [exact Ho'|]. by eapply task_moves.
  - unfold append_failure in Hstep. set (failure := failure_record _ _ _ _ _ _) in *.
    pose proof (log_append_grew (stream_id event) [failure] s Hv) as Hg. destruct (log_append _ _ s) as [s1 r1]. cbn [fst] in Hg.
    injection Hstep as <- <- <-. pose proof (Hon s1 event rest (grew_extends _ _ _ _ Hg) Hok) as Ho'.
    match goal with |- context [match ?x with Ok _ => _ | Err _ => _ end] => destruct x end.
    + destruct (projection_next_ok s1 call event rest (push_failed event (event_id a) (spawn_error_text e) receipt) Ho') as [Hn Hr].
      split; [exact Hn|]. rewrite Hr. eapply task_writes; [exact Hg|apply failure_record_quiet|done..].
    + split; [done|]. eapply task_writes; [exact Hg|apply failure_record_quiet|done..].
Qed.

Lemma task_step_spec input t s s' eff t' : log_valid s -> task_ok s t -> task_step input t s = Some (s', eff, t') ->
  task_ok s' t' /\ task_move s s' eff (task_right t) (task_right t').
Proof.
  intros Hv Hok Hstep. destruct t as [call started p|call p]; cbn [task_step] in Hstep.
  - apply bind_Some in Hstep as ([[[s1 eff1] st1] p1] & Hd & Hstep). injection Hstep as <- <- <-. by eapply dispatch_step_spec.
  - apply bind_Some in Hstep as ([[s1 eff1] p1] & Hd & Hstep). injection Hstep as <- <- <-. by eapply projection_step_spec.
Qed.
End Facts.
