(* ===== verification/SpawnProps.v ===== *)
(** * One child per dispatch

    However dispatchers and projectors interleave, a request is claimed once, its child
    is asked for and recorded once, and every dispatcher of it answers the same;
    and a task name stands for one child. *)

From stdpp Require Import base gmap sets list strings pretty.
From Stdlib Require Import ZArith Lia.
From S2P Require Import Prelude Json EventKind Contracts Records Store Journal EventLog Lease Queue Control Coupling Stdlib Canonical.
From S2P Require Import ReadPlan Join Spawn SpawnTasks SpawnFacts.

Local Open Scope verlet_scope.
Local Open Scope string_scope.
Local Open Scope list_scope.

Section Props.
Context `{UuidParse} `{!SpawnCodec} `{!SpawnCodecLaws} `{SpawnTexts} `{JoinCodec} `{JsonTexts} `{Sha256}.
Context {S : Type} `{EventAppendLaws S}.
Implicit Types (s : S) (w : SpawnWorld (S := S)) (stream : EventStreamId) (d : string) (e : EventRecord) (o : Right) (t : SpawnTask).

(** ** The invariant *)

(** A dispatch is claimed once on a stream, and has one child there. *)
Definition claims_unique s : Prop := forall stream d e1 e2,
  e1 ∈ log_events s stream -> e2 ∈ log_events s stream -> claim_with d e1 -> claim_with d e2 -> e1 = e2.
Definition children_unique s : Prop := forall stream d e1 e2,
  e1 ∈ log_events s stream -> e2 ∈ log_events s stream -> spawned_with d e1 -> spawned_with d e2 -> e1 = e2.

(** The start of a child is for the dispatch. *)
Definition started_for stream d (v : ThreadSpawnWitness) : Prop :=
  witness_request_stream_id v = Some stream /\ witness_correlation_id v = Some d.

Definition is_claimed s stream d : Prop := exists e, e ∈ log_events s stream /\ claim_with d e.

Record right_ok s (effects : list SpawnEffect) o : Prop := {
  ro_claimed : is_claimed s (right_stream o) (right_id o);
  ro_record : right_record o = true -> forall e, e ∈ log_events s (right_stream o) -> ~ spawned_with (right_id o) e;
  ro_call : right_call o = true -> forall v, v ∈ starts effects -> ~ started_for (right_stream o) (right_id o) v;
}.

Definition same_dispatch (o1 o2 : Right) : Prop := right_stream o1 = right_stream o2 /\ right_id o1 = right_id o2.

Record starts_ok s (effects : list SpawnEffect) : Prop := {
  so_once : forall i j v1 v2 stream d, starts effects !! i = Some v1 -> starts effects !! j = Some v2 ->
    started_for stream d v1 -> started_for stream d v2 -> i = j;
  so_claimed : forall v, v ∈ starts effects -> exists stream d, started_for stream d v /\ is_claimed s stream d;
}.

Record spawn_inv w : Prop := {
  si_valid : log_valid (spawn_store w);
  si_claims : claims_unique (spawn_store w);
  si_children : children_unique (spawn_store w);
  si_tasks : map_Forall (fun _ t => task_ok (spawn_store w) t) (spawn_tasks w);
  si_rights : forall k t o, spawn_tasks w !! k = Some t -> task_right t = Some o -> right_ok (spawn_store w) (spawn_effects w) o;
  si_apart : forall k1 k2 t1 t2 o1 o2, spawn_tasks w !! k1 = Some t1 -> spawn_tasks w !! k2 = Some t2 ->
    task_right t1 = Some o1 -> task_right t2 = Some o2 -> same_dispatch o1 o2 -> k1 = k2;
  si_starts : starts_ok (spawn_store w) (spawn_effects w);
}.

(** Other writers claim no request and record no child. *)
Definition spawned_by_tasks (label : SpawnLabel) : Prop :=
  match label with WorldAppends _ records => Forall inert_record records | _ => True end.

(** ** Preservation *)

Lemma extends_claimed s s' stream d : extends s s' -> is_claimed s stream d -> is_claimed s' stream d.
Proof. intros Hx (e & He & Hc). exists e. split; [by eapply extends_elem|done]. Qed.

Lemma extends_starts s s' effects : extends s s' -> starts_ok s effects -> starts_ok s' effects.
Proof.
  intros Hx [Ho Hc]. split; [done|]. intros v Hv. destruct (Hc v Hv) as (stream & d & Hs & Hcl).
  exists stream, d. split; [done|by eapply extends_claimed].
Qed.

(** What is new on the log is inert. *)
Definition inertly s s' : Prop := forall stream e, e ∈ log_events s' stream -> e ∈ log_events s stream \/ inert e.

Lemma grew_inertly stream records s s' : grew stream records s s' -> Forall inert_record records -> inertly s s'.
Proof.
  intros Hg Hi other e He. destruct (grew_new _ _ _ _ _ _ Hg He) as [Hin|(_ & r & n & Hr & ->)]; [by left|right].
  rewrite Forall_forall in Hi. by apply Hi.
Qed.

Lemma inertly_claims s s' : inertly s s' -> claims_unique s -> claims_unique s'.
Proof.
  intros Hi Hu stream d e1 e2 Hin1 Hin2 Hc1 Hc2.
  destruct (Hi _ _ Hin1) as [Hold1|Hx]; [|by destruct (inert_claim d _ Hx)].
  destruct (Hi _ _ Hin2) as [Hold2|Hx]; [|by destruct (inert_claim d _ Hx)]. by eapply Hu.
Qed.

Lemma inertly_children s s' : inertly s s' -> children_unique s -> children_unique s'.
Proof.
  intros Hi Hu stream d e1 e2 Hin1 Hin2 Hc1 Hc2.
  destruct (Hi _ _ Hin1) as [Hold1|Hx]; [|by destruct (inert_spawned d _ Hx)].
  destruct (Hi _ _ Hin2) as [Hold2|Hx]; [|by destruct (inert_spawned d _ Hx)]. by eapply Hu.
Qed.

Lemma inertly_right s s' effects o : inertly s s' -> extends s s' -> right_ok s effects o -> right_ok s' effects o.
Proof.
  intros Hi Hx [Hc Hr Hcall]. split; [by eapply extends_claimed| |done].
  intros Ho e He Hs. destruct (Hi _ _ He) as [Hold|Hin]; [by apply (Hr Ho e)|exact (inert_spawned _ _ Hin Hs)].
Qed.

(** Giving up part of a right keeps what is left of it. *)
Lemma less_right_ok s effects old n : less_right old (Some n) -> right_ok s effects old -> right_ok s effects n.
Proof.
  intros (Hs & Hi & Hc & Hr) [Hcl Hrec Hcall]. split; rewrite ?Hs, ?Hi; [done|auto..].
Qed.

(** What one step does, apart from the tasks: the log, the children and the starts. *)
Record step_effect s s' (effects effects' : list SpawnEffect) (old new : option Right) : Prop := {
  se_valid : log_valid s';
  se_extends : extends s s';
  se_claims : claims_unique s -> claims_unique s';
  se_children : children_unique s -> (forall o, old = Some o -> right_ok s effects o) -> children_unique s';
  se_starts : starts_ok s effects -> (forall o, old = Some o -> right_ok s effects o) -> starts_ok s' effects';
  (** The right of the task itself. *)
  se_own : forall n, new = Some n -> (forall o, old = Some o -> right_ok s effects o) -> starts_ok s effects -> right_ok s' effects' n;
  (** That of a task with another dispatch. *)
  se_other : forall o, (forall o', old = Some o' -> ~ same_dispatch o' o) -> right_ok s effects o -> right_ok s' effects' o;
  (** A right that is new is not one that another has. *)
  se_apart : forall n o, new = Some n -> same_dispatch n o -> right_ok s effects o -> exists o', old = Some o' /\ same_dispatch o' n;
}.

Lemma starts_snoc_nothing eff effects : starts eff = [] -> starts (effects ++ eff) = starts effects.
Proof. intros He. by rewrite starts_app, He, app_nil_r. Qed.

Lemma right_ok_starts s effects effects' o : starts effects' = starts effects -> right_ok s effects o -> right_ok s effects' o.
Proof. intros He [? ? Hc]. split; [done|done|]. by rewrite He. Qed.

Lemma starts_ok_starts s effects effects' : starts effects' = starts effects -> starts_ok s effects -> starts_ok s effects'.
Proof. intros He [Ho Hc]. split; by rewrite He. Qed.

Lemma inert_effect s s' effects eff old new : log_valid s' -> extends s s' -> inertly s s' -> starts eff = [] ->
  (new = None \/ exists o n, old = Some o /\ new = Some n /\ less_right o (Some n)) ->
  step_effect s s' effects (effects ++ eff) old new.
Proof.
  intros Hv Hx Hi He Hnew. pose proof (starts_snoc_nothing eff effects He) as Hst. split; try done.
  - by apply inertly_claims.
  - intros Hu _. by eapply inertly_children.
  - intros Hs _. apply (starts_ok_starts _ _ _ Hst). by eapply extends_starts.
  - intros n Hn Hold _. destruct Hnew as [Hno|(o & n' & Ho & Hn' & Hl)]; [congruence|]. assert (n' = n) as -> by congruence.
    apply (right_ok_starts _ _ _ _ Hst), (less_right_ok _ _ o); [done|]. eapply inertly_right; [done..|by apply Hold].
  - intros o _ Hr. apply (right_ok_starts _ _ _ _ Hst). by eapply inertly_right.
  - intros n o Hn Hsame _. destruct Hnew as [Hno|(o' & n' & Ho & Hn' & Hs & Hid & _)]; [congruence|].
    exists o'. split; [done|]. split; congruence.
Qed.

(** Asking for the child. *)
Lemma call_effect s s' effects eff v old new : same_log s s' -> log_valid s' -> starts eff = [v] ->
  started_for (right_stream old) (right_id old) v -> right_call old = true -> less_right old new ->
  (forall n, new = Some n -> right_call n = false) ->
  step_effect s s' effects (effects ++ eff) (Some old) new.
Proof.
  intros [_ Hsame] Hv He Hfor Hcall Hless Hno. assert (extends s s') as Hx by (by apply same_extends).
  assert (inertly s s') as Hi by (intros stream e Hin; rewrite Hsame in Hin; by left).
  assert (starts (effects ++ eff) = starts effects ++ [v]) as Hst by (by rewrite starts_app, He).
  assert (forall stream d, started_for stream d v -> stream = right_stream old /\ d = right_id old) as Hkey.
  { intros stream d [Ha Hb]. destruct Hfor as [Ha' Hb']. split; congruence. }
  split; try done.
  - by apply inertly_claims.
  - intros Hu _. by eapply inertly_children.
  - intros [Honce Hclaimed] Hold. destruct (Hold old eq_refl) as [Hc _ Hnone]. split.
    + assert (forall i v2 stream d, starts effects !! i = Some v2 -> started_for stream d v2 -> started_for stream d v -> False) as Hnew.
      { intros i v2 stream d Hi2 Hf2 Hf. destruct (Hkey _ _ Hf) as [-> ->]. apply (Hnone Hcall v2); [by eapply list_elem_of_lookup_2|done]. }
      intros i j v1 v2 stream d Hm1 Hm2 Hf1 Hf2. rewrite Hst in Hm1, Hm2.
      apply lookup_app_Some in Hm1 as [Hm1|[Hl1 Hm1]]; apply lookup_app_Some in Hm2 as [Hm2|[Hl2 Hm2]].
      * by eapply Honce.
      * apply list_lookup_singleton_Some in Hm2 as [_ <-]. by destruct (Hnew _ _ _ _ Hm1 Hf1).
      * apply list_lookup_singleton_Some in Hm1 as [_ <-]. by destruct (Hnew _ _ _ _ Hm2 Hf2).
      * apply list_lookup_singleton_Some in Hm1 as [Hz1 _], Hm2 as [Hz2 _]. lia.
    + intros u Hu. rewrite Hst in Hu. apply elem_of_app in Hu as [Hu|Hu%list_elem_of_singleton].
      * destruct (Hclaimed u Hu) as (stream & d & Hf & Hcl). exists stream, d. split; [done|by eapply extends_claimed].
      * subst u. do 2 eexists. split; [exact Hfor|by eapply extends_claimed].
  - intros n -> Hold _. pose proof (Hold old eq_refl) as Hro. destruct (less_right_ok _ _ _ _ Hless Hro) as [Hc Hr _].
    split; [by eapply extends_claimed| |by rewrite (Hno n eq_refl)]. intros Hn e Hin. apply Hr; [done|by rewrite <- Hsame].
  - intros o Hother Hro. destruct (inertly_right _ _ _ _ Hi Hx Hro) as [Hc Hr Hcl]. split; [done|done|].
    intros Ho u Hu. rewrite Hst in Hu. apply elem_of_app in Hu as [Hu|Hu%list_elem_of_singleton]; [by apply Hcl|].
    subst u. intros Hf. destruct (Hkey _ _ Hf) as [Ha Hb]. by apply (Hother old eq_refl).
  - intros n o -> Hs _. exists old. split; [done|]. by destruct Hless as (Hl1 & Hl2 & _); split.
Qed.

(** Recording the child. *)
Lemma record_effect s s' effects eff (record : NewEventRecord) old new : grew (right_stream old) [record] s s' ->
  new_kind record = ThreadSpawned ->
  (forall n, payload_text "correlation_id" (from_new (right_stream old) n record) = Some (right_id old)) ->
  starts eff = [] -> right_record old = true -> less_right old new ->
  (forall n, new = Some n -> right_record n = false) ->
  step_effect s s' effects (effects ++ eff) (Some old) new.
Proof.
  intros Hg Hk Htext He Hrec Hless Hno. pose proof (starts_snoc_nothing eff effects He) as Hst.
  assert (extends s s') as Hx by (by eapply grew_extends).
  assert (forall stream e, e ∈ log_events s' stream -> e ∈ log_events s stream \/
    stream = right_stream old /\ is_spawn_request_claim e = false /\ payload_text "correlation_id" e = Some (right_id old)) as Hnew.
  { intros stream e Hin. destruct (grew_new _ _ _ _ _ _ Hg Hin) as [Hold|(-> & r & n & ->%list_elem_of_singleton & ->)]; [by left|right].
    split_and!; [done| |done]. unfold is_spawn_request_claim. cbn. by rewrite (bool_decide_eq_false_2 (new_kind record = _)) by congruence. }
  assert (forall stream e d, e ∈ log_events s' stream -> claim_with d e -> e ∈ log_events s stream) as Hclaim.
  { intros stream e d Hin [Hc _]. destruct (Hnew _ _ Hin) as [Ho|(_ & Hf & _)]; congruence. }
  split; try done.
  - by destruct Hg.
  - intros Hu stream d e1 e2 Hin1 Hin2 Hc1 Hc2. eapply Hu; eauto.
  - intros Hu Hold. destruct (Hold old eq_refl) as [_ Hnone _].
    intros stream d e1 e2 Hin1 Hin2 Hs1 Hs2. destruct (decide (stream = right_stream old)) as [->|Hne].
    + destruct (grew_single _ _ _ _ Hg) as [Hlog|Hlog]; rewrite Hlog in Hin1, Hin2; [by eapply Hu|].
      assert (forall e, e ∈ log_events s (right_stream old) -> spawned_with d e ->
        spawned_with d (from_new (right_stream old) (Z.of_nat (Datatypes.S (length (log_events s (right_stream old))))) record) -> False) as Hcon.
      { intros e He1 Hse [_ Hsr]. rewrite Htext in Hsr. injection Hsr as <-. by apply (Hnone Hrec e). }
      apply elem_of_app in Hin1 as [Hin1|Hin1%list_elem_of_singleton]; apply elem_of_app in Hin2 as [Hin2|Hin2%list_elem_of_singleton]; subst.
      * by eapply Hu.
      * by destruct (Hcon _ Hin1 Hs1).
      * by destruct (Hcon _ Hin2 Hs2).
      * done.
    + destruct Hg as (_ & Hother & _). rewrite Hother in Hin1, Hin2 by done. by eapply Hu.
  - intros Hs _. apply (starts_ok_starts _ _ _ Hst). by eapply extends_starts.
  - intros n -> Hold _. apply (right_ok_starts _ _ _ _ Hst). pose proof (Hold old eq_refl) as Hro.
    destruct (less_right_ok _ _ _ _ Hless Hro) as [Hc _ Hcl]. split; [by eapply extends_claimed|by rewrite (Hno n eq_refl)|done].
  - intros o Hother [Hc Hr Hcl]. apply (right_ok_starts _ _ _ _ Hst). split; [by eapply extends_claimed| |done].
    intros Ho e Hin Hs. destruct (Hnew _ _ Hin) as [Hold|(Hstr & _ & Ht)]; [by apply (Hr Ho e)|].
    destruct Hs as [_ Hs]. apply (Hother old eq_refl). split; congruence.
  - intros n o -> Hs _. exists old. split; [done|]. by destruct Hless as (Hl1 & Hl2 & _); split.
Qed.

(** Winning the claim of a request. *)
Lemma claim_effect s s' effects eff stream d (record : NewEventRecord) new : grew stream [record] s s' ->
  new_kind record <> ThreadSpawned -> (forall n, claim_with d (from_new stream n record)) -> starts eff = [] ->
  (exists n, log_events s' stream = log_events s stream ++ [from_new stream n record]) ->
  (forall e, e ∈ log_events s stream -> ~ claim_with d e /\ ~ spawned_with d e) ->
  (new = None \/ new = Some (mk_right stream d true true)) ->
  step_effect s s' effects (effects ++ eff) None new.
Proof.
  intros Hg Hk Hclaim He [n0 Hlog] Hfree Hnew. pose proof (starts_snoc_nothing eff effects He) as Hst.
  assert (extends s s') as Hx by (by eapply grew_extends).
  assert (forall other e, e ∈ log_events s' other -> e ∈ log_events s other \/ other = stream /\ e = from_new stream n0 record) as Hin'.
  { intros other e Hin. destruct (decide (other = stream)) as [->|Hne].
    - rewrite Hlog in Hin. apply elem_of_app in Hin as [Hin|Hin%list_elem_of_singleton]; auto.
    - destruct Hg as (_ & Hother & _). rewrite Hother in Hin by done. by left. }
  assert (forall other e d', e ∈ log_events s' other -> spawned_with d' e -> e ∈ log_events s other) as Hspawned.
  { intros other e d' Hin [Hke _]. destruct (Hin' _ _ Hin) as [Ho|(_ & ->)]; [done|]. by cbn in Hke. }
  assert (forall d', claim_with d' (from_new stream n0 record) -> d' = d) as Hd.
  { intros d' [_ Hc]. destruct (Hclaim n0) as [_ Hc']. congruence. }
  split; try done.
  - by destruct Hg.
  - intros Hu other d' e1 e2 Hin1 Hin2 Hc1 Hc2.
    destruct (Hin' _ _ Hin1) as [Ho1|(-> & ->)]; destruct (Hin' _ _ Hin2) as [Ho2|(Hs2 & ->)]; [by eapply Hu| | |done].
    + subst. rewrite (Hd _ Hc2) in Hc1. by destruct (Hfree e1 Ho1).
    + rewrite (Hd _ Hc1) in Hc2. by destruct (Hfree e2 Ho2).
  - intros Hu _ other d' e1 e2 Hin1 Hin2 Hs1 Hs2. eapply Hu; eauto.
  - intros Hs _. apply (starts_ok_starts _ _ _ Hst). by eapply extends_starts.
  - intros n Hn _ Hstarts. destruct Hnew as [Hno|Hsome]; [congruence|]. assert (n = mk_right stream d true true) as -> by congruence.
    split; cbn.
    + exists (from_new stream n0 record). split; [rewrite Hlog; set_solver|apply Hclaim].
    + intros _ e Hin Hs. apply Hspawned with (d' := d) in Hin; [|done]. by destruct (Hfree e Hin).
    + intros _ v Hv Hf. rewrite Hst in Hv. destruct (so_claimed _ _ Hstarts v Hv) as (stream' & d' & Hf' & (e & Hin & Hc)).
      destruct Hf as [Ha Hb], Hf' as [Ha' Hb']. assert (stream' = stream) as -> by congruence. assert (d' = d) as -> by congruence.
      by destruct (Hfree e Hin).
  - intros o _ [Hc Hr Hcl]. apply (right_ok_starts _ _ _ _ Hst). split; [by eapply extends_claimed| |done].
    intros Ho e Hin Hs. by apply (Hr Ho e); [eapply Hspawned|].
  - intros n o Hn [Hs Hi] [(e & Hin & Hc) _ _]. destruct Hnew as [Hno|Hsome]; [congruence|].
    assert (n = mk_right stream d true true) as -> by congruence. cbn in Hs, Hi. rewrite <- Hs in Hin. rewrite <- Hi in Hc. by destruct (Hfree e Hin).
Qed.

Lemma task_move_effect s s' effects eff old new : log_valid s -> task_move s s' eff old new ->
  step_effect s s' effects (effects ++ eff) old new.
Proof.
  intros Hv [o -> Hmove|stream record Hg [_ Hi] He -> ->|call id now Hg _ He -> ->|stream d record Hg Hk Hclaim He Hlog Hfree -> Hnew].
  - destruct Hmove as [stream r Hg [_ Hi] He Hl|v Hs He Ha Hb Hc Hl Hn|r Hg Hk Ht _ He Hr Hl Hn].
    + eapply inert_effect; [by destruct Hg|by eapply grew_extends|eapply grew_inertly; [exact Hg|by constructor]|done|].
      destruct new as [n|]; [right; by exists o, n|by left].
    + eapply call_effect; [done|by destruct Hs|done..].
    + by eapply record_effect.
  - eapply inert_effect; [by destruct Hg|by eapply grew_extends|eapply grew_inertly; [exact Hg|by constructor]|done|by left].
  - eapply inert_effect; [by destruct Hg|by eapply grew_extends| |done|by left].
    eapply grew_inertly; [exact Hg|]. constructor; [apply dispatch_record_inert|constructor].
  - by eapply claim_effect.
Qed.

Lemma spawn_inv_step label w w' : spawn_inv w -> spawned_by_tasks label -> spawn_turn label w = Some w' -> spawn_inv w'.
Proof.
  intros [Hv Hcl Hch Ht Hr Ha Hs] Hlabel Hturn.
  assert (forall k t, (forall s, task_ok s t) -> task_right t = None -> begin_task k t w = Some w' -> spawn_inv w') as Hbegin.
  { intros k t Hok Hno Hb. unfold begin_task in Hb. destruct (spawn_tasks w !! k) eqn:Hk; [done|]. injection Hb as <-. split; cbn; try done.
    - by apply map_Forall_insert_2.
    - intros k2 t2 o Hk2 Ho. apply lookup_insert_Some in Hk2 as [[_ <-]|[_ Hk2]]; [congruence|by eapply Hr].
    - intros k1 k2 t1 t2 o1 o2 Hk1 Hk2 Ho1 Ho2. apply lookup_insert_Some in Hk1 as [[_ <-]|[_ Hk1]]; [congruence|].
      apply lookup_insert_Some in Hk2 as [[_ <-]|[_ Hk2]]; [congruence|]. by eapply Ha. }
  destruct label as [k call|k call|k input|stream records]; cbn [spawn_turn] in Hturn.
  - eapply Hbegin; [| |exact Hturn]; unfold dispatch_begin; by destruct (_ =? _)%N.
  - eapply Hbegin; [| |exact Hturn]; done.
  - destruct (spawn_tasks w !! k) as [t|] eqn:Hk; [|done]. cbn in Hturn.
    destruct (task_step input t (spawn_store w)) as [[[s eff] t']|] eqn:Hstep; [|done]. cbn in Hturn. injection Hturn as <-.
    destruct (task_step_spec _ _ _ _ _ _ Hv (Ht _ _ Hk) Hstep) as [Hok' Hmove].
    destruct (task_move_effect _ _ (spawn_effects w) _ _ _ Hv Hmove) as [Hv' Hx Hclaims Hchildren Hstarts Hown Hother Hapart].
    assert (forall o, task_right t = Some o -> right_ok (spawn_store w) (spawn_effects w) o) as Hold by (intros o; by eapply Hr).
    assert (forall k2 t2 o2 o', spawn_tasks w !! k2 = Some t2 -> k2 <> k -> task_right t2 = Some o2 -> task_right t = Some o' ->
      ~ same_dispatch o' o2) as Hdiff.
    { intros k2 t2 o2 o' Hk2 Hne Ho2 Ho' Hsame. apply Hne. eapply (Ha k2 k t2 t o2 o'); try done. by destruct Hsame. }
    split; cbn.
    + done.
    + by apply Hclaims.
    + by apply Hchildren.
    + apply map_Forall_insert_2; [done|]. intros k2 t2 Hk2. eapply extends_task; [exact Hx|by apply (Ht k2)].
    + intros k2 t2 o Hk2 Ho. apply lookup_insert_Some in Hk2 as [[_ <-]|[Hne Hk2]]; [by apply Hown|].
      apply Hother; [|by eapply Hr]. intros o' Ho'. by eapply Hdiff.
    + assert (forall k2 t2 n o2, spawn_tasks w !! k2 = Some t2 -> k2 <> k -> task_right t' = Some n -> task_right t2 = Some o2 ->
        ~ same_dispatch n o2) as Hdiff'.
      { intros k2 t2 n o2 Hk2 Hne Hn Ho2 Hsame. destruct (Hapart n o2 Hn Hsame) as (o' & Ho' & Hs1 & Hs2); [by eapply Hr|].
        apply (Hdiff k2 t2 o2 o' Hk2 Hne Ho2 Ho'). destruct Hsame. split; congruence. }
      intros k1 k2 t1 t2 o1 o2 Hk1 Hk2 Ho1 Ho2 Hsame.
      apply lookup_insert_Some in Hk1 as [[Hek1 Het1]|[Hne1 Hk1]]; apply lookup_insert_Some in Hk2 as [[Hek2 Het2]|[Hne2 Hk2]]; subst.
      * done.
      * by destruct (Hdiff' k2 t2 o1 o2 Hk2 (not_eq_sym Hne2) Ho1 Ho2).
      * destruct (Hdiff' k1 t1 o2 o1 Hk1 (not_eq_sym Hne1) Ho2 Ho1). by destruct Hsame.
      * by eapply Ha.
    + by apply Hstarts.
  - injection Hturn as <-. cbn in Hlabel. pose proof (log_append_grew stream records (spawn_store w) Hv) as Hg.
    assert (extends (spawn_store w) (log_append stream records (spawn_store w)).1) as Hx by (by eapply grew_extends).
    pose proof (grew_inertly _ _ _ _ Hg Hlabel) as Hi. split; cbn [spawn_store spawn_tasks spawn_effects].
    + by destruct Hg.
    + by eapply inertly_claims.
    + by eapply inertly_children.
    + intros k t Hk. eapply extends_task; [exact Hx|by apply (Ht k)].
    + intros k t o Hk Ho. eapply inertly_right; [done..|by eapply Hr].
    + done.
    + by eapply extends_starts.
Qed.

Lemma spawn_reachable_inv s w : log_valid s -> claims_unique s -> children_unique s -> spawn_reachable spawned_by_tasks s w -> spawn_inv w.
Proof.
  intros Hv Hcl Hch. induction 1 as [|label w w' _ IH Hl Hturn]; [|by eapply spawn_inv_step].
  split; cbn [spawn_store spawn_tasks spawn_effects]; try done.
  split; [intros i j v1 v2 stream d Hi; cbn in Hi; by rewrite lookup_nil in Hi|intros v Hin; cbn in Hin; by apply elem_of_nil in Hin].
Qed.

(** ** One child *)

(** C5 - A child is spawned once: however dispatches and projections of a thread's requests interleave,
    with each other and with other writers, a dispatch id is claimed once on its stream, the host is
    asked once to start a child for it, and only by the task whose claim is on the log, and one
    [thread.spawned] records the child. *)
Theorem child_started_once s w :
  log_valid s -> claims_unique s -> children_unique s -> spawn_reachable spawned_by_tasks s w ->
  (forall i j v1 v2 stream d, starts (spawn_effects w) !! i = Some v1 -> starts (spawn_effects w) !! j = Some v2 ->
     started_for stream d v1 -> started_for stream d v2 -> i = j) /\
  (forall v, v ∈ starts (spawn_effects w) -> exists stream d, started_for stream d v /\ is_claimed (spawn_store w) stream d) /\
  claims_unique (spawn_store w) /\ children_unique (spawn_store w).
Proof.
  intros Hv Hcl Hch Hr. destruct (spawn_reachable_inv _ _ Hv Hcl Hch Hr) as [_ Hcl' Hch' _ _ _ [Honce Hclaimed]]. by split_and!.
Qed.


(** ** Task names *)

(** Two requests of a parent with the same task name have the same dispatch id, and a child names the
    one request it is for. *)
Record names_inv (c : ThreadCoordinates) s : Prop := {
  ni_names : forall e1 e2 p1 p2 name, e1 ∈ log_events s (control_stream_id c) -> e2 ∈ log_events s (control_stream_id c) ->
    spawn_request e1 = Some p1 -> spawn_request e2 = Some p2 ->
    spawn_request_belongs_to_parent e1 p1 c = true -> spawn_request_belongs_to_parent e2 p2 c = true ->
    request_task_name p1 = Some name -> request_task_name p2 = Some name -> request_correlation_id p1 = request_correlation_id p2;
  ni_sources : forall e d, e ∈ log_events s (control_stream_id c) -> spawned_with d e -> exists id, source_event_ids (provenance e) = [id];
}.

(** Other writers request no child with a task name. *)
Definition named_by_dispatchers (label : SpawnLabel) : Prop :=
  spawned_by_tasks label /\
  match label with
  | WorldAppends _ records => Forall (fun r => forall p, decode_spawn_request (new_payload r) = Ok p -> request_task_name p = None) records
  | _ => True
  end.

(** An event that is neither a request with a task name nor a child. *)
Definition nameless e : Prop :=
  (forall p, spawn_request e = Some p -> request_task_name p = None) /\ forall d, ~ spawned_with d e.

Lemma nameless_inv c s s' : (forall e, e ∈ log_events s' (control_stream_id c) -> e ∈ log_events s (control_stream_id c) \/ nameless e) ->
  names_inv c s -> names_inv c s'.
Proof.
  intros Hnew [Hn Hs]. split.
  - intros e1 e2 p1 p2 name Hin1 Hin2 Hp1 Hp2 Hb1 Hb2 Hm1 Hm2.
    destruct (Hnew _ Hin1) as [Ho1|[Hx _]]; [|by rewrite (Hx _ Hp1) in Hm1].
    destruct (Hnew _ Hin2) as [Ho2|[Hx _]]; [|by rewrite (Hx _ Hp2) in Hm2]. by apply (Hn e1 e2 p1 p2 name).
  - intros e d Hin Hsp. destruct (Hnew _ Hin) as [Ho|[_ Hx]]; [by eapply Hs|by destruct (Hx d)].
Qed.

Lemma quiet_nameless stream n (record : NewEventRecord) : quiet_record record -> nameless (from_new stream n record).
Proof.
  intros [Hk Hi]. split.
  - intros p Hp. apply spawn_request_decoded in Hp as [Hr _]. unfold is_spawn_request in Hr. cbn in Hr.
    by rewrite (bool_decide_eq_false_2 _ Hk) in Hr.
  - intros d. by apply inert_spawned.
Qed.

Lemma grew_nameless c stream (record : NewEventRecord) s s' : grew stream [record] s s' -> (forall st n, nameless (from_new st n record)) ->
  names_inv c s -> names_inv c s'.
Proof.
  intros Hg Hq. apply nameless_inv. intros e Hin.
  destruct (grew_new _ _ _ _ _ _ Hg Hin) as [Ho|(_ & r & n & ->%list_elem_of_singleton & ->)]; [by left|right; apply Hq].
Qed.

(** The task name of a new request is not that of another dispatch. *)
Lemma request_names c call id now s s' : grew (dispatch_stream call) [dispatch_request_record id now call] s s' ->
  (forall name, request_task_name (dispatch_payload call) = Some name -> forall e, e ∈ log_events s (dispatch_stream call) ->
     reserves_task_name (dispatch_coordinates call) (dispatch_id call) name e = false) ->
  names_inv c s -> names_inv c s'.
Proof.
  intros Hg Hfree [Hn Hs]. set (record := dispatch_request_record id now call) in *.
  assert (forall st n p, spawn_request (from_new st n record) = Some p -> p = dispatch_payload call) as Hp.
  { intros st n p [_ Hd]%spawn_request_decoded. pose proof (spawn_request_decodes (dispatch_payload call)) as Hx.
    assert (Ok (E := string) p = Ok (dispatch_payload call)) as Hpp by (rewrite <- Hd; exact Hx). by injection Hpp. }
  assert (forall e st n p q name, e ∈ log_events s (dispatch_stream call) -> spawn_request e = Some p ->
    spawn_request (from_new st n record) = Some q -> spawn_request_belongs_to_parent e p c = true ->
    spawn_request_belongs_to_parent (from_new st n record) q c = true -> request_task_name p = Some name -> request_task_name q = Some name ->
    request_correlation_id p = request_correlation_id q) as Hmix.
  { intros e st n p q name Hin Hreq Hq Hbe Hbq Hnp Hnq. rewrite (Hp _ _ _ Hq) in *. clear Hq.
    pose proof (Hfree _ Hnq e Hin) as Hres. unfold reserves_task_name in Hres. rewrite Hreq in Hres.
    rewrite (bool_decide_eq_true_2 (request_task_name p = Some name)) in Hres by done. rewrite andb_true_r in Hres.
    destruct (String.eqb_spec (request_correlation_id p) (dispatch_id call)) as [Heq|Hne]; [exact Heq|].
    rewrite andb_true_r in Hres. unfold spawn_request_belongs_to_parent in *. cbn in Hbq. to_prop.
    assert (scope (dispatch_coordinates call) = scope (coordinates e)) as Hsc by congruence.
    assert (thread_id (dispatch_coordinates call) = thread_id (coordinates e)) as Hth by congruence.
    rewrite Hsc, Hth, N.eqb_refl, (bool_decide_eq_true_2 (scope (coordinates e) = _)) in Hres by done. cbn in Hres.
    apply N.eqb_neq in Hres. congruence. }
  split.
  - intros e1 e2 p1 p2 name Hin1 Hin2 Hp1 Hp2 Hb1 Hb2 Hm1 Hm2.
    destruct (grew_new _ _ _ _ _ _ Hg Hin1) as [Ho1|(Hst1 & r1 & n1 & ->%list_elem_of_singleton & ->)];
      destruct (grew_new _ _ _ _ _ _ Hg Hin2) as [Ho2|(Hst2 & r2 & n2 & ->%list_elem_of_singleton & ->)].
    + by apply (Hn e1 e2 p1 p2 name).
    + rewrite Hst2 in Ho1. by eapply Hmix.
    + rewrite Hst1 in Ho2. symmetry. by eapply Hmix.
    + by rewrite (Hp _ _ _ Hp1), (Hp _ _ _ Hp2).
  - intros e d Hin Hsp. destruct (grew_new _ _ _ _ _ _ Hg Hin) as [Ho|(_ & r & n & ->%list_elem_of_singleton & ->)]; [by eapply Hs|].
    by destruct Hsp as [Hk _].
Qed.

Lemma names_step c s s' eff old new : task_move s s' eff old new -> names_inv c s -> names_inv c s'.
Proof.
  intros [o -> Hmove|stream record Hg Hq He _ _|call id now Hg Hfree He _ _|stream d record Hg Hk Hclaim He Hlog Hfree _ _] Hinv.
  - destruct Hmove as [stream r Hg Hq He Hl|v [_ Hs] He Ha Hb Hc Hl Hn|r Hg Hk Ht [id Hsrc] He Hr Hl Hn].
    + eapply grew_nameless; [exact Hg|intros st n; by apply quiet_nameless|done].
    + eapply nameless_inv; [|exact Hinv]. intros e Hin. left. by rewrite <- Hs.
    + destruct Hinv as [Hnm Hss]. split.
      * intros e1 e2 p1 p2 name Hin1 Hin2 Hp1 Hp2.
        assert (forall e p, e ∈ log_events s' (control_stream_id c) -> spawn_request e = Some p -> e ∈ log_events s (control_stream_id c)) as Hold.
        { intros e p Hin [Hreq _]%spawn_request_decoded. destruct (grew_new _ _ _ _ _ _ Hg Hin) as [Ho|(_ & q & n & ->%list_elem_of_singleton & ->)]; [done|].
          unfold is_spawn_request in Hreq. cbn in Hreq. by rewrite Hk in Hreq. }
        apply (Hnm e1 e2 p1 p2 name); eauto.
      * intros e d Hin Hsp. destruct (grew_new _ _ _ _ _ _ Hg Hin) as [Ho|(_ & q & n & ->%list_elem_of_singleton & ->)]; [by eapply Hss|by exists id].
  - eapply grew_nameless; [exact Hg|intros st n; by apply quiet_nameless|done].
  - by eapply request_names.
  - eapply grew_nameless; [exact Hg| |done]. intros st n. destruct (Hclaim n) as [Hc _]. split.
    + intros p [Hreq _]%spawn_request_decoded. assert (is_spawn_request_claim (from_new st n record) = true) as Hc' by exact Hc.
      unfold is_spawn_request in Hreq. rewrite Hc', andb_false_r in Hreq. done.
    + intros d' [Hkind _]. by cbn in Hkind.
Qed.

Lemma spawn_reachable_weaken (P Q : SpawnLabel -> Prop) s w : (forall l, P l -> Q l) -> spawn_reachable P s w -> spawn_reachable Q s w.
Proof. intros Hpq. induction 1 as [|label w w' _ IH Hl Hturn]; [constructor|]. econstructor; eauto. Qed.

Lemma spawn_reachable_names c s w : log_valid s -> claims_unique s -> children_unique s -> names_inv c s ->
  spawn_reachable named_by_dispatchers s w -> names_inv c (spawn_store w).
Proof.
  intros Hv Hcl Hch Hn. induction 1 as [|label w w' Hr IH [Hl Hl'] Hturn]; [exact Hn|].
  assert (spawn_inv w) as [Hv' _ _ Ht _ _ _].
  { apply (spawn_reachable_inv s); [done..|]. eapply spawn_reachable_weaken; [|exact Hr]. by intros l [Hsp _]. }
  destruct label as [k call|k call|k input|stream records]; cbn [spawn_turn] in Hturn.
  - unfold begin_task in Hturn. destruct (spawn_tasks w !! k); [done|]. by injection Hturn as <-.
  - unfold begin_task in Hturn. destruct (spawn_tasks w !! k); [done|]. by injection Hturn as <-.
  - destruct (spawn_tasks w !! k) as [t|] eqn:Hk; [|done]. cbn in Hturn.
    destruct (task_step input t (spawn_store w)) as [[[s1 eff] t']|] eqn:Hstep; [|done]. cbn in Hturn. injection Hturn as <-.
    destruct (task_step_spec _ _ _ _ _ _ Hv' (Ht _ _ Hk) Hstep) as [_ Hmove]. by eapply names_step.
  - injection Hturn as <-. cbn in Hl, Hl'. cbn [spawn_store]. pose proof (log_append_grew stream records (spawn_store w) Hv') as Hg.
    eapply nameless_inv; [|exact IH]. intros e Hin. rewrite Forall_forall in Hl. rewrite Forall_forall in Hl'.
    destruct (grew_new _ _ _ _ _ _ Hg Hin) as [Ho|(_ & r & n & Hr' & ->)]; [by left|right]. split.
    + intros p [_ Hp]%spawn_request_decoded. by apply (Hl' r).
    + intros d. apply inert_spawned. by apply Hl.
Qed.

(** A request of the parent with the task name, and a child it became. *)
Definition named_child (c : ThreadCoordinates) (name : string) (events : list EventRecord) request p e : Prop :=
  request ∈ events /\ spawn_request request = Some p /\ spawn_request_belongs_to_parent request p c = true /\
  request_task_name p = Some name /\ e ∈ events /\ spawned_for c request (request_correlation_id p) e = true.

Lemma named_child_unique c s name request1 p1 e1 request2 p2 e2 : log_valid s -> children_unique s -> names_inv c s ->
  let events := log_events s (control_stream_id c) in
  named_child c name events request1 p1 e1 -> named_child c name events request2 p2 e2 -> request1 = request2 /\ e1 = e2.
Proof.
  intros Hv Hch [Hn Hs] events (Hin1 & Hp1 & Hb1 & Hm1 & He1 & Hf1) (Hin2 & Hp2 & Hb2 & Hm2 & He2 & Hf2).
  assert (request_correlation_id p1 = request_correlation_id p2) as Hcorr by (by apply (Hn request1 request2 p1 p2 name)).
  unfold spawned_for in Hf1, Hf2. to_prop.
  assert (spawned_with (request_correlation_id p1) e1) as Hs1 by done.
  assert (spawned_with (request_correlation_id p1) e2) as Hs2 by (by rewrite Hcorr).
  assert (e1 = e2) as <- by (by eapply Hch). split; [|done].
  destruct (Hs _ _ He1 Hs1) as [id Hid]. rewrite Hid in *.
  assert (event_id request1 = id) as Hr1 by set_solver. assert (event_id request2 = id) as Hr2 by set_solver.
  eapply log_ids_unique; [done..|congruence].
Qed.

Lemma spawn_log_nodup s stream : log_valid s -> NoDup (log_events s stream).
Proof.
  intros Hv. apply NoDup_alt. intros i j e Hi Hj.
  destruct (log_numbered _ _ _ _ Hv Hi) as [Hsi _], (log_numbered _ _ _ _ Hv Hj) as [Hsj _]. lia.
Qed.
End Props.

(** * Task names stand for one child

    A task name of a thread resolves to the child that was spawned under it, and never
    to two. *)

(** ** At most one *)

Lemma filter_at_most_one {A} (f : A -> bool) (l : list A) : NoDup l ->
  (forall x y, x ∈ l -> y ∈ l -> f x = true -> f y = true -> x = y) -> length (List.filter f l) <= 1.
Proof.
  intros Hnd Hu. assert (NoDup (List.filter f l)) as Hnf by (rewrite NoDup_ListNoDup in *; by apply List.NoDup_filter).
  destruct (List.filter f l) as [|x [|y r]] eqn:Hf; cbn; [lia|lia|]. exfalso.
  assert (forall z, z ∈ x :: y :: r -> z ∈ l /\ f z = true) as Hz.
  { intros z Hz. rewrite <- Hf in Hz. apply list_elem_of_In, filter_In in Hz as [Hz ?]. by apply list_elem_of_In in Hz. }
  destruct (Hz x) as [Hx1 Hx2]; [set_solver|]. destruct (Hz y) as [Hy1 Hy2]; [set_solver|].
  assert (x = y) as <- by (by apply Hu). inversion Hnf. set_solver.
Qed.

Lemma concat_at_most_one {A B E} (f : A -> result (list B) E) (l : list A) rs : NoDup l -> collect f l = Ok rs ->
  (forall x bs, x ∈ l -> f x = Ok bs -> length bs <= 1) ->
  (forall x y bx by', x ∈ l -> y ∈ l -> f x = Ok bx -> f y = Ok by' -> bx <> [] -> by' <> [] -> x = y) ->
  length (List.concat rs) <= 1.
Proof.
  intros Hnd Hc. apply collect_ok in Hc. induction Hc as [|x bs l rs Hx Hc IH]; intros Hone Hu; [cbn; lia|].
  apply NoDup_cons in Hnd as [Hnin Hnd]. cbn. rewrite length_app.
  pose proof (Hone x bs ltac:(set_solver) Hx) as Hl. destruct bs as [|b bs'].
  - apply IH; [done| |]; intros; [eapply Hone|eapply Hu]; eauto; set_solver.
  - assert (List.concat rs = []) as ->; [|cbn in *; lia].
    apply concat_nil_Forall, Forall_forall. intros c Hin. apply list_elem_of_lookup in Hin as [i Hi].
    destruct (Forall2_lookup_r _ _ _ _ _ Hc Hi) as (y & Hy & Hfy). destruct c as [|c0 c]; [done|]. exfalso. apply Hnin.
    assert (y ∈ l) by (by eapply list_elem_of_lookup_2).
    by rewrite (Hu x y (b :: bs') (c0 :: c)) by (done || set_solver).
Qed.

Section Names.
Context `{UuidParse} `{!SpawnCodec} `{!SpawnCodecLaws} `{SpawnTexts} `{JoinCodec} `{JsonTexts} `{Sha256}.
Context {S : Type} `{EventAppendLaws S}.
Implicit Types (s : S) (c : ThreadCoordinates) (name : string) (request e : EventRecord).

(** The resolution of a named child. *)
Definition resolution_names (x : ThreadTaskNameResolutionReceipt) request (p : ThreadSpawnRequestedPayload) e : Prop :=
  resolved_request_event_id x = event_id request /\ resolved_spawned_event_id x = event_id e /\
  resolved_dispatch_id x = request_correlation_id p /\
  exists child, decode_spawned (payload e) = Ok child /\ resolved_handle x = handle_of_thread (spawned_child_thread_id child).

Lemma resolution_of_ok c name request p e x : resolution_of c name request p e = Ok x -> resolution_names x request p e.
Proof.
  unfold resolution_of. intros Hx. destruct (decode_spawned (payload e)) as [child|] eqn:Hd; cbn in Hx; [|done].
  destruct (negb _); [done|]. injection Hx as <-. split_and!; try done. by exists child.
Qed.

(** What one request gives is the children it became under the name. *)
Lemma resolutions_of_ok events c name request rs : request ∈ events -> is_spawn_request request = true ->
  resolutions_of events c name request = Ok rs ->
  (forall x, x ∈ rs -> exists p e, named_child c name events request p e /\ resolution_names x request p e) /\
  (forall p e, named_child c name events request p e -> exists x, x ∈ rs /\ resolution_names x request p e) /\
  (NoDup events -> (forall p e1 e2, named_child c name events request p e1 -> named_child c name events request p e2 -> e1 = e2) ->
     length rs <= 1).
Proof.
  intros Hin Hreq Hrs. unfold resolutions_of in Hrs.
  assert (forall p e, named_child c name events request p e -> decode_spawn_request (payload request) = Ok p /\
    request_task_name p = Some name /\ thread_id (coordinates request) = thread_id c /\ scope (coordinates request) = scope c /\
    request_parent_thread_id p = thread_id c) as Hnamed.
  { intros p e (_ & Hp & Hb & Hm & _). apply spawn_request_decoded in Hp as [_ Hp]. unfold spawn_request_belongs_to_parent in Hb. by to_prop. }
  destruct (negb (thread_id (coordinates request) =? thread_id c)%N || negb (bool_decide (scope (coordinates request) = scope c))) eqn:Hscope.
  { injection Hrs as <-. split_and!; [set_solver| |cbn; lia]. intros p e Hc. destruct (Hnamed _ _ Hc) as (_ & _ & Ht & Hs & _).
    rewrite Ht, N.eqb_refl, (bool_decide_eq_true_2 (scope (coordinates request) = _) Hs) in Hscope. done. }
  destruct (decode_spawn_request (payload request)) as [p|err] eqn:Hp; cbn [map_err result_bind] in Hrs; [|done].
  destruct (negb (request_parent_thread_id p =? thread_id c)%N || negb (bool_decide (request_task_name p = Some name))) eqn:Hname.
  { injection Hrs as <-. split_and!; [set_solver| |cbn; lia]. intros q e Hc. destruct (Hnamed _ _ Hc) as (Hq & Hm & _ & _ & Hpar).
    injection Hq as <-. by rewrite Hpar, N.eqb_refl, (bool_decide_eq_true_2 (request_task_name p = _) Hm) in Hname. }
  apply orb_false_iff in Hscope as [Hs1 Hs2], Hname as [Hn1 Hn2]. to_prop.
  assert (forall e, e ∈ events -> spawned_for c request (request_correlation_id p) e = true -> named_child c name events request p e) as Hmk.
  { intros e He Hf. split_and!; try done; [unfold spawn_request; by rewrite Hreq, Hp|].
    unfold spawn_request_belongs_to_parent. by rewrite !(proj2 (N.eqb_eq _ _)), bool_decide_eq_true_2 by done. }
  pose proof Hrs as Hcol. apply collect_ok in Hcol. split_and!.
  - intros x Hx. apply list_elem_of_lookup in Hx as [i Hi]. destruct (Forall2_lookup_r _ _ _ _ _ Hcol Hi) as (e & He & Hr).
    apply list_elem_of_lookup_2, list_elem_of_In, filter_In in He as [He Hf]. apply list_elem_of_In in He.
    exists p, e. split; [by apply Hmk|by eapply resolution_of_ok].
  - intros q e Hc. pose proof Hc as (_ & Hq & _ & _ & He & Hf). apply spawn_request_decoded in Hq as [_ Hq].
    assert (q = p) as -> by congruence. assert (e ∈ List.filter (spawned_for c request (request_correlation_id p)) events) as Hfe.
    { apply list_elem_of_In, filter_In. by rewrite <- list_elem_of_In. }
    apply list_elem_of_lookup in Hfe as [i Hi]. destruct (Forall2_lookup_l _ _ _ _ _ Hcol Hi) as (x & Hx & Hr).
    exists x. split; [by eapply list_elem_of_lookup_2|by eapply resolution_of_ok].
  - intros Hnd Hu. rewrite <- (Forall2_length _ _ _ Hcol). apply filter_at_most_one; [done|].
    intros e1 e2 He1 He2 Hf1 Hf2. apply (Hu p); by apply Hmk.
Qed.

Lemma resolutions_error events c name err :
  collect (resolutions_of events c name) (List.filter is_spawn_request events) = Err err -> exists cause, err = SpawnHistory cause.
Proof.
  intros (request & _ & Herr)%collect_err. unfold resolutions_of in Herr. destruct (_ || _) in Herr; [done|].
  destruct (decode_spawn_request (payload request)); cbn in Herr; [|injection Herr as <-; by eexists].
  destruct (_ || _) in Herr; [done|]. apply collect_err in Herr as (e & _ & Herr). unfold resolution_of in Herr.
  destruct (decode_spawned _); cbn in Herr; [|injection Herr as <-; by eexists]. destruct (negb _); [injection Herr as <-; by eexists|done].
Qed.

(** All requests together give the children of the name, one at most where names are not shared. *)
Lemma collected_resolutions events c name rss :
  collect (resolutions_of events c name) (List.filter is_spawn_request events) = Ok rss ->
  (forall x, x ∈ List.concat rss -> exists request p e, named_child c name events request p e /\ resolution_names x request p e) /\
  (forall request p e, named_child c name events request p e -> exists x, x ∈ List.concat rss /\ resolution_names x request p e) /\
  (NoDup events ->
   (forall r1 p1 e1 r2 p2 e2, named_child c name events r1 p1 e1 -> named_child c name events r2 p2 e2 -> r1 = r2 /\ e1 = e2) ->
   length (List.concat rss) <= 1).
Proof.
  intros Hcol. pose proof (proj1 (collect_ok _ _ _) Hcol) as Hall.
  assert (forall request, request ∈ List.filter is_spawn_request events <-> request ∈ events /\ is_spawn_request request = true) as Hreqs
    by (intros request; by rewrite list_elem_of_In, filter_In, <- list_elem_of_In).
  split_and!.
  - intros x Hx. apply list_elem_of_In, in_concat in Hx as (bs & Hbs & Hx). apply list_elem_of_In in Hbs, Hx.
    apply list_elem_of_lookup in Hbs as [i Hi]. destruct (Forall2_lookup_r _ _ _ _ _ Hall Hi) as (request & Hq & Hok).
    apply list_elem_of_lookup_2, Hreqs in Hq as [Hin Hreq].
    destruct (resolutions_of_ok _ _ _ _ _ Hin Hreq Hok) as (Hback & _). destruct (Hback x Hx) as (p & e & ? & ?). by exists request, p, e.
  - intros request p e Hc. pose proof Hc as (Hin & Hp & _). apply spawn_request_decoded in Hp as [Hreq _].
    assert (request ∈ List.filter is_spawn_request events) as [i Hi]%list_elem_of_lookup by by apply Hreqs.
    destruct (Forall2_lookup_l _ _ _ _ _ Hall Hi) as (bs & Hbs & Hok).
    destruct (resolutions_of_ok _ _ _ _ _ Hin Hreq Hok) as (_ & Hto & _). destruct (Hto p e Hc) as (x & Hx & Hres).
    exists x. split; [|done]. apply list_elem_of_In, in_concat. exists bs. rewrite <- !list_elem_of_In. split; [by eapply list_elem_of_lookup_2|done].
  - intros Hnd Hu. eapply concat_at_most_one; [|exact Hcol| |].
    + rewrite NoDup_ListNoDup in *. by apply List.NoDup_filter.
    + intros request bs [Hin Hreq]%Hreqs Hok. destruct (resolutions_of_ok _ _ _ _ _ Hin Hreq Hok) as (_ & _ & Hl).
      apply Hl; [done|]. intros p e1 e2 Hc1 Hc2. by destruct (Hu _ _ _ _ _ _ Hc1 Hc2).
    + intros q1 q2 b1 b2 [Hin1 Hreq1]%Hreqs [Hin2 Hreq2]%Hreqs Hok1 Hok2 Hne1 Hne2.
      destruct (resolutions_of_ok _ _ _ _ _ Hin1 Hreq1 Hok1) as (Hx1 & _), (resolutions_of_ok _ _ _ _ _ Hin2 Hreq2 Hok2) as (Hx2 & _).
      destruct b1 as [|x1 b1], b2 as [|x2 b2]; try done.
      destruct (Hx1 x1) as (p1 & e1 & Hc1 & _); [set_solver|]. destruct (Hx2 x2) as (p2 & e2 & Hc2 & _); [set_solver|].
      by destruct (Hu _ _ _ _ _ _ Hc1 Hc2).
Qed.

(** C22 - A task name stands for one child: where requests with task names come from dispatches, the
    resolution of a name under its parent is never ambiguous, whatever dispatches, projections and
    other writers did; it answers the child recorded for the request with the name, if there is
    one, and else that there is none.  It fails only on a record it cannot read. *)
Theorem task_name_resolves c s (w : SpawnWorld (S := S)) name :
  log_valid s -> claims_unique s -> children_unique s -> names_inv c s -> spawn_reachable named_by_dispatchers s w ->
  let events := log_events (spawn_store w) (control_stream_id c) in
  match fold_thread_task_name_resolution events c name with
  | Ok (Some x) => (exists request p e, named_child c name events request p e) /\
                   forall request p e, named_child c name events request p e -> resolution_names x request p e
  | Ok None => forall request p e, ~ named_child c name events request p e
  | Err (SpawnHistory _) => True
  | Err _ => False
  end.
Proof.
  intros Hv Hcl Hch Hn Hr events. pose proof (spawn_reachable_names _ _ _ Hv Hcl Hch Hn Hr) as Hn'.
  assert (spawn_reachable spawned_by_tasks s w) as Hr' by (eapply spawn_reachable_weaken; [|exact Hr]; by intros l [Hl _]).
  destruct (spawn_reachable_inv _ _ Hv Hcl Hch Hr') as [Hv' _ Hch' _ _ _ _].
  pose proof (spawn_log_nodup (spawn_store w) (control_stream_id c) Hv') as Hnd. fold events in Hnd.
  assert (forall r1 p1 e1 r2 p2 e2, named_child c name events r1 p1 e1 -> named_child c name events r2 p2 e2 -> r1 = r2 /\ e1 = e2) as Hu
    by (intros; by eapply named_child_unique).
  unfold fold_thread_task_name_resolution. destruct (collect _ _) as [rss|err] eqn:Hcol; cbn [result_bind].
  2:{ by destruct (resolutions_error _ _ _ _ Hcol) as [e ->]. }
  destruct (collected_resolutions _ _ _ _ Hcol) as (Hfrom & Hto & Hone). pose proof (Hone Hnd Hu) as Hlen.
  destruct (List.concat rss) as [|x [|y l]]; [| |cbn in Hlen; lia].
  - intros request p e Hc. destruct (Hto _ _ _ Hc) as (x & Hx & _). set_solver.
  - split.
    + destruct (Hfrom x) as (request & p & e & ? & _); [set_solver|]. by exists request, p, e.
    + intros request p e Hc. destruct (Hto _ _ _ Hc) as (y & Hy & Hres). by assert (y = x) as <- by set_solver.
Qed.
End Names.
