(* ===== verification/Recovery.v ===== *)
(** * Startup recovery

    Models [verlet-kernel/src/daemon/recovery_sweep.rs]: when a daemon starts, it joins the
    children whose runtime died with the last one and settles the processes that have no
    outcome, from what is on the control streams alone.

    The sweep is a function of the store: what else runs then is that of [Join].  The
    store's list of control streams and the dispatcher of processes are classes, the ids
    and times a sweep draws a sequence. *)

From stdpp Require Import base gmap sets list strings pretty.
From Stdlib Require Import ZArith Lia.
From S2P Require Import Prelude Json EventKind Contracts Records Store EventLog Lease Ingress Queue Control Join Spawn.

Local Open Scope verlet_scope.
Local Open Scope string_scope.
Local Open Scope list_scope.

Definition HANDLE_DISPATCH_CONTENT_KIND := "cooldis.handle.dispatch/1".
Definition HANDLE_OUTCOME_CONTENT_KIND := "cooldis.handle.outcome/1".

(** ** Handles *)

Record HandleDispatchEnvelope := {
  envelope_dispatch_id : DispatchId;
  envelope_handle : HandleId;
  envelope_consumer : ThreadCoordinates;
  envelope_command_digest : string;
}.
#[global] Instance HandleDispatchEnvelope_eq_dec : EqDecision HandleDispatchEnvelope.
Proof. solve_decision. Defined.

Inductive HandleTerminalOutcome := OutcomeCompleted | OutcomeFailed | OutcomeCancelled.
#[global] Instance HandleTerminalOutcome_eq_dec : EqDecision HandleTerminalOutcome.
Proof. solve_decision. Defined.

(** The usage is opaque: nothing here reads it but equality. *)
Record HandleTerminalEnvelope := {
  terminal_dispatch_id : DispatchId;
  terminal_handle : HandleId;
  terminal_outcome : HandleTerminalOutcome;
  terminal_outcome_reason : option string;
  terminal_result : option json;
  terminal_result_schema_id : option string;
  terminal_artifact_refs : list string;
  terminal_usage : option json;
  terminal_retryable : bool;
}.

Definition opt_json_eqb (a b : option json) : bool :=
  match a, b with Some x, Some y => json_eqb x y | None, None => true | _, _ => false end.

(** [PartialEq for HandleTerminalEnvelope]. *)
Definition terminal_envelope_eqb (a b : HandleTerminalEnvelope) : bool :=
  String.eqb (terminal_dispatch_id a) (terminal_dispatch_id b) && bool_decide (terminal_handle a = terminal_handle b) &&
  bool_decide (terminal_outcome a = terminal_outcome b) && bool_decide (terminal_outcome_reason a = terminal_outcome_reason b) &&
  opt_json_eqb (terminal_result a) (terminal_result b) && bool_decide (terminal_result_schema_id a = terminal_result_schema_id b) &&
  bool_decide (terminal_artifact_refs a = terminal_artifact_refs b) && opt_json_eqb (terminal_usage a) (terminal_usage b) &&
  Bool.eqb (terminal_retryable a) (terminal_retryable b).

(** [serde_json::from_value]; of an ingress witness, its content. *)
Class HandleCodec := {
  decode_ingress_witness : json -> result (option json) string;
  decode_ingress_content : json -> result IngressContent string;
  decode_dispatch_envelope : json -> result HandleDispatchEnvelope string;
  decode_terminal_envelope : json -> result HandleTerminalEnvelope string;
}.

(** [validate_binding] of [kernel/process_handle_dispatch.rs]. *)
Definition validate_binding (b : HandleDispatchEnvelope) (consumer : ThreadCoordinates) (dispatch : DispatchId) (digest : string)
    : SpawnResult unit :=
  if negb (bool_decide (envelope_consumer b = consumer)) || negb (String.eqb (envelope_dispatch_id b) dispatch) ||
     negb (String.eqb (envelope_command_digest b) digest) || negb (bool_decide (handle_kind (envelope_handle b) = HandleProcess))
  then Err (SpawnExecution ("process dispatch " +:+ dispatch +:+ " retry does not match its durable request"))
  else Ok tt.

(** [list_control_stream_coordinates] of the SQLite store. *)
Class ControlStreams (S : Type) := { list_control_stream_coordinates : S -> HistoryResult (list ThreadCoordinates) }.

(** The process dispatcher: its registry of live processes, and the ingress it settles others through. *)
Class ProcessDispatcher (P : Type) := {
  is_live_dispatch : DispatchId -> P -> bool;
  submit_recovery_outcome : HandleDispatchEnvelope -> P -> P * SpawnResult unit;
}.

Section Recovery.
Context `{UuidParse} `{SpawnCodec} `{JoinCodec} `{HandleCodec}.

(** ** The end of a child *)

Record ChildTerminalTruth := {
  truth_state : ThreadTerminalState;
  truth_outcome_reason : option string;
  truth_kind : EventKind;
  truth_stream_id : EventStreamId;
  truth_event_id : EventRecordId;
}.

Definition or_else {A} (a b : option A) : option A := match a with Some _ => a | None => b end.

(** [terminal_record_names_turn]: a field that is there and is no text hides the others. *)
Definition terminal_record_names_turn (e : EventRecord) (turn : string) : bool :=
  bool_decide ((or_else (value_get "turn_id" (payload e)) (or_else (value_get "child_turn_id" (payload e))
                  (value_get "child" (payload e) ≫= value_get "child_turn_id")) ≫= as_str) = Some turn).

(** The state a kind of event ends a child in, and the reason it has of its own. *)
Definition terminal_state_of (k : EventKind) : option (ThreadTerminalState * option string) :=
  match k with
  | TurnCompleted | LoopCompleted => Some (TerminalCompleted, None)
  | LoopBudgetExhausted => Some (TerminalBudgetExhausted, Some "child thread budget exhausted")
  | LoopDenied | LoopBlocked => Some (TerminalFailed, Some "child thread failed")
  | TurnFailed => Some (TerminalFailed, Some "child turn failed")
  | _ => None
  end.

Definition project_child_terminal_record (e : EventRecord) (turn : string) : option ChildTerminalTruth :=
  if negb (terminal_record_names_turn e turn) then None
  else
    '(state, reason) ← terminal_state_of (kind e);
    Some {| truth_state := state; truth_outcome_reason := reason; truth_kind := kind e; truth_stream_id := stream_id e;
            truth_event_id := event_id e |}.

Definition terminal_step (turn : string) (terminal : option ChildTerminalTruth) (e : EventRecord)
    : VerletResult (option ChildTerminalTruth) :=
  match project_child_terminal_record e turn with
  | None => Ok terminal
  | Some projected =>
      match terminal with
      | Some existing =>
          if bool_decide (truth_state existing = truth_state projected) then Ok terminal
          else Err (HistoryText ("child stream has conflicting terminal records ending at " +:+ uuid_text (event_id e)))
      | None => Ok (Some projected)
      end
  end.

Definition fold_child_terminal_truth (events : list EventRecord) (turn : string) : VerletResult (option ChildTerminalTruth) :=
  try_fold (terminal_step turn) None events.

(** ** The thread lane *)

Definition fold_joined_spawn_ids (events : list EventRecord) : VerletResult (gset string) :=
  ids <-? collect (fun e => map_err (fun err => HistoryText ("thread.joined " +:+ uuid_text (event_id e) +:+ " payload is malformed: " +:+ err))
                     (result_map (fun p => uuid_text (joined_spawned_event_id p)) (decode_joined (payload e))))
            (List.filter (fun e => bool_decide (kind e = ThreadJoined)) events) ;;
  Ok (list_to_set ids).

(** The claim of a binding's request. *)
Definition claims_binding (b : ThreadHandleBinding) (e : EventRecord) : bool :=
  is_spawn_request_claim e && bool_decide (binding_request_event_id b ∈ source_event_ids (provenance e)) &&
  bool_decide (payload_text "correlation_id" e = Some (binding_dispatch_id b)).

Definition child_coordinates (consumer : ThreadCoordinates) (thread : ThreadId) : ThreadCoordinates :=
  mk_coordinates (tenant_id consumer) (user_id consumer) (session_id consumer) thread.

(** The join the recovery writes for a child. *)
Definition recovery_join (consumer child : ThreadCoordinates) (b : ThreadHandleBinding) (claim : EventRecord)
    (terminal : option ChildTerminalTruth) : JoinRequest :=
  let died := "startup recovery observed runtime death before durable terminal state" in {|
  join_parent := consumer; join_child := child; join_spawned_event_id := binding_spawned_event_id b;
  join_terminal_state := match terminal with Some t => truth_state t | None => TerminalFailed end;
  join_result_digest := match terminal with Some t => truth_outcome_reason t | None => Some died end;
  join_reason := Some match terminal with
                      | Some t => "startup recovery re-observed durable child terminal " +:+ kind_str (truth_kind t) +:+ " after daemon restart"
                      | None => died
                      end;
  join_source_event := Some match terminal with Some t => (truth_stream_id t, truth_event_id t) | None => (stream_id claim, event_id claim) end;
  join_discharged_by := "recovery:startup-sweep"; join_function := "thread_join_recovery/v1" |}.

Section Store.
Context {S : Type} `{EventStore S} `{EventAppend S}.

(** What is on the child's two streams. *)
Definition child_events (s : S) (child : ThreadCoordinates) : HistoryResult (list EventRecord) :=
  thread <-? log_read s (for_thread child) None ;;
  control <-? log_read s (control_stream_id child) None ;;
  Ok (thread ++ control).

(** One binding of the loop of [recover_threads]; the number is what it counts as recovered. *)
Definition recover_binding (consumer : ThreadCoordinates) (events : list EventRecord) (joined : gset string)
    (id : EventRecordId) (now : Z) (b : ThreadHandleBinding) (s : S) : S * nat :=
  if bool_decide (uuid_text (binding_spawned_event_id b) ∈ joined) then (s, 0)
  else
    match List.find (claims_binding b) events with
    | None => (s, 0)
    | Some claim =>
        if negb (bool_decide (handle_kind (binding_handle b) = HandleThread)) then (s, 0)
        else
          match uuid_parse (handle_id (binding_handle b)) with
          | None => (s, 0)
          | Some thread =>
              let child := child_coordinates consumer thread in
              match child_events s child with
              | Err _ => (s, 0)
              | Ok child_events =>
                  match fold_child_terminal_truth child_events (binding_submitted_turn_id b) with
                  | Err _ => (s, 0)
                  | Ok terminal =>
                      let (s, p) := append_thread_joined_first_wins id now (recovery_join consumer child b claim terminal) s in
                      (s, match p with Joined (Ok a) => if join_was_appended a then 1 else 0 | _ => 0 end)
                  end
              end
          end
    end.

Variable draw : nat -> EventRecordId * Z.

Fixpoint recover_bindings (consumer : ThreadCoordinates) (events : list EventRecord) (joined : gset string)
    (drawn : nat) (bindings : list ThreadHandleBinding) (s : S) : S * nat :=
  match bindings with
  | [] => (s, 0)
  | b :: bindings =>
      let (s, n) := recover_binding consumer events joined (draw drawn).1 (draw drawn).2 b s in
      let (s, m) := recover_bindings consumer events joined (Datatypes.S drawn) bindings s in
      (s, n + m)
  end.

(** [recover_threads]. *)
Definition recover_threads `{SpawnTexts} (consumer : ThreadCoordinates) (events : list EventRecord) (drawn : nat) (s : S) : S * nat :=
  match fold_thread_handle_bindings events, fold_joined_spawn_ids events with
  | Ok bindings, Ok joined => recover_bindings consumer events joined drawn bindings s
  | _, _ => (s, 0)
  end.
End Store.

(** ** The process lane *)

Record ProcessWitnesses := {
  witnessed_dispatches : list (string * HandleDispatchEnvelope);
  witnessed_outcomes : list (string * HandleTerminalEnvelope);
}.
Definition no_witnesses : ProcessWitnesses := {| witnessed_dispatches := []; witnessed_outcomes := [] |}.

(** The event content an ingress witness carries. *)
Definition witnessed_event (e : EventRecord) : option (string * json) :=
  if negb (bool_decide (kind e = IoIngressReceived)) then None
  else
    match decode_ingress_witness (payload e) with
    | Ok (Some content) =>
        match decode_ingress_content content with Ok (ContentEvent k p) => Some (k, p) | _ => None end
    | _ => None
    end.

(** One witness of the loop of [fold_orphaned_process_dispatches]. *)
Definition process_witness_step (consumer : ThreadCoordinates) (w : ProcessWitnesses) (e : EventRecord) : VerletResult ProcessWitnesses :=
  match witnessed_event e with
  | None => Ok w
  | Some (k, p) =>
      if String.eqb k HANDLE_DISPATCH_CONTENT_KIND then
        match decode_dispatch_envelope p with
        | Err _ => Ok w
        | Ok b =>
            match validate_binding b consumer (envelope_dispatch_id b) (envelope_command_digest b) with
            | Err _ => Ok w
            | Ok _ =>
                let key := envelope_dispatch_id b in
                let inserted := {| witnessed_dispatches := obj_insert key b (witnessed_dispatches w);
                                   witnessed_outcomes := witnessed_outcomes w |} in
                match obj_get key (witnessed_dispatches w) with
                | Some existing =>
                    if bool_decide (existing = b) then Ok inserted
                    else Err (HistoryText ("process dispatch " +:+ key +:+ " has conflicting witnesses"))
                | None => Ok inserted
                end
            end
        end
      else if String.eqb k HANDLE_OUTCOME_CONTENT_KIND then
        match decode_terminal_envelope p with
        | Err _ => Ok w
        | Ok t =>
            if negb (bool_decide (handle_kind (terminal_handle t) = HandleProcess)) then Ok w
            else
              let key := terminal_dispatch_id t in
              let inserted := {| witnessed_dispatches := witnessed_dispatches w;
                                 witnessed_outcomes := obj_insert key t (witnessed_outcomes w) |} in
              match obj_get key (witnessed_outcomes w) with
              | Some existing =>
                  if terminal_envelope_eqb existing t then Ok inserted
                  else Err (HistoryText ("process dispatch " +:+ key +:+ " has conflicting outcome witnesses"))
              | None => Ok inserted
              end
        end
      else Ok w
  end.

(** An outcome is of the handle its dispatch is bound to. *)
Definition outcome_matches (dispatches : list (string * HandleDispatchEnvelope)) (outcome : string * HandleTerminalEnvelope)
    : VerletResult unit :=
  match obj_get outcome.1 dispatches with
  | Some b =>
      if bool_decide (envelope_handle b = terminal_handle outcome.2) then Ok tt
      else Err (HistoryText ("process outcome " +:+ outcome.1 +:+ " does not match its dispatch handle"))
  | None => Ok tt
  end.

Definition fold_orphaned_process_dispatches (consumer : ThreadCoordinates) (events : list EventRecord)
    : VerletResult (list HandleDispatchEnvelope) :=
  w <-? try_fold (process_witness_step consumer) no_witnesses events ;;
  for_each (outcome_matches (witnessed_dispatches w)) (witnessed_outcomes w) ;;?
  Ok (map snd (List.filter (fun kb => match obj_get kb.1 (witnessed_outcomes w) with Some _ => false | None => true end)
                 (witnessed_dispatches w))).

Section Processes.
Context {P : Type} `{ProcessDispatcher P}.

Fixpoint settle_processes (bindings : list HandleDispatchEnvelope) (p : P) : P * nat :=
  match bindings with
  | [] => (p, 0)
  | b :: bindings =>
      if is_live_dispatch (envelope_dispatch_id b) p then settle_processes bindings p
      else
        let (p, r) := submit_recovery_outcome b p in
        let (p, n) := settle_processes bindings p in
        (p, match r with Ok _ => Datatypes.S n | Err _ => n end)
  end.

(** [recover_processes]. *)
Definition recover_processes (consumer : ThreadCoordinates) (events : list EventRecord) (p : P) : P * nat :=
  match fold_orphaned_process_dispatches consumer events with
  | Ok bindings => settle_processes bindings p
  | Err _ => (p, 0)
  end.
End Processes.

(** ** The sweep *)

Record StartupRecoveryReceipt := { receipt_thread_joins : nat; receipt_process_outcomes : nat }.

Section Sweep.
Context `{SpawnTexts} {S : Type} `{EventStore S} `{EventAppend S} `{ControlStreams S} {P : Type} `{ProcessDispatcher P}.
Variable tenant user : string.
Variable draw : nat -> nat -> EventRecordId * Z.

(** The control streams of the daemon's tenant and user, one after the other; [draw n] are the ids and times
    drawn for the [n]th. *)
Fixpoint sweep_streams (n : nat) (consumers : list ThreadCoordinates) (receipt : StartupRecoveryReceipt) (s : S) (p : P)
    : S * P * StartupRecoveryReceipt :=
  match consumers with
  | [] => (s, p, receipt)
  | consumer :: consumers =>
      if negb (String.eqb (tenant_id consumer) tenant) || negb (String.eqb (user_id consumer) user)
      then sweep_streams (Datatypes.S n) consumers receipt s p
      else
        match log_read s (control_stream_id consumer) None with
        | Err _ => sweep_streams (Datatypes.S n) consumers receipt s p
        | Ok events =>
            let (s, threads) := recover_threads (draw n) consumer events 0 s in
            let (p, processes) := recover_processes consumer events p in
            sweep_streams (Datatypes.S n) consumers
              {| receipt_thread_joins := receipt_thread_joins receipt + threads;
                 receipt_process_outcomes := receipt_process_outcomes receipt + processes |} s p
        end
  end.

(** [run_once]. *)
Definition run_once (s : S) (p : P) : S * P * VerletResult StartupRecoveryReceipt :=
  match list_control_stream_coordinates s with
  | Err e => (s, p, Err (HistoryFailed e))
  | Ok consumers =>
      let '(s, p, receipt) := sweep_streams 0 consumers {| receipt_thread_joins := 0; receipt_process_outcomes := 0 |} s p in
      (s, p, Ok receipt)
  end.
End Sweep.
End Recovery.
