(* ===== verification/SpawnExamples.v ===== *)
(** * Two dispatches of one child

    The theorems of [Join] and [SpawnProps] on interleaved runs, and
    the runs in which a dispatch is stranded, a child left running, or a failed dispatch
    answered with success. *)

From stdpp Require Import base gmap sets list strings pretty.
From Stdlib Require Import NArith ZArith Lia.
From S2P Require Import Prelude Json EventKind Contracts Records Store Journal EventLog Lease Queue SyncExamples Control Coupling Stdlib.
From S2P Require Import ReadPlan Canonical Join Spawn SpawnTasks SpawnFacts SpawnProps.

Local Open Scope verlet_scope.
Local Open Scope string_scope.
Local Open Scope list_scope.

Module SpawnExamples.
(** ** Decoders *)

Section Decoders.
Context `{UuidParse}.

Definition text (k : string) (v : json) : option string := value_get k v ≫= as_str.
Definition thread_field (k : string) (v : json) : option ThreadId := text k v ≫= uuid_parse.

Definition read_request (v : json) : option ThreadSpawnRequestedPayload :=
  parent ← thread_field "parent_thread_id" v; agent ← text "child_agent_ref" v; submission ← text "initial_submission" v;
  correlation ← text "correlation_id" v;
  Some (mk_spawn_request parent (text "parent_turn_id" v) (text "task_name" v) (text "submitted_turn_id" v) agent submission correlation
          match value_get "block_parent" v with Some (JBool b) => b | _ => false end).

Definition read_spawned (v : json) : option ThreadSpawnedPayload :=
  parent ← thread_field "parent_thread_id" v; child ← thread_field "child_thread_id" v;
  manifest ← text "child_manifest_hash" v; inputs ← text "inputs_hash" v;
  Some (mk_spawned parent (text "parent_turn_id" v) child manifest (text "child_policy_hash" v) [] inputs).

Lemma read_request_back p :
  read_request (jobj (spawn_request_fields p ++ [("schema", JString (payload_schema_id ThreadSpawnRequested))])) = Some p.
Proof.
  destruct p as [parent turn name submitted agent submission correlation block].
  unfold read_request, thread_field, text. rewrite !value_get_jobj. unfold spawn_request_fields.
  destruct turn, name, submitted; cbn; rewrite uuid_parse_text; reflexivity.
Qed.

Definition terminal_of (name : string) : option ThreadTerminalState :=
  List.find (fun s => String.eqb (terminal_name s) name) [TerminalCompleted; TerminalFailed; TerminalCancelled; TerminalBudgetExhausted].
Definition read_joined (v : json) : option ThreadJoinedPayload :=
  child ← thread_field "child_thread_id" v; spawned ← thread_field "spawned_event_id" v;
  state ← text "terminal_state" v ≫= terminal_of; Some (mk_joined child spawned state (text "result_digest" v)).
Lemma read_joined_back p reason : read_joined (joined_json p reason) = Some p.
Proof.
  destruct p as [child spawned state digest]. unfold read_joined, thread_field, text.
  unfold joined_json. rewrite !value_get_jobj. destruct digest, reason, state; cbn; rewrite !uuid_parse_text; reflexivity.
Qed.
End Decoders.

#[local] Existing Instance SyncExamples.id_texts.
#[local] Existing Instance SyncExamples.id_parses.

#[local] Instance codec : SpawnCodec := {|
  decode_spawn_request v := ok_or (read_request v) "not a request";
  decode_spawned v := ok_or (read_spawned v) "not a child";
  decode_coupling_set _ := Err "not a coupling set";
  decode_bind_receipt _ := Err "not a receipt";
|}.
#[local] Instance codec_reads_back : SpawnCodecLaws.
Proof.
  split.
  - intros p. cbn [decode_spawn_request codec]. by rewrite read_request_back.
  - intros v p. cbn [decode_spawn_request codec]. unfold read_request. intros Hp.
    destruct (thread_field _ v); cbn in Hp; [|done]. destruct (text "child_agent_ref" v); cbn in Hp; [|done].
    destruct (text "initial_submission" v); cbn in Hp; [|done]. change (value_get "correlation_id" v ≫= as_str) with (text "correlation_id" v).
    destruct (text "correlation_id" v); cbn in Hp; [|done]. by injection Hp as <-.
Qed.

#[local] Instance joins_codec : JoinCodec := {| decode_joined v := ok_or (read_joined v) "not a join" |}.
#[local] Instance joins_read_back : JoinCodecLaws.
Proof. split. intros p reason. cbn [decode_joined joins_codec]. by rewrite read_joined_back. Qed.

#[local] Instance texts : SpawnTexts := {|
  history_text _ := "history"; scope_mismatch_text _ _ _ := "scope mismatch"; debug_text s := s |}.
#[local] Instance plain : JsonTexts := {| to_writer s := Ok s; number_text _ := "0" |}.
#[local] Instance undigested : Sha256 := {| sha256_digest s := s |}.

(** ** Runs *)

Definition me : ThreadCoordinates := sample_coordinates 7.
Definition control := control_stream_id me.
Definition here : ThreadContext := mk_context me None topology_root [].
Definition empty : Handle := mk_handle inner_empty 0.

Lemma nothing_valid : log_valid empty.
Proof. apply journal_wf_empty. Qed.
Lemma empty_log stream : log_events empty stream = [].
Proof. reflexivity. Qed.
Lemma empty_claims : claims_unique empty.
Proof. intros stream d e1 e2 Hin. rewrite empty_log in Hin. by apply elem_of_nil in Hin. Qed.
Lemma empty_children : children_unique empty.
Proof. intros stream d e1 e2 Hin. rewrite empty_log in Hin. by apply elem_of_nil in Hin. Qed.
Lemma empty_names : names_inv me empty.
Proof. split; [intros e1 e2 p1 p2 name Hin|intros e d Hin]; rewrite empty_log in Hin; by apply elem_of_nil in Hin. Qed.

Definition request (name : string) : ThreadSpawnRequestedPayload :=
  mk_spawn_request 7 None (Some name) (Some "turn-d1") "unbound" "look around" "d1" false.
Definition call : DispatchCall := {|
  dispatch_coordinates := me; dispatch_payload := request "scout"; dispatch_requires_attachment := false; dispatch_has_resolver := false |}.

(** A step that draws the id and the thread, at a time in seconds, with an answer. *)
Definition input (id : EventRecordId) (thread : ThreadId) (seconds : Z) (a : HostAnswer) : StepInput := {|
  drawn_id := id; drawn_now := 5; drawn_signal := 99; drawn_thread := thread; clock := seconds * 10 ^ 9; answer := a |}.
Definition fine := AnswerUnit (Ok tt).
Definition step (k : nat) (id : EventRecordId) : SpawnLabel := TaskProceeds k (input id 30 0 fine).
Definition finds (k : nat) : SpawnLabel := TaskProceeds k (input 0 0 0 (AnswerThread (Ok here))).
Definition fails (k : nat) (id : EventRecordId) : SpawnLabel := TaskProceeds k (input id 0 0 (AnswerUnit (Err (SpawnHost "refused")))).
Definition at_time (k : nat) (seconds : Z) : SpawnLabel := TaskProceeds k (input 90 0 seconds fine).

Notation World := (SpawnWorld (S := Handle)).
Definition start : World := {| spawn_store := empty; spawn_tasks := ∅; spawn_effects := [] |}.
Fixpoint run (labels : list SpawnLabel) (w : World) : option World :=
  match labels with [] => Some w | label :: labels => w ← spawn_turn label w; run labels w end.

Lemma run_reachable (P : SpawnLabel -> Prop) labels w w' :
  Forall P labels -> spawn_reachable P empty w -> run labels w = Some w' -> spawn_reachable P empty w'.
Proof.
  intros Hp. revert w. induction Hp as [|label labels Hl Hp IH]; intros w Hr Hrun; cbn in Hrun; [by injection Hrun as <-|].
  apply bind_Some in Hrun as (w1 & Hw1 & Hrun). eapply IH; [|exact Hrun]. by econstructor.
Qed.

Definition task_of (k : nat) (w : option World) : option SpawnTask := w ≫= fun w => spawn_tasks w !! k.
Definition returned (k : nat) (w : option World) : option (SpawnResult ThreadSpawnDispatchReceipt) :=
  match task_of k w with Some (DispatchTask _ _ (DispatchReturned r)) => Some r | _ => None end.

(** Both callers find no request; the second loses the race to write it, then the one to claim it, and waits for
    the child the first one starts. *)
Definition race : list SpawnLabel :=
  [DispatchBegins 1 call; DispatchBegins 2 call; step 1 10; step 2 20; step 1 0; step 2 0; step 1 11; step 2 21; step 1 0; step 2 0;
   finds 1; step 1 0; step 1 0; step 2 0; step 2 0; step 2 0; finds 1; step 1 12; step 1 0; step 1 0; at_time 2 1; at_time 2 1].
Definition raced : option World := run race start.

Lemma raced_returns :
  returned 1 raced = returned 2 raced /\
  returned 1 raced = Some (Ok {| dispatched_request_event_id := 10; dispatched_handle := handle_of_thread 30; dispatched_dispatch_id := "d1";
                                 dispatched_submitted_turn_id := Some "turn-d1"; dispatched_task_name := Some "scout" |}).
Proof. split; vm_compute; reflexivity. Qed.

Definition raced_world : World := default start raced.
Lemma raced_some : run race start = Some raced_world.
Proof. unfold raced_world, raced. destruct (run race start) eqn:Hr; [done|]. vm_compute in Hr. discriminate Hr. Qed.
Lemma raced_reachable : spawn_reachable named_by_dispatchers empty raced_world.
Proof.
  eapply run_reachable; [|apply spawn_start|exact raced_some].
  unfold race, step, finds, at_time, named_by_dispatchers, spawned_by_tasks. repeat constructor.
Qed.
Lemma raced_spawned : spawn_reachable spawned_by_tasks empty raced_world.
Proof. eapply spawn_reachable_weaken; [|exact raced_reachable]. by intros l [Hl _]. Qed.

Lemma child_started_once_witness :
  length (starts (spawn_effects raced_world)) = 1 /\ children_unique (spawn_store raced_world).
Proof.
  split; [vm_compute; reflexivity|].
  destruct (child_started_once empty raced_world nothing_valid empty_claims empty_children raced_spawned) as (_ & _ & _ & Hch). exact Hch.
Defined.

Definition receipt_of (k : nat) : option ThreadSpawnDispatchReceipt :=
  match returned k (Some raced_world) with Some (Ok r) => Some r | _ => None end.
Definition started_of (k : nat) : option Z :=
  match spawn_tasks raced_world !! k with Some (DispatchTask _ started _) => started | _ => None end.
Definition blank_receipt : ThreadSpawnDispatchReceipt := {|
  dispatched_request_event_id := 0; dispatched_handle := handle_of_thread 0; dispatched_dispatch_id := "";
  dispatched_submitted_turn_id := None; dispatched_task_name := None |}.


Lemma task_name_resolves_witness :
  exists x, fold_thread_task_name_resolution (log_events (spawn_store raced_world) control) me "scout" = Ok (Some x) /\
    exists q p e, named_child me "scout" (log_events (spawn_store raced_world) control) q p e.
Proof.
  pose proof (task_name_resolves me empty raced_world "scout" nothing_valid empty_claims empty_children empty_names raced_reachable) as Hres.
  cbv zeta in Hres. fold control in Hres.
  destruct (fold_thread_task_name_resolution (log_events (spawn_store raced_world) control) me "scout") as [[x|]|err] eqn:Hf.
  - exists x. split; [reflexivity|exact (proj1 Hres)].
  - vm_compute in Hf. discriminate Hf.
  - vm_compute in Hf. discriminate Hf.
Defined.

(** ** What a failure leaves behind *)

(** The parent is gone when the claim is won: the dispatch fails with no decision on the log, and every retry
    waits five seconds to be refused. *)
Definition stranded : option World :=
  run [DispatchBegins 1 call; step 1 10; step 1 0; step 1 11; step 1 0;
        TaskProceeds 1 (input 0 0 0 (AnswerThread (Err (SpawnHost "thread not found")))); DispatchBegins 2 call;
        at_time 2 1; at_time 2 2; at_time 2 2; at_time 2 6; at_time 2 6] start.

Lemma parent_gone_strands_dispatch :
  returned 1 stranded = Some (Err (SpawnHost "thread not found")) /\
  returned 2 stranded = Some (Err (SpawnExecution
    "thread spawn dispatch d1 is claimed without a terminal decision; refusing to replay the child effect")) /\
  (kind <$> default [] ((fun w => log_events (spawn_store w) control) <$> stranded)) = [ThreadSpawnRequested; ThreadSpawnRequested].
Proof. split_and!; vm_compute; reflexivity. Qed.

(** The first turn of the child is refused: the child is stopped and the dispatch fails, but a retry of it
    answers with the handle of the stopped child. *)
Definition refused : option World :=
  run [DispatchBegins 1 call; step 1 10; step 1 0; step 1 11; step 1 0; finds 1; step 1 0; step 1 0; finds 1; step 1 12; step 1 0;
       fails 1 0; step 1 0; step 1 13; DispatchBegins 2 call; step 2 0] start.

Lemma failed_dispatch_retried_succeeds :
  returned 1 refused = Some (Err (SpawnHost "refused")) /\
  (dispatched_handle <$> (returned 2 refused ≫= fun r => match r with Ok r => Some r | Err _ => None end)) = Some (handle_of_thread 30) /\
  ChildStopped 30 ∈ default [] (spawn_effects <$> refused).
Proof. split_and!; [vm_compute; reflexivity..|]. vm_compute. right. left. Qed.

(** The parent is gone after the child is started: the failure is recorded and the child is left running. *)
Definition orphaned : option World :=
  run [DispatchBegins 1 call; step 1 10; step 1 0; step 1 11; step 1 0; finds 1; step 1 0; step 1 0;
       TaskProceeds 1 (input 0 0 0 (AnswerThread (Err (SpawnHost "thread not found")))); step 1 13] start.

Lemma parent_gone_leaves_child :
  returned 1 orphaned = Some (Err (SpawnHost "thread not found")) /\
  length (starts (default [] (spawn_effects <$> orphaned))) = 1 /\ length (default [] (spawn_effects <$> orphaned)) = 1.
Proof. split_and!; vm_compute; reflexivity. Qed.

(** ** Joins *)

Definition join : JoinRequest := {|
  join_parent := me; join_child := sample_coordinates 30; join_spawned_event_id := 12; join_terminal_state := TerminalCompleted;
  join_result_digest := None; join_reason := None; join_source_event := None; join_discharged_by := "monitor"; join_function := "v1" |}.
Definition recovered : JoinRequest := {|
  join_parent := me; join_child := sample_coordinates 30; join_spawned_event_id := 12; join_terminal_state := TerminalFailed;
  join_result_digest := Some "died"; join_reason := Some "recovery"; join_source_event := None; join_discharged_by := "recovery";
  join_function := "v1" |}.

Fixpoint join_turns (labels : list JoinLabel) (w : JoinWorld (S := Handle)) : option JoinWorld :=
  match labels with [] => Some w | label :: labels => w ← join_turn label w; join_turns labels w end.
Definition no_joiners : JoinWorld := {| join_store := empty; joiners := ∅ |}.
(** Both read an empty stream; the recovery's append is the first. *)
Definition joined : option (JoinWorld (S := Handle)) :=
  join_turns [JoinBegins 1 40 5 join; JoinBegins 2 41 5 recovered; JoinProceeds 1; JoinProceeds 2; JoinProceeds 2; JoinProceeds 1; JoinProceeds 1] no_joiners.
Definition joined_world : JoinWorld := default no_joiners joined.

Lemma join_turns_reachable labels w w' :
  Forall joins_by_joiners labels -> join_reachable empty w -> join_turns labels w = Some w' -> join_reachable empty w'.
Proof.
  intros Hp. revert w. induction Hp as [|label labels Hl Hp IH]; intros w Hr Hrun; cbn in Hrun; [by injection Hrun as <-|].
  apply bind_Some in Hrun as (w1 & Hw1 & Hrun). eapply IH; [|exact Hrun]. by econstructor.
Qed.
Lemma joined_reachable : join_reachable empty joined_world.
Proof.
  unfold joined_world. destruct joined as [w|] eqn:Hw; [|vm_compute in Hw; discriminate Hw].
  eapply join_turns_reachable; [|apply join_start|exact Hw]. repeat constructor.
Qed.
Lemma empty_joins : joins_unique empty.
Proof. intros stream spawned e1 e2 Hin. rewrite empty_log in Hin. by apply elem_of_nil in Hin. Qed.

Lemma join_first_wins_witness :
  joins_unique (join_store joined_world) /\
  (payload_text "terminal_state" <$> log_events (join_store joined_world) control) = [Some "failed"].
Proof.
  split; [|vm_compute; reflexivity].
  destruct (join_first_wins empty joined_world nothing_valid empty_joins joined_reachable) as (Hu & _). exact Hu.
Defined.
End SpawnExamples.
