(* ===== verification/RecoveryFacts.v ===== *)
(** * What a startup recovery settles

    The joins that [Recovery] writes are of the children whose runtime died, each once,
    with the state the child ended in; the processes it settles are those that were
    dispatched and have no outcome. *)

From stdpp Require Import base gmap sets list strings pretty.
From Stdlib Require Import NArith ZArith Lia.
From S2P Require Import Prelude Json EventKind Contracts Records Store Journal EventLog Lease Ingress Queue SyncExamples Control Join Spawn Recovery.
From S2P Require Import SpawnTasks SpawnExamples.

Local Open Scope verlet_scope.
Local Open Scope string_scope.
Local Open Scope list_scope.

Lemma Forall2_elem_l {A B} (P : A -> B -> Prop) l k x : Forall2 P l k -> x ∈ l -> exists y, y ∈ k /\ P x y.
Proof. intros Hp. induction Hp as [|a b l k Hab _ IH]; [set_solver|]. intros [->|Hx]%elem_of_cons; [set_solver|]. destruct (IH Hx). set_solver. Qed.
Lemma Forall2_elem_r {A B} (P : A -> B -> Prop) l k y : Forall2 P l k -> y ∈ k -> exists x, x ∈ l /\ P x y.
Proof. intros Hp. induction Hp as [|a b l k Hab _ IH]; [set_solver|]. intros [->|Hy]%elem_of_cons; [set_solver|]. destruct (IH Hy). set_solver. Qed.

Section Joins.
Context `{UuidParse} `{SpawnCodec} `{!SpawnTexts} `{!JoinCodec} `{!JoinCodecLaws} {S : Type} `{EventAppendLaws S}.
Implicit Types (s : S) (e : EventRecord) (b : ThreadHandleBinding) (r : JoinRequest).

(** ** Joins hide nothing from the folds *)

Definition not_join e : bool := negb (bool_decide (kind e = ThreadJoined)).

(** The streams differ by joins at their ends. *)
Definition joins_added s s' : Prop :=
  log_valid s' /\ forall stream, exists es, log_events s' stream = log_events s stream ++ es /\ Forall (fun e => kind e = ThreadJoined) es.

Lemma joins_added_refl s : log_valid s -> joins_added s s.
Proof. intros Hv. split; [done|]. intros stream. exists []. by rewrite app_nil_r. Qed.

Lemma joins_added_trans s1 s2 s3 : joins_added s1 s2 -> joins_added s2 s3 -> joins_added s1 s3.
Proof.
  intros [_ H12] [Hv H23]. split; [done|]. intros stream. destruct (H12 stream) as (es & He & Hes), (H23 stream) as (es' & -> & Hes').
  exists (es ++ es'). rewrite He, app_assoc. split; [done|]. by apply Forall_app.
Qed.

Lemma filter_joins es : Forall (fun e => kind e = ThreadJoined) es -> List.filter not_join es = [].
Proof. induction 1 as [|e es He _ IH]; cbn; [done|]. unfold not_join at 1. by rewrite bool_decide_true. Qed.

Lemma joins_added_filter s s' stream : joins_added s s' ->
  List.filter not_join (log_events s' stream) = List.filter not_join (log_events s stream).
Proof. intros [_ Ha]. destruct (Ha stream) as (es & -> & Hes). by rewrite List.filter_app, (filter_joins es Hes), app_nil_r. Qed.

Lemma terminal_fold_filter turn terminal events :
  try_fold (terminal_step turn) terminal events = try_fold (terminal_step turn) terminal (List.filter not_join events).
Proof.
  revert terminal. induction events as [|e events IH]; intros terminal; [done|]. cbn [List.filter]. unfold not_join at 1.
  case_bool_decide as Hk; cbn [negb try_fold]; [|by destruct (terminal_step turn terminal e)].
  assert (terminal_step turn terminal e = Ok terminal) as ->; [|done].
  unfold terminal_step, project_child_terminal_record. rewrite Hk. by destruct (negb _).
Qed.

(** ** What is recovered of a binding *)

(** The join of a binding's child that died, whatever its parent knows of its end. *)
Definition recovery_of (consumer : ThreadCoordinates) (events : list EventRecord) s b : option JoinRequest :=
  claim ← List.find (claims_binding b) events;
  if negb (bool_decide (handle_kind (binding_handle b) = HandleThread)) then None
  else
    thread ← uuid_parse (handle_id (binding_handle b));
    match child_events s (child_coordinates consumer thread) with
    | Ok es =>
        match fold_child_terminal_truth es (binding_submitted_turn_id b) with
        | Ok terminal => Some (recovery_join consumer (child_coordinates consumer thread) b claim terminal)
        | Err _ => None
        end
    | Err _ => None
    end.

Lemma recover_binding_eq consumer events joined id now b s :
  recover_binding consumer events joined id now b s =
  if bool_decide (uuid_text (binding_spawned_event_id b) ∈ joined) then (s, 0)
  else
    match recovery_of consumer events s b with
    | None => (s, 0)
    | Some r =>
        let (s, p) := append_thread_joined_first_wins id now r s in
        (s, match p with Joined (Ok a) => if join_was_appended a then 1 else 0 | _ => 0 end)
    end.
Proof.
  unfold recover_binding, recovery_of. case_bool_decide; [done|]. destruct (List.find _ _) as [claim|]; [|done]. cbn [mbind option_bind].
  destruct (negb _); [done|]. destruct (uuid_parse _) as [thread|]; [|done]. cbn [mbind option_bind].
  destruct (child_events _ _); [|done]. by destruct (fold_child_terminal_truth _ _).
Qed.

Lemma recovery_of_parent consumer events s b r : recovery_of consumer events s b = Some r ->
  join_parent r = consumer /\ join_spawned_event_id r = binding_spawned_event_id b.
Proof.
  unfold recovery_of. destruct (List.find _ _); [|done]. cbn [mbind option_bind]. destruct (negb _); [done|].
  destruct (uuid_parse _); [|done]. cbn [mbind option_bind]. destruct (child_events _ _); [|done].
  destruct (fold_child_terminal_truth _ _); [|done]. intros Hr. by injection Hr as <-.
Qed.

Lemma recovery_of_stable consumer events s s' b : log_valid s -> joins_added s s' ->
  recovery_of consumer events s' b = recovery_of consumer events s b.
Proof.
  intros Hv Ha. pose proof (proj1 Ha) as Hv'. unfold recovery_of. destruct (List.find _ _) as [claim|]; [|done]. cbn [mbind option_bind].
  destruct (negb _); [done|]. destruct (uuid_parse _) as [thread|]; [|done]. cbn [mbind option_bind].
  unfold child_events. rewrite !log_read_all by done. cbn. unfold fold_child_terminal_truth.
  rewrite (terminal_fold_filter _ _ (log_events s' _ ++ _)), (terminal_fold_filter _ _ (log_events s _ ++ _)), !List.filter_app.
  by rewrite !(joins_added_filter s s') by done.
Qed.
(** ** What is joined already *)

Lemma joined_ids_spec events joined : fold_joined_spawn_ids events = Ok joined ->
  Forall (fun e => kind e = ThreadJoined -> is_ok (decode_joined (payload e)) = true) events /\
  forall spawned, uuid_text spawned ∈ joined <-> exists e, e ∈ events /\ joins spawned e.
Proof.
  unfold fold_joined_spawn_ids. set (f := fun e => map_err _ _). destruct (collect f _) as [ids|] eqn:Hc; [|done]. cbn.
  intros Hj. injection Hj as <-. apply collect_ok in Hc.
  assert (forall e id, f e = Ok id <-> exists p, decode_joined (payload e) = Ok p /\ id = uuid_text (joined_spawned_event_id p)) as Hf.
  { intros e id. unfold f. destruct (decode_joined (payload e)); cbn; [|split; [done|by intros (? & ? & _)]].
    split; [intros Hid; injection Hid as <-; eauto|by intros (p & [= ->] & ->)]. }
  assert (forall e, e ∈ List.filter (fun e => bool_decide (kind e = ThreadJoined)) events <-> e ∈ events /\ kind e = ThreadJoined) as Hin.
  { intros e. rewrite !list_elem_of_In, filter_In. by rewrite bool_decide_eq_true. }
  split.
  - apply Forall_forall. intros e He Hk. destruct (Forall2_elem_l _ _ _ e Hc) as (id & _ & (p & -> & _)%Hf); [by apply Hin|done].
  - intros spawned. rewrite elem_of_list_to_set. split.
    + intros Hid. destruct (Forall2_elem_r _ _ _ _ Hc Hid) as (e & [He Hk]%Hin & (p & Hp & Hs)%Hf).
      apply (inj uuid_text) in Hs as ->. exists e. split; [done|]. by split; [|exists p].
    + intros (e & He & Hk & p & Hp & <-). destruct (Forall2_elem_l _ _ _ e Hc) as (id & Hid & (q & Hq & ->)%Hf); [by apply Hin|].
      congruence.
Qed.
Lemma existing_join_decodes spawned events :
  Forall (fun e => kind e = ThreadJoined -> is_ok (decode_joined (payload e)) = true) events ->
  exists x, existing_join spawned events = Ok x.
Proof.
  induction 1 as [|e events He _ [x Hx]]; cbn; [by eexists|]. case_bool_decide as Hk; cbn [negb]; [|by eexists].
  specialize (He Hk). destruct (decode_joined (payload e)); [|done]. destruct (String.eqb _ _); by eexists.
Qed.

(** ** One binding *)

(** The joins on the stream decode, and there is one of a spawn at most. *)
Definition joins_readable (stream : EventStreamId) s : Prop :=
  joins_unique s /\ Forall (fun e => kind e = ThreadJoined -> is_ok (decode_joined (payload e)) = true) (log_events s stream).

(** The store refused to append a join. *)
Definition join_append_refused (stream : EventStreamId) r : Prop :=
  exists id now s s' err, log_valid s /\
    log_append_fenced stream (next_sequence (log_events s stream)) [join_record id now r] s = (s', Err err).

(** A run of a joiner for a spawn that may be joined meanwhile. *)
Lemma recovered_join id now r s s' p : let stream := control_stream_id (join_parent r) in
  log_valid s -> joins_readable stream s -> append_thread_joined_first_wins id now r s = (s', p) ->
  joins_added s s' /\ joins_readable stream s' /\ (forall other, other <> stream -> log_events s' other = log_events s other) /\
  ((exists e, e ∈ log_events s' stream /\ joins (join_spawned_event_id r) e) \/ join_append_refused stream r) /\
  exists es, log_events s' stream = log_events s stream ++ es /\
    length es = match p with Joined (Ok a) => if join_was_appended a then 1 else 0 | _ => 0 end /\
    forall e, e ∈ es -> exists m, e = from_new stream m (join_record id now r).
Proof.
  intros stream Hv [Hu Hread] Hrun. destruct (join_run_alone id now r s Hv) as (s1 & a & Hrun' & Hout & Hg).
  rewrite Hrun' in Hrun. injection Hrun as <- <-. fold stream in Hg.
  assert (forall es, log_events s1 stream = log_events s stream ++ es -> (forall e, e ∈ es -> exists m, e = from_new stream m (join_record id now r)) ->
    (es = [] \/ forall e, e ∈ log_events s stream -> ~ joins (join_spawned_event_id r) e) ->
    joins_added s s1 /\ joins_readable stream s1 /\ forall other, other <> stream -> log_events s1 other = log_events s other) as Hgrow.
  { intros es He Hes Hno.
    assert (Forall (fun e => kind e = ThreadJoined /\ is_ok (decode_joined (payload e)) = true) es) as Hkinds.
    { apply Forall_forall. intros e (m & ->)%Hes. destruct (join_record_joins stream m id now r) as (Hk & q & Hq & _). by rewrite Hq. }
    pose proof Hg as (Hv1 & Ho & _). split_and!; [split|split|]; [done| | | |done].
    - intros other. destruct (decide (other = stream)) as [->|Hne].
      + exists es. split; [done|]. eapply Forall_impl; [exact Hkinds|]. by intros e [].
      + exists []. rewrite app_nil_r. split; [by apply Ho|done].
    - eapply joins_unique_grew; [exact Hu|exact Hg|]. destruct Hno as [->|Hno]; [left; by rewrite He, app_nil_r|right].
      intros spawned n (_ & q & Hq & <-) e Hin. destruct (join_record_joins stream n id now r) as (_ & q' & Hq' & Hsp).
      assert (q' = q) as -> by congruence. rewrite Hsp. by apply Hno.
    - rewrite He. apply Forall_app. split; [done|]. eapply Forall_impl; [exact Hkinds|]. by intros e []. }
  inversion Hout as [e Hs He Hje|e Hno Hmade He|err Hfail Hsame|err Hs Hbad]; subst a;
    cbn [join_appended_record join_was_appended] in *; change (joiner_stream (new_joiner id now r)) with stream in *.
  - subst s1. destruct (Hgrow []) as (Ha & Hr & Ho); [by rewrite app_nil_r|set_solver|by left|].
    split_and!; [done|done|done|left; by exists e|]. exists []. rewrite app_nil_r. split_and!; [done|done|set_solver].
  - assert (forall x, x ∈ [e] -> exists m, x = from_new stream m (join_record id now r)) as Hes.
    { intros x ->%list_elem_of_singleton. by eexists. }
    destruct (Hgrow [e] He Hes) as (Ha & Hr & Ho); [by right|].
    split_and!; [done|done|done| |by exists [e]]. left. exists e. split; [rewrite He; set_solver|]. subst e. apply join_record_joins.
  - destruct (Hgrow []) as (Ha & Hr & Ho); [by rewrite app_nil_r, Hsame|set_solver|by left|].
    split_and!; [done|done|done|right; by exists id, now, s, s1, err|]. exists []. rewrite app_nil_r, Hsame. split_and!; [done|done|set_solver].
  - by destruct (existing_join_decodes (join_spawned_event_id r) _ Hread) as [x Hx%(eq_trans (eq_sym Hbad))].
Qed.
(** ** The loop *)

(** A binding to recover: it is one of the stream's, its spawn has no join, and this is the join it gets. *)
Definition to_recover (consumer : ThreadCoordinates) (events : list EventRecord) (bindings : list ThreadHandleBinding) s r : Prop :=
  exists b, b ∈ bindings /\ (forall e, e ∈ events -> ~ joins (binding_spawned_event_id b) e) /\ recovery_of consumer events s b = Some r.

Section Loop.
Variable draw : nat -> EventRecordId * Z.

(** What a loop over bindings, from [s0], has done so far. *)
Definition recovered_so_far (consumer : ThreadCoordinates) events (bindings : list ThreadHandleBinding) s0 s (n : nat) : Prop :=
  let stream := control_stream_id consumer in
  joins_added s0 s /\ joins_readable stream s /\ (forall other, other <> stream -> log_events s other = log_events s0 other) /\
  exists es, log_events s stream = log_events s0 stream ++ es /\ length es = n /\
    forall e, e ∈ es -> exists r m id now, to_recover consumer events bindings s0 r /\ e = from_new stream m (join_record id now r).

Definition settled (consumer : ThreadCoordinates) events (bindings : list ThreadHandleBinding) s0 s : Prop :=
  forall r, to_recover consumer events bindings s0 r ->
    (exists e, e ∈ log_events s (control_stream_id consumer) /\ joins (join_spawned_event_id r) e) \/
    join_append_refused (control_stream_id consumer) r.

Lemma recover_bindings_spec consumer events joined s0 bindings : 
  (forall spawned, uuid_text spawned ∈ joined <-> exists e, e ∈ events /\ joins spawned e) -> log_valid s0 ->
  forall drawn s n0 all, (forall b, b ∈ bindings -> b ∈ all) -> recovered_so_far consumer events all s0 s n0 ->
  let '(s', n) := recover_bindings draw consumer events joined drawn bindings s in
  recovered_so_far consumer events all s0 s' (n0 + n) /\ joins_added s s' /\ settled consumer events bindings s0 s'.
Proof.
  intros Hjoined Hv0. induction bindings as [|b bindings IH]; intros drawn s n0 all Hall Hpast; cbn [recover_bindings].
  { rewrite Nat.add_0_r. split_and!; [done| |by intros r (b & Hb%elem_of_nil & _)]. by apply joins_added_refl; destruct Hpast as [[]]. }
  pose proof Hpast as (Ha & Hr & Ho & es & He & Hn & Hes). pose proof (proj1 Ha) as Hv.
  rewrite recover_binding_eq, (recovery_of_stable _ _ s0) by done.
  assert (forall s1 n1, recovered_so_far consumer events all s0 s1 (n0 + n1) -> joins_added s s1 ->
    (forall r, recovery_of consumer events s0 b = Some r -> (forall e, e ∈ events -> ~ joins (binding_spawned_event_id b) e) ->
       (exists e, e ∈ log_events s1 (control_stream_id consumer) /\ joins (join_spawned_event_id r) e) \/
       join_append_refused (control_stream_id consumer) r) ->
    let '(s', n) := (let (s2, m) := recover_bindings draw consumer events joined (Datatypes.S drawn) bindings s1 in (s2, n1 + m)) in
    recovered_so_far consumer events all s0 s' (n0 + n) /\ joins_added s s' /\ settled consumer events (b :: bindings) s0 s') as Hnext.
  { intros s1 n1 Hpast1 Ha1 Hset. specialize (IH (Datatypes.S drawn) s1 (n0 + n1) all ltac:(set_solver) Hpast1).
    destruct (recover_bindings _ _ _ _ _ _ s1) as [s2 m]. destruct IH as (Hpast2 & Ha2 & Hset2).
    rewrite Nat.add_assoc. split_and!; [done|by eapply joins_added_trans|]. intros r (b' & [->|Hb']%elem_of_cons & Hno & Hb).
    - destruct (Hset r Hb Hno) as [(e & Hin & Hj)|Href]; [left|by right]. exists e. split; [|done].
      destruct (proj2 Ha2 (control_stream_id consumer)) as (more & -> & _). set_solver.
    - apply Hset2. by exists b'. }
  case_bool_decide as Hin; [|destruct (recovery_of consumer events s0 b) as [r|] eqn:Hb].
  - apply (Hnext s 0); [by rewrite Nat.add_0_r|by apply joins_added_refl|].
    intros r _ Hno. apply Hjoined in Hin as (e & Hin & Hj). by destruct (Hno e).
  - destruct (recovery_of_parent _ _ _ _ _ Hb) as [Hparent Hspawned].
    destruct (append_thread_joined_first_wins _ _ r s) as [s1 p] eqn:Hrun. rewrite <- Hparent in Hr.
    destruct (recovered_join _ _ _ _ _ _ Hv Hr Hrun) as (Ha1 & Hr1 & Ho1 & Hset1 & es1 & He1 & Hn1 & Hes1). rewrite Hparent in *.
    apply (Hnext s1); [|done|by intros r' [= <-] _].
    split_and!; [by eapply joins_added_trans|done|intros other Hne; by rewrite Ho1, Ho|].
    exists (es ++ es1). rewrite He1, He, length_app, app_assoc, Hn, Hn1. split_and!; [done|done|].
    intros e [Hin1|(m & ->)%Hes1]%elem_of_app; [by apply Hes|]. do 4 eexists. split; [|done].
    exists b. split_and!; [by apply Hall; left| |done]. intros e Hine Hj. apply Hin, Hjoined. by exists e.
  - apply (Hnext s 0); [by rewrite Nat.add_0_r|by apply joins_added_refl|done].
Qed.

(** ** The thread lane *)

Lemma find_joins_added (f : EventRecord -> bool) events es :
  (forall e, kind e = ThreadJoined -> f e = false) -> Forall (fun e => kind e = ThreadJoined) es ->
  List.find f (events ++ es) = List.find f events.
Proof.
  intros Hf Hes. induction events as [|e events IH]; cbn; [|by destruct (f e)].
  induction Hes as [|e es He _ IH]; cbn; [done|]. by rewrite Hf.
Qed.

Lemma recovery_of_joined consumer events es s b : Forall (fun e => kind e = ThreadJoined) es ->
  recovery_of consumer (events ++ es) s b = recovery_of consumer events s b.
Proof.
  intros Hes. unfold recovery_of. rewrite find_joins_added; [done| |done].
  intros e He. unfold claims_binding, is_spawn_request_claim. by rewrite He.
Qed.

Lemma dispatch_request_of_joined events es dispatch : Forall (fun e => kind e = ThreadJoined) es ->
  dispatch_request_of (events ++ es) dispatch = dispatch_request_of events dispatch.
Proof.
  intros Hes. unfold dispatch_request_of. set (f := fun e => _).
  assert (forall e, kind e = ThreadJoined -> f e = None) as Hf.
  { intros e He. unfold f, spawn_request, is_spawn_request. by rewrite He. }
  induction events as [|e events IH]; cbn; [|by destruct (f e)]. induction Hes as [|e es He _ IH]; cbn; [done|]. by rewrite Hf.
Qed.

Lemma bindings_joined events es : Forall (fun e => kind e = ThreadJoined) es ->
  fold_thread_handle_bindings (events ++ es) = fold_thread_handle_bindings events.
Proof.
  intros Hes. unfold fold_thread_handle_bindings. rewrite List.filter_app.
  assert (List.filter (fun e => bool_decide (kind e = ThreadSpawned)) es = []) as ->.
  { induction Hes as [|e es He _ IH]; cbn; [done|]. by rewrite He. }
  rewrite app_nil_r. f_equal. generalize (@nil (string * ThreadHandleBinding)).
  induction (List.filter _ events) as [|e l IH]; intros bindings; cbn [try_fold]; [done|].
  assert (binding_step (events ++ es) bindings e = binding_step events bindings e) as ->; [|by destruct (binding_step _ _ _)].
  unfold binding_step. destruct (payload_text _ e); [|done]. f_equal. unfold binding_of.
  destruct (decode_spawned _); [|done]. cbn. by rewrite dispatch_request_of_joined.
Qed.

Lemma recover_threads_spec consumer drawn s : let events := log_events s (control_stream_id consumer) in
  log_valid s -> joins_unique s ->
  let '(s', n) := recover_threads draw consumer events drawn s in
  match fold_thread_handle_bindings events, fold_joined_spawn_ids events with
  | Ok bindings, Ok _ => recovered_so_far consumer events bindings s s' n /\ settled consumer events bindings s s'
  | _, _ => s' = s /\ n = 0
  end.
Proof.
  intros events Hv Hu. unfold recover_threads. destruct (fold_thread_handle_bindings events) as [bindings|]; [|done].
  destruct (fold_joined_spawn_ids events) as [joined|] eqn:Hj; [|done]. apply joined_ids_spec in Hj as [Hread Hj].
  pose proof (recover_bindings_spec consumer events joined s bindings Hj Hv drawn s 0 bindings (fun _ x => x)) as Hloop.
  destruct (recover_bindings _ _ _ _ _ _ s) as [s' n].
  destruct Hloop as (Hpast & _ & Hset); [|done].
  split_and!; [by apply joins_added_refl|done|done|]. exists []. rewrite app_nil_r. split_and!; [done|done|set_solver].
Qed.


End Loop.
End Joins.

Section Processes.
Context `{!HandleCodec}.
Variable consumer : ThreadCoordinates.
Implicit Types (e : EventRecord) (b : HandleDispatchEnvelope) (t : HandleTerminalEnvelope) (w : ProcessWitnesses).

(** ** Witnesses *)

(** The event witnesses the dispatch of a process for the consumer. *)
Definition dispatch_witness b e : Prop :=
  exists p, witnessed_event e = Some (HANDLE_DISPATCH_CONTENT_KIND, p) /\ decode_dispatch_envelope p = Ok b /\
    envelope_consumer b = consumer /\ handle_kind (envelope_handle b) = HandleProcess.

(** The event witnesses the outcome of a process. *)
Definition outcome_witness t e : Prop :=
  exists p, witnessed_event e = Some (HANDLE_OUTCOME_CONTENT_KIND, p) /\ decode_terminal_envelope p = Ok t /\
    handle_kind (terminal_handle t) = HandleProcess.

Lemma validate_binding_own b :
  validate_binding b consumer (envelope_dispatch_id b) (envelope_command_digest b) = Ok tt <->
  envelope_consumer b = consumer /\ handle_kind (envelope_handle b) = HandleProcess.
Proof.
  unfold validate_binding. rewrite !String.eqb_refl. cbn [negb]. rewrite !orb_false_r.
  do 2 case_bool_decide; cbn; naive_solver.
Qed.

(** What the loop knows of the events it has passed. *)
Record witnesses_of (seen : list EventRecord) w : Prop := {
  wo_dispatches_sorted : keys_sorted (witnessed_dispatches w);
  wo_outcomes_sorted : keys_sorted (witnessed_outcomes w);
  wo_dispatches d b : obj_get d (witnessed_dispatches w) = Some b <->
    d = envelope_dispatch_id b /\ exists e, e ∈ seen /\ dispatch_witness b e;
  wo_outcomes d : is_Some (obj_get d (witnessed_outcomes w)) <->
    exists e t, e ∈ seen /\ outcome_witness t e /\ terminal_dispatch_id t = d;
}.

Lemma witnesses_same seen w e : witnesses_of seen w ->
  (forall b, ~ dispatch_witness b e) -> (forall t, ~ outcome_witness t e) -> witnesses_of (seen ++ [e]) w.
Proof.
  intros [Hd Ho Hds Hos] Hnd Hno. split; [done|done| |].
  - intros d b. rewrite Hds. split; intros (-> & x & Hx & Hw); (split; [done|]); exists x; (split; [|done]); [set_solver|].
    apply elem_of_app in Hx as [Hx| ->%list_elem_of_singleton]; [done|]. by destruct (Hnd b).
  - intros d. rewrite Hos. split; intros (x & t & Hx & Hw & Ht); exists x, t; (split; [|done]); [set_solver|].
    apply elem_of_app in Hx as [Hx| ->%list_elem_of_singleton]; [done|]. by destruct (Hno t).
Qed.

Lemma witnesses_dispatch seen w e b : witnesses_of seen w -> dispatch_witness b e ->
  (forall b', dispatch_witness b' e -> b' = b) -> (forall t, ~ outcome_witness t e) ->
  (forall b', obj_get (envelope_dispatch_id b) (witnessed_dispatches w) = Some b' -> b' = b) ->
  witnesses_of (seen ++ [e]) {| witnessed_dispatches := obj_insert (envelope_dispatch_id b) b (witnessed_dispatches w);
                                witnessed_outcomes := witnessed_outcomes w |}.
Proof.
  intros [Hd Ho Hds Hos] Hbe Honly Hnt Hsame. split; cbn; [by apply obj_insert_sorted|done| |].
  - intros d b'. rewrite obj_get_insert. destruct (String.eqb_spec d (envelope_dispatch_id b)) as [->|Hne].
    + split; [intros Hin; injection Hin as <-; split; [done|]; exists e; set_solver|]. intros (Hid & x & Hx & Hwx). f_equal. symmetry.
      apply elem_of_app in Hx as [Hx| ->%list_elem_of_singleton]; [|by apply Honly]. apply Hsame, Hds. split; [done|]. by exists x.
    + rewrite Hds. split; intros (-> & x & Hx & Hwx); (split; [done|]); exists x; (split; [|done]); [set_solver|].
      apply elem_of_app in Hx as [Hx| ->%list_elem_of_singleton]; [done|]. by apply Honly in Hwx as ->.
  - intros d. rewrite Hos. split; intros (x & t & Hx & Hwx & Ht); exists x, t; (split; [|done]); [set_solver|].
    apply elem_of_app in Hx as [Hx| ->%list_elem_of_singleton]; [done|]. by destruct (Hnt t).
Qed.

Lemma witnesses_outcome seen w e t : witnesses_of seen w -> outcome_witness t e ->
  (forall t', outcome_witness t' e -> t' = t) -> (forall b, ~ dispatch_witness b e) ->
  witnesses_of (seen ++ [e]) {| witnessed_dispatches := witnessed_dispatches w;
                                witnessed_outcomes := obj_insert (terminal_dispatch_id t) t (witnessed_outcomes w) |}.
Proof.
  intros [Hd Ho Hds Hos] Hte Honly Hnb. split; cbn; [done|by apply obj_insert_sorted| |].
  - intros d b. rewrite Hds. split; intros (-> & x & Hx & Hwx); (split; [done|]); exists x; (split; [|done]); [set_solver|].
    apply elem_of_app in Hx as [Hx| ->%list_elem_of_singleton]; [done|]. by destruct (Hnb b).
  - intros d. rewrite obj_get_insert. destruct (String.eqb_spec d (terminal_dispatch_id t)) as [->|Hne].
    + split; [intros _; exists e, t; set_solver|]. intros _. by eexists.
    + rewrite Hos. split; intros (x & t' & Hx & Hwx & Hid); exists x, t'; (split; [|done]); [set_solver|].
      apply elem_of_app in Hx as [Hx| ->%list_elem_of_singleton]; [done|]. by apply Honly in Hwx as ->.
Qed.

Lemma witness_step_spec seen w e w' : witnesses_of seen w -> process_witness_step consumer w e = Ok w' ->
  witnesses_of (seen ++ [e]) w'.
Proof.
  intros Hw. unfold process_witness_step. destruct (witnessed_event e) as [[k p]|] eqn:He; cycle 1.
  { intros Hok. injection Hok as <-. apply witnesses_same; [done|intros b|intros t]; intros (p & Hp & _); congruence. }
  assert (forall b, dispatch_witness b e <-> k = HANDLE_DISPATCH_CONTENT_KIND /\ decode_dispatch_envelope p = Ok b /\
    validate_binding b consumer (envelope_dispatch_id b) (envelope_command_digest b) = Ok tt) as Hdw.
  { intros b. rewrite validate_binding_own. unfold dispatch_witness. rewrite He. naive_solver. }
  assert (forall t, outcome_witness t e <-> k = HANDLE_OUTCOME_CONTENT_KIND /\ decode_terminal_envelope p = Ok t /\
    handle_kind (terminal_handle t) = HandleProcess) as How.
  { intros t. unfold outcome_witness. rewrite He. naive_solver. }
  destruct (String.eqb_spec k HANDLE_DISPATCH_CONTENT_KIND) as [->|Hk1]; [|destruct (String.eqb_spec k HANDLE_OUTCOME_CONTENT_KIND) as [->|Hk2]].
  - assert (forall t, ~ outcome_witness t e) as Hnt by (intros t (? & _)%How; done).
    destruct (decode_dispatch_envelope p) as [b|] eqn:Hb; cycle 1.
    { intros Hok. injection Hok as <-. apply witnesses_same; [done| |done]. intros b (_ & ? & _)%Hdw. done. }
    destruct (validate_binding _ _ _ _) as [[]|] eqn:Hval; cycle 1.
    { intros Hok. injection Hok as <-. apply witnesses_same; [done| |done]. intros b' (_ & [= <-] & ?)%Hdw. congruence. }
    assert (dispatch_witness b e) as Hbe by by apply Hdw.
    assert (forall b', dispatch_witness b' e -> b' = b) as Honly by (by intros b' (_ & [= ->] & _)%Hdw).
    destruct (obj_get _ (witnessed_dispatches w)) as [existing|] eqn:Hget; [case_bool_decide; [|done]|]; intros Hok; injection Hok as <-;
      apply witnesses_dispatch; (done || congruence).
  - assert (forall b, ~ dispatch_witness b e) as Hnb by (intros b (? & _)%Hdw; done).
    destruct (decode_terminal_envelope p) as [t|] eqn:Ht; cycle 1.
    { intros Hok. injection Hok as <-. apply witnesses_same; [done|done|]. intros t (_ & ? & _)%How. done. }
    case_bool_decide as Hkind; cbn [negb]; cycle 1.
    { intros Hok. injection Hok as <-. apply witnesses_same; [done|done|]. intros t' (_ & [= <-] & ?)%How. done. }
    assert (outcome_witness t e) as Hte by by apply How.
    assert (forall t', outcome_witness t' e -> t' = t) as Honly by (by intros t' (_ & [= ->] & _)%How).
    destruct (obj_get _ (witnessed_outcomes w)); [destruct (terminal_envelope_eqb _ _); [|done]|]; intros Hok; injection Hok as <-;
      by apply witnesses_outcome.
  - intros Hok. injection Hok as <-. apply witnesses_same; [done|by intros b (? & _)%Hdw|by intros t (? & _)%How].
Qed.

Lemma witnesses_fold events w : try_fold (process_witness_step consumer) no_witnesses events = Ok w -> witnesses_of events w.
Proof.
  assert (witnesses_of [] no_witnesses) as Hstart.
  { split; cbn; [constructor|constructor| |].
    - intros d b. split; [done|]. intros (_ & e & He & _). by apply elem_of_nil in He.
    - intros d. split; [by intros []|]. intros (e & t & He & _). by apply elem_of_nil in He. }
  revert w. induction events as [|e events IH] using rev_ind; intros w; [by intros [= <-]|].
  rewrite try_fold_app. destruct (try_fold _ _ events) as [w1|] eqn:Hw1; [|done]. cbn [try_fold].
  destruct (process_witness_step consumer w1 e) as [w2|] eqn:Hw2; [|done]. intros Hok. injection Hok as <-.
  eapply witness_step_spec; [|exact Hw2]. by apply IH.
Qed.

(** ** The process lane *)

End Processes.

(** ** A daemon that died *)

Module RecoveryExamples.
Import SpawnExamples.
#[local] Existing Instances SyncExamples.id_texts SyncExamples.id_parses codec joins_codec joins_read_back texts.

(** The control stream of a thread whose child was started before the daemon died. *)
Definition as_new (e : EventRecord) : NewEventRecord :=
  mk_new_event (event_id e) (coordinates e) (created_at_ms e) (kind e) (origin e) (provenance e) (payload e).
Definition left : Handle := (log_append control (map as_new (log_events (spawn_store raced_world) control)) empty).1.

Lemma left_valid : log_valid left.
Proof. exact (proj1 (log_append_grew control _ _ nothing_valid)). Qed.
Lemma left_unjoined : joins_unique left.
Proof.
  intros stream spawned e1 e2 Hin _ [Hk _] _. exfalso. destruct (decide (stream = control)) as [->|Hne].
  - assert (Forall (fun e => kind e <> ThreadJoined) (log_events left control)) as Hall
      by (apply (bool_decide_unpack _); vm_compute; exact I).
    rewrite Forall_forall in Hall. by apply (Hall e1).
  - destruct (log_append_grew control (map as_new (log_events (spawn_store raced_world) control)) _ nothing_valid) as (_ & Ho & _).
    fold left in Ho. rewrite Ho in Hin by done. rewrite empty_log in Hin. by apply elem_of_nil in Hin.
Qed.

Definition draw (n : nat) : EventRecordId * Z := (N.of_nat (50 + n), 9%Z).
Definition swept : Handle * nat := recover_threads draw me (log_events left control) 0 left.


(** Nothing is left to a second sweep. *)
Definition swept_again : Handle * nat := recover_threads draw me (log_events swept.1 control) 0 swept.1.

(** ** Processes *)

Definition process (id : string) : HandleDispatchEnvelope := {|
  envelope_dispatch_id := id; envelope_handle := {| handle_kind := HandleProcess; handle_id := id |}; envelope_consumer := me;
  envelope_command_digest := "digest" |}.
Definition ended (id : string) : HandleTerminalEnvelope := {|
  terminal_dispatch_id := id; terminal_handle := {| handle_kind := HandleProcess; handle_id := id |}; terminal_outcome := OutcomeCompleted;
  terminal_outcome_reason := None; terminal_result := None; terminal_result_schema_id := None; terminal_artifact_refs := [];
  terminal_usage := None; terminal_retryable := false |}.
#[local] Instance handles : HandleCodec := {|
  decode_ingress_witness v := Ok (value_get "content" v);
  decode_ingress_content v := match v with JObject [(k, p)] => Ok (ContentEvent k p) | _ => Err "no event" end;
  decode_dispatch_envelope v := ok_or (process <$> as_str v) "no dispatch";
  decode_terminal_envelope v := ok_or (ended <$> as_str v) "no outcome" |}.
Definition ingress (id : EventRecordId) (content : string) (dispatch : string) : EventRecord :=
  from_new control 1 (witnessed id 5 me IoIngressReceived (jobj [("content", JObject [(content, JString dispatch)])])).
Definition processes : list EventRecord :=
  [ingress 1 HANDLE_DISPATCH_CONTENT_KIND "p2"; ingress 2 HANDLE_DISPATCH_CONTENT_KIND "p1"; ingress 3 HANDLE_OUTCOME_CONTENT_KIND "p2";
   ingress 4 HANDLE_DISPATCH_CONTENT_KIND "p1"].

End RecoveryExamples.
